(* ===== verification/_CoqProject ===== *)
-Q . S2P
Prelude.v
Api.v
GoStd.v
RenderPlan.v
MapEntries.v
MapDelta.v
Composer.v
CrtList.v
Index.v
Diff.v
InPlace.v
Rules.v
DiffProps.v
Guards.v
Worker.v
Converge.v
Scenario.v
Cli.v
CliProps.v
CliResponse.v
CliResponseProps.v
CliExec.v
CliExecProps.v
CliExecClaims.v
CliExecAccounts.v
CliInventory.v
Deferrals.v
CliSession.v
CliSessionProps.v
FileTree.v
FileTreeProps.v
AgentState.v
Agent.v
AgentRecovery.v
AgentProps.v
AgentClaims.v
AgentInvariants.v
AgentIdentity.v
AgentScenario.v
KeyOrder.v
DeltaTree.v
DeltaHash.v
DeltaHashProps.v
PersistentTree.v
FrozenBase.v
PersistentTreeProps.v
TreeWalk.v
TreeClaims.v
TreeChanges.v
TreeChangesProps.v
TreeScenario.v
MapReparse.v
IncGraph.v
IncSession.v
IncEval.v
IncTermination.v
IncIndex.v
IncReference.v
IncSound.v
IncEvalSound.v
IncApply.v
IncCommit.v
IncEditor.v
IncCommitProps.v
IncPublish.v
IncSystem.v
IncLoops.v
IncClaims.v
OrderedSet.v
OrderedSetProps.v
OrderedSetClaims.v
Threads.v
SchedState.v
Scheduler.v
SchedSystem.v
SchedInv.v
SchedSections.v
SchedRuns.v
SchedSafe.v
SchedClaims.v
