(* ===== verification/Prelude.v ===== *)
(** * HAPTIC: verification of the HAProxy template ingress controller

    ** The program

    HAPTIC watches Kubernetes resources, renders them through templates into a
    complete HAProxy configuration (a main config, map files, certificates,
    crt-lists, general files) and brings every HAProxy pod to the render. Next
    to the files a render yields a plan ([src/pkg/dataplane/renderplan]): what
    the output declares about itself, backend by backend and file by file.

    A deployment has two halves. The controller compares the plan a pod applied
    with the new one ([src/pkg/dataplane/deployplan]) and decides whether the
    pod needs nothing but files, a batch of runtime ops, or a reload. The agent
    beside HAProxy ([src/pkg/dataplane/agent]) receives the files and the ops,
    fences the request against its own state, writes the tree with a journal
    that can undo it, sends the ops to the worker over the runtime socket or
    reloads the master, and answers with the state it then holds. The wire
    contract between the halves is [src/pkg/dataplane/agent/api].

    In the controller the deployment scheduler ([src/pkg/controller/deployer])
    decides what is sent when: one goroutine handles the events of renders,
    verdicts, pods and completions, another publishes one deployment after the
    other, and timers retry what failed. Around it the render gate may hold
    renders back, and a drain may end the term.

    Renders are incremental: [src/pkg/incremental] keeps a graph of queries over
    inputs. A session begins on the graph's current generation, applies changed
    inputs, evaluates queries, running only those whose dependencies changed,
    and commits a new generation once the inputs it observed are verified. The
    generations are kept in the immutable ordered maps of
    [src/pkg/persistenttree].

    ** The files, and what they model

    - [Prelude]: tactics, hint database, list and option lemmas.
    - [Api]: [agent/api] ([api.go], [limits.go], [op_batches.go], [tokens.go]).
    - [GoStd]: the functions of the Go standard library the code calls.
    - [RenderPlan], [MapEntries], [MapReparse]: [renderplan/plan.go],
      [backend_equal.go] and [mapentries.go].
    - [MapDelta]: [deployplan/maps.go]. [Composer]: [caps.go], [keywords.go],
      [servers.go]. [CrtList]: the crt-list half of [certs.go]. [Index]:
      [index.go], [exact.go], [inventory.go]. [Diff]: [diff.go], [backends.go],
      the rest of [certs.go] and [maps.go]. [InPlace]: [inplace.go] and the
      verdict of [diff.go].
    - [Rules], [DiffProps], [Guards]: the invariants of a diff, over the step
      relation [bstep] on the builder.
    - [Worker], [Converge], [Scenario]: the HAProxy worker as an interface
      (class [Runtime]) with the refusals the sources document, the refinement of the runtime path against it, and a
      worked deployment that instantiates it.
    - [Cli], [CliProps]: [agent/cli] ([tokens.go], [program.go],
      [program_files.go], the framing of [client.go]).
    - [CliResponse], [CliResponseProps]: [response.go], how the answer of a batch
      is attributed to its commands.
    - [CliExec], [CliExecProps], [CliExecClaims], [CliExecAccounts]: the executor of [client.go] over a socket, against the
      reference of running one command after the other.
    - [CliInventory]: [inventory.go] and [stats.go]. [Deferrals], [CliSession],
      [CliSessionProps]: [deferred.go] and [session.go].
    - [FileTree], [FileTreeProps]: [agent/files] ([path.go], [store.go],
      [journal.go], [write.go], [transaction.go]).
    - [AgentState], [Agent], [AgentRecovery]: [agent/server] ([state.go],
      [server.go], [apply.go], [transaction.go], [statemachine.go],
      [reload.go], [handlers.go]), in a state monad over the server, the run in
      flight and the calls made to the outside.
    - [AgentProps], [AgentClaims], [AgentInvariants], [AgentIdentity],
      [AgentScenario]: what applies, reloads, rollbacks and restarts guarantee.
    - [KeyOrder], [DeltaTree], [DeltaHash], [PersistentTree], [TreeChanges]:
      [src/pkg/persistenttree] ([tree.go], [delta_hash.go], [changes.go]), the
      immutable ordered map the incremental renderer keeps its versions in.
    - [DeltaHashProps], [FrozenBase], [PersistentTreeProps], [TreeWalk],
      [TreeClaims], [TreeChangesProps], [TreeScenario]: its correctness.

    - [IncGraph], [IncSession], [IncEval], [IncCommit]: [src/pkg/incremental]
      ([types.go], [value.go], [graph.go]; [session.go]; [evaluation.go];
      [commit.go], [prepared_commit.go]). A query function is a [QueryProg], the
      tree of its calls to the reader; a session call is a function of the
      session that may fail and keeps what it changed ([SM]); a commit runs over
      the graph, the session and the caller's phases ([CM]). The trees of a
      generation are the maps they hold, the ordered sets the sets.
    - [IncReference]: evaluation from scratch ([evals], [queryValue]) and the
      history of past values. [IncIndex], [IncSound], [IncEvalSound],
      [IncApply]: the reverse index, the frames and the invariant of a session
      over evaluation, changes of inputs and evictions. [IncEditor],
      [IncCommitProps], [IncPublish]: the generation a commit makes and its
      publication. [IncSystem]: any number of sessions over the life of a graph,
      as a step relation. [IncTermination], [IncLoops]: no call runs forever.
      [IncClaims]: the guarantees, and runs at their edge.
    - [OrderedSet]: [src/pkg/incremental/internal/orderedset], the sets of the
      reverse index. [OrderedSetProps], [OrderedSetClaims]: the balanced tree, the packed slice, the roots and
      their histories.
    - [Threads]: goroutines as programs of atomic sections (a critical section, a
      channel operation, a published event), and a rely-guarantee rule for one
      program among others ([runs]). [SchedState], [Scheduler]: the
      scheduler of [src/pkg/controller/deployer] ([scheduler.go],
      [scheduler_logic.go], [scheduler_handlers.go], [scheduler_drain.go], the
      scheduler's part of [retained.go], [output_identity.go] and
      [fleet_capabilities.go]), with [dataplane/version.go] and
      [controller/coalesce]; a handler is a program over the scheduler's state.
      [SchedSystem]: the goroutines of a scheduler over its leadership terms, as
      an executable step function. [SchedInv]: what a history may
      look like, the invariant, and what each goroutine relies on.
      [SchedSections], [SchedRuns]: every section and every program keeps it.
      [SchedSafe], [SchedClaims]: the whole system, and the guarantees.
    Names are the source's; a field [f] of a struct [T] is [T_f] where two
    structs share it, and a keyword of this language carries an underscore.

    ** What the theorems show

    - The diff. A verdict that avoids a reload is only given when nothing
      outside the worker's reach changed ([no_reload_preserves_static_config]);
      the ops of such a verdict are accepted one after the other and leave the
      worker with the render's backends and servers ([runtime_ops_converge], for
      well-formed plans and a pod that is what it reported: [plans_ok], [pod_ok]),
      in an order that creates before it routes and unroutes before it deletes
      ([runtime_ops_ordered]). Map and crt-list deltas replay to the new file
      ([unordered_delta_correct], [ordered_delta_order], [crt_list_delta_exact]:
      of a crt-list that repeats a certificate, only the order), and a map file re-read from its earlier version
      is the file read afresh ([map_readers_agree]). Ops are of kinds the agent knows, in batches
      within its budgets, under its queue limits. The recursion of the diff
      stops ([diff_total]).
    - The runtime commands. No byte of a name, path, key or value changes how a
      batch is split into commands ([batch_line_framing]); payloads are cut
      between lines and read back as the file does
      ([map_payload_roundtrip]), and a listing reads back what the worker holds
      ([map_listing_roundtrip]). Batched execution is running the commands one by
      one ([execute_refines_sequential]), in lines of one command or within the
      limit and with a verdict per op ([execute_accounts]). Deferred deletes stay within their
      queues whatever the interleaving ([deferred_queue_safe]), run only on the
      worker they were queued for ([deferred_delete_guarded]) and come to an end
      ([deferred_deletes_settle]).
    - The tree. Paths stay below the base ([accepted_path_inside_base]); a
      patched part is what the manifest declares ([staged_patch_exact]); the
      config is written last ([write_config_last]); every change since the last
      known good set can be undone whatever fails ([rollback_restores_lkg]).
    - The agent. The fence is a compare-and-swap ([fence_compare_and_swap]); an
      apply is all or nothing ([apply_all_or_nothing]) and its answer is its
      state ([apply_commit_truthful]); plan proofs are never used twice
      ([reserved_proofs_fresh]); the agent's own invariant checks never fail
      where the tree is owned ([apply_checks_pass]); a restart forgets what it
      cannot have observed ([restart_forgets_observations]).
    - The persistent tree. Transactions answer what a finite map answers and
      never diverge, panic or run forever ([tree_refines_map]); walks are in key
      order and prefix walks are ranges ([walks_in_key_order]); the change walk
      reports every difference once ([changes_reported_exactly]); construction
      refuses unordered entries and the delta is of logarithmic depth.
    - The incremental graph. In every state sessions can bring a graph to, by any
      interleaving of begins, calls, errors and commits, an evaluation answers
      what evaluating from scratch gives ([evaluation_from_scratch]) and so does
      every committed clean value ([committed_value_from_scratch]); a commit
      installs a verified generation or changes nothing ([commit_atomic]); no
      commit overwrites another ([one_commit_per_generation]); every call ends
      ([session_calls_terminate]). The first two are for queries that are blind
      to the revisions of their inputs ([obliviousGraph]: a query may name a
      revision it was shown again in an exact observation, as the renderer's
      queries do, but nothing else of it depends on the token) and for sessions
      that do not evaluate a query they evicted ([tidy]); [IncClaims] shows what
      happens otherwise. The other three hold for any queries and sessions.
    - The ordered sets. A root and any operations on it are a finite set
      ([ordered_set_refines]), which is what the model of the graph keeps in its
      reverse index; the representation is kept and no other authority or scope
      is served ([ordered_set_typed]).
    - The scheduler. In every interleaving of its goroutines deployments go out
      one at a time, the newest revision first, for renders that were promoted
      or recovered ([single_deployment]); a held render is not promoted
      ([held_render_waits]); nothing but the absence of work, an open deployment
      or the loss of the term keeps the deploy loop waiting, and the completion
      of the open deployment wakes it ([scheduler_never_stalls]); retries are
      counted, bounded and never wait longer than a minute
      ([retries_bounded]).
    - Divergences. [ordered_duplicate_swap_missed],
      [repeated_certificate_missed], [new_certificate_named_too_early],
      [far_reload_polled_at_once],
      [default_weight_masks_server_weight],
      [pending_reload_misnamed_after_abort],
      [failed_promotion_loses_rollback], [unsent_op_reported_ok],
      [stale_dependency_fails], [revision_change_unseen],
      [drain_dispatches_other_plan], [refused_render_dispatched] and
      [retry_dispatches_refused_render] are proved on
      concrete runs: they pin
      down what the code does where its comments promise more.

    ** The outside

    HAProxy, the kernel, the clock, the digests and the hash functions are not
    code of this repository. They are arguments: [Runtime] for the worker's
    answers and what it knows besides its backends ([Knowledge]: version,
    defaults sections, loaded files), [io] and [Env] for system calls, clock, worker and master socket,
    each numbered by call so that two calls may differ, [fingerprint] for the
    content digests, [MapHash] for [hash/maphash], [Identity] and
    [ChangeIdentity] for pointer equality. For the scheduler, [Config] has its digests and the
    name of the published resource; which event arrives, how the clock moves,
    when a timer fires, which branch of a [select] is taken and what a recovery
    worker finds are labels of a step, so that its theorems hold for all of
    them; an event that completes a deployment is assumed to come after the
    deployment was published. What a theorem needs of them is a hypothesis of
    that theorem or a law of the class, and every such theorem is applied to a
    concrete instance.

    ** Fuel and bounds

    - [Diff] takes the depth of its recursion; [diff_total] shows that two
      levels give the answer and more do not change it.
    - [repeatLoop] runs [MaxMapDelRepeat] times, which is the loop the code
      writes; the drain's loops run over the length the queue had.
    - [chunkFrom], [chunksOf] and [trimLeftFuel] recurse once per element and
      get the length of their input; each step consumes at least one.
    - [stagePartsFrom] reads [MaxFiles] parts and one more, which is the loop
      the code writes.
    - The hash trie has [hashLevels] = 13 levels of five bits, which cover a
      64-bit hash; the change walk takes one more for its leaves. The binary
      search and the probes take the length of what they search, the capacity
      loop its target, the bit loop 32. [tree_refines_map],
      [walks_in_key_order] and [changes_reported_exactly] show that none of
      them runs out.
    - [buildSortedNode] and [searchLoop] take the length of their slice, which they
      halve ([buildSortedNode_spec], [searchLoop_spec]).
    - [evaluateNode] takes its depth: more than the defined queries off the stack
      is enough, since the stack repeats none. [invalidationLoop] and
      [removeLoop] take the size of [queryUniverse], the queries they can come
      across, and the heap's sifts the length of the heap ([session_calls_terminate]).
    - The scheduler needs no fuel: a program of sections is finite, and the loops of
      its goroutines are steps of the system. Its revisions, generations and
      epochs are 64-bit counters in the code and integers here: they count
      events and do not wrap. The shift of the retry's wait and the sum of a
      follow-up's wait do, and are written out.
    - Generations and counters are 64-bit: a graph refuses to begin a session at
      the last generation, and a commit refuses a counter that would overflow.
    - A Go [int] is a [Z] or a [nat] where the code bounds it by a length; sums
      that the code guards against overflow are guarded the same way here.

    ** Not modelled

    The template engine, the renderer with its incremental rendering session, the
    Kubernetes clients and stores, the webhooks, the configuration parser with
    its generated validators, metrics, leader election, the commands and what
    carries a scheduled deployment to the pods are not
    part of the development: they are the parts that produce the plan and
    the files, or plumbing around them, and every theorem here holds for
    whatever plan they produce. Within the modelled packages, JSON encoding,
    HTTP handling, logging, metrics and the goroutines that only forward to the
    modelled functions are left out; of the incremental graph, the batch
    evaluations, the drafts kept between preparing and publishing and the
    pointer seals that authenticate its trees are left out; the apply lock is modelled by running the
    operations one at a time. *)

From stdpp Require Import base list list_numbers gmap strings sorting.

(** ** Hint databases and shared tactics *)

Create HintDb haptic.

(** Case analysis on every [decide], [bool_decide] and [match] of the goal,
    closing what the hypotheses contradict. *)
Ltac go_cases :=
  repeat first [case_match | case_decide | case_bool_decide]; simplify_eq/=.

(** Destructs the boolean conjunctions, disjunctions and negations that a Go
    condition leaves in a hypothesis. *)
Ltac split_bools :=
  repeat match goal with
  | H : _ && _ = true |- _ => apply andb_true_iff in H; destruct H
  | H : _ || _ = false |- _ => apply orb_false_iff in H; destruct H
  | H : negb _ = true |- _ => apply negb_true_iff in H
  | H : negb _ = false |- _ => apply negb_false_iff in H
  | H : bool_decide _ = true |- _ => apply bool_decide_eq_true in H
  | H : bool_decide _ = false |- _ => apply bool_decide_eq_false in H
  end.

(** ** Go containers *)

(** [slices.Contains]. *)
Definition contains (l : list string) (s : string) : bool := bool_decide (s ∈ l).

(** [sort.Strings] / [slices.Sort]: byte order, which [String.le] is. *)
Definition sort_strings (l : list string) : list string := merge_sort String.le l.

Lemma sort_strings_Permutation l : sort_strings l ≡ₚ l.
Proof. apply merge_sort_Permutation. Qed.

Lemma sort_strings_nil l : sort_strings l = [] → l = [].
Proof. intros H. apply Permutation_nil. by rewrite <-H, sort_strings_Permutation. Qed.

Lemma sort_strings_StronglySorted l : StronglySorted String.le (sort_strings l).
Proof. apply (StronglySorted_merge_sort _). Qed.

(** Two lists are permutations of each other exactly when they sort alike. *)
Lemma sort_strings_eq l k : sort_strings l = sort_strings k ↔ l ≡ₚ k.
Proof.
  split.
  - intros H. by rewrite <-(sort_strings_Permutation l), H, sort_strings_Permutation.
  - intros H. apply (StronglySorted_unique String.le);
      [apply sort_strings_StronglySorted..|]. by rewrite !sort_strings_Permutation.
Qed.

(** ** Lists *)

Section lists.
Context {A : Type}.

Lemma filter_none (P : A → Prop) `{∀ x, Decision (P x)} (l : list A) :
  Forall (λ x, ¬ P x) l → filter P l = [].
Proof. induction 1; [done|]. rewrite filter_cons_False; done. Qed.

Lemma filter_all (P : A → Prop) `{∀ x, Decision (P x)} (l : list A) :
  Forall P l → filter P l = l.
Proof. induction 1; [done|]. rewrite filter_cons_True; [by f_equal|done]. Qed.

(** Only the elements of the list matter to a filter's predicate. *)
Lemma filter_ext_elem (P Q : A → Prop) `{∀ x, Decision (P x), ∀ x, Decision (Q x)} (l : list A) :
  (∀ x, x ∈ l → P x ↔ Q x) → filter P l = filter Q l.
Proof.
  induction l as [|x l IH]; intros HPQ; [done|].
  rewrite !filter_cons, IH by (intros; apply HPQ; set_solver).
  assert (P x ↔ Q x) by (apply HPQ; set_solver). by repeat case_decide; try tauto.
Qed.

Lemma filter_fmap {B} (f : A → B) (P : B → Prop) `{∀ x, Decision (P x)} (l : list A) :
  filter P (f <$> l) = f <$> filter (λ x, P (f x)) l.
Proof.
  induction l as [|x l IH]; [done|]. rewrite fmap_cons, !filter_cons, IH.
  by case_decide.
Qed.

Lemma Forall_concat (P : A → Prop) (ls : list (list A)) :
  Forall (Forall P) ls → Forall P (concat ls).
Proof. induction 1; [constructor|]. by apply Forall_app. Qed.
End lists.

(** ** Indexes

    A Go map filled from a slice keeps the last element of every key. *)

Section index.
Context {K A : Type} `{Countable K} (key : A → K).

Lemma index_lookup (l : list A) (k : K) :
  foldl (λ (m : gmap K A) x, <[key x := x]> m) ∅ l !! k = last (filter (λ x, key x = k) l).
Proof.
  induction l as [|x l IH] using rev_ind; [done|].
  rewrite foldl_app. simpl. rewrite lookup_insert, filter_app, IH, filter_cons, filter_nil.
  case_decide; [by rewrite last_snoc|]. by rewrite app_nil_r.
Qed.

Lemma index_lookup_Some l k x :
  foldl (λ (m : gmap K A) x, <[key x := x]> m) ∅ l !! k = Some x → x ∈ l ∧ key x = k.
Proof. rewrite index_lookup. intros Hx%last_Some_elem_of. by apply list_elem_of_filter in Hx as [??]. Qed.

Lemma index_lookup_is_Some l k :
  is_Some (foldl (λ (m : gmap K A) x, <[key x := x]> m) ∅ l !! k) ↔ ∃ x, x ∈ l ∧ key x = k.
Proof.
  rewrite index_lookup, last_is_Some. split.
  - intros Hne. destruct (filter _ l) as [|x l'] eqn:E; [done|]. exists x.
    assert (x ∈ filter (λ x, key x = k) l) as [??]%list_elem_of_filter by (rewrite E; left). done.
  - intros (x & Hx & Hk) Hnil.
    assert (x ∈ filter (λ x, key x = k) l) as Hin by by apply list_elem_of_filter.
    rewrite Hnil in Hin. by apply not_elem_of_nil in Hin.
Qed.

(** Distinct keys: the index holds exactly the elements. *)
Lemma index_lookup_NoDup l x :
  NoDup (key <$> l) → x ∈ l → foldl (λ (m : gmap K A) x, <[key x := x]> m) ∅ l !! key x = Some x.
Proof.
  intros Hnd Hx. destruct (index_lookup_is_Some l (key x)) as [_ Hs].
  destruct Hs as [y Hy]; [by eauto|]. rewrite Hy. f_equal.
  apply index_lookup_Some in Hy as [Hy Hk].
  apply list_elem_of_lookup in Hx as [i Hi], Hy as [j Hj].
  assert (i = j) as ->; [|congruence].
  apply (NoDup_lookup (key <$> l) i j (key x)); [done|..];
    rewrite list_lookup_fmap, ?Hi, ?Hj; simpl; congruence.
Qed.
End index.

(** ** Loops with an early return

    A Go loop that appends to a slice and may return early is [concatM] of its
    body: [None] is the early return. *)

Definition concatM {A B} (f : A → option (list B)) (l : list A) : option (list B) :=
  ls ← mapM f l; Some (concat ls).

Section concatM.
Context {A B : Type}.
Implicit Types f g : A → option (list B).

Lemma concatM_nil f : concatM f [] = Some [].
Proof. done. Qed.

Lemma concatM_cons f x l :
  concatM f (x :: l) = ys ← f x; zs ← concatM f l; Some (ys ++ zs).
Proof. unfold concatM. simpl. destruct (f x), (mapM f l); done. Qed.

Lemma concatM_app f l k :
  concatM f (l ++ k) = ys ← concatM f l; zs ← concatM f k; Some (ys ++ zs).
Proof.
  induction l as [|x l IH]; cbn [app].
  - rewrite concatM_nil. cbn. by destruct (concatM f k).
  - rewrite !concatM_cons, IH. destruct (f x), (concatM f l), (concatM f k); simpl; try done.
    by rewrite app_assoc.
Qed.

Lemma concatM_ext f g l : (∀ x, x ∈ l → f x = g x) → concatM f l = concatM g l.
Proof.
  induction l as [|x l IH]; intros H; [done|].
  rewrite !concatM_cons, H by set_solver. rewrite IH; [done|]. set_solver.
Qed.

(** A body that appends nothing on every element appends nothing. *)
Lemma concatM_skip f l : (∀ x, x ∈ l → f x = Some []) → concatM f l = Some [].
Proof.
  induction l as [|x l IH]; intros H; [done|].
  rewrite concatM_cons, H by set_solver. rewrite IH; [done|]. set_solver.
Qed.

Lemma concatM_elem_Some f l ys x : concatM f l = Some ys → x ∈ l → is_Some (f x).
Proof.
  intros (ls & HM & _)%bind_Some. revert x. apply Forall_forall.
  apply (mapM_is_Some_1 f). by eauto.
Qed.

Lemma concatM_Forall (P : B → Prop) f l ys :
  (∀ x zs, x ∈ l → f x = Some zs → Forall P zs) → concatM f l = Some ys → Forall P ys.
Proof.
  revert ys. induction l as [|x l IH]; intros ys Hf.
  { rewrite concatM_nil. intros [= <-]. constructor. }
  rewrite concatM_cons. destruct (f x) eqn:Hx, (concatM f l) eqn:Hl; simpl; try done.
  intros [= <-]. apply Forall_app. split; [apply (Hf x); [set_solver|done]|].
  apply IH; [|done]. intros y zs Hy. apply Hf. set_solver.
Qed.
End concatM.
