(* ===== verification/Api.v ===== *)
(** * The wire contract between the controller and the agent

    Models [src/pkg/dataplane/agent/api]: the limits both ends assert, the op
    kinds, the typed runtime op, the manifest of an apply with its batch
    budgets, and the token grammar ([SafeToken], [SafePayloadValue]) that keeps
    a rendered string from becoming a second runtime command. *)

From stdpp Require Import base list list_numbers gmap strings.
From S2P Require Import Prelude.

Open Scope Z_scope.

(** ** Limits (limits.go) *)

Definition MaxFiles : Z := 4096.
Definition MaxPlanBlobBytes : Z := Z.shiftl 8 20.
Definition MaxPathBytes : Z := 255.
Definition MaxOpsPerApply : nat := 1000.
Definition MaxOpBatches : nat := 8.
Definition MaxPendingServerDeletes : Z := 1000.
Definition MaxPendingBackendDeletes : Z := 100.
Definition MaxDeferredAttempts : Z := 5.
Definition MaxMapEntries : Z := Z.shiftl 1 18.
Definition MaxCommandLineBytes : Z := Z.shiftl 12 10.
Definition MaxPayloadBytes : Z := Z.shiftl 12 10.
Definition MaxWaitBudgetMs : Z := 30000.
Definition MaxMapDelRepeat : nat := 64.
Definition MaxInventoryEntries : nat := 4096.

(** [ExactIdentityVersion]. *)
Definition ExactIdentityVersion : Z := 1.

(** ** File kinds, apply modes and op kinds (api.go) *)

Definition FileKindConfig : string := "config".
Definition FileKindMap : string := "map".
Definition FileKindCert : string := "cert".
Definition FileKindCA : string := "ca".
Definition FileKindCRTList : string := "crtlist".
Definition FileKindGeneral : string := "general".

Definition ModeAuto : string := "auto".
Definition ModeReload : string := "reload".
Definition ModeRevertLKG : string := "revert_lkg".

Definition OpBackendAdd : string := "backend_add".
Definition OpBackendPublish : string := "backend_publish".
Definition OpBackendUnpublish : string := "backend_unpublish".
Definition OpBackendDel : string := "backend_del".
Definition OpBackendWaitRemovable : string := "wait_be_removable".
Definition OpServerAdd : string := "server_add".
Definition OpServerEnable : string := "server_enable".
Definition OpServerDisable : string := "server_disable".
Definition OpServerSetAddr : string := "server_set_addr".
Definition OpServerSetWeight : string := "server_set_weight".
Definition OpServerSetState : string := "server_set_state".
Definition OpServerWaitRemovable : string := "wait_srv_removable".
Definition OpShutdownSessions : string := "shutdown_sessions".
Definition OpServerDel : string := "server_del".
Definition OpMapAdd : string := "map_add".
Definition OpMapSet : string := "map_set".
Definition OpMapDel : string := "map_del".
Definition OpMapReplace : string := "map_replace".
Definition OpCertSet : string := "cert_set".
Definition OpCertNew : string := "cert_new".
Definition OpCASet : string := "ca_set".
Definition OpCANew : string := "ca_new".
Definition OpCRTListAdd : string := "crtlist_add".
Definition OpCRTListDel : string := "crtlist_del".

(** ** Keywords and ops *)

(** [KeywordArg]: one HAProxy keyword with its arguments, as data. *)
Record KeywordArg := MkKeywordArg {
  KeywordArg_Name : string;
  KeywordArg_Args : list string;
}.

#[export] Instance KeywordArg_eq_dec : EqDecision KeywordArg.
Proof. solve_decision. Defined.

(** [Op]: one typed runtime command. Fields a kind does not use are empty. *)
Record Op := MkOp {
  Op_Kind : string;
  Op_Backend : string;
  Op_Server : string;
  Op_Profile : string;
  Op_Mode : string;
  Op_GUID : string;
  Op_Address : string;
  Op_Port : Z;
  Op_Weight : option Z;
  Op_State : string;
  Op_Health : bool;
  Op_Keywords : list KeywordArg;
  Op_TimeoutMs : Z;
  Op_Path : string;
  Op_Key : string;
  Op_Value : string;
  Op_Cert : string;
  Op_Options : list KeywordArg;
  Op_SNIFilters : list string;
}.

#[export] Instance Op_eq_dec : EqDecision Op.
Proof. solve_decision. Defined.

(** [Op{Kind: kind}]: the composite literal with every other field zero. *)
Definition op (kind : string) : Op :=
  {| Op_Kind := kind; Op_Backend := ""; Op_Server := ""; Op_Profile := "";
     Op_Mode := ""; Op_GUID := ""; Op_Address := ""; Op_Port := 0;
     Op_Weight := None; Op_State := ""; Op_Health := false; Op_Keywords := [];
     Op_TimeoutMs := 0; Op_Path := ""; Op_Key := ""; Op_Value := "";
     Op_Cert := ""; Op_Options := []; Op_SNIFilters := [] |}.

(** The composite literals of one command family: backend and server ops. *)
Definition op_server (kind backend server : string) : Op :=
  {| Op_Kind := kind; Op_Backend := backend; Op_Server := server;
     Op_Profile := ""; Op_Mode := ""; Op_GUID := ""; Op_Address := "";
     Op_Port := 0; Op_Weight := None; Op_State := ""; Op_Health := false;
     Op_Keywords := []; Op_TimeoutMs := 0; Op_Path := ""; Op_Key := "";
     Op_Value := ""; Op_Cert := ""; Op_Options := []; Op_SNIFilters := [] |}.

(** [Op{Kind, Path, Key, Value}]: the map commands. *)
Definition op_map (kind path key value : string) : Op :=
  {| Op_Kind := kind; Op_Backend := ""; Op_Server := ""; Op_Profile := "";
     Op_Mode := ""; Op_GUID := ""; Op_Address := ""; Op_Port := 0;
     Op_Weight := None; Op_State := ""; Op_Health := false; Op_Keywords := [];
     Op_TimeoutMs := 0; Op_Path := path; Op_Key := key; Op_Value := value;
     Op_Cert := ""; Op_Options := []; Op_SNIFilters := [] |}.

(** Field updates, for the literals that set one more field. *)
Definition with_Profile_Mode_GUID (p m g : string) (o : Op) : Op :=
  {| Op_Kind := Op_Kind o; Op_Backend := Op_Backend o; Op_Server := Op_Server o;
     Op_Profile := p; Op_Mode := m; Op_GUID := g; Op_Address := Op_Address o;
     Op_Port := Op_Port o; Op_Weight := Op_Weight o; Op_State := Op_State o;
     Op_Health := Op_Health o; Op_Keywords := Op_Keywords o;
     Op_TimeoutMs := Op_TimeoutMs o; Op_Path := Op_Path o; Op_Key := Op_Key o;
     Op_Value := Op_Value o; Op_Cert := Op_Cert o; Op_Options := Op_Options o;
     Op_SNIFilters := Op_SNIFilters o |}.

Definition with_Address_Port (a : string) (p : Z) (o : Op) : Op :=
  {| Op_Kind := Op_Kind o; Op_Backend := Op_Backend o; Op_Server := Op_Server o;
     Op_Profile := Op_Profile o; Op_Mode := Op_Mode o; Op_GUID := Op_GUID o;
     Op_Address := a; Op_Port := p; Op_Weight := Op_Weight o;
     Op_State := Op_State o; Op_Health := Op_Health o;
     Op_Keywords := Op_Keywords o; Op_TimeoutMs := Op_TimeoutMs o;
     Op_Path := Op_Path o; Op_Key := Op_Key o; Op_Value := Op_Value o;
     Op_Cert := Op_Cert o; Op_Options := Op_Options o;
     Op_SNIFilters := Op_SNIFilters o |}.

Definition with_Keywords (k : list KeywordArg) (o : Op) : Op :=
  {| Op_Kind := Op_Kind o; Op_Backend := Op_Backend o; Op_Server := Op_Server o;
     Op_Profile := Op_Profile o; Op_Mode := Op_Mode o; Op_GUID := Op_GUID o;
     Op_Address := Op_Address o; Op_Port := Op_Port o; Op_Weight := Op_Weight o;
     Op_State := Op_State o; Op_Health := Op_Health o; Op_Keywords := k;
     Op_TimeoutMs := Op_TimeoutMs o; Op_Path := Op_Path o; Op_Key := Op_Key o;
     Op_Value := Op_Value o; Op_Cert := Op_Cert o; Op_Options := Op_Options o;
     Op_SNIFilters := Op_SNIFilters o |}.

Definition with_Weight (w : Z) (o : Op) : Op :=
  {| Op_Kind := Op_Kind o; Op_Backend := Op_Backend o; Op_Server := Op_Server o;
     Op_Profile := Op_Profile o; Op_Mode := Op_Mode o; Op_GUID := Op_GUID o;
     Op_Address := Op_Address o; Op_Port := Op_Port o; Op_Weight := Some w;
     Op_State := Op_State o; Op_Health := Op_Health o;
     Op_Keywords := Op_Keywords o; Op_TimeoutMs := Op_TimeoutMs o;
     Op_Path := Op_Path o; Op_Key := Op_Key o; Op_Value := Op_Value o;
     Op_Cert := Op_Cert o; Op_Options := Op_Options o;
     Op_SNIFilters := Op_SNIFilters o |}.

Definition with_State (s : string) (o : Op) : Op :=
  {| Op_Kind := Op_Kind o; Op_Backend := Op_Backend o; Op_Server := Op_Server o;
     Op_Profile := Op_Profile o; Op_Mode := Op_Mode o; Op_GUID := Op_GUID o;
     Op_Address := Op_Address o; Op_Port := Op_Port o; Op_Weight := Op_Weight o;
     Op_State := s; Op_Health := Op_Health o; Op_Keywords := Op_Keywords o;
     Op_TimeoutMs := Op_TimeoutMs o; Op_Path := Op_Path o; Op_Key := Op_Key o;
     Op_Value := Op_Value o; Op_Cert := Op_Cert o; Op_Options := Op_Options o;
     Op_SNIFilters := Op_SNIFilters o |}.

Definition with_Health (h : bool) (o : Op) : Op :=
  {| Op_Kind := Op_Kind o; Op_Backend := Op_Backend o; Op_Server := Op_Server o;
     Op_Profile := Op_Profile o; Op_Mode := Op_Mode o; Op_GUID := Op_GUID o;
     Op_Address := Op_Address o; Op_Port := Op_Port o; Op_Weight := Op_Weight o;
     Op_State := Op_State o; Op_Health := h; Op_Keywords := Op_Keywords o;
     Op_TimeoutMs := Op_TimeoutMs o; Op_Path := Op_Path o; Op_Key := Op_Key o;
     Op_Value := Op_Value o; Op_Cert := Op_Cert o; Op_Options := Op_Options o;
     Op_SNIFilters := Op_SNIFilters o |}.

Definition with_TimeoutMs (t : Z) (o : Op) : Op :=
  {| Op_Kind := Op_Kind o; Op_Backend := Op_Backend o; Op_Server := Op_Server o;
     Op_Profile := Op_Profile o; Op_Mode := Op_Mode o; Op_GUID := Op_GUID o;
     Op_Address := Op_Address o; Op_Port := Op_Port o; Op_Weight := Op_Weight o;
     Op_State := Op_State o; Op_Health := Op_Health o;
     Op_Keywords := Op_Keywords o; Op_TimeoutMs := t; Op_Path := Op_Path o;
     Op_Key := Op_Key o; Op_Value := Op_Value o; Op_Cert := Op_Cert o;
     Op_Options := Op_Options o; Op_SNIFilters := Op_SNIFilters o |}.

(** [Op{Kind, Path, Cert, Options, SNIFilters}]: the crt-list commands. *)
Definition op_crtlist (kind path cert : string) (options : list KeywordArg)
    (snis : list string) : Op :=
  {| Op_Kind := kind; Op_Backend := ""; Op_Server := ""; Op_Profile := "";
     Op_Mode := ""; Op_GUID := ""; Op_Address := ""; Op_Port := 0;
     Op_Weight := None; Op_State := ""; Op_Health := false; Op_Keywords := [];
     Op_TimeoutMs := 0; Op_Path := path; Op_Key := ""; Op_Value := "";
     Op_Cert := cert; Op_Options := options; Op_SNIFilters := snis |}.

(** ** Files, tokens, manifest *)

Record FilePatch := MkFilePatch {
  FilePatch_BaseDigest : string;
  FilePatch_BaseSize : Z;
  FilePatch_Offset : Z;
  FilePatch_Length : Z;
}.

Record File := MkFile {
  File_Path : string;
  File_Digest : string;
  File_Proof : string;
  File_Size : Z;
  File_Kind : string;
  File_ReloadOnChange : bool;
  File_Patch : option FilePatch;
}.

(** [Token]: leader epoch and render sequence, both [uint64]. *)
Record Token := MkToken {
  Token_LeaderEpoch : Z;
  Token_RenderSeq : Z;
}.

#[export] Instance Token_eq_dec : EqDecision Token.
Proof. solve_decision. Defined.

Record Manifest := MkManifest {
  Manifest_IdentityVersion : Z;
  Manifest_PlanID : string;
  Manifest_PlanProof : string;
  Manifest_PlanSchemaVersion : Z;
  Manifest_Token : Token;
  Manifest_ExpectedPrevPlanID : string;
  Manifest_ExpectedPrevPlanProof : string;
  Manifest_ExpectedPrevToken : Token;
  Manifest_ExpectedWorkerOpsPlanID : string;
  Manifest_ExpectedWorkerOpsPlanProof : string;
  Manifest_WorkerOpsPlanID : string;
  Manifest_WorkerOpsPlanProof : string;
  Manifest_ValidatedPlanID : string;
  Manifest_ValidatedPlanProof : string;
  Manifest_Files : list File;
  Manifest_Ops : list Op;
  Manifest_OpBatches : list (list Op);
  Manifest_InPlaceOps : list Op;
  Manifest_Mode : string;
}.

Record FileAt := MkFileAt {
  FileAt_Digest : string;
  FileAt_Proof : string;
  FileAt_Size : Z;
}.

#[export] Instance FileAt_eq_dec : EqDecision FileAt.
Proof. solve_decision. Defined.

(** [Inventory]: what the running worker has loaded. *)
Record Inventory := MkInventory {
  Inventory_Generation : Z;
  Inventory_Maps : list string;
  Inventory_Certs : list string;
  Inventory_CAFiles : list string;
  Inventory_CRLFiles : list string;
  Inventory_CRTLists : list string;
}.

(** [OpResult]: the verdict on one op. *)
Record OpResult := MkOpResult { OpResult_Kind : string; OpResult_OK : bool; OpResult_Output : string }.

(** [HAProxyInfo]: what the agent learned from the worker. *)
Record HAProxyInfo := MkHAProxyInfo {
  HAProxyInfo_Version : string;
  HAProxyInfo_FullVersion : string;
  HAProxyInfo_WorkerPID : Z;
  HAProxyInfo_WorkerStartTimeUnixMicros : Z;
}.

#[export] Instance HAProxyInfo_eq_dec : EqDecision HAProxyInfo.
Proof. solve_decision. Defined.

Definition HasWorkerIdentity (i : HAProxyInfo) : bool :=
  (0 <? HAProxyInfo_WorkerPID i) && (0 <? HAProxyInfo_WorkerStartTimeUnixMicros i).

Definition SameWorker (i other : HAProxyInfo) : bool :=
  HasWorkerIdentity i &&
  (HAProxyInfo_WorkerPID i =? HAProxyInfo_WorkerPID other) &&
  (HAProxyInfo_WorkerStartTimeUnixMicros i =? HAProxyInfo_WorkerStartTimeUnixMicros other).

(** ** Batch budgets (op_batches.go) *)

(** The refusals of [ValidateOpBatches]. *)
Inductive BatchError :=
  | TooManyOps (count : nat)
  | TooManyBatches (count : nat)
  | BadBatch (index len : nat).

(** The loop over [m.OpBatches]; [i] is the zero-based index. *)
Fixpoint validateBatches (i : nat) (batches : list (list Op)) : option BatchError :=
  match batches with
  | [] => None
  | batch :: rest =>
      if bool_decide (length batch = 0%nat) || (MaxOpsPerApply <? length batch)%nat
      then Some (BadBatch (i + 2) (length batch))
      else validateBatches (S i) rest
  end.

(** [Manifest.ValidateOpBatches]; [None] is the nil error. *)
Definition ValidateOpBatches (m : Manifest) : option BatchError :=
  let count := (length (Manifest_Ops m) + length (Manifest_InPlaceOps m))%nat in
  if (MaxOpsPerApply <? count)%nat then Some (TooManyOps count)
  else if (MaxOpBatches <=? length (Manifest_OpBatches m))%nat
  then Some (TooManyBatches (1 + length (Manifest_OpBatches m)))
  else validateBatches 0 (Manifest_OpBatches m).

(** [Manifest.RuntimeOps]: every runtime op in execution order. *)
Definition RuntimeOps (m : Manifest) : list Op :=
  if bool_decide (Manifest_OpBatches m = []) then Manifest_Ops m
  else Manifest_Ops m ++ concat (Manifest_OpBatches m).

Lemma RuntimeOps_concat m :
  RuntimeOps m = concat (Manifest_Ops m :: Manifest_OpBatches m).
Proof.
  unfold RuntimeOps. case_bool_decide as H; simpl; [|done].
  by rewrite H, app_nil_r.
Qed.

Lemma validateBatches_None i batches :
  validateBatches i batches = None ↔
  Forall (λ b, (0 < length b ≤ MaxOpsPerApply)%nat) batches.
Proof.
  revert i. induction batches as [|b rest IH]; intros i; simpl.
  - split; [constructor|done].
  - destruct (bool_decide _ || _) eqn:E.
    + split; [done|]. intros Hall. apply Forall_cons in Hall as [Hb _].
      apply orb_true_iff in E as [E|E].
      * apply bool_decide_eq_true in E. lia.
      * apply Nat.ltb_lt in E. lia.
    + apply orb_false_iff in E as [E1 E2]. apply bool_decide_eq_false in E1.
      apply Nat.ltb_ge in E2. rewrite IH, Forall_cons. split; [|tauto].
      intros; split; [lia|done].
Qed.

(** ** Runtime tokens (tokens.go) *)

(** The bytes of [unsafeRunes]: [;<>\] , LF, CR, TAB and NUL. *)
Definition unsafeRunes : list N := [59; 60; 62; 92; 10; 13; 9; 0]%N.

(** Does a byte string contain a byte satisfying [p]? Every rune the Go code
    looks for is below [0x80], and in UTF-8 those bytes are exactly those runes,
    so the byte scan is the rune scan. *)
Fixpoint containsByte (p : N → bool) (s : string) : bool :=
  match s with
  | EmptyString => false
  | String c rest => p (Ascii.N_of_ascii c) || containsByte p rest
  end.

(** [SafeToken]: can [s] travel as one word of a runtime command? *)
Definition SafeToken (s : string) : bool :=
  negb (bool_decide (s = "")
        || containsByte (λ b, bool_decide (b ∈ unsafeRunes)) s
        || containsByte (N.eqb 32) s)
  && negb (containsByte (λ b, (b <? 32)%N || (b =? 127)%N) s).

(** [SafePayloadValue]: can [s] travel inside a payload block? *)
Definition SafePayloadValue (s : string) : bool :=
  negb (containsByte (λ b, bool_decide (b ∈ [10; 13; 0]%N)) s).

Lemma containsByte_false_mono (p q : N → bool) s :
  (∀ b, q b = true → p b = true) →
  containsByte p s = false → containsByte q s = false.
Proof.
  intros Hqp. induction s as [|c s IH]; simpl; [done|].
  intros [Hc Hs]%orb_false_iff. apply orb_false_iff. split; [|auto].
  destruct (q _) eqn:E; [|done]. apply Hqp in E. congruence.
Qed.

(** A line-form token is always a legal payload value: the payload grammar only
    forbids bytes the token grammar forbids too. *)
Lemma SafeToken_SafePayloadValue s : SafeToken s = true → SafePayloadValue s = true.
Proof.
  unfold SafeToken, SafePayloadValue. intros H. split_bools.
  apply negb_true_iff.
  apply (containsByte_false_mono (λ b, bool_decide (b ∈ unsafeRunes))); [|done].
  intros b Hb. apply bool_decide_eq_true in Hb. apply bool_decide_eq_true.
  unfold unsafeRunes. rewrite !elem_of_cons in *. tauto.
Qed.

Lemma SafeToken_nonempty s : SafeToken s = true → s ≠ "".
Proof. unfold SafeToken. intros H ->. done. Qed.
