(* ===== verification/GoStd.v ===== *)
(** * The Go standard library functions the modelled code calls

    Byte-exact models of [strings.TrimSpace], [strings.Cut], [strings.Split],
    [strings.SplitN], [strings.HasPrefix], [strings.TrimPrefix],
    [strconv.Atoi], [strconv.Itoa], [path.Clean], [path.Join], [path.Dir] and the acceptance condition of
    [net.ParseIP]. A Go string is a byte string, which [string] is. *)

From Stdlib Require Import Ascii.
From stdpp Require Import base list list_numbers strings pretty.
From S2P Require Import Prelude.

Open Scope Z_scope.

Abbreviation byteOf := Ascii.N_of_ascii.

(** ** strings *)

(** [strings.HasPrefix], as the suffix that remains when it holds. *)
Fixpoint stripPrefix (prefix s : string) : option string :=
  match prefix, s with
  | EmptyString, _ => Some s
  | String a p, String b r => if Ascii.eqb a b then stripPrefix p r else None
  | String _ _, EmptyString => None
  end.

Definition hasPrefix (s prefix : string) : bool :=
  bool_decide (is_Some (stripPrefix prefix s)).

(** [strings.TrimPrefix]. *)
Definition trimPrefix (s prefix : string) : string :=
  default s (stripPrefix prefix s).

Fixpoint string_rev_app (s acc : string) : string :=
  match s with
  | EmptyString => acc
  | String c r => string_rev_app r (String c acc)
  end.

Definition string_rev (s : string) : string := string_rev_app s "".

Definition bytes (l : list N) : string :=
  foldr (λ b s, String (Ascii.ascii_of_N b) s) EmptyString l.

(** The UTF-8 encodings of the code points [unicode.IsSpace] accepts. None is a
    suffix or prefix of another code point's encoding, so trimming encodings is
    trimming runes. *)
Definition spaceRunes : list string :=
  map bytes
    ([[9]; [10]; [11]; [12]; [13]; [32]; [194; 133]; [194; 160]; [225; 154; 128];
      [226; 128; 128]; [226; 128; 129]; [226; 128; 130]; [226; 128; 131];
      [226; 128; 132]; [226; 128; 133]; [226; 128; 134]; [226; 128; 135];
      [226; 128; 136]; [226; 128; 137]; [226; 128; 138]; [226; 128; 168];
      [226; 128; 169]; [226; 128; 175]; [226; 129; 159]; [227; 128; 128]]%N).

(** The rest of [s] after one leading element of [prefixes]. *)
Fixpoint stripAny (prefixes : list string) (s : string) : option string :=
  match prefixes with
  | [] => None
  | p :: ps => match stripPrefix p s with Some r => Some r | None => stripAny ps s end
  end.

Fixpoint trimLeftFuel (fuel : nat) (prefixes : list string) (s : string) : string :=
  match fuel with
  | O => s
  | S n => match stripAny prefixes s with
           | Some r => trimLeftFuel n prefixes r
           | None => s
           end
  end.

(** [strings.TrimSpace]; every stripped rune has a byte, so the length is
    enough fuel. *)
Definition trimSpace (s : string) : string :=
  let trimmed := trimLeftFuel (String.length s) spaceRunes s in
  string_rev (trimLeftFuel (String.length trimmed) (map string_rev spaceRunes)
                (string_rev trimmed)).

(** [strings.Cut] for a one-byte separator, without the found flag. *)
Fixpoint cut (sep : ascii) (s : string) : string * string :=
  match s with
  | EmptyString => ("", "")
  | String c r => if Ascii.eqb c sep then ("", r)
                  else let '(before, after) := cut sep r in (String c before, after)
  end.

(** [strings.Split] for a one-byte separator. *)
Fixpoint split (sep : ascii) (s : string) : list string :=
  match s with
  | EmptyString => [""]
  | String c r =>
      if Ascii.eqb c sep then "" :: split sep r
      else match split sep r with
           | [] => [String c ""]
           | f :: fs => String c f :: fs
           end
  end.

(** [strings.SplitN] for a one-byte separator and [n > 0]. *)
Fixpoint splitN (n : nat) (sep : ascii) (s : string) : list string :=
  match n with
  | O => []
  | S O => [s]
  | S m => if bool_decide (sep ∈ String.list_ascii_of_string s)
           then let '(before, after) := cut sep s in before :: splitN m sep after
           else [s]
  end.

Fixpoint joinWith (sep : string) (l : list string) : string :=
  match l with
  | [] => ""
  | [x] => x
  | x :: rest => x +:+ sep +:+ joinWith sep rest
  end.

(** Slices [s[:n]] and [s[n:]] of a byte string, for an [n] within it. *)
Fixpoint strTake (n : nat) (s : string) : string :=
  match n, s with
  | S m, String c r => String c (strTake m r)
  | _, _ => ""
  end.

Fixpoint strDrop (n : nat) (s : string) : string :=
  match n, s with
  | S m, String _ r => strDrop m r
  | _, _ => s
  end.

(** ** Fixed-width integers *)

(** Two's complement wrap-around of an [int64]. *)
Definition wrap64 (z : Z) : Z := (z + 2 ^ 63) mod 2 ^ 64 - 2 ^ 63.

Definition isInt64 (z : Z) : Prop := - 2 ^ 63 <= z < 2 ^ 63.

(** ** strconv *)

Definition isDigit (c : ascii) : bool := ((48 <=? byteOf c)%N && (byteOf c <=? 57)%N).

Definition digitVal (c : ascii) : Z := Z.of_N (byteOf c) - 48.

Fixpoint decimalValue (acc : Z) (s : string) : Z :=
  match s with
  | EmptyString => acc
  | String c r => decimalValue (acc * 10 + digitVal c) r
  end.

Definition maxInt : Z := 2 ^ 63 - 1.

(** [strconv.Atoi] on a string of digits: the value and whether the error is
    nil. An empty string is a syntax error with value 0, an overflow a range
    error with the value clamped to the largest int. *)
Definition atoiDigits (s : string) : Z * bool :=
  if bool_decide (s = "") then (0, false)
  else if decimalValue 0 s <=? maxInt then (decimalValue 0 s, true)
  else (maxInt, false).

(** [strconv.Itoa]. *)
Definition itoa (n : Z) : string := pretty n.

(** ** path *)

(** The component stack of [path.Clean], reversed; [rooted] drops a leading
    [..] instead of keeping it. *)
Fixpoint cleanParts (rooted : bool) (stack : list string) (parts : list string) : list string :=
  match parts with
  | [] => stack
  | p :: rest =>
      if bool_decide (p = "") || bool_decide (p = ".") then cleanParts rooted stack rest
      else if bool_decide (p = "..") then
        match stack with
        | top :: below => if bool_decide (top = "..") then cleanParts rooted (p :: stack) rest
                          else cleanParts rooted below rest
        | [] => if rooted then cleanParts rooted [] rest
                else cleanParts rooted [p] rest
        end
      else cleanParts rooted (p :: stack) rest
  end.

(** [path.Clean]. *)
Definition pathClean (p : string) : string :=
  let rooted := hasPrefix p "/" in
  let body := joinWith "/" (reverse (cleanParts rooted [] (split "/" p))) in
  if rooted then "/" +:+ body
  else if bool_decide (body = "") then "." else body.

(** [path.Join] (and [filepath.Join] on Unix): empty elements are skipped. *)
Definition pathJoin (elems : list string) : string :=
  match filter (λ e, e ≠ "") elems with
  | [] => ""
  | es => pathClean (joinWith "/" es)
  end.

(** The part of [p] up to and including its last slash ([path.Split]). *)
Fixpoint dirPart (p : string) : string :=
  match p with
  | EmptyString => ""
  | String c r =>
      if bool_decide ("/"%char ∈ String.list_ascii_of_string p)
      then String c (dirPart r) else ""
  end.

(** [path.Dir]. *)
Definition pathDir (p : string) : string := pathClean (dirPart p).

(** ** net.ParseIP

    Only whether the result is nil matters to the code. *)

(** One octet of [netip.parseIPv4Fields]: one to three digits, no leading zero,
    at most 255. *)
Definition octetOk (f : string) : bool :=
  negb (bool_decide (f = ""))
  && bool_decide (Forall (λ c, isDigit c = true) (String.list_ascii_of_string f))
  && (bool_decide (f = "0") || negb (hasPrefix f "0"))
  && (String.length f <=? 3)%nat && (decimalValue 0 f <=? 255).

Definition ipv4Ok (s : string) : bool :=
  let fields := split "." s in
  bool_decide (length fields = 4%nat) && forallb octetOk fields.

Definition isHex (c : ascii) : bool :=
  isDigit c || ((97 <=? byteOf c)%N && (byteOf c <=? 102)%N)
  || ((65 <=? byteOf c)%N && (byteOf c <=? 70)%N).

(** The length of the leading run of hexadecimal digits, and what follows it. *)
Fixpoint hexRun (s : string) : nat * string :=
  match s with
  | EmptyString => (O, "")
  | String c r => if isHex c then let '(n, rest) := hexRun r in (S n, rest) else (O, s)
  end.

(** The group loop of [netip.parseIPv6]: [groups] left of the eight, whether an
    ellipsis was seen. Answers how many groups are still missing at the end of
    the input, [None] on a refusal. *)
Fixpoint ipv6Groups (groups : nat) (ellipsis : bool) (s : string) : option (nat * bool) :=
  match groups with
  | O => if bool_decide (s = "") then Some (O, ellipsis) else None
  | S rem =>
      let '(n, rest) := hexRun s in
      if bool_decide (n = 0%nat) || (4 <? n)%nat then None
      else if hasPrefix rest "." then
        if negb ellipsis && negb (bool_decide (groups = 2%nat)) then None
        else if (groups <? 2)%nat then None
        else if ipv4Ok s then Some ((groups - 2)%nat, ellipsis) else None
      else match rest with
      | EmptyString => Some (rem, ellipsis)
      | String c r =>
          if negb (Ascii.eqb c ":") || bool_decide (r = "") then None
          else match stripPrefix ":" r with
               | None => ipv6Groups rem ellipsis r
               | Some r' =>
                   if ellipsis then None
                   else if bool_decide (r' = "") then Some (rem, true)
                   else ipv6Groups rem true r'
               end
      end
  end.

Definition ipv6Ok (s : string) : bool :=
  match stripPrefix "::" s with
  | Some r =>
      if bool_decide (r = "") then true
      else match ipv6Groups 8 true r with
           | Some (missing, _) => (0 <? missing)%nat
           | None => false
           end
  | None =>
      match ipv6Groups 8 false s with
      | Some (missing, ellipsis) => eqb ellipsis (0 <? missing)%nat
      | None => false
      end
  end.

(** The dispatch of [netip.ParseAddr] on the first of [.], [:] and [%]. *)
Fixpoint firstMark (s : string) : option ascii :=
  match s with
  | EmptyString => None
  | String c r => if bool_decide (c ∈ ["."; ":"; "%"]%char) then Some c else firstMark r
  end.

(** Is [net.ParseIP s] non-nil? A zone makes it nil. *)
Definition parseIP (s : string) : bool :=
  match firstMark s with
  | Some "."%char => ipv4Ok s
  | Some ":"%char => negb (bool_decide ("%"%char ∈ String.list_ascii_of_string s)) && ipv6Ok s
  | _ => false
  end.

Example parseIP_accepts :
  forallb parseIP ["10.0.0.1"; "255.255.255.255"; "0.0.0.0"; "::"; "::1"; "1::"; "fe80::1";
    "1:2:3:4:5:6:7:8"; "::ffff:1.2.3.4"; "1:2:3:4:5:6:1.2.3.4"; "1:2:3:4:5:6:7::"; "2001:DB8::a"]
  = true.
Proof. vm_compute. reflexivity. Qed.

Example parseIP_refuses :
  existsb parseIP [""; "10.0.0"; "10.0.0.256"; "10.0.0.01"; "1.2.3.4.5"; "a.b.c.d"; "1..2.3";
    "fe80::1%eth0"; "1:2:3:4:5:6:7"; "1:2:3:4:5:6:7:8::"; "1::2::3"; ":1"; "1:"; "12345::";
    "1:2:3:4:5:6:7:1.2.3.4"; "localhost"; "::1.2.3"]
  = false.
Proof. vm_compute. reflexivity. Qed.

Example pathDir_examples :
  map pathDir ["certs/a.pem"; "a.pem"; "/etc/ssl/a.pem"; "/a"; "a/../b/c"; "./x"; "../a/b"]
  = ["certs"; "."; "/etc/ssl"; "/"; "b"; "."; "../a"].
Proof. vm_compute. reflexivity. Qed.

Example trimSpace_example : trimSpace (" " +:+ bytes [194; 160]%N +:+ "a b" +:+ bytes [9; 32]%N) = "a b".
Proof. vm_compute. reflexivity. Qed.

(** ** Facts *)

Lemma append_cons c s t : String c s +:+ t = String c (s +:+ t).
Proof. reflexivity. Qed.

Lemma append_nil_l s : "" +:+ s = s.
Proof. reflexivity. Qed.

Lemma stripPrefix_Some prefix s r : stripPrefix prefix s = Some r → s = prefix +:+ r.
Proof.
  revert s. induction prefix as [|a p IH]; intros s; simpl; [by intros [= ->]|].
  destruct s as [|b s]; [done|]. destruct (Ascii.eqb a b) eqn:E; [|done].
  apply Ascii.eqb_eq in E as ->. intros H%IH. by rewrite append_cons, H.
Qed.

Lemma length_append s t : String.length (s +:+ t) = (String.length s + String.length t)%nat.
Proof. induction s as [|c s IH]; [done|]. rewrite append_cons. simpl. by rewrite IH. Qed.

(** The bytes of a string. *)
Abbreviation chars := String.list_ascii_of_string.

Lemma chars_append s t : chars (s +:+ t) = chars s ++ chars t.
Proof. induction s as [|c s IH]; [done|]. rewrite append_cons. simpl. by rewrite IH. Qed.

Lemma append_assoc s t u : (s +:+ t) +:+ u = s +:+ (t +:+ u).
Proof. induction s as [|c s IH]; [done|]. rewrite !append_cons. by rewrite IH. Qed.

Lemma append_empty_r s : s +:+ "" = s.
Proof. induction s as [|c s IH]; [done|]. rewrite append_cons. by rewrite IH. Qed.

Lemma split_nonempty sep s : split sep s ≠ [].
Proof. destruct s as [|c s]; simpl; [done|]. destruct (Ascii.eqb c sep); [done|]. by destruct (split sep s). Qed.

Lemma split_append sep a b :
  split sep (a +:+ String sep b) = split sep a ++ split sep b.
Proof.
  induction a as [|c a IH].
  - simpl. by rewrite Ascii.eqb_refl.
  - rewrite append_cons. simpl. destruct (Ascii.eqb c sep); [by rewrite IH|].
    rewrite IH. pose proof (split_nonempty sep a). by destruct (split sep a).
Qed.

Lemma split_none sep s : sep ∉ chars s → split sep s = [s].
Proof.
  induction s as [|c s IH]; [done|]. simpl. rewrite not_elem_of_cons. intros [Hc Hs].
  destruct (Ascii.eqb c sep) eqn:E; [by apply Ascii.eqb_eq in E|]. by rewrite (IH Hs).
Qed.

(** The fields of a split hold no separator, and joining them back is the string. *)
Lemma split_fields sep s : Forall (λ f, sep ∉ chars f) (split sep s).
Proof.
  induction s as [|c s IH]; simpl; [by repeat constructor; apply not_elem_of_nil|].
  destruct (Ascii.eqb c sep) eqn:E; [constructor; [apply not_elem_of_nil|done]|].
  apply Ascii.eqb_neq in E. destruct (split sep s) as [|f fs] eqn:Hs; [by destruct (split_nonempty sep s)|].
  apply Forall_cons in IH as [Hf Hfs]. constructor; [|done]. simpl. rewrite not_elem_of_cons. done.
Qed.

Lemma joinWith_cons sep x y l : joinWith sep (x :: y :: l) = x +:+ sep +:+ joinWith sep (y :: l).
Proof. done. Qed.

Lemma joinWith_split sep s : joinWith (String sep "") (split sep s) = s.
Proof.
  induction s as [|c s IH]; [done|]. simpl.
  destruct (Ascii.eqb c sep) eqn:E.
  - apply Ascii.eqb_eq in E as ->. pose proof (split_nonempty sep s).
    destruct (split sep s) as [|f fs]; [done|]. rewrite joinWith_cons, IH. done.
  - destruct (split sep s) as [|f fs] eqn:Hs; [by destruct (split_nonempty sep s)|].
    destruct fs as [|g fs]; [simpl in *; by rewrite IH|].
    rewrite joinWith_cons in *. by rewrite append_cons, IH.
Qed.

Lemma split_joinWith sep l :
  l ≠ [] → Forall (λ f, sep ∉ chars f) l → split sep (joinWith (String sep "") l) = l.
Proof.
  induction l as [|x l IH]; [done|]. intros _ Hall. apply Forall_cons in Hall as [Hx Hall].
  destruct l as [|y l]; [by apply split_none|].
  rewrite joinWith_cons. change (String sep "" +:+ joinWith (String sep "") (y :: l))
    with (String sep (joinWith (String sep "") (y :: l))).
  rewrite split_append, split_none, IH by done. done.
Qed.

Lemma cut_append sep a b : sep ∉ chars a → cut sep (a +:+ String sep b) = (a, b).
Proof.
  induction a as [|c a IH]; intros Ha.
  - simpl. by rewrite Ascii.eqb_refl.
  - simpl in Ha. apply not_elem_of_cons in Ha as [Hc Ha]. rewrite append_cons. simpl.
    destruct (Ascii.eqb c sep) eqn:E; [apply Ascii.eqb_eq in E; congruence|]. by rewrite (IH Ha).
Qed.

Lemma strTake_strDrop n s : strTake n s +:+ strDrop n s = s.
Proof.
  revert s. induction n as [|n IH]; intros s; [by destruct s|].
  destruct s as [|c s]; [done|]. simpl. by rewrite append_cons, IH.
Qed.

Lemma length_strTake n s : String.length (strTake n s) = Nat.min n (String.length s).
Proof. revert s. induction n as [|n IH]; intros [|c s]; simpl; [done..|]. by rewrite IH. Qed.

Lemma length_strDrop n s : String.length (strDrop n s) = (String.length s - n)%nat.
Proof. revert s. induction n as [|n IH]; intros [|c s]; simpl; [done..|]. by rewrite IH. Qed.

Lemma strTake_all n s : (String.length s <= n)%nat → strTake n s = s.
Proof.
  revert s. induction n as [|n IH]; intros [|c s] Hs; simpl in *; [done|lia|done|].
  rewrite IH by lia. done.
Qed.

Lemma wrap64_id z : isInt64 z → wrap64 z = z.
Proof. unfold isInt64, wrap64. intros H. rewrite Z.mod_small by lia. lia. Qed.

Lemma wrap64_range z : isInt64 (wrap64 z).
Proof. unfold isInt64, wrap64. pose proof (Z.mod_pos_bound (z + 2 ^ 63) (2 ^ 64)). lia. Qed.

(** Decimal numbers are digits. *)
Lemma pretty_N_go_digits n s :
  Forall (λ c, isDigit c = true) (chars s) →
  Forall (λ c, isDigit c = true) (chars (pretty_N_go n s)).
Proof.
  revert s. induction (N.lt_wf_0 n) as [n _ IH]; intros s Hs.
  destruct (decide (0 < n)%N) as [Hn|Hn]; [|by replace n with 0%N by lia].
  rewrite pretty_N_go_step by done. apply IH; [by apply N.div_lt|].
  simpl. constructor; [|done]. unfold pretty_N_char. by repeat case_match.
Qed.

Lemma itoa_digits (n : nat) : Forall (λ c, isDigit c = true) (chars (itoa (Z.of_nat n))).
Proof.
  unfold itoa, pretty, pretty_Z. destruct (Z.of_nat n) eqn:E; [by repeat constructor| |lia].
  change (pretty p) with (pretty_N_go (N.pos p) ""). by apply pretty_N_go_digits.
Qed.

Lemma itoa_no_char c (n : nat) : isDigit c = false → c ∉ chars (itoa (Z.of_nat n)).
Proof.
  intros Hc Hin. pose proof (itoa_digits n) as H. rewrite Forall_forall in H.
  apply H in Hin. congruence.
Qed.

Lemma itoa_nat_inj (n k : nat) : itoa (Z.of_nat n) = itoa (Z.of_nat k) → n = k.
Proof. intros H%(inj pretty). lia. Qed.

(** ** Cleaning paths *)

(** A component [path.Clean] keeps. *)
Definition plainPart (p : string) : bool :=
  negb (bool_decide (p = "") || bool_decide (p = ".") || bool_decide (p = "..")).

Lemma cleanParts_plain rooted stack l :
  Forall (λ p, plainPart p = true) l → cleanParts rooted stack l = reverse l ++ stack.
Proof.
  revert stack. induction l as [|p l IH]; intros stack Hall; [done|].
  apply Forall_cons in Hall as [Hp Hall]. unfold plainPart in Hp. simpl.
  apply negb_true_iff, orb_false_iff in Hp as [Hp1 Hp2]. rewrite Hp1, Hp2.
  rewrite (IH _ Hall), reverse_cons, <-app_assoc. done.
Qed.

Lemma cleanParts_app rooted stack l l' :
  cleanParts rooted stack (l ++ l') = cleanParts rooted (cleanParts rooted stack l) l'.
Proof.
  revert stack. induction l as [|p l IH]; intros stack; [done|]. simpl.
  repeat case_match; apply IH.
Qed.

Lemma cleanParts_elem rooted stack l p :
  p ∈ cleanParts rooted stack l → p ∈ stack ∨ p ∈ l.
Proof.
  revert stack. induction l as [|q l IH]; intros stack; simpl; [auto|].
  repeat case_match; intros Hin%IH; rewrite ?elem_of_cons in Hin; rewrite ?elem_of_cons; tauto.
Qed.

(** The components of a rooted path, cleaned. *)
Definition pathComponents (p : string) : list string :=
  reverse (cleanParts true [] (split "/" p)).

Lemma pathClean_rooted p :
  hasPrefix p "/" = true → pathClean p = "/" +:+ joinWith "/" (pathComponents p).
Proof. intros H. unfold pathClean, pathComponents. by rewrite H. Qed.

Lemma cleanParts_no_slash rooted p :
  Forall (λ f, "/"%char ∉ chars f) (reverse (cleanParts rooted [] (split "/" p))).
Proof.
  apply Forall_forall. intros q Hq. rewrite elem_of_reverse in Hq.
  apply cleanParts_elem in Hq as [Hq|Hq]; [by apply not_elem_of_nil in Hq|].
  pose proof (split_fields "/" p) as H. rewrite Forall_forall in H. by apply H.
Qed.

(** A path whose last component is plain keeps it as the last component. *)
Lemma pathClean_last p l q :
  split "/" p = l ++ [q] → plainPart q = true → last (split "/" (pathClean p)) = Some q.
Proof.
  intros Hsplit Hq. pose proof (cleanParts_no_slash (hasPrefix p "/") p) as Hslash.
  unfold pathClean. rewrite Hsplit, cleanParts_app in *.
  rewrite (cleanParts_plain _ _ [q]) in * by (by repeat constructor).
  set (stack := cleanParts _ [] l) in *. change (reverse [q] ++ stack) with (q :: stack) in *.
  assert (Hne : reverse (q :: stack) ≠ []) by (rewrite reverse_cons; by destruct (reverse stack)).
  assert (Hs : split "/" (joinWith "/" (reverse (q :: stack))) = reverse (q :: stack))
    by (by apply split_joinWith).
  assert (Hlast : last (reverse (q :: stack)) = Some q) by (by rewrite reverse_cons, last_snoc).
  destruct (hasPrefix p "/").
  - change ("/" +:+ joinWith "/" (reverse (q :: stack)))
      with ("" +:+ String "/" (joinWith "/" (reverse (q :: stack)))).
    rewrite split_append, Hs. simpl. by destruct (reverse (q :: stack)).
  - case_bool_decide as Hb; [|by rewrite Hs].
    rewrite Hb in Hs. rewrite <-Hs in Hlast. simpl in Hlast. injection Hlast as <-. done.
Qed.
