(* ===== verification/RenderPlan.v ===== *)
(** * The render plan

    Models [src/pkg/dataplane/renderplan/plan.go] and [backend_equal.go]: the
    structure one render declares about its own output, the field-by-field
    record comparisons a diff uses, and exact plan identity. Go maps become
    [gmap]s; a nil and an empty slice are the same list to every reader here. *)

From stdpp Require Import base list list_numbers gmap strings.
From S2P Require Import Prelude Api.

Open Scope Z_scope.

Definition SchemaVersion : Z := 1.

Definition SectionKindCore : string := "core".
Definition SectionKindProfile : string := "profile".
Definition SectionKindBackend : string := "backend".

Definition ShapeDynamic : string := "dynamic".
Definition ShapeStructural : string := "structural".

Definition ConfigFilePath : string := "haproxy.cfg".

Record SectionRec := MkSection {
  Section_Kind : string;
  Section_Name : string;
  Section_TextDigest : string;
  Section_Length : Z;
  Section_Text : string;
  Section_TextKnown : bool;
}.

Record Server := MkServer {
  Server_Name : string;
  Server_Address : string;
  Server_Port : Z;
  Server_Weight : option Z;
  Server_Disabled : bool;
  Server_GUID : string;
  Server_Comment : string;
  Server_Extra : list KeywordArg;
}.

Record Backend := MkBackend {
  Backend_Name : string;
  Backend_Profile : string;
  Backend_Mode : string;
  Backend_GUID : string;
  Backend_Balance : string;
  Backend_HashType : string;
  Backend_Shape : string;
  Backend_ShapeReason : string;
  Backend_Servers : list Server;
  Backend_DefaultServer : list KeywordArg;
  Backend_BodyDigest : string;
  Backend_CommentsDigest : string;
  Backend_RecordDigest : string;
  Backend_TextDigest : string;
  Backend_Body : list string;
  Backend_Comments : list string;
  Backend_ContentKnown : bool;
}.

Record Profile := MkProfile {
  Profile_Name : string;
  Profile_BodyDigest : string;
  Profile_HasRules : bool;
}.

Record Entry := MkEntry {
  Entry_Key : string;
  Entry_Value : string;
}.

Record MapRec := MkMap {
  Map_Path : string;
  Map_Ordered : bool;
  Map_Entries : list Entry;
}.

Record CRTListEntry := MkCRTListEntry {
  CRTListEntry_Cert : string;
  CRTListEntry_Options : list KeywordArg;
  CRTListEntry_SNIFilters : list string;
}.

Record CRTList := MkCRTList {
  CRTList_Path : string;
  CRTList_Entries : list CRTListEntry;
}.

Record PlanFile := MkPlanFile {
  PlanFile_Path : string;
  PlanFile_Kind : string;
  PlanFile_ReloadOnChange : bool;
  PlanFile_Digest : string;
  PlanFile_Size : Z;
  PlanFile_Content : string;
  PlanFile_ContentKnown : bool;
}.

Record Plan := MkPlan {
  Plan_SchemaVersion : Z;
  Plan_ID : string;
  Plan_Sections : list SectionRec;
  Plan_Backends : gmap string Backend;
  Plan_Profiles : gmap string Profile;
  Plan_Maps : gmap string MapRec;
  Plan_CRTLists : gmap string CRTList;
  Plan_Files : list PlanFile;
}.

#[export] Instance SectionRec_eq_dec : EqDecision SectionRec.
Proof. solve_decision. Defined.
#[export] Instance Server_eq_dec : EqDecision Server.
Proof. solve_decision. Defined.
#[export] Instance Backend_eq_dec : EqDecision Backend.
Proof. solve_decision. Defined.
#[export] Instance Profile_eq_dec : EqDecision Profile.
Proof. solve_decision. Defined.
#[export] Instance Entry_eq_dec : EqDecision Entry.
Proof. solve_decision. Defined.
#[export] Instance MapRec_eq_dec : EqDecision MapRec.
Proof. solve_decision. Defined.
#[export] Instance CRTListEntry_eq_dec : EqDecision CRTListEntry.
Proof. solve_decision. Defined.
#[export] Instance CRTList_eq_dec : EqDecision CRTList.
Proof. solve_decision. Defined.
#[export] Instance PlanFile_eq_dec : EqDecision PlanFile.
Proof. solve_decision. Defined.
#[export] Instance Plan_eq_dec : EqDecision Plan.
Proof. solve_decision. Defined.

(** ** Record comparison (backend_equal.go)

    [sameSlice] is a pointer shortcut that only answers early when the elements
    are the same values, so the element comparison is the whole function. *)

(** [slices.EqualFunc]. *)
Fixpoint equalFunc {A} (eq : A → A → bool) (l r : list A) : bool :=
  match l, r with
  | [], [] => true
  | a :: l', b :: r' => eq a b && equalFunc eq l' r'
  | _, _ => false
  end.

Definition sameKeyword (prev next : KeywordArg) : bool :=
  bool_decide (KeywordArg_Name prev = KeywordArg_Name next)
  && bool_decide (KeywordArg_Args prev = KeywordArg_Args next).

Definition EqualKeywordArgs (l r : list KeywordArg) : bool := equalFunc sameKeyword l r.

Definition equalOptionalInt (l r : option Z) : bool :=
  match l, r with
  | None, None => true
  | Some a, Some b => a =? b
  | _, _ => false
  end.

(** [Server.Equal]. *)
Definition ServerEqual (s other : Server) : bool :=
  bool_decide (Server_Name s = Server_Name other)
  && bool_decide (Server_Address s = Server_Address other)
  && (Server_Port s =? Server_Port other)
  && equalOptionalInt (Server_Weight s) (Server_Weight other)
  && eqb (Server_Disabled s) (Server_Disabled other)
  && bool_decide (Server_GUID s = Server_GUID other)
  && bool_decide (Server_Comment s = Server_Comment other)
  && EqualKeywordArgs (Server_Extra s) (Server_Extra other).

Definition equalServers (l r : list Server) : bool := equalFunc ServerEqual l r.

(** [Backend.EqualRecord]. *)
Definition EqualRecord (b other : Backend) : bool :=
  bool_decide (Backend_Name b = Backend_Name other)
  && bool_decide (Backend_Profile b = Backend_Profile other)
  && bool_decide (Backend_Mode b = Backend_Mode other)
  && bool_decide (Backend_GUID b = Backend_GUID other)
  && bool_decide (Backend_Balance b = Backend_Balance other)
  && bool_decide (Backend_HashType b = Backend_HashType other)
  && bool_decide (Backend_Shape b = Backend_Shape other)
  && bool_decide (Backend_ShapeReason b = Backend_ShapeReason other)
  && equalServers (Backend_Servers b) (Backend_Servers other)
  && EqualKeywordArgs (Backend_DefaultServer b) (Backend_DefaultServer other).

(** [Backend.EqualContent]. *)
Definition EqualContent (b other : Backend) : bool :=
  bool_decide (Backend_BodyDigest b = Backend_BodyDigest other)
  && bool_decide (Backend_CommentsDigest b = Backend_CommentsDigest other)
  && bool_decide (Backend_RecordDigest b = Backend_RecordDigest other)
  && eqb (Backend_ContentKnown b) (Backend_ContentKnown other)
  && bool_decide (Backend_Body b = Backend_Body other)
  && bool_decide (Backend_Comments b = Backend_Comments other).

(** ** Exact plan identity (plan.go) *)

Definition hasExactIdentity (plan : option Plan) : bool :=
  match plan with
  | None => false
  | Some p =>
      forallb Section_TextKnown (Plan_Sections p)
      && forallb (λ kv, Backend_ContentKnown kv.2) (map_to_list (Plan_Backends p))
      && forallb PlanFile_ContentKnown (Plan_Files p)
  end.

(** ** Facts *)

Section equalFunc.
Context {A : Type} (eq : A → A → bool).
Hypothesis eq_spec : ∀ a b, eq a b = true ↔ a = b.

Lemma equalFunc_spec l r : equalFunc eq l r = true ↔ l = r.
Proof using eq_spec.
  revert r. induction l as [|a l IH]; intros [|b r]; simpl; try done.
  rewrite andb_true_iff, eq_spec, IH. split; [by intros [-> ->]|by intros [= -> ->]].
Qed.
End equalFunc.

Lemma sameKeyword_spec a b : sameKeyword a b = true ↔ a = b.
Proof.
  unfold sameKeyword. rewrite andb_true_iff, !bool_decide_eq_true.
  destruct a, b; simpl. split; [by intros [-> ->]|by intros [= -> ->]].
Qed.

Lemma EqualKeywordArgs_spec l r : EqualKeywordArgs l r = true ↔ l = r.
Proof. apply equalFunc_spec, sameKeyword_spec. Qed.

Lemma equalOptionalInt_spec l r : equalOptionalInt l r = true ↔ l = r.
Proof.
  destruct l, r; simpl; rewrite ?Z.eqb_eq; split; congruence.
Qed.

Lemma ServerEqual_spec s t : ServerEqual s t = true ↔ s = t.
Proof.
  unfold ServerEqual. rewrite !andb_true_iff, !bool_decide_eq_true, Z.eqb_eq,
    equalOptionalInt_spec, EqualKeywordArgs_spec, eqb_true_iff.
  destruct s, t; simpl. split; [intros; destruct_and!; congruence|by intros [= -> -> -> -> -> -> -> ->]].
Qed.

Lemma equalServers_spec l r : equalServers l r = true ↔ l = r.
Proof. apply equalFunc_spec, ServerEqual_spec. Qed.

(** The declared record of a backend: what [EqualRecord] compares. *)
Definition backend_record (b : Backend) :=
  (Backend_Name b, Backend_Profile b, Backend_Mode b, Backend_GUID b,
   Backend_Balance b, Backend_HashType b, Backend_Shape b, Backend_ShapeReason b,
   Backend_Servers b, Backend_DefaultServer b).

Lemma EqualRecord_spec b c : EqualRecord b c = true ↔ backend_record b = backend_record c.
Proof.
  unfold EqualRecord, backend_record.
  rewrite !andb_true_iff, !bool_decide_eq_true, equalServers_spec, EqualKeywordArgs_spec.
  split; [intros; destruct_and!; congruence|by intros [= -> -> -> -> -> -> -> -> -> ->]].
Qed.
