(* ===== verification/MapEntries.v ===== *)
(** * Map files

    Models [src/pkg/dataplane/renderplan/mapentries.go]: how a rendered map file
    is read into entries ([ParseMapEntries]) and the in-place comparison of a
    file with entries already parsed ([MapEntriesMatch]). Controller and agent
    read map files through these functions alone. *)

From Stdlib Require Import Ascii.
From stdpp Require Import base list list_numbers strings.
From S2P Require Import Prelude Api GoStd RenderPlan.

Open Scope Z_scope.

Definition newline : ascii := Ascii.ascii_of_N 10.
Definition tab : ascii := Ascii.ascii_of_N 9.

(** A string cut at its first space or tab ([strings.IndexAny] with a blank and
    a tab); [None] when it has none. *)
Fixpoint cutBlank (s : string) : option (string * string) :=
  match s with
  | EmptyString => None
  | String c r =>
      if Ascii.eqb c " " || Ascii.eqb c tab then Some ("", r)
      else match cutBlank r with
           | Some (before, after) => Some (String c before, after)
           | None => None
           end
  end.

(** The entry of one line; blank and comment lines have none. *)
Definition lineEntry (line : string) : option Entry :=
  let trimmed := trimSpace line in
  if bool_decide (trimmed = "") || hasPrefix trimmed "#" then None
  else match cutBlank trimmed with
       | Some (key, rest) => Some (MkEntry key (trimSpace rest))
       | None => Some (MkEntry trimmed "")
       end.

(** [ParseMapEntries]; [None] is the nil slice. *)
Definition ParseMapEntries (content : string) : option (list Entry) :=
  if bool_decide (content = "") then None
  else match omap lineEntry (split newline content) with
       | [] => None
       | entries => Some entries
       end.

(** The loop of [MapEntriesMatch]: the entries still to be met. *)
Fixpoint matchLines (lines : list string) (next : list Entry) : option (list Entry) :=
  match lines with
  | [] => Some next
  | line :: rest =>
      match lineEntry line with
      | None => matchLines rest next
      | Some e =>
          match next with
          | [] => None
          | want :: later =>
              if negb (bool_decide (Entry_Key want = Entry_Key e))
                 || negb (bool_decide (Entry_Value want = Entry_Value e))
              then None else matchLines rest later
          end
      end
  end.

Definition MapEntriesMatch (content : string) (entries : option (list Entry)) : bool :=
  if bool_decide (content = "") then bool_decide (entries = None)
  else match matchLines (split newline content) (default [] entries) with
       | Some [] => bool_decide (default [] entries ≠ []) || bool_decide (entries = None)
       | _ => false
       end.

Lemma matchLines_spec lines next :
  matchLines lines next = Some [] ↔ omap lineEntry lines = next.
Proof.
  revert next. induction lines as [|line lines IH]; intros next; simpl.
  - split; [by intros [= ->]|by intros ->].
  - destruct (lineEntry line) as [e|]; [|apply IH].
    destruct next as [|want later]; [done|]. destruct want as [k v], e as [k' v']. simpl.
    destruct (bool_decide (k = k')) eqn:Ek, (bool_decide (v = v')) eqn:Ev; split_bools; simpl;
      rewrite ?IH; split; naive_solver.
Qed.

(** Comparing in place and parsing agree. *)
Lemma map_entries_match_correct content entries :
  MapEntriesMatch content entries = true ↔ ParseMapEntries content = entries.
Proof.
  unfold MapEntriesMatch, ParseMapEntries. case_bool_decide as Hc.
  { rewrite bool_decide_eq_true. naive_solver. }
  pose proof (matchLines_spec (split newline content) (default [] entries)) as H.
  destruct (matchLines _ _) as [[|]|] eqn:E.
  - destruct H as [H _]. rewrite H by done. destruct entries as [[|e es]|]; simpl; [|naive_solver..].
    split; [|done]. by vm_compute.
  - split; [done|]. intros Hp. exfalso. destruct H as [_ H].
    enough (Some (e :: l) = Some []) by done. apply H. by destruct (omap _ _), entries; simplify_eq.
  - split; [done|]. intros Hp. exfalso. destruct H as [_ H].
    enough (None = Some ([] : list Entry)) by done. apply H. by destruct (omap _ _), entries; simplify_eq.
Qed.

(** ** Trimming *)

Lemma string_rev_app_spec s acc : string_rev_app s acc = string_rev s +:+ acc.
Proof.
  unfold string_rev. revert acc. induction s as [|c s IH]; intros acc; [done|]. simpl.
  rewrite (IH (String c acc)), (IH (String c "")), append_assoc. done.
Qed.

Lemma string_rev_append s t : string_rev (s +:+ t) = string_rev t +:+ string_rev s.
Proof.
  induction s as [|c s IH]; [by rewrite append_empty_r|].
  rewrite append_cons. unfold string_rev at 1 3. simpl. rewrite !string_rev_app_spec, IH.
  by rewrite append_assoc.
Qed.

Lemma string_rev_involutive s : string_rev (string_rev s) = s.
Proof.
  induction s as [|c s IH]; [done|]. unfold string_rev at 2. simpl.
  rewrite string_rev_app_spec, string_rev_append, IH. done.
Qed.

Lemma stripPrefix_append p r : stripPrefix p (p +:+ r) = Some r.
Proof. induction p as [|c p IH]; [done|]. rewrite append_cons. simpl. by rewrite Ascii.eqb_refl. Qed.

(** A prefix of a string is a prefix of its extensions, and of the string itself
    when it stops short of a byte it does not hold. *)
Lemma stripPrefix_extend p a b r : stripPrefix p a = Some r → stripPrefix p (a +:+ b) = Some (r +:+ b).
Proof. intros ->%stripPrefix_Some. by rewrite append_assoc, stripPrefix_append. Qed.

Lemma stripPrefix_short p a c b :
  c ∉ chars p ∨ (String.length p ≤ String.length a)%nat →
  is_Some (stripPrefix p (a +:+ String c b)) → is_Some (stripPrefix p a).
Proof.
  revert a. induction p as [|x p IH]; intros a H; [done|]. destruct a as [|y a]; simpl.
  - destruct H as [H|H]; [|simpl in H; lia]. simpl in H. apply not_elem_of_cons in H as [H _].
    destruct (Ascii.eqb x c) eqn:E; [by apply Ascii.eqb_eq in E|]. by intros [? ?].
  - destruct (Ascii.eqb x y); [|done]. apply IH. destruct H as [H|H]; simpl in H.
    + apply not_elem_of_cons in H as [_ H]. by left.
    + right. lia.
Qed.

Lemma stripAny_None ps s : stripAny ps s = None ↔ ∀ p, p ∈ ps → stripPrefix p s = None.
Proof.
  induction ps as [|p ps IH]; simpl; [by split; [intros _ p Hp; apply not_elem_of_nil in Hp|]|].
  destruct (stripPrefix p s) eqn:E.
  - split; [done|]. intros H. rewrite H in E by apply list_elem_of_here. done.
  - rewrite IH. split.
    + intros H q [->|Hq]%elem_of_cons; auto.
    + intros H q Hq. apply H. by apply list_elem_of_further.
Qed.

Lemma stripAny_Some ps s r : stripAny ps s = Some r → ∃ p, p ∈ ps ∧ s = p +:+ r.
Proof.
  induction ps as [|p ps IH]; simpl; [done|]. destruct (stripPrefix p s) eqn:E.
  - intros [= ->]. exists p. split; [apply list_elem_of_here|by apply stripPrefix_Some].
  - intros (q & Hq & ->)%IH. exists q. by split; [apply list_elem_of_further|].
Qed.

(** Trimming removes elements of [ps] from the front until none is left. *)
Lemma trimLeftFuel_spec fuel ps s :
  Forall (λ p, p ≠ "") ps → (String.length s ≤ fuel)%nat →
  stripAny ps (trimLeftFuel fuel ps s) = None ∧ ∃ pre, s = pre +:+ trimLeftFuel fuel ps s.
Proof.
  intros Hps. revert s. induction fuel as [|fuel IH]; intros s Hlen; simpl.
  - destruct s; [|simpl in Hlen; lia]. split; [|by exists ""].
    apply stripAny_None. intros p Hp. rewrite Forall_forall in Hps. specialize (Hps p Hp). by destruct p.
  - destruct (stripAny ps s) as [r|] eqn:E; [|split; [done|by exists ""]].
    apply stripAny_Some in E as (p & Hp & ->). rewrite Forall_forall in Hps. specialize (Hps p Hp).
    rewrite length_append in Hlen. destruct p as [|c p]; [done|]. simpl in Hlen.
    destruct (IH r ltac:(lia)) as (H1 & pre & H2). split; [done|].
    exists (String c p +:+ pre). rewrite append_assoc. by rewrite <-H2.
Qed.

Lemma trimLeftFuel_id fuel ps s : stripAny ps s = None → trimLeftFuel fuel ps s = s.
Proof. destruct fuel; [done|]. simpl. by intros ->. Qed.

(** What is trimmed away ends in an element of [ps]. *)
Lemma trimLeftFuel_removed fuel ps s :
  trimLeftFuel fuel ps s = "" → s ≠ "" → ∃ q p, p ∈ ps ∧ s = q +:+ p.
Proof.
  revert s. induction fuel as [|fuel IH]; intros s; simpl; [done|].
  destruct (stripAny ps s) as [r|] eqn:E; [|done]. apply stripAny_Some in E as (p & Hp & ->).
  intros Hr _. destruct (decide (r = "")) as [->|Hne].
  - exists "", p. split; [done|]. by rewrite append_empty_r.
  - destruct (IH r Hr Hne) as (q & p' & Hp' & ->). exists (p +:+ q), p'. by rewrite append_assoc.
Qed.

(** No space at the front, none at the back. *)
Definition trimmedFront (s : string) : Prop := stripAny spaceRunes s = None.
Definition trimmedBack (s : string) : Prop := stripAny (map string_rev spaceRunes) (string_rev s) = None.

Lemma spaceRunes_nonempty : Forall (λ p, p ≠ "") spaceRunes.
Proof. apply (bool_decide_unpack _). vm_compute. exact I. Qed.

Lemma spaceRunes_rev_nonempty : Forall (λ p, p ≠ "") (map string_rev spaceRunes).
Proof. apply (bool_decide_unpack _). vm_compute. exact I. Qed.

Lemma trimSpace_id s : trimmedFront s → trimmedBack s → trimSpace s = s.
Proof.
  unfold trimSpace, trimmedFront, trimmedBack. intros H1 H2.
  rewrite (trimLeftFuel_id _ _ s) by done. rewrite (trimLeftFuel_id _ _ (string_rev s)) by done.
  apply string_rev_involutive.
Qed.

Lemma trimmedFront_prefix a b : trimmedFront (a +:+ b) → trimmedFront a.
Proof.
  unfold trimmedFront. rewrite !stripAny_None. intros H p Hp. specialize (H p Hp).
  destruct (stripPrefix p a) eqn:E; [|done]. by rewrite (stripPrefix_extend p a b s E) in H.
Qed.

Lemma trimmedBack_suffix a b : trimmedBack (a +:+ b) → trimmedBack b.
Proof.
  unfold trimmedBack. rewrite string_rev_append, !stripAny_None. intros H p Hp. specialize (H p Hp).
  destruct (stripPrefix p (string_rev b)) as [r|] eqn:E; [|done].
  by rewrite (stripPrefix_extend p _ _ _ E) in H.
Qed.

(** [strings.TrimSpace] leaves a piece of the string with no space around it. *)
Lemma trimSpace_spec s :
  trimmedFront (trimSpace s) ∧ trimmedBack (trimSpace s) ∧ ∃ pre post, s = pre +:+ trimSpace s +:+ post.
Proof.
  unfold trimSpace. set (l := trimLeftFuel _ spaceRunes s).
  destruct (trimLeftFuel_spec (String.length s) spaceRunes s spaceRunes_nonempty ltac:(done)) as (Hf & pre & Hs).
  fold l in Hf, Hs. fold (trimmedFront l) in Hf.
  destruct (trimLeftFuel_spec (String.length l) (map string_rev spaceRunes) (string_rev l)
              spaceRunes_rev_nonempty) as (Hb & post & Hl).
  { assert (Hlen : ∀ t, String.length (string_rev t) = String.length t).
    { clear. induction t as [|c t IH]; [done|]. unfold string_rev. simpl.
      rewrite string_rev_app_spec, length_append, IH. simpl. lia. }
    rewrite Hlen. done. }
  set (r := trimLeftFuel _ _ (string_rev l)) in *. clearbody r l.
  assert (Hl' : l = string_rev r +:+ string_rev post).
  { by rewrite <-string_rev_append, <-Hl, string_rev_involutive. }
  split_and!.
  - rewrite Hl' in Hf. exact (trimmedFront_prefix _ _ Hf).
  - unfold trimmedBack. by rewrite string_rev_involutive.
  - exists pre, (string_rev post). by rewrite <-Hl'.
Qed.

(** ** Canonical lines *)

Definition isBlank (c : ascii) : bool := Ascii.eqb c " " || Ascii.eqb c tab.

Lemma cutBlank_Some s key rest :
  cutBlank s = Some (key, rest) →
  ∃ c, s = key +:+ String c rest ∧ isBlank c = true ∧ Forall (λ x, isBlank x = false) (chars key).
Proof.
  revert key. induction s as [|x s IH]; intros key; simpl; [done|].
  change (Ascii.eqb x " " || Ascii.eqb x tab) with (isBlank x). destruct (isBlank x) eqn:E.
  - intros [= <- <-]. by exists x.
  - destruct (cutBlank s) as [[k r]|]; [|done]. intros [= <- <-].
    destruct (IH k eq_refl) as (c & -> & Hc & Hk). exists c. rewrite append_cons. split_and!; [done..|].
    simpl. by constructor.
Qed.

Lemma cutBlank_append key rest :
  Forall (λ x, isBlank x = false) (chars key) → cutBlank (key +:+ String " " rest) = Some (key, rest).
Proof.
  induction key as [|x key IH]; intros H; [done|]. rewrite append_cons. simpl.
  change (Ascii.eqb x " " || Ascii.eqb x tab) with (isBlank x).
  simpl in H. apply Forall_cons in H as [Hx H]. by rewrite Hx, (IH H).
Qed.

Lemma cutBlank_None_key s : cutBlank s = None → Forall (λ x, isBlank x = false) (chars s).
Proof.
  induction s as [|x s IH]; simpl; [constructor|].
  change (Ascii.eqb x " " || Ascii.eqb x tab) with (isBlank x).
  destruct (isBlank x) eqn:E; [done|]. destruct (cutBlank s) as [[]|]; [done|].
  intros _. constructor; [done|by apply IH].
Qed.

(** A space rune other than the blank itself does not hold a blank. *)
Lemma spaceRunes_blank p c :
  p ∈ spaceRunes → isBlank c = true → c ∉ chars p ∨ String.length p = 1%nat.
Proof.
  intros Hp Hc. assert (H : forallb (λ p, bool_decide (String.length p = 1%nat)
    || forallb (λ x, negb (isBlank x)) (chars p)) spaceRunes = true) by (vm_compute; reflexivity).
  rewrite forallb_forall in H. apply list_elem_of_In, H, orb_true_iff in Hp as [Hp|Hp].
  - right. by apply bool_decide_eq_true in Hp.
  - left. intros Hin. rewrite forallb_forall in Hp. apply list_elem_of_In, Hp in Hin. by rewrite Hc in Hin.
Qed.

Lemma spaceRunes_rev_blank p c :
  p ∈ map string_rev spaceRunes → isBlank c = true → c ∉ chars p ∨ String.length p = 1%nat.
Proof.
  intros Hp Hc. assert (H : forallb (λ p, bool_decide (String.length p = 1%nat)
    || forallb (λ x, negb (isBlank x)) (chars p)) (map string_rev spaceRunes) = true)
    by (vm_compute; reflexivity).
  rewrite forallb_forall in H. apply list_elem_of_In, H, orb_true_iff in Hp as [Hp|Hp].
  - right. by apply bool_decide_eq_true in Hp.
  - left. intros Hin. rewrite forallb_forall in Hp. apply list_elem_of_In, Hp in Hin. by rewrite Hc in Hin.
Qed.

(** What stands before or after a blank decides whether a text is trimmed. *)
Lemma stripAny_blank ps a c b :
  (∀ p, p ∈ ps → c ∉ chars p ∨ String.length p = 1%nat) → a ≠ "" →
  stripAny ps a = None → stripAny ps (a +:+ String c b) = None.
Proof.
  intros Hps Ha. rewrite !stripAny_None. intros H p Hp.
  destruct (stripPrefix p (a +:+ String c b)) eqn:E; [|done].
  destruct (stripPrefix_short p a c b) as [r Hr].
  - destruct (Hps p Hp) as [|Hlen]; [by left|right]. rewrite Hlen. destruct a; [done|simpl; lia].
  - by rewrite E.
  - by rewrite H in Hr.
Qed.

Lemma space_is_blank : isBlank " " = true.
Proof. done. Qed.

Lemma blank_is_space c : isBlank c = true → String c "" ∈ spaceRunes.
Proof.
  unfold isBlank. intros [->%Ascii.eqb_eq | ->%Ascii.eqb_eq]%orb_true_iff;
    apply (bool_decide_unpack _); vm_compute; exact I.
Qed.

(** The parts of a line's entry: where the key ends, and what the value is. *)
Lemma lineEntry_blank key c rest :
  let line := key +:+ String c rest in
  trimmedFront line → trimmedBack line → isBlank c = true →
  key ≠ "" ∧ trimmedFront key ∧ trimSpace rest ≠ "" ∧
  trimmedFront (trimSpace rest) ∧ trimmedBack (trimSpace rest).
Proof.
  intros line Hf Hb Hc. assert (Hkey : key ≠ "").
  { intros ->. unfold line, trimmedFront in Hf. rewrite stripAny_None in Hf.
    specialize (Hf _ (blank_is_space c Hc)). simpl in Hf. by rewrite Ascii.eqb_refl in Hf. }
  assert (Hrest : trimmedBack rest).
  { apply (trimmedBack_suffix (key +:+ String c "")). by rewrite append_assoc. }
  destruct (trimSpace_spec rest) as (H1 & H2 & _).
  split_and!; [done|exact (trimmedFront_prefix _ _ Hf)| |done|done].
  unfold trimSpace. set (l := trimLeftFuel _ spaceRunes rest).
  destruct (trimLeftFuel_spec (String.length rest) spaceRunes rest spaceRunes_nonempty ltac:(done)) as (_ & pre & Hs).
  fold l in Hs. assert (Hl : trimmedBack l) by (rewrite Hs in Hrest; exact (trimmedBack_suffix _ _ Hrest)).
  unfold trimmedBack in Hl. rewrite (trimLeftFuel_id _ _ (string_rev l)) by done.
  rewrite string_rev_involutive. intros Hnil.
  assert (Hend : ∃ q p, p ∈ spaceRunes ∧ line = q +:+ p).
  { destruct (decide (rest = "")) as [->|Hne].
    - exists key, (String c ""). by split; [apply blank_is_space|].
    - destruct (trimLeftFuel_removed _ _ _ Hnil Hne) as (q & p & Hp & Hq).
      exists (key +:+ String c q), p. split; [done|]. unfold line. by rewrite Hq, append_assoc. }
  destruct Hend as (q & p & Hp & Hq). unfold trimmedBack in Hb.
  rewrite Hq, string_rev_append, stripAny_None in Hb.
  specialize (Hb (string_rev p)). rewrite stripPrefix_append in Hb.
  assert (Hin : string_rev p ∈ map string_rev spaceRunes) by (apply list_elem_of_fmap; by exists p).
  by apply Hb in Hin.
Qed.

(** An entry written back as a line. *)
Definition entryText (e : Entry) : string :=
  Entry_Key e +:+ (if bool_decide (Entry_Value e = "") then "" else " " +:+ Entry_Value e).

Lemma hasPrefix_head c s t : hasPrefix (String c s) "#" = hasPrefix (String c t) "#".
Proof.
  unfold hasPrefix. apply bool_decide_ext. cbn [stripPrefix]. destruct (Ascii.eqb "#" c); [|done].
  split; by eexists.
Qed.

(** Reading a line that was written back gives the entry it was written from. *)
Lemma lineEntry_entryText line e : lineEntry line = Some e → lineEntry (entryText e) = Some e.
Proof.
  unfold lineEntry at 1. cbv zeta. destruct (trimSpace_spec line) as (Hf & Hb & _).
  set (t := trimSpace line) in *. clearbody t. destruct (_ || _) eqn:Hguard; [done|].
  apply orb_false_iff in Hguard as [Hne Hhash].
  destruct (cutBlank t) as [[key rest]|] eqn:Hcut.
  - intros [= <-]. apply cutBlank_Some in Hcut as (c & -> & Hc & Hkey).
    destruct (lineEntry_blank key c rest Hf Hb Hc) as (Hk & Hkf & Hv & Hvf & Hvb).
    unfold entryText. cbn [Entry_Key Entry_Value]. rewrite bool_decide_eq_false_2 by done.
    set (v := trimSpace rest) in *. change (" " +:+ v) with (String " " v).
    assert (Hfront : trimmedFront (key +:+ String " " v)).
    { apply stripAny_blank; [|done|done]. intros p Hp. by apply spaceRunes_blank. }
    assert (Hback : trimmedBack (key +:+ String " " v)).
    { unfold trimmedBack. change (String " " v) with (String " " "" +:+ v).
      rewrite !string_rev_append. change (string_rev (String " " "")) with (String " " "").
      rewrite append_assoc. apply stripAny_blank; [|by rewrite <-(string_rev_involutive v) in Hv; intros E; rewrite E in Hv|done].
      intros p Hp. by apply spaceRunes_rev_blank. }
    unfold lineEntry. cbv zeta. rewrite trimSpace_id by done.
    destruct key as [|k key]; [done|]. rewrite !append_cons in *.
    rewrite bool_decide_eq_false_2 by done. rewrite (hasPrefix_head k _ (key +:+ String c rest)), Hhash. simpl orb.
    cbv iota. rewrite <-append_cons, cutBlank_append by done. by rewrite trimSpace_id.
  - intros [= <-]. unfold entryText. cbn [Entry_Key Entry_Value].
    rewrite bool_decide_eq_true_2, append_empty_r by done. unfold lineEntry. cbv zeta.
    rewrite trimSpace_id by done. by rewrite Hne, Hhash, Hcut.
Qed.

(** The bytes of an entry are bytes of its line. *)
Lemma lineEntry_chars line e c :
  lineEntry line = Some e → c ∈ chars (entryText e) → c ∈ chars line ∨ c = " "%char.
Proof.
  unfold lineEntry. cbv zeta. destruct (trimSpace_spec line) as (_ & _ & pre & post & Hline).
  set (t := trimSpace line) in *. clearbody t. destruct (_ || _); [done|].
  assert (Ht : ∀ x, x ∈ chars t → x ∈ chars line).
  { intros x Hx. rewrite Hline, !chars_append, !elem_of_app. tauto. }
  destruct (cutBlank t) as [[key rest]|] eqn:Hcut; intros [= <-]; unfold entryText; cbn [Entry_Key Entry_Value].
  - apply cutBlank_Some in Hcut as (b & -> & _ & _).
    destruct (trimSpace_spec rest) as (_ & _ & pre' & post' & Hrest).
    set (v := trimSpace rest) in *. clearbody v. rewrite chars_append, elem_of_app. intros [Hc|Hc].
    + left. apply Ht. rewrite chars_append, elem_of_app. by left.
    + case_bool_decide; [by apply not_elem_of_nil in Hc|]. simpl in Hc. apply elem_of_cons in Hc as [->|Hc]; [by right|].
      left. apply Ht. rewrite chars_append, elem_of_app. right. simpl. apply elem_of_cons. right.
      rewrite Hrest, !chars_append, !elem_of_app. tauto.
  - rewrite bool_decide_eq_true_2, append_empty_r by done. intros Hc. left. by apply Ht.
Qed.
