(* ===== verification/MapDelta.v ===== *)
(** * Map-file deltas

    Models [src/pkg/dataplane/deployplan/maps.go]: the per-entry ops that take
    a running HAProxy map from one render to the next, for maps whose lookup
    order does not matter and for maps HAProxy matches in order. The theorems
    replay the composed ops on the running map ([mapOpApply], the semantics
    [inplace.go]'s [mutateMap] and the op table of [api.go] state) and show what
    it then holds. *)

From Stdlib Require Import Permutation.
From stdpp Require Import base list list_numbers gmap strings sorting.
From S2P Require Import Prelude Api RenderPlan.

Open Scope Z_scope.

(** ** Model *)

Record mapOps := MkMapOps {
  upserts : list Op;
  deletes : list Op;
  whole : bool;
}.

Definition wholeMap : mapOps := {| upserts := []; deletes := []; whole := true |}.

(** [valuesByKey]: the entries grouped, keeping duplicates. *)
Definition valuesByKey (entries : list Entry) : gmap string (list string) :=
  foldl (λ grouped e,
    <[Entry_Key e := default [] (grouped !! Entry_Key e) ++ [Entry_Value e]]> grouped)
    ∅ entries.

(** The loop of [keyOrder] with the keys seen so far. *)
Fixpoint keyOrderFrom (seen : gset string) (keys : list string) : list string :=
  match keys with
  | [] => []
  | k :: rest => if decide (k ∈ seen) then keyOrderFrom seen rest
                 else k :: keyOrderFrom ({[k]} ∪ seen) rest
  end.

(** [keyOrder]: each key once, in the order the file first has it. *)
Definition keyOrder (entries : list Entry) : list string :=
  keyOrderFrom ∅ (Entry_Key <$> entries).

Definition payloadSafe (values : list string) : bool := forallb SafePayloadValue values.

Definition sameValues (prev next : list string) : bool :=
  if bool_decide (length prev = length next)
  then bool_decide (sort_strings prev = sort_strings next) else false.

Definition addEntries (path key : string) (values : list string) : list Op :=
  (λ value, op_map OpMapAdd path key value) <$> values.

(** One iteration of the removal loop: [None] blocks the per-entry path. *)
Definition removalOps (path : string) (after : gmap string (list string)) (key : string) :
    option (list Op) :=
  match after !! key with
  | Some _ => Some []
  | None => if negb (SafeToken key) then None else Some [op_map OpMapDel path key ""]
  end.

Definition withRemovals (ops : mapOps) (path : string) (prev : list Entry)
    (after : gmap string (list string)) : mapOps :=
  match concatM (removalOps path after) (keyOrder prev) with
  | None => wholeMap
  | Some dels => {| upserts := upserts ops; deletes := deletes ops ++ dels;
                    whole := whole ops |}
  end.

(** One iteration of [unorderedEntryOps]'s loop; [None] is [mapOps{whole}]. *)
Definition unorderedKeyOps (path : string) (before after : gmap string (list string))
    (key : string) : option (list Op) :=
  let want := default [] (after !! key) in
  let have := default [] (before !! key) in
  let existed := bool_decide (is_Some (before !! key)) in
  if existed && sameValues have want then Some []
  else if negb (SafeToken key) || negb (payloadSafe want) then None
  else if negb existed then Some (addEntries path key want)
  else match have, want with
       | [_], [w] => if SafeToken w then Some [op_map OpMapSet path key w] else None
       | _, _ => None
       end.

Definition unorderedEntryOps (path : string) (prev next : list Entry) : mapOps :=
  let before := valuesByKey prev in
  let after := valuesByKey next in
  match concatM (unorderedKeyOps path before after) (keyOrder next) with
  | None => wholeMap
  | Some ups => withRemovals {| upserts := ups; deletes := []; whole := false |}
                  path prev after
  end.

(** How many leading entries the two lists share: the [front] loop, and on the
    reversed rests the [back] loop. *)
Fixpoint commonLen (l r : list Entry) : nat :=
  match l, r with
  | a :: l', b :: r' => if decide (a = b) then S (commonLen l' r') else O
  | _, _ => O
  end.

Definition sharesKey (keys : gset string) (entries : list Entry) : bool :=
  existsb (λ e, bool_decide (Entry_Key e ∈ keys)) entries.

(** [trimCommonEntries]; [None] is the refusal ([ok] false). *)
Definition trimCommonEntries (prev next : list Entry) : option (list Entry * list Entry) :=
  let front := commonLen prev next in
  let back := commonLen (reverse (drop front prev)) (reverse (drop front next)) in
  if bool_decide (front = 0%nat) && bool_decide (back = 0%nat) then Some (prev, next)
  else
    let prevWindow := take (length prev - back - front) (drop front prev) in
    let nextWindow := take (length next - back - front) (drop front next) in
    let windowKeys : gset string :=
      list_to_set (Entry_Key <$> prevWindow) ∪ list_to_set (Entry_Key <$> nextWindow) in
    if bool_decide (size windowKeys = 0%nat) then Some (prevWindow, nextWindow)
    else if sharesKey windowKeys (take front prev) then None
    else if sharesKey windowKeys (drop (length prev - back) prev) then None
    else Some (prevWindow, nextWindow).

Definition unorderedMapOps (path : string) (prev next : list Entry) : mapOps :=
  match trimCommonEntries prev next with
  | Some (prevWindow, nextWindow) => unorderedEntryOps path prevWindow nextWindow
  | None => unorderedEntryOps path prev next
  end.

Definition keysPresentIn (entries : list Entry) (other : gmap string (list string)) : list string :=
  filter (λ k, is_Some (other !! k)) (Entry_Key <$> entries).

Definition sameRelativeOrder (prev next : list Entry) : bool :=
  bool_decide (keysPresentIn prev (valuesByKey next) = keysPresentIn next (valuesByKey prev)).

(** The position after the last key of [keys] the map [before] has: [lastKept+1]
    of [appendedKeys], 0 when none is kept. *)
Fixpoint afterLastKept (before : gmap string (list string)) (keys : list string) : nat :=
  match keys with
  | [] => 0
  | k :: rest =>
      match afterLastKept before rest with
      | O => if decide (is_Some (before !! k)) then 1%nat else 0%nat
      | n => S n
      end
  end.

Definition appendedKeys (prev next : list Entry) : gset string :=
  let before := valuesByKey prev in
  let keys := keyOrder next in
  list_to_set (drop (afterLastKept before keys) keys).

(** One iteration of [orderedMapOps]'s loop. *)
Definition orderedKeyOps (path : string) (before after : gmap string (list string))
    (appended : gset string) (key : string) : option (list Op) :=
  let want := default [] (after !! key) in
  let have := default [] (before !! key) in
  let existed := bool_decide (is_Some (before !! key)) in
  if existed && sameValues have want then Some []
  else if negb (SafeToken key) || negb (payloadSafe want) then None
  else if negb existed && bool_decide (key ∈ appended) then Some (addEntries path key want)
  else match existed, have, want with
       | true, [_], [w] => if SafeToken w then Some [op_map OpMapSet path key w] else None
       | _, _, _ => None
       end.

Definition orderedMapOps (path : string) (prev next : list Entry) : mapOps :=
  let before := valuesByKey prev in
  let after := valuesByKey next in
  if negb (sameRelativeOrder prev next) then wholeMap
  else match concatM (orderedKeyOps path before after (appendedKeys prev next)) (keyOrder next) with
       | None => wholeMap
       | Some ups => withRemovals {| upserts := ups; deletes := []; whole := false |}
                       path prev after
       end.

(** ** The running map

    What a map command does to the entries a worker holds: [add map] appends,
    [set map] rewrites every entry with the key, [del map] drops every one. *)

Definition mapOpApply (path : string) (entries : list Entry) (o : Op) : list Entry :=
  if decide (Op_Path o = path) then
    if decide (Op_Kind o = OpMapAdd) then entries ++ [MkEntry (Op_Key o) (Op_Value o)]
    else if decide (Op_Kind o = OpMapSet) then
      (λ e, if decide (Entry_Key e = Op_Key o) then MkEntry (Entry_Key e) (Op_Value o) else e)
        <$> entries
    else if decide (Op_Kind o = OpMapDel) then
      filter (λ e, Entry_Key e ≠ Op_Key o) entries
    else entries
  else entries.

Definition runMapOps (path : string) (ops : list Op) (entries : list Entry) : list Entry :=
  foldl (mapOpApply path) entries ops.

(** The values of one key, in file order. *)
Definition valuesOf (k : string) (entries : list Entry) : list string :=
  Entry_Value <$> filter (λ e, Entry_Key e = k) entries.

(** ** Keys and values of an entry list *)

Lemma valuesOf_nil k : valuesOf k [] = [].
Proof. done. Qed.

Lemma valuesOf_app k l r : valuesOf k (l ++ r) = valuesOf k l ++ valuesOf k r.
Proof. unfold valuesOf. by rewrite filter_app, fmap_app. Qed.

Lemma valuesOf_cons k e l :
  valuesOf k (e :: l) = (if decide (Entry_Key e = k) then [Entry_Value e] else []) ++ valuesOf k l.
Proof. unfold valuesOf. rewrite filter_cons. by case_decide. Qed.

Lemma valuesOf_empty k l : valuesOf k l = [] ↔ k ∉ Entry_Key <$> l.
Proof.
  induction l as [|e l IH]; [split; intros _; [apply not_elem_of_nil|done]|].
  rewrite valuesOf_cons, fmap_cons, not_elem_of_cons. case_decide as H; simpl.
  - split; [done|]. intros [Hne _]. by destruct Hne.
  - rewrite IH. split; [intros; split; [congruence|done]|tauto].
Qed.

Lemma valuesOf_Permutation k l r : l ≡ₚ r → valuesOf k l ≡ₚ valuesOf k r.
Proof. intros H. unfold valuesOf. by rewrite H. Qed.

Lemma valuesByKey_lookup k l :
  valuesByKey l !! k = if decide (k ∈ Entry_Key <$> l) then Some (valuesOf k l) else None.
Proof.
  unfold valuesByKey. induction l as [|e l IH] using rev_ind.
  { rewrite decide_False by apply not_elem_of_nil. apply lookup_empty. }
  rewrite foldl_app. simpl. rewrite fmap_app, valuesOf_app, valuesOf_cons, valuesOf_nil.
  destruct (decide (Entry_Key e = k)) as [<-|Hne].
  - rewrite lookup_insert_eq, IH.
    rewrite (decide_True (P := Entry_Key e ∈ _ ++ _)) by (rewrite elem_of_app; right; by left).
    case_decide as Hin; simpl; [done|].
    apply valuesOf_empty in Hin. by rewrite Hin.
  - rewrite lookup_insert_ne, IH, !app_nil_r by done.
    apply decide_ext. set_solver.
Qed.

Lemma valuesByKey_is_Some k l : is_Some (valuesByKey l !! k) ↔ k ∈ Entry_Key <$> l.
Proof.
  rewrite valuesByKey_lookup. case_decide; [naive_solver|].
  split; [by intros [? [=]]|done].
Qed.

Lemma valuesByKey_default k l : default [] (valuesByKey l !! k) = valuesOf k l.
Proof.
  rewrite valuesByKey_lookup. case_decide as H; [done|]. by apply valuesOf_empty in H.
Qed.

(** Two entry lists are permutations of each other exactly when every key has
    the same multiset of values. *)
Lemma entries_Permutation l r : (∀ k, valuesOf k l ≡ₚ valuesOf k r) ↔ l ≡ₚ r.
Proof.
  split; [|intros H k; by apply valuesOf_Permutation].
  intros H. apply (Permutation_count_occ Entry_eq_dec). intros [k v].
  assert (∀ es, count_occ Entry_eq_dec es (MkEntry k v)
                = count_occ String.eq_dec (valuesOf k es) v) as Hcount.
  { induction es as [|[k' v'] es IH]; [done|].
    rewrite valuesOf_cons. cbn [Entry_Key Entry_Value].
    destruct (decide (k' = k)) as [->|Hk]; [destruct (decide (v' = v)) as [->|Hv]|]; simpl app.
    - by rewrite !count_occ_cons_eq, IH.
    - rewrite !count_occ_cons_neq by congruence. done.
    - rewrite count_occ_cons_neq by congruence. done. }
  rewrite !Hcount. by apply (Permutation_count_occ String.eq_dec).
Qed.

Lemma keyOrderFrom_elem seen keys k :
  k ∈ keyOrderFrom seen keys ↔ k ∈ keys ∧ k ∉ seen.
Proof.
  revert seen. induction keys as [|a keys IH]; intros seen; simpl; [set_solver|].
  destruct (decide (k = a)) as [->|]; case_decide; rewrite ?elem_of_cons, IH; set_solver.
Qed.

Lemma keyOrderFrom_NoDup seen keys : NoDup (keyOrderFrom seen keys).
Proof.
  revert seen. induction keys as [|a keys IH]; intros seen; simpl; [constructor|].
  case_decide; [apply IH|]. constructor; [|apply IH].
  rewrite keyOrderFrom_elem. set_solver.
Qed.

Lemma keyOrder_elem l k : k ∈ keyOrder l ↔ k ∈ Entry_Key <$> l.
Proof. unfold keyOrder. rewrite keyOrderFrom_elem. set_solver. Qed.

Lemma keyOrder_NoDup l : NoDup (keyOrder l).
Proof. apply keyOrderFrom_NoDup. Qed.

Lemma keyOrderFrom_app seen l r :
  keyOrderFrom seen (l ++ r) = keyOrderFrom seen l ++ keyOrderFrom (list_to_set l ∪ seen) r.
Proof.
  revert seen. induction l as [|a l IH]; intros seen; simpl.
  { f_equal. set_solver. }
  case_decide; rewrite IH; simpl.
  - do 2 f_equal. set_solver.
  - do 3 f_equal. set_solver.
Qed.

(** Only the keys that occur matter to the seen set. *)
Lemma keyOrderFrom_ext seen seen' l :
  (∀ k, k ∈ l → k ∈ seen ↔ k ∈ seen') → keyOrderFrom seen l = keyOrderFrom seen' l.
Proof.
  revert seen seen'. induction l as [|a l IH]; intros seen seen' H; simpl; [done|].
  assert (a ∈ seen ↔ a ∈ seen') as Ha by (apply H; set_solver).
  do 2 case_decide; try tauto.
  - apply IH. set_solver.
  - f_equal. apply IH. set_solver.
Qed.

Lemma keyOrderFrom_filter (P : string → Prop) `{∀ k, Decision (P k)} seen l :
  keyOrderFrom seen (filter P l) = filter P (keyOrderFrom seen l).
Proof.
  revert seen. induction l as [|a l IH]; intros seen; simpl; [done|].
  rewrite filter_cons. destruct (decide (P a)) as [HP|HP]; simpl.
  - case_decide; [apply IH|]. rewrite filter_cons_True by done. f_equal. apply IH.
  - case_decide; [apply IH|]. rewrite filter_cons_False by done.
    rewrite <-IH. apply keyOrderFrom_ext. intros k [Hk _]%list_elem_of_filter. set_solver.
Qed.

Lemma keyOrderFrom_id seen l :
  NoDup l → (∀ k, k ∈ l → k ∉ seen) → keyOrderFrom seen l = l.
Proof.
  revert seen. induction l as [|a l IH]; intros seen Hnd Hs; simpl; [done|].
  apply NoDup_cons in Hnd as [Ha Hnd]. rewrite decide_False by set_solver.
  f_equal. apply IH; [done|]. set_solver.
Qed.

(** ** Replaying ops per key *)

(** An op does to one key's values what it does to the map. *)
Definition valStep (path k : string) (vs : list string) (o : Op) : list string :=
  if decide (Op_Path o = path ∧ Op_Key o = k) then
    if decide (Op_Kind o = OpMapAdd) then vs ++ [Op_Value o]
    else if decide (Op_Kind o = OpMapSet) then (λ _, Op_Value o) <$> vs
    else if decide (Op_Kind o = OpMapDel) then []
    else vs
  else vs.

Lemma valuesOf_mapOpApply path k m o :
  valuesOf k (mapOpApply path m o) = valStep path k (valuesOf k m) o.
Proof.
  unfold mapOpApply, valStep.
  destruct (decide (Op_Path o = path)) as [Hp|Hp]; [|by rewrite decide_False by tauto].
  destruct (decide (Op_Kind o = OpMapAdd)) as [HOpMapAdd|HOpMapAdd].
  { rewrite valuesOf_app, valuesOf_cons, valuesOf_nil. simpl.
    repeat case_decide; try tauto; by rewrite ?app_nil_r. }
  destruct (decide (Op_Kind o = OpMapSet)) as [HOpMapSet|HOpMapSet].
  { destruct (decide (Op_Key o = k)) as [<-|Hk];
      [rewrite (decide_True (P := _ ∧ _)) by tauto|rewrite (decide_False (P := _ ∧ _)) by tauto];
      induction m as [|e m IH]; [done| |done|];
      rewrite fmap_cons, !valuesOf_cons, IH; repeat case_decide; simplify_eq/=; done. }
  destruct (decide (Op_Kind o = OpMapDel)) as [HOpMapDel|HOpMapDel]; [|by case_decide].
  destruct (decide (Op_Key o = k)) as [<-|Hk];
    [rewrite (decide_True (P := _ ∧ _)) by tauto|rewrite (decide_False (P := _ ∧ _)) by tauto];
    induction m as [|e m IH]; [done| |done|];
    rewrite filter_cons, ?valuesOf_cons; repeat case_decide; simplify_eq/=;
    rewrite ?valuesOf_cons; repeat case_decide; simplify_eq/=; by rewrite ?IH.
Qed.

Lemma valuesOf_runMapOps path k ops m :
  valuesOf k (runMapOps path ops m) = foldl (valStep path k) (valuesOf k m) ops.
Proof.
  revert m. induction ops as [|o ops IH]; intros m; simpl; [done|].
  by rewrite IH, valuesOf_mapOpApply.
Qed.

(** Ops for other keys do not touch a key's values. *)
Lemma valStep_other path k vs ops :
  Forall (λ o, Op_Key o ≠ k) ops → foldl (valStep path k) vs ops = vs.
Proof.
  induction 1 as [|o ops Ho _ IH] in vs |- *; simpl; [done|].
  unfold valStep at 2. rewrite decide_False by tauto. apply IH.
Qed.

(** When each key of a duplicate-free list composes ops for itself only, the
    values of one of those keys see only its own ops. *)
Lemma valStep_concat path (f : string → option (list Op)) keys opss k vs :
  (∀ key ops, f key = Some ops → Forall (λ o, Op_Key o = key) ops) →
  NoDup keys → concatM f keys = Some opss →
  foldl (valStep path k) vs opss
  = if decide (k ∈ keys) then foldl (valStep path k) vs (default [] (f k)) else vs.
Proof.
  intros Hf Hnd (ls & HM%mapM_Some & [= <-])%bind_Some.
  induction HM as [|key ops keys ls Hkey HM IH] in vs, Hnd |- *; simpl.
  { destruct (decide (k ∈ [])) as [H|]; [by apply not_elem_of_nil in H|done]. }
  apply NoDup_cons in Hnd as [Hk Hnd]. rewrite foldl_app, IH by done.
  specialize (Hf _ _ Hkey).
  destruct (decide (key = k)) as [->|Hne].
  - destruct (decide (k ∈ keys)); [done|]. destruct (decide (k ∈ k :: keys)); [|set_solver].
    by rewrite Hkey.
  - rewrite (valStep_other _ _ vs ops).
    2: { eapply Forall_impl; [done|]. simpl. intros o ->. done. }
    destruct (decide (k ∈ keys)), (decide (k ∈ key :: keys)); set_solver.
Qed.

Lemma addEntries_run path key vs0 values :
  foldl (valStep path key) vs0 (addEntries path key values) = vs0 ++ values.
Proof.
  unfold addEntries. induction values as [|v values IH] in vs0 |- *; simpl; [by rewrite app_nil_r|].
  rewrite IH. unfold valStep. simpl. destruct (decide (_ ∧ _)); [|tauto]. by rewrite <-app_assoc.
Qed.

Lemma unorderedKeyOps_key path before after key ops :
  unorderedKeyOps path before after key = Some ops → Forall (λ o, Op_Key o = key) ops.
Proof.
  unfold unorderedKeyOps, addEntries. intros H. go_cases;
    first [by apply Forall_fmap, Forall_true|by repeat constructor].
Qed.

Lemma orderedKeyOps_key path before after appended key ops :
  orderedKeyOps path before after appended key = Some ops → Forall (λ o, Op_Key o = key) ops.
Proof.
  unfold orderedKeyOps, addEntries. intros H. go_cases;
    first [by apply Forall_fmap, Forall_true|by repeat constructor].
Qed.

Lemma removalOps_key path after key ops :
  removalOps path after key = Some ops → Forall (λ o, Op_Key o = key) ops.
Proof. unfold removalOps. intros H. go_cases; repeat constructor. Qed.

Lemma sameValues_Permutation prev next : sameValues prev next = true ↔ prev ≡ₚ next.
Proof.
  unfold sameValues. case_bool_decide as Hl.
  - by rewrite bool_decide_eq_true, sort_strings_eq.
  - split; [done|]. intros H. by apply Permutation_length in H.
Qed.

(** ** Trimming is an optimisation *)

Lemma commonLen_take l r : take (commonLen l r) l = take (commonLen l r) r.
Proof.
  revert r. induction l as [|a l IH]; intros [|b r]; simpl; try done.
  destruct (decide (a = b)) as [->|]; simpl; [by rewrite IH|done].
Qed.

Lemma commonLen_le_l l r : (commonLen l r ≤ length l)%nat.
Proof.
  revert r. induction l as [|a l IH]; intros [|b r]; simpl; try lia.
  destruct (decide (a = b)); [specialize (IH r)|]; lia.
Qed.

Lemma commonLen_le_r l r : (commonLen l r ≤ length r)%nat.
Proof.
  revert r. induction l as [|a l IH]; intros [|b r]; simpl; try lia.
  destruct (decide (a = b)); [specialize (IH r)|]; lia.
Qed.

Lemma sharesKey_false keys l :
  sharesKey keys l = false → ∀ k, k ∈ Entry_Key <$> l → k ∉ keys.
Proof.
  unfold sharesKey. intros H k (e & -> & He)%list_elem_of_fmap Hin.
  assert (existsb (λ e, bool_decide (Entry_Key e ∈ keys)) l = true); [|congruence].
  apply existsb_exists. exists e. split; [by apply list_elem_of_In|].
  by apply bool_decide_eq_true.
Qed.

(** A list split at a common front and a common back. *)
Lemma window_split (l : list Entry) front back :
  (front + back ≤ length l)%nat →
  l = take front l ++ take (length l - back - front) (drop front l) ++ drop (length l - back) l.
Proof.
  intros H. rewrite <-(take_drop front l) at 1. f_equal.
  rewrite <-(take_drop (length l - back - front) (drop front l)) at 1. f_equal.
  rewrite drop_drop. f_equal. lia.
Qed.

(** The windows are what is left between a shared head and a shared tail, and no
    key of theirs occurs in what was cut. *)
Lemma trimCommonEntries_spec prev next pw nw :
  trimCommonEntries prev next = Some (pw, nw) →
  ∃ F B, prev = F ++ pw ++ B ∧ next = F ++ nw ++ B ∧
    ∀ k, k ∈ Entry_Key <$> (F ++ B) → (k ∉ Entry_Key <$> pw) ∧ (k ∉ Entry_Key <$> nw).
Proof.
  unfold trimCommonEntries. cbv zeta.
  set (front := commonLen prev next).
  set (back := commonLen (reverse (drop front prev)) (reverse (drop front next))).
  assert (take front prev = take front next) as HF by apply commonLen_take.
  assert (front + back ≤ length prev)%nat as Hp.
  { pose proof (commonLen_le_l prev next) as H1. fold front in H1.
    pose proof (commonLen_le_l (reverse (drop front prev)) (reverse (drop front next))) as H2.
    fold back in H2. rewrite length_reverse, length_drop in H2. lia. }
  assert (front + back ≤ length next)%nat as Hn.
  { pose proof (commonLen_le_r prev next) as H1. fold front in H1.
    pose proof (commonLen_le_r (reverse (drop front prev)) (reverse (drop front next))) as H2.
    fold back in H2. rewrite length_reverse, length_drop in H2. lia. }
  assert (drop (length prev - back) prev = drop (length next - back) next) as HB.
  { pose proof (commonLen_take (reverse (drop front prev)) (reverse (drop front next))) as H.
    fold back in H. rewrite !take_reverse, !length_drop, !drop_drop in H. apply (inj reverse) in H.
    replace (front + (length prev - front - back))%nat with (length prev - back)%nat in H by lia.
    replace (front + (length next - front - back))%nat with (length next - back)%nat in H by lia.
    done. }
  destruct (bool_decide (front = 0%nat) && bool_decide (back = 0%nat)) eqn:E0.
  { intros [= <- <-]. exists [], []. rewrite !app_nil_r. split_and!; [done..|]. set_solver. }
  destruct (bool_decide (size _ = 0%nat)) eqn:Hsz.
  - apply bool_decide_eq_true in Hsz. intros [= <- <-]. exists (take front prev), (drop (length prev - back) prev).
    split_and!; [by apply window_split|rewrite HF, HB; by apply window_split|].
    intros k _. apply size_empty_inv in Hsz. set_solver.
  - destruct (sharesKey _ (take front prev)) eqn:E1; [done|].
    destruct (sharesKey _ (drop _ prev)) eqn:E2; [done|]. intros [= <- <-].
    exists (take front prev), (drop (length prev - back) prev).
    split_and!; [by apply window_split|rewrite HF, HB; by apply window_split|].
    intros k Hk. rewrite fmap_app, elem_of_app in Hk.
    pose proof (sharesKey_false _ _ E1 k). pose proof (sharesKey_false _ _ E2 k). set_solver.
Qed.

Section window.
Context (F B pw nw : list Entry).
Hypothesis Hdisj : ∀ k, k ∈ Entry_Key <$> (F ++ B) →
  (k ∉ Entry_Key <$> pw) ∧ (k ∉ Entry_Key <$> nw).

Lemma valuesOf_cut k w :
  k ∉ Entry_Key <$> (F ++ B) → valuesOf k (F ++ w ++ B) = valuesOf k w.
Proof.
  rewrite fmap_app, not_elem_of_app, <-!valuesOf_empty, !valuesOf_app.
  intros [-> ->]. by rewrite app_nil_r.
Qed.

Lemma valuesByKey_cut k w :
  k ∉ Entry_Key <$> (F ++ B) → valuesByKey (F ++ w ++ B) !! k = valuesByKey w !! k.
Proof.
  intros Hk. rewrite !valuesByKey_lookup, valuesOf_cut by done.
  apply decide_ext. rewrite !fmap_app, !elem_of_app in *. tauto.
Qed.

Lemma valuesByKey_shared k :
  k ∈ Entry_Key <$> (F ++ B) →
  valuesByKey (F ++ pw ++ B) !! k = Some (valuesOf k (F ++ B)) ∧
  valuesByKey (F ++ nw ++ B) !! k = Some (valuesOf k (F ++ B)).
Proof using Hdisj.
  intros Hk. destruct (Hdisj k Hk) as [Hp Hn]. apply valuesOf_empty in Hp, Hn.
  rewrite fmap_app, elem_of_app in Hk.
  rewrite !valuesByKey_lookup, !valuesOf_app, Hp, Hn.
  rewrite !decide_True by (rewrite !fmap_app, !elem_of_app; tauto). done.
Qed.

(** Looping over the keys of the whole file is looping over the window's,
    when the body skips the keys that were cut. *)
Lemma concatM_cut (f g : string → option (list Op)) w :
  (∀ k, k ∈ Entry_Key <$> (F ++ B) → f k = Some [] ∧ (k ∉ Entry_Key <$> w)) →
  (∀ k, k ∈ Entry_Key <$> w → f k = g k) →
  concatM f (keyOrder (F ++ w ++ B)) = concatM g (keyOrder w).
Proof.
  intros Hcut Hw. unfold keyOrder.
  rewrite !fmap_app, !keyOrderFrom_app, !concatM_app.
  rewrite (concatM_skip f (keyOrderFrom ∅ (Entry_Key <$> F))).
  2: { intros k [Hk _]%keyOrderFrom_elem. apply Hcut. set_solver. }
  rewrite (concatM_skip f (keyOrderFrom _ (Entry_Key <$> B))).
  2: { intros k [Hk _]%keyOrderFrom_elem. apply Hcut. set_solver. }
  rewrite (keyOrderFrom_ext _ ∅ (Entry_Key <$> w)).
  2: { intros k Hk. split; [|set_solver]. intros [Hin|]%elem_of_union; [|done].
       apply elem_of_list_to_set in Hin. destruct (Hcut k); set_solver. }
  rewrite (concatM_ext f g).
  2: { intros k [Hk _]%keyOrderFrom_elem. by apply Hw. }
  destruct (concatM g _); simpl; [|done]. by rewrite app_nil_r.
Qed.

Lemma unorderedEntryOps_cut path :
  unorderedEntryOps path (F ++ pw ++ B) (F ++ nw ++ B) = unorderedEntryOps path pw nw.
Proof using Hdisj.
  assert (∀ k, k ∈ Entry_Key <$> pw ∨ k ∈ Entry_Key <$> nw → k ∉ Entry_Key <$> (F ++ B)) as Hout
    by (intros k Hk Hcut; apply Hdisj in Hcut; tauto).
  unfold unorderedEntryOps, withRemovals. cbv zeta.
  rewrite (concatM_cut _ (unorderedKeyOps path (valuesByKey pw) (valuesByKey nw)) nw).
  - rewrite (concatM_cut _ (removalOps path (valuesByKey nw)) pw); [done|..].
    + intros k Hk. split; [|by apply Hdisj]. unfold removalOps.
      by destruct (valuesByKey_shared k Hk) as [_ ->].
    + intros k Hk. unfold removalOps. rewrite valuesByKey_cut; [done|]. apply Hout. by left.
  - intros k Hk. split; [|by apply Hdisj]. unfold unorderedKeyOps.
    destruct (valuesByKey_shared k Hk) as [-> ->]. simpl.
    rewrite (proj2 (sameValues_Permutation _ _)) by done. done.
  - intros k Hk. unfold unorderedKeyOps. rewrite !valuesByKey_cut; [done|..]; apply Hout; tauto.
Qed.
End window.

Lemma unorderedMapOps_trim path prev next :
  unorderedMapOps path prev next = unorderedEntryOps path prev next.
Proof.
  unfold unorderedMapOps. destruct (trimCommonEntries prev next) as [[pw nw]|] eqn:E; [|done].
  apply trimCommonEntries_spec in E as (F & B & -> & -> & Hd).
  symmetry. by apply unorderedEntryOps_cut.
Qed.

(** ** What the ops reach *)

Lemma withRemovals_inv ups path prev after d :
  withRemovals (MkMapOps ups [] false) path prev after = d → whole d = false →
  ∃ dels, concatM (removalOps path after) (keyOrder prev) = Some dels ∧ d = MkMapOps ups dels false.
Proof. unfold withRemovals. intros <-. case_match; simpl; [eauto|done]. Qed.

Lemma unorderedEntryOps_inv path prev next d :
  unorderedEntryOps path prev next = d → whole d = false →
  ∃ ups dels,
    concatM (unorderedKeyOps path (valuesByKey prev) (valuesByKey next)) (keyOrder next) = Some ups ∧
    concatM (removalOps path (valuesByKey next)) (keyOrder prev) = Some dels ∧
    d = MkMapOps ups dels false.
Proof.
  unfold unorderedEntryOps. destruct (concatM _ (keyOrder next)) as [ups|] eqn:E.
  - intros Hd Hw. destruct (withRemovals_inv _ _ _ _ _ Hd Hw) as (dels & ? & ?). eauto.
  - by intros <-.
Qed.

(** The removals empty exactly the keys the render dropped. *)
Lemma removals_run path prev next dels k vs :
  concatM (removalOps path (valuesByKey next)) (keyOrder prev) = Some dels →
  foldl (valStep path k) vs dels
  = if decide (k ∈ Entry_Key <$> prev ∧ k ∉ Entry_Key <$> next) then [] else vs.
Proof.
  intros H. rewrite (valStep_concat _ _ _ _ _ _ (removalOps_key path _) (keyOrder_NoDup _) H).
  destruct (decide (k ∈ keyOrder prev)) as [Hin|Hin].
  - pose proof (concatM_elem_Some _ _ _ _ H Hin) as Hs. rewrite keyOrder_elem in Hin. unfold removalOps in *.
    rewrite valuesByKey_lookup in *. destruct (decide (k ∈ Entry_Key <$> next)); simpl in *.
    + rewrite decide_False by tauto. done.
    + rewrite decide_True by tauto. destruct (negb _); [by destruct Hs|]. simpl.
      unfold valStep. simpl. by rewrite decide_True by done.
  - rewrite decide_False; [done|]. rewrite keyOrder_elem in Hin. tauto.
Qed.

(** A loop whose body brings its own key to the render's values brings every key
    of the render there and leaves the others alone. *)
Lemma upserts_run (f : string → option (list Op)) path next ups k vs :
  (∀ key ops, f key = Some ops → Forall (λ o, Op_Key o = key) ops) →
  (∀ ops, f k = Some ops → foldl (valStep path k) vs ops ≡ₚ valuesOf k next) →
  concatM f (keyOrder next) = Some ups →
  foldl (valStep path k) vs ups ≡ₚ if decide (k ∈ Entry_Key <$> next) then valuesOf k next else vs.
Proof.
  intros Hkey Hstep H. rewrite (valStep_concat _ _ _ _ _ _ Hkey (keyOrder_NoDup _) H).
  destruct (decide (k ∈ keyOrder next)) as [Hin|Hin].
  - rewrite decide_True by (by rewrite <-keyOrder_elem).
    destruct (concatM_elem_Some _ _ _ _ H Hin) as [ops Hops]. rewrite Hops. by apply Hstep.
  - by rewrite decide_False by (by rewrite <-keyOrder_elem).
Qed.

Lemma unorderedKeyOps_run path prev next k vs ops :
  vs ≡ₚ valuesOf k prev →
  unorderedKeyOps path (valuesByKey prev) (valuesByKey next) k = Some ops →
  foldl (valStep path k) vs ops ≡ₚ valuesOf k next.
Proof.
  intros Hvs Hops. unfold unorderedKeyOps in Hops. rewrite !valuesByKey_default in Hops.
  destruct (bool_decide _ && _) eqn:E1; [simplify_eq/=|].
  { apply andb_true_iff in E1 as [_ E1]. apply sameValues_Permutation in E1. by rewrite Hvs. }
  destruct (negb _ || negb _); [done|]. destruct (negb _) eqn:E2; [simplify_eq/=|].
  { apply negb_true_iff, bool_decide_eq_false in E2. rewrite valuesByKey_is_Some in E2.
    apply valuesOf_empty in E2. rewrite E2 in Hvs. apply Permutation_nil_r in Hvs as ->.
    by rewrite addEntries_run. }
  destruct (valuesOf k prev) as [|h [|??]]; try done.
  destruct (valuesOf k next) as [|w [|??]]; try done. destruct (SafeToken w); simplify_eq/=.
  apply Permutation_singleton_r in Hvs as ->. unfold valStep. simpl.
  by rewrite decide_True by done.
Qed.

(** Upserts that bring every key of the render to its values, followed by the
    removals, bring the map to the render. *)
Lemma delta_run path prev next ups dels m :
  (∀ k, foldl (valStep path k) (valuesOf k m) ups
        ≡ₚ if decide (k ∈ Entry_Key <$> next) then valuesOf k next else valuesOf k m) →
  concatM (removalOps path (valuesByKey next)) (keyOrder prev) = Some dels →
  m ≡ₚ prev → runMapOps path (ups ++ dels) m ≡ₚ next.
Proof.
  intros Hu Hd Hm. apply entries_Permutation. intros k.
  rewrite valuesOf_runMapOps, foldl_app, (removals_run _ _ _ _ _ _ Hd). specialize (Hu k).
  destruct (decide (k ∈ Entry_Key <$> next)) as [Hin|Hin].
  - rewrite decide_False by tauto. done.
  - pose proof Hin as ->%valuesOf_empty.
    destruct (decide (_ ∧ _)) as [|Hp]; [done|]. rewrite Hu.
    assert (k ∉ Entry_Key <$> prev) as Hnp by tauto. apply valuesOf_empty in Hnp.
    by rewrite (valuesOf_Permutation k m prev Hm), Hnp.
Qed.

(** C16: comparing only the window between the common head and the common tail
    composes exactly the ops the comparison of the whole files composes, and
    replaying the composed upserts and then the deletes on a running map that
    holds the previous render's entries (in whatever order the worker keeps
    them) leaves exactly the next render's entries, as a multiset. *)
Theorem unordered_delta_correct path prev next m :
  unorderedMapOps path prev next = unorderedEntryOps path prev next ∧
  (whole (unorderedMapOps path prev next) = false → m ≡ₚ prev →
   runMapOps path (upserts (unorderedMapOps path prev next)
                   ++ deletes (unorderedMapOps path prev next)) m ≡ₚ next).
Proof.
  rewrite unorderedMapOps_trim. split; [done|].
  intros Hw Hm. destruct (unorderedEntryOps_inv _ _ _ _ eq_refl Hw) as (ups & dels & Hu & Hd & ->).
  apply (delta_run _ prev); [|done..]. intros k. simpl.
  eapply upserts_run; [apply unorderedKeyOps_key| |exact Hu].
  intros ops. apply unorderedKeyOps_run. by apply valuesOf_Permutation.
Qed.

(** ** Ordered maps *)

Lemma orderedKeyOps_run path prev next appended k vs ops :
  vs ≡ₚ valuesOf k prev →
  orderedKeyOps path (valuesByKey prev) (valuesByKey next) appended k = Some ops →
  foldl (valStep path k) vs ops ≡ₚ valuesOf k next.
Proof.
  intros Hvs Hops. unfold orderedKeyOps in Hops. rewrite !valuesByKey_default in Hops.
  destruct (bool_decide _ && sameValues _ _) eqn:E1; [simplify_eq/=|].
  { apply andb_true_iff in E1 as [_ E1]. apply sameValues_Permutation in E1. by rewrite Hvs. }
  destruct (negb _ || negb _); [done|]. destruct (negb _ && _) eqn:E2; [simplify_eq/=|].
  { apply andb_true_iff in E2 as [E2 _].
    apply negb_true_iff, bool_decide_eq_false in E2. rewrite valuesByKey_is_Some in E2.
    apply valuesOf_empty in E2. rewrite E2 in Hvs. apply Permutation_nil_r in Hvs as ->.
    by rewrite addEntries_run. }
  destruct (bool_decide _); [|done].
  destruct (valuesOf k prev) as [|h [|??]]; try done.
  destruct (valuesOf k next) as [|w [|??]]; try done. destruct (SafeToken w); simplify_eq/=.
  apply Permutation_singleton_r in Hvs as ->. unfold valStep. simpl.
  by rewrite decide_True by done.
Qed.

Lemma orderedMapOps_inv path prev next d :
  orderedMapOps path prev next = d → whole d = false →
  sameRelativeOrder prev next = true ∧ ∃ ups dels,
    concatM (orderedKeyOps path (valuesByKey prev) (valuesByKey next) (appendedKeys prev next))
      (keyOrder next) = Some ups ∧
    concatM (removalOps path (valuesByKey next)) (keyOrder prev) = Some dels ∧
    d = MkMapOps ups dels false.
Proof.
  unfold orderedMapOps. cbv zeta. destruct (negb _) eqn:E0; [by intros <-|].
  apply negb_false_iff in E0. destruct (concatM _ (keyOrder next)) as [ups|] eqn:E.
  - intros Hd Hw. destruct (withRemovals_inv _ _ _ _ _ Hd Hw) as (dels & ? & ?). eauto 10.
  - by intros <-.
Qed.

(** An op on the key sequence of a map: a value change keeps it. *)
Definition keyStep (path : string) (ks : list string) (o : Op) : list string :=
  if decide (Op_Path o = path) then
    if decide (Op_Kind o = OpMapAdd) then ks ++ [Op_Key o]
    else if decide (Op_Kind o = OpMapDel) then filter (λ k, k ≠ Op_Key o) ks
    else ks
  else ks.

Lemma keys_runMapOps path ops m :
  Entry_Key <$> runMapOps path ops m = foldl (keyStep path) (Entry_Key <$> m) ops.
Proof.
  revert m. induction ops as [|o ops IH]; intros m; simpl; [done|]. rewrite IH. f_equal.
  unfold mapOpApply, keyStep. case_decide; [|done]. case_decide as Ha; [by rewrite fmap_app|].
  destruct (decide (Op_Kind o = OpMapSet)) as [Hs|Hs].
  - rewrite decide_False by (rewrite Hs; done). rewrite <-list_fmap_compose.
    apply list_fmap_ext. intros i e _. simpl. by case_decide.
  - case_decide; [|done]. clear. induction m as [|e m IH]; [done|].
    rewrite fmap_cons, !filter_cons. case_decide; by rewrite ?fmap_cons, IH.
Qed.

(** The keys the upserts append: one occurrence per value of an added key. *)
Definition addedKeys (path : string) (ops : list Op) : list string :=
  Op_Key <$> filter (λ o, Op_Kind o = OpMapAdd ∧ Op_Path o = path) ops.

Lemma keyStep_upserts path ks ops :
  Forall (λ o, Op_Kind o ≠ OpMapDel) ops →
  foldl (keyStep path) ks ops = ks ++ addedKeys path ops.
Proof.
  unfold addedKeys. induction 1 as [|o ops Ho _ IH] in ks |- *; simpl; [by rewrite app_nil_r|].
  rewrite IH, filter_cons. unfold keyStep.
  destruct (decide (Op_Path o = path)), (decide (Op_Kind o = OpMapAdd));
    rewrite ?(decide_True (P := _ ∧ _)), ?(decide_False (P := _ ∧ _)),
      ?(decide_False (P := Op_Kind o = OpMapDel)) by tauto; simpl; rewrite <-?app_assoc; done.
Qed.

Lemma keyStep_removals path next keys ks dels :
  concatM (removalOps path (valuesByKey next)) keys = Some dels →
  foldl (keyStep path) ks dels
  = filter (λ k, ¬ (k ∈ keys ∧ k ∉ Entry_Key <$> next)) ks.
Proof.
  revert ks dels. induction keys as [|a keys IH]; intros ks dels.
  { intros [= <-]. simpl. symmetry. apply filter_all, Forall_forall. set_solver. }
  rewrite concatM_cons. destruct (removalOps _ _ a) as [d|] eqn:Ha; [|done].
  destruct (concatM _ keys) as [ds|] eqn:Hk; [|done]. simpl. intros [= <-].
  rewrite foldl_app, (IH _ ds eq_refl). unfold removalOps in Ha.
  rewrite valuesByKey_lookup in Ha. destruct (decide (a ∈ Entry_Key <$> next)) as [Hin|Hin].
  - simplify_eq/=. apply list_filter_iff. set_solver.
  - destruct (negb _); simplify_eq/=. unfold keyStep. simpl. rewrite decide_True by done.
    rewrite list_filter_filter. apply list_filter_iff. intros k. rewrite elem_of_cons.
    destruct (decide (k = a)) as [->|]; tauto.
Qed.

Lemma orderedKeyOps_cases path prev next appended k ops :
  orderedKeyOps path (valuesByKey prev) (valuesByKey next) appended k = Some ops →
  (k ∈ Entry_Key <$> prev ∧ addedKeys path ops = []) ∨
  ((k ∉ Entry_Key <$> prev) ∧ k ∈ appended ∧ addedKeys path ops = (λ _, k) <$> valuesOf k next).
Proof.
  unfold orderedKeyOps. rewrite !valuesByKey_default. intros H.
  destruct (bool_decide (is_Some _)) eqn:Ex; simpl in H.
  - apply bool_decide_eq_true in Ex. rewrite valuesByKey_is_Some in Ex. left. split; [done|].
    go_cases; done.
  - apply bool_decide_eq_false in Ex. rewrite valuesByKey_is_Some in Ex. right.
    destruct (negb _ || negb _); [done|]. case_bool_decide; [|done]. simplify_eq.
    split_and!; [done..|]. unfold addedKeys, addEntries. rewrite filter_all.
    + by rewrite <-list_fmap_compose.
    + apply Forall_fmap, Forall_true. done.
Qed.

Lemma orderedKeyOps_noDel path before after appended k ops :
  orderedKeyOps path before after appended k = Some ops →
  Forall (λ o, Op_Kind o ≠ OpMapDel) ops.
Proof.
  unfold orderedKeyOps, addEntries. intros H. go_cases;
    first [by apply Forall_fmap, Forall_true|by repeat constructor].
Qed.

Lemma keyOrderFrom_repeat {A} seen k (l : list A) rest :
  l ≠ [] → k ∉ seen →
  keyOrderFrom seen (((λ _, k) <$> l) ++ rest) = k :: keyOrderFrom ({[k]} ∪ seen) rest.
Proof.
  intros Hl Hk. destruct l as [|x l]; [done|]. simpl. rewrite decide_False by done. f_equal.
  clear Hl. assert (k ∈ {[k]} ∪ seen) as Hin by set_solver. revert Hin.
  generalize ({[k]} ∪ seen) as s. intros s Hin.
  induction l as [|y l IH]; simpl; [done|]. by rewrite decide_True by done.
Qed.

(** The keys the upserts append are the render's new keys, in its order. *)
Lemma addedKeys_order path prev next keys seen ups :
  NoDup keys → (∀ k, k ∈ keys → k ∈ Entry_Key <$> next ∧ k ∉ seen) →
  concatM (orderedKeyOps path (valuesByKey prev) (valuesByKey next) (appendedKeys prev next))
    keys = Some ups →
  keyOrderFrom seen (addedKeys path ups) = filter (λ k, k ∉ Entry_Key <$> prev) keys.
Proof.
  revert seen ups. induction keys as [|a keys IH]; intros seen ups Hnd Hk.
  { by intros [= <-]. }
  apply NoDup_cons in Hnd as [Ha Hnd]. rewrite concatM_cons.
  destruct (orderedKeyOps _ _ _ _ a) as [d|] eqn:Hd; [|done].
  destruct (concatM _ keys) as [ds|] eqn:Hds; [|done]. simpl. intros [= <-].
  unfold addedKeys. rewrite filter_app, fmap_app. fold (addedKeys path d) (addedKeys path ds).
  destruct (orderedKeyOps_cases _ _ _ _ _ _ Hd) as [[Hin ->]|(Hin & _ & ->)].
  - rewrite filter_cons_False by tauto. apply IH; [done| |done]. set_solver.
  - rewrite filter_cons_True by done. rewrite keyOrderFrom_repeat; [| |set_solver].
    + f_equal. apply IH; [done| |done]. intros k Hkk. destruct (Hk k); set_solver.
    + rewrite valuesOf_empty. destruct (Hk a); set_solver.
Qed.

Lemma afterLastKept_drop before keys k :
  k ∈ drop (afterLastKept before keys) keys → ¬ is_Some (before !! k).
Proof.
  induction keys as [|a keys IH]; simpl; [set_solver|].
  destruct (afterLastKept before keys) as [|n] eqn:E.
  - case_decide as Ha; simpl; rewrite ?drop_0 in *; [done|].
    rewrite elem_of_cons. intros [->|]; auto.
  - done.
Qed.

(** The render keeps a prefix of its key order and appends the rest. *)
Lemma ordered_keys_split path prev next ups :
  concatM (orderedKeyOps path (valuesByKey prev) (valuesByKey next) (appendedKeys prev next))
    (keyOrder next) = Some ups →
  keyOrder next = filter (λ k, k ∈ Entry_Key <$> prev) (keyOrder next)
                  ++ filter (λ k, k ∉ Entry_Key <$> prev) (keyOrder next).
Proof.
  intros H. set (n := afterLastKept (valuesByKey prev) (keyOrder next)).
  assert (Forall (λ k, k ∉ Entry_Key <$> prev) (drop n (keyOrder next))) as Hd.
  { apply Forall_forall. intros k Hk%afterLastKept_drop. by rewrite valuesByKey_is_Some in Hk. }
  assert (Forall (λ k, k ∈ Entry_Key <$> prev) (take n (keyOrder next))) as Ht.
  { apply Forall_forall. intros k Hk.
    destruct (concatM_elem_Some _ _ _ k H) as [ops Hops].
    { rewrite <-(take_drop n (keyOrder next)). set_solver. }
    destruct (orderedKeyOps_cases _ _ _ _ _ _ Hops) as [[? _]|(_ & Hap & _)]; [done|].
    unfold appendedKeys in Hap. fold n in Hap. apply elem_of_list_to_set in Hap.
    pose proof (keyOrder_NoDup next) as Hnd. rewrite <-(take_drop n (keyOrder next)) in Hnd.
    apply NoDup_app in Hnd as (_ & Hdis & _). by apply Hdis in Hk. }
  clearbody n. clear H. generalize dependent (keyOrder next). intros KO Hd Ht.
  transitivity (take n KO ++ drop n KO); [by rewrite take_drop|].
  f_equal; rewrite <-(take_drop n KO) at 2; rewrite filter_app.
  - rewrite (filter_all _ (take n KO) Ht), filter_none by done. by rewrite app_nil_r.
  - rewrite (filter_all _ (drop n KO) Hd), filter_none; [done|].
    eapply Forall_impl; [exact Ht|]. naive_solver.
Qed.

Lemma sameRelativeOrder_keys prev next :
  sameRelativeOrder prev next = true →
  filter (λ k, k ∈ Entry_Key <$> next) (Entry_Key <$> prev)
  = filter (λ k, k ∈ Entry_Key <$> prev) (Entry_Key <$> next).
Proof.
  unfold sameRelativeOrder, keysPresentIn. intros H%bool_decide_eq_true.
  rewrite (list_filter_iff _ (λ k, k ∈ Entry_Key <$> next)) in H
    by (intros; apply valuesByKey_is_Some).
  rewrite H. apply list_filter_iff. intros. apply valuesByKey_is_Some.
Qed.

(** The key sequence the replay leaves: the kept keys in their old order, then
    the added ones. *)
Lemma ordered_run_keys path prev next ups dels :
  concatM (orderedKeyOps path (valuesByKey prev) (valuesByKey next) (appendedKeys prev next))
    (keyOrder next) = Some ups →
  concatM (removalOps path (valuesByKey next)) (keyOrder prev) = Some dels →
  Entry_Key <$> runMapOps path (ups ++ dels) prev
  = filter (λ k, k ∈ Entry_Key <$> next) (Entry_Key <$> prev) ++ addedKeys path ups.
Proof.
  intros Hu Hd. rewrite keys_runMapOps, foldl_app, (keyStep_removals _ _ _ _ _ Hd).
  rewrite keyStep_upserts.
  2: { eapply concatM_Forall; [|exact Hu]. intros k ops _. apply orderedKeyOps_noDel. }
  rewrite filter_app. f_equal.
  - apply filter_ext_elem. intros k Hk. rewrite keyOrder_elem.
    destruct (decide (k ∈ Entry_Key <$> next)); tauto.
  - apply filter_all, Forall_forall. intros k Hk [Hp _].
    assert (k ∈ keyOrderFrom ∅ (addedKeys path ups)) as Hk' by (rewrite keyOrderFrom_elem; set_solver).
    rewrite (addedKeys_order path prev next (keyOrder next) ∅ ups) in Hk';
      [|apply keyOrder_NoDup|intros k'; rewrite keyOrder_elem; set_solver|done].
    apply list_elem_of_filter in Hk' as [Hnp _]. by rewrite keyOrder_elem in Hp.
Qed.

Lemma ordered_delta_reaches path prev next ups dels :
  sameRelativeOrder prev next = true →
  concatM (orderedKeyOps path (valuesByKey prev) (valuesByKey next) (appendedKeys prev next))
    (keyOrder next) = Some ups →
  concatM (removalOps path (valuesByKey next)) (keyOrder prev) = Some dels →
  runMapOps path (ups ++ dels) prev ≡ₚ next ∧
  keyOrder (runMapOps path (ups ++ dels) prev) = keyOrder next.
Proof.
  intros Ho Hu Hd. split.
  - apply (delta_run _ prev); [|done..]. intros k.
    eapply upserts_run; [apply orderedKeyOps_key| |exact Hu].
    intros ops. by apply orderedKeyOps_run.
  - unfold keyOrder at 1. rewrite (ordered_run_keys _ _ _ _ _ Hu Hd), keyOrderFrom_app.
    rewrite sameRelativeOrder_keys, keyOrderFrom_filter by done. fold (keyOrder next).
    rewrite (keyOrderFrom_ext _ ∅ (addedKeys path ups)).
    + rewrite (addedKeys_order path prev next (keyOrder next) ∅ ups);
        [|apply keyOrder_NoDup|intros k; rewrite keyOrder_elem; set_solver|done].
      symmetry. by eapply ordered_keys_split.
    + intros k Hk. split; [|set_solver].
      intros [Hin|]%elem_of_union; [|done]. apply elem_of_list_to_set in Hin.
      apply list_elem_of_filter in Hin as [Hp _].
      assert (k ∈ keyOrderFrom ∅ (addedKeys path ups)) as Hk' by (rewrite keyOrderFrom_elem; set_solver).
      rewrite (addedKeys_order path prev next (keyOrder next) ∅ ups) in Hk';
        [|apply keyOrder_NoDup|intros k'; rewrite keyOrder_elem; set_solver|done].
      by apply list_elem_of_filter in Hk' as [Hnp _].
Qed.

(** Entries with distinct keys are determined by their keys and values. *)
Lemma entries_eq_of_keys l r :
  NoDup (Entry_Key <$> l) → Entry_Key <$> l = Entry_Key <$> r → l ≡ₚ r → l = r.
Proof.
  intros Hnd Hk Hp. apply list_eq. intros i.
  assert ((Entry_Key <$> l) !! i = (Entry_Key <$> r) !! i) as Hi by congruence.
  rewrite !list_lookup_fmap in Hi.
  destruct (l !! i) as [e|] eqn:El, (r !! i) as [e'|] eqn:Er; simplify_eq/=; [|done].
  f_equal. assert (e' ∈ l) as (j & Hj)%list_elem_of_lookup.
  { rewrite Hp. by eapply list_elem_of_lookup_2. }
  assert (i = j) as <-; [|congruence].
  eapply NoDup_lookup; [exact Hnd|..]; rewrite list_lookup_fmap; [by rewrite El|].
  rewrite Hj. simpl. congruence.
Qed.

(** C17: for a map HAProxy matches in order, the per-entry ops leave the render's
    entries as a multiset and every key at the render's position among the
    distinct keys, so an entry is never shadowed by one the render puts after
    it; when neither render repeats a key, they take the running map from the
    previous file to exactly the next one, line for line. *)
Theorem ordered_delta_order path prev next :
  whole (orderedMapOps path prev next) = false →
  let after := runMapOps path (upserts (orderedMapOps path prev next)
                               ++ deletes (orderedMapOps path prev next)) prev in
  after ≡ₚ next ∧ keyOrder after = keyOrder next
  ∧ (NoDup (Entry_Key <$> prev) → NoDup (Entry_Key <$> next) → after = next).
Proof.
  intros Hw after. destruct (orderedMapOps_inv _ _ _ _ eq_refl Hw) as (Ho & ups & dels & Hu & Hd & E).
  subst after. rewrite E. simpl. destruct (ordered_delta_reaches _ _ _ _ _ Ho Hu Hd) as [Hperm Hord].
  split; [done|]. split; [done|]. intros Hp Hn.
  assert (NoDup (Entry_Key <$> runMapOps path (ups ++ dels) prev)) as Hnd by by rewrite Hperm.
  apply entries_eq_of_keys; [done| |done].
  unfold keyOrder in Hord. by rewrite !keyOrderFrom_id in Hord by set_solver.
Qed.

(** An ordered map whose render swaps the values of a repeated key composes
    no op at all, although the entry HAProxy matches first changes: the
    comparison of a key's values is a multiset comparison in both map kinds. *)
Theorem ordered_duplicate_swap_missed :
  let prev := [MkEntry "^/a" "one"; MkEntry "^/a" "two"] in
  let next := [MkEntry "^/a" "two"; MkEntry "^/a" "one"] in
  orderedMapOps "maps/path.map" prev next = MkMapOps [] [] false ∧
  head (valuesOf "^/a" (runMapOps "maps/path.map" [] prev)) = Some "one" ∧
  head (valuesOf "^/a" next) = Some "two".
Proof. vm_compute. done. Qed.

(** ** Runtime-command safety *)

(** What the agent may put on a CLI line for an upsert: the key and the value of
    a [set] as words, the value of an [add] as a payload line. *)
Definition upsertOk (path : string) (o : Op) : Prop :=
  ∃ key value, SafeToken key = true ∧
    ((o = op_map OpMapAdd path key value ∧ SafePayloadValue value = true)
     ∨ (o = op_map OpMapSet path key value ∧ SafeToken value = true)).

Definition deleteOk (path : string) (o : Op) : Prop :=
  ∃ key, SafeToken key = true ∧ o = op_map OpMapDel path key "".

Definition mapOpsOk (path : string) (d : mapOps) : Prop :=
  Forall (upsertOk path) (upserts d) ∧ Forall (deleteOk path) (deletes d).

Lemma addEntries_ok path key values :
  SafeToken key = true → payloadSafe values = true →
  Forall (upsertOk path) (addEntries path key values).
Proof.
  intros Hk Hv. apply Forall_fmap, Forall_forall. intros v Hin. unfold payloadSafe in Hv.
  rewrite forallb_forall in Hv. exists key, v. split; [done|]. left. split; [done|].
  apply Hv. by apply list_elem_of_In.
Qed.

Lemma unorderedKeyOps_ok path before after k ops :
  unorderedKeyOps path before after k = Some ops → Forall (upsertOk path) ops.
Proof.
  unfold unorderedKeyOps. intros H. destruct (_ && sameValues _ _); [simplify_eq; constructor|].
  destruct (negb _ || negb _) eqn:E; [done|]. split_bools.
  destruct (negb _); [simplify_eq; by apply addEntries_ok|].
  go_cases. apply Forall_singleton. do 2 eexists. split; [|right; split; [reflexivity|done]]. done.
Qed.

Lemma orderedKeyOps_ok path before after appended k ops :
  orderedKeyOps path before after appended k = Some ops → Forall (upsertOk path) ops.
Proof.
  unfold orderedKeyOps. intros H. destruct (_ && sameValues _ _); [simplify_eq; constructor|].
  destruct (negb _ || negb _) eqn:E; [done|]. split_bools.
  destruct (negb _ && _); [simplify_eq; by apply addEntries_ok|].
  go_cases. apply Forall_singleton. do 2 eexists. split; [|right; split; [reflexivity|done]]. done.
Qed.

Lemma removalOps_ok path after k ops :
  removalOps path after k = Some ops → Forall (deleteOk path) ops.
Proof.
  unfold removalOps. intros H. go_cases; [constructor|].
  apply Forall_singleton. exists k. split; [by apply negb_false_iff|done].
Qed.

Lemma unorderedMapOps_ok path prev next : mapOpsOk path (unorderedMapOps path prev next).
Proof.
  rewrite unorderedMapOps_trim.
  destruct (whole (unorderedEntryOps path prev next)) eqn:Hw.
  - unfold unorderedEntryOps, withRemovals in *. go_cases; by split.
  - destruct (unorderedEntryOps_inv _ _ _ _ eq_refl Hw) as (ups & dels & Hu & Hd & ->).
    split; simpl.
    + eapply concatM_Forall; [|exact Hu]. intros ???. apply unorderedKeyOps_ok.
    + eapply concatM_Forall; [|exact Hd]. intros ???. apply removalOps_ok.
Qed.

Lemma orderedMapOps_ok path prev next : mapOpsOk path (orderedMapOps path prev next).
Proof.
  destruct (whole (orderedMapOps path prev next)) eqn:Hw.
  - unfold orderedMapOps, withRemovals in *. go_cases; by split.
  - destruct (orderedMapOps_inv _ _ _ _ eq_refl Hw) as (_ & ups & dels & Hu & Hd & ->).
    split; simpl.
    + eapply concatM_Forall; [|exact Hu]. intros ???. apply orderedKeyOps_ok.
    + eapply concatM_Forall; [|exact Hd]. intros ???. apply removalOps_ok.
Qed.

(** Every op a map delta composes is expressible on the runtime CLI: its path
    is the map's, its key and a [set]'s value are safe words and an [add]'s value
    a safe payload line; no rendered byte can end the command early. Upserts only
    add and set, deletes only delete. *)
Theorem map_delta_ops_safe path prev next :
  mapOpsOk path (unorderedMapOps path prev next) ∧ mapOpsOk path (orderedMapOps path prev next).
Proof. split; [apply unorderedMapOps_ok|apply orderedMapOps_ok]. Qed.

Definition example_prev : list Entry :=
  [MkEntry "a.example" "be_a"; MkEntry "b.example" "be_b"; MkEntry "c.example" "be_c"].
Definition example_next : list Entry :=
  [MkEntry "a.example" "be_a"; MkEntry "b.example" "be_b2"; MkEntry "d.example" "be_d"].

Lemma unordered_delta_correct_witness :
  runMapOps "maps/host.map"
    (upserts (unorderedMapOps "maps/host.map" example_prev example_next)
     ++ deletes (unorderedMapOps "maps/host.map" example_prev example_next))
    (reverse example_prev) ≡ₚ example_next.
Proof.
  apply (proj2 (unordered_delta_correct "maps/host.map" example_prev example_next (reverse example_prev))).
  - vm_compute. reflexivity.
  - apply reverse_Permutation.
Defined.

Lemma ordered_delta_order_witness :
  runMapOps "maps/host.map"
    (upserts (orderedMapOps "maps/host.map" example_prev example_next)
     ++ deletes (orderedMapOps "maps/host.map" example_prev example_next)) example_prev
  = example_next.
Proof.
  apply (ordered_delta_order "maps/host.map" example_prev example_next).
  - vm_compute. reflexivity.
  - apply (bool_decide_eq_true (NoDup (Entry_Key <$> example_prev))). vm_compute. reflexivity.
  - apply (bool_decide_eq_true (NoDup (Entry_Key <$> example_next))). vm_compute. reflexivity.
Defined.
