(* ===== verification/Composer.v ===== *)
(** * Composing server ops for one pod

    Models [caps.go], [keywords.go] and [servers.go] of
    [src/pkg/dataplane/deployplan]: what a pod's HAProxy and agent can do, which
    server keywords the runtime API takes, and the ops that add, update and
    remove one server. Every composer answers ops or the reason HAProxy would
    refuse them. *)

From Stdlib Require Import Ascii.
From stdpp Require Import base list list_numbers gmap strings pretty.
From S2P Require Import Prelude Api GoStd RenderPlan.

Open Scope Z_scope.

(** ** Reasons

    A reason is a format and its arguments, the way [failf] and [notef] receive
    it; [fmt.Sprintf] only renders it for status and logs. *)
Inductive Reason :=
  | Msg (format : string) (args : list Arg)
with Arg :=
  | AStr (s : string)
  | AInt (n : Z)
  | AReason (r : Reason).

(** ** Capabilities (caps.go) *)

Record Caps := MkCaps {
  Caps_DynamicServers : bool;
  Caps_DynamicBackends : bool;
  Caps_ServerInitState : bool;
  Caps_AgentOps : option (gmap string bool);
}.

Definition notBelow (major minor wantMajor wantMinor : Z) : bool :=
  (wantMajor <? major) || ((major =? wantMajor) && (wantMinor <=? minor)).

Fixpoint leadingDigits (s : string) : string :=
  match s with
  | EmptyString => ""
  | String c r => if isDigit c then String c (leadingDigits r) else ""
  end.

(** [parseMajorMinor]; [None] is [ok] false. The minor's parse error is
    ignored, so an overflowing minor is the largest int. *)
Definition parseMajorMinor (version : string) : option (Z * Z) :=
  match splitN 3 "." (trimPrefix (trimSpace version) "v") with
  | [] => None
  | f0 :: fs =>
      match atoiDigits (leadingDigits f0) with
      | (_, false) => None
      | (major, true) =>
          match fs with
          | [] => Some (major, 0)
          | f1 :: _ => Some (major, (atoiDigits (leadingDigits f1)).1)
          end
      end
  end.

Definition CapsFor (haproxyVersion : string) (agentOps : list string) : Caps :=
  let ops := if bool_decide (agentOps = []) then None
             else Some (foldl (λ m kind, <[kind := true]> m) ∅ agentOps) in
  match parseMajorMinor haproxyVersion with
  | None => {| Caps_DynamicServers := false; Caps_DynamicBackends := false;
               Caps_ServerInitState := false; Caps_AgentOps := ops |}
  | Some (major, minor) =>
      {| Caps_DynamicServers := notBelow major minor 3 0;
         Caps_DynamicBackends := notBelow major minor 3 4;
         Caps_ServerInitState := notBelow major minor 3 1;
         Caps_AgentOps := ops |}
  end.

(** [Caps.executes]. *)
Definition executes (c : Caps) (kind : string) : bool :=
  match Caps_AgentOps c with
  | None => true
  | Some ops => default false (ops !! kind)
  end.

(** ** Keywords (keywords.go) *)

Definition keywordCheck : string := "check".
Definition keywordGUID : string := "guid".
Definition keywordInitState : string := "init-state".
Definition keywordWeight : string := "weight".
Definition keywordCAFile : string := "ca-file".
Definition keywordCRT : string := "crt".
Definition keywordCRLFile : string := "crl-file".

Definition addServerKeywords : list string :=
  [keywordCheck; "inter"; "fastinter"; "downinter"; "rise"; "fall"; "port"; "addr";
   keywordWeight; "maxconn"; "maxqueue"; "minconn"; "backup"; "cookie"; keywordGUID;
   "ssl"; "sni"; "verify"; "verifyhost"; keywordCAFile; keywordCRT; keywordCRLFile;
   "alpn"; "ciphers"; "ciphersuites"; "ssl-min-ver"; "ssl-max-ver"; "proto";
   "send-proxy"; "send-proxy-v2"; "slowstart"; "agent-check"; "agent-port";
   "agent-inter"; "agent-send"; "on-marked-down"; "observe"; "disabled";
   keywordInitState].

(** [algorithm]: the bare keyword of a balance or hash-type setting. *)
Definition algorithm (setting : string) : string :=
  (cut "(" (cut " " (trimSpace setting)).1).1.

Definition dynamicBalance (balance hashType : string) : bool :=
  let a := algorithm balance in
  if bool_decide (a ∈ [""; "roundrobin"; "leastconn"; "random"; "first"]) then true
  else if bool_decide (a = "static-rr") then false
  else bool_decide (algorithm hashType = "consistent").

Definition balanceOf (be : Backend) : string :=
  if bool_decide (Backend_Balance be = "") then "roundrobin" else Backend_Balance be.

(** Replace the first keyword of the same name, or append: the body of
    [mergeKeywords]'s loop. *)
Fixpoint replaceKeyword (merged : list KeywordArg) (kw : KeywordArg) : list KeywordArg :=
  match merged with
  | [] => [kw]
  | m :: rest => if decide (KeywordArg_Name m = KeywordArg_Name kw) then kw :: rest
                 else m :: replaceKeyword rest kw
  end.

(** [mergeKeywords]: the server's own keywords win over the defaults. *)
Definition mergeKeywords (defaults extra : list KeywordArg) : list KeywordArg :=
  foldl replaceKeyword defaults extra.

Definition hasKeyword (keywords : list KeywordArg) (name : string) : bool :=
  existsb (λ kw, bool_decide (KeywordArg_Name kw = name)) keywords.

Definition allSafeTokens (args : list string) : bool := forallb SafeToken args.

(** [endpointReason]: the runtime API wants a literal IP and a real port. *)
Definition endpointReason (address : string) (port : Z) : option Reason :=
  if negb (parseIP address) then
    Some (Msg "address %s is not an IP, which the runtime API requires" [AStr address])
  else if (port <? 1) || (65535 <? port) then Some (Msg "the port is outside 1-65535" [])
  else None.

(** ** The composer (servers.go) *)

Definition stateMaint : string := "maint".
Definition removableTimeoutMs : Z := 2000.

(** [composer], without the counters and the set of created store objects,
    which its methods update and the callers thread. *)
Record Composer := MkComposer {
  composer_caps : Caps;
  composer_inventory : Inventory;
  composer_created : gset string;
  composer_certDir : string;
}.

Section composer.
Context (c : Composer).

(** [underCRTBase]: a relative path is joined onto the certificate directory. *)
Definition underCRTBase (arg : string) : string :=
  if bool_decide (composer_certDir c = "") || hasPrefix arg "/" then arg
  else composer_certDir c +:+ "/" +:+ arg.

Definition loadedOrCreated (loaded : list string) (name : string) : bool :=
  contains loaded name || bool_decide (name ∈ composer_created c).

(** [filesLoaded]: does a file-referencing keyword name something the running
    worker loaded? *)
Definition filesLoaded (kw : KeywordArg) : bool :=
  let inv := composer_inventory c in
  let name := KeywordArg_Name kw in
  let check (loaded : list string) (crt : bool) :=
    match KeywordArg_Args kw with
    | [arg] =>
        let arg' := if crt && negb (contains loaded arg)
                         && negb (bool_decide (arg ∈ composer_created c))
                    then underCRTBase arg else arg in
        loadedOrCreated loaded arg'
    | _ => false
    end in
  if bool_decide (name = keywordCRT) then check (Inventory_Certs inv) true
  else if bool_decide (name = keywordCAFile) then check (Inventory_CAFiles inv) false
  else if bool_decide (name = keywordCRLFile) then check (Inventory_CRLFiles inv) false
  else true.

(** The refusals of one keyword, in [ineligibleKeyword]'s switch order. *)
Definition keywordIneligible (kw : KeywordArg) : bool :=
  negb (contains addServerKeywords (KeywordArg_Name kw))
  || (bool_decide (KeywordArg_Name kw = keywordInitState)
      && negb (Caps_ServerInitState (composer_caps c)))
  || (negb (SafeToken (KeywordArg_Name kw)) || negb (allSafeTokens (KeywordArg_Args kw)))
  || negb (filesLoaded kw).

(** [ineligibleKeyword]: the name of the first keyword [add server] would refuse;
    [""] when there is none, and also when that keyword has no name. *)
Definition ineligibleKeyword (keywords : list KeywordArg) : string :=
  match List.find keywordIneligible keywords with
  | Some kw => KeywordArg_Name kw
  | None => ""
  end.

(** [withRuntimeKeywords]: weight, guid and init-state where they apply. *)
Definition withRuntimeKeywords (keywords : list KeywordArg) (srv : Server) : list KeywordArg :=
  let k1 := match Server_Weight srv with
            | Some w => if negb (hasKeyword keywords keywordWeight)
                        then keywords ++ [MkKeywordArg keywordWeight [itoa w]] else keywords
            | None => keywords
            end in
  let k2 := if negb (bool_decide (Server_GUID srv = "")) && negb (hasKeyword k1 keywordGUID)
            then k1 ++ [MkKeywordArg keywordGUID [Server_GUID srv]] else k1 in
  if Caps_ServerInitState (composer_caps c) && hasKeyword k2 keywordCheck
     && negb (hasKeyword k2 keywordInitState)
  then k2 ++ [MkKeywordArg keywordInitState ["up"]] else k2.

(** [addServer]: add plus the enable that takes it out of MAINT, or the reason
    HAProxy would refuse. *)
Definition addServer (be : Backend) (srv : Server) : list Op + Reason :=
  if negb (Caps_DynamicServers (composer_caps c)) then
    inr (Msg "this HAProxy has no add server" [])
  else if negb (dynamicBalance (Backend_Balance be) (Backend_HashType be)) then
    inr (Msg "balance %q takes no dynamic server" [AStr (balanceOf be)])
  else if negb (SafeToken (Server_Name srv)) then
    inr (Msg "the name is not a safe runtime token" [])
  else match endpointReason (Server_Address srv) (Server_Port srv) with
  | Some reason => inr reason
  | None =>
      let merged := mergeKeywords (Backend_DefaultServer be) (Server_Extra srv) in
      let bad := ineligibleKeyword merged in
      if negb (bool_decide (bad = "")) then
        inr (Msg "keyword %s cannot be set on a dynamic server" [AStr bad])
      else
        let keywords := withRuntimeKeywords merged srv in
        let add := with_Keywords keywords
                     (with_Address_Port (Server_Address srv) (Server_Port srv)
                       (op_server OpServerAdd (Backend_Name be) (Server_Name srv))) in
        if Server_Disabled srv then inl [add]
        else inl [add; with_Health (hasKeyword keywords keywordCheck)
                         (op_server OpServerEnable (Backend_Name be) (Server_Name srv))]
  end.

Definition sameWeight (prev next : option Z) : bool := equalOptionalInt prev next.

(** [updateServer]: the value changes HAProxy applies in place. *)
Definition updateServer (be : Backend) (prev next : Server) : list Op + Reason :=
  if negb (bool_decide (Server_GUID prev = Server_GUID next))
     || negb (equalFunc sameKeyword (Server_Extra prev) (Server_Extra next)) then
    inr (Msg "keywords changed, which set server cannot express" [])
  else
    let backend := Backend_Name be in
    let name := Server_Name next in
    let moved := negb (bool_decide (Server_Address prev = Server_Address next))
                 || negb (Server_Port prev =? Server_Port next) in
    match (if moved then endpointReason (Server_Address next) (Server_Port next) else None) with
    | Some reason => inr reason
    | None =>
        let addr := if moved
          then [with_Address_Port (Server_Address next) (Server_Port next)
                  (op_server OpServerSetAddr backend name)] else [] in
        match (if sameWeight (Server_Weight prev) (Server_Weight next) then inl []
               else match Server_Weight next with
                    | None => inr (Msg "the weight keyword was dropped, which set server cannot express" [])
                    | Some w => inl [with_Weight w (op_server OpServerSetWeight backend name)]
                    end) with
        | inr reason => inr reason
        | inl weight =>
            let state :=
              if eqb (Server_Disabled prev) (Server_Disabled next) then []
              else if Server_Disabled next
              then [with_State stateMaint (op_server OpServerSetState backend name)]
              else [with_Health
                      (hasKeyword (mergeKeywords (Backend_DefaultServer be) (Server_Extra next))
                         keywordCheck)
                      (op_server OpServerEnable backend name)] in
            inl (addr ++ weight ++ state)
        end
    end.

(** [removeServer]: the deferred delete, with the counter of pending server
    deletes it advances. *)
Definition removeServer (pendingServerDeletes : Z) (backend : string) (srv : Server) :
    Z * (list Op + Reason) :=
  if negb (Caps_DynamicServers (composer_caps c)) then
    (pendingServerDeletes, inr (Msg "this HAProxy has no del server" []))
  else if MaxPendingServerDeletes <=? pendingServerDeletes then
    (pendingServerDeletes,
     inr (Msg "%d server deletes already pending" [AInt pendingServerDeletes]))
  else if negb (SafeToken (Server_Name srv)) then
    (pendingServerDeletes, inr (Msg "the name is not a safe runtime token" []))
  else
    (pendingServerDeletes + 1,
     inl [op_server OpServerDisable backend (Server_Name srv);
          with_TimeoutMs removableTimeoutMs
            (op_server OpServerWaitRemovable backend (Server_Name srv));
          op_server OpServerDel backend (Server_Name srv)]).
End composer.

(** ** Versions *)

Example parseMajorMinor_examples :
  map parseMajorMinor ["3.4.1"; "v3.1-dev12"; " 3.0.8-abc"; "3"; "3.x"; "x.1"; ""]
  = [Some (3, 4); Some (3, 1); Some (3, 0); Some (3, 0); Some (3, 0); None; None].
Proof. vm_compute. reflexivity. Qed.

(** Each runtime capability implies the ones older HAProxy versions have. *)
Lemma CapsFor_monotone version ops :
  (Caps_DynamicBackends (CapsFor version ops) = true →
   Caps_ServerInitState (CapsFor version ops) = true) ∧
  (Caps_ServerInitState (CapsFor version ops) = true →
   Caps_DynamicServers (CapsFor version ops) = true).
Proof.
  unfold CapsFor. destruct (parseMajorMinor version) as [[major minor]|]; simpl; [|done].
  unfold notBelow. split; rewrite !orb_true_iff, !andb_true_iff; lia.
Qed.

Lemma executes_CapsFor version ops kind :
  executes (CapsFor version ops) kind = true ↔ ops = [] ∨ kind ∈ ops.
Proof.
  assert (∀ (m : gmap string bool), default false (foldl (λ m k, <[k := true]> m) m ops !! kind) = true
    ↔ kind ∈ ops ∨ default false (m !! kind) = true) as Hfold.
  { induction ops as [|o ops IH]; intros m; simpl; [set_solver|].
    rewrite IH, elem_of_cons, lookup_insert. case_decide; simpl; naive_solver. }
  unfold executes, CapsFor.
  destruct (parseMajorMinor version) as [[??]|]; simpl; case_bool_decide as E;
    rewrite ?Hfold, ?lookup_empty; simpl; naive_solver.
Qed.

(** ** Keyword merging *)

Lemma replaceKeyword_lookup merged kw name :
  List.find (λ k, bool_decide (KeywordArg_Name k = name)) (replaceKeyword merged kw)
  = if decide (KeywordArg_Name kw = name) then Some kw
    else List.find (λ k, bool_decide (KeywordArg_Name k = name)) merged.
Proof.
  induction merged as [|m rest IH]; simpl.
  - case_bool_decide; case_decide; done.
  - destruct (decide (KeywordArg_Name m = KeywordArg_Name kw)) as [E|E]; simpl.
    + rewrite E. case_bool_decide; case_decide; done.
    + rewrite IH. case_bool_decide; case_decide; congruence.
Qed.

(** The last server-level occurrence of a keyword wins, then the default's
    first. *)
Lemma mergeKeywords_find defaults extra name :
  List.find (λ k, bool_decide (KeywordArg_Name k = name)) (mergeKeywords defaults extra)
  = match List.find (λ k, bool_decide (KeywordArg_Name k = name)) (reverse extra) with
    | Some kw => Some kw
    | None => List.find (λ k, bool_decide (KeywordArg_Name k = name)) defaults
    end.
Proof.
  unfold mergeKeywords. induction extra as [|kw extra IH] using rev_ind; [done|].
  rewrite foldl_app, reverse_snoc. simpl. rewrite replaceKeyword_lookup.
  case_decide; case_bool_decide; done.
Qed.

(** ** What a composer answers when it does not refuse *)

Lemma addServer_inl c be srv ops :
  addServer c be srv = inl ops →
  let keywords := withRuntimeKeywords c (mergeKeywords (Backend_DefaultServer be) (Server_Extra srv)) srv in
  (Caps_DynamicServers (composer_caps c) = true ∧
   dynamicBalance (Backend_Balance be) (Backend_HashType be) = true ∧
   SafeToken (Server_Name srv) = true) ∧
  endpointReason (Server_Address srv) (Server_Port srv) = None ∧
  ineligibleKeyword c (mergeKeywords (Backend_DefaultServer be) (Server_Extra srv)) = "" ∧
  ops = with_Keywords keywords
          (with_Address_Port (Server_Address srv) (Server_Port srv)
            (op_server OpServerAdd (Backend_Name be) (Server_Name srv)))
        :: (if Server_Disabled srv then []
            else [with_Health (hasKeyword keywords keywordCheck)
                    (op_server OpServerEnable (Backend_Name be) (Server_Name srv))]).
Proof.
  unfold addServer. cbv zeta. intros H.
  repeat match type of H with
  | (if negb ?c then inr _ else _) = _ => destruct c eqn:?; simpl in H; [|done]
  end.
  destruct (endpointReason _ _) eqn:?; [done|].
  case_bool_decide; simpl in H; [|done].
  split_and!; [done..|]. destruct (Server_Disabled srv); by simplify_eq.
Qed.

(** Where every keyword has a name, an empty answer is no refusal. *)
Lemma ineligibleKeyword_empty c keywords :
  Forall (λ kw, KeywordArg_Name kw ≠ "") keywords → ineligibleKeyword c keywords = "" →
  Forall (λ kw, keywordIneligible c kw = false) keywords.
Proof.
  unfold ineligibleKeyword. intros Hn. destruct (List.find _ _) as [kw|] eqn:E.
  - intros Hkw. apply find_some in E as [Hin _]. rewrite Forall_forall in Hn.
    by destruct (Hn kw); [apply list_elem_of_In|].
  - intros _. apply Forall_forall. intros kw Hkw. by eapply find_none, list_elem_of_In.
Qed.

Lemma updateServer_inl be prev next ops :
  updateServer be prev next = inl ops →
  let set_ kind := op_server kind (Backend_Name be) (Server_Name next) in
  Server_GUID prev = Server_GUID next ∧ Server_Extra prev = Server_Extra next ∧
  ∃ addr weight state,
    ops = addr ++ weight ++ state ∧
    (addr = [] ∧ Server_Address prev = Server_Address next ∧ Server_Port prev = Server_Port next
     ∨ addr = [with_Address_Port (Server_Address next) (Server_Port next) (set_ OpServerSetAddr)]
       ∧ endpointReason (Server_Address next) (Server_Port next) = None) ∧
    (weight = [] ∧ Server_Weight prev = Server_Weight next
     ∨ ∃ w, Server_Weight next = Some w ∧ weight = [with_Weight w (set_ OpServerSetWeight)]) ∧
    (state = [] ∧ Server_Disabled prev = Server_Disabled next
     ∨ state = [with_State stateMaint (set_ OpServerSetState)] ∧ Server_Disabled next = true
     ∨ (∃ h, state = [with_Health h (set_ OpServerEnable)]
             ∧ h = hasKeyword (mergeKeywords (Backend_DefaultServer be) (Server_Extra next)) keywordCheck)
       ∧ Server_Disabled next = false).
Proof.
  unfold updateServer. cbv zeta. destruct (_ || _) eqn:Hkw; [done|].
  apply orb_false_iff in Hkw as [Hg Hx]. split_bools.
  apply (equalFunc_spec _ sameKeyword_spec) in Hx.
  destruct (negb _ || negb _) eqn:Hmoved; [destruct (endpointReason _ _) eqn:Hend; [done|]|];
  (destruct (sameWeight _ _) eqn:Hw; [|destruct (Server_Weight next) as [w|] eqn:Hwn; [|done]]);
  match goal with |- inl (?a ++ ?w ++ ?s) = _ → _ =>
    intros Heq; assert (ops = a ++ w ++ s) as -> by congruence; clear Heq;
    (split; [done|]; split; [done|]); exists a, w, s; (split; [done|])
  end.
  all: (split; [|split]);
    [first [by right | left; split_bools; apply Z.eqb_eq in H0; done]
    |first [left; split; [done|by apply equalOptionalInt_spec] | right; by exists w]
    |destruct (eqb _ _) eqn:Hd; [left; split; [done|by apply eqb_prop]|];
     destruct (Server_Disabled next); [by right; left|right; right; split; [eauto|done]]].
Qed.

Lemma removeServer_inl c n backend srv n' ops :
  removeServer c n backend srv = (n', inl ops) →
  (Caps_DynamicServers (composer_caps c) = true ∧ SafeToken (Server_Name srv) = true) ∧
  ops = [op_server OpServerDisable backend (Server_Name srv);
         with_TimeoutMs removableTimeoutMs
           (op_server OpServerWaitRemovable backend (Server_Name srv));
         op_server OpServerDel backend (Server_Name srv)].
Proof.
  unfold removeServer. intros H. go_cases. split; [|done]. split; by apply negb_false_iff.
Qed.
