(* ===== verification/CrtList.v ===== *)
(** * Crt-list deltas

    Models the crt-list half of [src/pkg/dataplane/deployplan/certs.go]: the
    per-entry [add ssl crt-list] and [del ssl crt-list] ops that take a running
    list from one render to the next, and the refusal when replaying them would
    leave the entries in another order than the file's. *)

From stdpp Require Import base list list_numbers gmap strings.
From S2P Require Import Prelude Api RenderPlan Composer.

Open Scope Z_scope.

(** ** Model *)

(** [crtListEntryReason]: the first token of an entry the runtime API cannot
    carry. *)
Definition crtListEntryReason (entry : CRTListEntry) : option Reason :=
  if negb (SafeToken (CRTListEntry_Cert entry)) then
    Some (Msg "certificate %s is not a safe runtime token" [AStr (CRTListEntry_Cert entry)])
  else match List.find (λ o, negb (SafeToken (KeywordArg_Name o))
                             || negb (allSafeTokens (KeywordArg_Args o)))
                  (CRTListEntry_Options entry) with
  | Some o => Some (Msg "option %s is not a safe runtime token" [AStr (KeywordArg_Name o)])
  | None =>
      match List.find (λ sni, negb (SafeToken sni)) (CRTListEntry_SNIFilters entry) with
      | Some sni => Some (Msg "SNI filter %s is not a safe runtime token" [AStr sni])
      | None => None
      end
  end.

Definition crtListOrder (entries : list CRTListEntry) : list string :=
  CRTListEntry_Cert <$> entries.

Definition crtListAdd (path : string) (entry : CRTListEntry) : Op :=
  op_crtlist OpCRTListAdd path (CRTListEntry_Cert entry) (CRTListEntry_Options entry)
    (CRTListEntry_SNIFilters entry).

Definition crtListDel (path cert : string) : Op := op_crtlist OpCRTListDel path cert [] [].

(** [crtListIndex]: the last entry of a certificate wins. *)
Definition crtListIndex (entries : list CRTListEntry) : gmap string CRTListEntry :=
  foldl (λ index e, <[CRTListEntry_Cert e := e]> index) ∅ entries.

Definition sameCRTListEntry (prev next : CRTListEntry) : bool :=
  equalFunc sameKeyword (CRTListEntry_Options prev) (CRTListEntry_Options next)
  && bool_decide (CRTListEntry_SNIFilters prev = CRTListEntry_SNIFilters next).

(** The first refusal of a list of entries. *)
Definition entriesReason (entries : list CRTListEntry) : option Reason :=
  foldr (λ e rest, match crtListEntryReason e with Some r => Some r | None => rest end)
    None entries.

(** The loop over [prev]: the deletes and the certificates that stay, or the
    certificate no op can name. *)
Fixpoint crtListRemovals (path : string) (after : gmap string CRTListEntry)
    (prev : list CRTListEntry) (ops : list Op) (running : list string) :
    (list Op * list string) + Reason :=
  match prev with
  | [] => inl (ops, running)
  | e :: rest =>
      let cert := CRTListEntry_Cert e in
      match after !! cert with
      | Some _ => crtListRemovals path after rest ops (running ++ [cert])
      | None =>
          if negb (SafeToken cert) then
            inr (Msg "certificate %s is not a safe runtime token" [AStr cert])
          else crtListRemovals path after rest (ops ++ [crtListDel path cert]) running
      end
  end.

(** The loop over [next]. *)
Fixpoint crtListUpserts (path : string) (before : gmap string CRTListEntry)
    (next : list CRTListEntry) (ops : list Op) (running : list string) :
    list Op * list string :=
  match next with
  | [] => (ops, running)
  | e :: rest =>
      let cert := CRTListEntry_Cert e in
      match before !! cert with
      | Some old =>
          if sameCRTListEntry old e then crtListUpserts path before rest ops running
          else crtListUpserts path before rest
                 (ops ++ [crtListDel path cert; crtListAdd path e])
                 (filter (λ c, c ≠ cert) running ++ [cert])
      | None =>
          crtListUpserts path before rest (ops ++ [crtListAdd path e]) (running ++ [cert])
      end
  end.

(** [crtListOps]: the ops to push, or the reason to fail with. *)
Definition crtListOps (path : string) (prev next : list CRTListEntry) : list Op + Reason :=
  let before := crtListIndex prev in
  let after := crtListIndex next in
  match entriesReason next with
  | Some reason => inr (Msg "crt-list %s: %s" [AStr path; AReason reason])
  | None =>
      match crtListRemovals path after prev [] [] with
      | inr reason => inr (Msg "crt-list %s: %s" [AStr path; AReason reason])
      | inl (ops, running) =>
          let (ops', running') := crtListUpserts path before next ops running in
          if negb (bool_decide (running' = crtListOrder next)) then
            inr (Msg "crt-list %s: the entry order changed, which only a reload applies" [AStr path])
          else inl ops'
      end
  end.

(** ** Replaying crt-list ops

    [add ssl crt-list] appends its entry, [del ssl crt-list] removes the entries
    of its certificate; commands on another list leave this one alone. *)
Definition crtOpApply (path : string) (entries : list CRTListEntry) (o : Op) : list CRTListEntry :=
  if negb (bool_decide (Op_Path o = path)) then entries
  else if bool_decide (Op_Kind o = OpCRTListDel) then
    filter (λ e, CRTListEntry_Cert e ≠ Op_Cert o) entries
  else if bool_decide (Op_Kind o = OpCRTListAdd) then
    entries ++ [MkCRTListEntry (Op_Cert o) (Op_Options o) (Op_SNIFilters o)]
  else entries.

Definition runCrtOps (path : string) (entries : list CRTListEntry) (ops : list Op) :
    list CRTListEntry := foldl (crtOpApply path) entries ops.

(** ** Facts *)

Lemma crtOpApply_del path cert entries :
  crtOpApply path entries (crtListDel path cert)
  = filter (λ e, CRTListEntry_Cert e ≠ cert) entries.
Proof. unfold crtOpApply. simpl. by rewrite bool_decide_eq_true_2. Qed.

Lemma crtOpApply_add path entries e : crtOpApply path entries (crtListAdd path e) = entries ++ [e].
Proof. unfold crtOpApply. simpl. rewrite bool_decide_eq_true_2 by done. by destruct e. Qed.

Lemma runCrtOps_snoc path entries ops o :
  runCrtOps path entries (ops ++ [o]) = crtOpApply path (runCrtOps path entries ops) o.
Proof. unfold runCrtOps. by rewrite foldl_app. Qed.

Lemma crtListIndex_Some_cert entries cert e :
  crtListIndex entries !! cert = Some e → CRTListEntry_Cert e = cert ∧ e ∈ entries.
Proof. intros [??]%index_lookup_Some. done. Qed.

Lemma crtListIndex_is_Some entries cert :
  is_Some (crtListIndex entries !! cert) ↔ cert ∈ crtListOrder entries.
Proof.
  unfold crtListIndex, crtListOrder. rewrite index_lookup_is_Some, list_elem_of_fmap. naive_solver.
Qed.

Lemma sameCRTListEntry_spec a b :
  CRTListEntry_Cert a = CRTListEntry_Cert b → sameCRTListEntry a b = true ↔ a = b.
Proof.
  intros Hc. unfold sameCRTListEntry.
  rewrite andb_true_iff, (equalFunc_spec _ sameKeyword_spec), bool_decide_eq_true.
  destruct a, b; simpl in *. split; [intros [-> ->]; by rewrite Hc|by intros [= -> -> ->]].
Qed.

(** ** What the two loops leave running *)

(** An entry of the new list the running one does not already hold. *)
Definition changedEntry (before : gmap string CRTListEntry) (e : CRTListEntry) : bool :=
  match before !! CRTListEntry_Cert e with
  | Some old => negb (sameCRTListEntry old e)
  | None => true
  end.

Lemma crtListRemovals_run path after prev ops running entries ops' running' :
  crtListRemovals path after prev ops running = inl (ops', running') →
  running' = running ++ crtListOrder (filter (λ e, is_Some (after !! CRTListEntry_Cert e)) prev) ∧
  runCrtOps path entries ops'
  = filter (λ e, CRTListEntry_Cert e ∉
                 crtListOrder (filter (λ p, ¬ is_Some (after !! CRTListEntry_Cert p)) prev))
      (runCrtOps path entries ops).
Proof.
  revert ops running. induction prev as [|p prev IH]; intros ops running; simpl.
  { intros [= <- <-]. rewrite app_nil_r. split; [done|]. symmetry. apply filter_all.
    apply Forall_forall. intros e _. apply not_elem_of_nil. }
  rewrite !filter_cons.
  destruct (after !! CRTListEntry_Cert p) as [kept|] eqn:Hp.
  - intros Hrun. apply IH in Hrun as [-> ->]. rewrite decide_True by eauto.
    rewrite decide_False by (intros Hc; apply Hc; eauto). by rewrite <-app_assoc.
  - destruct (SafeToken _); simpl; [|done]. intros Hrun. apply IH in Hrun as [-> ->].
    split; [done|]. rewrite runCrtOps_snoc, crtOpApply_del, list_filter_filter.
    apply list_filter_iff. intros e. simpl. rewrite not_elem_of_cons. tauto.
Qed.

Lemma crtListUpserts_run path before next ops running entries :
  NoDup (crtListOrder next) →
  running = crtListOrder (runCrtOps path entries ops) →
  (∀ e, e ∈ next → before !! CRTListEntry_Cert e = None →
        CRTListEntry_Cert e ∉ crtListOrder (runCrtOps path entries ops)) →
  let (ops', running') := crtListUpserts path before next ops running in
  running' = crtListOrder (runCrtOps path entries ops') ∧
  runCrtOps path entries ops'
  = filter (λ e, CRTListEntry_Cert e ∉ crtListOrder (filter (changedEntry before) next))
      (runCrtOps path entries ops) ++ filter (changedEntry before) next.
Proof.
  revert ops running. induction next as [|n next IH]; intros ops running Hnd Hrun Hnew.
  { simpl. split; [done|]. rewrite app_nil_r, filter_all; [done|].
    apply Forall_forall. intros e _. apply not_elem_of_nil. }
  change (crtListOrder (n :: next)) with (CRTListEntry_Cert n :: crtListOrder next) in Hnd.
  apply NoDup_cons in Hnd as [Hn Hnd]. cbn [crtListUpserts]. cbv zeta.
  assert (∀ E, E = runCrtOps path entries ops →
    filter (λ e, CRTListEntry_Cert e ∉ crtListOrder (filter (changedEntry before) next))
      (filter (λ e, CRTListEntry_Cert e ≠ CRTListEntry_Cert n) E ++ [n])
      ++ filter (changedEntry before) next
    = filter (λ e, CRTListEntry_Cert e
        ∉ crtListOrder (n :: filter (changedEntry before) next)) E
      ++ n :: filter (changedEntry before) next) as Hstep.
  { intros E _. rewrite filter_app, list_filter_filter, filter_cons, filter_nil.
    rewrite decide_True.
    - rewrite <-app_assoc. f_equal. apply list_filter_iff. intros e. simpl.
      rewrite not_elem_of_cons. tauto.
    - intros Hin. apply Hn. revert Hin. unfold crtListOrder.
      rewrite !list_elem_of_fmap. intros (y & ? & [??]%list_elem_of_filter). eauto. }
  assert (filter (changedEntry before) (n :: next)
    = if changedEntry before n then n :: filter (changedEntry before) next
      else filter (changedEntry before) next) as ->
    by (rewrite filter_cons; by destruct (changedEntry before n)).
  assert (changedEntry before n = match before !! CRTListEntry_Cert n with
    | Some old => negb (sameCRTListEntry old n) | None => true end) as -> by done.
  destruct (before !! CRTListEntry_Cert n) as [old|] eqn:Hold.
  - destruct (sameCRTListEntry old n) eqn:Hsame; simpl.
    + apply IH; [done|done|]. intros e He. apply Hnew. set_solver.
    + specialize (IH (ops ++ [crtListDel path (CRTListEntry_Cert n); crtListAdd path n])
        (filter (λ c, c ≠ CRTListEntry_Cert n) running ++ [CRTListEntry_Cert n]) Hnd).
      assert (runCrtOps path entries (ops ++ [crtListDel path (CRTListEntry_Cert n); crtListAdd path n])
        = filter (λ e, CRTListEntry_Cert e ≠ CRTListEntry_Cert n) (runCrtOps path entries ops) ++ [n]) as E.
      { rewrite (cons_middle (crtListDel path (CRTListEntry_Cert n)) ops), app_assoc.
        by rewrite !runCrtOps_snoc, crtOpApply_del, crtOpApply_add. }
      rewrite E in IH. rewrite <-Hstep by done. apply IH.
      * subst running. unfold crtListOrder. rewrite fmap_app, filter_fmap. done.
      * intros e He Hb. unfold crtListOrder. rewrite fmap_app, not_elem_of_app. split.
        -- rewrite list_elem_of_fmap. intros (y & Hy & [_ Hin]%list_elem_of_filter).
           apply (Hnew e); [set_solver|done|]. rewrite Hy. by apply list_elem_of_fmap_2.
        -- simpl. rewrite list_elem_of_singleton. intros Heq. apply Hn. rewrite <-Heq.
           by apply list_elem_of_fmap_2.
  - simpl. specialize (IH (ops ++ [crtListAdd path n]) (running ++ [CRTListEntry_Cert n]) Hnd).
    rewrite runCrtOps_snoc, crtOpApply_add in IH.
    assert (filter (λ e, CRTListEntry_Cert e ≠ CRTListEntry_Cert n) (runCrtOps path entries ops)
      = runCrtOps path entries ops) as E.
    { apply filter_all, Forall_forall. intros e He Heq. apply (Hnew n); [set_solver|done|].
      rewrite <-Heq. by apply list_elem_of_fmap_2. }
    rewrite <-Hstep, E by done. apply IH.
    + subst running. unfold crtListOrder. by rewrite fmap_app.
    + intros e He Hb. unfold crtListOrder. rewrite fmap_app, not_elem_of_app. split.
      * apply (Hnew e); [set_solver|done].
      * simpl. rewrite list_elem_of_singleton. intros Heq. apply Hn. rewrite <-Heq.
        by apply list_elem_of_fmap_2.
Qed.

(** Entries are determined by their certificates when no certificate repeats. *)
Lemma crtListOrder_inj entries a b :
  NoDup (crtListOrder entries) → a ∈ entries → b ∈ entries →
  CRTListEntry_Cert a = CRTListEntry_Cert b → a = b.
Proof.
  intros Hnd [i Hi]%list_elem_of_lookup [j Hj]%list_elem_of_lookup Hc.
  assert (i = j) as ->; [|congruence].
  apply (NoDup_lookup (crtListOrder entries) i j (CRTListEntry_Cert a)); [done|..];
    unfold crtListOrder; rewrite list_lookup_fmap, ?Hi, ?Hj; simpl; congruence.
Qed.

Lemma crtListOrder_unique running next :
  NoDup (crtListOrder next) → crtListOrder running = crtListOrder next →
  (∀ e, e ∈ running → e ∈ next) → running = next.
Proof.
  intros Hnd Hord Hin. apply (list_eq_same_length _ _ (length next)); [done|..].
  { apply (f_equal length) in Hord. unfold crtListOrder in Hord. by rewrite !length_fmap in Hord. }
  intros i e n _ He Hn. apply (crtListOrder_inj next); [done|..].
  - eapply Hin, list_elem_of_lookup_2, He.
  - eapply list_elem_of_lookup_2, Hn.
  - apply (f_equal (.!! i)) in Hord. unfold crtListOrder in Hord.
    rewrite !list_lookup_fmap, He, Hn in Hord. by simplify_eq/=.
Qed.

(** What is left of the running list is entries of the new one. *)
Lemma crtListKept_in_next prev next E e :
  E = filter (λ e, CRTListEntry_Cert e
        ∉ crtListOrder (filter (changedEntry (crtListIndex prev)) next))
        (filter (λ e, is_Some (crtListIndex next !! CRTListEntry_Cert e)) prev) →
  NoDup (crtListOrder E) → e ∈ E → e ∈ next.
Proof.
  intros -> Hnd He. pose proof He as He'.
  apply list_elem_of_filter in He' as [Hunch [Hkept Hprev]%list_elem_of_filter].
  pose proof Hkept as Hc. apply crtListIndex_is_Some, list_elem_of_fmap in Hc as (n & Hn & Hnext).
  destruct (changedEntry (crtListIndex prev) n) eqn:Hch.
  { destruct Hunch. rewrite Hn. apply list_elem_of_fmap_2, list_elem_of_filter. by rewrite Hch. }
  unfold changedEntry in Hch.
  destruct (crtListIndex prev !! CRTListEntry_Cert n) as [old|] eqn:Hold; [|done].
  apply negb_false_iff in Hch. apply crtListIndex_Some_cert in Hold as [Hoc Hop].
  apply sameCRTListEntry_spec in Hch as ->; [|done].
  assert (e = n) as ->; [|done].
  apply (crtListOrder_inj _ _ _ Hnd He); [|done].
  apply list_elem_of_filter. rewrite <-Hn. split; [done|]. apply list_elem_of_filter.
  by rewrite <-Hn.
Qed.

Lemma crtListOps_inl path prev next ops :
  crtListOps path prev next = inl ops →
  entriesReason next = None ∧ ∃ ops1 running1 running,
    crtListRemovals path (crtListIndex next) prev [] [] = inl (ops1, running1) ∧
    crtListUpserts path (crtListIndex prev) next ops1 running1 = (ops, running) ∧
    running = crtListOrder next.
Proof.
  unfold crtListOps. cbv zeta. destruct (entriesReason next); [done|].
  destruct (crtListRemovals _ _ _ _ _) as [[ops1 running1]|]; [|done].
  destruct (crtListUpserts _ _ _ _ _) as [ops' running] eqn:Hup.
  case_bool_decide; simpl; [|done]. intros [= <-]. split; [done|].
  by exists ops1, running1, running.
Qed.

(** The loop over the new entries keeps the order it tracks. *)
Lemma crtListUpserts_order path before next ops running entries :
  running = crtListOrder (runCrtOps path entries ops) →
  let (ops', running') := crtListUpserts path before next ops running in
  running' = crtListOrder (runCrtOps path entries ops').
Proof.
  revert ops running. induction next as [|n next IH]; intros ops running Hrun; [done|].
  cbn [crtListUpserts]. cbv zeta. subst running.
  destruct (before !! CRTListEntry_Cert n) as [old|]; [destruct (sameCRTListEntry old n)|]; apply IH; [done|..].
  - rewrite (cons_middle (crtListDel path (CRTListEntry_Cert n)) ops), app_assoc.
    rewrite !runCrtOps_snoc, crtOpApply_del, crtOpApply_add. unfold crtListOrder. by rewrite fmap_app, filter_fmap.
  - rewrite runCrtOps_snoc, crtOpApply_add. unfold crtListOrder. by rewrite fmap_app.
Qed.

(** The deletes leave the entries whose certificates the new list holds. *)
Lemma crtListRemovals_kept path prev next ops running :
  crtListRemovals path (crtListIndex next) prev [] [] = inl (ops, running) →
  running = crtListOrder (runCrtOps path prev ops)
  ∧ runCrtOps path prev ops = filter (λ e, is_Some (crtListIndex next !! CRTListEntry_Cert e)) prev.
Proof.
  intros Hrem. apply (crtListRemovals_run _ _ _ _ _ prev) in Hrem as [-> Hops].
  assert (runCrtOps path prev ops = filter (λ e, is_Some (crtListIndex next !! CRTListEntry_Cert e)) prev) as HE.
  { rewrite Hops. apply filter_ext_elem. intros e He. unfold crtListOrder. split.
    - intros Hn. apply dec_stable. intros Hnk. apply Hn, list_elem_of_fmap_2.
      by apply list_elem_of_filter.
    - rewrite list_elem_of_fmap. intros Hk (y & Hy & [Hny _]%list_elem_of_filter).
      apply Hny. by rewrite <-Hy. }
  split; [|done]. by rewrite HE.
Qed.

(** When no certificate repeats in the new list, the order decides the entries. *)
Lemma crtListOps_exact path prev next ops :
  NoDup (crtListOrder next) → crtListOps path prev next = inl ops → runCrtOps path prev ops = next.
Proof.
  intros Hnd (_ & ops1 & running1 & running & Hrem & Hup & Hord)%crtListOps_inl.
  apply crtListRemovals_kept in Hrem as [Hrun1 HE1].
  pose proof (crtListUpserts_run path (crtListIndex prev) next ops1 running1 prev Hnd) as Hrun.
  rewrite Hup, HE1 in Hrun. rewrite HE1 in Hrun1. destruct Hrun as [Hrunning HE]; [done|..].
  { intros e He Hb Hin. apply list_elem_of_fmap in Hin as (y & Hy & [_ Hin]%list_elem_of_filter).
    assert (is_Some (crtListIndex prev !! CRTListEntry_Cert e)) as [? ?]; [|congruence].
    apply crtListIndex_is_Some. rewrite Hy. by apply list_elem_of_fmap_2. }
  apply crtListOrder_unique; [done|congruence|]. rewrite Hrunning, HE in Hord.
  intros e. rewrite HE. intros [Hk|[_ ?]%list_elem_of_filter]%elem_of_app; [|done].
  eapply crtListKept_in_next; [reflexivity| |exact Hk].
  rewrite <-Hord in Hnd. unfold crtListOrder in Hnd. rewrite fmap_app in Hnd.
  by apply NoDup_app in Hnd as [? _].
Qed.


Definition crtlist_example_prev : list CRTListEntry :=
  [MkCRTListEntry "ssl/default.pem" [] [];
   MkCRTListEntry "ssl/old.pem" [] ["old.example.com"];
   MkCRTListEntry "ssl/shop.pem" [] ["shop.example.com"]].

Definition crtlist_example_next : list CRTListEntry :=
  [MkCRTListEntry "ssl/default.pem" [] [];
   MkCRTListEntry "ssl/shop.pem" [MkKeywordArg "alpn" ["h2"]] ["shop.example.com"];
   MkCRTListEntry "ssl/new.pem" [] ["new.example.com"]].


(** A file may name a certificate more than once, with other filters each time.
    The index by certificate keeps the last entry only, so that a change of an
    earlier one is not seen: no op is composed and the running list keeps the
    old filters. *)
Example repeated_certificate_missed :
  let entry filter := MkCRTListEntry "ssl/shop.pem" [] [filter] in
  let prev := [entry "shop.example.com"; entry "www.example.com"] in
  let next := [entry "www.example.com"; entry "www.example.com"] in
  crtListOps "certs.txt" prev next = inl [] ∧ runCrtOps "certs.txt" prev [] ≠ next.
Proof. vm_compute. split; [reflexivity|discriminate]. Qed.

(** Re-adding an entry moves it to the end: changing the default certificate's
    options is refused rather than applied out of order. *)
Example crt_list_reorder_refused :
  crtListOps "certs.txt" crtlist_example_next
    (MkCRTListEntry "ssl/default.pem" [MkKeywordArg "alpn" ["h2"]] [] :: drop 1 crtlist_example_next)
  = inr (Msg "crt-list %s: the entry order changed, which only a reload applies" [AStr "certs.txt"]).
Proof. vm_compute. reflexivity. Qed.

(** ** Which ops a delta holds *)

(** An op of the delta: an entry of the new list whose tokens are safe, or the
    removal of a certificate with a safe name. *)
Definition crtOpOk (path : string) (o : Op) : Prop :=
  (∃ e, o = crtListAdd path e ∧ crtListEntryReason e = None)
  ∨ (∃ cert, o = crtListDel path cert ∧ SafeToken cert = true).

Lemma entriesReason_None entries :
  entriesReason entries = None ↔ Forall (λ e, crtListEntryReason e = None) entries.
Proof.
  induction entries as [|e l IH]; simpl; [split; [constructor|done]|].
  rewrite Forall_cons, <-IH. destruct (crtListEntryReason e); naive_solver.
Qed.

Lemma crtListEntryReason_cert e :
  crtListEntryReason e = None → SafeToken (CRTListEntry_Cert e) = true.
Proof. unfold crtListEntryReason. by destruct (SafeToken _). Qed.

Lemma crtListRemovals_ok path after prev ops running ops' running' :
  Forall (crtOpOk path) ops →
  crtListRemovals path after prev ops running = inl (ops', running') →
  Forall (crtOpOk path) ops'.
Proof.
  revert ops running. induction prev as [|p prev IH]; intros ops running Ho; simpl.
  { by intros [= <- <-]. }
  destruct (after !! _); [by apply IH|]. destruct (SafeToken _) eqn:Hs; simpl; [|done].
  apply IH, Forall_app. split; [done|]. apply Forall_singleton. right. by eexists.
Qed.

Lemma crtListUpserts_ok path before next ops running :
  Forall (crtOpOk path) ops → Forall (λ e, crtListEntryReason e = None) next →
  Forall (crtOpOk path) (crtListUpserts path before next ops running).1.
Proof.
  revert ops running. induction next as [|n next IH]; intros ops running Ho Hn; simpl; [done|].
  apply Forall_cons in Hn as [Hn Hrest].
  assert (crtOpOk path (crtListAdd path n)) by (left; by exists n).
  assert (crtOpOk path (crtListDel path (CRTListEntry_Cert n)))
    by (right; eexists; split; [done|by apply crtListEntryReason_cert]).
  destruct (before !! _); [destruct (sameCRTListEntry _ _)|]; apply IH; try done;
    apply Forall_app; (split; [done|]); by repeat apply Forall_cons_2.
Qed.

Lemma crtListOps_ok path prev next ops :
  crtListOps path prev next = inl ops → Forall (crtOpOk path) ops.
Proof.
  intros (He & ops1 & running1 & running & Hrem & Hup & _)%crtListOps_inl.
  apply crtListRemovals_ok in Hrem; [|constructor].
  replace ops with (crtListUpserts path (crtListIndex prev) next ops1 running1).1 by by rewrite Hup.
  apply crtListUpserts_ok; [done|]. by apply entriesReason_None.
Qed.
