(* ===== verification/Index.v ===== *)
(** * Plan lookups, content comparison and decisions

    Models [index.go], [exact.go], [inventory.go] and the data types of
    [deployplan.go] in [src/pkg/dataplane/deployplan]: what a diff looks up in a
    plan, how it compares two renders' content, and the shape of its answer
    with its execution batches. *)

From stdpp Require Import base list list_numbers gmap strings.
From S2P Require Import Prelude Api GoStd RenderPlan Composer.

Open Scope Z_scope.

(** ** Index (index.go) *)

(** [backendEntry]: a backend section with its record; [described] is whether
    the plan has one. *)
Record backendEntry := MkBackendEntry {
  entry_name : string;
  entry_section : SectionRec;
  entry_record : option Backend;
}.

(** The map keys [sectionKey] are (kind, name). *)
Record Index := MkIndex {
  index_sections : gmap (string * string) SectionRec;
  index_files : gmap string PlanFile;
  index_backends : list backendEntry;
  index_byName : gmap string nat;
}.

Definition sectionKey (sec : SectionRec) : string * string :=
  (Section_Kind sec, Section_Name sec).

Definition isBackendSection (sec : SectionRec) : bool :=
  bool_decide (Section_Kind sec = SectionKindBackend).

Definition fileIndex (files : list PlanFile) : gmap string PlanFile :=
  foldl (λ index f, <[PlanFile_Path f := f]> index) ∅ files.

Definition serverIndex (servers : list Server) : gmap string Server :=
  foldl (λ index s, <[Server_Name s := s]> index) ∅ servers.

(** One iteration of [IndexPlan]'s loop. *)
Definition indexSection (backends : gmap string Backend) (index : Index) (sec : SectionRec) : Index :=
  if negb (isBackendSection sec) then
    {| index_sections := <[sectionKey sec := sec]> (index_sections index);
       index_files := index_files index;
       index_backends := index_backends index;
       index_byName := index_byName index |}
  else
    {| index_sections := index_sections index;
       index_files := index_files index;
       index_backends := index_backends index ++
         [MkBackendEntry (Section_Name sec) sec (backends !! Section_Name sec)];
       index_byName :=
         <[Section_Name sec := length (index_backends index)]> (index_byName index) |}.

Definition IndexPlan (p : Plan) : Index :=
  foldl (indexSection (Plan_Backends p))
    {| index_sections := ∅; index_files := fileIndex (Plan_Files p);
       index_backends := []; index_byName := ∅ |}
    (Plan_Sections p).

(** [Index.backend]. *)
Definition index_backend (x : Index) (name : string) : option backendEntry :=
  at_ ← index_byName x !! name; index_backends x !! at_.

Definition sortedMapNames (maps : gmap string MapRec) : list string :=
  sort_strings (map_to_list maps).*1.

(** ** Content comparison (exact.go) *)

Definition sameFileContent (prev next : option PlanFile) : bool :=
  match prev, next with
  | Some p, Some n =>
      if PlanFile_ContentKnown p && PlanFile_ContentKnown n
      then bool_decide (PlanFile_Content p = PlanFile_Content n)
      else negb (bool_decide (PlanFile_Digest p = ""))
           && bool_decide (PlanFile_Digest p = PlanFile_Digest n)
  | _, _ => false
  end.

Definition sameSectionText (prev next : option SectionRec) : bool :=
  match prev, next with
  | Some p, Some n =>
      if Section_TextKnown p && Section_TextKnown n
      then bool_decide (Section_Text p = Section_Text n)
      else negb (bool_decide (Section_TextDigest p = ""))
           && bool_decide (Section_TextDigest p = Section_TextDigest n)
  | _, _ => false
  end.

Definition sameBackendBody (prev next : Backend) : bool :=
  if Backend_ContentKnown prev && Backend_ContentKnown next
  then bool_decide (Backend_Body prev = Backend_Body next)
  else negb (bool_decide (Backend_BodyDigest prev = ""))
       && bool_decide (Backend_BodyDigest prev = Backend_BodyDigest next).

Definition sameBackendComments (prev next : Backend) : bool :=
  if Backend_ContentKnown prev && Backend_ContentKnown next
  then bool_decide (Backend_Comments prev = Backend_Comments next)
  else bool_decide (Backend_CommentsDigest prev = Backend_CommentsDigest next).

Definition sameBackendRecord (prev next : Backend) : bool :=
  if Backend_ContentKnown prev && Backend_ContentKnown next
  then EqualRecord prev next
  else negb (bool_decide (Backend_RecordDigest next = ""))
       && bool_decide (Backend_RecordDigest prev = Backend_RecordDigest next).

(** ** Inventory projection (inventory.go) *)

Definition filePaths (kind : string) (files : list PlanFile) : list string :=
  PlanFile_Path <$> filter (λ f, PlanFile_Kind f = kind) files.

(** [InventoryOf]: what a worker that reloaded the plan would report. *)
Definition InventoryOf (p : option Plan) : Inventory :=
  match p with
  | None => MkInventory 0 [] [] [] [] []
  | Some p =>
      {| Inventory_Generation := 0;
         Inventory_Maps := filePaths FileKindMap (Plan_Files p);
         Inventory_Certs := filePaths FileKindCert (Plan_Files p);
         Inventory_CAFiles := filePaths FileKindCA (Plan_Files p);
         Inventory_CRLFiles := [];
         Inventory_CRTLists := filePaths FileKindCRTList (Plan_Files p) |}
  end.

(** The loop of [certDirOf]. *)
Fixpoint certDirFrom (files : list PlanFile) : string :=
  match files with
  | [] => ""
  | f :: rest =>
      if negb (bool_decide (PlanFile_Kind f = FileKindCert)) then certDirFrom rest
      else let dir := pathDir (PlanFile_Path f) in
           if bool_decide (dir = ".") then certDirFrom rest else dir
  end.

Definition certDirOf (p : option Plan) : string :=
  match p with None => "" | Some p => certDirFrom (Plan_Files p) end.

(** ** Baselines and decisions (deployplan.go) *)

Inductive Verdict := VerdictRuntime | VerdictFileOnly | VerdictReload.

#[export] Instance Verdict_eq_dec : EqDecision Verdict.
Proof. solve_decision. Defined.

Definition MaxChunks : nat := MaxOpBatches.
Definition MaxReasons : nat := 32.

Record Baseline := MkBaseline {
  Baseline_Applied : option Plan;
  Baseline_AppliedIndex : option Index;
  Baseline_Running : option Plan;
  Baseline_WorkerOps : option Plan;
  Baseline_Inventory : Inventory;
  Baseline_Caps : Caps;
  Baseline_PendingServerDeletes : Z;
  Baseline_PendingBackendDeletes : Z;
  Baseline_ReloadPending : bool;
}.

(** [&Baseline{}]: what a nil baseline stands for. *)
Definition emptyBaseline : Baseline :=
  {| Baseline_Applied := None; Baseline_AppliedIndex := None; Baseline_Running := None;
     Baseline_WorkerOps := None; Baseline_Inventory := MkInventory 0 [] [] [] [] [];
     Baseline_Caps := MkCaps false false false None;
     Baseline_PendingServerDeletes := 0; Baseline_PendingBackendDeletes := 0;
     Baseline_ReloadPending := false |}.

Record Decision := MkDecision {
  Decision_Verdict : Verdict;
  Decision_Ops : list Op;
  Decision_InPlace : list Op;
  Decision_WorkerPlan : option Plan;
  Decision_Chunks : nat;
  Decision_Reasons : list Reason;
  Decision_Files : list File;
  Decision_Mode : string;
}.

Definition composedOps : list string :=
  [OpBackendAdd; OpBackendPublish; OpBackendUnpublish; OpBackendDel; OpBackendWaitRemovable;
   OpServerAdd; OpServerEnable; OpServerDisable; OpServerSetAddr; OpServerSetWeight;
   OpServerSetState; OpServerWaitRemovable; OpServerDel;
   OpMapAdd; OpMapSet; OpMapDel; OpMapReplace;
   OpCertSet; OpCertNew; OpCASet; OpCANew; OpCRTListAdd; OpCRTListDel].

(** [Files]: a plan's file set on the wire. *)
Definition Files (p : option Plan) : list File :=
  match p with
  | None => []
  | Some p =>
      (λ f, {| File_Path := PlanFile_Path f; File_Digest := PlanFile_Digest f;
               File_Proof := PlanFile_Digest f; File_Size := PlanFile_Size f;
               File_Kind := PlanFile_Kind f;
               File_ReloadOnChange := PlanFile_ReloadOnChange f;
               File_Patch := None |}) <$> Plan_Files p
  end.

(** [chunkCount]; the subtraction of [nat] is the source's [max(.., 0)]. *)
Definition chunkCount (ops inPlace : nat) : nat :=
  if bool_decide (ops = 0)%nat then 0%nat
  else let first := Nat.min (MaxOpsPerApply - inPlace) ops in
       (1 + (ops - first + MaxOpsPerApply - 1) / MaxOpsPerApply)%nat.

(** The loop of [Chunk]: [start] has been cut off [ops] already; [fuel] is the
    number of iterations left. *)
Fixpoint chunkFrom (fuel budget : nat) (ops : list Op) : list (list Op) :=
  match fuel with
  | O => []
  | S fuel =>
      match ops with
      | [] => []
      | _ => take budget ops :: chunkFrom fuel MaxOpsPerApply (drop budget ops)
      end
  end.

(** [Decision.Chunk]: the loop cannot run more often than once per op, plus the
    first batch, which is empty when the in-place ops fill the budget. *)
Definition Chunk (d : Decision) : list (list Op) :=
  match Decision_Ops d with
  | [] => []
  | ops => chunkFrom (S (length ops)) (MaxOpsPerApply - length (Decision_InPlace d)) ops
  end.

(** ** Batches *)

Lemma MaxOpsPerApply_pos : (0 < MaxOpsPerApply)%nat.
Proof. unfold MaxOpsPerApply. lia. Qed.

(** How many full-budget batches a list of ops takes. *)
Lemma batches_step n :
  (0 < n)%nat →
  ((n + MaxOpsPerApply - 1) / MaxOpsPerApply
   = 1 + (n - MaxOpsPerApply + MaxOpsPerApply - 1) / MaxOpsPerApply)%nat.
Proof.
  pose proof MaxOpsPerApply_pos as Hk. generalize dependent MaxOpsPerApply. intros k Hk Hn.
  destruct (decide (k ≤ n)%nat) as [Hle|Hgt].
  - replace (n + k - 1)%nat with (n - k + k - 1 + 1 * k)%nat by lia.
    rewrite Nat.div_add by lia. lia.
  - replace (n - k + k - 1)%nat with (k - 1)%nat by lia.
    rewrite (Nat.div_small (k - 1) k) by lia.
    replace (n + k - 1)%nat with (n - 1 + 1 * k)%nat by lia.
    rewrite Nat.div_add, (Nat.div_small (n - 1)) by lia. lia.
Qed.

Lemma chunkFrom_full fuel ops :
  (length ops ≤ fuel)%nat →
  let cs := chunkFrom fuel MaxOpsPerApply ops in
  concat cs = ops ∧ Forall (λ c, (0 < length c ≤ MaxOpsPerApply)%nat) cs ∧
  length cs = ((length ops + MaxOpsPerApply - 1) / MaxOpsPerApply)%nat.
Proof.
  pose proof MaxOpsPerApply_pos as Hk. cbv zeta.
  assert ((length (@nil Op) + MaxOpsPerApply - 1) / MaxOpsPerApply = 0)%nat as Hzero
    by (cbn [length]; rewrite Nat.div_small; lia).
  revert ops. induction fuel as [|fuel IH]; intros ops Hf.
  { assert (ops = []) as -> by (destruct ops; simpl in *; [done|lia]).
    rewrite Hzero. split_and!; [done|constructor|done]. }
  destruct ops as [|o ops].
  { rewrite Hzero. split_and!; [done|constructor|done]. }
  cbn [chunkFrom]. destruct (IH (drop MaxOpsPerApply (o :: ops))) as (Hc & Hs & Hl).
  { rewrite length_drop. simpl in *. lia. }
  split_and!.
  - cbn [concat]. by rewrite Hc, take_drop.
  - apply Forall_cons. split; [|done]. rewrite length_take. cbn [length]. lia.
  - cbn [length]. rewrite Hl, length_drop. cbn [length].
    rewrite (batches_step (S (length ops))) by lia. lia.
Qed.

(** The batches of a decision with runtime ops: the first one next to the
    in-place ops, then full-budget batches of the rest. *)
Lemma Chunk_batches d :
  Decision_Ops d ≠ [] →
  let first := take (MaxOpsPerApply - length (Decision_InPlace d)) (Decision_Ops d) in
  ∃ rest, Chunk d = first :: rest ∧ concat (Chunk d) = Decision_Ops d ∧
    Forall (λ c, (0 < length c ≤ MaxOpsPerApply)%nat) rest ∧
    length (Chunk d) = chunkCount (length (Decision_Ops d)) (length (Decision_InPlace d)).
Proof.
  intros Hne. cbv zeta. set (budget := (MaxOpsPerApply - length (Decision_InPlace d))%nat).
  exists (chunkFrom (length (Decision_Ops d)) MaxOpsPerApply (drop budget (Decision_Ops d))).
  destruct (chunkFrom_full (length (Decision_Ops d)) (drop budget (Decision_Ops d)))
    as (Hc & Hs & Hl); [rewrite length_drop; lia|].
  assert (Chunk d = take budget (Decision_Ops d)
    :: chunkFrom (length (Decision_Ops d)) MaxOpsPerApply (drop budget (Decision_Ops d))) as HC
    by (unfold Chunk; by destruct (Decision_Ops d)).
  rewrite HC. split_and!; [done| |done|].
  - cbn [concat]. by rewrite Hc, take_drop.
  - unfold chunkCount. rewrite bool_decide_eq_false_2 by (destruct (Decision_Ops d); simpl; done || lia).
    cbn [length]. rewrite Hl, length_drop. f_equal. f_equal. lia.
Qed.

(** ** What an index holds *)

Definition backendEntryOf (p : Plan) (sec : SectionRec) : backendEntry :=
  MkBackendEntry (Section_Name sec) sec (Plan_Backends p !! Section_Name sec).

Section index_plan.
Context (p : Plan).

Let start : Index :=
  {| index_sections := ∅; index_files := fileIndex (Plan_Files p);
     index_backends := []; index_byName := ∅ |}.
Let built (secs : list SectionRec) : Index := foldl (indexSection (Plan_Backends p)) start secs.

Lemma built_snoc secs s : built (secs ++ [s]) = indexSection (Plan_Backends p) (built secs) s.
Proof. unfold built. by rewrite foldl_app. Qed.

Lemma built_bounds secs name i :
  index_byName (built secs) !! name = Some i → (i < length (index_backends (built secs)))%nat.
Proof.
  revert name i. induction secs as [|s secs IH] using rev_ind; intros name i; [done|].
  rewrite built_snoc. unfold indexSection. destruct (isBackendSection s); simpl; [|apply IH].
  rewrite length_app, lookup_insert. simpl. case_decide; [intros [= <-]; lia|].
  intros Hi%IH. lia.
Qed.

Lemma built_sections secs :
  index_sections (built secs)
  = foldl (λ m x, <[sectionKey x := x]> m) ∅ (filter (λ s, isBackendSection s = false) secs).
Proof.
  induction secs as [|s secs IH] using rev_ind; [done|].
  rewrite built_snoc, filter_app, foldl_app, <-IH, filter_cons, filter_nil. unfold indexSection.
  by destruct (isBackendSection s).
Qed.

Lemma built_files secs : index_files (built secs) = fileIndex (Plan_Files p).
Proof.
  induction secs as [|s secs IH] using rev_ind; [done|]. rewrite built_snoc, <-IH.
  unfold indexSection. by destruct (isBackendSection s).
Qed.

Lemma built_backends secs :
  index_backends (built secs)
  = backendEntryOf p <$> filter (λ s, isBackendSection s = true) secs.
Proof.
  induction secs as [|s secs IH] using rev_ind; [done|].
  rewrite built_snoc, filter_app, fmap_app, <-IH, filter_cons, filter_nil. unfold indexSection.
  destruct (isBackendSection s); simpl; [done|]. by rewrite app_nil_r.
Qed.

Lemma built_backend secs name :
  index_backend (built secs) name
  = last (filter (λ en, entry_name en = name) (index_backends (built secs))).
Proof.
  induction secs as [|s secs IH] using rev_ind; [done|].
  rewrite built_snoc. unfold indexSection. destruct (isBackendSection s); simpl; [|exact IH].
  unfold index_backend. simpl. rewrite lookup_insert, filter_app, filter_cons, filter_nil. simpl.
  case_decide; simpl.
  - rewrite lookup_app_r by done. rewrite Nat.sub_diag, last_snoc. done.
  - rewrite app_nil_r, <-IH. unfold index_backend.
    destruct (index_byName (built secs) !! name) as [i|] eqn:Hi; simpl; [|done].
    apply built_bounds in Hi. by rewrite lookup_app_l.
Qed.
End index_plan.

(** The non-backend sections of a plan, by kind and name. *)
Lemma IndexPlan_sections_Some p key sec :
  index_sections (IndexPlan p) !! key = Some sec →
  sec ∈ Plan_Sections p ∧ isBackendSection sec = false ∧ sectionKey sec = key.
Proof.
  unfold IndexPlan. rewrite built_sections. intros [Hs Hk]%index_lookup_Some.
  apply list_elem_of_filter in Hs as [??]. done.
Qed.

Lemma IndexPlan_files p : index_files (IndexPlan p) = fileIndex (Plan_Files p).
Proof. apply built_files. Qed.

Lemma fileIndex_Some files path f :
  fileIndex files !! path = Some f → f ∈ files ∧ PlanFile_Path f = path.
Proof. apply index_lookup_Some. Qed.

Lemma IndexPlan_backends p :
  index_backends (IndexPlan p)
  = backendEntryOf p <$> filter (λ s, isBackendSection s = true) (Plan_Sections p).
Proof. apply built_backends. Qed.

(** The names of a plan's backend sections, in document order. *)
Definition backendNames (p : Plan) : list string :=
  Section_Name <$> filter (λ s, isBackendSection s = true) (Plan_Sections p).

Lemma IndexPlan_names p : entry_name <$> index_backends (IndexPlan p) = backendNames p.
Proof. by rewrite IndexPlan_backends, <-list_fmap_compose. Qed.

(** With one section per backend name, looking a name up finds its section. *)
Lemma IndexPlan_backend_Some p en :
  NoDup (backendNames p) → en ∈ index_backends (IndexPlan p) →
  index_backend (IndexPlan p) (entry_name en) = Some en.
Proof.
  intros Hnd Hen. unfold IndexPlan. rewrite built_backend. fold (IndexPlan p).
  rewrite <-(index_lookup entry_name). apply index_lookup_NoDup; [|done].
  by rewrite IndexPlan_names.
Qed.

Lemma IndexPlan_backend_inv p name en :
  index_backend (IndexPlan p) name = Some en →
  en ∈ index_backends (IndexPlan p) ∧ entry_name en = name.
Proof.
  unfold IndexPlan at 1. rewrite built_backend. fold (IndexPlan p).
  intros H%last_Some_elem_of. by apply list_elem_of_filter in H as [??].
Qed.

Lemma IndexPlan_backend_None p name :
  index_backend (IndexPlan p) name = None ↔ name ∉ backendNames p.
Proof.
  unfold IndexPlan at 1. rewrite built_backend. fold (IndexPlan p).
  rewrite <-(index_lookup entry_name), eq_None_not_Some, index_lookup_is_Some, <-IndexPlan_names,
    list_elem_of_fmap. naive_solver.
Qed.
