(* ===== verification/Diff.v ===== *)
(** * The rule walk of a diff

    Models [diff.go], [backends.go], [certs.go] and the builder half of
    [maps.go] in [src/pkg/dataplane/deployplan]: the builder that accumulates
    one pod's ops and reasons while the rules compare the pod's applied plan
    with the render. What the rules only read is the section context [Env]; what
    they update is the state [builder], threaded through every rule. *)

From stdpp Require Import base list list_numbers gmap strings.
From S2P Require Import Prelude Api GoStd RenderPlan MapDelta Composer CrtList Index.

Open Scope Z_scope.

(** ** Op groups, emitted in this order *)

Definition groupBackendAdd : nat := 0.
Definition groupServerUpdate : nat := 1.
Definition groupBackendPublish : nat := 2.
Definition groupMapUpsert : nat := 3.
Definition groupCert : nat := 4.
Definition groupCRTList : nat := 5.
Definition groupMapDel : nat := 6.
Definition groupBackendUnpublish : nat := 7.
Definition groupServerDel : nat := 8.
Definition groupBackendDel : nat := 9.
Definition groupCount : nat := 10.

(** ** The builder *)

(** What the rules update: the fields of [builder] and of its [composer] that
    change while a diff runs. *)
Record builder := MkBuilder {
  b_created : gset string;
  b_pendingServerDeletes : Z;
  b_pendingBackendDeletes : Z;
  b_groups : list (list Op);
  b_reasons : list Reason;
  b_reload : bool;
  b_sectionChange : bool;
  b_deletedByOps : gset string;
}.

Definition newBuilder (pendingServerDeletes pendingBackendDeletes : Z) : builder :=
  {| b_created := ∅;
     b_pendingServerDeletes := pendingServerDeletes;
     b_pendingBackendDeletes := pendingBackendDeletes;
     b_groups := replicate groupCount [];
     b_reasons := []; b_reload := false; b_sectionChange := false; b_deletedByOps := ∅ |}.

Definition push (group : nat) (ops : list Op) (b : builder) : builder :=
  {| b_created := b_created b;
     b_pendingServerDeletes := b_pendingServerDeletes b;
     b_pendingBackendDeletes := b_pendingBackendDeletes b;
     b_groups := alter (.++ ops) group (b_groups b);
     b_reasons := b_reasons b; b_reload := b_reload b;
     b_sectionChange := b_sectionChange b; b_deletedByOps := b_deletedByOps b |}.

(** [notef]: a change that was written but not applied at runtime. *)
Definition notef (reason : Reason) (b : builder) : builder :=
  if (MaxReasons <=? length (b_reasons b))%nat then b
  else
    {| b_created := b_created b;
       b_pendingServerDeletes := b_pendingServerDeletes b;
       b_pendingBackendDeletes := b_pendingBackendDeletes b;
       b_groups := b_groups b;
       b_reasons := b_reasons b ++ [reason]; b_reload := b_reload b;
       b_sectionChange := b_sectionChange b; b_deletedByOps := b_deletedByOps b |}.

Definition setReload (b : builder) : builder :=
  {| b_created := b_created b;
     b_pendingServerDeletes := b_pendingServerDeletes b;
     b_pendingBackendDeletes := b_pendingBackendDeletes b;
     b_groups := b_groups b;
     b_reasons := b_reasons b; b_reload := true;
     b_sectionChange := b_sectionChange b; b_deletedByOps := b_deletedByOps b |}.

(** [failf]: why a change cannot run at runtime; forces a reload. *)
Definition failf (reason : Reason) (b : builder) : builder := notef reason (setReload b).

(** [b.sectionChange = b.sectionChange || changed]. *)
Definition noteSectionChange (changed : bool) (b : builder) : builder :=
  {| b_created := b_created b;
     b_pendingServerDeletes := b_pendingServerDeletes b;
     b_pendingBackendDeletes := b_pendingBackendDeletes b;
     b_groups := b_groups b;
     b_reasons := b_reasons b; b_reload := b_reload b;
     b_sectionChange := b_sectionChange b || changed; b_deletedByOps := b_deletedByOps b |}.

(** [b.created[path] = true]. *)
Definition noteCreated (path : string) (b : builder) : builder :=
  {| b_created := {[path]} ∪ b_created b;
     b_pendingServerDeletes := b_pendingServerDeletes b;
     b_pendingBackendDeletes := b_pendingBackendDeletes b;
     b_groups := b_groups b;
     b_reasons := b_reasons b; b_reload := b_reload b;
     b_sectionChange := b_sectionChange b; b_deletedByOps := b_deletedByOps b |}.

(** The counter [removeServer] leaves. *)
Definition setPendingServerDeletes (n : Z) (b : builder) : builder :=
  {| b_created := b_created b;
     b_pendingServerDeletes := n;
     b_pendingBackendDeletes := b_pendingBackendDeletes b;
     b_groups := b_groups b;
     b_reasons := b_reasons b; b_reload := b_reload b;
     b_sectionChange := b_sectionChange b; b_deletedByOps := b_deletedByOps b |}.

(** [b.deletedByOps[name] = true; b.pendingBackendDeletes++]. *)
Definition noteBackendDeleted (name : string) (b : builder) : builder :=
  {| b_created := b_created b;
     b_pendingServerDeletes := b_pendingServerDeletes b;
     b_pendingBackendDeletes := b_pendingBackendDeletes b + 1;
     b_groups := b_groups b;
     b_reasons := b_reasons b; b_reload := b_reload b;
     b_sectionChange := b_sectionChange b; b_deletedByOps := {[name]} ∪ b_deletedByOps b |}.

(** [orderedOps]. *)
Definition orderedOps (b : builder) : list Op := concat (b_groups b).

(** Composite literals of the backend ops. *)
Definition op_backend (kind backend : string) : Op := op_server kind backend "".
Definition op_path (kind path : string) : Op := op_map kind path "" "".

(** ** What the rules read *)

(** [composer]'s capabilities, inventory and certificate directory, and the two
    plans with their indexes. *)
Record Env := MkEnv {
  e_caps : Caps;
  e_inventory : Inventory;
  e_certDir : string;
  e_next : Plan;
  e_prev : Plan;
  e_nextIndex : Index;
  e_prevIndex : Index;
}.

(** [shapeReason]. *)
Definition shapeReason (be : Backend) : string :=
  if negb (bool_decide (Backend_ShapeReason be = ""))
  then "structural shape, " +:+ Backend_ShapeReason be else "structural shape".

Definition unexplainedText (prev next : Backend) (textEqual : bool) : bool :=
  negb textEqual && sameBackendRecord prev next && sameBackendComments prev next.

(** [changedAttribute]: the first attribute only a reload can change. *)
Definition changedAttribute (prev next : Backend) : string :=
  if negb (bool_decide (Backend_Profile prev = Backend_Profile next)) then "profile"
  else if negb (bool_decide (Backend_Mode prev = Backend_Mode next)) then "mode"
  else if negb (bool_decide (Backend_GUID prev = Backend_GUID next)) then "guid"
  else if negb (bool_decide (Backend_Balance prev = Backend_Balance next)) then "balance"
  else if negb (bool_decide (Backend_HashType prev = Backend_HashType next)) then "hash-type"
  else if negb (bool_decide (Backend_Shape prev = Backend_Shape next)) then "shape"
  else if negb (equalFunc sameKeyword (Backend_DefaultServer prev) (Backend_DefaultServer next))
       then "default-server"
  else "".

Section diff.
Context (e : Env).

(** The composer as the rules see it at this point of the walk. *)
Definition composerOf (b : builder) : Composer :=
  {| composer_caps := e_caps e; composer_inventory := e_inventory e;
     composer_created := b_created b; composer_certDir := e_certDir e |}.

(** *** Certificates, CA files and crt-lists (certs.go) *)

Definition storeFile (path set_ create : string) (loaded : list string) (b : builder) : builder :=
  if negb (SafeToken path) then
    failf (Msg "file %s is not a safe runtime token" [AStr path]) b
  else
    let kind := if contains loaded path || bool_decide (path ∈ b_created b)
                then set_ else create in
    push groupCert [op_path kind path] (noteCreated path b).

Definition diffCRTList (path : string) (existed : bool) (b : builder) : builder :=
  if negb existed then
    failf (Msg "crt-list %s added, which only a reload puts into the config" [AStr path]) b
  else
    match Plan_CRTLists (e_prev e) !! path, Plan_CRTLists (e_next e) !! path with
    | Some prev, Some next =>
        if negb (contains (Inventory_CRTLists (e_inventory e)) path) then
          notef (Msg "crt-list %s is not loaded at runtime, its file is written only" [AStr path]) b
        else match crtListOps path (CRTList_Entries prev) (CRTList_Entries next) with
             | inl ops => push groupCRTList ops b
             | inr reason => failf reason b
             end
    | _, _ =>
        failf (Msg "crt-list %s changed, but crt-list entries are not declared by the render yet"
                 [AStr path]) b
    end.

(** One file of the render in [diffCerts]. *)
Definition diffCertFile (b : builder) (f : PlanFile) : builder :=
  let old := index_files (e_prevIndex e) !! PlanFile_Path f in
  if sameFileContent old (Some f) then b
  else if bool_decide (PlanFile_Kind f = FileKindCert) then
    storeFile (PlanFile_Path f) OpCertSet OpCertNew (Inventory_Certs (e_inventory e)) b
  else if bool_decide (PlanFile_Kind f = FileKindCA) then
    storeFile (PlanFile_Path f) OpCASet OpCANew (Inventory_CAFiles (e_inventory e)) b
  else if bool_decide (PlanFile_Kind f = FileKindCRTList) then
    diffCRTList (PlanFile_Path f) (bool_decide (is_Some old)) b
  else b.

Definition removedCRTList (b : builder) (f : PlanFile) : builder :=
  if bool_decide (index_files (e_nextIndex e) !! PlanFile_Path f = None)
     && bool_decide (PlanFile_Kind f = FileKindCRTList)
  then failf (Msg "crt-list %s removed, which only a reload takes out of the config"
                [AStr (PlanFile_Path f)]) b
  else b.

Definition diffCerts (b : builder) : builder :=
  foldl removedCRTList (foldl diffCertFile b (Plan_Files (e_next e))) (Plan_Files (e_prev e)).

(** *** Backends (backends.go) *)

Definition profileInRunningConfig (name : string) : bool :=
  if bool_decide (name = "") then false
  else bool_decide (is_Some (Plan_Profiles (e_prev e) !! name)).

(** The loop of [publishNewBackend]: every server's adds, or the first refusal. *)
Fixpoint addServers (c : Composer) (be : Backend) (servers : list Server) (adds : list Op) :
    list Op + Reason :=
  match servers with
  | [] => inl adds
  | srv :: rest =>
      match addServer c be srv with
      | inr reason => inr reason
      | inl ops => addServers c be rest (adds ++ ops)
      end
  end.

Definition publishNewBackend (be : Backend) (b : builder) : builder :=
  match addServers (composerOf b) be (Backend_Servers be) [] with
  | inr reason =>
      failf (Msg "backend %s added: %s" [AStr (Backend_Name be); AReason reason]) b
  | inl adds =>
      push groupBackendPublish [op_backend OpBackendPublish (Backend_Name be)]
        (push groupBackendAdd adds
          (push groupBackendAdd
             [with_Profile_Mode_GUID (Backend_Profile be) (Backend_Mode be) (Backend_GUID be)
                (op_backend OpBackendAdd (Backend_Name be))] b))
  end.

Definition backendAdded (be : Backend) (b : builder) : builder :=
  let name := AStr (Backend_Name be) in
  if negb (bool_decide (Backend_Shape be = ShapeDynamic)) then
    failf (Msg "backend %s added: %s" [name; AStr (shapeReason be)]) b
  else if negb (Caps_DynamicBackends (e_caps e)) then
    failf (Msg "backend %s added: this HAProxy has no add backend" [name]) b
  else if negb (SafeToken (Backend_Name be)) || negb (SafeToken (Backend_Profile be))
          || (negb (bool_decide (Backend_GUID be = "")) && negb (SafeToken (Backend_GUID be))) then
    failf (Msg "backend %s added: the name, profile or guid is not a safe runtime token" [name]) b
  else if negb (profileInRunningConfig (Backend_Profile be)) then
    failf (Msg "backend %s added: profile %q is not in the running config"
             [name; AStr (Backend_Profile be)]) b
  else publishNewBackend be b.

(** The loop of [deleteBackend]; the counter keeps what was composed before a
    refusal, as the source does. *)
Fixpoint removeServers (c : Composer) (backend : string) (pending : Z)
    (servers : list Server) (drains : list Op) : Z * (list Op + Reason) :=
  match servers with
  | [] => (pending, inl drains)
  | srv :: rest =>
      match removeServer c pending backend srv with
      | (pending', inr reason) => (pending', inr reason)
      | (pending', inl ops) => removeServers c backend pending' rest (drains ++ ops)
      end
  end.

Definition deleteBackend (be : Backend) (b : builder) : builder :=
  let (pending, result) := removeServers (composerOf b) (Backend_Name be)
                             (b_pendingServerDeletes b) (Backend_Servers be) [] in
  let b := setPendingServerDeletes pending b in
  match result with
  | inr reason =>
      failf (Msg "backend %s removed: %s" [AStr (Backend_Name be); AReason reason]) b
  | inl drains =>
      noteBackendDeleted (Backend_Name be)
        (push groupBackendDel
           [with_TimeoutMs removableTimeoutMs
              (op_backend OpBackendWaitRemovable (Backend_Name be));
            op_backend OpBackendDel (Backend_Name be)]
          (push groupServerDel drains
            (push groupBackendUnpublish
               [op_backend OpBackendUnpublish (Backend_Name be)] b)))
  end.

Definition backendRemoved (be : Backend) (b : builder) : builder :=
  let name := AStr (Backend_Name be) in
  if negb (bool_decide (Backend_Shape be = ShapeDynamic)) then
    failf (Msg "backend %s removed: %s" [name; AStr (shapeReason be)]) b
  else if negb (Caps_DynamicBackends (e_caps e)) then
    failf (Msg "backend %s removed: this HAProxy has no del backend" [name]) b
  else if MaxPendingBackendDeletes <=? b_pendingBackendDeletes b then
    failf (Msg "backend %s removed: %d backend deletes already pending"
             [name; AInt (b_pendingBackendDeletes b)]) b
  else deleteBackend be b.

(** [serverOps] and the push of its caller: a refusal is recorded against the
    server it names. *)
Definition pushServerOps (group : nat) (backend server : string) (r : list Op + Reason)
    (b : builder) : builder :=
  match r with
  | inr reason =>
      push group [] (failf (Msg "backend %s/server %s: %s"
                              [AStr backend; AStr server; AReason reason]) b)
  | inl ops => push group ops b
  end.

Definition diffServerNext (prev next : Backend) (b : builder) (srv : Server) : builder :=
  let r := match serverIndex (Backend_Servers prev) !! Server_Name srv with
           | Some old => updateServer next old srv
           | None => addServer (composerOf b) next srv
           end in
  pushServerOps groupServerUpdate (Backend_Name next) (Server_Name srv) r b.

Definition diffServerPrev (prev next : Backend) (b : builder) (srv : Server) : builder :=
  match serverIndex (Backend_Servers next) !! Server_Name srv with
  | Some _ => b
  | None =>
      let (pending, r) := removeServer (composerOf b) (b_pendingServerDeletes b)
                            (Backend_Name prev) srv in
      pushServerOps groupServerDel (Backend_Name prev) (Server_Name srv) r
        (setPendingServerDeletes pending b)
  end.

Definition diffServers (prev next : Backend) (b : builder) : builder :=
  foldl (diffServerPrev prev next)
    (foldl (diffServerNext prev next) b (Backend_Servers next)) (Backend_Servers prev).

Definition backendChanged (prev next : Backend) (textEqual : bool) (b : builder) : builder :=
  let name := AStr (Backend_Name next) in
  if negb (sameBackendBody prev next) then failf (Msg "backend %s: body changed" [name]) b
  else if unexplainedText prev next textEqual then
    failf (Msg "backend %s: unexplained text change" [name]) b
  else if sameBackendRecord prev next then b
  else
    let attr := changedAttribute prev next in
    if negb (bool_decide (attr = "")) then
      failf (Msg "backend %s: %s changed, which HAProxy cannot alter at runtime" [name; AStr attr]) b
    else diffServers prev next b.

(** The two loop bodies of [diffBackends]. *)
Definition diffBackendNext (b : builder) (next : backendEntry) : builder :=
  match entry_record next with
  | None => failf (Msg "backend %s: section without a record" [AStr (entry_name next)]) b
  | Some nextRecord =>
      match index_backend (e_prevIndex e) (entry_name next) with
      | Some (MkBackendEntry _ section (Some prevRecord)) =>
          let textEqual := sameSectionText (Some section) (Some (entry_section next)) in
          backendChanged prevRecord nextRecord textEqual (noteSectionChange (negb textEqual) b)
      | _ => backendAdded nextRecord (noteSectionChange true b)
      end
  end.

Definition diffBackendPrev (b : builder) (prev : backendEntry) : builder :=
  match index_backend (e_nextIndex e) (entry_name prev) with
  | Some (MkBackendEntry _ _ (Some _)) => b
  | _ => match entry_record prev with
         | Some record => backendRemoved record (noteSectionChange true b)
         | None => b
         end
  end.

Definition diffBackends (b : builder) : builder :=
  foldl diffBackendPrev
    (foldl diffBackendNext b (index_backends (e_nextIndex e)))
    (index_backends (e_prevIndex e)).

(** *** Core and profile sections (diff.go) *)

Definition isProfile (sec : SectionRec) : bool :=
  bool_decide (Section_Kind sec = SectionKindProfile).

Definition sectionAdded (sec : SectionRec) (b : builder) : builder :=
  failf (Msg (if isProfile sec then "profile %s added" else "core section %s added")
           [AStr (Section_Name sec)]) (noteSectionChange true b).

Definition sectionChanged (sec : SectionRec) (b : builder) : builder :=
  failf (Msg (if isProfile sec then "profile %s changed" else "core section %s changed")
           [AStr (Section_Name sec)]) (noteSectionChange true b).

Definition usesProfile (name : string) (be : backendEntry) : bool :=
  match entry_record be with
  | Some record => bool_decide (Backend_Profile record = name)
  | None => false
  end.

(** [profileRemoved]: off the reload path only when nothing in the render uses
    the profile and every backend that did is deleted by this diff. *)
Definition profileRemoved (name : string) (b : builder) : builder :=
  match List.find (usesProfile name) (index_backends (e_nextIndex e)) with
  | Some be =>
      failf (Msg "profile %s removed but backend %s still uses it"
               [AStr name; AStr (entry_name be)]) b
  | None =>
      match List.find (λ be, usesProfile name be
                             && negb (bool_decide (entry_name be ∈ b_deletedByOps b)))
              (index_backends (e_prevIndex e)) with
      | Some be =>
          failf (Msg "profile %s removed but backend %s is not deleted at runtime"
                   [AStr name; AStr (entry_name be)]) b
      | None => b
      end
  end.

Definition sectionRemoved (sec : SectionRec) (b : builder) : builder :=
  let b := noteSectionChange true b in
  if isProfile sec then profileRemoved (Section_Name sec) b
  else failf (Msg "core section %s removed" [AStr (Section_Name sec)]) b.

Definition diffSectionNext (b : builder) (sec : SectionRec) : builder :=
  if isBackendSection sec then b
  else match index_sections (e_prevIndex e) !! sectionKey sec with
       | None => sectionAdded sec b
       | Some old => if sameSectionText (Some old) (Some sec) then b else sectionChanged sec b
       end.

Definition diffSectionPrev (b : builder) (sec : SectionRec) : builder :=
  if isBackendSection sec then b
  else match index_sections (e_nextIndex e) !! sectionKey sec with
       | None => sectionRemoved sec b
       | Some _ => b
       end.

Definition diffSections (b : builder) : builder :=
  foldl diffSectionPrev (foldl diffSectionNext b (Plan_Sections (e_next e)))
    (Plan_Sections (e_prev e)).

(** *** Maps (maps.go) *)

Definition pushMapOps (ops : mapOps) (path : string) (b : builder) : builder :=
  if whole ops then push groupMapUpsert [op_path OpMapReplace path] b
  else push groupMapDel (deletes ops) (push groupMapUpsert (upserts ops) b).

Definition mapPath (m : MapRec) (name : string) : string :=
  if bool_decide (Map_Path m = "") then name else Map_Path m.

Definition mapDelta (path : string) (prev : list Entry) (next : MapRec) : mapOps :=
  if Map_Ordered next then orderedMapOps path prev (Map_Entries next)
  else unorderedMapOps path prev (Map_Entries next).

Definition diffMap (prev : list Entry) (next : MapRec) (name : string) (b : builder) : builder :=
  let path := mapPath next name in
  if negb (contains (Inventory_Maps (e_inventory e)) path) then
    notef (Msg "map %s is not loaded at runtime, its file is written only" [AStr path]) b
  else if negb (SafeToken path) then
    failf (Msg "map %s: the path is not a safe runtime token" [AStr path]) b
  else pushMapOps (mapDelta path prev next) path b.

(** The entries of a map a plan may not have: none. *)
Definition mapEntries (m : option MapRec) : list Entry :=
  match m with Some m => Map_Entries m | None => [] end.

Definition diffMapName (b : builder) (name : string) : builder :=
  match Plan_Maps (e_next e) !! name with
  | None => b
  | Some next =>
      let prev := Plan_Maps (e_prev e) !! name in
      if bool_decide (is_Some prev)
         && sameFileContent (index_files (e_prevIndex e) !! name)
                            (index_files (e_nextIndex e) !! name)
      then b else diffMap (mapEntries prev) next name b
  end.

Definition diffMaps (b : builder) : builder :=
  foldl diffMapName b (sortedMapNames (Plan_Maps (e_next e))).

(** *** Files (diff.go) *)

Definition diffFileNext (b : builder) (f : PlanFile) : builder :=
  if sameFileContent (index_files (e_prevIndex e) !! PlanFile_Path f) (Some f) then b
  else if bool_decide (PlanFile_Kind f = FileKindConfig) then
    if negb (b_sectionChange b) then
      failf (Msg "config %s changed with no section explaining it" [AStr (PlanFile_Path f)]) b
    else b
  else if PlanFile_ReloadOnChange f then
    failf (Msg "file %s changed and is declared reload-on-change" [AStr (PlanFile_Path f)]) b
  else b.

Definition diffRemovedFile (b : builder) (f : PlanFile) : builder :=
  if bool_decide (is_Some (index_files (e_nextIndex e) !! PlanFile_Path f))
     || bool_decide (PlanFile_Kind f = FileKindCRTList) then b
  else if PlanFile_ReloadOnChange f then
    failf (Msg "file %s was removed and is declared reload-on-change" [AStr (PlanFile_Path f)]) b
  else notef (Msg "file %s was removed, which no runtime op undoes" [AStr (PlanFile_Path f)]) b.

Definition diffRemovedFiles (b : builder) : builder :=
  foldl diffRemovedFile b (Plan_Files (e_prev e)).

Definition diffFiles (b : builder) : builder :=
  diffRemovedFiles (foldl diffFileNext b (Plan_Files (e_next e))).

(** The rules in [DiffIndexed]'s order. *)
Definition runRules (b : builder) : builder :=
  diffFiles (diffMaps (diffSections (diffBackends (diffCerts b)))).
End diff.
