(* ===== verification/InPlace.v ===== *)
(** * In-place ops, and the decision

    Models [inplace.go] and the deciding half of [diff.go] in
    [src/pkg/dataplane/deployplan]: the ops a pod runs while its reload is
    pending, the plan its worker holds afterwards, and the verdict. The diff
    calls itself once, through [inPlaceMapOps], with a baseline that composes no
    further in-place batch; that recursion runs on fuel here, and
    [DiffIndexed_total] shows two levels are always enough. *)

From stdpp Require Import base list list_numbers gmap strings.
From S2P Require Import Prelude Api GoStd RenderPlan MapDelta Composer CrtList Index Diff.

Open Scope Z_scope.

Definition inPlaceKinds : list string :=
  [OpServerSetAddr; OpServerSetWeight; OpServerSetState; OpServerAdd; OpServerEnable;
   OpServerDisable; OpMapSet; OpMapDel; OpCertSet].

(** ** The worker's plan after an in-place batch *)

(** The loop of [serverIn]: the first server of the name. *)
Definition serverIn (plan : Plan) (backend name : string) : option Server :=
  be ← Plan_Backends plan !! backend;
  List.find (λ s, bool_decide (Server_Name s = name)) (Backend_Servers be).

Definition with_Servers (servers : list Server) (be : Backend) : Backend :=
  {| Backend_Name := Backend_Name be; Backend_Profile := Backend_Profile be;
     Backend_Mode := Backend_Mode be; Backend_GUID := Backend_GUID be;
     Backend_Balance := Backend_Balance be; Backend_HashType := Backend_HashType be;
     Backend_Shape := Backend_Shape be; Backend_ShapeReason := Backend_ShapeReason be;
     Backend_Servers := servers; Backend_DefaultServer := Backend_DefaultServer be;
     Backend_BodyDigest := Backend_BodyDigest be;
     Backend_CommentsDigest := Backend_CommentsDigest be;
     Backend_RecordDigest := Backend_RecordDigest be;
     Backend_TextDigest := Backend_TextDigest be;
     Backend_Body := Backend_Body be; Backend_Comments := Backend_Comments be;
     Backend_ContentKnown := Backend_ContentKnown be |}.

(** [renderplan.Backend{}]: what a missing map key reads as. *)
Definition zeroBackend : Backend :=
  MkBackend "" "" "" "" "" "" "" "" [] [] "" "" "" "" [] [] false.

(** The loop body of [mutateServer] on the server it names. *)
Definition mutateNamedServer (o : Op) (srv : Server) : Server :=
  let kind := Op_Kind o in
  let disabled d := MkServer (Server_Name srv) (Server_Address srv) (Server_Port srv)
                      (Server_Weight srv) d (Server_GUID srv) (Server_Comment srv)
                      (Server_Extra srv) in
  if bool_decide (kind = OpServerEnable) then disabled false
  else if bool_decide (kind = OpServerDisable) then disabled true
  else if bool_decide (kind = OpServerSetState) then
    disabled (bool_decide (Op_State o = stateMaint))
  else if bool_decide (kind = OpServerSetAddr) then
    MkServer (Server_Name srv) (Op_Address o) (Op_Port o) (Server_Weight srv)
      (Server_Disabled srv) (Server_GUID srv) (Server_Comment srv) (Server_Extra srv)
  else if bool_decide (kind = OpServerSetWeight) then
    match Op_Weight o with
    | Some w => MkServer (Server_Name srv) (Server_Address srv) (Server_Port srv) (Some w)
                  (Server_Disabled srv) (Server_GUID srv) (Server_Comment srv) (Server_Extra srv)
    | None => srv
    end
  else srv.

Definition mutateServers (o : Op) (servers : list Server) : list Server :=
  (λ srv, if bool_decide (Server_Name srv = Op_Server o) then mutateNamedServer o srv else srv)
    <$> servers.

Definition with_Backends (backends : gmap string Backend) (p : Plan) : Plan :=
  {| Plan_SchemaVersion := Plan_SchemaVersion p; Plan_ID := Plan_ID p;
     Plan_Sections := Plan_Sections p; Plan_Backends := backends;
     Plan_Profiles := Plan_Profiles p; Plan_Maps := Plan_Maps p;
     Plan_CRTLists := Plan_CRTLists p; Plan_Files := Plan_Files p |}.

Definition with_Maps (maps : gmap string MapRec) (p : Plan) : Plan :=
  {| Plan_SchemaVersion := Plan_SchemaVersion p; Plan_ID := Plan_ID p;
     Plan_Sections := Plan_Sections p; Plan_Backends := Plan_Backends p;
     Plan_Profiles := Plan_Profiles p; Plan_Maps := maps;
     Plan_CRTLists := Plan_CRTLists p; Plan_Files := Plan_Files p |}.

Definition with_Files (files : list PlanFile) (p : Plan) : Plan :=
  {| Plan_SchemaVersion := Plan_SchemaVersion p; Plan_ID := Plan_ID p;
     Plan_Sections := Plan_Sections p; Plan_Backends := Plan_Backends p;
     Plan_Profiles := Plan_Profiles p; Plan_Maps := Plan_Maps p;
     Plan_CRTLists := Plan_CRTLists p; Plan_Files := files |}.

Definition with_ID (id : string) (p : Plan) : Plan :=
  {| Plan_SchemaVersion := Plan_SchemaVersion p; Plan_ID := id;
     Plan_Sections := Plan_Sections p; Plan_Backends := Plan_Backends p;
     Plan_Profiles := Plan_Profiles p; Plan_Maps := Plan_Maps p;
     Plan_CRTLists := Plan_CRTLists p; Plan_Files := Plan_Files p |}.

Definition mutateServer (after : Plan) (o : Op) : Plan :=
  match Plan_Backends after !! Op_Backend o with
  | None => after
  | Some be =>
      with_Backends
        (<[Op_Backend o := with_Servers (mutateServers o (Backend_Servers be)) be]>
           (Plan_Backends after)) after
  end.

(** The entries [set map] and [del map] leave: every entry with the key. *)
Definition mutateEntries (o : Op) (entries : list Entry) : list Entry :=
  concat ((λ e, if negb (bool_decide (Entry_Key e = Op_Key o)) then [e]
                else if bool_decide (Op_Kind o = OpMapSet)
                     then [MkEntry (Entry_Key e) (Op_Value o)] else []) <$> entries).

Definition mutateMapRec (o : Op) (name : string) (m : MapRec) : MapRec :=
  if negb (bool_decide (mapPath m name = Op_Path o)) then m
  else MkMap (Map_Path m) (Map_Ordered m) (mutateEntries o (Map_Entries m)).

Definition mutateMap (after : Plan) (o : Op) : Plan :=
  with_Maps (map_imap (λ name m, Some (mutateMapRec o name m)) (Plan_Maps after)) after.

(** The certificate write of [applyInPlaceOp]. *)
Definition mutateFile (o : Op) (updated f : PlanFile) : PlanFile :=
  if bool_decide (PlanFile_Path f = Op_Path o) then
    MkPlanFile (PlanFile_Path f) (PlanFile_Kind f) (PlanFile_ReloadOnChange f)
      (PlanFile_Digest updated) (PlanFile_Size updated)
      (PlanFile_Content updated) (PlanFile_ContentKnown updated)
  else f.

Definition serverMutations : list string :=
  [OpServerEnable; OpServerDisable; OpServerSetAddr; OpServerSetWeight; OpServerSetState].

Definition applyInPlaceOp (next : Plan) (after : Plan) (o : Op) : Plan :=
  if bool_decide (Op_Kind o = OpServerAdd) then
    match serverIn next (Op_Backend o) (Op_Server o) with
    | Some added =>
        let be := default zeroBackend (Plan_Backends after !! Op_Backend o) in
        with_Backends
          (<[Op_Backend o := with_Servers (Backend_Servers be ++ [added]) be]>
             (Plan_Backends after)) after
    | None => after
    end
  else if contains serverMutations (Op_Kind o) then mutateServer after o
  else if contains [OpMapSet; OpMapDel] (Op_Kind o) then mutateMap after o
  else if bool_decide (Op_Kind o = OpCertSet) then
    match fileIndex (Plan_Files next) !! Op_Path o with
    | None => after
    | Some updated => with_Files (mutateFile o updated <$> Plan_Files after) after
    end
  else after.

Section inplace.
(** [renderplan.DigestString] hashes with a library outside this repository,
    and its input is the ops' wire encoding. *)
Context (digestString : string → string) (encodeOps : list Op → string).

Definition workerAfter (worker next : Plan) (ops : list Op) : Plan :=
  let nul := String (Ascii.ascii_of_N 0) "" in
  with_ID (digestString (Plan_ID worker +:+ nul +:+ Plan_ID next +:+ nul +:+ encodeOps ops))
    (foldl (applyInPlaceOp next) worker ops).

(** ** Composing the in-place subset *)

(** An op list with a refusal dropped ([composed, _ :=]). *)
Definition composed (r : list Op + Reason) : list Op :=
  match r with inl ops => ops | inr _ => [] end.

Definition serverOpsAgainstWorker (c : Composer) (running next : Backend) : list Op :=
  concat ((λ srv,
    match serverIndex (Backend_Servers running) !! Server_Name srv with
    | Some old => composed (updateServer next old srv)
    | None => composed (addServer c running srv)
    end) <$> Backend_Servers next)
  ++ concat ((λ srv,
    match serverIndex (Backend_Servers next) !! Server_Name srv with
    | Some _ => []
    | None => [op_server OpServerDisable (Backend_Name next) (Server_Name srv)]
    end) <$> Backend_Servers running).

Definition inPlaceServerOps (c : Composer) (worker : Plan) (nextIndex : Index) : list Op :=
  concat ((λ next : backendEntry,
    match Plan_Backends worker !! entry_name next, entry_record next with
    | Some running, Some record => serverOpsAgainstWorker c running record
    | _, _ => []
    end) <$> index_backends nextIndex).

Definition inPlaceCertOps (inventory : Inventory) (worker next : Plan) : list Op :=
  concat ((λ f,
    let old := fileIndex (Plan_Files worker) !! PlanFile_Path f in
    if negb (bool_decide (PlanFile_Kind f = FileKindCert)) || bool_decide (old = None)
       || sameFileContent old (Some f) then []
    else if contains (Inventory_Certs inventory) (PlanFile_Path f)
         then [op_path OpCertSet (PlanFile_Path f)] else [])
    <$> Plan_Files next).

Definition addsBackends (worker next : Plan) : bool :=
  existsb (λ kv, bool_decide (Plan_Backends worker !! kv.1 = None))
    (map_to_list (Plan_Backends next)).

(** One map of the loop of [inPlaceMapOps]; [None] is its early return. *)
Definition inPlaceMapDelta (inventory : Inventory) (worker next : Plan) (name : string) :
    option (list Op * list Op) :=
  m ← Plan_Maps next !! name;
  let path := mapPath m name in
  if negb (contains (Inventory_Maps inventory) path) || negb (SafeToken path) then None
  else
    let delta := mapDelta path (mapEntries (Plan_Maps worker !! name)) m in
    if whole delta then None
    else if forallb (λ o, bool_decide (Op_Kind o = OpMapSet)) (upserts delta)
    then Some (upserts delta, deletes delta) else None.

Definition inPlaceMapDeltas (inventory : Inventory) (worker next : Plan) : list Op :=
  match mapM (inPlaceMapDelta inventory worker next) (sortedMapNames (Plan_Maps next)) with
  | None => []
  | Some deltas => concat deltas.*1 ++ concat deltas.*2
  end.

(** The baseline [inPlaceMapOps] asks the nested diff with. *)
Definition workerBaseline (base : Baseline) (worker : Plan) : Baseline :=
  {| Baseline_Applied := Some worker; Baseline_AppliedIndex := None;
     Baseline_Running := Some worker; Baseline_WorkerOps := None;
     Baseline_Inventory := Baseline_Inventory base; Baseline_Caps := Baseline_Caps base;
     Baseline_PendingServerDeletes := Baseline_PendingServerDeletes base;
     Baseline_PendingBackendDeletes := Baseline_PendingBackendDeletes base;
     Baseline_ReloadPending := false |}.

(** ** Deciding

    [nested] is the recursive call; [None] throughout is fuel exhausted. *)
Section decide.
Context (nested : Plan → Index → Baseline → option Decision).

Definition inPlaceMapOps (base : Baseline) (worker next : Plan) (nextIndex : Index) :
    option (list Op) :=
  if addsBackends worker next then Some []
  else
    d ← nested next nextIndex (workerBaseline base worker);
    if bool_decide (Decision_Verdict d = VerdictReload) then Some []
    else Some (inPlaceMapDeltas (Baseline_Inventory base) worker next).

(** [inPlaceOps]: the ops with the worker's plan after them, or none. *)
Definition inPlaceOps (base : Baseline) (next : Plan) (nextIndex : Index) (b : builder) :
    option (list Op * option Plan) :=
  if negb (Baseline_ReloadPending base) && negb (b_reload b) then Some ([], None)
  else match Baseline_WorkerOps base with
  | None => Some ([], None)
  | Some worker =>
      let c := {| composer_caps := Baseline_Caps base;
                  composer_inventory := Baseline_Inventory base;
                  composer_created := ∅; composer_certDir := certDirOf (Some next) |} in
      let ops := inPlaceServerOps c worker nextIndex
                 ++ inPlaceCertOps (Baseline_Inventory base) worker next in
      mops ← inPlaceMapOps base worker next nextIndex;
      let ops := if (length ops + length mops <=? MaxOpsPerApply)%nat
                 then ops ++ mops else ops in
      let kept := take MaxOpsPerApply
        (filter (λ o, contains inPlaceKinds (Op_Kind o)
                      && executes (Baseline_Caps base) (Op_Kind o)) ops) in
      if bool_decide (kept = []) then Some ([], None)
      else Some (kept, Some (workerAfter worker next kept))
  end.

(** [unsupportedKind]: [None] is the empty string. *)
Definition unsupportedKind (caps : Caps) (ops : list Op) : option string :=
  match Caps_AgentOps caps with
  | None => None
  | Some _ => Op_Kind <$> List.find (λ o, negb (executes caps (Op_Kind o))) ops
  end.

Definition decide_ (base : Baseline) (next : Plan) (nextIndex : Index) (b : builder) :
    option Decision :=
  let ops := orderedOps b in
  let b := match unsupportedKind (Baseline_Caps base) ops with
           | Some kind => failf (Msg "the agent does not execute %s" [AStr kind]) b
           | None => b
           end in
  '(inPlace, workerPlan) ← inPlaceOps base next nextIndex b;
  let chunks := chunkCount (length ops) (length inPlace) in
  let b := if (MaxChunks <? chunks)%nat
           then failf (Msg "op cap: %d ops need more than %d applies"
                         [AInt (Z.of_nat (length ops)); AInt (Z.of_nat MaxChunks)]) b
           else b in
  let d verdict ops chunks mode :=
    {| Decision_Verdict := verdict; Decision_Ops := ops; Decision_InPlace := inPlace;
       Decision_WorkerPlan := workerPlan; Decision_Chunks := chunks;
       Decision_Reasons := b_reasons b; Decision_Files := Files (Some next);
       Decision_Mode := mode |} in
  Some (if b_reload b then d VerdictReload [] 0%nat ModeReload
        else if bool_decide (ops = []) then d VerdictFileOnly [] 0%nat ModeAuto
        else d VerdictRuntime ops chunks ModeAuto).

(** [baselineUsable] and the rule walk of [DiffIndexed]. *)
Definition diffBuilder (next : Plan) (nextIndex : Index) (base : Baseline) : builder :=
  let b := newBuilder (Baseline_PendingServerDeletes base)
             (Baseline_PendingBackendDeletes base) in
  match Baseline_Applied base with
  | None => failf (Msg "no baseline" []) b
  | Some prev =>
      if negb (Plan_SchemaVersion prev =? Plan_SchemaVersion next) then
        failf (Msg "baseline plan schema %d, render schema %d"
                 [AInt (Plan_SchemaVersion prev); AInt (Plan_SchemaVersion next)]) b
      else
        runRules
          {| e_caps := Baseline_Caps base; e_inventory := Baseline_Inventory base;
             e_certDir := certDirOf (Some next); e_next := next; e_prev := prev;
             e_nextIndex := nextIndex;
             e_prevIndex := default (IndexPlan prev) (Baseline_AppliedIndex base) |} b
  end.

Definition diffStep (next : Plan) (nextIndex : Index) (base : Baseline) : option Decision :=
  decide_ base next nextIndex (diffBuilder next nextIndex base).
End decide.

(** The recursion of [DiffIndexed] on a render that is there, with its index. *)
Fixpoint diffFuel (fuel : nat) (next : Plan) (nextIndex : Index) (base : Baseline) :
    option Decision :=
  match fuel with
  | O => None
  | S fuel => diffStep (diffFuel fuel) next nextIndex base
  end.

(** [DiffIndexed], nil arguments included. *)
Definition DiffIndexed (fuel : nat) (next : option Plan) (nextIndex : option Index)
    (base : option Baseline) : option Decision :=
  match next with
  | None => Some {| Decision_Verdict := VerdictReload; Decision_Ops := [];
                    Decision_InPlace := []; Decision_WorkerPlan := None;
                    Decision_Chunks := 0; Decision_Reasons := [Msg "no render" []];
                    Decision_Files := []; Decision_Mode := ModeReload |}
  | Some next => diffFuel fuel next (default (IndexPlan next) nextIndex)
                   (default emptyBaseline base)
  end.

Definition Diff (fuel : nat) (next : option Plan) (base : option Baseline) : option Decision :=
  DiffIndexed fuel next None base.
End inplace.
