(* ===== verification/Rules.v ===== *)
(** * The rule walk as a step relation

    Every rule of [Diff.v] changes the builder through a handful of primitive
    steps. [bstep] lists them with the guards under which the rules take them,
    [runRules_steps] shows the whole walk is a sequence of such steps, and the
    invariants of a diff (op grouping, bounded reasons, pending-delete caps,
    monotone reload) follow by induction on that sequence. *)

From stdpp Require Import base list list_numbers gmap strings relations.
From S2P Require Import Prelude Api GoStd RenderPlan MapDelta Composer CrtList Index Diff.

Open Scope Z_scope.

(** ** Steps *)

Definition countKind (kind : string) (ops : list Op) : Z :=
  Z.of_nat (length (filter (λ o, Op_Kind o = kind) ops)).

Section steps.
Context (P : nat → Op → Prop).

Inductive bstep : builder → builder → Prop :=
  | bstep_push g ops b :
      (g < groupCount)%nat → Forall (P g) ops →
      ((g = groupServerDel ∨ g = groupBackendDel) → ops = []) →
      bstep b (push g ops b)
  | bstep_note r b : bstep b (notef r b)
  | bstep_fail r b : bstep b (failf r b)
  | bstep_section c b : bstep b (noteSectionChange c b)
  | bstep_created path b : bstep b (noteCreated path b)
  | bstep_pending n b :
      b_pendingServerDeletes b ≤ n →
      (n = b_pendingServerDeletes b ∨ n ≤ MaxPendingServerDeletes) →
      bstep b (setPendingServerDeletes n b)
  | bstep_server_deletes n ops b :
      Forall (P groupServerDel) ops →
      b_pendingServerDeletes b + countKind OpServerDel ops ≤ n →
      (n = b_pendingServerDeletes b ∨ n ≤ MaxPendingServerDeletes) →
      bstep b (push groupServerDel ops (setPendingServerDeletes n b))
  | bstep_backend_delete name ops b :
      Forall (P groupBackendDel) ops → countKind OpBackendDel ops ≤ 1 →
      op_backend OpBackendDel name ∈ ops →
      b_pendingBackendDeletes b < MaxPendingBackendDeletes →
      bstep b (noteBackendDeleted name (push groupBackendDel ops b)).

Definition bsteps : builder → builder → Prop := rtc bstep.

Lemma bsteps_foldl {A} (f : builder → A → builder) (l : list A) b :
  (∀ b x, x ∈ l → bsteps b (f b x)) → bsteps b (foldl f b l).
Proof.
  revert b. induction l as [|x l IH]; intros b Hf; [constructor|]. simpl.
  etrans; [apply (Hf b x), list_elem_of_here|]. apply IH. intros; apply Hf; by apply list_elem_of_further.
Qed.

Lemma bsteps_push g ops b :
  (g < groupServerDel)%nat → Forall (P g) ops → bsteps b (push g ops b).
Proof.
  unfold groupServerDel. intros. apply rtc_once, bstep_push; [|done|];
    unfold groupServerDel, groupBackendDel, groupCount; lia.
Qed.

Lemma bsteps_note r b : bsteps b (notef r b).
Proof. apply rtc_once, bstep_note. Qed.

Lemma bsteps_fail r b : bsteps b (failf r b).
Proof. apply rtc_once, bstep_fail. Qed.

Lemma bsteps_l b b' b'' : bstep b b' → bsteps b' b'' → bsteps b b''.
Proof. apply rtc_l. Qed.

Lemma bsteps_fail_section r c b : bsteps b (failf r (noteSectionChange c b)).
Proof. eapply bsteps_l; [apply bstep_section|apply bsteps_fail]. Qed.
End steps.

#[export] Hint Resolve bsteps_note bsteps_fail bsteps_fail_section : haptic.
#[export] Hint Extern 1 (bsteps _ ?b ?b) => apply rtc_refl : haptic.

(** Case analysis on the guard a rule tests next. *)
Ltac rule_guard H :=
  match goal with
  | |- bsteps _ _ (if ?c then _ else _) => destruct c eqn:H
  end.

(** ** What the composers may emit

    [emits Qn Qp P] is what a predicate on grouped ops has to satisfy for the
    rules to keep it, when the backends they add or change satisfy [Qn] and the
    ones they remove from [Qp]; a client proves it once per predicate. *)

Definition inIndex (x : Index) (be : Backend) : Prop :=
  ∃ en, en ∈ index_backends x ∧ entry_record en = Some be.

Lemma index_backend_inIndex x name en be :
  index_backend x name = Some en → entry_record en = Some be → inIndex x be.
Proof.
  unfold index_backend. intros (i & _ & Hi)%bind_Some Hr. exists en. split; [|done].
  by apply list_elem_of_lookup_2 in Hi.
Qed.

Record emits (Qn Qp : Backend → Prop) (P : nat → Op → Prop) : Prop := MkEmits {
  emit_cert kind path :
    SafeToken path = true → kind ∈ [OpCertSet; OpCertNew; OpCASet; OpCANew] →
    P groupCert (op_path kind path);
  emit_crt path prev next ops :
    crtListOps path prev next = inl ops → Forall (P groupCRTList) ops;
  emit_new_backend be :
    Qn be →
    SafeToken (Backend_Name be) = true → SafeToken (Backend_Profile be) = true →
    (Backend_GUID be = "" ∨ SafeToken (Backend_GUID be) = true) →
    P groupBackendAdd
      (with_Profile_Mode_GUID (Backend_Profile be) (Backend_Mode be) (Backend_GUID be)
         (op_backend OpBackendAdd (Backend_Name be))) ∧
    P groupBackendPublish (op_backend OpBackendPublish (Backend_Name be));
  emit_new_server c be srv ops :
    Qn be → srv ∈ Backend_Servers be → addServer c be srv = inl ops →
    Forall (λ o, P groupBackendAdd o ∧ P groupServerUpdate o) ops;
  emit_update be old srv ops :
    Qn be → srv ∈ Backend_Servers be →
    updateServer be old srv = inl ops → Forall (P groupServerUpdate) ops;
  emit_remove c be n srv n' ops :
    Qp be → srv ∈ Backend_Servers be →
    removeServer c n (Backend_Name be) srv = (n', inl ops) → Forall (P groupServerDel) ops;
  emit_del_backend be :
    Qp be →
    P groupBackendUnpublish (op_backend OpBackendUnpublish (Backend_Name be)) ∧
    P groupBackendDel (with_TimeoutMs removableTimeoutMs
                         (op_backend OpBackendWaitRemovable (Backend_Name be))) ∧
    P groupBackendDel (op_backend OpBackendDel (Backend_Name be));
  emit_map_upsert path o :
    SafeToken path = true → upsertOk path o ∨ o = op_path OpMapReplace path →
    P groupMapUpsert o;
  emit_map_delete path o : SafeToken path = true → deleteOk path o → P groupMapDel o;
}.

Lemma removeServer_pending c n backend srv n' r :
  removeServer c n backend srv = (n', r) →
  n + countKind OpServerDel (match r with inl ops => ops | inr _ => [] end) ≤ n' ∧
  (n' = n ∨ n' ≤ MaxPendingServerDeletes).
Proof.
  unfold removeServer. intros H.
  assert (∀ o1 o2 o3, Op_Kind o1 = OpServerDisable → Op_Kind o2 = OpServerWaitRemovable →
    Op_Kind o3 = OpServerDel → countKind OpServerDel [o1; o2; o3] = 1) as Hone.
  { intros o1 o2 o3 E1 E2 E3. unfold countKind. rewrite !filter_cons, E1, E2, E3. reflexivity. }
  go_cases; rewrite ?Hone by done; unfold countKind; simpl; lia.
Qed.

Lemma countKind_app kind l k : countKind kind (l ++ k) = countKind kind l + countKind kind k.
Proof. unfold countKind. rewrite filter_app, length_app. lia. Qed.

Lemma mapDelta_ok path prev next : mapOpsOk path (mapDelta path prev next).
Proof. unfold mapDelta. destruct (Map_Ordered next); [apply orderedMapOps_ok|apply unorderedMapOps_ok]. Qed.

Section rules.
Context (e : Env) (Qn Qp : Backend → Prop) (P : nat → Op → Prop) (HP : emits Qn Qp P).

Lemma storeFile_steps path set_ create loaded b :
  set_ ∈ [OpCertSet; OpCertNew; OpCASet; OpCANew] →
  create ∈ [OpCertSet; OpCertNew; OpCASet; OpCANew] →
  bsteps P b (storeFile path set_ create loaded b).
Proof using HP.
  intros Hs Hc. unfold storeFile. destruct (SafeToken path) eqn:Hp; simpl; [|auto with haptic].
  eapply bsteps_l; [apply (bstep_created _ path)|]. apply bsteps_push; [unfold groupCert, groupServerDel; lia|].
  apply Forall_singleton, (emit_cert _ _ _ HP); [done|]. by destruct (_ || _).
Qed.

Lemma diffCRTList_steps path existed b : bsteps P b (diffCRTList e path existed b).
Proof using HP.
  unfold diffCRTList. destruct existed; simpl; [|auto with haptic].
  destruct (Plan_CRTLists (e_prev e) !! path), (Plan_CRTLists (e_next e) !! path);
    auto with haptic.
  destruct (contains _ _); simpl; [|auto with haptic].
  destruct (crtListOps _ _ _) eqn:E; [|auto with haptic].
  apply bsteps_push; [unfold groupCRTList, groupServerDel; lia|]. by eapply (emit_crt _ _ _ HP).
Qed.

Lemma diffCertFile_steps b f : bsteps P b (diffCertFile e b f).
Proof using HP.
  unfold diffCertFile. cbv zeta. destruct (sameFileContent _ _); [auto with haptic|].
  repeat case_bool_decide; try (apply storeFile_steps; set_solver);
    auto using diffCRTList_steps with haptic.
Qed.

Lemma removedCRTList_steps b f : bsteps P b (removedCRTList e b f).
Proof. unfold removedCRTList. destruct (_ && _); auto with haptic. Qed.

Lemma diffCerts_steps b : bsteps P b (diffCerts e b).
Proof using HP.
  unfold diffCerts. etrans; apply bsteps_foldl; intros;
    [apply diffCertFile_steps|apply removedCRTList_steps].
Qed.

Lemma addServers_emits c be servers adds ops :
  Qn be → (∀ s, s ∈ servers → s ∈ Backend_Servers be) →
  Forall (P groupBackendAdd) adds →
  addServers c be servers adds = inl ops → Forall (P groupBackendAdd) ops.
Proof using HP.
  intros Hbe. revert adds. induction servers as [|s servers IH]; intros adds Hs Ha; simpl.
  { by intros [= <-]. }
  destruct (addServer c be s) as [new|] eqn:E; [|done]. apply IH; [set_solver|].
  apply Forall_app. split; [done|].
  eapply Forall_impl; [eapply (emit_new_server _ _ _ HP); [done| |done]; set_solver|]. by intros ? [].
Qed.

Lemma backendAdded_steps be b :
  Qn be → bsteps P b (backendAdded e be b).
Proof using HP.
  intros Hbe. unfold backendAdded. cbv zeta.
  rule_guard H1; [auto with haptic|]. rule_guard H2; [auto with haptic|].
  rule_guard Htok; [auto with haptic|]. rule_guard H3; [auto with haptic|].
  unfold publishNewBackend. destruct (addServers _ _ _ _) eqn:E; [|auto with haptic].
  apply orb_false_iff in Htok as [[Hn Hp]%orb_false_iff Hg].
  apply negb_false_iff in Hn, Hp.
  destruct (emit_new_backend _ _ _ HP be) as [Hadd Hpub]; try done.
  { apply andb_false_iff in Hg as [Hg|Hg]; apply negb_false_iff in Hg; [|by right].
    left. by apply bool_decide_eq_true in Hg. }
  etrans; [|apply bsteps_push]; [etrans; apply bsteps_push| |];
    repeat first [apply Forall_singleton; done
                 | unfold groupBackendAdd, groupBackendPublish, groupServerDel; lia].
  eapply (addServers_emits _ _ (Backend_Servers be) []); eauto.
Qed.

Lemma removeServers_emits c be servers n drains n' r :
  Qp be → (∀ s, s ∈ servers → s ∈ Backend_Servers be) →
  Forall (P groupServerDel) drains →
  removeServers c (Backend_Name be) n servers drains = (n', r) →
  n ≤ n' ∧ (n' = n ∨ n' ≤ MaxPendingServerDeletes) ∧
  (∀ ops, r = inl ops → Forall (P groupServerDel) ops ∧
     n + countKind OpServerDel ops ≤ n' + countKind OpServerDel drains).
Proof using HP.
  intros Hbe. revert n drains. induction servers as [|s servers IH]; intros n drains Hs Hd; simpl.
  { intros [= <- <-]. split_and!; [lia|by left|]. intros ops [= <-]. split; [done|lia]. }
  destruct (removeServer _ _ _ _) as [n1 [new|]] eqn:E;
    pose proof (removeServer_pending _ _ _ _ _ _ E) as [Hn1 ?];
    unfold countKind in Hn1; fold (countKind OpServerDel) in Hn1; simpl in Hn1.
  - intros Hrest. apply IH in Hrest as (? & ? & Hr); [|set_solver|].
    + split_and!; [lia|lia|]. intros ops Hops. destruct (Hr ops Hops) as [? Hc].
      rewrite countKind_app in Hc. unfold countKind in *. split; [done|]. lia.
    + apply Forall_app. split; [done|]. eapply (emit_remove _ _ _ HP); [done| |done]. set_solver.
  - intros [= <- <-]. split_and!; [lia|lia|done].
Qed.

Lemma backendRemoved_steps be b :
  Qp be → bsteps P b (backendRemoved e be b).
Proof using HP.
  intros Hbe. unfold backendRemoved. cbv zeta.
  rule_guard H1; [auto with haptic|]. rule_guard H2; [auto with haptic|].
  rule_guard Hcap; [auto with haptic|]. apply Z.leb_gt in Hcap.
  unfold deleteBackend. destruct (removeServers _ _ _ _ _) as [n r] eqn:E.
  apply (removeServers_emits _ _ (Backend_Servers be)) in E as (? & ? & Hd); [|done..].
  destruct r as [drains|].
  2: { eapply bsteps_l; [by apply (bstep_pending _ n)|]. auto with haptic. }
  destruct (emit_del_backend _ _ _ HP be Hbe) as (Hu & Hw & Hx).
  destruct (Hd _ eq_refl) as [Hdr Hc]. unfold countKind at 2 in Hc. simpl in Hc.
  etrans; [apply (bsteps_push _ groupBackendUnpublish [op_backend OpBackendUnpublish (Backend_Name be)]);
    [unfold groupBackendUnpublish, groupServerDel; lia|by apply Forall_singleton]|].
  eapply bsteps_l; [apply (bstep_server_deletes _ n drains); [done|simpl; lia|done]|].
  apply rtc_once, bstep_backend_delete; [by repeat constructor|by vm_compute|set_solver|done].
Qed.

Lemma pushServerOps_fail_steps g backend server reason b :
  (g < groupCount)%nat → bsteps P b (pushServerOps g backend server (inr reason) b).
Proof.
  intros Hg. eapply bsteps_l; [apply bstep_fail|]. by apply rtc_once, bstep_push.
Qed.

Lemma diffServers_steps prev next b :
  Qp prev → Qn next →
  bsteps P b (diffServers e prev next b).
Proof using HP.
  intros Hp Hn. unfold diffServers. etrans; apply bsteps_foldl.
  - intros b' srv Hs. unfold diffServerNext. cbv zeta.
    set (r := match _ with Some _ => _ | None => _ end).
    destruct r as [ops|reason] eqn:Hr; subst r;
      [|apply pushServerOps_fail_steps; unfold groupServerUpdate, groupCount; lia].
    apply bsteps_push; [unfold groupServerUpdate, groupServerDel; lia|].
    destruct (serverIndex _ !! _).
    + by eapply (emit_update _ _ _ HP).
    + eapply Forall_impl; [by eapply (emit_new_server _ _ _ HP)|]. by intros ? [].
  - intros b' srv Hs. unfold diffServerPrev. destruct (serverIndex _ !! _); [auto with haptic|].
    destruct (removeServer _ _ _ _) as [n r] eqn:E.
    destruct (removeServer_pending _ _ _ _ _ _ E).
    destruct r as [ops|reason].
    + apply rtc_once, bstep_server_deletes; [by eapply (emit_remove _ _ _ HP)|done..].
    + eapply bsteps_l; [apply (bstep_pending _ n); [|done]|].
      * unfold countKind in *. simpl in *. lia.
      * apply pushServerOps_fail_steps. unfold groupServerDel, groupCount. lia.
Qed.

Lemma diffBackendNext_steps b en :
  (∀ be, entry_record en = Some be → Qn be) →
  (∀ en' be, index_backend (e_prevIndex e) (entry_name en) = Some en' →
     entry_record en' = Some be → Qp be) →
  bsteps P b (diffBackendNext e b en).
Proof using HP.
  intros HQn HQp. unfold diffBackendNext.
  destruct (entry_record en) as [next|] eqn:Hr; [|auto with haptic].
  pose proof (HQn next eq_refl) as Hn.
  assert (bsteps P b (backendAdded e next (noteSectionChange true b))) as Hadd.
  { eapply bsteps_l; [apply bstep_section|]. by apply backendAdded_steps. }
  destruct (index_backend _ _) as [[n sec [prev|]]|] eqn:Hidx; [|done..].
  cbv zeta. eapply bsteps_l; [apply bstep_section|].
  unfold backendChanged. cbv zeta. rule_guard H1; [auto with haptic|].
  rule_guard H2; [auto with haptic|]. rule_guard H3; [auto with haptic|].
  rule_guard H4; [auto with haptic|].
  apply diffServers_steps; [by eapply HQp|done].
Qed.

Lemma diffBackendPrev_steps b en :
  (∀ be, entry_record en = Some be → Qp be) → bsteps P b (diffBackendPrev e b en).
Proof using HP.
  intros HQ. unfold diffBackendPrev.
  assert (bsteps P b match entry_record en with
    | Some record => backendRemoved e record (noteSectionChange true b) | None => b end) as Hrem.
  { destruct (entry_record en) as [be|] eqn:Hr; [|auto with haptic].
    eapply bsteps_l; [apply bstep_section|]. apply backendRemoved_steps. by apply HQ. }
  destruct (index_backend _ _) as [[n sec [prev|]]|]; auto with haptic.
Qed.

Lemma diffBackends_steps b :
  (∀ be, inIndex (e_nextIndex e) be → Qn be) → (∀ be, inIndex (e_prevIndex e) be → Qp be) →
  bsteps P b (diffBackends e b).
Proof using HP.
  intros HQn HQp. unfold diffBackends. etrans; apply bsteps_foldl.
  - intros b' en Hen. apply diffBackendNext_steps.
    + intros be Hbe. apply HQn. by exists en.
    + intros en' be H' Hbe. eapply HQp, index_backend_inIndex; done.
  - intros b' en Hen. apply diffBackendPrev_steps. intros be Hbe. apply HQp. by exists en.
Qed.

Lemma diffSectionNext_steps b sec : bsteps P b (diffSectionNext e b sec).
Proof.
  unfold diffSectionNext, sectionAdded, sectionChanged.
  destruct (isBackendSection sec); [auto with haptic|].
  destruct (_ !! _); [destruct (sameSectionText _ _)|]; auto with haptic.
Qed.

Lemma diffSectionPrev_steps b sec : bsteps P b (diffSectionPrev e b sec).
Proof.
  unfold diffSectionPrev, sectionRemoved, profileRemoved. cbv zeta.
  destruct (isBackendSection sec); [auto with haptic|].
  destruct (_ !! _); [auto with haptic|]. destruct (isProfile sec); [|auto with haptic].
  eapply bsteps_l; [apply (bstep_section _ true)|].
  destruct (List.find _ _); [auto with haptic|]. destruct (List.find _ _); auto with haptic.
Qed.

Lemma diffSections_steps b : bsteps P b (diffSections e b).
Proof.
  unfold diffSections. etrans; apply bsteps_foldl; intros;
    [apply diffSectionNext_steps|apply diffSectionPrev_steps].
Qed.

Lemma diffMapName_steps b name : bsteps P b (diffMapName e b name).
Proof using HP.
  unfold diffMapName.
  destruct (_ !! _); [|auto with haptic]. cbv zeta. destruct (_ && _); [auto with haptic|].
  unfold diffMap. cbv zeta. rule_guard H1; [auto with haptic|].
  destruct (SafeToken _) eqn:Hp; simpl; [|auto with haptic].
  unfold pushMapOps. destruct (mapDelta_ok (mapPath m name) (mapEntries (Plan_Maps (e_prev e) !! name)) m)
    as [Hu Hd].
  destruct (whole _).
  - apply bsteps_push; [unfold groupMapUpsert, groupServerDel; lia|].
    apply Forall_singleton. eapply (emit_map_upsert _ _ _ HP); eauto.
  - etrans; apply bsteps_push; try (unfold groupMapUpsert, groupMapDel, groupServerDel; lia).
    + eapply Forall_impl; [exact Hu|]. intros; eapply (emit_map_upsert _ _ _ HP); eauto.
    + eapply Forall_impl; [exact Hd|]. intros; eapply (emit_map_delete _ _ _ HP); eauto.
Qed.

Lemma diffMaps_steps b : bsteps P b (diffMaps e b).
Proof using HP. apply bsteps_foldl. intros. apply diffMapName_steps. Qed.

Lemma diffFileNext_steps b f : bsteps P b (diffFileNext e b f).
Proof. unfold diffFileNext. go_cases; auto with haptic. Qed.

Lemma diffRemovedFile_steps b f : bsteps P b (diffRemovedFile e b f).
Proof. unfold diffRemovedFile. go_cases; auto with haptic. Qed.

Lemma diffFiles_steps b : bsteps P b (diffFiles e b).
Proof.
  unfold diffFiles, diffRemovedFiles. etrans; apply bsteps_foldl; intros;
    [apply diffFileNext_steps|apply diffRemovedFile_steps].
Qed.

Lemma runRules_steps b :
  (∀ be, inIndex (e_nextIndex e) be → Qn be) → (∀ be, inIndex (e_prevIndex e) be → Qp be) →
  bsteps P b (runRules e b).
Proof using HP.
  intros HQn HQp. unfold runRules. etrans; [apply diffCerts_steps|].
  etrans; [by apply diffBackends_steps|]. etrans; [apply diffSections_steps|].
  etrans; [apply diffMaps_steps|apply diffFiles_steps].
Qed.
End rules.
