(* ===== verification/DiffProps.v ===== *)
(** * What a decision promises

    Theorems about [Diff]: it always answers, its verdict, mode, ops and chunks
    agree with each other, every op is one the agent executes, ops come in the
    order that never drops traffic, pending deletes stay under their caps, and
    a verdict other than reload is only given when nothing the running worker
    cannot change has changed. *)

From stdpp Require Import base list list_numbers gmap strings relations sorting.
From S2P Require Import Prelude Api GoStd RenderPlan MapDelta Composer CrtList Index Diff InPlace Rules.

Open Scope Z_scope.

(** ** Kinds per group *)

Definition groupKinds (g : nat) : list string :=
  match g with
  | 0 => [OpBackendAdd; OpServerAdd; OpServerEnable]
  | 1 => [OpServerAdd; OpServerEnable; OpServerSetAddr; OpServerSetWeight; OpServerSetState]
  | 2 => [OpBackendPublish]
  | 3 => [OpMapAdd; OpMapSet; OpMapReplace]
  | 4 => [OpCertSet; OpCertNew; OpCASet; OpCANew]
  | 5 => [OpCRTListAdd; OpCRTListDel]
  | 6 => [OpMapDel]
  | 7 => [OpBackendUnpublish]
  | 8 => [OpServerDisable; OpServerWaitRemovable; OpServerDel]
  | 9 => [OpBackendWaitRemovable; OpBackendDel]
  | _ => []
  end%nat.

(** Decides a closed membership by evaluation. *)
Ltac not_kind := apply (bool_decide_unpack _); vm_compute; exact I.

Definition fits (g : nat) (o : Op) : Prop := Op_Kind o ∈ groupKinds g.

Lemma fits_emits : emits (λ _, True) (λ _, True) fits.
Proof.
  split; unfold fits.
  - intros kind path _ H. done.
  - intros path prev next ops H%crtListOps_ok. eapply Forall_impl; [done|].
    intros o [(e' & -> & _)|(cert & -> & _)]; set_solver.
  - intros be _ _ _ _. split; set_solver.
  - intros c be srv ops _ _ (_ & _ & _ & ->)%addServer_inl.
    destruct (Server_Disabled srv); repeat constructor; set_solver.
  - intros be old srv ops _ _ (_ & _ & addr & weight & state & -> & Ha & Hw & Hs)%updateServer_inl.
    apply Forall_app; split; [|apply Forall_app; split].
    + destruct Ha as [[-> _]|[-> _]]; repeat constructor; set_solver.
    + destruct Hw as [[-> _]|(w & _ & ->)]; repeat constructor; set_solver.
    + destruct Hs as [[-> _]|[[-> _]|[[h [-> _]] _]]]; repeat constructor; set_solver.
  - intros c be n srv n' ops _ _ [_ ->]%removeServer_inl. repeat constructor; set_solver.
  - intros be _. split_and!; set_solver.
  - intros path o _ [(key & value & _ & [[-> _]|[-> _]])| ->]; set_solver.
  - intros path o _ (key & _ & ->). set_solver.
Qed.

(** ** Invariants of the walk *)

(** Everything the rule walk keeps: ten groups of ops of the group's kinds, at
    most [MaxReasons] reasons, a reason whenever a reload is asked for, and the
    delete counters ahead of the deletes composed and under their caps; a backend
    recorded as deleted has its delete composed. *)
Record builder_ok (srv0 be0 : Z) (b : builder) : Prop := MkBuilderOk {
  ok_groups : length (b_groups b) = groupCount;
  ok_fits g ops : b_groups b !! g = Some ops → Forall (fits g) ops;
  ok_reasons : (length (b_reasons b) ≤ MaxReasons)%nat;
  ok_reload : b_reload b = true → b_reasons b ≠ [];
  ok_srv : srv0 + countKind OpServerDel (orderedOps b) ≤ b_pendingServerDeletes b;
  ok_srv_cap : b_pendingServerDeletes b = srv0 ∨ b_pendingServerDeletes b ≤ MaxPendingServerDeletes;
  ok_be : be0 + countKind OpBackendDel (orderedOps b) ≤ b_pendingBackendDeletes b;
  ok_be_cap : b_pendingBackendDeletes b = be0 ∨ b_pendingBackendDeletes b ≤ MaxPendingBackendDeletes;
  ok_deleted name : name ∈ b_deletedByOps b → op_backend OpBackendDel name ∈ orderedOps b;
}.

Lemma newBuilder_ok srv0 be0 : builder_ok srv0 be0 (newBuilder srv0 be0).
Proof.
  assert (∀ kind, countKind kind (orderedOps (newBuilder srv0 be0)) = 0) as Hc by done.
  split; rewrite ?Hc; simpl; try done; [|unfold MaxReasons; lia|lia|by left|lia|by left].
  intros g ops H. change (replicate groupCount [] !! g = Some ops) in H.
  apply lookup_replicate in H as [-> _]. constructor.
Qed.

(** Counting over the groups. *)
Lemma countKind_push kind g ops b :
  (g < length (b_groups b))%nat →
  countKind kind (orderedOps (push g ops b))
  = countKind kind (orderedOps b) + countKind kind ops.
Proof.
  unfold orderedOps. simpl. generalize (b_groups b). intros groups.
  revert g. induction groups as [|x groups IH]; intros g Hg; simpl in Hg; [lia|].
  destruct g as [|g]; simpl.
  - rewrite !countKind_app. lia.
  - rewrite !countKind_app. specialize (IH g ltac:(lia)).
    unfold alter in IH. rewrite IH. lia.
Qed.

Lemma elem_of_push o g ops b :
  (g < length (b_groups b))%nat →
  o ∈ orderedOps (push g ops b) ↔ o ∈ orderedOps b ∨ o ∈ ops.
Proof.
  unfold orderedOps. simpl. generalize (b_groups b). intros groups.
  revert g. induction groups as [|x groups IH]; intros g Hg; simpl in Hg; [lia|].
  destruct g as [|g]; simpl; [set_solver|].
  specialize (IH g ltac:(lia)). unfold alter in IH. set_solver.
Qed.

Lemma countKind_zero kind g ops :
  Forall (fits g) ops → kind ∉ groupKinds g → countKind kind ops = 0.
Proof.
  intros Hf Hk. unfold countKind. rewrite filter_none; [done|].
  eapply Forall_impl; [exact Hf|]. unfold fits. intros o Ho <-. done.
Qed.

Lemma push_fits g ops b :
  (∀ i l, b_groups b !! i = Some l → Forall (fits i) l) → Forall (fits g) ops →
  ∀ i l, b_groups (push g ops b) !! i = Some l → Forall (fits i) l.
Proof.
  intros Hb Ho i l. simpl. destruct (decide (g = i)) as [->|Hne].
  - rewrite list_lookup_alter_eq. intros (l' & Hl' & ->)%fmap_Some.
    apply Forall_app. split; [by apply Hb|done].
  - rewrite list_lookup_alter_ne by done. apply Hb.
Qed.

Lemma push_length g ops b : length (b_groups (push g ops b)) = length (b_groups b).
Proof. apply length_alter. Qed.

Lemma notef_ok srv0 be0 r b : builder_ok srv0 be0 b → builder_ok srv0 be0 (notef r b).
Proof.
  intros [? ? Hr Hl]. unfold notef.
  destruct (MaxReasons <=? length (b_reasons b))%nat eqn:E; [by split|].
  apply Nat.leb_gt in E. split; simpl; try done; rewrite ?length_app; simpl; [lia|].
  intros _. by destruct (b_reasons b).
Qed.

Lemma failf_ok srv0 be0 r b : builder_ok srv0 be0 b → builder_ok srv0 be0 (failf r b).
Proof.
  intros [? ? Hr Hl]. unfold failf, notef.
  change (b_reasons (setReload b)) with (b_reasons b).
  destruct (MaxReasons <=? length (b_reasons b))%nat eqn:E.
  - apply Nat.leb_le in E. split; simpl; try done. intros _ Hn. rewrite Hn in E.
    unfold MaxReasons in E. simpl in E. lia.
  - apply Nat.leb_gt in E. split; simpl; try done; rewrite ?length_app; simpl; [lia|].
    intros _. by destruct (b_reasons b).
Qed.

Lemma bstep_ok srv0 be0 b b' :
  bstep fits b b' → builder_ok srv0 be0 b → builder_ok srv0 be0 b'.
Proof.
  destruct 1 as [g ops b Hg Hf He|r b|r b|c b|path b|n b Hn Hcap|n ops b Hf Hn Hcap
                |name ops b Hf Hc Hin Hcap]; intros Hok;
    [|by apply notef_ok|by apply failf_ok|destruct Hok; split; done|destruct Hok; split; done|..];
    pose proof Hok as [Hlen Hfits ? ? Hs Hsc Hb Hbc Hdel].
  - assert (countKind OpServerDel ops = 0 ∧ countKind OpBackendDel ops = 0) as [E1 E2].
    { destruct (decide (g = groupServerDel ∨ g = groupBackendDel)) as [Hd|Hd]; [by rewrite (He Hd)|].
      split; apply (countKind_zero _ g); try done; unfold groupServerDel, groupBackendDel in Hd;
        do 10 (destruct g as [|g]; [first [lia|not_kind]|]); unfold groupCount in Hg; lia. }
    split; rewrite ?countKind_push, ?push_length by lia; simpl; try done; try lia.
    + by apply push_fits.
    + intros name Hn. apply elem_of_push; [lia|]. left. by apply Hdel.
  - split; simpl; try done; [change (orderedOps (setPendingServerDeletes n b)) with (orderedOps b)|];
      lia.
  - split; rewrite ?countKind_push by (simpl; rewrite Hlen; unfold groupServerDel, groupCount; lia);
      rewrite ?push_length; simpl; try done;
      change (orderedOps (setPendingServerDeletes n b)) with (orderedOps b); try lia.
    + by apply (push_fits groupServerDel ops (setPendingServerDeletes n b)).
    + rewrite (countKind_zero OpBackendDel groupServerDel ops) by (done || not_kind). lia.
    + intros name Hname.
      apply (elem_of_push _ groupServerDel ops (setPendingServerDeletes n b)).
      * simpl. rewrite Hlen. unfold groupServerDel, groupCount. lia.
      * left. by apply Hdel.
  - change (orderedOps (noteBackendDeleted name (push groupBackendDel ops b)))
      with (orderedOps (push groupBackendDel ops b)) in *.
    split; change (orderedOps (noteBackendDeleted name (push groupBackendDel ops b)))
      with (orderedOps (push groupBackendDel ops b));
      rewrite ?countKind_push by (rewrite Hlen; unfold groupBackendDel, groupCount; lia);
      simpl; try done; try lia.
    + by rewrite length_alter.
    + by apply (push_fits groupBackendDel ops b).
    + rewrite (countKind_zero OpServerDel groupBackendDel ops) by (done || not_kind). lia.
    + intros name' Hname. rewrite elem_of_push by (rewrite Hlen; unfold groupBackendDel, groupCount; lia).
      apply elem_of_union in Hname as [->%elem_of_singleton|Hname]; [by right|left; by apply Hdel].
Qed.

Lemma bsteps_ok srv0 be0 b b' :
  bsteps fits b b' → builder_ok srv0 be0 b → builder_ok srv0 be0 b'.
Proof. induction 1; eauto using bstep_ok. Qed.

Lemma diffBuilder_ok next nextIndex base :
  builder_ok (Baseline_PendingServerDeletes base) (Baseline_PendingBackendDeletes base)
    (diffBuilder next nextIndex base).
Proof.
  unfold diffBuilder. cbv zeta. pose proof (newBuilder_ok (Baseline_PendingServerDeletes base)
    (Baseline_PendingBackendDeletes base)) as Hnew.
  destruct (Baseline_Applied base); [|by apply failf_ok].
  destruct (negb _); [by apply failf_ok|].
  eapply bsteps_ok; [by apply (runRules_steps _ _ _ _ fits_emits)|done].
Qed.

(** ** Deciding *)

(** The phases of a runtime batch: what the new state needs, then its
    publication, then routing, then what the old state used. *)
Definition phase (o : Op) : nat :=
  let k := Op_Kind o in
  if contains [OpBackendAdd; OpServerAdd; OpServerEnable; OpServerSetAddr; OpServerSetWeight;
               OpServerSetState] k then 0
  else if contains [OpBackendPublish] k then 1
  else if contains [OpMapAdd; OpMapSet; OpMapReplace] k then 2
  else if contains [OpCertSet; OpCertNew; OpCASet; OpCANew] k then 3
  else if contains [OpCRTListAdd; OpCRTListDel] k then 4
  else if contains [OpMapDel] k then 5
  else if contains [OpBackendUnpublish] k then 6
  else if contains [OpServerDisable; OpServerWaitRemovable; OpServerDel] k then 7
  else 8.

Lemma fits_phase g o : (g < groupCount)%nat → fits g o → phase o = Nat.pred g.
Proof.
  intros Hg Hf. unfold phase. unfold fits in Hf.
  do 10 (destruct g as [|g]; [simpl in Hf; repeat (apply elem_of_cons in Hf as [->|Hf]; [done|]);
    by apply elem_of_nil in Hf|]). unfold groupCount in Hg. lia.
Qed.

Lemma groups_sorted (groups : list (list Op)) (n : nat) :
  (∀ g ops, groups !! g = Some ops → Forall (λ o, phase o = Nat.pred (n + g)) ops) →
  StronglySorted (λ a b, (phase a ≤ phase b)%nat) (concat groups).
Proof.
  revert n. induction groups as [|x groups IH]; intros n Hg; [constructor|]. simpl.
  assert (∀ o, o ∈ concat groups → (Nat.pred n ≤ phase o)%nat) as Hlater.
  { intros o Ho. apply list_elem_of_In, in_concat in Ho as (ops & Hops & Ho).
    apply list_elem_of_In, list_elem_of_lookup in Hops as [g Hgr].
    specialize (Hg (S g) ops Hgr). rewrite Forall_forall in Hg.
    rewrite (Hg o) by by apply list_elem_of_In. lia. }
  assert (Forall (λ o, phase o = Nat.pred n) x) as Hx.
  { specialize (Hg 0%nat x eq_refl). by rewrite Nat.add_0_r in Hg. }
  assert (StronglySorted (λ a b, (phase a ≤ phase b)%nat) (concat groups)) as Hrest.
  { apply (IH (S n)). intros g ops H. specialize (Hg (S g) ops H). by rewrite Nat.add_succ_r in Hg. }
  clear IH Hg. induction x as [|o x IHx]; [done|]. apply Forall_cons in Hx as [Ho Hx].
  constructor; [by apply IHx|]. apply Forall_app. split.
  - eapply Forall_impl; [exact Hx|]. simpl. intros; lia.
  - apply Forall_forall. intros o' Ho'. apply Hlater in Ho'. lia.
Qed.

Lemma orderedOps_sorted srv0 be0 b :
  builder_ok srv0 be0 b → StronglySorted (λ a b, (phase a ≤ phase b)%nat) (orderedOps b).
Proof.
  intros Hok. apply (groups_sorted _ 0). intros g ops H.
  eapply Forall_impl; [by eapply ok_fits|]. intros o. apply fits_phase.
  rewrite <-(ok_groups _ _ _ Hok). by eapply lookup_lt_Some.
Qed.

Lemma orderedOps_composed srv0 be0 b :
  builder_ok srv0 be0 b → Forall (λ o, Op_Kind o ∈ composedOps) (orderedOps b).
Proof.
  intros Hok. apply Forall_concat, Forall_forall. intros ops [g Hg]%list_elem_of_lookup.
  pose proof (lookup_lt_Some _ _ _ Hg) as Hlt. rewrite (ok_groups _ _ _ Hok) in Hlt.
  eapply Forall_impl; [by eapply ok_fits|]. unfold fits. intros o Ho.
  assert (groupKinds g ⊆ composedOps) as Hsub; [|by apply Hsub].
  do 10 (destruct g as [|g]; [not_kind|]). unfold groupCount in Hlt. lia.
Qed.

Section decisions.
Context (digestString : string → string) (encodeOps : list Op → string).

Section decide.
Context (nested : Plan → Index → Baseline → option Decision).

(** What [inPlaceOps] answers. *)
Lemma inPlaceOps_inv base next nextIndex b ip wp :
inPlaceOps digestString encodeOps nested base next nextIndex b = Some (ip, wp) →
(length ip ≤ MaxOpsPerApply)%nat ∧
Forall (λ o, Op_Kind o ∈ inPlaceKinds ∧ executes (Baseline_Caps base) (Op_Kind o) = true) ip ∧
(ip = [] ∧ wp = None ∨
 ip ≠ [] ∧ (Baseline_ReloadPending base || b_reload b = true) ∧
 ∃ worker, Baseline_WorkerOps base = Some worker ∧
   wp = Some (workerAfter digestString encodeOps worker next ip)).
Proof.
unfold inPlaceOps. cbv zeta. intros H.
assert (Some (@nil Op, @None Plan) = Some (ip, wp) →
  (length ip ≤ MaxOpsPerApply)%nat ∧
  Forall (λ o, Op_Kind o ∈ inPlaceKinds ∧ executes (Baseline_Caps base) (Op_Kind o) = true) ip ∧
  (ip = [] ∧ wp = None ∨ ip ≠ [] ∧ (Baseline_ReloadPending base || b_reload b = true) ∧
   ∃ worker, Baseline_WorkerOps base = Some worker ∧
     wp = Some (workerAfter digestString encodeOps worker next ip))) as Hnone.
{ intros [= <- <-]. split_and!; [simpl; lia|constructor|by left]. }
destruct (negb _ && negb _) eqn:Hidle; [by apply Hnone|].
destruct (Baseline_WorkerOps base) as [worker|]; [|by apply Hnone].
destruct (inPlaceMapOps _ _ _ _ _) as [mops|]; simpl in H; [|done].
set (kept := take _ _) in H. destruct (bool_decide (kept = [])) eqn:Hk; [by apply Hnone|].
injection H as <- <-. apply bool_decide_eq_false in Hk. split_and!.
- unfold kept. rewrite length_take. lia.
- unfold kept. apply Forall_take, Forall_forall. intros o [Ho _]%list_elem_of_filter.
  apply Is_true_true, andb_true_iff in Ho as [Hc He]. split; [|done].
  by apply bool_decide_eq_true in Hc.
- right. split_and!; [done| |by eexists].
  destruct (Baseline_ReloadPending base), (b_reload b); done.
Qed.

Lemma unsupportedKind_Some caps ops kind :
unsupportedKind caps ops = Some kind → ¬ Forall (λ o, executes caps (Op_Kind o) = true) ops.
Proof.
unfold unsupportedKind. destruct (Caps_AgentOps caps); [|done].
intros (o & Hf & _)%fmap_Some Hall. apply List.find_some in Hf as [Hin Hneg].
rewrite Forall_forall in Hall. rewrite Hall in Hneg by by apply list_elem_of_In. done.
Qed.

Lemma unsupportedKind_None caps ops :
unsupportedKind caps ops = None → Forall (λ o, executes caps (Op_Kind o) = true) ops.
Proof.
unfold unsupportedKind, executes. destruct (Caps_AgentOps caps) as [m|].
- intros H. apply fmap_None in H. apply Forall_forall. intros o Ho.
  apply list_elem_of_In in Ho. apply (List.find_none _ _ H) in Ho.
  by apply negb_false_iff in Ho.
- intros _. by apply Forall_true.
Qed.

(** A decision in terms of the builder it was made from. *)
Definition decided (base : Baseline) (next : Plan) (b : builder) (d : Decision) : Prop :=
(Decision_Verdict d = VerdictReload ∧ Decision_Mode d = ModeReload ∧ Decision_Ops d = [] ∧
 Decision_Chunks d = 0%nat ∧ Decision_Reasons d ≠ [] ∧
 (b_reload b = true
  ∨ ¬ Forall (λ o, executes (Baseline_Caps base) (Op_Kind o) = true) (orderedOps b)
  ∨ (MaxChunks < chunkCount (length (orderedOps b)) (length (Decision_InPlace d)))%nat))
∨ (b_reload b = false ∧ Decision_Mode d = ModeAuto ∧ Decision_Reasons d = b_reasons b ∧
   Decision_Ops d = orderedOps b ∧
   Decision_Chunks d = chunkCount (length (Decision_Ops d)) (length (Decision_InPlace d)) ∧
   (Decision_Chunks d ≤ MaxChunks)%nat ∧
   Forall (λ o, executes (Baseline_Caps base) (Op_Kind o) = true) (orderedOps b) ∧
   (Decision_Verdict d = VerdictFileOnly ∧ orderedOps b = []
    ∨ Decision_Verdict d = VerdictRuntime ∧ orderedOps b ≠ [])).

Lemma decide_inv srv0 be0 base next nextIndex b d :
builder_ok srv0 be0 b →
decide_ digestString encodeOps nested base next nextIndex b = Some d →
decided base next b d ∧ (length (Decision_Reasons d) ≤ MaxReasons)%nat ∧
Decision_Files d = Files (Some next) ∧
(length (Decision_InPlace d) ≤ MaxOpsPerApply)%nat ∧
Forall (λ o, Op_Kind o ∈ inPlaceKinds ∧ executes (Baseline_Caps base) (Op_Kind o) = true)
  (Decision_InPlace d) ∧
(Decision_InPlace d = [] ∧ Decision_WorkerPlan d = None ∨
 Decision_InPlace d ≠ [] ∧
 (Baseline_ReloadPending base = true ∨ Decision_Verdict d = VerdictReload) ∧
 ∃ worker, Baseline_WorkerOps base = Some worker ∧
   Decision_WorkerPlan d
   = Some (workerAfter digestString encodeOps worker next (Decision_InPlace d))).
Proof.
intros Hok. unfold decide_. cbv zeta. set (b1 := match unsupportedKind _ _ with Some _ => _ | None => _ end).
assert (builder_ok srv0 be0 b1) as Hok1
  by (unfold b1; destruct (unsupportedKind _ _); [by apply failf_ok|done]).
destruct (inPlaceOps _ _ _ _ _ _ _) as [[ip wp]|] eqn:Hip; [|done]. cbn [mbind option_bind].
set (n := chunkCount _ _). set (b2 := if (MaxChunks <? n)%nat then _ else b1).
assert (builder_ok srv0 be0 b2) as Hok2 by (unfold b2; destruct (MaxChunks <? n)%nat; [by apply failf_ok|done]).
apply inPlaceOps_inv in Hip as (Hlen & Hkinds & Hwp).
assert (∀ r b, b_reload (failf r b) = true) as Hfail.
{ intros r b'. unfold failf, notef.
  by destruct (MaxReasons <=? length (b_reasons (setReload b')))%nat. }
intros [= <-]. destruct (b_reload b2) eqn:Hreload; simpl.
{ pose proof (ok_reload _ _ _ Hok2 Hreload). pose proof (ok_reasons _ _ _ Hok2).
  assert (b_reload b = true
    ∨ ¬ Forall (λ o, executes (Baseline_Caps base) (Op_Kind o) = true) (orderedOps b)
    ∨ (MaxChunks < n)%nat) as Hwhy.
  { unfold b2 in Hreload. destruct (MaxChunks <? n)%nat eqn:E;
      [apply Nat.ltb_lt in E; tauto|]. unfold b1 in Hreload.
    destruct (unsupportedKind _ _) eqn:Eu; [|tauto]. right; left.
    by apply unsupportedKind_Some in Eu. }
  split_and!; [by left|done..|]. destruct Hwp as [[-> ->]|(? & _ & Hw)]; [by left|].
  right. split_and!; [done|by right|done]. }
assert ((n ≤ MaxChunks)%nat ∧ b2 = b1) as [Hn E2].
{ unfold b2 in *. destruct (MaxChunks <? n)%nat eqn:E; [by rewrite Hfail in Hreload|].
  apply Nat.ltb_ge in E. done. }
assert (unsupportedKind (Baseline_Caps base) (orderedOps b) = None ∧ b1 = b) as [Hun E1].
{ rewrite E2 in Hreload. unfold b1 in *. destruct (unsupportedKind _ _);
    [by rewrite Hfail in Hreload|done]. }
rewrite E2, E1 in *. apply unsupportedKind_None in Hun. pose proof (ok_reasons _ _ _ Hok).
destruct (bool_decide (orderedOps b = [])) eqn:He;
  [apply bool_decide_eq_true in He|apply bool_decide_eq_false in He]; simpl;
  (split_and!; [right|done..|destruct Hwp as [[-> ->]|(? & Hr & Hw)];
     [by left|right; split_and!; [done| |done]; left; rewrite Hreload, orb_false_r in Hr; done]]).
- split_and!; try done; first [by left|apply Nat.le_0_l].
- split_and!; try done. by right.
Qed.
End decide.

Lemma diffFuel_inv fuel next nextIndex base d :
  diffFuel digestString encodeOps fuel next nextIndex base = Some d →
  ∃ nested, diffStep digestString encodeOps nested next nextIndex base = Some d.
Proof. destruct fuel; [done|]. simpl. eauto. Qed.

(** A nested diff has no worker-ops baseline, so one level answers it. *)
Lemma diffStep_leaf next nextIndex base :
  Baseline_WorkerOps base = None →
  ∃ d, ∀ nested, diffStep digestString encodeOps nested next nextIndex base = Some d.
Proof.
  intros Hw. unfold diffStep, decide_. cbv zeta. unfold inPlaceOps. rewrite Hw.
  destruct (negb _ && negb _); simpl; eauto.
Qed.

Lemma diffFuel_enough fuel fuel' next nextIndex base :
  (2 ≤ fuel)%nat → (2 ≤ fuel')%nat →
  is_Some (diffFuel digestString encodeOps fuel next nextIndex base) ∧
  diffFuel digestString encodeOps fuel next nextIndex base
  = diffFuel digestString encodeOps fuel' next nextIndex base.
Proof.
  intros Hf Hf'. destruct fuel as [|[|fuel]]; [lia..|]. destruct fuel' as [|[|fuel']]; [lia..|].
  set (n1 := diffFuel digestString encodeOps (S fuel)).
  set (n2 := diffFuel digestString encodeOps (S fuel')).
  change (is_Some (diffStep digestString encodeOps n1 next nextIndex base) ∧
    diffStep digestString encodeOps n1 next nextIndex base
    = diffStep digestString encodeOps n2 next nextIndex base).
  assert (∀ worker, ∃ d, n1 next nextIndex (workerBaseline base worker) = Some d
    ∧ n2 next nextIndex (workerBaseline base worker) = Some d) as Hleaf.
  { intros worker.
    destruct (diffStep_leaf next nextIndex (workerBaseline base worker) eq_refl) as [d Hd].
    exists d. split; apply Hd. }
  unfold diffStep, decide_, inPlaceOps, inPlaceMapOps. cbv zeta.
  destruct (negb _ && negb _); [simpl; eauto|].
  destruct (Baseline_WorkerOps base) as [worker|]; [|simpl; eauto].
  destruct (addsBackends _ _); [simpl|].
  - repeat (destruct (bool_decide _); simpl; [eauto|]); eauto.
  - destruct (Hleaf worker) as (d & -> & ->). simpl.
    repeat (destruct (bool_decide _); simpl); eauto.
Qed.

(** A decision of [Diff] on a render that is there, back to its builder. *)
Lemma Diff_inv fuel next nextIndex base d :
  DiffIndexed digestString encodeOps fuel (Some next) nextIndex base = Some d →
  let base := default emptyBaseline base in
  let index := default (IndexPlan next) nextIndex in
  decided base next (diffBuilder next index base) d ∧
  (length (Decision_Reasons d) ≤ MaxReasons)%nat ∧
  Decision_Files d = Files (Some next) ∧
  (length (Decision_InPlace d) ≤ MaxOpsPerApply)%nat ∧
  Forall (λ o, Op_Kind o ∈ inPlaceKinds ∧ executes (Baseline_Caps base) (Op_Kind o) = true)
    (Decision_InPlace d) ∧
  (Decision_InPlace d = [] ∧ Decision_WorkerPlan d = None ∨
   Decision_InPlace d ≠ [] ∧
   (Baseline_ReloadPending base = true ∨ Decision_Verdict d = VerdictReload) ∧
   ∃ worker, Baseline_WorkerOps base = Some worker ∧
     Decision_WorkerPlan d
     = Some (workerAfter digestString encodeOps worker next (Decision_InPlace d))).
Proof.
  intros [nested H]%diffFuel_inv. cbv zeta. eapply decide_inv; [apply diffBuilder_ok|exact H].
Qed.

(** C21: a diff always answers, whatever the plans and the baseline are: its only
    recursive call asks a baseline that makes none, so two levels are enough and
    more levels never change the decision. *)
Theorem diff_total fuel next nextIndex base :
  is_Some (DiffIndexed digestString encodeOps 2 next nextIndex base) ∧
  DiffIndexed digestString encodeOps (2 + fuel) next nextIndex base
  = DiffIndexed digestString encodeOps 2 next nextIndex base.
Proof.
  destruct next as [next|]; [|simpl; eauto]. split.
  - by apply (diffFuel_enough 2 2).
  - by apply diffFuel_enough; lia.
Qed.

(** the parts of a decision agree. The mode is reload exactly for a reload
    verdict, ops are shipped exactly for a runtime verdict and in as many batches
    as announced, never more than one apply takes; a reload always gives its
    reason, reasons are capped, and the worker's next baseline is set exactly
    when in-place ops are. *)
Theorem decision_consistent fuel next nextIndex base d :
  DiffIndexed digestString encodeOps fuel next nextIndex base = Some d →
  (Decision_Mode d = ModeReload ↔ Decision_Verdict d = VerdictReload) ∧
  (Decision_Mode d = ModeAuto ↔ Decision_Verdict d ≠ VerdictReload) ∧
  (Decision_Ops d ≠ [] ↔ Decision_Verdict d = VerdictRuntime) ∧
  Decision_Chunks d = length (Chunk d) ∧ (Decision_Chunks d ≤ MaxChunks)%nat ∧
  (Decision_Verdict d = VerdictReload → Decision_Reasons d ≠ []) ∧
  (length (Decision_Reasons d) ≤ MaxReasons)%nat ∧
  (Decision_WorkerPlan d = None ↔ Decision_InPlace d = []) ∧
  Decision_Files d = Files next.
Proof.
  destruct next as [next|].
  2: { intros [= <-]. simpl. unfold MaxChunks, MaxReasons.
       split_and!; try done; try lia; by split. }
  intros (Hd & Hr & Hf & _ & _ & Hw)%Diff_inv.
  assert (Decision_WorkerPlan d = None ↔ Decision_InPlace d = []) as Hwp.
  { destruct Hw as [[-> ->]|(? & _ & ? & _ & ->)]; [done|]. by split. }
  destruct Hd as [(Hv & Hm & Ho & Hc & Hn & _)|(_ & Hm & _ & Ho & Hc & Hmax & _ & Hv)].
  - rewrite Hv, Hm, Ho, Hc. unfold Chunk. rewrite Ho.
    split_and!; try done; first [by split|apply Nat.le_0_l].
  - assert (Decision_Chunks d = length (Chunk d)) as <-.
    { rewrite Hc. destruct (decide (Decision_Ops d = [])) as [E|E].
      - unfold Chunk. by rewrite E.
      - by destruct (Chunk_batches d E) as (? & _ & _ & _ & ->). }
    destruct Hv as [[Hv He]|[Hv He]]; rewrite Hv, Hm;
      (split_and!; try done; try (by split)); rewrite Ho; split; by intros.
Qed.

(** C15: runtime ops come in the order that never drops traffic: everything the
    new state needs is created, then published, then routed to, before anything
    the old state used is unpublished, drained and deleted. *)
Theorem runtime_ops_ordered fuel next nextIndex base d :
  DiffIndexed digestString encodeOps fuel next nextIndex base = Some d →
  StronglySorted (λ a b, (phase a ≤ phase b)%nat) (Decision_Ops d).
Proof.
  destruct next as [next|]; [|intros [= <-]; constructor].
  intros (Hd & _)%Diff_inv. destruct Hd as [(_ & _ & -> & _)|(_ & _ & _ & -> & _)].
  - constructor.
  - eapply orderedOps_sorted, diffBuilder_ok.
Qed.

(** C19: a decision never ships an op its agent cannot run: every runtime op is a
    kind the controller composes and the agent advertises, every in-place op is
    one that survives the pending reload and that the agent advertises, and the
    in-place batch alone fits one apply. *)
Theorem ops_executable fuel next nextIndex base d :
  DiffIndexed digestString encodeOps fuel next nextIndex (Some base) = Some d →
  Forall (λ o, Op_Kind o ∈ composedOps ∧ executes (Baseline_Caps base) (Op_Kind o) = true)
    (Decision_Ops d) ∧
  Forall (λ o, Op_Kind o ∈ inPlaceKinds ∧ executes (Baseline_Caps base) (Op_Kind o) = true)
    (Decision_InPlace d) ∧
  (length (Decision_InPlace d) ≤ MaxOpsPerApply)%nat.
Proof.
  destruct next as [next|]; [|intros [= <-]; split_and!; [constructor..|apply Nat.le_0_l]].
  intros (Hd & _ & _ & Hlen & Hip & _)%Diff_inv. split_and!; [|done..].
  destruct Hd as [(_ & _ & -> & _)|(_ & _ & _ & -> & _ & _ & Hex & _)]; [constructor|].
  apply Forall_and. split; [|done]. eapply orderedOps_composed, diffBuilder_ok.
Qed.

(** The deletes a decision ships, on top of those the pod already has
    pending, never exceed what the agent queues. *)
Theorem pending_deletes_capped fuel next nextIndex base d :
  DiffIndexed digestString encodeOps fuel next nextIndex (Some base) = Some d →
  Baseline_PendingServerDeletes base ≤ MaxPendingServerDeletes →
  Baseline_PendingBackendDeletes base ≤ MaxPendingBackendDeletes →
  Baseline_PendingServerDeletes base + countKind OpServerDel (Decision_Ops d)
    ≤ MaxPendingServerDeletes ∧
  Baseline_PendingBackendDeletes base + countKind OpBackendDel (Decision_Ops d)
    ≤ MaxPendingBackendDeletes.
Proof.
  destruct next as [next|]; [|intros [= <-]; unfold countKind; simpl; lia].
  intros (Hd & _)%Diff_inv Hs Hb. destruct Hd as [(_ & _ & -> & _)|(_ & _ & _ & -> & _)].
  - unfold countKind. simpl. lia.
  - destruct (diffBuilder_ok next (default (IndexPlan next) nextIndex) base) as [].
    simpl in *. lia.
Qed.

(** C20: the batches of a decision make a manifest the agent accepts: with the
    first batch as its ops, the rest as op batches and the decision's in-place
    ops, the batch budgets hold and the agent runs exactly the decision's ops in
    their order. *)
Theorem chunks_fit_manifest fuel next nextIndex base d m :
  DiffIndexed digestString encodeOps fuel next nextIndex base = Some d →
  Manifest_Ops m :: Manifest_OpBatches m
    = (if bool_decide (Chunk d = []) then [[]] else Chunk d) →
  Manifest_InPlaceOps m = Decision_InPlace d →
  ValidateOpBatches m = None ∧ RuntimeOps m = Decision_Ops d.
Proof.
  intros Hd Hm Hip.
  assert ((length (Decision_InPlace d) ≤ MaxOpsPerApply)%nat ∧
    (Decision_Ops d ≠ [] → (length (Chunk d) ≤ MaxChunks)%nat)) as [Hlen Hmax].
  { destruct next as [next|]; [|injection Hd as <-; split; [apply Nat.le_0_l|done]].
    apply Diff_inv in Hd as (Hd & _ & _ & Hlen & _). split; [done|]. intros Hne.
    destruct (Chunk_batches d Hne) as (rest & _ & _ & _ & ->).
    destruct Hd as [(_ & _ & ? & _)|(_ & _ & _ & _ & <- & Hmax & _)]; [done|]. done. }
  rewrite RuntimeOps_concat, Hm. unfold ValidateOpBatches. rewrite Hip.
  destruct (decide (Decision_Ops d = [])) as [E|Hne].
  { assert (Chunk d = []) as HC by (unfold Chunk; by rewrite E). rewrite HC in *.
    rewrite bool_decide_eq_true_2 in * by done. injection Hm as -> ->. rewrite E. cbv zeta.
    cbn [length Nat.add]. destruct (MaxOpsPerApply <? length _)%nat eqn:El; [|done].
    apply Nat.ltb_lt in El. lia. }
  destruct (Chunk_batches d Hne) as (rest & HC & Hcat & Hall & Hcount).
  rewrite bool_decide_eq_false_2 in * by by rewrite HC.
  split; [|done]. specialize (Hmax Hne). rewrite HC in Hm, Hmax. injection Hm as -> ->.
  cbv zeta. destruct (MaxOpsPerApply <? _)%nat eqn:El.
  { apply Nat.ltb_lt in El. rewrite length_take in El. lia. }
  destruct (MaxOpBatches <=? length rest)%nat eqn:Er.
  { apply Nat.leb_le in Er. cbn [length] in Hmax. unfold MaxChunks in Hmax. lia. }
  by apply validateBatches_None.
Qed.
End decisions.
