(* ===== verification/Guards.v ===== *)
(** * Which changes a verdict other than reload admits

    The section guard, the file rules and the crt-list rules of [diff.go] and
    [certs.go], read backwards: what must be the same in two plans whenever the
    diff between them does not ask for a reload, and that a plan diffed against
    itself asks for nothing. *)

From stdpp Require Import base list list_numbers gmap strings relations.
From S2P Require Import Prelude Api GoStd RenderPlan MapDelta Composer CrtList Index Diff InPlace Rules DiffProps.

Open Scope Z_scope.

(** ** The reload flag never goes back *)

Lemma failf_reload r b : b_reload (failf r b) = true.
Proof.
  unfold failf, notef. by destruct (MaxReasons <=? length (b_reasons (setReload b)))%nat.
Qed.

Lemma notef_reload r b : b_reload (notef r b) = b_reload b.
Proof. unfold notef. by destruct (MaxReasons <=? length (b_reasons b))%nat. Qed.

Lemma bstep_reload P b b' : bstep P b b' → b_reload b = true → b_reload b' = true.
Proof. destruct 1; simpl; rewrite ?failf_reload, ?notef_reload; done. Qed.

Lemma bsteps_reload P b b' : bsteps P b b' → b_reload b' = false → b_reload b = false.
Proof.
  induction 1 as [|b b1 b2 Hstep _ IH]; [done|]. intros H%IH.
  destruct (b_reload b) eqn:E; [|done]. by rewrite (bstep_reload _ _ _ Hstep E) in H.
Qed.

(** A loop that ends without a reload ran every iteration without one. *)
Lemma foldl_noreload {A} (f : builder → A → builder) P l b :
  (∀ b x, x ∈ l → bsteps P b (f b x)) → b_reload (foldl f b l) = false →
  ∀ x, x ∈ l → ∃ b', bsteps P b b' ∧ b_reload (f b' x) = false ∧ bsteps P (f b' x) (foldl f b l).
Proof.
  revert b. induction l as [|y l IH]; intros b Hf Hr x Hx; [by apply not_elem_of_nil in Hx|].
  simpl in *. apply elem_of_cons in Hx as [->|Hx].
  - exists b. assert (bsteps P (f b y) (foldl f (f b y) l)) as Hrest
      by (apply bsteps_foldl; intros; apply Hf; by right).
    split; [constructor|]. split; [by eapply bsteps_reload|done].
  - destruct (IH (f b y)) with (x := x) as (b' & Hb & Hrel & Hrest); [by intros; apply Hf; right|done..|].
    exists b'. split; [|done]. etrans; [apply (Hf b y); by left|done].
Qed.

Lemma bsteps_deleted P b b' name :
  bsteps P b b' → name ∈ b_deletedByOps b → name ∈ b_deletedByOps b'.
Proof.
  induction 1 as [|b b1 b2 Hstep _ IH]; [done|]. intros H. apply IH.
  destruct Hstep; simpl; try done; [..|set_solver].
  - unfold notef. by destruct (MaxReasons <=? _)%nat.
  - unfold failf, notef. by destruct (MaxReasons <=? _)%nat.
Qed.

(** ** Sections *)

Section sections.
Context (e : Env).

Lemma sectionNext_noreload b sec :
  b_reload (diffSectionNext e b sec) = false → isBackendSection sec = false →
  ∃ old, index_sections (e_prevIndex e) !! sectionKey sec = Some old ∧
    sameSectionText (Some old) (Some sec) = true.
Proof.
  unfold diffSectionNext, sectionAdded, sectionChanged. intros H Hb. rewrite Hb in H.
  destruct (index_sections _ !! _) as [old|]; [|by rewrite failf_reload in H].
  destruct (sameSectionText _ _) eqn:E; [by exists old|by rewrite failf_reload in H].
Qed.

(** A removed section that forced no reload is a profile nothing uses any more. *)
Definition profileReleased (name : string) (b : builder) : Prop :=
  (∀ en, en ∈ index_backends (e_nextIndex e) → usesProfile name en = false) ∧
  (∀ en, en ∈ index_backends (e_prevIndex e) → usesProfile name en = true →
     entry_name en ∈ b_deletedByOps b).

Lemma sectionPrev_noreload b sec :
  b_reload (diffSectionPrev e b sec) = false → isBackendSection sec = false →
  is_Some (index_sections (e_nextIndex e) !! sectionKey sec) ∨
  (isProfile sec = true ∧ profileReleased (Section_Name sec) b).
Proof.
  unfold diffSectionPrev, sectionRemoved. cbv zeta. intros H Hb. rewrite Hb in H.
  destruct (index_sections _ !! _) as [new|]; [left; by eexists|]. right.
  destruct (isProfile sec); [|by rewrite failf_reload in H]. split; [done|].
  unfold profileRemoved in H.
  destruct (List.find _ _) eqn:E1; [by rewrite failf_reload in H|].
  destruct (List.find _ (index_backends (e_prevIndex e))) eqn:E2; [by rewrite failf_reload in H|].
  split.
  - intros en Hen. apply (List.find_none _ _ E1). by apply list_elem_of_In.
  - intros en Hen Huse. apply list_elem_of_In in Hen. apply (List.find_none _ _ E2) in Hen.
    rewrite Huse in Hen. simpl in Hen. split_bools. by apply (Hen).
Qed.
End sections.

(** ** Files *)

Section files.
Context (e : Env).

Lemma fileNext_noreload b f :
  b_reload (diffFileNext e b f) = false →
  PlanFile_ReloadOnChange f = true → PlanFile_Kind f ≠ FileKindConfig →
  sameFileContent (index_files (e_prevIndex e) !! PlanFile_Path f) (Some f) = true.
Proof.
  unfold diffFileNext. intros H Hrel Hk. destruct (sameFileContent _ _); [done|].
  rewrite bool_decide_eq_false_2 in H by done. rewrite Hrel in H. cbn iota in H.
  by rewrite failf_reload in H.
Qed.

Lemma removedFile_noreload b f :
  b_reload (diffRemovedFile e b f) = false →
  PlanFile_ReloadOnChange f = true → PlanFile_Kind f ≠ FileKindCRTList →
  is_Some (index_files (e_nextIndex e) !! PlanFile_Path f).
Proof.
  unfold diffRemovedFile. intros H Hrel Hk. case_bool_decide as Hs; [done|].
  rewrite bool_decide_eq_false_2 in H by done. rewrite Hrel in H. cbn [orb] in H.
  by rewrite failf_reload in H.
Qed.

Lemma certFile_noreload b f :
  b_reload (diffCertFile e b f) = false → PlanFile_Kind f = FileKindCRTList →
  is_Some (index_files (e_prevIndex e) !! PlanFile_Path f).
Proof.
  unfold diffCertFile. cbv zeta. intros H Hk.
  destruct (index_files _ !! _); [by eexists|]. simpl in H.
  rewrite Hk in H. rewrite !bool_decide_eq_false_2, bool_decide_eq_true_2 in H by done.
  unfold diffCRTList in H. cbn [negb] in H. by rewrite failf_reload in H.
Qed.

Lemma removedCRTList_noreload b f :
  b_reload (removedCRTList e b f) = false → PlanFile_Kind f = FileKindCRTList →
  is_Some (index_files (e_nextIndex e) !! PlanFile_Path f).
Proof.
  unfold removedCRTList. intros H Hk. destruct (index_files _ !! _); [by eexists|].
  rewrite !bool_decide_eq_true_2 in H by done. cbn [andb] in H. by rewrite failf_reload in H.
Qed.
End files.

(** ** The whole walk *)

Section walk.
Context (e : Env) (b : builder).
Hypothesis Hnoreload : b_reload (runRules e b) = false.

Lemma runRules_noreload :
  b_reload (diffCerts e b) = false ∧
  b_reload (diffBackends e (diffCerts e b)) = false ∧
  b_reload (diffSections e (diffBackends e (diffCerts e b))) = false ∧
  b_reload (diffMaps e (diffSections e (diffBackends e (diffCerts e b)))) = false.
Proof using Hnoreload.
  pose proof Hnoreload as H. unfold runRules in H.
  eapply bsteps_reload in H as H4; [|apply (diffFiles_steps e fits)].
  eapply bsteps_reload in H4 as H3; [|apply (diffMaps_steps e _ _ fits fits_emits)].
  eapply bsteps_reload in H3 as H2; [|apply (diffSections_steps e fits)].
  eapply bsteps_reload in H2 as H1; [|by apply (diffBackends_steps e _ _ fits fits_emits)].
  done.
Qed.

Lemma walk_sections_next sec :
  sec ∈ Plan_Sections (e_next e) → isBackendSection sec = false →
  ∃ old, index_sections (e_prevIndex e) !! sectionKey sec = Some old ∧
    sameSectionText (Some old) (Some sec) = true.
Proof using Hnoreload.
  intros Hsec Hb. destruct runRules_noreload as (_ & _ & H & _). unfold diffSections in H.
  eapply bsteps_reload in H; [|apply (bsteps_foldl fits); intros; apply diffSectionPrev_steps].
  eapply (foldl_noreload _ fits) in H as (b' & _ & H & _); [| |exact Hsec].
  - by eapply sectionNext_noreload.
  - intros. apply diffSectionNext_steps.
Qed.

Lemma walk_sections_prev sec :
  sec ∈ Plan_Sections (e_prev e) → isBackendSection sec = false →
  is_Some (index_sections (e_nextIndex e) !! sectionKey sec) ∨
  (isProfile sec = true ∧ profileReleased e (Section_Name sec) (runRules e b)).
Proof using Hnoreload.
  intros Hsec Hb. destruct runRules_noreload as (_ & _ & H & _). unfold diffSections in H.
  eapply (foldl_noreload _ fits) in H as (b' & _ & H & Hrest);
    [| |exact Hsec]; [|intros; apply diffSectionPrev_steps].
  apply sectionPrev_noreload in H as Hk; [|done]. destruct Hk as [?|[? [Hn Hp]]]; [by left|].
  right. split; [done|]. split; [done|]. intros en Hen Huse. specialize (Hp en Hen Huse).
  eapply bsteps_deleted; [|eapply bsteps_deleted; [apply (diffSectionPrev_steps e fits)|exact Hp]].
  etrans; [exact Hrest|]. unfold runRules.
  etrans; [apply (diffMaps_steps e _ _ fits fits_emits)|apply diffFiles_steps].
Qed.

Lemma walk_files_next f :
  f ∈ Plan_Files (e_next e) → PlanFile_ReloadOnChange f = true →
  PlanFile_Kind f ≠ FileKindConfig →
  sameFileContent (index_files (e_prevIndex e) !! PlanFile_Path f) (Some f) = true.
Proof using Hnoreload.
  intros Hf Hrel Hk. pose proof Hnoreload as H. unfold runRules, diffFiles, diffRemovedFiles in H.
  eapply bsteps_reload in H; [|apply (bsteps_foldl fits); intros; apply diffRemovedFile_steps].
  eapply (foldl_noreload _ fits) in H as (b' & _ & H & _); [| |exact Hf].
  - by eapply fileNext_noreload.
  - intros. apply diffFileNext_steps.
Qed.

Lemma walk_files_prev f :
  f ∈ Plan_Files (e_prev e) →
  PlanFile_ReloadOnChange f = true ∨ PlanFile_Kind f = FileKindCRTList →
  is_Some (index_files (e_nextIndex e) !! PlanFile_Path f).
Proof using Hnoreload.
  intros Hf Hwhy. destruct (decide (PlanFile_Kind f = FileKindCRTList)) as [Hk|Hk].
  - destruct runRules_noreload as (H & _). unfold diffCerts in H.
    eapply (foldl_noreload _ fits) in H as (b' & _ & H & _); [| |exact Hf].
    + by eapply removedCRTList_noreload.
    + intros. apply removedCRTList_steps.
  - destruct Hwhy as [Hrel|]; [|done].
    pose proof Hnoreload as H. unfold runRules, diffFiles, diffRemovedFiles in H.
    eapply (foldl_noreload _ fits) in H as (b' & _ & H & _); [| |exact Hf].
    + by eapply removedFile_noreload.
    + intros. apply diffRemovedFile_steps.
Qed.

Lemma walk_crtlists_next f :
  f ∈ Plan_Files (e_next e) → PlanFile_Kind f = FileKindCRTList →
  is_Some (index_files (e_prevIndex e) !! PlanFile_Path f).
Proof using Hnoreload.
  intros Hf Hk. destruct runRules_noreload as (H & _). unfold diffCerts in H.
  eapply bsteps_reload in H; [|apply (bsteps_foldl fits); intros; apply removedCRTList_steps].
  eapply (foldl_noreload _ fits) in H as (b' & _ & H & _); [| |exact Hf].
  - by eapply certFile_noreload.
  - intros. apply (diffCertFile_steps e _ _ fits fits_emits).
Qed.
End walk.

(** ** Theorems *)

(** The index a baseline's applied plan is diffed with is that plan's. *)
Definition indexOk (base : Baseline) : Prop :=
  Baseline_AppliedIndex base = None ∨
  Baseline_AppliedIndex base = IndexPlan <$> Baseline_Applied base.

(** The environment of the rule walk between two plans. *)
Definition envOf (base : Baseline) (prev next : Plan) : Env :=
  {| e_caps := Baseline_Caps base; e_inventory := Baseline_Inventory base;
     e_certDir := certDirOf (Some next); e_next := next; e_prev := prev;
     e_nextIndex := IndexPlan next; e_prevIndex := IndexPlan prev |}.

Definition startOf (base : Baseline) : builder :=
  newBuilder (Baseline_PendingServerDeletes base) (Baseline_PendingBackendDeletes base).

(** A verdict other than reload is the verdict of a rule walk that never failed. *)
Lemma noreload_walk digestString encodeOps fuel next base d :
  indexOk base →
  Diff digestString encodeOps fuel (Some next) (Some base) = Some d →
  Decision_Verdict d ≠ VerdictReload →
  ∃ prev, Baseline_Applied base = Some prev ∧
    Plan_SchemaVersion prev = Plan_SchemaVersion next ∧
    b_reload (runRules (envOf base prev next) (startOf base)) = false ∧
    Decision_Ops d = orderedOps (runRules (envOf base prev next) (startOf base)) ∧
    Decision_Reasons d = b_reasons (runRules (envOf base prev next) (startOf base)).
Proof.
  intros Hidx (Hd & _)%Diff_inv Hv. simpl in Hd. unfold diffBuilder in Hd. cbv zeta in Hd.
  destruct Hd as [(? & _)|(Hr & _ & Hreasons & Hops & _)]; [done|].
  destruct (Baseline_Applied base) as [prev|] eqn:Hprev; [|by rewrite failf_reload in Hr].
  destruct (Plan_SchemaVersion prev =? Plan_SchemaVersion next) eqn:Hschema; cbn [negb] in *;
    [|by rewrite failf_reload in Hr].
  apply Z.eqb_eq in Hschema. exists prev. unfold indexOk in Hidx. rewrite Hprev in Hidx.
  destruct Hidx as [Hidx|Hidx]; rewrite Hidx in *; done.
Qed.

Lemma usesProfile_plan p name be profile :
  name ∈ backendNames p → Plan_Backends p !! name = Some be → Backend_Profile be = profile →
  ∃ en, en ∈ index_backends (IndexPlan p) ∧ entry_name en = name ∧ usesProfile profile en = true.
Proof.
  intros Hname Hbe Hp. unfold backendNames in Hname. apply list_elem_of_fmap in Hname as (s & -> & Hs).
  exists (backendEntryOf p s). split_and!.
  - rewrite IndexPlan_backends. by apply list_elem_of_fmap_2.
  - done.
  - unfold usesProfile. simpl. rewrite Hbe. by apply bool_decide_eq_true.
Qed.

(** C2: a verdict other than reload is only given when nothing the running worker
    cannot change has changed. The pod has a baseline of the render's schema, every
    core and profile section of the render is in the baseline with the same text,
    a section that went away is a profile no backend of the render uses and whose
    former users are all deleted by the ops shipped, every file declared
    reload-on-change is unchanged and still there, and no crt-list file came or
    went. *)
Theorem no_reload_preserves_static_config digestString encodeOps fuel next base d :
  indexOk base →
  Diff digestString encodeOps fuel (Some next) (Some base) = Some d →
  Decision_Verdict d ≠ VerdictReload →
  ∃ prev, Baseline_Applied base = Some prev ∧
    Plan_SchemaVersion prev = Plan_SchemaVersion next ∧
    (∀ sec, sec ∈ Plan_Sections next → isBackendSection sec = false →
       ∃ old, old ∈ Plan_Sections prev ∧ sectionKey old = sectionKey sec ∧
         sameSectionText (Some old) (Some sec) = true) ∧
    (∀ sec, sec ∈ Plan_Sections prev → isBackendSection sec = false →
       (∃ new, new ∈ Plan_Sections next ∧ sectionKey new = sectionKey sec) ∨
       (Section_Kind sec = SectionKindProfile ∧
        (∀ name be, name ∈ backendNames next → Plan_Backends next !! name = Some be →
           Backend_Profile be ≠ Section_Name sec) ∧
        (∀ name be, name ∈ backendNames prev → Plan_Backends prev !! name = Some be →
           Backend_Profile be = Section_Name sec →
           op_backend OpBackendDel name ∈ Decision_Ops d))) ∧
    (∀ f, f ∈ Plan_Files next → PlanFile_ReloadOnChange f = true →
       PlanFile_Kind f ≠ FileKindConfig →
       ∃ old, old ∈ Plan_Files prev ∧ PlanFile_Path old = PlanFile_Path f ∧
         sameFileContent (Some old) (Some f) = true) ∧
    (∀ f, f ∈ Plan_Files prev →
       PlanFile_ReloadOnChange f = true ∨ PlanFile_Kind f = FileKindCRTList →
       ∃ new, new ∈ Plan_Files next ∧ PlanFile_Path new = PlanFile_Path f) ∧
    (∀ f, f ∈ Plan_Files next → PlanFile_Kind f = FileKindCRTList →
       ∃ old, old ∈ Plan_Files prev ∧ PlanFile_Path old = PlanFile_Path f).
Proof.
  intros Hidx Hd Hv. destruct (noreload_walk _ _ _ _ _ _ Hidx Hd Hv) as (prev & Hp & Hs & Hr & Hops & _).
  exists prev. split_and!; [done|done|..].
  - intros sec Hsec Hb. destruct (walk_sections_next _ _ Hr sec Hsec Hb) as (old & Ho & Ht).
    apply IndexPlan_sections_Some in Ho as (? & _ & ?). by exists old.
  - intros sec Hsec Hb. destruct (walk_sections_prev _ _ Hr sec Hsec Hb) as [[new Hn]|[Hprof [Hn Hdel]]].
    + left. apply IndexPlan_sections_Some in Hn as (? & _ & ?). by exists new.
    + right. split_and!.
      * by apply bool_decide_eq_true in Hprof.
      * intros name be Hname Hbe Heq.
        destruct (usesProfile_plan _ _ _ _ Hname Hbe Heq) as (en & Hen & _ & Hu).
        by rewrite (Hn en Hen) in Hu.
      * intros name be Hname Hbe Heq.
        destruct (usesProfile_plan _ _ _ _ Hname Hbe Heq) as (en & Hen & <- & Hu).
        rewrite Hops. eapply ok_deleted; [|by apply Hdel].
        eapply bsteps_ok; [by apply (runRules_steps _ _ _ _ fits_emits)|apply newBuilder_ok].
  - intros f Hf Hrel Hk. pose proof (walk_files_next _ _ Hr f Hf Hrel Hk) as Hsame.
    simpl in Hsame. rewrite IndexPlan_files in Hsame.
    destruct (fileIndex _ !! _) as [old|] eqn:Ho; [|done].
    apply fileIndex_Some in Ho as [??]. by exists old.
  - intros f Hf Hwhy. destruct (walk_files_prev _ _ Hr f Hf Hwhy) as [new Hn].
    simpl in Hn. rewrite IndexPlan_files in Hn. apply fileIndex_Some in Hn as [??]. by exists new.
  - intros f Hf Hk. destruct (walk_crtlists_next _ _ Hr f Hf Hk) as [old Ho].
    simpl in Ho. rewrite IndexPlan_files in Ho. apply fileIndex_Some in Ho as [??]. by exists old.
Qed.

(** ** A plan against itself *)

(** A plan whose content the controller holds and whose names are unambiguous. *)
Record plan_ok (p : Plan) : Prop := MkPlanOk {
  plan_exact : hasExactIdentity (Some p) = true;
  plan_sections : NoDup (sectionKey <$> filter (λ s, isBackendSection s = false) (Plan_Sections p));
  plan_backends : NoDup (backendNames p);
  plan_described name : name ∈ backendNames p → is_Some (Plan_Backends p !! name);
  plan_files : NoDup (PlanFile_Path <$> Plan_Files p);
  plan_maps name : is_Some (Plan_Maps p !! name) → is_Some (fileIndex (Plan_Files p) !! name);
}.

(** Nothing composed, nothing noted. *)
Definition idle (b : builder) : Prop :=
  b_groups b = replicate groupCount [] ∧ b_reasons b = [] ∧ b_reload b = false.

Lemma foldl_invariant {A} (P : builder → Prop) (f : builder → A → builder) l b :
  (∀ b x, x ∈ l → P b → P (f b x)) → P b → P (foldl f b l).
Proof.
  revert b. induction l as [|x l IH]; intros b Hf Hb; [done|]. simpl.
  apply IH; [by intros; apply Hf; [right|]|]. apply Hf; [by left|done].
Qed.

Section self.
Context (p : Plan) (Hp : plan_ok p) (base : Baseline).
Let e := envOf base p p.

Lemma plan_exact_inv :
  (∀ s, s ∈ Plan_Sections p → Section_TextKnown s = true) ∧
  (∀ n be, Plan_Backends p !! n = Some be → Backend_ContentKnown be = true) ∧
  (∀ f, f ∈ Plan_Files p → PlanFile_ContentKnown f = true).
Proof using Hp.
  pose proof (plan_exact _ Hp) as H. simpl in H. split_bools.
  rewrite !forallb_forall in *. split_and!.
  - intros s Hs%list_elem_of_In. auto.
  - intros n be Hbe. apply elem_of_map_to_list, list_elem_of_In in Hbe.
    match goal with HB : ∀ kv, In kv _ → Backend_ContentKnown kv.2 = true |- _ =>
      apply (HB _ Hbe) end.
  - intros f Hf%list_elem_of_In. auto.
Qed.

Lemma self_file f : f ∈ Plan_Files p →
  sameFileContent (index_files (IndexPlan p) !! PlanFile_Path f) (Some f) = true.
Proof using Hp.
  intros Hf. rewrite IndexPlan_files. unfold fileIndex.
  rewrite index_lookup_NoDup by (apply (plan_files _ Hp) || done). simpl.
  destruct plan_exact_inv as (_ & _ & Hk). rewrite (Hk f Hf). simpl. by apply bool_decide_eq_true.
Qed.

Lemma self_certs b : idle b → idle (diffCerts e b).
Proof using Hp.
  intros Hb. unfold diffCerts. apply foldl_invariant; [|apply foldl_invariant; [|done]].
  - intros b' f Hf Hb'. unfold removedCRTList. simpl. pose proof (self_file f Hf) as Hs.
    destruct (index_files (IndexPlan p) !! PlanFile_Path f); [|done].
    by rewrite bool_decide_eq_false_2.
  - intros b' f Hf Hb'. unfold diffCertFile. cbv zeta. simpl. by rewrite (self_file f Hf).
Qed.

Lemma self_backends b : idle b → idle (diffBackends e b).
Proof using Hp.
  assert (∀ en, en ∈ index_backends (IndexPlan p) → ∃ be,
    entry_record en = Some be ∧ Backend_ContentKnown be = true ∧
    Section_TextKnown (entry_section en) = true ∧
    index_backend (IndexPlan p) (entry_name en) = Some en) as Hentry.
  { intros en Hen. pose proof (IndexPlan_backend_Some p en (plan_backends _ Hp) Hen) as Hidx.
    rewrite IndexPlan_backends in Hen.
    apply list_elem_of_fmap in Hen as (s & -> & [Hb Hs]%list_elem_of_filter).
    destruct (plan_described _ Hp (Section_Name s)) as [be Hbe].
    { apply list_elem_of_fmap_2. by apply list_elem_of_filter. }
    destruct plan_exact_inv as (Hk & Hc & _).
    exists be. split_and!; [done|by eapply Hc|by apply Hk|done]. }
  intros Hb. unfold diffBackends. apply foldl_invariant; [|apply foldl_invariant; [|done]].
  - intros b' en Hen Hb'. destruct (Hentry en Hen) as (be & Hr & _ & _ & Hidx).
    unfold diffBackendPrev. simpl. rewrite Hidx. destruct en as [name sec rec]; simpl in *.
    by subst rec.
  - intros b' en Hen Hb'. destruct (Hentry en Hen) as (be & Hr & Hc & Ht & Hidx).
    unfold diffBackendNext. rewrite Hr. simpl. rewrite Hidx.
    destruct en as [name sec rec]; simpl in *. subst rec. cbv zeta.
    rewrite Ht. simpl. rewrite bool_decide_eq_true_2 by done. simpl.
    unfold backendChanged, sameBackendBody, unexplainedText, sameBackendRecord.
    rewrite Hc. simpl. rewrite bool_decide_eq_true_2 by done. simpl.
    assert (EqualRecord be be = true) as -> by by apply EqualRecord_spec. done.
Qed.

Lemma self_sections b : idle b → idle (diffSections e b).
Proof using Hp.
  assert (∀ s, s ∈ Plan_Sections p → isBackendSection s = false →
    index_sections (IndexPlan p) !! sectionKey s = Some s) as Hsec.
  { intros s Hs Hb. unfold IndexPlan. rewrite built_sections.
    apply index_lookup_NoDup; [apply (plan_sections _ Hp)|]. by apply list_elem_of_filter. }
  intros Hb. unfold diffSections. apply foldl_invariant; [|apply foldl_invariant; [|done]].
  - intros b' s Hs Hb'. unfold diffSectionPrev. simpl.
    destruct (isBackendSection s) eqn:Hbe; [done|]. by rewrite (Hsec s Hs Hbe).
  - intros b' s Hs Hb'. unfold diffSectionNext.
    destruct (isBackendSection s) eqn:Hbe; [done|]. simpl. rewrite (Hsec s Hs Hbe). simpl.
    destruct plan_exact_inv as (Hk & _). rewrite (Hk s Hs). simpl.
    by rewrite bool_decide_eq_true_2.
Qed.

Lemma self_maps b : idle b → idle (diffMaps e b).
Proof using Hp.
  intros Hb. unfold diffMaps. apply foldl_invariant; [|done]. intros b' name _ Hb'.
  unfold diffMapName. simpl. destruct (Plan_Maps p !! name) as [m|] eqn:Hm; [|done]. cbv zeta.
  rewrite bool_decide_eq_true_2 by by eexists. rewrite IndexPlan_files.
  destruct (plan_maps _ Hp name) as [f Hf]; [by eexists|]. rewrite Hf. simpl.
  apply fileIndex_Some in Hf as [Hf _]. destruct plan_exact_inv as (_ & _ & Hk).
  rewrite (Hk f Hf). simpl. by rewrite bool_decide_eq_true_2.
Qed.

Lemma self_files b : idle b → idle (diffFiles e b).
Proof using Hp.
  intros Hb. unfold diffFiles, diffRemovedFiles.
  apply foldl_invariant; [|apply foldl_invariant; [|done]].
  - intros b' f Hf Hb'. unfold diffRemovedFile. simpl. pose proof (self_file f Hf) as Hs.
    destruct (index_files (IndexPlan p) !! PlanFile_Path f); [|done].
    by rewrite bool_decide_eq_true_2.
  - intros b' f Hf Hb'. unfold diffFileNext. simpl. by rewrite (self_file f Hf).
Qed.

Lemma self_rules b : idle b → idle (runRules e b).
Proof using Hp.
  intros Hb. by apply self_files, self_maps, self_sections, self_backends, self_certs.
Qed.
End self.

(** A pod that already runs the render is left alone: diffing a plan against
    itself composes no op, gives no reason and asks for no reload, so a reconcile
    without a change never touches traffic. *)
Theorem diff_self_is_file_only digestString encodeOps fuel p base d :
  plan_ok p → indexOk base → Baseline_Applied base = Some p →
  Diff digestString encodeOps fuel (Some p) (Some base) = Some d →
  Decision_Verdict d = VerdictFileOnly ∧ Decision_Ops d = [] ∧ Decision_Reasons d = [].
Proof.
  intros Hp Hidx Happ (Hd & _)%Diff_inv. simpl in Hd.
  assert (diffBuilder p (IndexPlan p) base = runRules (envOf base p p) (startOf base)) as E.
  { unfold diffBuilder, indexOk in *. cbv zeta. rewrite Happ in *. rewrite Z.eqb_refl. cbn [negb].
    destruct Hidx as [->| ->]; done. }
  rewrite E in Hd.
  destruct (self_rules p Hp base (startOf base)) as (Hg & Hr & Hrel); [by split|].
  assert (orderedOps (runRules (envOf base p p) (startOf base)) = []) as Ho
    by (unfold orderedOps; by rewrite Hg).
  destruct Hd as [(_ & _ & _ & _ & _ & Hwhy)|(_ & _ & Hreasons & Hops & _ & _ & _ & Hv)].
  - rewrite Hrel, Ho in Hwhy. destruct Hwhy as [?|[Hn|Hlt]]; [done|destruct Hn; constructor|].
    unfold chunkCount in Hlt. simpl in Hlt. lia.
  - rewrite Hops, Hreasons, Ho, Hr. destruct Hv as [[-> _]|[_ ?]]; done.
Qed.
