(* ===== verification/Worker.v ===== *)
(** * The running worker

    HAProxy itself is not part of this repository: what the controller relies on
    is stated here as an interface. [beStep] is the documented effect of one
    runtime op on one backend. It refuses what the sources say HAProxy refuses:
    [keywords.go] (a keyword outside the verified list, [init-state] on an old
    version, a file that is not loaded, an address that is no literal IP, a port
    out of range, a balance algorithm that takes no dynamic server),
    [servers.go] and [backends.go] (commands an old version does not have,
    [enable health] on a server without a check, an unknown profile), and the
    repository's own HAProxy stand-in ([pkg/dataplane/agent/haproxytest]: names
    that exist or do not, deletes of what is in use). What the worker knows apart
    from its backends is [Knowledge]. [Runtime] is a worker that has at least
    that effect. The second half shows that the op lists of [servers.go] and
    [backends.go] run without a refusal and leave what the render declares. *)

From stdpp Require Import base list list_numbers gmap strings.
From S2P Require Import Prelude Api GoStd RenderPlan Composer Diff.

Open Scope Z_scope.

(** ** State *)

(** A server of the worker: endpoint, weight and guid keywords' arguments, the
    remaining keywords and the administrative state. *)
Record WServer := MkWServer {
  ws_address : string;
  ws_port : Z;
  ws_weight : option (list string);
  ws_guid : option (list string);
  ws_keywords : list KeywordArg;
  ws_disabled : bool;
}.

Record WBackend := MkWBackend {
  wb_profile : string;
  wb_mode : string;
  wb_guid : string;
  wb_balance : string;
  wb_hashType : string;
  wb_published : bool;
  wb_servers : gmap string WServer;
}.

(** What the worker brings besides its backends: the commands of its version, the
    named defaults its configuration had with the balance settings they carry,
    and the files it has loaded. *)
Record Knowledge := MkKnowledge {
  k_dynamicServers : bool;
  k_dynamicBackends : bool;
  k_initState : bool;
  k_profiles : gmap string (string * string);
  k_crtBase : string;
  k_certs : list string;
  k_caFiles : list string;
  k_crlFiles : list string;
}.

Definition keywordArgs (name : string) (keywords : list KeywordArg) : option (list string) :=
  KeywordArg_Args <$> List.find (λ kw, bool_decide (KeywordArg_Name kw = name)) keywords.

(** The keywords that are neither state of their own nor only a start value. *)
Definition plainKeywords (keywords : list KeywordArg) : list KeywordArg :=
  filter (λ kw, KeywordArg_Name kw ∉ [keywordWeight; keywordGUID; keywordInitState]) keywords.

Definition addedServer (o : Op) : WServer :=
  {| ws_address := Op_Address o; ws_port := Op_Port o;
     ws_weight := keywordArgs keywordWeight (Op_Keywords o);
     ws_guid := keywordArgs keywordGUID (Op_Keywords o);
     ws_keywords := plainKeywords (Op_Keywords o);
     ws_disabled := true |}.

Definition with_published (p : bool) (be : WBackend) : WBackend :=
  MkWBackend (wb_profile be) (wb_mode be) (wb_guid be) (wb_balance be) (wb_hashType be) p (wb_servers be).
Definition with_wservers (s : gmap string WServer) (be : WBackend) : WBackend :=
  MkWBackend (wb_profile be) (wb_mode be) (wb_guid be) (wb_balance be) (wb_hashType be) (wb_published be) s.
Definition with_disabled (d : bool) (s : WServer) : WServer :=
  MkWServer (ws_address s) (ws_port s) (ws_weight s) (ws_guid s) (ws_keywords s) d.
Definition with_endpoint (a : string) (p : Z) (s : WServer) : WServer :=
  MkWServer a p (ws_weight s) (ws_guid s) (ws_keywords s) (ws_disabled s).
Definition with_weight (w : Z) (s : WServer) : WServer :=
  MkWServer (ws_address s) (ws_port s) (Some [itoa w]) (ws_guid s) (ws_keywords s) (ws_disabled s).

(** ** One op on one backend *)

Definition backendKinds : list string :=
  [OpBackendAdd; OpBackendPublish; OpBackendUnpublish; OpBackendDel; OpBackendWaitRemovable;
   OpServerAdd; OpServerEnable; OpServerDisable; OpServerSetAddr; OpServerSetWeight;
   OpServerSetState; OpServerWaitRemovable; OpServerDel].

Definition isBackendOp (o : Op) : bool := contains backendKinds (Op_Kind o).

(** An op on a server that has to exist. *)
Definition onServer (o : Op) (f : WServer → option (option WServer)) (be : WBackend) :
    option (option WBackend) :=
  s ← wb_servers be !! Op_Server o;
  r ← f s;
  Some (Some (with_wservers
    (match r with
     | Some s' => <[Op_Server o := s']> (wb_servers be)
     | None => delete (Op_Server o) (wb_servers be)
     end) be)).

(** A literal IP and a real port. *)
Definition literalEndpoint (address : string) (port : Z) : bool :=
  parseIP address && (1 <=? port) && (port <=? 65535).

Section step.
Context (K : Knowledge).

(** A file argument names something the worker has loaded; a relative [crt] is
    also looked up under [crt-base]. *)
Definition knownFile (kw : KeywordArg) : bool :=
  let name := KeywordArg_Name kw in
  let one (f : string → bool) := match KeywordArg_Args kw with [arg] => f arg | _ => false end in
  if bool_decide (name = keywordCRT) then
    one (λ arg, contains (k_certs K) arg
      || negb (bool_decide (k_crtBase K = "")) && negb (hasPrefix arg "/")
         && contains (k_certs K) (k_crtBase K +:+ "/" +:+ arg))
  else if bool_decide (name = keywordCAFile) then one (contains (k_caFiles K))
  else if bool_decide (name = keywordCRLFile) then one (contains (k_crlFiles K))
  else true.

(** What [add server] takes. *)
Definition takesKeyword (kw : KeywordArg) : bool :=
  contains addServerKeywords (KeywordArg_Name kw)
  && (negb (bool_decide (KeywordArg_Name kw = keywordInitState)) || k_initState K)
  && knownFile kw.

Definition takesServer (be : WBackend) (o : Op) : bool :=
  k_dynamicServers K && dynamicBalance (wb_balance be) (wb_hashType be)
  && literalEndpoint (Op_Address o) (Op_Port o) && forallb takesKeyword (Op_Keywords o).

(** [None] is a refusal. Waiting for a server or a backend to become removable is
    modelled as the wait that ends: the sessions on it end in time. *)
Definition beStep (o : Op) (st : option WBackend) : option (option WBackend) :=
  let kind := Op_Kind o in
  if bool_decide (kind = OpBackendAdd) then
    match st, k_profiles K !! Op_Profile o with
    | None, Some (balance, hashType) =>
        if k_dynamicBackends K
        then Some (Some (MkWBackend (Op_Profile o) (Op_Mode o) (Op_GUID o) balance hashType false ∅))
        else None
    | _, _ => None
    end
  else be ← st;
  if bool_decide (kind = OpBackendPublish) then
    if k_dynamicBackends K then Some (Some (with_published true be)) else None
  else if bool_decide (kind = OpBackendUnpublish) then
    if k_dynamicBackends K then Some (Some (with_published false be)) else None
  else if bool_decide (kind = OpBackendWaitRemovable) then
    if wb_published be || negb (bool_decide (wb_servers be = ∅)) then None else Some (Some be)
  else if bool_decide (kind = OpBackendDel) then
    if negb (k_dynamicBackends K) || wb_published be || negb (bool_decide (wb_servers be = ∅))
    then None else Some None
  else if bool_decide (kind = OpServerAdd) then
    match wb_servers be !! Op_Server o with
    | Some _ => None
    | None =>
        if takesServer be o
        then Some (Some (with_wservers (<[Op_Server o := addedServer o]> (wb_servers be)) be))
        else None
    end
  else if bool_decide (kind = OpServerEnable) then
    onServer o (λ s, if Op_Health o && negb (hasKeyword (ws_keywords s) keywordCheck) then None
                     else Some (Some (with_disabled false s))) be
  else if bool_decide (kind = OpServerDisable) then
    onServer o (λ s, Some (Some (with_disabled true s))) be
  else if bool_decide (kind = OpServerSetState) then
    onServer o (λ s, Some (Some (with_disabled (bool_decide (Op_State o = stateMaint)) s))) be
  else if bool_decide (kind = OpServerSetAddr) then
    onServer o (λ s, if literalEndpoint (Op_Address o) (Op_Port o)
                     then Some (Some (with_endpoint (Op_Address o) (Op_Port o) s)) else None) be
  else if bool_decide (kind = OpServerSetWeight) then
    onServer o (λ s, w ← Op_Weight o; Some (Some (with_weight w s))) be
  else if bool_decide (kind = OpServerWaitRemovable) then
    onServer o (λ s, if ws_disabled s then Some (Some s) else None) be
  else if bool_decide (kind = OpServerDel) then
    onServer o (λ s, if k_dynamicServers K && ws_disabled s then Some None else None) be
  else Some (Some be).

Fixpoint beRun (st : option WBackend) (ops : list Op) : option (option WBackend) :=
  match ops with
  | [] => Some st
  | o :: rest => st' ← beStep o st; beRun st' rest
  end.

Lemma beRun_app st ops ops' : beRun st (ops ++ ops') = st' ← beRun st ops; beRun st' ops'.
Proof.
  revert st. induction ops as [|o ops IH]; intros st; [done|]. simpl.
  destruct (beStep o st); simpl; [apply IH|done].
Qed.
End step.

(** ** The interface *)

Class Runtime (W : Type) := {
  rt_exec : W → Op → option W;
  rt_backend : W → string → option WBackend;
  rt_knows : W → Knowledge;
  (** Where the documented preconditions of a backend or server op hold, the
      worker accepts it and changes exactly the backend it names. *)
  rt_step w o st :
    isBackendOp o = true → beStep (rt_knows w) o (rt_backend w (Op_Backend o)) = Some st →
    ∃ w', rt_exec w o = Some w' ∧ rt_knows w' = rt_knows w ∧
      ∀ n, rt_backend w' n = if decide (n = Op_Backend o) then st else rt_backend w n;
}.

Fixpoint rt_run `{Runtime W} (w : W) (ops : list Op) : option W :=
  match ops with
  | [] => Some w
  | o :: rest => w' ← rt_exec w o; rt_run w' rest
  end.

(** The ops of one backend. *)
Definition opsOf (n : string) (ops : list Op) : list Op :=
  filter (λ o, isBackendOp o = true ∧ Op_Backend o = n) ops.

(** Backends are independent: when every backend's own ops run, the batch runs. *)
Lemma rt_run_pointwise `{Runtime W} (w : W) ops (target : string → option WBackend) :
  Forall (λ o, isBackendOp o = true) ops →
  (∀ n, beRun (rt_knows w) (rt_backend w n) (opsOf n ops) = Some (target n)) →
  ∃ w', rt_run w ops = Some w' ∧ ∀ n, rt_backend w' n = target n.
Proof.
  revert w. induction ops as [|o ops IH]; intros w Hall Hrun.
  { exists w. split; [done|]. intros n. specialize (Hrun n). by injection Hrun. }
  apply Forall_cons in Hall as [Ho Hall].
  assert (∀ n, opsOf n (o :: ops) = if decide (Op_Backend o = n) then o :: opsOf n ops else opsOf n ops)
    as Hcons.
  { intros n. unfold opsOf. rewrite filter_cons. by repeat case_decide; naive_solver. }
  pose proof (Hrun (Op_Backend o)) as Hself. rewrite Hcons, decide_True in Hself by done.
  simpl in Hself. apply bind_Some in Hself as (st & Hst & Hself).
  destruct (rt_step w o st Ho Hst) as (w1 & Hw1 & Hk & Hb). simpl. rewrite Hw1. simpl.
  apply IH; [done|]. intros n. rewrite Hb, Hk. specialize (Hrun n). rewrite Hcons in Hrun.
  destruct (decide (n = Op_Backend o)) as [->|Hne]; [done|].
  by rewrite decide_False in Hrun by done.
Qed.

(** ** A reference worker *)

(** The worker that has exactly the documented effect. *)
Definition refExec (w : Knowledge * gmap string WBackend) (o : Op) : option (Knowledge * gmap string WBackend) :=
  if isBackendOp o then
    st ← beStep w.1 o (w.2 !! Op_Backend o);
    Some (w.1, match st with Some be => <[Op_Backend o := be]> w.2 | None => delete (Op_Backend o) w.2 end)
  else Some w.

#[export, program] Instance refRuntime : Runtime (Knowledge * gmap string WBackend) :=
  {| rt_exec := refExec; rt_backend w n := w.2 !! n; rt_knows := fst |}.
Next Obligation.
  intros [K w] o st Ho Hst. unfold refExec. rewrite Ho. cbn in *. rewrite Hst. simpl. eexists. split; [done|].
  split; [done|]. intros n. simpl. destruct st; [rewrite lookup_insert|rewrite lookup_delete]; repeat case_decide; congruence.
Qed.

(** ** What the render declares *)

Definition serverView (be : Backend) (srv : Server) : WServer :=
  let merged := mergeKeywords (Backend_DefaultServer be) (Server_Extra srv) in
  {| ws_address := Server_Address srv; ws_port := Server_Port srv;
     ws_weight := match Server_Weight srv with
                  | Some w => Some [itoa w]
                  | None => keywordArgs keywordWeight merged
                  end;
     ws_guid := if bool_decide (Server_GUID srv = "") then keywordArgs keywordGUID merged
                else Some [Server_GUID srv];
     ws_keywords := plainKeywords merged;
     ws_disabled := Server_Disabled srv |}.

Definition serversView (be : Backend) : gmap string WServer :=
  list_to_map ((λ s, (Server_Name s, serverView be s)) <$> Backend_Servers be).

Definition backendView (be : Backend) : WBackend :=
  {| wb_profile := Backend_Profile be; wb_mode := Backend_Mode be; wb_guid := Backend_GUID be;
     wb_balance := Backend_Balance be; wb_hashType := Backend_HashType be;
     wb_published := true; wb_servers := serversView be |}.

(** ** Running the composed ops of one server *)

Lemma hasKeyword_args keywords name :
  hasKeyword keywords name = false ↔ keywordArgs name keywords = None.
Proof.
  unfold hasKeyword, keywordArgs. rewrite fmap_None. induction keywords as [|k l IH]; simpl; [done|].
  case_bool_decide; simpl; [by split|exact IH].
Qed.

Lemma keywordArgs_snoc keywords name kw :
  keywordArgs name (keywords ++ [kw])
  = match keywordArgs name keywords with
    | Some args => Some args
    | None => if decide (KeywordArg_Name kw = name) then Some (KeywordArg_Args kw) else None
    end.
Proof.
  unfold keywordArgs. induction keywords as [|k l IH]; simpl.
  - case_bool_decide; case_decide; done.
  - case_bool_decide; done.
Qed.

Lemma plainKeywords_snoc keywords kw :
  KeywordArg_Name kw ∈ [keywordWeight; keywordGUID; keywordInitState] →
  plainKeywords (keywords ++ [kw]) = plainKeywords keywords.
Proof.
  intros H. unfold plainKeywords. rewrite filter_app, filter_cons, filter_nil.
  rewrite decide_False by (intros Hn; by apply Hn). by rewrite app_nil_r.
Qed.

(** The record states a server's weight and guid once: not also as a keyword. *)
Definition plainServer (be : Backend) (srv : Server) : Prop :=
  let merged := mergeKeywords (Backend_DefaultServer be) (Server_Extra srv) in
  (Server_Weight srv = None ∨ hasKeyword merged keywordWeight = false) ∧
  (Server_GUID srv = "" ∨ hasKeyword merged keywordGUID = false).

(** What the three additions of [withRuntimeKeywords] leave to read. *)
Lemma withRuntimeKeywords_view c be srv :
  plainServer be srv →
  let merged := mergeKeywords (Backend_DefaultServer be) (Server_Extra srv) in
  let keywords := withRuntimeKeywords c merged srv in
  keywordArgs keywordWeight keywords = ws_weight (serverView be srv) ∧
  keywordArgs keywordGUID keywords = ws_guid (serverView be srv) ∧
  plainKeywords keywords = plainKeywords merged.
Proof.
  intros [Hw Hg]. unfold withRuntimeKeywords, serverView. cbv zeta. cbn [ws_weight ws_guid].
  set (merged := mergeKeywords _ _) in *. clearbody merged.
  set (k1 := match Server_Weight srv with Some _ => _ | None => _ end).
  assert (keywordArgs keywordWeight k1
      = match Server_Weight srv with Some w => Some [itoa w] | None => keywordArgs keywordWeight merged end ∧
    keywordArgs keywordGUID k1 = keywordArgs keywordGUID merged ∧
    plainKeywords k1 = plainKeywords merged) as (H1 & H2 & H3).
  { unfold k1. destruct (Server_Weight srv) as [w|]; [|done]. destruct Hw as [|Hw]; [done|].
    rewrite Hw. cbn [negb]. rewrite !keywordArgs_snoc, plainKeywords_snoc by set_solver.
    apply hasKeyword_args in Hw. rewrite Hw. split_and!; [done| |done].
    by destruct (keywordArgs keywordGUID merged). }
  clearbody k1.
  set (k2 := if negb (bool_decide (Server_GUID srv = "")) && _ then _ else k1).
  assert (keywordArgs keywordWeight k2 = keywordArgs keywordWeight k1 ∧
    keywordArgs keywordGUID k2
      = (if bool_decide (Server_GUID srv = "") then keywordArgs keywordGUID merged
         else Some [Server_GUID srv]) ∧
    plainKeywords k2 = plainKeywords merged) as (H4 & H5 & H6).
  { unfold k2. case_bool_decide as Hgu; simpl; [done|]. destruct Hg as [|Hg]; [done|].
    apply hasKeyword_args in Hg. rewrite Hg in H2.
    assert (hasKeyword k1 keywordGUID = false) as -> by by apply hasKeyword_args.
    cbn [negb]. rewrite !keywordArgs_snoc, plainKeywords_snoc, H2 by set_solver.
    split_and!; [by destruct (keywordArgs keywordWeight k1)|done|done]. }
  clearbody k2. destruct (_ && _ && _).
  - rewrite !keywordArgs_snoc, plainKeywords_snoc by set_solver. rewrite H4, H5, H1, H6.
    split_and!; [by destruct (Server_Weight srv), (keywordArgs keywordWeight merged)| |done].
    by destruct (bool_decide _), (keywordArgs keywordGUID merged).
  - by rewrite H4, H5, H1, H6.
Qed.

(** Evaluates [beStep] on an op of a known kind. *)
Ltac be_step :=
  unfold beStep; cbv zeta;
  cbn [Op_Kind op_server op_backend op with_Keywords with_Address_Port with_Health with_State
       with_Weight with_TimeoutMs with_Profile_Mode_GUID];
  repeat first [rewrite bool_decide_eq_true_2 by reflexivity
               |rewrite bool_decide_eq_false_2 by discriminate];
  cbn [mbind option_bind].

Lemma with_wservers_twice s s' be : with_wservers s (with_wservers s' be) = with_wservers s be.
Proof. done. Qed.

Lemma with_wservers_id be : with_wservers (wb_servers be) be = be.
Proof. by destruct be. Qed.

(** ** What the composer's guards rule out *)

(** The file arguments of a keyword as the composer resolves them, and the
    inventory they are looked up in. *)
Definition namedFiles (certDir : string) (kw : KeywordArg) : list string :=
  match KeywordArg_Args kw with
  | [arg] => if bool_decide (KeywordArg_Name kw = keywordCRT)
             then [arg; if bool_decide (certDir = "") || hasPrefix arg "/" then arg
                        else certDir +:+ "/" +:+ arg]
             else [arg]
  | _ => []
  end.

Definition inventoryOf (inv : Inventory) (kw : KeywordArg) : option (list string) :=
  let name := KeywordArg_Name kw in
  if bool_decide (name = keywordCRT) then Some (Inventory_Certs inv)
  else if bool_decide (name = keywordCAFile) then Some (Inventory_CAFiles inv)
  else if bool_decide (name = keywordCRLFile) then Some (Inventory_CRLFiles inv)
  else None.

(** A keyword of a server the diff may add: it has a name, and a file it names
    that is among [F], the files of the render, was loaded before. *)
Definition settledKeyword (certDir : string) (inv : Inventory) (F : gset string) (kw : KeywordArg) : Prop :=
  KeywordArg_Name kw ≠ "" ∧
  ∀ loaded path, inventoryOf inv kw = Some loaded → path ∈ namedFiles certDir kw → path ∈ F → path ∈ loaded.

Definition settledServer (certDir : string) (inv : Inventory) (F : gset string) (be : Backend) (srv : Server) : Prop :=
  plainServer be srv ∧
  Forall (settledKeyword certDir inv F) (mergeKeywords (Backend_DefaultServer be) (Server_Extra srv)).

(** What the pod reported to the composer is what the worker is. *)
Record reported (K : Knowledge) (caps : Caps) (certDir : string) (inv : Inventory) : Prop := {
  rp_servers : Caps_DynamicServers caps = true → k_dynamicServers K = true;
  rp_backends : Caps_DynamicBackends caps = true → k_dynamicBackends K = true;
  rp_initState : Caps_ServerInitState caps = true → k_initState K = true;
  rp_crtBase : k_crtBase K = certDir;
  rp_certs f : f ∈ Inventory_Certs inv → f ∈ k_certs K;
  rp_caFiles f : f ∈ Inventory_CAFiles inv → f ∈ k_caFiles K;
  rp_crlFiles f : f ∈ Inventory_CRLFiles inv → f ∈ k_crlFiles K;
}.

Lemma contains_elem l x : contains l x = true ↔ x ∈ l.
Proof. unfold contains. by rewrite bool_decide_eq_true. Qed.

Lemma endpointReason_literal address port :
  endpointReason address port = None → literalEndpoint address port = true.
Proof.
  unfold endpointReason, literalEndpoint. destruct (parseIP address); simpl; [|done].
  destruct (_ || _) eqn:E; [done|]. intros _. lia.
Qed.

Section composed.
Context (K : Knowledge) (F : gset string) (c : Composer).
Context (Hrep : reported K (composer_caps c) (composer_certDir c) (composer_inventory c)).
Context (Hcreated : composer_created c ⊆ F).
Abbreviation settled := (settledKeyword (composer_certDir c) (composer_inventory c) F).

Lemma loadedOrCreated_loaded kw loaded path :
  settled kw → inventoryOf (composer_inventory c) kw = Some loaded →
  path ∈ namedFiles (composer_certDir c) kw → loadedOrCreated c loaded path = true → path ∈ loaded.
Proof using Hcreated.
  intros [_ Hs] Hinv Hpath. unfold loadedOrCreated. rewrite orb_true_iff, contains_elem, bool_decide_eq_true.
  intros [?|Hin]; [done|]. eapply Hs; [done..|]. by apply Hcreated.
Qed.

Lemma filesLoaded_known kw : settled kw → filesLoaded c kw = true → knownFile K kw = true.
Proof using Hrep Hcreated.
  intros Hs. pose proof (loadedOrCreated_loaded kw) as Hl. unfold inventoryOf, namedFiles in Hl.
  unfold filesLoaded, knownFile. cbv zeta in *. destruct (KeywordArg_Args kw) as [|arg [|]]; [by repeat case_bool_decide| |by repeat case_bool_decide].
  case_bool_decide as Hcrt.
  - intros Hx. rewrite (rp_crtBase _ _ _ _ Hrep). apply orb_true_iff. rewrite contains_elem.
    destruct (decide (arg ∈ Inventory_Certs (composer_inventory c))) as [Hin|Hin];
      [left; by eapply rp_certs|].
    assert (contains (Inventory_Certs (composer_inventory c)) arg = false) as Hc
      by (apply not_true_iff_false; by rewrite contains_elem).
    rewrite Hc in Hx. cbn [negb andb] in Hx.
    destruct (decide (arg ∈ composer_created c)) as [Hcr|Hcr].
    { rewrite bool_decide_true in Hx by done. cbn [negb] in Hx. destruct Hin.
      by eapply Hl; [..|exact Hx]; [|reflexivity|left]. }
    rewrite bool_decide_false in Hx by done. cbn [negb] in Hx. unfold underCRTBase in Hx.
    apply (Hl _ _ Hs eq_refl) in Hx; [|right; by left].
    destruct (_ || _) eqn:E; [by destruct Hin|]. apply orb_false_iff in E as [E1 E2]. rewrite E1, E2. right.
    cbn [negb andb]. apply contains_elem. by eapply rp_certs.
  - case_bool_decide as Hca; [|case_bool_decide as Hcrl; [|done]]; intros Hx; apply contains_elem;
      [eapply rp_caFiles|eapply rp_crlFiles]; [done| |done|];
      (eapply Hl; [done|reflexivity|by left|exact Hx]).
Qed.

Lemma eligible_taken kw : settled kw → keywordIneligible c kw = false → takesKeyword K kw = true.
Proof using Hrep Hcreated.
  intros Hs. unfold keywordIneligible, takesKeyword. rewrite !orb_false_iff, !negb_false_iff.
  intros [[[Hlist Hinit] _] Hfile]. rewrite Hlist, (filesLoaded_known kw Hs Hfile), andb_true_r. cbn [andb].
  apply andb_false_iff in Hinit as [->|Hc]; [done|]. apply negb_false_iff in Hc.
  by rewrite (rp_initState _ _ _ _ Hrep Hc), orb_true_r.
Qed.

(** The additions of [withRuntimeKeywords] are taken too. *)
Lemma withRuntime_taken keywords srv :
  forallb (takesKeyword K) keywords = true → forallb (takesKeyword K) (withRuntimeKeywords c keywords srv) = true.
Proof using Hrep Hcreated.
  intros Hk. unfold withRuntimeKeywords. cbv zeta.
  assert (∀ kws name args, name ∈ [keywordWeight; keywordGUID] → forallb (takesKeyword K) kws = true →
    forallb (takesKeyword K) (kws ++ [MkKeywordArg name args]) = true) as Hsnoc.
  { intros kws name args Hn Hkws. rewrite forallb_app, Hkws.
    apply elem_of_cons in Hn as [->|[->|[]%not_elem_of_nil]%elem_of_cons]; by vm_compute. }
  set (k1 := match Server_Weight srv with Some _ => _ | None => _ end).
  assert (forallb (takesKeyword K) k1 = true) as Hk1.
  { unfold k1. destruct (Server_Weight srv); [|done]. destruct (negb _); [|done]. apply Hsnoc; [set_solver|done]. }
  clearbody k1. set (k2 := if negb (bool_decide (Server_GUID srv = "")) && _ then _ else k1).
  assert (forallb (takesKeyword K) k2 = true) as Hk2.
  { unfold k2. destruct (_ && _); [|done]. apply Hsnoc; [set_solver|done]. }
  clearbody k2. destruct (Caps_ServerInitState _) eqn:Hi; [|done]. cbn [andb]. destruct (_ && _); [|done].
  rewrite forallb_app, Hk2. cbn [forallb andb]. unfold takesKeyword, knownFile.
  rewrite (rp_initState _ _ _ _ Hrep Hi). by vm_compute.
Qed.
End composed.

(** A check is neither state of its own nor a start value. *)
Lemma plainKeywords_check keywords :
  hasKeyword (plainKeywords keywords) keywordCheck = hasKeyword keywords keywordCheck.
Proof.
  unfold hasKeyword, plainKeywords. induction keywords as [|k l IH]; [done|]. rewrite filter_cons. cbn [existsb].
  case_decide as Hk; cbn [existsb]; rewrite IH; [done|]. case_bool_decide as Hc; [|done].
  exfalso. rewrite Hc in Hk. apply (bool_decide_eq_true_2 _) in Hk. by vm_compute in Hk.
Qed.

Lemma addServer_run K F c be srv ops st :
  reported K (composer_caps c) (composer_certDir c) (composer_inventory c) → composer_created c ⊆ F →
  addServer c be srv = inl ops → settledServer (composer_certDir c) (composer_inventory c) F be srv →
  wb_balance st = Backend_Balance be → wb_hashType st = Backend_HashType be →
  wb_servers st !! Server_Name srv = None →
  beRun K (Some st) ops
  = Some (Some (with_wservers (<[Server_Name srv := serverView be srv]> (wb_servers st)) st)).
Proof.
  intros Hrep Hcr ((Hds & Hbal & _) & Hend & Hkw & ->)%addServer_inl [Hplain Hset] Hb Hh Hfresh.
  destruct (withRuntimeKeywords_view c be srv Hplain) as (Hw & Hg & Hk).
  assert (forallb (takesKeyword K)
    (withRuntimeKeywords c (mergeKeywords (Backend_DefaultServer be) (Server_Extra srv)) srv) = true) as Htake.
  { apply (withRuntime_taken K F); [done|done|]. apply forallb_forall. intros kw Hin%list_elem_of_In.
    rewrite Forall_forall in Hset. apply (eligible_taken K F c); [done|done|by apply Hset|].
    apply ineligibleKeyword_empty in Hkw; [rewrite Forall_forall in Hkw; by apply Hkw|].
    apply Forall_forall. intros x Hx. by apply Hset. }
  set (keywords := withRuntimeKeywords c _ srv) in *.
  set (add := with_Keywords keywords _).
  assert (beStep K add (Some st)
    = Some (Some (with_wservers
        (<[Server_Name srv := with_disabled true (serverView be srv)]> (wb_servers st)) st))) as Hadd.
  { unfold add. be_step. cbn [Op_Server with_Keywords with_Address_Port op_server]. rewrite Hfresh.
    unfold takesServer. cbn [Op_Keywords Op_Address Op_Port with_Keywords with_Address_Port].
    rewrite Hb, Hh, Hbal, (rp_servers _ _ _ _ Hrep Hds), (endpointReason_literal _ _ Hend), Htake. cbn [andb].
    do 4 f_equal. unfold addedServer.
    cbn [Op_Keywords Op_Address Op_Port with_Keywords with_Address_Port].
    by rewrite Hw, Hg, Hk. }
  cbn [beRun]. rewrite Hadd. cbn [mbind option_bind].
  destruct (Server_Disabled srv) eqn:Hd.
  - cbn [beRun]. do 4 f_equal. unfold with_disabled, serverView. by rewrite Hd.
  - cbn [beRun]. be_step. unfold onServer. cbn [Op_Server with_Health op_server wb_servers with_wservers].
    rewrite lookup_insert, decide_True by done. cbn [mbind option_bind Op_Health with_Health ws_keywords with_disabled serverView].
    rewrite <-Hk, plainKeywords_check, andb_negb_r. cbn [mbind option_bind].
    rewrite insert_insert, decide_True by done. rewrite with_wservers_twice. do 4 f_equal.
    unfold with_disabled, serverView. by rewrite Hd.
Qed.

(** One op that rewrites an existing server. *)
Lemma onServer_lookup o f st s s' :
  wb_servers st !! Op_Server o = Some s → f s = Some (Some s') →
  onServer o f st = Some (Some (with_wservers (<[Op_Server o := s']> (wb_servers st)) st)).
Proof. intros Hs Hf. unfold onServer. rewrite Hs. simpl. by rewrite Hf. Qed.

Lemma updateServer_run K be prevBe prev next ops st :
  updateServer be prev next = inl ops →
  Server_Name prev = Server_Name next →
  Backend_DefaultServer prevBe = Backend_DefaultServer be →
  wb_servers st !! Server_Name next = Some (serverView prevBe prev) →
  beRun K (Some st) ops
  = Some (Some (with_wservers (<[Server_Name next := serverView be next]> (wb_servers st)) st)).
Proof.
  intros (Hguid & Hextra & addr & weight & state & -> & Ha & Hw & Hs)%updateServer_inl Hname Hdef Hlook.
  set (name := Server_Name next) in *. set (set_ := op_server _ _ _) in *.
  assert (∀ ops st s s', wb_servers st !! name = Some s →
    (∀ st, wb_servers st !! name = Some s →
       beRun K (Some st) ops = Some (Some (with_wservers (<[name := s']> (wb_servers st)) st))) →
    ∀ ops' s'', (∀ st, wb_servers st !! name = Some s' →
       beRun K (Some st) ops' = Some (Some (with_wservers (<[name := s'']> (wb_servers st)) st))) →
    beRun K (Some st) (ops ++ ops') = Some (Some (with_wservers (<[name := s'']> (wb_servers st)) st)))
    as Hseq.
  { intros ops1 st1 s s' H1 H2 ops2 s'' H3. rewrite beRun_app, H2 by done. cbn [mbind option_bind].
    rewrite H3 by (cbn; by rewrite lookup_insert, decide_True). cbn [wb_servers with_wservers].
    by rewrite insert_insert, decide_True. }
  assert (∀ st s, wb_servers st !! name = Some s →
    with_wservers (<[name := s]> (wb_servers st)) st = st) as Hid.
  { intros st1 s H1. rewrite insert_id by done. apply with_wservers_id. }
  set (v0 := serverView prevBe prev) in *.
  set (v1 := with_endpoint (Server_Address next) (Server_Port next) v0).
  set (v2 := MkWServer (ws_address v1) (ws_port v1) (ws_weight (serverView be next)) (ws_guid v1)
               (ws_keywords v1) (ws_disabled v1)).
  apply (Hseq addr st v0 v1 Hlook).
  { intros st1 H1. destruct Ha as [(-> & E1 & E2)|[-> Hend]].
    - unfold v1. rewrite <-E1, <-E2. cbn [beRun]. f_equal. f_equal. symmetry.
      apply Hid. by rewrite H1.
    - cbn [beRun]. be_step. erewrite onServer_lookup; [|exact H1|]; [done|].
      cbn [Op_Address Op_Port with_Address_Port]. by rewrite endpointReason_literal. }
  intros st1 H1. apply (Hseq weight st1 v1 v2 H1).
  { intros st2 H2. destruct Hw as [[-> E]|(w & E & ->)].
    - cbn [beRun]. f_equal. f_equal. symmetry. apply Hid. rewrite H2. f_equal.
      unfold v2, v1, v0, with_endpoint, serverView. cbn. by rewrite E, Hdef, Hextra.
    - cbn [beRun]. be_step. erewrite onServer_lookup; [|exact H2|reflexivity].
      cbn [mbind option_bind]. do 4 f_equal. unfold v2, with_weight, serverView. cbn. by rewrite E. }
  intros st2 H2.
  assert (∀ d, d = Server_Disabled next → with_disabled d v2 = serverView be next) as Hv.
  { intros d ->. unfold with_disabled, v2, v1, v0, with_endpoint, serverView. cbn.
    by rewrite Hdef, Hextra, Hguid. }
  destruct Hs as [[-> E]|[[-> E]|[[h [-> Hh]] E]]].
  - cbn [beRun]. f_equal. f_equal. symmetry. apply Hid. rewrite H2. f_equal.
    rewrite <-(Hv (Server_Disabled prev)) by done. unfold v2, v1, v0, with_disabled, serverView. done.
  - cbn [beRun]. be_step. erewrite onServer_lookup; [|exact H2|reflexivity]. cbn [mbind option_bind].
    do 4 f_equal. apply Hv. rewrite E. done.
  - cbn [beRun]. be_step. rewrite (onServer_lookup _ _ _ v2 (serverView be next)); [done|exact H2|].
    cbn [Op_Health with_Health]. assert (h && negb (hasKeyword (ws_keywords v2) keywordCheck) = false) as ->.
    { rewrite Hh. unfold v2, v1, v0, with_endpoint, serverView. cbn [ws_keywords].
      by rewrite plainKeywords_check, Hdef, Hextra, andb_negb_r. }
    do 2 f_equal. by apply Hv.
Qed.
