(* ===== verification/Converge.v ===== *)
(** * Runtime ops take the worker to the render

    The refinement theorem of the deployment core: when a diff decides on
    runtime ops, the worker accepts every backend and server op of the batch in
    order, and afterwards runs exactly the backends and servers the render
    declares. Proved against the [Runtime] interface of [Worker.v]. *)

From stdpp Require Import base list list_numbers gmap strings relations.
From S2P Require Import Prelude Api GoStd RenderPlan MapDelta Composer CrtList Index Diff InPlace Rules DiffProps Guards Worker.

Open Scope Z_scope.

(** ** The ops of one backend, group by group *)

Definition opFor (n : string) (o : Op) : Prop := isBackendOp o = true ∧ Op_Backend o = n.

Definition groupsOf (n : string) (b : builder) : list (list Op) := opsOf n <$> b_groups b.

Lemma opsOf_app n l k : opsOf n (l ++ k) = opsOf n l ++ opsOf n k.
Proof. apply filter_app. Qed.

Lemma opsOf_orderedOps n b : opsOf n (orderedOps b) = concat (groupsOf n b).
Proof.
  unfold orderedOps, groupsOf. induction (b_groups b) as [|g gs IH]; [done|].
  simpl. by rewrite opsOf_app, IH.
Qed.

Lemma opsOf_all n ops : Forall (opFor n) ops → opsOf n ops = ops.
Proof. apply filter_all. Qed.

Lemma opsOf_none n ops : Forall (λ o, ¬ opFor n o) ops → opsOf n ops = [].
Proof. apply filter_none. Qed.

Lemma groupsOf_push n g ops b :
  groupsOf n (push g ops b) = alter (.++ opsOf n ops) g (groupsOf n b).
Proof.
  unfold groupsOf. simpl. revert g. induction (b_groups b) as [|x l IH]; intros [|g]; simpl; try done.
  - by rewrite opsOf_app.
  - f_equal. apply IH.
Qed.

Lemma alter_app_nil {A} (l : list (list A)) g : alter (.++ []) g l = l.
Proof.
  revert g. induction l as [|x l IH]; intros [|g]; try done; simpl.
  - by rewrite app_nil_r.
  - f_equal. apply IH.
Qed.

Lemma alter_app_app {A} (l : list (list A)) g x y :
  alter (.++ y) g (alter (.++ x) g l) = alter (.++ (x ++ y)) g l.
Proof.
  revert g. induction l as [|z l IH]; intros [|g]; try done; simpl.
  - by rewrite app_assoc.
  - f_equal. apply IH.
Qed.

Lemma groupsOf_push_other n g ops b :
  Forall (λ o, ¬ opFor n o) ops → groupsOf n (push g ops b) = groupsOf n b.
Proof. intros H. by rewrite groupsOf_push, opsOf_none, alter_app_nil. Qed.

Lemma groupsOf_notef n r b : groupsOf n (notef r b) = groupsOf n b.
Proof. unfold notef. by destruct (MaxReasons <=? _)%nat. Qed.

Lemma failf_created r b : b_created (failf r b) = b_created b.
Proof. unfold failf, notef. by destruct (MaxReasons <=? _)%nat. Qed.

Lemma groupsOf_failf n r b : groupsOf n (failf r b) = groupsOf n b.
Proof. unfold failf. by rewrite groupsOf_notef. Qed.

(** Steps that emit no op of a backend leave its ops alone. *)
Lemma bsteps_other n b b' :
  bsteps (λ _ o, ¬ opFor n o) b b' → groupsOf n b' = groupsOf n b.
Proof.
  induction 1 as [|b b1 b2 Hstep _ IH]; [done|]. rewrite IH. clear IH.
  destruct Hstep as [g ops b1 _ Hf _|r b1|r b1|c b1|path b1|m b1 _ _|m ops b1 Hf _ _|name ops b1 Hf _ _ _].
  - by apply groupsOf_push_other.
  - apply groupsOf_notef.
  - apply groupsOf_failf.
  - done.
  - done.
  - done.
  - by apply (groupsOf_push_other n groupServerDel ops (setPendingServerDeletes m b1)).
  - by apply (groupsOf_push_other n groupBackendDel ops b1).
Qed.

(** Ops composed for the server of a backend carry its name. *)
Definition named (n : string) (be : Backend) : Prop := Backend_Name be = n.

Lemma own_emits (Q : Op → Prop) (R : Backend → Prop) :
  (∀ o, isBackendOp o = false → Q o) →
  (∀ be o, R be → Op_Backend o = Backend_Name be → isBackendOp o = true → Q o) →
  emits R R (λ _, Q).
Proof.
  intros Hother Hown. split.
  - intros kind path _ Hk. apply Hother. unfold isBackendOp. simpl.
    repeat (apply elem_of_cons in Hk as [->|Hk]; [done|]). by apply not_elem_of_nil in Hk.
  - intros path prev next ops H%crtListOps_ok. eapply Forall_impl; [done|].
    intros o [(e' & -> & _)|(cert & -> & _)]; by apply Hother.
  - intros be HR _ _ _. split; by apply (Hown be).
  - intros c be srv ops HR _ (_ & _ & _ & ->)%addServer_inl.
    destruct (Server_Disabled srv); repeat constructor; by apply (Hown be).
  - intros be old srv ops HR _ (_ & _ & addr & weight & state & -> & Ha & Hw & Hs)%updateServer_inl.
    apply Forall_app; split; [|apply Forall_app; split].
    + destruct Ha as [[-> _]|[-> _]]; repeat constructor; by apply (Hown be).
    + destruct Hw as [[-> _]|(w & _ & ->)]; repeat constructor; by apply (Hown be).
    + destruct Hs as [[-> _]|[[-> _]|[[h [-> _]] _]]]; repeat constructor; by apply (Hown be).
  - intros c be m srv m' ops HR _ [_ ->]%removeServer_inl. repeat constructor; by apply (Hown be).
  - intros be HR. split_and!; by apply (Hown be).
  - intros path o _ [(key & value & _ & [[-> _]|[-> _]])| ->]; by apply Hother.
  - intros path o _ (key & _ & ->). by apply Hother.
Qed.

Lemma other_emits n : emits (λ be, Backend_Name be ≠ n) (λ be, Backend_Name be ≠ n) (λ _ o, ¬ opFor n o).
Proof.
  apply own_emits; unfold opFor.
  - intros o Ho [? _]. congruence.
  - intros be o Hne Ho _ [_ ?]. congruence.
Qed.

(** ** Servers of one backend *)

Section servers.
Context (K : Knowledge) (F : gset string) (c : Composer).
Context (Hrep : reported K (composer_caps c) (composer_certDir c) (composer_inventory c)).
Context (Hcreated : composer_created c ⊆ F).

(** A server the render describes in a way [add server] can follow. *)
Abbreviation settled := (settledServer (composer_certDir c) (composer_inventory c) F).

Lemma removeServer_run m backend srv m' ops st :
  removeServer c m backend srv = (m', inl ops) → is_Some (wb_servers st !! Server_Name srv) →
  beRun K (Some st) ops
  = Some (Some (with_wservers (delete (Server_Name srv) (wb_servers st)) st)).
Proof using Hrep.
  intros [[Hds _] ->]%removeServer_inl [s Hs]. cbn [beRun].
  be_step. erewrite onServer_lookup; [|exact Hs|reflexivity]. cbn [mbind option_bind].
  be_step. erewrite onServer_lookup;
    [|cbn; by rewrite lookup_insert, decide_True|reflexivity]. cbn [mbind option_bind].
  be_step. unfold onServer. cbn [Op_Server op_server with_TimeoutMs wb_servers with_wservers].
  rewrite insert_insert, decide_True, lookup_insert, decide_True by done.
  rewrite (rp_servers _ _ _ _ Hrep Hds). cbn [andb mbind option_bind ws_disabled with_disabled].
  rewrite delete_insert_eq, with_wservers_twice. done.
Qed.

Lemma addServers_run be servers adds ops :
  addServers c be servers adds = inl ops →
  ∃ new, ops = adds ++ new ∧ Forall (opFor (Backend_Name be)) new ∧
    ∀ st, NoDup (Server_Name <$> servers) → Forall (settled be) servers →
      wb_balance st = Backend_Balance be → wb_hashType st = Backend_HashType be →
      (∀ s, s ∈ servers → wb_servers st !! Server_Name s = None) →
      beRun K (Some st) new
      = Some (Some (with_wservers
          (foldl (λ m s, <[Server_Name s := serverView be s]> m) (wb_servers st) servers) st)).
Proof using Hrep Hcreated.
  revert adds. induction servers as [|s servers IH]; intros adds; simpl.
  { intros [= <-]. exists []. split_and!; [by rewrite app_nil_r|constructor|].
    intros st _ _ _ _ _. simpl. by rewrite with_wservers_id. }
  destruct (addServer c be s) as [first|] eqn:Hadd; [|done].
  intros (rest & -> & Hfor & Hrun)%IH. exists (first ++ rest). split_and!; [by rewrite app_assoc|..].
  - apply Forall_app. split; [|done].
    apply addServer_inl in Hadd as (_ & _ & _ & ->).
    destruct (Server_Disabled s); by repeat constructor.
  - intros st Hnd Hplain Hb Hh Hfresh. apply NoDup_cons in Hnd as [Hn Hnd].
    apply Forall_cons in Hplain as [Hs Hplain].
    rewrite beRun_app, (addServer_run K F _ _ _ _ _ Hrep Hcreated Hadd) by (done || apply Hfresh; by left).
    cbn [mbind option_bind]. rewrite Hrun; [done|done|done|done|done|].
    intros s' Hs'. cbn [wb_servers with_wservers]. rewrite lookup_insert_ne; [apply Hfresh; by right|].
    intros Heq. apply Hn. rewrite Heq. by apply list_elem_of_fmap_2.
Qed.

Lemma removeServers_run backend servers m drains m' ops :
  removeServers c backend m servers drains = (m', inl ops) →
  ∃ new, ops = drains ++ new ∧ Forall (opFor backend) new ∧
    ∀ st, NoDup (Server_Name <$> servers) →
      (∀ s, s ∈ servers → is_Some (wb_servers st !! Server_Name s)) →
      beRun K (Some st) new
      = Some (Some (with_wservers
          (foldl (λ m s, delete (Server_Name s) m) (wb_servers st) servers) st)).
Proof using Hrep.
  revert m drains. induction servers as [|s servers IH]; intros m drains; simpl.
  { intros [= <- <-]. exists []. split_and!; [by rewrite app_nil_r|constructor|].
    intros st _ _. simpl. by rewrite with_wservers_id. }
  destruct (removeServer c m backend s) as [m1 [first|]] eqn:Hrem; [|done].
  intros (rest & -> & Hfor & Hrun)%IH. exists (first ++ rest). split_and!; [by rewrite app_assoc|..].
  - apply Forall_app. split; [|done]. apply removeServer_inl in Hrem as [_ ->].
    by repeat constructor.
  - intros st Hnd Hin. apply NoDup_cons in Hnd as [Hn Hnd].
    rewrite beRun_app, (removeServer_run _ _ _ _ _ _ Hrem) by (apply Hin; by left).
    cbn [mbind option_bind]. rewrite Hrun; [done|done|].
    intros s' Hs'. cbn [wb_servers with_wservers]. rewrite lookup_delete_ne; [apply Hin; by right|].
    intros Heq. apply Hn. rewrite Heq. by apply list_elem_of_fmap_2.
Qed.

End servers.

(** ** Server maps *)

Lemma serversView_lookup be k :
  NoDup (Server_Name <$> Backend_Servers be) →
  serversView be !! k = serverView be <$> (serverIndex (Backend_Servers be) !! k).
Proof.
  intros Hnd. unfold serversView.
  assert (NoDup ((λ s, (Server_Name s, serverView be s)) <$> Backend_Servers be).*1) as Hnd'
    by by rewrite <-list_fmap_compose.
  destruct (serverIndex (Backend_Servers be) !! k) as [s|] eqn:Hs; simpl.
  - apply index_lookup_Some in Hs as [Hs <-]. apply elem_of_list_to_map_1; [done|].
    by apply (list_elem_of_fmap_2 (λ s, (Server_Name s, serverView be s))).
  - apply not_elem_of_list_to_map_1. rewrite <-list_fmap_compose. intros Hin.
    apply list_elem_of_fmap in Hin as (s & -> & Hin).
    destruct (index_lookup_is_Some Server_Name (Backend_Servers be) (Server_Name s)) as [_ Hsome].
    destruct Hsome as [? Hsome]; [by eauto|]. unfold serverIndex in Hs. simpl in *. congruence.
Qed.

Lemma foldl_insert_lookup {A} (f : Server → A) (m : gmap string A) l k :
  foldl (λ m s, <[Server_Name s := f s]> m) m l !! k
  = match serverIndex l !! k with Some s => Some (f s) | None => m !! k end.
Proof.
  unfold serverIndex. induction l as [|s l IH] using rev_ind; [done|].
  rewrite !foldl_app. simpl. rewrite !lookup_insert. case_decide; [done|]. apply IH.
Qed.

Lemma foldl_delete_lookup {A} (P : Server → Prop) `{∀ s, base.Decision (P s)} (m : gmap string A) l k :
  foldl (λ m s, if decide (P s) then m else delete (Server_Name s) m) m l !! k
  = if decide (Exists (λ s, Server_Name s = k ∧ ¬ P s) l) then None else m !! k.
Proof.
  revert m. induction l as [|s l IH]; intros m; cbn [foldl].
  { by rewrite decide_False by by intros ?%Exists_nil. }
  rewrite IH. destruct (decide (Exists _ l)) as [Hl|Hl];
    destruct (decide (Exists _ (s :: l))) as [Hs|Hs]; rewrite Exists_cons in Hs; try tauto.
  - case_decide; [tauto|]. rewrite lookup_delete. case_decide; naive_solver.
  - case_decide; [done|]. rewrite lookup_delete_ne; [done|]. tauto.
Qed.

(** Replaying a backend's server changes gives the render's servers. *)
Lemma servers_reach prev next :
  NoDup (Server_Name <$> Backend_Servers prev) → NoDup (Server_Name <$> Backend_Servers next) →
  foldl (λ m s, if decide (is_Some (serverIndex (Backend_Servers next) !! Server_Name s))
                then m else delete (Server_Name s) m)
    (foldl (λ m s, <[Server_Name s := serverView next s]> m) (serversView prev) (Backend_Servers next))
    (Backend_Servers prev)
  = serversView next.
Proof.
  intros Hp Hn. apply map_eq. intros k.
  rewrite foldl_delete_lookup, foldl_insert_lookup, !serversView_lookup by done.
  destruct (serverIndex (Backend_Servers next) !! k) as [s|] eqn:Hk; simpl.
  - rewrite decide_False; [done|]. rewrite Exists_exists. intros (x & _ & <- & Hx). apply Hx. by eexists.
  - case_decide as Hex; [done|].
    destruct (serverIndex (Backend_Servers prev) !! k) as [s|] eqn:Hs; simpl; [|done].
    destruct Hex. apply Exists_exists. exists s. apply index_lookup_Some in Hs as [? <-].
    split_and!; [done..|]. rewrite Hk. by intros [??].
Qed.

(** ** One changed backend *)

Section changed.
Context (K : Knowledge) (F : gset string) (e : Env) (prev next : Backend).
Context (Hrep : reported K (e_caps e) (e_certDir e) (e_inventory e)).
Abbreviation settled := (settledServer (e_certDir e) (e_inventory e) F).
Hypothesis Hname : Backend_Name prev = Backend_Name next.
Hypothesis Hdefaults : Backend_DefaultServer prev = Backend_DefaultServer next.
Let n := Backend_Name next.

Lemma diffServerNext_reload b s :
  b_reload b = true → b_reload (diffServerNext e prev next b s) = true.
Proof.
  unfold diffServerNext, pushServerOps. cbv zeta. intros Hb.
  destruct (match _ with Some _ => _ | None => _ end); simpl; rewrite ?failf_reload; done.
Qed.

Lemma diffServerNext_created b s : b_created (diffServerNext e prev next b s) = b_created b.
Proof.
  unfold diffServerNext, pushServerOps. cbv zeta.
  destruct (match _ with Some _ => _ | None => _ end); simpl; rewrite ?failf_created; done.
Qed.

Lemma diffServersNext_run servers b :
  b_created b ⊆ F →
  b_reload (foldl (diffServerNext e prev next) b servers) = false →
  ∃ ops, b_groups (foldl (diffServerNext e prev next) b servers)
           = alter (.++ ops) groupServerUpdate (b_groups b) ∧
    Forall (opFor n) ops ∧
    ∀ st, NoDup (Server_Name <$> servers) → Forall (settled next) servers →
      wb_balance st = Backend_Balance next → wb_hashType st = Backend_HashType next →
      (∀ s, s ∈ servers → wb_servers st !! Server_Name s
         = serverView prev <$> (serverIndex (Backend_Servers prev) !! Server_Name s)) →
      beRun K (Some st) ops
      = Some (Some (with_wservers
          (foldl (λ m s, <[Server_Name s := serverView next s]> m) (wb_servers st) servers) st)).
Proof using Hdefaults Hrep.
  revert b. induction servers as [|s servers IH]; intros b Hcr; simpl.
  { intros _. exists []. split_and!; [by rewrite alter_app_nil|constructor|].
    intros st _ _ _ _ _. simpl. by rewrite with_wservers_id. }
  intros Hr. assert (b_reload (diffServerNext e prev next b s) = false) as Hr1.
  { destruct (b_reload (diffServerNext e prev next b s)) eqn:E; [|done]. exfalso. revert Hr.
    clear IH. generalize dependent (diffServerNext e prev next b s). intros b1 E.
    assert (b_reload (foldl (diffServerNext e prev next) b1 servers) = true) as ->; [|done].
    apply (foldl_invariant (λ b, b_reload b = true)); [|done].
    intros b2 x _. apply diffServerNext_reload. }
  destruct (IH (diffServerNext e prev next b s)) as (rest & Hg & Hfor & Hrun);
    [by rewrite diffServerNext_created|done|]. unfold diffServerNext in Hg, Hr1. cbv zeta in Hg, Hr1.
  set (r := match serverIndex (Backend_Servers prev) !! Server_Name s with
            | Some old => updateServer next old s
            | None => addServer (composerOf e b) next s end) in Hg, Hr1.
  destruct r as [first|reason] eqn:Hres; subst r; simpl in Hg, Hr1;
    [|by rewrite failf_reload in Hr1].
  exists (first ++ rest). split_and!.
  - unfold diffServerNext. cbv zeta. rewrite Hres. simpl. rewrite Hg. apply alter_app_app.
  - apply Forall_app. split; [|done].
    assert (Forall (λ o, isBackendOp o = true → opFor n o) first ∧
            Forall (λ o, isBackendOp o = true) first) as [H1 H2].
    { destruct (serverIndex _ !! _).
      - apply updateServer_inl in Hres as (_ & _ & addr & weight & state & -> & Ha & Hw & Hs).
        rewrite !Forall_app.
        destruct Ha as [[-> _]|[-> _]], Hw as [[-> _]|(w & _ & ->)],
          Hs as [[-> _]|[[-> _]|[[h [-> _]] _]]]; split_and!; by repeat constructor.
      - apply addServer_inl in Hres as (_ & _ & _ & ->).
        destruct (Server_Disabled s); split; by repeat constructor. }
    rewrite Forall_forall in *. eauto.
  - intros st Hnd Hplain Hb Hh Hst. apply NoDup_cons in Hnd as [Hn Hnd].
    apply Forall_cons in Hplain as [Hps Hplain].
    specialize (Hst s (list_elem_of_here _ _)) as Hs.
    rewrite beRun_app.
    assert (beRun K (Some st) first = Some (Some (with_wservers
      (<[Server_Name s := serverView next s]> (wb_servers st)) st))) as ->.
    { destruct (serverIndex (Backend_Servers prev) !! Server_Name s) as [old|] eqn:Hold; simpl in Hs.
      - apply index_lookup_Some in Hold as [_ Hold]. by eapply updateServer_run.
      - by eapply (addServer_run K F (composerOf e b)). }
    cbn [mbind option_bind]. rewrite Hrun; [done|done|done|done|done|].
    intros s' Hs'. cbn [wb_servers with_wservers]. rewrite lookup_insert_ne.
    + apply Hst. by right.
    + intros Heq. apply Hn. rewrite Heq. by apply list_elem_of_fmap_2.
Qed.

Lemma diffServerPrev_reload b s :
  b_reload b = true → b_reload (diffServerPrev e prev next b s) = true.
Proof.
  unfold diffServerPrev, pushServerOps. intros Hb. destruct (serverIndex _ !! _); [done|].
  destruct (removeServer _ _ _ _) as [m [ops|reason]]; simpl; rewrite ?failf_reload; done.
Qed.

Lemma diffServersPrev_run servers b :
  b_reload (foldl (diffServerPrev e prev next) b servers) = false →
  ∃ ops, b_groups (foldl (diffServerPrev e prev next) b servers)
           = alter (.++ ops) groupServerDel (b_groups b) ∧
    Forall (opFor n) ops ∧
    ∀ st, NoDup (Server_Name <$> servers) →
      (∀ s, s ∈ servers → is_Some (wb_servers st !! Server_Name s)) →
      beRun K (Some st) ops
      = Some (Some (with_wservers
          (foldl (λ m s, if decide (is_Some (serverIndex (Backend_Servers next) !! Server_Name s))
                         then m else delete (Server_Name s) m) (wb_servers st) servers) st)).
Proof using Hname Hrep.
  revert b. induction servers as [|s servers IH]; intros b; cbn [foldl].
  { intros _. exists []. split_and!; [by rewrite alter_app_nil|constructor|].
    intros st _ _. simpl. by rewrite with_wservers_id. }
  intros Hr. assert (b_reload (diffServerPrev e prev next b s) = false) as Hr1.
  { destruct (b_reload (diffServerPrev e prev next b s)) eqn:E; [|done]. exfalso. revert Hr.
    clear IH. generalize dependent (diffServerPrev e prev next b s). intros b1 E.
    assert (b_reload (foldl (diffServerPrev e prev next) b1 servers) = true) as ->; [|done].
    apply (foldl_invariant (λ b, b_reload b = true)); [|done].
    intros b2 x _. apply diffServerPrev_reload. }
  destruct (IH _ Hr) as (rest & Hg & Hfor & Hrun).
  destruct (serverIndex (Backend_Servers next) !! Server_Name s) as [kept|] eqn:Hkept.
  - assert (diffServerPrev e prev next b s = b) as E by (unfold diffServerPrev; by rewrite Hkept).
    rewrite E in *. exists rest. split_and!; [done|done|].
    intros st Hnd Hst. apply NoDup_cons in Hnd as [Hn Hnd].
    rewrite decide_True by by eexists. apply Hrun; [done|]. intros; apply Hst. by right.
  - destruct (removeServer (composerOf e b) (b_pendingServerDeletes b) (Backend_Name prev) s)
      as [m r] eqn:Hrem.
    assert (diffServerPrev e prev next b s
      = pushServerOps groupServerDel (Backend_Name prev) (Server_Name s) r
          (setPendingServerDeletes m b)) as E by (unfold diffServerPrev; by rewrite Hkept, Hrem).
    rewrite E in *. destruct r as [first|reason]; simpl in Hg, Hr1;
      [|by rewrite failf_reload in Hr1].
    exists (first ++ rest). split_and!.
    + simpl. rewrite Hg. apply alter_app_app.
    + apply Forall_app. split; [|done]. apply removeServer_inl in Hrem as [_ ->].
      rewrite Hname. by repeat constructor.
    + intros st Hnd Hst. apply NoDup_cons in Hnd as [Hn Hnd].
      rewrite decide_False by by intros [??].
      rewrite beRun_app, (removeServer_run K (composerOf e b) Hrep _ _ _ _ _ _ Hrem) by (apply Hst; by left).
      cbn [mbind option_bind]. rewrite Hrun; [done|done|].
      intros s' Hs'. cbn [wb_servers with_wservers].
      rewrite lookup_delete_ne; [apply Hst; by right|].
      intros Heq. apply Hn. rewrite Heq. by apply list_elem_of_fmap_2.
Qed.

Lemma diffServers_run b :
  b_created b ⊆ F → b_reload (diffServers e prev next b) = false →
  groupsOf n b = replicate groupCount [] →
  NoDup (Server_Name <$> Backend_Servers prev) → NoDup (Server_Name <$> Backend_Servers next) →
  Forall (settled next) (Backend_Servers next) →
  ∀ st, wb_servers st = serversView prev →
    wb_balance st = Backend_Balance next → wb_hashType st = Backend_HashType next →
    beRun K (Some st) (concat (groupsOf n (diffServers e prev next b)))
    = Some (Some (with_wservers (serversView next) st)).
Proof using Hname Hdefaults Hrep.
  intros Hcr Hr Hempty Hp Hnx Hplain st Hst Hb Hh. unfold diffServers in *.
  assert (b_reload (foldl (diffServerNext e prev next) b (Backend_Servers next)) = false) as Hr1.
  { destruct (b_reload (foldl _ b _)) eqn:E; [|done]. exfalso. revert Hr.
    assert (b_reload (foldl (diffServerPrev e prev next)
      (foldl (diffServerNext e prev next) b (Backend_Servers next)) (Backend_Servers prev)) = true)
      as ->; [|done].
    apply (foldl_invariant (λ b, b_reload b = true)); [|done].
    intros b2 x _. apply diffServerPrev_reload. }
  destruct (diffServersNext_run _ _ Hcr Hr1) as (U & HU & HUf & HUrun).
  destruct (diffServersPrev_run _ _ Hr) as (R & HR & HRf & HRrun).
  assert (concat (groupsOf n (foldl (diffServerPrev e prev next)
    (foldl (diffServerNext e prev next) b (Backend_Servers next)) (Backend_Servers prev))) = U ++ R) as ->.
  { unfold groupsOf. rewrite HR, HU.
    change (concat (groupsOf n (push groupServerDel R (push groupServerUpdate U b))) = U ++ R).
    rewrite !groupsOf_push, Hempty, !opsOf_all by done. simpl.
    by rewrite !app_nil_r. }
  rewrite beRun_app, HUrun; [|done..|].
  - cbn [mbind option_bind]. rewrite HRrun; [|done|].
    + cbn [wb_servers with_wservers]. by rewrite Hst, servers_reach.
    + intros s Hs. cbn [wb_servers with_wservers]. rewrite foldl_insert_lookup.
      destruct (serverIndex (Backend_Servers next) !! Server_Name s); [by eexists|].
      rewrite Hst, serversView_lookup by done. unfold serverIndex.
      rewrite (index_lookup_NoDup Server_Name) by done. by eexists.
  - intros s Hs. by rewrite Hst, serversView_lookup.
Qed.
End changed.

(** ** Added and removed backends *)

(** The defaults sections the applied plan declares are parsed, and carry the
    balance settings of the backends that may be made from them. *)
Definition parsedProfiles (K : Knowledge) (prev : Plan) (be : Backend) : Prop :=
  Backend_Shape be = ShapeDynamic → is_Some (Plan_Profiles prev !! Backend_Profile be) →
  k_profiles K !! Backend_Profile be = Some (Backend_Balance be, Backend_HashType be).

Section backends.
Context (K : Knowledge) (F : gset string) (e : Env).
Context (Hrep : reported K (e_caps e) (e_certDir e) (e_inventory e)).
Abbreviation settled := (settledServer (e_certDir e) (e_inventory e) F).

Lemma backendAdded_run be b :
  b_created b ⊆ F → parsedProfiles K (e_prev e) be →
  b_reload (backendAdded e be b) = false →
  groupsOf (Backend_Name be) b = replicate groupCount [] →
  NoDup (Server_Name <$> Backend_Servers be) → Forall (settled be) (Backend_Servers be) →
  beRun K None (concat (groupsOf (Backend_Name be) (backendAdded e be b)))
  = Some (Some (backendView be)).
Proof using Hrep.
  intros Hcr Hprof Hr Hempty Hnd Hplain. unfold backendAdded in *. cbv zeta in *.
  repeat match type of Hr with
  | b_reload (if ?c then _ else _) = false => destruct c eqn:?; [by rewrite failf_reload in Hr|]
  end.
  split_bools. match goal with H : Backend_Shape be = ShapeDynamic |- _ => specialize (Hprof H) end.
  match goal with H : profileInRunningConfig e _ = true |- _ =>
    unfold profileInRunningConfig in H; case_bool_decide; [done|]; apply bool_decide_eq_true in H;
    specialize (Hprof H) end.
  match goal with H : Caps_DynamicBackends _ = true |- _ => apply (rp_backends _ _ _ _ Hrep) in H as Hdyn end.
  unfold publishNewBackend in *.
  destruct (addServers _ _ _ _) as [adds|] eqn:Hadds; [|by rewrite failf_reload in Hr].
  apply (addServers_run K F) in Hadds as (new & -> & Hfor & Hrun); [|done|done]. rewrite app_nil_l in *.
  rewrite !groupsOf_push, Hempty, !opsOf_all by (done || by repeat constructor).
  simpl. be_step. cbn [Op_Profile Op_Mode Op_GUID with_Profile_Mode_GUID]. rewrite Hprof, Hdyn. cbn [mbind option_bind].
  rewrite beRun_app, Hrun; [|done..|done]. cbn [mbind option_bind beRun]. be_step. rewrite Hdyn.
  unfold backendView, with_published, with_wservers. cbn. do 3 f_equal.
  apply map_eq. intros k. rewrite foldl_insert_lookup, serversView_lookup by done.
  by destruct (serverIndex _ !! k).
Qed.

Lemma backendRemoved_run be b :
  b_reload (backendRemoved e be b) = false →
  groupsOf (Backend_Name be) b = replicate groupCount [] →
  NoDup (Server_Name <$> Backend_Servers be) →
  beRun K (Some (backendView be)) (concat (groupsOf (Backend_Name be) (backendRemoved e be b)))
  = Some None.
Proof using Hrep.
  intros Hr Hempty Hnd. unfold backendRemoved in *. cbv zeta in *.
  repeat match type of Hr with
  | b_reload (if ?c then _ else _) = false => destruct c eqn:?; [by rewrite failf_reload in Hr|]
  end.
  split_bools.
  match goal with H : Caps_DynamicBackends _ = true |- _ => apply (rp_backends _ _ _ _ Hrep) in H as Hdyn end.
  unfold deleteBackend in *.
  destruct (removeServers _ _ _ _ _) as [m [drains|]] eqn:Hrem; [|by rewrite failf_reload in Hr].
  apply (removeServers_run K) in Hrem as (new & -> & Hfor & Hrun); [|done]. rewrite app_nil_l in *.
  match goal with |- context [groupsOf _ (noteBackendDeleted _ ?x)] =>
    change (groupsOf (Backend_Name be) (noteBackendDeleted (Backend_Name be) x))
      with (groupsOf (Backend_Name be) x) end.
  rewrite !groupsOf_push.
  change (groupsOf (Backend_Name be) (setPendingServerDeletes m b)) with (groupsOf (Backend_Name be) b).
  rewrite Hempty, !opsOf_all by (done || by repeat constructor).
  simpl. be_step. rewrite Hdyn. cbn [mbind option_bind].
  rewrite beRun_app, Hrun; [|done|].
  - assert (foldl (λ m s, delete (Server_Name s) m) (serversView be) (Backend_Servers be) = ∅) as Hnil.
    { apply map_eq. intros k. rewrite lookup_empty.
      pose proof (foldl_delete_lookup (λ _, False) (serversView be) (Backend_Servers be) k) as Hl.
      etrans; [exact Hl|]. case_decide as Hex; [done|].
      rewrite serversView_lookup by done.
      destruct (serverIndex (Backend_Servers be) !! k) as [s|] eqn:Hs; [|done].
      destruct Hex. apply Exists_exists. exists s. apply index_lookup_Some in Hs as [? ?]. naive_solver. }
    cbn [mbind option_bind beRun]. be_step. cbn [wb_servers wb_published with_wservers with_published backendView].
    rewrite Hnil, bool_decide_eq_true_2 by done. cbn [orb negb mbind option_bind].
    be_step. cbn [wb_servers wb_published with_wservers with_published backendView].
    by rewrite Hdyn.
  - intros s Hs. cbn. rewrite serversView_lookup by done. unfold serverIndex.
    rewrite (index_lookup_NoDup Server_Name) by done. by eexists.
Qed.

End backends.

(** ** The whole diff *)

(** What the worker runs when it runs a plan: the backends that have a section. *)
Definition planView (p : Plan) (n : string) : option WBackend :=
  if bool_decide (n ∈ backendNames p) then backendView <$> Plan_Backends p !! n else None.

(** Two renders a diff can be trusted with: unambiguous names, records filed under
    their own name, every running backend described, weights and guids stated
    once, and record digests that tell different records apart. *)
Record plans_ok (prev next : Plan) : Prop := MkPlansOk {
  po_prev_names : NoDup (backendNames prev);
  po_next_names : NoDup (backendNames next);
  po_described n : n ∈ backendNames prev → is_Some (Plan_Backends prev !! n);
  po_prev_named n be : Plan_Backends prev !! n = Some be →
    Backend_Name be = n ∧ NoDup (Server_Name <$> Backend_Servers be);
  po_next_named n be : Plan_Backends next !! n = Some be →
    Backend_Name be = n ∧ NoDup (Server_Name <$> Backend_Servers be);
  po_plain n be : Plan_Backends next !! n = Some be →
    Forall (plainServer be) (Backend_Servers be);
  po_digest n p q : Plan_Backends prev !! n = Some p → Plan_Backends next !! n = Some q →
    sameBackendRecord p q = true → backend_record p = backend_record q;
}.

(** The files the render ships. *)
Definition shippedFiles (p : Plan) : gset string := list_to_set (PlanFile_Path <$> Plan_Files p).

(** A pod a diff can be trusted with: the capabilities and the inventory it
    reported hold of the worker and its [crt-base] is the certificate directory
    of the render; the defaults sections of the applied plan are parsed and carry
    the balance settings of the dynamic backends that name them; and the keywords
    of the render's servers have names, and name no certificate, CA or CRL file
    that the render ships and the worker has not loaded before. *)
Record pod_ok (K : Knowledge) (base : Baseline) (prev next : Plan) : Prop := MkPodOk {
  pk_reported : reported K (Baseline_Caps base) (certDirOf (Some next)) (Baseline_Inventory base);
  pk_profiles n be : Plan_Backends next !! n = Some be → parsedProfiles K prev be;
  pk_keywords n be srv : Plan_Backends next !! n = Some be → srv ∈ Backend_Servers be →
    Forall (settledKeyword (certDirOf (Some next)) (Baseline_Inventory base) (shippedFiles next))
      (mergeKeywords (Backend_DefaultServer be) (Server_Extra srv));
}.

Lemma pod_servers K base prev next n be :
  plans_ok prev next → pod_ok K base prev next → Plan_Backends next !! n = Some be →
  Forall (settledServer (certDirOf (Some next)) (Baseline_Inventory base) (shippedFiles next) be)
    (Backend_Servers be).
Proof.
  intros Hok Hpod Hbe. pose proof (po_plain _ _ Hok n be Hbe) as Hplain. rewrite !Forall_forall in *.
  intros srv Hin. split; [by apply Hplain|by eapply pk_keywords].
Qed.

Lemma backendView_record p q : backend_record p = backend_record q → backendView p = backendView q.
Proof.
  unfold backend_record. destruct p, q. simpl. intros [=]. by subst.
Qed.

Lemma backendChanged_run K F e prev next textEqual b :
  reported K (e_caps e) (e_certDir e) (e_inventory e) → b_created b ⊆ F →
  b_reload (backendChanged e prev next textEqual b) = false →
  Backend_Name prev = Backend_Name next →
  groupsOf (Backend_Name next) b = replicate groupCount [] →
  NoDup (Server_Name <$> Backend_Servers prev) → NoDup (Server_Name <$> Backend_Servers next) →
  Forall (settledServer (e_certDir e) (e_inventory e) F next) (Backend_Servers next) →
  (sameBackendRecord prev next = true → backend_record prev = backend_record next) →
  beRun K (Some (backendView prev))
    (concat (groupsOf (Backend_Name next) (backendChanged e prev next textEqual b)))
  = Some (Some (backendView next)).
Proof.
  intros Hrep Hcr Hr Hname Hempty Hp Hn Hplain Hdig. unfold backendChanged in *. cbv zeta in *.
  destruct (negb (sameBackendBody prev next)); [by rewrite failf_reload in Hr|].
  destruct (unexplainedText _ _ _); [by rewrite failf_reload in Hr|].
  destruct (sameBackendRecord prev next).
  { rewrite Hempty. simpl. by rewrite (backendView_record prev next) by auto. }
  destruct (negb _) eqn:Hattr; [by rewrite failf_reload in Hr|].
  apply negb_false_iff, bool_decide_eq_true in Hattr. unfold changedAttribute in Hattr.
  repeat match type of Hattr with
  | (if negb ?c then _ else _) = "" => destruct c eqn:?; simpl in Hattr; [|done]
  end.
  split_bools. match goal with H : equalFunc _ _ _ = true |- _ =>
    apply (equalFunc_spec _ sameKeyword_spec) in H as Hdef end.
  erewrite (diffServers_run K F); try done.
  do 2 f_equal. unfold backendView, with_wservers. cbn. by f_equal.
Qed.

(** ** The files a diff creates are files of the render *)

Lemma foldl_created {A} (f : builder → A → builder) l b :
  (∀ b x, b_created (f b x) = b_created b) → b_created (foldl f b l) = b_created b.
Proof. intros Hf. revert b. induction l as [|x l IH]; intros b; [done|]. simpl. by rewrite IH, Hf. Qed.

Lemma backendAdded_created e be b : b_created (backendAdded e be b) = b_created b.
Proof. unfold backendAdded, publishNewBackend. cbv zeta. repeat case_match; rewrite ?failf_created; done. Qed.

Lemma diffServerPrev_created e prev next b s : b_created (diffServerPrev e prev next b s) = b_created b.
Proof.
  unfold diffServerPrev, pushServerOps. destruct (serverIndex _ !! _); [done|].
  destruct (removeServer _ _ _ _) as [m [ops|reason]]; simpl; by rewrite ?failf_created.
Qed.

Lemma backendChanged_created e prev next textEqual b :
  b_created (backendChanged e prev next textEqual b) = b_created b.
Proof.
  unfold backendChanged, diffServers. cbv zeta. repeat case_match; rewrite ?failf_created; try done.
  rewrite !foldl_created; [done|..]; intros; [apply diffServerNext_created|apply diffServerPrev_created].
Qed.

Lemma diffBackendNext_created e b en : b_created (diffBackendNext e b en) = b_created b.
Proof.
  unfold diffBackendNext. cbv zeta. repeat case_match;
    rewrite ?failf_created, ?backendAdded_created, ?backendChanged_created; done.
Qed.

Lemma diffCertFile_created e b f :
  b_created (diffCertFile e b f) ⊆ {[PlanFile_Path f]} ∪ b_created b.
Proof.
  unfold diffCertFile, storeFile, diffCRTList. cbv zeta.
  repeat case_match; rewrite ?failf_created; unfold notef; try case_match; simpl; set_solver.
Qed.

Lemma diffCerts_created e b :
  b_created (diffCerts e b) ⊆ shippedFiles (e_next e) ∪ b_created b.
Proof.
  unfold diffCerts. rewrite foldl_created.
  2: { intros b1 f. unfold removedCRTList. case_match; by rewrite ?failf_created. }
  unfold shippedFiles. generalize (Plan_Files (e_next e)) as files. intros files. revert b.
  induction files as [|f files IH]; intros b; [set_solver|]. simpl.
  pose proof (IH (diffCertFile e b f)). pose proof (diffCertFile_created e b f). set_solver.
Qed.

Section whole.
Context (K : Knowledge) (base : Baseline) (prev next : Plan) (Hok : plans_ok prev next).
Context (Hpod : pod_ok K base prev next) (n : string).
Let e := envOf base prev next.
Let F := shippedFiles next.

Lemma next_entry en :
  en ∈ index_backends (IndexPlan next) →
  entry_name en ∈ backendNames next ∧ entry_record en = Plan_Backends next !! entry_name en.
Proof.
  rewrite IndexPlan_backends. intros (s & -> & Hs)%list_elem_of_fmap. split; [|done].
  by apply (list_elem_of_fmap_2 Section_Name).
Qed.

Lemma prev_entry en :
  en ∈ index_backends (IndexPlan prev) →
  entry_name en ∈ backendNames prev ∧ entry_record en = Plan_Backends prev !! entry_name en.
Proof.
  rewrite IndexPlan_backends. intros (s & -> & Hs)%list_elem_of_fmap. split; [|done].
  by apply (list_elem_of_fmap_2 Section_Name).
Qed.

Lemma next_other b en :
  en ∈ index_backends (IndexPlan next) → entry_name en ≠ n →
  bsteps (λ _ o, ¬ opFor n o) b (diffBackendNext e b en).
Proof using Hok.
  intros Hen Hne. eapply diffBackendNext_steps; [apply other_emits|..].
  - intros be Hbe. apply next_entry in Hen as [_ Hr]. rewrite Hr in Hbe.
    apply (po_next_named _ _ Hok) in Hbe as [-> _]. done.
  - intros en' be H' Hbe. apply IndexPlan_backend_inv in H' as [H' Hn].
    apply prev_entry in H' as [_ Hr]. rewrite Hr in Hbe.
    apply (po_prev_named _ _ Hok) in Hbe as [-> _]. congruence.
Qed.

Lemma prev_other b en :
  en ∈ index_backends (IndexPlan prev) → entry_name en ≠ n ∨ is_Some (planView next n) →
  bsteps (λ _ o, ¬ opFor n o) b (diffBackendPrev e b en).
Proof using Hok.
  intros Hen Hwhy. destruct (decide (entry_name en = n)) as [Heq|Hne].
  - destruct Hwhy as [|Hnext]; [done|]. unfold diffBackendPrev. simpl. unfold planView in Hnext.
    case_bool_decide as Hin; [|by destruct Hnext]. rewrite Heq.
    destruct (index_backend (IndexPlan next) n) as [en'|] eqn:Hidx;
      [|by apply IndexPlan_backend_None in Hidx].
    apply IndexPlan_backend_inv in Hidx as [Hin' Hname].
    apply next_entry in Hin' as [_ Hr]. rewrite Hname in Hr.
    apply fmap_is_Some in Hnext as [be Hbe]. rewrite Hbe in Hr.
    destruct en' as [nm sec rec]. simpl in *. rewrite Hr. apply rtc_refl.
  - eapply diffBackendPrev_steps; [apply other_emits|].
    intros be Hbe. apply prev_entry in Hen as [_ Hr]. rewrite Hr in Hbe.
    apply (po_prev_named _ _ Hok) in Hbe as [-> _]. done.
Qed.

(** A list with distinct names has at most one entry of a name. *)
Lemma split_entry l en :
  NoDup (entry_name <$> l) → en ∈ l → entry_name en = n →
  ∃ l1 l2, l = l1 ++ en :: l2 ∧ ∀ x, x ∈ l1 ++ l2 → entry_name x ≠ n.
Proof.
  intros Hnd Hen Hname. apply list_elem_of_split in Hen as (l1 & l2 & ->).
  exists l1, l2. split; [done|]. rewrite fmap_app, fmap_cons in Hnd.
  apply NoDup_app in Hnd as (_ & Hdis & Hnd%NoDup_cons).
  intros x [Hx|Hx]%elem_of_app Heq; rewrite <-Heq in Hname.
  - apply (Hdis (entry_name x)); [by apply list_elem_of_fmap_2|]. rewrite <-Hname. by left.
  - apply Hnd. rewrite Hname. by apply list_elem_of_fmap_2.
Qed.

(** The loop over the render's backends. *)
Lemma next_loop b :
  b_reload (foldl (diffBackendNext e) b (index_backends (IndexPlan next))) = false →
  b_created b ⊆ F → groupsOf n b = replicate groupCount [] →
  let ops := concat (groupsOf n (foldl (diffBackendNext e) b (index_backends (IndexPlan next)))) in
  if bool_decide (n ∈ backendNames next)
  then is_Some (Plan_Backends next !! n) ∧ beRun K (planView prev n) ops = Some (planView next n)
  else ops = [].
Proof using Hok Hpod.
  intros Hr Hcr Hempty. cbv zeta. case_bool_decide as Hin.
  2: { rewrite (bsteps_other n b), Hempty; [done|]. apply bsteps_foldl. intros b' en Hen.
       apply next_other; [done|]. intros Heq. apply Hin. rewrite <-Heq. by apply next_entry. }
  pose proof Hin as Hin'. rewrite <-IndexPlan_names in Hin'.
  apply list_elem_of_fmap in Hin' as (en & Hname & Hen). symmetry in Hname.
  destruct (split_entry (index_backends (IndexPlan next)) en) as (l1 & l2 & Hsplit & Hothers);
    [rewrite IndexPlan_names; apply (po_next_names _ _ Hok)|done|done|].
  assert (∀ x, x ∈ l1 ∨ x ∈ l2 → x ∈ index_backends (IndexPlan next) ∧ entry_name x ≠ n) as Hx.
  { intros x Hx. split; [rewrite Hsplit; set_solver|]. apply Hothers. set_solver. }
  rewrite Hsplit in Hr |- *. rewrite foldl_app in Hr |- *. simpl in Hr |- *.
  set (b1 := foldl (diffBackendNext e) b l1) in *.
  assert (b_created b1 ⊆ F) as Hcr1 by (unfold b1; by rewrite foldl_created by (intros; apply diffBackendNext_created)).
  assert (groupsOf n b1 = replicate groupCount []) as Hb1.
  { rewrite <-Hempty. apply bsteps_other, bsteps_foldl. intros b' x Hx'. apply next_other; apply Hx; by left. }
  assert (bsteps (λ _ o, ¬ opFor n o) (diffBackendNext e b1 en)
    (foldl (diffBackendNext e) (diffBackendNext e b1 en) l2)) as Hrest.
  { apply bsteps_foldl. intros b' x Hx'. apply next_other; apply Hx; by right. }
  apply (bsteps_reload _ _ _ Hrest) in Hr. rewrite (bsteps_other _ _ _ Hrest). clear Hrest.
  pose proof (next_entry en Hen) as [_ Hrec]. rewrite Hname in Hrec.
  unfold diffBackendNext in Hr |- *. rewrite Hrec in Hr |- *. rewrite Hname in *.
  destruct (Plan_Backends next !! n) as [be|] eqn:Hbe; [|by rewrite failf_reload in Hr].
  split; [by eexists|].
  destruct (po_next_named _ _ Hok n be Hbe) as [Hben Hbend].
  pose proof (pod_servers _ _ _ _ _ _ Hok Hpod Hbe) as Hplain.
  pose proof (pk_reported _ _ _ _ Hpod) as Hrep.
  unfold planView at 2. rewrite (bool_decide_eq_true_2 _ Hin), Hbe. simpl in Hr |- *.
  unfold planView. destruct (index_backend (IndexPlan prev) n) as [en'|] eqn:Hidx.
  - apply IndexPlan_backend_inv in Hidx as [Hin' Hname'].
    apply prev_entry in Hin' as [Hpn Hprec]. rewrite Hname' in *.
    destruct (po_described _ _ Hok n Hpn) as [pbe Hpbe].
    destruct (po_prev_named _ _ Hok n pbe Hpbe) as [Hpben Hpbend].
    rewrite (bool_decide_eq_true_2 _ Hpn), Hpbe. rewrite Hpbe in Hprec.
    destruct en' as [nm sec rec]. simpl in Hprec. subst rec. cbv zeta in *.
    rewrite <-Hben in *. apply (backendChanged_run K F); try done.
    by eapply (po_digest _ _ Hok n); rewrite <-?Hben.
  - pose proof Hidx as Hnp. apply IndexPlan_backend_None in Hnp.
    rewrite (bool_decide_eq_false_2 _ Hnp). pose proof (pk_profiles _ _ _ _ Hpod n be Hbe) as Hprof.
    rewrite <-Hben in *. by apply (backendAdded_run K F).
Qed.

(** The loop over the backends the pod runs. *)
Lemma prev_loop b :
  b_reload (foldl (diffBackendPrev e) b (index_backends (IndexPlan prev))) = false →
  n ∉ backendNames next → groupsOf n b = replicate groupCount [] →
  beRun K (planView prev n)
    (concat (groupsOf n (foldl (diffBackendPrev e) b (index_backends (IndexPlan prev)))))
  = Some None.
Proof using Hok Hpod.
  intros Hr Hnext Hempty. unfold planView. case_bool_decide as Hin.
  2: { rewrite (bsteps_other n b), Hempty; [done|]. apply bsteps_foldl. intros b' en Hen.
       apply prev_other; [done|]. left. intros Heq. apply Hin. rewrite <-Heq. by apply prev_entry. }
  pose proof Hin as Hin'. rewrite <-IndexPlan_names in Hin'.
  apply list_elem_of_fmap in Hin' as (en & Hname & Hen). symmetry in Hname.
  destruct (split_entry (index_backends (IndexPlan prev)) en) as (l1 & l2 & Hsplit & Hothers);
    [rewrite IndexPlan_names; apply (po_prev_names _ _ Hok)|done|done|].
  assert (∀ x, x ∈ l1 ∨ x ∈ l2 → x ∈ index_backends (IndexPlan prev) ∧ entry_name x ≠ n) as Hx.
  { intros x Hx. split; [rewrite Hsplit; set_solver|]. apply Hothers. set_solver. }
  rewrite Hsplit in Hr |- *. rewrite foldl_app in Hr |- *. simpl in Hr |- *.
  set (b1 := foldl (diffBackendPrev e) b l1) in *.
  assert (groupsOf n b1 = replicate groupCount []) as Hb1.
  { rewrite <-Hempty. apply bsteps_other, bsteps_foldl. intros b' x Hx'.
    apply prev_other; [apply Hx; by left|]. left. apply Hx. by left. }
  assert (bsteps (λ _ o, ¬ opFor n o) (diffBackendPrev e b1 en)
    (foldl (diffBackendPrev e) (diffBackendPrev e b1 en) l2)) as Hrest.
  { apply bsteps_foldl. intros b' x Hx'. apply prev_other; [apply Hx; by right|].
    left. apply Hx. by right. }
  apply (bsteps_reload _ _ _ Hrest) in Hr. rewrite (bsteps_other _ _ _ Hrest). clear Hrest.
  pose proof (prev_entry en Hen) as [_ Hrec]. rewrite Hname in Hrec.
  destruct (po_described _ _ Hok n Hin) as [be Hbe].
  destruct (po_prev_named _ _ Hok n be Hbe) as [Hben Hbend].
  unfold diffBackendPrev in Hr |- *. simpl in Hr |- *. rewrite Hname in Hr |- *.
  apply IndexPlan_backend_None in Hnext. rewrite Hnext, Hrec, Hbe in Hr |- *. simpl.
  rewrite <-Hben in *. apply (backendRemoved_run K); [apply (pk_reported _ _ _ _ Hpod)|done..].
Qed.

Lemma walk_converges :
  b_reload (runRules e (startOf base)) = false →
  beRun K (planView prev n) (opsOf n (orderedOps (runRules e (startOf base))))
  = Some (planView next n).
Proof using Hok Hpod.
  intros Hr. destruct (runRules_noreload _ _ Hr) as (Hr1 & Hr2 & _).
  set (b1 := diffCerts e (startOf base)) in *.
  assert (groupsOf n b1 = replicate groupCount []) as Hb1.
  { etrans; [apply bsteps_other; eapply diffCerts_steps, other_emits|]. done. }
  assert (groupsOf n (runRules e (startOf base)) = groupsOf n (diffBackends e b1)) as Hfinal.
  { unfold runRules. apply bsteps_other. etrans; [apply diffSections_steps|].
    etrans; [eapply diffMaps_steps, other_emits|apply diffFiles_steps]. }
  rewrite opsOf_orderedOps, Hfinal. clear Hfinal Hr Hr1. unfold diffBackends in *.
  change (index_backends (e_nextIndex e)) with (index_backends (IndexPlan next)) in *.
  change (index_backends (e_prevIndex e)) with (index_backends (IndexPlan prev)) in *.
  set (B := foldl (diffBackendNext e) b1 (index_backends (IndexPlan next))) in *.
  assert (bsteps fits B (foldl (diffBackendPrev e) B (index_backends (IndexPlan prev)))) as Hsteps.
  { apply bsteps_foldl. intros b' en _. by eapply diffBackendPrev_steps; [apply fits_emits|]. }
  assert (b_created b1 ⊆ F) as Hcr.
  { unfold b1. etrans; [apply diffCerts_created|]. unfold F. set_solver. }
  pose proof (next_loop b1 (bsteps_reload _ _ _ Hsteps Hr2) Hcr Hb1) as Hnext. cbv zeta in Hnext. fold B in Hnext.
  case_bool_decide as Hin.
  - destruct Hnext as [[be Hbe] Hnext].
    rewrite (bsteps_other n B); [exact Hnext|]. apply bsteps_foldl. intros b' en Hen.
    apply prev_other; [done|]. right. unfold planView. rewrite bool_decide_eq_true_2, Hbe by done.
    by eexists.
  - unfold planView at 2. rewrite bool_decide_eq_false_2 by done.
    apply prev_loop; [done|done|].
    etrans; [apply bsteps_other, bsteps_foldl|exact Hb1]. intros b' en Hen. apply next_other; [done|].
    intros Heq. apply Hin. rewrite <-Heq. by apply next_entry.
Qed.
End whole.


(** Where both renders carry their content, records are compared field by field
    and no digest has to be trusted. *)
Lemma exact_records_faithful prev next n p q :
  hasExactIdentity (Some prev) = true → hasExactIdentity (Some next) = true →
  Plan_Backends prev !! n = Some p → Plan_Backends next !! n = Some q →
  sameBackendRecord p q = true → backend_record p = backend_record q.
Proof.
  simpl. intros Hp Hq Hlp Hlq. split_bools. rewrite !forallb_forall in *.
  apply elem_of_map_to_list, list_elem_of_In in Hlp, Hlq.
  repeat match goal with
  | HB : ∀ kv, In kv _ → Backend_ContentKnown kv.2 = true, HI : In _ _ |- _ =>
      apply HB in HI; simpl in HI
  end.
  unfold sameBackendRecord. rewrite Hlp, Hlq. simpl. by intros ?%EqualRecord_spec.
Qed.
