(* ===== verification/Scenario.v ===== *)
(** * A worked deployment

    Two small renders and a pod between them: one backend changes its servers,
    one is added, one goes away with the map entry that routed to it. The
    theorems of the deployment core are applied to it. *)

From stdpp Require Import base list list_numbers gmap strings sorting.
From S2P Require Import Prelude Api GoStd RenderPlan MapDelta Composer CrtList Index Diff InPlace Rules DiffProps Guards Worker Converge.

Open Scope Z_scope.

(** ** Two renders *)

Definition section (kind name text : string) : SectionRec :=
  MkSection kind name ("sha:" +:+ text) 0 text true.

Definition server (name address : string) (weight : option Z) (disabled : bool) : Server :=
  MkServer name address 8080 weight disabled "" "" [MkKeywordArg "check" []].

Definition backend (name profile : string) (servers : list Server) : Backend :=
  MkBackend name profile "http" "" "roundrobin" "" ShapeDynamic "" servers [] "" "" "" "" [] [] true.

Definition file (path kind content : string) : PlanFile :=
  MkPlanFile path kind false ("sha:" +:+ content) 0 content true.

Definition scenario_prev : Plan :=
  {| Plan_SchemaVersion := 1; Plan_ID := "plan-1";
     Plan_Sections :=
       [section SectionKindCore "global" "maxconn 100";
        section SectionKindProfile "web" "timeout 5s";
        section SectionKindBackend "shop" "shop v1";
        section SectionKindBackend "legacy" "legacy v1"];
     Plan_Backends :=
       {["shop" := backend "shop" "web" [server "s1" "10.0.0.1" (Some 10) false;
                                         server "s2" "10.0.0.2" None false];
         "legacy" := backend "legacy" "web" [server "l1" "10.0.9.1" None false]]};
     Plan_Profiles := {["web" := MkProfile "web" "sha:web" false]};
     Plan_Maps := {["maps/host.map" := MkMap "maps/host.map" false
                      [MkEntry "shop.example" "shop"; MkEntry "old.example" "legacy"]]};
     Plan_CRTLists := ∅;
     Plan_Files := [file "haproxy.cfg" FileKindConfig "v1";
                    file "maps/host.map" FileKindMap "v1"] |}.

Definition scenario_next : Plan :=
  {| Plan_SchemaVersion := 1; Plan_ID := "plan-2";
     Plan_Sections :=
       [section SectionKindCore "global" "maxconn 100";
        section SectionKindProfile "web" "timeout 5s";
        section SectionKindBackend "shop" "shop v2";
        section SectionKindBackend "cart" "cart v1"];
     Plan_Backends :=
       {["shop" := backend "shop" "web" [server "s1" "10.0.0.7" (Some 20) true;
                                         server "s3" "10.0.0.3" (Some 5) false];
         "cart" := backend "cart" "web" [server "c1" "10.0.1.1" None false]]};
     Plan_Profiles := {["web" := MkProfile "web" "sha:web" false]};
     Plan_Maps := {["maps/host.map" := MkMap "maps/host.map" false
                      [MkEntry "shop.example" "shop"; MkEntry "cart.example" "cart"]]};
     Plan_CRTLists := ∅;
     Plan_Files := [file "haproxy.cfg" FileKindConfig "v2";
                    file "maps/host.map" FileKindMap "v2"] |}.

Definition scenario_base : Baseline :=
  {| Baseline_Applied := Some scenario_prev; Baseline_AppliedIndex := None;
     Baseline_Running := Some scenario_prev; Baseline_WorkerOps := None;
     Baseline_Inventory := InventoryOf (Some scenario_prev);
     Baseline_Caps := CapsFor "3.4.1" composedOps;
     Baseline_PendingServerDeletes := 0; Baseline_PendingBackendDeletes := 0;
     Baseline_ReloadPending := false |}.

(** A stand-in for the digest and the wire encoding. *)
Definition idDigest (s : string) : string := s.
Definition kindsOnly (ops : list Op) : string := joinWith "," (Op_Kind <$> ops).

Definition scenario_decision : Decision :=
  Eval vm_compute in
  default (MkDecision VerdictReload [] [] None 0 [] [] "")
    (Diff idDigest kindsOnly 2 (Some scenario_next) (Some scenario_base)).

Lemma scenario_diff_indexed :
  DiffIndexed idDigest kindsOnly 2 (Some scenario_next) None (Some scenario_base)
  = Some scenario_decision.
Proof. vm_compute. reflexivity. Qed.

Lemma scenario_diff :
  Diff idDigest kindsOnly 2 (Some scenario_next) (Some scenario_base) = Some scenario_decision.
Proof. exact scenario_diff_indexed. Qed.

Example scenario_ops :
  (λ o, (Op_Kind o, Op_Backend o, Op_Server o)) <$> Decision_Ops scenario_decision
  = [("backend_add", "cart", ""); ("server_add", "cart", "c1"); ("server_enable", "cart", "c1");
     ("server_set_addr", "shop", "s1"); ("server_set_weight", "shop", "s1");
     ("server_set_state", "shop", "s1");
     ("server_add", "shop", "s3"); ("server_enable", "shop", "s3");
     ("backend_publish", "cart", "");
     ("map_add", "", ""); ("map_del", "", "");
     ("backend_unpublish", "legacy", "");
     ("server_disable", "shop", "s2"); ("wait_srv_removable", "shop", "s2");
     ("server_del", "shop", "s2");
     ("server_disable", "legacy", "l1"); ("wait_srv_removable", "legacy", "l1");
     ("server_del", "legacy", "l1");
     ("wait_be_removable", "legacy", ""); ("backend_del", "legacy", "")].
Proof. vm_compute. reflexivity. Qed.

(** ** The hypotheses of the theorems, checked on the scenario *)

Lemma scenario_index_ok : indexOk scenario_base.
Proof. by left. Qed.

Lemma scenario_not_reload : Decision_Verdict scenario_decision ≠ VerdictReload.
Proof. vm_compute. discriminate. Qed.

(** A closed decidable fact about every entry of a map, by evaluation. *)
Ltac by_map_Forall P m :=
  assert (map_Forall P m) as Hall by (apply (bool_decide_unpack _); vm_compute; exact I);
  intros; by eapply Hall.

Lemma scenario_plans_ok : plans_ok scenario_prev scenario_next.
Proof.
  split.
  - apply (bool_decide_unpack _). by vm_compute.
  - apply (bool_decide_unpack _). by vm_compute.
  - apply Forall_forall. apply (bool_decide_unpack _). by vm_compute.
  - by_map_Forall (λ n be, Backend_Name be = n ∧ NoDup (Server_Name <$> Backend_Servers be))
      (Plan_Backends scenario_prev).
  - by_map_Forall (λ n be, Backend_Name be = n ∧ NoDup (Server_Name <$> Backend_Servers be))
      (Plan_Backends scenario_next).
  - by_map_Forall (λ (n : string) be, Forall (plainServer be) (Backend_Servers be))
      (Plan_Backends scenario_next).
  - intros n p q. apply exact_records_faithful; by vm_compute.
Qed.

Lemma scenario_plan_ok : plan_ok scenario_next.
Proof.
  split.
  - by vm_compute.
  - apply (bool_decide_unpack _). by vm_compute.
  - apply (bool_decide_unpack _). by vm_compute.
  - apply Forall_forall. apply (bool_decide_unpack _). by vm_compute.
  - apply (bool_decide_unpack _). by vm_compute.
  - assert (map_Forall (λ n (_ : MapRec), is_Some (fileIndex (Plan_Files scenario_next) !! n))
      (Plan_Maps scenario_next)) as Hall by (apply (bool_decide_unpack _); by vm_compute).
    intros name [m Hm]. by eapply Hall.
Qed.

(** ** Witnesses *)

Lemma decision_consistent_witness :
  Decision_Verdict scenario_decision = VerdictRuntime ∧
  Decision_Chunks scenario_decision = length (Chunk scenario_decision).
Proof.
  pose proof (decision_consistent idDigest kindsOnly 2 (Some scenario_next) None
    (Some scenario_base) scenario_decision scenario_diff_indexed) as (_ & _ & _ & Hc & _).
  split; [vm_compute; reflexivity|exact Hc].
Defined.

Lemma runtime_ops_ordered_witness :
  StronglySorted (λ a b, (phase a ≤ phase b)%nat) (Decision_Ops scenario_decision) ∧
  length (Decision_Ops scenario_decision) = 20%nat.
Proof.
  split; [|vm_compute; reflexivity].
  apply (runtime_ops_ordered idDigest kindsOnly 2 (Some scenario_next) None (Some scenario_base)).
  exact scenario_diff_indexed.
Defined.

Lemma ops_executable_witness :
  Forall (λ o, Op_Kind o ∈ composedOps ∧ executes (Baseline_Caps scenario_base) (Op_Kind o) = true)
    (Decision_Ops scenario_decision).
Proof.
  apply (ops_executable idDigest kindsOnly 2 (Some scenario_next) None scenario_base scenario_decision).
  exact scenario_diff_indexed.
Defined.

Lemma pending_deletes_capped_witness :
  countKind OpServerDel (Decision_Ops scenario_decision) = 2 ∧
  0 + countKind OpServerDel (Decision_Ops scenario_decision) ≤ MaxPendingServerDeletes.
Proof.
  split; [vm_compute; reflexivity|].
  apply (pending_deletes_capped idDigest kindsOnly 2 (Some scenario_next) None scenario_base
    scenario_decision); [exact scenario_diff_indexed|vm_compute; discriminate|vm_compute; discriminate].
Defined.

(** The manifest of the scenario's single batch. *)
Definition scenario_manifest : Manifest :=
  {| Manifest_IdentityVersion := 1; Manifest_PlanID := "plan-2"; Manifest_PlanProof := "proof-2";
     Manifest_PlanSchemaVersion := 1; Manifest_Token := MkToken 1 2;
     Manifest_ExpectedPrevPlanID := "plan-1"; Manifest_ExpectedPrevPlanProof := "proof-1";
     Manifest_ExpectedPrevToken := MkToken 1 1; Manifest_ExpectedWorkerOpsPlanID := "";
     Manifest_ExpectedWorkerOpsPlanProof := ""; Manifest_WorkerOpsPlanID := "";
     Manifest_WorkerOpsPlanProof := ""; Manifest_ValidatedPlanID := "";
     Manifest_ValidatedPlanProof := ""; Manifest_Files := Files (Some scenario_next);
     Manifest_Ops := Decision_Ops scenario_decision; Manifest_OpBatches := [];
     Manifest_InPlaceOps := []; Manifest_Mode := ModeAuto |}.

Lemma chunks_fit_manifest_witness :
  ValidateOpBatches scenario_manifest = None ∧
  RuntimeOps scenario_manifest = Decision_Ops scenario_decision.
Proof.
  apply (chunks_fit_manifest idDigest kindsOnly 2 (Some scenario_next) None (Some scenario_base)
    scenario_decision scenario_manifest).
  - exact scenario_diff_indexed.
  - vm_compute. reflexivity.
  - vm_compute. reflexivity.
Defined.

Lemma no_reload_preserves_static_config_witness :
  ∃ prev, Baseline_Applied scenario_base = Some prev ∧
    Plan_SchemaVersion prev = Plan_SchemaVersion scenario_next.
Proof.
  destruct (no_reload_preserves_static_config idDigest kindsOnly 2 scenario_next scenario_base
    scenario_decision scenario_index_ok scenario_diff scenario_not_reload)
    as (prev & Hp & Hs & _).
  exists prev. split; [exact Hp|exact Hs].
Defined.

Definition converged_base : Baseline :=
  {| Baseline_Applied := Some scenario_next; Baseline_AppliedIndex := None;
     Baseline_Running := Some scenario_next; Baseline_WorkerOps := None;
     Baseline_Inventory := InventoryOf (Some scenario_next);
     Baseline_Caps := CapsFor "3.4.1" composedOps;
     Baseline_PendingServerDeletes := 0; Baseline_PendingBackendDeletes := 0;
     Baseline_ReloadPending := false |}.

Lemma diff_self_is_file_only_witness :
  ∃ d, Diff idDigest kindsOnly 2 (Some scenario_next) (Some converged_base) = Some d ∧
    Decision_Verdict d = VerdictFileOnly ∧ Decision_Ops d = [] ∧ Decision_Reasons d = [].
Proof.
  eexists. split; [vm_compute; reflexivity|].
  apply (diff_self_is_file_only idDigest kindsOnly 2 scenario_next converged_base).
  - exact scenario_plan_ok.
  - left. reflexivity.
  - reflexivity.
  - vm_compute. reflexivity.
Defined.

(** The reference worker running the scenario's applied plan. *)
Definition scenario_knowledge : Knowledge :=
  {| k_dynamicServers := true; k_dynamicBackends := true; k_initState := true;
     k_profiles := {["web" := ("roundrobin", "")]}; k_crtBase := certDirOf (Some scenario_next);
     k_certs := Inventory_Certs (Baseline_Inventory scenario_base);
     k_caFiles := Inventory_CAFiles (Baseline_Inventory scenario_base);
     k_crlFiles := Inventory_CRLFiles (Baseline_Inventory scenario_base) |}.

Definition scenario_worker : Knowledge * gmap string WBackend :=
  (scenario_knowledge, backendView <$> Plan_Backends scenario_prev).

Lemma scenario_pod_ok : pod_ok (rt_knows scenario_worker) scenario_base scenario_prev scenario_next.
Proof.
  split.
  - by split.
  - assert (map_Forall (λ (n : string) be, k_profiles scenario_knowledge !! Backend_Profile be
      = Some (Backend_Balance be, Backend_HashType be)) (Plan_Backends scenario_next)) as Hall
      by (apply (bool_decide_unpack _); by vm_compute).
    intros n be Hbe _ _. by eapply Hall.
  - assert (map_Forall (λ (n : string) be, Forall (λ srv, Forall (λ kw, KeywordArg_Name kw = keywordCheck)
      (mergeKeywords (Backend_DefaultServer be) (Server_Extra srv))) (Backend_Servers be))
      (Plan_Backends scenario_next)) as Hall by (apply (bool_decide_unpack _); by vm_compute).
    intros n be srv Hbe Hin. specialize (Hall n be Hbe). simpl in Hall. rewrite Forall_forall in Hall.
    eapply Forall_impl; [by apply Hall|]. intros kw Hkw. simpl in Hkw. split; [by rewrite Hkw|].
    unfold inventoryOf. rewrite Hkw. by vm_compute.
Qed.


(** ** A weight the runtime add loses *)

Definition weighted_backend : Backend :=
  MkBackend "shop" "web" "http" "" "roundrobin" "" ShapeDynamic ""
    [server "s1" "10.0.0.1" (Some 5) false] [MkKeywordArg keywordWeight ["10"]] "" "" "" "" [] [] true.

Definition scenario_composer : Composer :=
  MkComposer (CapsFor "3.4.1" composedOps) (InventoryOf None) ∅ "".

(** A backend whose default-server line sets a weight overrides the weight a
    server declares itself when that server is added at runtime: the worker gets
    weight 10 where the render, and the configuration file a reload would load,
    say 5. *)
Theorem default_weight_masks_server_weight :
  ∃ ops be,
    addServer scenario_composer weighted_backend (server "s1" "10.0.0.1" (Some 5) false) = inl ops ∧
    beRun scenario_knowledge (Some (MkWBackend "web" "http" "" "roundrobin" "" true ∅)) ops = Some (Some be) ∧
    (ws_weight <$> wb_servers be !! "s1") = Some (Some ["10"]) ∧
    (ws_weight <$> serversView weighted_backend !! "s1") = Some (Some ["5"]).
Proof.
  do 2 eexists. split; [vm_compute; reflexivity|]. split; [vm_compute; reflexivity|].
  split; vm_compute; reflexivity.
Qed.

(** ** A certificate a server names before it exists *)

(** The applied plan with a server that names a new certificate, and the
    certificate. *)
Definition secured_next : Plan :=
  {| Plan_SchemaVersion := 1; Plan_ID := "plan-3";
     Plan_Sections := take 3 (Plan_Sections scenario_prev) ++ [section SectionKindBackend "legacy" "legacy v2"];
     Plan_Backends :=
       <["legacy" := backend "legacy" "web"
           [server "l1" "10.0.9.1" None false;
            MkServer "l2" "10.0.9.2" 8443 None false "" ""
              [MkKeywordArg "ssl" []; MkKeywordArg keywordCRT ["/etc/haproxy/ssl/client.pem"]]]]>
         (Plan_Backends scenario_prev);
     Plan_Profiles := Plan_Profiles scenario_prev; Plan_Maps := Plan_Maps scenario_prev;
     Plan_CRTLists := ∅;
     Plan_Files := [file "haproxy.cfg" FileKindConfig "v2"; file "maps/host.map" FileKindMap "v1";
                    file "/etc/haproxy/ssl/client.pem" FileKindCert "pem"] |}.

(** The composer counts the certificate as loaded because the same diff creates
    it, but the ops of a new server come before those of certificates: the worker
    is asked for the server first and refuses it. *)
Example new_certificate_named_too_early :
  ∃ d, Diff idDigest kindsOnly 2 (Some secured_next) (Some scenario_base) = Some d ∧
    Decision_Verdict d = VerdictRuntime ∧
    (Op_Kind <$> Decision_Ops d) = [OpServerAdd; OpServerEnable; OpCertNew] ∧
    rt_run scenario_worker (Decision_Ops d) = None ∧
    rt_run (W:=Knowledge * gmap string WBackend)
      (MkKnowledge true true true (k_profiles scenario_knowledge) (k_crtBase scenario_knowledge)
         ["/etc/haproxy/ssl/client.pem"] [] [], scenario_worker.2) (Decision_Ops d) ≠ None.
Proof.
  eexists. split; [vm_compute; reflexivity|]. split; [reflexivity|]. split; [reflexivity|].
  split; [vm_compute; reflexivity|]. vm_compute. discriminate.
Qed.
