(* ===== verification/Cli.v ===== *)
(** * Runtime commands

    Models [src/pkg/dataplane/agent/cli]: the token checks ([tokens.go]), the
    compilation of a typed op into runtime commands ([program.go],
    [program_files.go]) and the line a batch of commands travels on
    ([client.go]). A command line is bytes that HAProxy splits again, so what
    matters is what the bytes split into. *)

From Stdlib Require Import Ascii.
From stdpp Require Import base list list_numbers strings.
From S2P Require Import Prelude Api GoStd RenderPlan MapEntries.

Open Scope Z_scope.

(** ** Tokens (tokens.go) *)

Definition PayloadTerminator : string := "HAPTIC".

(** Why an op has no program. *)
Inductive CompileError := UnknownOp | UnsafeToken | NoContent | LineTooLong | PayloadTooLong.

Definition validateToken (s : string) : bool :=
  negb (bool_decide (s = "")) && SafeToken s.

Definition validatePayloadValue (s : string) : bool := SafePayloadValue s.

(** [strings.TrimRight] for carriage returns. *)
Definition carriageReturn : ascii := Ascii.ascii_of_N 13.

Fixpoint trimRightCR (s : string) : string :=
  match s with
  | EmptyString => ""
  | String c r =>
      let rest := trimRightCR r in
      if bool_decide (rest = "") && Ascii.eqb c carriageReturn then "" else String c rest
  end.

Definition validatePayloadBlock (payload : string) : bool :=
  forallb (λ line, negb (bool_decide (trimRightCR line = PayloadTerminator))) (split newline payload).

Definition validateEnum (s : string) (allowed : list string) : bool := contains allowed s.

(** ** Commands and programs (program.go) *)

Record Command := MkCommand {
  Command_Text : string;
  Command_Payload : string;
  Command_Expect : string;
  Command_Capture : bool;
  Command_Repeat : bool;
  Command_Optional : bool;
}.

(** A command with a text and an expected answer only. *)
Definition plain (text expect : string) : Command := MkCommand text "" expect false false false.

Record Program := MkProgram {
  Program_Kind : string;
  Program_Commands : list Command;
  Program_Abort : list Command;
}.

Definition expectDone : string := "Done".

Definition VersionPlaceholder : string :=
  String (Ascii.ascii_of_N 1) ("ver" +:+ String (Ascii.ascii_of_N 1) "").

(** [Content]: the bytes of a path on disk, [None] on an error. *)
Definition Content := string → option string.

(** What a compiler answers: commands and abort commands. *)
Definition Compiled : Type := (list Command * list Command) + CompileError.

Definition compiler := Op → Content → Compiled.

(** A compiler's early return when a check fails. *)
Definition require (ok : bool) (k : Compiled) : Compiled := if ok then k else inr UnsafeToken.

Definition compileBackendAdd : compiler := λ op _,
  require (validateToken (Op_Backend op) && validateToken (Op_Profile op)
           && validateEnum (Op_Mode op) ["http"; "tcp"])
  (let text := "add backend " +:+ Op_Backend op +:+ " from " +:+ Op_Profile op +:+ " mode " +:+ Op_Mode op in
   if bool_decide (Op_GUID op = "") then inl ([plain text "New backend registered"], [])
   else require (validateToken (Op_GUID op))
          (inl ([plain (text +:+ " guid " +:+ Op_GUID op) "New backend registered"], []))).

Definition compileBackendVerb (verb expect : string) : compiler := λ op _,
  require (validateToken (Op_Backend op)) (inl ([plain (verb +:+ " " +:+ Op_Backend op) expect], [])).

(** [serverRef]; [None] is its error. *)
Definition serverRef (op : Op) : option string :=
  if validateToken (Op_Backend op) && validateToken (Op_Server op)
  then Some (Op_Backend op +:+ "/" +:+ Op_Server op) else None.

Definition withRef (op : Op) (k : string → Compiled) : Compiled :=
  match serverRef op with Some ref => k ref | None => inr UnsafeToken end.

Definition compileServerVerb (verb expect : string) : compiler := λ op _,
  withRef op (λ ref, inl ([plain (verb +:+ " " +:+ ref) expect], [])).

(** [waitMs]; [None] is its error. *)
Definition waitMs (ms : Z) : option Z :=
  if (ms <=? 0) || (MaxWaitBudgetMs <? ms) then None else Some ms.

Definition withMs (op : Op) (k : Z → Compiled) : Compiled :=
  match waitMs (Op_TimeoutMs op) with Some ms => k ms | None => inr UnsafeToken end.

Definition compileWaitBackend : compiler := λ op _,
  require (validateToken (Op_Backend op))
    (withMs op (λ ms, inl ([plain ("wait " +:+ itoa ms +:+ " be-removable " +:+ Op_Backend op) expectDone], []))).

Definition compileWaitServer : compiler := λ op _,
  withRef op (λ ref, withMs op (λ ms,
    inl ([plain ("wait " +:+ itoa ms +:+ " srv-removable " +:+ ref) expectDone], []))).

(** What [writeKeyword] appends; [None] is its error. *)
Fixpoint writeArgs (args : list string) : option string :=
  match args with
  | [] => Some ""
  | arg :: rest => if validateToken arg then (λ s, " " +:+ arg +:+ s) <$> writeArgs rest else None
  end.

Definition writeKeyword (kw : KeywordArg) : option string :=
  if validateToken (KeywordArg_Name kw)
  then (λ s, " " +:+ KeywordArg_Name kw +:+ s) <$> writeArgs (KeywordArg_Args kw) else None.

Fixpoint writeKeywords (kws : list KeywordArg) : option string :=
  match kws with
  | [] => Some ""
  | kw :: rest =>
      match writeKeyword kw, writeKeywords rest with
      | Some s, Some t => Some (s +:+ t)
      | _, _ => None
      end
  end.

Definition compileServerAdd : compiler := λ op _,
  withRef op (λ ref,
    require (validateToken (Op_Address op))
      match writeKeywords (Op_Keywords op) with
      | Some keywords =>
          inl ([plain ("add server " +:+ ref +:+ " " +:+ Op_Address op
                       +:+ (if 0 <? Op_Port op then ":" +:+ itoa (Op_Port op) else "")
                       +:+ keywords) "New server registered"], [])
      | None => inr UnsafeToken
      end).

Definition compileServerEnable : compiler := λ op _,
  withRef op (λ ref,
    inl ((if Op_Health op then [plain ("enable health " +:+ ref) ""] else [])
         ++ [plain ("enable server " +:+ ref) ""], [])).

Definition compileServerSetAddr : compiler := λ op _,
  withRef op (λ ref,
    require (validateToken (Op_Address op))
      (inl ([plain ("set server " +:+ ref +:+ " addr " +:+ Op_Address op
                    +:+ (if 0 <? Op_Port op then " port " +:+ itoa (Op_Port op) else "")) "chang"], []))).

Definition compileServerSetWeight : compiler := λ op _,
  withRef op (λ ref,
    match Op_Weight op with
    | None => inr UnsafeToken
    | Some w => inl ([plain ("set server " +:+ ref +:+ " weight " +:+ itoa w) ""], [])
    end).

Definition compileServerSetState : compiler := λ op _,
  withRef op (λ ref,
    require (validateEnum (Op_State op) ["ready"; "maint"; "drain"])
      (inl ([plain ("set server " +:+ ref +:+ " state " +:+ Op_State op) ""], []))).

(** ** Maps, certificates and crt-lists (program_files.go) *)

Definition compileMapAdd : compiler := λ op _,
  require (validateToken (Op_Path op) && validateToken (Op_Key op) && validatePayloadValue (Op_Value op))
    (inl ([MkCommand ("add map " +:+ Op_Path op)
             (Op_Key op +:+ " " +:+ Op_Value op +:+ String newline "") "" false false false], [])).

Definition compileMapSet : compiler := λ op _,
  require (validateToken (Op_Path op) && validateToken (Op_Key op) && validateToken (Op_Value op))
    (inl ([plain ("set map " +:+ Op_Path op +:+ " " +:+ Op_Key op +:+ " " +:+ Op_Value op) ""], [])).

Definition compileMapDel : compiler := λ op _,
  require (validateToken (Op_Path op) && validateToken (Op_Key op))
    (inl ([MkCommand ("del map " +:+ Op_Path op +:+ " " +:+ Op_Key op) "" "" false true false], [])).

(** [mapPayload]. *)
Definition entryLine (e : Entry) : string :=
  Entry_Key e +:+ (if bool_decide (Entry_Value e = "") then "" else " " +:+ Entry_Value e)
  +:+ String newline "".

Definition mapPayload (body : string) : string :=
  foldr (λ e s, entryLine e +:+ s) "" (default [] (ParseMapEntries body)).

(** The pieces [strings.SplitAfter] cuts at newlines. *)
Fixpoint splitAfter (sep : ascii) (s : string) : list string :=
  match s with
  | EmptyString => [""]
  | String c r =>
      if Ascii.eqb c sep then String c "" :: splitAfter sep r
      else match splitAfter sep r with
           | [] => [String c ""]
           | f :: fs => String c f :: fs
           end
  end.

(** [strings.HasSuffix] for a newline. *)
Definition endsWithNewline (s : string) : bool := bool_decide (last (chars s) = Some newline).

(** The loop of [chunkLines]: [current] is the block being filled, [chunks] the
    full ones, newest first. *)
Fixpoint chunkLoop (limit : Z) (lines : list string) (chunks : list string) (current : string) :
    option (list string) :=
  match lines with
  | [] => Some (reverse (if bool_decide (current = "") then chunks else current :: chunks))
  | line :: rest =>
      if bool_decide (line = "") then chunkLoop limit rest chunks current
      else
        let line := if endsWithNewline line then line else line +:+ String newline "" in
        if limit <? Z.of_nat (String.length line) then None
        else if limit <? Z.of_nat (String.length current) + Z.of_nat (String.length line)
             then chunkLoop limit rest (current :: chunks) line
             else chunkLoop limit rest chunks (current +:+ line)
  end.

Definition chunkLines (body : string) (limit : Z) : option (list string) :=
  chunkLoop limit (splitAfter newline body) [] "".

Definition compileMapReplace : compiler := λ op content,
  require (validateToken (Op_Path op))
    match content (Op_Path op) with
    | None => inr NoContent
    | Some body =>
        match chunkLines (mapPayload body) MaxPayloadBytes with
        | None => inr UnsafeToken
        | Some chunks =>
            inl ([MkCommand ("prepare map " +:+ Op_Path op) "" "version created" true false false]
                 ++ ((λ chunk, MkCommand ("add map @" +:+ VersionPlaceholder +:+ " " +:+ Op_Path op)
                                 chunk "" false false false) <$> chunks)
                 ++ [plain ("commit map @" +:+ VersionPlaceholder +:+ " " +:+ Op_Path op) ""], [])
        end
    end.

(** [compileCert] and [compileCA]: the same transaction on two stores. *)
Definition compileStore (store created : string) (create : bool) : compiler := λ op content,
  require (validateToken (Op_Path op))
    match content (Op_Path op) with
    | None => inr NoContent
    | Some pem =>
        inl ((if create then [plain ("new ssl " +:+ store +:+ " " +:+ Op_Path op) created] else [])
             ++ [MkCommand ("set ssl " +:+ store +:+ " " +:+ Op_Path op) pem "transaction" false false false;
                 plain ("commit ssl " +:+ store +:+ " " +:+ Op_Path op) "Success!"],
             [plain ("abort ssl " +:+ store +:+ " " +:+ Op_Path op) ""])
    end.

Definition compileCert (create : bool) : compiler :=
  compileStore "cert" "New empty certificate store" create.

Definition compileCA (create : bool) : compiler := compileStore "ca-file" "New CA file created" create.

(** [crtListEntry]; [None] is its error. Options travel in brackets, and the
    blank in front of the first one is the bracket's. *)
Fixpoint writeOptions (first : bool) (kws : list KeywordArg) : option string :=
  match kws with
  | [] => Some ""
  | kw :: rest =>
      if validateToken (KeywordArg_Name kw) then
        match writeArgs (KeywordArg_Args kw), writeOptions false rest with
        | Some args, Some more =>
            Some ((if first then "" else " ") +:+ KeywordArg_Name kw +:+ args +:+ more)
        | _, _ => None
        end
      else None
  end.

Definition crtListEntry (op : Op) : option string :=
  match (if bool_decide (Op_Options op = []) then Some ""
         else (λ s, " [" +:+ s +:+ "]") <$> writeOptions true (Op_Options op)),
        writeArgs (Op_SNIFilters op) with
  | Some options, Some filters => Some (Op_Cert op +:+ options +:+ filters)
  | _, _ => None
  end.

Definition compileCRTListAdd : compiler := λ op _,
  require (validateToken (Op_Path op) && validateToken (Op_Cert op))
    match crtListEntry op with
    | Some entry => inl ([MkCommand ("add ssl crt-list " +:+ Op_Path op)
                            (entry +:+ String newline "") "Success" false false false], [])
    | None => inr UnsafeToken
    end.

Definition compileCRTListDel : compiler := λ op _,
  require (validateToken (Op_Path op) && validateToken (Op_Cert op))
    (inl ([plain ("del ssl crt-list " +:+ Op_Path op +:+ " " +:+ Op_Cert op) ""], [])).

(** ** The op table *)

Definition compilers : list (string * compiler) :=
  [(OpBackendAdd, compileBackendAdd);
   (OpBackendPublish, compileBackendVerb "publish backend" "Backend published");
   (OpBackendUnpublish, compileBackendVerb "unpublish backend" "");
   (OpBackendDel, compileBackendVerb "del backend" "Backend deleted");
   (OpBackendWaitRemovable, compileWaitBackend);
   (OpServerAdd, compileServerAdd);
   (OpServerEnable, compileServerEnable);
   (OpServerDisable, compileServerVerb "disable server" "");
   (OpServerSetAddr, compileServerSetAddr);
   (OpServerSetWeight, compileServerSetWeight);
   (OpServerSetState, compileServerSetState);
   (OpServerWaitRemovable, compileWaitServer);
   (OpShutdownSessions, compileServerVerb "shutdown sessions server" "");
   (OpServerDel, compileServerVerb "del server" "Server deleted");
   (OpMapAdd, compileMapAdd);
   (OpMapSet, compileMapSet);
   (OpMapDel, compileMapDel);
   (OpMapReplace, compileMapReplace);
   (OpCertSet, compileCert false);
   (OpCertNew, compileCert true);
   (OpCASet, compileCA false);
   (OpCANew, compileCA true);
   (OpCRTListAdd, compileCRTListAdd);
   (OpCRTListDel, compileCRTListDel)].

Definition Kinds : list string := compilers.*1.

(** The checks of [Compile] on every command. *)
Fixpoint checkCommands (cmds : list Command) : option CompileError :=
  match cmds with
  | [] => None
  | c :: rest =>
      if MaxCommandLineBytes <? Z.of_nat (String.length (Command_Text c)) then Some LineTooLong
      else if MaxPayloadBytes <? Z.of_nat (String.length (Command_Payload c)) then Some PayloadTooLong
      else if validatePayloadBlock (Command_Payload c) then checkCommands rest
      else Some UnsafeToken
  end.

Definition Compile (op : Op) (content : Content) : Program + CompileError :=
  match List.find (λ entry, bool_decide (entry.1 = Op_Kind op)) compilers with
  | None => inr UnknownOp
  | Some (_, build) =>
      match build op content with
      | inr err => inr err
      | inl (cmds, abort) =>
          match checkCommands cmds with
          | Some err => inr err
          | None => inl (MkProgram (Op_Kind op) cmds abort)
          end
      end
  end.

(** ** The line of a batch (client.go) *)

Definition experimentalPrefix : string := "experimental-mode on".

(** [joinLine]; the transport appends the newline that ends the line. *)
Definition joinLine (pending : list Command) : string :=
  let head := foldl (λ b c, b +:+ ";" +:+ Command_Text c) experimentalPrefix pending in
  match last pending with
  | Some c =>
      if bool_decide (Command_Payload c = "") then head
      else head +:+ " <<" +:+ PayloadTerminator +:+ String newline ""
           +:+ Command_Payload c
           +:+ (if endsWithNewline (Command_Payload c) then "" else String newline "")
           +:+ PayloadTerminator
  | None => head
  end.

(** [strings.ReplaceAll] for a non-empty [old]: after a match, the rest of the
    matched bytes is skipped. *)
Fixpoint replaceFrom (old new : string) (skip : nat) (s : string) : string :=
  match s with
  | EmptyString => ""
  | String c r =>
      match skip with
      | S k => replaceFrom old new k r
      | O => match stripPrefix old s with
             | Some _ => new +:+ replaceFrom old new (String.length old - 1) r
             | None => String c (replaceFrom old new 0 r)
             end
      end
  end.

(** The text [execution.program] sends: the version [prepare map] allocated in
    place of the placeholder. *)
Definition substituteVersion (version : string) (c : Command) : Command :=
  MkCommand (replaceFrom VersionPlaceholder version 0 (Command_Text c)) (Command_Payload c)
    (Command_Expect c) (Command_Capture c) (Command_Repeat c) (Command_Optional c).
