(* ===== verification/CliProps.v ===== *)
(** * Correctness of the runtime commands

    No rendered byte can start a second command, end a payload early or add a
    word: what the worker splits a line into is exactly the commands compiled.
    Payload chunks never cut a line, and the payload of a map replace carries
    the entries of the file. *)

From Stdlib Require Import Ascii.
From stdpp Require Import base sets list list_numbers strings pretty.
From S2P Require Import Prelude Api GoStd RenderPlan MapEntries Cli.

Open Scope Z_scope.

(** ** Safe texts *)

(** No byte that ends a command, a word group or a line. *)
Definition safeText (s : string) : bool :=
  negb (containsByte (λ b, bool_decide (b ∈ unsafeRunes)) s).

Lemma containsByte_append p s t : containsByte p (s +:+ t) = containsByte p s || containsByte p t.
Proof. induction s as [|c s IH]; [done|]. rewrite append_cons. simpl. by rewrite IH, orb_assoc. Qed.

Lemma containsByte_false p s : containsByte p s = false ↔ Forall (λ c, p (byteOf c) = false) (chars s).
Proof.
  induction s as [|c s IH]; simpl; [by split|]. rewrite orb_false_iff, IH, Forall_cons. done.
Qed.

Lemma safeText_append s t : safeText (s +:+ t) = safeText s && safeText t.
Proof. unfold safeText. by rewrite containsByte_append, negb_orb. Qed.

Lemma safeText_token s : validateToken s = true → safeText s = true.
Proof. unfold validateToken, SafeToken, safeText. intros H. split_bools. by apply negb_true_iff. Qed.

Lemma safeText_no c s : safeText s = true → bool_decide (byteOf c ∈ unsafeRunes) = true → c ∉ chars s.
Proof.
  unfold safeText. intros Hs%negb_true_iff%containsByte_false Hc Hin.
  rewrite Forall_forall in Hs. apply Hs in Hin. congruence.
Qed.

Lemma isDigit_safe c : isDigit c = true → bool_decide (byteOf c ∈ unsafeRunes) = false.
Proof.
  unfold isDigit. intros H. apply andb_true_iff in H as [H1%N.leb_le H2%N.leb_le].
  apply bool_decide_eq_false_2. unfold unsafeRunes. rewrite !elem_of_cons, elem_of_nil. lia.
Qed.

Lemma digits_safe s : Forall (λ c, isDigit c = true) (chars s) → safeText s = true.
Proof.
  intros H. unfold safeText. apply negb_true_iff, containsByte_false.
  eapply Forall_impl; [exact H|]. intros c. apply isDigit_safe.
Qed.

Lemma safeText_itoa z : safeText (itoa z) = true.
Proof.
  unfold itoa, pretty, pretty_Z. destruct z as [|p|p]; [done|..].
  - change (pretty p) with (pretty_N_go (N.pos p) ""). by apply digits_safe, pretty_N_go_digits.
  - rewrite safeText_append. change (pretty p) with (pretty_N_go (N.pos p) "").
    by apply andb_true_iff; split; [|apply digits_safe, pretty_N_go_digits].
Qed.

Lemma safeText_enum s allowed :
  forallb safeText allowed = true → validateEnum s allowed = true → safeText s = true.
Proof.
  intros Hall Hs. unfold validateEnum, contains in Hs. split_bools.
  eapply forallb_forall in Hall; [exact Hall|]. by apply list_elem_of_In.
Qed.

(** Splits the checks of a compiler and its text into their parts. *)
Create HintDb safe_text.
#[export] Hint Resolve safeText_token safeText_itoa : safe_text.
Ltac safe_text :=
  rewrite ?safeText_append; rewrite ?andb_true_iff;
  repeat match goal with |- _ ∧ _ => split end;
  eauto with safe_text; try (vm_compute; reflexivity).

Lemma safeText_args args s : writeArgs args = Some s → safeText s = true.
Proof.
  revert s. induction args as [|a args IH]; intros s; simpl; [by intros [= <-]|].
  destruct (validateToken a) eqn:Ha; [|done]. intros (t & Ht%IH & ->)%fmap_Some. safe_text.
Qed.

Lemma safeText_keywords kws s : writeKeywords kws = Some s → safeText s = true.
Proof.
  revert s. induction kws as [|kw kws IH]; intros s; simpl; [by intros [= <-]|].
  destruct (writeKeyword kw) as [t|] eqn:Hk; [|done].
  destruct (writeKeywords kws) as [u|]; [|done]. intros [= <-].
  unfold writeKeyword in Hk. destruct (validateToken _) eqn:Hn; [|done].
  apply fmap_Some in Hk as (v & Hv & ->). apply safeText_args in Hv. safe_text.
Qed.

Lemma safeText_ref op ref : serverRef op = Some ref → safeText ref = true.
Proof.
  unfold serverRef. destruct (_ && _) eqn:H; [|done]. intros [= <-]. split_bools. safe_text.
Qed.
#[export] Hint Resolve safeText_args safeText_keywords safeText_ref : safe_text.

(** A compiler's commands are safe texts, and its aborts carry no payload. *)
Definition safeCompiled (r : Compiled) : Prop :=
  match r with
  | inl (cmds, abort) =>
      Forall (λ c, safeText (Command_Text c) = true) cmds ∧
      Forall (λ c, safeText (Command_Text c) = true ∧ Command_Payload c = "") abort
  | inr _ => True
  end.

Lemma require_safe ok k : (ok = true → safeCompiled k) → safeCompiled (require ok k).
Proof. destruct ok; simpl; auto. Qed.

Lemma withRef_safe op k : (∀ ref, serverRef op = Some ref → safeCompiled (k ref)) → safeCompiled (withRef op k).
Proof. unfold withRef. destruct (serverRef op); simpl; auto. Qed.

Lemma withMs_safe op k : (∀ ms, safeCompiled (k ms)) → safeCompiled (withMs op k).
Proof. unfold withMs. destruct (waitMs _); simpl; auto. Qed.

Ltac compiler_safe :=
  intros;
  repeat first [apply require_safe; intros; split_bools | apply withRef_safe; intros ?ref ?Href
               | apply withMs_safe; intros ?ms | case_match];
  simpl; try done;
  repeat first [split | constructor | apply Forall_app_2 | apply Forall_fmap, Forall_true; intros ?];
  simpl; safe_text;
  try (eapply safeText_enum; [|eassumption]; vm_compute; reflexivity).

Lemma compilers_safe kind build op content :
  (kind, build) ∈ compilers → safeCompiled (build op content).
Proof.
  unfold compilers. rewrite !elem_of_cons, elem_of_nil.
  intros H. repeat destruct H as [[= -> ->]|H]; try done.
  all: unfold compileBackendAdd, compileBackendVerb, compileWaitBackend, compileServerAdd,
    compileServerEnable, compileServerVerb, compileServerSetAddr, compileServerSetWeight,
    compileServerSetState, compileWaitServer, compileMapAdd, compileMapSet, compileMapDel,
    compileMapReplace, compileCert, compileCA, compileStore, compileCRTListAdd, compileCRTListDel.
  all: compiler_safe.
Qed.

Lemma checkCommands_None cmds :
  checkCommands cmds = None →
  Forall (λ c, Z.of_nat (String.length (Command_Text c)) <= MaxCommandLineBytes ∧
               Z.of_nat (String.length (Command_Payload c)) <= MaxPayloadBytes ∧
               validatePayloadBlock (Command_Payload c) = true) cmds.
Proof.
  induction cmds as [|c cmds IH]; cbn [checkCommands]; [constructor|].
  destruct (MaxCommandLineBytes <? _) eqn:E1; [done|].
  destruct (MaxPayloadBytes <? _) eqn:E2; [done|].
  destruct (validatePayloadBlock _) eqn:E3; [|done].
  intros H. constructor; [|by apply IH]. split_and!; [lia|lia|done].
Qed.

Lemma Compile_inl op content p :
  Compile op content = inl p →
  Forall (λ c, safeText (Command_Text c) = true ∧ validatePayloadBlock (Command_Payload c) = true ∧
               Z.of_nat (String.length (Command_Text c)) <= MaxCommandLineBytes ∧
               Z.of_nat (String.length (Command_Payload c)) <= MaxPayloadBytes) (Program_Commands p) ∧
  Forall (λ c, safeText (Command_Text c) = true ∧ Command_Payload c = "") (Program_Abort p).
Proof.
  unfold Compile. destruct (List.find _ _) as [[kind build]|] eqn:Hf; [|done].
  apply find_some in Hf as [Hin _]. apply list_elem_of_In in Hin.
  pose proof (compilers_safe kind build op content Hin) as Hsafe.
  destruct (build op content) as [[cmds abort]|]; [|done].
  destruct (checkCommands cmds) eqn:Hc; [done|]. intros [= <-]. simpl.
  destruct Hsafe as [H1 H2]. split; [|done]. apply checkCommands_None in Hc.
  rewrite Forall_forall in *. intros c Hin'. destruct (Hc c Hin') as (? & ? & ?). auto.
Qed.

(** ** How the worker reads a line

    A command line ends at the first newline; commands are separated by
    semicolons and words by blanks. A double less-than sign after the last
    command names the pattern that ends the payload, which starts on the next
    line; a payload line may end in a carriage return. *)

Definition words (s : string) : list string := filter (λ w, w ≠ "") (split " " s).

Fixpoint readPayload (pattern : string) (lines : list string) : option (list string * list string) :=
  match lines with
  | [] => None
  | line :: rest =>
      if bool_decide (trimRightCR line = pattern) then Some ([], rest)
      else match readPayload pattern rest with
           | Some (payload, later) => Some (line :: payload, later)
           | None => None
           end
  end.

(** The commands (as words), the payload lines, and the lines that follow. *)
Definition receive (stream : string) : option (list (list string) * list string * list string) :=
  let '(header, rest) := cut newline stream in
  if bool_decide ("<"%char ∈ chars header) then
    let '(before, after) := cut "<" header in
    match stripPrefix "<" after with
    | Some pattern =>
        match readPayload pattern (split newline rest) with
        | Some (payload, later) => Some (words <$> split ";" before, payload, later)
        | None => None
        end
    | None => None
    end
  else Some (words <$> split ";" header, [], split newline rest).

(** The lines of a payload, without the newline that ends it. *)
Definition payloadLines (payload : string) : list string :=
  if bool_decide (payload = "") then []
  else if endsWithNewline payload then removelast (split newline payload) else split newline payload.

Lemma readPayload_block payload rest :
  Forall (λ line, trimRightCR line ≠ PayloadTerminator) payload →
  readPayload PayloadTerminator (payload ++ PayloadTerminator :: rest) = Some (payload, rest).
Proof.
  induction payload as [|line payload IH]; intros H; cbn [readPayload app].
  - by rewrite bool_decide_eq_true_2.
  - apply Forall_cons in H as [H1 H2]. rewrite bool_decide_eq_false_2 by done. by rewrite (IH H2).
Qed.

Lemma endsWithNewline_true s : endsWithNewline s = true → ∃ q, s = q +:+ String newline "".
Proof.
  unfold endsWithNewline. rewrite bool_decide_eq_true. intros H.
  induction s as [|c s IH]; [done|]. simpl in H. destruct s as [|c' s].
  - simpl in H. injection H as ->. by exists "".
  - destruct IH as [q ->]; [done|]. by exists (String c q).
Qed.

Lemma validatePayloadBlock_lines payload :
  validatePayloadBlock payload = true →
  Forall (λ line, trimRightCR line ≠ PayloadTerminator) (split newline payload).
Proof.
  unfold validatePayloadBlock. intros H. apply Forall_forall. intros line Hin.
  rewrite forallb_forall in H. apply list_elem_of_In, H in Hin. by split_bools.
Qed.

(** The payload block is read back whole, and reading stops at its end. *)
Lemma readPayload_sent payload later :
  payload ≠ "" → validatePayloadBlock payload = true →
  readPayload PayloadTerminator
    (split newline (payload +:+ (if endsWithNewline payload then "" else String newline "")
                    +:+ PayloadTerminator +:+ String newline later))
  = Some (payloadLines payload, split newline later).
Proof.
  intros Hne Hblock. unfold payloadLines. rewrite bool_decide_eq_false_2 by done.
  apply validatePayloadBlock_lines in Hblock.
  assert (Hterm : split newline (PayloadTerminator +:+ String newline later)
                  = PayloadTerminator :: split newline later) by (by rewrite split_append).
  destruct (endsWithNewline payload) eqn:E.
  - apply endsWithNewline_true in E as [q ->]. rewrite append_nil_l.
    rewrite append_assoc. change (String newline "" +:+ ?x) with (String newline x).
    rewrite split_append, Hterm.
    assert (Hq : split newline (q +:+ String newline "") = split newline q ++ [""])
      by (by rewrite split_append).
    rewrite Hq in Hblock |- *. rewrite removelast_last. apply Forall_app in Hblock as [Hblock _].
    by apply readPayload_block.
  - change (String newline "" +:+ ?x) with (String newline x). rewrite split_append, Hterm.
    by apply readPayload_block.
Qed.

(** ** The line of a batch *)

Abbreviation header := (foldl (λ b c, b +:+ ";" +:+ Command_Text c)).

Lemma header_split b cmds :
  Forall (λ c, safeText (Command_Text c) = true) cmds →
  split ";" (header b cmds) = split ";" b ++ (Command_Text <$> cmds).
Proof.
  revert b. induction cmds as [|c cmds IH]; intros b H; simpl; [by rewrite app_nil_r|].
  apply Forall_cons in H as [Hc Hcs]. rewrite IH by done.
  change (";" +:+ ?x) with (String ";" x). rewrite split_append, <-app_assoc.
  by rewrite (split_none ";" (Command_Text c)) by (by apply safeText_no).
Qed.

Lemma header_no x b cmds :
  bool_decide (byteOf x ∈ unsafeRunes) = true → x ≠ ";"%char → x ∉ chars b →
  Forall (λ c, safeText (Command_Text c) = true) cmds → x ∉ chars (header b cmds).
Proof.
  intros Hx Hne. revert b. induction cmds as [|c cmds IH]; intros b Hb H; simpl; [done|].
  apply Forall_cons in H as [Hc Hcs]. apply IH; [|done].
  rewrite !chars_append, !not_elem_of_app. split_and!; [done| |by apply safeText_no].
  simpl. rewrite not_elem_of_cons. split; [done|apply not_elem_of_nil].
Qed.

Lemma words_trailing_blank s : words (s +:+ " ") = words s.
Proof.
  unfold words. change (s +:+ " ") with (s +:+ String " " "").
  rewrite split_append, filter_app. simpl. by rewrite app_nil_r.
Qed.

Lemma experimentalPrefix_no x : x ∈ ["<"; newline]%char → x ∉ chars experimentalPrefix.
Proof. intros H. rewrite !elem_of_cons, elem_of_nil in H. destruct H as [->|[->|[]]]; vm_compute; set_solver. Qed.

(** The blank in front of the payload mark ends no word. *)
Lemma header_trailing_blank init c :
  Forall (λ c, safeText (Command_Text c) = true) (init ++ [c]) →
  words <$> split ";" (header experimentalPrefix init +:+ (";" +:+ Command_Text c) +:+ " ")
  = words <$> experimentalPrefix :: (Command_Text <$> init ++ [c]).
Proof.
  intros [Hinit Hc]%Forall_app. rewrite Forall_singleton in Hc. rewrite append_assoc.
  change (";" +:+ ?x) with (String ";" x). rewrite split_append, header_split by done.
  rewrite (split_none ";" experimentalPrefix) by (vm_compute; set_solver).
  rewrite (split_none ";" (Command_Text c +:+ " ")).
  - simpl. rewrite !fmap_app. simpl. rewrite words_trailing_blank. done.
  - rewrite chars_append, not_elem_of_app. split; [|vm_compute; set_solver].
    by apply (safeText_no _ _ Hc).
Qed.

(** A line of safe texts, the last of which may carry a payload, is received as
    its commands and that payload. *)
Lemma joinLine_received init c later :
  Forall (λ c, safeText (Command_Text c) = true) (init ++ [c]) →
  validatePayloadBlock (Command_Payload c) = true →
  receive (joinLine (init ++ [c]) +:+ String newline later)
  = Some (words <$> experimentalPrefix :: (Command_Text <$> init ++ [c]),
          payloadLines (Command_Payload c), split newline later).
Proof.
  intros Hsafe Hblock. unfold joinLine. cbv zeta. rewrite last_snoc.
  set (h := header experimentalPrefix (init ++ [c])).
  assert (Hlt : "<"%char ∉ chars h)
    by (apply header_no; [done|done|apply experimentalPrefix_no; set_solver|done]).
  assert (Hnl : newline ∉ chars h)
    by (apply header_no; [done|done|apply experimentalPrefix_no; set_solver|done]).
  assert (Hsplit : split ";" h = experimentalPrefix :: (Command_Text <$> init ++ [c])).
  { unfold h. rewrite header_split by done. by rewrite (split_none ";" experimentalPrefix) by (vm_compute; set_solver). }
  unfold receive. case_bool_decide as Hp.
  - rewrite cut_append by done. rewrite bool_decide_eq_false_2 by done. rewrite Hsplit.
    unfold payloadLines. by rewrite Hp, bool_decide_eq_true_2.
  - set (body := Command_Payload c +:+ (if endsWithNewline (Command_Payload c) then "" else String newline "")
                 +:+ PayloadTerminator).
    replace ((h +:+ " <<" +:+ PayloadTerminator +:+ String newline "" +:+ body) +:+ String newline later)
      with ((h +:+ " <<" +:+ PayloadTerminator) +:+ String newline (body +:+ String newline later))
      by (rewrite !append_assoc; reflexivity).
    rewrite cut_append
      by (rewrite !chars_append, !not_elem_of_app; split_and!; [done|vm_compute; set_solver..]).
    replace (h +:+ " <<" +:+ PayloadTerminator)
      with ((h +:+ " ") +:+ String "<" (String "<" PayloadTerminator))
      by (rewrite append_assoc; reflexivity).
    rewrite bool_decide_eq_true_2 by (rewrite !chars_append; set_solver).
    rewrite cut_append
      by (rewrite chars_append, not_elem_of_app; split; [done|vm_compute; set_solver]).
    change (stripPrefix "<" (String "<" PayloadTerminator)) with (Some PayloadTerminator).
    unfold body. rewrite !append_assoc, readPayload_sent by done.
    do 3 f_equal. unfold h. rewrite foldl_snoc, append_assoc. by apply header_trailing_blank.
Qed.

Lemma replaceFrom_safe old new skip s :
  safeText s = true → safeText new = true → safeText (replaceFrom old new skip s) = true.
Proof.
  intros Hs Hnew. revert skip Hs. induction s as [|c s IH]; intros skip Hs; [done|].
  assert (Hcs : safeText (String c "") = true ∧ safeText s = true).
  { change (String c s) with (String c "" +:+ s) in Hs. rewrite safeText_append in Hs. by split_bools. }
  destruct Hcs as [Hc Hrest]. simpl. destruct skip as [|k]; [|by apply IH].
  destruct (stripPrefix old _).
  - rewrite safeText_append, Hnew. by apply IH.
  - change (String c ?x) with (String c "" +:+ x). rewrite safeText_append, Hc. by apply IH.
Qed.

(** C29: a line runs exactly its commands. Whatever bytes the rendered names,
    paths, keys and values hold, a batch of compiled commands (with the map
    version substituted) is received by the worker as the session prefix
    followed by those commands, each with its own words, and the payload of the
    last one is received line for line; the next line of the session starts
    after it. *)
Theorem batch_line_framing version init c later :
  Forall (λ ch, isDigit ch = true) (chars version) →
  Forall (λ sent, ∃ op content program source,
    Compile op content = inl program ∧ source ∈ Program_Commands program ∧
    sent = substituteVersion version source) (init ++ [c]) →
  receive (joinLine (init ++ [c]) +:+ String newline later)
  = Some (words <$> experimentalPrefix :: (Command_Text <$> init ++ [c]),
          payloadLines (Command_Payload c), split newline later).
Proof.
  intros Hversion Hcompiled.
  assert (Hall : Forall (λ sent, safeText (Command_Text sent) = true ∧
                                 validatePayloadBlock (Command_Payload sent) = true) (init ++ [c])).
  { eapply Forall_impl; [exact Hcompiled|]. intros sent (op & content & p & source & Hc & Hin & ->).
    apply Compile_inl in Hc as [Hc _]. rewrite Forall_forall in Hc.
    destruct (Hc source Hin) as (H1 & H2 & _). split; [|done].
    apply replaceFrom_safe; [done|]. by apply digits_safe. }
  apply joinLine_received.
  - eapply Forall_impl; [exact Hall|]. by intros ? [? _].
  - apply Forall_app in Hall as [_ Hc]. rewrite Forall_singleton in Hc. apply Hc.
Qed.

(** ** Payload chunks *)

Definition concatStrings (l : list string) : string := foldr String.append "" l.

Lemma concatStrings_app l k : concatStrings (l ++ k) = concatStrings l +:+ concatStrings k.
Proof. induction l as [|s l IH]; [done|]. simpl. by rewrite IH, append_assoc. Qed.

(** The text with the newline its last line lacks. *)
Definition normalised (s : string) : string :=
  if bool_decide (s = "") || endsWithNewline s then s else s +:+ String newline "".

Lemma splitAfter_cons c s :
  splitAfter newline (String c s)
  = if Ascii.eqb c newline then String c "" :: splitAfter newline s
    else match splitAfter newline s with
         | [] => [String c ""]
         | f :: fs => String c f :: fs
         end.
Proof. done. Qed.

Lemma endsWithNewline_cons c s : s ≠ "" → endsWithNewline (String c s) = endsWithNewline s.
Proof. unfold endsWithNewline. by destruct s. Qed.

Lemma splitAfter_pieces s :
  ∃ lines rest, splitAfter newline s = lines ++ [rest] ∧
    Forall (λ l, endsWithNewline l = true) lines ∧ (newline ∉ chars rest) ∧
    s = concatStrings lines +:+ rest.
Proof.
  induction s as [|c s (lines & rest & Hs & Hall & Hrest & ->)].
  { exists [], "". split_and!; try done. apply not_elem_of_nil. }
  rewrite splitAfter_cons, Hs. destruct (Ascii.eqb c newline) eqn:E.
  - apply Ascii.eqb_eq in E as ->. exists (String newline "" :: lines), rest. split_and!; try done.
    by constructor.
  - apply Ascii.eqb_neq in E. destruct lines as [|l lines]; simpl.
    + exists [], (String c rest). split_and!; try done. simpl. by apply not_elem_of_cons.
    + apply Forall_cons in Hall as [Hl Hall]. exists (String c l :: lines), rest.
      split_and!; try done. constructor; [|done]. rewrite endsWithNewline_cons; [done|]. by intros ->.
Qed.

Lemma endsWithNewline_append s t : t ≠ "" → endsWithNewline (s +:+ t) = endsWithNewline t.
Proof.
  intros Ht. induction s as [|c s IH]; [done|]. rewrite append_cons, endsWithNewline_cons; [done|].
  destruct s; [done|]. by rewrite append_cons.
Qed.

Lemma normalised_ends s : s ≠ "" → endsWithNewline (normalised s) = true.
Proof.
  intros Hs. unfold normalised. rewrite bool_decide_eq_false_2 by done. simpl.
  destruct (endsWithNewline s) eqn:E; [done|]. by rewrite endsWithNewline_append.
Qed.

(** A chunk is whole lines within the limit. *)
Definition chunkOk (limit : Z) (chunk : string) : Prop :=
  endsWithNewline chunk = true ∧ Z.of_nat (String.length chunk) <= limit.

Lemma chunkLoop_spec limit lines chunks current :
  Forall (chunkOk limit) chunks → (current = "" ∨ chunkOk limit current) →
  match chunkLoop limit lines chunks current with
  | Some out =>
      Forall (chunkOk limit) out ∧
      concatStrings out = concatStrings (reverse chunks) +:+ current +:+ concatStrings (normalised <$> lines)
  | None => ∃ line, line ∈ lines ∧ limit < Z.of_nat (String.length (normalised line))
  end.
Proof.
  revert chunks current. induction lines as [|line lines IH]; intros chunks current Hch Hcur; cbn [chunkLoop].
  - rewrite append_empty_r. case_bool_decide as Hc.
    + subst current. rewrite append_empty_r. split; [by apply Forall_reverse|done].
    + destruct Hcur as [|Hcur]; [done|]. split; [apply Forall_reverse; by constructor|].
      rewrite reverse_cons, concatStrings_app. simpl. by rewrite append_empty_r.
  - case_bool_decide as Hl.
    { subst line. specialize (IH chunks current Hch Hcur). destruct (chunkLoop _ lines _ _); [done|].
      destruct IH as (x & Hx & Hlen). exists x. by split; [apply list_elem_of_further|]. }
    assert (Hn : (if endsWithNewline line then line else line +:+ String newline "") = normalised line).
    { unfold normalised. by rewrite bool_decide_eq_false_2. }
    cbv zeta. rewrite Hn. pose proof (normalised_ends line Hl) as Hends.
    destruct (limit <? _) eqn:E1.
    { exists line. split; [apply list_elem_of_here|lia]. }
    destruct (limit <? _ + _) eqn:E2.
    + destruct Hcur as [->|Hcur]; [exfalso; apply Z.ltb_ge in E1; apply Z.ltb_lt in E2; cbn [String.length] in E2; lia|].
      specialize (IH (current :: chunks) (normalised line)).
      destruct (chunkLoop _ lines _ _).
      * destruct IH as [H1 H2]; [by constructor|right; split; [done|lia]|]. split; [done|].
        rewrite H2, reverse_cons, concatStrings_app. simpl. by rewrite append_empty_r, !append_assoc.
      * destruct IH as (x & Hx & Hlen); [by constructor|right; split; [done|lia]|].
        exists x. by split; [apply list_elem_of_further|].
    + specialize (IH chunks (current +:+ normalised line) Hch).
      assert (Hcur' : chunkOk limit (current +:+ normalised line)).
      { split; [|rewrite length_append; lia]. rewrite endsWithNewline_append; [done|].
        intros Hnil. by rewrite Hnil in Hends. }
      destruct (chunkLoop _ lines _ _).
      * destruct IH as [H1 H2]; [by right|]. split; [done|]. rewrite H2. simpl. by rewrite !append_assoc.
      * destruct IH as (x & Hx & Hlen); [by right|]. exists x. by split; [apply list_elem_of_further|].
Qed.

Lemma concat_normalised lines :
  Forall (λ l, endsWithNewline l = true) lines → normalised <$> lines = lines.
Proof.
  induction lines as [|l lines IH]; [done|]. intros [Hl Hall]%Forall_cons.
  rewrite fmap_cons, IH by done. f_equal. unfold normalised. by rewrite Hl, orb_true_r.
Qed.

Lemma lines_end lines :
  Forall (λ l, endsWithNewline l = true) lines → concatStrings lines = "" ∨ endsWithNewline (concatStrings lines) = true.
Proof.
  destruct lines as [|x l] using rev_ind; [by left|]. intros [_ Hx]%Forall_app. rewrite Forall_singleton in Hx.
  right. rewrite concatStrings_app. simpl. rewrite append_empty_r, endsWithNewline_append; [done|].
  by intros ->.
Qed.

(** A payload is cut into chunks without cutting a line. The chunks, joined,
    are the payload (with the newline its last line may lack); every chunk is
    made of whole lines and within the limit, so the worker never drops one; and
    the only refusal is a line that alone exceeds the limit. *)
Theorem chunk_lines_exact body limit :
  match chunkLines body limit with
  | Some chunks =>
      concatStrings chunks = normalised body ∧
      Forall (λ chunk, endsWithNewline chunk = true ∧ Z.of_nat (String.length chunk) <= limit) chunks
  | None => ∃ line, line ∈ splitAfter newline body ∧ limit < Z.of_nat (String.length (normalised line))
  end.
Proof.
  unfold chunkLines.
  pose proof (chunkLoop_spec limit (splitAfter newline body) [] "" ltac:(constructor) ltac:(by left)) as H.
  destruct (chunkLoop _ _ _ _) as [chunks|]; [|done]. destruct H as [Hok Hc]. split; [|exact Hok].
  rewrite Hc. change (concatStrings (reverse [])) with "". rewrite !append_nil_l.
  destruct (splitAfter_pieces body) as (lines & rest & Hs & Hall & Hrest & Hbody).
  rewrite Hs, fmap_app, concatStrings_app, concat_normalised by done.
  change (concatStrings (normalised <$> [rest])) with (normalised rest +:+ "").
  rewrite append_empty_r. subst body. destruct (decide (rest = "")) as [->|Hne].
  - change (normalised "") with "". rewrite !append_empty_r. unfold normalised.
    destruct (lines_end lines Hall) as [Hend|Hend]; rewrite Hend; [done|by rewrite orb_true_r].
  - unfold normalised. rewrite endsWithNewline_append by done.
    rewrite !bool_decide_eq_false_2; [|by destruct (concatStrings lines)|done]. simpl.
    destruct (endsWithNewline rest) eqn:E; [|by rewrite append_assoc].
    apply endsWithNewline_true in E as [q ->]. destruct Hrest. rewrite chars_append. set_solver.
Qed.

(** ** The payload of a map replace *)

Lemma entryLine_text e : entryLine e = entryText e +:+ String newline "".
Proof. unfold entryLine, entryText. by rewrite append_assoc. Qed.

Lemma mapPayload_lines entries :
  Forall (λ e, newline ∉ chars (entryText e)) entries →
  split newline (foldr (λ e s, entryLine e +:+ s) "" entries) = (entryText <$> entries) ++ [""].
Proof.
  induction entries as [|e entries IH]; intros H; [done|]. apply Forall_cons in H as [He H].
  cbn [foldr]. rewrite entryLine_text, append_assoc. change (String newline "" +:+ ?x) with (String newline x).
  rewrite split_append, (split_none newline (entryText e)), IH by done. done.
Qed.

Lemma mapPayload_parse body : ParseMapEntries (mapPayload body) = ParseMapEntries body.
Proof.
  unfold mapPayload. destruct (ParseMapEntries body) as [entries|] eqn:Hp; [|done]. simpl.
  unfold ParseMapEntries in Hp. case_bool_decide; [done|].
  destruct (omap lineEntry (split newline body)) as [|e es] eqn:Ho; [done|]. injection Hp as <-.
  set (entries := e :: es) in *.
  assert (Hlines : Forall (λ e, lineEntry (entryText e) = Some e ∧ newline ∉ chars (entryText e)) entries).
  { rewrite <-Ho. apply Forall_forall. intros x (line & Hin & Hx)%list_elem_of_omap.
    split; [by eapply lineEntry_entryText|]. intros Hn.
    pose proof (split_fields newline body) as Hf. rewrite Forall_forall in Hf.
    destruct (lineEntry_chars line x newline Hx Hn) as [Hl|Hl]; [by apply (Hf line)|by vm_compute in Hl]. }
  unfold ParseMapEntries. rewrite bool_decide_eq_false_2.
  - rewrite mapPayload_lines by (eapply Forall_impl; [exact Hlines|]; by intros ? [_ ?]).
    assert (Hback : omap lineEntry ((entryText <$> entries) ++ [""]) = entries).
    { clear - Hlines. induction Hlines as [|x l [Hx _] _ IH]; [done|].
      rewrite fmap_cons, <-app_comm_cons. cbn [omap list_omap]. by rewrite Hx, IH. }
    by rewrite Hback.
  - unfold entries. cbn [foldr]. rewrite entryLine_text. intros Hnil%(f_equal String.length).
    rewrite !length_append in Hnil. simpl in Hnil. lia.
Qed.

(** C30: a map replace sends the entries of the file. Reading the payload gives
    back exactly the entries reading the file gives, comments and spacing
    apart. The payload is cut into chunks without cutting a line: joined, they
    are the payload, every chunk is made of whole lines and within the limit, so
    that the worker never drops one, and the only refusal is a line that alone
    exceeds the limit. *)
Theorem map_payload_roundtrip body limit :
  ParseMapEntries (mapPayload body) = ParseMapEntries body
  ∧ match chunkLines (mapPayload body) limit with
    | Some chunks =>
        concatStrings chunks = normalised (mapPayload body) ∧
        Forall (λ chunk, endsWithNewline chunk = true ∧ Z.of_nat (String.length chunk) <= limit) chunks
    | None => ∃ line, line ∈ splitAfter newline (mapPayload body)
        ∧ limit < Z.of_nat (String.length (normalised line))
    end.
Proof. split; [apply mapPayload_parse|apply chunk_lines_exact]. Qed.

(** ** A concrete batch *)

Definition demoPublish : Op := op_server OpBackendPublish "app" "".
Definition demoMapAdd : Op := op_map OpMapAdd "maps/host.map" "example.com" "app; del backend app".

Definition commandsOf (op : Op) : list Command :=
  match Compile op (λ _, None) with inl p => Program_Commands p | inr _ => [] end.

Lemma batch_line_framing_witness :
  ∃ publish add, commandsOf demoPublish = [publish] ∧ commandsOf demoMapAdd = [add] ∧
  receive (joinLine [publish; add] +:+ String newline "show info")
  = Some ([["experimental-mode"; "on"]; ["publish"; "backend"; "app"]; ["add"; "map"; "maps/host.map"]],
          ["example.com app; del backend app"], ["show info"]).
Proof.
  do 2 eexists. split; [vm_compute; reflexivity|]. split; [vm_compute; reflexivity|].
  pose proof (batch_line_framing ""
    [MkCommand "publish backend app" "" "Backend published" false false false]
    (MkCommand "add map maps/host.map" ("example.com app; del backend app" +:+ String newline "") "" false false false)
    "show info") as H.
  etransitivity; [apply H; [constructor|]|vm_compute; reflexivity].
  constructor; [|constructor; [|constructor]].
  - exists demoPublish, (λ _, None). do 2 eexists. split; [vm_compute; reflexivity|].
    split; [apply list_elem_of_here|vm_compute; reflexivity].
  - exists demoMapAdd, (λ _, None). do 2 eexists. split; [vm_compute; reflexivity|].
    split; [apply list_elem_of_here|vm_compute; reflexivity].
Defined.
