(* ===== verification/CliResponse.v ===== *)
(** * Responses of the runtime socket

    Models [src/pkg/dataplane/agent/cli/response.go]: how the answer of a batch
    is cut into segments, how a segment is judged, and how the segments are
    given to the commands of the batch. *)

From Stdlib Require Import ZArith Ascii.
From stdpp Require Import base list strings option.
From S2P Require Import Prelude Api GoStd RenderPlan MapEntries Cli.

Open Scope Z_scope.

(** ** Go's string functions *)

(** [strings.Contains]. *)
Fixpoint strContains (s sub : string) : bool :=
  hasPrefix s sub || match s with EmptyString => false | String _ r => strContains r sub end.

(** [strings.ReplaceAll(raw, CRLF, LF)]. *)
Definition unixLines (raw : string) : string :=
  replaceFrom (String carriageReturn (String newline "")) (String newline "") 0 raw.

(** [strings.Split] at blank lines, that is at two newlines. *)
Fixpoint splitBlank (s : string) : list string :=
  match s with
  | EmptyString => [""]
  | String c r =>
      match r with
      | String d r' =>
          if Ascii.eqb c newline && Ascii.eqb d newline then "" :: splitBlank r'
          else match splitBlank r with [] => [] | x :: l => String c x :: l end
      | EmptyString => [String c ""]
      end
  end.

(** [strings.TrimLeft] and [strings.TrimRight] with a cutset of bytes. *)
Fixpoint trimLeftSet (cutset : list ascii) (s : string) : string :=
  match s with
  | EmptyString => ""
  | String c r => if bool_decide (c ∈ cutset) then trimLeftSet cutset r else s
  end.

Definition trimRightSet (cutset : list ascii) (s : string) : string :=
  string_rev (trimLeftSet cutset (string_rev s)).

(** [strings.ToLower]: byte by byte for ASCII. What it does to other letters is
    an argument of everything below. *)
Definition lowerByte (c : ascii) : ascii :=
  if ((65 <=? byteOf c)%N && (byteOf c <=? 90)%N) then Ascii.ascii_of_N (byteOf c + 32) else c.

Fixpoint lowerASCII (s : string) : string :=
  match s with EmptyString => "" | String c r => String (lowerByte c) (lowerASCII r) end.

Definition isASCII (s : string) : bool := forallb (λ c, (byteOf c <? 128)%N) (chars s).

(** ** Verdicts *)

(** The typed outcomes. *)
Inductive CommandError := ErrNameCollision | ErrWaitExpired | ErrRejected | ErrUnreadableResponse.

#[export] Instance CommandError_eq_dec : EqDecision CommandError.
Proof. solve_decision. Defined.

Record CommandResult := MkCommandResult { CommandResult_Output : string; CommandResult_Err : option CommandError }.

(** [severityPrefix]: the digit of a leading severity mark, and what follows. *)
Definition severityPrefix (s : string) : option (ascii * string) :=
  match s with
  | String b (String d (String e (String c r))) =>
      if Ascii.eqb b "[" && ((48 <=? byteOf d)%N && (byteOf d <=? 55)%N) && Ascii.eqb e "]" && Ascii.eqb c ":"
      then Some (d, r) else None
  | _ => None
  end.

Definition errorPhrases : list string :=
  ["unknown command"; "no such"; "not found"; "doesn't exist"; "does not exist";
   "already used by other proxy"; "already exists"; "permission denied"; "unable to"; "cannot"; "can't";
   "invalid"; "unsupported"; "failed"; "error"; "problem converting"; "through configuration file"].

Definition splitSegments (raw : string) : list string :=
  filter (λ s, s ≠ "")
    ((λ seg, trimRightSet [" "%char; newline] (trimLeftSet [newline] seg)) <$> splitBlank (unixLines raw)).

Section responses.
Context (lowerUnicode : string → string).

Definition toLower (s : string) : string := if isASCII s then lowerASCII s else lowerUnicode s.

Definition classify (seg : string) : option CommandError :=
  let trimmed := trimSpace seg in
  let '(severity, body) :=
    match severityPrefix trimmed with
    | Some (d, r) => (Some d, trimSpace r)
    | None => (None, trimmed)
    end in
  let lower := toLower body in
  if strContains lower "already used by other proxy" then Some ErrNameCollision
  else if strContains lower "wait delay expired" then Some ErrWaitExpired
  else if match severity with Some d => (byteOf d <=? 51)%N | None => false end then Some ErrRejected
  else if match severity with Some d => (53 <=? byteOf d)%N | None => false end then None
  else if existsb (λ p, strContains lower p) errorPhrases then Some ErrRejected
  else None.

(** Is [expect] in [out], whatever the case? *)
Definition says (out expect : string) : bool := strContains (toLower out) (toLower expect).

(** [isNextAnchor]: the first command with a pinned success text decides. *)
Fixpoint isNextAnchor (seg : string) (rest : list Command) : bool :=
  match rest with
  | [] => false
  | c :: rest' => if bool_decide (Command_Expect c = "") then isNextAnchor seg rest' else says seg (Command_Expect c)
  end.

(** The matchers take the segments that are left, which the source keeps as an
    index, and return those left after them. *)
Definition matchAnchor (segments : list string) (expect : string) : CommandResult * list string :=
  match segments with
  | [] => (MkCommandResult "" (Some ErrUnreadableResponse), [])
  | out :: segments' =>
      match classify out with
      | Some err => (MkCommandResult out (Some err), segments')
      | None =>
          if negb (says out expect) then (MkCommandResult out (Some ErrUnreadableResponse), segments')
          else (MkCommandResult out None, segments')
      end
  end.

Definition matchOptional (segments : list string) (rest : list Command) : CommandResult * list string :=
  match segments with
  | [] => (MkCommandResult "" None, [])
  | out :: segments' =>
      if negb (bool_decide (classify out = None)) || isNextAnchor out rest then (MkCommandResult "" None, segments)
      else (MkCommandResult out None, segments')
  end.

Definition matchQuiet (segments : list string) (rest : list Command) : CommandResult * list string :=
  match segments with
  | [] => (MkCommandResult "" None, [])
  | out :: segments' =>
      if isNextAnchor out rest then (MkCommandResult "" None, segments)
      else (MkCommandResult out (classify out), segments')
  end.

Definition matchOne (segments : list string) (cmd : Command) (rest : list Command) : CommandResult * list string :=
  if Command_Optional cmd then matchOptional segments rest
  else if bool_decide (Command_Expect cmd = "") then matchQuiet segments rest
  else matchAnchor segments (Command_Expect cmd).

Definition unreadable : CommandResult := MkCommandResult "" (Some ErrUnreadableResponse).

Fixpoint matchFrom (segments : list string) (cmds : list Command) : list CommandResult :=
  match cmds with
  | [] => []
  | cmd :: rest =>
      let '(r, segments') := matchOne segments cmd rest in
      match CommandResult_Err r with
      | None => r :: matchFrom segments' rest
      | Some _ => r :: replicate (length rest) unreadable
      end
  end.

Definition matchBatch (raw : string) (cmds : list Command) : list CommandResult :=
  matchFrom (splitSegments raw) cmds.
End responses.
