(* ===== verification/CliResponseProps.v ===== *)
(** * Attributing a batch's response

    A worker that answers every command of a batch with one block of text, or
    with nothing, is understood: [splitSegments] finds the blocks
    ([splitSegments_frame]) and [matchBatch] reports a failure exactly when a
    command was refused, at that command or at a silent one right before it
    ([matchFrom_accepted], [matchFrom_refused]). *)

From Stdlib Require Import ZArith Ascii Lia.
From stdpp Require Import base sets strings option list list_numbers.
From S2P Require Import Prelude Api GoStd RenderPlan MapEntries Cli CliProps CliResponse.

Open Scope Z_scope.

(** ** Segments *)

(** Every newline is followed by something else than a newline. *)
Fixpoint oneBlock (s : string) : bool :=
  match s with
  | EmptyString => true
  | String c r =>
      (negb (Ascii.eqb c newline) || match r with EmptyString => false | String d _ => negb (Ascii.eqb d newline) end)
      && oneBlock r
  end.

Definition trimSegment (seg : string) : string := trimRightSet [" "%char; newline] (trimLeftSet [newline] seg).

(** One block of text: no blank line, no carriage return, nothing to trim. *)
Definition block (a : string) : bool :=
  negb (bool_decide (a = "")) && oneBlock a && bool_decide (carriageReturn ∉ chars a) && bool_decide (trimSegment a = a).

(** What the worker writes for the answers of a batch: each ends in a blank
    line, and a silent command writes the newline of an empty answer. *)
Fixpoint frame (answers : list string) : string :=
  match answers with
  | [] => ""
  | a :: rest => (if bool_decide (a = "") then String newline "" else a +:+ String newline (String newline "")) +:+ frame rest
  end.

Definition segs (s : string) : list string := filter (λ x, x ≠ "") (trimSegment <$> splitBlank s).

Lemma unixLines_id s : carriageReturn ∉ chars s → unixLines s = s.
Proof.
  unfold unixLines. induction s as [|c s IH]; [done|]. intros Hs. simpl in Hs.
  rewrite not_elem_of_cons in Hs. destruct Hs as [Hc Hs]. cbn [replaceFrom stripPrefix].
  destruct (Ascii.eqb_spec carriageReturn c) as [E|]; [congruence|]. by rewrite IH.
Qed.

Lemma splitBlank_nonempty s : splitBlank s ≠ [].
Proof.
  induction s as [|c s IH]; [done|]. cbn [splitBlank]. destruct s as [|d r]; [done|].
  destruct (_ && _); [done|]. by destruct (splitBlank (String d r)).
Qed.

Lemma splitBlank_newlines r : splitBlank (String newline (String newline r)) = "" :: splitBlank r.
Proof. done. Qed.

Lemma splitBlank_push c s :
  c ≠ newline ∨ (∀ r, s ≠ String newline r) →
  ∃ x l, splitBlank s = x :: l ∧ splitBlank (String c s) = String c x :: l.
Proof.
  intros Hc. pose proof (splitBlank_nonempty s) as Hne. destruct s as [|d r]; [by exists "", []|].
  destruct (splitBlank (String d r)) as [|x l] eqn:E; [done|]. exists x, l. split; [done|].
  change (splitBlank (String c (String d r)))
    with (if Ascii.eqb c newline && Ascii.eqb d newline then "" :: splitBlank r
          else match splitBlank (String d r) with [] => [] | x :: l => String c x :: l end).
  rewrite E. destruct (Ascii.eqb_spec c newline) as [->|]; [|done]. destruct (Ascii.eqb_spec d newline) as [->|]; [|done].
  destruct Hc as [|Hc]; [done|by destruct (Hc r)].
Qed.

Lemma segs_newline s : segs (String newline s) = segs s.
Proof.
  induction s as [|d r IH]; [done|]. destruct (decide (d = newline)) as [->|Hd].
  - rewrite IH. unfold segs at 1. by rewrite splitBlank_newlines.
  - destruct (splitBlank_push newline (String d r)) as (x & l & E & E'); [right; congruence|].
    unfold segs. by rewrite E, E'.
Qed.

Lemma splitBlank_block a s :
  oneBlock a = true → splitBlank (a +:+ String newline (String newline s)) = a :: splitBlank s.
Proof.
  induction a as [|c a IH]; intros Ha; [done|]. cbn [oneBlock] in Ha. split_bools. rewrite append_cons.
  destruct (splitBlank_push c (a +:+ String newline (String newline s))) as (x & l & E & ->).
  - destruct (Ascii.eqb_spec c newline); [right|by left]. destruct a as [|d a]; [done|]. rewrite append_cons. intros r [= ->].
    done.
  - rewrite IH in E by done. by simplify_eq.
Qed.

Lemma segs_block a s : block a = true → segs (a +:+ String newline (String newline s)) = a :: segs s.
Proof.
  unfold block. intros Ha. split_bools. unfold segs. rewrite splitBlank_block by done.
  rewrite fmap_cons. rewrite filter_cons_True; congruence.
Qed.

Lemma frame_no_cr answers :
  Forall (λ a, a = "" ∨ block a = true) answers → carriageReturn ∉ chars (frame answers).
Proof.
  induction 1 as [|a rest Ha _ IH]; [apply not_elem_of_nil|]. cbn [frame]. rewrite chars_append, not_elem_of_app.
  split; [|done]. case_bool_decide; [vm_compute; set_solver|]. destruct Ha as [|Ha]; [done|].
  unfold block in Ha. split_bools. rewrite chars_append, not_elem_of_app. split; [done|]. vm_compute. set_solver.
Qed.

(** The segments of a batch's response are the answers that said something. *)
Lemma splitSegments_frame answers :
  Forall (λ a, a = "" ∨ block a = true) answers → splitSegments (frame answers) = filter (λ a, a ≠ "") answers.
Proof.
  intros Hall. unfold splitSegments. rewrite unixLines_id by by apply frame_no_cr. 
  change (segs (frame answers) = filter (λ a, a ≠ "") answers).
  induction Hall as [|a rest Ha _ IH]; [done|]. cbn [frame]. case_bool_decide as Hne.
  - rewrite filter_cons_False by auto.
    change (segs (String newline (frame rest)) = filter (λ a, a ≠ "") rest). by rewrite segs_newline.
  - destruct Ha as [|Ha]; [done|]. rewrite filter_cons_True by done. rewrite append_assoc.
    change (String newline (String newline "") +:+ frame rest) with (String newline (String newline (frame rest))).
    by rewrite segs_block, IH.
Qed.

(** ** Matching *)

(** A command with what the worker answered and whether it carried it out. *)
Record answered := MkAnswered { an_cmd : Command; an_text : string; an_ok : bool }.

Definition silent (c : Command) : Prop := Command_Expect c = "".

#[export] Instance silent_dec c : Decision (silent c).
Proof. unfold silent. apply _. Defined.
#[export] Typeclasses Opaque silent.

Section matching.
Context (lowerUnicode : string → string).
Abbreviation classify := (classify lowerUnicode).
Abbreviation says := (says lowerUnicode).
Abbreviation isNextAnchor := (isNextAnchor lowerUnicode).
Abbreviation matchFrom := (matchFrom lowerUnicode).
Abbreviation matchBatch := (matchBatch lowerUnicode).

(** What is asked of an answer in a batch whose pinned success texts are
    [expects]: a refusal says so; a success is no refusal and has the pinned
    text; a silent command does not say another command's success text; and the
    optional session prefix is never refused. *)
Record fair (expects : list string) (x : answered) : Prop := {
  fair_block : an_text x = "" ∨ block (an_text x) = true;
  fair_ok : an_ok x = true → classify (an_text x) = None;
  fair_refused : an_ok x = false → an_text x ≠ "" ∧ classify (an_text x) ≠ None;
  fair_anchor : ¬ silent (an_cmd x) → an_ok x = true →
    an_text x ≠ "" ∧ says (an_text x) (Command_Expect (an_cmd x)) = true;
  fair_silent : silent (an_cmd x) → Forall (λ e, says (an_text x) e = false) expects;
  fair_optional : Command_Optional (an_cmd x) = true → silent (an_cmd x) ∧ an_ok x = true;
}.

(** The texts that appear in the response. *)
Definition said (xs : list answered) : list string := filter (λ a, a ≠ "") (an_text <$> xs).

(** The pinned texts of a batch. *)
Definition expectsOf (cmds : list Command) : list string := filter (λ e, e ≠ "") (Command_Expect <$> cmds).

Lemma expectsOf_cons c cmds :
  expectsOf (c :: cmds) = if decide (silent c) then expectsOf cmds else Command_Expect c :: expectsOf cmds.
Proof.
  unfold expectsOf, silent. rewrite fmap_cons, filter_cons. repeat case_decide; naive_solver.
Qed.

Lemma isNextAnchor_expects s rest : Forall (λ e, says s e = false) (expectsOf rest) → isNextAnchor s rest = false.
Proof.
  induction rest as [|c rest IH]; [done|]. rewrite expectsOf_cons. cbn [CliResponse.isNextAnchor]. unfold silent.
  case_bool_decide; case_decide; try done. by intros [? _]%Forall_cons.
Qed.

Lemma isNextAnchor_silent s qs rest : Forall silent qs → isNextAnchor s (qs ++ rest) = isNextAnchor s rest.
Proof. induction 1 as [|q qs Hq _ IH]; [done|]. simpl. unfold silent in Hq. by rewrite bool_decide_true. Qed.

Lemma isNextAnchor_anchor s c rest : ¬ silent c → isNextAnchor s (c :: rest) = says s (Command_Expect c).
Proof. unfold silent. intros Hc. simpl. by rewrite bool_decide_false. Qed.

Lemma matchFrom_cons segments c rest r segments' :
  matchOne lowerUnicode segments c rest = (r, segments') →
  matchFrom segments (c :: rest)
  = r :: match CommandResult_Err r with None => matchFrom segments' rest | Some _ => replicate (length rest) unreadable end.
Proof. intros H. cbn [CliResponse.matchFrom]. rewrite H. by destruct (CommandResult_Err r). Qed.

(** One silent command: it takes a chatter, and leaves alone nothing, the next
    command's success, and, when optional, a refusal. *)
Definition leaves (q : Command) (rest : list Command) (s : string) : Prop :=
  isNextAnchor s rest = true ∨ (Command_Optional q = true ∧ classify s ≠ None).

Definition chatter (rest : list Command) (s : string) : Prop := classify s = None ∧ isNextAnchor s rest = false.

Lemma matchOne_chatter q rest s segments :
  silent q → chatter rest s → matchOne lowerUnicode (s :: segments) q rest = (MkCommandResult s None, segments).
Proof.
  intros Hq [Hc Hn]. unfold matchOne, matchOptional, matchQuiet. rewrite (bool_decide_true (Command_Expect q = "")) by done.
  rewrite Hn, Hc, bool_decide_true by done. by destruct (Command_Optional q).
Qed.

Lemma matchOne_leaves q rest segments :
  silent q → (∀ s, head segments = Some s → leaves q rest s) →
  matchOne lowerUnicode segments q rest = (MkCommandResult "" None, segments).
Proof.
  intros Hq Hl. unfold matchOne, matchOptional, matchQuiet. rewrite (bool_decide_true (Command_Expect q = "")) by done.
  destruct segments as [|s segments]; [by destruct (Command_Optional q)|].
  destruct (Hl s eq_refl) as [->|[-> Hc]]; [rewrite orb_true_r; by destruct (Command_Optional q)|].
  by rewrite bool_decide_false.
Qed.

Lemma matchOne_refused q rest s segments err :
  silent q → Command_Optional q = false → classify s = Some err → isNextAnchor s rest = false →
  matchOne lowerUnicode (s :: segments) q rest = (MkCommandResult s (Some err), segments).
Proof.
  intros Hq Ho Hc Hn. unfold matchOne, matchQuiet. rewrite Ho, bool_decide_true by done. by rewrite Hn, Hc.
Qed.

(** ** Runs of silent commands *)

(** A run of silent commands takes the chatter in front of it. *)
Lemma quiet_run qs rest chats segments :
  Forall silent qs → Forall (chatter rest) chats → (length chats <= length qs)%nat →
  (∀ q s, q ∈ drop (length chats) qs → head segments = Some s → leaves q rest s) →
  ∃ rs, length rs = length qs ∧ Forall (λ r, CommandResult_Err r = None) rs
        ∧ matchFrom (chats ++ segments) (qs ++ rest) = rs ++ matchFrom segments rest.
Proof.
  intros Hqs. revert chats. induction Hqs as [|q qs Hq Hqs IH]; intros chats Hchats Hlen Hl.
  { destruct chats; [|simpl in Hlen; lia]. by exists []. }
  assert (∀ s, isNextAnchor s (qs ++ rest) = isNextAnchor s rest) as Hn by (intros; by apply isNextAnchor_silent).
  destruct chats as [|s chats].
  - destruct (IH []) as (rs & Hrs & Hok & Hm); [done|simpl; lia| |].
    { intros q' s Hq' Hs. apply Hl; [|done]. simpl in *. rewrite drop_0 in Hq'. set_solver. }
    exists (MkCommandResult "" None :: rs). split_and!; [by rewrite !length_cons, Hrs|by constructor|]. simpl app.
    rewrite (matchFrom_cons _ _ _ (MkCommandResult "" None) segments).
    + simpl. by rewrite <-Hm.
    + apply matchOne_leaves; [done|]. intros s Hs. unfold leaves. rewrite Hn. apply Hl; [|done]. simpl. set_solver.
  - apply Forall_cons in Hchats as [[Hs1 Hs2] Hchats].
    destruct (IH chats) as (rs & Hrs & Hok & Hm); [done|simpl in Hlen; lia|done|].
    exists (MkCommandResult s None :: rs). split_and!; [by rewrite !length_cons, Hrs|by constructor|]. simpl app.
    rewrite (matchFrom_cons _ _ _ (MkCommandResult s None) (chats ++ segments)).
    + simpl. by rewrite Hm.
    + apply matchOne_chatter; [done|]. split; [done|]. by rewrite Hn.
Qed.

(** A refusal in front of a run is reported by a command of the run. *)
Lemma quiet_fail qs rest chats bad segments :
  Forall silent qs → Forall (chatter rest) chats → classify bad ≠ None → isNextAnchor bad rest = false →
  Exists (λ q, Command_Optional q = false) (drop (length chats) qs) →
  ∃ rs r, (length rs < length qs)%nat ∧ Forall (λ r, CommandResult_Err r = None) rs ∧ CommandResult_Err r ≠ None
    ∧ matchFrom (chats ++ bad :: segments) (qs ++ rest)
      = rs ++ r :: replicate (length (qs ++ rest) - length rs - 1) unreadable.
Proof.
  intros Hqs. revert chats. induction Hqs as [|q qs Hq Hqs IH]; intros chats Hchats Hbad Hnext Hex.
  { rewrite drop_nil in Hex. by apply Exists_nil in Hex. }
  assert (∀ s, isNextAnchor s (qs ++ rest) = isNextAnchor s rest) as Hn by (intros; by apply isNextAnchor_silent).
  destruct (classify bad) as [err|] eqn:Herr; [|done]. destruct chats as [|s chats]; [destruct (Command_Optional q) eqn:Ho|].
  - rewrite drop_0, Exists_cons in Hex. destruct Hex as [|Hex]; [congruence|].
    destruct (IH []) as (rs & r & Hrs & Hok & Hr & Hm); [done|done|done|by rewrite drop_0|].
    exists (MkCommandResult "" None :: rs), r. split_and!; [simpl; lia|by constructor|done|]. simpl app in *.
    rewrite (matchFrom_cons _ _ _ (MkCommandResult "" None) (bad :: segments)).
    + simpl. by rewrite Hm.
    + apply matchOne_leaves; [done|]. intros s [= <-]. right. split; [done|]. by rewrite Herr.
  - exists [], (MkCommandResult bad (Some err)). split_and!; [simpl; lia|by constructor|done|]. simpl app.
    rewrite (matchFrom_cons _ _ _ (MkCommandResult bad (Some err)) segments); [|apply matchOne_refused; by rewrite ?Hn].
    simpl. by rewrite Nat.sub_0_r.
  - apply Forall_cons in Hchats as [[Hs1 Hs2] Hchats].
    destruct (IH chats) as (rs & r & Hrs & Hok & Hr & Hm); [done..|].
    exists (MkCommandResult s None :: rs), r. split_and!; [simpl; lia|by constructor|done|]. simpl app.
    rewrite (matchFrom_cons _ _ _ (MkCommandResult s None) (chats ++ bad :: segments)).
    + simpl. by rewrite Hm.
    + apply matchOne_chatter; [done|]. split; [done|]. by rewrite Hn.
Qed.

(** ** Batches *)

Abbreviation cmdsOf := (fmap an_cmd).

Definition harmless (expects : list string) (s : string) : Prop :=
  classify s = None ∧ Forall (λ e, says s e = false) expects.

Lemma harmless_chatter expects rest s :
  harmless expects s → expectsOf rest ⊆ expects → chatter rest s.
Proof.
  intros [Hc He] Hsub. split; [done|]. apply isNextAnchor_expects, Forall_forall. intros e Hin.
  rewrite Forall_forall in He. by apply He, Hsub.
Qed.

Definition spoken (a : string) : list string := if decide (a = "") then [] else [a].

Lemma said_cons x xs : said (x :: xs) = spoken (an_text x) ++ said xs.
Proof. unfold said, spoken. rewrite fmap_cons, filter_cons. by repeat case_decide. Qed.

Lemma fair_harmless expects x :
  fair expects x → silent (an_cmd x) → an_ok x = true → Forall (harmless expects) (spoken (an_text x)).
Proof.
  intros Hf Hs Hok. unfold spoken. case_decide; [constructor|]. apply Forall_singleton.
  split; [by apply (fair_ok _ _ Hf)|by apply (fair_silent _ _ Hf)].
Qed.

Lemma length_spoken a : (length (spoken a) <= 1)%nat.
Proof. unfold spoken. case_decide; simpl; lia. Qed.

(** A command with a pinned text takes its answer. *)
Lemma matchFrom_anchor expects x segments rest :
  fair expects x → ¬ silent (an_cmd x) →
  ∃ r, CommandResult_Output r = an_text x ∧ (CommandResult_Err r = None ↔ an_ok x = true)
    ∧ matchFrom (an_text x :: segments) (an_cmd x :: rest)
      = r :: if an_ok x then matchFrom segments rest else replicate (length rest) unreadable.
Proof.
  intros Hf Hs. assert (Command_Optional (an_cmd x) = false) as Ho.
  { destruct (Command_Optional _) eqn:E; [|done]. by destruct Hs, (fair_optional _ _ Hf E). }
  destruct (an_ok x) eqn:Hok.
  - destruct (fair_anchor _ _ Hf Hs Hok) as [Hne Hsay]. exists (MkCommandResult (an_text x) None). split_and!; [done..|].
    rewrite (matchFrom_cons _ _ _ (MkCommandResult (an_text x) None) segments); [done|].
    unfold matchOne, matchAnchor. rewrite Ho, bool_decide_false by done.
    by rewrite (fair_ok _ _ Hf Hok), Hsay.
  - destruct (fair_refused _ _ Hf Hok) as [Hne Hc]. destruct (classify (an_text x)) as [err|] eqn:E; [|done].
    exists (MkCommandResult (an_text x) (Some err)). split_and!; [done..|].
    rewrite (matchFrom_cons _ _ _ (MkCommandResult (an_text x) (Some err)) segments); [done|].
    unfold matchOne, matchAnchor. rewrite Ho, bool_decide_false by done. by rewrite E.
Qed.

Lemma said_anchor expects x xs : fair expects x → ¬ silent (an_cmd x) → said (x :: xs) = an_text x :: said xs.
Proof.
  intros Hf Hs. rewrite said_cons. unfold spoken. case_decide as He; [|done]. exfalso.
  destruct (an_ok x) eqn:Hok; [by destruct (fair_anchor _ _ Hf Hs Hok)|by destruct (fair_refused _ _ Hf Hok)].
Qed.

(** A verdict on a command that was carried out. *)
Definition verdict (x : answered) (r : CommandResult) : Prop :=
  CommandResult_Err r = None ∧ (¬ silent (an_cmd x) → CommandResult_Output r = an_text x).

(** The run of silent commands in front of a command whose success text the
    next segment has. *)
Lemma quiet_run_anchor expects qs chats x xs :
  Forall silent qs → Forall (harmless expects) chats → (length chats <= length qs)%nat →
  fair expects x → ¬ silent (an_cmd x) → an_ok x = true → expectsOf (an_cmd x :: cmdsOf xs) ⊆ expects →
  ∃ rq r, length rq = length qs ∧ Forall (λ r, CommandResult_Err r = None) rq ∧ verdict x r
    ∧ matchFrom (chats ++ said (x :: xs)) (qs ++ an_cmd x :: cmdsOf xs)
      = rq ++ r :: matchFrom (said xs) (cmdsOf xs).
Proof.
  intros Hqs Hchats Hlen Hf Hs Hok Hsub. rewrite (said_anchor expects) by done.
  destruct (quiet_run qs (an_cmd x :: cmdsOf xs) chats (an_text x :: said xs)) as (rq & Hrq & Hnone & ->); [done| |done| |].
  - eapply Forall_impl; [exact Hchats|]. intros s Hh. by eapply harmless_chatter.
  - intros q s _ [= <-]. left. rewrite isNextAnchor_anchor by done. by apply (fair_anchor _ _ Hf).
  - destruct (matchFrom_anchor expects x (said xs) (cmdsOf xs)) as (r & Hout & Herr & ->); [done..|].
    rewrite Hok in Herr |- *. exists rq, r. split_and!; [done..| |done]. split; [by apply Herr|done].
Qed.

Lemma expectsOf_tail c cmds : expectsOf cmds ⊆ expectsOf (c :: cmds).
Proof. rewrite expectsOf_cons. case_decide; set_solver. Qed.

(** Every command carried out: no failure is reported. *)
Lemma matchFrom_accepted expects qs chats xs :
  Forall silent qs → Forall (harmless expects) chats → (length chats <= length qs)%nat →
  Forall (fair expects) xs → Forall (λ x, an_ok x = true) xs → expectsOf (cmdsOf xs) ⊆ expects →
  ∃ rq rs, length rq = length qs ∧ Forall (λ r, CommandResult_Err r = None) rq ∧ Forall2 verdict xs rs
    ∧ matchFrom (chats ++ said xs) (qs ++ cmdsOf xs) = rq ++ rs.
Proof.
  revert qs chats. induction xs as [|x xs IH]; intros qs chats Hqs Hchats Hlen Hfair Hok Hsub.
  { destruct (quiet_run qs [] chats []) as (rq & Hrq & Hnone & Hm); [done| |done|done|].
    - eapply Forall_impl; [exact Hchats|]. intros s Hh. by eapply harmless_chatter.
    - exists rq, []. by split_and!. }
  apply Forall_cons in Hfair as [Hf Hfair], Hok as [Hx Hok]. rewrite fmap_cons in Hsub |- *.
  assert (expectsOf (cmdsOf xs) ⊆ expects) as Hsub' by (etrans; [apply expectsOf_tail|done]).
  destruct (decide (silent (an_cmd x))) as [Hs|Hs].
  - destruct (IH (qs ++ [an_cmd x]) (chats ++ spoken (an_text x))) as (rq & rs & Hrq & Hnone & Hrs & Hm); [| | |done..|].
    + by apply Forall_app_2; [|apply Forall_singleton].
    + apply Forall_app_2; [done|]. by apply fair_harmless.
    + rewrite !length_app. simpl. pose proof (length_spoken (an_text x)). lia.
    + rewrite length_app in Hrq. destruct rq as [|r rq _] using rev_ind; [simpl in Hrq; lia|].
      rewrite length_app in Hrq. simpl in Hrq. apply Forall_app in Hnone as [Hnone Hr]. rewrite Forall_singleton in Hr.
      exists rq, (r :: rs). rewrite said_cons. rewrite <-!app_assoc in Hm. simpl app in Hm. rewrite Hm.
      split_and!; [lia|done|constructor; [split; [exact Hr|by intros Hno; destruct (Hno Hs)]|done]|by rewrite <-?app_assoc].
  - destruct (quiet_run_anchor expects qs chats x xs) as (rq & r & Hrq & Hnone & Hr & ->); [done..|].
    destruct (IH [] []) as (rq' & rs & Hrq' & _ & Hrs & Hm); [by constructor|by constructor|done..|].
    destruct rq'; [|done]. simpl in Hm. rewrite Hm. exists rq, (r :: rs). split_and!; [done..|by constructor|done].
Qed.

(** The response of a batch in which the command at [f] is the first that was
    refused: the failure is reported at it, or at a silent command in front of
    it with only silent ones in between, and nothing after it is trusted. *)
Definition blames (cmds : list Command) (f : nat) (results : list CommandResult) : Prop :=
  ∃ rs r, results = rs ++ r :: replicate (length cmds - length rs - 1) unreadable
    ∧ Forall (λ r, CommandResult_Err r = None) rs ∧ CommandResult_Err r ≠ None ∧ (length rs <= f)%nat
    ∧ ∀ j c, (length rs <= j < f)%nat → cmds !! j = Some c → silent c.

Lemma blames_cons cmds c rq r results f :
  Forall (λ r, CommandResult_Err r = None) rq → CommandResult_Err r = None → length rq = length cmds →
  ∀ rest, blames rest f results → blames (cmds ++ c :: rest) (length cmds + S f) (rq ++ r :: results).
Proof.
  intros Hrq Hr Hlen rest (rs & r' & -> & Hrs & Hr' & Hle & Hsil).
  exists (rq ++ r :: rs), r'. rewrite <-app_assoc. simpl. split_and!.
  - rewrite !length_app, !length_cons, Hlen.
    by replace (length cmds + S (length rest) - (length cmds + S (length rs)) - 1)%nat
      with (length rest - length rs - 1)%nat by lia.
  - apply Forall_app_2; [done|by constructor].
  - done.
  - rewrite length_app. simpl. lia.
  - intros j d Hj Hd. rewrite length_app in Hj. simpl in Hj. rewrite lookup_app_r in Hd by lia.
    destruct (j - length cmds)%nat as [|k] eqn:Ek; [lia|]. simpl in Hd. apply (Hsil k d); [lia|done].
Qed.

(** A refusal in front of silent commands. *)
Lemma blames_run qs rest chats bad segments f :
  Forall silent qs → Forall (chatter rest) chats → classify bad ≠ None → isNextAnchor bad rest = false →
  Exists (λ q, Command_Optional q = false) (drop (length chats) qs) → (length qs <= S f)%nat →
  (f <= length qs)%nat → blames (qs ++ rest) f (matchFrom (chats ++ bad :: segments) (qs ++ rest)).
Proof.
  intros Hqs Hchats Hbad Hnext Hex Hf1 Hf2.
  destruct (quiet_fail qs rest chats bad segments) as (rs & r & Hlt & Hnone & Hr & ->); [done..|].
  exists rs, r. split_and!; [done..|lia|]. intros j c Hj Hc. rewrite lookup_app_l in Hc by lia.
  rewrite Forall_lookup in Hqs. by eapply Hqs.
Qed.

Lemma blames_anchor expects qs chats x xs :
  Forall silent qs → Forall (harmless expects) chats → (length chats <= length qs)%nat →
  fair expects x → ¬ silent (an_cmd x) → an_ok x = false → expectsOf (an_cmd x :: cmdsOf xs) ⊆ expects →
  blames (qs ++ an_cmd x :: cmdsOf xs) (length qs)
    (matchFrom (chats ++ said (x :: xs)) (qs ++ an_cmd x :: cmdsOf xs)).
Proof.
  intros Hqs Hchats Hlen Hf Hs Hok Hsub. rewrite (said_anchor expects) by done.
  destruct (fair_refused _ _ Hf Hok) as [_ Hc].
  assert (Forall (chatter (an_cmd x :: cmdsOf xs)) chats) as Hch.
  { eapply Forall_impl; [exact Hchats|]. intros s Hh. by eapply harmless_chatter. }
  destruct (decide (isNextAnchor (an_text x) (an_cmd x :: cmdsOf xs) = false ∧
                    Exists (λ q, Command_Optional q = false) (drop (length chats) qs))) as [[Hn Hex]|Hno].
  { by apply blames_run; [..|lia|]. }
  destruct (quiet_run qs (an_cmd x :: cmdsOf xs) chats (an_text x :: said xs)) as (rq & Hrq & Hnone & ->); [done..| |].
  - intros q s Hq [= <-]. unfold leaves. destruct (isNextAnchor _ _) eqn:E; [by left|]. right. split; [|done].
    destruct (Command_Optional q) eqn:Eo; [done|]. destruct Hno. split; [done|]. apply Exists_exists. by exists q.
  - destruct (matchFrom_anchor expects x (said xs) (cmdsOf xs)) as (r & _ & Herr & ->); [done..|]. rewrite Hok in Herr |- *.
    exists rq, r. split_and!; [|done|by intros ?%Herr|lia|intros; lia].
    rewrite length_app, length_cons, length_fmap, Hrq. by replace (length qs + S (length xs) - length qs - 1)%nat with (length xs) by lia.
Qed.

Lemma matchFrom_refused expects qs chats xs f x :
  Forall silent qs → Forall (harmless expects) chats → (length chats <= length qs)%nat →
  Forall (fair expects) xs → Forall (λ x, an_ok x = true) (take f xs) → xs !! f = Some x → an_ok x = false →
  expectsOf (cmdsOf xs) ⊆ expects →
  blames (qs ++ cmdsOf xs) (length qs + f) (matchFrom (chats ++ said xs) (qs ++ cmdsOf xs)).
Proof.
  revert qs chats f. induction xs as [|y xs IH]; intros qs chats f Hqs Hchats Hlen Hfair Hok Hf Hx Hsub; [done|].
  apply Forall_cons in Hfair as [Hy Hfair]. rewrite fmap_cons in Hsub |- *.
  assert (expectsOf (cmdsOf xs) ⊆ expects) as Hsub' by (etrans; [apply expectsOf_tail|done]).
  destruct f as [|f]; simpl in Hf.
  - injection Hf as ->. rewrite Nat.add_0_r. destruct (decide (silent (an_cmd x))) as [Hs|Hs]; [|by apply (blames_anchor expects)].
    destruct (fair_refused _ _ Hy Hx) as [Hne Hc]. rewrite said_cons. unfold spoken. rewrite decide_False by done. simpl app.
    change (qs ++ an_cmd x :: cmdsOf xs) with (qs ++ [an_cmd x] ++ cmdsOf xs). rewrite app_assoc. apply blames_run.
    + by apply Forall_app_2; [|apply Forall_singleton].
    + eapply Forall_impl; [exact Hchats|]. intros s Hh. by eapply harmless_chatter.
    + done.
    + apply isNextAnchor_expects, Forall_forall. intros e He.
      pose proof (fair_silent _ _ Hy Hs) as H. rewrite Forall_forall in H. by apply H, Hsub'.
    + rewrite drop_app_le by lia. apply Exists_app. right. apply Exists_cons. left.
      destruct (Command_Optional _) eqn:E; [|done]. destruct (fair_optional _ _ Hy E). congruence.
    + rewrite length_app. simpl. lia.
    + rewrite length_app. simpl. lia.
  - simpl in Hok. apply Forall_cons in Hok as [Hyok Hok]. destruct (decide (silent (an_cmd y))) as [Hs|Hs].
    + rewrite said_cons, app_assoc.
      change (qs ++ an_cmd y :: cmdsOf xs) with (qs ++ [an_cmd y] ++ cmdsOf xs). rewrite (app_assoc qs).
      replace (length qs + S f)%nat with (length (qs ++ [an_cmd y]) + f)%nat by (rewrite length_app; simpl; lia).
      apply IH; try done.
      * by apply Forall_app_2; [|apply Forall_singleton].
      * apply Forall_app_2; [done|]. by apply fair_harmless.
      * rewrite !length_app. simpl. pose proof (length_spoken (an_text y)). lia.
    + destruct (quiet_run_anchor expects qs chats y xs) as (rq & r & Hrq & Hnone & [Hr _] & ->); [done..|].
      apply blames_cons; [done..|]. by apply (IH [] [] f).
Qed.
End matching.
