(* ===== verification/CliExec.v ===== *)
(** * Executing programs on the runtime socket

    Models the executor of [src/pkg/dataplane/agent/cli/client.go]: commands are
    collected into lines, a line is sent and its response attributed, a command
    that allocates a map version or carries a payload gets a line of its own, and
    a repeated delete runs until it is refused. The socket is an argument: a
    function of the line and of the state of everything behind the socket. *)

From Stdlib Require Import ZArith Ascii Lia.
From stdpp Require Import base strings option list list_numbers.
From S2P Require Import Prelude Api GoStd RenderPlan MapEntries Cli CliResponse.

Open Scope Z_scope.

Definition lineReserve : Z := 64.

(** [strings.Cut] with its found flag. *)
Definition cutFound (sep : ascii) (s : string) : option (string * string) :=
  if bool_decide (sep ∈ chars s) then Some (cut sep s) else None.

(** [strconv.ParseUint] in base 10 with 64 bits. *)
Definition parseUint64 (s : string) : option Z :=
  if bool_decide (s ≠ "") && forallb isDigit (chars s) && (decimalValue 0 s <? 2 ^ 64)
  then Some (decimalValue 0 s) else None.

Definition mapVersion (out : string) : string :=
  match cutFound ":" out with
  | None => ""
  | Some (_, after) =>
      let after := match cutFound ":" after with Some (_, again) => again | None => after end in
      let version := trimSpace after in
      if bool_decide (parseUint64 version = None) then "" else version
  end.

Inductive ExecError :=
  | OpsOverLimit
  | SocketError
  | OpFailed (kind : string) (err : CommandError) (output : string).

Record pendingCommand := MkPending { pc_program : nat; pc_command : Command }.

(** [execution]; a negative [failed] is [None]. *)
Record execution := MkExecution {
  ex_results : list OpResult;
  ex_pending : list pendingCommand;
  ex_length : Z;
  ex_version : string;
  ex_failed : option nat;
}.

Section executor.
Context {W : Type} (lowerUnicode : string → string) (ExecuteRaw : string → W → W * option string).

(** What a method of [execution] leaves and returns. *)
Definition Run : Type := execution * W * option ExecError.

Definition andThen (r : Run) (k : execution → W → Run) : Run :=
  let '(e, w, err) := r in match err with Some _ => r | None => k e w end.

(** The command that stands for the session prefix. *)
Definition prefixCommand : Command := MkCommand experimentalPrefix "" "" false false true.

Definition recordResult (e : execution) (program : nat) (r : CommandResult) : execution * option ExecError :=
  match CommandResult_Err r with
  | None => (e, None)
  | Some err =>
      let kind := from_option OpResult_Kind "" (ex_results e !! program) in
      let failed := match ex_failed e with None => Some program | Some _ => ex_failed e end in
      (MkExecution (<[program := MkOpResult kind false (CommandResult_Output r)]> (ex_results e))
         (ex_pending e) (ex_length e) (ex_version e) failed,
       Some (OpFailed kind err (CommandResult_Output r)))
  end.

(** The loop of [flush] over the results of its line. *)
Fixpoint recordAll (pending : list pendingCommand) (results : list CommandResult) (e : execution)
    (first : option ExecError) : execution * option ExecError :=
  match pending, results with
  | p :: pending', r :: results' =>
      let e1 :=
        if Command_Capture (pc_command p) && bool_decide (CommandResult_Err r = None)
        then MkExecution (ex_results e) (ex_pending e) (ex_length e) (mapVersion (CommandResult_Output r)) (ex_failed e)
        else e in
      let '(e2, err) := recordResult e1 (pc_program p) r in
      recordAll pending' results' e2 (match first with None => err | Some _ => first end)
  | _, _ => (e, first)
  end.

Definition flush (e : execution) (w : W) : Run :=
  match ex_pending e with
  | [] => (e, w, None)
  | pending =>
      let e' := MkExecution (ex_results e) [] 0 (ex_version e) (ex_failed e) in
      let '(w', answer) := ExecuteRaw (joinLine (pc_command <$> pending)) w in
      match answer with
      | None => (e', w', Some SocketError)
      | Some raw =>
          let results := drop 1 (matchBatch lowerUnicode raw (prefixCommand :: (pc_command <$> pending))) in
          let '(e'', first) := recordAll pending results e' None in (e'', w', first)
      end
  end.

Definition add (index : nat) (cmd : Command) (e : execution) (w : W) : Run :=
  let solo := negb (bool_decide (Command_Payload cmd = "")) || Command_Capture cmd in
  let len := Z.of_nat (String.length (Command_Text cmd)) in
  andThen
    (if solo || (MaxCommandLineBytes - lineReserve <=? ex_length e + len) then flush e w else (e, w, None))
    (λ e w,
      let e' := MkExecution (ex_results e) (ex_pending e ++ [MkPending index cmd]) (ex_length e + len + 1)
                  (ex_version e) (ex_failed e) in
      if solo then flush e' w else (e', w, None)).

(** [once]: the command alone on a line. *)
Definition once (cmd : Command) (w : W) : W * option CommandResult :=
  let '(w', answer) := ExecuteRaw (joinLine [cmd]) w in
  (w', raw ← answer; matchBatch lowerUnicode raw [prefixCommand; cmd] !! 1%nat).

(** The loop of [repeat]: how often the command ran, and the refusal that ended
    the loop; [None] is an error of the socket. *)
Fixpoint repeatLoop (left : nat) (removed : nat) (cmd : Command) (w : W) : W * option (nat * CommandResult) :=
  match left with
  | O => (w, Some (removed, MkCommandResult "" None))
  | S left' =>
      let '(w', answer) := once cmd w in
      match answer with
      | None => (w', None)
      | Some result =>
          if negb (bool_decide (CommandResult_Err result = None)) then (w', Some (removed, result))
          else repeatLoop left' (S removed) cmd w'
      end
  end.

Definition repeat (index : nat) (cmd : Command) (e : execution) (w : W) : Run :=
  andThen (flush e w) (λ e w,
    let '(w', answer) := repeatLoop MaxMapDelRepeat 0 cmd w in
    match answer with
    | None => (e, w', Some SocketError)
    | Some (removed, last) =>
        if bool_decide (removed = 0%nat) then let '(e', err) := recordResult e index last in (e', w', err)
        else if bool_decide (removed = MaxMapDelRepeat)
        then let '(e', err) := recordResult e index (MkCommandResult (Command_Text cmd) (Some ErrUnreadableResponse)) in (e', w', err)
        else (e, w', None)
    end).

(** [execution.program]. *)
Fixpoint program (index : nat) (cmds : list Command) (e : execution) (w : W) : Run :=
  match cmds with
  | [] => (e, w, None)
  | source :: rest =>
      let cmd := substituteVersion (ex_version e) source in
      andThen (if Command_Repeat cmd then repeat index cmd e w else add index cmd e w) (program index rest)
  end.

Fixpoint allPrograms (index : nat) (programs : list Program) (e : execution) (w : W) : Run :=
  match programs with
  | [] => flush e w
  | p :: rest => andThen (program index (Program_Commands p) e w) (allPrograms (S index) rest)
  end.

(** [Client.Raw]. *)
Definition Raw (command : string) (w : W) : W * option string := ExecuteRaw (experimentalPrefix +:+ ";" +:+ command) w.

(** [Client.abort]: a failing cleanup is logged only. *)
Definition abortProgram (p : Program) (w : W) : W :=
  foldl (λ w cmd, (Raw (Command_Text cmd) w).1) w (Program_Abort p).

Definition Execute (programs : list Program) (w : W) : list OpResult * option ExecError * W :=
  if bool_decide (MaxOpsPerApply < length programs)%nat then ([], Some OpsOverLimit, w)
  else
    let start := MkExecution ((λ p, MkOpResult (Program_Kind p) true "") <$> programs) [] 0 "" None in
    let '(e, w', err) := allPrograms 0 programs start w in
    let w'' :=
      match err, ex_failed e ≫= (λ i, programs !! i) with
      | Some _, Some p => abortProgram p w'
      | _, _ => w'
      end in
    (ex_results e, err, w'').
End executor.
