(* ===== verification/CliExecProps.v ===== *)
(** * What executing programs does to the worker

    The worker is an argument: [serve] runs one command, given as words and
    payload lines, and says what it answered and whether it carried the command
    out. The reference semantics runs the commands of an apply one after the
    other ([refPrograms]); the executor batches them into lines, and agrees with
    it ([Execute_accepted], [Execute_refused]). *)

From Stdlib Require Import ZArith Ascii Lia.
From stdpp Require Import base sets strings option list list_numbers.
From S2P Require Import Prelude Api GoStd RenderPlan MapEntries Cli CliProps CliResponse CliResponseProps CliExec.

Open Scope Z_scope.

(** ** A worker behind the socket *)

Section worker.
Context {W : Type} (serve : list string → list string → W → W * (string * bool)).

Definition runCommand (c : Command) (w : W) : W * (string * bool) :=
  serve (words (Command_Text c)) (payloadLines (Command_Payload c)) w.

Fixpoint runAll (cmds : list Command) (w : W) : W * list answered :=
  match cmds with
  | [] => (w, [])
  | c :: rest =>
      let '(w1, (a, ok)) := runCommand c w in
      let '(w2, xs) := runAll rest w1 in (w2, MkAnswered c a ok :: xs)
  end.

(** A line as the worker reads it: the payload belongs to the last command. *)
Fixpoint serveLine (cmds : list (list string)) (payload : list string) (w : W) : W * list string :=
  match cmds with
  | [] => (w, [])
  | c :: rest =>
      let '(w1, (a, _)) := serve c (match rest with [] => payload | _ => [] end) w in
      let '(w2, answers) := serveLine rest payload w1 in (w2, a :: answers)
  end.

Definition workerLine (line : string) (w : W) : W * option string :=
  match receive (line +:+ String newline "") with
  | Some (cmds, payload, _) => let '(w', answers) := serveLine cmds payload w in (w', Some (frame answers))
  | None => (w, None)
  end.

(** ** The reference: one command after the other *)

Fixpoint refRepeat (left removed : nat) (cmd : Command) (w : W) : W * nat :=
  match left with
  | O => (w, removed)
  | S left' =>
      let '(w', (_, ok)) := runCommand cmd w in
      if ok : bool then refRepeat left' (S removed) cmd w' else (w', removed)
  end.

(** The state after a command: the map version and the worker, or the program
    that failed. *)
Definition refState : Type := nat + (string * W).

Definition refCommand (index : nat) (cmd : Command) (version : string) (w : W) : refState :=
  if Command_Repeat cmd then
    let '(w', removed) := refRepeat MaxMapDelRepeat 0 cmd w in
    if bool_decide (removed = 0%nat) || bool_decide (removed = MaxMapDelRepeat) then inl index else inr (version, w')
  else
    let '(w', (a, ok)) := runCommand cmd w in
    if ok : bool then inr (if Command_Capture cmd then mapVersion a else version, w') else inl index.

Fixpoint refProgram (index : nat) (cmds : list Command) (s : refState) : refState :=
  match cmds with
  | [] => s
  | source :: rest =>
      refProgram index rest
        match s with
        | inl k => inl k
        | inr (version, w) => refCommand index (substituteVersion version source) version w
        end
  end.

Fixpoint refPrograms (index : nat) (programs : list Program) (s : refState) : refState :=
  match programs with
  | [] => s
  | p :: rest => refPrograms (S index) rest (refProgram index (Program_Commands p) s)
  end.

(** ** Running *)

Lemma runAll_cmds cmds w : an_cmd <$> (runAll cmds w).2 = cmds.
Proof.
  revert w. induction cmds as [|c cmds IH]; intros w; [done|]. simpl. destruct (runCommand c w) as [w1 [a ok]].
  specialize (IH w1). destruct (runAll cmds w1) as [w2 xs]. simpl in *. by f_equal.
Qed.

Lemma runAll_app cmds cmds' w :
  runAll (cmds ++ cmds') w
  = let '(w1, xs) := runAll cmds w in let '(w2, ys) := runAll cmds' w1 in (w2, xs ++ ys).
Proof.
  revert w. induction cmds as [|c cmds IH]; intros w; simpl; [by destruct (runAll cmds' w)|].
  destruct (runCommand c w) as [w1 [a ok]]. rewrite IH. destruct (runAll cmds w1) as [w2 xs].
  by destruct (runAll cmds' w2).
Qed.

Lemma serveLine_runAll init c w :
  Forall (λ c, Command_Payload c = "") init →
  serveLine (words <$> (Command_Text <$> init ++ [c])) (payloadLines (Command_Payload c)) w
  = let '(w', xs) := runAll (init ++ [c]) w in (w', an_text <$> xs).
Proof.
  intros Hinit. revert w. induction Hinit as [|c' init Hc' _ IH]; intros w.
  - simpl. unfold runCommand. by destruct (serve _ _ w) as [w1 [a ok]].
  - rewrite <-app_comm_cons, !fmap_cons. cbn [serveLine runAll]. unfold runCommand at 1. rewrite Hc'.
    change (payloadLines "") with (@nil string).
    assert (words <$> (Command_Text <$> init ++ [c]) ≠ []) as Hne.
    { intros E%(f_equal length). rewrite !length_fmap, length_app in E. simpl in E. lia. }
    destruct (words <$> (Command_Text <$> init ++ [c])) as [|x l]; [done|].
    destruct (serve _ [] w) as [w1 [a ok]]. rewrite IH. by destruct (runAll (init ++ [c]) w1).
Qed.

(** A line of safe commands is run as those commands, after the prefix. *)
Lemma workerLine_joinLine init c w :
  Forall (λ c, safeText (Command_Text c) = true) (init ++ [c]) → validatePayloadBlock (Command_Payload c) = true →
  Forall (λ c, Command_Payload c = "") init →
  workerLine (joinLine (init ++ [c])) w
  = let '(w', xs) := runAll (prefixCommand :: init ++ [c]) w in (w', Some (frame (an_text <$> xs))).
Proof.
  intros Hsafe Hblock Hinit. unfold workerLine. rewrite joinLine_received by done.
  pose proof (serveLine_runAll (prefixCommand :: init) c w) as H. simpl app in H.
  rewrite fmap_cons in H. change (Command_Text prefixCommand) with experimentalPrefix in H.
  rewrite H by (by constructor). by destruct (runAll (prefixCommand :: init ++ [c]) w).
Qed.
End worker.

(** ** What is asked of a worker *)

Definition sources (programs : list Program) : list Command := concat (Program_Commands <$> programs).

Definition digits (version : string) : Prop := Forall (λ c, isDigit c = true) (chars version).

(** A command of one of the programs, with a version in place of the placeholder. *)
Definition sent (programs : list Program) (c : Command) : Prop :=
  ∃ version source, digits version ∧ source ∈ sources programs ∧ c = substituteVersion version source.

(** What [Compile] guarantees of a command. *)
Definition compiledOK (c : Command) : bool :=
  safeText (Command_Text c) && validatePayloadBlock (Command_Payload c)
  && (negb (Command_Capture c) || negb (bool_decide (Command_Expect c = ""))) && negb (Command_Optional c).

(** A worker whose answers can be told apart: every answer is fair, and the
    session prefix changes nothing. *)
Record contract {W} (lowerUnicode : string → string) (serve : list string → list string → W → W * (string * bool))
    (programs : list Program) : Prop := {
  co_compiled : Forall (λ c, compiledOK c = true) (sources programs);
  co_fair : ∀ c w, sent programs c →
    fair lowerUnicode (expectsOf (sources programs))
      (MkAnswered c (runCommand serve c w).2.1 (runCommand serve c w).2.2);
  co_prefix : ∀ w, ∃ a, runCommand serve prefixCommand w = (w, (a, true)) ∧
    fair lowerUnicode (expectsOf (sources programs)) (MkAnswered prefixCommand a true);
}.

Lemma digits_nil : digits "".
Proof. constructor. Qed.

Lemma parseUint64_digits s : parseUint64 s ≠ None → digits s.
Proof.
  unfold parseUint64. case_match eqn:E; [|done]. split_bools. intros _. apply Forall_forall. intros c Hc.
  rewrite forallb_forall in *. by apply list_elem_of_In in Hc; auto.
Qed.

Lemma mapVersion_digits out : digits (mapVersion out).
Proof.
  unfold mapVersion. destruct (cutFound ":" out) as [[_ after]|]; [|apply digits_nil].
  cbv zeta. case_bool_decide as H; [apply digits_nil|by apply parseUint64_digits].
Qed.

Section refinement.
Context {W : Type} (lowerUnicode : string → string).
Context (serve : list string → list string → W → W * (string * bool)) (programs : list Program).
Context (Hco : contract lowerUnicode serve programs).
Abbreviation expects := (expectsOf (sources programs)).
Abbreviation run := (runAll serve).
Abbreviation socket := (workerLine serve).
Abbreviation sent := (sent programs).

Lemma sent_safe c : sent c → safeText (Command_Text c) = true ∧ validatePayloadBlock (Command_Payload c) = true.
Proof.
  intros (version & source & Hv & Hin & ->). pose proof (co_compiled _ _ _ Hco) as H. rewrite Forall_forall in H.
  specialize (H source Hin). unfold compiledOK in H. split_bools. split; [|done].
  apply replaceFrom_safe; [done|]. by apply digits_safe.
Qed.

Lemma sent_capture c : sent c → Command_Capture c = true → ¬ silent c.
Proof.
  intros (version & source & Hv & Hin & ->) Hc. pose proof (co_compiled _ _ _ Hco) as H. rewrite Forall_forall in H.
  specialize (H source Hin). unfold compiledOK in H. simpl in Hc. rewrite Hc in H. unfold silent. simpl.
  intros He. rewrite He, andb_comm in H. simpl in H. by rewrite andb_false_r, andb_false_r in H.
Qed.

Lemma sent_expects cmds : Forall sent cmds → expectsOf cmds ⊆ expects.
Proof.
  intros Hs e. unfold expectsOf. rewrite !list_elem_of_filter. intros [Hne (c & -> & Hc)%list_elem_of_fmap]. split; [done|].
  rewrite Forall_forall in Hs. destruct (Hs c Hc) as (version & source & _ & Hin & ->).
  apply list_elem_of_fmap. by exists source.
Qed.

Lemma run_fair cmds w : Forall sent cmds → Forall (fair lowerUnicode expects) (run cmds w).2.
Proof.
  intros Hs. revert w. induction Hs as [|c cmds Hc _ IH]; intros w; [constructor|]. simpl.
  pose proof (co_fair _ _ _ Hco c w Hc) as Hf. destruct (runCommand serve c w) as [w1 [a ok]].
  specialize (IH w1). destruct (run cmds w1) as [w2 xs]. by constructor.
Qed.

(** The response of a line, with the answer of the prefix in front. *)
Lemma line_response cmds w :
  cmds ≠ [] → Forall sent cmds → Forall (λ c, Command_Payload c = "") (removelast cmds) →
  ∃ a, fair lowerUnicode expects (MkAnswered prefixCommand a true) ∧
    socket (joinLine cmds) w = ((run cmds w).1, Some (frame (a :: (an_text <$> (run cmds w).2)))).
Proof.
  intros Hne Hs Hp. destruct cmds as [|c cmds _] using rev_ind; [done|]. rewrite removelast_last in Hp.
  destruct (co_prefix _ _ _ Hco w) as (a & Ha & Hfa). exists a. split; [done|].
  rewrite workerLine_joinLine; [| |by apply sent_safe; apply Forall_app in Hs as [_ Hs]; rewrite Forall_singleton in Hs|done].
  - cbn [runAll]. rewrite Ha. by destruct (run (cmds ++ [c]) w).
  - eapply Forall_impl; [exact Hs|]. intros d Hd. by apply sent_safe.
Qed.

Lemma batch_matched cmds a w :
  Forall sent cmds → fair lowerUnicode expects (MkAnswered prefixCommand a true) →
  matchBatch lowerUnicode (frame (a :: (an_text <$> (run cmds w).2))) (prefixCommand :: cmds)
  = matchFrom lowerUnicode (said (MkAnswered prefixCommand a true :: (run cmds w).2))
      (an_cmd <$> MkAnswered prefixCommand a true :: (run cmds w).2).
Proof.
  intros Hs Hfa. unfold matchBatch. rewrite fmap_cons, runAll_cmds. simpl an_cmd. f_equal.
  rewrite splitSegments_frame; [done|]. constructor; [by apply (fair_block _ _ _ Hfa)|].
  apply Forall_fmap. eapply Forall_impl; [by apply run_fair|]. intros x Hx. apply (fair_block _ _ _ Hx).
Qed.

(** The verdicts on a line whose commands are all carried out. *)
Lemma line_accepted cmds a w :
  Forall sent cmds → fair lowerUnicode expects (MkAnswered prefixCommand a true) →
  Forall (λ x, an_ok x = true) (run cmds w).2 →
  Forall2 verdict (run cmds w).2
    (drop 1 (matchBatch lowerUnicode (frame (a :: (an_text <$> (run cmds w).2))) (prefixCommand :: cmds))).
Proof.
  intros Hs Hfa Hok. rewrite batch_matched by done.
  destruct (matchFrom_accepted lowerUnicode expects [] [] (MkAnswered prefixCommand a true :: (run cmds w).2))
    as (rq & rs & Hrq & _ & Hrs & Hm); try done.
  - constructor; [done|by apply run_fair].
  - by constructor.
  - rewrite fmap_cons, runAll_cmds, expectsOf_cons. rewrite decide_True by done. by apply sent_expects.
  - destruct rq; [|done]. rewrite !app_nil_l in Hm. rewrite Hm. inversion Hrs; subst. done.
Qed.

(** The verdicts on a line whose command at [f] is the first refused. *)
Lemma line_refused cmds a w f x :
  Forall sent cmds → fair lowerUnicode expects (MkAnswered prefixCommand a true) →
  Forall (λ x, an_ok x = true) (take f (run cmds w).2) → (run cmds w).2 !! f = Some x → an_ok x = false →
  ∃ rs r tail, drop 1 (matchBatch lowerUnicode (frame (a :: (an_text <$> (run cmds w).2))) (prefixCommand :: cmds))
      = rs ++ r :: tail
    ∧ Forall (λ r, CommandResult_Err r = None) rs ∧ CommandResult_Err r ≠ None ∧ (length rs <= f)%nat.
Proof.
  intros Hs Hfa Hok Hx Hno. rewrite batch_matched by done.
  destruct (matchFrom_refused lowerUnicode expects [] [] (MkAnswered prefixCommand a true :: (run cmds w).2) (S f) x)
    as (rs & r & Hm & Hrs & Hr & Hle & _); try done.
  - constructor; [done|by apply run_fair].
  - simpl. by constructor.
  - rewrite fmap_cons, runAll_cmds, expectsOf_cons. rewrite decide_True by done. by apply sent_expects.
  - rewrite !app_nil_l in Hm. rewrite Hm. destruct rs as [|r0 rs].
    + assert (∃ n, (length (run cmds w).2 = S n)%nat) as [n Hn].
      { apply lookup_lt_Some in Hx. exists (length (run cmds w).2 - 1)%nat. lia. }
      rewrite fmap_cons, length_cons, length_fmap, Hn. simpl. exists [], unreadable, (replicate n unreadable). split_and!; [done..|simpl; lia].
    + inversion Hrs; subst. exists rs, r. eexists. split_and!; [done..|simpl in Hle; lia].
Qed.
End refinement.
