(* ===== verification/CliExecClaims.v ===== *)
(** * The executor refines running one command after the other

    The simulation between [Execute] over a worker's socket and the reference
    semantics of [CliExecProps]: the executor lags behind the reference by the
    commands on the pending line ([sim]), every method keeps that relation or
    ends with an error where the reference has failed, and the line that is left
    is sent at the end. Then what that guarantees. *)

From Stdlib Require Import ZArith Ascii Lia.
From stdpp Require Import base sets strings option list list_numbers.
From S2P Require Import Prelude Api GoStd RenderPlan MapEntries Cli CliProps CliResponse CliResponseProps CliExec CliExecProps.

Open Scope Z_scope.

(** ** Recording verdicts *)

(** The results once the op at [i] was the first to fail. *)
Record marked (start : list OpResult) (i : nat) (e : execution) : Prop := {
  mk_failed : ex_failed e = Some i;
  mk_length : length (ex_results e) = length start;
  mk_verdict : from_option OpResult_OK true (ex_results e !! i) = false;
  mk_before : ∀ j, (j < i)%nat → ex_results e !! j = start !! j;
}.

Lemma record_accepted e p r : CommandResult_Err r = None → recordResult e p r = (e, None).
Proof. unfold recordResult. by intros ->. Qed.

Lemma record_marks start e p r :
  ex_results e = start → ex_failed e = None → (p < length start)%nat → CommandResult_Err r ≠ None →
  ∃ e' kind err out, recordResult e p r = (e', Some (OpFailed kind err out)) ∧ marked start p e'.
Proof.
  intros Hres Hf Hp Hr. unfold recordResult. destruct (CommandResult_Err r) as [err|]; [|done]. rewrite Hres, Hf.
  do 4 eexists. split; [done|]. split; simpl.
  - done.
  - by rewrite length_insert.
  - by rewrite list_lookup_insert_eq.
  - intros j Hj. rewrite list_lookup_insert_ne by lia. done.
Qed.

Lemma record_keeps start i e p r : marked start i e → (i <= p)%nat → marked start i (recordResult e p r).1.
Proof.
  intros [Hf Hl Hv Hb] Hp. unfold recordResult. destruct (CommandResult_Err r) as [err|]; [|by split].
  split; simpl.
  - by rewrite Hf.
  - by rewrite length_insert.
  - destruct (decide (p = i)) as [->|]; [|by rewrite list_lookup_insert_ne].
    destruct (ex_results e !! i) as [x|] eqn:E; [|done]. apply lookup_lt_Some in E. by rewrite list_lookup_insert_eq.
  - intros j Hj. rewrite list_lookup_insert_ne by lia. by apply Hb.
Qed.

Definition setVersion (v : string) (e : execution) : execution :=
  MkExecution (ex_results e) (ex_pending e) (ex_length e) v (ex_failed e).

Lemma setVersion_marked start i v e : marked start i e → marked start i (setVersion v e).
Proof. by intros []. Qed.

(** After the first failure nothing is taken back. *)
Lemma recordAll_keeps start i pending results e err :
  marked start i e → Forall (λ p, (i <= pc_program p)%nat) pending →
  ∃ e', recordAll pending results e (Some err) = (e', Some err) ∧ marked start i e'.
Proof.
  intros Hm Hp. revert results e Hm. induction Hp as [|p pending Hp _ IH]; intros results e Hm; [by exists e|].
  destruct results as [|r results]; [by exists e|]. cbn [recordAll].
  set (e1 := if (_ : bool) then _ else e). assert (marked start i e1) as Hm1.
  { subst e1. case_match; [|done]. by apply (setVersion_marked start i (mapVersion (CommandResult_Output r))). }
  pose proof (record_keeps start i e1 (pc_program p) r Hm1 Hp) as Hm2. destruct (recordResult e1 _ _) as [e2 err2].
  by apply IH.
Qed.

Lemma recordAll_accepted pending results e first :
  Forall (λ p, Command_Capture (pc_command p) = false) pending → Forall (λ r, CommandResult_Err r = None) results →
  recordAll pending results e first = (e, first).
Proof.
  intros Hp. revert results. induction Hp as [|p pending Hc _ IH]; intros results Hr; [done|].
  destruct Hr as [|r results Hr Hrs]; [done|]. cbn [recordAll]. rewrite Hc. cbn [andb].
  rewrite record_accepted by done. destruct first; by apply IH.
Qed.

(** The first failing verdict of a line decides. *)
Lemma recordAll_refused start pending rs r tail e p :
  ex_results e = start → ex_failed e = None → Forall (λ r, CommandResult_Err r = None) rs →
  CommandResult_Err r ≠ None → pending !! length rs = Some p → (pc_program p < length start)%nat →
  Forall (λ q, (pc_program p <= pc_program q)%nat) (drop (length rs) pending) →
  ∃ e' kind err out, recordAll pending (rs ++ r :: tail) e None = (e', Some (OpFailed kind err out))
    ∧ marked start (pc_program p) e'.
Proof.
  intros Hres Hf Hrs Hr. revert pending e Hres Hf. induction Hrs as [|r0 rs Hr0 _ IH]; intros pending e Hres Hf Hp Hlt Hall.
  - destruct pending as [|q pending]; [done|]. simpl in Hp. injection Hp as ->. rewrite drop_0 in Hall.
    apply Forall_cons in Hall as [_ Hall]. simpl app. cbn [recordAll].
    rewrite (bool_decide_false (CommandResult_Err r = None)), andb_false_r by done.
    destruct (record_marks start e (pc_program p) r) as (e2 & kind & err & out & -> & Hm); [done..|].
    destruct (recordAll_keeps start (pc_program p) pending tail e2 (OpFailed kind err out)) as (e' & -> & Hm'); [done..|].
    by exists e', kind, err, out.
  - destruct pending as [|q pending]; [done|]. simpl in Hp, Hall. simpl app. cbn [recordAll].
    set (e1 := if (_ : bool) then _ else e). rewrite record_accepted by done. apply IH; [| |done..].
    + subst e1. by case_match.
    + subst e1. by case_match.
Qed.

(** ** The simulation *)

Section simulation.
Context {W : Type} (lowerUnicode : string → string).
Context (serve : list string → list string → W → W * (string * bool)) (programs : list Program).
Context (Hco : contract lowerUnicode serve programs) (start : list OpResult).
Abbreviation run := (runAll serve).
Abbreviation socket := (workerLine serve).
Abbreviation sent := (sent programs).
Abbreviation flush := (flush lowerUnicode socket).
Abbreviation cmdsOf e := (pc_command <$> ex_pending e).

(** A command that may share its line. *)
Definition shares (c : Command) : Prop := Command_Payload c = "" ∧ Command_Capture c = false.

(** The executor before any failure, in program [index]. *)
Record going (index : nat) (e : execution) : Prop := {
  go_results : ex_results e = start;
  go_failed : ex_failed e = None;
  go_version : digits (ex_version e);
  go_sent : Forall (λ p, sent (pc_command p)) (ex_pending e);
  go_index : Forall (λ p, (pc_program p <= index)%nat) (ex_pending e);
  go_range : Forall (λ p, (pc_program p < length start)%nat) (ex_pending e);
  go_sorted : ∀ i j p q, (i <= j)%nat → ex_pending e !! i = Some p → ex_pending e !! j = Some q →
    (pc_program p <= pc_program q)%nat;
}.

(** Running the pending line from here gets where the reference is; where the
    reference has failed, the first refusal of the line is in that program. *)
Definition ahead (R : refState) (e : execution) (w : W) : Prop :=
  match R with
  | inr (v, w') => ex_version e = v ∧ (run (cmdsOf e) w).1 = w' ∧ Forall (λ x, an_ok x = true) (run (cmdsOf e) w).2
  | inl k => ∃ f p x, ex_pending e !! f = Some p ∧ pc_program p = k ∧ (run (cmdsOf e) w).2 !! f = Some x
               ∧ an_ok x = false ∧ Forall (λ x, an_ok x = true) (take f (run (cmdsOf e) w).2)
  end.

Definition sim (index : nat) (R : refState) (e : execution) (w : W) : Prop :=
  going index e ∧ Forall (λ p, shares (pc_command p)) (ex_pending e) ∧ ahead R e w.

(** An error ends the run where the reference has failed. *)
Definition stopped (R : refState (W:=W)) (e : execution) (err : ExecError) : Prop :=
  ∃ k i kind code out, R = inl k ∧ err = OpFailed kind code out ∧ marked start i e ∧ (i <= k)%nat.

Definition outcome (index : nat) (R : refState) (r : Run) : Prop :=
  let '(e, w, err) := r in match err with None => sim index R e w | Some err => stopped R e err end.

Lemma cmds_sent index e : going index e → Forall sent (cmdsOf e).
Proof. intros Hg. apply Forall_fmap. exact (go_sent _ _ Hg). Qed.

Lemma shares_line e : Forall (λ p, shares (pc_command p)) (ex_pending e) → Forall (λ c, Command_Payload c = "") (removelast (cmdsOf e)).
Proof.
  intros Hs. apply Forall_forall. intros c Hc. assert (c ∈ cmdsOf e) as (p & -> & Hp)%list_elem_of_fmap.
  { destruct (cmdsOf e) as [|x l _] using rev_ind; [done|]. rewrite removelast_last in Hc. set_solver. }
  rewrite Forall_forall in Hs. by apply (Hs p Hp).
Qed.

(** Sending a line. *)
Lemma flush_line index e w :
  going index e → ex_pending e ≠ [] → Forall (λ c, Command_Payload c = "") (removelast (cmdsOf e)) →
  ∃ a, fair lowerUnicode (expectsOf (sources programs)) (MkAnswered prefixCommand a true)
    ∧ flush e w
      = let '(e', first) :=
          recordAll (ex_pending e)
            (drop 1 (matchBatch lowerUnicode (frame (a :: (an_text <$> (run (cmdsOf e) w).2))) (prefixCommand :: cmdsOf e)))
            (MkExecution (ex_results e) [] 0 (ex_version e) (ex_failed e)) None in
        (e', (run (cmdsOf e) w).1, first).
Proof.
  intros Hg Hne Hl. destruct (line_response lowerUnicode serve programs Hco (cmdsOf e) w) as (a & Hfa & Hline).
  - by destruct (ex_pending e).
  - by eapply cmds_sent.
  - done.
  - exists a. split; [done|]. unfold CliExec.flush. destruct (ex_pending e) as [|p pending]; [done|]. by rewrite Hline.
Qed.

Lemma flush_accepted index e w :
  going index e → Forall (λ p, shares (pc_command p)) (ex_pending e) → Forall (λ x, an_ok x = true) (run (cmdsOf e) w).2 →
  ∃ e', flush e w = (e', (run (cmdsOf e) w).1, None) ∧ going index e' ∧ ex_pending e' = [] ∧ ex_version e' = ex_version e.
Proof.
  intros Hg Hs Hok. destruct (decide (ex_pending e = [])) as [He|Hne].
  { exists e. unfold CliExec.flush. rewrite He. by split_and!. }
  destruct (flush_line index e w Hg Hne) as (a & Hfa & ->); [by apply shares_line|].
  pose proof (line_accepted lowerUnicode serve programs Hco (cmdsOf e) a w (cmds_sent _ _ Hg) Hfa Hok) as Hv.
  rewrite recordAll_accepted.
  - eexists. split; [done|]. destruct Hg. split; [|done]. by split; try constructor.
  - eapply Forall_impl; [exact Hs|]. by intros p [_ ?].
  - apply Forall_forall. intros r Hr. apply list_elem_of_lookup in Hr as [i Hi].
    by destruct (Forall2_lookup_r _ _ _ _ _ Hv Hi) as (x & _ & [? _]).
Qed.

Lemma flush_refused index e w k :
  going index e → Forall (λ c, Command_Payload c = "") (removelast (cmdsOf e)) →
  ahead (inl k) e w → ∃ e' w' err, flush e w = (e', w', Some err) ∧ stopped (inl k) e' err.
Proof.
  intros Hg Hl (f & p & x & Hp & <- & Hx & Hno & Hok).
  destruct (flush_line index e w Hg) as (a & Hfa & ->); [by destruct (ex_pending e)|done|].
  destruct (line_refused lowerUnicode serve programs Hco (cmdsOf e) a w f x) as (rs & r & tail & -> & Hrs & Hr & Hle);
    [by eapply cmds_sent|done..|].
  destruct (lookup_lt_is_Some_2 (ex_pending e) (length rs)) as [q Hq]; [apply lookup_lt_Some in Hp; lia|].
  pose proof (go_range _ _ Hg) as Hi. pose proof (go_sorted _ _ Hg) as Hsort. rewrite Forall_lookup in Hi.
  assert (∀ j y, (length rs <= j)%nat → ex_pending e !! j = Some y → (pc_program q <= pc_program y)%nat) as Hge.
  { intros j y Hj Hy. by eapply Hsort. }
  destruct (recordAll_refused start (ex_pending e) rs r tail (MkExecution (ex_results e) [] 0 (ex_version e) (ex_failed e)) q)
    as (e' & kind & err & out & -> & Hm); [apply Hg|apply Hg|done..| | |].
  - by eapply Hi.
  - apply Forall_lookup. intros j y Hy. rewrite lookup_drop in Hy. eapply Hge; [|done]. lia.
  - do 3 eexists. split; [done|]. do 5 eexists. split_and!; [done|done|done|]. by eapply Hge.
Qed.

(** Whatever is pending is sent: the executor catches up or stops. *)
Lemma flush_outcome index R e w :
  sim index R e w →
  (∃ v w' e', R = inr (v, w') ∧ flush e w = (e', w', None) ∧ going index e' ∧ ex_pending e' = [] ∧ ex_version e' = v)
  ∨ ∃ e' w' err, flush e w = (e', w', Some err) ∧ stopped R e' err.
Proof.
  intros (Hg & Hs & Ha). destruct R as [k|[v w']].
  - right. apply (flush_refused index); [done|by apply shares_line|done].
  - left. destruct Ha as (<- & <- & Hok). destruct (flush_accepted index e w Hg Hs Hok) as (e' & -> & Hg' & Hp & Hv).
    by exists (ex_version e), (run (cmdsOf e) w).1, e'.
Qed.

Definition pushCmd (index : nat) (cmd : Command) (e : execution) : execution :=
  MkExecution (ex_results e) (ex_pending e ++ [MkPending index cmd])
    (ex_length e + Z.of_nat (String.length (Command_Text cmd)) + 1) (ex_version e) (ex_failed e).

Lemma push_going index cmd e : (index < length start)%nat → going index e → sent cmd → going index (pushCmd index cmd e).
Proof.
  intros Hidx [H1 H2 H3 H4 H5 H5' H6] Hs. split; simpl; try done.
  - apply Forall_app_2; [done|]. by apply Forall_singleton.
  - apply Forall_app_2; [done|]. by apply Forall_singleton.
  - apply Forall_app_2; [done|]. by apply Forall_singleton.
  - intros i j p q Hij Hi Hj. apply lookup_snoc_Some in Hi as [[Hi1 Hi]|[-> <-]], Hj as [[Hj1 Hj]|[-> <-]]; simpl; try lia.
    + by apply (H6 i j).
    + rewrite Forall_lookup in H5. by apply (H5 i).
Qed.

Lemma push_run index cmd e w :
  run (cmdsOf (pushCmd index cmd e)) w
  = let '(w1, xs) := run (cmdsOf e) w in
    let '(w2, (a, ok)) := runCommand serve cmd w1 in (w2, xs ++ [MkAnswered cmd a ok]).
Proof.
  simpl. rewrite fmap_app, runAll_app. destruct (run (cmdsOf e) w) as [w1 xs]. simpl. by destruct (runCommand serve cmd w1) as [w2 [a ok]].
Qed.

(** What the reference does at a command of program [index]. *)
Definition refNext (index : nat) (cmd : Command) (R : refState (W:=W)) : refState :=
  match R with inl k => inl k | inr (v, w) => refCommand serve index cmd v w end.

(** A command joins the line: the reference has run it. *)
Lemma push_ahead index cmd R e w :
  Command_Repeat cmd = false → (Command_Capture cmd = false ∨ ex_pending e = []) → going index e → ahead R e w →
  match refNext index cmd R with
  | inl k => ahead (inl k) (pushCmd index cmd e) w
  | inr (v, w') => (run (cmdsOf (pushCmd index cmd e)) w).1 = w' ∧ Forall (λ x, an_ok x = true) (run (cmdsOf (pushCmd index cmd e)) w).2
                   ∧ (Command_Capture cmd = false → ex_version e = v)
  end.
Proof.
  intros Hrep Hcap Hg Ha. pose proof (push_run index cmd e w) as Hrun. pose proof (runAll_cmds serve (cmdsOf e) w) as Hlen.
  apply (f_equal length) in Hlen. rewrite !length_fmap in Hlen. destruct (run (cmdsOf e) w) as [w1 xs] eqn:E1. simpl in Hlen.
  destruct R as [k|[v w0]]; unfold ahead in Ha; rewrite E1 in Ha; simpl in Ha; unfold refNext.
  - destruct Ha as (f & p & x & Hp & <- & Hx & Hno & Hok). exists f, p, x. rewrite Hrun.
    destruct (runCommand serve cmd w1) as [w2 [a ok]]. simpl. pose proof (lookup_lt_Some _ _ _ Hx).
    split_and!; [by rewrite lookup_app_l by lia|done|by rewrite lookup_app_l by lia|done|by rewrite take_app_le by lia].
  - destruct Ha as (<- & <- & Hok). unfold refCommand. rewrite Hrep. rewrite Hrun.
    destruct (runCommand serve cmd w1) as [w2 [a ok]]. destruct ok.
    + simpl. split_and!; [done|apply Forall_app_2; [done|by apply Forall_singleton]|by intros ->].
    + exists (length xs), (MkPending index cmd), (MkAnswered cmd a false). rewrite Hrun. simpl.
      rewrite take_app_length. split_and!; [by rewrite Hlen, list_lookup_middle|done|by rewrite list_lookup_middle|done|done].
Qed.

Lemma push_sim index cmd R e w :
  (index < length start)%nat → sent cmd → Command_Repeat cmd = false → shares cmd → sim index R e w → sim index (refNext index cmd R) (pushCmd index cmd e) w.
Proof.
  intros Hidx Hs Hrep Hsh (Hg & Hp & Ha). split; [by apply push_going|]. split.
  - simpl. apply Forall_app_2; [done|by apply Forall_singleton].
  - pose proof (push_ahead index cmd R e w Hrep (or_introl (proj2 Hsh)) Hg Ha) as H.
    destruct (refNext index cmd R) as [k|[v w']]; [done|]. destruct H as (H1 & H2 & H3). by split; [apply H3, Hsh|].
Qed.

(** A command on a line of its own. *)
Lemma solo_outcome index cmd v w e :
  (index < length start)%nat → sent cmd → Command_Repeat cmd = false →
  going index e → ex_pending e = [] → ex_version e = v →
  outcome index (refCommand serve index cmd v w) (flush (pushCmd index cmd e) w).
Proof.
  intros Hidx Hs Hrep Hg He Hv. pose proof (push_going index cmd e Hidx Hg Hs) as Hg'.
  assert (ahead (inr (v, w)) e w) as Ha by (unfold ahead; rewrite He; by split_and!).
  pose proof (push_ahead index cmd _ e w Hrep (or_intror He) Hg Ha) as Hnext. unfold refNext in Hnext.
  assert (ex_pending (pushCmd index cmd e) = [MkPending index cmd]) as He1 by (simpl; by rewrite He).
  assert (ex_version (pushCmd index cmd e) = v) as Hv1 by done.
  generalize dependent (pushCmd index cmd e). intros e1 Hg1 Hnext He1 Hv1. rewrite He1 in Hnext.
  destruct (refCommand serve index cmd v w) as [k|[v' w']] eqn:Href.
  { destruct (flush_refused index e1 w k) as (e' & w' & err & -> & Hst); [done|by rewrite He1|done|done]. }
  destruct Hnext as (Hw & Hok & _).
  destruct (flush_line index e1 w Hg1) as (a & Hfa & ->); [by rewrite He1|by rewrite He1|].
  pose proof (cmds_sent _ _ Hg1) as Hs1. rewrite He1 in Hs1 |- *.
  pose proof (line_accepted lowerUnicode serve programs Hco _ a w Hs1 Hfa Hok) as Hverd.
  set (m := drop 1 _) in *. clearbody m. unfold refCommand in Href. rewrite Hrep in Href.
  simpl in Hverd, Hw, Hok |- *. destruct (runCommand serve cmd w) as [w2 [ans ok]]. simpl in Hverd, Hw, Hok |- *.
  inversion Hverd as [|x r xs rs [Herr Hout] Hxs Hx1 Hx2]. inversion Hxs. subst. destruct ok; [|done]. injection Href as <-.
  simpl in Hout |- *. rewrite (bool_decide_true (CommandResult_Err r = None)), andb_true_r by done.
  destruct Hg1 as [G1 G2 G3 _ _ _ _].
  destruct (Command_Capture cmd) eqn:Hc; rewrite record_accepted by done; (split; [|split; [constructor|]]).
  - split; simpl; try done. apply mapVersion_digits.
  - rewrite Hout by (by apply (sent_capture lowerUnicode serve programs Hco)). by split_and!.
  - by split.
  - by split_and!.
Qed.

Lemma add_outcome index cmd R e w :
  (index < length start)%nat → sent cmd → Command_Repeat cmd = false → sim index R e w →
  outcome index (refNext index cmd R) (add lowerUnicode socket index cmd e w).
Proof.
  intros Hidx Hs Hrep Hsim. unfold add. cbv zeta.
  destruct (negb (bool_decide (Command_Payload cmd = "")) || Command_Capture cmd) eqn:Hsolo.
  - cbn [orb]. destruct (flush_outcome index R e w Hsim) as [(v & w' & e' & -> & -> & Hg & Hp & Hv)|(e' & w' & err & -> & Hst)].
    + simpl. by apply solo_outcome.
    + destruct Hst as (k & Hst). simpl. exists k. destruct Hst as (i & kind & code & out & -> & Hst). by do 4 eexists.
  - assert (shares cmd) as Hsh by (unfold shares; split_bools; by split). cbn [orb].
    case_match; [|by apply (push_sim index cmd R e w)].
    destruct (flush_outcome index R e w Hsim) as [(v & w' & e' & -> & -> & Hg & Hp & Hv)|(e' & w' & err & -> & Hst)].
    + apply (push_sim index cmd (inr (v, w')) e' w'); [done..|]. split; [done|]. unfold ahead. rewrite Hp. by split_and!.
    + destruct Hst as (k & Hst). simpl. exists k. destruct Hst as (i & kind & code & out & -> & Hst). by do 4 eexists.
Qed.

(** ** Repeated deletes *)

Lemma once_spec cmd w :
  sent cmd → ∃ r, once lowerUnicode socket cmd w = ((runCommand serve cmd w).1, Some r)
                  ∧ (CommandResult_Err r = None ↔ (runCommand serve cmd w).2.2 = true).
Proof.
  intros Hs. assert (Forall sent [cmd]) as Hs' by by apply Forall_singleton.
  destruct (line_response lowerUnicode serve programs Hco [cmd] w) as (a & Hfa & Hline); [done..|].
  pose proof (line_accepted lowerUnicode serve programs Hco [cmd] a w Hs' Hfa) as Hacc.
  pose proof (line_refused lowerUnicode serve programs Hco [cmd] a w 0) as Href.
  generalize dependent (frame (a :: (an_text <$> (run [cmd] w).2))). intros raw Hline Hacc Href.
  unfold once. rewrite Hline. cbn [mbind option_bind].
  generalize dependent (matchBatch lowerUnicode raw [prefixCommand; cmd]). intros m Hacc Href.
  simpl in Hacc, Href |- *. destruct (runCommand serve cmd w) as [w1 [ans ok]]. simpl in Hacc, Href |- *. destruct ok.
  - specialize (Hacc ltac:(by apply Forall_singleton)). inversion Hacc as [|x r xs rs [Hr _] _ Hx Hm]; subst.
    exists r. split; [|done]. assert (m !! 1%nat = drop 1 m !! 0%nat) as -> by (by rewrite lookup_drop). by rewrite <-Hm.
  - destruct (Href _ Hs' Hfa ltac:(constructor) eq_refl eq_refl) as (rs & r & tail & Hm & _ & Hr & Hle).
    destruct rs; [|simpl in Hle; lia]. exists r. split; [|done]. assert (m !! 1%nat = drop 1 m !! 0%nat) as -> by (by rewrite lookup_drop). by rewrite Hm.
Qed.

Lemma repeatLoop_spec left removed cmd w :
  sent cmd → ∃ last, repeatLoop lowerUnicode socket left removed cmd w
      = ((refRepeat serve left removed cmd w).1, Some ((refRepeat serve left removed cmd w).2, last))
    ∧ (removed <= (refRepeat serve left removed cmd w).2 <= removed + left)%nat
    ∧ ((refRepeat serve left removed cmd w).2 < removed + left → CommandResult_Err last ≠ None)%nat.
Proof.
  intros Hs. revert removed w. induction left as [|left IH]; intros removed w.
  { eexists. simpl. split; [done|]. lia. }
  cbn [repeatLoop refRepeat]. destruct (once_spec cmd w Hs) as (r & -> & Hr).
  destruct (runCommand serve cmd w) as [w1 [a ok]]. simpl in Hr |- *. destruct ok.
  - rewrite bool_decide_true by by apply Hr. simpl. destruct (IH (S removed) w1) as (last & -> & Hle & Hlast).
    exists last. split; [done|]. split; [lia|]. intros Hlt. apply Hlast. lia.
  - rewrite bool_decide_false by (intros ?%Hr; done). simpl. exists r. split; [done|]. split; [lia|]. intros _ ?%Hr. done.
Qed.

Lemma stopped_next index cmd R e err : stopped R e err → stopped (refNext index cmd R) e err.
Proof. by intros (k & i & kind & code & out & -> & H); exists k, i, kind, code, out. Qed.

Lemma repeat_outcome index cmd R e w :
  (index < length start)%nat → sent cmd → Command_Repeat cmd = true → sim index R e w →
  outcome index (refNext index cmd R) (repeat lowerUnicode socket index cmd e w).
Proof.
  intros Hidx Hs Hrep Hsim. unfold repeat.
  destruct (flush_outcome index R e w Hsim) as [(v & w' & e' & -> & -> & Hg & Hp & Hv)|(e' & w' & err & -> & Hst)];
    [|by apply stopped_next].
  cbn [andThen]. destruct (repeatLoop_spec MaxMapDelRepeat 0 cmd w' Hs) as (last & -> & Hle & Hlast).
  unfold refNext, refCommand. rewrite Hrep. destruct (refRepeat serve MaxMapDelRepeat 0 cmd w') as [w2 removed].
  simpl fst in *. simpl snd in *.
  assert (∀ r, CommandResult_Err r ≠ None → ∀ w2, outcome index (inl index) (let '(e2, err) := recordResult e' index r in (e2, w2, err))) as Hrec.
  { intros r Hr w3. destruct (record_marks start e' index r) as (e2 & kind & err & out & -> & Hm); [by destruct Hg..|done|done|].
    exists index, index, kind, err, out. by split_and!. }
  case_bool_decide as H0; cbn [orb]; [apply Hrec, Hlast; unfold MaxMapDelRepeat; lia|].
  case_bool_decide as H1; [by apply Hrec|]. split; [done|]. unfold ahead. rewrite Hp. by split_and!.
Qed.

(** ** Programs *)

Lemma sim_weaken index index' R e w : (index <= index')%nat → sim index R e w → sim index' R e w.
Proof.
  intros Hle (Hg & Hs & Ha). split; [|by split]. destruct Hg as [H1 H2 H3 H4 H5 H6 H7]. split; try done.
  eapply Forall_impl; [exact H5|]. simpl. lia.
Qed.

Lemma refProgram_stopped index cmds R e err : stopped R e err → stopped (refProgram serve index cmds R) e err.
Proof.
  revert R. induction cmds as [|c cmds IH]; intros R Hst; [done|]. simpl. apply IH.
  destruct Hst as (k & i & kind & code & out & -> & H). by exists k, i, kind, code, out.
Qed.

Lemma refPrograms_stopped index ps R e err : stopped R e err → stopped (refPrograms serve index ps R) e err.
Proof.
  revert index R. induction ps as [|p ps IH]; intros index R Hst; [done|]. simpl. apply IH. by apply refProgram_stopped.
Qed.

(** The executor and the reference put the same version into a command. *)
Lemma refNext_version index source R e w :
  sim index R e w →
  match R with
  | inl k => inl k
  | inr (v, w0) => refCommand serve index (substituteVersion v source) v w0
  end = refNext index (substituteVersion (ex_version e) source) R.
Proof. intros (_ & _ & Ha). destruct R as [k|[v w0]]; [done|]. destruct Ha as (-> & _). done. Qed.

Lemma program_outcome index cmds R e w :
  (index < length start)%nat → Forall (λ c, c ∈ sources programs) cmds → sim index R e w →
  outcome index (refProgram serve index cmds R) (program lowerUnicode socket index cmds e w).
Proof.
  intros Hidx Hin. revert R e w. induction Hin as [|source cmds Hsrc _ IH]; intros R e w Hsim; [done|].
  cbn [program refProgram].
  match goal with |- outcome _ (refProgram _ _ _ ?X) _ =>
    replace X with (refNext index (substituteVersion (ex_version e) source) R)
      by (symmetry; exact (refNext_version index source R e w Hsim))
  end.
  set (cmd := substituteVersion (ex_version e) source).
  assert (sent cmd) as Hs by (exists (ex_version e), source; split_and!; [apply Hsim|done|done]).
  assert (outcome index (refNext index cmd R)
            (if Command_Repeat cmd then repeat lowerUnicode socket index cmd e w else add lowerUnicode socket index cmd e w)) as Hstep.
  { destruct (Command_Repeat cmd) eqn:Hrep; [by apply repeat_outcome|by apply add_outcome]. }
  destruct (if Command_Repeat cmd then _ else _) as [[e' w'] [err|]]; cbn [andThen]; [by apply refProgram_stopped|by apply IH].
Qed.

(** The line that is left is sent, and nothing stays pending. *)
Definition finished (R : refState) (r : Run) : Prop :=
  let '(e, w, err) := r in
  match err with
  | None => ∃ v, R = inr (v, w) ∧ ex_results e = start
  | Some err => stopped R e err
  end.

Lemma allPrograms_finished index ps R e w :
  (index + length ps <= length start)%nat → Forall (λ p, Forall (λ c, c ∈ sources programs) (Program_Commands p)) ps →
  sim index R e w → finished (refPrograms serve index ps R) (allPrograms lowerUnicode socket index ps e w).
Proof.
  intros Hlen Hin. revert index R e w Hlen. induction Hin as [|p ps Hp _ IH]; intros index R e w Hlen Hsim.
  - cbn [allPrograms refPrograms].
    destruct (flush_outcome index R e w Hsim) as [(v & w' & e' & -> & -> & Hg & _)|(e' & w' & err & -> & Hst)]; [|done].
    exists v. by destruct Hg.
  - simpl in Hlen. cbn [allPrograms refPrograms].
    pose proof (program_outcome index (Program_Commands p) R e w ltac:(lia) Hp Hsim) as Hstep.
    destruct (program _ _ _ _ _ _) as [[e' w'] [err|]]; cbn [andThen]; [by apply refPrograms_stopped|].
    apply IH; [lia|]. eapply sim_weaken; [|done]. lia.
Qed.
End simulation.

(** ** What the executor guarantees

    On a worker whose answers can be told apart, executing programs in lines is
    running their commands one by one ([execute_refines_sequential]); on any
    socket, the lines fit the worker's buffer and the verdicts account for every
    op ([execute_accounts]). *)

Definition accepted (p : Program) : OpResult := MkOpResult (Program_Kind p) true "".

Lemma sources_programs programs :
  Forall (λ p, Forall (λ c, c ∈ sources programs) (Program_Commands p)) programs.
Proof.
  apply Forall_forall. intros p Hp. apply Forall_forall. intros c Hc. unfold sources. apply list_elem_of_In, in_concat.
  exists (Program_Commands p). rewrite <-!list_elem_of_In. split; [|done]. by apply list_elem_of_fmap_2.
Qed.

(** C6: executing the programs of an apply, no more than the limit of ops, over
    the socket of a worker whose answers follow the runtime API's conventions
    ([contract]) is running their commands one after the other. When every
    command is carried out, every op is reported as done and the worker is in the
    state the commands leave, map versions included. When a command of the op at
    [k] is refused, the execution ends with the error of an op, some op at
    [i <= k] is reported as failed, and every op before [i] is reported as done;
    what the worker's state is then is not said. *)
Theorem execute_refines_sequential {W} lowerUnicode (serve : list string → list string → W → W * (string * bool)) programs w :
  contract lowerUnicode serve programs → (length programs <= MaxOpsPerApply)%nat →
  match refPrograms serve 0 programs (inr ("", w)) with
  | inr (_, w') => Execute lowerUnicode (workerLine serve) programs w = (accepted <$> programs, None, w')
  | inl k =>
      ∃ results kind code out w' i,
        Execute lowerUnicode (workerLine serve) programs w = (results, Some (OpFailed kind code out), w')
        ∧ length results = length programs ∧ (i <= k)%nat
        ∧ from_option OpResult_OK true (results !! i) = false
        ∧ ∀ j p, (j < i)%nat → programs !! j = Some p → results !! j = Some (accepted p)
  end.
Proof.
  intros Hco Hlen. unfold Execute. rewrite bool_decide_false by lia. fold accepted. cbv zeta.
  pose proof (allPrograms_finished lowerUnicode serve programs Hco (accepted <$> programs) 0 programs (inr ("", w))
    (MkExecution (accepted <$> programs) [] 0 "" None) w) as Hfin.
  destruct (allPrograms _ _ _ _ _ _) as [[e w'] err]. rewrite length_fmap in Hfin.
  specialize (Hfin ltac:(lia) (sources_programs programs)).
  assert (sim serve programs (accepted <$> programs) 0 (inr ("", w)) (MkExecution (accepted <$> programs) [] 0 "" None) w) as Hsim.
  { split; [|by split_and!]. by split; try apply digits_nil; try constructor. }
  specialize (Hfin Hsim). unfold finished in Hfin. destruct err as [err|].
  - destruct Hfin as (k & i & kind & code & out & -> & -> & [Hf Hl Hv Hb] & Hle). rewrite length_fmap in Hl.
    eexists _, kind, code, out, _, i. split; [reflexivity|]. split_and!; [done..|].
    intros j p Hj Hp. rewrite Hb by done. by rewrite list_lookup_fmap, Hp.
  - destruct Hfin as (v & -> & ->). done.
Qed.

(** A worker that publishes backends and removes one of the duplicates of a map
    key per call. *)
Definition demoServe (cmd payload : list string) (w : list string * nat) : (list string * nat) * (string * bool) :=
  match cmd with
  | ["experimental-mode"; "on"] => (w, ("", true))
  | ["publish"; "backend"; name] => ((name :: w.1, w.2), ("Backend published.", true))
  | ["del"; "map"; _; _] =>
      match w.2 with
      | O => (w, ("[3]: Key not found.", false))
      | S n => ((w.1, n), ("", true))
      end
  | _ => (w, ("[3]: Unknown command.", false))
  end.

Definition demoPrograms : list Program :=
  [MkProgram OpMapDel (commandsOf (op_map OpMapDel "maps/host.map" "example.com" "")) [];
   MkProgram OpBackendPublish (commandsOf demoPublish) []].

Lemma demo_sources :
  sources demoPrograms
  = [MkCommand "del map maps/host.map example.com" "" "" false true false;
     MkCommand "publish backend app" "" "Backend published" false false false].
Proof. vm_compute. reflexivity. Qed.

Lemma demo_contract : contract id demoServe demoPrograms.
Proof.
  split; rewrite demo_sources.
  - by repeat constructor.
  - intros c [names n] (version & source & _ & Hin & ->).
    rewrite demo_sources, !elem_of_cons, elem_of_nil in Hin. destruct Hin as [->|[->|[]]]; simpl.
    + destruct n as [|n]; split; simpl; try done; try (by left); try (by right); try (by intros []); by repeat constructor.
    + split; simpl; try done; by right.
  - intros w. exists "". split; [by destruct w|]. split; try done; try (by left); try (by intros []). by repeat constructor.
Qed.

Lemma execute_refines_sequential_witness :
  Execute id (workerLine demoServe) demoPrograms ([], 2%nat)
  = ([MkOpResult OpMapDel true ""; MkOpResult OpBackendPublish true ""], None, (["app"], 0%nat)).
Proof.
  pose proof (execute_refines_sequential id demoServe demoPrograms ([], 2%nat) demo_contract) as H.
  assert (length demoPrograms <= MaxOpsPerApply)%nat as Hlen by (apply Nat.leb_le; vm_compute; reflexivity).
  specialize (H Hlen).
  assert (refPrograms demoServe 0 demoPrograms (inr ("", ([], 2%nat))) = inr ("", (["app"], 0%nat))) as E
    by (vm_compute; reflexivity).
  rewrite E in H. exact H.
Defined.
