(* ===== verification/CliExecAccounts.v ===== *)
(** * Lines and verdicts on any socket

    Whatever the socket answers, the lines the executor of [CliExec] sends fit
    the worker's buffer, and its results account for every op
    ([execute_accounts]). *)

From Stdlib Require Import ZArith Ascii Lia.
From stdpp Require Import base sets strings option list list_numbers.
From S2P Require Import Prelude Api GoStd RenderPlan MapEntries Cli CliProps CliResponse CliExec.

Open Scope Z_scope.

(** A socket that keeps the lines it was sent and answers as it likes. *)
Definition logged (answer : list string → string → option string) (line : string) (log : list string) :
    list string * option string :=
  (log ++ [line], answer log line).

(** A command that executing the programs can issue: one of a program's commands,
    with a map version filled in, or one of its cleanup. *)
Definition issued (programs : list Program) (c : Command) : Prop :=
  ∃ p, p ∈ programs ∧
    ((∃ source version, source ∈ Program_Commands p ∧ c = substituteVersion version source)
     ∨ ∃ source, source ∈ Program_Abort p ∧ c = plain (Command_Text source) "").

(** The line joins commands of the programs, a single one or as many as fit the
    limit. *)
Definition lineFits (programs : list Program) (line : string) : Prop :=
  ∃ cmds, Forall (issued programs) cmds ∧ line = joinLine cmds
    ∧ (length cmds = 1%nat
       ∨ ((1 < length cmds)%nat ∧ Z.of_nat (String.length line) <= MaxCommandLineBytes)).

(** The bytes of a line's commands with their separators. *)
Definition width (cmds : list Command) : Z :=
  Z.of_nat (sum_list_with (λ c, S (String.length (Command_Text c))) cmds).

Lemma width_snoc cmds c : width (cmds ++ [c]) = width cmds + Z.of_nat (String.length (Command_Text c)) + 1.
Proof. unfold width. rewrite sum_list_with_app. simpl. lia. Qed.

Lemma length_header b cmds : Z.of_nat (String.length (header b cmds)) = Z.of_nat (String.length b) + width cmds.
Proof.
  revert b. induction cmds as [|c cmds IH]; intros b; simpl; [unfold width; simpl; lia|].
  rewrite IH, !length_append. unfold width. simpl. lia.
Qed.

Lemma length_joinLine cmds :
  Forall (λ c, Command_Payload c = "") cmds → Z.of_nat (String.length (joinLine cmds)) = 20 + width cmds.
Proof.
  intros Hp. assert (joinLine cmds = header experimentalPrefix cmds) as ->.
  { unfold joinLine. cbv zeta. destruct (last cmds) as [c|] eqn:E; [|done]. apply last_Some_elem_of in E.
    rewrite Forall_forall in Hp. by rewrite bool_decide_true by by apply Hp. }
  by rewrite length_header.
Qed.

Section accounts.
Context (lowerUnicode : string → string) (answer : list string → string → option string) (start : list OpResult).
Context (programs : list Program).
Abbreviation socket := (logged answer).
Abbreviation fits := (lineFits programs).

Lemma lineFits_single c : issued programs c → fits (joinLine [c]).
Proof using. intros Hc. exists [c]. split_and!; [by apply Forall_singleton|done|by left]. Qed.

(** The executor between two calls. *)
Record tidy (e : execution) (log : list string) : Prop := {
  ti_kinds : OpResult_Kind <$> ex_results e = OpResult_Kind <$> start;
  ti_log : Forall fits log;
  ti_length : ex_length e = width (pc_command <$> ex_pending e);
  ti_range : Forall (λ p, (pc_program p < length start)%nat) (ex_pending e);
  ti_issued : Forall (λ p, issued programs (pc_command p)) (ex_pending e);
  ti_payload : Forall (λ p, Command_Payload (pc_command p) = "") (ex_pending e);
  ti_pending : (length (ex_pending e) <= 1)%nat ∨ ex_length e <= MaxCommandLineBytes - lineReserve;
}.

(** What an error says: an op is reported as failed. *)
Definition reports (e : execution) (err : option ExecError) : Prop :=
  match err with
  | None => ex_results e = start
  | Some (OpFailed _ _ _) => Exists (λ r, OpResult_OK r = false) (ex_results e)
  | Some _ => True
  end.

Definition settled (r : Run (W:=list string)) : Prop :=
  let '(e, log, err) := r in
  OpResult_Kind <$> ex_results e = OpResult_Kind <$> start ∧ Forall fits log ∧ reports e err ∧ (err = None → tidy e log).

Lemma settled_andThen r k :
  settled r → (∀ e log, tidy e log → ex_results e = start → settled (k e log)) → settled (andThen r k).
Proof. destruct r as [[e log] [err|]]; [done|]. intros (H1 & H2 & H3 & H4) Hk. apply Hk; [by apply H4|done]. Qed.

(** Recording keeps the kinds, and an error leaves a failed op. *)
Lemma record_kinds e i r : OpResult_Kind <$> ex_results (recordResult e i r).1 = OpResult_Kind <$> ex_results e.
Proof.
  unfold recordResult. destruct (CommandResult_Err r); [|done]. simpl. apply list_eq. intros j. rewrite !list_lookup_fmap.
  destruct (decide (i = j)) as [->|]; [|by rewrite list_lookup_insert_ne].
  destruct (ex_results e !! j) as [x|] eqn:E; [|by rewrite list_insert_ge, E by by apply lookup_ge_None].
  pose proof (lookup_lt_Some _ _ _ E). by rewrite list_lookup_insert_eq.
Qed.

Lemma record_same e i r : (recordResult e i r).2 = None → (recordResult e i r).1 = e.
Proof. unfold recordResult. by destruct (CommandResult_Err r). Qed.

Definition failedOp (e : execution) : Prop := Exists (λ r, OpResult_OK r = false) (ex_results e).

Lemma record_failed e i r err :
  (i < length (ex_results e))%nat → (recordResult e i r).2 = Some err →
  failedOp (recordResult e i r).1 ∧ ∃ kind code out, err = OpFailed kind code out.
Proof.
  unfold recordResult. destruct (CommandResult_Err r); [|done]. simpl. intros Hi [= <-]. split; [|by do 3 eexists].
  unfold failedOp. simpl. rewrite insert_take_drop by done. apply Exists_app. right. by constructor.
Qed.

Lemma record_keeps_failed e i r : failedOp e → failedOp (recordResult e i r).1.
Proof.
  unfold recordResult, failedOp. destruct (CommandResult_Err r); [|done]. simpl. rewrite !Exists_exists. intros (x & Hx & Hno).
  apply list_elem_of_lookup in Hx as [j Hj]. destruct (decide (i = j)) as [->|].
  - exists (MkOpResult (from_option OpResult_Kind "" (ex_results e !! j)) false (CommandResult_Output r)).
    split; [|done]. apply list_elem_of_lookup. exists j. apply lookup_lt_Some in Hj. by rewrite list_lookup_insert_eq.
  - exists x. split; [|done]. apply list_elem_of_lookup. exists j. by rewrite list_lookup_insert_ne.
Qed.

(** ** The executor's methods *)

(** The first error so far, and what the results say of it. *)
Definition okFirst (e : execution) (first : option ExecError) : Prop :=
  match first with
  | None => ex_results e = start
  | Some (OpFailed _ _ _) => failedOp e
  | Some _ => False
  end.

Lemma okFirst_reports e first : okFirst e first → reports e first.
Proof. by destruct first as [[]|]. Qed.

Lemma record_okFirst e i r first :
  okFirst e first → (i < length (ex_results e))%nat →
  okFirst (recordResult e i r).1 (match first with None => (recordResult e i r).2 | Some _ => first end).
Proof.
  intros Hok Hi. destruct first as [[]|]; simpl in *; [done|done|by apply record_keeps_failed|].
  pose proof (record_failed e i r) as Hf. pose proof (record_same e i r) as Hsame.
  destruct (recordResult e i r) as [e' [err|]]; simpl in *; [|by rewrite Hsame].
  by destruct (Hf err Hi eq_refl) as [? (kind & code & out & ->)].
Qed.

Lemma recordAll_okFirst pending results e first :
  Forall (λ p, (pc_program p < length (ex_results e))%nat) pending → okFirst e first →
  OpResult_Kind <$> ex_results (recordAll pending results e first).1 = OpResult_Kind <$> ex_results e
  ∧ okFirst (recordAll pending results e first).1 (recordAll pending results e first).2
  ∧ ex_pending (recordAll pending results e first).1 = ex_pending e
  ∧ ex_length (recordAll pending results e first).1 = ex_length e.
Proof.
  revert results e first. induction pending as [|p pending IH]; intros results e first Hp Hok; [done|].
  destruct results as [|r results]; [done|]. cbn [recordAll]. apply Forall_cons in Hp as [Hp Hps].
  set (e1 := if (_ : bool) then _ else e).
  assert (ex_results e1 = ex_results e ∧ ex_pending e1 = ex_pending e ∧ ex_length e1 = ex_length e) as (E1 & E2 & E3)
    by (subst e1; by case_match).
  assert (okFirst e1 first) as Hok1 by (unfold okFirst, failedOp in *; by rewrite E1). clearbody e1.
  rewrite <-E1 in Hp, Hps. pose proof (record_okFirst e1 (pc_program p) r first Hok1 Hp) as Hok2.
  pose proof (record_kinds e1 (pc_program p) r) as Hk.
  assert (ex_pending (recordResult e1 (pc_program p) r).1 = ex_pending e1 ∧ ex_length (recordResult e1 (pc_program p) r).1 = ex_length e1) as [E4 E5]
    by (unfold recordResult; by destruct (CommandResult_Err r)).
  destruct (recordResult e1 (pc_program p) r) as [e2 err]. simpl in *.
  assert (length (ex_results e2) = length (ex_results e1)) as El by (rewrite <-(length_fmap OpResult_Kind), Hk; by rewrite length_fmap).
  destruct (IH results e2 _ ltac:(by rewrite El) Hok2) as (H1 & H2 & H3 & H4).
  rewrite H1, H3, H4. split_and!; [congruence|done|congruence|congruence].
Qed.

Lemma kinds_length l : OpResult_Kind <$> l = OpResult_Kind <$> start → length l = length start.
Proof. intros H%(f_equal length). by rewrite !length_fmap in H. Qed.

(** Sending a line that fits. *)
Lemma flush_settled e log :
  OpResult_Kind <$> ex_results e = OpResult_Kind <$> start → Forall fits log → ex_results e = start →
  Forall (λ p, (pc_program p < length start)%nat) (ex_pending e) →
  (ex_pending e ≠ [] → fits (joinLine (pc_command <$> ex_pending e))) →
  (ex_pending e = [] → ex_length e = 0) → settled (flush lowerUnicode socket e log).
Proof.
  intros Hk Hlog Hres Hr Hfit Hzero. unfold flush. destruct (ex_pending e) as [|p pending] eqn:E.
  { split_and!; [done..|]. intros _. split; rewrite ?E; try done; [by apply Hzero|by left; simpl; lia]. }
  cbn [logged]. assert (Forall fits (log ++ [joinLine (pc_command <$> p :: pending)])) as Hlog'.
  { apply Forall_app_2; [done|]. apply Forall_singleton. by apply Hfit. }
  destruct (answer log _) as [raw|]; [|done].
  destruct (recordAll_okFirst (p :: pending) (drop 1 (matchBatch lowerUnicode raw (prefixCommand :: (pc_command <$> p :: pending))))
    (MkExecution (ex_results e) [] 0 (ex_version e) (ex_failed e)) None) as (H1 & H2 & H3 & H4); [by rewrite Hres|done|].
  destruct (recordAll _ _ _ _) as [e' err]. simpl in *. split_and!; [congruence|done|by apply okFirst_reports|].
  intros _. split; [congruence|done|rewrite H4; by rewrite H3|by rewrite H3..|]. rewrite H3. left. simpl. lia.
Qed.

Lemma tidy_fits e log : tidy e log → fits (joinLine (pc_command <$> ex_pending e)) ∨ ex_pending e = [].
Proof.
  intros [_ _ Hl _ Hi Hp Hw]. destruct (ex_pending e) as [|p [|q pending]] eqn:E; [by right|left|left].
  { apply (lineFits_single (pc_command p)). by apply Forall_cons in Hi as [Hi _]. }
  exists (pc_command <$> p :: q :: pending). split_and!; [by apply Forall_fmap|done|]. right. split; [simpl; lia|].
  destruct Hw as [Hw|Hw]; [simpl in Hw; lia|]. rewrite length_joinLine by by apply Forall_fmap.
  rewrite <-Hl. unfold lineReserve in Hw. lia.
Qed.

Lemma flush_tidy e log : tidy e log → ex_results e = start → settled (flush lowerUnicode socket e log).
Proof.
  intros Ht Hres. pose proof (tidy_fits e log Ht) as Hfit. destruct Ht as [Hk Hlog Hl Hr Hi Hp Hw]. apply flush_settled; try done.
  - intros Hne. by destruct Hfit.
  - intros He. by rewrite Hl, He.
Qed.

Definition pushed (index : nat) (cmd : Command) (e : execution) : execution :=
  MkExecution (ex_results e) (ex_pending e ++ [MkPending index cmd])
    (ex_length e + Z.of_nat (String.length (Command_Text cmd)) + 1) (ex_version e) (ex_failed e).

Lemma pushed_tidy index cmd e log :
  (index < length start)%nat → issued programs cmd → Command_Payload cmd = "" →
  (ex_pending e = [] ∨ ex_length e + Z.of_nat (String.length (Command_Text cmd)) < MaxCommandLineBytes - lineReserve) →
  tidy e log → tidy (pushed index cmd e) log.
Proof.
  intros Hi Hc0 Hc Hroom [Hk Hlog Hl Hr Hs Hp Hw]. split; simpl; try done.
  - rewrite fmap_app. simpl. by rewrite width_snoc, Hl.
  - apply Forall_app_2; [done|by apply Forall_singleton].
  - apply Forall_app_2; [done|by apply Forall_singleton].
  - apply Forall_app_2; [done|by apply Forall_singleton].
  - destruct Hroom as [->|Hroom]; [by left|right]. lia.
Qed.

(** After a flush nothing is pending. *)
Lemma flush_empty e log e' log' : flush lowerUnicode socket e log = (e', log', None) → ex_pending e' = [].
Proof.
  unfold flush. destruct (ex_pending e) as [|p pending] eqn:E; [by intros [= <- _]|]. destruct (socket _ log) as [log1 [raw|]]; [|done].
  assert (∀ ps rs e first, ex_pending (recordAll ps rs e first).1 = ex_pending e) as Hkeep.
  { clear. intros ps. induction ps as [|p ps IH]; intros rs e first; [done|]. destruct rs as [|r rs]; [done|]. cbn [recordAll].
    destruct (recordResult _ _ r) as [e2 err] eqn:Er. rewrite IH. unfold recordResult in Er. repeat case_match; simplify_eq; done. }
  specialize (Hkeep (p :: pending) (drop 1 (matchBatch lowerUnicode raw (prefixCommand :: (pc_command <$> p :: pending))))
    (MkExecution (ex_results e) [] 0 (ex_version e) (ex_failed e)) None).
  destruct (recordAll _ _ _ _) as [e2 err]. intros [= <- _ _]. done.
Qed.

Lemma add_settled index cmd e log :
  (index < length start)%nat → issued programs cmd → tidy e log → ex_results e = start → settled (add lowerUnicode socket index cmd e log).
Proof.
  intros Hi Hiss Ht Hres. unfold add. cbv zeta.
  set (solo := negb (bool_decide (Command_Payload cmd = "")) || Command_Capture cmd).
  destruct (solo || _) eqn:Hflush; cycle 1.
  { apply orb_false_iff in Hflush as [Hsolo Hlt%Z.leb_gt]. cbn [andThen]. rewrite Hsolo. fold (pushed index cmd e).
    assert (Command_Payload cmd = "") as Hc by (subst solo; by split_bools).
    assert (tidy (pushed index cmd e) log) as Ht' by (apply pushed_tidy; auto).
    split_and!; [apply Ht'|apply Ht'|done|done]. }
  pose proof (flush_tidy e log Ht Hres) as Hfl. pose proof (flush_empty e log) as Hempty.
  destruct (flush _ _ e log) as [[e1 log1] [err|]]; [done|]. cbn [andThen]. destruct Hfl as (H1 & H2 & H3 & H4). simpl in H3.
  specialize (Hempty e1 log1 eq_refl). specialize (H4 eq_refl). fold (pushed index cmd e1). destruct solo eqn:Hsolo.
  - apply flush_settled; simpl; rewrite ?Hempty; try done; [by apply Forall_singleton|]. intros _. by apply lineFits_single.
  - assert (Command_Payload cmd = "") as Hc by (subst solo; by split_bools).
    assert (tidy (pushed index cmd e1) log1) as Ht' by (apply pushed_tidy; auto).
    split_and!; [apply Ht'|apply Ht'|done|done].
Qed.

Lemma repeatLoop_log left removed cmd log :
  issued programs cmd → Forall fits log → Forall fits (repeatLoop lowerUnicode socket left removed cmd log).1.
Proof.
  intros Hc. revert removed log. induction left as [|left IH]; intros removed log Hlog; [done|]. cbn [repeatLoop]. unfold once. cbn [logged].
  assert (Forall fits (log ++ [joinLine [cmd]])) as Hlog'.
  { apply Forall_app_2; [done|]. apply Forall_singleton. by apply lineFits_single. }
  destruct (answer log _) as [raw|]; [|done]. cbn [mbind option_bind]. destruct (matchBatch _ _ _ !! 1%nat) as [r|]; [|done].
  case_match; [done|by apply IH].
Qed.

Lemma repeat_settled index cmd e log :
  (index < length start)%nat → issued programs cmd → tidy e log → ex_results e = start → settled (repeat lowerUnicode socket index cmd e log).
Proof.
  intros Hi Hiss Ht Hres. unfold repeat. apply settled_andThen; [by apply flush_tidy|]. clear e log Ht Hres. intros e log Ht Hres.
  pose proof (repeatLoop_log MaxMapDelRepeat 0 cmd log Hiss (ti_log _ _ Ht)) as Hlog.
  destruct (repeatLoop _ _ _ _ _ _) as [log' [[removed last]|]]; simpl in Hlog; [|by split_and!; [apply Ht|..]].
  assert (tidy e log') as Ht' by (destruct Ht; by split).
  assert (∀ r, settled (let '(e', err) := recordResult e index r in (e', log', err))) as Hrec.
  { intros r. pose proof (record_kinds e index r) as Hk. pose proof (record_okFirst e index r None Hres) as Hok.
    pose proof (record_same e index r) as Hsame. rewrite Hres in Hok at 1. specialize (Hok Hi).
    destruct (recordResult e index r) as [e' err]. simpl in *. split_and!; [rewrite Hk; apply Ht|done|by apply okFirst_reports|].
    intros ->. by rewrite Hsame. }
  case_bool_decide; [apply Hrec|]. case_bool_decide; [apply Hrec|]. by split_and!; [apply Ht|..].
Qed.

Lemma program_settled index cmds e log :
  (index < length start)%nat → (∀ c version, c ∈ cmds → issued programs (substituteVersion version c)) →
  tidy e log → ex_results e = start → settled (program lowerUnicode socket index cmds e log).
Proof.
  intros Hi. revert e log. induction cmds as [|c cmds IH]; intros e log Hiss Ht Hres; [by split_and!; [apply Ht..|done|done]|].
  assert (∀ version, issued programs (substituteVersion version c)) as Hc
    by (intros version; apply Hiss, elem_of_cons; by left).
  cbn [program]. apply settled_andThen.
  - case_match; [by apply repeat_settled|by apply add_settled].
  - intros e' log' Ht' Hres'. apply IH; [|done..]. intros c' version Hin. apply Hiss, elem_of_cons. by right.
Qed.

Lemma allPrograms_settled index ps e log :
  (index + length ps <= length start)%nat → (∀ p, p ∈ ps → p ∈ programs) → tidy e log → ex_results e = start →
  settled (allPrograms lowerUnicode socket index ps e log).
Proof.
  revert index e log. induction ps as [|p ps IH]; intros index e log Hlen Hin Ht Hres; [by apply flush_tidy|].
  simpl in Hlen. cbn [allPrograms]. apply settled_andThen; [apply program_settled; [lia| |done|done]|].
  - intros c version Hc. exists p. split; [apply Hin, elem_of_cons; by left|]. left. by exists c, version.
  - intros e' log' Ht' Hres'. apply IH; [lia| |done|done]. intros q Hq. apply Hin, elem_of_cons. by right.
Qed.

Lemma abortProgram_log p log : p ∈ programs → Forall fits log → Forall fits (abortProgram socket p log).
Proof using.
  intros Hp. unfold abortProgram. assert (∀ c, c ∈ Program_Abort p → c ∈ Program_Abort p) as Hin by done.
  revert Hin log. generalize (Program_Abort p) at 1 3 as cs. induction cs as [|c cs IH]; intros Hin log Hlog; [done|].
  simpl. apply IH; [intros c' Hc'; apply Hin, elem_of_cons; by right|].
  unfold Raw. simpl. apply Forall_app_2; [done|]. apply Forall_singleton.
  apply (lineFits_single (plain (Command_Text c) "")). exists p. split; [done|]. right. exists c.
  split; [apply Hin, elem_of_cons; by left|done].
Qed.
End accounts.

(** C34: whatever the socket answers, an execution of a batch within the op limit
    gives one result per op, in order and under the op's kind; without an error
    every op is reported as done; a refusal reports at least one op as failed;
    and every line sent, cleanup included, joins commands of the ops, either one
    command alone or several within the line limit. *)
Theorem execute_accounts lowerUnicode answer programs :
  (length programs <= MaxOpsPerApply)%nat →
  let '(results, err, log) := Execute lowerUnicode (logged answer) programs [] in
  OpResult_Kind <$> results = Program_Kind <$> programs
  ∧ (err = None → Forall (λ r, OpResult_OK r = true) results)
  ∧ (∀ kind code out, err = Some (OpFailed kind code out) → Exists (λ r, OpResult_OK r = false) results)
  ∧ Forall (lineFits programs) log.
Proof.
  intros Hlen. unfold Execute. rewrite bool_decide_false by lia. cbv zeta.
  set (start := (λ p, MkOpResult (Program_Kind p) true "") <$> programs).
  assert (OpResult_Kind <$> start = Program_Kind <$> programs) as Hk by (unfold start; by rewrite <-list_fmap_compose).
  pose proof (allPrograms_settled lowerUnicode answer start programs 0 programs (MkExecution start [] 0 "" None) []) as Hs.
  destruct (allPrograms _ _ _ _ _ _) as [[e log] err]. destruct Hs as (H1 & H2 & H3 & _).
  { unfold start. rewrite length_fmap. simpl. lia. }
  { done. }
  { split; simpl; try done; try constructor. lia. }
  { done. }
  split_and!; [by rewrite <-Hk| | |].
  - intros ->. simpl in H3. rewrite H3. unfold start. by apply Forall_fmap, Forall_true.
  - intros kind code out ->. done.
  - destruct err, (ex_failed e) as [i|]; simpl; try done. destruct (programs !! i) as [p|] eqn:Ep; [|done].
    apply abortProgram_log; [by eapply list_elem_of_lookup_2|done].
Qed.

(** A refused command and a second op that carries a payload. *)
Definition refusing (log : list string) (line : string) : option string := Some "[3]: No such backend.".

Definition twoPrograms : list Program :=
  [MkProgram OpBackendPublish (commandsOf demoPublish) []; MkProgram OpMapAdd (commandsOf demoMapAdd) []].

Lemma execute_accounts_witness :
  ∃ results log code out, Execute id (logged refusing) twoPrograms []
    = (results, Some (OpFailed OpBackendPublish code out), log)
  ∧ Exists (λ r, OpResult_OK r = false) results ∧ Forall (lineFits twoPrograms) log.
Proof.
  pose proof (execute_accounts id refusing twoPrograms) as H.
  assert (length twoPrograms <= MaxOpsPerApply)%nat as Hlen by (apply Nat.leb_le; vm_compute; reflexivity).
  specialize (H Hlen).
  destruct (Execute id (logged refusing) twoPrograms []) as [[results err] log] eqn:E. destruct H as (_ & _ & H & Hlog).
  vm_compute in E. injection E as <- <- <-. do 4 eexists. split; [reflexivity|]. split; [|exact Hlog].
  eapply H. reflexivity.
Defined.

(** An op whose commands were never sent is still reported as done: the results
    start that way, and only the commands of the failing line are marked. *)
Example unsent_op_reported_ok :
  ∃ log err failed,
    Execute id (logged refusing) twoPrograms [] = ([failed; MkOpResult OpMapAdd true ""], Some err, log)
    ∧ OpResult_OK failed = false ∧ length log = 1%nat.
Proof. do 3 eexists. split; [vm_compute; reflexivity|]. by split. Qed.
