(* ===== verification/CliInventory.v ===== *)
(** * Reading the worker back

    Models [src/pkg/dataplane/agent/cli/inventory.go] and [stats.go]: the
    listings of the running worker's files, maps and servers, and the connection
    counter of its frontends. *)

From Stdlib Require Import ZArith Ascii Lia.
From stdpp Require Import base sets strings option gmap list list_numbers.
From S2P Require Import Prelude Api GoStd RenderPlan MapEntries Cli CliExec.

Open Scope Z_scope.

(** The errors of a read; an index out of range is [ReadPanic]. *)
Inductive ReadError := ReadSocket | ReadTooManyEntries | ReadUnsafeName | ReadMalformed | ReadPanic.

(** ** Rows *)

Definition dataLines (raw : string) : list string :=
  filter (λ line, line ≠ "" ∧ hasPrefix line "#" = false) (trimSpace <$> split newline raw).

Definition parenthesised (line : string) : string :=
  match cutFound "(" line with
  | None => ""
  | Some (_, rest) => match cutFound ")" rest with None => "" | Some (path, _) => path end
  end.

Definition systemCA : string := "@system-ca".

Definition storeName (line : string) : string :=
  let name := trimPrefix (cut " " line).1 "*" in
  if bool_decide (name = systemCA) then "" else name.

(** [strings.Fields]: the words between white space, [skip] bytes of which are
    still to be passed. *)
Fixpoint fieldsFrom (skip : nat) (word s : string) : list string :=
  let emit := if bool_decide (word = "") then [] else [word] in
  match s with
  | EmptyString => emit
  | String c r =>
      match skip with
      | S k => fieldsFrom k word r
      | O =>
          match stripAny spaceRunes s with
          | Some rest => emit ++ fieldsFrom (String.length r - String.length rest) "" r
          | None => fieldsFrom 0 (word +:+ String c "") r
          end
      end
  end.

Definition fields (line : string) : list string := fieldsFrom 0 "" line.

(** Rows are read up to a limit, each into an accumulator. *)
Fixpoint readRows {A} (limit : nat) (row : string → A → A) (lines : list string) (acc : A) : option A :=
  match lines with
  | [] => Some acc
  | line :: rest =>
      match limit with
      | O => None
      | S limit' => readRows limit' row rest (row line acc)
      end
  end.

(** One row of [show map]: its key and value. *)
Definition mapRow (line : string) (entries : gmap string (list string)) : gmap string (list string) :=
  match cutFound " " line with
  | None => entries
  | Some (_, rest) =>
      let '(key, value) := cut " " rest in
      <[key := default [] (entries !! key) ++ [value]]> entries
  end.

Section reads.
Context {W : Type} (ExecuteRaw : string → W → W * option string).
Abbreviation Raw := (Raw ExecuteRaw).

(** [Client.list]. *)
Definition listNames (command : string) (extract : string → string) (w : W) : W * (list string + ReadError) :=
  let '(w', answer) := Raw command w in
  (w', match answer with
       | None => inr ReadSocket
       | Some raw =>
           match readRows MaxInventoryEntries
                   (λ line out, if bool_decide (extract line = "") then out else out ++ [extract line])
                   (dataLines raw) [] with
           | Some out => inl out
           | None => inr ReadTooManyEntries
           end
       end).

(** [Inventory]: the five listings are read whatever the others gave. *)
Definition readInventory (w : W) : W * (list (list string) + ReadError) :=
  let '(w, maps) := listNames "show map" parenthesised w in
  let '(w, certs) := listNames "show ssl cert" storeName w in
  let '(w, cas) := listNames "show ssl ca-file" storeName w in
  let '(w, crls) := listNames "show ssl crl-file" storeName w in
  let '(w, lists) := listNames "show ssl crt-list" storeName w in
  (w, match maps, certs, cas, crls, lists with
      | inl a, inl b, inl c, inl d, inl e => inl [a; b; c; d; e]
      | inr err, _, _, _, _ | _, inr err, _, _, _ | _, _, inr err, _, _ | _, _, _, inr err, _ | _, _, _, _, inr err => inr err
      end).

(** [Client.MapEntries]. *)
Definition runtimeMapEntries (path : string) (w : W) : W * (gmap string (list string) + ReadError) :=
  if negb (validateToken path) then (w, inr ReadUnsafeName)
  else
    let '(w', answer) := Raw ("show map " +:+ path) w in
    (w', match answer with
         | None => inr ReadSocket
         | Some raw =>
             match readRows (Z.to_nat MaxMapEntries) mapRow (dataLines raw) ∅ with
             | Some entries => inl entries
             | None => inr ReadTooManyEntries
             end
         end).

(** [Client.ServerNames]. *)
Definition ServerNames (backend : string) (w : W) : W * (gset string + ReadError) :=
  if negb (validateToken backend) then (w, inr ReadUnsafeName)
  else
    let '(w', answer) := Raw ("show servers state " +:+ backend) w in
    (w', match answer with
         | None => inr ReadSocket
         | Some raw =>
             match readRows MaxInventoryEntries
                     (λ line names, match fields line !! 3%nat with Some name => {[name]} ∪ names | None => names end)
                     (dataLines raw) ∅ with
             | Some names => inl names
             | None => inr ReadTooManyEntries
             end
         end).

(** ** Statistics *)

(** The rows of the connection counters, summed in 64 bits. *)
Fixpoint sumConnections (ignore : gset string) (column : nat) (lines : list string) (total : Z) : Z + ReadError :=
  match lines with
  | [] => inl total
  | line :: rest =>
      let row := split "," line in
      match row !! column with
      | None => sumConnections ignore column rest total
      | Some field =>
          match row !! 1%nat with
          | None => inr ReadPanic
          | Some kind =>
              if negb (bool_decide (kind = "FRONTEND")) || bool_decide (default "" (row !! 0%nat) ∈ ignore)
              then sumConnections ignore column rest total
              else if bool_decide (field = "") then sumConnections ignore column rest total
              else
                match parseUint64 field with
                | None => inr ReadMalformed
                | Some value => sumConnections ignore column rest ((total + value) mod 2 ^ 64)
                end
          end
      end
  end.

Definition parseFrontendConnections (raw : string) (ignore : gset string) : Z + ReadError :=
  match split newline (trimSpace raw) with
  | [] => inr ReadMalformed
  | first :: rows =>
      match stripPrefix "# " first with
      | None => inr ReadMalformed
      | Some header =>
          match list_find (λ name, name = "conn_tot") (split "," header) with
          | None => inr ReadMalformed
          | Some (column, _) => sumConnections ignore column rows 0
          end
      end
  end.

Definition FrontendConnections (ignore : gset string) (w : W) : W * (Z + ReadError) :=
  let '(w', answer) := ExecuteRaw "show stat -1 1 -1" w in
  (w', match answer with None => inr ReadSocket | Some raw => parseFrontendConnections raw ignore end).
End reads.

(** ** Reading a listing back *)

(** The row the worker prints for an entry. *)
Definition listingRow (row : string * Entry) : string :=
  row.1 +:+ " " +:+ Entry_Key row.2 +:+ " " +:+ Entry_Value row.2.

(** An address and an entry whose row reads as one line of data. *)
Definition listed (row : string * Entry) : bool :=
  bool_decide (" "%char ∉ chars row.1) && bool_decide (" "%char ∉ chars (Entry_Key row.2))
  && bool_decide (newline ∉ chars (listingRow row)) && bool_decide (trimSpace (listingRow row) = listingRow row)
  && negb (bool_decide (listingRow row = "")) && negb (hasPrefix (listingRow row) "#").

(** The values of a key, in order. *)
Definition listedValues (key : string) (entries : list Entry) : list string :=
  Entry_Value <$> filter (λ e, Entry_Key e = key) entries.

Lemma cutFound_append sep a b : sep ∉ chars a → cutFound sep (a +:+ String sep b) = Some (a, b).
Proof.
  intros Ha. unfold cutFound. rewrite bool_decide_true; [by rewrite cut_append|]. rewrite chars_append. set_solver.
Qed.

Lemma mapRow_listing addr e entries :
  listed (addr, e) = true →
  mapRow (listingRow (addr, e)) entries = <[Entry_Key e := default [] (entries !! Entry_Key e) ++ [Entry_Value e]]> entries.
Proof.
  unfold listed, listingRow, mapRow. simpl. intros H. split_bools.
  change (cutFound " " _) with (cutFound " " (addr +:+ String " " (Entry_Key e +:+ String " " (Entry_Value e)))).
  rewrite cutFound_append by done. by rewrite cut_append.
Qed.

Lemma dataLines_listing rows :
  Forall (λ row, listed row = true) rows → dataLines (joinWith (String newline "") (listingRow <$> rows)) = listingRow <$> rows.
Proof.
  intros Hall. unfold dataLines. destruct rows as [|row rows]; [done|].
  rewrite split_joinWith; [|done|].
  - rewrite <-list_fmap_compose. induction Hall as [|r rs Hr _ IH]; [done|]. rewrite !fmap_cons. unfold compose at 1.
    unfold listed in Hr. split_bools. simpl in *.
    match goal with H : trimSpace (listingRow r) = _ |- _ => rewrite H end. rewrite filter_cons_True by done. by rewrite IH.
  - apply Forall_fmap. eapply Forall_impl; [exact Hall|]. intros r Hr. unfold listed in Hr. by split_bools.
Qed.

Lemma readRows_app {A} limit (row : string → A → A) lines acc :
  (length lines <= limit)%nat → readRows limit row lines acc = Some (foldl (λ a l, row l a) acc lines).
Proof.
  revert limit acc. induction lines as [|l lines IH]; intros limit acc Hl; [by destruct limit|].
  destruct limit as [|limit]; simpl in Hl; [lia|]. simpl. apply IH. lia.
Qed.

Lemma readRows_over {A} limit (row : string → A → A) lines acc :
  (limit < length lines)%nat → readRows limit row lines acc = None.
Proof.
  revert limit acc. induction lines as [|l lines IH]; intros limit acc Hl; [simpl in Hl; lia|].
  destruct limit as [|limit]; [done|]. simpl in *. apply IH. lia.
Qed.

Lemma foldl_mapRow rows acc key :
  Forall (λ row, listed row = true) rows →
  default [] (foldl (λ a l, mapRow l a) acc (listingRow <$> rows) !! key) = default [] (acc !! key) ++ listedValues key rows.*2.
Proof.
  intros Hall. revert acc. induction Hall as [|[addr e] rows Hr _ IH]; intros acc; [by rewrite app_nil_r|].
  rewrite fmap_cons. cbn [foldl]. rewrite IH, mapRow_listing by done. unfold listedValues. rewrite fmap_cons, filter_cons. simpl.
  destruct (decide (Entry_Key e = key)) as [<-|Hne].
  - rewrite lookup_insert_eq. simpl. by rewrite <-app_assoc.
  - by rewrite lookup_insert_ne.
Qed.

(** reading a map back from the worker's listing gives, for every key, the
    values the worker holds, all of them and in its order; a listing over the
    entry limit and a path that could be read as another command are refused,
    the latter before anything is sent. *)
Theorem map_listing_roundtrip {W} (ExecuteRaw : string → W → W * option string) path (w w' : W) rows :
  Forall (λ row, listed row = true) rows →
  ExecuteRaw (experimentalPrefix +:+ ";" +:+ "show map " +:+ path) w
  = (w', Some (joinWith (String newline "") (listingRow <$> rows))) →
  if validateToken path then
    if bool_decide (Z.of_nat (length rows) <= MaxMapEntries)
    then ∃ entries, runtimeMapEntries ExecuteRaw path w = (w', inl entries)
                    ∧ ∀ key, default [] (entries !! key) = listedValues key rows.*2
    else runtimeMapEntries ExecuteRaw path w = (w', inr ReadTooManyEntries)
  else runtimeMapEntries ExecuteRaw path w = (w, inr ReadUnsafeName).
Proof.
  intros Hall Hraw. unfold runtimeMapEntries. destruct (validateToken path); [|done]. simpl negb. cbn match.
  unfold Raw. rewrite Hraw, dataLines_listing by done. case_bool_decide as Hn.
  - rewrite readRows_app by (rewrite length_fmap; lia). eexists. split; [done|]. intros key. rewrite foldl_mapRow by done. done.
  - assert (0 <= MaxMapEntries) by (vm_compute; discriminate). rewrite readRows_over by (rewrite length_fmap; lia). done.
Qed.

(** Two values of one key, and a value of another. *)
Definition demoRows : list (string * Entry) :=
  [("0x1", MkEntry "a.example" "one"); ("0x2", MkEntry "b.example" "two"); ("0x3", MkEntry "a.example" "three words")].

Definition demoListing (line : string) (w : nat) : nat * option string :=
  (S w, if bool_decide (line = "experimental-mode on;show map maps/host.map")
        then Some (joinWith (String newline "") (listingRow <$> demoRows)) else None).

Lemma map_listing_roundtrip_witness :
  ∃ entries, runtimeMapEntries demoListing "maps/host.map" 0%nat = (1%nat, inl entries)
             ∧ default [] (entries !! "a.example") = ["one"; "three words"].
Proof.
  pose proof (map_listing_roundtrip demoListing "maps/host.map" 0%nat 1%nat demoRows) as H.
  assert (Forall (λ row, listed row = true) demoRows) as Hall by (repeat constructor).
  specialize (H Hall ltac:(vm_compute; reflexivity)).
  replace (validateToken "maps/host.map") with true in H by (vm_compute; reflexivity).
  rewrite bool_decide_true in H by (vm_compute; discriminate).
  destruct H as (entries & E & H). exists entries. split; [exact E|]. rewrite H. reflexivity.
Defined.
