(* ===== verification/Deferrals.v ===== *)
(** * Deferred deletes

    Models [src/pkg/dataplane/agent/cli/deferred.go]: the queue that takes the
    delete tail of an apply off the apply path. The apply path splits, checks
    and enqueues; one goroutine drains. Each critical section under the queue's
    mutex is one step, and [queue_step] interleaves the two sides freely. *)

From Stdlib Require Import Ascii.
From stdpp Require Import base list list_numbers gmap strings.
From S2P Require Import Prelude Api GoStd RenderPlan MapEntries Cli.

Open Scope Z_scope.

Record ServerRef := MkServerRef { ServerRef_Backend : string; ServerRef_Server : string }.

#[export] Instance ServerRef_eq_dec : EqDecision ServerRef.
Proof. solve_decision. Defined.

(** [ServerRef.String]. *)
Definition refString (r : ServerRef) : string := ServerRef_Backend r +:+ "/" +:+ ServerRef_Server r.

(** [attempt]. *)
Record attempt (T : Type) := MkAttempt {
  attempt_Target : T;
  attempt_Tries : Z;
  attempt_Worker : HAProxyInfo;
  attempt_Generation : Z;
}.
Arguments MkAttempt {T}.
Arguments attempt_Target {T}.
Arguments attempt_Tries {T}.
Arguments attempt_Worker {T}.
Arguments attempt_Generation {T}.

(** [Deferrals]: the two queues, the worker they belong to, and the item of each
    kind the drain is working on. *)
Record Deferrals := MkDeferrals {
  d_servers : list (attempt ServerRef);
  d_backends : list (attempt string);
  d_worker : HAProxyInfo;
  d_generation : Z;
  d_inFlightServer : option (attempt ServerRef);
  d_inFlightBackend : option (attempt string);
}.

(** [Split]: inline ops, deferred server deletes, deferred backend deletes. *)
Fixpoint Split (ops : list Op) : list Op * list ServerRef * list string :=
  match ops with
  | [] => ([], [], [])
  | op :: rest =>
      let '(inline, servers, backends) := Split rest in
      if bool_decide (Op_Kind op = OpServerDel) then
        (inline, MkServerRef (Op_Backend op) (Op_Server op) :: servers, backends)
      else if bool_decide (Op_Kind op = OpBackendDel) then (inline, servers, Op_Backend op :: backends)
      else if contains [OpServerWaitRemovable; OpBackendWaitRemovable; OpShutdownSessions] (Op_Kind op)
      then (inline, servers, backends)
      else (op :: inline, servers, backends)
  end.

Definition validateDeletes (servers : list ServerRef) (backends : list string) : bool :=
  forallb (λ s, validateToken (ServerRef_Backend s) && validateToken (ServerRef_Server s)) servers
  && forallb validateToken backends.

(** How many deletes of a kind are outstanding: the queue and the item in flight
    for the current worker. *)
Definition outstanding {T} (queue : list (attempt T)) (inFlight : option (attempt T)) (generation : Z) : Z :=
  match inFlight with
  | Some a => if attempt_Generation a =? generation then Z.of_nat (length queue) + 1
              else Z.of_nat (length queue)
  | None => Z.of_nat (length queue)
  end.

Definition outstandingServers (d : Deferrals) : Z :=
  outstanding (d_servers d) (d_inFlightServer d) (d_generation d).

Definition outstandingBackends (d : Deferrals) : Z :=
  outstanding (d_backends d) (d_inFlightBackend d) (d_generation d).

Definition checkCapacity (d : Deferrals) (servers backends : nat) : bool :=
  negb (MaxPendingServerDeletes <? outstandingServers d + Z.of_nat servers)
  && negb (MaxPendingBackendDeletes <? outstandingBackends d + Z.of_nat backends).

(** [Deferrals.Check]: is the error nil? *)
Definition Check (d : Deferrals) (servers : list ServerRef) (backends : list string) : bool :=
  validateDeletes servers backends && checkCapacity d (length servers) (length backends).

(** [Deferrals.Enqueue]; [None] is its error. *)
Definition Enqueue (d : Deferrals) (worker : HAProxyInfo) (servers : list ServerRef)
    (backends : list string) : option Deferrals :=
  if negb (validateDeletes servers backends) then None
  else if negb (checkCapacity d (length servers) (length backends)) then None
  else if negb (SameWorker (d_worker d) worker) then None
  else
    let fresh {T} (target : T) := MkAttempt target 0 (d_worker d) (d_generation d) in
    Some (MkDeferrals (d_servers d ++ (fresh <$> servers)) (d_backends d ++ (fresh <$> backends))
            (d_worker d) (d_generation d) (d_inFlightServer d) (d_inFlightBackend d)).

(** [Deferrals.SetWorker]: a new worker retires the queued work. *)
Definition SetWorker (d : Deferrals) (worker : HAProxyInfo) : Deferrals :=
  if SameWorker (d_worker d) worker then d
  else MkDeferrals [] [] worker ((d_generation d + 1) mod 2 ^ 64) (d_inFlightServer d) (d_inFlightBackend d).

(** [Deferrals.Pending]. *)
Definition pendingOf {T} (render : T → string) (queue : list (attempt T)) (inFlight : option (attempt T))
    (generation : Z) : list string :=
  match inFlight with
  | Some a => if attempt_Generation a =? generation then [render (attempt_Target a)] else []
  | None => []
  end ++ ((λ a, render (attempt_Target a)) <$> queue).

Definition Pending (d : Deferrals) : list string * list string :=
  (pendingOf refString (d_servers d) (d_inFlightServer d) (d_generation d),
   pendingOf id (d_backends d) (d_inFlightBackend d) (d_generation d)).

(** ** The drain *)

Definition takeServer (d : Deferrals) : option (attempt ServerRef * Deferrals) :=
  match d_servers d with
  | [] => None
  | a :: rest => Some (a, MkDeferrals rest (d_backends d) (d_worker d) (d_generation d) (Some a)
                            (d_inFlightBackend d))
  end.

Definition takeBackend (d : Deferrals) : option (attempt string * Deferrals) :=
  match d_backends d with
  | [] => None
  | a :: rest => Some (a, MkDeferrals (d_servers d) rest (d_worker d) (d_generation d)
                            (d_inFlightServer d) (Some a))
  end.

Definition completeServer (d : Deferrals) : Deferrals :=
  MkDeferrals (d_servers d) (d_backends d) (d_worker d) (d_generation d) None (d_inFlightBackend d).

Definition completeBackend (d : Deferrals) : Deferrals :=
  MkDeferrals (d_servers d) (d_backends d) (d_worker d) (d_generation d) (d_inFlightServer d) None.

(** The queue after a failed attempt; [gone] is [ErrWorkerGone]. *)
Definition requeued {T} (queue : list (attempt T)) (a : attempt T) (gone : bool) (generation : Z) :
    list (attempt T) :=
  let a' := MkAttempt (attempt_Target a) (attempt_Tries a + 1) (attempt_Worker a) (attempt_Generation a) in
  let give := MaxDeferredAttempts <=? attempt_Tries a' in
  if negb (attempt_Generation a' =? generation) || gone then queue
  else if give then queue else queue ++ [a'].

Definition requeueServer (d : Deferrals) (a : attempt ServerRef) (gone : bool) : Deferrals :=
  MkDeferrals (requeued (d_servers d) a gone (d_generation d)) (d_backends d) (d_worker d)
    (d_generation d) None (d_inFlightBackend d).

Definition requeueBackend (d : Deferrals) (a : attempt string) (gone : bool) : Deferrals :=
  MkDeferrals (d_servers d) (requeued (d_backends d) a gone (d_generation d)) (d_worker d)
    (d_generation d) (d_inFlightServer d) None.

(** [Deferrals.execute]: may a command of this attempt be sent? *)
Definition mayExecute (d : Deferrals) (generation : Z) : bool := generation =? d_generation d.

(** ** Interleavings *)

(** One critical section of either side. The drain is a single goroutine: it
    takes an item only when it has none of that kind, and completes or requeues
    the one it took. *)
Inductive queue_step : Deferrals → Deferrals → Prop :=
  | q_enqueue d worker servers backends d' :
      Enqueue d worker servers backends = Some d' → queue_step d d'
  | q_worker d worker : queue_step d (SetWorker d worker)
  | q_takeServer d a d' : d_inFlightServer d = None → takeServer d = Some (a, d') → queue_step d d'
  | q_takeBackend d a d' : d_inFlightBackend d = None → takeBackend d = Some (a, d') → queue_step d d'
  | q_doneServer d a : d_inFlightServer d = Some a → queue_step d (completeServer d)
  | q_doneBackend d a : d_inFlightBackend d = Some a → queue_step d (completeBackend d)
  | q_retryServer d a gone : d_inFlightServer d = Some a → queue_step d (requeueServer d a gone)
  | q_retryBackend d a gone : d_inFlightBackend d = Some a → queue_step d (requeueBackend d a gone).

(** [NewDeferrals]. *)
Definition NewDeferrals : Deferrals := MkDeferrals [] [] (MkHAProxyInfo "" "" 0 0) 0 None None.

(** ** The queue's invariant *)

(** A queue of one kind: every item belongs to the current worker, has a valid
    target and attempts left, and the outstanding items fit the cap. *)
Record kind_ok {T} (valid : T → bool) (cap : Z) (worker : HAProxyInfo) (generation : Z)
    (queue : list (attempt T)) (inFlight : option (attempt T)) : Prop := {
  ko_queue : Forall (λ a, attempt_Worker a = worker ∧ attempt_Generation a = generation) queue;
  ko_valid : Forall (λ a, valid (attempt_Target a) = true ∧ 0 <= attempt_Tries a < MaxDeferredAttempts)
               (option_list inFlight ++ queue);
  ko_cap : outstanding queue inFlight generation <= cap;
}.

Definition validRef (s : ServerRef) : bool :=
  validateToken (ServerRef_Backend s) && validateToken (ServerRef_Server s).

Definition queue_ok (d : Deferrals) : Prop :=
  kind_ok validRef MaxPendingServerDeletes (d_worker d) (d_generation d) (d_servers d) (d_inFlightServer d) ∧
  kind_ok validateToken MaxPendingBackendDeletes (d_worker d) (d_generation d) (d_backends d) (d_inFlightBackend d).

Section kind.
Context {T : Type} (valid : T → bool) (cap : Z) (cap_pos : 1 <= cap).

Lemma kind_ok_append worker generation queue inFlight (targets : list T) :
  kind_ok valid cap worker generation queue inFlight → forallb valid targets = true →
  outstanding queue inFlight generation + Z.of_nat (length targets) <= cap →
  kind_ok valid cap worker generation
    (queue ++ ((λ t, MkAttempt t 0 worker generation) <$> targets)) inFlight.
Proof.
  intros [Hq Hv Hc] Hvalid Hcap. split.
  - apply Forall_app. split; [done|]. apply Forall_fmap, Forall_true. done.
  - rewrite app_assoc. apply Forall_app. split; [done|]. apply Forall_fmap, Forall_forall. intros t Ht.
    simpl. rewrite forallb_forall in Hvalid. split; [by apply Hvalid, list_elem_of_In|].
    unfold MaxDeferredAttempts. lia.
  - unfold outstanding in *. rewrite length_app, length_fmap. repeat case_match; lia.
Qed.

Lemma kind_ok_reset worker generation generation' worker' queue inFlight :
  kind_ok valid cap worker generation queue inFlight → kind_ok valid cap worker' generation' [] inFlight.
Proof.
  intros [Hq Hv Hc]. split; [constructor| |].
  - apply Forall_app in Hv as [Hv _]. by apply Forall_app.
  - unfold outstanding. repeat case_match; simpl; lia.
Qed.

Lemma kind_ok_take worker generation a queue :
  kind_ok valid cap worker generation (a :: queue) None →
  kind_ok valid cap worker generation queue (Some a).
Proof.
  intros [Hq Hv Hc]. apply Forall_cons in Hq as [Ha Hq]. split; [done|done|].
  unfold outstanding in *. simpl in Hc. repeat case_match; lia.
Qed.

Lemma kind_ok_done worker generation a queue :
  kind_ok valid cap worker generation queue (Some a) → kind_ok valid cap worker generation queue None.
Proof.
  intros [Hq Hv Hc]. split; [done|by apply Forall_cons in Hv as [_ Hv]|].
  unfold outstanding in *. repeat case_match; lia.
Qed.

(** An attempt of the current generation is one of the current worker. *)
Lemma kind_ok_requeue worker generation a gone queue :
  kind_ok valid cap worker generation queue (Some a) →
  (attempt_Generation a = generation → attempt_Worker a = worker) →
  kind_ok valid cap worker generation (requeued queue a gone generation) None.
Proof.
  intros Hok Hw. pose proof (kind_ok_done _ _ _ _ Hok) as Hdone. unfold requeued. cbv zeta. simpl.
  destruct (attempt_Generation a =? generation) eqn:Hg; simpl; [|done]. apply Z.eqb_eq in Hg.
  destruct gone; [done|]. destruct (MaxDeferredAttempts <=? attempt_Tries a + 1) eqn:Hm; [done|].
  apply Z.leb_gt in Hm. destruct Hok as [Hq Hv Hc]. apply Forall_cons in Hv as [Ha Hv]. split.
  - apply Forall_app. split; [done|]. apply Forall_singleton. simpl. auto.
  - simpl. apply Forall_app. split; [done|]. apply Forall_singleton. simpl. destruct Ha as [? ?].
    split; [done|lia].
  - unfold outstanding in *. rewrite Hg, Z.eqb_refl in Hc. rewrite length_app. simpl. lia.
Qed.
End kind.

(** The item in flight was taken under a generation that is not in the future,
    and one of the current generation runs on the current worker. *)
Definition flight_ok {T} (worker : HAProxyInfo) (generation : Z) (inFlight : option (attempt T)) : Prop :=
  ∀ a, inFlight = Some a →
    attempt_Generation a <= generation ∧ (attempt_Generation a = generation → attempt_Worker a = worker).

Definition drain_ok (n : nat) (d : Deferrals) : Prop :=
  queue_ok d ∧ 0 <= d_generation d <= Z.of_nat n ∧
  flight_ok (d_worker d) (d_generation d) (d_inFlightServer d) ∧
  flight_ok (d_worker d) (d_generation d) (d_inFlightBackend d).

Lemma flight_ok_take {T} valid cap worker generation (a : attempt T) queue :
  kind_ok valid cap worker generation (a :: queue) None → flight_ok worker generation (Some a).
Proof.
  intros [Hq _ _]. apply Forall_cons in Hq as [[Hw Hg] _]. intros b [= <-]. rewrite Hg. auto with lia.
Qed.

Lemma drain_ok_SetWorker n d worker :
  Z.of_nat n < 2 ^ 64 - 1 → drain_ok n d → drain_ok (S n) (SetWorker d worker).
Proof.
  intros Hn ([Hs Hb] & Hg & Hfs & Hfb). unfold SetWorker. destruct (SameWorker _ _).
  { split_and!; try done; lia. }
  cbn. rewrite Z.mod_small by lia. split_and!; cbn.
  - split; by eapply kind_ok_reset.
  - lia.
  - lia.
  - intros a Ha. destruct (Hfs a Ha). lia.
  - intros a Ha. destruct (Hfb a Ha). lia.
Qed.

Lemma Enqueue_Some d worker servers backends d' :
  Enqueue d worker servers backends = Some d' → queue_ok d → queue_ok d'.
Proof.
  unfold Enqueue. destruct (validateDeletes servers backends) eqn:Hv; [|done].
  destruct (checkCapacity d _ _) eqn:Hc; [|done]. destruct (SameWorker _ _); [|done]. simpl.
  intros [= <-] [Hs Hb]. unfold validateDeletes in Hv. unfold checkCapacity in Hc. split_bools.
  split; cbn.
  - apply kind_ok_append; [done|done|]. unfold outstandingServers in *. lia.
  - apply kind_ok_append; [done|done|]. unfold outstandingBackends in *. lia.
Qed.

Lemma queue_step_ok n d d' :
  Z.of_nat n < 2 ^ 64 - 1 → queue_step d d' → drain_ok n d → drain_ok (S n) d'.
Proof.
  intros Hn Hstep Hok. pose proof Hok as ([Hs Hb] & Hg & Hfs & Hfb).
  destruct Hstep as [d worker ss bs d' He|d worker|d a d' Hf Ht|d a d' Hf Ht|d a Hf|d a Hf|d a gone Hf|d a gone Hf].
  - split; [by eapply Enqueue_Some|]. unfold Enqueue in He. repeat case_match; simplify_eq/=.
    split_and!; try done; lia.
  - by apply drain_ok_SetWorker.
  - unfold takeServer in Ht. destruct (d_servers d) as [|b rest] eqn:Hq; [done|]. injection Ht as <- <-.
    rewrite Hf in Hs. split_and!; cbn; try done; try lia.
    + split; [by apply kind_ok_take|done].
    + by eapply flight_ok_take.
  - unfold takeBackend in Ht. destruct (d_backends d) as [|b rest] eqn:Hq; [done|]. injection Ht as <- <-.
    rewrite Hf in Hb. split_and!; cbn; try done; try lia.
    + split; [done|by apply kind_ok_take].
    + by eapply flight_ok_take.
  - rewrite Hf in Hs. split_and!; cbn; try done; try lia. split; [by eapply kind_ok_done|done].
  - rewrite Hf in Hb. split_and!; cbn; try done; try lia. split; [done|by eapply kind_ok_done].
  - rewrite Hf in Hs. split_and!; cbn; try done; try lia. split; [|done].
    apply kind_ok_requeue; [done|]. by apply Hfs.
  - rewrite Hf in Hb. split_and!; cbn; try done; try lia. split; [done|].
    apply kind_ok_requeue; [done|]. by apply Hfb.
Qed.

Lemma reachable_ok n d :
  Z.of_nat n < 2 ^ 64 → nsteps queue_step n NewDeferrals d → drain_ok n d.
Proof.
  revert d. induction n as [|n IH]; intros d Hn Hsteps.
  - inversion Hsteps; subst. split_and!; cbn; try lia; try done.
  - apply nsteps_inv_r in Hsteps as (d' & Hsteps & Hstep).
    eapply queue_step_ok; [lia|done|]. apply IH; [lia|done].
Qed.

Lemma outstanding_pending {T} (render : T → string) queue inFlight generation :
  Z.of_nat (length (pendingOf render queue inFlight generation)) = outstanding queue inFlight generation.
Proof.
  unfold pendingOf, outstanding. rewrite length_app, length_fmap. repeat case_match; simpl; lia.
Qed.

(** C28: however the apply path and the drain interleave, the delete queues stay
    within the caps the controller plans with, counting the delete in flight;
    every queued or running delete names safe words and has attempts left, so
    none is retried forever; every queued delete belongs to the current worker;
    and a delete in flight may send a command only to the worker it was queued
    for. *)
Theorem deferred_queue_safe n d :
  Z.of_nat n < 2 ^ 64 → nsteps queue_step n NewDeferrals d →
  Z.of_nat (length (Pending d).1) <= MaxPendingServerDeletes ∧
  Z.of_nat (length (Pending d).2) <= MaxPendingBackendDeletes ∧
  Forall (λ a, validRef (attempt_Target a) = true ∧ attempt_Tries a < MaxDeferredAttempts)
    (option_list (d_inFlightServer d) ++ d_servers d) ∧
  Forall (λ a, validateToken (attempt_Target a) = true ∧ attempt_Tries a < MaxDeferredAttempts)
    (option_list (d_inFlightBackend d) ++ d_backends d) ∧
  Forall (λ a, attempt_Worker a = d_worker d) (d_servers d) ∧
  Forall (λ a, attempt_Worker a = d_worker d) (d_backends d) ∧
  (∀ a, d_inFlightServer d = Some a → mayExecute d (attempt_Generation a) = true → attempt_Worker a = d_worker d) ∧
  (∀ a, d_inFlightBackend d = Some a → mayExecute d (attempt_Generation a) = true → attempt_Worker a = d_worker d).
Proof.
  intros Hn Hsteps. destruct (reachable_ok n d Hn Hsteps) as ([[Hsq Hsv Hsc] [Hbq Hbv Hbc]] & Hg & Hfs & Hfb).
  unfold Pending. cbn [fst snd]. rewrite !outstanding_pending.
  split_and!; try done.
  - eapply Forall_impl; [exact Hsv|]. intros a [? ?]. split; [done|lia].
  - eapply Forall_impl; [exact Hbv|]. intros a [? ?]. split; [done|lia].
  - eapply Forall_impl; [exact Hsq|]. by intros a [? _].
  - eapply Forall_impl; [exact Hbq|]. by intros a [? _].
  - intros a Ha Hm%Z.eqb_eq. by apply (Hfs a Ha).
  - intros a Ha Hm%Z.eqb_eq. by apply (Hfb a Ha).
Qed.

(** A worker is adopted, a delete is queued and taken. *)
Definition demoWorker : HAProxyInfo := MkHAProxyInfo "3.4" "3.4" 7 1000.

Definition demoQueue : Deferrals :=
  default NewDeferrals (Enqueue (SetWorker NewDeferrals demoWorker) demoWorker [MkServerRef "app" "s1"] []).

Lemma deferred_queue_safe_witness :
  ∃ a d, takeServer demoQueue = Some (a, d) ∧ attempt_Worker a = demoWorker ∧
         Z.of_nat (length (Pending d).1) <= MaxPendingServerDeletes.
Proof.
  destruct (takeServer demoQueue) as [[a d]|] eqn:E; [|vm_compute in E; discriminate].
  exists a, d. split; [reflexivity|].
  assert (Hsteps : nsteps queue_step 3 NewDeferrals d).
  { eapply nsteps_l; [apply (q_worker _ demoWorker)|].
    eapply nsteps_l; [apply (q_enqueue _ demoWorker [MkServerRef "app" "s1"] [] demoQueue); vm_compute; reflexivity|].
    eapply nsteps_l; [apply (q_takeServer _ a d); [vm_compute; reflexivity|exact E]|constructor]. }
  destruct (deferred_queue_safe 3 d ltac:(vm_compute; reflexivity) Hsteps) as (H1 & _ & _ & _ & _ & _ & H2 & _).
  vm_compute in E. injection E as <- <-. split; [reflexivity|exact H1].
Defined.
