(* ===== verification/CliSession.v ===== *)
(** * Worker sessions and deferred deletes

    Models [src/pkg/dataplane/agent/cli/session.go], [parseInfo] of [client.go]
    and the half of [deferred.go] that talks to the worker: one connection per
    delete, identified before anything is sent, and the drain that works the
    queues of [Deferrals]. [time.ParseDuration] is an argument (its fractions are
    floating point), and so is the connection. *)

From Stdlib Require Import ZArith Ascii Lia.
From stdpp Require Import base sets strings option list list_numbers.
From S2P Require Import Prelude Api GoStd RenderPlan MapEntries Cli CliResponse CliExec Deferrals.

Open Scope Z_scope.

(** ** The worker's identity *)

(** [strconv.Atoi] with its error ignored: 0 for what is no number, the nearest
    bound for what does not fit. *)
Definition atoi (s : string) : Z :=
  let '(negative, body) :=
    match s with
    | String c r => if Ascii.eqb c "-" then (true, r) else if Ascii.eqb c "+" then (false, r) else (false, s)
    | EmptyString => (false, s)
    end in
  if negb (bool_decide (body = "")) && forallb isDigit (chars body)
  then if negative then Z.max (- 2 ^ 63) (- decimalValue 0 body) else Z.min (2 ^ 63 - 1) (decimalValue 0 body)
  else 0.

Section info.
Context (parseDuration : string → option Z).

(** The loop of [parseInfo]; [None] is an invalid start time. *)
Fixpoint parseInfoLines (lines : list string) (info : HAProxyInfo) : option HAProxyInfo :=
  match lines with
  | [] => Some info
  | line :: rest =>
      match cutFound ":" line with
      | None => parseInfoLines rest info
      | Some (key, value) =>
          let key := trimSpace key in
          let value := trimSpace value in
          if bool_decide (key = "Version")
          then parseInfoLines rest (MkHAProxyInfo value value (HAProxyInfo_WorkerPID info) (HAProxyInfo_WorkerStartTimeUnixMicros info))
          else if bool_decide (key = "Pid")
          then parseInfoLines rest (MkHAProxyInfo (HAProxyInfo_Version info) (HAProxyInfo_FullVersion info) (atoi value)
                                      (HAProxyInfo_WorkerStartTimeUnixMicros info))
          else if bool_decide (key = "Start_time_sec")
          then match parseDuration (value +:+ "s") with
               | Some start =>
                   if start <=? 0 then None
                   else parseInfoLines rest (MkHAProxyInfo (HAProxyInfo_Version info) (HAProxyInfo_FullVersion info)
                                               (HAProxyInfo_WorkerPID info) (start / 1000))
               | None => None
               end
          else parseInfoLines rest info
      end
  end.

Definition parseInfo (raw : string) : option HAProxyInfo :=
  info ← parseInfoLines (split newline raw) (MkHAProxyInfo "" "" 0 0);
  if HasWorkerIdentity info then Some info else None.
End info.

(** ** A session *)

Definition maxSessionReplyBytes : Z := 64 * 1024.
Definition workerPrompt : string := String newline "> ".

(** [strings.TrimSuffix] and [bytes.HasSuffix]. *)
Definition stripSuffix (suffix s : string) : option string := string_rev <$> stripPrefix (string_rev suffix) (string_rev s).

(** The loop of [workerSession.execute]: bytes are read until they end in the
    prompt; [None] is the end of the stream or too long a reply. *)
Fixpoint readReply (out stream : string) : option (string * string) :=
  match stream with
  | EmptyString => None
  | String b rest =>
      if maxSessionReplyBytes <=? Z.of_nat (String.length out) then None
      else
        let out' := out +:+ String b "" in
        match stripSuffix workerPrompt out' with
        | Some reply => Some (trimSpace reply, rest)
        | None => readReply out' rest
        end
  end.

Section connection.
Context {W : Type} (send : string → W → W * option string).

(** [workerSession.execute]: the unread bytes and the other side. [send] writes a
    line and gives the bytes that arrive; it fails with the context, the deadline
    and the connection. *)
Definition sessionExecute (command : string) (s : string * W) : (string * W) * option string :=
  let '(unread, w) := s in
  let '(w', arrived) := send (command +:+ String newline "") w in
  match arrived with
  | None => ((unread, w'), None)
  | Some bytes =>
      match readReply "" (unread +:+ bytes) with
      | None => (("", w'), None)
      | Some (reply, rest) => ((rest, w'), Some reply)
      end
  end.
End connection.

(** ** The commands of a delete *)

Inductive DeleteError :=
  | ErrWorkerGone
  | ErrIdentity
  | ErrSession
  | ErrCommand (code : CommandError)
  | ErrUnconfirmed.

#[export] Instance DeleteError_eq_dec : EqDecision DeleteError.
Proof. solve_decision. Defined.

Definition deferredWaitMs : Z := 2000.
Definition absent : string := "[3]: Failed. No such backend.".

Definition waitServer (ref : string) : string := "wait " +:+ itoa deferredWaitMs +:+ " srv-removable " +:+ ref.
Definition waitBackend (name : string) : string := "wait " +:+ itoa deferredWaitMs +:+ " be-removable " +:+ name.

Section scripts.
Context {Sess : Type} (lowerUnicode : string → string) (parseDuration : string → option Z).
Context (execute : string → Sess → Sess * option string) (generationNow : Sess → Z).

(** What a step of a script leaves and returns; [None] is no error. *)
Definition Step : Type := Sess * option DeleteError.

Definition thenStep (r : Step) (k : Sess → Step) : Step :=
  let '(s, err) := r in match err with Some _ => r | None => k s end.

Definition deferredCommandResult (raw command expect : string) : option DeleteError :=
  match matchBatch lowerUnicode raw [plain command expect] with
  | result :: _ => ErrCommand <$> CommandResult_Err result
  | [] => None
  end.

(** One of the commands that set the session up. *)
Definition setup (command : string) (s : Sess) : Step :=
  let '(s', raw) := execute command s in
  (s', match raw with None => Some ErrSession | Some raw => deferredCommandResult raw command "" end).

Definition identify (worker : HAProxyInfo) (s : Sess) : Step :=
  thenStep (setup "prompt" s) (λ s,
  thenStep (setup "set severity-output number" s) (λ s,
  thenStep (setup experimentalPrefix s) (λ s,
  let '(s', raw) := execute "show info float" s in
  (s', match raw with
       | None => Some ErrSession
       | Some raw =>
           match parseInfo parseDuration raw with
           | None => Some ErrIdentity
           | Some info => if SameWorker info worker then None else Some ErrWorkerGone
           end
       end)))).

(** [Deferrals.execute]. *)
Definition deferredExecute (generation : Z) (command : string) (s : Sess) : Sess * (string + DeleteError) :=
  if negb (generation =? generationNow s) then (s, inr ErrWorkerGone)
  else let '(s', raw) := execute command s in (s', match raw with Some raw => inl raw | None => inr ErrSession end).

(** [Deferrals.run]. *)
Definition runDeferred (generation : Z) (command expect : string) (s : Sess) : Step :=
  let '(s', raw) := deferredExecute generation command s in
  (s', match raw with inl raw => deferredCommandResult raw command expect | inr err => Some err end).

(** [deleteServer] once the session is open. *)
Definition deleteServerOn (a : attempt ServerRef) (s : Sess) : Step :=
  let ref := refString (attempt_Target a) in
  let wait := runDeferred (attempt_Generation a) (waitServer ref) expectDone in
  let '(s1, err) := wait s in
  let '(s2, err) :=
    if bool_decide (err = Some (ErrCommand ErrWaitExpired)) then
      thenStep (runDeferred (attempt_Generation a) ("shutdown sessions server " +:+ ref) "" s1) wait
    else (s1, err) in
  match err with
  | Some _ => (s2, err)
  | None => runDeferred (attempt_Generation a) ("del server " +:+ ref) "Server deleted" s2
  end.

Definition deleteBackendOnWorker (a : attempt string) (s : Sess) : Step :=
  let generation := attempt_Generation a in
  let name := attempt_Target a in
  let '(s1, raw) := deferredExecute generation (waitBackend name) s in
  match raw with
  | inr err => (s1, Some err)
  | inl raw =>
      if bool_decide (raw = absent) then (s1, None)
      else
        match deferredCommandResult raw (waitBackend name) expectDone with
        | Some err => (s1, Some err)
        | None =>
            let '(s2, err) := runDeferred generation ("del backend " +:+ name) "Backend deleted" s1 in
            if negb (bool_decide (err = None)) && negb (bool_decide (err = Some (ErrCommand ErrUnreadableResponse)))
            then (s2, err)
            else
              let '(s3, raw) := deferredExecute generation ("wait 1 be-removable " +:+ name) s2 in
              match raw with
              | inr err => (s3, Some err)
              | inl raw => if negb (bool_decide (raw = absent)) then (s3, Some ErrUnconfirmed) else (s3, None)
              end
        end
  end.

(** [openWorker] and the delete on its session; [dial] says whether the worker's
    socket could be reached. *)
Definition onWorker (dial : Sess → bool) (worker : HAProxyInfo) (script : Sess → Step) (s : Sess) : Step :=
  if negb (HasWorkerIdentity worker) then (s, Some ErrIdentity)
  else if negb (dial s) then (s, Some ErrSession)
  else thenStep (identify worker s) script.

Definition deferredDeleteServer (dial : Sess → bool) (a : attempt ServerRef) (s : Sess) : Step :=
  onWorker dial (attempt_Worker a) (deleteServerOn a) s.

Definition deferredDeleteBackend (dial : Sess → bool) (a : attempt string) (s : Sess) : Step :=
  onWorker dial (attempt_Worker a) (deleteBackendOnWorker a) s.
End scripts.

(** ** The drain *)

Section drain.
Context {Sess : Type} (cancelled : Sess → bool).
Context (deleteServer : attempt ServerRef → Sess → Sess * option DeleteError).
Context (deleteBackend : attempt string → Sess → Sess * option DeleteError).

Definition gone (err : DeleteError) : bool := bool_decide (err = ErrWorkerGone).

(** The first loop of [drain]; the flag says that the context ended it. *)
Fixpoint drainServers (count : nat) (d : Deferrals) (s : Sess) : Deferrals * Sess * bool :=
  match count with
  | O => (d, s, false)
  | S count' =>
      if cancelled s then (d, s, true)
      else
        match takeServer d with
        | None => (d, s, false)
        | Some (a, d1) =>
            let '(s', err) := deleteServer a s in
            let d2 := match err with Some err => requeueServer d1 a (gone err) | None => completeServer d1 end in
            drainServers count' d2 s'
        end
  end.

Fixpoint drainBackends (count : nat) (d : Deferrals) (s : Sess) : Deferrals * Sess :=
  match count with
  | O => (d, s)
  | S count' =>
      if cancelled s then (d, s)
      else
        match takeBackend d with
        | None => (d, s)
        | Some (a, d1) =>
            let '(s', err) := deleteBackend a s in
            let d2 := match err with Some err => requeueBackend d1 a (gone err) | None => completeBackend d1 end in
            drainBackends count' d2 s'
        end
  end.

Definition drain (d : Deferrals) (s : Sess) : Deferrals * Sess :=
  let servers := length (d_servers d) in
  let backends := length (d_backends d) in
  let '(d1, s1, ended) := drainServers servers d s in
  if ended : bool then (d1, s1) else drainBackends backends d1 s1.
End drain.
