(* ===== verification/CliSessionProps.v ===== *)
(** * Deferred deletes on the right worker, and their end

    A session reads back the reply the worker sent ([readReply_exact]); a
    deferred delete sends its commands only on an identified worker, under its
    own generation, and removes an object only once the worker calls it
    removable ([deferred_delete_guarded]); and the drain empties the queues in
    [MaxDeferredAttempts] passes whatever the worker does
    ([deferred_deletes_settle]). *)

From Stdlib Require Import ZArith Ascii Lia.
From stdpp Require Import base sets strings option relations list list_numbers.
From S2P Require Import Prelude Api GoStd RenderPlan MapEntries Cli CliResponse CliExec Deferrals CliSession.

Open Scope Z_scope.

(** ** Replies *)

Lemma stripSuffix_Some suffix s reply : stripSuffix suffix s = Some reply ↔ s = reply +:+ suffix.
Proof.
  unfold stripSuffix. rewrite fmap_Some. split.
  - intros (x & Hx%stripPrefix_Some & ->). apply (f_equal string_rev) in Hx.
    rewrite string_rev_involutive, string_rev_append, string_rev_involutive in Hx. done.
  - intros ->. exists (string_rev reply). rewrite string_rev_append, string_rev_involutive.
    split; [apply stripPrefix_append|done].
Qed.

Lemma stripSuffix_app suffix s : stripSuffix suffix (s +:+ suffix) = Some s.
Proof. by apply stripSuffix_Some. Qed.

Lemma strContains_app a sub b : strContains (a +:+ sub +:+ b) sub = true.
Proof.
  induction a as [|c a IH].
  - rewrite append_nil_l. pose proof (stripPrefix_append sub b) as H.
    destruct (sub +:+ b); cbn [strContains]; unfold hasPrefix; by rewrite H.
  - rewrite append_cons. cbn [strContains]. by rewrite IH, orb_true_r.
Qed.

(** Short of the prompt, a reply without the prompt in it does not end in it. *)
Lemma no_prompt_inside reply out r :
  strContains reply workerPrompt = false → reply = out +:+ r → stripSuffix workerPrompt out = None.
Proof.
  intros Hno ->. destruct (stripSuffix workerPrompt out) as [x|] eqn:E; [|done].
  apply stripSuffix_Some in E as ->. by rewrite append_assoc, strContains_app in Hno.
Qed.

Lemma stripSuffix_last suffix s c d :
  c ≠ d → stripSuffix (suffix +:+ String c "") (s +:+ String d "") = None.
Proof.
  intros Hne. destruct (stripSuffix _ _) as [x|] eqn:E; [|done]. apply stripSuffix_Some in E.
  rewrite <-append_assoc in E. apply (f_equal string_rev) in E. rewrite !string_rev_append in E.
  change (string_rev (String d "")) with (String d "") in E. change (string_rev (String c "")) with (String c "") in E.
  rewrite !append_cons in E. injection E as E _. congruence.
Qed.

Lemma readReply_step out b rest :
  Z.of_nat (String.length out) < maxSessionReplyBytes → stripSuffix workerPrompt (out +:+ String b "") = None →
  readReply out (String b rest) = readReply (out +:+ String b "") rest.
Proof. intros Hl Hs. cbn [readReply]. rewrite (proj2 (Z.leb_gt _ _)) by lia. by rewrite Hs. Qed.

(** A reply without the prompt in it, within the limit, is read whole, and
    nothing behind its prompt is lost. *)
Lemma readReply_exact reply rest :
  strContains reply workerPrompt = false → Z.of_nat (String.length reply) + 3 <= maxSessionReplyBytes →
  readReply "" (reply +:+ workerPrompt +:+ rest) = Some (trimSpace reply, rest).
Proof.
  intros Hno Hlen.
  assert (∀ r out, reply = out +:+ r → readReply out (r +:+ workerPrompt +:+ rest) = Some (trimSpace reply, rest)) as H;
    [|by apply (H reply "")].
  intros r. induction r as [|b r IH]; intros out Hout.
  - rewrite append_empty_r in Hout. subst out. rewrite append_nil_l. unfold workerPrompt. rewrite !append_cons, append_nil_l.
    rewrite readReply_step; [|lia|by apply (stripSuffix_last (String newline ">") reply " " newline)].
    rewrite readReply_step; [|rewrite length_append; simpl; lia|].
    2:{ by apply (stripSuffix_last (String newline ">") (reply +:+ String newline "") " " ">"). }
    cbn [readReply]. rewrite (proj2 (Z.leb_gt _ _)) by (rewrite !length_append; simpl; lia).
    rewrite !append_assoc. change (String newline "" +:+ ">" +:+ " ") with workerPrompt. by rewrite stripSuffix_app.
  - assert (reply = (out +:+ String b "") +:+ r) as Hout' by (rewrite append_assoc; exact Hout).
    rewrite append_cons, readReply_step; [by apply IH| |by eapply no_prompt_inside].
    apply (f_equal String.length) in Hout'. rewrite !length_append in Hout'. simpl in Hout'. lia.
Qed.

(** ** The commands of a delete *)

(** A session as its exchanges so far; the worker and the queue's generation
    answer as they like, as a function of them. *)
Definition exchange : Type := string * option string.

Definition traced (reply : list exchange → string → option string) (command : string) (tr : list exchange) :
    list exchange * option string :=
  (tr ++ [(command, reply tr command)], reply tr command).

Definition openingCommands : list string :=
  ["prompt"; "set severity-output number"; experimentalPrefix; "show info float"].

Section guarded.
Context (lowerUnicode : string → string) (parseDuration : string → option Z).
Context (reply : list exchange → string → option string) (generationNow : list exchange → Z).
Context (dial : list exchange → bool).
Abbreviation execute := (traced reply).
Abbreviation result := (deferredCommandResult lowerUnicode).

(** The session has identified itself as [worker]. *)
Definition identified (worker : HAProxyInfo) (tr : list exchange) : Prop :=
  ∃ replies raw info, tr = zip openingCommands (Some <$> replies ++ [raw]) ∧ length replies = 3%nat
    ∧ parseInfo parseDuration raw = Some info ∧ SameWorker info worker = true.

Lemma setup_spec command tr tr' err :
  setup lowerUnicode execute command tr = (tr', err) →
  tr' = tr ++ [(command, reply tr command)] ∧ (err = None → ∃ raw, reply tr command = Some raw).
Proof. unfold setup, traced. cbn beta iota zeta. intros H. injection H as <- <-. split; [done|]. destruct (reply tr command); [by eexists|done]. Qed.

Lemma thenStep_inv (r : Step (Sess:=list exchange)) k tr err :
  thenStep r k = (tr, err) → (r = (tr, err) ∧ err ≠ None) ∨ ∃ tr1, r = (tr1, None) ∧ k tr1 = (tr, err).
Proof. destruct r as [tr1 [e|]]; simpl; [intros [= <- <-]; by left|]. intros H. right. by exists tr1. Qed.

(** A command that set the session up extends its opening. *)
Lemma setup_extends command tr tr' err :
  setup lowerUnicode execute command tr = (tr', err) → command ∈ openingCommands →
  Forall (λ x, x.1 ∈ openingCommands) tr → Forall (λ x, x.1 ∈ openingCommands) tr'.
Proof. intros [-> _]%setup_spec Hc Htr. apply Forall_app_2; [done|]. by apply Forall_singleton. Qed.

Lemma identify_spec worker tr err :
  identify lowerUnicode parseDuration execute worker [] = (tr, err) →
  Forall (λ x, x.1 ∈ openingCommands) tr ∧ (err = None → identified worker tr).
Proof.
  unfold identify. intros H.
  destruct (thenStep_inv _ _ _ _ H) as [[E ?]|(tr1 & E1 & H1)]; clear H.
  { split; [|done]. apply (setup_extends _ _ _ _ E); [set_solver|constructor]. }
  pose proof (setup_extends _ _ _ _ E1 ltac:(set_solver) ltac:(constructor)) as F1.
  destruct (thenStep_inv _ _ _ _ H1) as [[E ?]|(tr2 & E2 & H2)]; clear H1.
  { split; [|done]. apply (setup_extends _ _ _ _ E); [set_solver|done]. }
  pose proof (setup_extends _ _ _ _ E2 ltac:(set_solver) F1) as F2.
  destruct (thenStep_inv _ _ _ _ H2) as [[E ?]|(tr3 & E3 & H3)]; clear H2.
  { split; [|done]. apply (setup_extends _ _ _ _ E); [set_solver|done]. }
  pose proof (setup_extends _ _ _ _ E3 ltac:(set_solver) F2) as F3. unfold traced at 1 in H3. injection H3 as <- <-.
  split; [apply Forall_app_2; [done|]; apply Forall_singleton; set_solver|].
  apply setup_spec in E1 as [-> R1], E2 as [-> R2], E3 as [-> R3].
  destruct (R1 eq_refl) as [r1 Q1]. rewrite Q1 in R2, R3 |- *. destruct (R2 eq_refl) as [r2 Q2]. rewrite Q2 in R3 |- *.
  destruct (R3 eq_refl) as [r3 Q3]. rewrite Q3.
  destruct (reply _ "show info float") as [r4|]; [|done]. destruct (parseInfo parseDuration r4) as [info|] eqn:Ei; [|done].
  destruct (SameWorker info worker) eqn:Es; [|done]. intros _. exists [r1; r2; r3], r4, info. by split_and!.
Qed.

Lemma deferredExecute_spec generation command tr tr' r :
  deferredExecute execute generationNow generation command tr = (tr', r) →
  (tr' = tr ∧ r = inr ErrWorkerGone) ∨
  (generation = generationNow tr ∧ tr' = tr ++ [(command, reply tr command)]
   ∧ r = match reply tr command with Some raw => inl raw | None => inr ErrSession end).
Proof.
  unfold deferredExecute, traced. destruct (Z.eqb_spec generation (generationNow tr)); simpl; intros [= <- <-]; auto.
Qed.

Lemma runDeferred_spec generation command expect tr tr' err :
  runDeferred lowerUnicode execute generationNow generation command expect tr = (tr', err) →
  (tr' = tr ∧ err = Some ErrWorkerGone) ∨
  (generation = generationNow tr ∧ tr' = tr ++ [(command, reply tr command)]
   ∧ (err = None ↔ ∃ raw, reply tr command = Some raw ∧ result raw command expect = None)).
Proof.
  unfold runDeferred. destruct (deferredExecute _ _ _ _ _) as [tr1 r] eqn:E. intros [= <- <-].
  destruct (deferredExecute_spec _ _ _ _ _ E) as [[-> ->]|(Hg & -> & ->)]; [by left|right]. split_and!; [done|done|].
  destruct (reply tr command) as [raw|]; naive_solver.
Qed.

(** Every exchange of [suffix] is one of [commands], under the delete's
    generation, and an exchange of [del] comes right after the worker called the
    object removable. *)
Definition guards (generation : Z) (commands : list string) (wait del : string) (tr suffix : list exchange) : Prop :=
  ∀ pre command r post, suffix = pre ++ (command, r) :: post →
    command ∈ commands ∧ generation = generationNow (tr ++ pre)
    ∧ (command = del → ∃ pre' raw, pre = pre' ++ [(wait, Some raw)] ∧ result raw wait expectDone = None).

Lemma guards_nil generation commands wait del tr : guards generation commands wait del tr [].
Proof. intros [] ? ? ? ?; discriminate. Qed.

Lemma guards_snoc generation commands wait del tr suffix command r :
  guards generation commands wait del tr suffix → command ∈ commands → generation = generationNow (tr ++ suffix) →
  (command = del → ∃ pre raw, suffix = pre ++ [(wait, Some raw)] ∧ result raw wait expectDone = None) →
  guards generation commands wait del tr (suffix ++ [(command, r)]).
Proof.
  intros Hg Hin Hgen Hdel pre c r' post E. destruct post as [|x post _] using rev_ind.
  - apply app_inj_tail in E as [-> [= -> ->]]. done.
  - rewrite app_comm_cons, app_assoc in E. apply app_inj_tail in E as [-> _]. by apply (Hg pre c r' post).
Qed.

(** What a finished delete leaves behind [tr]. *)
Definition scripted (generation : Z) (commands : list string) (wait del : string) (done : list exchange → Prop)
    (tr tr' : list exchange) (err : option DeleteError) : Prop :=
  ∃ suffix, tr' = tr ++ suffix ∧ guards generation commands wait del tr suffix ∧ (err = None → done suffix).

Definition delServer (ref : string) : string := "del server " +:+ ref.
Definition delBackend (name : string) : string := "del backend " +:+ name.

Lemma deleteServerOn_spec a tr tr' err :
  deleteServerOn lowerUnicode execute generationNow a tr = (tr', err) →
  let ref := refString (attempt_Target a) in
  scripted (attempt_Generation a) [waitServer ref; "shutdown sessions server " +:+ ref; delServer ref]
    (waitServer ref) (delServer ref)
    (λ suffix, ∃ pre raw, suffix = pre ++ [(delServer ref, Some raw)] ∧ result raw (delServer ref) "Server deleted" = None)
    tr tr' err.
Proof.
  unfold deleteServerOn. cbv zeta. set (ref := refString (attempt_Target a)). set (gen := attempt_Generation a).
  set (cmds := [_; _; _]). intros H.
  (* the removal, after an accepted wait *)
  assert (∀ tr1 suffix raw pre, tr1 = tr ++ suffix → guards gen cmds (waitServer ref) (delServer ref) tr suffix →
    suffix = pre ++ [(waitServer ref, Some raw)] → result raw (waitServer ref) expectDone = None →
    ∀ tr2 err2, runDeferred lowerUnicode execute generationNow gen (delServer ref) "Server deleted" tr1 = (tr2, err2) →
    scripted gen cmds (waitServer ref) (delServer ref)
      (λ suffix, ∃ pre raw, suffix = pre ++ [(delServer ref, Some raw)] ∧ result raw (delServer ref) "Server deleted" = None)
      tr tr2 err2) as Hdel.
  { intros tr1 suffix raw pre -> Hg Hsuf Hraw tr2 err2 [[-> ->]|(Hgen & -> & Herr)]%runDeferred_spec; [by exists suffix|].
    rewrite <-app_assoc. eexists. split; [done|]. split.
    - apply guards_snoc; [done|set_solver|done|]. intros _. by exists pre, raw.
    - intros (raw' & Hr & Hok)%Herr. rewrite Hr. by exists suffix, raw'. }
  destruct (runDeferred _ _ _ gen (waitServer ref) expectDone tr) as [tr1 err1] eqn:E1.
  apply runDeferred_spec in E1 as [[-> ->]|(Hg1 & -> & Herr1)].
  { rewrite bool_decide_false in H by done. injection H as <- <-. exists []. rewrite app_nil_r.
    split_and!; [done|apply guards_nil|done]. }
  assert (guards gen cmds (waitServer ref) (delServer ref) tr [(waitServer ref, reply tr (waitServer ref))]) as G1.
  { apply (guards_snoc gen cmds (waitServer ref) (delServer ref) tr []); [apply guards_nil|set_solver|by rewrite app_nil_r|done]. }
  case_bool_decide as Hexp; cycle 1.
  { destruct err1 as [e1|]; [injection H as <- <-; by exists [(waitServer ref, reply tr (waitServer ref))]|].
    destruct (proj1 Herr1 eq_refl) as (raw & Hr & Hok). rewrite Hr in H, G1. by apply (Hdel _ _ raw [] eq_refl G1). }
  destruct (thenStep _ _) as [tr2 err2] eqn:E2. apply thenStep_inv in E2 as [[E2 Hne]|(tr1 & E2 & E3)].
  - apply runDeferred_spec in E2 as [[-> ->]|(Hg2 & -> & _)].
    + injection H as <- <-. by eexists.
    + destruct err2; [|done]. injection H as <- <-. rewrite <-app_assoc. eexists. split; [done|]. split; [|done].
      apply guards_snoc; [done|set_solver|done|done].
  - apply runDeferred_spec in E2 as [[_ ?]|(Hg2 & -> & _)]; [done|]. rewrite <-app_assoc in E3.
    set (shut := "shutdown sessions server " +:+ ref) in *. set (s2 := [_] ++ [_]) in E3.
    assert (guards gen cmds (waitServer ref) (delServer ref) tr s2) as G2 by (apply guards_snoc; [done|set_solver|done|done]).
    apply runDeferred_spec in E3 as [[-> ->]|(Hg3 & -> & Herr3)]; [injection H as <- <-; by exists s2|].
    rewrite <-app_assoc in H.
    assert (∀ r, guards gen cmds (waitServer ref) (delServer ref) tr (s2 ++ [(waitServer ref, r)])) as G3
      by (intros r; apply guards_snoc; [done|set_solver|done|done]).
    destruct err2 as [e2|]; [injection H as <- <-; eexists; split_and!; [done|apply G3|done]|].
    destruct (proj1 Herr3 eq_refl) as (raw & Hr & Hok). rewrite Hr in H. by apply (Hdel _ _ raw s2 eq_refl (G3 (Some raw))).
Qed.

Lemma deleteBackendOn_spec a tr tr' err :
  deleteBackendOnWorker lowerUnicode execute generationNow a tr = (tr', err) →
  let name := attempt_Target a in
  scripted (attempt_Generation a) [waitBackend name; delBackend name; "wait 1 be-removable " +:+ name]
    (waitBackend name) (delBackend name) (λ suffix, ∃ pre command, suffix = pre ++ [(command, Some absent)]) tr tr' err.
Proof.
  unfold deleteBackendOnWorker. cbv zeta. set (name := attempt_Target a). set (gen := attempt_Generation a).
  set (cmds := [_; _; _]). intros H.
  destruct (deferredExecute _ _ gen (waitBackend name) tr) as [tr1 r1] eqn:E1.
  apply deferredExecute_spec in E1 as [[-> ->]|(Hg1 & -> & ->)].
  { injection H as <- <-. exists []. rewrite app_nil_r. split_and!; [done|apply guards_nil|done]. }
  assert (guards gen cmds (waitBackend name) (delBackend name) tr [(waitBackend name, reply tr (waitBackend name))]) as G1.
  { apply (guards_snoc gen cmds (waitBackend name) (delBackend name) tr []); [apply guards_nil|set_solver|by rewrite app_nil_r|done]. }
  destruct (reply tr (waitBackend name)) as [raw|] eqn:R1; [|injection H as <- <-; by eexists].
  case_bool_decide as Habs; [injection H as <- <-; eexists; split_and!; [done..|]; intros _; exists [], (waitBackend name); by rewrite Habs|].
  destruct (result raw (waitBackend name) expectDone) as [e1|] eqn:D1; [injection H as <- <-; by eexists|].
  destruct (runDeferred _ _ _ gen _ "Backend deleted" _) as [tr2 err2] eqn:E2.
  apply runDeferred_spec in E2 as [[-> ->]|(Hg2 & -> & Herr2)]; [simpl in H; injection H as <- <-; by eexists|].
  rewrite <-app_assoc in H. set (s2 := [_] ++ [_]) in H.
  assert (guards gen cmds (waitBackend name) (delBackend name) tr s2) as G2.
  { apply guards_snoc; [done|set_solver|done|]. intros _. by exists [], raw. }
  destruct (negb _ && negb _) eqn:Hstop.
  { injection H as <- <-. exists s2. split_and!; [done..|]. intros ->. by rewrite bool_decide_true in Hstop. }
  destruct (deferredExecute _ _ gen ("wait 1 be-removable " +:+ name) _) as [tr3 r3] eqn:E3.
  apply deferredExecute_spec in E3 as [[-> ->]|(Hg3 & -> & ->)]; [injection H as <- <-; by exists s2|].
  rewrite <-app_assoc in H.
  assert (∀ r, guards gen cmds (waitBackend name) (delBackend name) tr (s2 ++ [("wait 1 be-removable " +:+ name, r)])) as G3
    by (intros r; apply guards_snoc; [done|set_solver|done|done]).
  destruct (reply _ ("wait 1 be-removable " +:+ name)) as [raw'|]; [|injection H as <- <-; eexists; split_and!; [done|apply G3|done]].
  case_bool_decide as Habs'; simpl in H; injection H as <- <-; eexists; split_and!; [done|apply G3| |done|apply G3|done].
  intros _. exists s2, ("wait 1 be-removable " +:+ name). by rewrite Habs'.
Qed.

(** Commands of the opening are no commands of a delete. *)
Definition guardedRun (worker : HAProxyInfo) (generation : Z) (commands : list string) (wait del : string)
    (done : list exchange → Prop) (tr : list exchange) (err : option DeleteError) : Prop :=
  (Forall (λ x, x.1 ∈ openingCommands) tr ∧ err ≠ None)
  ∨ ∃ opening, identified worker opening ∧ scripted generation commands wait del done opening tr err.

Lemma onWorker_spec worker script generation commands wait del done tr err :
  (∀ opening tr err, script opening = (tr, err) → scripted generation commands wait del done opening tr err) →
  onWorker lowerUnicode parseDuration execute dial worker script [] = (tr, err) →
  guardedRun worker generation commands wait del done tr err.
Proof.
  intros Hscript. unfold onWorker. destruct (HasWorkerIdentity worker); simpl; [|intros [= <- <-]; by left].
  destruct (dial []); simpl; [|intros [= <- <-]; by left]. intros H.
  destruct (thenStep_inv _ _ _ _ H) as [[E Hne]|(opening & E & E')].
  - left. split; [|done]. by apply (identify_spec _ _ _ E).
  - right. exists opening. split; [by apply (identify_spec _ _ _ E)|by apply Hscript].
Qed.
End guarded.

(** C35: whatever the worker answers and whenever it is replaced, a deferred
    delete sends no command of its own unless the session identified itself as
    the worker the delete was queued for; each of its commands is about its own
    target and sent under its own generation; it removes the object only right
    after the worker called it removable; and it succeeds only when the worker
    confirmed the removal of the server, or answered that there is no such
    backend. *)
Theorem deferred_delete_guarded lowerUnicode parseDuration reply generationNow dial
    (server : attempt ServerRef) (backend : attempt string) :
  let ref := refString (attempt_Target server) in
  let name := attempt_Target backend in
  let '(trS, errS) := deferredDeleteServer lowerUnicode parseDuration (traced reply) generationNow dial server [] in
  let '(trB, errB) := deferredDeleteBackend lowerUnicode parseDuration (traced reply) generationNow dial backend [] in
  guardedRun lowerUnicode parseDuration generationNow (attempt_Worker server) (attempt_Generation server)
    [waitServer ref; "shutdown sessions server " +:+ ref; delServer ref] (waitServer ref) (delServer ref)
    (λ suffix, ∃ pre raw, suffix = pre ++ [(delServer ref, Some raw)]
       ∧ deferredCommandResult lowerUnicode raw (delServer ref) "Server deleted" = None) trS errS
  ∧ guardedRun lowerUnicode parseDuration generationNow (attempt_Worker backend) (attempt_Generation backend)
    [waitBackend name; delBackend name; "wait 1 be-removable " +:+ name] (waitBackend name) (delBackend name)
    (λ suffix, ∃ pre command, suffix = pre ++ [(command, Some absent)]) trB errB.
Proof.
  intros ref name. unfold deferredDeleteServer, deferredDeleteBackend.
  destruct (onWorker _ _ _ _ (attempt_Worker server) _ _) as [trS errS] eqn:ES.
  destruct (onWorker _ _ _ _ (attempt_Worker backend) _ _) as [trB errB] eqn:EB. split.
  - eapply onWorker_spec; [|exact ES]. intros opening tr err H. exact (deleteServerOn_spec lowerUnicode parseDuration reply generationNow dial server opening tr err H).
  - eapply onWorker_spec; [|exact EB]. intros opening tr err H. exact (deleteBackendOn_spec lowerUnicode parseDuration reply generationNow dial backend opening tr err H).
Qed.

(** ** The drain comes to an end *)

(** Attempts with at least [t] tries behind them, and some left. *)
Definition tried {T} (t : Z) (queue : list (attempt T)) : Prop :=
  Forall (λ a, t <= attempt_Tries a < MaxDeferredAttempts) queue.

Lemma requeued_tried {T} t (queue : list (attempt T)) a gone generation :
  t <= attempt_Tries a < MaxDeferredAttempts →
  ∃ extra, requeued queue a gone generation = queue ++ extra ∧ tried (t + 1) extra.
Proof.
  intros Ha. unfold requeued. cbv zeta. simpl. destruct (negb _ || gone); [exists []; rewrite app_nil_r; by split; [|constructor]|].
  destruct (Z.leb_spec MaxDeferredAttempts (attempt_Tries a + 1)); [exists []; rewrite app_nil_r; by split; [|constructor]|].
  eexists. split; [done|]. apply Forall_singleton. simpl. lia.
Qed.

Section settle.
Context {Sess : Type} (cancelled : Sess → bool).
Context (deleteServer : attempt ServerRef → Sess → Sess * option DeleteError).
Context (deleteBackend : attempt string → Sess → Sess * option DeleteError).
Context (never : ∀ s, cancelled s = false).
Abbreviation drainServers := (drainServers cancelled deleteServer).
Abbreviation drainBackends := (drainBackends cancelled deleteBackend).
Abbreviation drain := (drain cancelled deleteServer deleteBackend).

(** The queue between two attempts. *)
Record idle (d : Deferrals) : Prop := { id_server : d_inFlightServer d = None; id_backend : d_inFlightBackend d = None }.

Lemma drainServers_spec t todo again d s :
  d_servers d = todo ++ again → tried t todo → tried (t + 1) again → idle d →
  ∃ d' s', drainServers (length todo) d s = (d', s', false) ∧ tried (t + 1) (d_servers d') ∧ d_backends d' = d_backends d
           ∧ idle d' ∧ rtc queue_step d d'.
Proof.
  intros Hd Htodo. revert again d s Hd. induction Htodo as [|a todo Ha _ IH]; intros again d s Hd Hagain [Hi1 Hi2].
  { exists d, s. split_and!; [done|by rewrite Hd|done|done|reflexivity]. }
  cbn [length CliSession.drainServers]. rewrite never. unfold takeServer. rewrite Hd. simpl app. cbn match.
  set (d1 := MkDeferrals (todo ++ again) _ _ _ _ _).
  assert (queue_step d d1) as Hstep1 by (apply (q_takeServer d a d1); [done|]; unfold takeServer; by rewrite Hd).
  destruct (deleteServer a s) as [s' [err|]].
  - destruct (requeued_tried t (todo ++ again) a (gone err) (d_generation d) Ha) as (extra & Hr & Hx).
    destruct (IH (again ++ extra) (requeueServer d1 a (gone err)) s') as (d' & s2 & -> & H1 & H2 & H3 & H4).
    + simpl. by rewrite Hr, app_assoc.
    + by apply Forall_app_2.
    + by split.
    + exists d', s2. split_and!; [done..|]. eapply rtc_l; [exact Hstep1|]. eapply rtc_l; [|exact H4]. by apply q_retryServer.
  - destruct (IH again (completeServer d1) s') as (d' & s2 & -> & H1 & H2 & H3 & H4); [done|done|by split|].
    exists d', s2. split_and!; [done..|]. eapply rtc_l; [exact Hstep1|]. eapply rtc_l; [|exact H4]. by apply (q_doneServer d1 a).
Qed.

Lemma drainBackends_spec t todo again d s :
  d_backends d = todo ++ again → tried t todo → tried (t + 1) again → idle d →
  ∃ d' s', drainBackends (length todo) d s = (d', s') ∧ tried (t + 1) (d_backends d') ∧ d_servers d' = d_servers d
           ∧ idle d' ∧ rtc queue_step d d'.
Proof.
  intros Hd Htodo. revert again d s Hd. induction Htodo as [|a todo Ha _ IH]; intros again d s Hd Hagain [Hi1 Hi2].
  { exists d, s. split_and!; [done|by rewrite Hd|done|done|reflexivity]. }
  cbn [length CliSession.drainBackends]. rewrite never. unfold takeBackend. rewrite Hd. simpl app. cbn match.
  set (d1 := MkDeferrals _ (todo ++ again) _ _ _ _).
  assert (queue_step d d1) as Hstep1 by (apply (q_takeBackend d a d1); [done|]; unfold takeBackend; by rewrite Hd).
  destruct (deleteBackend a s) as [s' [err|]].
  - destruct (requeued_tried t (todo ++ again) a (gone err) (d_generation d) Ha) as (extra & Hr & Hx).
    destruct (IH (again ++ extra) (requeueBackend d1 a (gone err)) s') as (d' & s2 & -> & H1 & H2 & H3 & H4).
    + simpl. by rewrite Hr, app_assoc.
    + by apply Forall_app_2.
    + by split.
    + exists d', s2. split_and!; [done..|]. eapply rtc_l; [exact Hstep1|]. eapply rtc_l; [|exact H4]. by apply q_retryBackend.
  - destruct (IH again (completeBackend d1) s') as (d' & s2 & -> & H1 & H2 & H3 & H4); [done|done|by split|].
    exists d', s2. split_and!; [done..|]. eapply rtc_l; [exact Hstep1|]. eapply rtc_l; [|exact H4]. by apply (q_doneBackend d1 a).
Qed.

(** One pass adds a try to whatever is left. *)
Lemma drain_spec t d s :
  tried t (d_servers d) → tried t (d_backends d) → idle d →
  ∃ d' s', drain d s = (d', s') ∧ tried (t + 1) (d_servers d') ∧ tried (t + 1) (d_backends d') ∧ idle d' ∧ rtc queue_step d d'.
Proof.
  intros Hs Hb Hi. unfold CliSession.drain. cbv zeta.
  destruct (drainServers_spec t (d_servers d) [] d s) as (d1 & s1 & -> & H1 & H2 & H3 & H4); [by rewrite app_nil_r|done|constructor|done|].
  rewrite <-H2 in Hb |- *.
  destruct (drainBackends_spec t (d_backends d1) [] d1 s1) as (d2 & s2 & -> & H5 & H6 & H7 & H8); [by rewrite app_nil_r|done|constructor|done|].
  exists d2, s2. split_and!; [done|by rewrite H6|done|done|by etrans].
Qed.

Lemma drains_spec k d s :
  tried 0 (d_servers d) → tried 0 (d_backends d) → idle d →
  ∃ d' s', Nat.iter k (λ x, drain x.1 x.2) (d, s) = (d', s') ∧ tried (Z.of_nat k) (d_servers d')
           ∧ tried (Z.of_nat k) (d_backends d') ∧ idle d' ∧ rtc queue_step d d'.
Proof.
  intros Hs Hb Hi. induction k as [|k (d1 & s1 & E & H1 & H2 & H3 & H4)]; [by exists d, s|].
  destruct (drain_spec (Z.of_nat k) d1 s1) as (d2 & s2 & E2 & G1 & G2 & G3 & G4); [done..|].
  exists d2, s2. rewrite Nat.iter_succ, E. simpl fst. simpl snd. rewrite E2.
  rewrite Nat2Z.inj_succ. unfold Z.succ. split_and!; [done..|by etrans].
Qed.
End settle.

Lemma tried_all {T} t (queue : list (attempt T)) : MaxDeferredAttempts <= t → tried t queue → queue = [].
Proof. intros Ht [|a q Ha _]; [done|]. lia. Qed.

(** C36: once nothing more is queued, every deferred delete is settled within
    [MaxDeferredAttempts] passes of the drain, whatever the worker answers: it is
    done, superseded or given up, and nothing stays pending. The passes are
    steps of the queue, so its invariant holds all along. *)
Theorem deferred_deletes_settle {Sess} cancelled deleteServer deleteBackend n d (s : Sess) :
  (∀ s, cancelled s = false) → Z.of_nat n < 2 ^ 64 → nsteps queue_step n NewDeferrals d → idle d →
  ∃ d' s', Nat.iter (Z.to_nat MaxDeferredAttempts) (λ x, drain cancelled deleteServer deleteBackend x.1 x.2) (d, s) = (d', s')
           ∧ Pending d' = ([], []) ∧ rtc queue_step d d'.
Proof.
  intros Hnever Hn Hsteps Hidle. pose proof Hidle as [Hi1 Hi2].
  destruct (reachable_ok n d Hn Hsteps) as ([[_ Hsv _] [_ Hbv _]] & _). rewrite Hi1 in Hsv. rewrite Hi2 in Hbv.
  destruct (drains_spec cancelled deleteServer deleteBackend Hnever (Z.to_nat MaxDeferredAttempts) d s)
    as (d' & s' & E & H1 & H2 & [H3 H4] & H5); [by eapply Forall_impl; [exact Hsv|]; intros a [_ ?]|by eapply Forall_impl; [exact Hbv|]; intros a [_ ?]|done|].
  exists d', s'. split; [done|]. split; [|done].
  apply tried_all in H1; [|by vm_compute]. apply tried_all in H2; [|by vm_compute].
  unfold Pending. by rewrite H1, H2, H3, H4.
Qed.

(** A server whose delete always fails. *)
Lemma deferred_deletes_settle_witness :
  ∃ d' s', Nat.iter 5 (λ x, drain (λ _, false) (λ _ s, (S s, Some ErrSession)) (λ _ s, (s, None)) x.1 x.2) (demoQueue, 0%nat)
           = (d', s') ∧ Pending d' = ([], []).
Proof.
  assert (Hsteps : nsteps queue_step 2 NewDeferrals demoQueue).
  { eapply nsteps_l; [apply (q_worker _ demoWorker)|].
    eapply nsteps_l; [apply (q_enqueue _ demoWorker [MkServerRef "app" "s1"] [] demoQueue); vm_compute; reflexivity|constructor]. }
  destruct (deferred_deletes_settle (λ _, false) (λ _ s, (S s, Some ErrSession)) (λ _ s, (s, None)) 2 demoQueue 0%nat
    (λ _, eq_refl) ltac:(vm_compute; reflexivity) Hsteps ltac:(split; vm_compute; reflexivity)) as (d' & s' & E & HP & _).
  exists d', s'. split; [exact E|exact HP].
Defined.
