(* ===== verification/FileTree.v ===== *)
(** * The agent's file tree

    Models [src/pkg/dataplane/agent/files] ([path.go], [store.go],
    [journal.go], [write.go] and [transaction.go]): which paths a manifest may
    name, how a received part is verified before it can reach the tree, the
    journal of last-known-good versions, the two phases of a file transaction,
    and the restore that undoes everything since the last known good set.

    A tree maps the managed paths to what is at them. A file is only ever
    replaced by renaming another one onto it, so a hard link keeps the content
    it was made of and a backup is a content of its own. System calls may fail
    at any point: [io] says which succeed, and a call that fails changes
    nothing. Every operation answers the disk it leaves and whether it
    succeeded. *)

From Stdlib Require Import Ascii.
From stdpp Require Import base list list_numbers gmap strings.
From S2P Require Import Prelude Api GoStd.

Open Scope Z_scope.

(** ** Paths (path.go) *)

Inductive PathError :=
  | PathEmpty | PathTooLong | PathAbsolute | PathNotCanonical | PathNUL | PathDotComponent
  | PathReserved.

(** [ValidatePath]; [None] is the nil error. *)
Definition ValidatePath (rel : string) : option PathError :=
  if bool_decide (rel = "") then Some PathEmpty
  else if MaxPathBytes <? Z.of_nat (String.length rel) then Some PathTooLong
  else if hasPrefix rel "/" then Some PathAbsolute
  else if negb (bool_decide (pathClean rel = rel)) then Some PathNotCanonical
  else if containsByte (N.eqb 0) rel then Some PathNUL
  else if existsb (λ part, hasPrefix part ".") (split "/" rel) then Some PathDotComponent
  else None.

(** ** The store (store.go) *)

(** The base directory, the roots of the probed mounts (deepest first) and the
    absolute paths no manifest may name. *)
Record Store := MkStore {
  store_baseDir : string;
  store_mounts : list string;
  store_reserved : list string;
}.

Definition LKGDirName : string := ".haptic-lkg".

Definition Abs (s : Store) (rel : string) : string + PathError :=
  match ValidatePath rel with
  | Some err => inr err
  | None =>
      let abs := pathJoin [store_baseDir s; rel] in
      if contains (store_reserved s) abs then inr PathReserved else inl abs
  end.

(** The deepest probed root that is a prefix of [abs]. *)
Definition mountFor (s : Store) (abs : string) : string :=
  let holds root := bool_decide (abs = root) || hasPrefix abs (root +:+ "/") in
  match List.find holds (store_mounts s) with
  | Some root => root
  | None => default "" (last (store_mounts s))
  end.

(** What is at a path: a regular file, or something the agent does not own (a
    socket, a directory or a symbolic link) with what reading it answers. *)
Inductive Node := RegularFile (content : string) | OtherFile (reads : option string).

(** [os.ReadFile] follows a symbolic link. *)
Definition readNode (n : Node) : option string :=
  match n with RegularFile content => Some content | OtherFile reads => reads end.

#[export] Instance Node_eq_dec : EqDecision Node.
Proof. solve_decision. Defined.

(** ** The journal (journal.go) *)

Inductive EntryKind := KindModified | KindCreated | KindDeleted.

#[export] Instance EntryKind_eq_dec : EqDecision EntryKind.
Proof. solve_decision. Defined.

(** [Entry]. *)
Record JEntry := MkJEntry {
  JEntry_Path : string;
  JEntry_Kind : EntryKind;
  JEntry_Backup : string;
}.

(** [Journal.Entries]. *)
Definition Journal := list JEntry.

Definition journalHas (j : Journal) (rel : string) : bool :=
  existsb (λ e, bool_decide (JEntry_Path e = rel)) j.

Definition journalEmpty (j : Journal) : bool := bool_decide (length j = 0%nat).

Definition journalAdd (j : Journal) (e : JEntry) : Journal :=
  if journalHas j (JEntry_Path e) then j else j ++ [e].

(** ** The disk *)

(** The system calls the store makes on a managed path, on a backup or on the
    staging name of a part or a restore. *)
Inductive Syscall := Lstat | ReadFile | MkdirAll | Rename | CopyOnto | RemoveSource | RemovePath
  | RemoveBackup | LinkBackup | RemoveStaging | LinkStaging | RenameStaging
  | CreateTemp | ReadPart | CloseTemp | ChmodTemp | LstatTemp.

#[export] Instance Syscall_eq_dec : EqDecision Syscall.
Proof. solve_decision. Defined.

(** Managed paths, backups by their absolute name, and the journal. *)
Record Disk := MkDisk {
  disk_tree : gmap string Node;
  disk_backups : gmap string Node;
  disk_journal : Journal;
}.

Definition setTree (d : Disk) (t : gmap string Node) : Disk :=
  MkDisk t (disk_backups d) (disk_journal d).

(** A verified part waiting in its target mount's temp directory. *)
Record Staged := MkStaged {
  Staged_Rel : string;
  Staged_Content : string;
}.

(** Why a part is not staged: its path, its content, the base it splices into,
    a system call, or a slice out of range. *)
Inductive StageError :=
  | StagePath (err : PathError) | DigestMismatch | PatchBaseMissing | StageIO | StagePanic.

(** A loop that stops at the first error, and one that joins its errors. *)
Fixpoint untilError {A} (f : A → Disk → Disk * bool) (l : list A) (d : Disk) : Disk * bool :=
  match l with
  | [] => (d, true)
  | x :: rest => match f x d with
                 | (d', true) => untilError f rest d'
                 | (d', false) => (d', false)
                 end
  end.

Fixpoint joinErrors {A} (f : A → Disk → Disk * bool) (l : list A) (d : Disk) : Disk * bool :=
  match l with
  | [] => (d, true)
  | x :: rest => let '(d1, ok) := f x d in
                 let '(d2, ok') := joinErrors f rest d1 in (d2, ok && ok')
  end.

Section store.
Context (st : Store).
(** xxHash of a path and of a content, in hexadecimal ([renderplan.DigestString]
    and [renderplan.Digest]). *)
Context (digestString : string → string).
(** Which system calls succeed, and which renames cross a device. *)
Context (io : Syscall → string → bool) (crossDevice : string → bool).

(** ** Staging a received part (write.go) *)

(** [stage]: what [fill] wrote, the count it reports or its error. *)
Definition stage (rel digest : string) (size : Z) (fill : string * (Z + StageError)) :
    Staged + StageError :=
  match Abs st rel with
  | inr err => inr (StagePath err)
  | inl _ =>
      if negb (io CreateTemp rel) then inr StageIO
      else match fill with
      | (_, inr err) => inr err
      | (content, inl written) =>
          if negb (io CloseTemp rel) then inr StageIO
          else if negb (written =? size) then inr DigestMismatch
          else if negb (bool_decide (digestString content = digest)) then inr DigestMismatch
          else if negb (io ChmodTemp rel) || negb (io LstatTemp rel) then inr StageIO
          else inl (MkStaged rel content)
      end
  end.

(** [io.Copy] from an [io.LimitReader] of [n] bytes over a part that carries
    [body]. *)
Definition limitedCopy (n : Z) (body : string) : string := strTake (Z.to_nat n) body.

Definition Stage (rel body digest : string) (size : Z) : Staged + StageError :=
  let copied := limitedCopy (wrap64 (size + 1)) body in
  stage rel digest size
    (if io ReadPart rel then (copied, inl (Z.of_nat (String.length copied)))
     else (copied, inr StageIO)).

(** The slices [s[:n]] and [s[n:]], [None] where Go panics. *)
Definition sliceTo (s : string) (n : Z) : option string :=
  if (0 <=? n) && (n <=? Z.of_nat (String.length s)) then Some (strTake (Z.to_nat n) s) else None.

Definition sliceFrom (s : string) (n : Z) : option string :=
  if (0 <=? n) && (n <=? Z.of_nat (String.length s)) then Some (strDrop (Z.to_nat n) s) else None.

Definition patchFill (rel base body : string) (patch : FilePatch) (replaced : Z) :
    string * (Z + StageError) :=
  match sliceTo base (FilePatch_Offset patch) with
  | None => ("", inr StagePanic)
  | Some head =>
      let copied := limitedCopy (wrap64 (replaced + 1)) body in
      let written := Z.of_nat (String.length copied) in
      if negb (io ReadPart rel) then (head +:+ copied, inr StageIO)
      else if negb (written =? replaced) then (head +:+ copied, inr DigestMismatch)
      else match sliceFrom base (wrap64 (FilePatch_Offset patch + FilePatch_Length patch)) with
      | None => (head +:+ copied, inr StagePanic)
      | Some rest =>
          (head +:+ copied +:+ rest,
           inl (wrap64 (wrap64 (Z.of_nat (String.length base) - FilePatch_Length patch) + written)))
      end
  end.

Definition StagePatch (d : Disk) (rel body : string) (patch : FilePatch) (digest : string)
    (size : Z) : Staged + StageError :=
  match Abs st rel with
  | inr err => inr (StagePath err)
  | inl _ =>
      match disk_tree d !! rel ≫= readNode with
      | Some base =>
          let len := Z.of_nat (String.length base) in
          if negb (io ReadFile rel) then inr PatchBaseMissing
          else if negb (len =? FilePatch_BaseSize patch)
               || negb (bool_decide (digestString base = FilePatch_BaseDigest patch))
          then inr PatchBaseMissing
          else
            let replaced := wrap64 (wrap64 (size - FilePatch_BaseSize patch) + FilePatch_Length patch) in
            if (FilePatch_Offset patch <? 0) || (FilePatch_Length patch <? 0) || (replaced <? 0)
               || (len <? FilePatch_Offset patch)
               || (wrap64 (len - FilePatch_Offset patch) <? FilePatch_Length patch)
            then inr DigestMismatch
            else stage rel digest size (patchFill rel base body patch replaced)
      | None => inr PatchBaseMissing
      end
  end.

(** ** Changing the tree (write.go) *)

Definition isRegular (n : Node) : bool := match n with RegularFile _ => true | OtherFile _ => false end.

Definition refuseNonRegular (rel : string) (d : Disk) : bool :=
  io Lstat rel && match disk_tree d !! rel with Some n => isRegular n | None => true end.

(** [copyOnto]: the sibling that holds the whole content is renamed first, the
    source dropped after. *)
Definition copyOnto (staged : Staged) (d : Disk) : Disk * bool :=
  let rel := Staged_Rel staged in
  if negb (io CopyOnto rel) then (d, false)
  else (setTree d (<[rel := RegularFile (Staged_Content staged)]> (disk_tree d)),
        io RemoveSource rel).

Definition install (staged : Staged) (d : Disk) : Disk * bool :=
  let rel := Staged_Rel staged in
  match Abs st rel with
  | inr _ => (d, false)
  | inl _ =>
      if negb (refuseNonRegular rel d) then (d, false)
      else if negb (io MkdirAll rel) then (d, false)
      else if crossDevice rel then copyOnto staged d
      else if negb (io Rename rel) then (d, false)
      else (setTree d (<[rel := RegularFile (Staged_Content staged)]> (disk_tree d)), true)
  end.

(** The name [linkAside] gives a backup: the journal position makes it unique. *)
Definition backupName (rel : string) (position : nat) : string :=
  itoa (Z.of_nat position) +:+ "-" +:+ digestString rel +:+ ".bak".

Definition backupLink (rel abs : string) (position : nat) : string :=
  pathJoin [mountFor st abs; LKGDirName; backupName rel position].

Definition linkAside (rel abs : string) (d : Disk) : Disk * option string :=
  let link := backupLink rel abs (length (disk_journal d)) in
  if negb (io RemoveBackup link) then (d, None)
  else
    let d1 := MkDisk (disk_tree d) (delete link (disk_backups d)) (disk_journal d) in
    match disk_tree d !! rel with
    | Some node =>
        if io LinkBackup rel
        then (MkDisk (disk_tree d1) (<[link := node]> (disk_backups d1)) (disk_journal d1), Some link)
        else (d1, None)
    | None => (d1, None)
    end.

Definition record (d : Disk) (e : JEntry) : Disk :=
  MkDisk (disk_tree d) (disk_backups d) (journalAdd (disk_journal d) e).

(** [backup] and [backupDeleted]: the journal keeps the first version. *)
Definition backup (rel : string) (d : Disk) : Disk * bool :=
  if journalHas (disk_journal d) rel then (d, true)
  else match Abs st rel with
  | inr _ => (d, false)
  | inl abs =>
      if negb (io Lstat rel) then (d, false)
      else match disk_tree d !! rel with
      | None => (record d (MkJEntry rel KindCreated ""), true)
      | Some _ =>
          match linkAside rel abs d with
          | (d', Some link) => (record d' (MkJEntry rel KindModified link), true)
          | (d', None) => (d', false)
          end
      end
  end.

Definition backupDeleted (rel : string) (d : Disk) : Disk * bool :=
  if journalHas (disk_journal d) rel then (d, true)
  else match Abs st rel with
  | inr _ => (d, false)
  | inl abs =>
      if negb (io Lstat rel) then (d, false)
      else match disk_tree d !! rel with
      | None => (d, true)
      | Some _ =>
          match linkAside rel abs d with
          | (d', Some link) => (record d' (MkJEntry rel KindDeleted link), true)
          | (d', None) => (d', false)
          end
      end
  end.

Definition unlink (rel : string) (d : Disk) : Disk * bool :=
  match Abs st rel with
  | inr _ => (d, false)
  | inl _ =>
      if negb (refuseNonRegular rel d) then (d, false)
      else if negb (io RemovePath rel) then (d, false)
      else (setTree d (delete rel (disk_tree d)), true)
  end.

(** ** Transactions (transaction.go) *)

Record Transaction := MkTransaction {
  tx_installs : list Staged;
  tx_deletes : list string;
  tx_configRel : string;
}.

Definition Begin (configRel : string) : Transaction := MkTransaction [] [] configRel.

Definition Install (t : Transaction) (s : Staged) : Transaction :=
  MkTransaction (tx_installs t ++ [s]) (tx_deletes t) (tx_configRel t).

Definition Delete (t : Transaction) (rel : string) : Transaction :=
  MkTransaction (tx_installs t) (tx_deletes t ++ [rel]) (tx_configRel t).

Definition Changes (t : Transaction) : Z :=
  Z.of_nat (length (tx_installs t)) + Z.of_nat (length (tx_deletes t)).

Definition Backup (t : Transaction) (d : Disk) : Disk * bool :=
  if MaxFiles <? Changes t then (d, false)
  else match untilError (λ s, backup (Staged_Rel s)) (tx_installs t) d with
       | (d', false) => (d', false)
       | (d', true) => untilError backupDeleted (tx_deletes t) d'
       end.

(** [Write]: parts, then the config (the last part staged at its path), then the
    deletes. *)
Definition Write_ (t : Transaction) (d : Disk) : Disk * bool :=
  let parts := filter (λ s, Staged_Rel s ≠ tx_configRel t) (tx_installs t) in
  let config := last (filter (λ s, Staged_Rel s = tx_configRel t) (tx_installs t)) in
  match untilError install parts d with
  | (d1, false) => (d1, false)
  | (d1, true) =>
      match match config with Some c => install c d1 | None => (d1, true) end with
      | (d2, false) => (d2, false)
      | (d2, true) => joinErrors unlink (tx_deletes t) d2
      end
  end.

(** ** Restoring (write.go) *)

Definition restoreEntry (e : JEntry) (d : Disk) : Disk * bool :=
  let rel := JEntry_Path e in
  match Abs st rel with
  | inr _ => (d, false)
  | inl _ =>
      if bool_decide (JEntry_Kind e = KindCreated) then
        if negb (io RemovePath rel) then (d, false)
        else (setTree d (delete rel (disk_tree d)), true)
      else if negb (io MkdirAll rel) || negb (io RemoveStaging rel) then (d, false)
      else match disk_backups d !! JEntry_Backup e with
      | Some node =>
          if negb (io LinkStaging rel) || negb (io RenameStaging rel) then (d, false)
          else (setTree d (<[rel := node]> (disk_tree d)), true)
      | None => (d, false)
      end
  end.

(** [Restore]: every entry, the config's last. *)
Definition Restore (configRel : string) (d : Disk) : Disk * bool :=
  let j := disk_journal d in
  let others := filter (λ e, JEntry_Path e ≠ configRel) j in
  let deferred := last (filter (λ e, JEntry_Path e = configRel) j) in
  joinErrors restoreEntry (others ++ option_list deferred) d.

(** [ClearJournal]: the journal is dropped even when a backup cannot be. *)
Definition ClearJournal (d : Disk) : Disk * bool :=
  let clear (acc : gmap string Node * bool) (e : JEntry) :=
    if bool_decide (JEntry_Backup e = "") then acc
    else if io RemoveBackup (JEntry_Backup e)
         then (delete (JEntry_Backup e) acc.1, acc.2) else (acc.1, false) in
  let '(backups, ok) := foldl clear (disk_backups d, true) (disk_journal d) in
  (MkDisk (disk_tree d) backups [], ok).

(** ** Observing (store.go) *)

Definition fileAt (content : string) : FileAt :=
  MkFileAt (digestString content) "" (Z.of_nat (String.length content)).

(** [HashTree]: the files of the ownership set; a path that is absent, not a
    regular file or not a valid one is left out. *)
Fixpoint hashPaths (d : Disk) (paths : list string) (out : gmap string FileAt) :
    option (gmap string FileAt) :=
  match paths with
  | [] => Some out
  | rel :: rest =>
      match Abs st rel with
      | inr _ => hashPaths d rest out
      | inl _ =>
          if negb (io Lstat rel) then None
          else match disk_tree d !! rel with
          | Some (RegularFile content) =>
              if io ReadFile rel then hashPaths d rest (<[rel := fileAt content]> out) else None
          | _ => hashPaths d rest out
          end
      end
  end.

Definition HashTree (d : Disk) (paths : list string) : option (gmap string FileAt) :=
  if MaxFiles <? Z.of_nat (length paths) then None else hashPaths d paths ∅.
End store.
