(* ===== verification/FileTreeProps.v ===== *)
(** * Correctness of the agent's file tree

    Accepted paths stay inside the base directory and name one file each; a
    spliced part is the file the manifest describes; the journal makes every
    change since the last known good set reversible whatever fails in between;
    the config is never newer than the files it references. *)

From Stdlib Require Import Ascii.
From stdpp Require Import base list list_numbers gmap strings.
From S2P Require Import Prelude Api GoStd FileTree.

Open Scope Z_scope.

(** ** Paths *)

Lemma cleanParts_nonempty rooted stack l :
  Forall (λ p, p ≠ "") stack → Forall (λ p, p ≠ "") (cleanParts rooted stack l).
Proof.
  revert stack. induction l as [|q l IH]; intros stack Hs; simpl; [done|].
  repeat case_match; apply IH; try done; split_bools; try (by constructor).
  by apply Forall_cons in Hs as [_ Hs].
Qed.

Lemma ValidatePath_None rel :
  ValidatePath rel = None →
  rel ≠ "" ∧ Z.of_nat (String.length rel) <= MaxPathBytes ∧
  Forall (λ p, p ≠ "" ∧ hasPrefix p "." = false) (split "/" rel).
Proof.
  unfold ValidatePath. intros H. case_bool_decide as He; [done|].
  destruct (MaxPathBytes <? _) eqn:Hlen; [done|].
  destruct (hasPrefix rel "/") eqn:Habs; [done|].
  destruct (bool_decide (pathClean rel = rel)) eqn:Hclean; [|done].
  destruct (containsByte _ _); [done|]. simpl in H.
  destruct (existsb _ _) eqn:Hdot; [done|].
  split; [done|]. split; [lia|]. split_bools.
  assert (Hdots : ∀ p, p ∈ split "/" rel → hasPrefix p "." = false).
  { intros p Hp. destruct (hasPrefix p ".") eqn:E; [|done].
    rewrite <-Hdot. symmetry. apply existsb_exists. exists p.
    split; [by apply list_elem_of_In|done]. }
  unfold pathClean in Hclean. rewrite Habs in Hclean.
  set (comps := reverse _) in Hclean. case_bool_decide as Hbody.
  { subst rel. by vm_compute in Hdot. }
  assert (Hs : split "/" rel = comps).
  { rewrite <-Hclean. apply split_joinWith; [|apply cleanParts_no_slash].
    intros ->. done. }
  apply Forall_forall. intros p Hp. split; [|by apply Hdots].
  rewrite Hs in Hp. unfold comps in Hp. rewrite elem_of_reverse in Hp.
  pose proof (cleanParts_nonempty false [] (split "/" rel) ltac:(constructor)) as Hne.
  rewrite Forall_forall in Hne. by apply Hne.
Qed.

Lemma plainPart_valid p : p ≠ "" ∧ hasPrefix p "." = false → plainPart p = true.
Proof.
  intros [Hne Hdot]. unfold plainPart. apply negb_true_iff. rewrite !orb_false_iff.
  repeat split; apply bool_decide_eq_false_2; [done|..]; by intros ->.
Qed.

Lemma split_plain rel :
  Forall (λ p, p ≠ "" ∧ hasPrefix p "." = false) (split "/" rel) →
  Forall (λ p, plainPart p = true) (split "/" rel).
Proof. intros H. eapply Forall_impl; [exact H|]. apply plainPart_valid. Qed.

Lemma hasPrefix_slash s : hasPrefix s "/" = true → ∃ r, s = String "/" r.
Proof.
  unfold hasPrefix. intros [r Hr]%bool_decide_eq_true. apply stripPrefix_Some in Hr as ->. by exists r.
Qed.

(** Where [Abs] puts a valid path. *)
Lemma Abs_inl s rel abs :
  hasPrefix (store_baseDir s) "/" = true → Abs s rel = inl abs →
  ValidatePath rel = None ∧ (abs ∉ store_reserved s) ∧
  abs = "/" +:+ joinWith "/" (pathComponents (store_baseDir s) ++ split "/" rel).
Proof.
  unfold Abs. intros Hbase H. destruct (ValidatePath rel) as [|] eqn:Hv; [done|].
  apply ValidatePath_None in Hv as (Hne & _ & Hparts).
  destruct (contains _ _) eqn:Hres; [done|]. injection H as <-.
  unfold contains in Hres. split_bools. do 2 (split; [done|]).
  apply hasPrefix_slash in Hbase as [r Hr].
  unfold pathJoin. rewrite Hr, !filter_cons, filter_nil, !decide_True by done.
  rewrite joinWith_cons. change ("/" +:+ joinWith "/" [rel]) with (String "/" rel).
  rewrite pathClean_rooted by done. do 2 f_equal.
  unfold pathComponents. rewrite split_append, cleanParts_app.
  rewrite (cleanParts_plain _ _ (split "/" rel)) by (by apply split_plain).
  by rewrite reverse_app, reverse_involutive.
Qed.

(** C27: a path the agent accepts stays inside its base directory: it is the base
    directory followed by the path's own components, none of which is empty, a
    dot name or holds a separator (so never the agent's state, temp or backup
    directories); it is within the length limit, it is not a reserved path, and
    no other accepted path names the same file. *)
Theorem accepted_path_inside_base s rel abs :
  hasPrefix (store_baseDir s) "/" = true → Abs s rel = inl abs →
  abs = "/" +:+ joinWith "/" (pathComponents (store_baseDir s) ++ split "/" rel) ∧
  Forall (λ p, p ≠ "" ∧ hasPrefix p "." = false ∧ "/"%char ∉ chars p) (split "/" rel) ∧
  Z.of_nat (String.length rel) <= MaxPathBytes ∧
  (abs ∉ store_reserved s) ∧
  ∀ rel', Abs s rel' = inl abs → rel' = rel.
Proof.
  intros Hbase H. destruct (Abs_inl s rel abs Hbase H) as (Hv & Hres & Habs).
  destruct (ValidatePath_None rel Hv) as (_ & Hlen & Hparts).
  split; [done|]. split.
  { apply Forall_forall. intros p Hp. rewrite Forall_forall in Hparts.
    pose proof (split_fields "/" rel) as Hf. rewrite Forall_forall in Hf.
    destruct (Hparts p Hp). by auto. }
  do 2 (split; [done|]). intros rel' H'.
  destruct (Abs_inl s rel' abs Hbase H') as (_ & _ & Habs').
  rewrite Habs in Habs'. apply (f_equal (strDrop 1)) in Habs'.
  change (joinWith "/" (pathComponents (store_baseDir s) ++ split "/" rel)
          = joinWith "/" (pathComponents (store_baseDir s) ++ split "/" rel')) in Habs'.
  assert (Hsplit : ∀ r, split "/" (joinWith "/" (pathComponents (store_baseDir s) ++ split "/" r))
                        = pathComponents (store_baseDir s) ++ split "/" r).
  { intros r. apply split_joinWith.
    - pose proof (split_nonempty "/" r). by destruct (pathComponents _), (split "/" r).
    - apply Forall_app. split; [apply cleanParts_no_slash|apply split_fields]. }
  apply (f_equal (split "/")) in Habs'. rewrite !Hsplit in Habs'.
  apply app_inv_head in Habs'. by rewrite <-(joinWith_split "/" rel'), <-Habs', joinWith_split.
Qed.

(** ** Staged parts *)

Section staging.
Context (st : Store) (digestString : string → string) (io : Syscall → string → bool).

Lemma stage_inl rel digest size fill staged :
  stage st digestString io rel digest size fill = inl staged →
  ∃ content, fill = (content, inl size) ∧ staged = MkStaged rel content ∧ digestString content = digest.
Proof.
  unfold stage. intros H. destruct (Abs st rel); [|done].
  destruct (io CreateTemp rel); [|done]. destruct fill as [content [written|]]; [|done].
  simpl in H. destruct (io CloseTemp rel); [|done]. simpl in H.
  destruct (written =? size) eqn:Hsize; [|done]. simpl in H.
  destruct (bool_decide _) eqn:Hd; [|done]. simpl in H. destruct (negb _ || negb _); [done|].
  injection H as <-. split_bools. apply Z.eqb_eq in Hsize as ->. by exists content.
Qed.

(** A copy that is short of its limit is the whole part. *)
Lemma limitedCopy_short n body :
  isInt64 n → 0 <= n →
  Z.of_nat (String.length (limitedCopy (wrap64 (n + 1)) body)) = n →
  limitedCopy (wrap64 (n + 1)) body = body.
Proof.
  unfold limitedCopy. intros Hn Hpos. rewrite length_strTake. intros Hlen.
  apply strTake_all. unfold isInt64 in Hn.
  destruct (decide (n + 1 < 2 ^ 63)) as [Hlt|Hlt].
  - rewrite wrap64_id in * by (unfold isInt64; lia). lia.
  - exfalso. replace n with (2 ^ 63 - 1) in * by lia.
    change (wrap64 (2 ^ 63 - 1 + 1)) with (- 2 ^ 63) in Hlen. lia.
Qed.

(** What the splice writes, when the patch fits its base. *)
Lemma patchFill_fits rel base body patch replaced :
  let len := Z.of_nat (String.length base) in
  let copied := limitedCopy (wrap64 (replaced + 1)) body in
  len < 2 ^ 63 → 0 <= FilePatch_Offset patch → 0 <= FilePatch_Length patch →
  FilePatch_Offset patch + FilePatch_Length patch <= len →
  let '(content, result) := patchFill io rel base body patch replaced in
  match result with
  | inl written =>
      io ReadPart rel = true ∧ Z.of_nat (String.length copied) = replaced ∧
      content = strTake (Z.to_nat (FilePatch_Offset patch)) base +:+ copied +:+
                strDrop (Z.to_nat (FilePatch_Offset patch + FilePatch_Length patch)) base ∧
      written = wrap64 (len - FilePatch_Length patch + replaced)
  | inr err => err ≠ StagePanic
  end.
Proof.
  intros len copied Hlen Hoff Hlength Hfit. unfold patchFill, sliceTo, sliceFrom. fold len.
  rewrite !(proj2 (Z.leb_le _ _)) by lia. simpl.
  destruct (io ReadPart rel); [|done]. simpl. fold copied.
  destruct (Z.of_nat (String.length copied) =? replaced) eqn:Hw; [|done]. simpl.
  apply Z.eqb_eq in Hw.
  rewrite (wrap64_id (FilePatch_Offset patch + _)) by (unfold isInt64; lia).
  rewrite !(proj2 (Z.leb_le _ _)) by lia. simpl.
  rewrite (wrap64_id (len - _)) by (unfold isInt64; lia). by rewrite Hw.
Qed.

(** a part delivered as a splice is only ever staged as the file the
    manifest describes: the base on disk was the one the patch names, the
    content is that base with the named range replaced by the whole part, and
    it has the manifest's digest and, as an [int64], its size. No offset, length or size, however
    large, makes the agent slice out of range. *)
Theorem staged_patch_exact d rel body patch digest size :
  isInt64 size → isInt64 (FilePatch_BaseSize patch) →
  isInt64 (FilePatch_Offset patch) → isInt64 (FilePatch_Length patch) →
  match StagePatch st digestString io d rel body patch digest size with
  | inl staged =>
      ∃ base, disk_tree d !! rel ≫= readNode = Some base ∧
        Z.of_nat (String.length base) = FilePatch_BaseSize patch ∧
        digestString base = FilePatch_BaseDigest patch ∧
        staged = MkStaged rel
          (strTake (Z.to_nat (FilePatch_Offset patch)) base +:+ body +:+
           strDrop (Z.to_nat (FilePatch_Offset patch + FilePatch_Length patch)) base) ∧
        digestString (Staged_Content staged) = digest ∧
        wrap64 (Z.of_nat (String.length (Staged_Content staged))) = size
  | inr err => err ≠ StagePanic
  end.
Proof.
  intros Hsize Hbs Ho Hl. unfold StagePatch. destruct (Abs st rel); [|done].
  destruct (disk_tree d !! rel ≫= readNode) as [base|] eqn:Hbase; [|done]. cbv zeta.
  set (len := Z.of_nat (String.length base)).
  destruct (io ReadFile rel); [|done]. simpl.
  destruct (len =? FilePatch_BaseSize patch) eqn:Hlen; [|done]. simpl.
  destruct (bool_decide (digestString base = _)) eqn:Hd; [|done]. simpl.
  set (replaced := wrap64 _).
  destruct (_ || _) eqn:Hguard; [done|]. split_bools.
  apply Z.eqb_eq in Hlen. unfold isInt64 in *.
  assert (Hdiff : wrap64 (len - FilePatch_Offset patch) = len - FilePatch_Offset patch)
    by (apply wrap64_id; unfold isInt64; lia).
  rewrite Hdiff in *.
  pose proof (patchFill_fits rel base body patch replaced) as Hfill. cbv zeta in Hfill. fold len in Hfill.
  destruct (patchFill io rel base body patch replaced) as [content result].
  specialize (Hfill ltac:(lia) ltac:(lia) ltac:(lia) ltac:(lia)).
  destruct (stage _ _ _ _ _ _ _) as [staged|err] eqn:Hstage.
  - apply stage_inl in Hstage as (content' & [= <- ->] & -> & Hdigest).
    destruct Hfill as (_ & Hcopied & -> & Hwritten).
    assert (Hrep : isInt64 replaced) by apply wrap64_range.
    pose proof (limitedCopy_short _ _ Hrep ltac:(lia) Hcopied) as Hall. rewrite Hall in *.
    exists base. repeat (split; [done|]). rewrite Hwritten. f_equal. cbn [Staged_Content].
    rewrite !length_append, length_strTake, length_strDrop. fold len. lia.
  - intros ->. unfold stage in Hstage. destruct (Abs st rel); [|done].
    destruct (io CreateTemp rel); [|done]. simpl in Hstage.
    destruct result as [w|e]; [|injection Hstage as ->; done].
    repeat (case_match; try done).
Qed.
End staging.

(** ** Loops *)

(** With unique keys, the last element at a key is the one at that key. *)
Lemma last_filter_unique {A} (key : A → string) k (l : list A) x :
  NoDup (key <$> l) → x ∈ l → key x = k → last (filter (λ y, key y = k) l) = Some x.
Proof.
  intros Hnd Hx Hk. destruct (last (filter _ l)) as [y|] eqn:Hlast.
  - apply last_Some_elem_of, list_elem_of_filter in Hlast as [Hy Hin].
    apply list_elem_of_lookup in Hx as [i Hi], Hin as [j Hj].
    assert (i = j) as ->; [|congruence].
    apply (NoDup_lookup (key <$> l) i j k); [done|..]; rewrite list_lookup_fmap, ?Hi, ?Hj; simpl; by f_equal.
  - apply last_None in Hlast. assert (x ∈ filter (λ y, key y = k) l) as H by (by apply list_elem_of_filter).
    rewrite Hlast in H. by apply not_elem_of_nil in H.
Qed.

(** What a loop establishes: [I] holds throughout, and after a success every
    element is done. *)
Lemma untilError_done {A B} (I : Disk → Prop) (R : A → Disk → Prop) (T : B → Disk → Prop)
    (f : A → Disk → Disk * bool) l d d' ok :
  (∀ x d d' ok, x ∈ l → I d → f x d = (d', ok) →
     I d' ∧ (ok = true → R x d') ∧ (∀ y, R y d → R y d') ∧ (∀ y, T y d → T y d')) →
  I d → untilError f l d = (d', ok) →
  I d' ∧ (ok = true → ∀ x, x ∈ l → R x d') ∧ (∀ y, R y d → R y d') ∧ (∀ y, T y d → T y d').
Proof.
  revert d. induction l as [|x l IH]; intros d Hf HI; simpl.
  - intros [= <- <-]. split_and!; [done| |done|done]. intros _ x Hx. by apply not_elem_of_nil in Hx.
  - destruct (f x d) as [d1 ok1] eqn:E.
    destruct (Hf x d d1 ok1 ltac:(apply list_elem_of_here) HI E) as (HI1 & HR1 & Hmono & HT).
    destruct ok1; [|intros [= <- <-]; done].
    intros H. destruct (IH d1) as (HI' & HR' & Hmono' & HT'); [|done..|].
    { intros y e e' ok' Hy. apply Hf. by apply list_elem_of_further. }
    split_and!; [done| |by auto..]. intros -> y [->|Hy]%elem_of_cons; [by auto|by apply HR'].
Qed.

Lemma joinErrors_inv {A} (I : Disk → Prop) (f : A → Disk → Disk * bool) l d :
  (∀ x d, x ∈ l → I d → I (f x d).1) → I d → I (joinErrors f l d).1.
Proof.
  revert d. induction l as [|x l IH]; intros d Hf HI; [done|]. simpl.
  pose proof (Hf x d ltac:(apply list_elem_of_here) HI) as H1. destruct (f x d) as [d1 ok1].
  assert (I (joinErrors f l d1).1) as H2.
  { apply IH; [|done]. intros y e Hy. apply Hf. by apply list_elem_of_further. }
  by destruct (joinErrors f l d1).
Qed.

(** ** The journal *)

Definition journalPaths (j : Journal) : list string := JEntry_Path <$> j.

Lemma journalHas_spec j rel : journalHas j rel = true ↔ rel ∈ journalPaths j.
Proof.
  unfold journalHas, journalPaths. rewrite existsb_exists, list_elem_of_fmap. split.
  - intros (e & He%list_elem_of_In & H%bool_decide_eq_true). by exists e.
  - intros (e & -> & He). exists e. split; [by apply list_elem_of_In|by apply bool_decide_eq_true_2].
Qed.

Lemma journalHas_false j rel : journalHas j rel = false ↔ rel ∉ journalPaths j.
Proof. rewrite <-journalHas_spec. by destruct (journalHas j rel). Qed.

Lemma journalPaths_add j e :
  journalHas j (JEntry_Path e) = false → journalAdd j e = j ++ [e].
Proof. unfold journalAdd. by intros ->. Qed.

Section journal.
Context (st : Store) (digestString : string → string).
(** A formatted digest is a file name. *)
Context (digest_no_slash : ∀ s, "/"%char ∉ chars (digestString s)).

Abbreviation link := (backupLink st digestString).

Lemma backupName_plain rel i :
  ("/"%char ∉ chars (backupName digestString rel i)) ∧ plainPart (backupName digestString rel i) = true.
Proof.
  unfold backupName. split.
  - rewrite !chars_append, !not_elem_of_app. split_and!; [by apply itoa_no_char|set_solver|done|set_solver].
  - unfold plainPart. apply negb_true_iff. rewrite !orb_false_iff.
    assert (Hdash : "-"%char ∈ chars (itoa (Z.of_nat i) +:+ "-" +:+ digestString rel +:+ ".bak")).
    { rewrite !chars_append. set_solver. }
    repeat split; apply bool_decide_eq_false_2; intros Heq; rewrite Heq in Hdash; set_solver.
Qed.

(** Two backups of one journal never share a name. *)
Lemma backupLink_inj rel abs i rel' abs' j : link rel abs i = link rel' abs' j → i = j.
Proof.
  assert (Hlast : ∀ rel abs i, last (split "/" (link rel abs i)) = Some (backupName digestString rel i)).
  { clear - digest_no_slash. intros rel abs i. destruct (backupName_plain rel i) as [Hslash Hplain].
    unfold backupLink, pathJoin. set (name := backupName _ _ _) in *.
    assert (Hne : name ≠ "") by (intros E; rewrite E in Hplain; done).
    rewrite !filter_cons, filter_nil, (decide_True (P := name ≠ "")) by done.
    rewrite (decide_True (P := LKGDirName ≠ "")) by done.
    case_decide as Hm.
    - eapply (pathClean_last _ (split "/" (mountFor st abs) ++ [LKGDirName])); [|done].
      rewrite joinWith_cons. change ("/" +:+ joinWith "/" [LKGDirName; name])
        with (String "/" (joinWith "/" [LKGDirName; name])).
      rewrite split_append, <-app_assoc. f_equal. apply (split_joinWith "/" [LKGDirName; name]); [done|].
      repeat constructor; [|done]. vm_compute. set_solver.
    - eapply (pathClean_last _ [LKGDirName]); [|done].
      apply (split_joinWith "/" [LKGDirName; name]); [done|].
      repeat constructor; [|done]. vm_compute. set_solver. }
  intros Heq. pose proof (Hlast rel abs i) as H1. rewrite Heq, Hlast in H1. injection H1 as Hname.
  unfold backupName in Hname.
  apply (f_equal (cut "-")) in Hname.
  change (?a +:+ "-" +:+ ?b) with (a +:+ String "-" b) in Hname.
  rewrite !cut_append in Hname by (by apply itoa_no_char). by apply itoa_nat_inj; congruence.
Qed.

(** What a journal entry promises about the last known good set. *)
Definition entry_ok (lkg : gmap string Node) (d : Disk) (i : nat) (e : JEntry) : Prop :=
  ∃ abs, Abs st (JEntry_Path e) = inl abs ∧
    match JEntry_Kind e with
    | KindCreated => lkg !! JEntry_Path e = None
    | KindModified | KindDeleted =>
        JEntry_Backup e = link (JEntry_Path e) abs i ∧
        ∃ node, lkg !! JEntry_Path e = Some node ∧ disk_backups d !! JEntry_Backup e = Some node
    end.

(** The journal describes every difference between the tree and the last known
    good set [lkg]. *)
Record journal_ok (lkg : gmap string Node) (d : Disk) : Prop := {
  jo_nodup : NoDup (journalPaths (disk_journal d));
  jo_outside : ∀ rel, rel ∉ journalPaths (disk_journal d) → disk_tree d !! rel = lkg !! rel;
  jo_entry : ∀ i e, disk_journal d !! i = Some e → entry_ok lkg d i e;
}.

(** A path that may change: journalled, or absent. *)
Definition tracked (rel : string) (d : Disk) : Prop :=
  rel ∈ journalPaths (disk_journal d) ∨ disk_tree d !! rel = None.

Lemma setTree_ok lkg d rel t :
  journal_ok lkg d → rel ∈ journalPaths (disk_journal d) →
  (∀ rel', rel' ≠ rel → t !! rel' = disk_tree d !! rel') →
  journal_ok lkg (setTree d t).
Proof.
  intros [Hnd Hout Hent] Hrel Ht. split; [done| |done]. simpl. intros rel' Hn.
  rewrite Ht; [by apply Hout|]. by intros ->.
Qed.

(** Dropping a leftover at the next backup name leaves every live backup. *)
Lemma dropLeftover_ok lkg d rel abs :
  journal_ok lkg d →
  journal_ok lkg (MkDisk (disk_tree d)
    (delete (link rel abs (length (disk_journal d))) (disk_backups d)) (disk_journal d)).
Proof.
  intros [Hnd Hout Hent]. split; [done|done|]. intros i e He. simpl in He.
  destruct (Hent i e He) as (abs' & Habs & Hk). exists abs'. split; [done|].
  apply lookup_lt_Some in He as Hi.
  destruct (JEntry_Kind e); [|done|]; destruct Hk as (Hb & node & Hn & Hbk);
    (split; [done|]); exists node; (split; [done|]); simpl;
    (rewrite lookup_delete_ne; [done|]); rewrite Hb; intros Heq%backupLink_inj; lia.
Qed.

Lemma record_ok lkg d rel e node abs :
  journal_ok lkg d → rel ∉ journalPaths (disk_journal d) → Abs st rel = inl abs →
  disk_tree d !! rel = node →
  JEntry_Path e = rel →
  match node with
  | None => JEntry_Kind e = KindCreated
  | Some n => JEntry_Kind e ≠ KindCreated ∧
              JEntry_Backup e = link rel abs (length (disk_journal d)) ∧
              disk_backups d !! JEntry_Backup e = Some n
  end →
  journal_ok lkg (record d e) ∧ rel ∈ journalPaths (disk_journal (record d e)).
Proof.
  intros [Hnd Hout Hent] Hrel Habs Hnode He Hk. unfold record. cbn [disk_journal].
  rewrite journalPaths_add by (by rewrite He; apply journalHas_false).
  assert (Hp : journalPaths (disk_journal d ++ [e]) = journalPaths (disk_journal d) ++ [rel]).
  { unfold journalPaths. rewrite fmap_app. simpl. by rewrite He. }
  split; [|rewrite Hp; set_solver]. split; cbn [disk_journal disk_tree]; rewrite ?Hp.
  - apply NoDup_app. split_and!; [done| |apply NoDup_singleton]. set_solver.
  - intros rel' Hn. apply Hout. set_solver.
  - intros i e' [[_ Hi]|[-> <-]]%lookup_snoc_Some; [by apply Hent|].
    exists abs. rewrite He. split; [done|]. rewrite <-(Hout rel Hrel), Hnode.
    destruct node as [n|]; [|by rewrite Hk].
    destruct Hk as (Hkind & Hb & Hn). destruct (JEntry_Kind e) eqn:E; [|done|]; by eauto.
Qed.

(** Steps that leave the tree alone and keep every journalled path. *)
Definition backed (lkg : gmap string Node) (d d' : Disk) : Prop :=
  journal_ok lkg d' ∧ disk_tree d' = disk_tree d ∧
  (∀ rel, rel ∈ journalPaths (disk_journal d) → rel ∈ journalPaths (disk_journal d')).

Lemma linkAside_ok io lkg d d' rel abs node kind ok :
  journal_ok lkg d → rel ∉ journalPaths (disk_journal d) → Abs st rel = inl abs →
  disk_tree d !! rel = Some node → kind ≠ KindCreated →
  match linkAside st digestString io rel abs d with
  | (d', Some l) => (record d' (MkJEntry rel kind l), true)
  | (d', None) => (d', false)
  end = (d', ok) →
  backed lkg d d' ∧ (ok = true → rel ∈ journalPaths (disk_journal d')).
Proof.
  intros Hok Hrel Habs Hnode Hkind. unfold linkAside. cbv zeta.
  set (l := link rel abs (length (disk_journal d))).
  destruct (io RemoveBackup l); simpl; [|intros [= <- <-]; done].
  rewrite Hnode. pose proof (dropLeftover_ok lkg d rel abs Hok) as Hdrop. fold l in Hdrop.
  destruct (io LinkBackup rel); [|intros [= <- <-]; done].
  set (d2 := MkDisk _ (<[l := node]> _) _). intros [= <- <-].
  assert (Hok2 : journal_ok lkg d2).
  { destruct Hdrop as [Hnd Hout Hent]. split; [done|done|]. intros i e He.
    destruct (Hent i e He) as (abs' & Habs' & Hk). exists abs'. split; [done|].
    destruct (JEntry_Kind e); [|done|]; destruct Hk as (Hb & n & Hn & Hbk);
      (split; [done|]); exists n; (split; [done|]); simpl in *;
      (rewrite lookup_insert_ne; [done|]); intros Heq; by rewrite Heq, lookup_delete_eq in Hbk. }
  destruct (record_ok lkg d2 rel (MkJEntry rel kind l) (Some node) abs) as [Hr Hin]; try done.
  { split_and!; [done|done|]. simpl. by rewrite lookup_insert_eq. }
  split; [|done]. split_and!; [done|done|]. intros r Hr'.
  unfold record. cbn [disk_journal d2]. rewrite journalPaths_add by (by apply journalHas_false).
  unfold journalPaths. rewrite fmap_app. apply elem_of_app. by left.
Qed.

Lemma backup_ok io lkg d d' rel ok :
  journal_ok lkg d → backup st digestString io rel d = (d', ok) →
  backed lkg d d' ∧ (ok = true → rel ∈ journalPaths (disk_journal d')).
Proof.
  intros Hok. unfold backup. destruct (journalHas _ _) eqn:Hhas.
  { intros [= <- <-]. split; [done|]. by apply journalHas_spec in Hhas. }
  apply journalHas_false in Hhas. destruct (Abs st rel) as [abs|] eqn:Habs; [|by intros [= <- <-]].
  destruct (io Lstat rel); simpl; [|by intros [= <- <-]].
  destruct (disk_tree d !! rel) as [node|] eqn:Hnode; [by eapply linkAside_ok|].
  intros [= <- <-].
  destruct (record_ok lkg d rel (MkJEntry rel KindCreated "") None abs) as [Hr Hin]; try done.
  split; [|done]. split_and!; [done|done|]. intros r Hr'. unfold record. cbn [disk_journal].
  rewrite journalPaths_add by (by apply journalHas_false).
  unfold journalPaths. rewrite fmap_app. apply elem_of_app. by left.
Qed.

Lemma backupDeleted_ok io lkg d d' rel ok :
  journal_ok lkg d → backupDeleted st digestString io rel d = (d', ok) →
  backed lkg d d' ∧ (ok = true → tracked rel d').
Proof.
  intros Hok. unfold backupDeleted, tracked. destruct (journalHas _ _) eqn:Hhas.
  { intros [= <- <-]. split; [done|]. apply journalHas_spec in Hhas. by left. }
  apply journalHas_false in Hhas. destruct (Abs st rel) as [abs|] eqn:Habs; [|by intros [= <- <-]].
  destruct (io Lstat rel); simpl; [|by intros [= <- <-]].
  destruct (disk_tree d !! rel) as [node|] eqn:Hnode; [|intros [= <- <-]; split; [done|by right]].
  intros H. destruct (linkAside_ok io lkg d d' rel abs node KindDeleted ok) as [Hb Hin]; try done. split; [done|]. intros Hok'. left. by apply Hin.
Qed.

Lemma backed_tracked lkg d d' rel : backed lkg d d' → tracked rel d → tracked rel d'.
Proof. intros (_ & Ht & Hj) [H|H]; [left; by apply Hj|right; by rewrite Ht]. Qed.

Lemma Backup_ok io lkg t d d' ok :
  journal_ok lkg d → Backup st digestString io t d = (d', ok) →
  journal_ok lkg d' ∧
  (ok = true → (∀ s, s ∈ tx_installs t → Staged_Rel s ∈ journalPaths (disk_journal d')) ∧
               (∀ rel, rel ∈ tx_deletes t → tracked rel d')).
Proof.
  intros Hok. unfold Backup. destruct (MaxFiles <? Changes t); [by intros [= <- <-]|].
  destruct (untilError _ (tx_installs t) d) as [d1 ok1] eqn:E1.
  edestruct (untilError_done (B := string) (journal_ok lkg)
    (λ s d, Staged_Rel s ∈ journalPaths (disk_journal d)) (λ _ _, True)) as (Hok1 & Hin1 & _);
    [|exact Hok|exact E1|].
  { intros x e e' ok' _ He Hb. destruct (backup_ok io lkg e e' _ ok' He Hb) as [(? & ? & ?) ?]. by auto. }
  destruct ok1; [|intros [= <- <-]; done]. intros E2.
  edestruct (untilError_done (journal_ok lkg) tracked
    (λ s d, Staged_Rel s ∈ journalPaths (disk_journal d))) as (Hok2 & Hin2 & _ & Hmono);
    [|exact Hok1|exact E2|].
  { intros x e e' ok' _ He Hb. destruct (backupDeleted_ok io lkg e e' _ ok' He Hb) as [Hbk ?].
    pose proof (λ r, backed_tracked lkg e e' r Hbk). destruct Hbk as (? & ? & ?). by auto. }
  by auto.
Qed.

(** Backing up changes no managed path. *)
Lemma linkAside_tree io rel abs d : disk_tree (linkAside st digestString io rel abs d).1 = disk_tree d.
Proof. unfold linkAside. by repeat case_match. Qed.

Ltac by_link :=
  match goal with H : linkAside _ _ ?io ?rel ?abs ?d = _ |- _ =>
    pose proof (linkAside_tree io rel abs d) as Ht; rewrite H in Ht; exact Ht end.

Lemma backup_tree io rel d : disk_tree (backup st digestString io rel d).1 = disk_tree d.
Proof.
  unfold backup. repeat case_match; try done; simpl.
  all: by_link.
Qed.

Lemma backupDeleted_tree io rel d : disk_tree (backupDeleted st digestString io rel d).1 = disk_tree d.
Proof.
  unfold backupDeleted. repeat case_match; try done; simpl.
  all: by_link.
Qed.

Lemma untilError_tree {A} (f : A → Disk → Disk * bool) l d :
  (∀ x d, disk_tree (f x d).1 = disk_tree d) → disk_tree (untilError f l d).1 = disk_tree d.
Proof.
  intros Hf. revert d. induction l as [|x l IH]; intros d; simpl; [done|].
  specialize (Hf x d). destruct (f x d) as [d1 []]; [by rewrite IH|done].
Qed.

Lemma Backup_tree io t d : disk_tree (Backup st digestString io t d).1 = disk_tree d.
Proof.
  unfold Backup. case_match; [done|].
  pose proof (untilError_tree (λ s, backup st digestString io (Staged_Rel s)) (tx_installs t) d) as H1.
  destruct (untilError _ _ d) as [d1 []]; simpl in H1; [|apply H1; intros; apply backup_tree].
  rewrite (untilError_tree _ _ d1) by (intros; apply backupDeleted_tree).
  apply H1. intros. apply backup_tree.
Qed.

Lemma setTree_tracked d rel t r :
  rel ∈ journalPaths (disk_journal d) → (∀ rel', rel' ≠ rel → t !! rel' = disk_tree d !! rel') →
  tracked r d → tracked r (setTree d t).
Proof.
  intros Hrel Ht [H|H]; [by left|]. destruct (decide (r = rel)) as [->|Hne]; [by left|].
  right. simpl. by rewrite Ht.
Qed.

(** A step of the second phase: the journal is not touched. *)
Definition wrote (lkg : gmap string Node) (d d' : Disk) : Prop :=
  journal_ok lkg d' ∧ disk_journal d' = disk_journal d ∧ (∀ r, tracked r d → tracked r d').

Lemma wrote_refl lkg d : journal_ok lkg d → wrote lkg d d.
Proof. done. Qed.

Lemma wrote_set lkg d rel t :
  journal_ok lkg d → rel ∈ journalPaths (disk_journal d) →
  (∀ rel', rel' ≠ rel → t !! rel' = disk_tree d !! rel') → wrote lkg d (setTree d t).
Proof.
  intros Hok Hrel Ht. split_and!; [by eapply setTree_ok|done|]. intros r. by eapply setTree_tracked.
Qed.

Lemma install_ok io cross lkg s d :
  journal_ok lkg d → Staged_Rel s ∈ journalPaths (disk_journal d) →
  wrote lkg d (install st io cross s d).1.
Proof.
  intros Hok Hin. unfold install, copyOnto. destruct (Abs st _); [|done].
  destruct (refuseNonRegular io _ d); [|done]. destruct (io MkdirAll _); [|done]. simpl.
  repeat case_match; simplify_eq/=; try done; (eapply wrote_set; [done..|]);
    intros r Hr; by rewrite lookup_insert_ne.
Qed.

Lemma unlink_ok io lkg rel d :
  journal_ok lkg d → tracked rel d → wrote lkg d (unlink st io rel d).1.
Proof.
  intros Hok Htr. unfold unlink. destruct (Abs st _); [|done].
  destruct (refuseNonRegular io _ d); [|done]. destruct (io RemovePath _); [|done]. simpl.
  destruct Htr as [Hin|Hnone].
  - eapply wrote_set; [done..|]. intros r Hr. by rewrite lookup_delete_ne.
  - rewrite delete_id by done. by destruct d.
Qed.

Lemma Write_ok io cross lkg t d :
  journal_ok lkg d →
  (∀ s, s ∈ tx_installs t → Staged_Rel s ∈ journalPaths (disk_journal d)) →
  (∀ rel, rel ∈ tx_deletes t → tracked rel d) →
  journal_ok lkg (Write_ st io cross t d).1.
Proof.
  intros Hok Hins Hdel. unfold Write_. cbv zeta.
  destruct (untilError _ _ d) as [d1 ok1] eqn:E1.
  edestruct (untilError_done (A := Staged) (B := unit) (wrote lkg d) (λ _ _, True) (λ _ _, True)) as (Hw1 & _);
    [|exact (wrote_refl lkg d Hok)|exact E1|].
  { intros x e e' ok' Hx (He1 & He2 & He3) Hi. apply list_elem_of_filter in Hx as [_ Hx].
    destruct (install_ok io cross lkg x e He1) as (Hw1 & Hw2 & Hw3); [rewrite He2; by apply Hins|].
    rewrite Hi in *. simpl in *. split_and!; try done. split_and!; [done|congruence|by auto]. }
  destruct ok1; [|by destruct Hw1].
  set (config := last _). set (r2 := match config with Some _ => _ | None => _ end).
  assert (Hw2 : wrote lkg d r2.1).
  { unfold r2. destruct config as [c|] eqn:Hc; [|done]. unfold config in Hc.
    apply last_Some_elem_of, list_elem_of_filter in Hc as [_ Hc]. destruct Hw1 as (H1 & H2 & H3).
    destruct (install_ok io cross lkg c d1 H1) as (Hi1 & Hi2 & Hi3); [rewrite H2; by apply Hins|].
    split_and!; [done|congruence|by auto]. }
  destruct r2 as [d2 ok2]. simpl in Hw2. destruct ok2; [|by destruct Hw2].
  apply (joinErrors_inv (λ d', wrote lkg d d')); [|done].
  intros rel e Hrel (H1 & H2 & H3).
  destruct (unlink_ok io lkg rel e H1) as (Hi1 & Hi2 & Hi3); [by apply H3, Hdel|].
  split_and!; [done|congruence|by auto].
Qed.

(** ** Restoring *)

(** A restored entry has its last known good version back; a failed one changes
    nothing, and an entry whose calls succeed is restored. *)
Lemma restoreEntry_ok io lkg e d :
  journal_ok lkg d → e ∈ disk_journal d →
  (∃ t, restoreEntry st io e d = (setTree d t, true) ∧ t !! JEntry_Path e = lkg !! JEntry_Path e ∧
        ∀ r, r ≠ JEntry_Path e → t !! r = disk_tree d !! r) ∨
  (restoreEntry st io e d = (d, false) ∧ ∃ c, io c (JEntry_Path e) = false).
Proof.
  intros Hok He. apply list_elem_of_lookup in He as [i Hi].
  destruct (jo_entry _ _ Hok i e Hi) as (abs & Habs & Hk). unfold restoreEntry. rewrite Habs.
  case_bool_decide as Hkind.
  - rewrite Hkind in Hk. destruct (io RemovePath (JEntry_Path e)) eqn:Hio; [left|right; by eauto].
    eexists. split; [done|]. rewrite lookup_delete_eq. split; [done|].
    intros r Hr. by rewrite lookup_delete_ne.
  - assert (Hb : ∃ node, lkg !! JEntry_Path e = Some node ∧ disk_backups d !! JEntry_Backup e = Some node)
      by (destruct (JEntry_Kind e); naive_solver).
    destruct Hb as (node & Hn & Hb). rewrite Hb.
    destruct (io MkdirAll (JEntry_Path e)) eqn:?; [|right; by eauto].
    destruct (io RemoveStaging (JEntry_Path e)) eqn:?; [|right; by eauto].
    destruct (io LinkStaging (JEntry_Path e)) eqn:?; [|right; by eauto].
    destruct (io RenameStaging (JEntry_Path e)) eqn:?; [|right; by eauto].
    left. eexists. split; [done|]. rewrite lookup_insert_eq. split; [done|].
    intros r Hr. by rewrite lookup_insert_ne.
Qed.

(** A pass over entries of the journal. *)
Lemma restoreAll_ok io lkg l d :
  journal_ok lkg d → (∀ e, e ∈ l → e ∈ disk_journal d) →
  let '(d', ok) := joinErrors (restoreEntry st io) l d in
  journal_ok lkg d' ∧ disk_journal d' = disk_journal d ∧
  (∀ r, disk_tree d' !! r = disk_tree d !! r ∨ disk_tree d' !! r = lkg !! r) ∧
  (ok = true → ∀ e, e ∈ l → disk_tree d' !! JEntry_Path e = lkg !! JEntry_Path e) ∧
  ((∀ c r, io c r = true) → ok = true).
Proof.
  revert d. induction l as [|e l IH]; intros d Hok Hl; simpl.
  { split_and!; try done; [by left|]. intros _ e He. by apply not_elem_of_nil in He. }
  assert (He : e ∈ disk_journal d) by (apply Hl, list_elem_of_here).
  destruct (restoreEntry_ok io lkg e d Hok He) as [(t & Ht & Hlkg & Hother)|(Hf & c & Hc)].
  - rewrite Ht.
    assert (Hok1 : journal_ok lkg (setTree d t)).
    { eapply (setTree_ok lkg d (JEntry_Path e)); [done| |done].
      unfold journalPaths. apply list_elem_of_fmap. by exists e. }
    specialize (IH _ Hok1 ltac:(intros x Hx; apply Hl; by apply list_elem_of_further)).
    destruct (joinErrors _ l _) as [d2 ok2]. destruct IH as (H1 & H2 & H3 & H4 & H5). simpl in *.
    split_and!; [done|done| | |done].
    + intros r. destruct (H3 r) as [->|Hr]; [|by right].
      destruct (decide (r = JEntry_Path e)) as [->|Hne]; [by right|left; by apply Hother].
    + intros Htrue x [->|Hx]%elem_of_cons; [|by apply H4].
      destruct (H3 (JEntry_Path e)) as [->|Hr]; done.
  - rewrite Hf.
    specialize (IH _ Hok ltac:(intros x Hx; apply Hl; by apply list_elem_of_further)).
    destruct (joinErrors _ l _) as [d2 ok2]. destruct IH as (H1 & H2 & H3 & H4 & H5). simpl in *.
    split_and!; [done|done|done|done|]. intros Hall. by rewrite Hall in Hc.
Qed.

(** Every entry is restored: the config's, journalled once, is deferred. *)
Lemma Restore_entries configRel (j : Journal) e :
  NoDup (journalPaths j) →
  e ∈ filter (λ e, JEntry_Path e ≠ configRel) j
      ++ option_list (last (filter (λ e, JEntry_Path e = configRel) j)) ↔ e ∈ j.
Proof.
  intros Hnd. rewrite elem_of_app, list_elem_of_filter. split.
  - intros [[_ He]|He]; [done|]. destruct (last _) as [c|] eqn:Hc; [|by apply not_elem_of_nil in He].
    apply list_elem_of_singleton in He as ->.
    apply last_Some_elem_of, list_elem_of_filter in Hc. by destruct Hc.
  - intros He. destruct (decide (JEntry_Path e = configRel)) as [Hc|Hc]; [right|by left].
    unfold Journal in *. rewrite (last_filter_unique JEntry_Path configRel j e) by done.
    by apply list_elem_of_singleton.
Qed.

Lemma Restore_ok io lkg configRel d :
  journal_ok lkg d →
  let '(d', ok) := Restore st io configRel d in
  journal_ok lkg d' ∧ (ok = true → disk_tree d' = lkg) ∧ ((∀ c r, io c r = true) → ok = true).
Proof.
  intros Hok. unfold Restore. cbv zeta.
  pose proof (λ e, Restore_entries configRel (disk_journal d) e (jo_nodup _ _ Hok)) as Hin.
  pose proof (restoreAll_ok io lkg _ d Hok (λ e, proj1 (Hin e))) as H.
  destruct (joinErrors _ _ d) as [d' ok]. destruct H as (H1 & H2 & H3 & H4 & H5).
  split_and!; [done| |done]. intros Htrue. apply map_eq. intros r.
  destruct (decide (r ∈ journalPaths (disk_journal d'))) as [Hr|Hr]; [|by apply (jo_outside _ _ H1)].
  rewrite H2 in Hr. apply list_elem_of_fmap in Hr as (e & -> & He).
  apply H4; [done|]. by apply Hin.
Qed.

(** ** Histories *)

(** What the agent may do to the disk while the tree differs from the last known
    good set: a transaction, interrupted anywhere, or a restore that fails
    anywhere. Each has its own failing system calls. *)
Inductive file_step : Disk → Disk → Prop :=
  | step_refused io t d d' :
      Backup st digestString io t d = (d', false) → file_step d d'
  | step_written io io' cross t d d1 d' ok :
      Backup st digestString io t d = (d1, true) →
      Write_ st io' cross t d1 = (d', ok) → file_step d d'
  | step_restored io configRel d d' ok :
      Restore st io configRel d = (d', ok) → file_step d d'.

Lemma file_step_ok lkg d d' : file_step d d' → journal_ok lkg d → journal_ok lkg d'.
Proof.
  intros Hstep Hok. destruct Hstep as [io t d d' Hb|io io' cross t d d1 d' ok Hb Hw|io c d d' ok Hr].
  - by destruct (Backup_ok io lkg t d d' false Hok Hb).
  - destruct (Backup_ok io lkg t d d1 true Hok Hb) as (Hok1 & Hall).
    destruct (Hall eq_refl) as [Hi Hd].
    pose proof (Write_ok io' cross lkg t d1 Hok1 Hi Hd) as H. by rewrite Hw in H.
  - pose proof (Restore_ok io lkg c d Hok) as H. rewrite Hr in H. by destruct H.
Qed.

Lemma file_steps_ok lkg d d' : rtc file_step d d' → journal_ok lkg d → journal_ok lkg d'.
Proof. induction 1 as [|d d1 d' H _ IH]; [done|]. intros Hok. by eapply IH, file_step_ok. Qed.

Lemma empty_journal_ok d : disk_journal d = [] → journal_ok (disk_tree d) d.
Proof.
  intros Hj. split; rewrite ?Hj; [constructor|done|]. intros i e He. by destruct i.
Qed.

(** C10: rollback is exact. From a tree whose journal is empty (a last known good
    set), after any sequence of transactions and restores, each with any of its
    system calls failing, a restore that reports success leaves exactly the
    last known good tree, and a restore whose calls all succeed does report
    success. *)
Theorem rollback_restores_lkg d0 d io configRel :
  journalEmpty (disk_journal d0) = true → rtc file_step d0 d →
  let '(d', ok) := Restore st io configRel d in
  (ok = true → disk_tree d' = disk_tree d0) ∧ ((∀ c r, io c r = true) → ok = true).
Proof.
  intros Hj Hsteps. unfold journalEmpty in Hj. apply bool_decide_eq_true, nil_length_inv in Hj.
  pose proof (file_steps_ok _ _ _ Hsteps (empty_journal_ok d0 Hj)) as Hok.
  pose proof (Restore_ok io _ configRel d Hok) as H. destruct (Restore st io configRel d). by destruct H.
Qed.
End journal.

(** ** What a transaction leaves *)

Section write.
Context (st : Store) (io : Syscall → string → bool) (cross : string → bool).

Lemma install_tree s d d' ok :
  install st io cross s d = (d', ok) →
  (∀ r, r ≠ Staged_Rel s → disk_tree d' !! r = disk_tree d !! r) ∧
  (ok = true → disk_tree d' !! Staged_Rel s = Some (RegularFile (Staged_Content s))).
Proof.
  unfold install, copyOnto. intros H. repeat case_match; simplify_eq/=; split;
    intros; rewrite ?lookup_insert_ne, ?lookup_insert_eq by done; done.
Qed.

Lemma installs_tree l d d' ok :
  NoDup (Staged_Rel <$> l) → untilError (install st io cross) l d = (d', ok) →
  (∀ r, r ∉ Staged_Rel <$> l → disk_tree d' !! r = disk_tree d !! r) ∧
  (ok = true → ∀ s, s ∈ l → disk_tree d' !! Staged_Rel s = Some (RegularFile (Staged_Content s))).
Proof.
  revert d. induction l as [|s l IH]; intros d Hnd; simpl.
  { intros [= <- <-]. split; [done|]. intros _ s Hs. by apply not_elem_of_nil in Hs. }
  apply NoDup_cons in Hnd as [Hs Hnd].
  destruct (install st io cross s d) as [d1 ok1] eqn:E1.
  destruct (install_tree s d d1 ok1 E1) as [Hother Hself].
  destruct ok1.
  - intros E2. destruct (IH d1 Hnd E2) as [H1 H2]. split.
    + intros r [Hr1 Hr2]%not_elem_of_cons. rewrite H1 by done. by apply Hother.
    + intros -> x [->|Hx]%elem_of_cons; [rewrite H1 by done; by apply Hself|by apply H2].
  - intros [= <- <-]. split; [|done]. intros r [Hr1 _]%not_elem_of_cons. by apply Hother.
Qed.

Lemma unlinks_tree l d d' ok :
  joinErrors (unlink st io) l d = (d', ok) →
  (∀ r, r ∉ l → disk_tree d' !! r = disk_tree d !! r) ∧
  (∀ r, disk_tree d !! r = None → disk_tree d' !! r = None) ∧
  (ok = true → ∀ r, r ∈ l → disk_tree d' !! r = None).
Proof.
  revert d ok. induction l as [|r l IH]; intros d ok; simpl.
  { intros [= <- <-]. split_and!; [done|done|]. intros _ r Hr. by apply not_elem_of_nil in Hr. }
  destruct (unlink st io r d) as [d1 ok1] eqn:E1.
  destruct (joinErrors _ l d1) as [d2 ok2] eqn:E2. intros [= <- <-].
  destruct (IH d1 ok2 E2) as (H1 & H2 & H3).
  assert (Hun : (∀ x, x ≠ r → disk_tree d1 !! x = disk_tree d !! x) ∧
                (disk_tree d !! r = None → disk_tree d1 !! r = None) ∧
                (ok1 = true → disk_tree d1 !! r = None)).
  { unfold unlink in E1. repeat case_match; simplify_eq/=; split_and!; intros;
      rewrite ?lookup_delete_ne, ?lookup_delete_eq by done; done. }
  destruct Hun as (Hother & Hkeep & Hself). split_and!.
  - intros x [Hx1 Hx2]%not_elem_of_cons. rewrite H1 by done. by apply Hother.
  - intros x Hx. apply H2. destruct (decide (x = r)) as [->|Hne]; [by apply Hkeep|by rewrite Hother].
  - intros [-> ->]%andb_true_iff x [->|Hx]%elem_of_cons; [by apply H2, Hself|by apply H3].
Qed.

(** The config's turn: the last part staged at its path, if there is one. *)
Lemma configInstall_tree t d d' ok :
  let cfg := tx_configRel t in
  NoDup (Staged_Rel <$> tx_installs t) →
  match last (filter (λ s, Staged_Rel s = cfg) (tx_installs t)) with
  | Some c => install st io cross c d
  | None => (d, true)
  end = (d', ok) →
  (∀ r, r ≠ cfg ∨ cfg ∉ Staged_Rel <$> tx_installs t → disk_tree d' !! r = disk_tree d !! r) ∧
  (ok = true → ∀ s, s ∈ tx_installs t → Staged_Rel s = cfg →
     disk_tree d' !! cfg = Some (RegularFile (Staged_Content s))).
Proof.
  intros cfg Hnd E. destruct (last _) as [c|] eqn:Hlast.
  - pose proof Hlast as [Hc Hin]%last_Some_elem_of%list_elem_of_filter.
    apply install_tree in E. rewrite Hc in E. destruct E as [Ha Hb]. split.
    { intros r [Hr|Hr]; [by apply Ha|]. destruct Hr. apply list_elem_of_fmap. by exists c. }
    intros Hok s Hs1 Hs2. rewrite (last_filter_unique Staged_Rel cfg _ s) in Hlast by done.
    injection Hlast as ->. by apply Hb.
  - injection E as <- <-. split; [done|]. intros _ s Hs1 Hs2.
    by rewrite (last_filter_unique Staged_Rel cfg _ s) in Hlast.
Qed.

(** What [Write_] leaves, on success and on failure. *)
Lemma Write_tree t d d' ok :
  NoDup (Staged_Rel <$> tx_installs t) →
  (∀ r, r ∈ tx_deletes t → r ∉ Staged_Rel <$> tx_installs t) →
  Write_ st io cross t d = (d', ok) →
  (disk_tree d' !! tx_configRel t ≠ disk_tree d !! tx_configRel t →
   ∀ s, s ∈ tx_installs t → Staged_Rel s ≠ tx_configRel t →
     disk_tree d' !! Staged_Rel s = Some (RegularFile (Staged_Content s))) ∧
  (ok = true →
   (∀ s, s ∈ tx_installs t → disk_tree d' !! Staged_Rel s = Some (RegularFile (Staged_Content s))) ∧
   (∀ r, r ∈ tx_deletes t → disk_tree d' !! r = None) ∧
   (∀ r, r ∉ Staged_Rel <$> tx_installs t → r ∉ tx_deletes t → disk_tree d' !! r = disk_tree d !! r)).
Proof.
  intros Hnd Hdis. unfold Write_. cbv zeta. set (cfg := tx_configRel t).
  set (parts := filter (λ s, Staged_Rel s ≠ cfg) (tx_installs t)).
  assert (Hparts : NoDup (Staged_Rel <$> parts)).
  { eapply sublist_NoDup; [exact Hnd|]. apply fmap_sublist, sublist_filter. }
  assert (Hrels : ∀ r, r ∈ Staged_Rel <$> parts → r ≠ cfg ∧ r ∈ Staged_Rel <$> tx_installs t).
  { intros r (s & -> & [Hs1 Hs2]%list_elem_of_filter)%list_elem_of_fmap. split; [done|].
    apply list_elem_of_fmap. by exists s. }
  destruct (untilError _ parts d) as [d1 ok1] eqn:E1.
  destruct (installs_tree parts d d1 ok1 Hparts E1) as [Hout1 Hin1].
  assert (Hcfg1 : disk_tree d1 !! cfg = disk_tree d !! cfg) by (apply Hout1; intros H%Hrels; by destruct H).
  destruct ok1; [|intros [= <- <-]; by split].
  set (r2 := match last _ with Some _ => _ | None => _ end). destruct r2 as [d2 ok2] eqn:E2. subst r2.
  destruct (configInstall_tree t d1 d2 ok2 Hnd E2) as [Hout2 Hin2]. fold cfg in Hout2, Hin2.
  assert (Hput : ∀ s, s ∈ tx_installs t → Staged_Rel s ≠ cfg →
            disk_tree d2 !! Staged_Rel s = Some (RegularFile (Staged_Content s))).
  { intros s Hs1 Hs2. rewrite Hout2 by (by left). apply Hin1; [done|]. by apply list_elem_of_filter. }
  destruct ok2; [|intros [= <- <-]; by split].
  intros E3. destruct (unlinks_tree _ _ _ _ E3) as (Hout3 & _ & Hdel).
  assert (Hkept : ∀ s, s ∈ tx_installs t → disk_tree d' !! Staged_Rel s = disk_tree d2 !! Staged_Rel s).
  { intros s Hs. apply Hout3. intros Hd%Hdis. apply Hd, list_elem_of_fmap. by exists s. }
  split.
  { intros _ s Hs1 Hs2. rewrite Hkept by done. by apply Hput. }
  intros Hok. split_and!; [|by apply Hdel|].
  - intros s Hs. rewrite Hkept by done. destruct (decide (Staged_Rel s = cfg)) as [Hc|Hc]; [|by apply Hput].
    rewrite Hc. by apply Hin2.
  - intros r Hr1 Hr2. rewrite Hout3 by done.
    rewrite Hout2 by (destruct (decide (r = cfg)) as [->|]; auto).
    apply Hout1. intros H%Hrels. by destruct H.
Qed.

(** C25: the config is never newer than the files it references, and a write that
    reports success did everything. If the config changed, every other staged
    part of the transaction is in place, whichever call failed afterwards; after
    a success the tree is the old one with the staged parts put in and the
    dropped paths gone, nothing else. *)
Theorem write_config_last t d d' ok :
  NoDup (Staged_Rel <$> tx_installs t) →
  (∀ r, r ∈ tx_deletes t → r ∉ Staged_Rel <$> tx_installs t) →
  Write_ st io cross t d = (d', ok) →
  (disk_tree d' !! tx_configRel t ≠ disk_tree d !! tx_configRel t →
   ∀ s, s ∈ tx_installs t → Staged_Rel s ≠ tx_configRel t →
     disk_tree d' !! Staged_Rel s = Some (RegularFile (Staged_Content s))) ∧
  (ok = true →
   (∀ s, s ∈ tx_installs t → disk_tree d' !! Staged_Rel s = Some (RegularFile (Staged_Content s))) ∧
   (∀ r, r ∈ tx_deletes t → disk_tree d' !! r = None) ∧
   (∀ r, r ∉ Staged_Rel <$> tx_installs t → r ∉ tx_deletes t → disk_tree d' !! r = disk_tree d !! r)).
Proof. apply Write_tree. Qed.
End write.

(** ** Concrete runs *)

Module FileExamples.

Definition demoStore : Store :=
  MkStore "/etc/haproxy" ["/etc/haproxy"] ["/etc/haproxy/haproxy-master.sock"].

Definition demoDigest (s : string) : string := itoa (Z.of_nat (String.length s)).

Definition allOk : Syscall → string → bool := λ _ _, true.

(** The rename of the config fails. *)
Definition renameFails : Syscall → string → bool :=
  λ c rel, negb (bool_decide (c = Rename) && bool_decide (rel = "haproxy.cfg")).

Definition demoDisk : Disk :=
  MkDisk {["haproxy.cfg" := RegularFile "global"; "maps/old.map" := RegularFile "a b"]} ∅ [].

(** A new config, a new map, and the old map dropped. *)
Definition demoTx : Transaction :=
  Delete (Install (Install (Begin "haproxy.cfg") (MkStaged "haproxy.cfg" "global new"))
            (MkStaged "maps/new.map" "c d")) "maps/old.map".

Definition demoPatch : FilePatch := MkFilePatch "6" 6 2 3.

(** The disk after the transaction's backups, and after the interrupted write. *)
Definition demoBacked : Disk := (Backup demoStore demoDigest allOk demoTx demoDisk).1.

Definition demoInterrupted : Disk := (Write_ demoStore renameFails (λ _, false) demoTx demoBacked).1.

Example demo_interrupted_tree :
  disk_tree demoInterrupted = <["maps/new.map" := RegularFile "c d"]> (disk_tree demoDisk).
Proof. vm_compute. reflexivity. Qed.

Lemma demoDigest_no_slash t : "/"%char ∉ chars (demoDigest t).
Proof. by apply itoa_no_char. Qed.

End FileExamples.

Import FileExamples.

Lemma accepted_path_inside_base_witness :
  let abs := "/etc/haproxy/maps/host.map" in
  Abs demoStore "maps/host.map" = inl abs ∧
  (abs ∉ store_reserved demoStore) ∧ ∀ rel', Abs demoStore rel' = inl abs → rel' = "maps/host.map".
Proof.
  intros abs. split; [vm_compute; reflexivity|].
  destruct (accepted_path_inside_base demoStore "maps/host.map" abs) as (_ & _ & _ & H1 & H2);
    [vm_compute; reflexivity|vm_compute; reflexivity|]. split; [exact H1|exact H2].
Defined.

Lemma staged_patch_exact_witness :
  StagePatch demoStore demoDigest allOk demoDisk "haproxy.cfg" "XY" demoPatch "5" 5
  = inl (MkStaged "haproxy.cfg" "glXYl") ∧
  demoDigest "glXYl" = "5" ∧ wrap64 (Z.of_nat (String.length "glXYl")) = 5.
Proof.
  split; [vm_compute; reflexivity|].
  pose proof (staged_patch_exact demoStore demoDigest allOk demoDisk "haproxy.cfg" "XY" demoPatch "5" 5)
    as H.
  assert (E : StagePatch demoStore demoDigest allOk demoDisk "haproxy.cfg" "XY" demoPatch "5" 5
              = inl (MkStaged "haproxy.cfg" "glXYl")) by (vm_compute; reflexivity).
  rewrite E in H. destruct H as (base & _ & _ & _ & _ & Hd & Hs);
    [unfold isInt64; simpl; lia|unfold isInt64; simpl; lia|unfold isInt64; simpl; lia|
     unfold isInt64; simpl; lia|].
  split; [exact Hd|exact Hs].
Defined.

Lemma rollback_restores_lkg_witness :
  disk_tree (Restore demoStore allOk "haproxy.cfg" demoInterrupted).1 = disk_tree demoDisk.
Proof.
  assert (Hb : Backup demoStore demoDigest allOk demoTx demoDisk = (demoBacked, true))
    by (vm_compute; reflexivity).
  assert (Hw : Write_ demoStore renameFails (λ _, false) demoTx demoBacked = (demoInterrupted, false))
    by (vm_compute; reflexivity).
  pose proof (rollback_restores_lkg demoStore demoDigest demoDigest_no_slash demoDisk demoInterrupted
    allOk "haproxy.cfg" eq_refl (rtc_once _ _ (step_written _ _ _ _ _ _ _ _ _ _ Hb Hw))) as H.
  destruct (Restore demoStore allOk "haproxy.cfg" demoInterrupted) as [d' ok].
  destruct H as [Hexact Hok]. apply Hexact, Hok. intros c r. reflexivity.
Defined.

Lemma write_config_last_witness :
  disk_tree (Write_ demoStore allOk (λ _, false) demoTx demoDisk).1 !! "maps/new.map"
  = Some (RegularFile "c d").
Proof.
  destruct (Write_ demoStore allOk (λ _, false) demoTx demoDisk) as [d' ok] eqn:E.
  assert (Hc : disk_tree d' !! tx_configRel demoTx ≠ disk_tree demoDisk !! tx_configRel demoTx).
  { change d' with (d', ok).1. rewrite <-E. vm_compute. discriminate. }
  destruct (write_config_last demoStore allOk (λ _, false) demoTx demoDisk d' ok) as [H _];
    [apply (bool_decide_unpack _); vm_compute; exact I|
     intros r Hr; apply list_elem_of_singleton in Hr as ->; apply (bool_decide_unpack _); vm_compute; exact I|
     exact E|].
  apply (H Hc (MkStaged "maps/new.map" "c d")); [|discriminate].
  apply list_elem_of_further, list_elem_of_here.
Defined.
