(* ===== verification/AgentState.v ===== *)
(** * The agent's state

    Models the data of [src/pkg/dataplane/agent/server]: the persisted state
    ([state.go]), the server's fields ([server.go]), the run of one apply
    ([transaction.go]) and the result it answers ([api.go]). A plan is named by
    its id and the proof of the observation it was made under; the state keeps
    one such name per role. Timestamps are numbers of nanoseconds, and the zero
    time is [None]; the journal of the persisted state lives with the disk it
    describes.

    [M] is the state monad the operations of the agent are written in: the
    server, the run in flight, and the number of calls made so far to what the
    agent does not control. *)

From stdpp Require Import base list list_numbers functions gmap strings.
From S2P Require Import Prelude Api GoStd Cli Deferrals FileTree.

Open Scope Z_scope.

(** ** Plan names *)

Record PlanRef := MkRef { ref_ID : string; ref_Proof : string }.

#[export] Instance PlanRef_eq_dec : EqDecision PlanRef.
Proof. solve_decision. Defined.

Definition noRef : PlanRef := MkRef "" "".

(** [samePlanRef]. *)
Definition samePlanRef (left right : PlanRef) : bool :=
  negb (bool_decide (ref_Proof left = "")) && negb (bool_decide (ref_Proof right = ""))
  && bool_decide (ref_ID left = ref_ID right) && bool_decide (ref_Proof left = ref_Proof right).

(** The plans the state names: [AppliedPlanID], [RunningPlanID],
    [WorkerOpsPlanID], [LKGPlanID], [PendingReloadPlanID] and [PlanBlobPlanID],
    each with its proof. *)
Inductive Role := Applied | Running | WorkerOps | LKG | PendingReload | PlanBlob.

#[export] Instance Role_eq_dec : EqDecision Role.
Proof. solve_decision. Defined.

(** ** Results (api.go) *)

Definition ResultRuntime : string := "runtime".
Definition ResultFileOnly : string := "file_only".
Definition ResultReload : string := "reload".
Definition ResultScheduled : string := "scheduled".
Definition ResultNoop : string := "noop".
Definition ResultRejected : string := "rejected".

(** [ReloadInfo]; [None] is the empty [ScheduledAt]. *)
Record ReloadInfo := MkReloadInfo {
  ReloadInfo_Performed : bool;
  ReloadInfo_OK : bool;
  ReloadInfo_ScheduledAt : option Z;
}.

Record RollbackInfo := MkRollbackInfo { RollbackInfo_Performed : bool; RollbackInfo_Reloaded : bool }.

(** [ApplyResult]; an error is its stage. Times and log output are left out. *)
Record ApplyResult := MkApplyResult {
  res_PlanID : string;
  res_OK : bool;
  res_Mode : string;
  res_Applied : PlanRef;
  res_Running : PlanRef;
  res_WorkerOps : PlanRef;
  res_LKG : PlanRef;
  res_AppliedToken : Token;
  res_HAProxy : HAProxyInfo;
  res_Inventory : option Inventory;
  res_OpResults : list OpResult;
  res_Reload : option ReloadInfo;
  res_Rollback : option RollbackInfo;
  res_Error : option string;
}.

Definition set_res_OK (v : bool) (r : ApplyResult) : ApplyResult :=
  MkApplyResult (res_PlanID r) v (res_Mode r) (res_Applied r) (res_Running r) (res_WorkerOps r)
    (res_LKG r) (res_AppliedToken r) (res_HAProxy r) (res_Inventory r) (res_OpResults r)
    (res_Reload r) (res_Rollback r) (res_Error r).

Definition set_res_Mode (v : string) (r : ApplyResult) : ApplyResult :=
  MkApplyResult (res_PlanID r) (res_OK r) v (res_Applied r) (res_Running r) (res_WorkerOps r)
    (res_LKG r) (res_AppliedToken r) (res_HAProxy r) (res_Inventory r) (res_OpResults r)
    (res_Reload r) (res_Rollback r) (res_Error r).

Definition set_res_OpResults (v : list OpResult) (r : ApplyResult) : ApplyResult :=
  MkApplyResult (res_PlanID r) (res_OK r) (res_Mode r) (res_Applied r) (res_Running r)
    (res_WorkerOps r) (res_LKG r) (res_AppliedToken r) (res_HAProxy r) (res_Inventory r) v
    (res_Reload r) (res_Rollback r) (res_Error r).

Definition set_res_Reload (v : option ReloadInfo) (r : ApplyResult) : ApplyResult :=
  MkApplyResult (res_PlanID r) (res_OK r) (res_Mode r) (res_Applied r) (res_Running r)
    (res_WorkerOps r) (res_LKG r) (res_AppliedToken r) (res_HAProxy r) (res_Inventory r)
    (res_OpResults r) v (res_Rollback r) (res_Error r).

Definition set_res_Rollback (v : option RollbackInfo) (r : ApplyResult) : ApplyResult :=
  MkApplyResult (res_PlanID r) (res_OK r) (res_Mode r) (res_Applied r) (res_Running r)
    (res_WorkerOps r) (res_LKG r) (res_AppliedToken r) (res_HAProxy r) (res_Inventory r)
    (res_OpResults r) (res_Reload r) v (res_Error r).

Definition set_res_Error (v : option string) (r : ApplyResult) : ApplyResult :=
  MkApplyResult (res_PlanID r) (res_OK r) (res_Mode r) (res_Applied r) (res_Running r)
    (res_WorkerOps r) (res_LKG r) (res_AppliedToken r) (res_HAProxy r) (res_Inventory r)
    (res_OpResults r) (res_Reload r) (res_Rollback r) v.

(** ** The persisted state (state.go) *)

Inductive phase :=
  | phaseIdle | phaseStaged | phaseVerified | phaseBackedUp | phaseWritten | phaseApplied
  | phaseReloaded | phaseScheduled | phaseCommitted | phaseAborted.

#[export] Instance phase_eq_dec : EqDecision phase.
Proof. solve_decision. Defined.

Record nackRecord := MkNack {
  nack_ManifestDigest : string;
  nack_ManifestWork : string;
  nack_Reason : string;
  nack_Until : Z;
  nack_Result : ApplyResult;
}.

Record persistentState := MkState {
  ps_Generation : Z;
  ps_ProofGeneration : Z;
  ps_PlanSchemaVersion : Z;
  ps_Roles : Role → PlanRef;
  ps_AppliedToken : Token;
  ps_ManifestPaths : list string;
  ps_TreeDigest : string;
  ps_ExpectedWorker : HAProxyInfo;
  ps_Phase : phase;
  ps_InFlightPlanID : string;
  ps_NACK : option nackRecord;
  ps_ReloadPendingAt : option Z;
}.

Definition set_ps_Generation (v : Z) (r : persistentState) : persistentState :=
  MkState v (ps_ProofGeneration r) (ps_PlanSchemaVersion r) (ps_Roles r) (ps_AppliedToken r)
    (ps_ManifestPaths r) (ps_TreeDigest r) (ps_ExpectedWorker r) (ps_Phase r) (ps_InFlightPlanID r)
    (ps_NACK r) (ps_ReloadPendingAt r).

Definition set_ps_ProofGeneration (v : Z) (r : persistentState) : persistentState :=
  MkState (ps_Generation r) v (ps_PlanSchemaVersion r) (ps_Roles r) (ps_AppliedToken r)
    (ps_ManifestPaths r) (ps_TreeDigest r) (ps_ExpectedWorker r) (ps_Phase r) (ps_InFlightPlanID r)
    (ps_NACK r) (ps_ReloadPendingAt r).

Definition set_ps_PlanSchemaVersion (v : Z) (r : persistentState) : persistentState :=
  MkState (ps_Generation r) (ps_ProofGeneration r) v (ps_Roles r) (ps_AppliedToken r)
    (ps_ManifestPaths r) (ps_TreeDigest r) (ps_ExpectedWorker r) (ps_Phase r) (ps_InFlightPlanID r)
    (ps_NACK r) (ps_ReloadPendingAt r).

Definition set_ps_Roles (v : Role → PlanRef) (r : persistentState) : persistentState :=
  MkState (ps_Generation r) (ps_ProofGeneration r) (ps_PlanSchemaVersion r) v (ps_AppliedToken r)
    (ps_ManifestPaths r) (ps_TreeDigest r) (ps_ExpectedWorker r) (ps_Phase r) (ps_InFlightPlanID r)
    (ps_NACK r) (ps_ReloadPendingAt r).

Definition set_ps_AppliedToken (v : Token) (r : persistentState) : persistentState :=
  MkState (ps_Generation r) (ps_ProofGeneration r) (ps_PlanSchemaVersion r) (ps_Roles r) v
    (ps_ManifestPaths r) (ps_TreeDigest r) (ps_ExpectedWorker r) (ps_Phase r) (ps_InFlightPlanID r)
    (ps_NACK r) (ps_ReloadPendingAt r).

Definition set_ps_ManifestPaths (v : list string) (r : persistentState) : persistentState :=
  MkState (ps_Generation r) (ps_ProofGeneration r) (ps_PlanSchemaVersion r) (ps_Roles r)
    (ps_AppliedToken r) v (ps_TreeDigest r) (ps_ExpectedWorker r) (ps_Phase r) (ps_InFlightPlanID r)
    (ps_NACK r) (ps_ReloadPendingAt r).

Definition set_ps_TreeDigest (v : string) (r : persistentState) : persistentState :=
  MkState (ps_Generation r) (ps_ProofGeneration r) (ps_PlanSchemaVersion r) (ps_Roles r)
    (ps_AppliedToken r) (ps_ManifestPaths r) v (ps_ExpectedWorker r) (ps_Phase r)
    (ps_InFlightPlanID r) (ps_NACK r) (ps_ReloadPendingAt r).

Definition set_ps_ExpectedWorker (v : HAProxyInfo) (r : persistentState) : persistentState :=
  MkState (ps_Generation r) (ps_ProofGeneration r) (ps_PlanSchemaVersion r) (ps_Roles r)
    (ps_AppliedToken r) (ps_ManifestPaths r) (ps_TreeDigest r) v (ps_Phase r) (ps_InFlightPlanID r)
    (ps_NACK r) (ps_ReloadPendingAt r).

Definition set_ps_Phase (v : phase) (r : persistentState) : persistentState :=
  MkState (ps_Generation r) (ps_ProofGeneration r) (ps_PlanSchemaVersion r) (ps_Roles r)
    (ps_AppliedToken r) (ps_ManifestPaths r) (ps_TreeDigest r) (ps_ExpectedWorker r) v
    (ps_InFlightPlanID r) (ps_NACK r) (ps_ReloadPendingAt r).

Definition set_ps_InFlightPlanID (v : string) (r : persistentState) : persistentState :=
  MkState (ps_Generation r) (ps_ProofGeneration r) (ps_PlanSchemaVersion r) (ps_Roles r)
    (ps_AppliedToken r) (ps_ManifestPaths r) (ps_TreeDigest r) (ps_ExpectedWorker r) (ps_Phase r) v
    (ps_NACK r) (ps_ReloadPendingAt r).

Definition set_ps_NACK (v : option nackRecord) (r : persistentState) : persistentState :=
  MkState (ps_Generation r) (ps_ProofGeneration r) (ps_PlanSchemaVersion r) (ps_Roles r)
    (ps_AppliedToken r) (ps_ManifestPaths r) (ps_TreeDigest r) (ps_ExpectedWorker r) (ps_Phase r)
    (ps_InFlightPlanID r) v (ps_ReloadPendingAt r).

Definition set_ps_ReloadPendingAt (v : option Z) (r : persistentState) : persistentState :=
  MkState (ps_Generation r) (ps_ProofGeneration r) (ps_PlanSchemaVersion r) (ps_Roles r)
    (ps_AppliedToken r) (ps_ManifestPaths r) (ps_TreeDigest r) (ps_ExpectedWorker r) (ps_Phase r)
    (ps_InFlightPlanID r) (ps_NACK r) v.

(** A plan name for a role. *)
Definition setRole (role : Role) (ref : PlanRef) (r : persistentState) : persistentState :=
  set_ps_Roles (<[role := ref]> (ps_Roles r)) r.

(** ** The server *)

Record AgentServer := MkAgent {
  sv_state : persistentState;
  sv_saved : persistentState * Journal;
  sv_disk : Disk;
  sv_tree : gmap string FileAt;
  sv_prints : gmap string string;
  sv_worker : HAProxyInfo;
  sv_inventory : Inventory;
  sv_reportedInventory : Z;
  sv_lastReload : Z;
  sv_invalidations : Z;
  sv_deferrals : Deferrals;
  sv_appliedPlan : option string;
  sv_lastApply : option ApplyResult;
}.

Definition set_sv_state (v : persistentState) (r : AgentServer) : AgentServer :=
  MkAgent v (sv_saved r) (sv_disk r) (sv_tree r) (sv_prints r) (sv_worker r) (sv_inventory r)
    (sv_reportedInventory r) (sv_lastReload r) (sv_invalidations r) (sv_deferrals r)
    (sv_appliedPlan r) (sv_lastApply r).

Definition set_sv_saved (v : persistentState * Journal) (r : AgentServer) : AgentServer :=
  MkAgent (sv_state r) v (sv_disk r) (sv_tree r) (sv_prints r) (sv_worker r) (sv_inventory r)
    (sv_reportedInventory r) (sv_lastReload r) (sv_invalidations r) (sv_deferrals r)
    (sv_appliedPlan r) (sv_lastApply r).

Definition set_sv_disk (v : Disk) (r : AgentServer) : AgentServer :=
  MkAgent (sv_state r) (sv_saved r) v (sv_tree r) (sv_prints r) (sv_worker r) (sv_inventory r)
    (sv_reportedInventory r) (sv_lastReload r) (sv_invalidations r) (sv_deferrals r)
    (sv_appliedPlan r) (sv_lastApply r).

Definition set_sv_tree (v : gmap string FileAt) (r : AgentServer) : AgentServer :=
  MkAgent (sv_state r) (sv_saved r) (sv_disk r) v (sv_prints r) (sv_worker r) (sv_inventory r)
    (sv_reportedInventory r) (sv_lastReload r) (sv_invalidations r) (sv_deferrals r)
    (sv_appliedPlan r) (sv_lastApply r).

Definition set_sv_prints (v : gmap string string) (r : AgentServer) : AgentServer :=
  MkAgent (sv_state r) (sv_saved r) (sv_disk r) (sv_tree r) v (sv_worker r) (sv_inventory r)
    (sv_reportedInventory r) (sv_lastReload r) (sv_invalidations r) (sv_deferrals r)
    (sv_appliedPlan r) (sv_lastApply r).

Definition set_sv_worker (v : HAProxyInfo) (r : AgentServer) : AgentServer :=
  MkAgent (sv_state r) (sv_saved r) (sv_disk r) (sv_tree r) (sv_prints r) v (sv_inventory r)
    (sv_reportedInventory r) (sv_lastReload r) (sv_invalidations r) (sv_deferrals r)
    (sv_appliedPlan r) (sv_lastApply r).

Definition set_sv_inventory (v : Inventory) (r : AgentServer) : AgentServer :=
  MkAgent (sv_state r) (sv_saved r) (sv_disk r) (sv_tree r) (sv_prints r) (sv_worker r) v
    (sv_reportedInventory r) (sv_lastReload r) (sv_invalidations r) (sv_deferrals r)
    (sv_appliedPlan r) (sv_lastApply r).

Definition set_sv_reportedInventory (v : Z) (r : AgentServer) : AgentServer :=
  MkAgent (sv_state r) (sv_saved r) (sv_disk r) (sv_tree r) (sv_prints r) (sv_worker r)
    (sv_inventory r) v (sv_lastReload r) (sv_invalidations r) (sv_deferrals r) (sv_appliedPlan r)
    (sv_lastApply r).

Definition set_sv_lastReload (v : Z) (r : AgentServer) : AgentServer :=
  MkAgent (sv_state r) (sv_saved r) (sv_disk r) (sv_tree r) (sv_prints r) (sv_worker r)
    (sv_inventory r) (sv_reportedInventory r) v (sv_invalidations r) (sv_deferrals r)
    (sv_appliedPlan r) (sv_lastApply r).

Definition set_sv_invalidations (v : Z) (r : AgentServer) : AgentServer :=
  MkAgent (sv_state r) (sv_saved r) (sv_disk r) (sv_tree r) (sv_prints r) (sv_worker r)
    (sv_inventory r) (sv_reportedInventory r) (sv_lastReload r) v (sv_deferrals r)
    (sv_appliedPlan r) (sv_lastApply r).

Definition set_sv_deferrals (v : Deferrals) (r : AgentServer) : AgentServer :=
  MkAgent (sv_state r) (sv_saved r) (sv_disk r) (sv_tree r) (sv_prints r) (sv_worker r)
    (sv_inventory r) (sv_reportedInventory r) (sv_lastReload r) (sv_invalidations r) v
    (sv_appliedPlan r) (sv_lastApply r).

Definition set_sv_appliedPlan (v : option string) (r : AgentServer) : AgentServer :=
  MkAgent (sv_state r) (sv_saved r) (sv_disk r) (sv_tree r) (sv_prints r) (sv_worker r)
    (sv_inventory r) (sv_reportedInventory r) (sv_lastReload r) (sv_invalidations r)
    (sv_deferrals r) v (sv_lastApply r).

Definition set_sv_lastApply (v : option ApplyResult) (r : AgentServer) : AgentServer :=
  MkAgent (sv_state r) (sv_saved r) (sv_disk r) (sv_tree r) (sv_prints r) (sv_worker r)
    (sv_inventory r) (sv_reportedInventory r) (sv_lastReload r) (sv_invalidations r)
    (sv_deferrals r) (sv_appliedPlan r) v.

(** ** One apply (transaction.go) *)

Record applyRun := MkRun {
  run_manifest : Manifest;
  run_staged : gmap string Staged;
  run_planBlob : option string;
  run_digest : string;
  run_work : string;
  run_appliedProof : string;
  run_workerProof : string;
  run_invalidations : Z;
  run_result : ApplyResult;
  run_tx : option Transaction;
  run_opsRan : bool;
  run_deterministic : bool;
  run_remembered : bool;
  run_touchedMaps : list string;
  run_touchedBackends : list string;
  run_retiringBackends : list string;
  run_retiringServers : list ServerRef;
  run_createdCerts : list string;
  run_createdCAs : list string;
}.

Definition set_run_result (v : ApplyResult) (r : applyRun) : applyRun :=
  MkRun (run_manifest r) (run_staged r) (run_planBlob r) (run_digest r) (run_work r)
    (run_appliedProof r) (run_workerProof r) (run_invalidations r) v (run_tx r) (run_opsRan r)
    (run_deterministic r) (run_remembered r) (run_touchedMaps r) (run_touchedBackends r)
    (run_retiringBackends r) (run_retiringServers r) (run_createdCerts r) (run_createdCAs r).

Definition set_run_tx (v : option Transaction) (r : applyRun) : applyRun :=
  MkRun (run_manifest r) (run_staged r) (run_planBlob r) (run_digest r) (run_work r)
    (run_appliedProof r) (run_workerProof r) (run_invalidations r) (run_result r) v (run_opsRan r)
    (run_deterministic r) (run_remembered r) (run_touchedMaps r) (run_touchedBackends r)
    (run_retiringBackends r) (run_retiringServers r) (run_createdCerts r) (run_createdCAs r).

Definition set_run_opsRan (v : bool) (r : applyRun) : applyRun :=
  MkRun (run_manifest r) (run_staged r) (run_planBlob r) (run_digest r) (run_work r)
    (run_appliedProof r) (run_workerProof r) (run_invalidations r) (run_result r) (run_tx r) v
    (run_deterministic r) (run_remembered r) (run_touchedMaps r) (run_touchedBackends r)
    (run_retiringBackends r) (run_retiringServers r) (run_createdCerts r) (run_createdCAs r).

Definition set_run_deterministic (v : bool) (r : applyRun) : applyRun :=
  MkRun (run_manifest r) (run_staged r) (run_planBlob r) (run_digest r) (run_work r)
    (run_appliedProof r) (run_workerProof r) (run_invalidations r) (run_result r) (run_tx r)
    (run_opsRan r) v (run_remembered r) (run_touchedMaps r) (run_touchedBackends r)
    (run_retiringBackends r) (run_retiringServers r) (run_createdCerts r) (run_createdCAs r).

Definition set_run_remembered (v : bool) (r : applyRun) : applyRun :=
  MkRun (run_manifest r) (run_staged r) (run_planBlob r) (run_digest r) (run_work r)
    (run_appliedProof r) (run_workerProof r) (run_invalidations r) (run_result r) (run_tx r)
    (run_opsRan r) (run_deterministic r) v (run_touchedMaps r) (run_touchedBackends r)
    (run_retiringBackends r) (run_retiringServers r) (run_createdCerts r) (run_createdCAs r).

Definition set_run_touchedMaps (v : list string) (r : applyRun) : applyRun :=
  MkRun (run_manifest r) (run_staged r) (run_planBlob r) (run_digest r) (run_work r)
    (run_appliedProof r) (run_workerProof r) (run_invalidations r) (run_result r) (run_tx r)
    (run_opsRan r) (run_deterministic r) (run_remembered r) v (run_touchedBackends r)
    (run_retiringBackends r) (run_retiringServers r) (run_createdCerts r) (run_createdCAs r).

Definition set_run_touchedBackends (v : list string) (r : applyRun) : applyRun :=
  MkRun (run_manifest r) (run_staged r) (run_planBlob r) (run_digest r) (run_work r)
    (run_appliedProof r) (run_workerProof r) (run_invalidations r) (run_result r) (run_tx r)
    (run_opsRan r) (run_deterministic r) (run_remembered r) (run_touchedMaps r) v
    (run_retiringBackends r) (run_retiringServers r) (run_createdCerts r) (run_createdCAs r).

Definition set_run_retiringBackends (v : list string) (r : applyRun) : applyRun :=
  MkRun (run_manifest r) (run_staged r) (run_planBlob r) (run_digest r) (run_work r)
    (run_appliedProof r) (run_workerProof r) (run_invalidations r) (run_result r) (run_tx r)
    (run_opsRan r) (run_deterministic r) (run_remembered r) (run_touchedMaps r)
    (run_touchedBackends r) v (run_retiringServers r) (run_createdCerts r) (run_createdCAs r).

Definition set_run_retiringServers (v : list ServerRef) (r : applyRun) : applyRun :=
  MkRun (run_manifest r) (run_staged r) (run_planBlob r) (run_digest r) (run_work r)
    (run_appliedProof r) (run_workerProof r) (run_invalidations r) (run_result r) (run_tx r)
    (run_opsRan r) (run_deterministic r) (run_remembered r) (run_touchedMaps r)
    (run_touchedBackends r) (run_retiringBackends r) v (run_createdCerts r) (run_createdCAs r).

Definition set_run_createdCerts (v : list string) (r : applyRun) : applyRun :=
  MkRun (run_manifest r) (run_staged r) (run_planBlob r) (run_digest r) (run_work r)
    (run_appliedProof r) (run_workerProof r) (run_invalidations r) (run_result r) (run_tx r)
    (run_opsRan r) (run_deterministic r) (run_remembered r) (run_touchedMaps r)
    (run_touchedBackends r) (run_retiringBackends r) (run_retiringServers r) v (run_createdCAs r).

Definition set_run_createdCAs (v : list string) (r : applyRun) : applyRun :=
  MkRun (run_manifest r) (run_staged r) (run_planBlob r) (run_digest r) (run_work r)
    (run_appliedProof r) (run_workerProof r) (run_invalidations r) (run_result r) (run_tx r)
    (run_opsRan r) (run_deterministic r) (run_remembered r) (run_touchedMaps r)
    (run_touchedBackends r) (run_retiringBackends r) (run_retiringServers r) (run_createdCerts r) v.

(** ** The monad *)

Record World := MkWorld { w_server : AgentServer; w_run : applyRun; w_tick : nat }.

Definition M (A : Type) : Type := World → World * A.

#[export] Instance M_ret : MRet M := λ A x w, (w, x).
#[export] Instance M_bind : MBind M := λ A B f m w, let '(w', x) := m w in f x w'.

Definition server : M AgentServer := λ w, (w, w_server w).
Definition current : M applyRun := λ w, (w, w_run w).
Definition state : M persistentState := λ w, (w, sv_state (w_server w)).
Definition role (r : Role) : M PlanRef := λ w, (w, ps_Roles (sv_state (w_server w)) r).

Definition modServer (f : AgentServer → AgentServer) : M unit :=
  λ w, (MkWorld (f (w_server w)) (w_run w) (w_tick w), tt).
Definition modState (f : persistentState → persistentState) : M unit :=
  modServer (λ s, set_sv_state (f (sv_state s)) s).
Definition modRun (f : applyRun → applyRun) : M unit :=
  λ w, (MkWorld (w_server w) (f (w_run w)) (w_tick w), tt).
Definition modResult (f : ApplyResult → ApplyResult) : M unit :=
  modRun (λ r, set_run_result (f (run_result r)) r).

(** The number of the next call to the outside. *)
Definition tick : M nat := λ w, (MkWorld (w_server w) (w_run w) (S (w_tick w)), w_tick w).

(** A disk operation of the file store. *)
Definition onDisk {A} (f : Disk → Disk * A) : M A :=
  λ w, let '(d, x) := f (sv_disk (w_server w)) in
       (MkWorld (set_sv_disk d (w_server w)) (w_run w) (w_tick w), x).
