(* ===== verification/Agent.v ===== *)
(** * The agent's state machine

    Models [src/pkg/dataplane/agent/server] ([statemachine.go], [transaction.go],
    [reload.go] and the admission of [apply.go]): what an apply does between its
    arrival and the state it commits. Every operation holds the apply lock, so
    the operations run one at a time.

    [Env] is what the agent does not control: the clock, the system calls, the
    state file, the worker and the master socket. Each call has a number, so two
    calls may answer differently. *)

From stdpp Require Import base list list_numbers functions gmap strings.
From S2P Require Import Prelude Api GoStd Cli Deferrals FileTree AgentState.

Open Scope Z_scope.

Record Env := MkEnv {
  env_now : nat → Z;
  env_io : nat → Syscall → string → bool;
  env_cross : nat → string → bool;
  env_save : nat → bool;
  env_blob : nat → bool;
  env_info : nat → option HAProxyInfo;
  env_inventory : nat → option Inventory;
  env_execute : nat → list Program → list OpResult * bool;
  env_reload : nat → string * bool;
  env_master : nat → bool;
  env_newWorker : nat → option HAProxyInfo;
}.

(** [Config] and the file store. *)
Record AgentConfig := MkConfig {
  cfg_store : Store;
  cfg_ConfigFile : string;
  cfg_ReloadIntervalMin : Z;
}.

Definition nackCooldown : Z := 60 * 1000000000.

(** ** Pure parts *)

(** [lkgPaths]: what the current manifest owns, minus the paths created since,
    plus the ones deleted. *)
Definition lkgSet (owned : gset string) (j : Journal) : gset string :=
  foldl (λ set e,
    match JEntry_Kind e with
    | KindCreated => set ∖ {[ JEntry_Path e ]}
    | KindDeleted => set ∪ {[ JEntry_Path e ]}
    | KindModified => set
    end) owned j.

Definition lkgPaths (owned : list string) (j : Journal) : list string :=
  sort_strings (elements (lkgSet (list_to_set owned) j)).

Definition manifestPaths (m : Manifest) : list string :=
  sort_strings (File_Path <$> Manifest_Files m).

(** [deletions]: the paths owned so far that the manifest no longer names. *)
Definition deletionsOf (owned : list string) (m : Manifest) : list string :=
  sort_strings (filter (λ path, path ∉ File_Path <$> Manifest_Files m) owned).

(** [withPath]. *)
Definition withPath (l : list string) (path : string) (changed : bool) : list string * bool :=
  if contains l path then (l, changed) else (l ++ [path], true).

Definition withPaths (l paths : list string) (changed : bool) : list string * bool :=
  foldl (λ acc path, withPath acc.1 path acc.2) (l, changed) paths.

(** The declaration of a path: the last one, as in the Go map. *)
Definition declaredOf (m : Manifest) : gmap string File :=
  foldl (λ acc f, <[File_Path f := f]> acc) ∅ (Manifest_Files m).

(** [slices.Chunk]. *)
Fixpoint chunksOf {A} (fuel size : nat) (l : list A) : list (list A) :=
  match fuel, l with
  | _, [] => []
  | O, _ => []
  | S n, _ => take size l :: chunksOf n size (drop size l)
  end.

(** The result a run starts from. *)
Definition emptyResult (planID : string) (mode : string) : ApplyResult :=
  MkApplyResult planID true mode noRef noRef noRef noRef (MkToken 0 0) (MkHAProxyInfo "" "" 0 0)
    None [] None None None.

Section agent.
Context (digestString : string → string).
(** The fingerprint of a path's content as the numbered call observes it: the
    content's hash and the file's own attributes. *)
Context (fingerprint : nat → string → string → string).
Context (cfg : AgentConfig) (E : Env).

Abbreviation st := (cfg_store cfg).

(** [treeDigest]. *)
Definition treeDigest (tree : gmap string FileAt) : string :=
  let line path := path +:+ " " +:+ default "" (FileAt_Digest <$> tree !! path)
                   +:+ String (Ascii.ascii_of_N 10) "" in
  digestString (foldr (λ path s, line path +:+ s) "" (sort_strings (elements (dom tree)))).

(** ** State file and small state changes (statemachine.go) *)

(** [states.save]: is the error nil? *)
Definition save : M bool :=
  n ← tick;
  s ← server;
  if env_save E n then _ ← modServer (set_sv_saved (sv_state s, disk_journal (sv_disk s))); mret true
  else mret false.

Definition setPhase (p : phase) (planID : string) : M unit :=
  _ ← modState (set_ps_Phase p);
  _ ← modState (set_ps_InFlightPlanID planID);
  _ ← save;
  mret tt.

(** [reserveRoleProofs]; [None] is its error. *)
Definition reserveRoleProofs (withWorker : bool) : M (option (string * string)) :=
  ps ← state;
  let needed := if withWorker then 2 else 1 in
  if (2 ^ 64 - 1 - needed <? ps_ProofGeneration ps) then mret None
  else
    let applied := ps_ProofGeneration ps + 1 in
    let worker := applied + 1 in
    _ ← modState (set_ps_ProofGeneration (if withWorker then worker else applied));
    ok ← save;
    mret (if ok : bool then Some ("a:" +:+ itoa applied, if withWorker then "a:" +:+ itoa worker else "")
          else None).

Definition baselineUnknown : M bool :=
  applied ← role Applied;
  mret (bool_decide (ref_ID applied = "") || bool_decide (ref_Proof applied = "")).

Definition reloadPending : M bool :=
  ps ← state; mret (bool_decide (is_Some (ps_ReloadPendingAt ps))).

(** [pacingWindow]: when the next reload may run, and whether that is later than
    now. *)
Definition pacingWindow : M (Z * bool) :=
  n ← tick;
  s ← server;
  let due := sv_lastReload s + cfg_ReloadIntervalMin cfg in
  mret (due, env_now E n <? due).

Definition schedulePendingReload (due : Z) (ref : PlanRef) : M unit :=
  _ ← modState (set_ps_ReloadPendingAt (Some due));
  _ ← modState (setRole PendingReload ref);
  _ ← save;
  mret tt.

Definition coalesceIntoPendingReload (ref : PlanRef) : M unit := modState (setRole PendingReload ref).

Definition clearPendingReload : M unit :=
  _ ← modState (set_ps_ReloadPendingAt None);
  modState (setRole PendingReload noRef).

(** [store.ClearJournal]: is the error nil? *)
Definition clearJournal : M bool :=
  n ← tick; onDisk (ClearJournal (env_io E n)).

Definition recordReload (ref : PlanRef) : M unit :=
  n ← tick;
  _ ← modServer (set_sv_lastReload (env_now E n));
  _ ← modState (setRole Running ref);
  _ ← modState (setRole WorkerOps ref);
  if bool_decide (ref_ID ref = "") || bool_decide (ref_Proof ref = "") then mret tt
  else
    _ ← modState (setRole LKG ref);
    _ ← clearJournal;
    mret tt.

Definition recordWorkerOps (ref : PlanRef) : M unit := modState (setRole WorkerOps ref).

Definition invalidateBaseline : M unit :=
  _ ← modState (setRole Applied noRef);
  _ ← modState (setRole WorkerOps noRef);
  s ← server;
  modServer (set_sv_invalidations ((sv_invalidations s + 1) mod 2 ^ 64)).

Definition workerOpsBaselineMatches (expected : PlanRef) : M bool :=
  held ← role WorkerOps; mret (samePlanRef expected held).

Definition adoptWorker (info : HAProxyInfo) : M unit :=
  n ← tick;
  s ← server;
  _ ← modServer (set_sv_worker info);
  _ ← modServer (set_sv_deferrals (SetWorker (sv_deferrals s) info));
  _ ← modState (set_ps_ExpectedWorker info);
  match env_inventory E n with
  | None => mret tt
  | Some inventory =>
      modServer (set_sv_inventory
        (MkInventory ((Inventory_Generation (sv_inventory s) + 1) mod 2 ^ 64) (Inventory_Maps inventory)
           (Inventory_Certs inventory) (Inventory_CAFiles inventory) (Inventory_CRLFiles inventory)
           (Inventory_CRTLists inventory)))
  end.

Definition foldCreated : M unit :=
  run ← current;
  s ← server;
  if bool_decide (run_createdCerts run = []) && bool_decide (run_createdCAs run = []) then mret tt
  else
    let inventory := sv_inventory s in
    let '(certs, changed) := withPaths (Inventory_Certs inventory) (run_createdCerts run) false in
    let '(cas, changed) := withPaths (Inventory_CAFiles inventory) (run_createdCAs run) changed in
    modServer (set_sv_inventory
      (MkInventory (if changed then (Inventory_Generation inventory + 1) mod 2 ^ 64
                    else Inventory_Generation inventory)
         (Inventory_Maps inventory) certs cas (Inventory_CRLFiles inventory) (Inventory_CRTLists inventory))).

(** [checkWorker]: is the error nil? *)
Definition checkWorker : M bool :=
  n ← tick;
  match env_info E n with
  | None => mret false
  | Some info =>
      ps ← state;
      if SameWorker (ps_ExpectedWorker ps) info then mret true
      else
        _ ← adoptWorker info;
        _ ← invalidateBaseline;
        mret false
  end.

Definition observeTree (m : Manifest) (staged : gmap string Staged) (deleted : list string) : M unit :=
  n ← tick;
  s ← server;
  let at_ path := match declaredOf m !! path with
                  | Some f => MkFileAt (File_Digest f) (File_Proof f) (File_Size f)
                  | None => MkFileAt "" "" 0
                  end in
  let put := map_imap (λ path (_ : Staged), Some (at_ path)) staged in
  let prints := map_imap (λ path part, Some (fingerprint n path (Staged_Content part))) staged in
  _ ← modServer (set_sv_tree (foldl (λ t path, delete path t) (put ∪ sv_tree s) deleted));
  modServer (set_sv_prints (foldl (λ t path, delete path t) (prints ∪ sv_prints s) deleted)).

(** [promoteLKG]: is the error nil? *)
Definition promoteLKG (m : Manifest) : M bool :=
  applied ← role Applied;
  lkg ← role LKG;
  if negb (samePlanRef (MkRef (Manifest_ValidatedPlanID m) (Manifest_ValidatedPlanProof m)) applied) then mret true
  else if samePlanRef lkg applied then mret true
  else
    ok ← clearJournal;
    if ok : bool then
      _ ← modState (setRole LKG applied);
      save
    else mret false.

(** [restoreJournal]: is the error nil? *)
Definition restoreJournal : M bool :=
  n ← tick;
  s ← server;
  let paths := lkgPaths (ps_ManifestPaths (sv_state s)) (disk_journal (sv_disk s)) in
  ok ← onDisk (Restore st (env_io E n) (cfg_ConfigFile cfg));
  if negb ok then mret false
  else
    k ← tick;
    s' ← server;
    match HashTree st digestString (env_io E k) (sv_disk s') paths with
    | None => mret false
    | Some tree =>
        _ ← modServer (set_sv_tree tree);
        _ ← modServer (set_sv_prints ∅);
        _ ← modState (set_ps_ManifestPaths paths);
        _ ← modState (set_ps_TreeDigest (treeDigest tree));
        clearJournal
    end.

(** [cachedNACK]. *)
Definition cachedNACK (digest work : string) : M (option ApplyResult) :=
  n ← tick;
  ps ← state;
  match ps_NACK ps with
  | None => mret None
  | Some record =>
      if bool_decide (work = "") || negb (bool_decide (nack_ManifestDigest record = digest))
         || negb (bool_decide (nack_ManifestWork record = work)) then mret None
      else if nack_Until record <? env_now E n then
        _ ← modState (set_ps_NACK None);
        mret None
      else mret (Some (nack_Result record))
  end.

(** [rememberNACK]: the record shares the run's result, so [finish] completes
    both. *)
Definition rememberNACK (reason : string) : M unit :=
  run ← current;
  if bool_decide (run_work run = "") then mret tt
  else
    n ← tick;
    _ ← modRun (set_run_remembered true);
    modState (set_ps_NACK (Some (MkNack (run_digest run) (run_work run) reason
                                   (env_now E n + nackCooldown) (run_result run)))).

(** ** Reloads (reload.go) *)

(** [awaitNewWorker]; [None] is the timeout. *)
Definition awaitNewWorker : M (option HAProxyInfo) :=
  s ← server;
  let previous := sv_worker s in
  n ← tick;
  match env_newWorker E n with
  | Some info => if negb (SameWorker info previous)
                 then _ ← adoptWorker info; mret (Some info)
                 else mret None
  | None => mret None
  end.

(** [performReload]: is the error nil? *)
Definition performReload (ref : PlanRef) : M bool :=
  _ ← clearPendingReload;
  n ← tick;
  let '(logs, ok) := env_reload E n in
  _ ← modResult (set_res_Reload (Some (MkReloadInfo true ok None)));
  if negb ok then
    k ← tick;
    let refused := negb (bool_decide (logs = "")) || env_master E k in
    _ ← modResult (set_res_Reload (Some (MkReloadInfo refused ok None)));
    _ ← modRun (set_run_deterministic refused);
    mret false
  else
    worker ← awaitNewWorker;
    match worker with
    | None => mret false
    | Some _ => _ ← recordReload ref; mret true
    end.

(** ** Aborting (transaction.go) *)

Definition abort (stage : string) : M unit :=
  _ ← modResult (λ r, set_res_Rollback (Some (MkRollbackInfo false false))
        (set_res_Error (Some stage) (set_res_Mode ResultRejected (set_res_OK false r))));
  restored ← restoreJournal;
  if negb restored then mret tt
  else
    _ ← modResult (set_res_Rollback (Some (MkRollbackInfo true false)));
    run ← current;
    _ ← (if run_opsRan run then
           lkg ← role LKG;
           ok ← performReload lkg;
           if ok : bool then modResult (set_res_Rollback (Some (MkRollbackInfo true true))) else mret tt
         else mret tt);
    run ← current;
    if run_deterministic run then rememberNACK stage else mret tt.

Definition schedule (due : Z) : M unit :=
  run ← current;
  let planID := Manifest_PlanID (run_manifest run) in
  _ ← schedulePendingReload due (MkRef planID (run_appliedProof run));
  _ ← modResult (set_res_Mode ResultScheduled);
  _ ← modResult (set_res_Reload (Some (MkReloadInfo false false (Some due))));
  setPhase phaseScheduled planID.

(** ** Runtime ops (transaction.go) *)

(** [readFile]: the bytes of a path of the tree. *)
Definition readFileAt (n : nat) (d : Disk) : Content := λ path,
  match Abs st path with
  | inr _ => None
  | inl _ => if env_io E n ReadFile path then disk_tree d !! path ≫= readNode else None
  end.

(** [note]. *)
Definition note (op : Op) (run : applyRun) : applyRun :=
  let kind := Op_Kind op in
  if contains [OpMapAdd; OpMapSet; OpMapDel; OpMapReplace] kind then
    set_run_touchedMaps (run_touchedMaps run ++ [Op_Path op]) run
  else if contains [OpServerAdd; OpServerDel; OpServerEnable; OpServerDisable; OpServerSetAddr;
                    OpServerSetWeight; OpServerSetState] kind then
    set_run_touchedBackends (run_touchedBackends run ++ [Op_Backend op]) run
  else if bool_decide (kind = OpCertNew) then set_run_createdCerts (run_createdCerts run ++ [Op_Path op]) run
  else if bool_decide (kind = OpCANew) then set_run_createdCAs (run_createdCAs run ++ [Op_Path op]) run
  else run.

Fixpoint compileInline (content : Content) (ops : list Op) (programs : list Program) : M (option (list Program)) :=
  match ops with
  | [] => mret (Some programs)
  | op :: rest =>
      match Compile op content with
      | inr _ => mret None
      | inl program => _ ← modRun (note op); compileInline content rest (programs ++ [program])
      end
  end.

(** [compile]; [None] is its error. *)
Definition compile (ops : list Op) : M (option (list Program)) :=
  let '(inline, servers, backends) := Split ops in
  s ← server;
  if negb (Check (sv_deferrals s) servers backends) then mret None
  else
    _ ← modRun (set_run_retiringBackends backends);
    _ ← modRun (set_run_retiringServers servers);
    n ← tick;
    compileInline (readFileAt n (sv_disk s)) inline [].

Fixpoint executeChunks (batches : list (list Program)) (results : list OpResult) : M (list OpResult * bool) :=
  match batches with
  | [] => mret (results, true)
  | batch :: rest =>
      n ← tick;
      let '(batchResults, ok) := env_execute E n batch in
      _ ← modRun (set_run_opsRan true);
      if ok : bool then executeChunks rest (results ++ batchResults)
      else mret (results ++ batchResults, false)
  end.

Definition executeBatches (programs : list Program) : M (list OpResult * bool) :=
  if (length programs <=? MaxOpsPerApply)%nat then
    _ ← modRun (set_run_opsRan true);
    n ← tick;
    mret (env_execute E n programs)
  else executeChunks (chunksOf (length programs) MaxOpsPerApply programs) [].

(** [enqueueDeletes]: is the error nil? *)
Definition enqueueDeletes (worker : HAProxyInfo) : M bool :=
  run ← current;
  s ← server;
  match Enqueue (sv_deferrals s) worker (run_retiringServers run) (run_retiringBackends run) with
  | None => mret false
  | Some d => _ ← modServer (set_sv_deferrals d); mret true
  end.

(** [runInPlace]. *)
Definition runInPlace : M unit :=
  run ← current;
  let m := run_manifest run in
  if bool_decide (Manifest_InPlaceOps m = []) then mret tt
  else
    matches ← workerOpsBaselineMatches
                (MkRef (Manifest_ExpectedWorkerOpsPlanID m) (Manifest_ExpectedWorkerOpsPlanProof m));
    if negb matches then
      _ ← modResult (set_res_Error (Some "in_place"));
      invalidateBaseline
    else
      compiled ← compile (Manifest_InPlaceOps m);
      s ← server;
      let worker := sv_worker s in
      ok ← match compiled with
           | None => mret false
           | Some programs =>
               same ← checkWorker;
               if negb same then mret false
               else
                 n ← tick;
                 let '(results, ran) := env_execute E n programs in
                 _ ← modResult (set_res_OpResults results);
                 _ ← modRun (set_run_opsRan true);
                 if negb ran then mret false
                 else
                   still ← checkWorker;
                   if negb still then mret false else enqueueDeletes worker
           end;
      if negb ok then
        _ ← modResult (set_res_Error (Some "in_place"));
        invalidateBaseline
      else
        _ ← foldCreated;
        recordWorkerOps (MkRef (Manifest_WorkerOpsPlanID m) (run_workerProof run)).

Definition reloadReasonMode : string := "mode".

(** [applyRun.reload]. *)
Definition reload (reason : string) : M unit :=
  w ← pacingWindow;
  if w.2 : bool then
    _ ← schedule w.1;
    if negb (bool_decide (reason = reloadReasonMode)) then mret tt else runInPlace
  else
    run ← current;
    let ref := MkRef (Manifest_PlanID (run_manifest run)) (run_appliedProof run) in
    ok ← performReload ref;
    if negb ok then abort "reload"
    else
      _ ← modResult (set_res_Mode ResultReload);
      setPhase phaseReloaded (Manifest_PlanID (run_manifest run)).

Definition inPlace : M unit :=
  run ← current;
  _ ← modResult (set_res_Mode ResultScheduled);
  _ ← coalesceIntoPendingReload (MkRef (Manifest_PlanID (run_manifest run)) (run_appliedProof run));
  ps ← state;
  _ ← modResult (set_res_Reload (Some (MkReloadInfo false false (ps_ReloadPendingAt ps))));
  runInPlace.

Definition runOps (programs : list Program) : M unit :=
  same ← checkWorker;
  if negb same then reload "worker_changed"
  else
    s ← server;
    let worker := sv_worker s in
    executed ← executeBatches programs;
    _ ← modResult (set_res_OpResults executed.1);
    if negb executed.2 then
      _ ← recordWorkerOps noRef;
      reload "op_rejected"
    else
      still ← checkWorker;
      if negb still then reload "worker_changed"
      else
        queued ← enqueueDeletes worker;
        if negb queued then reload "deferred_delete_commit"
        else
          _ ← foldCreated;
          _ ← modResult (set_res_Mode ResultRuntime);
          run ← current;
          setPhase phaseApplied (Manifest_PlanID (run_manifest run)).

Definition settle : M unit :=
  run ← current;
  let changed := match run_tx run with Some tx => 0 <? Changes tx | None => false end in
  _ ← modResult (set_res_Mode (if changed then ResultFileOnly else ResultNoop));
  setPhase phaseApplied (Manifest_PlanID (run_manifest run)).

Definition activate : M unit :=
  pending ← reloadPending;
  run ← current;
  let m := run_manifest run in
  if pending : bool then inPlace
  else if bool_decide (Manifest_Mode m = ModeReload) then reload reloadReasonMode
  else
    unknown ← baselineUnknown;
    if unknown : bool then reload "unknown_baseline"
    else
      let ops := RuntimeOps m in
      compiled ← compile ops;
      match compiled with
      | None => reload "unknown_op"
      | Some programs =>
          if bool_decide (programs = [] ) && bool_decide (ops = []) then settle else runOps programs
      end.

(** ** The run *)

(** [begin]: the staged parts in path order, then the deletions. *)
Definition begin_ : M Transaction :=
  run ← current;
  ps ← state;
  let parts := omap (λ path, run_staged run !! path) (sort_strings (elements (dom (run_staged run)))) in
  let tx := foldl Install (Begin (cfg_ConfigFile cfg)) parts in
  mret (foldl Delete tx (deletionsOf (ps_ManifestPaths ps) (run_manifest run))).

Definition revertLKG : M unit :=
  run ← current;
  _ ← setPhase phaseBackedUp (Manifest_PlanID (run_manifest run));
  restored ← restoreJournal;
  if negb restored then abort "revert"
  else
    _ ← modResult (set_res_Rollback (Some (MkRollbackInfo true false)));
    lkg ← role LKG;
    ok ← performReload lkg;
    if negb ok then abort "revert_reload"
    else
      _ ← modResult (set_res_Rollback (Some (MkRollbackInfo true true)));
      modResult (set_res_Mode ResultReload).

Definition execute : M unit :=
  run ← current;
  let m := run_manifest run in
  if bool_decide (Manifest_Mode m = ModeRevertLKG) then revertLKG
  else
    _ ← setPhase phaseVerified (Manifest_PlanID m);
    tx ← begin_;
    _ ← modRun (set_run_tx (Some tx));
    n ← tick;
    backed ← onDisk (Backup st digestString (env_io E n) tx);
    if negb backed then abort "backup"
    else
      _ ← setPhase phaseBackedUp (Manifest_PlanID m);
      k ← tick;
      written ← onDisk (Write_ st (env_io E k) (env_cross E k) tx);
      if negb written then abort "write"
      else
        _ ← setPhase phaseWritten (Manifest_PlanID m);
        ps ← state;
        _ ← observeTree m (run_staged run) (deletionsOf (ps_ManifestPaths ps) m);
        activate.

(** ** Committing *)

Definition commitLocked : M unit :=
  run ← current;
  s ← server;
  let m := run_manifest run in
  let revert := bool_decide (Manifest_Mode m = ModeRevertLKG) in
  lkg ← role LKG;
  let applied := if revert then lkg else MkRef (Manifest_PlanID m) (run_appliedProof run) in
  _ ← (if revert then mret tt
       else
         _ ← modState (set_ps_PlanSchemaVersion (Manifest_PlanSchemaVersion m));
         _ ← modState (set_ps_ManifestPaths (manifestPaths m));
         modState (set_ps_TreeDigest (treeDigest (sv_tree s))));
  if negb (sv_invalidations s =? run_invalidations run) then modState (setRole Applied noRef)
  else
    _ ← modState (setRole Applied applied);
    _ ← modState (set_ps_AppliedToken (Manifest_Token m));
    if bool_decide (ps_ReloadPendingAt (sv_state s) = None) then modState (setRole WorkerOps applied)
    else mret tt.

Definition applyResultLocked : M unit :=
  s ← server;
  let ps := sv_state s in
  let advanced := sv_reportedInventory s <? Inventory_Generation (sv_inventory s) in
  _ ← modResult (λ r, MkApplyResult (res_PlanID r) (res_OK r) (res_Mode r) (ps_Roles ps Applied)
        (ps_Roles ps Running) (ps_Roles ps WorkerOps) (ps_Roles ps LKG) (ps_AppliedToken ps) (sv_worker s)
        (if advanced then Some (sv_inventory s) else res_Inventory r)
        (res_OpResults r) (res_Reload r) (res_Rollback r) (res_Error r));
  if advanced then modServer (set_sv_reportedInventory (Inventory_Generation (sv_inventory s))) else mret tt.

(** The result the last apply and a remembered refusal share. *)
Definition shareResult : M unit :=
  run ← current;
  _ ← modServer (set_sv_lastApply (Some (run_result run)));
  ps ← state;
  match ps_NACK ps with
  | Some record =>
      if run_remembered run then
        modState (set_ps_NACK (Some (MkNack (nack_ManifestDigest record) (nack_ManifestWork record)
          (nack_Reason record) (nack_Until record) (run_result run))))
      else mret tt
  | None => mret tt
  end.

Definition finish : M unit :=
  run ← current;
  _ ← (if res_OK (run_result run) then
         ps ← state;
         _ ← modState (set_ps_Generation ((ps_Generation ps + 1) mod 2 ^ 64));
         commitLocked
       else modState (setRole Applied noRef));
  _ ← modState (set_ps_Phase phaseIdle);
  _ ← modState (set_ps_InFlightPlanID "");
  _ ← applyResultLocked;
  _ ← shareResult;
  _ ← save;
  mret tt.

(** ** The stored plan (transaction.go) *)

(** [storePlanBlobLocked]: was the blob stored? *)
Definition storePlanBlobLocked (ref : PlanRef) (blob : string) : M bool :=
  applied ← role Applied;
  if negb (samePlanRef applied ref) then mret false
  else
    n ← tick;
    if negb (env_blob E n) then mret false
    else
      _ ← modServer (set_sv_appliedPlan (Some blob));
      _ ← modState (setRole PlanBlob ref);
      _ ← save;
      mret true.

Definition rebindPlanBlobProof : M unit :=
  run ← current;
  blob ← role PlanBlob;
  applied ← role Applied;
  if bool_decide (ref_ID blob = "") || negb (bool_decide (ref_ID blob = ref_ID applied))
     || negb (bool_decide (ref_ID applied = Manifest_PlanID (run_manifest run)))
     || negb (bool_decide (ref_Proof applied = run_appliedProof run))
     || bool_decide (ref_Proof blob = run_appliedProof run) then mret tt
  else
    _ ← modState (setRole PlanBlob (MkRef (ref_ID blob) (run_appliedProof run)));
    _ ← save;
    mret tt.

Definition commitPlanBlob : M unit :=
  run ← current;
  match run_planBlob run with
  | None => rebindPlanBlobProof
  | Some blob =>
      _ ← storePlanBlobLocked (MkRef (Manifest_PlanID (run_manifest run)) (run_appliedProof run)) blob;
      mret tt
  end.

(** [runApply], up to the asynchronous read-back. *)
Definition newRun (m : Manifest) (staged : gmap string Staged) (planBlob : option string)
    (digest work appliedProof workerProof : string) (invalidations : Z) : applyRun :=
  MkRun m staged planBlob digest work appliedProof workerProof invalidations
    (emptyResult (Manifest_PlanID m) "") None false false false [] [] [] [] [] [].

Definition runApply (m : Manifest) (staged : gmap string Staged) (planBlob : option string)
    (digest work appliedProof workerProof : string) : M ApplyResult :=
  s ← server;
  _ ← modRun (λ _, newRun m staged planBlob digest work appliedProof workerProof (sv_invalidations s));
  _ ← execute;
  _ ← finish;
  _ ← commitPlanBlob;
  run ← current;
  mret (run_result run).

(** [firePendingReload]. *)
Definition firePendingReload : M unit :=
  n ← tick;
  s ← server;
  ref ← role PendingReload;
  let early := match ps_ReloadPendingAt (sv_state s) with Some due => env_now E n <? due | None => false end in
  if bool_decide (ref_ID ref = "") || bool_decide (ref_Proof ref = "") || early then mret tt
  else
    let m := MkManifest 0 (ref_ID ref) (ref_Proof ref) 0 (MkToken 0 0) "" "" (MkToken 0 0) "" "" "" "" "" ""
               [] [] [] [] ModeReload in
    _ ← modRun (λ _, set_run_result (emptyResult (ref_ID ref) ResultReload)
                       (newRun m ∅ None "" "" "" "" 0));
    ok ← performReload ref;
    _ ← (if negb ok then abort "scheduled_reload" else mret tt);
    run ← current;
    _ ← (if negb (res_OK (run_result run)) then modState (setRole Applied noRef) else mret tt);
    _ ← applyResultLocked;
    _ ← shareResult;
    _ ← save;
    mret tt.

(** ** Admission (apply.go) *)

Inductive ManifestError :=
  | BatchLimits (err : BatchError) | UnsupportedIdentity | EmptyPlanID | TooManyFiles | InPlaceUnnamed
  | InPlaceUnproved | HalfValidated | RevertUnproved | UnknownMode | ManifestPath (err : PathError)
  | DuplicateFile (path : string) | NoDigest (path : string).

Fixpoint validateFiles (seen : gset string) (files : list File) : option ManifestError :=
  match files with
  | [] => None
  | f :: rest =>
      match ValidatePath (File_Path f) with
      | Some err => Some (ManifestPath err)
      | None =>
          if bool_decide (File_Path f ∈ seen) then Some (DuplicateFile (File_Path f))
          else if bool_decide (File_Digest f = "") then Some (NoDigest (File_Path f))
          else validateFiles ({[ File_Path f ]} ∪ seen) rest
      end
  end.

(** [validateManifest]; [None] is the nil error. *)
Definition validateManifest (m : Manifest) : option ManifestError :=
  let inPlace := negb (bool_decide (Manifest_InPlaceOps m = [])) in
  match ValidateOpBatches m with
  | Some err => Some (BatchLimits err)
  | None =>
      if negb (Manifest_IdentityVersion m =? ExactIdentityVersion) then Some UnsupportedIdentity
      else if bool_decide (Manifest_PlanID m = "") then Some EmptyPlanID
      else if MaxFiles <? Z.of_nat (length (Manifest_Files m)) then Some TooManyFiles
      else if inPlace && (bool_decide (Manifest_ExpectedWorkerOpsPlanID m = "")
                          || bool_decide (Manifest_WorkerOpsPlanID m = "")) then Some InPlaceUnnamed
      else if inPlace && bool_decide (Manifest_ExpectedWorkerOpsPlanProof m = "") then Some InPlaceUnproved
      else if negb (Bool.eqb (bool_decide (Manifest_ValidatedPlanID m = ""))
                             (bool_decide (Manifest_ValidatedPlanProof m = ""))) then Some HalfValidated
      else if bool_decide (Manifest_Mode m = ModeRevertLKG) && bool_decide (Manifest_PlanProof m = "")
      then Some RevertUnproved
      else if negb (contains [ModeAuto; ModeReload; ModeRevertLKG] (Manifest_Mode m)) then Some UnknownMode
      else validateFiles ∅ (Manifest_Files m)
  end.

(** The end of [readManifest]: runtime ops without an exact worker baseline
    become a reload. *)
Definition withoutBaseline (m : Manifest) : Manifest :=
  if bool_decide (Manifest_Mode m = ModeAuto) && bool_decide (Manifest_ExpectedWorkerOpsPlanProof m = "")
     && bool_decide (Manifest_InPlaceOps m = [])
  then MkManifest (Manifest_IdentityVersion m) (Manifest_PlanID m) (Manifest_PlanProof m)
         (Manifest_PlanSchemaVersion m) (Manifest_Token m) (Manifest_ExpectedPrevPlanID m)
         (Manifest_ExpectedPrevPlanProof m) (Manifest_ExpectedPrevToken m)
         (Manifest_ExpectedWorkerOpsPlanID m) (Manifest_ExpectedWorkerOpsPlanProof m)
         (Manifest_WorkerOpsPlanID m) (Manifest_WorkerOpsPlanProof m) (Manifest_ValidatedPlanID m)
         (Manifest_ValidatedPlanProof m) (Manifest_Files m) [] [] (Manifest_InPlaceOps m) ModeReload
  else m.

(** [readManifest], once its part is decoded. *)
Definition readManifest (m : Manifest) : Manifest + ManifestError :=
  match validateManifest m with
  | Some err => inr err
  | None => inl (withoutBaseline m)
  end.

(** [carriesRefusedPlanLocked]. *)
Definition carriesRefusedPlan (ps : persistentState) (ref : PlanRef) : bool :=
  if bool_decide (ref_Proof ref = "") || samePlanRef ref (ps_Roles ps Running) then false
  else samePlanRef ref (ps_Roles ps Applied) || samePlanRef ref (ps_Roles ps WorkerOps).

(** [inPlaceWillRunLocked]. *)
Definition inPlaceWillRun (now : Z) (s : AgentServer) (m : Manifest) : bool :=
  if bool_decide (Manifest_InPlaceOps m = []) then false
  else if bool_decide (is_Some (ps_ReloadPendingAt (sv_state s))) then true
  else bool_decide (Manifest_Mode m = ModeReload) && (now <? sv_lastReload s + cfg_ReloadIntervalMin cfg).

(** [fence]; [None] lets the manifest through. *)
Definition fence (now : Z) (s : AgentServer) (m : Manifest) : option string :=
  let ps := sv_state s in
  let applied := ps_Roles ps Applied in
  let mode := Manifest_Mode m in
  if Token_LeaderEpoch (Manifest_Token m) <? Token_LeaderEpoch (ps_AppliedToken ps) then Some "stale_epoch"
  else if bool_decide (mode = ModeRevertLKG) then
    if negb (carriesRefusedPlan ps (MkRef (Manifest_PlanID m) (Manifest_PlanProof m)))
    then Some "revert_target_mismatch" else None
  else if negb (bool_decide (Manifest_ExpectedPrevPlanID m = ref_ID applied)) then
    Some (if bool_decide (ref_ID applied = "") then "unknown_baseline" else "prev_mismatch")
  else if negb (bool_decide (Manifest_ExpectedPrevToken m = ps_AppliedToken ps)) then Some "prev_mismatch"
  else if negb (bool_decide (mode = ModeReload))
          && (bool_decide (Manifest_ExpectedPrevPlanProof m = "")
              || negb (bool_decide (Manifest_ExpectedPrevPlanProof m = ref_Proof applied)))
  then Some "prev_mismatch"
  else if bool_decide (mode = ModeReload) && negb (bool_decide (ref_Proof applied = ""))
          && negb (bool_decide (Manifest_ExpectedPrevPlanProof m = ref_Proof applied))
  then Some "prev_mismatch"
  else if (bool_decide (mode = ModeAuto) || inPlaceWillRun now s m)
          && negb (samePlanRef (MkRef (Manifest_ExpectedWorkerOpsPlanID m) (Manifest_ExpectedWorkerOpsPlanProof m))
                     (ps_Roles ps WorkerOps))
  then Some "worker_ops_mismatch"
  else None.

(** A part of the request: the plan blob, or a file by its name ([None] where the
    part names none). *)
Inductive Part := PlanPart (blob : string) | FilePart (name : option string) (body : string).

Record received := MkReceived {
  got_files : gmap string Staged;
  got_unpatched : gset string;
  got_plan : option string;
}.

(** [readPlanBlob] of the bytes a part carries; [None] is its error. *)
Definition readPlanBlob (n : nat) (blob : string) : option string :=
  if negb (env_io E n ReadPart "") then None
  else if MaxPlanBlobBytes <? Z.of_nat (String.length blob) then None
  else Some blob.

(** [stagePart]; [None] is its error. *)
Definition stagePart (n : nat) (d : Disk) (declared : gmap string File) (part : Part) (got : received) :
    option received :=
  match part with
  | PlanPart blob =>
      match readPlanBlob n blob with
      | Some plan => Some (MkReceived (got_files got) (got_unpatched got) (Some plan))
      | None => None
      end
  | FilePart None _ => None
  | FilePart (Some path) body =>
      if bool_decide (path = "") then None
      else match declared !! path with
      | None => None
      | Some declaration =>
          if bool_decide (is_Some (got_files got !! path)) || bool_decide (path ∈ got_unpatched got) then None
          else
            let verified :=
              match File_Patch declaration with
              | Some patch => StagePatch st digestString (env_io E n) d path body patch
                                (File_Digest declaration) (File_Size declaration)
              | None => Stage st digestString (env_io E n) path body (File_Digest declaration)
                          (File_Size declaration)
              end in
            match verified, File_Patch declaration with
            | inl staged, _ => Some (MkReceived (<[path := staged]> (got_files got)) (got_unpatched got)
                                       (got_plan got))
            | inr PatchBaseMissing, Some _ =>
                Some (MkReceived (got_files got) ({[ path ]} ∪ got_unpatched got) (got_plan got))
            | inr _, _ => None
            end
      end
  end.

(** [stageParts]: at most [MaxFiles] parts after the manifest. *)
Fixpoint stagePartsFrom (count : nat) (n : nat) (d : Disk) (declared : gmap string File) (parts : list Part)
    (got : received) : option received :=
  match count with
  | O => None
  | S count' =>
      match parts with
      | [] => Some got
      | part :: rest =>
          match stagePart n d declared part got with
          | None => None
          | Some got' => stagePartsFrom count' n d declared rest got'
          end
      end
  end.

Definition stageParts (n : nat) (d : Disk) (m : Manifest) (parts : list Part) : option received :=
  stagePartsFrom (S (Z.to_nat MaxFiles)) n d (declaredOf m) parts (MkReceived ∅ ∅ None).

(** [missingParts]: the declared files neither received nor held. *)
Definition missingParts (s : AgentServer) (m : Manifest) (got : received) : list string :=
  let missing f :=
    if bool_decide (is_Some (got_files got !! File_Path f)) then false
    else if bool_decide (File_Path f ∈ got_unpatched got) then true
    else match sv_tree s !! File_Path f with
         | Some at_ => negb (negb (bool_decide (File_Proof f = "")) && bool_decide (FileAt_Proof at_ = File_Proof f)
                             && bool_decide (FileAt_Digest at_ = File_Digest f) && (FileAt_Size at_ =? File_Size f))
         | None => true
         end in
  sort_strings (File_Path <$> filter (λ f, missing f = true) (Manifest_Files m)).

(** What an apply request is answered with. *)
Inductive Answer :=
  | Conflict (reason : string)
  | Missing (paths : list string)
  | CachedRefusal (result : ApplyResult)
  | Refused (stage : string)
  | Answered (result : ApplyResult).

(** [stageAndRun]. [workIdentity] is the JSON of the work a manifest asks for, [""]
    when it cannot be built. *)
Definition stageAndRun (workIdentity : Manifest → string) (m : Manifest) (parts : list Part) : M Answer :=
  n ← tick;
  s ← server;
  match stageParts n (sv_disk s) m parts with
  | None => mret (Refused "parts")
  | Some got =>
      match missingParts s m got with
      | _ :: _ as missing => mret (Missing missing)
      | [] =>
          let work := workIdentity m in
          let digest := if bool_decide (work = "") then "" else digestString work in
          cached ← (if bool_decide (work = "") then mret None else cachedNACK digest work);
          match cached with
          | Some result => mret (CachedRefusal result)
          | None =>
              promoted ← promoteLKG m;
              if negb promoted then mret (Refused "lkg")
              else
                proofs ← (if bool_decide (Manifest_Mode m = ModeRevertLKG) then mret (Some ("", ""))
                          else reserveRoleProofs (negb (bool_decide (Manifest_InPlaceOps m = []))));
                match proofs with
                | None => mret (Refused "identity")
                | Some (appliedProof, workerProof) =>
                    result ← runApply m (got_files got) (got_plan got) digest work appliedProof workerProof;
                    mret (Answered result)
                end
          end
      end
  end.

(** [handleApply] of a decoded manifest and the parts that follow it. *)
Definition handleApply (workIdentity : Manifest → string) (decoded : Manifest) (parts : list Part) : M Answer :=
  match readManifest decoded with
  | inr _ => mret (Refused "manifest")
  | inl m =>
      n ← tick;
      s ← server;
      match fence (env_now E n) s m with
      | Some reason => mret (Conflict reason)
      | None => stageAndRun workIdentity m parts
      end
  end.
End agent.
