(* ===== verification/AgentRecovery.v ===== *)
(** * Restarts, read-backs and observations of the agent

    Models the rest of [src/pkg/dataplane/agent/server]: what a starting agent
    makes of the state file and the tree ([server.go], [statemachine.go]), the
    read-back after runtime ops ([reload.go]), the re-observation a state read
    may ask for, the stored plan ([handlers.go], [transaction.go]), and the
    invariants a finished apply is checked against ([transaction.go]). *)

From stdpp Require Import base list list_numbers functions gmap strings.
From S2P Require Import Prelude Api GoStd RenderPlan MapEntries MapDelta Cli Deferrals FileTree AgentState Agent.

Open Scope Z_scope.

(** ** Invariants of a finished apply (transaction.go) *)

(** [treeMatchesLocked]. *)
Definition treeMatches (tree : gmap string FileAt) (m : Manifest) : bool :=
  (Z.of_nat (size tree) =? Z.of_nat (length (Manifest_Files m)))
  && forallb (λ f, match tree !! File_Path f with
                   | Some at_ => bool_decide (FileAt_Digest at_ = File_Digest f)
                                 && bool_decide (FileAt_Proof at_ = File_Proof f)
                                 && (FileAt_Size at_ =? File_Size f)
                   | None => false
                   end) (Manifest_Files m).

(** Did a result reload, now or later? *)
Definition reloaded (res : ApplyResult) : bool :=
  match res_Reload res with
  | Some info => ReloadInfo_Performed info || bool_decide (is_Some (ReloadInfo_ScheduledAt info))
  | None => false
  end.

(** [checkInvariantsLocked]: the names of the invariants that do not hold. The
    count of cross-device copies is not part of the model. *)
Definition checkInvariants (generationBefore : Z) (s : AgentServer) (run : applyRun) : list string :=
  let ps := sv_state s in
  let res := run_result run in
  let m := run_manifest run in
  let check (holds : bool) (name : string) := if holds then [] else [name] in
  (if res_OK res then
     check (ps_Generation ps =? (generationBefore + 1) mod 2 ^ 64) "generation_monotonic" ++
     (if bool_decide (Manifest_Mode m = ModeRevertLKG) then []
      else check (treeMatches (sv_tree s) m) "disk_is_the_desired_set")
   else []) ++
  (if bool_decide (res_Mode res = ResultRuntime) then check (negb (reloaded res)) "runtime_mode_does_not_reload"
   else if bool_decide (res_Mode res = ResultReload) then check (reloaded res) "reload_mode_reloads"
   else if bool_decide (res_Mode res = ResultNoop)
   then check (bool_decide (res_OpResults res = [])) "noop_runs_no_ops" else []) ++
  check (journalEmpty (disk_journal (sv_disk s))
         || negb (samePlanRef (ps_Roles ps Applied) (ps_Roles ps LKG))) "journal_only_while_diverged".

(** ** Read-back (reload.go) *)

Definition dedupe (values : list string) : list string := keyOrderFrom ∅ values.

(** Why a map cannot be read: only the first is [cli.ErrTooManyEntries]. *)
Inductive MapReadError := ErrTooManyEntries | MapFileOverLimit | MapUnreadable.

Definition isTooManyEntries (err : MapReadError) : bool :=
  match err with ErrTooManyEntries => true | _ => false end.

(** What a read-back asks the worker: whether a backend's servers can be listed,
    and the entries of a map; whether the agent is stopping; and the plan
    blob a starting agent finds. *)
Record Runtime := MkRuntime {
  rt_serverNames : nat → string → bool;
  rt_mapEntries : nat → string → gmap string (list string) + MapReadError;
  rt_stopped : nat → bool;
  rt_planBlob : nat → option string;
}.

Section recovery.
Context (digestString : string → string) (fingerprint : nat → string → string → string).
Context (cfg : AgentConfig) (E : Env) (rt : Runtime).

Abbreviation st := (cfg_store cfg).

(** [readMapFile]. *)
Definition readMapFile (n : nat) (d : Disk) (path : string) : gmap string (list string) + MapReadError :=
  match readFileAt cfg E n d path with
  | None => inr MapUnreadable
  | Some content =>
      let parsed := default [] (ParseMapEntries content) in
      if MaxMapEntries <? Z.of_nat (length parsed) then inr MapFileOverLimit else inl (valuesByKey parsed)
  end.

(** [mapDiverged]. *)
Definition mapDiverged (path : string) : M bool :=
  n ← tick;
  match rt_mapEntries rt n path with
  | inr err => mret (negb (isTooManyEntries err))
  | inl running =>
      k ← tick;
      s ← server;
      match readMapFile k (sv_disk s) path with
      | inr err => mret (negb (isTooManyEntries err))
      | inl desired =>
          mret (negb (bool_decide (size running = size desired))
                || negb (bool_decide (dom desired ⊆ dom running)))
      end
  end.

Fixpoint anyDiverged (paths : list string) (diverged : bool) : M bool :=
  match paths with
  | [] => mret diverged
  | path :: rest => d ← mapDiverged path; anyDiverged rest (diverged || d)
  end.

Fixpoint unreadableBackends (retiring backends : list string) (diverged : bool) : M bool :=
  match backends with
  | [] => mret diverged
  | backend :: rest =>
      if contains retiring backend then unreadableBackends retiring rest diverged
      else n ← tick; unreadableBackends retiring rest (diverged || negb (rt_serverNames rt n backend))
  end.

(** The run of a reload nobody applied. *)
Definition reloadRun (planID planProof : string) : applyRun :=
  let m := MkManifest 0 planID planProof 0 (MkToken 0 0) "" "" (MkToken 0 0) "" "" "" "" "" "" [] [] [] []
             ModeReload in
  set_run_result (emptyResult planID ResultReload) (newRun m ∅ None "" "" "" "" 0).

(** [selfReload]. *)
Definition selfReload : M unit :=
  applied ← role Applied;
  _ ← modRun (λ _, reloadRun (ref_ID applied) (ref_Proof applied));
  _ ← performReload E applied;
  _ ← save E;
  mret tt.

(** [readBack] of the last run. *)
Definition readBack : M unit :=
  run ← current;
  n ← tick;
  if negb (bool_decide (res_Mode (run_result run) = ResultRuntime)) || negb (res_OK (run_result run))
     || rt_stopped rt n then mret tt
  else
    backends ← unreadableBackends (run_retiringBackends run) (dedupe (run_touchedBackends run)) false;
    diverged ← anyDiverged (dedupe (run_touchedMaps run)) backends;
    k ← tick;
    if negb diverged || rt_stopped rt k then mret tt
    else
      w ← pacingWindow cfg E;
      if w.2 : bool then
        applied ← role Applied;
        schedulePendingReload E w.1 applied
      else selfReload.

(** ** Starting (server.go, statemachine.go) *)

(** [loadPlanBlob]. *)
Definition loadPlanBlob : M unit :=
  blob ← role PlanBlob;
  if bool_decide (ref_ID blob = "") || bool_decide (ref_Proof blob = "") then mret tt
  else
    n ← tick;
    match rt_planBlob rt n with
    | None => modState (setRole PlanBlob noRef)
    | Some content => modServer (set_sv_appliedPlan (Some content))
    end.

(** The zero [time.Time], in nanoseconds of the epoch. *)
Definition zeroTime : Z := -62135596800 * 1000000000.

(** [New]: a process that starts over from the state file and what is on disk. The
    journal is part of the state file. *)
Definition New_ : M unit :=
  _ ← (λ w, let s := w_server w in
            let d := sv_disk s in
            (MkWorld
               (MkAgent (sv_saved s).1 (sv_saved s) (MkDisk (disk_tree d) (disk_backups d) (sv_saved s).2) ∅ ∅
                  (MkHAProxyInfo "" "" 0 0) (MkInventory 0 [] [] [] [] []) 0 zeroTime 0 NewDeferrals None
                  (sv_lastApply s))
               (reloadRun "" "") (w_tick w), tt));
  loadPlanBlob.

(** [probeHAProxy]: is the error nil? *)
Definition probeHAProxy : M bool :=
  n ← tick;
  match env_info E n with
  | None => mret false
  | Some info =>
      k ← tick;
      if negb (env_master E k) then mret false
      else
        j ← tick;
        match env_inventory E j with
        | None => mret false
        | Some inventory =>
            s ← server;
            _ ← modServer (set_sv_worker info);
            _ ← modServer (set_sv_deferrals (SetWorker (sv_deferrals s) info));
            _ ← modServer (set_sv_inventory
                  (MkInventory 1 (Inventory_Maps inventory) (Inventory_Certs inventory)
                     (Inventory_CAFiles inventory) (Inventory_CRLFiles inventory) (Inventory_CRTLists inventory)));
            mret true
        end
  end.

(** A plan name without its proof. *)
Definition withoutProof (ref : PlanRef) : PlanRef := MkRef (ref_ID ref) "".
Definition withoutID (ref : PlanRef) : PlanRef := MkRef "" (ref_Proof ref).

Definition updateRole (r : Role) (f : PlanRef → PlanRef) (ps : persistentState) : persistentState :=
  setRole r (f (ps_Roles ps r)) ps.

(** [adoptDisk]: is the error nil? *)
Definition adoptDisk : M bool :=
  n ← tick;
  s ← server;
  match HashTree st digestString (env_io E n) (sv_disk s) (ps_ManifestPaths (sv_state s)) with
  | None => mret false
  | Some tree =>
      let digest := treeDigest digestString tree in
      let expected := ps_TreeDigest (sv_state s) in
      _ ← (if negb (bool_decide (expected = "")) && negb (bool_decide (expected = digest)) then
             _ ← modState (updateRole Applied withoutID);
             _ ← modState (updateRole Running withoutID);
             modState (updateRole WorkerOps withoutID)
           else mret tt);
      _ ← modState (updateRole Applied withoutProof);
      _ ← modState (updateRole Running withoutProof);
      _ ← modState (updateRole WorkerOps withoutProof);
      _ ← modState (updateRole LKG withoutProof);
      _ ← modState (setRole PendingReload noRef);
      _ ← modState (set_ps_ReloadPendingAt None);
      _ ← modState (updateRole PlanBlob withoutProof);
      _ ← modState (set_ps_NACK None);
      _ ← modServer (set_sv_tree tree);
      _ ← modState (set_ps_TreeDigest digest);
      _ ← modState (set_ps_ExpectedWorker (sv_worker s));
      save E
  end.

(** [recoverFromCrash]: is the error nil? *)
Definition recoverFromCrash : M bool :=
  ps ← state;
  if bool_decide (ps_Phase ps = phaseIdle) || bool_decide (ps_Phase ps = phaseCommitted) then mret true
  else
    _ ← invalidateBaseline;
    _ ← modRun (λ _, reloadRun (ps_InFlightPlanID ps) "");
    ok ← performReload E noRef;
    _ ← modState (set_ps_Phase phaseIdle);
    _ ← modState (set_ps_InFlightPlanID "");
    _ ← (if ok : bool then mret tt else modState (setRole Running noRef));
    save E.

(** [initialise] with one probe of HAProxy: is the agent ready? A probe that fails
    is repeated. *)
Definition initialise : M bool :=
  probed ← probeHAProxy;
  if negb probed then mret false
  else
    adopted ← adoptDisk;
    if negb adopted then mret false else recoverFromCrash.

(** ** Observing (handlers.go) *)

(** [refreshTree]: is the error nil? *)
Definition refreshTree : M bool :=
  n ← tick;
  s ← server;
  match HashTree st digestString (env_io E n) (sv_disk s) (ps_ManifestPaths (sv_state s)) with
  | None => mret false
  | Some observed =>
      let print path := fingerprint n path
        (default "" (disk_tree (sv_disk s) !! path ≫= readNode)) in
      let kept path := bool_decide (sv_prints s !! path = Some (print path)) in
      let proof path := default "" (FileAt_Proof <$> sv_tree s !! path) in
      let tree := map_imap (λ path at_, Some (if kept path
                    then MkFileAt (FileAt_Digest at_) (proof path) (FileAt_Size at_) else at_)) observed in
      let prints := map_imap (λ path (_ : FileAt), if kept path then Some (print path) else None) observed in
      _ ← modServer (set_sv_tree tree);
      _ ← modServer (set_sv_prints prints);
      _ ← modState (set_ps_TreeDigest (treeDigest digestString tree));
      mret true
  end.

(** [reobserve]: is the error nil? *)
Definition reobserve : M bool :=
  ok ← refreshTree;
  if negb ok then mret false else _ ← checkWorker E; mret true.

(** The plan a state read hands back ([stateResponse]). *)
Definition storedPlan (s : AgentServer) : option (option string) :=
  if samePlanRef (ps_Roles (sv_state s) PlanBlob) (ps_Roles (sv_state s) Applied)
     && negb (bool_decide (ref_ID (ps_Roles (sv_state s) PlanBlob) = ""))
  then Some (sv_appliedPlan s) else None.

(** [handlePlan] of a request that names a plan: was it stored? *)
Definition handlePlan (ref : PlanRef) (blob : string) : M bool :=
  n ← tick;
  if bool_decide (ref_ID ref = "") || bool_decide (ref_Proof ref = "") then mret false
  else match readPlanBlob E n blob with
  | None => mret false
  | Some plan => storePlanBlobLocked E ref plan
  end.
End recovery.
