(* ===== verification/AgentProps.v ===== *)
(** * Correctness of the agent's state machine

    What an apply leaves behind: a refused one is rolled back to the last known
    good tree or can still be; a committed one names its own plan; the fence is
    a compare-and-swap on the plan, the token and the worker's baseline; the
    ownership set after a rollback is that of the last known good set, up to the
    paths that were modified and then dropped. *)

From Stdlib Require Import Ascii.
From stdpp Require Import base list list_numbers functions gmap strings.
From S2P Require Import Prelude Api GoStd Cli Deferrals FileTree FileTreeProps AgentState Agent.

Open Scope Z_scope.

(** ** Frames: what an operation leaves alone *)

Definition keeps {A B} (f : World → B) (m : M A) : Prop := ∀ w, f (m w).1 = f w.

Lemma keeps_ret {A B} (f : World → B) (x : A) : keeps f (mret x).
Proof. by intros w. Qed.

Lemma keeps_bind {A A' B} (f : World → B) (m : M A) (k : A → M A') :
  keeps f m → (∀ x, keeps f (k x)) → keeps f (m ≫= k).
Proof.
  intros Hm Hk w. specialize (Hm w). unfold mbind, M_bind. destruct (m w) as [w1 x]. simpl in *.
  by rewrite Hk.
Qed.

(** The disk, and what a result says about success and rollback. *)
Definition diskOf (w : World) : Disk := sv_disk (w_server w).
Definition verdictOf (w : World) : bool * option RollbackInfo :=
  (res_OK (run_result (w_run w)), res_Rollback (run_result (w_run w))).

Create HintDb keeps.

Ltac keeps_step :=
  first [ solve [eauto with keeps] | apply keeps_ret | apply keeps_bind; [|intros ?]
        | solve [intros ?w; reflexivity] | progress cbv zeta | case_match ].
Ltac keeps := repeat keeps_step.

Section frames.
Context (digestString : string → string) (fingerprint : nat → string → string → string).
Context (cfg : AgentConfig) (E : Env).

Lemma save_disk : keeps diskOf (save E).
Proof. unfold save. keeps. Qed.
Lemma save_verdict : keeps verdictOf (save E).
Proof. unfold save. keeps. Qed.
Hint Resolve save_disk save_verdict : keeps.

Lemma setPhase_disk p id : keeps diskOf (setPhase E p id).
Proof. unfold setPhase. keeps. Qed.
Lemma setPhase_verdict p id : keeps verdictOf (setPhase E p id).
Proof. unfold setPhase. keeps. Qed.
Hint Resolve setPhase_disk setPhase_verdict : keeps.

Lemma adoptWorker_disk info : keeps diskOf (adoptWorker E info).
Proof. unfold adoptWorker. keeps. Qed.
Lemma adoptWorker_verdict info : keeps verdictOf (adoptWorker E info).
Proof. unfold adoptWorker. keeps. Qed.
Hint Resolve adoptWorker_disk adoptWorker_verdict : keeps.

Lemma invalidateBaseline_disk : keeps diskOf invalidateBaseline.
Proof. unfold invalidateBaseline. keeps. Qed.
Lemma invalidateBaseline_verdict : keeps verdictOf invalidateBaseline.
Proof. unfold invalidateBaseline. keeps. Qed.
Hint Resolve invalidateBaseline_disk invalidateBaseline_verdict : keeps.

Lemma checkWorker_disk : keeps diskOf (checkWorker E).
Proof. unfold checkWorker. keeps. Qed.
Lemma checkWorker_verdict : keeps verdictOf (checkWorker E).
Proof. unfold checkWorker. keeps. Qed.
Hint Resolve checkWorker_disk checkWorker_verdict : keeps.

Lemma compileInline_disk content ops programs : keeps diskOf (compileInline content ops programs).
Proof. revert programs. induction ops as [|op ops IH]; intros programs; simpl; keeps. Qed.
Lemma compileInline_verdict content ops programs : keeps verdictOf (compileInline content ops programs).
Proof.
  revert programs. induction ops as [|op ops IH]; intros programs; simpl; keeps.
  intros w. unfold verdictOf, modRun, note. simpl. by repeat case_match.
Qed.
Hint Resolve compileInline_disk compileInline_verdict : keeps.

Lemma compile_disk ops : keeps diskOf (compile cfg E ops).
Proof. unfold compile. keeps. Qed.
Lemma compile_verdict ops : keeps verdictOf (compile cfg E ops).
Proof. unfold compile. keeps. Qed.
Hint Resolve compile_disk compile_verdict : keeps.

Lemma executeChunks_disk batches results : keeps diskOf (executeChunks E batches results).
Proof. revert results. induction batches as [|b bs IH]; intros results; simpl; keeps. Qed.
Lemma executeChunks_verdict batches results : keeps verdictOf (executeChunks E batches results).
Proof. revert results. induction batches as [|b bs IH]; intros results; simpl; keeps. Qed.
Hint Resolve executeChunks_disk executeChunks_verdict : keeps.

Lemma executeBatches_disk programs : keeps diskOf (executeBatches E programs).
Proof. unfold executeBatches. keeps. Qed.
Lemma executeBatches_verdict programs : keeps verdictOf (executeBatches E programs).
Proof. unfold executeBatches. keeps. Qed.
Hint Resolve executeBatches_disk executeBatches_verdict : keeps.

Lemma enqueueDeletes_disk worker : keeps diskOf (enqueueDeletes worker).
Proof. unfold enqueueDeletes. keeps. Qed.
Lemma enqueueDeletes_verdict worker : keeps verdictOf (enqueueDeletes worker).
Proof. unfold enqueueDeletes. keeps. Qed.
Hint Resolve enqueueDeletes_disk enqueueDeletes_verdict : keeps.

Lemma foldCreated_disk : keeps diskOf foldCreated.
Proof. unfold foldCreated. keeps. Qed.
Lemma foldCreated_verdict : keeps verdictOf foldCreated.
Proof. unfold foldCreated. keeps. Qed.
Hint Resolve foldCreated_disk foldCreated_verdict : keeps.

Lemma runInPlace_disk : keeps diskOf (runInPlace cfg E).
Proof. unfold runInPlace, workerOpsBaselineMatches, recordWorkerOps. keeps. Qed.
Lemma runInPlace_verdict : keeps verdictOf (runInPlace cfg E).
Proof. unfold runInPlace, workerOpsBaselineMatches, recordWorkerOps. keeps. Qed.
Hint Resolve runInPlace_disk runInPlace_verdict : keeps.

Lemma schedule_disk due : keeps diskOf (schedule E due).
Proof. unfold schedule, schedulePendingReload. keeps. Qed.
Lemma schedule_verdict due : keeps verdictOf (schedule E due).
Proof. unfold schedule, schedulePendingReload. keeps. Qed.
Hint Resolve schedule_disk schedule_verdict : keeps.

(** ** The disk *)

(** Sequencing: what holds after the first part is assumed by the second. *)
Lemma after_bind {A A'} (Q : A → World → Prop) (R : World → Prop) (m : M A) (k : A → M A') w :
  Q (m w).2 (m w).1 → (∀ x w', Q x w' → R (k x w').1) → R ((m ≫= k) w).1.
Proof. intros Hm Hk. unfold mbind, M_bind. destruct (m w) as [w1 x]. by apply Hk. Qed.

Lemma ClearJournal_disk io d :
  disk_tree (ClearJournal io d).1 = disk_tree d ∧ disk_journal (ClearJournal io d).1 = [].
Proof. unfold ClearJournal. cbv zeta. by destruct (foldl _ _ _). Qed.

Lemma clearJournal_disk w :
  let w' := (clearJournal E w).1 in
  disk_tree (diskOf w') = disk_tree (diskOf w) ∧ disk_journal (diskOf w') = [] ∧
  verdictOf w' = verdictOf w.
Proof.
  unfold clearJournal, mbind, M_bind, tick, onDisk, diskOf. simpl.
  pose proof (ClearJournal_disk (env_io E (w_tick w)) (sv_disk (w_server w))) as H.
  destruct (ClearJournal _ _) as [d x]. simpl in *. by destruct H.
Qed.

(** A reload touches no file; a completed one may drop the journal. *)
Definition cleared (w w' : World) : Prop :=
  disk_tree (diskOf w') = disk_tree (diskOf w) ∧
  (diskOf w' = diskOf w ∨ disk_journal (diskOf w') = []) ∧ verdictOf w' = verdictOf w.

Lemma keeps_cleared {A} (m : M A) w :
  keeps diskOf m → keeps verdictOf m → cleared w (m w).1.
Proof. intros Hd Hv. unfold cleared. rewrite Hd, Hv. auto. Qed.

Lemma cleared_trans w1 w2 w3 : cleared w1 w2 → cleared w2 w3 → cleared w1 w3.
Proof.
  intros (Ht & Hd & Hv) (Ht' & Hd' & Hv'). split; [congruence|]. split; [|congruence].
  destruct Hd' as [Hd'|Hd']; [|by right]. rewrite Hd'. destruct Hd; auto.
Qed.

Lemma cleared_bind {A A'} (m : M A) (k : A → M A') w :
  cleared w (m w).1 → (∀ x w', cleared w' (k x w').1) → cleared w ((m ≫= k) w).1.
Proof.
  intros Hm Hk. unfold mbind, M_bind. destruct (m w) as [w1 x]. eapply cleared_trans; [exact Hm|apply Hk].
Qed.

Lemma recordReload_cleared ref w : cleared w (recordReload E ref w).1.
Proof.
  unfold recordReload.
  repeat (apply cleared_bind; [apply keeps_cleared; intros ?; reflexivity|intros ? ?]).
  case_match; [apply keeps_cleared; apply keeps_ret|].
  apply cleared_bind; [apply keeps_cleared; intros ?; reflexivity|intros ? w1].
  apply cleared_bind; [|intros ? w2; apply keeps_cleared; apply keeps_ret].
  destruct (clearJournal_disk w1) as (H1 & H2 & H3). split_and!; [done|by right|done].
Qed.

Lemma awaitNewWorker_frame w :
  diskOf (awaitNewWorker E w).1 = diskOf w ∧ verdictOf (awaitNewWorker E w).1 = verdictOf w.
Proof.
  assert (Hd : keeps diskOf (awaitNewWorker E)) by (unfold awaitNewWorker; keeps).
  assert (Hv : keeps verdictOf (awaitNewWorker E)) by (unfold awaitNewWorker; keeps).
  by rewrite Hd, Hv.
Qed.

(** A reload either fails, with the disk as it was, or is recorded. *)
Lemma performReload_cases ref w :
  ∃ w1, diskOf w1 = diskOf w ∧ verdictOf w1 = verdictOf w ∧
    (performReload E ref w = (w1, false) ∨ performReload E ref w = ((recordReload E ref w1).1, true)).
Proof.
  unfold performReload, clearPendingReload, mbind, M_bind, tick, modState, modServer, modResult, modRun. simpl.
  destruct (env_reload E (w_tick w)) as [logs ok]. destruct ok; simpl.
  2: { eexists. split_and!; [| |by left]; reflexivity. }
  match goal with |- context [awaitNewWorker E ?w0] =>
    pose proof (awaitNewWorker_frame w0) as [Hd Hv]; destruct (awaitNewWorker E w0) as [w1 worker] end.
  simpl in Hd, Hv. exists w1. split; [exact Hd|]. split; [exact Hv|].
  destruct worker as [info|]; [right|by left]. by destruct (recordReload E ref w1) as [w2 []].
Qed.

Lemma performReload_cleared ref w : cleared w (performReload E ref w).1.
Proof.
  destruct (performReload_cases ref w) as (w1 & Hd & Hv & [-> | ->]); simpl.
  - split_and!; [by rewrite Hd|by left|done].
  - eapply (cleared_trans w w1); [split_and!; [by rewrite Hd|by left|done]|apply recordReload_cleared].
Qed.

(** ** Rolling back *)

(** The journal still describes the last known good tree [lkg], and a rollback
    reported as performed has put it back. *)
Definition rolledBack (lkg : gmap string Node) (w : World) : Prop :=
  journal_ok (cfg_store cfg) digestString lkg (diskOf w) ∧
  match (verdictOf w).2 with
  | Some rollback => RollbackInfo_Performed rollback = true → disk_tree (diskOf w) = lkg
  | None => True
  end.

(** Dropping the journal of a tree that is the last known good one is safe. *)
Lemma cleared_ok lkg w w' :
  cleared w w' → disk_tree (diskOf w) = lkg → journal_ok (cfg_store cfg) digestString lkg (diskOf w) →
  journal_ok (cfg_store cfg) digestString lkg (diskOf w').
Proof.
  intros (Ht & Hd & _) Hlkg Hok. destruct Hd as [->|Hd]; [done|].
  rewrite <-Hlkg, <-Ht. by apply empty_journal_ok.
Qed.

Context (digest_no_slash : ∀ t, "/"%char ∉ chars (digestString t)).

Lemma restoreJournal_disk lkg w :
  journal_ok (cfg_store cfg) digestString lkg (diskOf w) →
  let '(w', ok) := restoreJournal digestString cfg E w in
  journal_ok (cfg_store cfg) digestString lkg (diskOf w') ∧ verdictOf w' = verdictOf w ∧
  (ok = true → disk_tree (diskOf w') = lkg).
Proof.
  intros Hok. unfold restoreJournal, mbind, M_bind, tick, onDisk, server. cbn [w_server w_run w_tick].
  pose proof (Restore_ok (cfg_store cfg) digestString (env_io E (w_tick w)) lkg (cfg_ConfigFile cfg)
                (diskOf w) Hok) as HR.
  unfold diskOf in HR at 1. destruct (Restore _ _ _ _) as [d ok]. destruct HR as (Hok1 & Htree & _).
  destruct ok; cbn [negb w_server w_run w_tick]; [|by split_and!].
  destruct (HashTree _ _ _ _ _) as [tree|]; [|by split_and!].
  unfold modState, modServer. cbn [w_server w_run w_tick].
  match goal with |- context [clearJournal E ?w0] =>
    pose proof (clearJournal_disk w0) as (H1 & H2 & H3); destruct (clearJournal E w0) as [w1 x] end.
  simpl in H1, H2, H3. unfold diskOf in H1 at 2. simpl in H1. rewrite Htree in H1 by done.
  split_and!; [|done|done]. rewrite <-H1. by apply empty_journal_ok.
Qed.

(** A refused run whose tree is the last known good one. *)
Definition restored (lkg : gmap string Node) (w : World) : Prop :=
  journal_ok (cfg_store cfg) digestString lkg (diskOf w) ∧ disk_tree (diskOf w) = lkg ∧ (verdictOf w).1 = false.

Lemma restored_cleared lkg w w' : cleared w w' → restored lkg w → restored lkg w'.
Proof.
  intros Hc (H1 & H2 & H3). split; [by eapply cleared_ok|]. destruct Hc as (Ht & _ & Hv).
  by rewrite Ht, Hv.
Qed.

(** A refused run, rolled back or still able to be. *)
Definition aborted (lkg : gmap string Node) (w : World) : Prop := (verdictOf w).1 = false ∧ rolledBack lkg w.

Lemma restored_rolledBack lkg w : restored lkg w → aborted lkg w.
Proof. intros (H1 & H2 & H3). split; [done|]. split; [done|]. by destruct (verdictOf w).2. Qed.

Lemma rememberNACK_cleared reason w : cleared w (rememberNACK E reason w).1.
Proof.
  apply keeps_cleared; unfold rememberNACK; keeps.
Qed.

Lemma abort_rolledBack lkg stage w :
  journal_ok (cfg_store cfg) digestString lkg (diskOf w) →
  aborted lkg (abort digestString cfg E stage w).1.
Proof.
  intros Hok. unfold abort. unfold mbind at 1. unfold M_bind at 1. unfold modResult at 1, modRun at 1. cbn [fst].
  match goal with |- context [(_ ≫= _) ?w0] => set (w1 := w0) end.
  assert (Hok1 : journal_ok (cfg_store cfg) digestString lkg (diskOf w1)) by exact Hok.
  pose proof (restoreJournal_disk lkg w1 Hok1) as HR.
  unfold mbind at 1. unfold M_bind at 1.
  destruct (restoreJournal digestString cfg E w1) as [w2 ok]. destruct HR as (Hok2 & Hv2 & Htree).
  destruct ok; cbn [negb].
  2: { change ((mret tt : M unit) w2) with (w2, tt). cbn [fst]. split; [by rewrite Hv2|].
       split; [exact Hok2|]. rewrite Hv2. cbn. discriminate. }
  apply restored_rolledBack.
  apply (after_bind (λ _ w, restored lkg w)).
  { split; [exact Hok2|]. split; [by apply Htree|]. unfold verdictOf in Hv2. injection Hv2 as Hv _.
    unfold verdictOf. cbn. rewrite Hv. reflexivity. }
  intros _ w3 H3. apply (after_bind (λ _ w, restored lkg w)); [exact H3|].
  intros run w4 H4. apply (after_bind (λ _ w, restored lkg w)).
  { case_match; [|exact H4]. apply (after_bind (λ _ w, restored lkg w)); [exact H4|].
    intros lkgRef w5 H5. apply (after_bind (λ _ w, restored lkg w)).
    { eapply restored_cleared; [apply performReload_cleared|exact H5]. }
    intros ok w6 H6. by destruct ok. }
  intros _ w5 H5. apply (after_bind (λ _ w, restored lkg w)); [exact H5|].
  intros run' w6 H6. case_match; [|exact H6]. eapply restored_cleared; [apply rememberNACK_cleared|exact H6].
Qed.

(** Every run ends with its tree in place, or refused and rolled back. *)
Definition settled (lkg t : gmap string Node) (w : World) : Prop :=
  ((verdictOf w).1 = true ∧ disk_tree (diskOf w) = t) ∨ aborted lkg w.

(** While a run is in flight. *)
Definition inFlight (lkg t : gmap string Node) (w : World) : Prop :=
  journal_ok (cfg_store cfg) digestString lkg (diskOf w) ∧ (verdictOf w).1 = true ∧
  disk_tree (diskOf w) = t.

Lemma inFlight_settled lkg t w : inFlight lkg t w → settled lkg t w.
Proof. intros (_ & H & Ht). by left. Qed.

Lemma inFlight_keeps {A} lkg t (m : M A) w :
  keeps diskOf m → keeps verdictOf m → inFlight lkg t w → inFlight lkg t (m w).1.
Proof. unfold inFlight. intros Hd Hv. by rewrite Hd, Hv. Qed.

Lemma abort_settled lkg t stage w : inFlight lkg t w → settled lkg t (abort digestString cfg E stage w).1.
Proof. intros [Hok _]. right. by apply abort_rolledBack. Qed.

Lemma inFlight_bind {A A'} lkg t t' (m : M A) (k : A → M A') w :
  keeps diskOf m → keeps verdictOf m → (∀ x w', inFlight lkg t w' → settled lkg t' (k x w').1) →
  inFlight lkg t w → settled lkg t' ((m ≫= k) w).1.
Proof.
  intros Hd Hv Hk Hw. apply (after_bind (λ _ w, inFlight lkg t w)); [|by apply Hk].
  by apply inFlight_keeps.
Qed.

Lemma settled_cleared lkg t w w' : inFlight lkg t w → cleared w w' → settled lkg t w'.
Proof. intros (_ & Hw & Ht) (Ht' & _ & Hv). left. by rewrite Hv, Ht'. Qed.

(** Steps that keep disk and verdict, then a run in flight goes on. *)
Ltac in_flight :=
  first [ apply inFlight_bind; [solve [keeps]|solve [keeps]|intros ? ?; intros ?H]
        | apply inFlight_settled; apply inFlight_keeps; [solve [keeps]|solve [keeps]|assumption] ].

(** A reload as the last thing a run does: aborted when it fails. *)
Lemma performReload_settled lkg t ref stage (k : M unit) w :
  keeps (λ w, ((verdictOf w).1, disk_tree (diskOf w))) k → inFlight lkg t w →
  settled lkg t ((ok ← performReload E ref; if negb ok then abort digestString cfg E stage else k) w).1.
Proof.
  intros Hk (Hok & Htrue & Ht). destruct (performReload_cases ref w) as (w1 & Hd & Hv & Hp).
  unfold mbind at 1, M_bind at 1. destruct Hp as [-> | ->]; cbn [negb].
  - apply abort_settled. unfold inFlight. by rewrite Hd, Hv.
  - left. destruct (recordReload_cleared ref w1) as (Ht2 & _ & Hv2). specialize (Hk (recordReload E ref w1).1).
    cbn beta in Hk. apply pair_equal_spec in Hk as [Hk1 Hk2]. by rewrite Hk1, Hk2, Hv2, Ht2, Hv, Hd.
Qed.

Lemma reload_settled lkg t reason w : inFlight lkg t w → settled lkg t (reload digestString cfg E reason w).1.
Proof.
  unfold reload, pacingWindow. in_flight. case_match; (match goal with Hf : inFlight _ _ _ |- _ => revert Hf end);
    in_flight.
  - case_match; [by apply inFlight_settled|]. by apply inFlight_settled, inFlight_keeps; [keeps|keeps|].
  - apply performReload_settled; [keeps|done].
Qed.

Lemma revertLKG_settled lkg t w : inFlight lkg t w → settled lkg lkg (revertLKG digestString cfg E w).1.
Proof.
  unfold revertLKG. in_flight. match goal with Hf : inFlight _ _ _ |- _ => revert Hf end. in_flight.
  match goal with Hf : inFlight _ _ ?w0 |- _ =>
    destruct Hf as (Hok & Hv & _); pose proof (restoreJournal_disk lkg w0 Hok) as HR;
    unfold mbind at 1, M_bind at 1; destruct (restoreJournal digestString cfg E w0) as [w2 ok] end.
  destruct HR as (Hok2 & Hv2 & Htree).
  destruct ok; cbn [negb]; [|right; by apply abort_rolledBack].
  assert (H2 : inFlight lkg lkg w2) by (split_and!; [done|by rewrite Hv2|by apply Htree]).
  apply (after_bind (λ _ w, inFlight lkg lkg w)); [exact H2|]. intros _ w3 H3.
  apply (after_bind (λ _ w, inFlight lkg lkg w)); [exact H3|]. intros ref w4 H4.
  apply performReload_settled; [keeps|done].
Qed.

(** Walks a run in flight to its end. *)
Ltac run_settled :=
  repeat first
    [ progress intros
    | progress cbv zeta
    | match goal with |- settled _ _ ((_ ≫= _) _).1 =>
        eapply inFlight_bind; [solve [keeps]|solve [keeps]| |eassumption] end
    | match goal with |- settled _ _ ((if _ then _ else _) _).1 => case_match end
    | match goal with |- settled _ _ (match _ with _ => _ end _).1 => case_match end
    | solve [apply reload_settled; assumption]
    | solve [apply inFlight_settled, inFlight_keeps; [solve [keeps]|solve [keeps]|assumption]] ].

Lemma runOps_settled lkg t programs w : inFlight lkg t w → settled lkg t (runOps digestString cfg E programs w).1.
Proof. unfold runOps, recordWorkerOps. run_settled. Qed.

Lemma activate_settled lkg t w : inFlight lkg t w → settled lkg t (activate digestString cfg E w).1.
Proof.
  unfold activate, reloadPending, baselineUnknown, settle, inPlace, coalesceIntoPendingReload.
  run_settled. by apply runOps_settled.
Qed.

(** ** The tree a run installs *)

(** What the parts of a run and the paths it drops make of a tree. *)
Definition installedAt (run : applyRun) (owned : list string) (t : gmap string Node) (p : string) : option Node :=
  match run_staged run !! p with
  | Some part => Some (RegularFile (Staged_Content part))
  | None => if bool_decide (p ∈ owned) && negb (bool_decide (p ∈ File_Path <$> Manifest_Files (run_manifest run)))
            then None else t !! p
  end.

(** Parts are staged under their own path, which the manifest declares. *)
Definition wellStaged (m : Manifest) (staged : gmap string Staged) : Prop :=
  ∀ p part, staged !! p = Some part → Staged_Rel part = p ∧ p ∈ File_Path <$> Manifest_Files m.

Lemma foldl_Install t l :
  foldl Install t l = MkTransaction (tx_installs t ++ l) (tx_deletes t) (tx_configRel t).
Proof.
  revert t. induction l as [|s l IH]; intros t; simpl; [destruct t; simpl; by rewrite app_nil_r|].
  rewrite IH. simpl. by rewrite <-app_assoc.
Qed.

Lemma foldl_Delete t l :
  foldl Delete t l = MkTransaction (tx_installs t) (tx_deletes t ++ l) (tx_configRel t).
Proof.
  revert t. induction l as [|s l IH]; intros t; simpl; [destruct t; simpl; by rewrite app_nil_r|].
  rewrite IH. simpl. by rewrite <-app_assoc.
Qed.

(** The parts of a transaction, in path order. *)
Definition stagedParts (staged : gmap string Staged) : list Staged :=
  omap (λ path, staged !! path) (sort_strings (elements (dom staged))).

Lemma stagedParts_elem staged part :
  part ∈ stagedParts staged ↔ ∃ p, staged !! p = Some part.
Proof.
  unfold stagedParts. rewrite list_elem_of_omap. split; [intros (p & _ & H); by exists p|].
  intros [p H]. exists p. split; [|done]. rewrite sort_strings_Permutation, elem_of_elements.
  by apply elem_of_dom_2 in H.
Qed.

Lemma stagedParts_paths m staged :
  wellStaged m staged → Staged_Rel <$> stagedParts staged = sort_strings (elements (dom staged)).
Proof.
  intros Hw. unfold stagedParts.
  assert (Hin : Forall (λ p, is_Some (staged !! p)) (sort_strings (elements (dom staged)))).
  { apply Forall_forall. intros p Hp. rewrite sort_strings_Permutation, elem_of_elements in Hp.
    by apply elem_of_dom. }
  induction Hin as [|p l [part Hp] _ IH]; [done|]. simpl. rewrite Hp. simpl.
  destruct (Hw p part Hp) as [-> _]. f_equal. exact IH.
Qed.

Lemma stagedParts_rel m staged p :
  wellStaged m staged → p ∈ Staged_Rel <$> stagedParts staged ↔ is_Some (staged !! p).
Proof.
  intros Hw. rewrite (stagedParts_paths m staged Hw), sort_strings_Permutation, elem_of_elements.
  apply elem_of_dom.
Qed.

Lemma stagedParts_NoDup m staged : wellStaged m staged → NoDup (Staged_Rel <$> stagedParts staged).
Proof.
  intros Hw. rewrite (stagedParts_paths m staged Hw), sort_strings_Permutation. apply NoDup_elements.
Qed.

Lemma deletionsOf_elem owned m p :
  p ∈ deletionsOf owned m ↔ p ∈ owned ∧ p ∉ File_Path <$> Manifest_Files m.
Proof. unfold deletionsOf. rewrite sort_strings_Permutation, list_elem_of_filter. tauto. Qed.

(** The transaction of a run. *)
Definition runTx (run : applyRun) (owned : list string) : Transaction :=
  MkTransaction (stagedParts (run_staged run)) (deletionsOf owned (run_manifest run)) (cfg_ConfigFile cfg).

Lemma begin_tx w : begin_ cfg w = (w, runTx (w_run w) (ps_ManifestPaths (sv_state (w_server w)))).
Proof. unfold begin_, mbind, M_bind, current, state. rewrite foldl_Install, foldl_Delete. reflexivity. Qed.

Lemma Write_installs io cross run owned d d' :
  wellStaged (run_manifest run) (run_staged run) →
  Write_ (cfg_store cfg) io cross (runTx run owned) d = (d', true) →
  ∀ p, disk_tree d' !! p = installedAt run owned (disk_tree d) p.
Proof.
  intros Hw Hwrite p. set (m := run_manifest run) in *.
  destruct (Write_tree (cfg_store cfg) io cross (runTx run owned) d d' true) as [_ Hok]; [| |exact Hwrite|].
  { by apply (stagedParts_NoDup m). }
  { intros r [_ Hr]%deletionsOf_elem Hin. apply (stagedParts_rel m) in Hin as [part Hp]; [|done].
    by destruct (Hw r part Hp). }
  destruct (Hok eq_refl) as (Hins & Hdel & Hrest). unfold installedAt.
  destruct (run_staged run !! p) as [part|] eqn:Hp.
  { destruct (Hw p part Hp) as [Hrel _]. rewrite <-Hrel. apply Hins, stagedParts_elem. by exists p. }
  assert (Hno : p ∉ Staged_Rel <$> stagedParts (run_staged run)).
  { rewrite (stagedParts_rel m) by done. rewrite Hp. by intros [? ?]. }
  destruct (decide (p ∈ deletionsOf owned m)) as [Hd|Hd].
  - rewrite (Hdel p Hd). apply deletionsOf_elem in Hd as [H1 H2]. by rewrite (bool_decide_true _ H1), (bool_decide_false _ H2).
  - rewrite (Hrest p Hno Hd). rewrite deletionsOf_elem in Hd. destruct (decide (p ∈ owned)).
    + assert (Hm : p ∈ File_Path <$> Manifest_Files m) by (apply dec_stable; tauto).
      by rewrite (bool_decide_true (p ∈ File_Path <$> _) Hm), andb_false_r.
    + by rewrite (bool_decide_false (p ∈ owned)).
Qed.

(** The tree a run that answers success leaves. *)
Definition landed (run : applyRun) (owned : list string) (lkg t t' : gmap string Node) : Prop :=
  if bool_decide (Manifest_Mode (run_manifest run) = ModeRevertLKG) then t' = lkg
  else ∀ p, t' !! p = installedAt run owned t p.

(** How a run ends. *)
Definition executed (run : applyRun) (owned : list string) (lkg t : gmap string Node) (w : World) : Prop :=
  aborted lkg w ∨ ((verdictOf w).1 = true ∧ landed run owned lkg t (disk_tree (diskOf w))).

Lemma settled_executed run owned lkg t t' w :
  landed run owned lkg t t' → settled lkg t' w → executed run owned lkg t w.
Proof. intros Hl [[Hv <-]|Ha]; [by right|by left]. Qed.

Lemma abort_executed run owned lkg t stage w :
  journal_ok (cfg_store cfg) digestString lkg (diskOf w) →
  executed run owned lkg t (abort digestString cfg E stage w).1.
Proof. intros Hok. left. by apply abort_rolledBack. Qed.

(** A run, its paths and what is on disk. *)
Definition running (run : applyRun) (owned : list string) (lkg t : gmap string Node) (w : World) : Prop :=
  inFlight lkg t w ∧ w_run w = run ∧ ps_ManifestPaths (sv_state (w_server w)) = owned.

Lemma setPhase_running run owned lkg t p id w :
  running run owned lkg t w → running run owned lkg t (setPhase E p id w).1.
Proof.
  intros (Hf & Hr & Ho). split; [by apply inFlight_keeps; [keeps|keeps|]|].
  assert (Hrun : keeps w_run (setPhase E p id)) by (unfold setPhase, save; keeps).
  assert (Hown : keeps (λ w, ps_ManifestPaths (sv_state (w_server w))) (setPhase E p id))
    by (unfold setPhase, save; keeps).
  rewrite Hrun. specialize (Hown w). cbn beta in Hown. by rewrite Hown.
Qed.

Lemma execute_settled lkg t w :
  inFlight lkg t w → wellStaged (run_manifest (w_run w)) (run_staged (w_run w)) →
  executed (w_run w) (ps_ManifestPaths (sv_state (w_server w))) lkg t
    (execute digestString fingerprint cfg E w).1.
Proof.
  intros Hw Hst. set (run := w_run w) in *. set (owned := ps_ManifestPaths _).
  set (goal := executed run owned lkg t). unfold execute.
  apply (after_bind (λ r w', r = run ∧ running run owned lkg t w')); [done|].
  intros r w1 [-> H1]. cbv zeta. case_bool_decide as Hmode.
  { eapply settled_executed; [|eapply revertLKG_settled, H1]. unfold landed. by rewrite bool_decide_true. }
  assert (Hlanded : ∀ t', (∀ p, t' !! p = installedAt run owned t p) → landed run owned lkg t t').
  { intros t' Ht'. unfold landed. by rewrite bool_decide_false. }
  apply (after_bind (λ _ w', running run owned lkg t w')); [by apply setPhase_running|]. intros _ w2 H2.
  apply (after_bind (λ tx w', tx = runTx run owned ∧ inFlight lkg t w')).
  { rewrite begin_tx. destruct H2 as (Hf & -> & ->). done. }
  intros tx w3 [-> H3]. apply (after_bind (λ _ w', inFlight lkg t w')); [done|]. intros _ w4 H4.
  apply (after_bind (λ _ w', inFlight lkg t w')); [done|]. intros n w5 (Hok5 & Hv5 & Ht5).
  unfold mbind at 1, M_bind at 1, onDisk at 1. fold (diskOf w5).
  destruct (Backup _ _ _ _ (diskOf w5)) as [d6 backed] eqn:Hb.
  destruct (Backup_ok (cfg_store cfg) digestString digest_no_slash _ lkg _ _ _ _ Hok5 Hb) as [Hok6 Hall].
  destruct backed; cbn [negb]; [|by apply abort_executed]. destruct (Hall eq_refl) as [Hins Hdel].
  apply (after_bind (λ _ w', (verdictOf w').1 = true ∧ diskOf w' = d6)).
  { rewrite setPhase_disk, setPhase_verdict. by split. }
  intros _ w7 [Hv7 Hd7]. apply (after_bind (λ _ w', (verdictOf w').1 = true ∧ diskOf w' = d6)); [done|].
  intros k w8 [Hv8 Hd8]. unfold mbind at 1, M_bind at 1, onDisk at 1. fold (diskOf w8). rewrite Hd8.
  pose proof (Write_ok (cfg_store cfg) digestString (env_io E k) (env_cross E k) lkg _ d6 Hok6 Hins Hdel) as Hok9.
  destruct (Write_ _ _ _ _ d6) as [d9 written] eqn:Hwr.
  destruct written; cbn [negb]; [|by apply abort_executed].
  assert (Htree : ∀ p, disk_tree d9 !! p = installedAt run owned t p).
  { intros p. rewrite (Write_installs _ _ run owned d6 d9 Hst Hwr).
    pose proof (Backup_tree (cfg_store cfg) digestString (env_io E n) (runTx run owned) (diskOf w5)) as Hbt.
    rewrite Hb, Ht5 in Hbt. cbn [fst] in Hbt. by rewrite Hbt. }
  eapply settled_executed; [apply Hlanded, Htree|].
  eapply inFlight_bind; [keeps|keeps| |split_and!; [exact Hok9|exact Hv8|reflexivity]]. intros _ w10 H10.
  eapply inFlight_bind; [keeps|keeps| |done]. intros ps w11 H11.
  eapply inFlight_bind; [unfold observeTree; keeps|unfold observeTree; keeps| |done]. intros _ w12 H12.
  by apply activate_settled.
Qed.

Lemma finish_disk : keeps diskOf (finish digestString E).
Proof. unfold finish, commitLocked, applyResultLocked, shareResult. keeps. Qed.
Lemma finish_verdict : keeps verdictOf (finish digestString E).
Proof. unfold finish, commitLocked, applyResultLocked, shareResult. keeps. Qed.

Lemma commitPlanBlob_disk : keeps diskOf (commitPlanBlob E).
Proof. unfold commitPlanBlob, rebindPlanBlobProof, storePlanBlobLocked. keeps. Qed.
Lemma commitPlanBlob_verdict : keeps verdictOf (commitPlanBlob E).
Proof. unfold commitPlanBlob, rebindPlanBlobProof, storePlanBlobLocked. keeps. Qed.

(** ** Frames of the run's identity *)

(** The commit counter and what names the run's plan. *)
Definition identityOf (w : World) : Z * Manifest * string * Z * Token :=
  (ps_Generation (sv_state (w_server w)), run_manifest (w_run w), run_appliedProof (w_run w),
   run_invalidations (w_run w), ps_AppliedToken (sv_state (w_server w))).

Lemma save_identity : keeps identityOf (save E).
Proof. unfold save. keeps. Qed.
Hint Resolve save_identity : keeps.
Lemma setPhase_identity p id : keeps identityOf (setPhase E p id).
Proof. unfold setPhase. keeps. Qed.
Lemma adoptWorker_identity info : keeps identityOf (adoptWorker E info).
Proof. unfold adoptWorker. keeps. Qed.
Lemma invalidateBaseline_identity : keeps identityOf invalidateBaseline.
Proof. unfold invalidateBaseline. keeps. Qed.
Hint Resolve setPhase_identity adoptWorker_identity invalidateBaseline_identity : keeps.
Lemma checkWorker_identity : keeps identityOf (checkWorker E).
Proof. unfold checkWorker. keeps. Qed.
Lemma compileInline_identity content ops programs : keeps identityOf (compileInline content ops programs).
Proof.
  revert programs. induction ops as [|op ops IH]; intros programs; simpl; keeps.
  intros w. unfold identityOf, modRun, note. simpl. by repeat case_match.
Qed.
Lemma executeChunks_identity batches results : keeps identityOf (executeChunks E batches results).
Proof. revert results. induction batches as [|b bs IH]; intros results; simpl; keeps. Qed.
Hint Resolve checkWorker_identity compileInline_identity executeChunks_identity : keeps.

Lemma onDisk_identity {A} (f : Disk → Disk * A) : keeps identityOf (onDisk f).
Proof. intros w. unfold onDisk. by destruct (f _). Qed.
Hint Resolve onDisk_identity : keeps.

Lemma restoreJournal_identity : keeps identityOf (restoreJournal digestString cfg E).
Proof. unfold restoreJournal, clearJournal. keeps. Qed.
Lemma performReload_identity ref : keeps identityOf (performReload E ref).
Proof. unfold performReload, clearPendingReload, awaitNewWorker, recordReload, clearJournal. keeps. Qed.
Hint Resolve restoreJournal_identity performReload_identity : keeps.
Lemma abort_identity stage : keeps identityOf (abort digestString cfg E stage).
Proof. unfold abort, rememberNACK. keeps. Qed.
Lemma runInPlace_identity : keeps identityOf (runInPlace cfg E).
Proof.
  unfold runInPlace, workerOpsBaselineMatches, recordWorkerOps, compile, enqueueDeletes, foldCreated. keeps.
Qed.
Hint Resolve abort_identity runInPlace_identity : keeps.
Lemma reload_identity reason : keeps identityOf (reload digestString cfg E reason).
Proof. unfold reload, pacingWindow, schedule, schedulePendingReload. keeps. Qed.
Hint Resolve reload_identity : keeps.
Lemma runOps_identity programs : keeps identityOf (runOps digestString cfg E programs).
Proof. unfold runOps, executeBatches, enqueueDeletes, foldCreated, recordWorkerOps. keeps. Qed.
Hint Resolve runOps_identity : keeps.
Lemma activate_identity : keeps identityOf (activate digestString cfg E).
Proof.
  unfold activate, reloadPending, baselineUnknown, settle, inPlace, coalesceIntoPendingReload, compile. keeps.
Qed.
Lemma revertLKG_identity : keeps identityOf (revertLKG digestString cfg E).
Proof. unfold revertLKG. keeps. Qed.
Hint Resolve activate_identity revertLKG_identity : keeps.
Lemma execute_identity : keeps identityOf (execute digestString fingerprint cfg E).
Proof. unfold execute, begin_, observeTree. keeps. Qed.

(** ** Committing *)

(** What the state claims after a commit. *)
Definition claimOf (w : World) : phase * string * Z * (Role → PlanRef) * Token :=
  let ps := sv_state (w_server w) in
  (ps_Phase ps, ps_InFlightPlanID ps, ps_Generation ps, ps_Roles ps, ps_AppliedToken ps).

(** What a result reports about the roles. *)
Definition reportOf (w : World) : PlanRef * PlanRef * PlanRef * PlanRef * Token :=
  let r := run_result (w_run w) in (res_Applied r, res_Running r, res_WorkerOps r, res_LKG r, res_AppliedToken r).

Definition reported (w : World) : Prop :=
  let ps := sv_state (w_server w) in
  reportOf w = (ps_Roles ps Applied, ps_Roles ps Running, ps_Roles ps WorkerOps, ps_Roles ps LKG,
                ps_AppliedToken ps).

Lemma save_claim : keeps claimOf (save E).
Proof. unfold save. keeps. Qed.
Lemma save_report : keeps reportOf (save E).
Proof. unfold save. keeps. Qed.
Lemma shareResult_claim : keeps claimOf shareResult.
Proof. unfold shareResult. keeps. Qed.
Lemma shareResult_report : keeps reportOf shareResult.
Proof. unfold shareResult. keeps. Qed.
Lemma applyResultLocked_claim : keeps claimOf applyResultLocked.
Proof. unfold applyResultLocked. keeps. Qed.
Hint Resolve save_claim shareResult_claim applyResultLocked_claim : keeps.

Lemma reported_keeps {A} (m : M A) w : keeps claimOf m → keeps reportOf m → reported w → reported (m w).1.
Proof.
  unfold reported. intros Hc Hr H. rewrite Hr, H. specialize (Hc w). unfold claimOf in Hc.
  injection Hc as _ _ _ Hroles Htok. by rewrite Hroles, Htok.
Qed.

Lemma applyResultLocked_reported w : reported (applyResultLocked w).1.
Proof.
  unfold applyResultLocked, reported, reportOf, mbind, M_bind, server, modResult, modRun, modServer. simpl.
  by case_match.
Qed.

(** The end of [finish] reports the state as it is. *)
Definition finishTail : M unit := _ ← applyResultLocked; _ ← shareResult; _ ← save E; mret tt.

Lemma finishTail_claim : keeps claimOf finishTail.
Proof. unfold finishTail. keeps. Qed.

Lemma finishTail_reported w : reported (finishTail w).1.
Proof.
  unfold finishTail.
  apply (after_bind (λ _ w, reported w)); [apply applyResultLocked_reported|]. intros _ w1 H1.
  apply (after_bind (λ _ w, reported w)).
  { apply reported_keeps; [apply shareResult_claim|apply shareResult_report|done]. }
  intros _ w2 H2. apply (after_bind (λ _ w, reported w)); [|done].
  apply reported_keeps; [apply save_claim|apply save_report|done].
Qed.

(** The plan a successful run commits: its own, or the last known good one a
    revert put back. *)
Definition committedRef (w : World) : PlanRef :=
  let m := run_manifest (w_run w) in
  if bool_decide (Manifest_Mode m = ModeRevertLKG) then ps_Roles (sv_state (w_server w)) LKG
  else MkRef (Manifest_PlanID m) (run_appliedProof (w_run w)).

(** What [commitLocked] makes of the state. *)
Definition committedAs (w w' : World) : Prop :=
  let ps := sv_state (w_server w) in let ps' := sv_state (w_server w') in
  ps_Generation ps' = ps_Generation ps ∧
  (if sv_invalidations (w_server w) =? run_invalidations (w_run w)
   then ps_Roles ps' Applied = committedRef w ∧ ps_AppliedToken ps' = Manifest_Token (run_manifest (w_run w))
   else ps_Roles ps' Applied = noRef ∧ ps_AppliedToken ps' = ps_AppliedToken ps).

Lemma commitLocked_claim w : committedAs w (commitLocked digestString w).1.
Proof.
  unfold committedAs, commitLocked, committedRef, mbind, M_bind, current, server, role, modState, modServer. simpl.
  destruct (bool_decide (Manifest_Mode _ = ModeRevertLKG)); simpl;
    destruct (_ =? _); simpl; try case_bool_decide; simpl;
    rewrite ?fn_lookup_insert, ?fn_lookup_insert_ne by done; split_and!;
    rewrite ?fn_lookup_insert; done.
Qed.

(** The generation, the applied plan and the token a finished run leaves. *)
Definition outcome (w : World) (claim : Z * PlanRef * Token) : Prop :=
  let '(generation, applied, token) := claim in
  let ps := sv_state (w_server w) in
  if res_OK (run_result (w_run w)) then
    generation = (ps_Generation ps + 1) mod 2 ^ 64 ∧
    (if sv_invalidations (w_server w) =? run_invalidations (w_run w)
     then applied = committedRef w ∧ token = Manifest_Token (run_manifest (w_run w))
     else applied = noRef ∧ token = ps_AppliedToken ps)
  else generation = ps_Generation ps ∧ applied = noRef ∧ token = ps_AppliedToken ps.

Definition claims (w : World) : Z * PlanRef * Token :=
  let ps := sv_state (w_server w) in (ps_Generation ps, ps_Roles ps Applied, ps_AppliedToken ps).

Definition finished (w w' : World) : Prop :=
  reported w' ∧ ps_Phase (sv_state (w_server w')) = phaseIdle ∧
  ps_InFlightPlanID (sv_state (w_server w')) = "" ∧ outcome w (claims w').

(** The commit of a successful run, after its generation is counted. *)
Lemma commit_outcome w :
  res_OK (run_result (w_run w)) = true →
  let ps := sv_state (w_server w) in
  let w1 := (modState (set_ps_Generation ((ps_Generation ps + 1) mod 2 ^ 64)) w).1 in
  outcome w (claims (commitLocked digestString w1).1).
Proof.
  intros Hok ps w1. pose proof (commitLocked_claim w1) as Hcl.
  destruct (commitLocked digestString w1) as [w2 x]. unfold outcome, claims, committedAs in *. cbn in Hcl |- *.
  destruct Hcl as [Hg Hc]. rewrite Hok, Hg. by destruct (_ =? _).
Qed.

Lemma finish_claim w : finished w (finish digestString E w).1.
Proof.
  unfold finish. apply (after_bind (λ x w', x = w_run w ∧ w' = w)); [done|]. intros run w' [-> ->].
  apply (after_bind (λ _ w', outcome w (claims w'))).
  { destruct (res_OK (run_result (w_run w))) eqn:Hok; [by apply commit_outcome|].
    unfold outcome. rewrite Hok. unfold modState, modServer, claims. cbn. by rewrite fn_lookup_insert. }
  intros _ w1 H1.
  apply (after_bind (λ _ w', outcome w (claims w') ∧ ps_Phase (sv_state (w_server w')) = phaseIdle)); [done|].
  intros _ w2 [H2 Hp2].
  apply (after_bind (λ _ w', outcome w (claims w') ∧ ps_Phase (sv_state (w_server w')) = phaseIdle ∧
                             ps_InFlightPlanID (sv_state (w_server w')) = "")); [done|].
  intros _ w3 (H3 & Hp3 & Hi3). fold finishTail.
  pose proof (finishTail_reported w3) as Hr. pose proof (finishTail_claim w3) as Hc.
  destruct (finishTail w3) as [w4 x]. cbn [fst] in *.
  unfold claimOf in Hc. injection Hc as Hp Hi Hg Hroles Htok.
  split_and!; [done|congruence|congruence|]. unfold claims in *. by rewrite Hg, Hroles, Htok.
Qed.

(** The end of an apply touches neither the last known good name nor the count
    of invalidations. *)
Definition groundOf (w : World) : PlanRef * Z :=
  (ps_Roles (sv_state (w_server w)) LKG, sv_invalidations (w_server w)).

Lemma finish_ground : keeps groundOf (finish digestString E).
Proof. unfold finish, commitLocked, applyResultLocked, shareResult, save. keeps. Qed.
Lemma commitPlanBlob_ground : keeps groundOf (commitPlanBlob E).
Proof. unfold commitPlanBlob, rebindPlanBlobProof, storePlanBlobLocked, save. keeps. Qed.

(** The state as far as a result reports it; the stored plan is another role. *)
Definition statusOf (w : World) : ApplyResult * phase * string * Z * Token * list PlanRef :=
  let ps := sv_state (w_server w) in
  (run_result (w_run w), ps_Phase ps, ps_InFlightPlanID ps, ps_Generation ps, ps_AppliedToken ps,
   ps_Roles ps <$> [Applied; Running; WorkerOps; LKG]).

Lemma commitPlanBlob_status : keeps statusOf (commitPlanBlob E).
Proof. unfold commitPlanBlob, rebindPlanBlobProof, storePlanBlobLocked, save. keeps. Qed.
End frames.
