(* ===== verification/AgentClaims.v ===== *)
(** * What the agent's applies guarantee

    An apply is all or nothing on disk: it installs exactly the verified parts,
    or it is refused with the last known good tree restored or recoverable. A
    finished apply names what the pod holds. The fence is a compare-and-swap.
    The ownership set a rollback computes is the last known good one up to the
    paths that were modified and then dropped. *)

From Stdlib Require Import Ascii.
From stdpp Require Import base list list_numbers functions gmap strings.
From S2P Require Import Prelude Api GoStd Cli Deferrals FileTree FileTreeProps AgentState Agent AgentProps.

Open Scope Z_scope.

(** ** Received parts *)

Lemma declaredOf_elem m p f : declaredOf m !! p = Some f → f ∈ Manifest_Files m ∧ File_Path f = p.
Proof.
  unfold declaredOf. assert (H : ∀ acc : gmap string File, (∀ q g, acc !! q = Some g → g ∈ Manifest_Files m ∧ File_Path g = q) →
    ∀ l, (∀ g, g ∈ l → g ∈ Manifest_Files m) →
    ∀ q g, foldl (λ acc f, <[File_Path f := f]> acc) acc l !! q = Some g → g ∈ Manifest_Files m ∧ File_Path g = q).
  { intros acc Hacc l Hl. revert acc Hacc. induction l as [|g l IH]; intros acc Hacc; simpl; [done|].
    apply IH; [set_solver|]. intros q h. destruct (decide (q = File_Path g)) as [->|Hne].
    - rewrite lookup_insert_eq. intros [= <-]. split; [apply Hl; set_solver|done].
    - rewrite lookup_insert_ne by done. apply Hacc. }
  apply (H ∅); [intros ? ?; by rewrite lookup_empty|done].
Qed.

Section received_parts.
Context (digestString : string → string) (cfg : AgentConfig) (E : Env).

(** What the received parts of a manifest are: verified, under declared paths. *)
Definition verified (m : Manifest) (got : received) : Prop :=
  (∀ p part, got_files got !! p = Some part →
     Staged_Rel part = p ∧
     ∃ f, f ∈ Manifest_Files m ∧ File_Path f = p ∧ digestString (Staged_Content part) = File_Digest f) ∧
  (∀ p, p ∈ got_unpatched got → got_files got !! p = None ∧
     ∃ f, f ∈ Manifest_Files m ∧ File_Path f = p ∧ is_Some (File_Patch f)).

Lemma stagePart_verified n d m part got got' :
  verified m got → stagePart digestString cfg E n d (declaredOf m) part got = Some got' → verified m got'.
Proof.
  intros [Hf Hu]. destruct part as [blob|[path|] body]; simpl; [by case_match; intros [= <-]| |done].
  case_bool_decide; [done|]. destruct (declaredOf m !! path) as [f|] eqn:Hdecl; [|done].
  apply declaredOf_elem in Hdecl as [Hin Hpath].
  destruct (_ || _) eqn:Hdup; [done|]. apply orb_false_iff in Hdup as [Hd1 Hd2].
  apply bool_decide_eq_false in Hd1, Hd2. apply eq_None_not_Some in Hd1.
  set (v := match File_Patch f with Some _ => _ | None => _ end).
  assert (Hv : ∀ staged, v = inl staged →
    ∃ content, staged = MkStaged path content ∧ digestString content = File_Digest f).
  { intros staged. unfold v, Stage, StagePatch. destruct (File_Patch f) as [patch|].
    - repeat case_match; try done; intros (content & _ & ? & ?)%stage_inl; by exists content.
    - intros (content & _ & ? & ?)%stage_inl. by exists content. }
  destruct v as [staged|err]; [|destruct err, (File_Patch f) eqn:Hpatch; try done]; intros [= <-]; split; simpl.
  - intros p part. destruct (decide (p = path)) as [->|Hne].
    + rewrite lookup_insert_eq. intros [= <-]. destruct (Hv staged eq_refl) as (content & -> & Hdig).
      split; [done|]. by exists f.
    + rewrite lookup_insert_ne by done. apply Hf.
  - intros p Hp. destruct (Hu p Hp) as [Hno Hex]. split; [|done].
    rewrite lookup_insert_ne; [done|]. by intros ->.
  - exact Hf.
  - intros p [->%elem_of_singleton|Hp]%elem_of_union; [|by apply Hu].
    split; [done|]. exists f. rewrite Hpatch. by eauto.
Qed.

Lemma stagePartsFrom_verified count n d m parts got got' :
  verified m got → stagePartsFrom digestString cfg E count n d (declaredOf m) parts got = Some got' →
  verified m got' ∧ (length parts < count)%nat.
Proof.
  revert parts got. induction count as [|count IH]; intros parts got Hv; simpl; [done|].
  destruct parts as [|part parts]; [intros [= <-]; split; [done|simpl; lia]|].
  destruct (stagePart _ _ _ _ _ _ part got) as [got1|] eqn:H1; [|done]. intros H.
  apply IH in H as [H Hlen]; [split; [done|simpl; lia]|]. by eapply stagePart_verified.
Qed.

Lemma verified_wellStaged m got : verified m got → wellStaged m (got_files got).
Proof.
  intros [Hf _] p part Hp. destruct (Hf p part Hp) as (Hrel & f & Hin & <- & _). split; [done|].
  by apply list_elem_of_fmap_2.
Qed.

Lemma stageParts_verified n d m parts got :
  stageParts digestString cfg E n d m parts = Some got → verified m got ∧ (length parts <= Z.to_nat MaxFiles)%nat.
Proof.
  intros H. unfold stageParts in H. apply stagePartsFrom_verified in H as [Hv Hlen]; [split; [done|lia]|].
  split; simpl; intros p; [by rewrite lookup_empty|by intros ?%elem_of_empty].
Qed.

(** C26: A received part reaches the state machine only verified: it is staged
    under its own path, the manifest declares that path, and its content has the
    declared digest, whether it came whole or as a patch. A path whose patch
    found no base is not staged, and is one the manifest patches. A request
    carries at most [MaxFiles] parts after its manifest. *)
Theorem received_parts_verified n d m parts got :
  stageParts digestString cfg E n d m parts = Some got →
  (∀ p part, got_files got !! p = Some part →
     Staged_Rel part = p ∧
     ∃ f, f ∈ Manifest_Files m ∧ File_Path f = p ∧ digestString (Staged_Content part) = File_Digest f) ∧
  (∀ p, p ∈ got_unpatched got → got_files got !! p = None ∧
     ∃ f, f ∈ Manifest_Files m ∧ File_Path f = p ∧ is_Some (File_Patch f)) ∧
  (length parts <= Z.to_nat MaxFiles)%nat.
Proof. intros [[H1 H2] H3]%stageParts_verified. by split_and!. Qed.
End received_parts.

(** ** All or nothing *)

Section runs.
Context (digestString : string → string) (fingerprint : nat → string → string → string).
Context (cfg : AgentConfig) (E : Env).

Definition startRun (m : Manifest) (staged : gmap string Staged) (blob : option string)
    (digest work appliedProof workerProof : string) (w : World) : World :=
  MkWorld (w_server w)
    (newRun m staged blob digest work appliedProof workerProof (sv_invalidations (w_server w))) (w_tick w).

(** An apply is its execution, its commit and the stored plan. *)
Lemma runApply_unfold m staged blob digest work appliedProof workerProof w :
  let w1 := startRun m staged blob digest work appliedProof workerProof w in
  let w2 := (execute digestString fingerprint cfg E w1).1 in
  let w3 := (finish digestString E w2).1 in
  let w4 := (commitPlanBlob E w3).1 in
  runApply digestString fingerprint cfg E m staged blob digest work appliedProof workerProof w =
    (w4, run_result (w_run w4)).
Proof.
  intros w1 w2 w3 w4. unfold runApply, mbind, M_bind, server, modRun. cbn [w_server w_run w_tick].
  change (MkWorld _ _ _) with w1. unfold w4, w3, w2. destruct (execute _ _ _ _ w1) as [w2' []]. cbn [fst].
  destruct (finish _ _ w2') as [w3' []]. cbn [fst]. by destruct (commitPlanBlob _ w3') as [w4' []].
Qed.

(** C4: An apply is all or nothing on disk, wherever a system call, a runtime op
    or a reload fails in it. If it answers success, the tree is exactly what it
    was with the received parts in place and the paths the manifest no longer
    names gone; after a revert it is the last known good tree. If it answers
    failure, the journal still describes how to get back to the last known good
    tree, and a rollback reported as performed has put that tree back. *)
Theorem apply_all_or_nothing lkg m staged blob digest work appliedProof workerProof w :
  (∀ t, "/"%char ∉ chars (digestString t)) →
  journal_ok (cfg_store cfg) digestString lkg (sv_disk (w_server w)) →
  wellStaged m staged →
  let owned := ps_ManifestPaths (sv_state (w_server w)) in
  let tree := disk_tree (sv_disk (w_server w)) in
  let '(w', res) := runApply digestString fingerprint cfg E m staged blob digest work
                      appliedProof workerProof w in
  let tree' := disk_tree (sv_disk (w_server w')) in
  if res_OK res then
    if bool_decide (Manifest_Mode m = ModeRevertLKG) then tree' = lkg
    else ∀ p, tree' !! p =
      match staged !! p with
      | Some part => Some (RegularFile (Staged_Content part))
      | None => if bool_decide (p ∈ owned) && negb (bool_decide (p ∈ File_Path <$> Manifest_Files m))
                then None else tree !! p
      end
  else
    journal_ok (cfg_store cfg) digestString lkg (sv_disk (w_server w')) ∧
    match res_Rollback res with
    | Some rollback => RollbackInfo_Performed rollback = true → tree' = lkg
    | None => True
    end.
Proof.
  intros Hslash Hok Hst owned tree. rewrite runApply_unfold. cbv zeta.
  set (w1 := startRun _ _ _ _ _ _ _ w). set (w2 := (execute _ _ _ _ w1).1).
  pose proof (execute_settled digestString fingerprint cfg E Hslash lkg tree w1) as Hex. fold w2 in Hex.
  set (w4 := (commitPlanBlob E _).1).
  assert (Hd : diskOf w4 = diskOf w2).
  { unfold w4. by rewrite commitPlanBlob_disk, finish_disk. }
  assert (Hv : verdictOf w4 = verdictOf w2).
  { unfold w4. by rewrite commitPlanBlob_verdict, finish_verdict. }
  change (res_OK (run_result (w_run w4))) with (verdictOf w4).1.
  change (res_Rollback (run_result (w_run w4))) with (verdictOf w4).2.
  change (sv_disk (w_server w4)) with (diskOf w4). rewrite Hd, Hv.
  destruct Hex as [[Hf Hr]|[Ht Hl]]; [by split_and!|exact Hst| |].
  - rewrite Hf. exact Hr.
  - rewrite Ht. exact Hl.
Qed.

(** ** Truthful commits *)

(** C24: A finished apply leaves an idle agent whose answer is its state: nothing
    is in flight and the roles and the token it reports are the ones the state
    holds. A successful apply counts one generation, modulo 2^64, and the applied
    plan is its own (the last known good one after a revert) with its own token,
    unless something invalidated the baseline meanwhile: then no plan is named
    and the token stays. A failed apply counts nothing and names no plan. *)
Theorem apply_commit_truthful m staged blob digest work appliedProof workerProof w :
  let '(w', res) := runApply digestString fingerprint cfg E m staged blob digest work
                      appliedProof workerProof w in
  let ps := sv_state (w_server w) in let ps' := sv_state (w_server w') in
  ps_Phase ps' = phaseIdle ∧ ps_InFlightPlanID ps' = "" ∧
  (res_Applied res, res_Running res, res_WorkerOps res, res_LKG res, res_AppliedToken res) =
    (ps_Roles ps' Applied, ps_Roles ps' Running, ps_Roles ps' WorkerOps, ps_Roles ps' LKG, ps_AppliedToken ps') ∧
  if res_OK res then
    ps_Generation ps' = (ps_Generation ps + 1) mod 2 ^ 64 ∧
    if sv_invalidations (w_server w') =? sv_invalidations (w_server w) then
      ps_AppliedToken ps' = Manifest_Token m ∧
      ps_Roles ps' Applied =
        (if bool_decide (Manifest_Mode m = ModeRevertLKG) then ps_Roles ps' LKG
         else MkRef (Manifest_PlanID m) appliedProof)
    else ps_AppliedToken ps' = ps_AppliedToken ps ∧ ps_Roles ps' Applied = noRef
  else
    ps_Generation ps' = ps_Generation ps ∧ ps_AppliedToken ps' = ps_AppliedToken ps ∧
    ps_Roles ps' Applied = noRef.
Proof.
  rewrite runApply_unfold. cbv zeta.
  set (w1 := startRun _ _ _ _ _ _ _ w). set (w2 := (execute _ _ _ _ w1).1). set (w3 := (finish _ _ w2).1).
  set (w4 := (commitPlanBlob E w3).1).
  pose proof (execute_identity digestString fingerprint cfg E w1) as Hid. fold w2 in Hid.
  pose proof (finish_claim digestString E w2) as (Hrep & Hph & Hin & Hout). fold w3 in Hrep, Hph, Hin, Hout.
  pose proof (finish_verdict digestString E w2) as Hv. fold w3 in Hv.
  pose proof (finish_ground digestString E w2) as Hg. fold w3 in Hg.
  pose proof (commitPlanBlob_status E w3) as Hs. fold w4 in Hs.
  pose proof (commitPlanBlob_ground E w3) as Hg4. fold w4 in Hg4.
  unfold statusOf in Hs. injection Hs as Hres Hph4 Hin4 Hgen4 Htok4 Ha4 Hr4 Ho4 Hl4.
  unfold groundOf in Hg, Hg4. injection Hg as HgL HgI. injection Hg4 as Hg4L Hg4I.
  unfold identityOf in Hid. injection Hid as Hi1 Hi2 Hi3 Hi4 Hi5.
  unfold verdictOf in Hv. injection Hv as Hv _.
  rewrite Hres, Hph4, Hin4, Hgen4, Htok4, Ha4, Hr4, Ho4, Hl4, Hg4I, HgI.
  split; [done|]. split; [done|]. split; [exact Hrep|].
  unfold outcome, claims in Hout. rewrite <-Hv in Hout. rewrite Hi1, Hi4, Hi5, Hi2 in Hout.
  destruct (res_OK _); [|by destruct Hout as (-> & -> & ->)]. destruct Hout as [Hgen Hc]. split; [exact Hgen|].
  cbn [run_invalidations w1 startRun w_run newRun] in Hc. destruct (_ =? _); [|by destruct Hc as [-> ->]].
  destruct Hc as [-> ->]. split; [done|]. unfold committedRef. rewrite Hi2, Hi3, HgL. done.
Qed.
End runs.

(** ** The fence *)

Lemma samePlanRef_true a b : samePlanRef a b = true ↔ a = b ∧ ref_Proof a ≠ "".
Proof.
  destruct a as [ida pa], b as [idb pb]. unfold samePlanRef. simpl.
  rewrite !andb_true_iff, !negb_true_iff, !bool_decide_eq_false, !bool_decide_eq_true. naive_solver.
Qed.

Lemma samePlanRef_false a b : samePlanRef a b = false ↔ a ≠ b ∨ ref_Proof a = "".
Proof.
  rewrite <-not_true_iff_false, samePlanRef_true. destruct (decide (a = b)), (decide (ref_Proof a = "")); naive_solver.
Qed.

Lemma carriesRefusedPlan_true ps ref :
  carriesRefusedPlan ps ref = true ↔
    ref_Proof ref ≠ "" ∧ ref ≠ ps_Roles ps Running ∧ (ref = ps_Roles ps Applied ∨ ref = ps_Roles ps WorkerOps).
Proof.
  unfold carriesRefusedPlan. destruct (_ || samePlanRef _ _) eqn:H.
  - apply orb_true_iff in H. rewrite bool_decide_eq_true, samePlanRef_true in H. naive_solver.
  - apply orb_false_iff in H. rewrite bool_decide_eq_false, samePlanRef_false in H.
    rewrite orb_true_iff, !samePlanRef_true. naive_solver.
Qed.

Definition prevRef (m : Manifest) : PlanRef :=
  MkRef (Manifest_ExpectedPrevPlanID m) (Manifest_ExpectedPrevPlanProof m).
Definition opsRef (m : Manifest) : PlanRef :=
  MkRef (Manifest_ExpectedWorkerOpsPlanID m) (Manifest_ExpectedWorkerOpsPlanProof m).

Lemma prevRef_eq m ref :
  prevRef m = ref ↔ Manifest_ExpectedPrevPlanID m = ref_ID ref ∧ Manifest_ExpectedPrevPlanProof m = ref_Proof ref.
Proof. unfold prevRef. destruct ref. simpl. naive_solver. Qed.

Section fencing.
Context (cfg : AgentConfig).

(** What the fence checks after the epoch, when it does not revert. *)
Lemma fence_forward now s m :
  let ps := sv_state s in let applied := ps_Roles ps Applied in
  Manifest_Mode m ≠ ModeRevertLKG →
  fence cfg now s m = None ↔
    Token_LeaderEpoch (ps_AppliedToken ps) <= Token_LeaderEpoch (Manifest_Token m) ∧
    Manifest_ExpectedPrevPlanID m = ref_ID applied ∧ Manifest_ExpectedPrevToken m = ps_AppliedToken ps ∧
    (Manifest_Mode m ≠ ModeReload → ref_Proof applied ≠ "") ∧
    (ref_Proof applied ≠ "" → prevRef m = applied) ∧
    (Manifest_Mode m = ModeAuto ∨ inPlaceWillRun cfg now s m = true →
     opsRef m = ps_Roles ps WorkerOps ∧ ref_Proof (opsRef m) ≠ "").
Proof.
  intros ps applied Hrev. unfold fence. fold ps applied (opsRef m).
  rewrite (bool_decide_false _ Hrev), <-samePlanRef_true, prevRef_eq.
  destruct (Z.ltb_spec (Token_LeaderEpoch (Manifest_Token m)) (Token_LeaderEpoch (ps_AppliedToken ps)));
    [split; [done|intros [? _]; lia]|].
  case_bool_decide as Hid; cbn [negb]; [|split; [done|tauto]].
  case_bool_decide as Htok; cbn [negb]; [|split; [done|tauto]].
  destruct (samePlanRef _ _), (inPlaceWillRun cfg now s m); repeat (case_bool_decide; cbn [negb andb orb]);
    intuition congruence.
Qed.

(** C9: The fence is a compare-and-swap. An apply of runtime ops gets through
    only if its leader's epoch is not older than the applied one, the plan it was
    computed against is the applied one with the same proof and token, and the
    worker has run exactly the ops it assumes; neither proof may be empty. A
    reload gets through only on the applied plan and token, with the same proof
    where the agent holds one, and with the worker baseline it assumes when its
    in-place ops would run. A revert gets through only for a proved plan that is
    applied or on the worker without being the running one. *)
Theorem fence_compare_and_swap now s m :
  let ps := sv_state s in let applied := ps_Roles ps Applied in
  let prev := MkRef (Manifest_ExpectedPrevPlanID m) (Manifest_ExpectedPrevPlanProof m) in
  let ops := MkRef (Manifest_ExpectedWorkerOpsPlanID m) (Manifest_ExpectedWorkerOpsPlanProof m) in
  let target := MkRef (Manifest_PlanID m) (Manifest_PlanProof m) in
  contains [ModeAuto; ModeReload; ModeRevertLKG] (Manifest_Mode m) = true →
  fence cfg now s m = None ↔
    Token_LeaderEpoch (ps_AppliedToken ps) <= Token_LeaderEpoch (Manifest_Token m) ∧
    (Manifest_Mode m = ModeAuto →
       prev = applied ∧ ref_Proof applied ≠ "" ∧ Manifest_ExpectedPrevToken m = ps_AppliedToken ps ∧
       ops = ps_Roles ps WorkerOps ∧ ref_Proof ops ≠ "") ∧
    (Manifest_Mode m = ModeReload →
       ref_ID prev = ref_ID applied ∧ Manifest_ExpectedPrevToken m = ps_AppliedToken ps ∧
       (ref_Proof applied ≠ "" → prev = applied) ∧
       (inPlaceWillRun cfg now s m = true → ops = ps_Roles ps WorkerOps ∧ ref_Proof ops ≠ "")) ∧
    (Manifest_Mode m = ModeRevertLKG →
       ref_Proof target ≠ "" ∧ target ≠ ps_Roles ps Running ∧
       (target = applied ∨ target = ps_Roles ps WorkerOps)).
Proof.
  intros ps applied prev ops target Hmode. apply bool_decide_eq_true in Hmode.
  rewrite !elem_of_cons in Hmode. destruct Hmode as [Hm|[Hm|[Hm|Hm%elem_of_nil]]]; [| | |done].
  - rewrite (fence_forward now s m) by (by rewrite Hm). rewrite Hm. fold ps applied (prevRef m) (opsRef m) in prev, ops.
    pose proof (prevRef_eq m applied) as Hprev. fold prev in Hprev. intuition try discriminate; intuition.
  - rewrite (fence_forward now s m) by (by rewrite Hm). rewrite Hm.
    pose proof (prevRef_eq m applied) as Hprev. intuition try discriminate; intuition.
  - unfold fence. fold ps. rewrite Hm, bool_decide_true by done. fold target.
    pose proof (carriesRefusedPlan_true ps target) as Hcarry.
    destruct (Z.ltb_spec (Token_LeaderEpoch (Manifest_Token m)) (Token_LeaderEpoch (ps_AppliedToken ps)));
      [split; [done|intros [? _]; lia]|].
    destruct (carriesRefusedPlan ps target); cbn [negb]; intuition try discriminate; intuition.
Qed.
End fencing.

(** ** Ownership after a rollback *)

Lemma lkgSet_elem owned (j : Journal) p :
  NoDup (journalPaths j) →
  p ∈ lkgSet owned j ↔
    (∃ e, e ∈ j ∧ JEntry_Path e = p ∧ JEntry_Kind e = KindDeleted) ∨
    p ∈ owned ∧ (∀ e, e ∈ j → JEntry_Path e = p → JEntry_Kind e ≠ KindCreated).
Proof.
  unfold lkgSet, journalPaths. revert owned. induction j as [|e j IH]; intros owned; simpl; [set_solver|].
  rewrite NoDup_cons. intros [Hnew Hnd]. rewrite IH by done. clear IH.
  assert (Hother : ∀ e', e' ∈ j → JEntry_Path e' ≠ JEntry_Path e).
  { intros e' He' Heq. apply Hnew. rewrite <-Heq. by apply list_elem_of_fmap_2. }
  set (step := match JEntry_Kind e with KindCreated => _ | _ => _ end).
  destruct (decide (JEntry_Path e = p)) as [<-|Hne].
  - assert (Hstep : JEntry_Path e ∈ step ↔ match JEntry_Kind e with
                      | KindCreated => False | KindDeleted => True | KindModified => JEntry_Path e ∈ owned end).
    { unfold step. destruct (JEntry_Kind e); set_solver. }
    rewrite Hstep. split.
    + intros [(e' & He' & Hp & _)|[Hs _]]; [by destruct (Hother e' He')|].
      destruct (JEntry_Kind e) eqn:Hk; [right|done|left; exists e; set_solver].
      split; [done|]. intros e' [->|He']%elem_of_cons Hp; [by rewrite Hk|by destruct (Hother e' He')].
    + intros H. right. split; [|intros e' He' Hp; by destruct (Hother e' He')].
      destruct H as [(e' & [->|He']%elem_of_cons & Hp & Hd)|[Ho Hc]];
        [by rewrite Hd|by destruct (Hother e' He')|].
      specialize (Hc e (list_elem_of_here _ _) eq_refl). by destruct (JEntry_Kind e).
  - assert (Hstep : p ∈ step ↔ p ∈ owned) by (unfold step; destruct (JEntry_Kind e); set_solver).
    rewrite Hstep. setoid_rewrite elem_of_cons. split.
    + intros [(e' & ? & ? & ?)|[? H]]; [left; by eauto|right]. split; [done|]. intros e' [->|?] ?; [done|by apply H].
    + intros [(e' & [->|?] & ? & ?)|[? H]]; [done|left; by eauto|right]. eauto.
Qed.

(** Restoring hands ownership back. When the paths the agent owns and the
    last known good set agree outside the journal, the paths it owns after a
    rollback are those of the last known good set, except the ones that were
    modified since and that the manifest no longer named. *)
Theorem rollback_ownership digestString cfg lkg d owned p :
  journal_ok (cfg_store cfg) digestString lkg d →
  (∀ q, q ∉ journalPaths (disk_journal d) → q ∈ owned ↔ is_Some (lkg !! q)) →
  p ∈ lkgPaths owned (disk_journal d) ↔
    is_Some (lkg !! p) ∧
    (p ∈ owned ∨ ∀ e, e ∈ disk_journal d → JEntry_Path e = p → JEntry_Kind e ≠ KindModified).
Proof.
  intros Hok Hagree. unfold lkgPaths. rewrite sort_strings_Permutation, elem_of_elements.
  rewrite lkgSet_elem by apply (jo_nodup _ _ _ _ Hok). rewrite elem_of_list_to_set.
  destruct (decide (p ∈ journalPaths (disk_journal d))) as [Hp|Hp].
  - apply list_elem_of_fmap in Hp as (e & -> & He).
    assert (Hsame : ∀ e', e' ∈ disk_journal d → JEntry_Path e' = JEntry_Path e → e' = e).
    { intros e' He' Hpath. apply list_elem_of_lookup in He as [i Hi], He' as [k Hk].
      assert (i = k) as ->; [|congruence].
      eapply (NoDup_lookup _ _ _ (JEntry_Path e)); [apply (jo_nodup _ _ _ _ Hok)| |]; unfold journalPaths;
        rewrite list_lookup_fmap; [by rewrite Hi|]. by rewrite Hk, <-Hpath. }
    pose proof He as Hl. apply list_elem_of_lookup in Hl as [i Hi].
    destruct (jo_entry _ _ _ _ Hok i e Hi) as (abs & _ & Hkind).
    assert (Hall : ∀ K, (∀ e', e' ∈ disk_journal d → JEntry_Path e' = JEntry_Path e → JEntry_Kind e' ≠ K) ↔
                        JEntry_Kind e ≠ K).
    { intros K. split; [by eauto|]. intros HK e' He' Hp. by rewrite (Hsame e' He' Hp). }
    assert (Hex : (∃ e', e' ∈ disk_journal d ∧ JEntry_Path e' = JEntry_Path e ∧ JEntry_Kind e' = KindDeleted) ↔
                  JEntry_Kind e = KindDeleted).
    { split; [intros (e' & He' & Hp & HK); by rewrite <-(Hsame e' He' Hp)|by eauto]. }
    rewrite !Hall, Hex. destruct (JEntry_Kind e).
    + destruct Hkind as (_ & node & Hnode & _). rewrite Hnode. split.
      * intros [?|[Ho _]]; [done|]. split; [by eauto|by left].
      * intros [_ [Ho|?]]; [by right|done].
    + rewrite Hkind. split; [by intros [?|[_ ?]]|]. by intros [[? ?] _].
    + destruct Hkind as (_ & node & Hnode & _). rewrite Hnode. split; [|by left].
      intros _. split; [by eauto|]. by right.
  - rewrite <-Hagree by done.
    assert (Hno : ∀ e, e ∈ disk_journal d → JEntry_Path e ≠ p).
    { intros e He <-. apply Hp. by apply list_elem_of_fmap_2. }
    naive_solver.
Qed.
