(* ===== verification/AgentInvariants.v ===== *)
(** * The invariants a finished apply is checked against

    The agent checks, after every apply, that mode and effects agree, that the
    tree it maintains is the desired set, and that a journal is only kept while
    the applied plan differs from the last known good one, and counts every
    violation. The theorem of this file is that none is ever counted. *)

From Stdlib Require Import Ascii.
From stdpp Require Import base list list_numbers functions gmap strings.
From S2P Require Import Prelude Api GoStd Cli Deferrals FileTree FileTreeProps AgentState Agent AgentRecovery AgentProps AgentClaims.

Open Scope Z_scope.

(** ** Preserved predicates *)

Definition preserves {A} (P : World → Prop) (m : M A) : Prop := ∀ w, P w → P (m w).1.

Lemma preserves_ret {A} P (x : A) : preserves P (mret x).
Proof. by intros w. Qed.

Lemma preserves_bind {A A'} P (m : M A) (k : A → M A') :
  preserves P m → (∀ x, preserves P (k x)) → preserves P (m ≫= k).
Proof. intros Hm Hk w Hw. apply (after_bind (λ _ w, P w)); [by apply Hm|]. intros x w'. apply Hk. Qed.

Create HintDb preserves.

Ltac preserve_step :=
  first [ solve [eauto with preserves] | apply preserves_ret | apply preserves_bind; [|intros ?]
        | solve [let w := fresh in let H := fresh in intros w H; exact H] | progress cbv zeta | case_match ].
Ltac preserve := repeat preserve_step.

Section invariants.
Context (digestString : string → string) (fingerprint : nat → string → string → string).
Context (cfg : AgentConfig) (E : Env).

(** ** Mode and effects *)

Definition resultOf (w : World) : ApplyResult := run_result (w_run w).

(** What [checkInvariants] checks of mode and effects. *)
Definition modeOK (res : ApplyResult) : bool :=
  if bool_decide (res_Mode res = ResultRuntime) then negb (reloaded res)
  else if bool_decide (res_Mode res = ResultReload) then reloaded res
  else if bool_decide (res_Mode res = ResultNoop) then bool_decide (res_OpResults res = []) else true.

Lemma modeOK_other res mode :
  res_Mode res = mode → contains [ResultScheduled; ResultRejected; ResultFileOnly] mode = true → modeOK res = true.
Proof.
  intros Hm Hin. unfold modeOK. rewrite Hm. apply bool_decide_eq_true in Hin.
  rewrite !elem_of_cons, elem_of_nil in Hin. by destruct Hin as [->|[->|[->|[]]]].
Qed.

Lemma save_result : keeps resultOf (save E).
Proof. unfold save. keeps. Qed.
Hint Resolve save_result : keeps.
Lemma setPhase_result p id : keeps resultOf (setPhase E p id).
Proof. unfold setPhase. keeps. Qed.
Lemma adoptWorker_result info : keeps resultOf (adoptWorker E info).
Proof. unfold adoptWorker. keeps. Qed.
Hint Resolve setPhase_result adoptWorker_result : keeps.
Lemma checkWorker_result : keeps resultOf (checkWorker E).
Proof. unfold checkWorker, invalidateBaseline. keeps. Qed.
Lemma compileInline_result content ops programs : keeps resultOf (compileInline content ops programs).
Proof.
  revert programs. induction ops as [|op ops IH]; intros programs; simpl; keeps.
  intros w. unfold resultOf, modRun, note. simpl. by repeat case_match.
Qed.
Hint Resolve checkWorker_result compileInline_result : keeps.
Lemma compile_result ops : keeps resultOf (compile cfg E ops).
Proof. unfold compile. keeps. Qed.
Lemma executeChunks_result batches results : keeps resultOf (executeChunks E batches results).
Proof. revert results. induction batches as [|b bs IH]; intros results; simpl; keeps. Qed.
Hint Resolve compile_result executeChunks_result : keeps.
Lemma executeBatches_result programs : keeps resultOf (executeBatches E programs).
Proof. unfold executeBatches. keeps. Qed.
Lemma enqueueDeletes_result worker : keeps resultOf (enqueueDeletes worker).
Proof. unfold enqueueDeletes. keeps. Qed.
Lemma foldCreated_result : keeps resultOf foldCreated.
Proof. unfold foldCreated. keeps. Qed.
Lemma onDisk_result {A} (f : Disk → Disk * A) : keeps resultOf (onDisk f).
Proof. intros w. unfold onDisk. by destruct (f _). Qed.
Hint Resolve executeBatches_result enqueueDeletes_result foldCreated_result onDisk_result : keeps.
Lemma recordReload_result ref : keeps resultOf (recordReload E ref).
Proof. unfold recordReload, clearJournal. keeps. Qed.
Lemma restoreJournal_result : keeps resultOf (restoreJournal digestString cfg E).
Proof. unfold restoreJournal, clearJournal. keeps. Qed.
Hint Resolve recordReload_result restoreJournal_result : keeps.

(** The mode of a result. *)
Definition modeOf (w : World) : string := res_Mode (resultOf w).

Lemma keeps_mode {A} (m : M A) : keeps resultOf m → keeps modeOf m.
Proof. intros H w. unfold modeOf. by rewrite H. Qed.
Hint Resolve keeps_mode : keeps.

Lemma performReload_mode ref : keeps modeOf (performReload E ref).
Proof. unfold performReload, clearPendingReload, awaitNewWorker. keeps. Qed.
Hint Resolve performReload_mode : keeps.

(** A reload that succeeds is reported as performed. *)
Lemma performReload_reloaded ref w :
  (performReload E ref w).2 = true → reloaded (resultOf (performReload E ref w).1) = true.
Proof.
  unfold performReload, clearPendingReload, mbind, M_bind, tick, modState, modServer, modResult, modRun. simpl.
  destruct (env_reload E (w_tick w)) as [logs ok]. destruct ok; simpl; [|done].
  match goal with |- context [awaitNewWorker E ?w0] => set (w1 := w0) end.
  assert (Hk : keeps resultOf (awaitNewWorker E)) by (unfold awaitNewWorker; keeps).
  specialize (Hk w1). destruct (awaitNewWorker E w1) as [w2 worker]. simpl in Hk.
  destruct worker; [|done]. pose proof (recordReload_result ref w2) as Hr.
  destruct (recordReload E ref w2) as [w3 []]. simpl in *. intros _. by rewrite Hr, Hk.
Qed.

Lemma abort_mode stage w : modeOf (abort digestString cfg E stage w).1 = ResultRejected.
Proof.
  unfold abort. apply (after_bind (λ _ w, modeOf w = ResultRejected)); [done|]. intros _ w1 Hw1.
  rewrite <-Hw1.
  match goal with |- modeOf (?m w1).1 = _ => assert (Hk : keeps modeOf m) by (unfold rememberNACK; keeps) end.
  apply Hk.
Qed.

Lemma runInPlace_mode : keeps modeOf (runInPlace cfg E).
Proof. unfold runInPlace, workerOpsBaselineMatches, invalidateBaseline, recordWorkerOps. keeps. Qed.
Hint Resolve runInPlace_mode : keeps.

Lemma rejected_ok w : modeOf w = ResultRejected → modeOK (resultOf w) = true.
Proof. intros H. by apply (modeOK_other _ ResultRejected). Qed.
Lemma scheduled_ok w : modeOf w = ResultScheduled → modeOK (resultOf w) = true.
Proof. intros H. by apply (modeOK_other _ ResultScheduled). Qed.

(** A reload that ends a run: rejected when it fails. *)
Lemma performReload_ok ref stage (k : M unit) w :
  (∀ w', reloaded (resultOf w') = true → modeOK (resultOf (k w').1) = true) →
  modeOK (resultOf ((ok ← performReload E ref; if negb ok then abort digestString cfg E stage else k) w).1) = true.
Proof.
  intros Hk. pose proof (performReload_reloaded ref w) as Hr. unfold mbind at 1, M_bind at 1.
  destruct (performReload E ref w) as [w1 ok]. destruct ok; cbn [negb]; [by apply Hk, Hr|].
  apply rejected_ok, abort_mode.
Qed.

Lemma reload_mode_ok reason w : modeOK (resultOf (reload digestString cfg E reason w).1) = true.
Proof.
  unfold reload. apply (after_bind (λ _ _, True)); [done|]. intros paced w1 _. case_match.
  - apply scheduled_ok. apply (after_bind (λ _ w, modeOf w = ResultScheduled)).
    + unfold schedule, schedulePendingReload.
      apply (after_bind (λ _ _, True)); [done|]. intros run w2 _. cbv zeta.
      apply (after_bind (λ _ _, True)); [done|]. intros _ w3 _.
      apply (after_bind (λ _ w, modeOf w = ResultScheduled)); [done|]. intros _ w4 Hw4.
      apply (after_bind (λ _ w, modeOf w = ResultScheduled)); [done|]. intros _ w5 Hw5.
      unfold modeOf. by rewrite setPhase_result.
    + intros _ w2 Hw2. case_match; [done|]. by rewrite runInPlace_mode.
  - apply (after_bind (λ _ _, True)); [done|]. intros run w2 _. cbv zeta. apply performReload_ok.
    intros w3 Hw3. apply (after_bind (λ _ w, modeOf w = ResultReload ∧ reloaded (resultOf w) = true)).
    { by split. }
    intros _ w4 [Hm Hr]. rewrite setPhase_result. unfold modeOK. unfold modeOf in Hm. by rewrite Hm, Hr.
Qed.

Lemma inPlace_mode_ok w : modeOK (resultOf (inPlace cfg E w).1) = true.
Proof.
  apply scheduled_ok. unfold inPlace, coalesceIntoPendingReload.
  apply (after_bind (λ _ _, True)); [done|]. intros run w1 _. cbv zeta.
  apply (after_bind (λ _ w, modeOf w = ResultScheduled)); [done|]. intros _ w2 Hw2. rewrite <-Hw2.
  match goal with |- modeOf (?m w2).1 = _ => assert (Hk : keeps modeOf m) by keeps end. apply Hk.
Qed.

(** Before a run activates anything, its result says nothing yet. *)
Definition blank (res : ApplyResult) : Prop := res_Reload res = None ∧ res_OpResults res = [].

(** Steps that keep the result. *)
Lemma result_bind {A A'} (Q : ApplyResult → Prop) (R : World → Prop) (m : M A) (k : A → M A') w :
  keeps resultOf m → Q (resultOf w) → (∀ x w', Q (resultOf w') → R (k x w').1) → R ((m ≫= k) w).1.
Proof. intros Hm Hq Hk. apply (after_bind (λ _ w, Q (resultOf w))); [by rewrite Hm|by intros x w'; apply Hk]. Qed.

Lemma runOps_mode_ok programs w :
  res_Reload (resultOf w) = None → modeOK (resultOf (runOps digestString cfg E programs w).1) = true.
Proof.
  intros Hw. unfold runOps, recordWorkerOps. set (Q := λ res, res_Reload res = None).
  eapply (result_bind Q); [keeps|exact Hw|]. intros same w1 Hw1. case_match; [apply reload_mode_ok|].
  eapply (result_bind Q); [keeps|exact Hw1|]. intros s w2 Hw2. cbv zeta.
  eapply (result_bind Q); [keeps|exact Hw2|]. intros executed w3 Hw3.
  apply (after_bind (λ _ w, Q (resultOf w))); [exact Hw3|]. intros _ w4 Hw4. case_match.
  { apply (after_bind (λ _ _, True)); [done|]. intros _ w5 _. apply reload_mode_ok. }
  eapply (result_bind Q); [keeps|exact Hw4|]. intros still w5 Hw5. case_match; [apply reload_mode_ok|].
  eapply (result_bind Q); [keeps|exact Hw5|]. intros queued w6 Hw6. case_match; [apply reload_mode_ok|].
  eapply (result_bind Q); [keeps|exact Hw6|]. intros _ w7 Hw7.
  apply (after_bind (λ _ w, modeOf w = ResultRuntime ∧ Q (resultOf w))); [by split|]. intros _ w8 [Hm Hr].
  apply (after_bind (λ _ w, modeOf w = ResultRuntime ∧ Q (resultOf w))); [by split|]. intros run w9 [Hm9 Hr9].
  rewrite setPhase_result. unfold modeOK. unfold modeOf in Hm9. rewrite Hm9. unfold reloaded. by rewrite Hr9.
Qed.

Lemma settle_mode_ok w : res_OpResults (resultOf w) = [] → modeOK (resultOf (settle E w).1) = true.
Proof.
  intros Hw. unfold settle. apply (after_bind (λ _ w, res_OpResults (resultOf w) = [])); [done|].
  intros run w1 Hw1. cbv zeta. set (mode := if _ : bool then _ else _).
  apply (after_bind (λ _ w, modeOf w = mode ∧ res_OpResults (resultOf w) = [])); [by split|].
  intros _ w2 [Hm Ho]. rewrite setPhase_result. unfold modeOf in Hm. unfold mode in Hm.
  case_match; [by apply (modeOK_other _ ResultFileOnly)|]. unfold modeOK. rewrite Hm, Ho. done.
Qed.

Lemma activate_mode_ok w : blank (resultOf w) → modeOK (resultOf (activate digestString cfg E w).1) = true.
Proof.
  intros Hw. unfold activate, reloadPending, baselineUnknown.
  eapply (result_bind blank); [keeps|exact Hw|]. intros pending w1 Hw1.
  eapply (result_bind blank); [keeps|exact Hw1|]. intros run w2 Hw2. cbv zeta.
  case_match; [apply inPlace_mode_ok|]. case_match; [apply reload_mode_ok|].
  eapply (result_bind blank); [keeps|exact Hw2|]. intros unknown w3 Hw3. case_match; [apply reload_mode_ok|].
  eapply (result_bind blank); [keeps|exact Hw3|]. intros compiled w4 [Hr Ho].
  case_match; [|apply reload_mode_ok]. case_match; [by apply settle_mode_ok|by apply runOps_mode_ok].
Qed.

Lemma revertLKG_mode_ok w : modeOK (resultOf (revertLKG digestString cfg E w).1) = true.
Proof.
  unfold revertLKG. apply (after_bind (λ _ _, True)); [done|]. intros run w1 _.
  apply (after_bind (λ _ _, True)); [done|]. intros _ w2 _.
  apply (after_bind (λ _ _, True)); [done|]. intros ok w3 _. case_match; [apply rejected_ok, abort_mode|].
  apply (after_bind (λ _ _, True)); [done|]. intros _ w4 _.
  apply (after_bind (λ _ _, True)); [done|]. intros lkg w5 _. apply performReload_ok.
  intros w6 Hw6. apply (after_bind (λ _ w, reloaded (resultOf w) = true)); [exact Hw6|]. intros _ w7 Hw7.
  unfold modeOK. cbn. exact Hw7.
Qed.

Lemma execute_mode_ok w :
  blank (resultOf w) → modeOK (resultOf (execute digestString fingerprint cfg E w).1) = true.
Proof.
  intros Hw. unfold execute. eapply (result_bind blank); [keeps|exact Hw|]. intros run w1 Hw1. cbv zeta.
  case_match; [apply revertLKG_mode_ok|].
  eapply (result_bind blank); [keeps|exact Hw1|]. intros _ w2 Hw2.
  eapply (result_bind blank); [unfold begin_; keeps|exact Hw2|]. intros tx w3 Hw3.
  eapply (result_bind blank); [keeps|exact Hw3|]. intros _ w4 Hw4.
  eapply (result_bind blank); [keeps|exact Hw4|]. intros n w5 Hw5.
  eapply (result_bind blank); [keeps|exact Hw5|]. intros backed w6 Hw6. case_match; [apply rejected_ok, abort_mode|].
  eapply (result_bind blank); [keeps|exact Hw6|]. intros _ w7 Hw7.
  eapply (result_bind blank); [keeps|exact Hw7|]. intros k w8 Hw8.
  eapply (result_bind blank); [keeps|exact Hw8|]. intros written w9 Hw9. case_match; [apply rejected_ok, abort_mode|].
  eapply (result_bind blank); [keeps|exact Hw9|]. intros _ w10 Hw10.
  eapply (result_bind blank); [keeps|exact Hw10|]. intros ps w11 Hw11.
  eapply (result_bind blank); [unfold observeTree; keeps|exact Hw11|]. intros _ w12 Hw12. by apply activate_mode_ok.
Qed.

(** ** The journal and the maintained tree *)

(** From activation on: the last known good name is the one the run started
    with, or the journal is empty; and the maintained tree is [tree] while the run
    succeeds. *)
Definition kept (lkg : PlanRef) (tree : gmap string FileAt) (w : World) : Prop :=
  (ps_Roles (sv_state (w_server w)) LKG = lkg ∨ disk_journal (sv_disk (w_server w)) = []) ∧
  ((verdictOf w).1 = true → sv_tree (w_server w) = tree).

Context (lkg : PlanRef) (tree : gmap string FileAt).
Abbreviation P := (kept lkg tree).

Lemma save_kept : preserves P (save E).
Proof. unfold save. preserve. Qed.
Hint Resolve save_kept : preserves.
Lemma setPhase_kept p id : preserves P (setPhase E p id).
Proof. unfold setPhase. preserve. Qed.
Lemma adoptWorker_kept info : preserves P (adoptWorker E info).
Proof. unfold adoptWorker. preserve. Qed.
Hint Resolve setPhase_kept adoptWorker_kept : preserves.
Lemma checkWorker_kept : preserves P (checkWorker E).
Proof. unfold checkWorker, invalidateBaseline. preserve. Qed.
Lemma compileInline_kept content ops programs : preserves P (compileInline content ops programs).
Proof.
  revert programs. induction ops as [|op ops IH]; intros programs; simpl; preserve.
  intros w Hw. unfold kept, verdictOf, modRun, note in *. simpl. by repeat case_match.
Qed.
Hint Resolve checkWorker_kept compileInline_kept : preserves.
Lemma compile_kept ops : preserves P (compile cfg E ops).
Proof. unfold compile. preserve. Qed.
Lemma executeChunks_kept batches results : preserves P (executeChunks E batches results).
Proof. revert results. induction batches as [|b bs IH]; intros results; simpl; preserve. Qed.
Hint Resolve compile_kept executeChunks_kept : preserves.
Lemma enqueueDeletes_kept worker : preserves P (enqueueDeletes worker).
Proof. unfold enqueueDeletes. preserve. Qed.
Lemma foldCreated_kept : preserves P foldCreated.
Proof. unfold foldCreated. preserve. Qed.
Hint Resolve enqueueDeletes_kept foldCreated_kept : preserves.
Lemma runInPlace_kept : preserves P (runInPlace cfg E).
Proof. unfold runInPlace, workerOpsBaselineMatches, invalidateBaseline, recordWorkerOps. preserve. Qed.
Hint Resolve runInPlace_kept : preserves.

(** Dropping the journal and renaming the last known good plan. *)
Lemma clearJournal_kept_always w :
  ((verdictOf w).1 = true → sv_tree (w_server w) = tree) → kept lkg tree (clearJournal E w).1.
Proof.
  intros Hw. destruct (clearJournal_disk E w) as (_ & Hj & Hv). split; [right; exact Hj|]. rewrite Hv.
  assert (Hk : keeps (λ w, sv_tree (w_server w)) (clearJournal E)).
  { unfold clearJournal. intros w'. unfold mbind, M_bind, tick, onDisk. simpl. by destruct (ClearJournal _ _). }
  specialize (Hk w). cbn beta in Hk. by rewrite Hk.
Qed.

Lemma clearJournal_kept : preserves P (clearJournal E).
Proof. intros w [_ Hw]. by apply clearJournal_kept_always. Qed.
Hint Resolve clearJournal_kept : preserves.

Lemma recordReload_kept ref : preserves P (recordReload E ref).
Proof.
  unfold recordReload. do 4 (apply preserves_bind; [preserve|intros ?]). case_match; [preserve|].
  intros w [_ Hw]. apply (after_bind (λ _ w, (verdictOf w).1 = true → sv_tree (w_server w) = tree)); [exact Hw|].
  intros _ w1 Hw1. apply (after_bind (λ _ w, kept lkg tree w)); [by apply clearJournal_kept_always|done].
Qed.
Hint Resolve recordReload_kept : preserves.

Lemma performReload_kept ref : preserves P (performReload E ref).
Proof. unfold performReload, clearPendingReload, awaitNewWorker. preserve. Qed.
Hint Resolve performReload_kept : preserves.

Lemma Restore_journal io d : disk_journal (Restore (cfg_store cfg) io (cfg_ConfigFile cfg) d).1 = disk_journal d.
Proof.
  unfold Restore. generalize (filter (λ e, JEntry_Path e ≠ cfg_ConfigFile cfg) (disk_journal d) ++
    option_list (last (filter (λ e, JEntry_Path e = cfg_ConfigFile cfg) (disk_journal d)))).
  intros l. revert d. induction l as [|e l IH]; intros d; simpl; [done|].
  assert (He : disk_journal (restoreEntry (cfg_store cfg) io e d).1 = disk_journal d)
    by (unfold restoreEntry; by repeat case_match).
  destruct (restoreEntry _ _ _ _) as [d1 ok]. specialize (IH d1). destruct (joinErrors _ l d1) as [d2 ok'].
  simpl in *. congruence.
Qed.

(** A refused run has no tree to keep. *)
Lemma restoreJournal_kept w :
  P w → (verdictOf w).1 = false → P (restoreJournal digestString cfg E w).1 ∧
  (verdictOf (restoreJournal digestString cfg E w).1).1 = false.
Proof.
  intros [Hj _] Hv. assert (Hv' : (verdictOf (restoreJournal digestString cfg E w).1).1 = false).
  { pose proof (restoreJournal_result w) as Hr. unfold verdictOf, resultOf in *. by rewrite Hr. }
  split; [|done]. split; [|by rewrite Hv'].
  unfold restoreJournal, mbind, M_bind, tick, server, onDisk. cbn [w_server w_run w_tick].
  pose proof (Restore_journal (env_io E (w_tick w)) (sv_disk (w_server w))) as HR.
  destruct (Restore _ _ _ _) as [d ok]. cbn [fst] in HR.
  destruct ok; cbn [negb w_server w_run w_tick]; [|destruct Hj as [Hj|Hj]; [by left|right; cbn; congruence]].
  destruct (HashTree _ _ _ _ _) as [t|]; [|destruct Hj as [Hj|Hj]; [by left|right; cbn; congruence]].
  unfold modState, modServer. cbn [w_server w_run w_tick]. right.
  match goal with |- context [clearJournal E ?w0] => destruct (clearJournal_disk E w0) as (_ & Hc & _) end.
  exact Hc.
Qed.

Lemma abort_kept_any stage w :
  ps_Roles (sv_state (w_server w)) LKG = lkg ∨ disk_journal (sv_disk (w_server w)) = [] →
  P (abort digestString cfg E stage w).1.
Proof.
  intros Hj. unfold abort.
  apply (after_bind (λ _ w, P w ∧ (verdictOf w).1 = false)); [split; [by split|done]|]. intros _ w1 [Hp1 Hv1].
  apply (after_bind (λ _ w, P w)); [by apply restoreJournal_kept|]. intros ok w2 Hp2.
  match goal with |- kept lkg tree (?m w2).1 =>
    assert (Hm : preserves P m) by (unfold rememberNACK; preserve); exact (Hm w2 Hp2) end.
Qed.

Lemma abort_kept stage : preserves P (abort digestString cfg E stage).
Proof. intros w [Hj _]. by apply abort_kept_any. Qed.
Hint Resolve abort_kept : preserves.

Lemma activate_kept : preserves P (activate digestString cfg E).
Proof.
  unfold activate, reloadPending, baselineUnknown, settle, inPlace, coalesceIntoPendingReload, runOps, reload,
    pacingWindow, schedule, schedulePendingReload, executeBatches, recordWorkerOps. preserve.
Qed.
End invariants.

Section checks.
Context (digestString : string → string) (fingerprint : nat → string → string → string).
Context (cfg : AgentConfig) (E : Env).

(** The tree [observeTree] leaves. *)
Definition observedTree (m : Manifest) (staged : gmap string Staged) (deleted : list string)
    (old : gmap string FileAt) : gmap string FileAt :=
  let at_ path := match declaredOf m !! path with
                  | Some f => MkFileAt (File_Digest f) (File_Proof f) (File_Size f)
                  | None => MkFileAt "" "" 0
                  end in
  foldl (λ t path, delete path t) (map_imap (λ path (_ : Staged), Some (at_ path)) staged ∪ old) deleted.

(** What a run does not touch before it activates. *)
Definition groundwork (w : World) : PlanRef * gmap string FileAt * list string :=
  (ps_Roles (sv_state (w_server w)) LKG, sv_tree (w_server w), ps_ManifestPaths (sv_state (w_server w))).

Lemma setPhase_groundwork p id : keeps groundwork (setPhase E p id).
Proof. unfold setPhase, save. keeps. Qed.
Lemma onDisk_groundwork {A} (f : Disk → Disk * A) : keeps groundwork (onDisk f).
Proof. intros w. unfold onDisk. by destruct (f _). Qed.
Hint Resolve setPhase_groundwork onDisk_groundwork : keeps.

Lemma ground_bind {A A'} g (R : World → Prop) (m : M A) (k : A → M A') w :
  keeps groundwork m → groundwork w = g → (∀ x w', groundwork w' = g → R (k x w').1) → R ((m ≫= k) w).1.
Proof. intros Hm Hg Hk. apply (after_bind (λ _ w, groundwork w = g)); [by rewrite Hm|done]. Qed.

(** A run that does not revert keeps the last known good name or drops the
    journal, and maintains the tree it installed. *)
Lemma execute_kept w :
  let run := w_run w in let m := run_manifest run in
  Manifest_Mode m ≠ ModeRevertLKG →
  kept (ps_Roles (sv_state (w_server w)) LKG)
    (observedTree m (run_staged run) (deletionsOf (ps_ManifestPaths (sv_state (w_server w))) m)
       (sv_tree (w_server w)))
    (execute digestString fingerprint cfg E w).1.
Proof.
  intros run m Hmode. set (lkg := ps_Roles _ LKG). set (owned := ps_ManifestPaths _). set (old := sv_tree _).
  unfold execute. apply (after_bind (λ r w', r = run ∧ groundwork w' = (lkg, old, owned))); [done|].
  intros r w1 [-> Hw1]. cbv zeta. fold m. rewrite bool_decide_false by done.
  eapply ground_bind; [keeps|exact Hw1|]. intros _ w2 Hw2.
  eapply ground_bind; [unfold begin_; keeps|exact Hw2|]. intros tx w3 Hw3.
  eapply ground_bind; [keeps|exact Hw3|]. intros _ w4 Hw4.
  eapply ground_bind; [keeps|exact Hw4|]. intros n w5 Hw5.
  eapply ground_bind; [keeps|exact Hw5|]. intros backed w6 Hw6.
  destruct backed; cbn [negb]; [|apply abort_kept_any; left; by injection Hw6].
  eapply ground_bind; [keeps|exact Hw6|]. intros _ w7 Hw7.
  eapply ground_bind; [keeps|exact Hw7|]. intros k w8 Hw8.
  eapply ground_bind; [keeps|exact Hw8|]. intros written w9 Hw9.
  destruct written; cbn [negb]; [|apply abort_kept_any; left; by injection Hw9].
  eapply ground_bind; [keeps|exact Hw9|]. intros _ w10 Hw10.
  apply (after_bind (λ ps w', ps_ManifestPaths ps = owned ∧ groundwork w' = (lkg, old, owned))).
  { split; [by injection Hw10|done]. }
  intros ps w11 [Hps Hw11].
  apply (after_bind (λ _ w', kept lkg (observedTree m (run_staged run) (deletionsOf owned m) old) w')).
  { injection Hw11 as Hl Ht _. split; [by left|]. intros _. rewrite Hps.
    unfold observeTree, mbind, M_bind, tick, server, modServer. cbn. by rewrite Ht. }
  intros _ w12 Hw12. by apply activate_kept.
Qed.

Lemma abort_verdict stage w : (verdictOf (abort digestString cfg E stage w).1).1 = false.
Proof.
  unfold abort. apply (after_bind (λ _ w, (verdictOf w).1 = false)); [done|]. intros _ w1 Hw1. rewrite <-Hw1.
  assert (Hres : ∀ m : M bool, keeps resultOf m → keeps (λ w, (verdictOf w).1) m).
  { intros m Hm w'. specialize (Hm w'). unfold verdictOf, resultOf in *. cbn. by rewrite Hm. }
  pose proof (Hres _ (restoreJournal_result digestString cfg E)) as Hrj.
  assert (Hpr : ∀ ref, keeps (λ w, (verdictOf w).1) (performReload E ref)).
  { intros ref w'. destruct (performReload_cleared E ref w') as (_ & _ & Hv). cbn beta. by rewrite Hv. }
  match goal with |- (verdictOf (?m w1).1).1 = _ =>
    assert (Hk : keeps (λ w, (verdictOf w).1) m) by (unfold rememberNACK; keeps) end. apply Hk.
Qed.

(** A revert that succeeds leaves no journal. *)
Lemma revertLKG_journal w :
  let w' := (revertLKG digestString cfg E w).1 in
  (verdictOf w').1 = true → disk_journal (sv_disk (w_server w')) = [].
Proof.
  cbv zeta. unfold revertLKG. set (Q := λ w', (verdictOf w').1 = true → disk_journal (sv_disk (w_server w')) = []).
  match goal with |- (verdictOf ?w').1 = true → _ => change (Q w') end.
  apply (after_bind (λ _ _, True)); [done|]. intros run w1 _.
  apply (after_bind (λ _ _, True)); [done|]. intros _ w2 _.
  apply (after_bind (λ ok w', ok = true → disk_journal (sv_disk (w_server w')) = [])).
  { unfold restoreJournal, mbind, M_bind, tick, server, onDisk. cbn [w_server w_run w_tick].
    destruct (Restore _ _ _ _) as [d ok]. destruct ok; cbn [negb w_server w_run w_tick]; [|done].
    destruct (HashTree _ _ _ _ _) as [t|]; [|done]. unfold modState, modServer. cbn [w_server w_run w_tick].
    match goal with |- context [clearJournal E ?w0] => destruct (clearJournal_disk E w0) as (_ & Hc & _) end.
    intros _. exact Hc. }
  intros ok w3 Hw3. destruct ok; cbn [negb]; [|intros Hv; by rewrite abort_verdict in Hv].
  specialize (Hw3 eq_refl). apply (after_bind (λ _ w', disk_journal (sv_disk (w_server w')) = [])); [exact Hw3|].
  intros _ w4 Hw4. apply (after_bind (λ _ w', disk_journal (sv_disk (w_server w')) = [])); [exact Hw4|].
  intros lkg w5 Hw5. apply (after_bind (λ ok w', disk_journal (sv_disk (w_server w')) = [])).
  { destruct (performReload_cleared E lkg w5) as (_ & [Hd|Hd] & _); unfold diskOf in Hd; [by rewrite Hd|done]. }
  intros ok w6 Hw6. destruct ok; cbn [negb]; [|intros Hv; by rewrite abort_verdict in Hv]. intros _. exact Hw6.
Qed.

Lemma execute_revert_journal w :
  Manifest_Mode (run_manifest (w_run w)) = ModeRevertLKG →
  let w' := (execute digestString fingerprint cfg E w).1 in
  (verdictOf w').1 = true → disk_journal (sv_disk (w_server w')) = [].
Proof.
  intros Hmode. cbv zeta. unfold execute, mbind, M_bind, current. rewrite bool_decide_true by done.
  apply revertLKG_journal.
Qed.

(** ** The maintained tree is the desired set *)

Lemma foldl_delete_paths_lookup {A} (l : list string) (t : gmap string A) p :
  foldl (λ t path, delete path t) t l !! p = if bool_decide (p ∈ l) then None else t !! p.
Proof.
  revert t. induction l as [|q l IH]; intros t; simpl; [done|]. rewrite IH.
  destruct (decide (p ∈ l)) as [Hin|Hin].
  - by rewrite !bool_decide_true by set_solver.
  - rewrite (bool_decide_false (p ∈ l)) by done. destruct (decide (p = q)) as [->|Hne].
    + rewrite lookup_delete_eq, bool_decide_true; [done|apply list_elem_of_here].
    + rewrite lookup_delete_ne by done. rewrite bool_decide_false; [done|set_solver].
Qed.

Lemma observedTree_lookup m staged deleted old p :
  observedTree m staged deleted old !! p =
    if bool_decide (p ∈ deleted) then None
    else match staged !! p with
         | Some _ => Some (match declaredOf m !! p with
                           | Some f => MkFileAt (File_Digest f) (File_Proof f) (File_Size f)
                           | None => MkFileAt "" "" 0 end)
         | None => old !! p
         end.
Proof.
  unfold observedTree. rewrite foldl_delete_paths_lookup. case_match; [done|].
  rewrite lookup_union, map_lookup_imap. destruct (staged !! p); simpl; [by rewrite union_Some_l|].
  by rewrite (left_id_L None union).
Qed.

Lemma declaredOf_lookup m f :
  NoDup (File_Path <$> Manifest_Files m) → f ∈ Manifest_Files m → declaredOf m !! File_Path f = Some f.
Proof.
  intros Hnd Hf. destruct (declaredOf m !! File_Path f) as [g|] eqn:Hg.
  - apply declaredOf_elem in Hg as [Hg Hpath]. f_equal.
    apply list_elem_of_lookup in Hf as [i Hi], Hg as [j Hj].
    assert (i = j) as ->; [|congruence].
    eapply (NoDup_lookup _ _ _ (File_Path f)); [exact Hnd| |]; rewrite list_lookup_fmap;
      [by rewrite Hi|by rewrite Hj, <-Hpath].
  - exfalso. revert Hg. unfold declaredOf. clear Hnd.
    assert (H : ∀ acc : gmap string File, is_Some (acc !! File_Path f) ∨ f ∈ Manifest_Files m →
      is_Some (foldl (λ acc f, <[File_Path f := f]> acc) acc (Manifest_Files m) !! File_Path f)).
    { clear Hf. induction (Manifest_Files m) as [|g l IH]; intros acc [Hacc|Hin]; simpl; [done|set_solver| |].
      - apply IH. left. destruct (decide (File_Path f = File_Path g)) as [->|Hne];
          [rewrite lookup_insert_eq|rewrite lookup_insert_ne by done]; by eauto.
      - apply elem_of_cons in Hin as [->|Hin]; [|apply IH; by right].
        apply IH. left. rewrite lookup_insert_eq. by eauto. }
    destruct (H ∅ (or_intror Hf)) as [g ->]. done.
Qed.

(** What [missingParts] leaves to the maintained tree. *)
Lemma missingParts_held s m got f :
  missingParts s m got = [] → f ∈ Manifest_Files m → got_files got !! File_Path f = None →
  ∃ at_, sv_tree s !! File_Path f = Some at_ ∧
    FileAt_Digest at_ = File_Digest f ∧ FileAt_Proof at_ = File_Proof f ∧ FileAt_Size at_ = File_Size f.
Proof.
  unfold missingParts. intros Hmiss Hf Hgot.
  apply sort_strings_nil, fmap_nil_inv in Hmiss as Hnil.
  pose proof (filter_nil_not_elem_of _ _ f Hnil) as Hno. cbn beta in Hno.
  match type of Hno with ?b = true → _ => destruct b eqn:Hb; [by destruct (Hno eq_refl)|clear Hno] end.
  rewrite Hgot, bool_decide_false in Hb by (by intros [? ?]).
  case_bool_decide; [done|]. destruct (sv_tree s !! File_Path f) as [at_|]; [|done].
  exists at_. apply negb_false_iff in Hb. split_bools.
  repeat match goal with Hx : _ && _ = true |- _ => apply andb_true_iff in Hx as [Hx ?] end. split_bools.
  split_and!; [done|done|done|]. by apply Z.eqb_eq.
Qed.

Lemma observedTree_matches s m got owned :
  NoDup (File_Path <$> Manifest_Files m) → wellStaged m (got_files got) → missingParts s m got = [] →
  (∀ p, is_Some (sv_tree s !! p) → p ∈ owned) →
  treeMatches (observedTree m (got_files got) (deletionsOf owned m) (sv_tree s)) m = true.
Proof.
  intros Hnd Hst Hmiss Hown. set (t := observedTree _ _ _ _).
  assert (Hin : ∀ f, f ∈ Manifest_Files m → ∃ at_, t !! File_Path f = Some at_ ∧
    FileAt_Digest at_ = File_Digest f ∧ FileAt_Proof at_ = File_Proof f ∧ FileAt_Size at_ = File_Size f).
  { intros f Hf. unfold t. rewrite observedTree_lookup, bool_decide_false.
    2: { intros [_ Hno]%deletionsOf_elem. apply Hno. by apply list_elem_of_fmap_2. }
    destruct (got_files got !! File_Path f) eqn:Hg; [|by apply (missingParts_held s m got)].
    rewrite declaredOf_lookup by done. by eexists. }
  assert (Hout : ∀ p, p ∉ File_Path <$> Manifest_Files m → t !! p = None).
  { intros p Hp. unfold t. rewrite observedTree_lookup. case_bool_decide as Hd; [done|].
    destruct (got_files got !! p) eqn:Hg; [by destruct (Hst p _ Hg)|].
    destruct (sv_tree s !! p) eqn:Ht; [|done]. exfalso. apply Hd, deletionsOf_elem. split; [|done].
    apply Hown. rewrite Ht. by eauto. }
  unfold treeMatches. apply andb_true_iff. split.
  - apply Z.eqb_eq. f_equal. assert (Hdom : dom t = list_to_set (File_Path <$> Manifest_Files m)).
    { apply set_eq. intros p. rewrite elem_of_dom, elem_of_list_to_set. split.
      - intros [at_ Hp]. destruct (decide (p ∈ File_Path <$> Manifest_Files m)) as [|Hno]; [done|].
        by rewrite Hout in Hp.
      - intros (f & -> & Hf)%list_elem_of_fmap. destruct (Hin f Hf) as (at_ & -> & _). by eauto. }
    rewrite <-size_dom, Hdom, size_list_to_set by done. apply length_fmap.
  - apply forallb_forall. intros f Hf%list_elem_of_In. destruct (Hin f Hf) as (at_ & -> & -> & -> & ->).
    by rewrite !bool_decide_true, Z.eqb_refl.
Qed.

(** ** No invariant is violated *)

Lemma checkInvariants_nil g s run :
  (res_OK (run_result run) = true → ps_Generation (sv_state s) = (g + 1) mod 2 ^ 64) →
  (res_OK (run_result run) = true → Manifest_Mode (run_manifest run) ≠ ModeRevertLKG →
   treeMatches (sv_tree s) (run_manifest run) = true) →
  modeOK (run_result run) = true →
  (disk_journal (sv_disk s) = [] ∨ samePlanRef (ps_Roles (sv_state s) Applied) (ps_Roles (sv_state s) LKG) = false) →
  checkInvariants g s run = [].
Proof.
  intros Hg Ht Hm Hj. unfold checkInvariants. unfold modeOK in Hm. rewrite !app_nil. split; [|split].
  - destruct (res_OK (run_result run)); [|done]. specialize (Hg eq_refl). specialize (Ht eq_refl).
    clear Hm. rewrite Hg, Z.eqb_refl. cbn [app]. case_bool_decide; [done|]. by rewrite Ht.
  - revert Hm. by repeat (case_match; [by intros ->|]).
  - destruct Hj as [-> | ->]; [done|]. by rewrite orb_true_r.
Qed.

(** What the checks read, the generation and the applied plan apart. *)
Definition checkedOf (w : World) :
    bool * string * option ReloadInfo * list OpResult * Manifest * gmap string FileAt * Disk * PlanRef :=
  let res := run_result (w_run w) in
  (res_OK res, res_Mode res, res_Reload res, res_OpResults res, run_manifest (w_run w), sv_tree (w_server w),
   sv_disk (w_server w), ps_Roles (sv_state (w_server w)) LKG).

Lemma finish_checked : keeps checkedOf (finish digestString E).
Proof. unfold finish, commitLocked, applyResultLocked, shareResult, save. keeps. Qed.

Lemma commitPlanBlob_checks g : keeps (λ w, checkInvariants g (w_server w) (w_run w)) (commitPlanBlob E).
Proof. unfold commitPlanBlob, rebindPlanBlobProof, storePlanBlobLocked, save. keeps. Qed.

Lemma samePlanRef_noRef ref : samePlanRef noRef ref = false.
Proof. done. Qed.

(** The applied plan a run commits is not the last known good one while there is
    a journal. *)
Lemma finish_diverged w :
  (Manifest_Mode (run_manifest (w_run w)) = ModeRevertLKG →
   res_OK (run_result (w_run w)) = true → disk_journal (sv_disk (w_server w)) = []) →
  (Manifest_Mode (run_manifest (w_run w)) ≠ ModeRevertLKG →
   ref_Proof (ps_Roles (sv_state (w_server w)) LKG) = run_appliedProof (w_run w) →
   disk_journal (sv_disk (w_server w)) = []) →
  let w' := (finish digestString E w).1 in
  disk_journal (sv_disk (w_server w')) = [] ∨
  samePlanRef (ps_Roles (sv_state (w_server w')) Applied) (ps_Roles (sv_state (w_server w')) LKG) = false.
Proof.
  intros Hrev Hfwd. cbv zeta. pose proof (finish_claim digestString E w) as (_ & _ & _ & Hout).
  pose proof (finish_checked w) as Hc. set (w' := (finish digestString E w).1) in *.
  unfold checkedOf in Hc. injection Hc as _ _ _ _ _ _ Hd Hl. rewrite Hd, Hl.
  unfold outcome, claims in Hout.
  destruct (res_OK _) eqn:Hok; [|destruct Hout as (_ & -> & _); right; apply samePlanRef_noRef].
  destruct Hout as [_ Hout]. destruct (_ =? _); [|destruct Hout as [-> _]; right; apply samePlanRef_noRef].
  destruct Hout as [-> _]. unfold committedRef. case_bool_decide as Hmode; [left; by apply Hrev|].
  destruct (decide (ref_Proof (ps_Roles (sv_state (w_server w)) LKG) = run_appliedProof (w_run w))) as [Heq|Hne].
  - left. by apply Hfwd.
  - right. apply samePlanRef_false. left. intros Heq. apply Hne. by rewrite <-Heq.
Qed.

Lemma runApply_invariants m got blob digest work appliedProof workerProof w :
  NoDup (File_Path <$> Manifest_Files m) → wellStaged m (got_files got) →
  missingParts (w_server w) m got = [] →
  (∀ p, is_Some (sv_tree (w_server w) !! p) → p ∈ ps_ManifestPaths (sv_state (w_server w))) →
  (Manifest_Mode m ≠ ModeRevertLKG → ref_Proof (ps_Roles (sv_state (w_server w)) LKG) ≠ appliedProof) →
  let w' := (runApply digestString fingerprint cfg E m (got_files got) blob digest work appliedProof workerProof w).1 in
  checkInvariants (ps_Generation (sv_state (w_server w))) (w_server w') (w_run w') = [].
Proof.
  intros Hnd Hst Hmiss Hown Hfresh. cbv zeta. rewrite runApply_unfold. cbn [fst].
  set (w1 := startRun _ _ _ _ _ _ _ w). set (w2 := (execute _ _ _ _ w1).1). rewrite commitPlanBlob_checks.
  pose proof (execute_identity digestString fingerprint cfg E w1) as Hid. fold w2 in Hid.
  unfold identityOf in Hid. injection Hid as Hgen Hman Hproof _ _.
  pose proof (execute_mode_ok digestString fingerprint cfg E w1) as Hmode. fold w2 in Hmode.
  pose proof (finish_claim digestString E w2) as (_ & _ & _ & Hout).
  pose proof (finish_checked w2) as Hc. pose proof (finish_diverged w2) as Hdiv.
  set (w3 := (finish digestString E w2).1) in *. unfold checkedOf in Hc.
  injection Hc as Hok Hmd Hrl Hop Hmf Htr _ _.
  assert (Hkept : Manifest_Mode m ≠ ModeRevertLKG → kept (ps_Roles (sv_state (w_server w)) LKG)
    (observedTree m (got_files got) (deletionsOf (ps_ManifestPaths (sv_state (w_server w))) m)
       (sv_tree (w_server w))) w2) by (intros Hne; exact (execute_kept w1 Hne)).
  apply checkInvariants_nil.
  - intros Htrue. rewrite Hok in Htrue. unfold outcome, claims in Hout. rewrite Htrue in Hout.
    destruct Hout as [-> _]. by rewrite Hgen.
  - rewrite Hok, Hmf, Htr, Hman. intros Htrue Hne. destruct (Hkept Hne) as [_ ->]; [|exact Htrue].
    by apply observedTree_matches.
  - unfold modeOK, reloaded. rewrite Hmd, Hrl, Hop. apply Hmode. by split.
  - apply Hdiv; rewrite Hman, ?Hproof.
    + intros Hrev. exact (execute_revert_journal w1 Hrev).
    + intros Hne Heq. destruct (Hkept Hne) as [[Hl|Hl] _]; [|done]. exfalso. apply (Hfresh Hne). by rewrite <-Hl.
Qed.
End checks.
