(* ===== verification/AgentIdentity.v ===== *)
(** * Plan proofs are never used twice

    A proof says under which observation the agent holds a plan. It is a counter
    in the state file, reserved before an apply uses it; every role of the state
    carries a reserved proof or none, in every state the agent reaches. With that,
    no invariant check of a finished apply ever fails. *)

From Stdlib Require Import Ascii.
From stdpp Require Import base list list_numbers functions gmap strings relations.
From S2P Require Import Prelude Api GoStd Cli Deferrals FileTree FileTreeProps AgentState Agent AgentRecovery AgentProps AgentClaims AgentInvariants.

Open Scope Z_scope.

(** A proof that is empty or was reserved among the first [n]. *)
Definition reserved (n : Z) (proof : string) : Prop :=
  proof = "" ∨ ∃ k, 0 <= k <= n ∧ proof = "a:" +:+ itoa k.

(** Every role of the state carries a reserved proof. *)
Definition rolesReserved (ps : persistentState) : Prop :=
  0 <= ps_ProofGeneration ps ∧ ∀ r, reserved (ps_ProofGeneration ps) (ref_Proof (ps_Roles ps r)).

Lemma reserved_empty n : reserved n "".
Proof. by left. Qed.

Lemma reserved_mono n k proof : n <= k → reserved n proof → reserved k proof.
Proof. intros Hle [->|(i & Hi & ->)]; [by left|right]. exists i. split; [lia|done]. Qed.

(** A later number makes another proof. *)
Lemma reserved_fresh n k proof : 0 <= n < k → reserved n proof → proof ≠ "a:" +:+ itoa k.
Proof.
  intros Hlt [->|(i & Hi & ->)]; [done|]. intros Heq. injection Heq as Heq.
  rewrite <-(Z2Nat.id i), <-(Z2Nat.id k) in Heq by lia. apply itoa_nat_inj in Heq. lia.
Qed.

Create HintDb yields.
#[export] Hint Resolve reserved_empty : yields.

Section identity.
Context (digestString : string → string) (fingerprint : nat → string → string → string).
Context (cfg : AgentConfig) (E : Env) (rt : Runtime).
(** The counter stands at [g]; the roles carry proofs among the first [n]. *)
Context (g n : Z) (Hg : 0 <= g) (Hng : n <= g).

(** ** Steps that keep the roles reserved *)

Abbreviation ok ref := (reserved n (ref_Proof ref)).

Definition rolesOK (ps : persistentState) : Prop := ps_ProofGeneration ps = g ∧ ∀ r, ok (ps_Roles ps r).
Definition runOK (run : applyRun) : Prop := reserved n (run_appliedProof run) ∧ reserved n (run_workerProof run).
Definition worldOK (w : World) : Prop :=
  rolesOK (sv_state (w_server w)) ∧ runOK (w_run w) ∧ rolesReserved (sv_saved (w_server w)).1.

(** What a step answers, when the roles and the run are reserved. *)
Definition yields {A} (Q : A → Prop) (m : M A) : Prop := ∀ w, worldOK w → worldOK (m w).1 ∧ Q (m w).2.

Abbreviation steps m := (yields (λ _, True) m).

Lemma yields_bind {A A'} (Q : A → Prop) (R : A' → Prop) (m : M A) (k : A → M A') :
  yields Q m → (∀ x, Q x → yields R (k x)) → yields R (m ≫= k).
Proof.
  intros Hm Hk w Hw. destruct (Hm w Hw) as [Hw1 HQ]. unfold mbind, M_bind. destruct (m w) as [w1 x].
  by apply Hk.
Qed.

Lemma steps_ret {A} (x : A) : steps (mret x).
Proof. by intros w Hw. Qed.

Lemma role_yields r : yields (λ ref, ok ref) (role r).
Proof. intros w Hw. split; [done|]. apply Hw. Qed.
Lemma current_yields : yields runOK current.
Proof. intros w Hw. split; [done|]. apply Hw. Qed.
Lemma state_yields : yields rolesOK state.
Proof. intros w Hw. split; [done|]. apply Hw. Qed.
Lemma server_yields : yields (λ s, rolesOK (sv_state s)) server.
Proof. intros w Hw. split; [done|]. apply Hw. Qed.

Lemma setRole_steps r ref : ok ref → steps (modState (setRole r ref)).
Proof.
  intros Hok w ((Hn & Hr) & Hrun & Hs). split; [|done]. split; [|by split]. split; [done|]. intros r'. cbn.
  destruct (decide (r' = r)) as [->|Hne]; [by rewrite fn_lookup_insert|by rewrite fn_lookup_insert_ne by done].
Qed.

Lemma newRun_steps (f : applyRun → applyRun) : (∀ run, runOK (f run)) → steps (modRun f).
Proof. intros Hf w (Hr & _ & Hs). split; [|done]. split; [done|]. split; [apply Hf|done]. Qed.

(** The side conditions: a reference read from the state or named by the run. *)
Ltac reserved_side :=
  unfold runOK, rolesOK in *; cbn [ref_Proof noRef];
  first [ assumption | apply reserved_empty | (repeat case_match; naive_solver) ].

Ltac yields_step :=
  lazymatch goal with
  | |- yields _ (_ ≫= _) =>
      first [ eapply yields_bind; [first [apply role_yields | apply current_yields | apply state_yields
                                         | apply server_yields]|intros ? ?]
            | apply (yields_bind (λ _, True)); [|intros ? _] ]
  | |- _ =>
      first [ apply steps_ret
            | apply setRole_steps; solve [reserved_side]
            | solve [eauto with yields]
            | apply newRun_steps; intros ?; solve [cbn; split; reserved_side]
            | progress cbv zeta | case_match
            | solve [intros ?w ?Hw; split; [exact Hw|exact I]] ]
  end.
Ltac yields := repeat yields_step.

Lemma save_steps : steps (save E).
Proof.
  intros w Hw. split; [|done]. unfold save, mbind, M_bind, tick, server. cbn [w_server w_run w_tick].
  destruct (env_save E (w_tick w)); [|exact Hw]. destruct Hw as ([Heq Hr] & Hrun & _).
  split; [done|]. split; [done|]. cbn. split; [lia|]. intros r. rewrite Heq. by eapply reserved_mono.
Qed.
Hint Resolve save_steps : yields.
Lemma setPhase_steps p id : steps (setPhase E p id).
Proof. unfold setPhase. yields. Qed.
Lemma adoptWorker_steps info : steps (adoptWorker E info).
Proof. unfold adoptWorker. yields. Qed.
Lemma invalidateBaseline_steps : steps invalidateBaseline.
Proof. unfold invalidateBaseline. yields. Qed.
Hint Resolve setPhase_steps adoptWorker_steps invalidateBaseline_steps : yields.
Lemma checkWorker_steps : steps (checkWorker E).
Proof. unfold checkWorker. yields. Qed.
Lemma compileInline_steps content ops programs : steps (compileInline content ops programs).
Proof.
  revert programs. induction ops as [|op ops IH]; intros programs; simpl; yields.
  intros w (Hr & Hrun & Hs). split; [|done]. split; [done|]. split; [|done].
  unfold runOK, modRun, note in *. simpl. by repeat case_match.
Qed.
Lemma onDisk_steps {A} (f : Disk → Disk * A) : steps (onDisk f).
Proof. intros w Hw. unfold onDisk. by destruct (f _). Qed.
Hint Resolve checkWorker_steps compileInline_steps onDisk_steps : yields.
Lemma compile_steps ops : steps (compile cfg E ops).
Proof. unfold compile. yields. Qed.
Lemma executeChunks_steps batches results : steps (executeChunks E batches results).
Proof. revert results. induction batches as [|b bs IH]; intros results; simpl; yields. Qed.
Lemma enqueueDeletes_steps worker : steps (enqueueDeletes worker).
Proof. unfold enqueueDeletes. yields. Qed.
Lemma foldCreated_steps : steps foldCreated.
Proof. unfold foldCreated. yields. Qed.
Lemma clearJournal_steps : steps (clearJournal E).
Proof. unfold clearJournal. yields. Qed.
Hint Resolve compile_steps executeChunks_steps enqueueDeletes_steps foldCreated_steps clearJournal_steps : yields.
Lemma executeBatches_steps programs : steps (executeBatches E programs).
Proof. unfold executeBatches. yields. Qed.
Lemma recordReload_steps ref : ok ref → steps (recordReload E ref).
Proof. intros Hok. unfold recordReload. yields. Qed.
Lemma recordWorkerOps_steps ref : ok ref → steps (recordWorkerOps ref).
Proof. intros Hok. unfold recordWorkerOps. yields. Qed.
Hint Resolve executeBatches_steps recordReload_steps recordWorkerOps_steps : yields.
Lemma performReload_steps ref : ok ref → steps (performReload E ref).
Proof. intros Hok. unfold performReload, clearPendingReload, awaitNewWorker. yields. Qed.
Lemma restoreJournal_steps : steps (restoreJournal digestString cfg E).
Proof. unfold restoreJournal. yields. Qed.
Lemma rememberNACK_steps reason : steps (rememberNACK E reason).
Proof. unfold rememberNACK. yields. Qed.
Hint Resolve performReload_steps restoreJournal_steps rememberNACK_steps : yields.
Lemma abort_steps stage : steps (abort digestString cfg E stage).
Proof. unfold abort. yields. Qed.
Lemma runInPlace_steps : steps (runInPlace cfg E).
Proof.
  unfold runInPlace, workerOpsBaselineMatches. yields. all: try (apply recordWorkerOps_steps; reserved_side).
Qed.
Hint Resolve abort_steps runInPlace_steps : yields.
Lemma schedulePendingReload_steps due ref : ok ref → steps (schedulePendingReload E due ref).
Proof. intros Hok. unfold schedulePendingReload. yields. Qed.
Hint Resolve schedulePendingReload_steps : yields.
Lemma schedule_steps due : steps (schedule E due).
Proof. unfold schedule. yields. all: try (apply schedulePendingReload_steps; reserved_side). Qed.
Hint Resolve schedule_steps : yields.
Lemma reload_steps reason : steps (reload digestString cfg E reason).
Proof. unfold reload, pacingWindow. yields. all: try (apply performReload_steps; reserved_side). Qed.
Hint Resolve reload_steps : yields.
Lemma inPlace_steps : steps (inPlace cfg E).
Proof. unfold inPlace, coalesceIntoPendingReload. yields. Qed.
Lemma runOps_steps programs : steps (runOps digestString cfg E programs).
Proof. unfold runOps. yields. all: try (apply recordWorkerOps_steps; reserved_side). Qed.
Lemma settle_steps : steps (settle E).
Proof. unfold settle. yields. Qed.
Hint Resolve inPlace_steps runOps_steps settle_steps : yields.
Lemma activate_steps : steps (activate digestString cfg E).
Proof. unfold activate, reloadPending, baselineUnknown. yields. Qed.
Lemma revertLKG_steps : steps (revertLKG digestString cfg E).
Proof. unfold revertLKG. yields. Qed.
Hint Resolve activate_steps revertLKG_steps : yields.
Lemma execute_steps : steps (execute digestString fingerprint cfg E).
Proof. unfold execute, begin_, observeTree. yields. Qed.
Lemma commitLocked_steps : steps (commitLocked digestString).
Proof. unfold commitLocked. yields. Qed.
Lemma applyResultLocked_steps : steps applyResultLocked.
Proof. unfold applyResultLocked. yields. Qed.
Lemma shareResult_steps : steps shareResult.
Proof. unfold shareResult. yields. Qed.
Hint Resolve execute_steps commitLocked_steps applyResultLocked_steps shareResult_steps : yields.
Lemma finish_steps : steps (finish digestString E).
Proof. unfold finish. yields. Qed.

(** A stored plan is the applied one. *)
Lemma storePlanBlobLocked_steps ref blob : steps (storePlanBlobLocked E ref blob).
Proof.
  unfold storePlanBlobLocked. eapply yields_bind; [apply role_yields|]. intros applied Hok.
  destruct (samePlanRef applied ref) eqn:Hsame; cbn [negb]; [|yields].
  apply samePlanRef_true in Hsame as [-> _]. yields.
Qed.
Lemma rebindPlanBlobProof_steps : steps (rebindPlanBlobProof E).
Proof. unfold rebindPlanBlobProof. yields. Qed.
Hint Resolve finish_steps storePlanBlobLocked_steps rebindPlanBlobProof_steps : yields.
Lemma commitPlanBlob_steps : steps (commitPlanBlob E).
Proof. unfold commitPlanBlob. yields. Qed.
Hint Resolve commitPlanBlob_steps : yields.

Lemma runApply_steps m staged blob digest work appliedProof workerProof :
  reserved n appliedProof → reserved n workerProof →
  steps (runApply digestString fingerprint cfg E m staged blob digest work appliedProof workerProof).
Proof. intros Ha Hw. unfold runApply. yields. Qed.

Lemma firePendingReload_steps : steps (firePendingReload digestString cfg E).
Proof. unfold firePendingReload. yields. Qed.
Lemma promoteLKG_steps m : steps (promoteLKG E m).
Proof. unfold promoteLKG. yields. Qed.
Lemma cachedNACK_steps digest work : steps (cachedNACK E digest work).
Proof. unfold cachedNACK. yields. Qed.

(** ** Restarts, read-backs and reads *)

Lemma selfReload_steps : steps (selfReload E).
Proof. unfold selfReload. yields. Qed.
Lemma mapDiverged_steps path : steps (mapDiverged cfg E rt path).
Proof. unfold mapDiverged. yields. Qed.
Hint Resolve selfReload_steps mapDiverged_steps : yields.
Lemma anyDiverged_steps paths diverged : steps (anyDiverged cfg E rt paths diverged).
Proof. revert diverged. induction paths as [|p ps IH]; intros diverged; simpl; yields. Qed.
Lemma unreadableBackends_steps retiring backends diverged : steps (unreadableBackends rt retiring backends diverged).
Proof. revert diverged. induction backends as [|b bs IH]; intros diverged; simpl; yields. Qed.
Hint Resolve anyDiverged_steps unreadableBackends_steps : yields.
Lemma readBack_steps : steps (readBack cfg E rt).
Proof. unfold readBack, pacingWindow. yields. Qed.
Lemma recoverFromCrash_steps : steps (recoverFromCrash E).
Proof. unfold recoverFromCrash. yields. all: try (apply performReload_steps; reserved_side). Qed.
Lemma updateRole_steps r f : (∀ ref, ok ref → ok (f ref)) → steps (modState (updateRole r f)).
Proof.
  intros Hf w Hw. change (modState (updateRole r f) w) with
    (modState (setRole r (f (ps_Roles (sv_state (w_server w)) r))) w).
  apply setRole_steps; [|done]. apply Hf, Hw.
Qed.
Lemma withoutID_steps r : steps (modState (updateRole r withoutID)).
Proof. by apply updateRole_steps. Qed.
Lemma withoutProof_steps r : steps (modState (updateRole r withoutProof)).
Proof. apply updateRole_steps. intros. apply reserved_empty. Qed.
Hint Resolve withoutID_steps withoutProof_steps recoverFromCrash_steps : yields.
Lemma adoptDisk_steps : steps (adoptDisk digestString cfg E).
Proof. unfold adoptDisk. yields. Qed.
Lemma reobserve_steps : steps (reobserve digestString fingerprint cfg E).
Proof. unfold reobserve, refreshTree. yields. Qed.
Lemma handlePlan_steps ref blob : steps (handlePlan E ref blob).
Proof. unfold handlePlan. yields. Qed.
Lemma probeHAProxy_steps : steps (probeHAProxy E).
Proof. unfold probeHAProxy. yields. Qed.
Lemma loadPlanBlob_steps : steps (loadPlanBlob rt).
Proof. unfold loadPlanBlob. yields. Qed.
Hint Resolve adoptDisk_steps probeHAProxy_steps loadPlanBlob_steps : yields.
Lemma initialise_steps : steps (initialise digestString cfg E).
Proof. unfold initialise. yields. Qed.
End identity.

(** ** Reserving *)

Section reserving.
Context (digestString : string → string) (fingerprint : nat → string → string → string).
Context (cfg : AgentConfig) (E : Env) (rt : Runtime).

(** Between two requests. *)
Definition agentOK (w : World) : Prop :=
  let g := ps_ProofGeneration (sv_state (w_server w)) in 0 <= g ∧ worldOK g g w.

Lemma agentOK_roles w : agentOK w → rolesReserved (sv_state (w_server w)).
Proof. intros (Hg & (_ & Hr) & _). by split. Qed.

Lemma steps_agentOK {A} (m : M A) w :
  (∀ g, 0 <= g → yields g g (λ _, True) m) → agentOK w → agentOK (m w).1.
Proof.
  intros Hm (Hg & Hw). destruct (Hm _ Hg w Hw) as [Hw' _]. unfold agentOK.
  destruct Hw' as ((Heq & Hr) & Hrun). rewrite Heq. split; [done|]. split; [|done]. by split.
Qed.

Lemma reserveRoleProofs_cases withWorker w :
  let ps := sv_state (w_server w) in
  let needed := if withWorker : bool then 2 else 1 in
  let '(w', proofs) := reserveRoleProofs E withWorker w in
  let ps' := sv_state (w_server w') in
  ps_Roles ps' = ps_Roles ps ∧ ps_Generation ps' = ps_Generation ps ∧ ps_ManifestPaths ps' = ps_ManifestPaths ps ∧
  sv_tree (w_server w') = sv_tree (w_server w) ∧ w_run w' = w_run w ∧ sv_disk (w_server w') = sv_disk (w_server w) ∧
  ((sv_saved (w_server w')).1 = (sv_saved (w_server w)).1 ∨ (sv_saved (w_server w')).1 = ps') ∧
  (ps_ProofGeneration ps' = ps_ProofGeneration ps ∨
   ps_ProofGeneration ps' = ps_ProofGeneration ps + needed ∧ ps_ProofGeneration ps + needed < 2 ^ 64) ∧
  match proofs with
  | Some (applied, worker) =>
      ps_ProofGeneration ps' = ps_ProofGeneration ps + needed ∧ ps_ProofGeneration ps + needed < 2 ^ 64 ∧
      ps_ProofGeneration (sv_saved (w_server w')).1 = ps_ProofGeneration ps' ∧
      applied = "a:" +:+ itoa (ps_ProofGeneration ps + 1) ∧
      worker = (if withWorker then "a:" +:+ itoa (ps_ProofGeneration ps + 2) else "")
  | None => True
  end.
Proof.
  cbv zeta. unfold reserveRoleProofs, mbind, M_bind, state.
  destruct (_ <? _) eqn:Hlt; [split_and!; (done || by left)|]. apply Z.ltb_ge in Hlt.
  unfold modState, modServer, save, mbind, M_bind, tick, server. cbn [w_server w_run w_tick].
  destruct (env_save E (w_tick w)); unfold modServer; cbn.
  - split_and!; try done; [by right|right|..]; destruct withWorker; try (split_and!; lia || done); try lia; try done.
    by replace (ps_ProofGeneration (sv_state (w_server w)) + 1 + 1)
       with (ps_ProofGeneration (sv_state (w_server w)) + 2) by lia.
  - split_and!; try done; [by left|]. right. destruct withWorker; split; lia.
Qed.

Lemma reserveRoleProofs_OK withWorker w :
  agentOK w →
  let '(w', proofs) := reserveRoleProofs E withWorker w in
  agentOK w' ∧
  match proofs with
  | Some (applied, worker) =>
      reserved (ps_ProofGeneration (sv_state (w_server w'))) applied ∧
      reserved (ps_ProofGeneration (sv_state (w_server w'))) worker
  | None => True
  end.
Proof.
  intros (Hn & (_ & Hr) & [Ha Hb] & Hs). pose proof (reserveRoleProofs_cases withWorker w) as H.
  destruct (reserveRoleProofs E withWorker w) as [w' proofs]. cbv zeta in H.
  destruct H as (Hroles & _ & _ & _ & Hrun & _ & Hsaved & Hgen & Hp).
  assert (Hle : ps_ProofGeneration (sv_state (w_server w)) <= ps_ProofGeneration (sv_state (w_server w')))
    by (destruct withWorker; lia).
  assert (Hr' : rolesReserved (sv_state (w_server w'))).
  { split; [lia|]. intros r. rewrite Hroles. by eapply reserved_mono. }
  split.
  - split; [lia|]. split; [split; [done|apply Hr']|].
    split; [rewrite Hrun; split; by eapply reserved_mono|]. by destruct Hsaved as [-> | ->].
  - destruct proofs as [[applied worker]|]; [|done]. destruct Hp as (Hg & _ & _ & -> & ->). rewrite Hg.
    destruct withWorker; split; try (by left); right; eexists; (split; [|done]); lia.
Qed.

(** ** Reachable states *)

Lemma stageAndRun_OK workIdentity m parts w :
  agentOK w → agentOK (stageAndRun digestString fingerprint cfg E workIdentity m parts w).1.
Proof.
  intros Hw. unfold stageAndRun. apply (after_bind (λ _ w, agentOK w)); [exact Hw|]. intros n w1 Hw1.
  apply (after_bind (λ _ w, agentOK w)); [exact Hw1|]. intros s w2 Hw2.
  destruct (stageParts _ _ _ _ _ _ _) as [got|]; [|exact Hw2]. destruct (missingParts _ _ _); [|exact Hw2].
  cbv zeta. apply (after_bind (λ _ w, agentOK w)).
  { case_match; [exact Hw2|]. apply steps_agentOK; [|exact Hw2]. intros; by apply cachedNACK_steps. }
  intros cached w3 Hw3. destruct cached; [exact Hw3|]. apply (after_bind (λ _ w, agentOK w)).
  { apply steps_agentOK; [|exact Hw3]. intros; by apply promoteLKG_steps. }
  intros promoted w4 Hw4. destruct promoted; cbn [negb]; [|exact Hw4].
  apply (after_bind (λ proofs w, agentOK w ∧ match proofs with
    | Some (applied, worker) => reserved (ps_ProofGeneration (sv_state (w_server w))) applied ∧
                                reserved (ps_ProofGeneration (sv_state (w_server w))) worker
    | None => True end)).
  { case_match; [split; [exact Hw4|split; apply reserved_empty]|].
    pose proof (reserveRoleProofs_OK (negb (bool_decide (Manifest_InPlaceOps m = []))) w4 Hw4) as H'.
    by destruct (reserveRoleProofs _ _ w4). }
  intros proofs w5 [Hw5 Hp]. destruct proofs as [[applied worker]|]; [|exact Hw5]. destruct Hp as [Ha Hb].
  apply (after_bind (λ _ w, agentOK w)); [|by intros result w6 Hw6].
  destruct Hw5 as [Hg Hw5]. edestruct (runApply_steps digestString fingerprint cfg E) as [Hw6 _];
    [exact Hg|reflexivity|exact Ha|exact Hb|exact Hw5|].
  unfold agentOK. destruct Hw6 as ((Heq & Hr) & Hrun). rewrite Heq. split; [done|]. split; [|done]. by split.
Qed.

(** What can happen to an agent: an apply, a due reload, a read-back, a read that
    re-observes, a plan upload, or a restart. *)
Inductive agent_step : World → World → Prop :=
  | step_apply workIdentity decoded parts w :
      agent_step w (handleApply digestString fingerprint cfg E workIdentity decoded parts w).1
  | step_fire w : agent_step w (firePendingReload digestString cfg E w).1
  | step_readBack w : agent_step w (readBack cfg E rt w).1
  | step_observe w : agent_step w (reobserve digestString fingerprint cfg E w).1
  | step_plan ref blob w : agent_step w (handlePlan E ref blob w).1
  | step_restart w : agent_step w ((_ ← New_ rt; initialise digestString cfg E) w).1.

Lemma New_OK w : agentOK w → agentOK (New_ rt w).1.
Proof.
  intros (Hg & _ & _ & Hs). unfold New_.
  apply (after_bind (λ _ w, agentOK w)).
  - destruct Hs as [Hg' Hr]. split; [exact Hg'|]. split; [by split|]. split; [|by split].
    split; apply reserved_empty.
  - intros _ w1 Hw1. apply steps_agentOK; [|exact Hw1]. intros. apply loadPlanBlob_steps.
Qed.

Lemma agent_step_OK w w' : agent_step w w' → agentOK w → agentOK w'.
Proof.
  intros [workIdentity decoded parts w1|w1|w1|w1|ref blob w1|w1] Hw.
  - unfold handleApply. destruct (readManifest decoded) as [m|]; [|exact Hw].
    apply (after_bind (λ _ w, agentOK w)); [exact Hw|]. intros n w2 Hw2.
    apply (after_bind (λ _ w, agentOK w)); [exact Hw2|]. intros s w3 Hw3.
    destruct (fence _ _ _ _); [exact Hw3|by apply stageAndRun_OK].
  - apply steps_agentOK; [intros; by apply firePendingReload_steps|done].
  - apply steps_agentOK; [intros; by apply readBack_steps|done].
  - apply steps_agentOK; [intros; by apply reobserve_steps|done].
  - apply steps_agentOK; [intros; by apply handlePlan_steps|done].
  - apply (after_bind (λ _ w, agentOK w)); [by apply New_OK|]. intros _ w2 Hw2.
    apply steps_agentOK; [intros; by apply initialise_steps|done].
Qed.

(** An agent that has never run: an empty state, and whatever is on disk. *)
Definition boot (d : Disk) : World :=
  let ps := MkState 0 0 0 (λ _, noRef) (MkToken 0 0) [] "" (MkHAProxyInfo "" "" 0 0) phaseIdle "" None None in
  MkWorld
    (MkAgent ps (ps, []) d ∅ ∅ (MkHAProxyInfo "" "" 0 0) (MkInventory 0 [] [] [] [] []) 0 zeroTime 0 NewDeferrals
       None None) (reloadRun "" "") 0.

Lemma reachable_agentOK d w : rtc agent_step (boot d) w → agentOK w.
Proof.
  intros Hr. assert (Hboot : agentOK (boot d)).
  { split; [done|]. split; [|split; split; try apply reserved_empty; try done].
    - split; [done|]. intros r. apply reserved_empty.
    - intros r. apply reserved_empty. }
  induction Hr as [|w1 w2 w3 Hstep _ IH]; [done|]. apply IH. by eapply agent_step_OK.
Qed.

(** C23: A proof is used once. Whatever applies, reloads, read-backs and restarts
    an agent has been through since its first start, the proofs it reserves are
    none that any role of its state carries, the two differ,
    the counter does not wrap around, and it is in the state file before either
    proof is used, so a restarted agent cannot reserve them again. *)
Theorem reserved_proofs_fresh d w withWorker w' applied worker :
  rtc agent_step (boot d) w →
  reserveRoleProofs E withWorker w = (w', Some (applied, worker)) →
  (∀ r, ref_Proof (ps_Roles (sv_state (w_server w)) r) ≠ applied) ∧
  (withWorker = true → ∀ r, ref_Proof (ps_Roles (sv_state (w_server w)) r) ≠ worker) ∧
  applied ≠ worker ∧ ps_ProofGeneration (sv_state (w_server w')) < 2 ^ 64 ∧
  reserved (ps_ProofGeneration (sv_saved (w_server w')).1) applied ∧
  reserved (ps_ProofGeneration (sv_saved (w_server w')).1) worker.
Proof.
  intros [Hn Hr]%reachable_agentOK%agentOK_roles Hres.
  pose proof (reserveRoleProofs_cases withWorker w) as H. rewrite Hres in H. cbv zeta in H.
  destruct H as (_ & _ & _ & _ & _ & _ & _ & _ & Hg & Hlt & Hs & -> & ->). rewrite Hs, Hg.
  assert (H12 : ∀ x, 0 <= x → "a:" +:+ itoa (x + 1) ≠ "a:" +:+ itoa (x + 2)).
  { intros x Hx. apply (reserved_fresh (x + 1)); [lia|]. right. exists (x + 1). split; [lia|done]. }
  split; [intros r; eapply reserved_fresh; [|apply Hr]; lia|].
  split; [intros -> r; eapply reserved_fresh; [|apply Hr]; lia|].
  destruct withWorker; (split; [by auto || done|]); (split; [lia|]);
    (split; [right; eexists; (split; [|done]); lia|]);
    first [by left | right; eexists; (split; [|done]); lia].
Qed.

(** ** Every check passes *)

Lemma validateFiles_NoDup seen files :
  validateFiles seen files = None → NoDup (File_Path <$> files) ∧ ∀ f, f ∈ files → File_Path f ∉ seen.
Proof.
  revert seen. induction files as [|f files IH]; intros seen; simpl; [split; [constructor|set_solver]|].
  destruct (ValidatePath _); [done|]. case_bool_decide as Hin; [done|]. case_bool_decide; [done|].
  intros [Hnd Hout]%IH. split.
  - constructor; [|done]. intros (g & Heq & Hg)%list_elem_of_fmap. apply (Hout g Hg). set_solver.
  - intros g [->|Hg]%elem_of_cons; [done|]. specialize (Hout g Hg). set_solver.
Qed.

Lemma readManifest_NoDup decoded m :
  readManifest decoded = inl m → NoDup (File_Path <$> Manifest_Files m).
Proof.
  unfold readManifest. destruct (validateManifest decoded) eqn:Hv; [done|]. intros [= <-].
  assert (Hfiles : Manifest_Files (withoutBaseline decoded) = Manifest_Files decoded)
    by (unfold withoutBaseline; by case_match).
  rewrite Hfiles. unfold validateManifest in Hv. repeat case_match; try done.
  by destruct (validateFiles_NoDup ∅ (Manifest_Files decoded) Hv).
Qed.

(** What the admission of an apply leaves alone. *)
Definition admittedOf (w : World) : gmap string FileAt * list string * Z :=
  (sv_tree (w_server w), ps_ManifestPaths (sv_state (w_server w)), ps_Generation (sv_state (w_server w))).

Lemma cachedNACK_admitted digest work : keeps admittedOf (cachedNACK E digest work).
Proof. unfold cachedNACK. keeps. Qed.
Lemma promoteLKG_admitted m : keeps admittedOf (promoteLKG E m).
Proof.
  assert (Hd : ∀ A (f : Disk → Disk * A), keeps admittedOf (onDisk f)).
  { intros A f w. unfold onDisk. by destruct (f _). }
  unfold promoteLKG, clearJournal, save. keeps.
Qed.

Lemma stageAndRun_checks workIdentity m parts w :
  agentOK w → NoDup (File_Path <$> Manifest_Files m) →
  (∀ p, is_Some (sv_tree (w_server w) !! p) → p ∈ ps_ManifestPaths (sv_state (w_server w))) →
  let '(w', answer) := stageAndRun digestString fingerprint cfg E workIdentity m parts w in
  match answer with
  | Answered _ => checkInvariants (ps_Generation (sv_state (w_server w))) (w_server w') (w_run w') = []
  | _ => True
  end.
Proof.
  intros Hw Hnd Hown. unfold stageAndRun, mbind, M_bind, tick, server. cbn [w_server w_run w_tick].
  destruct (stageParts _ _ _ _ _ _ _) as [got|] eqn:Hgot; [|done].
  apply stageParts_verified in Hgot as [Hver _]. apply verified_wellStaged in Hver.
  destruct (missingParts _ _ _) eqn:Hmiss; [|done]. cbv zeta.
  set (w1 := MkWorld (w_server w) (w_run w) (S (w_tick w))).
  assert (Hw1 : agentOK w1) by exact Hw.
  match goal with |- context [(if ?b then ?x else cachedNACK E ?dg ?wk) w1] =>
    set (c := if b then x else cachedNACK E dg wk) end.
  assert (Hc : keeps admittedOf c) by (unfold c; case_match; [keeps|apply cachedNACK_admitted]).
  assert (Hcok : agentOK (c w1).1).
  { unfold c. case_match; [exact Hw1|]. apply steps_agentOK; [|exact Hw1]. intros; by apply cachedNACK_steps. }
  specialize (Hc w1). destruct (c w1) as [w2 cached]. cbn [fst] in *. destruct cached; [done|].
  pose proof (promoteLKG_admitted m w2) as Hp.
  assert (Hpok : agentOK (promoteLKG E m w2).1).
  { apply steps_agentOK; [|exact Hcok]. intros; by apply promoteLKG_steps. }
  destruct (promoteLKG E m w2) as [w3 promoted]. cbn [fst] in *. destruct promoted; cbn [negb]; [|done].
  assert (Hw3 : admittedOf w3 = admittedOf w) by (by rewrite Hp, Hc). clear Hp Hc Hcok c w1 Hw1 Hw.
  match goal with |- context [(if ?b then ?x else reserveRoleProofs E ?ww) w3] =>
    set (proofsM := if b then x else reserveRoleProofs E ww) end.
  assert (Hr : let '(w4, proofs) := proofsM w3 in admittedOf w4 = admittedOf w ∧
    match proofs with
    | Some (applied, _) => Manifest_Mode m ≠ ModeRevertLKG →
        ref_Proof (ps_Roles (sv_state (w_server w4)) LKG) ≠ applied
    | None => True end).
  { unfold proofsM. case_bool_decide as Hmode; [done|].
    pose proof (reserveRoleProofs_cases (negb (bool_decide (Manifest_InPlaceOps m = []))) w3) as Hcs.
    destruct (reserveRoleProofs E _ w3) as [w4 proofs]. cbv zeta in Hcs.
    destruct Hcs as (Hroles & Hgen & Hpaths & Htree & _ & _ & _ & _ & Hproofs).
    split; [unfold admittedOf; rewrite Htree, Hpaths, Hgen; exact Hw3|].
    destruct proofs as [[applied worker]|]; [|done]. intros _. rewrite Hroles.
    destruct Hproofs as (_ & _ & _ & -> & _). apply agentOK_roles in Hpok as [Hn Hres].
    eapply reserved_fresh; [|apply Hres]. lia. }
  destruct (proofsM w3) as [w4 proofs]. destruct Hr as [Hw4 Hfresh].
  destruct proofs as [[applied worker]|]; [|done].
  unfold admittedOf in Hw4. injection Hw4 as Htree Hpaths Hgen.
  pose proof (runApply_invariants digestString fingerprint cfg E m got (got_plan got)
    (if bool_decide (workIdentity m = "") then "" else digestString (workIdentity m)) (workIdentity m)
    applied worker w4 Hnd Hver) as Hinv.
  destruct (runApply _ _ _ _ _ _ _ _ _ _ _ w4) as [w5 result]. rewrite <-Hgen. apply Hinv.
  - rewrite <-Hmiss. unfold missingParts. by rewrite Htree.
  - rewrite Htree, Hpaths. exact Hown.
  - exact Hfresh.
Qed.

(** C22: The agent checks every apply it finishes: the generation advanced by one,
    the maintained tree is the desired set, mode and effects agree (a runtime
    apply did not reload, a reload did, a no-op ran nothing), and a journal is
    only kept while the applied plan is not the last known good one. In every
    state an agent reaches in which it owns the files of the tree it maintains,
    none of these checks fails for any request, whatever fails while it is
    carried out. *)
Theorem apply_checks_pass d w workIdentity decoded parts :
  rtc agent_step (boot d) w →
  (∀ p, is_Some (sv_tree (w_server w) !! p) → p ∈ ps_ManifestPaths (sv_state (w_server w))) →
  let '(w', answer) := handleApply digestString fingerprint cfg E workIdentity decoded parts w in
  match answer with
  | Answered _ => checkInvariants (ps_Generation (sv_state (w_server w))) (w_server w') (w_run w') = []
  | _ => True
  end.
Proof.
  intros Hw%reachable_agentOK Hown. unfold handleApply.
  destruct (readManifest decoded) as [m|] eqn:Hm; [|done]. apply readManifest_NoDup in Hm.
  unfold mbind at 1 2, M_bind at 1 2, tick, server. cbn [w_server w_run w_tick].
  destruct (fence _ _ _ _); [done|].
  exact (stageAndRun_checks workIdentity m parts (MkWorld (w_server w) (w_run w) (S (w_tick w))) Hw Hm Hown).
Qed.

(** ** Restarts *)

(** What a start leaves alone. *)
Lemma probeHAProxy_frame :
  keeps (λ w, (sv_state (w_server w), sv_saved (w_server w), sv_disk (w_server w), w_run w)) (probeHAProxy E).
Proof. unfold probeHAProxy. keeps. Qed.

Lemma save_frame : keeps (λ w, (sv_state (w_server w), sv_disk (w_server w), w_run w)) (save E).
Proof. unfold save. keeps. Qed.

(** [after_bind], about the answer too. *)
Lemma after_bind_val {A A'} (Q : A → World → Prop) (R : A' → World → Prop) (m : M A) (k : A → M A') w :
  Q (m w).2 (m w).1 → (∀ x w', Q x w' → R (k x w').2 (k x w').1) → R ((m ≫= k) w).2 ((m ≫= k) w).1.
Proof. intros Hm Hk. unfold mbind, M_bind. destruct (m w) as [w1 x]. by apply Hk. Qed.

(** What holds of the world after the disk was adopted. *)
Definition onAdopted (R : World → Prop) (adopted : bool) (w : World) : Prop := adopted = true → R w.

(** Adopting the disk drops every proof, one role after the other. *)
Definition forgot (roles : list Role) (w : World) : Prop :=
  ∀ r, r ∈ roles → ref_Proof (ps_Roles (sv_state (w_server w)) r) = "".

Lemma setRole_forgot r ref roles w :
  ref_Proof ref = "" → forgot roles w → forgot (r :: roles) (modState (setRole r ref) w).1.
Proof.
  intros Href Hw r'. cbn. destruct (decide (r' = r)) as [->|Hne]; [by rewrite fn_lookup_insert|].
  rewrite fn_lookup_insert_ne by done. intros [->|Hin]%elem_of_cons; [done|by apply Hw].
Qed.

Lemma updateRole_forgot r roles w :
  forgot roles w → forgot (r :: roles) (modState (updateRole r withoutProof) w).1.
Proof. by apply setRole_forgot. Qed.

Lemma keeps_forgot {A} roles (m : M A) w :
  keeps (λ w, sv_state (w_server w)) m → forgot roles w → forgot roles (m w).1.
Proof. intros Hm Hw. unfold forgot. specialize (Hm w). cbn beta in Hm. by rewrite Hm. Qed.

Lemma adoptDisk_forgets w :
  (adoptDisk digestString cfg E w).2 = true →
  forgot [PlanBlob; PendingReload; LKG; WorkerOps; Running; Applied] (adoptDisk digestString cfg E w).1.
Proof.
  match goal with |- _ = true → ?G => change (onAdopted (forgot [PlanBlob; PendingReload; LKG; WorkerOps; Running;
    Applied]) (adoptDisk digestString cfg E w).2 (adoptDisk digestString cfg E w).1) end.
  unfold adoptDisk. apply (after_bind_val (λ _ _, True)); [done|]. intros n w0 _.
  apply (after_bind_val (λ _ _, True)); [done|]. intros s w0' _.
  destruct (HashTree _ _ _ _ _) as [tree|]; [|done]. cbv zeta. intros _.
  apply (after_bind (λ _ _, True)); [done|]. intros _ w1 _.
  apply (after_bind (λ _ w, forgot [Applied] w)); [by apply updateRole_forgot; intros ? ?%elem_of_nil|].
  intros _ w2 Hw2. apply (after_bind (λ _ w, forgot [Running; Applied] w)); [by apply updateRole_forgot|].
  intros _ w3 Hw3. apply (after_bind (λ _ w, forgot [WorkerOps; Running; Applied] w)); [by apply updateRole_forgot|].
  intros _ w4 Hw4. apply (after_bind (λ _ w, forgot [LKG; WorkerOps; Running; Applied] w));
    [by apply updateRole_forgot|].
  intros _ w5 Hw5. apply (after_bind (λ _ w, forgot [PendingReload; LKG; WorkerOps; Running; Applied] w));
    [by apply setRole_forgot|].
  set (l := [PendingReload; LKG; WorkerOps; Running; Applied]). intros _ w6 Hw6.
  apply (after_bind (λ _ w, forgot l w)); [exact Hw6|]. intros _ w7 Hw7.
  apply (after_bind (λ _ w, forgot (PlanBlob :: l) w)); [by apply updateRole_forgot|]. intros _ w8 Hw8.
  do 4 (apply (after_bind (λ _ w, forgot (PlanBlob :: l) w)); [assumption|intros _ ? ?]).
  apply keeps_forgot; [unfold save; keeps|assumption].
Qed.

(** The rest of the state a start settles. *)
Lemma adoptDisk_clears w :
  (adoptDisk digestString cfg E w).2 = true →
  ps_ReloadPendingAt (sv_state (w_server (adoptDisk digestString cfg E w).1)) = None ∧
  ps_NACK (sv_state (w_server (adoptDisk digestString cfg E w).1)) = None.
Proof.
  set (Q := λ w, ps_ReloadPendingAt (sv_state (w_server w)) = None).
  set (R := λ w, Q w ∧ ps_NACK (sv_state (w_server w)) = None).
  change (onAdopted R (adoptDisk digestString cfg E w).2 (adoptDisk digestString cfg E w).1).
  unfold adoptDisk. apply (after_bind_val (λ _ _, True)); [done|]. intros n w0 _.
  apply (after_bind_val (λ _ _, True)); [done|]. intros s w0' _.
  destruct (HashTree _ _ _ _ _) as [tree|]; [|done]. cbv zeta. intros _.
  do 6 (apply (after_bind (λ _ _, True)); [done|intros _ ? _]).
  apply (after_bind (λ _ w, Q w)); [done|]. intros _ w1 Hw1.
  apply (after_bind (λ _ w, Q w)); [exact Hw1|]. intros _ w2 Hw2.
  apply (after_bind (λ _ w, R w)); [by split|]. intros _ w3 Hw3.
  do 3 (apply (after_bind (λ _ w, R w)); [assumption|intros _ ? ?]).
  assert (Hk : keeps (λ w, sv_state (w_server w)) (save E)) by (unfold save; keeps).
  match goal with H : R ?w0 |- R (save E ?w0).1 => specialize (Hk w0); unfold R, Q in *; cbn beta in Hk;
    by rewrite Hk end.
Qed.

Lemma adoptDisk_frame :
  keeps (λ w, (sv_disk (w_server w), w_run w, ps_ProofGeneration (sv_state (w_server w)))) (adoptDisk digestString cfg E).
Proof.
  unfold adoptDisk. repeat lazymatch goal with
  | |- keeps _ (_ ≫= _) => apply keeps_bind; [|intros ?]
  | |- keeps _ (save E) => unfold save
  | |- _ => first [apply keeps_ret | progress cbv zeta | case_match | solve [intros ?; reflexivity]]
  end.
Qed.

Lemma reserved_none proof : reserved (-1) proof → proof = "".
Proof. intros [->|(k & Hk & _)]; [done|lia]. Qed.

(** Recovering from a crash ends idle; the reload it asks for names no plan, so
    the journal stays. *)
Definition recoveredOf (w : World) : Disk * option nackRecord :=
  (sv_disk (w_server w), ps_NACK (sv_state (w_server w))).

Lemma performReload_nameless w :
  recoveredOf (performReload E noRef w).1 = recoveredOf w ∧
  ps_ReloadPendingAt (sv_state (w_server (performReload E noRef w).1)) = None.
Proof.
  unfold performReload, clearPendingReload. split.
  - assert (Hk : keeps recoveredOf (performReload E noRef)).
    { unfold performReload, clearPendingReload, awaitNewWorker, adoptWorker, recordReload.
      rewrite bool_decide_true by done. keeps. }
    apply Hk.
  - set (Q := λ w, ps_ReloadPendingAt (sv_state (w_server w)) = None).
    match goal with |- _ (sv_state (w_server ?w')) = None => change (Q w') end.
    apply (after_bind (λ _ w, Q w)); [done|]. intros _ w1 Hw1.
    match goal with |- Q (?m w1).1 => assert (Hm : preserves Q m)
      by (unfold awaitNewWorker, adoptWorker, recordReload; rewrite bool_decide_true by done; preserve) end.
    by apply Hm.
Qed.

Lemma recoverFromCrash_frame w :
  let w' := (recoverFromCrash E w).1 in
  recoveredOf w' = recoveredOf w ∧
  (ps_Phase (sv_state (w_server w')) = phaseIdle ∨ ps_Phase (sv_state (w_server w')) = phaseCommitted) ∧
  (ps_ReloadPendingAt (sv_state (w_server w)) = None → ps_ReloadPendingAt (sv_state (w_server w')) = None).
Proof.
  cbv zeta. unfold recoverFromCrash.
  apply (after_bind (λ ps w', w' = w ∧ ps = sv_state (w_server w))); [done|]. intros ps w0 [-> ->].
  case_bool_decide as Hidle; cbn [orb]; [by split_and!; [|left|]|].
  case_bool_decide as Hcom; [by split_and!; [|right|]|].
  set (Q := λ w', recoveredOf w' = recoveredOf w).
  set (R := λ w', Q w' ∧ ps_ReloadPendingAt (sv_state (w_server w')) = None).
  match goal with |- recoveredOf ?w' = _ ∧ _ => cut (R w' ∧ ps_Phase (sv_state (w_server w')) = phaseIdle) end.
  { intros [[H1 H2] H3]. by split_and!; [|left|]. }
  match goal with |- context [(?m w).1] => set (S := λ w', R w' ∧ ps_Phase (sv_state (w_server w')) = phaseIdle);
    change (S (m w).1) end.
  apply (after_bind (λ _ w', Q w')); [done|]. intros _ w1 Hw1.
  apply (after_bind (λ _ w', Q w')); [done|]. intros _ w2 Hw2.
  apply (after_bind (λ _ w', R w')).
  { destruct (performReload_nameless w2) as [H1 H2]. split; [|exact H2]. unfold Q. by rewrite H1. }
  intros ok w3 Hw3. apply (after_bind (λ _ w', S w')); [by split|]. intros _ w4 Hw4.
  apply (after_bind (λ _ w', S w')); [exact Hw4|]. intros _ w5 Hw5.
  apply (after_bind (λ _ w', S w')); [by destruct ok|]. intros _ w6 Hw6.
  assert (Hs : preserves S (save E)) by (unfold save; preserve). by apply Hs.
Qed.

(** A start up to the adoption of the disk. *)
Definition starting (d : Disk) (w : World) : Prop :=
  agentOK w ∧ sv_disk (w_server w) = d ∧ w_run w = reloadRun "" "".

Lemma New_starting w :
  let d := sv_disk (w_server w) in
  agentOK w → starting (MkDisk (disk_tree d) (disk_backups d) (sv_saved (w_server w)).2) (New_ rt w).1.
Proof.
  intros d Hw. split; [by apply New_OK|]. unfold New_.
  set (Q := λ w', sv_disk (w_server w') = MkDisk (disk_tree d) (disk_backups d) (sv_saved (w_server w)).2 ∧
                  w_run w' = reloadRun "" "").
  match goal with |- sv_disk (w_server ?w') = _ ∧ _ => change (Q w') end.
  apply (after_bind (λ _ w', Q w')); [done|]. intros _ w1 Hw1.
  assert (Hp : preserves Q (loadPlanBlob rt)) by (unfold loadPlanBlob; preserve). by apply Hp.
Qed.

(** A ready agent. *)
Definition forgetful (w : World) : Prop :=
  (∀ r, ref_Proof (ps_Roles (sv_state (w_server w)) r) = "") ∧
  ps_ReloadPendingAt (sv_state (w_server w)) = None ∧ ps_NACK (sv_state (w_server w)) = None ∧
  (ps_Phase (sv_state (w_server w)) = phaseIdle ∨ ps_Phase (sv_state (w_server w)) = phaseCommitted).

Lemma adoptDisk_starting d w :
  starting d w →
  starting d (adoptDisk digestString cfg E w).1.
Proof.
  intros (Hok & Hd & Hr). split; [apply steps_agentOK; [intros; by apply adoptDisk_steps|done]|].
  pose proof (adoptDisk_frame w) as Hf. cbn beta in Hf.
  apply pair_equal_spec in Hf as [Hf _]. apply pair_equal_spec in Hf as [Hf1 Hf2]. by rewrite Hf1, Hf2.
Qed.

Lemma recover_forgetful d w :
  starting d w → (∀ r, ref_Proof (ps_Roles (sv_state (w_server w)) r) = "") →
  ps_ReloadPendingAt (sv_state (w_server w)) = None → ps_NACK (sv_state (w_server w)) = None →
  forgetful (recoverFromCrash E w).1 ∧ sv_disk (w_server (recoverFromCrash E w).1) = d.
Proof.
  intros (Hok & Hd & Hr) Hproofs Hpend Hnack.
  destruct (recoverFromCrash_frame w) as (Hrec & Hphase & Hp). unfold recoveredOf in Hrec. injection Hrec as Hd' Hn'.
  split; [|congruence]. split_and!; [|by apply Hp|congruence|done].
  destruct Hok as (Hg & (_ & _) & _ & Hs). set (g := ps_ProofGeneration _) in *.
  destruct (recoverFromCrash_steps E g (-1) Hg ltac:(lia) w) as [((_ & Hroles) & _) _].
  - split; [|split; [rewrite Hr; split; apply reserved_empty|done]]. split; [done|].
    intros r. rewrite Hproofs. apply reserved_empty.
  - intros r. apply reserved_none, Hroles.
Qed.

Lemma initialise_forgetful d w :
  starting d w → (initialise digestString cfg E w).2 = true →
  forgetful (initialise digestString cfg E w).1 ∧ sv_disk (w_server (initialise digestString cfg E w).1) = d.
Proof.
  intros Hw. set (R := λ w', forgetful w' ∧ sv_disk (w_server w') = d).
  change (onAdopted R (initialise digestString cfg E w).2 (initialise digestString cfg E w).1).
  unfold initialise. apply (after_bind_val (λ _ w', starting d w')).
  { destruct Hw as (Hok & Hd & Hr). split; [apply steps_agentOK; [intros; by apply probeHAProxy_steps|done]|].
    pose proof (probeHAProxy_frame w) as Hf. cbn beta in Hf. apply pair_equal_spec in Hf as [Hf Hf2].
    apply pair_equal_spec in Hf as [_ Hf1]. by rewrite Hf1, Hf2. }
  intros probed w1 Hw1. destruct probed; cbn [negb]; [|done].
  apply (after_bind_val (λ adopted w', starting d w' ∧ (adopted = true →
    (∀ r, ref_Proof (ps_Roles (sv_state (w_server w')) r) = "") ∧
    ps_ReloadPendingAt (sv_state (w_server w')) = None ∧ ps_NACK (sv_state (w_server w')) = None))).
  { split; [by apply adoptDisk_starting|]. intros Had. split; [|by apply adoptDisk_clears].
    intros r. apply (adoptDisk_forgets w1 Had). destruct r; set_solver. }
  intros adopted w2 [Hw2 Had]. destruct adopted; cbn [negb]; [|done]. destruct (Had eq_refl) as (H1 & H2 & H3).
  intros _. by apply recover_forgetful.
Qed.

(** A restarted agent trusts no observation made before. Once it is ready, no
    role carries a proof, no reload is pending, no refusal is remembered and
    nothing is in flight; it has changed no file and still holds the journal of
    the state file, so the last known good set can be restored; and the fence
    refuses runtime ops until a reload has been applied. *)
Theorem restart_forgets_observations d w :
  rtc agent_step (boot d) w →
  let '(w', ready) := (_ ← New_ rt; initialise digestString cfg E) w in
  let ps' := sv_state (w_server w') in
  ready = true →
  (∀ r, ref_Proof (ps_Roles ps' r) = "") ∧ ps_ReloadPendingAt ps' = None ∧ ps_NACK ps' = None ∧
  (ps_Phase ps' = phaseIdle ∨ ps_Phase ps' = phaseCommitted) ∧
  disk_tree (sv_disk (w_server w')) = disk_tree (sv_disk (w_server w)) ∧
  disk_journal (sv_disk (w_server w')) = (sv_saved (w_server w)).2 ∧
  ∀ now m, Manifest_Mode m = ModeAuto → fence cfg now (w_server w') m ≠ None.
Proof.
  intros Hw%reachable_agentOK. apply New_starting in Hw. unfold mbind, M_bind.
  destruct (New_ rt w) as [w1 []]. cbn [fst] in Hw. pose proof (initialise_forgetful _ w1 Hw) as Hi.
  destruct (initialise digestString cfg E w1) as [w' ready]. cbv zeta. intros Hready.
  destruct (Hi Hready) as [(Hproofs & Hpend & Hnack & Hphase) Hd]. cbn [fst] in *.
  split_and!; [done|done|done|done|by rewrite Hd|by rewrite Hd|].
  intros now m Hm Hfence. rewrite fence_forward in Hfence by (by rewrite Hm).
  destruct Hfence as (_ & _ & _ & Hp & _). apply (Hp ltac:(by rewrite Hm)), Hproofs.
Qed.
End reserving.
