(* ===== verification/AgentScenario.v ===== *)
(** * Concrete runs of the agent

    A small pod and the requests it receives: the hypotheses of the agent's
    theorems hold on it, and three sequences of requests show where the state
    stops naming what is on disk. *)

From Stdlib Require Import Ascii.
From stdpp Require Import base list list_numbers functions gmap strings relations.
From S2P Require Import Prelude Api GoStd Cli Deferrals FileTree FileTreeProps AgentState Agent AgentRecovery AgentProps AgentClaims AgentInvariants AgentIdentity.

Open Scope Z_scope.
Import FileExamples.

Module AgentExamples.

(** A fingerprint is the content's, here. *)
Definition demoPrint (_ : nat) (_ content : string) : string := demoDigest content.

Definition demoCfg : AgentConfig := MkConfig demoStore "haproxy.cfg" 1000.

Definition worker0 : HAProxyInfo := MkHAProxyInfo "3.2" "3.2.1" 7 100.

(** Everything succeeds; the clock stands at 5000, and a reload brings a new
    worker. *)
Definition calm : Env :=
  MkEnv (λ _, 5000) (λ _ _ _, true) (λ _ _, false) (λ _, true) (λ _, true) (λ _, Some worker0)
    (λ _, Some (MkInventory 0 [] [] [] [] [])) (λ _ _, ([], true)) (λ _, ("", true)) (λ _, true)
    (λ n, Some (MkHAProxyInfo "3.2" "3.2.1" (Z.of_nat n + 100) 200)).

(** HAProxy refuses the configuration it is asked to load. *)
Definition refusing : Env :=
  MkEnv (env_now calm) (env_io calm) (env_cross calm) (env_save calm) (env_blob calm) (env_info calm)
    (env_inventory calm) (env_execute calm) (λ _, ("[ALERT] config : parsing failed", false)) (λ _, true)
    (env_newWorker calm).

(** One system call fails on every path it is made on. *)
Definition failing (call : Syscall) : Env :=
  MkEnv (env_now calm) (λ _ c _, negb (bool_decide (c = call))) (env_cross calm) (env_save calm)
    (env_blob calm) (env_info calm) (env_inventory calm) (env_execute calm) (env_reload calm)
    (env_master calm) (env_newWorker calm).

Definition cfgFile (content : string) : File :=
  MkFile "haproxy.cfg" (demoDigest content) "p" (Z.of_nat (String.length content)) FileKindConfig true None.
Definition mapFile (content : string) : File :=
  MkFile "maps/a.map" (demoDigest content) "p" (Z.of_nat (String.length content)) FileKindMap false None.

(** The plans the pod holds to start with: applied, running, on the worker and
    last known good are the same one. *)
Definition p0 : PlanRef := MkRef "P0" "a:1".

Definition state0 : persistentState :=
  MkState 1 1 1 (<[PendingReload := noRef]> (λ _, p0)) (MkToken 1 1) ["haproxy.cfg"; "maps/a.map"] "" worker0
    phaseIdle "" None None.

Definition disk0 : Disk :=
  MkDisk {["haproxy.cfg" := RegularFile "global"; "maps/a.map" := RegularFile "a b"]} ∅ [].

(** The last reload at [since]. *)
Definition world0 (since : Z) : World :=
  MkWorld
    (MkAgent state0 (state0, []) disk0 ∅ ∅ worker0 (MkInventory 0 [] [] [] [] []) 0 since 0
       (MkDeferrals [] [] worker0 0 None None) None None)
    (newRun (MkManifest 0 "" "" 0 (MkToken 0 0) "" "" (MkToken 0 0) "" "" "" "" "" "" [] [] [] [] ModeAuto)
       ∅ None "" "" "" "" 0) 0.

(** A request: its plan, its mode and its whole files. *)
Definition request (plan mode : string) (files : list File) : Manifest :=
  MkManifest 1 plan "" 1 (MkToken 1 2) "" "" (MkToken 1 1) "" "" "" "" "" "" files [] [] [] mode.

Definition send (E : Env) (plan mode proof : string) (files : list File) (staged : gmap string Staged) (w : World) :
    World * ApplyResult :=
  runApply demoDigest demoPrint demoCfg E (request plan mode files) staged None "" "" proof "" w.

Definition stagedCfg (content : string) : gmap string Staged :=
  {["haproxy.cfg" := MkStaged "haproxy.cfg" content]}.
Definition stagedMap (content : string) : gmap string Staged :=
  {["maps/a.map" := MkStaged "maps/a.map" content]}.

Definition treeOf (w : World) : gmap string Node := disk_tree (sv_disk (w_server w)).
Definition stateOf (w : World) : persistentState := sv_state (w_server w).

(** A map is changed; then a plan without it is applied; then HAProxy refuses a
    reload. *)
Definition modified : World := (send calm "P1" ModeAuto "a:2" [cfgFile "global"; mapFile "a c"] (stagedMap "a c") (world0 0)).1.
Definition dropped : World := (send calm "P2" ModeAuto "a:3" [cfgFile "global"] ∅ modified).1.
Definition orphaned : World := (send refusing "P3" ModeReload "a:4" [cfgFile "broken"] (stagedCfg "broken") dropped).1.

(** A reload is paced; the write of the next apply fails; the paced reload
    fires. *)
Definition paced : World := (send calm "P1" ModeReload "a:2" [cfgFile "first"; mapFile "a b"] (stagedCfg "first") (world0 4500)).1.
Definition interrupted : World :=
  (send (failing Rename) "P2" ModeReload "a:3" [cfgFile "second"; mapFile "a b"] (stagedCfg "second") paced).1.

(** The paced reload fires once its time has come. *)
Definition later : Env :=
  MkEnv (λ _, 6000) (env_io calm) (env_cross calm) (env_save calm) (env_blob calm) (env_info calm)
    (env_inventory calm) (env_execute calm) (env_reload calm) (env_master calm) (env_newWorker calm).
Definition fired : World := (firePendingReload demoDigest demoCfg later interrupted).1.

(** A request that reports the applied plan as validated. *)
Definition validating : Manifest :=
  MkManifest 1 "P2" "" 1 (MkToken 1 3) "" "" (MkToken 1 2) "" "" "" "" "P1" "a:2" [] [] [] [] ModeAuto.
Definition unpromoted : World * bool := promoteLKG (failing RemoveBackup) validating modified.

(** A request whose config part is whole and whose map part is a patch against a
    base the agent does not hold. *)
Definition patchedMap : File :=
  MkFile "maps/a.map" "4" "p" 4 FileKindMap false (Some (MkFilePatch "9" 9 0 1)).
Definition mixed : Manifest := request "P1" ModeAuto [cfgFile "global new"; patchedMap].
Definition mixedParts : list Part :=
  [FilePart (Some "haproxy.cfg") "global new"; FilePart (Some "maps/a.map") "a c"].

(** A reload whose expectations are the state's. *)
Definition expected : Manifest :=
  MkManifest 1 "P1" "" 1 (MkToken 1 2) "P0" "a:1" (MkToken 1 1) "P0" "a:1" "" "" "" "" [] [] [] [] ModeAuto.

(** What read-backs ask. *)
Definition demoRt : Runtime := MkRuntime (λ _ _, true) (λ _ _, inl ∅) (λ _, false) (λ _, None).

(** The first apply of a pod: a whole file, by a reload. *)
Definition firstApply : Manifest :=
  MkManifest 1 "P1" "" 1 (MkToken 1 1) "" "" (MkToken 0 0) "" "" "" "" "" "" [cfgFile "global new"] [] [] []
    ModeReload.
Definition firstParts : list Part := [FilePart (Some "haproxy.cfg") "global new"].
Definition workJSON (m : Manifest) : string := Manifest_PlanID m.
Definition afterFirst : World :=
  (handleApply demoDigest demoPrint demoCfg calm workJSON firstApply firstParts (boot disk0)).1.
End AgentExamples.
Import AgentExamples.

(** ** Witnesses *)

Lemma disk0_journal : journal_ok (cfg_store demoCfg) demoDigest (disk_tree disk0) disk0.
Proof. by apply empty_journal_ok. Qed.

Lemma received_parts_verified_witness :
  ∃ got, stageParts demoDigest demoCfg calm 0 disk0 mixed mixedParts = Some got ∧
    demoDigest "global new" = File_Digest (cfgFile "global new") ∧ "maps/a.map" ∈ got_unpatched got ∧
    got_files got !! "maps/a.map" = None.
Proof.
  destruct (stageParts demoDigest demoCfg calm 0 disk0 mixed mixedParts) as [got|] eqn:Hgot;
    [|vm_compute in Hgot; discriminate].
  exists got. pose proof (received_parts_verified demoDigest demoCfg calm 0 disk0 mixed mixedParts got Hgot)
    as (_ & Hu & _).
  assert (Hin : "maps/a.map" ∈ got_unpatched got).
  { vm_compute in Hgot. injection Hgot as <-. apply (bool_decide_unpack _). vm_compute. exact I. }
  split; [done|]. split; [vm_compute; reflexivity|]. split; [done|]. apply Hu. done.
Defined.

Lemma apply_all_or_nothing_witness :
  treeOf (send refusing "P3" ModeReload "a:4" [cfgFile "broken"] (stagedCfg "broken") (world0 0)).1
  = disk_tree disk0.
Proof.
  pose proof (apply_all_or_nothing demoDigest demoPrint demoCfg refusing (disk_tree disk0)
    (request "P3" ModeReload [cfgFile "broken"]) (stagedCfg "broken") None "" "" "a:4" "" (world0 0)
    demoDigest_no_slash disk0_journal) as H.
  assert (Hst : wellStaged (request "P3" ModeReload [cfgFile "broken"]) (stagedCfg "broken")).
  { intros p part Hp. unfold stagedCfg in Hp. apply lookup_singleton_Some in Hp as [<- <-].
    split; [done|]. apply list_elem_of_here. }
  specialize (H Hst). unfold send.
  destruct (runApply demoDigest demoPrint demoCfg refusing (request "P3" ModeReload [cfgFile "broken"])
              (stagedCfg "broken") None "" "" "a:4" "" (world0 0)) as [w' res] eqn:Hrun.
  assert (Hres : res_OK res = false ∧ RollbackInfo_Performed <$> res_Rollback res = Some true).
  { change res with (w', res).2. rewrite <-Hrun. vm_compute. by split. }
  destruct Hres as [Hok Hroll]. cbv zeta in H. rewrite Hok in H. destruct H as [_ H].
  destruct (res_Rollback res) as [rb|]; [|discriminate]. injection Hroll as Hroll. exact (H Hroll).
Defined.

Lemma fence_compare_and_swap_witness :
  fence demoCfg 5000 (w_server (world0 0)) expected = None.
Proof.
  apply (fence_compare_and_swap demoCfg 5000 (w_server (world0 0)) expected); [vm_compute; reflexivity|].
  split; [vm_compute; discriminate|]. split; [|split; vm_compute; discriminate].
  intros _. split_and!; try reflexivity; vm_compute; discriminate.
Defined.

Lemma rollback_ownership_witness :
  "maps/a.map" ∈ lkgPaths ["haproxy.cfg"; "maps/a.map"] (disk_journal disk0).
Proof.
  apply (rollback_ownership demoDigest demoCfg (disk_tree disk0) disk0 _ "maps/a.map" disk0_journal).
  - intros q _. rewrite !elem_of_cons, elem_of_nil. split.
    + intros [->|[->|[]]]; vm_compute; by eexists.
    + intros [node Hq]. unfold disk0 in Hq. cbn [disk_tree] in Hq.
      apply lookup_insert_Some in Hq as [[<- _]|[_ Hq]]; [by left|].
      apply lookup_singleton_Some in Hq as [<- _]. by right; left.
  - split; [vm_compute; by eexists|]. left. apply list_elem_of_further, list_elem_of_here.
Defined.

Lemma afterFirst_reachable : rtc (agent_step demoDigest demoPrint demoCfg calm demoRt) (boot disk0) afterFirst.
Proof. apply rtc_once. apply step_apply. Qed.

Lemma reserved_proofs_fresh_witness :
  ref_Proof (ps_Roles (stateOf afterFirst) Applied) = "a:1" ∧
  (reserveRoleProofs calm true afterFirst).2 = Some ("a:2", "a:3") ∧ "a:1" ≠ "a:2".
Proof.
  split; [vm_compute; reflexivity|]. split; [vm_compute; reflexivity|].
  destruct (reserveRoleProofs calm true afterFirst) as [w' proofs] eqn:Hres.
  assert (Hp : proofs = Some ("a:2", "a:3")) by (change proofs with (w', proofs).2; rewrite <-Hres; vm_compute; reflexivity).
  rewrite Hp in Hres.
  destruct (reserved_proofs_fresh demoDigest demoPrint demoCfg calm demoRt disk0 afterFirst true w' "a:2" "a:3"
    afterFirst_reachable Hres) as [Hfresh _].
  intros Heq. apply (Hfresh Applied). rewrite <-Heq. vm_compute. reflexivity.
Defined.

Lemma apply_checks_pass_witness :
  checkInvariants 0 (w_server afterFirst) (w_run afterFirst) = [].
Proof.
  pose proof (apply_checks_pass demoDigest demoPrint demoCfg calm demoRt disk0 (boot disk0) workJSON firstApply
    firstParts (rtc_refl _ _)) as H.
  assert (Hown : ∀ p, is_Some (sv_tree (w_server (boot disk0)) !! p) →
                      p ∈ ps_ManifestPaths (sv_state (w_server (boot disk0)))).
  { intros p [x Hx]. cbn in Hx. rewrite lookup_empty in Hx. discriminate. }
  specialize (H Hown). unfold afterFirst.
  destruct (handleApply demoDigest demoPrint demoCfg calm workJSON firstApply firstParts (boot disk0))
    as [w' answer] eqn:Hrun.
  assert (Ha : match answer with Answered res => res_OK res | _ => false end = true).
  { change answer with (w', answer).2. rewrite <-Hrun. vm_compute. reflexivity. }
  clear Hrun. destruct answer; [discriminate Ha..|exact H].
Defined.

Lemma restart_forgets_observations_witness :
  ref_Proof (ps_Roles (stateOf afterFirst) Applied) = "a:1" ∧
  ref_Proof (ps_Roles (stateOf ((_ ← New_ demoRt; initialise demoDigest demoCfg calm) afterFirst).1) Applied) = "".
Proof.
  split; [vm_compute; reflexivity|].
  pose proof (restart_forgets_observations demoDigest demoPrint demoCfg calm demoRt disk0 afterFirst
    afterFirst_reachable) as H.
  destruct ((_ ← New_ demoRt; initialise demoDigest demoCfg calm) afterFirst) as [w' ready] eqn:Hrun.
  assert (Hr : ready = true) by (change ready with (w', ready).2; rewrite <-Hrun; vm_compute; reflexivity).
  destruct (H Hr) as [Hproofs _]. apply Hproofs.
Defined.

(** ** Where the state stops naming the disk *)

(** A path that was modified and then dropped since the last known good set comes
    back with a rollback, and the agent no longer owns it. *)
Theorem modified_then_dropped_orphan :
  treeOf orphaned = treeOf (world0 0) ∧
  treeOf orphaned !! "maps/a.map" = Some (RegularFile "a b") ∧
  ps_ManifestPaths (stateOf orphaned) = ["haproxy.cfg"] ∧
  deletionsOf (ps_ManifestPaths (stateOf orphaned)) (request "P4" ModeAuto [cfgFile "global"]) = [].
Proof. apply (bool_decide_unpack _). vm_compute. exact I. Qed.

(** An apply that is rolled back while a reload is pending leaves the pending
    reload under the plan it no longer has the files of: when it fires, the last
    known good tree runs under the newer plan's name. *)
Theorem pending_reload_misnamed_after_abort :
  treeOf paced ≠ treeOf (world0 4500) ∧
  treeOf interrupted = treeOf (world0 4500) ∧ treeOf fired = treeOf (world0 4500) ∧
  ps_Roles (stateOf fired) Running = MkRef "P1" "a:2" ∧ ps_Roles (stateOf fired) LKG = MkRef "P1" "a:2".
Proof. apply (bool_decide_unpack _). vm_compute. exact I. Qed.

(** A promotion that cannot remove a backup is refused, but the journal is gone:
    the last known good plan keeps its old name while nothing can restore it. *)
Theorem failed_promotion_loses_rollback :
  unpromoted.2 = false ∧ disk_journal (sv_disk (w_server modified)) ≠ [] ∧
  disk_journal (sv_disk (w_server unpromoted.1)) = [] ∧
  ps_Roles (stateOf unpromoted.1) LKG = p0 ∧
  treeOf unpromoted.1 !! "maps/a.map" = Some (RegularFile "a c") ∧
  treeOf (world0 0) !! "maps/a.map" = Some (RegularFile "a b").
Proof. apply (bool_decide_unpack _). vm_compute. exact I. Qed.
