(* ===== verification/KeyOrder.v ===== *)
(** * Byte order of keys

    The comparisons of [src/pkg/persistenttree/tree.go]: [strings.Compare] and
    [compareBytesString], which walks a byte slice and a string without
    converting one into the other. Both decide one strict order, [klt], on which
    the ordered structures of the package rest. A Go string and a byte slice
    are the same bytes, which [string] is. *)

From Stdlib Require Import ZArith Lia Ascii.
From stdpp Require Import base list numbers strings sorting.
From S2P Require Import Prelude.
Open Scope Z_scope.

(** ** The operations *)

(** [strings.Compare]. *)
Definition stringsCompare (a b : string) : Z :=
  match String.compare a b with Lt => -1 | Eq => 0 | Gt => 1 end.

(** The loop over the shorter length, then the difference of the lengths. *)
Fixpoint compareBytesString (left right : string) : Z :=
  match left, right with
  | String a left', String b right' =>
      if (N_of_ascii a <? N_of_ascii b)%N then -1
      else if (N_of_ascii b <? N_of_ascii a)%N then 1
      else compareBytesString left' right'
  | _, _ => Z.of_nat (String.length left) - Z.of_nat (String.length right)
  end.

Definition compareStringBytes (left right : string) : Z := - compareBytesString right left.

(** [a < b] on Go strings. *)
Definition klt (a b : string) : Prop := String.compare a b = Lt.

#[export] Instance klt_dec : RelDecision klt.
Proof. intros a b. unfold klt. destruct (String.compare a b); (left; done) || (right; done). Defined.

(** ** [klt] is a strict total order *)

Lemma compare_refl a : String.compare a a = Eq.
Proof.
  induction a as [|c a IH]; [done|]. simpl. unfold Ascii.compare. by rewrite N.compare_refl.
Qed.

Lemma klt_irrefl a : ¬ klt a a.
Proof. unfold klt. by rewrite compare_refl. Qed.

Lemma compare_Eq a b : String.compare a b = Eq ↔ a = b.
Proof. split; [apply String.compare_eq_iff|intros ->; apply compare_refl]. Qed.

Lemma compare_Gt a b : String.compare a b = Gt ↔ klt b a.
Proof. unfold klt. rewrite String.compare_antisym. by destruct (String.compare b a). Qed.

Lemma klt_le a b : klt a b ↔ String.le a b ∧ a ≠ b.
Proof.
  unfold klt, String.le, String.leb. rewrite <-compare_Eq.
  destruct (String.compare a b); simpl; naive_solver.
Qed.

#[export] Instance klt_trans : Transitive klt.
Proof.
  intros a b c [Hab Hne]%klt_le [Hbc Hne']%klt_le. apply klt_le. split; [by etrans|].
  intros ->. by destruct Hne'; apply (anti_symm String.le).
Qed.

Lemma klt_trichotomy a b : klt a b ∨ a = b ∨ klt b a.
Proof.
  destruct (String.compare a b) eqn:H; [right; left; by apply compare_Eq|by left|].
  right; right. by apply compare_Gt.
Qed.

Lemma klt_asym a b : klt a b → ¬ klt b a.
Proof. intros H1 H2. eapply klt_irrefl. by etrans. Qed.

Lemma klt_ne a b : klt a b → a ≠ b.
Proof. by intros [_ ?]%klt_le. Qed.

(** ** The comparisons decide [klt] *)

Lemma stringsCompare_spec a b :
  (stringsCompare a b < 0 ↔ klt a b) ∧ (stringsCompare a b = 0 ↔ a = b) ∧ (0 < stringsCompare a b ↔ klt b a).
Proof.
  unfold stringsCompare. rewrite <-compare_Eq, <-(compare_Gt a b). unfold klt.
  destruct (String.compare a b); split_and!; split; intros; (done || lia).
Qed.

Lemma compareBytesString_sgn a b : Z.sgn (compareBytesString a b) = stringsCompare a b.
Proof.
  unfold stringsCompare. revert b. induction a as [|x a IH]; intros [|y b]; cbn [compareBytesString String.compare String.length].
  - done.
  - rewrite Z.sgn_neg; [done|lia].
  - rewrite Z.sgn_pos; [done|lia].
  - unfold Ascii.compare. destruct (N.compare_spec (N_of_ascii x) (N_of_ascii y)) as [E|E|E].
    + by rewrite E, N.ltb_irrefl.
    + by rewrite (proj2 (N.ltb_lt _ _) E).
    + rewrite (proj2 (N.ltb_ge _ _)) by lia. by rewrite (proj2 (N.ltb_lt _ _) E).
Qed.

Lemma compareBytesString_spec a b :
  (compareBytesString a b < 0 ↔ klt a b) ∧ (compareBytesString a b = 0 ↔ a = b)
  ∧ (0 < compareBytesString a b ↔ klt b a).
Proof.
  destruct (stringsCompare_spec a b) as (H1 & H2 & H3).
  rewrite <-H1, <-H2, <-H3, <-!compareBytesString_sgn.
  destruct (Z.sgn_spec (compareBytesString a b)) as [[? ->]|[[? ->]|[? ->]]]; split_and!; lia.
Qed.

Lemma compareStringBytes_spec a b :
  (compareStringBytes a b < 0 ↔ klt a b) ∧ (compareStringBytes a b = 0 ↔ a = b)
  ∧ (0 ≤ compareStringBytes a b ↔ ¬ klt a b).
Proof.
  unfold compareStringBytes. destruct (compareBytesString_spec b a) as (H1 & H2 & H3).
  rewrite <-H3. split_and!; [lia| |lia]. rewrite <-(symmetry_iff (=) b a), <-H2. lia.
Qed.

Lemma sorted_keys_NoDup (l : list string) : StronglySorted klt l → NoDup l.
Proof.
  induction 1 as [|x l Hs IH Hx]; constructor; [|done]. intros Hin. eapply Forall_forall in Hx; [|exact Hin].
  by apply klt_irrefl in Hx.
Qed.

(** ** The depth of height-balanced trees *)

(** A node above two balanced children of [a - 1] and [b - 1] keys. *)
Lemma balanced_depth_step hl hr a b :
  0 <= hl → 0 <= hr → -1 <= hl - hr <= 1 → 0 < a → 0 < b → 2 ^ hl <= a ^ 2 → 2 ^ hr <= b ^ 2 →
  2 ^ (1 + Z.max hl hr) <= (a + b) ^ 2.
Proof.
  intros Hl Hr Hd Ha Hb IHl IHr. rewrite !Z.pow_2_r in *. rewrite Z.pow_add_r by lia.
  set (m := Z.min hl hr). set (p := 2 ^ m). assert (0 < p) by (apply Z.pow_pos_nonneg; lia).
  assert (hl = m ∧ hr = m ∨ hl = m + 1 ∧ hr = m ∨ hl = m ∧ hr = m + 1) as Hcases by lia.
  destruct Hcases as [[E1 E2]|[[E1 E2]|[E1 E2]]]; rewrite E1 in IHl |- *; rewrite E2 in IHr |- *;
    rewrite ?Z.max_id, ?(Z.max_l (m + 1) m), ?(Z.max_r m (m + 1)) by lia;
    rewrite ?(Z.pow_add_r 2 m 1) in * by lia; fold p in IHl, IHr |- *; change (2 ^ 1) with 2 in *;
    destruct (Z.le_ge_cases a b); nia.
Qed.
