(* ===== verification/DeltaTree.v ===== *)
(** * The ordered delta index

    Models the height-balanced tree of [src/pkg/persistenttree/tree.go]: the
    changes a persistent tree carries over its frozen base, in key order. An
    update copies the path it touches; nodes are never changed once they are
    shared, so a node is its content. A nil dereference is [None].

    The specification is a strictly ordered list ([insertSorted],
    [removeSorted]): each update does to the in-order entries what the list
    function does, keeps the tree balanced and never dereferences nil. *)

From Stdlib Require Import ZArith Lia.
From stdpp Require Import base list numbers strings option sorting sets.
From S2P Require Import Prelude KeyOrder.
Open Scope Z_scope.

(** ** Data *)

Record deltaEntry (V : Type) := DeltaEntry {
  deltaEntry_key : string;
  deltaEntry_value : V;
  deltaEntry_present : bool;
}.
Arguments DeltaEntry {V} _ _ _.
Arguments deltaEntry_key {V} _.
Arguments deltaEntry_value {V} _.
Arguments deltaEntry_present {V} _.

Inductive deltaNode (V : Type) :=
  | DNil
  | DNode (entry : deltaEntry V) (left right : deltaNode V) (height : Z).
Arguments DNil {V}.
Arguments DNode {V} _ _ _ _.

Section delta.
Context {V : Type}.
Implicit Types (n l r : deltaNode V) (e : deltaEntry V) (es : list (deltaEntry V)).

(** ** The operations *)

Definition deltaHeight n : Z := match n with DNil => 0 | DNode _ _ _ h => h end.

Definition rotateDeltaLeft n : option (deltaNode V) :=
  match n with
  | DNode e l (DNode re rl rr _) _ =>
      let node := DNode e l rl (Z.max (deltaHeight l) (deltaHeight rl) + 1) in
      Some (DNode re node rr (Z.max (deltaHeight node) (deltaHeight rr) + 1))
  | _ => None
  end.

Definition rotateDeltaRight n : option (deltaNode V) :=
  match n with
  | DNode e (DNode le ll lr _) r _ =>
      let node := DNode e lr r (Z.max (deltaHeight lr) (deltaHeight r) + 1) in
      Some (DNode le ll node (Z.max (deltaHeight ll) (deltaHeight node) + 1))
  | _ => None
  end.

Definition balanceDelta n : option (deltaNode V) :=
  match n with
  | DNil => None
  | DNode e l r _ =>
      let height := Z.max (deltaHeight l) (deltaHeight r) + 1 in
      let delta := deltaHeight l - deltaHeight r in
      if 1 <? delta then
        match l with
        | DNil => None
        | DNode _ ll lr _ =>
            l' ← (if deltaHeight ll <? deltaHeight lr then rotateDeltaLeft l else Some l);
            rotateDeltaRight (DNode e l' r height)
        end
      else if delta <? -1 then
        match r with
        | DNil => None
        | DNode _ rl rr _ =>
            r' ← (if deltaHeight rr <? deltaHeight rl then rotateDeltaRight r else Some r);
            rotateDeltaLeft (DNode e l r' height)
        end
      else Some (DNode e l r height)
  end.

Fixpoint insertDelta n e : option (deltaNode V * bool) :=
  match n with
  | DNil => Some (DNode e DNil DNil 1, false)
  | DNode ne l r h =>
      let comparison := stringsCompare (deltaEntry_key e) (deltaEntry_key ne) in
      if comparison <? 0 then
        '(l', replaced) ← insertDelta l e;
        n' ← balanceDelta (DNode ne l' r h);
        Some (n', replaced)
      else if 0 <? comparison then
        '(r', replaced) ← insertDelta r e;
        n' ← balanceDelta (DNode ne l r' h);
        Some (n', replaced)
      else Some (DNode e l r h, true)
  end.

(** The leftmost entry: [for successor.left != nil]. *)
Fixpoint successorEntry n : option (deltaEntry V) :=
  match n with
  | DNil => None
  | DNode e DNil _ _ => Some e
  | DNode _ l _ _ => successorEntry l
  end.

Fixpoint deleteDeltaString n (key : string) : option (deltaNode V * bool) :=
  match n with
  | DNil => Some (DNil, false)
  | DNode e l r h =>
      let comparison := stringsCompare key (deltaEntry_key e) in
      if comparison <? 0 then
        '(l', removed) ← deleteDeltaString l key;
        if removed : bool then n' ← balanceDelta (DNode e l' r h); Some (n', true) else Some (n, false)
      else if 0 <? comparison then
        '(r', removed) ← deleteDeltaString r key;
        if removed : bool then n' ← balanceDelta (DNode e l r' h); Some (n', true) else Some (n, false)
      else
        match l, r with
        | DNil, _ => Some (r, true)
        | _, DNil => Some (l, true)
        | _, _ =>
            successor ← successorEntry r;
            '(r', _) ← deleteDeltaString r (deltaEntry_key successor);
            n' ← balanceDelta (DNode successor l r' h);
            Some (n', true)
        end
  end.

Fixpoint deleteDelta n (key : string) : option (deltaNode V * bool) :=
  match n with
  | DNil => Some (DNil, false)
  | DNode e l r h =>
      let comparison := compareBytesString key (deltaEntry_key e) in
      if comparison <? 0 then
        '(l', removed) ← deleteDelta l key;
        if removed : bool then n' ← balanceDelta (DNode e l' r h); Some (n', true) else Some (n, false)
      else if 0 <? comparison then
        '(r', removed) ← deleteDelta r key;
        if removed : bool then n' ← balanceDelta (DNode e l r' h); Some (n', true) else Some (n, false)
      else
        match l, r with
        | DNil, _ => Some (r, true)
        | _, DNil => Some (l, true)
        | _, _ =>
            successor ← successorEntry r;
            '(r', _) ← deleteDeltaString r (deltaEntry_key successor);
            n' ← balanceDelta (DNode successor l r' h);
            Some (n', true)
        end
  end.

Fixpoint maximumPresentDelta n : option (string * V) :=
  match n with
  | DNil => None
  | DNode e l r _ =>
      match maximumPresentDelta r with
      | Some kv => Some kv
      | None =>
          if deltaEntry_present e then Some (deltaEntry_key e, deltaEntry_value e)
          else maximumPresentDelta l
      end
  end.

Fixpoint minimumPresentDelta n : option (string * V) :=
  match n with
  | DNil => None
  | DNode e l r _ =>
      match minimumPresentDelta l with
      | Some kv => Some kv
      | None =>
          if deltaEntry_present e then Some (deltaEntry_key e, deltaEntry_value e)
          else minimumPresentDelta r
      end
  end.

(** ** Specification: a strictly ordered list of entries *)

Fixpoint entries n : list (deltaEntry V) :=
  match n with
  | DNil => []
  | DNode e l r _ => entries l ++ e :: entries r
  end.

Definition elt e1 e2 : Prop := klt (deltaEntry_key e1) (deltaEntry_key e2).

Definition ordered es : Prop := StronglySorted elt es.

Fixpoint insertSorted e es : list (deltaEntry V) :=
  match es with
  | [] => [e]
  | x :: es' =>
      if decide (klt (deltaEntry_key e) (deltaEntry_key x)) then e :: es
      else if decide (deltaEntry_key e = deltaEntry_key x) then e :: es'
      else x :: insertSorted e es'
  end.

Definition removeSorted (key : string) es : list (deltaEntry V) :=
  filter (λ e, deltaEntry_key e ≠ key) es.

Fixpoint entryOf es (key : string) : option (deltaEntry V) :=
  match es with
  | [] => None
  | e :: es' => if decide (deltaEntry_key e = key) then Some e else entryOf es' key
  end.

(** Heights are the heights, and siblings differ by at most one. *)
Fixpoint balanced n : Prop :=
  match n with
  | DNil => True
  | DNode _ l r h =>
      balanced l ∧ balanced r ∧ h = Z.max (deltaHeight l) (deltaHeight r) + 1
      ∧ -1 ≤ deltaHeight l - deltaHeight r ≤ 1
  end.

(** ** Ordered lists *)

#[local] Instance elt_trans : Transitive elt.
Proof. intros ???. apply klt_trans. Qed.

Lemma ordered_middle xs e ys :
  ordered (xs ++ e :: ys)
  ↔ ordered xs ∧ ordered ys ∧ Forall (λ x, elt x e) xs ∧ Forall (elt e) ys.
Proof.
  unfold ordered. rewrite StronglySorted_app, StronglySorted_cons, !Forall_forall. split.
  - intros (Hc & H1 & He & H2). split_and!; [done..| |done]. intros x Hx. apply Hc; [done|left].
  - intros (H1 & H2 & Hl & Hr). split_and!; [|done..]. intros x1 x2 Hx1 [->|Hx2]%elem_of_cons; [auto|].
    etrans; [by apply Hl|auto].
Qed.

Lemma insertSorted_before e x xs ys :
  elt e x → insertSorted e (xs ++ x :: ys) = insertSorted e xs ++ x :: ys.
Proof.
  intros H. induction xs as [|y xs IH]; simpl; [by rewrite decide_True|]. rewrite IH. by repeat case_decide.
Qed.

Lemma insertSorted_after e x xs ys :
  Forall (λ y, elt y x) xs → elt x e → insertSorted e (xs ++ x :: ys) = xs ++ x :: insertSorted e ys.
Proof.
  intros Hl H. assert (∀ y, elt y e → ∀ zs, insertSorted e (y :: zs) = y :: insertSorted e zs) as Hs.
  { intros y Hy zs. simpl. rewrite decide_False by by apply klt_asym.
    rewrite decide_False; [done|]. intros E. by apply klt_ne in Hy. }
  induction Hl as [|y xs Hy Hl IH]; simpl app; [by rewrite Hs|]. rewrite Hs by by etrans. by rewrite IH.
Qed.

Lemma insertSorted_at e x xs ys :
  Forall (λ y, elt y x) xs → deltaEntry_key e = deltaEntry_key x →
  insertSorted e (xs ++ x :: ys) = xs ++ e :: ys.
Proof.
  intros Hl H. induction Hl as [|y xs Hy Hl IH]; simpl.
  - rewrite H. rewrite decide_False by apply klt_irrefl. by rewrite decide_True.
  - unfold elt in Hy. rewrite H, decide_False by by apply klt_asym.
    rewrite decide_False; [by rewrite <-IH|]. intros E. by apply klt_ne in Hy.
Qed.

Lemma insertSorted_elem e x es : x ∈ insertSorted e es → x = e ∨ x ∈ es.
Proof. induction es as [|y es IH]; simpl; repeat case_decide; set_solver. Qed.

Lemma insertSorted_ordered e es : ordered es → ordered (insertSorted e es).
Proof.
  unfold ordered. induction 1 as [|x es Hs IH Hx]; simpl; [by repeat constructor|].
  destruct (klt_trichotomy (deltaEntry_key e) (deltaEntry_key x)) as [H|[H|H]].
  - rewrite decide_True by done. constructor; [by constructor|]. constructor; [done|].
    eapply Forall_impl; [exact Hx|]; intros y Hy; by etrans.
  - rewrite H, decide_False by apply klt_irrefl. rewrite decide_True by done. constructor; [done|].
    eapply Forall_impl; [exact Hx|]. intros y. unfold elt. by rewrite H.
  - rewrite decide_False by by apply klt_asym. rewrite decide_False by (intros E; by apply klt_ne in H).
    constructor; [done|]. apply Forall_forall. intros y [->|Hy]%insertSorted_elem; [done|].
    by eapply Forall_forall in Hx.
Qed.

Lemma removeSorted_ordered key es : ordered es → ordered (removeSorted key es).
Proof.
  unfold ordered, removeSorted. induction 1 as [|x es Hs IH Hx]; [constructor|].
  rewrite filter_cons. case_decide; [|done]. constructor; [done|].
  apply Forall_forall. intros y [_ Hy]%list_elem_of_filter. by eapply Forall_forall in Hx.
Qed.

Lemma entryOf_Some es k e : entryOf es k = Some e → e ∈ es ∧ deltaEntry_key e = k.
Proof. induction es; simpl; [done|]. case_decide; intros; simplify_eq; set_solver. Qed.

Lemma entryOf_None es k : entryOf es k = None ↔ k ∉ deltaEntry_key <$> es.
Proof. induction es; simpl; [set_solver|]. case_decide; set_solver. Qed.

Lemma entryOf_is_Some es k : is_Some (entryOf es k) ↔ k ∈ deltaEntry_key <$> es.
Proof. rewrite <-not_eq_None_Some, entryOf_None. destruct (decide (k ∈ deltaEntry_key <$> es)); tauto. Qed.

Lemma entryOf_insertSorted es e k :
  entryOf (insertSorted e es) k = if decide (deltaEntry_key e = k) then Some e else entryOf es k.
Proof.
  induction es as [|x es IH]; simpl; [done|]. repeat case_decide; simpl; repeat case_decide; congruence.
Qed.

Lemma entryOf_removeSorted es key k :
  entryOf (removeSorted key es) k = if decide (key = k) then None else entryOf es k.
Proof.
  unfold removeSorted. induction es as [|x es IH]; simpl; [by case_decide|].
  rewrite filter_cons. repeat case_decide; simpl; repeat case_decide; naive_solver congruence.
Qed.

Lemma entryOf_ordered es e : ordered es → e ∈ es → entryOf es (deltaEntry_key e) = Some e.
Proof.
  unfold ordered. induction 1 as [|x es Hs IH Hx]; [set_solver|]. intros [->|He]%elem_of_cons; simpl.
  - by rewrite decide_True.
  - rewrite decide_False; [auto|]. eapply Forall_forall in Hx; [|exact He]. by apply klt_ne.
Qed.

Lemma removeSorted_length es e :
  ordered es → e ∈ es → S (length (removeSorted (deltaEntry_key e) es)) = length es.
Proof.
  unfold ordered, removeSorted. induction 1 as [|x es Hs IH Hx]; [set_solver|].
  intros [->|He]%elem_of_cons; rewrite filter_cons.
  - rewrite decide_False by (intros []; done). simpl. rewrite filter_all; [done|].
    eapply Forall_impl; [exact Hx|]. intros y Hy E. by apply klt_ne in Hy.
  - rewrite decide_True; [simpl; by rewrite IH|].
    eapply Forall_forall in Hx; [|exact He]. by apply klt_ne.
Qed.

(** ** Balance *)

Lemma balanced_height n : balanced n → 0 ≤ deltaHeight n ∧ (deltaHeight n = 0 → n = DNil).
Proof.
  destruct n as [|e l r h]; simpl; [done|].
  assert (∀ m, balanced m → 0 ≤ deltaHeight m) as Hpos.
  { intros m. induction m; simpl; [done|]. naive_solver lia. }
  intros (Hl%Hpos & Hr%Hpos & -> & _). split; [lia|]. intros. lia.
Qed.

(** Every height of a balanced tree in the context is non-negative. *)
#[local] Ltac heights :=
  repeat match goal with
  | H : balanced ?m |- _ =>
      lazymatch goal with
      | _ : 0 <= deltaHeight m |- _ => fail
      | _ => pose proof (proj1 (balanced_height m H))
      end
  end.

(** Restoring the balance of a node whose children differ by at most two. *)
Lemma balanceDelta_spec e l r h :
  balanced l → balanced r → -2 ≤ deltaHeight l - deltaHeight r ≤ 2 →
  ∃ n, balanceDelta (DNode e l r h) = Some n ∧ balanced n ∧ entries n = entries l ++ e :: entries r
    ∧ Z.max (deltaHeight l) (deltaHeight r) ≤ deltaHeight n ≤ Z.max (deltaHeight l) (deltaHeight r) + 1
    ∧ (-1 ≤ deltaHeight l - deltaHeight r ≤ 1 →
       deltaHeight n = Z.max (deltaHeight l) (deltaHeight r) + 1).
Proof.
  intros Hl Hr Hd. pose proof (balanced_height l Hl) as [Hl0 _]. pose proof (balanced_height r Hr) as [Hr0 _].
  unfold balanceDelta. destruct (Z.ltb_spec 1 (deltaHeight l - deltaHeight r)).
  { destruct l as [|le ll lr lh]; [simpl in *; lia|]. destruct Hl as (Hll & Hlr & -> & Hb).
    cbn [deltaHeight] in *. destruct (Z.ltb_spec (deltaHeight ll) (deltaHeight lr)); simpl.
    - destruct lr as [|lre lrl lrr lrh]; [simpl in *; heights; lia|].
      destruct Hlr as (Hlrl & Hlrr & -> & Hb'). simpl in *. eexists. split; [done|].
      simpl. repeat (rewrite <-app_assoc; simpl). heights. split_and!; try done; lia.
    - eexists. split; [done|]. simpl. repeat (rewrite <-app_assoc; simpl). heights. split_and!; try done; lia. }
  destruct (Z.ltb_spec (deltaHeight l - deltaHeight r) (-1)).
  { destruct r as [|re rl rr rh]; [simpl in *; lia|]. destruct Hr as (Hrl & Hrr & -> & Hb).
    cbn [deltaHeight] in *. destruct (Z.ltb_spec (deltaHeight rr) (deltaHeight rl)); simpl.
    - destruct rl as [|rle rll rlr rlh]; [simpl in *; heights; lia|].
      destruct Hrl as (Hrll & Hrlr & -> & Hb'). simpl in *. eexists. split; [done|].
      simpl. repeat (rewrite <-app_assoc; simpl). heights. split_and!; try done; lia.
    - eexists. split; [done|]. simpl. repeat (rewrite <-app_assoc; simpl). heights. split_and!; try done; lia. }
  eexists. split; [done|]. simpl. heights. split_and!; try done; lia.
Qed.

#[local] Arguments balanceDelta : simpl never.

(** The comparisons of the tree, as cases on the order. *)
Lemma compare_cases {A} (cmp : string → string → Z) a b (x y z : A) :
  (∀ a b, (cmp a b < 0 ↔ klt a b) ∧ (cmp a b = 0 ↔ a = b) ∧ (0 < cmp a b ↔ klt b a)) →
  (if cmp a b <? 0 then x else if 0 <? cmp a b then y else z)
  = if decide (klt a b) then x else if decide (klt b a) then y else z.
Proof.
  intros H. destruct (H a b) as (H1 & _ & H3).
  destruct (Z.ltb_spec (cmp a b) 0); [rewrite decide_True; [done|tauto]|].
  rewrite decide_False by (rewrite <-H1; lia).
  destruct (Z.ltb_spec 0 (cmp a b)); [rewrite decide_True; [done|tauto]|].
  rewrite decide_False; [done|rewrite <-H3; lia].
Qed.

Lemma keys_after e es k : Forall (elt e) es → ¬ klt (deltaEntry_key e) k → k ∉ deltaEntry_key <$> es.
Proof. intros Hes Hk (x & -> & Hx)%list_elem_of_fmap. by eapply Forall_forall in Hes. Qed.

Lemma keys_before e es k :
  Forall (λ x, elt x e) es → ¬ klt k (deltaEntry_key e) → k ∉ deltaEntry_key <$> es.
Proof. intros Hes Hk (x & -> & Hx)%list_elem_of_fmap. by eapply Forall_forall in Hes. Qed.

Lemma insertDelta_spec n e :
  balanced n → ordered (entries n) →
  ∃ n', insertDelta n e = Some (n', bool_decide (deltaEntry_key e ∈ deltaEntry_key <$> entries n))
    ∧ balanced n' ∧ entries n' = insertSorted e (entries n)
    ∧ deltaHeight n ≤ deltaHeight n' ≤ deltaHeight n + 1.
Proof.
  induction n as [|ne l IHl r IHr h]; simpl.
  { intros _ _. eexists. split; [done|]. simpl. split_and!; done || lia. }
  intros (Hl & Hr & -> & Hd) (Ho1 & Ho2 & Hlt & Hgt)%ordered_middle.
  rewrite (compare_cases stringsCompare) by apply stringsCompare_spec.
  rewrite fmap_app, fmap_cons.
  destruct (decide (klt (deltaEntry_key e) (deltaEntry_key ne))) as [Hk|Hk].
  - destruct (IHl Hl Ho1) as (l' & -> & Hl' & He & Hh). cbn [mbind option_bind].
    destruct (balanceDelta_spec ne l' r (Z.max (deltaHeight l) (deltaHeight r) + 1)) as (n & -> & Hb & Hes & Hm & Hm1);
      [done..|lia|]. simpl. eexists. split_and!; [|done|by rewrite Hes, He, insertSorted_before|lia|lia].
    do 3 f_equal. apply bool_decide_ext. pose proof (klt_ne _ _ Hk). pose proof (keys_after _ _ _ Hgt (klt_asym _ _ Hk)). set_solver.
  - destruct (decide (klt (deltaEntry_key ne) (deltaEntry_key e))) as [Hk'|Hk'].
    + destruct (IHr Hr Ho2) as (r' & -> & Hr' & He & Hh). cbn [mbind option_bind].
      destruct (balanceDelta_spec ne l r' (Z.max (deltaHeight l) (deltaHeight r) + 1)) as (n & -> & Hb & Hes & Hm & Hm1);
        [done..|lia|]. simpl. eexists. split_and!; [|done|by rewrite Hes, He, insertSorted_after|lia|lia].
      do 3 f_equal. apply bool_decide_ext. pose proof (klt_ne _ _ Hk'). pose proof (keys_before _ _ _ Hlt Hk). set_solver.
    + destruct (klt_trichotomy (deltaEntry_key e) (deltaEntry_key ne)) as [?|[Hkk|?]]; [done| |done].
      eexists. split_and!; [by rewrite bool_decide_true by set_solver|done..| |simpl; lia|simpl; lia].
      by rewrite insertSorted_at.
Qed.

(** ** Deletion *)

Lemma removeSorted_absent k es : k ∉ deltaEntry_key <$> es → removeSorted k es = es.
Proof. intros H. apply filter_all, Forall_forall. intros x Hx E. apply H. rewrite <-E. by apply list_elem_of_fmap_2. Qed.

Lemma removeSorted_middle k xs e ys :
  removeSorted k (xs ++ e :: ys)
  = removeSorted k xs ++ (if decide (deltaEntry_key e = k) then [] else [e]) ++ removeSorted k ys.
Proof.
  unfold removeSorted. rewrite filter_app, filter_cons. by repeat case_decide.
Qed.

Lemma successorEntry_spec e l r h :
  ∃ s es, successorEntry (DNode e l r h) = Some s ∧ entries (DNode e l r h) = s :: es.
Proof.
  revert e r h. induction l as [|le ll IH lr _ lh]; intros e r h; [by eexists _, _|].
  destruct (IH le lr lh) as (s & es & Hs & He).
  exists s, (es ++ e :: entries r). split; [exact Hs|]. change (entries (DNode le ll lr lh) ++ e :: entries r = s :: es ++ e :: entries r).
  by rewrite He.
Qed.

(** What a deletion answers: the entries without the key, in a balanced tree. *)
Definition deleted n key (answer : option (deltaNode V * bool)) : Prop :=
  ∃ n', answer = Some (n', bool_decide (key ∈ deltaEntry_key <$> entries n))
    ∧ balanced n' ∧ entries n' = removeSorted key (entries n)
    ∧ deltaHeight n - 1 ≤ deltaHeight n' ≤ deltaHeight n.

(** The common shape of the two recursive branches. *)
Lemma deleted_branch n key m (rebuild : deltaNode V → deltaNode V) answer :
  balanced n → deleted m key answer →
  (key ∈ deltaEntry_key <$> entries n ↔ key ∈ deltaEntry_key <$> entries m) →
  (∀ m', balanced m' → entries m' = removeSorted key (entries m) →
     deltaHeight m - 1 ≤ deltaHeight m' ≤ deltaHeight m →
     ∃ n', balanceDelta (rebuild m') = Some n' ∧ balanced n' ∧ entries n' = removeSorted key (entries n)
       ∧ deltaHeight n - 1 ≤ deltaHeight n' ≤ deltaHeight n) →
  deleted n key ('(m', removed) ← answer;
                 if removed : bool then n' ← balanceDelta (rebuild m'); Some (n', true) else Some (n, false)).
Proof.
  intros Hn (m' & -> & Hm' & He & Hh) Hiff Hre. simpl. unfold deleted.
  destruct (decide (key ∈ deltaEntry_key <$> entries m)) as [Hin|Hin].
  - rewrite bool_decide_true by done. destruct (Hre m' Hm' He Hh) as (n' & -> & H). exists n'.
    rewrite bool_decide_true by tauto. done.
  - rewrite bool_decide_false by done. exists n. rewrite bool_decide_false by tauto.
    rewrite removeSorted_absent by tauto. split_and!; done || lia.
Qed.

Lemma deleteDeltaString_spec n key :
  balanced n → ordered (entries n) → deleted n key (deleteDeltaString n key).
Proof.
  revert key. induction n as [|e l IHl r IHr h]; intros key Hn Ho.
  { exists DNil. split_and!; done. }
  cbn [deleteDeltaString]. rewrite (compare_cases stringsCompare) by apply stringsCompare_spec.
  pose proof Hn as (Hl & Hr & Hh & Hd). pose proof Ho as (Ho1 & Ho2 & Hlt & Hgt)%ordered_middle. fold @entries in *.
  destruct (decide (klt key (deltaEntry_key e))) as [Hk|Hk].
  { pose proof (keys_after _ _ _ Hgt (klt_asym _ _ Hk)). pose proof (klt_ne _ _ Hk).
    eapply (deleted_branch _ _ l (λ l', DNode e l' r h)); [done|by apply IHl|simpl; set_solver|].
    intros l' Hl' He Hb. destruct (balanceDelta_spec e l' r h) as (n' & -> & Hn' & Hes & Hm & Hm1); [done..|lia|].
    exists n'. cbn [entries deltaHeight]. rewrite removeSorted_middle, decide_False, (removeSorted_absent _ (entries r)) by done.
    split_and!; [done..|by rewrite Hes, He|lia|lia]. }
  destruct (decide (klt (deltaEntry_key e) key)) as [Hk'|Hk'].
  { pose proof (keys_before _ _ _ Hlt Hk). pose proof (klt_ne _ _ Hk').
    eapply (deleted_branch _ _ r (λ r', DNode e l r' h)); [done|by apply IHr|simpl; set_solver|].
    intros r' Hr' He Hb. destruct (balanceDelta_spec e l r' h) as (n' & -> & Hn' & Hes & Hm & Hm1); [done..|lia|].
    exists n'. cbn [entries deltaHeight]. rewrite removeSorted_middle, decide_False, (removeSorted_absent _ (entries l)) by done.
    split_and!; [done..|by rewrite Hes, He|lia|lia]. }
  destruct (klt_trichotomy key (deltaEntry_key e)) as [?|[->|?]]; [done| |done].
  unfold deleted. cbn [entries deltaHeight]. rewrite bool_decide_true by set_solver.
  rewrite removeSorted_middle, decide_True, !removeSorted_absent by eauto using keys_before, keys_after. simpl.
  destruct l as [|le ll lr lh]; [exists r; simpl in *; heights; split_and!; [done..|lia|lia]|].
  destruct r as [|re rl rr rh].
  { exists (DNode le ll lr lh). rewrite app_nil_r. heights. cbn [deltaHeight] in *. split_and!; [done..|lia|lia]. }
  destruct (successorEntry_spec re rl rr rh) as (s & es & -> & Hs). cbn [mbind option_bind].
  destruct (IHr (deltaEntry_key s) Hr Ho2) as (r' & -> & Hr' & He & Hb). cbn [mbind option_bind].
  destruct (balanceDelta_spec s (DNode le ll lr lh) r' h) as (n' & -> & Hn' & Hes & Hm & Hm1); [done..|lia|].
  exists n'. split_and!; [done..| |lia|lia]. rewrite Hes, He, Hs. f_equal.
  assert (ordered ([] ++ s :: es)) as (_ & _ & _ & Hse)%ordered_middle by by rewrite <-Hs.
  change (s :: es) with ([] ++ s :: es). rewrite removeSorted_middle, decide_True by done. simpl.
  by rewrite removeSorted_absent by (eapply keys_after; [done|apply klt_irrefl]).
Qed.

Lemma deleteDelta_String n key : deleteDelta n key = deleteDeltaString n key.
Proof.
  induction n as [|e l IHl r IHr h]; [done|]. cbn [deleteDelta deleteDeltaString].
  rewrite (compare_cases stringsCompare) by apply stringsCompare_spec.
  rewrite (compare_cases compareBytesString) by apply compareBytesString_spec.
  by rewrite IHl, IHr.
Qed.

(** ** The extreme visible entries *)

Definition visibleEntries es : list (string * V) :=
  omap (λ e, if deltaEntry_present e then Some (deltaEntry_key e, deltaEntry_value e) else None) es.

Lemma visibleEntries_middle xs e ys :
  visibleEntries (xs ++ e :: ys)
  = visibleEntries xs
    ++ (if deltaEntry_present e then [(deltaEntry_key e, deltaEntry_value e)] else []) ++ visibleEntries ys.
Proof. unfold visibleEntries. rewrite omap_app. simpl. by destruct (deltaEntry_present e). Qed.

Lemma minimumPresentDelta_spec n : minimumPresentDelta n = head (visibleEntries (entries n)).
Proof.
  induction n as [|e l IHl r IHr h]; [done|]. cbn [minimumPresentDelta entries]. rewrite visibleEntries_middle, IHl, IHr.
  destruct (visibleEntries (entries l)); [|done]. by destruct (deltaEntry_present e).
Qed.

Lemma maximumPresentDelta_spec n : maximumPresentDelta n = last (visibleEntries (entries n)).
Proof.
  induction n as [|e l IHl r IHr h]; [done|]. cbn [maximumPresentDelta entries].
  rewrite visibleEntries_middle, !last_app, IHl, IHr.
  destruct (last (visibleEntries (entries r))); [done|]. by destruct (deltaEntry_present e).
Qed.

(** ** The height is logarithmic *)

Lemma balanced_logarithmic n :
  balanced n → 2 ^ deltaHeight n ≤ (Z.of_nat (length (entries n)) + 1) ^ 2.
Proof.
  induction n as [|e l IHl r IHr h]; [done|]. intros (Hl & Hr & -> & Hd). specialize (IHl Hl). specialize (IHr Hr).
  heights. cbn [deltaHeight entries] in *. rewrite length_app, length_cons.
  replace (Z.of_nat (length (entries l) + S (length (entries r))) + 1)
    with ((Z.of_nat (length (entries l)) + 1) + (Z.of_nat (length (entries r)) + 1)) by lia.
  rewrite Z.add_comm. apply balanced_depth_step; lia || done.
Qed.
End delta.
