(* ===== verification/DeltaHash.v ===== *)
(** * The hashed delta index

    Models [src/pkg/persistenttree/delta_hash.go]: a persistent hash trie with
    one level per five bits of the 64-bit hash. A node holds a 32-bit bitmap
    and one slot per set bit, a slot is a child or a leaf, and a leaf holds
    every entry of one hash. Like the ordered index, nodes are never changed
    once they are shared.

    The loops and recursions take the number of levels left; a 64-bit hash has
    [hashLevels] of them. Running out of levels, or indexing a slice out of
    range, is [None], and the theorems show it does not happen. The hash
    function is an argument ([MapHash]): nothing is assumed of it but that it
    answers 64-bit values. *)

From Stdlib Require Import ZArith Lia.
From stdpp Require Import base list numbers strings option sets.
From S2P Require Import Prelude KeyOrder DeltaTree.
Open Scope Z_scope.

(** [hash/maphash] under the package's seed. *)
Class MapHash := {
  maphash : string → Z;
  maphash_range key : 0 ≤ maphash key < 2 ^ 64;
}.

(** ** Bit counting *)

(** Set bits among the lowest [n]. *)
Fixpoint bitsBelow (n : nat) (bitmap : Z) : nat :=
  match n with
  | 0%nat => 0
  | S n' => bitsBelow n' bitmap + (if Z.testbit bitmap (Z.of_nat n') then 1 else 0)
  end.

(** [bits.OnesCount32]. *)
Definition OnesCount32 (x : Z) : nat := bitsBelow 32 x.

(** ** Data *)

Record deltaHashLeaf (V : Type) := DeltaHashLeaf {
  leaf_hash : Z;
  leaf_entry : deltaEntry V;
  leaf_collisions : list (deltaEntry V);
}.
Arguments DeltaHashLeaf {V} _ _ _.
Arguments leaf_hash {V} _.
Arguments leaf_entry {V} _.
Arguments leaf_collisions {V} _.

Inductive deltaHashNode (V : Type) :=
  | DeltaHashNode (bitmap : Z) (slots : list (deltaHashSlot V))
with deltaHashSlot (V : Type) :=
  | SlotChild (child : deltaHashNode V)
  | SlotLeaf (leaf : deltaHashLeaf V).
Arguments DeltaHashNode {V} _ _.
Arguments SlotChild {V} _.
Arguments SlotLeaf {V} _.

Definition deltaHashBits : Z := 5.

(** Levels of the trie: shifts 0, 5, ..., 60. *)
Definition hashLevels : nat := 13.

Section hash.
Context {V : Type}.
Implicit Types (n c : deltaHashNode V) (slots : list (deltaHashSlot V)) (leaf : deltaHashLeaf V)
  (e : deltaEntry V) (key : string) (hash shift bitmap : Z).

(** ** The operations *)

Definition deltaHashBit hash shift : Z :=
  Z.shiftl 1 (Z.land (Z.shiftr hash shift) (Z.shiftl 1 deltaHashBits - 1)).

Definition deltaHashSlotIndex bitmap (bit : Z) : nat := OnesCount32 (Z.land bitmap (bit - 1)).

Definition newDeltaHashLeaf hash e : deltaHashLeaf V := DeltaHashLeaf hash e [].

(** The entry of a leaf under a key, by either key comparison. *)
Definition leafFind (same : string → bool) leaf : option (deltaEntry V) :=
  if same (deltaEntry_key (leaf_entry leaf)) then Some (leaf_entry leaf)
  else find (λ e, same (deltaEntry_key e)) (leaf_collisions leaf).

(** The loop both lookups write, from the level [shift] on. *)
Fixpoint getDeltaHashFrom (levels : nat) (same : string → bool) n hash shift : option (option (deltaEntry V)) :=
  match levels with
  | 0%nat => None
  | S levels' =>
      let 'DeltaHashNode bitmap slots := n in
      let bit := deltaHashBit hash shift in
      if Z.land bitmap bit =? 0 then Some None
      else
        slot ← slots !! deltaHashSlotIndex bitmap bit;
        match slot with
        | SlotChild child => getDeltaHashFrom levels' same child hash (shift + deltaHashBits)
        | SlotLeaf leaf =>
            if negb (leaf_hash leaf =? hash) then Some None else Some (leafFind same leaf)
        end
  end.

Definition getDeltaHash (node : option (deltaHashNode V)) key hash : option (option (deltaEntry V)) :=
  match node with
  | None => Some None
  | Some n => getDeltaHashFrom hashLevels (λ k, compareBytesString key k =? 0) n hash 0
  end.

Definition getDeltaHashString (node : option (deltaHashNode V)) key hash : option (option (deltaEntry V)) :=
  match node with
  | None => Some None
  | Some n => getDeltaHashFrom hashLevels (λ k, bool_decide (k = key)) n hash 0
  end.

(** The first collision of the key is replaced, or the entry is appended. *)
Fixpoint insertCollision (collisions : list (deltaEntry V)) e :
    list (deltaEntry V) * option (deltaEntry V) * bool :=
  match collisions with
  | [] => ([e], None, false)
  | collision :: rest =>
      if decide (deltaEntry_key collision ≠ deltaEntry_key e) then
        let '(rest', previous, replaced) := insertCollision rest e in
        (collision :: rest', previous, replaced)
      else (e :: rest, Some collision, true)
  end.

Definition insertDeltaHashLeaf leaf e : deltaHashLeaf V * option (deltaEntry V) * bool :=
  if decide (deltaEntry_key (leaf_entry leaf) = deltaEntry_key e) then
    (DeltaHashLeaf (leaf_hash leaf) e (leaf_collisions leaf), Some (leaf_entry leaf), true)
  else
    let '(collisions, previous, replaced) := insertCollision (leaf_collisions leaf) e in
    (DeltaHashLeaf (leaf_hash leaf) (leaf_entry leaf) collisions, previous, replaced).

Fixpoint mergeDeltaHashLeaves (levels : nat) (left right : deltaHashLeaf V) shift : option (deltaHashNode V) :=
  match levels with
  | 0%nat => None
  | S levels' =>
      let leftBit := deltaHashBit (leaf_hash left) shift in
      let rightBit := deltaHashBit (leaf_hash right) shift in
      if leftBit =? rightBit then
        child ← mergeDeltaHashLeaves levels' left right (shift + deltaHashBits);
        Some (DeltaHashNode leftBit [SlotChild child])
      else if leftBit <? rightBit then
        Some (DeltaHashNode (Z.lor leftBit rightBit) [SlotLeaf left; SlotLeaf right])
      else Some (DeltaHashNode (Z.lor leftBit rightBit) [SlotLeaf right; SlotLeaf left])
  end.

Fixpoint insertDeltaHashAt (levels : nat) (node : option (deltaHashNode V)) hash e shift :
    option (deltaHashNode V * option (deltaEntry V) * bool) :=
  match levels with
  | 0%nat => None
  | S levels' =>
      let bit := deltaHashBit hash shift in
      match node with
      | None => Some (DeltaHashNode bit [SlotLeaf (newDeltaHashLeaf hash e)], None, false)
      | Some (DeltaHashNode bitmap slots) =>
          let index := deltaHashSlotIndex bitmap bit in
          if Z.land bitmap bit =? 0 then
            if decide (index ≤ length slots)%nat then
              Some (DeltaHashNode (Z.lor bitmap bit)
                      (take index slots ++ SlotLeaf (newDeltaHashLeaf hash e) :: drop index slots), None, false)
            else None
          else
            slot ← slots !! index;
            match slot with
            | SlotChild child =>
                '(child', previous, replaced) ←
                  insertDeltaHashAt levels' (Some child) hash e (shift + deltaHashBits);
                Some (DeltaHashNode bitmap (<[index:=SlotChild child']> slots), previous, replaced)
            | SlotLeaf leaf =>
                if leaf_hash leaf =? hash then
                  let '(leaf', previous, replaced) := insertDeltaHashLeaf leaf e in
                  Some (DeltaHashNode bitmap (<[index:=SlotLeaf leaf']> slots), previous, replaced)
                else
                  child ← mergeDeltaHashLeaves levels' leaf (newDeltaHashLeaf hash e) (shift + deltaHashBits);
                  Some (DeltaHashNode bitmap (<[index:=SlotChild child]> slots), None, false)
            end
      end
  end.

Definition insertDeltaHash (node : option (deltaHashNode V)) hash e :=
  insertDeltaHashAt hashLevels node hash e 0.

(** The first collision of the key is taken out. *)
Fixpoint deleteCollision (collisions : list (deltaEntry V)) key : option (list (deltaEntry V) * deltaEntry V) :=
  match collisions with
  | [] => None
  | e :: rest =>
      if negb (compareBytesString key (deltaEntry_key e) =? 0) then
        '(rest', removed) ← deleteCollision rest key;
        Some (e :: rest', removed)
      else Some (rest, e)
  end.

(** The leaf without the key (nil when it was the last), what was removed. *)
Definition deleteDeltaHashLeaf leaf key : option (deltaHashLeaf V) * option (deltaEntry V) * bool :=
  if compareBytesString key (deltaEntry_key (leaf_entry leaf)) =? 0 then
    match leaf_collisions leaf with
    | [] => (None, Some (leaf_entry leaf), true)
    | first :: rest => (Some (DeltaHashLeaf (leaf_hash leaf) first rest), Some (leaf_entry leaf), true)
    end
  else
    match deleteCollision (leaf_collisions leaf) key with
    | Some (collisions, e) =>
        (Some (DeltaHashLeaf (leaf_hash leaf) (leaf_entry leaf) collisions), Some e, true)
    | None => (Some leaf, None, false)
    end.

Definition removeDeltaHashSlot bitmap slots (bit : Z) (index : nat) : option (deltaHashNode V) :=
  if decide (length slots = 1%nat) then None
  else Some (DeltaHashNode (Z.ldiff bitmap bit) (take index slots ++ drop (S index) slots)).

Fixpoint singleDeltaHashLeaf n : option (deltaHashLeaf V) :=
  match n with
  | DeltaHashNode _ [SlotLeaf leaf] => Some leaf
  | DeltaHashNode _ [SlotChild child] => singleDeltaHashLeaf child
  | _ => None
  end.

Fixpoint deleteDeltaHashAt (levels : nat) (node : option (deltaHashNode V)) key hash shift :
    option (option (deltaHashNode V) * option (deltaEntry V) * bool) :=
  match levels with
  | 0%nat => None
  | S levels' =>
      match node with
      | None => Some (None, None, false)
      | Some (DeltaHashNode bitmap slots) =>
          let bit := deltaHashBit hash shift in
          if Z.land bitmap bit =? 0 then Some (node, None, false)
          else
            let index := deltaHashSlotIndex bitmap bit in
            slot ← slots !! index;
            match slot with
            | SlotChild child =>
                '(child', previous, removed) ←
                  deleteDeltaHashAt levels' (Some child) key hash (shift + deltaHashBits);
                if negb removed then Some (node, None, false)
                else
                  match child' with
                  | None => Some (removeDeltaHashSlot bitmap slots bit index, previous, true)
                  | Some child' =>
                      let slot' := match singleDeltaHashLeaf child' with
                                   | Some leaf => SlotLeaf leaf
                                   | None => SlotChild child'
                                   end in
                      Some (Some (DeltaHashNode bitmap (<[index:=slot']> slots)), previous, true)
                  end
            | SlotLeaf leaf =>
                if negb (leaf_hash leaf =? hash) then Some (node, None, false)
                else
                  let '(leaf', previous, removed) := deleteDeltaHashLeaf leaf key in
                  if negb removed then Some (node, None, false)
                  else
                    match leaf' with
                    | None => Some (removeDeltaHashSlot bitmap slots bit index, previous, true)
                    | Some leaf' =>
                        Some (Some (DeltaHashNode bitmap (<[index:=SlotLeaf leaf']> slots)), previous, true)
                    end
            end
      end
  end.

Definition deleteDeltaHash (node : option (deltaHashNode V)) key hash :=
  deleteDeltaHashAt hashLevels node key hash 0.
End hash.
