(* ===== verification/DeltaHashProps.v ===== *)
(** * Correctness of the hashed delta index

    A node is a sparse array of 32 slots: [slotAt] reads it through the bitmap,
    and setting, replacing and clearing a slot act on it as on an array. On top
    of that, lookups after an insertion or a deletion are what they are for a
    map, for every hash function, and no operation runs out of levels. *)

From Stdlib Require Import ZArith Lia.
From stdpp Require Import base list numbers strings option sets.
From S2P Require Import Prelude KeyOrder DeltaTree DeltaHash.
Open Scope Z_scope.

(** ** Ranks in a bitmap *)

Lemma bitsBelow_ext n a b :
  (∀ i, (i < n)%nat → Z.testbit a (Z.of_nat i) = Z.testbit b (Z.of_nat i)) → bitsBelow n a = bitsBelow n b.
Proof.
  induction n as [|n IH]; intros H; simpl; [done|]. rewrite IH by auto with lia. by rewrite H by lia.
Qed.

Lemma bitsBelow_stop m n a :
  (m ≤ n)%nat → (∀ i, (m ≤ i < n)%nat → Z.testbit a (Z.of_nat i) = false) → bitsBelow n a = bitsBelow m a.
Proof.
  induction 1 as [|n Hmn IH]; intros H; [done|]. simpl. rewrite H by lia. rewrite IH; [lia|]. auto with lia.
Qed.

Lemma bitsBelow_mono m n a : (m ≤ n)%nat → (bitsBelow m a ≤ bitsBelow n a)%nat.
Proof. induction 1; simpl; lia. Qed.

Lemma bitsBelow_lt m n a :
  (m < n)%nat → Z.testbit a (Z.of_nat m) = true → (bitsBelow m a < bitsBelow n a)%nat.
Proof. intros H Ht. pose proof (bitsBelow_mono (S m) n a H) as Hm. simpl in Hm. rewrite Ht in Hm. lia. Qed.

(** [a] is [b] with the bit [x] set. *)
Lemma bitsBelow_set n x a b :
  Z.testbit a (Z.of_nat x) = true → Z.testbit b (Z.of_nat x) = false →
  (∀ i, i ≠ x → Z.testbit a (Z.of_nat i) = Z.testbit b (Z.of_nat i)) →
  bitsBelow n a = (bitsBelow n b + if decide (x < n)%nat then 1 else 0)%nat.
Proof.
  intros Ha Hb Hab. induction n as [|n IH]; simpl; [done|]. rewrite IH.
  destruct (decide (x = n)) as [->|Hne].
  - rewrite Ha, Hb. rewrite decide_False, decide_True by lia. lia.
  - rewrite Hab by done. repeat case_decide; lia.
Qed.

Lemma testbit_pow2 x i : Z.testbit (2 ^ Z.of_nat x) (Z.of_nat i) = bool_decide (x = i).
Proof. rewrite Z.pow2_bits_eqb by lia. case_bool_decide; [subst; apply Z.eqb_refl|apply Z.eqb_neq; lia]. Qed.

Lemma land_pow2 a x : (Z.land a (2 ^ Z.of_nat x) =? 0) = negb (Z.testbit a (Z.of_nat x)).
Proof.
  destruct (Z.testbit a (Z.of_nat x)) eqn:H; simpl.
  - apply Z.eqb_neq. intros E. assert (Z.testbit (Z.land a (2 ^ Z.of_nat x)) (Z.of_nat x) = true) as Ht.
    { by rewrite Z.land_spec, H, testbit_pow2, bool_decide_true. }
    by rewrite E, Z.testbit_0_l in Ht.
  - apply Z.eqb_eq, Z.bits_inj. intros i. rewrite Z.bits_0, Z.land_spec.
    destruct (decide (0 ≤ i)); [|rewrite Z.testbit_neg_r by lia; done].
    replace i with (Z.of_nat (Z.to_nat i)) by lia. rewrite testbit_pow2.
    case_bool_decide; [subst; by rewrite H|apply andb_false_r].
Qed.

Lemma rank_spec a x : (x ≤ 32)%nat → OnesCount32 (Z.land a (2 ^ Z.of_nat x - 1)) = bitsBelow x a.
Proof.
  intros Hx. unfold OnesCount32. replace (2 ^ Z.of_nat x - 1) with (Z.ones (Z.of_nat x))
    by (rewrite Z.ones_equiv; lia).
  rewrite (bitsBelow_stop x 32) by
    (try done; intros i Hi; rewrite Z.land_spec, Z.ones_spec_high by lia; apply andb_false_r).
  apply bitsBelow_ext. intros i Hi. rewrite Z.land_spec, Z.ones_spec_low by lia. apply andb_true_r.
Qed.

(** A 32-bit value has no bit from 32 on. *)
Lemma bitmap_range a :
  0 ≤ a < 2 ^ 32 ↔ 0 ≤ a ∧ ∀ x, (32 ≤ x)%nat → Z.testbit a (Z.of_nat x) = false.
Proof.
  split.
  - intros Ha. split; [lia|]. intros x Hx. destruct (Z.eq_dec a 0) as [->|]; [apply Z.testbit_0_l|].
    apply Z.bits_above_log2; [lia|]. apply Z.log2_lt_pow2; [lia|].
    eapply Z.lt_le_trans; [apply Ha|]. apply Z.pow_le_mono_r; lia.
  - intros [Ha H]. split; [done|]. destruct (Z.eq_dec a 0) as [->|]; [done|]. apply Z.log2_lt_pow2; [lia|].
    destruct (Z.lt_ge_cases (Z.log2 a) 32) as [|Hge]; [done|].
    pose proof (Z.bit_log2 a ltac:(lia)) as Hb. specialize (H (Z.to_nat (Z.log2 a)) ltac:(lia)).
    rewrite Z2Nat.id in H by lia. congruence.
Qed.

Lemma bitmap_range_lor a x : 0 ≤ a < 2 ^ 32 → (x < 32)%nat → 0 ≤ Z.lor a (2 ^ Z.of_nat x) < 2 ^ 32.
Proof.
  intros [Ha H]%bitmap_range Hx. apply bitmap_range. split; [apply Z.lor_nonneg; lia|]. intros i Hi.
  rewrite Z.lor_spec, H, testbit_pow2, bool_decide_false by lia. done.
Qed.

Lemma bitmap_range_ldiff a x : 0 ≤ a < 2 ^ 32 → 0 ≤ Z.ldiff a x < 2 ^ 32.
Proof.
  intros [Ha H]%bitmap_range. apply bitmap_range. split; [apply Z.ldiff_nonneg; lia|]. intros i Hi.
  by rewrite Z.ldiff_spec, H.
Qed.

(** ** Sparse arrays *)

Section sparse.
Context {A : Type}.
Implicit Types (slots : list A) (bitmap : Z).

Definition slotAt bitmap slots (x : nat) : option A :=
  if Z.testbit bitmap (Z.of_nat x) then slots !! bitsBelow x bitmap else None.

(** As many slots as set bits, all of them below 32. *)
Definition sparse bitmap slots : Prop :=
  0 ≤ bitmap < 2 ^ 32 ∧ length slots = OnesCount32 bitmap.

Lemma slotAt_bit bitmap slots x :
  sparse bitmap slots → Z.testbit bitmap (Z.of_nat x) = true →
  ∃ s, slots !! bitsBelow x bitmap = Some s ∧ slotAt bitmap slots x = Some s.
Proof.
  intros [Hb Hl] Hx. unfold slotAt. rewrite Hx.
  destruct (slots !! bitsBelow x bitmap) as [s|] eqn:H; [by exists s|].
  apply lookup_ge_None in H. rewrite Hl in H.
  destruct (decide (x < 32)%nat); [|apply bitmap_range in Hb as [_ Hb]; by rewrite Hb in Hx by lia].
  pose proof (bitsBelow_lt x 32 bitmap ltac:(lia) Hx). unfold OnesCount32 in H. lia.
Qed.

Lemma slotAt_inj bitmap x y :
  Z.testbit bitmap (Z.of_nat x) = true → Z.testbit bitmap (Z.of_nat y) = true →
  bitsBelow x bitmap = bitsBelow y bitmap → x = y.
Proof.
  intros Hx Hy E. destruct (Nat.lt_total x y) as [H|[H|H]]; [|done|].
  - pose proof (bitsBelow_lt _ _ _ H Hx). lia.
  - pose proof (bitsBelow_lt _ _ _ H Hy). lia.
Qed.

(** Replacing the slot of a set bit. *)
Lemma slotAt_replace bitmap slots x s y :
  sparse bitmap slots → Z.testbit bitmap (Z.of_nat x) = true →
  slotAt bitmap (<[bitsBelow x bitmap:=s]> slots) y = if decide (x = y) then Some s else slotAt bitmap slots y.
Proof.
  intros Hsp Hx. destruct (slotAt_bit _ _ _ Hsp Hx) as (s' & Hs & _). unfold slotAt. case_decide as E.
  - subst y. rewrite Hx. apply list_lookup_insert_eq. by eapply lookup_lt_Some.
  - destruct (Z.testbit bitmap (Z.of_nat y)) eqn:Hy; [|done]. apply list_lookup_insert_ne.
    intros Heq. by apply E, (slotAt_inj bitmap).
Qed.

Lemma sparse_replace bitmap slots i s : sparse bitmap slots → sparse bitmap (<[i:=s]> slots).
Proof. intros [??]. split; [done|]. by rewrite length_insert. Qed.

(** Setting a clear bit makes room for its slot. *)
Lemma slotAt_insert bitmap slots x s y :
  sparse bitmap slots → (x < 32)%nat → Z.testbit bitmap (Z.of_nat x) = false →
  slotAt (Z.lor bitmap (2 ^ Z.of_nat x)) (take (bitsBelow x bitmap) slots ++ s :: drop (bitsBelow x bitmap) slots) y
  = if decide (x = y) then Some s else slotAt bitmap slots y.
Proof.
  intros [Hb Hl] Hx Hc. set (bm := Z.lor _ _).
  assert (Z.testbit bm (Z.of_nat x) = true) as Ht.
  { unfold bm. by rewrite Z.lor_spec, testbit_pow2, bool_decide_true, orb_true_r. }
  assert (∀ i, i ≠ x → Z.testbit bm (Z.of_nat i) = Z.testbit bitmap (Z.of_nat i)) as Hne.
  { intros i Hi. unfold bm. by rewrite Z.lor_spec, testbit_pow2, bool_decide_false, orb_false_r. }
  pose proof (λ n, bitsBelow_set n x bm bitmap Ht Hc Hne) as Hset.
  assert (bitsBelow x bitmap ≤ length slots)%nat as Hle by (rewrite Hl; apply bitsBelow_mono; lia).
  assert (length (take (bitsBelow x bitmap) slots) = bitsBelow x bitmap) as Hlt by (rewrite length_take; lia).
  unfold slotAt. case_decide as E.
  - subst y. rewrite Ht, Hset, decide_False by lia. rewrite lookup_app_r by lia.
    by replace (bitsBelow x bitmap + 0 - length (take (bitsBelow x bitmap) slots))%nat with 0%nat by lia.
  - rewrite Hne by done. destruct (Z.testbit bitmap (Z.of_nat y)) eqn:Hy; [|done]. rewrite Hset.
    case_decide.
    + pose proof (bitsBelow_mono x y bitmap ltac:(lia)). rewrite lookup_app_r by lia. rewrite Hlt.
      replace (bitsBelow y bitmap + 1 - bitsBelow x bitmap)%nat with (S (bitsBelow y bitmap - bitsBelow x bitmap)) by lia.
      simpl. rewrite lookup_drop. f_equal. lia.
    + pose proof (bitsBelow_lt y x bitmap ltac:(lia) Hy). rewrite lookup_app_l by lia.
      rewrite lookup_take_lt by lia. f_equal. lia.
Qed.

Lemma sparse_insert bitmap slots x s i :
  sparse bitmap slots → (x < 32)%nat → Z.testbit bitmap (Z.of_nat x) = false → (i ≤ length slots)%nat →
  sparse (Z.lor bitmap (2 ^ Z.of_nat x)) (take i slots ++ s :: drop i slots).
Proof.
  intros [Hb Hl] Hx Hc Hi. split; [by apply bitmap_range_lor|].
  unfold OnesCount32 in *. rewrite (bitsBelow_set 32 x _ bitmap); [|by rewrite Z.lor_spec, testbit_pow2, bool_decide_true, orb_true_r|done|].
  - rewrite decide_True by done. rewrite length_app, length_cons, length_take, length_drop. lia.
  - intros j Hj. by rewrite Z.lor_spec, testbit_pow2, bool_decide_false, orb_false_r.
Qed.

(** Clearing a set bit takes its slot out. *)
Lemma slotAt_remove bitmap slots x y :
  sparse bitmap slots → Z.testbit bitmap (Z.of_nat x) = true →
  slotAt (Z.ldiff bitmap (2 ^ Z.of_nat x)) (take (bitsBelow x bitmap) slots ++ drop (S (bitsBelow x bitmap)) slots) y
  = if decide (x = y) then None else slotAt bitmap slots y.
Proof.
  intros Hsp Hx. destruct (slotAt_bit _ _ _ Hsp Hx) as (s & Hs%lookup_lt_Some & _). set (bm := Z.ldiff _ _).
  assert (Z.testbit bm (Z.of_nat x) = false) as Ht.
  { unfold bm. by rewrite Z.ldiff_spec, testbit_pow2, bool_decide_true, andb_false_r. }
  assert (∀ i, i ≠ x → Z.testbit bm (Z.of_nat i) = Z.testbit bitmap (Z.of_nat i)) as Hne.
  { intros i Hi. unfold bm. by rewrite Z.ldiff_spec, testbit_pow2, bool_decide_false, andb_true_r. }
  pose proof (λ n, bitsBelow_set n x bitmap bm Hx Ht (λ i Hi, eq_sym (Hne i Hi))) as Hset.
  assert (length (take (bitsBelow x bitmap) slots) = bitsBelow x bitmap) as Hlt by (rewrite length_take; lia).
  unfold slotAt. case_decide as E; [subst y; by rewrite Ht|].
  rewrite Hne by done. destruct (Z.testbit bitmap (Z.of_nat y)) eqn:Hy; [|done].
  specialize (Hset y). case_decide.
  - pose proof (bitsBelow_lt x y bitmap ltac:(lia) Hx). rewrite lookup_app_r by lia. rewrite Hlt, lookup_drop. f_equal. lia.
  - pose proof (bitsBelow_lt y x bitmap ltac:(lia) Hy). rewrite lookup_app_l by lia.
    rewrite lookup_take_lt by lia. f_equal. lia.
Qed.

Lemma sparse_remove bitmap slots x :
  sparse bitmap slots → (x < 32)%nat → Z.testbit bitmap (Z.of_nat x) = true →
  sparse (Z.ldiff bitmap (2 ^ Z.of_nat x)) (take (bitsBelow x bitmap) slots ++ drop (S (bitsBelow x bitmap)) slots).
Proof.
  intros Hsp Hx Ht. destruct (slotAt_bit _ _ _ Hsp Ht) as (s & Hs%lookup_lt_Some & _). destruct Hsp as [Hb Hl].
  split; [by apply bitmap_range_ldiff|]. unfold OnesCount32 in *.
  rewrite (bitsBelow_set 32 x bitmap (Z.ldiff bitmap (2 ^ Z.of_nat x))) in Hl; [|done|by rewrite Z.ldiff_spec, testbit_pow2, bool_decide_true, andb_false_r|].
  - rewrite decide_True in Hl by done. rewrite length_app, length_take, length_drop. lia.
  - intros j Hj. by rewrite Z.ldiff_spec, testbit_pow2, bool_decide_false, andb_true_r.
Qed.
End sparse.

(** ** The trie *)

Section trie.
Context {V : Type} `{MapHash}.
Implicit Types (n c : deltaHashNode V) (slots : list (deltaHashSlot V)) (leaf : deltaHashLeaf V)
  (e : deltaEntry V) (key k : string) (hash shift bitmap p : Z) (f g : string → option (deltaEntry V)).

(** The slot of a hash at a level. *)
Definition hashIndex hash shift : nat := Z.to_nat ((hash / 2 ^ shift) mod 32).

Lemma hashIndex_lt hash shift : (hashIndex hash shift < 32)%nat.
Proof. unfold hashIndex. pose proof (Z.mod_pos_bound (hash / 2 ^ shift) 32). lia. Qed.

Lemma deltaHashBit_spec hash shift : 0 ≤ shift → deltaHashBit hash shift = 2 ^ Z.of_nat (hashIndex hash shift).
Proof.
  intros Hs. unfold deltaHashBit, hashIndex. change (Z.shiftl 1 deltaHashBits - 1) with (Z.ones 5).
  rewrite Z.land_ones, Z.shiftr_div_pow2, Z.shiftl_1_l by lia. change (2 ^ 5) with 32.
  rewrite Z2Nat.id; [done|]. by apply Z.mod_pos_bound.
Qed.

Lemma index_prefix hash shift :
  0 ≤ shift → hash mod 2 ^ (shift + 5) = hash mod 2 ^ shift + 2 ^ shift * Z.of_nat (hashIndex hash shift).
Proof.
  intros Hs. rewrite Z.pow_add_r by lia. change (2 ^ 5) with 32. rewrite Z.rem_mul_r by lia.
  unfold hashIndex. rewrite Z2Nat.id; [done|]. by apply Z.mod_pos_bound.
Qed.

Lemma index_of_prefix hash shift p x :
  0 ≤ shift → hash mod 2 ^ (shift + 5) = p + 2 ^ shift * Z.of_nat x → hash mod 2 ^ shift = p →
  hashIndex hash shift = x.
Proof.
  intros Hs Hp Hq. rewrite index_prefix, Hq in Hp by done.
  assert (0 < 2 ^ shift) by lia. nia.
Qed.

(** *** Leaves *)

Definition leafEntries leaf : list (deltaEntry V) := leaf_entry leaf :: leaf_collisions leaf.

(** A leaf holds entries of one hash, with distinct keys. *)
Definition leafOK leaf : Prop :=
  NoDup (deltaEntry_key <$> leafEntries leaf)
  ∧ Forall (λ e, maphash (deltaEntry_key e) = leaf_hash leaf) (leafEntries leaf).

Definition sameKey key : string → bool := λ k, bool_decide (k = key).

Lemma leafFind_spec same key leaf :
  (∀ k, same k = sameKey key k) → leafFind same leaf = entryOf (leafEntries leaf) key.
Proof.
  intros Hs. unfold leafFind, leafEntries, sameKey in *. simpl. rewrite Hs. case_bool_decide; case_decide; try done.
  induction (leaf_collisions leaf) as [|x l IH]; simpl; [done|]. rewrite Hs. case_bool_decide; case_decide; done.
Qed.

Lemma entryOf_leaf_hash leaf key e : leafOK leaf → entryOf (leafEntries leaf) key = Some e → maphash key = leaf_hash leaf.
Proof. intros [_ Hf] [Hin <-]%entryOf_Some. by eapply Forall_forall in Hf. Qed.

Lemma newDeltaHashLeaf_OK e : leafOK (newDeltaHashLeaf (maphash (deltaEntry_key e)) e).
Proof. split; [apply NoDup_singleton|by repeat constructor]. Qed.

Lemma insertCollision_spec l e l' previous replaced :
  insertCollision l e = (l', previous, replaced) →
  previous = entryOf l (deltaEntry_key e) ∧ replaced = bool_decide (is_Some previous)
  ∧ (∀ k, entryOf l' k = if decide (deltaEntry_key e = k) then Some e else entryOf l k)
  ∧ (∀ k, k ∈ deltaEntry_key <$> l' ↔ k ∈ deltaEntry_key <$> l ∨ k = deltaEntry_key e)
  ∧ (NoDup (deltaEntry_key <$> l) → NoDup (deltaEntry_key <$> l')).
Proof.
  revert l' previous replaced. induction l as [|x l IH]; intros l' previous replaced; simpl.
  { intros [= <- <- <-]. split_and!; try done; [set_solver|]. intros _. apply NoDup_singleton. }
  case_decide as Hx.
  - destruct (insertCollision l e) as [[l2 p2] r2] eqn:Hl. intros [= <- <- <-].
    destruct (IH _ _ _ eq_refl) as (-> & -> & Hg & Hk & Hnd).
    rewrite decide_False by done. split_and!; [done..| | |].
    + intros k. simpl. rewrite Hg. repeat case_decide; congruence.
    + intros k. rewrite !fmap_cons, !elem_of_cons, Hk. clear. tauto.
    + rewrite !fmap_cons, !NoDup_cons, Hk. intros [Hni Hn]. split; [|auto]. intros [?|?]; done.
  - intros [= <- <- <-]. rewrite decide_True by done. split_and!; try done.
    + intros k. simpl. rewrite Hx. by repeat case_decide.
    + rewrite !fmap_cons, Hx. set_solver.
    + by rewrite !fmap_cons, Hx.
Qed.

Lemma insertDeltaHashLeaf_spec leaf e leaf' previous replaced :
  leafOK leaf → leaf_hash leaf = maphash (deltaEntry_key e) →
  insertDeltaHashLeaf leaf e = (leaf', previous, replaced) →
  leafOK leaf' ∧ leaf_hash leaf' = leaf_hash leaf
  ∧ previous = entryOf (leafEntries leaf) (deltaEntry_key e) ∧ replaced = bool_decide (is_Some previous)
  ∧ ∀ k, entryOf (leafEntries leaf') k = if decide (deltaEntry_key e = k) then Some e else entryOf (leafEntries leaf) k.
Proof.
  unfold leafOK, leafEntries, insertDeltaHashLeaf. rewrite fmap_cons, NoDup_cons, Forall_cons.
  intros [[Hni Hnd] [He Hf]] Hh. case_decide as Hk.
  - intros [= <- <- <-]. simpl. rewrite decide_True by done. split_and!; try done.
    + rewrite <-Hk. by apply NoDup_cons.
    + by constructor.
    + intros k. rewrite Hk. by repeat case_decide.
  - destruct (insertCollision (leaf_collisions leaf) e) as [[l2 p2] r2] eqn:Hl. intros [= <- <- <-].
    destruct (insertCollision_spec _ _ _ _ _ Hl) as (-> & -> & Hg & Hks & Hnd'). simpl.
    rewrite decide_False by done. split_and!; try done.
    + apply NoDup_cons. split; [|auto]. rewrite Hks. naive_solver.
    + constructor; [done|]. apply Forall_forall. intros x Hx. apply (list_elem_of_fmap_2 deltaEntry_key) in Hx.
      apply Hks in Hx as [(y & -> & Hy)%list_elem_of_fmap| ->]; [|by rewrite Hh]. by eapply Forall_forall in Hf.
    + intros k. rewrite Hg. repeat case_decide; congruence.
Qed.

Lemma deleteCollision_spec (l : list (deltaEntry V)) key :
  match deleteCollision l key with
  | None => entryOf l key = None
  | Some (l', e) =>
      entryOf l key = Some e ∧ (l' = l ∨ l' ⊆ l)
      ∧ (NoDup (deltaEntry_key <$> l) →
         NoDup (deltaEntry_key <$> l') ∧ ∀ k, entryOf l' k = if decide (key = k) then None else entryOf l k)
  end.
Proof.
  induction l as [|x l IH]; [done|]. cbn [deleteCollision entryOf].
  destruct (compareBytesString_spec key (deltaEntry_key x)) as (_ & Hc & _).
  destruct (Z.eqb_spec (compareBytesString key (deltaEntry_key x)) 0) as [E|E]; cbn [negb].
  - apply Hc in E. rewrite decide_True by done. split_and!; [done|right; set_solver|].
    rewrite fmap_cons, NoDup_cons. intros [Hni Hnd]. split; [done|]. intros k. case_decide as Hk; [|by rewrite decide_False by congruence].
    apply entryOf_None. by rewrite <-Hk, E.
  - rewrite decide_False by (intros ?; apply E, Hc; done).
    destruct (deleteCollision l key) as [[l' e]|]; cbn [mbind option_bind]; [|done]. destruct IH as (He & Hsub & Hnd).
    split_and!; [done|destruct Hsub as [->|Hsub]; [by left|right; set_solver]|].
    rewrite !fmap_cons, !NoDup_cons. intros [Hni Hn]. destruct (Hnd Hn) as [Hn' Hg]. split_and!; [|done|].
    + destruct Hsub as [->|Hsub]; [done|]. intros (y & Hy & Hin)%list_elem_of_fmap. apply Hni. rewrite Hy.
      apply list_elem_of_fmap_2. by apply Hsub.
    + intros k. cbn [entryOf]. rewrite Hg. destruct (decide (key = k)) as [->|]; [|done].
      rewrite decide_False; [done|]. intros Hk. by apply E, Hc.
Qed.

Lemma deleteDeltaHashLeaf_spec leaf key answer previous removed :
  leafOK leaf → deleteDeltaHashLeaf leaf key = (answer, previous, removed) →
  previous = entryOf (leafEntries leaf) key ∧ removed = bool_decide (is_Some previous)
  ∧ (removed = true →
     match answer with
     | Some leaf' =>
         leafOK leaf' ∧ leaf_hash leaf' = leaf_hash leaf
         ∧ ∀ k, entryOf (leafEntries leaf') k = if decide (key = k) then None else entryOf (leafEntries leaf) k
     | None => ∀ k, key ≠ k → entryOf (leafEntries leaf) k = None
     end).
Proof.
  unfold leafOK, leafEntries, deleteDeltaHashLeaf. rewrite fmap_cons, NoDup_cons, Forall_cons.
  intros [[Hni Hnd] [He Hf]]. simpl entryOf.
  destruct (compareBytesString_spec key (deltaEntry_key (leaf_entry leaf))) as (_ & Hc & _).
  destruct (Z.eqb_spec (compareBytesString key (deltaEntry_key (leaf_entry leaf))) 0) as [E|E].
  - apply Hc in E. rewrite decide_True by done. destruct (leaf_collisions leaf) as [|x l] eqn:Hl; intros [= <- <- <-].
    + split_and!; [done..|]. intros _ k Hk. by rewrite decide_False by congruence.
    + split_and!; [done..|]. intros _. cbn [leaf_entry leaf_collisions leaf_hash]. split_and!; [done..|].
      intros k. destruct (decide (key = k)) as [<-|Hk]; [|by rewrite (decide_False (P := deltaEntry_key (leaf_entry leaf) = k)) by congruence].
      rewrite <-E in Hni. apply entryOf_None in Hni. exact Hni.
  - assert (deltaEntry_key (leaf_entry leaf) ≠ key) as Hne by (intros ?; apply E, Hc; done).
    rewrite decide_False by done. pose proof (deleteCollision_spec (leaf_collisions leaf) key) as Hd.
    destruct (deleteCollision (leaf_collisions leaf) key) as [[l' e]|]; intros [= <- <- <-]; [|done].
    destruct Hd as (-> & Hsub & Hn). destruct (Hn Hnd) as [Hn' Hg]. split_and!; [done..|]. intros _. cbn [leaf_entry leaf_collisions leaf_hash].
    assert (∀ y, y ∈ l' → y ∈ leaf_collisions leaf) as Hs by (destruct Hsub as [->|Hsub]; [done|exact Hsub]).
    split_and!; [| |done|].
    + apply NoDup_cons. split; [|done]. intros (y & Hy & Hin)%list_elem_of_fmap. apply Hni. rewrite Hy.
      by apply list_elem_of_fmap_2, Hs.
    + constructor; [done|]. apply Forall_forall. intros y Hy. eapply Forall_forall in Hf; [exact Hf|]. by apply Hs.
    + intros k. cbn [entryOf]. rewrite Hg. repeat case_decide; congruence.
Qed.

(** *** Nodes *)

(** Every slot of a node at [shift] continues the node's prefix: the hashes
    below it agree on the bits under [shift] and on the slot's five bits. *)
Fixpoint nodeOK (levels : nat) shift p n : Prop :=
  match levels with
  | 0%nat => False
  | S levels' =>
      let 'DeltaHashNode bitmap slots := n in
      sparse bitmap slots
      ∧ ∀ x s, slotAt bitmap slots x = Some s →
          match s with
          | SlotChild child => nodeOK levels' (shift + deltaHashBits) (p + 2 ^ shift * Z.of_nat x) child
          | SlotLeaf leaf => leafOK leaf ∧ leaf_hash leaf mod 2 ^ (shift + 5) = p + 2 ^ shift * Z.of_nat x
          end
  end.

Definition slotOK (levels : nat) shift p (x : nat) (s : deltaHashSlot V) : Prop :=
  match s with
  | SlotChild child => nodeOK levels (shift + deltaHashBits) (p + 2 ^ shift * Z.of_nat x) child
  | SlotLeaf leaf => leafOK leaf ∧ leaf_hash leaf mod 2 ^ (shift + 5) = p + 2 ^ shift * Z.of_nat x
  end.

(** What a lookup finds once it has read a slot. *)
Definition slotGet (levels : nat) (s : option (deltaHashSlot V)) key shift : option (option (deltaEntry V)) :=
  match s with
  | None => Some None
  | Some (SlotChild child) => getDeltaHashFrom levels (sameKey key) child (maphash key) (shift + deltaHashBits)
  | Some (SlotLeaf leaf) =>
      Some (if decide (leaf_hash leaf = maphash key) then entryOf (leafEntries leaf) key else None)
  end.

(** The finite function a node represents. *)
Definition holds (levels : nat) shift n f : Prop :=
  ∀ key, getDeltaHashFrom levels (sameKey key) n (maphash key) shift = Some (f key).

Lemma getDeltaHashFrom_slot levels shift bitmap slots key :
  0 ≤ shift → sparse bitmap slots →
  getDeltaHashFrom (S levels) (sameKey key) (DeltaHashNode bitmap slots) (maphash key) shift
  = slotGet levels (slotAt bitmap slots (hashIndex (maphash key) shift)) key shift.
Proof.
  intros Hs Hsp. cbn [getDeltaHashFrom]. rewrite deltaHashBit_spec by done. unfold deltaHashSlotIndex.
  rewrite rank_spec by (pose proof (hashIndex_lt (maphash key) shift); lia). rewrite land_pow2.
  destruct (Z.testbit bitmap (Z.of_nat (hashIndex (maphash key) shift))) eqn:Hb; cbn [negb].
  - destruct (slotAt_bit _ _ _ Hsp Hb) as (s & -> & ->). cbn [mbind option_bind]. destruct s as [child|leaf]; [done|].
    cbn [slotGet]. destruct (Z.eqb_spec (leaf_hash leaf) (maphash key)); cbn [negb].
    + rewrite decide_True by done. by rewrite (leafFind_spec _ key).
    + by rewrite decide_False.
  - unfold slotAt. by rewrite Hb.
Qed.

Lemma nodeOK_total levels shift p n : 0 ≤ shift → nodeOK levels shift p n → ∃ f, holds levels shift n f.
Proof.
  assert (nodeOK levels shift p n → 0 ≤ shift →
    ∀ key, is_Some (getDeltaHashFrom levels (sameKey key) n (maphash key) shift)) as Hex.
  { revert shift p n. induction levels as [|levels IH]; intros shift p [bitmap slots] Hn Hs key; [done|].
    destruct Hn as [Hsp Hn]. rewrite getDeltaHashFrom_slot by done. cbn [slotGet].
    destruct (slotAt bitmap slots _) as [[child|leaf]|] eqn:Hslot; cbn [slotGet]; [|done..].
    apply Hn in Hslot. eapply IH; [exact Hslot|]. unfold deltaHashBits. lia. }
  intros Hs Hn. exists (λ key, default None (getDeltaHashFrom levels (sameKey key) n (maphash key) shift)).
  intros key. destruct (Hex Hn Hs key) as [r ->]. done.
Qed.

(** Changing one slot of a node. *)
Lemma update_slot levels shift p bitmap slots bitmap' slots' x s' f g :
  0 ≤ shift → nodeOK (S levels) shift p (DeltaHashNode bitmap slots) →
  holds (S levels) shift (DeltaHashNode bitmap slots) f → sparse bitmap' slots' →
  (∀ y, slotAt bitmap' slots' y = if decide (x = y) then s' else slotAt bitmap slots y) →
  (∀ s, s' = Some s → slotOK levels shift p x s) →
  (∀ key, hashIndex (maphash key) shift = x → slotGet levels s' key shift = Some (g key)) →
  (∀ key, hashIndex (maphash key) shift ≠ x → g key = f key) →
  nodeOK (S levels) shift p (DeltaHashNode bitmap' slots') ∧ holds (S levels) shift (DeltaHashNode bitmap' slots') g.
Proof.
  intros Hs [Hsp Hn] Hf Hsp' Hat Hok Hget Hsame. split.
  - split; [done|]. intros y s Hy. rewrite Hat in Hy. case_decide; [subst; by apply Hok|by apply Hn].
  - intros key. specialize (Hf key). rewrite getDeltaHashFrom_slot in * by done. rewrite Hat. case_decide as Hx.
    + apply Hget. done.
    + rewrite Hsame by done. exact Hf.
Qed.

(** Replacing the slot of a set bit. *)
Lemma replace_slot levels shift p bitmap slots x s' f g :
  0 ≤ shift → nodeOK (S levels) shift p (DeltaHashNode bitmap slots) →
  holds (S levels) shift (DeltaHashNode bitmap slots) f → Z.testbit bitmap (Z.of_nat x) = true →
  slotOK levels shift p x s' →
  (∀ key, hashIndex (maphash key) shift = x → slotGet levels (Some s') key shift = Some (g key)) →
  (∀ key, hashIndex (maphash key) shift ≠ x → g key = f key) →
  nodeOK (S levels) shift p (DeltaHashNode bitmap (<[bitsBelow x bitmap:=s']> slots))
  ∧ holds (S levels) shift (DeltaHashNode bitmap (<[bitsBelow x bitmap:=s']> slots)) g.
Proof.
  intros Hs Hn Hf Hb Hok Hget Hsame. pose proof Hn as [Hsp _].
  eapply (update_slot levels shift p bitmap slots _ _ x (Some s')); try done.
  - by apply sparse_replace.
  - intros y. by apply slotAt_replace.
  - by intros ? [= <-].
Qed.

(** What a node holds of a key is what the key's slot holds. *)
Lemma holds_slot levels shift bitmap slots f x s key :
  0 ≤ shift → sparse bitmap slots → holds (S levels) shift (DeltaHashNode bitmap slots) f →
  slotAt bitmap slots x = s → hashIndex (maphash key) shift = x → slotGet levels s key shift = Some (f key).
Proof. intros Hs Hsp Hf <- <-. specialize (Hf key). by rewrite getDeltaHashFrom_slot in Hf. Qed.

(** The branches of an insertion. *)
Lemma insert_new_slot levels shift p bitmap slots e f :
  0 ≤ shift → nodeOK (S levels) shift p (DeltaHashNode bitmap slots) →
  holds (S levels) shift (DeltaHashNode bitmap slots) f →
  maphash (deltaEntry_key e) mod 2 ^ shift = p →
  let h := maphash (deltaEntry_key e) in let x := hashIndex h shift in
  Z.testbit bitmap (Z.of_nat x) = false →
  nodeOK (S levels) shift p
    (DeltaHashNode (Z.lor bitmap (2 ^ Z.of_nat x))
       (take (bitsBelow x bitmap) slots ++ SlotLeaf (newDeltaHashLeaf h e) :: drop (bitsBelow x bitmap) slots))
  ∧ holds (S levels) shift
    (DeltaHashNode (Z.lor bitmap (2 ^ Z.of_nat x))
       (take (bitsBelow x bitmap) slots ++ SlotLeaf (newDeltaHashLeaf h e) :: drop (bitsBelow x bitmap) slots))
    (λ k, if decide (deltaEntry_key e = k) then Some e else f k).
Proof.
  intros Hs Hn Hf Hp h x Hb. pose proof Hn as [Hsp _]. assert (x < 32)%nat as Hx by apply hashIndex_lt.
  assert (bitsBelow x bitmap ≤ length slots)%nat as Hle by (destruct Hsp as [_ ->]; apply bitsBelow_mono; lia).
  eapply (update_slot levels shift p bitmap slots _ _ x (Some (SlotLeaf (newDeltaHashLeaf h e)))); try done.
  - by apply sparse_insert.
  - intros y. by apply slotAt_insert.
  - intros s [= <-]. split; [apply newDeltaHashLeaf_OK|]. cbn [newDeltaHashLeaf leaf_hash].
    rewrite index_prefix by done. fold h in Hp. by rewrite Hp.
  - intros key Hk. cbn [slotGet newDeltaHashLeaf leaf_hash leafEntries leaf_entry leaf_collisions entryOf]. f_equal.
    assert (slotAt bitmap slots x = None) as Hnone by (unfold slotAt; by rewrite Hb).
    pose proof (holds_slot _ _ _ _ _ _ _ _ Hs Hsp Hf Hnone Hk) as Hold. apply (inj Some) in Hold as <-.
    destruct (decide (deltaEntry_key e = key)) as [<-|]; [by rewrite decide_True|by case_decide].
  - intros key Hk. rewrite decide_False; [done|]. by intros <-.
Qed.

(** A node of one slot. *)
Lemma sparse_empty : sparse 0 (@nil (deltaHashSlot V)).
Proof. done. Qed.

Lemma slotAt_singleton (s : deltaHashSlot V) x y :
  (x < 32)%nat → slotAt (2 ^ Z.of_nat x) [s] y = if decide (x = y) then Some s else None.
Proof.
  intros Hx. pose proof (slotAt_insert 0 [] x s y sparse_empty Hx (Z.testbit_0_l _)) as Hi.
  rewrite Z.lor_0_l, take_nil, drop_nil in Hi. simpl in Hi. rewrite Hi. case_decide; [done|]. unfold slotAt. by rewrite Z.testbit_0_l.
Qed.

Lemma sparse_singleton (s : deltaHashSlot V) x : (x < 32)%nat → sparse (2 ^ Z.of_nat x) [s].
Proof.
  intros Hx. pose proof (sparse_insert 0 [] x s 0 sparse_empty Hx (Z.testbit_0_l _) ltac:(simpl; lia)) as Hi.
  by rewrite Z.lor_0_l in Hi.
Qed.

(** A node of two slots. *)
Lemma pair_node (s t : deltaHashSlot V) x y :
  (x < y < 32)%nat →
  sparse (Z.lor (2 ^ Z.of_nat x) (2 ^ Z.of_nat y)) [s; t]
  ∧ ∀ z, slotAt (Z.lor (2 ^ Z.of_nat x) (2 ^ Z.of_nat y)) [s; t] z
         = if decide (y = z) then Some t else if decide (x = z) then Some s else None.
Proof.
  intros Hxy. assert (Z.testbit (2 ^ Z.of_nat x) (Z.of_nat y) = false) as Hb
    by (rewrite testbit_pow2, bool_decide_false by lia; done).
  assert (bitsBelow y (2 ^ Z.of_nat x) = 1%nat) as H1.
  { rewrite (bitsBelow_set y x _ 0); [|by rewrite testbit_pow2, bool_decide_true|apply Z.testbit_0_l|].
    - rewrite decide_True by lia. rewrite (bitsBelow_stop 0 y); [done|lia|]. intros. apply Z.testbit_0_l.
    - intros i Hi. by rewrite testbit_pow2, bool_decide_false, Z.testbit_0_l. }
  split.
  - apply (sparse_insert (2 ^ Z.of_nat x) [s] y t 1); [apply sparse_singleton; lia|lia|done|simpl; lia].
  - intros z. pose proof (slotAt_insert (2 ^ Z.of_nat x) [s] y t z) as Hi. rewrite H1 in Hi.
    rewrite slotAt_singleton in Hi by lia. apply Hi; [apply sparse_singleton; lia|lia|done].
Qed.

(** *** Merging two leaves *)

(** The entries of two leaves of different hashes. *)
Definition eitherLeaf (l1 l2 : deltaHashLeaf V) key : option (deltaEntry V) :=
  if decide (leaf_hash l1 = maphash key) then entryOf (leafEntries l1) key
  else if decide (leaf_hash l2 = maphash key) then entryOf (leafEntries l2) key else None.

Lemma eitherLeaf_comm l1 l2 key : leaf_hash l1 ≠ leaf_hash l2 → eitherLeaf l1 l2 key = eitherLeaf l2 l1 key.
Proof. intros Hne. unfold eitherLeaf. repeat case_decide; congruence. Qed.

Lemma pair_leaves levels shift p l1 l2 :
  0 ≤ shift → leafOK l1 → leafOK l2 →
  leaf_hash l1 mod 2 ^ shift = p → leaf_hash l2 mod 2 ^ shift = p →
  (hashIndex (leaf_hash l1) shift < hashIndex (leaf_hash l2) shift)%nat →
  nodeOK (S levels) shift p
    (DeltaHashNode (Z.lor (deltaHashBit (leaf_hash l1) shift) (deltaHashBit (leaf_hash l2) shift)) [SlotLeaf l1; SlotLeaf l2])
  ∧ holds (S levels) shift
    (DeltaHashNode (Z.lor (deltaHashBit (leaf_hash l1) shift) (deltaHashBit (leaf_hash l2) shift)) [SlotLeaf l1; SlotLeaf l2])
    (eitherLeaf l1 l2).
Proof.
  intros Hs Ho1 Ho2 Hp1 Hp2 Hlt. rewrite !deltaHashBit_spec by done.
  pose proof (hashIndex_lt (leaf_hash l2) shift).
  destruct (pair_node (SlotLeaf l1) (SlotLeaf l2) (hashIndex (leaf_hash l1) shift) (hashIndex (leaf_hash l2) shift))
    as [Hsp Hat]; [lia|]. split.
  - split; [done|]. intros x s. rewrite Hat. repeat case_decide; intros [= <-]; subst x;
      (split; [done|]); rewrite index_prefix by done; congruence.
  - intros key. rewrite getDeltaHashFrom_slot by done. rewrite Hat. unfold eitherLeaf.
    case_decide as H2; [|case_decide as H1]; cbn [slotGet]; do 2 f_equal.
    + rewrite (decide_False (P := leaf_hash l1 = maphash key)) by (intros E; rewrite E in Hlt; lia). done.
    + rewrite (decide_False (P := leaf_hash l2 = maphash key)) by (intros E; by rewrite E in H2). done.
    + rewrite !decide_False; [done|intros E; by rewrite E in H2|intros E; by rewrite E in H1].
Qed.

Lemma mergeDeltaHashLeaves_spec levels shift p l1 l2 :
  0 ≤ shift → shift + 5 * Z.of_nat levels = 65 → leafOK l1 → leafOK l2 →
  leaf_hash l1 ≠ leaf_hash l2 → leaf_hash l1 mod 2 ^ shift = p → leaf_hash l2 mod 2 ^ shift = p →
  ∃ c, mergeDeltaHashLeaves levels l1 l2 shift = Some c ∧ nodeOK levels shift p c ∧ holds levels shift c (eitherLeaf l1 l2).
Proof.
  revert shift p. induction levels as [|levels IH]; intros shift p Hs Hlv Ho1 Ho2 Hne Hp1 Hp2.
  { destruct Hne. assert (∀ l, leafOK l → leaf_hash l mod 2 ^ shift = leaf_hash l) as Hm.
    { intros l [_ [Hh _]%Forall_cons]. apply Z.mod_small. rewrite <-Hh. pose proof (maphash_range (deltaEntry_key (leaf_entry l))).
      assert (2 ^ 64 ≤ 2 ^ shift) by (apply Z.pow_le_mono_r; lia). lia. }
    by rewrite <-(Hm l1), <-(Hm l2), Hp1, Hp2. }
  cbn [mergeDeltaHashLeaves]. pose proof (hashIndex_lt (leaf_hash l1) shift) as Hi1. pose proof (hashIndex_lt (leaf_hash l2) shift) as Hi2.
  rewrite !deltaHashBit_spec by done.
  destruct (Z.eqb_spec (2 ^ Z.of_nat (hashIndex (leaf_hash l1) shift)) (2 ^ Z.of_nat (hashIndex (leaf_hash l2) shift))) as [E|E].
  - apply Z.pow_inj_r in E; [|lia..]. apply Nat2Z.inj in E.
    set (x := hashIndex (leaf_hash l1) shift) in *.
    destruct (IH (shift + deltaHashBits) (p + 2 ^ shift * Z.of_nat x)) as (c & -> & Hc & Hg); try done;
      [unfold deltaHashBits; lia..| | |].
    { unfold deltaHashBits. rewrite index_prefix by done. by rewrite Hp1. }
    { unfold deltaHashBits. rewrite index_prefix by done. by rewrite Hp2, <-E. }
    cbn [mbind option_bind]. eexists. split; [done|]. split.
    + split; [by apply sparse_singleton|]. intros y s. rewrite slotAt_singleton by done.
      case_decide; intros [= <-]. by subst y.
    + intros key. rewrite getDeltaHashFrom_slot by (done || by apply sparse_singleton). rewrite slotAt_singleton by done.
      case_decide as Hx; [exact (Hg key)|]. cbn [slotGet]. unfold eitherLeaf.
      rewrite !decide_False; [done|intros E'; by rewrite E' in E|intros E'; subst x; by rewrite E' in Hx].
  - destruct (Z.ltb_spec (2 ^ Z.of_nat (hashIndex (leaf_hash l1) shift)) (2 ^ Z.of_nat (hashIndex (leaf_hash l2) shift))) as [Hlt|Hge].
    + apply Z.pow_lt_mono_r_iff in Hlt; [|lia..]. eexists. split; [done|].
      rewrite <-!deltaHashBit_spec by done. apply pair_leaves; done || lia.
    + assert (hashIndex (leaf_hash l2) shift < hashIndex (leaf_hash l1) shift)%nat as Hlt.
      { destruct (Nat.lt_total (hashIndex (leaf_hash l2) shift) (hashIndex (leaf_hash l1) shift)) as [?|[E'|Hl]]; [done|by rewrite E' in E|].
        assert (2 ^ Z.of_nat (hashIndex (leaf_hash l1) shift) < 2 ^ Z.of_nat (hashIndex (leaf_hash l2) shift))
          by (apply Z.pow_lt_mono_r; lia). lia. }
      eexists. split; [done|]. rewrite Z.lor_comm. rewrite <-!deltaHashBit_spec by done.
      destruct (pair_leaves levels shift p l2 l1) as [Hok Hh]; try done. split; [done|].
      intros key. rewrite eitherLeaf_comm by done. apply Hh.
Qed.

(** *** Insertion *)

Lemma insertDeltaHashAt_spec levels shift p n e f :
  0 ≤ shift → shift + 5 * Z.of_nat levels = 65 → nodeOK levels shift p n → holds levels shift n f →
  maphash (deltaEntry_key e) mod 2 ^ shift = p →
  ∃ n', insertDeltaHashAt levels (Some n) (maphash (deltaEntry_key e)) e shift
        = Some (n', f (deltaEntry_key e), bool_decide (is_Some (f (deltaEntry_key e))))
    ∧ nodeOK levels shift p n'
    ∧ holds levels shift n' (λ k, if decide (deltaEntry_key e = k) then Some e else f k).
Proof.
  revert shift p n f. induction levels as [|levels IH]; intros shift p [bitmap slots] f Hs Hlv Hn Hf Hp; [done|].
  cbn [insertDeltaHashAt]. pose proof Hn as [Hsp Hslots]. set (h := maphash (deltaEntry_key e)) in *.
  rewrite deltaHashBit_spec by done. set (x := hashIndex h shift) in *.
  assert (x < 32)%nat as Hx by apply hashIndex_lt. unfold deltaHashSlotIndex. rewrite rank_spec by lia. rewrite land_pow2.
  destruct (Z.testbit bitmap (Z.of_nat x)) eqn:Hb; cbn [negb].
  2:{ assert (slotAt bitmap slots x = None) as Hnone by (unfold slotAt; by rewrite Hb).
      pose proof (holds_slot _ _ _ _ _ _ _ (deltaEntry_key e) Hs Hsp Hf Hnone eq_refl) as Hfe. apply (inj Some) in Hfe. rewrite <-Hfe.
      rewrite decide_True by (destruct Hsp as [_ ->]; apply bitsBelow_mono; lia).
      eexists. split; [done|]. by apply insert_new_slot. }
  destruct (slotAt_bit _ _ _ Hsp Hb) as (s & -> & Hat). cbn [mbind option_bind].
  pose proof (Hslots _ _ Hat) as Hslot. pose proof (λ k, holds_slot _ _ _ _ _ _ _ k Hs Hsp Hf Hat) as Hold.
  pose proof (Hold (deltaEntry_key e) eq_refl) as Hfe.
  assert (∀ key, hashIndex (maphash key) shift ≠ x →
    (if decide (deltaEntry_key e = key) then Some e else f key) = f key) as Hother.
  { intros key Hk. rewrite decide_False; [done|]. by intros <-. }
  destruct s as [child|leaf].
  - destruct (nodeOK_total levels (shift + deltaHashBits) _ child ltac:(unfold deltaHashBits; lia) Hslot) as [fc Hfc].
    destruct (IH (shift + deltaHashBits) _ child fc ltac:(unfold deltaHashBits; lia) ltac:(unfold deltaHashBits; lia) Hslot Hfc) as (child' & Hins & Hok & Hh).
    { unfold deltaHashBits. rewrite index_prefix by done. fold h. by rewrite Hp. }
    fold h in Hins. rewrite Hins. cbn [mbind option_bind].
    assert (∀ key, hashIndex (maphash key) shift = x → fc key = f key) as Hfcf.
    { intros key Hk. specialize (Hold key Hk). cbn [slotGet] in Hold. rewrite Hfc in Hold. by injection Hold. }
    rewrite (Hfcf (deltaEntry_key e)) by done. eexists. split; [done|]. apply (replace_slot levels shift p bitmap slots x _ f); try done.
    intros key Hk. cbn [slotGet]. rewrite Hh. by rewrite Hfcf.
  - destruct Hslot as [Hlok Hlp]. cbn [slotGet] in Hfe. destruct (Z.eqb_spec (leaf_hash leaf) h) as [Hlh|Hlh].
    + destruct (insertDeltaHashLeaf leaf e) as [[leaf' prev] rep] eqn:Hins.
      destruct (insertDeltaHashLeaf_spec _ _ _ _ _ Hlok Hlh Hins) as (Hok' & Hh' & -> & -> & Hg).
      rewrite decide_True in Hfe by done. apply (inj Some) in Hfe. rewrite Hfe. eexists. split; [done|].
      apply (replace_slot levels shift p bitmap slots x _ f); try done; [split; [done|by rewrite Hh']|]. intros key Hk. cbn [slotGet]. rewrite Hg, Hh'. f_equal.
      specialize (Hold key Hk). cbn [slotGet] in Hold. apply (inj Some) in Hold as <-.
      destruct (decide (deltaEntry_key e = key)) as [<-|]; [by rewrite decide_True|done].
    + rewrite decide_False in Hfe by done. apply (inj Some) in Hfe. rewrite <-Hfe.
      destruct (mergeDeltaHashLeaves_spec levels (shift + deltaHashBits) (p + 2 ^ shift * Z.of_nat x) leaf (newDeltaHashLeaf h e))
        as (c & -> & Hc & Hg); [unfold deltaHashBits; lia|unfold deltaHashBits; lia|done|apply newDeltaHashLeaf_OK|done|done| |].
      { unfold deltaHashBits. cbn [newDeltaHashLeaf leaf_hash]. rewrite index_prefix by done. by rewrite Hp. }
      cbn [mbind option_bind]. eexists. split; [done|]. apply (replace_slot levels shift p bitmap slots x _ f); try done. intros key Hk. cbn [slotGet]. rewrite Hg. f_equal.
      specialize (Hold key Hk). cbn [slotGet] in Hold. apply (inj Some) in Hold as <-. unfold eitherLeaf.
      cbn [newDeltaHashLeaf leaf_hash leafEntries leaf_entry leaf_collisions entryOf].
      destruct (decide (deltaEntry_key e = key)) as [<-|Hk'].
      * rewrite decide_False by done. by rewrite decide_True.
      * repeat case_decide; done.
Qed.

(** *** Deletion *)

Lemma bitsBelow_find i m a :
  (i < bitsBelow m a)%nat → ∃ x, (x < m)%nat ∧ Z.testbit a (Z.of_nat x) = true ∧ bitsBelow x a = i.
Proof.
  induction m as [|m IH]; simpl; [lia|]. intros Hi. destruct (decide (i < bitsBelow m a)%nat) as [Hlt|Hge].
  - destruct (IH Hlt) as (x & ? & ?). exists x. split; [lia|done].
  - exists m. destruct (Z.testbit a (Z.of_nat m)) eqn:Hb; [|lia]. split_and!; [lia|done|lia].
Qed.

Lemma slotAt_lt bitmap slots x s : sparse bitmap slots → slotAt bitmap slots x = Some s → (x < 32)%nat.
Proof.
  intros [[_ Hb]%bitmap_range _] Hs. destruct (decide (x < 32)%nat) as [|Hge]; [done|].
  unfold slotAt in Hs. by rewrite Hb in Hs by lia.
Qed.

Lemma single_slot bitmap (s : deltaHashSlot V) :
  sparse bitmap [s] → ∃ x, (x < 32)%nat ∧ ∀ y, slotAt bitmap [s] y = if decide (x = y) then Some s else None.
Proof.
  intros [Hb Hl]. unfold OnesCount32 in Hl. simpl length in Hl.
  destruct (bitsBelow_find 0 32 bitmap) as (x & Hx & Ht & H0); [lia|]. exists x. split; [done|].
  intros y. unfold slotAt. case_decide as E; [subst y; by rewrite Ht, H0|].
  destruct (Z.testbit bitmap (Z.of_nat y)) eqn:Hy; [|done].
  destruct (bitsBelow y bitmap) as [|j] eqn:Hj; [|done]. destruct E. apply (slotAt_inj bitmap); congruence.
Qed.

Lemma holds_ext levels shift n f g : (∀ k, f k = g k) → holds levels shift n f → holds levels shift n g.
Proof. intros Hfg Hf key. by rewrite Hf, Hfg. Qed.

Lemma prefix_mod hash shift p x :
  0 ≤ shift → 0 ≤ p < 2 ^ shift → hash mod 2 ^ (shift + 5) = p + 2 ^ shift * Z.of_nat x → hash mod 2 ^ shift = p.
Proof.
  intros Hs Hp Hh. rewrite index_prefix in Hh by done. apply (f_equal (λ z, z mod 2 ^ shift)) in Hh.
  rewrite !(Z.mul_comm (2 ^ shift)), !Z.mod_add, Z.mod_mod in Hh by lia. by rewrite (Z.mod_small p) in Hh.
Qed.

Lemma prefix_range shift p x :
  0 ≤ shift → 0 ≤ p < 2 ^ shift → (x < 32)%nat → 0 ≤ p + 2 ^ shift * Z.of_nat x < 2 ^ (shift + deltaHashBits).
Proof. intros Hs Hp Hx. unfold deltaHashBits. rewrite Z.pow_add_r by lia. change (2 ^ 5) with 32. nia. Qed.

(** A chain of single slots down to a leaf holds what the leaf holds. *)
Lemma singleDeltaHashLeaf_spec levels shift p c leaf :
  0 ≤ shift → 0 ≤ p < 2 ^ shift → nodeOK levels shift p c → singleDeltaHashLeaf c = Some leaf →
  leafOK leaf ∧ leaf_hash leaf mod 2 ^ shift = p
  ∧ holds levels shift c
      (λ k, if decide (leaf_hash leaf = maphash k) then entryOf (leafEntries leaf) k else None).
Proof.
  revert shift p c. induction levels as [|levels IH]; intros shift p [bitmap slots] Hs Hp Hn Hsing; [done|].
  destruct slots as [|s [|? ?]]; [done| |by destruct s].
  pose proof Hn as [Hsp Hslots]. destruct (single_slot _ _ Hsp) as (x & Hx & Hat).
  pose proof (Hslots x s ltac:(rewrite Hat, decide_True by done; done)) as Hslot.
  assert (∀ f, (leafOK leaf ∧ leaf_hash leaf mod 2 ^ (shift + 5) = p + 2 ^ shift * Z.of_nat x) →
    (∀ key, slotGet levels (Some s) key shift = Some (if decide (leaf_hash leaf = maphash key) then f key else None)) →
    leafOK leaf ∧ leaf_hash leaf mod 2 ^ shift = p
    ∧ holds (S levels) shift (DeltaHashNode bitmap [s])
        (λ k, if decide (leaf_hash leaf = maphash k) then f k else None)) as Hgo.
  { intros f [Hok Hlp] Hget. assert (leaf_hash leaf mod 2 ^ shift = p) as Hlp' by by eapply prefix_mod.
    split_and!; [done..|]. intros key. rewrite getDeltaHashFrom_slot by done. rewrite Hat. case_decide as Hi; [by rewrite Hget|].
    rewrite decide_False; [done|]. intros E. apply Hi. rewrite <-E. symmetry. by eapply index_of_prefix. }
  destruct s as [child|leaf'].
  - destruct (IH (shift + deltaHashBits) (p + 2 ^ shift * Z.of_nat x) child) as (Hok & Hlp & Hh); try done;
      [unfold deltaHashBits; lia|by apply prefix_range..|]. apply Hgo; [done|]. intros key. apply Hh.
  - injection Hsing as ->. by apply Hgo.
Qed.

Lemma remove_slot levels shift p bitmap slots x f g :
  0 ≤ shift → nodeOK (S levels) shift p (DeltaHashNode bitmap slots) →
  holds (S levels) shift (DeltaHashNode bitmap slots) f → (x < 32)%nat → Z.testbit bitmap (Z.of_nat x) = true →
  (∀ key, hashIndex (maphash key) shift = x → g key = None) →
  (∀ key, hashIndex (maphash key) shift ≠ x → g key = f key) →
  match removeDeltaHashSlot bitmap slots (2 ^ Z.of_nat x) (bitsBelow x bitmap) with
  | Some n' => nodeOK (S levels) shift p n' ∧ holds (S levels) shift n' g
  | None => ∀ key, g key = None
  end.
Proof.
  intros Hs Hn Hf Hx Hb Hin Hout. pose proof Hn as [Hsp _]. unfold removeDeltaHashSlot. case_decide as Hl.
  - intros key. destruct (decide (hashIndex (maphash key) shift = x)) as [E|E]; [by apply Hin|]. rewrite Hout by done.
    specialize (Hf key). rewrite getDeltaHashFrom_slot in Hf by done.
    destruct slots as [|s [|? ?]]; [done| |done]. destruct (single_slot _ _ Hsp) as (y & _ & Hat).
    destruct (slotAt_bit _ _ _ Hsp Hb) as (s' & _ & Hx'). rewrite Hat in Hx'. case_decide as Hy; [|done].
    rewrite Hat, decide_False in Hf by congruence. by apply (inj Some) in Hf.
  - eapply (update_slot levels shift p bitmap slots _ _ x None); try done.
    + by apply sparse_remove.
    + intros y. by apply slotAt_remove.
    + intros key Hk. by rewrite Hin.
Qed.

Lemma deleteDeltaHashAt_spec levels shift p n key f :
  0 ≤ shift → 0 ≤ p < 2 ^ shift → nodeOK levels shift p n → holds levels shift n f →
  ∃ r, deleteDeltaHashAt levels (Some n) key (maphash key) shift = Some (r, f key, bool_decide (is_Some (f key)))
    ∧ match r with
      | Some n' => nodeOK levels shift p n' ∧ holds levels shift n' (λ k, if decide (key = k) then None else f k)
      | None => ∀ k, (if decide (key = k) then None else f k) = None
      end.
Proof.
  revert shift p n f. induction levels as [|levels IH]; intros shift p [bitmap slots] f Hs Hp Hn Hf; [done|].
  cbn [deleteDeltaHashAt]. pose proof Hn as [Hsp Hslots]. rewrite deltaHashBit_spec by done.
  set (x := hashIndex (maphash key) shift). assert (x < 32)%nat as Hx by apply hashIndex_lt.
  unfold deltaHashSlotIndex. rewrite rank_spec by lia. rewrite land_pow2.
  assert (∀ k, hashIndex (maphash k) shift ≠ x → (if decide (key = k) then None else f k) = f k) as Hother.
  { intros k Hk. rewrite decide_False; [done|]. intros <-. by destruct Hk. }
  assert (f key = None →
    ∃ r, Some (Some (DeltaHashNode bitmap slots), None, false) = Some (r, f key, bool_decide (is_Some (f key)))
      ∧ match r with
        | Some n' => nodeOK (S levels) shift p n' ∧ holds (S levels) shift n' (λ k, if decide (key = k) then None else f k)
        | None => ∀ k, (if decide (key = k) then None else f k) = None
        end) as Habsent.
  { intros Hnone. rewrite Hnone. eexists. split; [done|]. split; [done|]. eapply holds_ext; [|exact Hf].
    intros k. by case_decide; subst. }
  destruct (Z.testbit bitmap (Z.of_nat x)) eqn:Hb; cbn [negb].
  2:{ apply Habsent. assert (slotAt bitmap slots x = None) as Hnone by (unfold slotAt; by rewrite Hb).
      pose proof (holds_slot _ _ _ _ _ _ _ key Hs Hsp Hf Hnone eq_refl) as Hfe. by apply (inj Some) in Hfe. }
  destruct (slotAt_bit _ _ _ Hsp Hb) as (s & -> & Hat). cbn [mbind option_bind].
  pose proof (Hslots _ _ Hat) as Hslot. pose proof (λ k, holds_slot _ _ _ _ _ _ _ k Hs Hsp Hf Hat) as Hold.
  pose proof (Hold key eq_refl) as Hkey.
  destruct s as [child|leaf].
  - destruct (nodeOK_total levels (shift + deltaHashBits) _ child ltac:(unfold deltaHashBits; lia) Hslot) as [fc Hfc].
    destruct (IH (shift + deltaHashBits) _ child fc ltac:(unfold deltaHashBits; lia) (prefix_range _ _ _ Hs Hp Hx) Hslot Hfc)
      as (child' & -> & Hchild'). cbn [mbind option_bind].
    assert (∀ k, hashIndex (maphash k) shift = x → fc k = f k) as Hfcf.
    { intros k Hk. specialize (Hold k Hk). cbn [slotGet] in Hold. rewrite Hfc in Hold. by apply (inj Some) in Hold. }
    rewrite (Hfcf key) by done. destruct (f key) as [e|] eqn:Hfk; [|by apply Habsent]. cbn.
    destruct child' as [child'|].
    2:{ eexists. split; [done|]. apply (remove_slot levels shift p bitmap slots x f); try done.
        intros k Hk. rewrite <-Hfcf by done. apply Hchild'. }
    destruct Hchild' as [Hok Hh]. eexists. split; [done|]. cbn beta iota.
    destruct (singleDeltaHashLeaf child') as [leaf|] eqn:Hsing.
    + destruct (singleDeltaHashLeaf_spec levels (shift + deltaHashBits) _ child' leaf ltac:(unfold deltaHashBits; lia) (prefix_range _ _ _ Hs Hp Hx) Hok Hsing)
        as (Hlok & Hlp & Hlh). apply (replace_slot levels shift p bitmap slots x _ f); try done. intros k Hk. cbn [slotGet]. rewrite <-(Hfcf k), <-Hh by done. by rewrite Hlh.
    + apply (replace_slot levels shift p bitmap slots x _ f); try done. intros k Hk. cbn [slotGet]. by rewrite Hh, Hfcf.
  - destruct Hslot as [Hlok Hlp]. cbn [slotGet] in Hkey. destruct (Z.eqb_spec (leaf_hash leaf) (maphash key)) as [Hlh|Hlh]; cbn [negb].
    2:{ apply Habsent. rewrite decide_False in Hkey by done. by apply (inj Some) in Hkey. }
    rewrite decide_True in Hkey by done. apply (inj Some) in Hkey.
    destruct (deleteDeltaHashLeaf leaf key) as [[leaf' prev] removed] eqn:Hdel.
    destruct (deleteDeltaHashLeaf_spec _ _ _ _ _ Hlok Hdel) as (-> & -> & Hleaf'). rewrite Hkey in *.
    destruct (f key) as [e|] eqn:Hfk; [|by apply Habsent]. cbn. specialize (Hleaf' eq_refl).
    assert (∀ k, hashIndex (maphash k) shift = x →
      f k = if decide (leaf_hash leaf = maphash k) then entryOf (leafEntries leaf) k else None) as Hfl.
    { intros k Hk. specialize (Hold k Hk). cbn [slotGet] in Hold. by apply (inj Some) in Hold. }
    destruct leaf' as [leaf'|].
    + destruct Hleaf' as (Hok' & Hh' & Hg). eexists. split; [done|]. apply (replace_slot levels shift p bitmap slots x _ f); try done; [split; [done|by rewrite Hh']|].
      intros k Hk. cbn [slotGet]. rewrite Hg, Hh', Hfl by done. f_equal. by repeat case_decide.
    + eexists. split; [done|]. apply (remove_slot levels shift p bitmap slots x f); try done.
      intros k Hk. case_decide as E; [done|]. rewrite Hfl by done. case_decide; [by apply Hleaf'|done].
Qed.

(** ** The index as a whole *)

(** The index is well formed and represents [f]. *)
Definition indexes (node : option (deltaHashNode V)) f : Prop :=
  match node with
  | None => ∀ k, f k = None
  | Some n => nodeOK hashLevels 0 0 n ∧ holds hashLevels 0 n f
  end.

Lemma getDeltaHashFrom_ext levels same same' n hash shift :
  (∀ k, same k = same' k) → getDeltaHashFrom levels same n hash shift = getDeltaHashFrom levels same' n hash shift.
Proof.
  intros Hs. revert n shift. induction levels as [|levels IH]; intros [bitmap slots] shift; [done|].
  cbn [getDeltaHashFrom]. case_match; [done|]. destruct (slots !! _) as [[child|leaf]|]; cbn [mbind option_bind]; [apply IH| |done].
  case_match; [done|]. f_equal. unfold leafFind. rewrite Hs. case_match; [done|].
  induction (leaf_collisions leaf) as [|x l IHl]; simpl; [done|]. rewrite Hs. by case_match.
Qed.

Lemma getDeltaHash_indexes node f key : indexes node f → getDeltaHash node key (maphash key) = Some (f key).
Proof.
  destruct node as [n|]; cbn [getDeltaHash indexes]; [|by intros ->]. intros [_ Hh]. rewrite <-Hh. apply getDeltaHashFrom_ext.
  intros k. unfold sameKey. destruct (compareBytesString_spec key k) as (_ & Hc & _).
  case_bool_decide; [apply Z.eqb_eq|apply Z.eqb_neq]; rewrite Hc; congruence.
Qed.

Lemma getDeltaHashString_indexes node f key : indexes node f → getDeltaHashString node key (maphash key) = Some (f key).
Proof. destruct node as [n|]; cbn [getDeltaHashString indexes]; [|by intros ->]. intros [_ Hh]. exact (Hh key). Qed.

Lemma insertDeltaHash_indexes node f e :
  indexes node f →
  ∃ n', insertDeltaHash node (maphash (deltaEntry_key e)) e
        = Some (n', f (deltaEntry_key e), bool_decide (is_Some (f (deltaEntry_key e))))
    ∧ indexes (Some n') (λ k, if decide (deltaEntry_key e = k) then Some e else f k).
Proof.
  destruct node as [n|]; unfold insertDeltaHash.
  - intros [Hn Hf]. destruct (insertDeltaHashAt_spec hashLevels 0 0 n e f) as (n' & -> & Hn' & Hf'); try done.
    { by rewrite Z.mod_1_r. } by exists n'.
  - intros Hnone. cbn [indexes] in Hnone. rewrite Hnone. cbn [hashLevels insertDeltaHashAt]. rewrite deltaHashBit_spec by done.
    set (x := hashIndex _ 0). assert (x < 32)%nat as Hx by apply hashIndex_lt. eexists. split; [done|]. split.
    + split; [by apply sparse_singleton|]. intros y s. rewrite slotAt_singleton by done. case_decide as Hy; intros [= <-].
      split; [apply newDeltaHashLeaf_OK|]. cbn [newDeltaHashLeaf leaf_hash]. rewrite index_prefix by done. fold x.
      by rewrite Z.mod_1_r, Hy.
    + intros key. unfold hashLevels. rewrite getDeltaHashFrom_slot by (done || by apply sparse_singleton). rewrite slotAt_singleton by done.
      rewrite Hnone. case_decide as Hi; cbn [slotGet newDeltaHashLeaf leaf_hash leafEntries leaf_entry leaf_collisions entryOf].
      * destruct (decide (deltaEntry_key e = key)) as [<-|]; [by rewrite decide_True|by case_decide].
      * rewrite decide_False; [done|]. intros <-. done.
Qed.

Lemma deleteDeltaHash_indexes node f key :
  indexes node f →
  ∃ node', deleteDeltaHash node key (maphash key) = Some (node', f key, bool_decide (is_Some (f key)))
    ∧ indexes node' (λ k, if decide (key = k) then None else f k).
Proof.
  destruct node as [n|]; unfold deleteDeltaHash.
  - intros [Hn Hf]. destruct (deleteDeltaHashAt_spec hashLevels 0 0 n key f) as (node' & -> & Hr); try done. by exists node'.
  - intros Hnone. cbn [indexes] in Hnone. rewrite Hnone. eexists. split; [done|]. intros k. by case_decide.
Qed.
End trie.
