(* ===== verification/PersistentTree.v ===== *)
(** * The persistent tree

    Models [src/pkg/persistenttree/tree.go]: an immutable ordered map made of a
    frozen, sorted base with a hash table over it and a delta that is indexed
    twice, by key order ([DeltaTree]) and by hash ([DeltaHash]). A transaction
    updates the delta and commits a snapshot.

    A result [(V, bool)] is a pair whose value is the zero value when nothing
    was found. Loops take their number of iterations as fuel and answer [None]
    when it runs out, when a slice is indexed out of range, or when the code
    panics because its two indexes disagree; [PersistentTreeProps] shows none of
    them happens. The visitors of the walks thread a state of their own. Nodes
    are immutable, so the only thing pointer equality tells is that two nodes
    are the same ([Identity]). *)

From Stdlib Require Import ZArith Lia Ascii.
From stdpp Require Import base list numbers strings option.
From S2P Require Import Prelude KeyOrder DeltaTree DeltaHash.
Open Scope Z_scope.

Definition frozenLookupThreshold : nat := 32.

Record frozenEntry (V : Type) := FrozenEntry { frozenEntry_key : string; frozenEntry_value : V }.
Arguments FrozenEntry {V} _ _.
Arguments frozenEntry_key {V} _.
Arguments frozenEntry_value {V} _.

(** Every table is built under the package's seed, so the seed is left out. *)
Record frozenLookup := FrozenLookup { frozenLookup_slots : list Z }.

Record TreeNode (V : Type) := MkNode {
  Node_base : list (frozenEntry V);
  Node_lookup : frozenLookup;
  Node_delta : deltaNode V;
  Node_deltaHash : option (deltaHashNode V);
  Node_deltaSize : Z;
  Node_size : Z;
}.
Arguments MkNode {V} _ _ _ _ _ _.
Arguments Node_base {V} _.
Arguments Node_lookup {V} _.
Arguments Node_delta {V} _.
Arguments Node_deltaHash {V} _.
Arguments Node_deltaSize {V} _.
Arguments Node_size {V} _.

Record Tree (V : Type) := MkTree { Tree_root : option (TreeNode V) }.
Arguments MkTree {V} _.
Arguments Tree_root {V} _.

Record Txn (V : Type) := MkTxn {
  Txn_base : list (frozenEntry V);
  Txn_lookup : frozenLookup;
  Txn_delta : deltaNode V;
  Txn_deltaHash : option (deltaHashNode V);
  Txn_deltaSize : Z;
  Txn_size : Z;
  Txn_original : option (Tree V);
  Txn_snapshot : option (TreeNode V);
}.
Arguments MkTxn {V} _ _ _ _ _ _ _ _.
Arguments Txn_base {V} _.
Arguments Txn_lookup {V} _.
Arguments Txn_delta {V} _.
Arguments Txn_deltaHash {V} _.
Arguments Txn_deltaSize {V} _.
Arguments Txn_size {V} _.
Arguments Txn_original {V} _.
Arguments Txn_snapshot {V} _.

Record TreeEntry (V : Type) := MkEntry { Entry_Key : string; Entry_Value : V }.
Arguments MkEntry {V} _ _.
Arguments Entry_Key {V} _.
Arguments Entry_Value {V} _.

(** [==] on pointers to delta nodes: never true of different nodes. *)
Class Identity (V : Type) := {
  sameDelta : deltaNode V → deltaNode V → bool;
  sameDelta_eq a b : sameDelta a b = true → a = b;
  sameDeltaHash : option (deltaHashNode V) → option (deltaHashNode V) → bool;
  sameDeltaHash_eq a b : sameDeltaHash a b = true → a = b;
}.

Section tree.
Context {V : Type} (zero : V) `{MapHash} `{Identity V}.
Implicit Types (base : list (frozenEntry V)) (key : string) (hash : Z).

(** ** The frozen base *)

(** [sort.Search] over [left, right), as the loops write it. *)
Fixpoint lowerBoundLoop (fuel : nat) (less : string → bool) base (left right : nat) : option nat :=
  if (left <? right)%nat then
    match fuel with
    | 0%nat => None
    | S fuel' =>
        let middle := Nat.div2 (left + right) in
        e ← base !! middle;
        if less (frozenEntry_key e) then lowerBoundLoop fuel' less base (middle + 1)%nat right
        else lowerBoundLoop fuel' less base left middle
    end
  else Some left.

Definition lowerBoundBytes base key : option nat :=
  lowerBoundLoop (length base) (λ k, compareStringBytes k key <? 0) base 0 (length base).

Definition lowerBoundString base key : option nat :=
  lowerBoundLoop (length base) (λ k, bool_decide (klt k key)) base 0 (length base).

Fixpoint growCapacity (fuel : nat) (target capacity : Z) : option Z :=
  if capacity <? target then
    match fuel with 0%nat => None | S fuel' => growCapacity fuel' target (capacity * 2) end
  else Some capacity.

Fixpoint probeFree (fuel : nat) (slots : list Z) (mask slot : Z) : option Z :=
  match fuel with
  | 0%nat => None
  | S fuel' =>
      stored ← slots !! Z.to_nat slot;
      if negb (stored =? 0) then probeFree fuel' slots mask (Z.land (slot + 1) mask) else Some slot
  end.

Fixpoint fillSlots (index : nat) base (slots : list Z) (mask : Z) : option (list Z) :=
  match base with
  | [] => Some slots
  | e :: rest =>
      slot ← probeFree (length slots) slots mask (Z.land (maphash (frozenEntry_key e)) mask);
      fillSlots (S index) rest (<[Z.to_nat slot := (Z.of_nat index + 1) mod 2 ^ 32]> slots) mask
  end.

Definition buildFrozenLookup base : option frozenLookup :=
  if decide (length base < frozenLookupThreshold)%nat then Some (FrozenLookup [])
  else
    let target := Z.of_nat (length base) * 4 / 3 in
    capacity ← growCapacity (Z.to_nat target) target 1;
    slots ← fillSlots 0 base (replicate (Z.to_nat capacity) 0) (capacity - 1);
    Some (FrozenLookup slots).

Fixpoint probeKey (fuel : nat) base (slots : list Z) key (mask slot : Z) : option (nat * bool) :=
  match fuel with
  | 0%nat => None
  | S fuel' =>
      stored ← slots !! Z.to_nat slot;
      if stored =? 0 then Some (0%nat, false)
      else
        let index := Z.to_nat (stored - 1) in
        e ← base !! index;
        if compareBytesString key (frozenEntry_key e) =? 0 then Some (index, true)
        else probeKey fuel' base slots key mask (Z.land (slot + 1) mask)
  end.

Definition getFrozenLookupHashed (l : frozenLookup) base key hash : option (nat * bool) :=
  let slots := frozenLookup_slots l in
  let mask := Z.of_nat (length slots) - 1 in
  probeKey (length slots) base slots key mask (Z.land hash mask).

Definition getFrozenLookup (l : frozenLookup) base key : option (nat * bool) :=
  getFrozenLookupHashed l base key (maphash key).

Definition getBaseIndexHashed base (lookup : frozenLookup) key hash : option (nat * bool) :=
  if negb (length (frozenLookup_slots lookup) =? 0)%nat then getFrozenLookupHashed lookup base key hash
  else
    index ← lowerBoundBytes base key;
    if (index <? length base)%nat then
      e ← base !! index;
      Some (index, compareBytesString key (frozenEntry_key e) =? 0)
    else Some (index, false).

Definition getBaseHashed base lookup key hash : option (V * bool) :=
  '(index, exists_) ← getBaseIndexHashed base lookup key hash;
  if exists_ : bool then e ← base !! index; Some (frozenEntry_value e, true) else Some (zero, false).

Definition getBase base lookup key : option (V * bool) :=
  let hash := if negb (length (frozenLookup_slots lookup) =? 0)%nat then maphash key else 0 in
  getBaseHashed base lookup key hash.

Definition get base lookup (deltaHash : option (deltaHashNode V)) key : option (V * bool) :=
  match deltaHash with
  | None => getBase base lookup key
  | Some _ =>
      let hash := maphash key in
      found ← getDeltaHash deltaHash key hash;
      match found with
      | Some e => Some (deltaEntry_value e, deltaEntry_present e)
      | None => getBaseHashed base lookup key hash
      end
  end.

(** ** Construction *)

Definition New : Tree V := MkTree None.

Definition NewEntry key (value : V) : TreeEntry V := MkEntry key value.

(** No entry is followed by one that does not come after it. *)
Fixpoint strictlyOrdered (entries : list (TreeEntry V)) : bool :=
  match entries with
  | a :: (b :: _) as rest =>
      if 0 <=? stringsCompare (Entry_Key a) (Entry_Key b) then false else strictlyOrdered rest
  | _ => true
  end.

Inductive newError := EntriesNotStrictlyOrdered.

(** The keys are concatenated into one string and sliced again, which gives
    each entry the bytes of its key. *)
Definition NewFromSorted (entries : list (TreeEntry V)) : option (Tree V + newError) :=
  if negb (strictlyOrdered entries) then Some (inr EntriesNotStrictlyOrdered)
  else if bool_decide (length entries = 0%nat) then Some (inl New)
  else
    let base := (λ e, FrozenEntry (Entry_Key e) (Entry_Value e)) <$> entries in
    lookup ← buildFrozenLookup base;
    Some (inl (MkTree (Some (MkNode base lookup DNil None 0 (Z.of_nat (length base)))))).

(** [slices.SortFunc] on keys is an argument: some sorted permutation. *)
Definition NewFrom (sortFunc : list (TreeEntry V) → list (TreeEntry V)) (entries : list (TreeEntry V)) :
    option (Tree V + newError) :=
  NewFromSorted (sortFunc entries).

(** ** Transactions *)

Definition Tree_Len (t : option (Tree V)) : Z :=
  match t ≫= Tree_root with None => 0 | Some root => Node_size root end.

Definition Tree_Root (t : option (Tree V)) : option (TreeNode V) := t ≫= Tree_root.

Definition Tree_Txn (t : option (Tree V)) : Txn V :=
  match t ≫= Tree_root with
  | None => MkTxn [] (FrozenLookup []) DNil None 0 0 t None
  | Some root =>
      MkTxn (Node_base root) (Node_lookup root) (Node_delta root) (Node_deltaHash root)
        (Node_deltaSize root) (Node_size root) t None
  end.

Definition Txn_Get (t : option (Txn V)) key : option (V * bool) :=
  match t with
  | None => Some (zero, false)
  | Some t => get (Txn_base t) (Txn_lookup t) (Txn_deltaHash t) key
  end.

Definition matchesOriginal (t : Txn V) : bool :=
  match Txn_original t with
  | None => false
  | Some original =>
      match Tree_root original with
      | None => (Txn_size t =? 0) && (match Txn_delta t with DNil => true | _ => false end)
                && (match Txn_deltaHash t with None => true | _ => false end)
      | Some root =>
          (Txn_size t =? Node_size root) && (Txn_deltaSize t =? Node_deltaSize root)
          && sameDelta (Txn_delta t) (Node_delta root) && sameDeltaHash (Txn_deltaHash t) (Node_deltaHash root)
      end
  end.

(** The snapshot is kept in the transaction. A nil transaction has neither a
    root nor a tree to commit; the transactions here are not nil. *)
Definition Txn_Root (t : Txn V) : Txn V * option (TreeNode V) :=
  if matchesOriginal t then (t, Txn_original t ≫= Tree_root)
  else
    match Txn_snapshot t with
    | Some snapshot => (t, Some snapshot)
    | None =>
        if (Txn_size t =? 0) && (length (Txn_base t) =? 0)%nat
           && (match Txn_delta t with DNil => true | _ => false end)
        then (t, None)
        else
          let node := MkNode (Txn_base t) (Txn_lookup t) (Txn_delta t) (Txn_deltaHash t)
                        (Txn_deltaSize t) (Txn_size t) in
          (MkTxn (Txn_base t) (Txn_lookup t) (Txn_delta t) (Txn_deltaHash t) (Txn_deltaSize t) (Txn_size t)
             (Txn_original t) (Some node), Some node)
    end.

Definition Txn_Commit (t : Txn V) : Txn V * option (Tree V) :=
  if matchesOriginal t then (t, Txn_original t)
  else let '(t', root) := Txn_Root t in (t', Some (MkTree root)).

(** The delta after an update; the snapshot is dropped. *)
Definition setDelta (t : Txn V) (delta : deltaNode V) (deltaHash : option (deltaHashNode V))
    (deltaSize size : Z) : Txn V :=
  MkTxn (Txn_base t) (Txn_lookup t) delta deltaHash deltaSize size (Txn_original t) None.

(** Both indexes take the entry; they must agree on whether it was there. *)
Definition insertBoth (t : Txn V) hash (entry : deltaEntry V) (indexedExists : bool) :
    option (deltaNode V * deltaHashNode V) :=
  '(delta, orderedReplaced) ← insertDelta (Txn_delta t) entry;
  '(deltaHash, _, hashReplaced) ← insertDeltaHash (Txn_deltaHash t) hash entry;
  if negb (eqb orderedReplaced hashReplaced) || negb (eqb hashReplaced indexedExists) then None
  else Some (delta, deltaHash).

Definition Txn_Insert (t : Txn V) key (value : V) : option (Txn V * (V * bool)) :=
  let hash := maphash key in
  indexed ← getDeltaHash (Txn_deltaHash t) key hash;
  let indexedExists := bool_decide (is_Some indexed) in
  '(ownedKey, previous, replaced) ←
    match indexed with
    | Some e =>
        if deltaEntry_present e then Some (deltaEntry_key e, deltaEntry_value e, true)
        else Some (deltaEntry_key e, zero, false)
    | None =>
        '(baseIndex, baseExists) ← getBaseIndexHashed (Txn_base t) (Txn_lookup t) key hash;
        if baseExists : bool then
          b ← Txn_base t !! baseIndex; Some (frozenEntry_key b, frozenEntry_value b, true)
        else Some (key, zero, false)
    end;
  let entry := DeltaEntry ownedKey value true in
  '(delta, deltaHash) ← insertBoth t hash entry indexedExists;
  let deltaSize := if negb indexedExists then Txn_deltaSize t + 1 else Txn_deltaSize t in
  let size := if negb replaced then Txn_size t + 1 else Txn_size t in
  Some (setDelta t delta (Some deltaHash) deltaSize size, (previous, replaced)).

Definition Txn_Delete (t : Txn V) key : option (Txn V * (V * bool)) :=
  let hash := maphash key in
  indexed ← getDeltaHash (Txn_deltaHash t) key hash;
  let indexedExists := bool_decide (is_Some indexed) in
  '(baseIndex, inBase) ← getBaseIndexHashed (Txn_base t) (Txn_lookup t) key hash;
  found ← match indexed with
          | Some e => Some (if deltaEntry_present e then Some (deltaEntry_value e) else None)
          | None => if inBase : bool then b ← Txn_base t !! baseIndex; Some (Some (frozenEntry_value b))
                    else Some None
          end;
  match found with
  | None => Some (t, (zero, false))
  | Some previous =>
      if inBase : bool then
        b ← Txn_base t !! baseIndex;
        let ownedKey := match indexed with Some e => deltaEntry_key e | None => frozenEntry_key b end in
        let entry := DeltaEntry ownedKey zero false in
        '(delta, deltaHash) ← insertBoth t hash entry indexedExists;
        let deltaSize := if negb indexedExists then Txn_deltaSize t + 1 else Txn_deltaSize t in
        Some (setDelta t delta (Some deltaHash) deltaSize (Txn_size t - 1), (previous, true))
      else
        '(delta, orderedRemoved) ← deleteDelta (Txn_delta t) key;
        '(deltaHash, _, hashRemoved) ← deleteDeltaHash (Txn_deltaHash t) key hash;
        if negb orderedRemoved || negb hashRemoved then None
        else Some (setDelta t delta deltaHash (Txn_deltaSize t - 1) (Txn_size t - 1), (previous, true))
  end.

Definition Tree_Insert (t : option (Tree V)) key (value : V) : option (option (Tree V) * V * bool) :=
  '(txn, (previous, replaced)) ← Txn_Insert (Tree_Txn t) key value;
  Some (snd (Txn_Commit txn), previous, replaced).

Definition Tree_Delete (t : option (Tree V)) key : option (option (Tree V) * V * bool) :=
  '(txn, (previous, removed)) ← Txn_Delete (Tree_Txn t) key;
  if negb removed && bool_decide (is_Some t) then Some (t, previous, false)
  else Some (snd (Txn_Commit txn), previous, removed).

(** ** Reads of a snapshot *)

Definition Node_Get (n : option (TreeNode V)) key : option (V * bool) :=
  match n with
  | None => Some (zero, false)
  | Some n => get (Node_base n) (Node_lookup n) (Node_deltaHash n) key
  end.

(** The first base entry, in the order of the list, no delta entry shadows. *)
Fixpoint firstUnshadowed (deltaHash : option (deltaHashNode V)) base : option (option (frozenEntry V)) :=
  match base with
  | [] => Some None
  | e :: rest =>
      shadowed ← getDeltaHashString deltaHash (frozenEntry_key e) (maphash (frozenEntry_key e));
      if bool_decide (is_Some shadowed) then firstUnshadowed deltaHash rest else Some (Some e)
  end.

Definition Node_Minimum (n : option (TreeNode V)) : option (option (string * V)) :=
  match n with
  | None => Some None
  | Some n =>
      if Node_size n =? 0 then Some None
      else
        first ← firstUnshadowed (Node_deltaHash n) (Node_base n);
        let delta := minimumPresentDelta (Node_delta n) in
        match first, delta with
        | None, _ => Some delta
        | Some b, None => Some (Some (frozenEntry_key b, frozenEntry_value b))
        | Some b, Some (deltaKey, deltaValue) =>
            if bool_decide (klt (frozenEntry_key b) deltaKey)
            then Some (Some (frozenEntry_key b, frozenEntry_value b)) else Some (Some (deltaKey, deltaValue))
        end
  end.

Definition Node_Maximum (n : option (TreeNode V)) : option (option (string * V)) :=
  match n with
  | None => Some None
  | Some n =>
      if Node_size n =? 0 then Some None
      else
        last_ ← firstUnshadowed (Node_deltaHash n) (reverse (Node_base n));
        let delta := maximumPresentDelta (Node_delta n) in
        match last_, delta with
        | None, _ => Some delta
        | Some b, None => Some (Some (frozenEntry_key b, frozenEntry_value b))
        | Some b, Some (deltaKey, deltaValue) =>
            if bool_decide (klt deltaKey (frozenEntry_key b))
            then Some (Some (frozenEntry_key b, frozenEntry_value b)) else Some (Some (deltaKey, deltaValue))
        end
  end.

(** ** Walks *)

Section walk.
Context {S : Type} (visit : S → string → V → S * bool).

Record mergedWalk := MkWalk { walk_next : nat; walk_state : S; walk_stopped : bool }.

(** Base entries are visited up to the key, and the key's own is skipped. *)
Fixpoint flushBaseBefore (fuel : nat) base (end_ : nat) (key : string) (bounded : bool) (w : mergedWalk) :
    option mergedWalk :=
  match fuel with
  | 0%nat => None
  | Datatypes.S fuel' =>
      if (walk_next w <? end_)%nat then
        e ← base !! walk_next w;
        if negb bounded || bool_decide (klt (frozenEntry_key e) key) then
          let '(s, stopped) := visit (walk_state w) (frozenEntry_key e) (frozenEntry_value e) in
          let w' := MkWalk (Datatypes.S (walk_next w)) s stopped in
          if stopped : bool then Some w' else flushBaseBefore fuel' base end_ key bounded w'
        else if bounded && bool_decide (frozenEntry_key e = key)
        then Some (MkWalk (Datatypes.S (walk_next w)) (walk_state w) (walk_stopped w)) else Some w
      else Some w
  end.

Fixpoint walkDelta base (end_ : nat) (node : deltaNode V) (lower upper : string) (bounded : bool)
    (w : mergedWalk) : option mergedWalk :=
  match node with
  | DNil => Some w
  | DNode e l r _ =>
      if walk_stopped w then Some w
      else
        let key := deltaEntry_key e in
        w1 ← (if 0 <=? compareStringBytes key lower then walkDelta base end_ l lower upper bounded w else Some w);
        if walk_stopped w1 then Some w1
        else
          let inRange := (0 <=? compareStringBytes key lower) && (negb bounded || bool_decide (klt key upper)) in
          w2 ← (if inRange then
                  w' ← flushBaseBefore (Datatypes.S (length base)) base end_ key true w1;
                  if negb (walk_stopped w') && deltaEntry_present e then
                    let '(s, stopped) := visit (walk_state w') key (deltaEntry_value e) in
                    Some (MkWalk (walk_next w') s stopped)
                  else Some w'
                else Some w1);
          if negb (walk_stopped w2) && (negb bounded || bool_decide (klt key upper))
          then walkDelta base end_ r lower upper bounded w2 else Some w2
  end.

Definition walkRange (n : TreeNode V) (next end_ : nat) (lower upper : string) (bounded : bool) (s : S) :
    option (S * bool) :=
  w ← walkDelta (Node_base n) end_ (Node_delta n) lower upper bounded (MkWalk next s false);
  w' ← (if negb (walk_stopped w)
        then flushBaseBefore (Datatypes.S (length (Node_base n))) (Node_base n) end_ EmptyString false w
        else Some w);
  Some (walk_state w', walk_stopped w').

Definition Node_Walk (n : option (TreeNode V)) (s : S) : option (S * bool) :=
  match n with
  | None => Some (s, false)
  | Some n =>
      if Node_size n =? 0 then Some (s, false)
      else walkRange n 0 (length (Node_base n)) EmptyString EmptyString false s
  end.

(** [0xff]. *)
Definition byteFF : ascii := ascii_of_N 255.

(** The loop from the last byte down, on the reversed prefix. *)
Fixpoint upperFromEnd (reversed : list ascii) : option (list ascii) :=
  match reversed with
  | [] => None
  | c :: rest =>
      if bool_decide (c ≠ byteFF) then Some (ascii_of_N (N_of_ascii c + 1) :: rest)
      else upperFromEnd rest
  end.

Definition prefixUpperBound (prefix : string) : string * bool :=
  match upperFromEnd (reverse (String.list_ascii_of_string prefix)) with
  | Some upper => (String.string_of_list_ascii (reverse upper), true)
  | None => (EmptyString, false)
  end.

Definition Node_WalkPrefix (n : option (TreeNode V)) (prefix : string) (s : S) : option (S * bool) :=
  match n with
  | None => Some (s, false)
  | Some n =>
      if Node_size n =? 0 then Some (s, false)
      else
        let '(upper, bounded) := prefixUpperBound prefix in
        next ← lowerBoundBytes (Node_base n) prefix;
        end_ ← (if bounded : bool then lowerBoundString (Node_base n) upper else Some (length (Node_base n)));
        walkRange n next end_ prefix upper bounded s
  end.
End walk.
End tree.
