(* ===== verification/FrozenBase.v ===== *)
(** * Correctness of the frozen base

    The binary search answers the first position that is not below the key, and
    the open-addressing table, which is never more than three quarters full,
    finds exactly the keys of the base, for every hash function. Neither loop
    runs forever. *)

From Stdlib Require Import ZArith Lia.
From stdpp Require Import base list numbers strings option sorting sets gmap.
From S2P Require Import Prelude KeyOrder DeltaTree DeltaHash PersistentTree.
Open Scope Z_scope.

Lemma StronglySorted_lookup_lt {A} (R : A → A → Prop) l i j x y :
  StronglySorted R l → l !! i = Some x → l !! j = Some y → (i < j)%nat → R x y.
Proof.
  intros Hs. revert i j. induction Hs as [|z l Hs IH Hz]; intros i j Hi Hj Hij; [done|].
  destruct j as [|j]; [lia|]. destruct i as [|i]; simpl in *.
  - simplify_eq. eapply Forall_forall; [exact Hz|]. by eapply list_elem_of_lookup_2.
  - apply (IH i j); done || lia.
Qed.

Section base.
Context {V : Type} `{MapHash}.
Implicit Types (base : list (frozenEntry V)) (key : string).

Definition keysOf base : list string := frozenEntry_key <$> base.

Lemma keysOf_lookup base i e : base !! i = Some e → keysOf base !! i = Some (frozenEntry_key e).
Proof. intros Hi. unfold keysOf. by rewrite list_lookup_fmap, Hi. Qed.

Lemma base_order base i j e e' :
  StronglySorted klt (keysOf base) → base !! i = Some e → base !! j = Some e' → (i < j)%nat →
  klt (frozenEntry_key e) (frozenEntry_key e').
Proof. intros Hs Hi%keysOf_lookup Hj%keysOf_lookup Hij. by eapply StronglySorted_lookup_lt. Qed.

Lemma base_key_inj base i j e e' :
  StronglySorted klt (keysOf base) → base !! i = Some e → base !! j = Some e' →
  frozenEntry_key e = frozenEntry_key e' → i = j.
Proof.
  intros Hs Hi Hj E. destruct (Nat.lt_total i j) as [Hlt|[?|Hlt]]; [|done|].
  - pose proof (base_order _ _ _ _ _ Hs Hi Hj Hlt) as Hk. rewrite E in Hk. by apply klt_irrefl in Hk.
  - pose proof (base_order _ _ _ _ _ Hs Hj Hi Hlt) as Hk. rewrite E in Hk. by apply klt_irrefl in Hk.
Qed.

(** ** Binary search *)

(** Everything before [m] is below, nothing from [m] on is. *)
Definition splits (less : string → bool) base (m : nat) : Prop :=
  (m ≤ length base)%nat ∧ ∀ i e, base !! i = Some e → less (frozenEntry_key e) = bool_decide (i < m)%nat.

Lemma lowerBoundLoop_spec fuel less base left right :
  (∀ i j e e', (i < j)%nat → base !! i = Some e → base !! j = Some e' →
     less (frozenEntry_key e') = true → less (frozenEntry_key e) = true) →
  (left ≤ right ≤ length base)%nat → (right - left ≤ fuel)%nat →
  (∀ i e, (i < left)%nat → base !! i = Some e → less (frozenEntry_key e) = true) →
  (∀ i e, (right ≤ i)%nat → base !! i = Some e → less (frozenEntry_key e) = false) →
  ∃ m, lowerBoundLoop fuel less base left right = Some m ∧ splits less base m.
Proof.
  intros Hmono. revert left right. induction fuel as [|fuel IH]; intros left right Hlr Hfuel Hl Hr; cbn [lowerBoundLoop].
  all: destruct (Nat.ltb_spec left right) as [Hlt|Hge].
  - lia.
  - exists left. split; [done|]. split; [lia|]. intros i e Hi. case_bool_decide; [by eapply Hl|eapply Hr; [|done]; lia].
  - pose proof (Nat.div2_div (left + right)) as Hdiv.
    assert (left ≤ Nat.div2 (left + right) < right)%nat as Hm.
    { rewrite Hdiv. split; [apply Nat.div_le_lower_bound; lia|apply Nat.Div0.div_lt_upper_bound; lia]. }
    set (middle := Nat.div2 (left + right)) in *.
    destruct (lookup_lt_is_Some_2 base middle) as [e He]; [lia|]. rewrite He. cbn [mbind option_bind].
    destruct (less (frozenEntry_key e)) eqn:Hless.
    + apply IH; [lia..| |done]. intros i e' Hi He'. destruct (decide (i = middle)) as [->|]; [congruence|].
      eapply (Hmono i middle); [lia|done..].
    + apply IH; [lia..|done|]. intros i e' Hi He'. destruct (less (frozenEntry_key e')) eqn:Hle'; [|done].
      destruct (decide (i = middle)) as [->|]; [congruence|]. rewrite (Hmono middle i e e') in Hless; [done|lia|done..].
  - exists left. split; [done|]. split; [lia|]. intros i e Hi. case_bool_decide; [by eapply Hl|eapply Hr; [|done]; lia].
Qed.

Lemma lowerBoundBytes_spec base key :
  StronglySorted klt (keysOf base) →
  ∃ m, lowerBoundBytes base key = Some m ∧ splits (λ k, bool_decide (klt k key)) base m.
Proof.
  intros Hs. destruct (lowerBoundLoop_spec (length base) (λ k, compareStringBytes k key <? 0) base 0 (length base))
    as (m & Hm & Hsp); [|lia|lia|lia| |].
  - intros i j e e' Hij Hi Hj. pose proof (base_order _ _ _ _ _ Hs Hi Hj Hij) as Hk.
    rewrite !Z.ltb_lt, !(proj1 (compareStringBytes_spec _ _)). by intros; etrans.
  - intros i e Hi He. apply lookup_lt_Some in He. lia.
  - exists m. split; [exact Hm|]. destruct Hsp as [? Hsp]. split; [done|]. intros i e Hi. rewrite <-(Hsp i e Hi).
    apply eq_true_iff_eq. rewrite bool_decide_eq_true, Z.ltb_lt. symmetry. apply compareStringBytes_spec.
Qed.

Lemma lowerBoundString_spec base key :
  StronglySorted klt (keysOf base) →
  ∃ m, lowerBoundString base key = Some m ∧ splits (λ k, bool_decide (klt k key)) base m.
Proof.
  intros Hs. apply lowerBoundLoop_spec; [|lia|lia|lia|].
  - intros i j e e' Hij Hi Hj. pose proof (base_order _ _ _ _ _ Hs Hi Hj Hij) as Hk.
    rewrite !bool_decide_eq_true. by intros; etrans.
  - intros i e Hi He. apply lookup_lt_Some in He. lia.
Qed.

(** ** The open-addressing table *)

(** The [d]-th slot a probe from [hash] looks at. *)
Definition probed (slots : list Z) (hash : Z) (d : nat) : nat :=
  Z.to_nat ((hash + Z.of_nat d) mod Z.of_nat (length slots)).

Definition powerOfTwo (slots : list Z) : Prop := ∃ c, 0 ≤ c ∧ Z.of_nat (length slots) = 2 ^ c.

Lemma mask_mod slots x : powerOfTwo slots → Z.land x (Z.of_nat (length slots) - 1) = x mod Z.of_nat (length slots).
Proof.
  intros (c & Hc & ->). rewrite <-Z.land_ones by done. f_equal. rewrite Z.ones_equiv. lia.
Qed.

Lemma powerOfTwo_pos slots : powerOfTwo slots → 0 < Z.of_nat (length slots).
Proof. intros (c & Hc & ->). lia. Qed.

Lemma probed_lookup slots hash d : powerOfTwo slots → is_Some (slots !! probed slots hash d).
Proof.
  intros Hp%powerOfTwo_pos. apply lookup_lt_is_Some_2. unfold probed.
  pose proof (Z.mod_pos_bound (hash + Z.of_nat d) (Z.of_nat (length slots)) Hp). lia.
Qed.

(** One step of a probe, on machine words. *)
Lemma probed_step slots hash d :
  powerOfTwo slots →
  Z.land ((hash + Z.of_nat d) mod Z.of_nat (length slots) + 1) (Z.of_nat (length slots) - 1)
  = (hash + Z.of_nat (S d)) mod Z.of_nat (length slots).
Proof.
  intros Hp. pose proof (powerOfTwo_pos _ Hp). rewrite mask_mod by done. rewrite Z.add_mod_idemp_l by lia. f_equal. lia.
Qed.

(** Within [length slots] steps a probe sees every slot. *)
Lemma probed_reach slots hash j :
  (j < length slots)%nat → ∃ d, (d < length slots)%nat ∧ probed slots hash d = j.
Proof.
  intros Hj. pose proof (Z.mod_pos_bound (Z.of_nat j - hash) (Z.of_nat (length slots)) ltac:(lia)) as Hb.
  exists (Z.to_nat ((Z.of_nat j - hash) mod Z.of_nat (length slots))). split; [lia|]. unfold probed.
  rewrite Z2Nat.id by lia. rewrite Z.add_mod_idemp_r by lia. replace (hash + (Z.of_nat j - hash)) with (Z.of_nat j) by lia.
  rewrite Z.mod_small by lia. lia.
Qed.

(** The part of a probe before its first free slot. *)
Definition occupied (slots : list Z) (hash : Z) (d : nat) : Prop :=
  ∀ d', (d' < d)%nat → ∃ v, slots !! probed slots hash d' = Some v ∧ v ≠ 0.

Lemma occupied_extend slots hash d v :
  occupied slots hash d → slots !! probed slots hash d = Some v → v ≠ 0 → occupied slots hash (S d).
Proof. intros Ho Hv Hne d' Hd'. destruct (decide (d' = d)) as [->|]; [eauto|]. apply Ho. lia. Qed.

Lemma probeFree_spec fuel slots hash d :
  powerOfTwo slots → occupied slots hash d →
  (∃ d0, (d ≤ d0 < d + fuel)%nat ∧ slots !! probed slots hash d0 = Some 0) →
  ∃ d1, probeFree fuel slots (Z.of_nat (length slots) - 1) ((hash + Z.of_nat d) mod Z.of_nat (length slots))
        = Some ((hash + Z.of_nat d1) mod Z.of_nat (length slots))
    ∧ slots !! probed slots hash d1 = Some 0 ∧ occupied slots hash d1.
Proof.
  intros Hp. revert d. induction fuel as [|fuel IH]; intros d Ho (d0 & Hd0 & Hz); [lia|].
  cbn [probeFree]. destruct (probed_lookup slots hash d Hp) as [v Hv].
  change (Z.to_nat _) with (probed slots hash d). rewrite Hv. cbn [mbind option_bind].
  destruct (Z.eqb_spec v 0) as [->|Hne]; cbn [negb]; [by exists d|].
  rewrite probed_step by done. apply IH; [by eapply occupied_extend|].
  exists d0. split; [|done]. destruct (decide (d = d0)) as [->|]; [congruence|lia].
Qed.

(** The table after the first [m] entries of the base. *)
Record tableOK base (slots : list Z) (m : nat) : Prop := {
  table_size : powerOfTwo slots;
  table_values j v : slots !! j = Some v → v ≠ 0 → 1 ≤ v ≤ Z.of_nat m;
  table_entries i e :
    (i < m)%nat → base !! i = Some e →
    ∃ d, (d < length slots)%nat ∧ slots !! probed slots (maphash (frozenEntry_key e)) d = Some (Z.of_nat i + 1)
      ∧ occupied slots (maphash (frozenEntry_key e)) d;
  table_count : (length (filter (λ v, v ≠ 0%Z) slots) ≤ m)%nat;
}.

Lemma free_slot base slots m hash :
  tableOK base slots m → (m < length slots)%nat →
  ∃ d, (d < length slots)%nat ∧ slots !! probed slots hash d = Some 0.
Proof.
  intros Ht Hm. destruct (decide (Exists (λ v, v = 0%Z) slots)) as [He|He].
  - apply Exists_exists in He as (v & [j Hj]%list_elem_of_lookup & ->).
    destruct (probed_reach slots hash j) as (d & Hd & <-); [by eapply lookup_lt_Some|]. by exists d.
  - assert (Forall (λ v, v ≠ 0%Z) slots) as Hall by by apply not_Exists_Forall in He; [|apply _].
    pose proof (table_count _ _ _ Ht) as Hc. rewrite filter_all in Hc by done. lia.
Qed.

Lemma filter_insert_length {A} (P : A → Prop) `{∀ x, Decision (P x)} (l : list A) i x :
  (length (filter P (<[i:=x]> l)) ≤ S (length (filter P l)))%nat.
Proof.
  revert i. induction l as [|y l IH]; intros [|i]; simpl; try (rewrite ?filter_nil; simpl; lia);
    rewrite !filter_cons; repeat case_decide; simpl; try lia.
  all: specialize (IH i); lia.
Qed.

Lemma occupied_insert slots hash d j v :
  v ≠ 0 → occupied slots hash d → occupied (<[j:=v]> slots) hash d.
Proof.
  intros Hv Ho d' Hd'. destruct (Ho d' Hd') as (w & Hw & Hne). unfold probed in *. rewrite length_insert.
  destruct (decide (j = Z.to_nat ((hash + Z.of_nat d') mod Z.of_nat (length slots)))) as [->|Hj].
  - exists v. split; [|done]. apply list_lookup_insert_eq. by eapply lookup_lt_Some.
  - exists w. by rewrite list_lookup_insert_ne.
Qed.

Lemma tableOK_insert base slots m e d :
  tableOK base slots m → base !! m = Some e → (d < length slots)%nat →
  slots !! probed slots (maphash (frozenEntry_key e)) d = Some 0 → occupied slots (maphash (frozenEntry_key e)) d →
  tableOK base (<[probed slots (maphash (frozenEntry_key e)) d := Z.of_nat m + 1]> slots) (S m).
Proof.
  intros Ht He Hd Hz Ho. set (j := probed slots _ d) in *. split.
  - destruct (table_size _ _ _ Ht) as (c & ? & ?). exists c. by rewrite length_insert.
  - intros j' v. rewrite list_lookup_insert. case_decide as Hj; [intros [= <-] _; lia|].
    intros Hv Hne. pose proof (table_values _ _ _ Ht _ _ Hv Hne). lia.
  - intros i e' Hi He'. rewrite length_insert. destruct (decide (i = m)) as [->|].
    + simplify_eq. exists d. split_and!; [done| |by apply occupied_insert; [lia|]].
      unfold probed. rewrite length_insert. apply list_lookup_insert_eq. by eapply lookup_lt_Some.
    + destruct (table_entries _ _ _ Ht i e' ltac:(lia) He') as (d' & Hd' & Hv & Ho'). exists d'.
      split_and!; [done| |by apply occupied_insert; [lia|]].
      unfold probed at 1. rewrite length_insert. fold (probed slots (maphash (frozenEntry_key e')) d').
      rewrite list_lookup_insert_ne; [done|]. intros E. rewrite <-E, Hz in Hv. injection Hv. lia.
  - pose proof (table_count _ _ _ Ht). pose proof (filter_insert_length (λ v, v ≠ 0%Z) slots j (Z.of_nat m + 1)). lia.
Qed.

Lemma fillSlots_spec pre rest slots :
  tableOK (pre ++ rest) slots (length pre) → (length (pre ++ rest) < length slots)%nat →
  Z.of_nat (length (pre ++ rest)) < 2 ^ 32 →
  ∃ slots', fillSlots (length pre) rest slots (Z.of_nat (length slots) - 1) = Some slots'
    ∧ length slots' = length slots ∧ tableOK (pre ++ rest) slots' (length (pre ++ rest)).
Proof.
  revert pre slots. induction rest as [|e rest IH]; intros pre slots Ht Hlen H32; cbn [fillSlots].
  { exists slots. by rewrite app_nil_r in *. }
  pose proof (table_size _ _ _ Ht) as Hp. rewrite length_app, length_cons in Hlen, H32.
  destruct (free_slot _ _ _ (maphash (frozenEntry_key e)) Ht ltac:(lia)) as (d0 & Hd0 & Hz0).
  destruct (probeFree_spec (length slots) slots (maphash (frozenEntry_key e)) 0 Hp) as (d & Hpf & Hz & Ho);
    [intros d' Hd'; lia|exists d0; split; [lia|done]|].
  rewrite Z.add_0_r in Hpf. rewrite mask_mod, Hpf by done. cbn [mbind option_bind].
  change (Z.to_nat _) with (probed slots (maphash (frozenEntry_key e)) d).
  rewrite Z.mod_small by lia.
  assert (d < length slots)%nat as Hd.
  { destruct (decide (d < length slots)%nat); [done|]. destruct (Ho d0 ltac:(lia)) as (v & Hv & ?). congruence. }
  pose proof (tableOK_insert _ _ _ e d Ht ltac:(by rewrite lookup_app_r, Nat.sub_diag by lia) Hd Hz Ho) as Ht'.
  destruct (IH (pre ++ [e]) (<[probed slots (maphash (frozenEntry_key e)) d := Z.of_nat (length pre) + 1]> slots))
    as (slots' & Hf & Hl' & Hok).
  - by rewrite <-app_assoc, length_app, Nat.add_1_r.
  - rewrite length_insert, <-app_assoc, length_app. simpl. lia.
  - rewrite <-app_assoc, length_app. simpl. lia.
  - exists slots'. rewrite <-app_assoc in Hok. rewrite length_insert, length_app, Nat.add_1_r in *. done.
Qed.

Lemma growCapacity_spec fuel target capacity :
  0 < capacity → (∃ c, 0 ≤ c ∧ capacity = 2 ^ c) → target ≤ capacity + Z.of_nat fuel →
  ∃ c, 0 ≤ c ∧ growCapacity fuel target capacity = Some (2 ^ c) ∧ target ≤ 2 ^ c.
Proof.
  revert capacity. induction fuel as [|fuel IH]; intros capacity Hpos (c & Hc & Hcap) Hf; cbn [growCapacity].
  all: destruct (Z.ltb_spec capacity target) as [Hlt|Hge]; [|exists c; rewrite Hcap in *; done].
  - lia.
  - apply IH; [lia| |lia]. exists (c + 1). split; [lia|]. rewrite Z.pow_add_r by lia. subst. lia.
Qed.

Lemma tableOK_empty base c :
  0 ≤ c → tableOK base (replicate (Z.to_nat (2 ^ c)) 0) 0.
Proof.
  intros Hc. split.
  - exists c. split; [done|]. rewrite length_replicate. lia.
  - intros j v [-> _]%lookup_replicate_1. done.
  - intros. lia.
  - rewrite filter_none; [done|]. apply Forall_replicate. by intros [].
Qed.

(** Building the table of a base that fits the 32-bit slots. *)
Lemma buildFrozenLookup_spec base :
  Z.of_nat (length base) < 2 ^ 32 →
  ∃ l, buildFrozenLookup base = Some l
    ∧ (frozenLookup_slots l = [] ∨ (length base < length (frozenLookup_slots l))%nat
                                   ∧ tableOK base (frozenLookup_slots l) (length base)).
Proof.
  intros H32. unfold buildFrozenLookup. case_decide as Hth; [by eexists; split; [|left]|].
  unfold frozenLookupThreshold in Hth. set (target := Z.of_nat (length base) * 4 / 3).
  assert (Z.of_nat (length base) + 1 ≤ target) as Htarget by (apply Z.div_le_lower_bound; lia).
  destruct (growCapacity_spec (Z.to_nat target) target 1) as (c & Hc & -> & Hcap); [lia|by exists 0|lia|].
  cbn [mbind option_bind]. destruct (fillSlots_spec [] base (replicate (Z.to_nat (2 ^ c)) 0)) as (slots & Hf & Hl & Hok).
  - by apply tableOK_empty.
  - rewrite length_replicate. simpl. lia.
  - done.
  - rewrite length_replicate, Z2Nat.id in Hf by lia. simpl in Hf. rewrite Hf. cbn [mbind option_bind].
    eexists. split; [done|]. right. cbn [frozenLookup_slots]. rewrite Hl, length_replicate. split; [lia|done].
Qed.

(** ** Lookups *)

(** What a lookup of the base answers. *)
Definition baseFound base key (index : nat) (found : bool) : Prop :=
  if found then ∃ e, base !! index = Some e ∧ frozenEntry_key e = key else key ∉ keysOf base.

(** The slots a probe for [key] has passed hold other keys. *)
Definition passed base (slots : list Z) key (d : nat) : Prop :=
  ∀ d', (d' < d)%nat → ∃ v e, slots !! probed slots (maphash key) d' = Some v ∧ v ≠ 0
    ∧ base !! Z.to_nat (v - 1) = Some e ∧ frozenEntry_key e ≠ key.

Lemma probeKey_stop base slots key d :
  tableOK base slots (length base) → passed base slots key d →
  slots !! probed slots (maphash key) d = Some 0 → key ∉ keysOf base.
Proof.
  intros Ht Hp Hz (e & -> & [i Hi]%list_elem_of_lookup)%list_elem_of_fmap.
  destruct (table_entries _ _ _ Ht i e) as (di & _ & Hv & Ho); [by eapply lookup_lt_Some|done|].
  destruct (Nat.lt_total d di) as [Hlt|[->|Hlt]].
  - destruct (Ho d Hlt) as (v & ? & ?). congruence.
  - rewrite Hz in Hv. injection Hv. lia.
  - destruct (Hp di Hlt) as (v & e' & Hv' & _ & He' & Hne). rewrite Hv in Hv'. injection Hv' as <-.
    replace (Z.to_nat (Z.of_nat i + 1 - 1)) with i in He' by lia. congruence.
Qed.

Lemma probeKey_spec fuel base slots key d :
  tableOK base slots (length base) → passed base slots key d →
  (∃ d0, (d ≤ d0 < d + fuel)%nat ∧ slots !! probed slots (maphash key) d0 = Some 0) →
  ∃ index found,
    probeKey fuel base slots key (Z.of_nat (length slots) - 1)
      ((maphash key + Z.of_nat d) mod Z.of_nat (length slots)) = Some (index, found)
    ∧ baseFound base key index found.
Proof.
  intros Ht. pose proof (table_size _ _ _ Ht) as Hp. revert d.
  induction fuel as [|fuel IH]; intros d Ho (d0 & Hd0 & Hz); [lia|].
  cbn [probeKey]. destruct (probed_lookup slots (maphash key) d Hp) as [v Hv].
  change (Z.to_nat ((maphash key + _) mod _)) with (probed slots (maphash key) d). rewrite Hv. cbn [mbind option_bind].
  destruct (Z.eqb_spec v 0) as [->|Hne]; [exists 0%nat, false; split; [done|by eapply probeKey_stop]|].
  pose proof (table_values _ _ _ Ht _ _ Hv Hne) as Hrange.
  destruct (lookup_lt_is_Some_2 base (Z.to_nat (v - 1))) as [e He]; [lia|]. rewrite He. cbn [mbind option_bind].
  destruct (compareBytesString_spec key (frozenEntry_key e)) as (_ & Hc & _).
  destruct (Z.eqb_spec (compareBytesString key (frozenEntry_key e)) 0) as [Hk|Hk].
  - eexists _, _. split; [done|]. exists e. split; [done|]. symmetry. by apply Hc.
  - rewrite probed_step by done. apply IH.
    + intros d' Hd'. destruct (decide (d' = d)) as [->|]; [|apply Ho; lia]. exists v, e. split_and!; try done.
      intros <-. by apply Hk, Hc.
    + exists d0. split; [|done]. destruct (decide (d = d0)) as [->|]; [congruence|lia].
Qed.

(** A base as the constructors leave it. *)
Record baseOK base (l : frozenLookup) : Prop := {
  base_sorted : StronglySorted klt (keysOf base);
  base_lookup : frozenLookup_slots l = [] ∨ (length base < length (frozenLookup_slots l))%nat
                                            ∧ tableOK base (frozenLookup_slots l) (length base);
}.

Lemma baseOK_nil : baseOK [] (FrozenLookup []).
Proof. split; [constructor|by left]. Qed.

Lemma getBaseIndexHashed_spec base l key hash :
  baseOK base l → (frozenLookup_slots l ≠ [] → hash = maphash key) →
  ∃ index found, getBaseIndexHashed base l key hash = Some (index, found) ∧ baseFound base key index found.
Proof.
  intros [Hs Hl] Hh. unfold getBaseIndexHashed. destruct Hl as [Hnil|[Hlen Ht]].
  - rewrite Hnil. cbn [length Nat.eqb negb].
    destruct (lowerBoundBytes_spec base key Hs) as (m & -> & Hm & Hsp). cbn [mbind option_bind].
    assert (∀ i e, base !! i = Some e → frozenEntry_key e = key → i = m) as Hkey.
    { intros i e Hi He. pose proof (Hsp i e Hi) as Hb. rewrite He in Hb.
      rewrite bool_decide_false in Hb by apply klt_irrefl. symmetry in Hb. apply bool_decide_eq_false in Hb.
      destruct (decide (i = m)) as [|Hne]; [done|]. destruct (lookup_lt_is_Some_2 base m) as [e' He'].
      { apply lookup_lt_Some in Hi. lia. }
      pose proof (Hsp m e' He') as Hb'. rewrite (bool_decide_false (m < m)%nat) in Hb' by lia. apply bool_decide_eq_false in Hb'.
      pose proof (base_order _ m i _ _ Hs He' Hi ltac:(lia)) as Hlt. by rewrite He in Hlt. }
    destruct (Nat.ltb_spec m (length base)) as [Hlt|Hge].
    + destruct (lookup_lt_is_Some_2 base m Hlt) as [e He]. rewrite He. cbn [mbind option_bind]. eexists _, _. split; [done|].
      destruct (compareBytesString_spec key (frozenEntry_key e)) as (_ & Hc & _). unfold baseFound.
      destruct (Z.eqb_spec (compareBytesString key (frozenEntry_key e)) 0) as [Hk|Hk]; [exists e; naive_solver|].
      intros (e' & Hk' & [i Hi]%list_elem_of_lookup)%list_elem_of_fmap. pose proof (Hkey i e' Hi (eq_sym Hk')) as ->.
      apply Hk, Hc. congruence.
    + eexists _, _. split; [done|]. intros (e' & Hk' & [i Hi]%list_elem_of_lookup)%list_elem_of_fmap.
      pose proof (Hkey i e' Hi (eq_sym Hk')). apply lookup_lt_Some in Hi. lia.
  - pose proof (table_size _ _ _ Ht) as Hp. pose proof (powerOfTwo_pos _ Hp) as Hpos.
    destruct (Nat.eqb_spec (length (frozenLookup_slots l)) 0); [lia|]. cbn [negb]. unfold getFrozenLookupHashed.
    rewrite Hh by (intros E; by rewrite E in Hpos). rewrite mask_mod by done.
    destruct (free_slot _ _ _ (maphash key) Ht Hlen) as (d0 & Hd0 & Hz).
    destruct (probeKey_spec (length (frozenLookup_slots l)) base (frozenLookup_slots l) key 0 Ht) as (i & b & Hr & Hb);
      [intros d' ?; lia|exists d0; split; [lia|done]|].
    rewrite Z.add_0_r in Hr. by exists i, b.
Qed.

(** The base as a map. *)
Definition baseMap base : gmap string V :=
  list_to_map ((λ e, (frozenEntry_key e, frozenEntry_value e)) <$> base).

Lemma baseMap_lookup base i e :
  StronglySorted klt (keysOf base) → base !! i = Some e → baseMap base !! frozenEntry_key e = Some (frozenEntry_value e).
Proof.
  intros Hs Hi. apply elem_of_list_to_map.
  - rewrite <-list_fmap_compose. change (fst ∘ _) with (@frozenEntry_key V).
    by apply sorted_keys_NoDup.
  - apply list_elem_of_fmap. exists e. split; [done|]. by eapply list_elem_of_lookup_2.
Qed.

Lemma baseMap_None base key : baseMap base !! key = None ↔ key ∉ keysOf base.
Proof.
  unfold baseMap, keysOf. rewrite <-not_elem_of_list_to_map, <-list_fmap_compose. done.
Qed.

Lemma baseFound_map base l key index found :
  baseOK base l → baseFound base key index found →
  if found then ∃ e, base !! index = Some e ∧ frozenEntry_key e = key ∧ baseMap base !! key = Some (frozenEntry_value e)
  else baseMap base !! key = None.
Proof.
  intros [Hs _]. destruct found; simpl; [|by rewrite baseMap_None].
  intros (e & He & <-). exists e. split_and!; [done..|]. by eapply baseMap_lookup.
Qed.
End base.
