(* ===== verification/PersistentTreeProps.v ===== *)
(** * Correctness of the persistent tree

    The abstract tree is a finite map from keys to values. [stateOK] relates the
    four fields of a snapshot or a transaction to the map they stand for; every
    operation answers what the map answers, ends, never reaches the code's
    panic, and keeps the relation. *)

From Stdlib Require Import ZArith Lia.
From stdpp Require Import base list numbers strings option sorting sets gmap.
From S2P Require Import Prelude KeyOrder DeltaTree DeltaHash DeltaHashProps PersistentTree FrozenBase.
Open Scope Z_scope.

Section contents.
Context {V : Type}.
Implicit Types (base : list (frozenEntry V)) (es : list (deltaEntry V)) (e : deltaEntry V).

(** The base under the delta: the delta's entry decides where it has one. *)
Definition overlay e (m : gmap string V) : gmap string V :=
  if deltaEntry_present e then <[deltaEntry_key e := deltaEntry_value e]> m else delete (deltaEntry_key e) m.

Definition contents base es : gmap string V := foldr overlay (baseMap base) es.

Definition entryValue e : option V := if deltaEntry_present e then Some (deltaEntry_value e) else None.

Lemma overlay_lookup e m k :
  overlay e m !! k = if decide (deltaEntry_key e = k) then entryValue e else m !! k.
Proof.
  unfold overlay, entryValue. destruct (deltaEntry_present e); case_decide; subst;
    by rewrite ?lookup_insert_eq, ?lookup_insert_ne, ?lookup_delete_eq, ?lookup_delete_ne.
Qed.

Lemma contents_lookup base es k :
  contents base es !! k = match entryOf es k with Some e => entryValue e | None => baseMap base !! k end.
Proof.
  induction es as [|e es IH]; [done|]. simpl. rewrite overlay_lookup, IH. by case_decide.
Qed.

Lemma contents_insertSorted base es e : contents base (insertSorted e es) = overlay e (contents base es).
Proof.
  apply map_eq. intros k. rewrite overlay_lookup, !contents_lookup, entryOf_insertSorted. by case_decide.
Qed.

Lemma contents_removeSorted base es key :
  key ∉ keysOf base → contents base (removeSorted key es) = delete key (contents base es).
Proof.
  intros Hk%baseMap_None. apply map_eq. intros k. rewrite lookup_delete, !contents_lookup, entryOf_removeSorted.
  case_decide; [by subst|done].
Qed.
End contents.

Section props.
Context {V : Type} (zero : V) `{MapHash} `{Identity V}.
Implicit Types (base : list (frozenEntry V)) (key k : string) (m : gmap string V).

(** The result [(V, bool)] of looking a key up in a map. *)
Definition answer m key : V * bool := (default zero (m !! key), bool_decide (is_Some (m !! key))).

(** ** The representation *)

(** A tombstone shadows a base entry and carries the zero value. *)
Definition tombstonesOK base (es : list (deltaEntry V)) : Prop :=
  ∀ e, e ∈ es → deltaEntry_present e = false → deltaEntry_value e = zero ∧ deltaEntry_key e ∈ keysOf base.

Record stateOK base (lookup : frozenLookup) (delta : deltaNode V) (deltaHash : option (deltaHashNode V))
    (deltaSize size_ : Z) m : Prop := {
  state_base : baseOK base lookup;
  state_balanced : balanced delta;
  state_ordered : ordered (entries delta);
  state_indexes : indexes deltaHash (entryOf (entries delta));
  state_deltaSize : deltaSize = Z.of_nat (length (entries delta));
  state_contents : contents base (entries delta) = m;
  state_size : size_ = Z.of_nat (size m);
  state_tombstones : tombstonesOK base (entries delta);
}.

Definition nodeOf (n : TreeNode V) m : Prop :=
  stateOK (Node_base n) (Node_lookup n) (Node_delta n) (Node_deltaHash n) (Node_deltaSize n) (Node_size n) m.

Definition snapshotOf (n : option (TreeNode V)) m : Prop :=
  match n with None => m = ∅ | Some n => nodeOf n m end.

Definition treeOf (t : option (Tree V)) m : Prop := snapshotOf (Tree_Root t) m.

Definition nodeOfTxn (t : Txn V) : TreeNode V :=
  MkNode (Txn_base t) (Txn_lookup t) (Txn_delta t) (Txn_deltaHash t) (Txn_deltaSize t) (Txn_size t).

(** A transaction keeps the base of the tree it started from, and its cached
    snapshot, if any, is its own state. *)
Record txnOf (t : Txn V) m : Prop := {
  txn_state : nodeOf (nodeOfTxn t) m;
  txn_original_base o root :
    Txn_original t = Some o → Tree_root o = Some root →
    Node_base root = Txn_base t ∧ Node_lookup root = Txn_lookup t;
  txn_snapshot_current s : Txn_snapshot t = Some s → s = nodeOfTxn t;
}.

Lemma stateOK_empty : stateOK [] (FrozenLookup []) DNil None 0 0 ∅.
Proof.
  split; try done; [apply baseOK_nil|constructor|intros e He; set_solver].
Qed.

Lemma Tree_Txn_of t m : treeOf t m → txnOf (Tree_Txn t) m.
Proof.
  unfold treeOf, Tree_Root, Tree_Txn. destruct (t ≫= Tree_root) as [root|] eqn:Hr; simpl.
  - intros Hn. split; simpl; [by destruct root| |done]. intros o r -> Ho. simpl in Hr. by simplify_eq.
  - intros ->. split; simpl; [apply stateOK_empty| |done]. intros o r -> Ho. simpl in Hr. congruence.
Qed.

(** ** Reads *)

Lemma getBaseHashed_spec base l key hash :
  baseOK base l → (frozenLookup_slots l ≠ [] → hash = maphash key) →
  getBaseHashed zero base l key hash = Some (answer (baseMap base) key).
Proof.
  intros Hb Hh. unfold getBaseHashed, answer. destruct (getBaseIndexHashed_spec _ _ _ _ Hb Hh) as (i & found & -> & Hf).
  cbn [mbind option_bind]. pose proof (baseFound_map _ _ _ _ _ Hb Hf) as Hm. destruct found.
  - destruct Hm as (e & -> & _ & ->). done.
  - by rewrite Hm.
Qed.

Lemma get_spec base l delta deltaHash ds sz m key :
  stateOK base l delta deltaHash ds sz m → get zero base l deltaHash key = Some (answer m key).
Proof.
  intros [Hb _ _ Hi _ <- _ Ht]. unfold get. pose proof (getDeltaHash_indexes _ _ key Hi) as Hg.
  assert (∀ hash, (frozenLookup_slots l ≠ [] → hash = maphash key) → entryOf (entries delta) key = None →
    getBaseHashed zero base l key hash = Some (answer (contents base (entries delta)) key)) as Hbase.
  { intros hash Hh Hnone. rewrite getBaseHashed_spec by done. unfold answer. by rewrite contents_lookup, Hnone. }
  destruct deltaHash as [n|].
  - rewrite Hg. cbn [mbind option_bind]. destruct (entryOf (entries delta) key) as [e|] eqn:He; [|by apply Hbase].
    unfold answer. rewrite contents_lookup, He. unfold entryValue. destruct (deltaEntry_present e) eqn:Hp; [done|].
    apply entryOf_Some in He as [Hin _]. destruct (Ht e Hin Hp) as [-> _]. done.
  - unfold getBase. apply Hbase; [|by apply Hi]. intros Hne. destruct (frozenLookup_slots l); [done|]. done.
Qed.

Lemma Node_Get_spec n m key : snapshotOf n m → Node_Get zero n key = Some (answer m key).
Proof.
  destruct n as [n|]; simpl; [by apply get_spec|]. intros ->. unfold answer. by rewrite lookup_empty.
Qed.

Lemma Tree_Len_spec t m : treeOf t m → Tree_Len t = Z.of_nat (size m).
Proof.
  unfold treeOf, Tree_Root, Tree_Len. destruct (t ≫= Tree_root) as [root|]; simpl; [apply state_size|].
  intros ->. by rewrite map_size_empty.
Qed.

(** ** Updates *)

Lemma entryOf_key_mem (es : list (deltaEntry V)) (e : deltaEntry V) :
  bool_decide (deltaEntry_key e ∈ deltaEntry_key <$> es) = bool_decide (is_Some (entryOf es (deltaEntry_key e))).
Proof. apply bool_decide_ext. by rewrite entryOf_is_Some. Qed.

Lemma insertBoth_spec t m (e : deltaEntry V) :
  nodeOf (nodeOfTxn t) m →
  ∃ delta deltaHash,
    insertBoth t (maphash (deltaEntry_key e)) e (bool_decide (is_Some (entryOf (entries (Txn_delta t)) (deltaEntry_key e))))
    = Some (delta, deltaHash)
    ∧ balanced delta ∧ entries delta = insertSorted e (entries (Txn_delta t))
    ∧ indexes (Some deltaHash) (entryOf (entries delta)).
Proof.
  intros [Hb Hbal Ho Hi _ _ _ _]. simpl in *. unfold insertBoth.
  destruct (insertDelta_spec (Txn_delta t) e Hbal Ho) as (delta & -> & Hbal' & He & _). cbn [mbind option_bind].
  destruct (insertDeltaHash_indexes _ _ e Hi) as (n' & -> & Hi'). cbn [mbind option_bind].
  rewrite entryOf_key_mem, !eqb_reflx. cbn [negb orb]. exists delta, n'. do 3 (split; [done|]).
  rewrite He. destruct Hi' as [Hn Hh]. split; [done|]. eapply holds_ext; [|exact Hh]. intros k. simpl.
  by rewrite entryOf_insertSorted.
Qed.

Lemma insertSorted_length (es : list (deltaEntry V)) (e : deltaEntry V) :
  ordered es →
  Z.of_nat (length (insertSorted e es))
  = if negb (bool_decide (is_Some (entryOf es (deltaEntry_key e)))) then Z.of_nat (length es) + 1 else Z.of_nat (length es).
Proof.
  unfold ordered. induction 1 as [|x es Hs IH Hx]; [done|]. simpl.
  destruct (klt_trichotomy (deltaEntry_key e) (deltaEntry_key x)) as [Hlt|[Heq|Hlt]].
  - rewrite decide_True by done. assert (entryOf (x :: es) (deltaEntry_key e) = None) as Hnone.
    { apply entryOf_None. rewrite fmap_cons, not_elem_of_cons. split; [by apply klt_ne|].
      eapply keys_after; [exact Hx|]. by apply klt_asym. }
    simpl in Hnone. rewrite Hnone. simpl. lia.
  - rewrite Heq, decide_False by apply klt_irrefl. rewrite !decide_True by done. simpl. lia.
  - rewrite decide_False by by apply klt_asym. pose proof (klt_ne _ _ Hlt) as Hne.
    rewrite !decide_False by congruence. simpl length. rewrite !Nat2Z.inj_succ. rewrite IH. case_match; lia.
Qed.

(** The state after both indexes took an entry. *)
Lemma setDelta_insert t m (e : deltaEntry V) delta deltaHash :
  txnOf t m →
  balanced delta → entries delta = insertSorted e (entries (Txn_delta t)) →
  indexes (Some deltaHash) (entryOf (entries delta)) →
  (deltaEntry_present e = false → deltaEntry_value e = zero ∧ deltaEntry_key e ∈ keysOf (Txn_base t)) →
  txnOf (setDelta t delta (Some deltaHash)
           (if negb (bool_decide (is_Some (entryOf (entries (Txn_delta t)) (deltaEntry_key e))))
            then Txn_deltaSize t + 1 else Txn_deltaSize t)
           (Z.of_nat (size (overlay e m)))) (overlay e m).
Proof.
  intros [[Hb Hbal Ho Hi Hds Hm Hsz Ht] Hor Hsn] Hbal' He Hi' Htomb. simpl in *. split; simpl; [|done|done].
  split; simpl; try done.
  - rewrite He. by apply insertSorted_ordered.
  - rewrite He, insertSorted_length by done. by rewrite Hds.
  - by rewrite He, contents_insertSorted, Hm.
  - rewrite He. intros x [->|Hx]%insertSorted_elem; [done|]. by apply Ht.
Qed.

Lemma Txn_Insert_spec t m key v :
  txnOf t m → ∃ t', Txn_Insert zero t key v = Some (t', answer m key) ∧ txnOf t' (<[key:=v]> m).
Proof.
  intros Ht. pose proof Ht as [[Hb Hbal Ho Hi Hds Hm Hsz Htomb] _ _]. simpl in *. unfold Txn_Insert.
  rewrite (getDeltaHash_indexes _ _ key Hi). cbn [mbind option_bind].
  assert (∃ ownedKey, ownedKey = key ∧
    match entryOf (entries (Txn_delta t)) key with
    | Some e => if deltaEntry_present e then Some (deltaEntry_key e, deltaEntry_value e, true)
                else Some (deltaEntry_key e, zero, false)
    | None => '(baseIndex, baseExists) ← getBaseIndexHashed (Txn_base t) (Txn_lookup t) key (maphash key);
              if baseExists : bool then b ← Txn_base t !! baseIndex; Some (frozenEntry_key b, frozenEntry_value b, true)
              else Some (key, zero, false)
    end = Some (ownedKey, default zero (m !! key), bool_decide (is_Some (m !! key)))) as (ownedKey & -> & ->).
  { rewrite <-Hm, contents_lookup. destruct (entryOf _ key) as [e|] eqn:He.
    - apply entryOf_Some in He as [_ <-]. unfold entryValue. exists (deltaEntry_key e). by destruct (deltaEntry_present e).
    - destruct (getBaseIndexHashed_spec _ _ key (maphash key) Hb ltac:(done)) as (i & found & -> & Hf). cbn [mbind option_bind].
      pose proof (baseFound_map _ _ _ _ _ Hb Hf) as Hbm. exists key. split; [done|]. destruct found.
      + destruct Hbm as (b & -> & <- & ->). done.
      + by rewrite Hbm. }
  cbn [mbind option_bind].
  destruct (insertBoth_spec t m (DeltaEntry key v true) (txn_state _ _ Ht)) as (delta & deltaHash & Hins & Hbal' & He & Hi').
  simpl in Hins. rewrite Hins. cbn [mbind option_bind]. eexists. split; [done|].
  pose proof (setDelta_insert t m _ _ _ Ht Hbal' He Hi' ltac:(done)) as Hok. unfold overlay in Hok. simpl in Hok.
  replace (if negb (bool_decide (is_Some (m !! key))) then Txn_size t + 1 else Txn_size t)
    with (Z.of_nat (size (<[key:=v]> m))); [done|].
  rewrite map_size_insert, Hsz. destruct (m !! key); simpl; lia.
Qed.

Lemma map_size_delete_present m key x : m !! key = Some x → Z.of_nat (size m) - 1 = Z.of_nat (size (delete key m)).
Proof.
  intros Hk. rewrite map_size_delete, Hk. assert (size m ≠ 0%nat); [|lia].
  intros ->%map_size_empty_inv. by rewrite lookup_empty in Hk.
Qed.

Lemma Txn_Delete_spec t m key :
  txnOf t m → ∃ t', Txn_Delete zero t key = Some (t', answer m key) ∧ txnOf t' (delete key m).
Proof.
  intros Ht. pose proof Ht as [[Hb Hbal Ho Hi Hds Hm Hsz Htomb] Hor Hsn]. simpl in *. unfold Txn_Delete.
  rewrite (getDeltaHash_indexes _ _ key Hi). cbn [mbind option_bind].
  destruct (getBaseIndexHashed_spec _ _ key (maphash key) Hb ltac:(done)) as (i & inBase & -> & Hf). cbn [mbind option_bind].
  pose proof (baseFound_map _ _ _ _ _ Hb Hf) as Hbm.
  set (indexed := entryOf (entries (Txn_delta t)) key) in *.
  assert (match indexed with
          | Some e => Some (if deltaEntry_present e then Some (deltaEntry_value e) else None)
          | None => if inBase then b ← Txn_base t !! i; Some (Some (frozenEntry_value b)) else Some None
          end = Some (m !! key)) as ->.
  { rewrite <-Hm, contents_lookup. fold indexed. destruct indexed as [e|]; [by unfold entryValue|].
    destruct inBase; [|by rewrite Hbm]. by destruct Hbm as (b & -> & _ & ->). }
  cbn [mbind option_bind]. unfold answer. destruct (m !! key) as [previous|] eqn:Hk; simpl.
  2:{ eexists. split; [done|]. by rewrite delete_id. }
  destruct inBase.
  - destruct Hbm as (b & -> & Hbk & Hbv). cbn [mbind option_bind].
    replace (match indexed with Some e => deltaEntry_key e | None => frozenEntry_key b end) with key.
    2:{ destruct indexed as [e|] eqn:He; [|done]. by apply entryOf_Some in He as [_ <-]. }
    destruct (insertBoth_spec t m (DeltaEntry key zero false) (txn_state _ _ Ht)) as (delta & deltaHash & Hins & Hbal' & He & Hi').
    simpl in Hins. fold indexed in Hins. rewrite Hins. cbn [mbind option_bind]. eexists. split; [done|].
    assert (key ∈ keysOf (Txn_base t)) as Hin.
    { destruct (decide (key ∈ keysOf (Txn_base t))) as [|Hni%baseMap_None]; [done|congruence]. }
    pose proof (setDelta_insert t m _ _ _ Ht Hbal' He Hi' ltac:(done)) as Hok. unfold overlay in Hok. simpl in Hok.
    fold indexed in Hok. rewrite Hsz. by erewrite map_size_delete_present.
  - apply baseMap_None in Hbm as Hni. destruct indexed as [e|] eqn:He.
    2:{ exfalso. rewrite <-Hm, contents_lookup in Hk. fold indexed in Hk. rewrite He in Hk. congruence. }
    unfold indexed in He. pose proof (entryOf_Some _ _ _ He) as [Hin Hek].
    rewrite deleteDelta_String.
    destruct (deleteDeltaString_spec (Txn_delta t) key Hbal Ho) as (delta & -> & Hbal' & Hes & _). cbn [mbind option_bind].
    destruct (deleteDeltaHash_indexes _ _ key Hi) as (node' & -> & Hi'). cbn [mbind option_bind].
    rewrite bool_decide_true by (rewrite <-Hek; by apply list_elem_of_fmap_2).
    rewrite bool_decide_true by by rewrite He. cbn [negb orb]. eexists. split; [done|].
    assert (entries delta = removeSorted key (entries (Txn_delta t))) as Hes' by done. split; simpl; [|done|done]. split; simpl; try done.
    + rewrite Hes. by apply removeSorted_ordered.
    + rewrite Hes. destruct node' as [n|]; simpl in *.
      * destruct Hi' as [Hn Hh]. split; [done|]. eapply holds_ext; [|exact Hh]. intros k. simpl. by rewrite entryOf_removeSorted.
      * intros k. by rewrite entryOf_removeSorted.
    + rewrite Hes, <-Hek, Hds. rewrite <-(removeSorted_length _ _ Ho Hin). lia.
    + by rewrite Hes, contents_removeSorted, Hm.
    + rewrite Hsz. by erewrite map_size_delete_present.
    + rewrite Hes. intros x [_ Hx]%list_elem_of_filter. by apply Htomb.
Qed.

(** ** Snapshots and commits *)

Lemma nodeOf_size_zero n m : nodeOf n m → Node_size n = 0 → m = ∅.
Proof. intros Hn Hz. apply map_size_empty_inv. pose proof (state_size _ _ _ _ _ _ _ Hn). lia. Qed.

Lemma matchesOriginal_spec t m :
  txnOf t m → matchesOriginal t = true → snapshotOf (Txn_original t ≫= Tree_root) m.
Proof.
  intros [Hn Hor _]. unfold matchesOriginal. destruct (Txn_original t) as [o|] eqn:Ho; [|done]. simpl.
  destruct (Tree_root o) as [root|] eqn:Hr.
  - rewrite !andb_true_iff, !Z.eqb_eq. intros [[[Hs Hd] Hde%sameDelta_eq] Hha%sameDeltaHash_eq].
    destruct (Hor o root eq_refl Hr) as [Hb Hl]. unfold snapshotOf, nodeOf in *. simpl in Hn.
    by rewrite Hb, Hl, <-Hs, <-Hd, <-Hde, <-Hha.
  - rewrite !andb_true_iff, Z.eqb_eq. intros [[Hs _] _]. by eapply nodeOf_size_zero.
Qed.

Lemma Txn_Root_spec t m :
  txnOf t m → txnOf (fst (Txn_Root t)) m ∧ snapshotOf (snd (Txn_Root t)) m.
Proof.
  intros Ht. pose proof Ht as [Hn Hor Hsn]. unfold Txn_Root.
  destruct (matchesOriginal t) eqn:Hmatch; [split; [done|by apply matchesOriginal_spec]|].
  destruct (Txn_snapshot t) as [s|] eqn:Hs; simpl; [split; [done|]; by rewrite (Hsn s eq_refl)|].
  case_match eqn:Hz; simpl.
  - split; [done|]. rewrite !andb_true_iff, Z.eqb_eq in Hz. destruct Hz as [[Hz _] _]. by eapply nodeOf_size_zero.
  - split; [|done]. split; simpl; [done..|]. by intros s [= <-].
Qed.

Lemma Txn_Commit_spec t m :
  txnOf t m → txnOf (fst (Txn_Commit t)) m ∧ treeOf (snd (Txn_Commit t)) m.
Proof.
  intros Ht. unfold Txn_Commit, treeOf, Tree_Root.
  destruct (matchesOriginal t) eqn:Hmatch; [split; [done|by apply matchesOriginal_spec]|].
  pose proof (Txn_Root_spec t m Ht) as [Ht' Hs]. by destruct (Txn_Root t).
Qed.

(** ** Construction *)

Definition entriesMap (entries : list (TreeEntry V)) : gmap string V :=
  list_to_map ((λ e, (Entry_Key e, Entry_Value e)) <$> entries).

Lemma strictlyOrdered_spec (entries : list (TreeEntry V)) :
  strictlyOrdered entries = true → StronglySorted klt (Entry_Key <$> entries).
Proof.
  intros Hs. apply Sorted_StronglySorted; [apply _|].
  induction entries as [|a [|b rest] IH]; [constructor|by repeat constructor|].
  cbn [strictlyOrdered] in Hs. destruct (Z.leb_spec 0 (stringsCompare (Entry_Key a) (Entry_Key b))) as [|Hlt]; [done|].
  constructor; [by apply IH|]. constructor. by apply (proj1 (stringsCompare_spec _ _)).
Qed.

Lemma NewFromSorted_spec (entries : list (TreeEntry V)) :
  Z.of_nat (length entries) < 2 ^ 32 →
  if strictlyOrdered entries then ∃ t, NewFromSorted entries = Some (inl t) ∧ treeOf (Some t) (entriesMap entries)
  else NewFromSorted entries = Some (inr EntriesNotStrictlyOrdered).
Proof.
  intros H32. unfold NewFromSorted. destruct (strictlyOrdered entries) eqn:Hs; [|done]. cbn [negb].
  case_bool_decide as Hl; [apply nil_length_inv in Hl as ->; exists New; split; reflexivity|].
  set (base := _ <$> entries). assert (keysOf base = Entry_Key <$> entries) as Hkeys.
  { unfold keysOf, base. by rewrite <-list_fmap_compose. }
  assert (baseMap base = entriesMap entries) as Hmap.
  { unfold baseMap, entriesMap, base. by rewrite <-list_fmap_compose. }
  assert (length base = length entries) as Hlen by apply length_fmap.
  pose proof (strictlyOrdered_spec _ Hs) as Hsorted. rewrite <-Hkeys in Hsorted.
  destruct (buildFrozenLookup_spec base ltac:(lia)) as (l & -> & Hlk). cbn [mbind option_bind]. eexists. split; [done|].
  split; simpl; try done; [constructor| |intros e He; set_solver].
  rewrite <-Hmap. unfold baseMap. rewrite map_size_list_to_map, length_fmap; [done|].
  rewrite <-list_fmap_compose. by apply sorted_keys_NoDup.
Qed.
End props.
