(* ===== verification/TreeWalk.v ===== *)
(** * Walks of the persistent tree

    A walk merges the base with the delta on the fly. The visited list is
    [merged]: strictly ordered, with exactly the visible entries of the range.
    The bound of a prefix walk is the first key after every key that has the
    prefix. *)

From Stdlib Require Import ZArith Lia Ascii.
From stdpp Require Import base list numbers strings option sorting sets gmap.
From S2P Require Import Prelude KeyOrder DeltaTree DeltaHash DeltaHashProps PersistentTree FrozenBase PersistentTreeProps.
Open Scope Z_scope.

(** ** Prefixes as ranges *)

Lemma klt_cons c d s t :
  klt (String c s) (String d t) ↔ (N_of_ascii c < N_of_ascii d)%N ∨ c = d ∧ klt s t.
Proof.
  unfold klt. simpl. unfold Ascii.compare. destruct (N.compare_spec (N_of_ascii c) (N_of_ascii d)) as [E|E|E].
  - assert (c = d) as -> by (rewrite <-(ascii_N_embedding c), <-(ascii_N_embedding d); by f_equal).
    split; [by right|]. intros [?|[_ ?]]; [lia|done].
  - split; [by left|done].
  - split; [done|]. intros [?|[-> _]]; lia.
Qed.

Lemma klt_nil_r s : ¬ klt s EmptyString.
Proof. by destruct s. Qed.

Lemma klt_nil_cons c s : klt EmptyString (String c s).
Proof. done. Qed.

(** The bound, from the first byte on. *)
Fixpoint upperOf (p : list ascii) : option (list ascii) :=
  match p with
  | [] => None
  | c :: p' =>
      match upperOf p' with
      | Some u => Some (c :: u)
      | None => if decide (c ≠ byteFF) then Some [ascii_of_N (N_of_ascii c + 1)] else None
      end
  end.

Lemma upperFromEnd_snoc l c :
  upperFromEnd (l ++ [c])
  = match upperFromEnd l with
    | Some u => Some (u ++ [c])
    | None => if decide (c ≠ byteFF) then Some [ascii_of_N (N_of_ascii c + 1)] else None
    end.
Proof.
  induction l as [|d l IH]; simpl; [by case_bool_decide; case_decide|]. case_bool_decide; [done|]. apply IH.
Qed.

Lemma upperFromEnd_reverse p : upperFromEnd (reverse p) = reverse <$> upperOf p.
Proof.
  induction p as [|c p IH]; [done|]. rewrite reverse_cons, upperFromEnd_snoc, IH. simpl.
  destruct (upperOf p); simpl; [by rewrite reverse_cons|]. by case_decide.
Qed.

Definition below (k : string) (upper : option (list ascii)) : Prop :=
  match upper with Some u => klt k (String.string_of_list_ascii u) | None => True end.

Lemma byte_lt_255 c : (N_of_ascii c ≤ 255)%N.
Proof. pose proof (N_ascii_bounded c). lia. Qed.

Lemma N_of_ascii_inj c d : N_of_ascii c = N_of_ascii d → c = d.
Proof. intros E. rewrite <-(ascii_N_embedding c), <-(ascii_N_embedding d). by f_equal. Qed.

Lemma prefix_range_spec p k :
  String.prefix p k = true ↔ ¬ klt k p ∧ below k (upperOf (String.list_ascii_of_string p)).
Proof.
  revert k. induction p as [|c p IH]; intros k; simpl.
  { split; [|by destruct k]. intros _. split; [apply klt_nil_r|done]. }
  destruct k as [|d k]; [split; [done|]; intros [[] _]; apply klt_nil_cons|].
  assert ((if ascii_dec c d then String.prefix p k else false) = true ↔ c = d ∧ String.prefix p k = true) as ->.
  { destruct (ascii_dec c d); naive_solver. }
  rewrite IH, klt_cons. pose proof (byte_lt_255 d) as Hd.
  destruct (upperOf (String.list_ascii_of_string p)) as [u|]; simpl.
  - rewrite klt_cons. split; [intros (-> & ? & ?); split; [intros [?|[_ ?]]; [lia|done]|by right]|].
    intros [Hn [Hlt|[-> Hk]]]; [destruct Hn; by left|]. split_and!; [done| |done]. intros ?. apply Hn. by right.
  - destruct (decide (c ≠ byteFF)) as [Hc|Hc]; simpl.
    + rewrite klt_cons. assert (N_of_ascii c < 255)%N as Hlt.
      { pose proof (byte_lt_255 c). assert (N_of_ascii c ≠ 255%N); [|lia]. intros E. apply Hc. by apply N_of_ascii_inj. }
      rewrite N_ascii_embedding by lia. split.
      * intros (-> & Hn & _). split; [intros [?|[_ ?]]; [lia|done]|left; lia].
      * intros [Hn [Hl|[-> []%klt_nil_r]]]. assert (d = c) as ->.
        { apply N_of_ascii_inj. assert (¬ (N_of_ascii d < N_of_ascii c)%N) by (intros ?; apply Hn; by left). lia. }
        split_and!; [done| |done]. intros ?. apply Hn. by right.
    + apply dec_stable in Hc. subst c.  change (N_of_ascii (byteFF)) with 255%N. split.
      * intros (<- & Hn & _). split; [|done]. change (N_of_ascii (byteFF)) with 255%N. intros [?|[_ ?]]; [lia|done].
      * intros [Hn _]. assert (d = byteFF) as ->.
        { apply N_of_ascii_inj. change (N_of_ascii (byteFF)) with 255%N.
          assert (¬ (N_of_ascii d < 255)%N) by (intros ?; apply Hn; by left). lia. }
        split_and!; [done| |done]. intros ?. apply Hn. by right.
Qed.

Lemma prefixUpperBound_spec p k :
  let '(upper, bounded) := prefixUpperBound p in
  String.prefix p k = true ↔ ¬ klt k p ∧ (bounded = true → klt k upper).
Proof.
  unfold prefixUpperBound. rewrite upperFromEnd_reverse. pose proof (prefix_range_spec p k) as Hp.
  destruct (upperOf (String.list_ascii_of_string p)) as [u|]; simpl in *; rewrite Hp; [rewrite reverse_involutive|]; naive_solver.
Qed.

(** ** The merged list *)

Section merged.
Context {V : Type}.
Implicit Types (R : list (frozenEntry V)) (es : list (deltaEntry V)) (e : deltaEntry V).

Definition pairs R : list (string * V) := (λ b, (frozenEntry_key b, frozenEntry_value b)) <$> R.

(** The base entries before a key, and those after it. *)
Fixpoint splitBefore (key : string) R : list (frozenEntry V) * list (frozenEntry V) :=
  match R with
  | [] => ([], [])
  | b :: R' =>
      if decide (klt (frozenEntry_key b) key) then let '(l, r) := splitBefore key R' in (b :: l, r)
      else if decide (frozenEntry_key b = key) then ([], R') else ([], R)
  end.

Definition visible e : list (string * V) :=
  if deltaEntry_present e then [(deltaEntry_key e, deltaEntry_value e)] else [].

(** What is visited up to the last delta entry, and the base left over. *)
Fixpoint merge_ R es : list (string * V) * list (frozenEntry V) :=
  match es with
  | [] => ([], R)
  | e :: es' =>
      let '(l, r) := splitBefore (deltaEntry_key e) R in
      let '(l', r') := merge_ r es' in (pairs l ++ visible e ++ l', r')
  end.

Definition merged R es : list (string * V) := (merge_ R es).1 ++ pairs (merge_ R es).2.

Lemma merge_app R xs ys :
  merge_ R (xs ++ ys) = ((merge_ R xs).1 ++ (merge_ (merge_ R xs).2 ys).1, (merge_ (merge_ R xs).2 ys).2).
Proof.
  revert R. induction xs as [|e xs IH]; intros R; simpl; [by destruct (merge_ R ys)|].
  destruct (splitBefore (deltaEntry_key e) R) as [l r]. rewrite IH. destruct (merge_ r xs) as [l' r']. simpl.
  by rewrite <-!app_assoc.
Qed.

Lemma splitBefore_spec key R :
  StronglySorted klt (keysOf R) →
  ∃ mid, R = (splitBefore key R).1 ++ mid ++ (splitBefore key R).2
    ∧ Forall (λ b, klt (frozenEntry_key b) key) (splitBefore key R).1
    ∧ Forall (λ b, frozenEntry_key b = key) mid
    ∧ Forall (λ b, klt key (frozenEntry_key b)) (splitBefore key R).2.
Proof.
  induction R as [|b R IH]; simpl; [by exists []|]. rewrite StronglySorted_cons. intros [Hb Hs].
  assert (Forall (λ b', klt (frozenEntry_key b) (frozenEntry_key b')) R) as Hb'.
  { unfold keysOf in Hb. by rewrite Forall_fmap in Hb. }
  destruct (decide (klt (frozenEntry_key b) key)) as [Hlt|Hge].
  - destruct (IH Hs) as (mid & HR & Hl & Hm & Hr). destruct (splitBefore key R) as [l r]. simpl in *.
    exists mid. split_and!; [by rewrite HR at 1|by constructor|done..].
  - case_decide as Heq; simpl.
    + exists [b]. split_and!; [done..|by constructor|]. subst key. exact Hb'.
    + exists []. assert (klt key (frozenEntry_key b)) as Hk by (destruct (klt_trichotomy (frozenEntry_key b) key) as [?|[?|?]]; done).
      split_and!; [done..|]. constructor; [done|]. eapply Forall_impl; [exact Hb'|]. intros b' ?. by etrans.
Qed.

Lemma pairs_elem R k v : (k, v) ∈ pairs R → k ∈ keysOf R.
Proof. intros (b & [= -> ->] & Hb)%list_elem_of_fmap. by apply list_elem_of_fmap_2. Qed.

Lemma pairs_app R R' : pairs (R ++ R') = pairs R ++ pairs R'.
Proof. apply fmap_app. Qed.

Lemma pairs_keys R : (pairs R).*1 = keysOf R.
Proof. unfold pairs, keysOf. by rewrite <-list_fmap_compose. Qed.

(** A visible entry of the merge: the delta decides where it has an entry. *)
Definition shows R es (k : string) (v : V) : Prop :=
  match entryOf es k with Some e => entryValue e = Some v | None => (k, v) ∈ pairs R end.

Lemma merged_cons R e es :
  merged R (e :: es)
  = pairs (splitBefore (deltaEntry_key e) R).1 ++ visible e ++ merged (splitBefore (deltaEntry_key e) R).2 es.
Proof.
  unfold merged. simpl. destruct (splitBefore (deltaEntry_key e) R) as [l r]. simpl.
  destruct (merge_ r es) as [l' r']. simpl. by rewrite <-!app_assoc.
Qed.

Lemma merged_elem R es k v :
  StronglySorted klt (keysOf R) → ordered es → (k, v) ∈ merged R es ↔ shows R es k v.
Proof.
  revert R. induction es as [|e es IH]; intros R HR Hes; [done|].
  apply StronglySorted_cons in Hes as [He Hes]. rewrite merged_cons, !elem_of_app.
  destruct (splitBefore_spec (deltaEntry_key e) R HR) as (mid & HRe & Hl & Hm & Hr).
  set (l := (splitBefore (deltaEntry_key e) R).1) in *. set (r := (splitBefore (deltaEntry_key e) R).2) in *.
  assert (StronglySorted klt (keysOf r)) as Hsr.
  { rewrite HRe in HR. unfold keysOf in HR. rewrite !fmap_app in HR. by do 2 apply StronglySorted_app_1_r in HR. }
  rewrite IH by done. unfold shows at 2. simpl.
  assert (∀ b, (k, v) ∈ pairs b → ∃ x, x ∈ b ∧ frozenEntry_key x = k) as Hin.
  { intros b (x & [= -> ->] & Hx)%list_elem_of_fmap. by exists x. }
  assert (shows r es k v → klt (deltaEntry_key e) k) as Hgt.
  { unfold shows. destruct (entryOf es k) as [e'|] eqn:He'.
    - intros _. apply entryOf_Some in He' as [Hin' <-]. by eapply Forall_forall in He.
    - intros (x & Hx & <-)%Hin. by eapply Forall_forall in Hr. }
  destruct (decide (deltaEntry_key e = k)) as [<-|Hne].
  - unfold visible, entryValue. split.
    + intros [(x & Hx & Hk)%Hin|[Hv|Hs%Hgt]].
      * eapply Forall_forall in Hl; [|exact Hx]. simpl in Hl. rewrite Hk in Hl. by apply klt_irrefl in Hl.
      * destruct (deltaEntry_present e); [|set_solver]. apply list_elem_of_singleton in Hv. congruence.
      * by apply klt_irrefl in Hs.
    + intros Hv. right; left. destruct (deltaEntry_present e); [|done]. apply list_elem_of_singleton. congruence.
  - assert ((k, v) ∉ visible e) as Hnv.
    { unfold visible. destruct (deltaEntry_present e); set_solver. }
    rewrite HRe, !pairs_app.
    assert ((k, v) ∉ pairs mid) as Hnm.
    { intros (x & Hx & Hk)%Hin. eapply Forall_forall in Hm; [|exact Hx]. simpl in Hm. congruence. }
    unfold shows in *. destruct (entryOf es k) as [e'|] eqn:He'; [|rewrite !elem_of_app; tauto]. split; [|tauto].
    intros [(x & Hx & Hk)%Hin|[?|?]]; [|done|done]. exfalso.
    apply entryOf_Some in He' as [Hin' Hk']. eapply Forall_forall in He; [|exact Hin']. eapply Forall_forall in Hl; [|exact Hx].
    simpl in Hl. unfold elt in He. rewrite Hk', <-Hk in He. by apply (klt_asym _ _ He).
Qed.

Lemma merged_sorted R es :
  StronglySorted klt (keysOf R) → ordered es → StronglySorted klt ((merged R es).*1).
Proof.
  revert R. induction es as [|e es IH]; intros R HR Hes; [unfold merged; simpl; by rewrite pairs_keys|].
  pose proof Hes as [He Hes']%StronglySorted_cons.
  rewrite merged_cons. destruct (splitBefore_spec (deltaEntry_key e) R HR) as (mid & HRe & Hl & Hm & Hr).
  set (l := (splitBefore (deltaEntry_key e) R).1) in *. set (r := (splitBefore (deltaEntry_key e) R).2) in *.
  rewrite HRe in HR. unfold keysOf in HR. rewrite !fmap_app in HR.
  assert (StronglySorted klt (keysOf r)) as Hsr by by do 2 apply StronglySorted_app_1_r in HR.
  apply StronglySorted_app_1_l in HR. rewrite !fmap_app, pairs_keys.
  assert (∀ k, k ∈ (merged r es).*1 → klt (deltaEntry_key e) k) as Hgt.
  { intros k ([k' v] & -> & Hkv)%list_elem_of_fmap. apply merged_elem in Hkv; [|done..]. unfold shows in Hkv. simpl.
    destruct (entryOf es k') as [e'|] eqn:He'.
    - apply entryOf_Some in He' as [Hin <-]. by eapply Forall_forall in He.
    - apply pairs_elem in Hkv as (x & -> & Hx)%list_elem_of_fmap. by eapply Forall_forall in Hr. }
  assert (∀ k, k ∈ keysOf l → klt k (deltaEntry_key e)) as Hlt.
  { intros k (x & -> & Hx)%list_elem_of_fmap. by eapply Forall_forall in Hl. }
  assert (∀ k, k ∈ (visible e).*1 → k = deltaEntry_key e) as Hvis.
  { intros k. unfold visible. destruct (deltaEntry_present e); set_solver. }
  apply StronglySorted_app_2; [|done|].
  - intros x y Hx [->%Hvis|Hy%Hgt]%elem_of_app; [by apply Hlt|]. etrans; [by apply Hlt|done].
  - apply StronglySorted_app_2; [|unfold visible; destruct (deltaEntry_present e); by repeat constructor|by apply IH].
    intros x y ->%Hvis Hy. by apply Hgt.
Qed.
End merged.

(** ** The code visits the merged list *)

Section visiting.
Context {V S : Type} (visit : S → string → V → S * bool).
Implicit Types (base R : list (frozenEntry V)) (es : list (deltaEntry V)) (w : mergedWalk (S := S)).

(** Visiting a list until the visitor stops. *)
Fixpoint visitAll (s : S) (l : list (string * V)) : S * bool :=
  match l with
  | [] => (s, false)
  | (k, v) :: l' =>
      let '(s', stopped) := visit s k v in if stopped : bool then (s', true) else visitAll s' l'
  end.

Lemma visitAll_app s l l' :
  visitAll s (l ++ l') = if (visitAll s l).2 then visitAll s l else visitAll (visitAll s l).1 l'.
Proof.
  revert s. induction l as [|[k v] l IH]; intros s; simpl; [done|]. destruct (visit s k v) as [s' []]; [done|]. apply IH.
Qed.

(** The base a walk has still to visit. *)
Definition left_ base (end_ : nat) w : list (frozenEntry V) := drop (walk_next w) (take end_ base).

(** [w'] is [w] after visiting [l]; unless it stopped, [r] is left. *)
Definition visited base (end_ : nat) w (l : list (string * V)) (r : list (frozenEntry V)) w' : Prop :=
  (walk_state w', walk_stopped w') = visitAll (walk_state w) l
  ∧ (walk_stopped w' = false → left_ base end_ w' = r).

Lemma visited_app base end_ w l r w1 l' r' w2 :
  visited base end_ w l r w1 → walk_stopped w1 = false → visited base end_ w1 l' r' w2 →
  visited base end_ w (l ++ l') r' w2.
Proof.
  intros [Hv _] Hs [Hv' Hr']. split; [|done]. rewrite visitAll_app, <-Hv. simpl. by rewrite Hs.
Qed.

Lemma visited_stopped base end_ w l r w1 l' r' :
  visited base end_ w l r w1 → walk_stopped w1 = true → visited base end_ w (l ++ l') r' w1.
Proof.
  intros [Hv _] Hs. split; [|congruence]. rewrite visitAll_app, <-Hv. simpl. by rewrite Hs.
Qed.

Lemma left_cons base end_ w b R :
  left_ base end_ w = b :: R →
  (walk_next w < end_)%nat ∧ base !! walk_next w = Some b
  ∧ ∀ s stopped, left_ base end_ (MkWalk (Datatypes.S (walk_next w)) s stopped) = R.
Proof.
  unfold left_. intros Hd. assert (take end_ base !! walk_next w = Some b) as Hl.
  { by rewrite <-(Nat.add_0_r (walk_next w)), <-lookup_drop, Hd. }
  pose proof Hl as [Hl1 Hl2]%lookup_take_Some. split_and!; [done..|]. intros s stopped. simpl.
  erewrite drop_S in Hd by done. by simplify_eq.
Qed.

Lemma left_nil base end_ w : left_ base end_ w = [] → (walk_next w <? end_)%nat = true → (length base ≤ walk_next w)%nat.
Proof. unfold left_. intros Hd%(f_equal length) Hlt%Nat.ltb_lt. rewrite length_drop, length_take in Hd. simpl in Hd. lia. Qed.

(** Positions stay inside the base, so no read is out of range. *)
Lemma flushBaseBefore_key fuel base end_ key w :
  (end_ ≤ length base)%nat → (length (left_ base end_ w) < fuel)%nat → walk_stopped w = false →
  ∃ w', flushBaseBefore visit fuel base end_ key true w = Some w'
    ∧ visited base end_ w (pairs (splitBefore key (left_ base end_ w)).1) (splitBefore key (left_ base end_ w)).2 w'.
Proof.
  intros Hend. revert w. induction fuel as [|fuel IH]; intros w Hf Hs; [lia|]. cbn [flushBaseBefore].
  destruct (left_ base end_ w) as [|b R] eqn:HR.
  - destruct (walk_next w <? end_)%nat eqn:Hlt.
    + pose proof (left_nil _ _ _ HR Hlt). apply Nat.ltb_lt in Hlt. lia.
    + exists w. split; [done|]. split; [simpl; by rewrite Hs|by rewrite HR].
  - destruct (left_cons _ _ _ _ _ HR) as (Hlt & -> & Hrest). rewrite (proj2 (Nat.ltb_lt _ _) Hlt). cbn [mbind option_bind negb orb].
    simpl splitBefore. case_bool_decide as Hk.
    + rewrite decide_True by done. destruct (visit (walk_state w) (frozenEntry_key b) (frozenEntry_value b)) as [s stopped] eqn:Hv.
      destruct (splitBefore key R) as [l r] eqn:Hsp. simpl. destruct stopped.
      * eexists. split; [done|]. split; [simpl; by rewrite Hv|done].
      * destruct (IH (MkWalk (Datatypes.S (walk_next w)) s false)) as (w' & Hw' & [Hv' Hr']); [rewrite Hrest; simpl in Hf; lia|done|].
        exists w'. split; [done|]. rewrite Hrest, Hsp in *. split; [|done]. simpl. by rewrite Hv.
    + rewrite decide_False by done. case_bool_decide as He; simpl.
      * rewrite decide_True by done. eexists. split; [done|]. split; [simpl; by rewrite Hs|]. intros _. by rewrite Hrest.
      * rewrite decide_False by done. exists w. split; [done|]. split; [simpl; by rewrite Hs|by rewrite HR].
Qed.

Lemma flushBaseBefore_rest fuel base end_ w :
  (end_ ≤ length base)%nat → (length (left_ base end_ w) < fuel)%nat → walk_stopped w = false →
  ∃ w', flushBaseBefore visit fuel base end_ EmptyString false w = Some w'
    ∧ (walk_state w', walk_stopped w') = visitAll (walk_state w) (pairs (left_ base end_ w)).
Proof.
  intros Hend. revert w. induction fuel as [|fuel IH]; intros w Hf Hs; [lia|]. cbn [flushBaseBefore].
  destruct (left_ base end_ w) as [|b R] eqn:HR.
  - destruct (walk_next w <? end_)%nat eqn:Hlt.
    + pose proof (left_nil _ _ _ HR Hlt). apply Nat.ltb_lt in Hlt. lia.
    + exists w. split; [done|]. simpl. by rewrite Hs.
  - destruct (left_cons _ _ _ _ _ HR) as (Hlt & -> & Hrest). rewrite (proj2 (Nat.ltb_lt _ _) Hlt). cbn [mbind option_bind negb orb].
    destruct (visit (walk_state w) (frozenEntry_key b) (frozenEntry_value b)) as [s stopped] eqn:Hv. simpl. rewrite Hv. destruct stopped.
    + by eexists.
    + destruct (IH (MkWalk (Datatypes.S (walk_next w)) s false)) as (w' & Hw' & Hv'); [rewrite Hrest; simpl in Hf; lia|done|].
      exists w'. split; [done|]. by rewrite Hrest in Hv'.
Qed.

(** The entries of a range. *)
Definition inRange (lower upper : string) (bounded : bool) (k : string) : Prop :=
  ¬ klt k lower ∧ (bounded = true → klt k upper).

#[export] Instance inRange_dec lower upper bounded k : Decision (inRange lower upper bounded k).
Proof. unfold inRange. apply _. Defined.

Lemma left_length base end_ w : (length (left_ base end_ w) < Datatypes.S (length base))%nat.
Proof. unfold left_. rewrite length_drop, length_take. lia. Qed.

(** One delta entry in range. *)
Lemma visit_entry base end_ e w :
  (end_ ≤ length base)%nat → walk_stopped w = false →
  ∃ w', (w1 ← flushBaseBefore visit (Datatypes.S (length base)) base end_ (deltaEntry_key e) true w;
         if negb (walk_stopped w1) && deltaEntry_present e then
           let '(s, stopped) := visit (walk_state w1) (deltaEntry_key e) (deltaEntry_value e) in
           Some (MkWalk (walk_next w1) s stopped)
         else Some w1) = Some w'
    ∧ visited base end_ w (merge_ (left_ base end_ w) [e]).1 (merge_ (left_ base end_ w) [e]).2 w'.
Proof.
  intros Hend Hs. destruct (flushBaseBefore_key (Datatypes.S (length base)) base end_ (deltaEntry_key e) w)
    as (w1 & -> & Hv); [done|apply left_length|done|]. cbn [mbind option_bind]. simpl.
  destruct (splitBefore (deltaEntry_key e) (left_ base end_ w)) as [l r] eqn:Hsp. simpl in *. rewrite app_nil_r.
  destruct (walk_stopped w1) eqn:Hs1; simpl; [exists w1; split; [done|]; by eapply visited_stopped|].
  unfold visible. destruct (deltaEntry_present e); [|exists w1; by rewrite app_nil_r].
  destruct (visit (walk_state w1) (deltaEntry_key e) (deltaEntry_value e)) as [s stopped] eqn:Hvis.
  eexists. split; [done|]. eapply visited_app; [done..|]. split; simpl; [rewrite Hvis; by destruct stopped|].
  intros _. destruct Hv as [_ Hr]. unfold left_ in *. by apply Hr.
Qed.

Lemma walkDelta_spec base end_ node lower upper bounded w :
  (end_ ≤ length base)%nat → ordered (entries node) → walk_stopped w = false →
  ∃ w', walkDelta visit base end_ node lower upper bounded w = Some w'
    ∧ let es := filter (λ e, inRange lower upper bounded (deltaEntry_key e)) (entries node) in
      visited base end_ w (merge_ (left_ base end_ w) es).1 (merge_ (left_ base end_ w) es).2 w'.
Proof.
  intros Hend. revert w. induction node as [|e l IHl r IHr h]; intros w Ho Hs.
  { exists w. split; [done|]. split; [simpl; by rewrite Hs|done]. }
  cbn [walkDelta entries]. rewrite Hs. simpl entries in Ho. apply ordered_middle in Ho as (Hol & Hor & Hlt & Hgt).
  destruct (compareStringBytes_spec (deltaEntry_key e) lower) as (_ & _ & Hc).
  set (P := λ e, inRange lower upper bounded (deltaEntry_key e)).
  cbv zeta. rewrite filter_app, merge_app. cbn [fst snd].
  (* the left subtree *)
  assert (∃ w1, (if 0 <=? compareStringBytes (deltaEntry_key e) lower
                 then walkDelta visit base end_ l lower upper bounded w else Some w) = Some w1
    ∧ visited base end_ w (merge_ (left_ base end_ w) (filter P (entries l))).1
        (merge_ (left_ base end_ w) (filter P (entries l))).2 w1) as (w1 & -> & Hv1).
  { destruct (Z.leb_spec 0 (compareStringBytes (deltaEntry_key e) lower)) as [Hge|Hle]; [by apply IHl|].
    exists w. split; [done|]. assert (klt (deltaEntry_key e) lower) as Hk.
    { destruct (decide (klt (deltaEntry_key e) lower)) as [|Hn]; [done|]. apply Hc in Hn. lia. }
    rewrite filter_none; [split; [simpl; by rewrite Hs|done]|].
    eapply Forall_impl; [exact Hlt|]. intros x Hx [Hn _]. apply Hn. etrans; [exact Hx|done]. }
  cbn [mbind option_bind]. destruct (walk_stopped w1) eqn:Hs1; [exists w1; split; [done|]; by eapply visited_stopped|].
  pose proof (proj2 Hv1 Hs1) as Hleft1.
  assert (filter P (e :: entries r) = filter P [e] ++ filter P (entries r)) as -> by apply (filter_app P [e]).
  rewrite merge_app. cbn [fst snd].
  assert (((0 <=? compareStringBytes (deltaEntry_key e) lower) && (negb bounded || bool_decide (klt (deltaEntry_key e) upper)) = true)
          ↔ P e) as Hin.
  { unfold P, inRange. rewrite andb_true_iff, orb_true_iff, negb_true_iff, bool_decide_eq_true, Z.leb_le, Hc.
    destruct bounded; naive_solver. }
  (* the entry itself *)
  assert (∃ w2, (if (0 <=? compareStringBytes (deltaEntry_key e) lower) && (negb bounded || bool_decide (klt (deltaEntry_key e) upper))
     then w' ← flushBaseBefore visit (Datatypes.S (length base)) base end_ (deltaEntry_key e) true w1;
          if negb (walk_stopped w') && deltaEntry_present e then
            let '(s, stopped) := visit (walk_state w') (deltaEntry_key e) (deltaEntry_value e) in
            Some (MkWalk (walk_next w') s stopped)
          else Some w'
     else Some w1) = Some w2
    ∧ visited base end_ w1 (merge_ (left_ base end_ w1) (filter P [e])).1 (merge_ (left_ base end_ w1) (filter P [e])).2 w2)
    as (w2 & -> & Hv2).
  { destruct (_ && _) eqn:Hb.
    - rewrite filter_cons_True by by apply Hin. by apply visit_entry.
    - rewrite filter_cons_False; [exists w1; split; [done|]; split; [simpl; by rewrite Hs1|done]|].
      intros HP%Hin. congruence. }
  cbn [mbind option_bind]. rewrite Hleft1 in Hv2.
  destruct (walk_stopped w2) eqn:Hs2; cbn [negb andb].
  { exists w2. split; [done|]. eapply visited_app; [done..|]. by eapply visited_stopped. }
  pose proof (proj2 Hv2 Hs2) as Hleft2.
  (* the right subtree *)
  destruct (negb bounded || bool_decide (klt (deltaEntry_key e) upper)) eqn:Hb.
  - destruct (IHr w2 Hor Hs2) as (w3 & -> & Hv3). exists w3. split; [done|]. cbv zeta in Hv3. fold P in Hv3.
    rewrite Hleft2 in Hv3. eapply visited_app; [done..|]. by eapply visited_app.
  - exists w2. split; [done|]. apply orb_false_iff in Hb as [Hb1%negb_false_iff Hb2%bool_decide_eq_false].
    rewrite (filter_none P (entries r)).
    + eapply visited_app; [done..|]. simpl. rewrite app_nil_r. done.
    + eapply Forall_impl; [exact Hgt|]. intros x Hx [_ Hn]. apply Hb2. etrans; [exact Hx|]. by apply Hn.
Qed.

Lemma walkRange_spec (n : TreeNode V) next end_ lower upper bounded s :
  (end_ ≤ length (Node_base n))%nat → ordered (entries (Node_delta n)) →
  walkRange visit n next end_ lower upper bounded s
  = Some (visitAll s (merged (drop next (take end_ (Node_base n)))
                        (filter (λ e, inRange lower upper bounded (deltaEntry_key e)) (entries (Node_delta n))))).
Proof.
  intros Hend Ho. unfold walkRange.
  destruct (walkDelta_spec (Node_base n) end_ (Node_delta n) lower upper bounded (MkWalk next s false) Hend Ho eq_refl)
    as (w & -> & [Hv Hr]). cbn [mbind option_bind]. cbv zeta in *. change (left_ _ _ (MkWalk next s false)) with (drop next (take end_ (Node_base n))) in *.
  unfold merged. rewrite visitAll_app. simpl walk_state in Hv. rewrite <-Hv. cbn [fst snd].
  destruct (walk_stopped w) eqn:Hs; cbn [negb mbind option_bind]; [by rewrite Hs|].
  destruct (flushBaseBefore_rest (Datatypes.S (length (Node_base n))) (Node_base n) end_ w)
    as (w' & -> & Hv'); [done|apply left_length|done|]. cbn [mbind option_bind]. by rewrite Hv', Hr.
Qed.
End visiting.
