(* ===== verification/TreeClaims.v ===== *)
(** * What the persistent tree promises

    Transactions refine operations on a finite map, walks visit the entries of
    a range in key order, and the extreme keys are the ends of that order, for
    every tree that can be built. *)

From Stdlib Require Import ZArith Lia.
From stdpp Require Import base list numbers strings option sorting sets gmap.
From S2P Require Import Prelude KeyOrder DeltaTree DeltaHash DeltaHashProps PersistentTree FrozenBase PersistentTreeProps TreeWalk.
Open Scope Z_scope.

(** ** Reachable trees *)

Section runs.
Context {V : Type} (zero : V) `{MapHash} `{Identity V}.
Implicit Types (m : gmap string V).

(** What a caller does with a transaction; [OpRenew] commits it and starts the
    next one from the committed tree. *)
Inductive treeOp :=
  | OpGet (key : string)
  | OpInsert (key : string) (value : V)
  | OpDelete (key : string)
  | OpRoot
  | OpRenew.

Definition txnStep (t : Txn V) (op : treeOp) : option (Txn V * list (V * bool)) :=
  match op with
  | OpGet key => r ← Txn_Get zero (Some t) key; Some (t, [r])
  | OpInsert key value => '(t', r) ← Txn_Insert zero t key value; Some (t', [r])
  | OpDelete key => '(t', r) ← Txn_Delete zero t key; Some (t', [r])
  | OpRoot => Some (fst (Txn_Root t), [])
  | OpRenew => Some (Tree_Txn (snd (Txn_Commit t)), [])
  end.

Fixpoint runTxn (t : Txn V) (ops : list treeOp) : option (Txn V * list (V * bool)) :=
  match ops with
  | [] => Some (t, [])
  | op :: ops' =>
      '(t1, r) ← txnStep t op;
      '(t2, rs) ← runTxn t1 ops';
      Some (t2, r ++ rs)
  end.

(** The same on a map. *)
Definition mapStep m (op : treeOp) : gmap string V * list (V * bool) :=
  match op with
  | OpGet key => (m, [answer zero m key])
  | OpInsert key value => (<[key:=value]> m, [answer zero m key])
  | OpDelete key => (delete key m, [answer zero m key])
  | OpRoot | OpRenew => (m, [])
  end.

Fixpoint runMap m (ops : list treeOp) : gmap string V * list (V * bool) :=
  match ops with
  | [] => (m, [])
  | op :: ops' =>
      let '(m1, r) := mapStep m op in let '(m2, rs) := runMap m1 ops' in (m2, r ++ rs)
  end.

(** The trees that can be built, with the map each stands for. *)
Inductive reaches : option (Tree V) → gmap string V → Prop :=
  | reaches_nil : reaches None ∅
  | reaches_new entries t :
      Z.of_nat (length entries) < 2 ^ 32 → NewFromSorted entries = Some (inl t) →
      reaches (Some t) (entriesMap entries)
  | reaches_run t m ops txn outs :
      reaches t m → runTxn (Tree_Txn t) ops = Some (txn, outs) →
      reaches (snd (Txn_Commit txn)) (runMap m ops).1.

Lemma txnStep_spec t m op :
  txnOf zero t m → ∃ t', txnStep t op = Some (t', (mapStep m op).2) ∧ txnOf zero t' (mapStep m op).1.
Proof.
  intros Ht. destruct op as [key|key v|key| |]; simpl.
  - pose proof (get_spec _ _ _ _ _ _ _ _ key (txn_state _ _ _ Ht)) as Hg. simpl in Hg. rewrite Hg. by exists t.
  - destruct (Txn_Insert_spec zero t m key v Ht) as (t' & -> & Ht'). by exists t'.
  - destruct (Txn_Delete_spec zero t m key Ht) as (t' & -> & Ht'). by exists t'.
  - eexists. split; [done|]. by apply Txn_Root_spec.
  - eexists. split; [done|]. by apply Tree_Txn_of, Txn_Commit_spec.
Qed.

Lemma runTxn_spec t m ops :
  txnOf zero t m → ∃ t', runTxn t ops = Some (t', (runMap m ops).2) ∧ txnOf zero t' (runMap m ops).1.
Proof.
  revert t m. induction ops as [|op ops IH]; intros t m Ht; simpl; [by exists t|].
  destruct (txnStep_spec t m op Ht) as (t1 & -> & Ht1). destruct (mapStep m op) as [m1 r]. simpl in *.
  destruct (IH t1 m1 Ht1) as (t2 & -> & Ht2). destruct (runMap m1 ops) as [m2 rs]. by exists t2.
Qed.

Lemma reaches_treeOf t m : reaches t m → treeOf zero t m.
Proof.
  induction 1 as [|entries t Hlen Hnew|t m ops txn outs _ IH Hrun]; [done| |].
  - pose proof (NewFromSorted_spec zero entries Hlen) as Hs. destruct (strictlyOrdered entries); [|congruence].
    destruct Hs as (t' & Ht' & Hm). congruence.
  - destruct (runTxn_spec _ _ ops (Tree_Txn_of zero _ _ IH)) as (txn' & Hrun' & Ht').
    rewrite Hrun in Hrun'. injection Hrun' as <- _. by apply Txn_Commit_spec.
Qed.

(** C5: for every tree that can be built, every sequence of reads, insertions,
    deletions, snapshots and commits ends, never reaches the panic on diverged
    indexes, and answers what the same sequence answers on a finite map; the
    committed tree then has the map's size and reads as the map, whatever the
    hash function and whatever pointers happen to be shared. *)
Theorem tree_refines_map t m ops :
  reaches t m →
  ∃ txn, runTxn (Tree_Txn t) ops = Some (txn, (runMap m ops).2)
    ∧ Tree_Len (snd (Txn_Commit txn)) = Z.of_nat (size (runMap m ops).1)
    ∧ ∀ key, Node_Get zero (Tree_Root (snd (Txn_Commit txn))) key = Some (answer zero (runMap m ops).1 key).
Proof.
  intros Ht%reaches_treeOf. destruct (runTxn_spec _ _ ops (Tree_Txn_of zero _ _ Ht)) as (txn & Hrun & Htxn).
  exists txn. split; [done|]. pose proof (proj2 (Txn_Commit_spec zero _ _ Htxn)) as Hc.
  split; [by eapply Tree_Len_spec|]. intros key. by apply Node_Get_spec.
Qed.

(** ** Walks *)

Lemma ordered_filter (P : deltaEntry V → Prop) `{∀ e, Decision (P e)} es : ordered es → ordered (filter P es).
Proof.
  unfold ordered. induction 1 as [|x es Hs IH Hx]; [constructor|].
  rewrite filter_cons. case_decide; [|done]. constructor; [done|].
  apply Forall_forall. intros y [_ Hy]%list_elem_of_filter. by eapply Forall_forall in Hx.
Qed.

Lemma entryOf_filter (P : string → Prop) `{∀ k, Decision (P k)} es k :
  entryOf (filter (λ e : deltaEntry V, P (deltaEntry_key e)) es) k = if decide (P k) then entryOf es k else None.
Proof.
  induction es as [|e es IH]; simpl; [by case_decide|]. rewrite filter_cons.
  destruct (decide (P (deltaEntry_key e))) as [He|He]; simpl; rewrite IH.
  - destruct (decide (deltaEntry_key e = k)) as [<-|]; [by rewrite decide_True|done].
  - destruct (decide (deltaEntry_key e = k)) as [<-|]; [by rewrite !decide_False|done].
Qed.

Lemma baseMap_pairs base k v :
  StronglySorted klt (keysOf base) → baseMap base !! k = Some v ↔ (k, v) ∈ pairs (V := V) base.
Proof.
  intros Hs. split; [apply elem_of_list_to_map_2|].
  intros (b & [= -> ->] & [i Hi]%list_elem_of_lookup)%list_elem_of_fmap. by eapply baseMap_lookup.
Qed.

(** The base entries of a range are a slice of the base. *)
Lemma range_slice (base : list (frozenEntry V)) next end_ lower upper bounded b :
  splits (λ k, bool_decide (klt k lower)) base next → (end_ ≤ length base)%nat →
  (if bounded : bool then splits (λ k, bool_decide (klt k upper)) base end_ else end_ = length base) →
  b ∈ drop next (take end_ base) ↔ b ∈ base ∧ inRange lower upper bounded (frozenEntry_key b).
Proof.
  intros [_ Hlo] Hend Hup. rewrite !list_elem_of_lookup. setoid_rewrite lookup_drop. setoid_rewrite lookup_take_Some.
  assert (∀ i, base !! i = Some b → inRange lower upper bounded (frozenEntry_key b) ↔ (next ≤ i < end_)%nat) as Hrange.
  { intros i Hi. pose proof (Hlo i b Hi) as Hl. unfold inRange.
    assert (¬ klt (frozenEntry_key b) lower ↔ (next ≤ i)%nat) as ->.
    { repeat case_bool_decide; try done; split; intros; (done || lia). }
    assert ((bounded = true → klt (frozenEntry_key b) upper) ↔ (i < end_)%nat) as ->.
    { destruct bounded; [|apply lookup_lt_Some in Hi; subst; split; [lia|done]].
      destruct Hup as [_ Hup]. pose proof (Hup i b Hi) as Hu. repeat case_bool_decide; try done; split; intros; naive_solver. }
    done. }
  split.
  - intros (i & Hi & Hlt). split; [by eexists|]. apply (Hrange _ Hi). lia.
  - intros [[i Hi] Hr]. apply (Hrange _ Hi) in Hr. exists (i - next)%nat.
    replace (next + (i - next))%nat with i by lia. split; [done|lia].
Qed.

Lemma slice_sorted (base : list (frozenEntry V)) next end_ :
  StronglySorted klt (keysOf base) → StronglySorted klt (keysOf (drop next (take end_ base))).
Proof.
  intros Hs. unfold keysOf in *. rewrite fmap_drop, fmap_take. rewrite <-(take_drop end_ (frozenEntry_key <$> base)) in Hs.
  apply StronglySorted_app_1_l in Hs. rewrite <-(take_drop next (take _ _)) in Hs. by apply StronglySorted_app_1_r in Hs.
Qed.

(** The list a walk over a range visits. *)
Lemma range_list n m next end_ lower upper bounded :
  nodeOf zero n m →
  splits (λ k, bool_decide (klt k lower)) (Node_base n) next → (end_ ≤ length (Node_base n))%nat →
  (if bounded : bool then splits (λ k, bool_decide (klt k upper)) (Node_base n) end_ else end_ = length (Node_base n)) →
  let L := merged (drop next (take end_ (Node_base n)))
             (filter (λ e, inRange lower upper bounded (deltaEntry_key e)) (entries (Node_delta n))) in
  StronglySorted klt (L.*1) ∧ ∀ k v, (k, v) ∈ L ↔ m !! k = Some v ∧ inRange lower upper bounded k.
Proof.
  intros [[Hs _] _ Ho _ _ Hm _ _] Hlo Hend Hup L. pose proof (slice_sorted (Node_base n) next end_ Hs) as Hs'.
  pose proof (ordered_filter (λ e, inRange lower upper bounded (deltaEntry_key e)) _ Ho) as Ho'.
  split; [by apply merged_sorted|]. intros k v. unfold L. rewrite merged_elem by done. unfold shows.
  rewrite (entryOf_filter (inRange lower upper bounded)), <-Hm, contents_lookup.
  assert ((k, v) ∈ pairs (drop next (take end_ (Node_base n)))
          ↔ (k, v) ∈ pairs (Node_base n) ∧ inRange lower upper bounded k) as Hp.
  { unfold pairs. rewrite !list_elem_of_fmap. setoid_rewrite (range_slice _ next end_ lower upper bounded); [|done..].
    split; [intros (b & [= -> ->] & ? & ?); naive_solver|intros [(b & [= -> ->] & ?) ?]; naive_solver]. }
  destruct (decide (inRange lower upper bounded k)) as [Hr|Hr].
  - destruct (entryOf (entries (Node_delta n)) k); [tauto|]. rewrite Hp, baseMap_pairs by done. done.
  - rewrite Hp. tauto.
Qed.

(** A strictly ordered list is determined by its elements. *)
Lemma sorted_pairs_unique (l l' : list (string * V)) :
  StronglySorted klt (l.*1) → StronglySorted klt (l'.*1) → (∀ kv, kv ∈ l ↔ kv ∈ l') → l = l'.
Proof.
  revert l'. induction l as [|x l IH]; intros [|y l'] Hs Hs' Hin; [done|set_solver..|].
  simpl in Hs, Hs'. apply StronglySorted_cons in Hs as [Hx Hs], Hs' as [Hy Hs']. rewrite !Forall_fmap, !Forall_forall in Hx, Hy.
  assert (x = y) as ->.
  { assert (x ∈ y :: l') as [?|Hxl]%elem_of_cons by (apply Hin; left); [done|].
    assert (y ∈ x :: l) as [?|Hyl]%elem_of_cons by (apply Hin; left); [done|].
    destruct (klt_asym _ _ (Hx y Hyl)). by apply Hy. }
  f_equal. apply IH; [done..|]. intros kv. specialize (Hin kv). rewrite !elem_of_cons in Hin. split; intros Hkv.
  - destruct (proj1 Hin (or_intror Hkv)) as [->|]; [|done]. by destruct (klt_irrefl _ (Hx y Hkv)).
  - destruct (proj2 Hin (or_intror Hkv)) as [->|]; [|done]. by destruct (klt_irrefl _ (Hy y Hkv)).
Qed.

Lemma sorted_pairs_filter (P : string * V → Prop) `{∀ kv, Decision (P kv)} (l : list (string * V)) :
  StronglySorted klt (l.*1) → StronglySorted klt ((filter P l).*1).
Proof.
  induction l as [|x l IH]; [done|]. simpl. intros [Hx Hs]%StronglySorted_cons. rewrite filter_cons.
  case_decide; [|by apply IH]. simpl. constructor; [by apply IH|]. rewrite Forall_fmap, Forall_forall in Hx |- *.
  intros y [_ Hy]%list_elem_of_filter. by apply Hx.
Qed.

(** The whole walk and the walk of a prefix. *)
Definition walkList (n : option (TreeNode V)) : list (string * V) :=
  match n with None => [] | Some n => merged (Node_base n) (entries (Node_delta n)) end.

Lemma splits_all (base : list (frozenEntry V)) : splits (λ k, bool_decide (klt k EmptyString)) base 0.
Proof.
  split; [lia|]. intros i b _. rewrite !bool_decide_false; [done|lia|apply klt_nil_r].
Qed.

Lemma whole_range (n : TreeNode V) :
  merged (drop 0 (take (length (Node_base n)) (Node_base n)))
    (filter (λ e, inRange EmptyString EmptyString false (deltaEntry_key e)) (entries (Node_delta n)))
  = merged (Node_base n) (entries (Node_delta n)).
Proof.
  rewrite drop_0, firstn_all, filter_all; [done|]. apply Forall_forall. intros e _. split; [apply klt_nil_r|done].
Qed.

Lemma walkList_spec n m :
  snapshotOf zero n m → StronglySorted klt ((walkList n).*1) ∧ ∀ k v, (k, v) ∈ walkList n ↔ m !! k = Some v.
Proof.
  destruct n as [n|]; simpl.
  - intros Hn. destruct (range_list n m 0 (length (Node_base n)) EmptyString EmptyString false Hn) as [Hs Hin];
      [apply splits_all|done..|]. rewrite whole_range in Hs, Hin. split; [done|]. intros k v. rewrite Hin.
    unfold inRange. pose proof (klt_nil_r k). naive_solver.
  - intros ->. split; [constructor|]. intros k v. rewrite lookup_empty. set_solver.
Qed.

Lemma Node_Walk_spec {S} (visit : S → string → V → S * bool) n m s :
  snapshotOf zero n m → Node_Walk visit n s = Some (visitAll visit s (walkList n)).
Proof.
  intros Hn. pose proof (walkList_spec _ _ Hn) as [_ Hin]. destruct n as [n|]; [|done]. simpl in *.
  destruct (Z.eqb_spec (Node_size n) 0) as [Hz|_].
  - apply (nodeOf_size_zero _ _ _ Hn) in Hz as ->. destruct (merged _ _) as [|[k v] l]; [done|].
    pose proof (proj1 (Hin k v) ltac:(left)) as Hk. by rewrite lookup_empty in Hk.
  - rewrite walkRange_spec; [by rewrite whole_range|done|apply (state_ordered _ _ _ _ _ _ _ _ Hn)].
Qed.

Lemma Node_WalkPrefix_spec {S} (visit : S → string → V → S * bool) n m prefix s :
  snapshotOf zero n m →
  Node_WalkPrefix visit n prefix s
  = Some (visitAll visit s (filter (λ kv, String.prefix prefix kv.1 = true) (walkList n))).
Proof.
  intros Hn. pose proof (walkList_spec _ _ Hn) as [Hsorted Hin]. destruct n as [n|]; [|done]. simpl snapshotOf in Hn.
  cbn [Node_WalkPrefix]. destruct (Z.eqb_spec (Node_size n) 0) as [Hz|_].
  - apply (nodeOf_size_zero _ _ _ Hn) in Hz as ->. destruct (walkList (Some n)) as [|[k v] l]; [done|].
    pose proof (proj1 (Hin k v) ltac:(left)) as Hk. by rewrite lookup_empty in Hk.
  - pose proof (prefixUpperBound_spec prefix) as Hup. destruct (prefixUpperBound prefix) as [upper bounded].
    pose proof (base_sorted _ _ (state_base _ _ _ _ _ _ _ _ Hn)) as Hs.
    destruct (lowerBoundBytes_spec (Node_base n) prefix Hs) as (next & -> & Hlo). cbn [mbind option_bind].
    assert (∃ end_, (if bounded then lowerBoundString (Node_base n) upper else Some (length (Node_base n))) = Some end_
      ∧ (end_ ≤ length (Node_base n))%nat
      ∧ if bounded then splits (λ k, bool_decide (klt k upper)) (Node_base n) end_ else end_ = length (Node_base n))
      as (end_ & -> & Hend & Hb).
    { destruct bounded; [|by eexists]. destruct (lowerBoundString_spec (Node_base n) upper Hs) as (end_ & -> & Hsp).
      exists end_. split_and!; [done|apply Hsp|done]. }
    cbn [mbind option_bind]. rewrite walkRange_spec by (done || apply (state_ordered _ _ _ _ _ _ _ _ Hn)).
    destruct (range_list n m next end_ prefix upper bounded Hn Hlo Hend Hb) as [HsL HinL]. do 2 f_equal.
    apply sorted_pairs_unique; [done|by apply sorted_pairs_filter|]. intros [k v].
    rewrite list_elem_of_filter, HinL, Hin, (Hup k). unfold inRange. simpl. tauto.
Qed.

(** ** The ends of the order *)

Lemma firstUnshadowed_spec deltaHash f (l : list (frozenEntry V)) :
  indexes deltaHash f →
  firstUnshadowed deltaHash l = Some (head (filter (λ b, f (frozenEntry_key b) = None) l)).
Proof.
  intros Hi. induction l as [|b l IH]; [done|]. cbn [firstUnshadowed]. rewrite (getDeltaHashString_indexes _ _ _ Hi).
  cbn [mbind option_bind]. rewrite filter_cons. destruct (f (frozenEntry_key b)) eqn:Hf; simpl; [exact IH|done].
Qed.

Lemma sorted_head (l : list (string * V)) k v :
  StronglySorted klt (l.*1) → (k, v) ∈ l → (∀ k' v', (k', v') ∈ l → ¬ klt k' k) → head l = Some (k, v).
Proof.
  destruct l as [|[k0 v0] l]; [set_solver|]. simpl. intros [Hx _]%StronglySorted_cons [?|Hin]%elem_of_cons Hmin; [congruence|].
  exfalso. apply (Hmin k0 v0); [left|]. rewrite Forall_fmap, Forall_forall in Hx. by apply (Hx (k, v)).
Qed.

Lemma sorted_last (l : list (string * V)) k v :
  StronglySorted klt (l.*1) → (k, v) ∈ l → (∀ k' v', (k', v') ∈ l → ¬ klt k k') → last l = Some (k, v).
Proof.
  induction l as [|[k0 v0] l _] using rev_ind; [set_solver|]. rewrite fmap_app, last_snoc. simpl.
  intros [Hc _]%StronglySorted_app [Hin|?%list_elem_of_singleton]%elem_of_app Hmax; [|congruence].
  exfalso. apply (Hmax k0 v0); [set_solver|]. apply Hc; [|left]. by apply (list_elem_of_fmap_2 fst) in Hin.
Qed.

Lemma sorted_head_min (l : list (string * V)) x y :
  StronglySorted klt (l.*1) → head l = Some x → y ∈ l → ¬ klt y.1 x.1.
Proof.
  destruct l as [|z l]; [done|]. simpl. intros [Hz _]%StronglySorted_cons [= ->] [->|Hy]%elem_of_cons; [apply klt_irrefl|].
  rewrite Forall_fmap, Forall_forall in Hz. by apply klt_asym, Hz.
Qed.

Lemma sorted_last_max (l : list (string * V)) x y :
  StronglySorted klt (l.*1) → last l = Some x → y ∈ l → ¬ klt x.1 y.1.
Proof.
  induction l as [|z l _] using rev_ind; [done|]. rewrite fmap_app, last_snoc. simpl.
  intros [Hc _]%StronglySorted_app [= ->] [Hy|Hy%list_elem_of_singleton]%elem_of_app; [|subst; apply klt_irrefl].
  apply klt_asym, Hc; [by apply list_elem_of_fmap_2|left].
Qed.

(** Two ordered lists without a common key, and the ordered list of both. *)
Section union.
Context (l f d : list (string * V)).
Context (Hl : StronglySorted klt (l.*1)) (Hf : StronglySorted klt (f.*1)) (Hd : StronglySorted klt (d.*1)).
Context (Hin : ∀ x, x ∈ l ↔ x ∈ f ∨ x ∈ d) (Hdisj : ∀ k, k ∈ f.*1 → k ∈ d.*1 → False).

Lemma union_head :
  head l = match head f, head d with
           | None, o => o
           | Some b, None => Some b
           | Some b, Some x => if bool_decide (klt b.1 x.1) then Some b else Some x
           end.
Proof using All.
  destruct (head f) as [[kb vb]|] eqn:Ef.
  2:{ apply head_None in Ef as ->. f_equal. apply sorted_pairs_unique; [done..|]. intros x. rewrite Hin. set_solver. }
  pose proof (λ y, sorted_head_min f _ y Hf Ef) as Hmf. apply head_Some_elem_of in Ef as Hbf.
  destruct (head d) as [[kd vd]|] eqn:Ed.
  2:{ apply head_None in Ed. apply sorted_head; [done|apply Hin; by left|]. intros k' v' [Hx|Hx]%Hin; [apply (Hmf _ Hx)|subst; set_solver]. }
  pose proof (λ y, sorted_head_min d _ y Hd Ed) as Hmd. apply head_Some_elem_of in Ed as Hdd. simpl in *.
  case_bool_decide as Hlt; apply sorted_head; [done|apply Hin; by left| |done|apply Hin; by right|].
  - intros k' v' [Hx|Hx]%Hin Hk; [by apply (Hmf _ Hx)|]. apply (Hmd _ Hx). simpl. by etrans.
  - assert (klt kd kb) as Hlt'.
    { destruct (klt_trichotomy kb kd) as [?|[->|?]]; [done| |done].
      destruct (Hdisj kd); [by apply (list_elem_of_fmap_2 fst) in Hbf|by apply (list_elem_of_fmap_2 fst) in Hdd]. }
    intros k' v' [Hx|Hx]%Hin Hk; [|by apply (Hmd _ Hx)]. apply (Hmf _ Hx). simpl. by etrans.
Qed.

Lemma union_last :
  last l = match last f, last d with
           | None, o => o
           | Some b, None => Some b
           | Some b, Some x => if bool_decide (klt x.1 b.1) then Some b else Some x
           end.
Proof using All.
  destruct (last f) as [[kb vb]|] eqn:Ef.
  2:{ apply last_None in Ef as ->. f_equal. apply sorted_pairs_unique; [done..|]. intros x. rewrite Hin. set_solver. }
  pose proof (λ y, sorted_last_max f _ y Hf Ef) as Hmf. apply last_Some_elem_of in Ef as Hbf.
  destruct (last d) as [[kd vd]|] eqn:Ed.
  2:{ apply last_None in Ed. apply sorted_last; [done|apply Hin; by left|]. intros k' v' [Hx|Hx]%Hin; [apply (Hmf _ Hx)|subst; set_solver]. }
  pose proof (λ y, sorted_last_max d _ y Hd Ed) as Hmd. apply last_Some_elem_of in Ed as Hdd. simpl in *.
  case_bool_decide as Hlt; apply sorted_last; [done|apply Hin; by left| |done|apply Hin; by right|].
  - intros k' v' [Hx|Hx]%Hin Hk; [by apply (Hmf _ Hx)|]. apply (Hmd _ Hx). simpl. by etrans.
  - assert (klt kb kd) as Hlt'.
    { destruct (klt_trichotomy kb kd) as [?|[->|?]]; [done| |done].
      destruct (Hdisj kd); [by apply (list_elem_of_fmap_2 fst) in Hbf|by apply (list_elem_of_fmap_2 fst) in Hdd]. }
    intros k' v' [Hx|Hx]%Hin Hk; [|by apply (Hmd _ Hx)]. apply (Hmf _ Hx). simpl. by etrans.
Qed.
End union.

Definition unshadowed (n : TreeNode V) : list (frozenEntry V) :=
  filter (λ b, entryOf (entries (Node_delta n)) (frozenEntry_key b) = None) (Node_base n).

Lemma visibleEntries_elem (es : list (deltaEntry V)) k v :
  ordered es → (k, v) ∈ visibleEntries es ↔ ∃ e, entryOf es k = Some e ∧ entryValue e = Some v.
Proof.
  intros Ho. unfold visibleEntries. rewrite list_elem_of_omap. unfold entryValue. split.
  - intros (e & He & Hv). destruct (deltaEntry_present e) eqn:Hp; [|done]. injection Hv as <- <-.
    exists e. rewrite Hp. split; [by apply entryOf_ordered|done].
  - intros (e & [He <-]%entryOf_Some & Hv). exists e. split; [done|]. destruct (deltaEntry_present e); [|done]. congruence.
Qed.

Lemma visibleEntries_sorted (es : list (deltaEntry V)) : ordered es → StronglySorted klt ((visibleEntries es).*1).
Proof.
  unfold ordered. induction 1 as [|e es Hs IH He]; [constructor|]. change (e :: es) with ([] ++ e :: es).
  rewrite visibleEntries_middle. destruct (deltaEntry_present e); simpl; [|done]. constructor; [done|].
  rewrite Forall_fmap, Forall_forall. intros [k v] (e' & He' & Hv)%list_elem_of_omap.
  destruct (deltaEntry_present e'); [|done]. injection Hv as <- <-. by eapply Forall_forall in He.
Qed.

(** The visible entries come from the base or from the delta, never both. *)
Lemma walkList_union n m :
  nodeOf zero n m →
  let f := pairs (unshadowed n) in let d := visibleEntries (entries (Node_delta n)) in
  StronglySorted klt (f.*1) ∧ StronglySorted klt (d.*1)
  ∧ (∀ x, x ∈ walkList (Some n) ↔ x ∈ f ∨ x ∈ d) ∧ (∀ k, k ∈ f.*1 → k ∈ d.*1 → False).
Proof.
  intros [[Hs _] _ Ho _ _ Hm _ _] f d. split_and!.
  - unfold f. rewrite pairs_keys. unfold keysOf, unshadowed in *. clear -Hs.
    induction (Node_base n) as [|b base IH]; [constructor|]. simpl in Hs. apply StronglySorted_cons in Hs as [Hb Hs].
    rewrite filter_cons. case_decide; [|by apply IH]. simpl. constructor; [by apply IH|].
    rewrite Forall_fmap, Forall_forall in Hb |- *. intros x [_ Hx]%list_elem_of_filter. by apply Hb.
  - by apply visibleEntries_sorted.
  - intros [k v]. simpl walkList. rewrite merged_elem by done. unfold shows, f, d. rewrite visibleEntries_elem by done.
    unfold pairs at 2. rewrite list_elem_of_fmap. unfold unshadowed. setoid_rewrite list_elem_of_filter.
    destruct (entryOf (entries (Node_delta n)) k) as [e|] eqn:He.
    + split; [intros Hv; right; by exists e|]. intros [(b & [= -> ->] & ? & _)|(e' & [= <-] & ?)]; [congruence|done].
    + split; [|intros [(b & [= -> ->] & _ & ?)|(e' & ? & _)]; [by apply list_elem_of_fmap; exists b|done]].
      intros (b & [= -> ->] & ?)%list_elem_of_fmap. left. by exists b.
  - intros k ([k1 v1] & -> & (b & [= -> ->] & [Hb _]%list_elem_of_filter)%list_elem_of_fmap)%list_elem_of_fmap.
    intros ([k2 v2] & Hk & (e & He & _)%visibleEntries_elem)%list_elem_of_fmap; [|done]. simpl in Hk. congruence.
Qed.

Lemma head_pairs (R : list (frozenEntry V)) : head (pairs R) = (λ b, (frozenEntry_key b, frozenEntry_value b)) <$> head R.
Proof. by destruct R. Qed.

Lemma last_pairs (R : list (frozenEntry V)) : last (pairs R) = (λ b, (frozenEntry_key b, frozenEntry_value b)) <$> last R.
Proof. unfold pairs. by rewrite fmap_last. Qed.

Lemma Node_Minimum_spec n m : snapshotOf zero n m → Node_Minimum n = Some (head (walkList n)).
Proof.
  intros Hn. pose proof (walkList_spec _ _ Hn) as [Hs Hin]. destruct n as [n|]; [|done]. simpl snapshotOf in Hn. cbn [Node_Minimum].
  destruct (Z.eqb_spec (Node_size n) 0) as [Hz|_].
  { apply (nodeOf_size_zero _ _ _ Hn) in Hz as ->. destruct (walkList (Some n)) as [|[k v] l]; [done|].
    pose proof (proj1 (Hin k v) ltac:(left)) as Hk. by rewrite lookup_empty in Hk. }
  destruct (walkList_union n m Hn) as (Hf & Hd & Hu & Hdj).
  rewrite (firstUnshadowed_spec _ _ _ (state_indexes _ _ _ _ _ _ _ _ Hn)). cbn [mbind option_bind]. fold (unshadowed n).
  rewrite minimumPresentDelta_spec, (union_head _ _ _ Hs Hf Hd Hu Hdj), head_pairs.
  destruct (head (unshadowed n)) as [b|]; [|done]. simpl. destruct (head (visibleEntries _)) as [[dk dv]|]; [|done].
  simpl. by case_bool_decide.
Qed.

Lemma Node_Maximum_spec n m : snapshotOf zero n m → Node_Maximum n = Some (last (walkList n)).
Proof.
  intros Hn. pose proof (walkList_spec _ _ Hn) as [Hs Hin]. destruct n as [n|]; [|done]. simpl snapshotOf in Hn. cbn [Node_Maximum].
  destruct (Z.eqb_spec (Node_size n) 0) as [Hz|_].
  { apply (nodeOf_size_zero _ _ _ Hn) in Hz as ->. destruct (walkList (Some n)) as [|[k v] l]; [done|].
    pose proof (proj1 (Hin k v) ltac:(left)) as Hk. by rewrite lookup_empty in Hk. }
  destruct (walkList_union n m Hn) as (Hf & Hd & Hu & Hdj).
  rewrite (firstUnshadowed_spec _ _ _ (state_indexes _ _ _ _ _ _ _ _ Hn)). cbn [mbind option_bind].
  rewrite filter_reverse, head_reverse. fold (unshadowed n).
  rewrite maximumPresentDelta_spec, (union_last _ _ _ Hs Hf Hd Hu Hdj), last_pairs.
  destruct (last (unshadowed n)) as [b|]; [|done]. simpl. destruct (last (visibleEntries _)) as [[dk dv]|]; [|done].
  simpl. by case_bool_decide.
Qed.

(** C33: every tree that can be built has one strictly ordered list of visible
    entries, those of its map; a walk visits that list until the visitor stops, a
    prefix walk visits its entries with the prefix, in order and until the visitor
    stops, and minimum and maximum are its ends. *)
Theorem walks_in_key_order t m :
  reaches t m →
  ∃ L, StronglySorted klt (L.*1) ∧ (∀ k v, (k, v) ∈ L ↔ m !! k = Some v)
    ∧ (∀ S (visit : S → string → V → S * bool) s, Node_Walk visit (Tree_Root t) s = Some (visitAll visit s L))
    ∧ (∀ S (visit : S → string → V → S * bool) s prefix,
         Node_WalkPrefix visit (Tree_Root t) prefix s
         = Some (visitAll visit s (filter (λ kv, String.prefix prefix kv.1 = true) L)))
    ∧ Node_Minimum (Tree_Root t) = Some (head L) ∧ Node_Maximum (Tree_Root t) = Some (last L).
Proof.
  intros Ht%reaches_treeOf. exists (walkList (Tree_Root t)). destruct (walkList_spec _ _ Ht) as [Hs Hin].
  split_and!; [done..| | | |].
  - intros. by eapply Node_Walk_spec.
  - intros. by eapply Node_WalkPrefix_spec.
  - by eapply Node_Minimum_spec.
  - by eapply Node_Maximum_spec.
Qed.

(** ** Construction and depth *)

(** The bulk constructor refuses entries that are not strictly ordered and
    builds the tree of the others; in every tree that can be built the ordered
    delta index is balanced: with [n] entries it is at most twice the logarithm
    of [n + 1] high, so an update copies that many nodes. *)
Theorem construction_and_depth (entries : list (TreeEntry V)) t m n :
  Z.of_nat (length entries) < 2 ^ 32 → reaches t m → Tree_Root t = Some n →
  (if strictlyOrdered entries
   then ∃ t0, NewFromSorted entries = Some (inl t0) ∧ Tree_Len (Some t0) = Z.of_nat (length entries)
          ∧ ∀ key, Node_Get zero (Tree_Root (Some t0)) key = Some (answer zero (entriesMap entries) key)
   else NewFromSorted entries = Some (inr EntriesNotStrictlyOrdered))
  ∧ balanced (Node_delta n) ∧ 2 ^ deltaHeight (Node_delta n) ≤ (Node_deltaSize n + 1) ^ 2.
Proof.
  intros Hlen Ht%reaches_treeOf Hroot. unfold treeOf in Ht. rewrite Hroot in Ht. split.
  - pose proof (NewFromSorted_spec zero entries Hlen) as Hnew. destruct (strictlyOrdered entries) eqn:Hs; [|done].
    destruct Hnew as (t0 & Ht0 & Hm). exists t0. split; [done|]. split; [|intros key; by apply Node_Get_spec].
    rewrite (Tree_Len_spec zero _ _ Hm). unfold entriesMap. rewrite map_size_list_to_map, length_fmap; [done|].
    rewrite <-list_fmap_compose. by apply sorted_keys_NoDup, strictlyOrdered_spec.
  - destruct Ht as [_ Hb _ _ -> _ _ _]. split; [done|]. by apply balanced_logarithmic.
Qed.
End runs.
