(* ===== verification/TreeChanges.v ===== *)
(** * Changes between two versions of a tree

    Models [src/pkg/persistenttree/changes.go]: the walk over what differs
    between two snapshots. When both share their frozen base it descends the two
    hash tries together and skips whatever is the same pointer; otherwise it
    walks both trees. Pointer comparisons are arguments ([ChangeIdentity]) that
    never hold of different immutable values. Lookups may answer [None] as in
    [PersistentTree], and the walks stop there. *)

From Stdlib Require Import ZArith Lia.
From stdpp Require Import base list numbers strings option sorting sets gmap.
From S2P Require Import Prelude KeyOrder DeltaTree DeltaHash DeltaHashProps PersistentTree FrozenBase PersistentTreeProps TreeWalk TreeClaims.
Open Scope Z_scope.

Record Change (V : Type) := MkChange {
  Change_Key : string;
  Change_Before : V;
  Change_After : V;
  Change_BeforePresent : bool;
  Change_AfterPresent : bool;
}.
Arguments MkChange {V} _ _ _ _ _.
Arguments Change_Key {V} _.

Class ChangeIdentity (V : Type) := {
  sameNode : TreeNode V → TreeNode V → bool;
  sameNode_eq a b : sameNode a b = true → a = b;
  sameChild : deltaHashNode V → deltaHashNode V → bool;
  sameChild_eq a b : sameChild a b = true → a = b;
  sameLeaf : deltaHashLeaf V → deltaHashLeaf V → bool;
  sameLeaf_eq a b : sameLeaf a b = true → a = b;
  sameEntry : deltaEntry V → deltaEntry V → bool;
  sameEntry_eq a b : sameEntry a b = true → a = b;
  sameFirst : list (frozenEntry V) → list (frozenEntry V) → bool;
  sameFirst_eq a b : sameFirst a b = true → length a = length b → a = b;
}.

(** Visiting a list with a visitor that may fail. *)
Section visitM.
Context {S A : Type} (visit : S → A → option (S * bool)).

Fixpoint visitM (s : S) (l : list A) : option (S * bool) :=
  match l with
  | [] => Some (s, false)
  | a :: l' => '(s', stopped) ← visit s a; if stopped : bool then Some (s', true) else visitM s' l'
  end.
End visitM.

Section changes.
Context {V : Type} (zero : V) `{MapHash} `{ChangeIdentity V} {S : Type}.
Implicit Types (slot : option (deltaHashSlot V)) (visit : S → string → option (S * bool)).

(** ** The operations *)

Definition hashLeafEntry (leaf : option (deltaHashLeaf V)) (key : string) : option (deltaEntry V) :=
  leaf ← leaf;
  if decide (deltaEntry_key (leaf_entry leaf) = key) then Some (leaf_entry leaf)
  else find (λ e, bool_decide (deltaEntry_key e = key)) (leaf_collisions leaf).

Definition visitHashLeaf (leaf : option (deltaHashLeaf V)) (visit : S → deltaEntry V → option (S * bool)) (s : S) :
    option (S * bool) :=
  match leaf with
  | None => Some (s, false)
  | Some leaf =>
      '(s', stopped) ← visit s (leaf_entry leaf);
      if stopped : bool then Some (s', true) else visitM visit s' (leaf_collisions leaf)
  end.

(** [entry != hashLeafEntry(right, key)] on pointers. *)
Definition differentEntry (e : deltaEntry V) (found : option (deltaEntry V)) : bool :=
  match found with None => true | Some e' => negb (sameEntry e e') end.

Definition walkChangedHashLeaves (left right : option (deltaHashLeaf V)) visit (s : S) : option (S * bool) :=
  '(s', stopped) ← visitHashLeaf left (λ s e,
     if differentEntry e (hashLeafEntry right (deltaEntry_key e)) then visit s (deltaEntry_key e) else Some (s, false)) s;
  if stopped : bool then Some (s', true)
  else visitHashLeaf right (λ s e,
     if bool_decide (hashLeafEntry left (deltaEntry_key e) = None) then visit s (deltaEntry_key e) else Some (s, false)) s'.

Definition hashSlotBitmap slot (shift : Z) : Z :=
  match slot with
  | Some (SlotChild (DeltaHashNode bitmap _)) => bitmap
  | Some (SlotLeaf leaf) => deltaHashBit (leaf_hash leaf) shift
  | None => 0
  end.

Definition hashSlotAt slot (bit shift : Z) : option (option (deltaHashSlot V)) :=
  match slot with
  | Some (SlotChild (DeltaHashNode bitmap slots)) =>
      if negb (Z.land bitmap bit =? 0) then s ← slots !! deltaHashSlotIndex bitmap bit; Some (Some s) else Some None
  | Some (SlotLeaf leaf) => if deltaHashBit (leaf_hash leaf) shift =? bit then Some slot else Some None
  | None => Some None
  end.

(** [left.child == right.child && left.leaf == right.leaf]. *)
Definition sameSlot left right : bool :=
  match left, right with
  | None, None => true
  | Some (SlotChild a), Some (SlotChild b) => sameChild a b
  | Some (SlotLeaf a), Some (SlotLeaf b) => sameLeaf a b
  | _, _ => false
  end.

Definition slotLeaf slot : option (deltaHashLeaf V) :=
  match slot with Some (SlotLeaf leaf) => Some leaf | _ => None end.

Definition slotHasChild slot : bool :=
  match slot with Some (SlotChild _) => true | _ => false end.

(** The loop over the set bits, lowest first, on 32-bit words. *)
Fixpoint walkBits (fuel : nat) (bitmap : Z) (body : S → Z → option (S * bool)) (s : S) : option (S * bool) :=
  if bitmap =? 0 then Some (s, false)
  else
    match fuel with
    | 0%nat => None
    | Datatypes.S fuel' =>
        let bit := Z.land bitmap ((- bitmap) mod 2 ^ 32) in
        '(s', stopped) ← body s bit;
        if stopped : bool then Some (s', true) else walkBits fuel' (Z.ldiff bitmap bit) body s'
    end.

Fixpoint walkChangedHashSlots (levels : nat) left right (shift : Z) visit (s : S) : option (S * bool) :=
  match levels with
  | 0%nat => None
  | Datatypes.S levels' =>
      if sameSlot left right then Some (s, false)
      else if negb (slotHasChild left) && negb (slotHasChild right)
      then walkChangedHashLeaves (slotLeaf left) (slotLeaf right) visit s
      else
        walkBits 32 (Z.lor (hashSlotBitmap left shift) (hashSlotBitmap right shift))
          (λ s bit,
             l ← hashSlotAt left bit shift;
             r ← hashSlotAt right bit shift;
             walkChangedHashSlots levels' l r (shift + deltaHashBits) visit s) s
  end.

Definition nodeBase (n : option (TreeNode V)) : list (frozenEntry V) :=
  match n with None => [] | Some n => Node_base n end.

Definition sameFrozenBase (left right : option (TreeNode V)) : bool :=
  (length (nodeBase left) =? length (nodeBase right))%nat
  && ((length (nodeBase left) =? 0)%nat || sameFirst (nodeBase left) (nodeBase right)).

(** [n == previous]. *)
Definition sameSnapshot (n previous : option (TreeNode V)) : bool :=
  match n, previous with
  | None, None => true
  | Some a, Some b => sameNode a b
  | _, _ => false
  end.

Definition rootSlot (n : option (TreeNode V)) : option (deltaHashSlot V) :=
  n ← n; SlotChild <$> Node_deltaHash n.

(** A failing visitor of a walk fails the walk. *)
Definition failing (emit : S → string → option (S * bool)) : option S → string → V → option S * bool :=
  λ s key _,
    match s ≫= λ s, emit s key with
    | None => (None, true)
    | Some (s', stopped) => (Some s', stopped)
    end.

Definition emit (n previous : option (TreeNode V)) (equal : V → V → bool) (visit : S → Change V → S * bool)
    (s : S) (key : string) : option (S * bool) :=
  '(before, beforePresent) ← Node_Get zero previous key;
  '(after, afterPresent) ← Node_Get zero n key;
  if eqb beforePresent afterPresent && (negb afterPresent || equal before after) then Some (s, false)
  else Some (visit s (MkChange key before after beforePresent afterPresent)).

Definition WalkChanges (n previous : option (TreeNode V)) (equal : V → V → bool) (visit : S → Change V → S * bool)
    (s : S) : option (S * bool) :=
  if sameSnapshot n previous then Some (s, false)
  else if sameFrozenBase n previous then
    walkChangedHashSlots (Datatypes.S hashLevels) (rootSlot n) (rootSlot previous) 0 (emit n previous equal visit) s
  else
    '(s1, stopped) ← Node_Walk (failing (emit n previous equal visit)) n (Some s);
    if stopped : bool then s' ← s1; Some (s', true)
    else
      s1 ← s1;
      '(s2, stopped) ← Node_Walk (failing (λ s key,
                          '(_, present) ← Node_Get zero n key;
                          if negb present then emit n previous equal visit s key else Some (s, false))) previous (Some s1);
      s' ← s2; Some (s', stopped).
End changes.
