(* ===== verification/TreeChangesProps.v ===== *)
(** * Correctness of the change walk

    The walk over two tries visits every key their entries differ on, each at
    most once; the walk over two snapshots therefore reports exactly the keys
    whose presence or value differs. *)

From Stdlib Require Import ZArith Lia.
From stdpp Require Import base list numbers strings option sorting sets gmap.
From S2P Require Import Prelude KeyOrder DeltaTree DeltaHash DeltaHashProps PersistentTree FrozenBase PersistentTreeProps TreeWalk TreeClaims TreeChanges.
Open Scope Z_scope.

(** ** Visitors *)

Section visitors.
Context {S A B : Type}.

Lemma visitM_app (visit : S → A → option (S * bool)) s l l' :
  visitM visit s (l ++ l')
  = '(s', stopped) ← visitM visit s l; if stopped : bool then Some (s', true) else visitM visit s' l'.
Proof.
  revert s. induction l as [|a l IH]; intros s; simpl; [done|]. destruct (visit s a) as [[s' []]|]; [done| |done]. apply IH.
Qed.

(** A visitor that leaves some elements out. *)
Lemma visitM_filter (visit : S → A → option (S * bool)) (p : B → bool) (g : B → A) s l :
  visitM (λ s b, if p b then visit s (g b) else Some (s, false)) s l = visitM visit s (g <$> filter (λ b, p b = true) l).
Proof.
  revert s. induction l as [|b l IH]; intros s; [done|]. rewrite filter_cons. simpl. destruct (p b) eqn:Hp.
  - rewrite decide_True by done. simpl. destruct (visit s (g b)) as [[s' []]|]; simpl; [done|apply IH|done].
  - rewrite decide_False by done. simpl. apply IH.
Qed.

Lemma visitM_ext (visit visit' : S → A → option (S * bool)) s l :
  (∀ s a, a ∈ l → visit s a = visit' s a) → visitM visit s l = visitM visit' s l.
Proof.
  revert s. induction l as [|a l IH]; intros s Hv; simpl; [done|]. rewrite Hv by left.
  destruct (visit' s a) as [[s' []]|]; simpl; [done| |done]. apply IH. intros s'' a' Ha'. apply Hv. by right.
Qed.
End visitors.

(** ** The bit loop *)

Lemma testbit_low a x :
  0 < a → Z.testbit a (Z.of_nat x) = true → (∀ i, (i < x)%nat → Z.testbit a (Z.of_nat i) = false) →
  Z.ldiff a (a - 1) = 2 ^ Z.of_nat x.
Proof.
  intros Ha Hx Hlow. set (P := 2 ^ Z.of_nat x). assert (0 < P) as HP by (apply Z.pow_pos_nonneg; lia).
  assert (a mod P = 0) as Hmod.
  { apply Z.bits_inj. intros i. rewrite Z.bits_0. destruct (decide (0 ≤ i < Z.of_nat x)) as [Hi|Hi].
    - unfold P. rewrite Z.mod_pow2_bits_low by lia. rewrite <-(Z2Nat.id i) by lia. apply Hlow. lia.
    - destruct (decide (0 ≤ i)); [unfold P; rewrite Z.mod_pow2_bits_high by lia; done|by rewrite Z.testbit_neg_r by lia]. }
  pose proof (Z.div_mod a P ltac:(lia)) as Hdiv. rewrite Hmod, Z.add_0_r in Hdiv. set (q := a / P) in *.
  assert (Z.odd q = true) as Hodd.
  { unfold q, P. rewrite <-Z.shiftr_div_pow2 by lia. rewrite <-Z.bit0_odd, Z.shiftr_spec by lia. by rewrite Z.add_0_l. }
  apply Z.bits_inj'. intros i Hi. rewrite Z.ldiff_spec. unfold P. rewrite Z.pow2_bits_eqb by lia.
  destruct (Z.lt_total i (Z.of_nat x)) as [Hlt|[->|Hgt]].
  - assert (Z.testbit a i = false) as -> by (rewrite <-(Z2Nat.id i) by lia; apply Hlow; lia).
    symmetry. apply Z.eqb_neq. lia.
  - rewrite Hx, Z.eqb_refl. assert (Z.testbit (a - 1) (Z.of_nat x) = false) as ->; [|done].
    rewrite <-(Z.add_0_l (Z.of_nat x)), <-Z.shiftr_spec, Z.shiftr_div_pow2, Z.bit0_odd by lia. fold P.
    assert ((a - 1) / P = q - 1) as ->.
    { symmetry. apply (Z.div_unique _ _ _ (P - 1)); [lia|]. nia. }
    rewrite Z.odd_sub, Hodd. done.
  - assert (Z.testbit (a - 1) i = Z.testbit a i) as ->; [|destruct (Z.testbit a i); symmetry; apply Z.eqb_neq; lia].
    replace i with ((i - Z.of_nat x - 1) + (Z.of_nat x + 1)) by lia.
    rewrite <-!Z.shiftr_spec, !Z.shiftr_div_pow2 by lia. f_equal.
    apply Zodd_bool_iff in Hodd. apply Zodd_ex in Hodd as [j Hj].
    assert (2 ^ (Z.of_nat x + 1) = P * 2) as -> by (rewrite Z.pow_add_r by lia; done).
    transitivity j; [symmetry; apply (Z.div_unique _ _ _ (P - 1)); [lia|nia]|apply (Z.div_unique _ _ _ P); [lia|nia]].
Qed.

Lemma lowest_bit bitmap :
  0 ≤ bitmap < 2 ^ 32 → bitmap ≠ 0 →
  ∃ x, (x < 32)%nat ∧ Z.testbit bitmap (Z.of_nat x) = true ∧ Z.land bitmap ((- bitmap) mod 2 ^ 32) = 2 ^ Z.of_nat x.
Proof.
  intros Hb Hne. destruct (decide (0 < bitsBelow 32 bitmap)%nat) as [Hpos|Hzero].
  - destruct (bitsBelow_find 0 32 bitmap Hpos) as (x & Hx & Ht & H0). exists x. split_and!; [done..|].
    rewrite <-(testbit_low bitmap x); [|lia|done|].
    + apply Z.bits_inj'. intros i Hi. rewrite Z.land_spec, Z.ldiff_spec.
      destruct (decide (i < 32)) as [Hlt|Hge].
      * rewrite Z.mod_pow2_bits_low by lia. replace (- bitmap) with (Z.lnot (bitmap - 1)) by (unfold Z.lnot; lia).
        by rewrite Z.lnot_spec.
      * pose proof Hb as [_ Hhigh]%bitmap_range. rewrite <-(Z2Nat.id i) by lia. by rewrite Hhigh by lia.
    + intros i Hi. destruct (Z.testbit bitmap (Z.of_nat i)) eqn:Hbi; [|done].
      pose proof (bitsBelow_lt i x bitmap Hi Hbi). lia.
  - destruct Hne. apply Z.bits_inj'. intros i Hi. rewrite Z.bits_0. destruct (decide (i < 32)) as [Hlt|Hge].
    + destruct (Z.testbit bitmap i) eqn:Hbi; [|done]. rewrite <-(Z2Nat.id i) in Hbi by lia.
      pose proof (bitsBelow_lt (Z.to_nat i) 32 bitmap ltac:(lia) Hbi). lia.
    + pose proof Hb as [_ Hhigh]%bitmap_range. rewrite <-(Z2Nat.id i) by lia. by rewrite Hhigh by lia.
Qed.

Lemma walkBits_spec {S} fuel bitmap :
  0 ≤ bitmap < 2 ^ 32 → (OnesCount32 bitmap ≤ fuel)%nat →
  ∃ xs, NoDup xs ∧ (∀ x, x ∈ xs ↔ Z.testbit bitmap (Z.of_nat x) = true)
    ∧ ∀ (body : S → Z → option (S * bool)) s, walkBits fuel bitmap body s = visitM (λ s x, body s (2 ^ Z.of_nat x)) s xs.
Proof.
  revert bitmap. induction fuel as [|fuel IH]; intros bitmap Hb Hf.
  all: destruct (decide (bitmap = 0)) as [->|Hne];
    [exists []; split_and!; [constructor|intros x; rewrite Z.testbit_0_l; set_solver|done]|].
  all: destruct (lowest_bit bitmap Hb Hne) as (x & Hx & Ht & Hbit).
  { pose proof (bitsBelow_lt x 32 bitmap Hx Ht). unfold OnesCount32 in Hf. lia. }
  assert (∀ y, y ≠ x → Z.testbit bitmap (Z.of_nat y) = Z.testbit (Z.ldiff bitmap (2 ^ Z.of_nat x)) (Z.of_nat y)) as Hother.
  { intros y Hy. by rewrite Z.ldiff_spec, testbit_pow2, bool_decide_false, andb_true_r. }
  assert (Z.testbit (Z.ldiff bitmap (2 ^ Z.of_nat x)) (Z.of_nat x) = false) as Hcl.
  { by rewrite Z.ldiff_spec, testbit_pow2, bool_decide_true, andb_false_r. }
  destruct (IH (Z.ldiff bitmap (2 ^ Z.of_nat x))) as (xs & Hnd & Hxs & Hw).
  { by apply bitmap_range_ldiff. }
  { unfold OnesCount32 in *. pose proof (bitsBelow_set 32 x _ _ Ht Hcl Hother) as Hset. rewrite decide_True in Hset by done. lia. }
  exists (x :: xs). split_and!.
  - constructor; [|done]. rewrite Hxs. congruence.
  - intros y. rewrite elem_of_cons, Hxs. destruct (decide (y = x)) as [->|Hyx]; [tauto|]. rewrite <-Hother by done. naive_solver.
  - intros body s. cbn [walkBits]. rewrite (proj2 (Z.eqb_neq _ _) Hne), Hbit. simpl.
    destruct (body s (2 ^ Z.of_nat x)) as [[s' []]|]; simpl; [done|apply Hw|done].
Qed.

Lemma bitsBelow_le n a : (bitsBelow n a ≤ n)%nat.
Proof. induction n; simpl; [lia|]. case_match; lia. Qed.

(** ** Two tries *)

Section tries.
Context {V : Type} (zero : V) `{MapHash} `{ChangeIdentity V} {S : Type}.
Implicit Types (slot left right : option (deltaHashSlot V)) (f g : string → option (deltaEntry V))
  (visit : S → string → option (S * bool)) (shift p : Z).

Definition leafFn (leaf : deltaHashLeaf V) (k : string) : option (deltaEntry V) :=
  if decide (leaf_hash leaf = maphash k) then entryOf (leafEntries leaf) k else None.

(** The slot holds [f], and every hash in it starts with [p]. *)
Definition slotIs (levels : nat) shift p slot f : Prop :=
  match slot with
  | None => ∀ k, f k = None
  | Some (SlotChild c) => nodeOK levels shift p c ∧ holds levels shift c f
  | Some (SlotLeaf leaf) => leafOK leaf ∧ leaf_hash leaf mod 2 ^ shift = p ∧ ∀ k, f k = leafFn leaf k
  end.

Lemma sameSlot_eq left right : sameSlot left right = true → left = right.
Proof.
  destruct left as [[a|a]|], right as [[b|b]|]; simpl; try done; intros E; do 2 f_equal; by apply sameChild_eq || by apply sameLeaf_eq.
Qed.

Lemma slotIs_fn levels shift p slot f g : slotIs levels shift p slot f → slotIs levels shift p slot g → ∀ k, f k = g k.
Proof.
  destruct slot as [[c|leaf]|]; simpl.
  - intros [_ Hf] [_ Hg] k. specialize (Hf k). rewrite Hg in Hf. by apply (inj Some) in Hf.
  - intros (_ & _ & Hf) (_ & _ & Hg) k. by rewrite Hf, Hg.
  - intros Hf Hg k. by rewrite Hf, Hg.
Qed.

(** *** Leaves *)

Lemma hashLeafEntry_spec leaf key : hashLeafEntry (Some leaf) key = entryOf (leafEntries (V := V) leaf) key.
Proof.
  unfold hashLeafEntry, leafEntries. simpl. case_decide; [done|].
  induction (leaf_collisions leaf) as [|e l IH]; simpl; [done|]. case_bool_decide; case_decide; done.
Qed.

Definition optLeafEntries (leaf : option (deltaHashLeaf V)) : list (deltaEntry V) :=
  match leaf with None => [] | Some leaf => leafEntries leaf end.

Lemma hashLeafEntry_opt leaf key : hashLeafEntry leaf key = entryOf (optLeafEntries leaf) key.
Proof. destruct leaf as [leaf|]; [apply hashLeafEntry_spec|done]. Qed.

Lemma visitHashLeaf_spec (leaf : option (deltaHashLeaf V)) (visit : S → deltaEntry V → option (S * bool)) s :
  visitHashLeaf leaf visit s = visitM visit s (optLeafEntries leaf).
Proof. by destruct leaf. Qed.

(** The keys the leaf walk visits. *)
Definition leafKeys (l r : option (deltaHashLeaf V)) : list string :=
  (deltaEntry_key <$> filter (λ e, differentEntry e (hashLeafEntry r (deltaEntry_key e)) = true) (optLeafEntries l))
  ++ (deltaEntry_key <$> filter (λ e, bool_decide (hashLeafEntry l (deltaEntry_key e) = None) = true) (optLeafEntries r)).

Lemma walkChangedHashLeaves_spec (l r : option (deltaHashLeaf V)) visit s :
  walkChangedHashLeaves l r visit s = visitM visit s (leafKeys l r).
Proof.
  unfold walkChangedHashLeaves, leafKeys. rewrite visitM_app, !visitHashLeaf_spec, visitM_filter.
  destruct (visitM visit s _) as [[s' []]|]; cbn [mbind option_bind]; [done| |done].
  by rewrite visitHashLeaf_spec, visitM_filter.
Qed.

Lemma filter_keys_sub (P : deltaEntry V → Prop) `{∀ e, Decision (P e)} (es : list (deltaEntry V)) k :
  k ∈ deltaEntry_key <$> filter P es → k ∈ deltaEntry_key <$> es.
Proof. intros (e & -> & [_ He]%list_elem_of_filter)%list_elem_of_fmap. by apply list_elem_of_fmap_2. Qed.

Lemma filter_keys_NoDup (P : deltaEntry V → Prop) `{∀ e, Decision (P e)} (es : list (deltaEntry V)) :
  NoDup (deltaEntry_key <$> es) → NoDup (deltaEntry_key <$> filter P es).
Proof.
  induction es as [|e es IH]; [done|]. rewrite fmap_cons, NoDup_cons. intros [Hni Hnd]. rewrite filter_cons.
  case_decide; [|auto]. rewrite fmap_cons, NoDup_cons. split; [|auto]. intros Hin. apply Hni. by eapply filter_keys_sub.
Qed.

Lemma leafKeys_spec l r :
  NoDup (deltaEntry_key <$> optLeafEntries l) → NoDup (deltaEntry_key <$> optLeafEntries r) →
  NoDup (leafKeys l r)
  ∧ (∀ k, entryOf (optLeafEntries l) k ≠ entryOf (optLeafEntries r) k → k ∈ leafKeys l r)
  ∧ (∀ k, k ∈ leafKeys l r → k ∈ deltaEntry_key <$> optLeafEntries l ∨ k ∈ deltaEntry_key <$> optLeafEntries r).
Proof.
  intros Hl Hr. unfold leafKeys. split_and!.
  - apply NoDup_app. split_and!; [by apply filter_keys_NoDup| |by apply filter_keys_NoDup].
    intros k Hk%filter_keys_sub (e & -> & [He _]%list_elem_of_filter)%list_elem_of_fmap.
    apply bool_decide_eq_true in He. rewrite hashLeafEntry_opt, entryOf_None in He. done.
  - intros k Hne. rewrite elem_of_app. destruct (entryOf (optLeafEntries l) k) as [e|] eqn:He.
    + left. apply entryOf_Some in He as [Hin <-]. apply list_elem_of_fmap_2, list_elem_of_filter. split; [|done].
      unfold differentEntry. rewrite hashLeafEntry_opt. case_match; [|done]. apply negb_true_iff.
      destruct (sameEntry e _) eqn:Hs; [|done]. apply sameEntry_eq in Hs. congruence.
    + right. destruct (entryOf (optLeafEntries r) k) as [e|] eqn:He'; [|done].
      apply entryOf_Some in He' as [Hin <-]. apply list_elem_of_fmap_2, list_elem_of_filter. split; [|done].
      apply bool_decide_eq_true. by rewrite hashLeafEntry_opt.
  - intros k [Hk|Hk]%elem_of_app; [left|right]; by eapply filter_keys_sub.
Qed.

(** *** Slots *)

(** The slots at a bit hold what the slots hold of the keys with that bit. *)
Lemma hashSlotAt_spec levels shift p slot f x :
  0 ≤ shift → (x < 32)%nat → slotIs (Datatypes.S levels) shift p slot f →
  ∃ slot' f', hashSlotAt slot (2 ^ Z.of_nat x) shift = Some slot'
    ∧ slotIs levels (shift + deltaHashBits) (p + 2 ^ shift * Z.of_nat x) slot' f'
    ∧ (∀ k, hashIndex (maphash k) shift = x → f' k = f k)
    ∧ (Z.testbit (hashSlotBitmap slot shift) (Z.of_nat x) = false → ∀ k, hashIndex (maphash k) shift = x → f k = None).
Proof.
  intros Hs Hx. destruct slot as [[[bitmap slots]|leaf]|]; cbn [slotIs hashSlotAt hashSlotBitmap].
  - intros [Hn Hf]. pose proof Hn as [Hsp Hslots]. rewrite land_pow2. unfold deltaHashSlotIndex. rewrite rank_spec by lia.
    pose proof (λ k s (Hat : slotAt bitmap slots x = s), holds_slot levels shift bitmap slots f x s k Hs Hsp Hf Hat) as Hold.
    destruct (Z.testbit bitmap (Z.of_nat x)) eqn:Hb; cbn [negb].
    + destruct (slotAt_bit _ _ _ Hsp Hb) as (s & -> & Hat). cbn [mbind option_bind].
      pose proof (Hslots _ _ Hat) as Hok. destruct s as [c|leaf].
      * destruct (nodeOK_total levels (shift + deltaHashBits) _ c ltac:(unfold deltaHashBits; lia) Hok) as [fc Hfc].
        exists (Some (SlotChild c)), fc. split; [done|]. split; [done|]. split; [|done].
        intros k Hk. specialize (Hold k _ Hat Hk). cbn [slotGet] in Hold. rewrite Hfc in Hold. by apply (inj Some) in Hold.
      * destruct Hok as [Hlok Hlp]. exists (Some (SlotLeaf leaf)), (leafFn leaf). split; [done|]. split; [done|]. split; [|done].
        intros k Hk. specialize (Hold k _ Hat Hk). cbn [slotGet] in Hold. by apply (inj Some) in Hold.
    + exists None, (λ _, None). assert (slotAt bitmap slots x = None) as Hat by (unfold slotAt; by rewrite Hb).
      assert (∀ k, hashIndex (maphash k) shift = x → f k = None) as Hnone.
      { intros k Hk. specialize (Hold k _ Hat Hk). by apply (inj Some) in Hold. }
      split; [done|]. split; [done|]. split; [|done]. intros k Hk. by rewrite Hnone.
  - intros (Hlok & Hlp & Hf). rewrite deltaHashBit_spec by done.
    destruct (decide (hashIndex (leaf_hash leaf) shift = x)) as [E|E].
    + rewrite E, Z.eqb_refl. exists (Some (SlotLeaf leaf)), f. split; [done|]. split; [|split; [done|]].
      * split_and!; [done| |done]. unfold deltaHashBits. rewrite index_prefix by done. by rewrite Hlp, E.
      * rewrite testbit_pow2, bool_decide_true by done. done.
    + destruct (Z.eqb_spec (2 ^ Z.of_nat (hashIndex (leaf_hash leaf) shift)) (2 ^ Z.of_nat x)) as [E'|_].
      { apply Z.pow_inj_r in E'; lia. }
      assert (∀ k, hashIndex (maphash k) shift = x → f k = None) as Hnone.
      { intros k Hk. rewrite Hf. unfold leafFn. rewrite decide_False; [done|]. intros E'. by rewrite E' in E. }
      exists None, (λ _, None). split; [done|]. split; [done|]. split; [|done]. intros k Hk. by rewrite Hnone.
  - intros Hf. exists None, f. split_and!; done.
Qed.

(** The keys of a walk: what it visits, and what they cover. *)
Definition covers shift p f g (K : list string) : Prop :=
  NoDup K ∧ (∀ k, f k ≠ g k → k ∈ K) ∧ (∀ k, k ∈ K → maphash k mod 2 ^ shift = p).

Lemma leaf_covers levels shift p left right f g :
  slotIs levels shift p left f → slotIs levels shift p right g →
  slotHasChild left = false → slotHasChild right = false → covers shift p f g (leafKeys (slotLeaf left) (slotLeaf right)).
Proof.
  assert (∀ slot f, slotIs levels shift p slot f → slotHasChild slot = false →
    NoDup (deltaEntry_key <$> optLeafEntries (slotLeaf slot))
    ∧ (∀ k, f k = entryOf (optLeafEntries (slotLeaf slot)) k)
    ∧ (∀ k, k ∈ deltaEntry_key <$> optLeafEntries (slotLeaf slot) → maphash k mod 2 ^ shift = p)) as Hone.
  { intros [[c|leaf]|] f' Hf' Hc; [done| |split_and!; [constructor|done|set_solver]].
    destruct Hf' as ([Hnd Hh] & Hp & Hf'). cbn [slotLeaf optLeafEntries]. split_and!; [done| |].
    - intros k. rewrite Hf'. unfold leafFn. case_decide as E; [done|]. symmetry. apply entryOf_None.
      intros (e & -> & He)%list_elem_of_fmap. eapply Forall_forall in Hh; [|exact He]. by rewrite Hh in E.
    - intros k (e & -> & He)%list_elem_of_fmap. eapply Forall_forall in Hh; [|exact He]. by rewrite Hh. }
  intros Hf Hg Hl Hr. destruct (Hone _ _ Hf Hl) as (Hndl & Hfl & Hpl). destruct (Hone _ _ Hg Hr) as (Hndr & Hgr & Hpr).
  destruct (leafKeys_spec _ _ Hndl Hndr) as (Hnd & Hcov & Hin). split_and!; [done| |].
  - intros k Hne. apply Hcov. by rewrite <-Hfl, <-Hgr.
  - intros k [Hk|Hk]%Hin; auto.
Qed.

(** One walk per bit. *)
Lemma bits_cover shift p (xs : list nat) f g (body : (S → string → option (S * bool)) → nat → S → option (S * bool)) :
  0 ≤ shift → 0 ≤ p < 2 ^ shift → NoDup xs →
  (∀ x, x ∈ xs → ∃ f' g' K, covers (shift + 5) (p + 2 ^ shift * Z.of_nat x) f' g' K
     ∧ (∀ k, hashIndex (maphash k) shift = x → f' k = f k ∧ g' k = g k)
     ∧ ∀ visit s, body visit x s = visitM visit s K) →
  ∃ K, NoDup K ∧ (∀ k, hashIndex (maphash k) shift ∈ xs → f k ≠ g k → k ∈ K)
    ∧ (∀ k, k ∈ K → maphash k mod 2 ^ shift = p ∧ hashIndex (maphash k) shift ∈ xs)
    ∧ ∀ visit s, visitM (λ s x, body visit x s) s xs = visitM visit s K.
Proof.
  intros Hs Hp. induction 1 as [|x xs Hx Hnd IH]; intros Hxs.
  { exists []. split_and!; [constructor|set_solver..|done]. }
  destruct IH as (K & HK & Hcov & Hin & Hvis); [intros y Hy; apply Hxs; by right|].
  destruct (Hxs x ltac:(left)) as (f' & g' & Kx & (HKx & Hcovx & Hinx) & Heq & Hvisx).
  assert (∀ k, k ∈ Kx → maphash k mod 2 ^ shift = p ∧ hashIndex (maphash k) shift = x) as Hinx'.
  { intros k Hk%Hinx. pose proof (prefix_mod _ _ _ _ Hs Hp Hk). split; [done|]. by eapply index_of_prefix. }
  exists (Kx ++ K). split_and!.
  - apply NoDup_app. split_and!; [done| |done]. intros k [_ Hk]%Hinx' [_ Hk']%Hin. congruence.
  - intros k [Hk|Hk]%elem_of_cons Hne; apply elem_of_app; [left|right; by apply Hcov].
    apply Hcovx. destruct (Heq k Hk) as [-> ->]. done.
  - intros k [[Hm Hk]%Hinx'|[Hm Hk]%Hin]%elem_of_app; (split; [done|]); apply elem_of_cons; [by left|by right].
  - intros visit s. simpl. rewrite visitM_app, Hvisx.
    destruct (visitM visit s Kx) as [[s' []]|]; simpl; [done|apply Hvis|done].
Qed.

Lemma slotBitmap_range levels shift p slot f :
  0 ≤ shift → slotIs (Datatypes.S levels) shift p slot f → 0 ≤ hashSlotBitmap slot shift < 2 ^ 32.
Proof.
  intros Hs. destruct slot as [[[bitmap slots]|leaf]|]; simpl; [intros [[[? _] _] _]; done| |lia].
  intros _. rewrite deltaHashBit_spec by done. pose proof (hashIndex_lt (leaf_hash leaf) shift).
  split; [lia|]. apply Z.pow_lt_mono_r; lia.
Qed.

Lemma lor_range a b : 0 ≤ a < 2 ^ 32 → 0 ≤ b < 2 ^ 32 → 0 ≤ Z.lor a b < 2 ^ 32.
Proof.
  intros [Ha Hah]%bitmap_range [Hb Hbh]%bitmap_range. apply bitmap_range. split; [by apply Z.lor_nonneg|].
  intros x Hx. by rewrite Z.lor_spec, Hah, Hbh.
Qed.

(** The descent of one level, given the walks of the next. *)
Lemma descend_cover levels shift p left right f g :
  0 ≤ shift → 0 ≤ p < 2 ^ shift →
  slotIs (Datatypes.S levels) shift p left f → slotIs (Datatypes.S levels) shift p right g →
  (∀ p' l r f' g', 0 ≤ p' < 2 ^ (shift + deltaHashBits) →
     slotIs levels (shift + deltaHashBits) p' l f' → slotIs levels (shift + deltaHashBits) p' r g' →
     ∃ K, covers (shift + deltaHashBits) p' f' g' K
       ∧ ∀ visit s, walkChangedHashSlots (Datatypes.S levels) l r (shift + deltaHashBits) visit s = visitM visit s K) →
  ∃ K, covers shift p f g K
    ∧ ∀ visit s,
        walkBits 32 (Z.lor (hashSlotBitmap left shift) (hashSlotBitmap right shift))
          (λ s bit, l ← hashSlotAt left bit shift; r ← hashSlotAt right bit shift;
             walkChangedHashSlots (Datatypes.S levels) l r (shift + deltaHashBits) visit s) s
        = visitM visit s K.
Proof.
  intros Hs Hp Hf Hg IH.
  pose proof (lor_range _ _ (slotBitmap_range _ _ _ _ _ Hs Hf) (slotBitmap_range _ _ _ _ _ Hs Hg)) as Hrange.
  destruct (walkBits_spec (S := S) 32 _ Hrange (bitsBelow_le _ _)) as (xs & Hnd & Hxs & Hw).
  destruct (bits_cover shift p xs f g (λ visit x s,
      l ← hashSlotAt left (2 ^ Z.of_nat x) shift; r ← hashSlotAt right (2 ^ Z.of_nat x) shift;
      walkChangedHashSlots (Datatypes.S levels) l r (shift + deltaHashBits) visit s) Hs Hp Hnd) as (K & HK & Hcov & Hin & Hvis).
  - intros x Hx%Hxs. assert (x < 32)%nat as Hx32.
    { destruct (decide (x < 32)%nat); [done|]. apply bitmap_range in Hrange as [_ Hrange]. by rewrite Hrange in Hx by lia. }
    destruct (hashSlotAt_spec levels shift p left f x Hs Hx32 Hf) as (l & f' & Hl & Hl' & Hfx & _).
    destruct (hashSlotAt_spec levels shift p right g x Hs Hx32 Hg) as (r & g' & Hr & Hr' & Hgx & _).
    destruct (IH _ l r f' g' (prefix_range _ _ _ Hs Hp Hx32) Hl' Hr') as (K & HK & HvK).
    exists f', g', K. split_and!; [apply HK..| |].
    + intros k Hk. split; [by apply Hfx|by apply Hgx].
    + intros visit s. rewrite Hl, Hr. cbn [mbind option_bind]. apply HvK.
  - exists K. split; [split_and!; [done| |intros k Hk; by apply Hin]|intros visit s; by rewrite Hw, <-Hvis].
    intros k Hne. apply Hcov; [|done]. apply Hxs. destruct (Z.testbit _ _) eqn:Hb; [done|]. destruct Hne.
    pose proof (hashIndex_lt (maphash k) shift) as Hx32. rewrite Z.lor_spec in Hb. apply orb_false_iff in Hb as [Hbl Hbr].
    destruct (hashSlotAt_spec levels shift p left f _ Hs Hx32 Hf) as (? & ? & _ & _ & _ & Hnl).
    destruct (hashSlotAt_spec levels shift p right g _ Hs Hx32 Hg) as (? & ? & _ & _ & _ & Hnr).
    by rewrite (Hnl Hbl k eq_refl), (Hnr Hbr k eq_refl).
Qed.

Lemma same_covers levels shift p slot f g :
  slotIs levels shift p slot f → slotIs levels shift p slot g → covers shift p f g [].
Proof.
  intros Hf Hg. split_and!; [constructor| |by intros k ?%not_elem_of_nil].
  intros k []. by eapply slotIs_fn.
Qed.

Lemma slotIs_no_levels shift p slot f : slotIs 0 shift p slot f → slotHasChild slot = false.
Proof. destruct slot as [[c|l]|]; [|done..]. by intros []. Qed.

(** Descending two tries together visits, once each, keys that include every
    one they differ on. *)
Lemma walkChangedHashSlots_spec levels shift p left right f g :
  0 ≤ shift → 0 ≤ p < 2 ^ shift → slotIs levels shift p left f → slotIs levels shift p right g →
  ∃ K, covers shift p f g K
    ∧ ∀ visit s, walkChangedHashSlots (Datatypes.S levels) left right shift visit s = visitM visit s K.
Proof.
  revert shift p left right f g. induction levels as [|levels IH]; intros shift p left right f g Hs Hp Hf Hg.
  all: destruct (sameSlot left right) eqn:Hsame.
  1,3: apply sameSlot_eq in Hsame as Heq; subst right; exists []; split;
    [by eapply same_covers|intros; cbn [walkChangedHashSlots]; by rewrite Hsame].
  all: destruct (negb (slotHasChild left) && negb (slotHasChild right)) eqn:Hleaf.
  1,3: apply andb_true_iff in Hleaf as [Hl%negb_true_iff Hr%negb_true_iff];
    exists (leafKeys (slotLeaf left) (slotLeaf right)); split; [by eapply leaf_covers|];
    intros; cbn [walkChangedHashSlots]; rewrite Hsame, Hl, Hr; apply walkChangedHashLeaves_spec.
  - by rewrite (slotIs_no_levels _ _ _ _ Hf), (slotIs_no_levels _ _ _ _ Hg) in Hleaf.
  - destruct (descend_cover levels shift p left right f g Hs Hp Hf Hg) as (K & HK & HvK).
    { intros p' l r f' g' Hp' Hl Hr. apply IH; try done. unfold deltaHashBits. lia. }
    exists K. split; [done|]. intros visit s. rewrite <-HvK.
    change (walkChangedHashSlots (Datatypes.S (Datatypes.S levels)) left right shift visit s) with
      (if sameSlot left right then Some (s, false)
       else if negb (slotHasChild left) && negb (slotHasChild right)
       then walkChangedHashLeaves (slotLeaf left) (slotLeaf right) visit s
       else walkBits 32 (Z.lor (hashSlotBitmap left shift) (hashSlotBitmap right shift))
          (λ s bit, l ← hashSlotAt left bit shift; r ← hashSlotAt right bit shift;
             walkChangedHashSlots (Datatypes.S levels) l r (shift + deltaHashBits) visit s) s).
    by rewrite Hsame, Hleaf.
Qed.
End tries.

(** ** Two snapshots *)

Section snapshots.
Context {V : Type} (zero : V) `{MapHash} `{Identity V} `{ChangeIdentity V} (equal : V → V → bool).
Implicit Types (m : gmap string V) (n previous : option (TreeNode V)).

(** The code's test: the presence differs, or the values of a present key do. *)
Definition differs m m' (k : string) : bool :=
  let '(before, beforePresent) := answer zero m k in
  let '(after, afterPresent) := answer zero m' k in
  negb (eqb beforePresent afterPresent && (negb afterPresent || equal before after)).

Definition changeOf m m' (k : string) : Change V :=
  MkChange k (answer zero m k).1 (answer zero m' k).1 (answer zero m k).2 (answer zero m' k).2.

Lemma differs_same m m' k : (∀ v, equal v v = true) → m !! k = m' !! k → differs m m' k = false.
Proof.
  intros He E. unfold differs, answer. rewrite E. destruct (m' !! k); simpl; [by rewrite He|done].
Qed.

Context {S : Type} (visit : S → Change V → S * bool).

(** Visiting the changes among some keys. *)
Definition report m m' (K : list string) (s : S) : option (S * bool) :=
  visitM (λ s c, Some (visit s c)) s (changeOf m m' <$> filter (λ k, differs m m' k = true) K).

Lemma emit_spec n previous m m' s k :
  snapshotOf zero previous m → snapshotOf zero n m' →
  emit zero n previous equal visit s k
  = if differs m m' k then Some (visit s (changeOf m m' k)) else Some (s, false).
Proof.
  intros Hp Hn. unfold emit. rewrite (Node_Get_spec _ _ _ k Hp), (Node_Get_spec _ _ _ k Hn). cbn [mbind option_bind].
  unfold differs, changeOf, answer. cbn [fst snd]. by destruct (eqb _ _ && _).
Qed.

Lemma emit_report n previous m m' K s :
  snapshotOf zero previous m → snapshotOf zero n m' →
  visitM (emit zero n previous equal visit) s K = report m m' K s.
Proof.
  intros Hp Hn. unfold report. rewrite <-(visitM_filter _ (differs m m') (changeOf m m')).
  apply visitM_ext. intros s' k _. by apply emit_spec.
Qed.

Lemma visitAll_failing (em : S → string → option (S * bool)) s (L : list (string * V)) :
  visitAll (failing em) (Some s) L
  = match visitM em s (L.*1) with Some (s', stopped) => (Some s', stopped) | None => (None, true) end.
Proof.
  revert s. induction L as [|[k v] L IH]; intros s; simpl; [done|]. unfold failing at 1. simpl.
  destruct (em s k) as [[s' []]|]; simpl; [done|apply IH|done].
Qed.

Lemma walkList_keys n m k : snapshotOf zero n m → k ∈ (walkList n).*1 ↔ is_Some (m !! k).
Proof.
  intros Hn. destruct (walkList_spec _ _ _ Hn) as [_ Hin]. rewrite list_elem_of_fmap. split.
  - intros ([k' v] & -> & Hkv). apply Hin in Hkv. simpl. by rewrite Hkv.
  - intros [v Hv]. exists (k, v). split; [done|]. by apply Hin.
Qed.

(** The keys visited when the bases differ. *)
Definition bothKeys n previous m' : list string :=
  (walkList n).*1 ++ filter (λ k, negb (answer zero m' k).2 = true) ((walkList previous).*1).

Lemma bothKeys_spec n previous m m' :
  snapshotOf zero previous m → snapshotOf zero n m' →
  NoDup (bothKeys n previous m') ∧ ∀ k, m !! k ≠ m' !! k → k ∈ bothKeys n previous m'.
Proof.
  intros Hp Hn. unfold bothKeys. split.
  - apply NoDup_app. split_and!.
    + by eapply sorted_keys_NoDup, walkList_spec.
    + intros k Hk [Hk' _]%list_elem_of_filter. apply (walkList_keys _ _ _ Hn) in Hk. unfold answer in Hk'. simpl in Hk'.
      by rewrite bool_decide_true in Hk'.
    + apply NoDup_filter. by eapply sorted_keys_NoDup, walkList_spec.
  - intros k Hne. rewrite elem_of_app, list_elem_of_filter, (walkList_keys _ _ _ Hn), (walkList_keys _ _ _ Hp).
    unfold answer. simpl. destruct (m' !! k) eqn:Hk'; [left; by eexists|right]. split; [done|].
    destruct (m !! k); [by eexists|done].
Qed.

Lemma unrelated_walk n previous m m' s :
  snapshotOf zero previous m → snapshotOf zero n m' →
  ('(s1, stopped) ← Node_Walk (failing (emit zero n previous equal visit)) n (Some s);
   if stopped : bool then s' ← s1; Some (s', true)
   else
     s1 ← s1;
     '(s2, stopped) ← Node_Walk (failing (λ s key,
                         '(_, present) ← Node_Get zero n key;
                         if negb present then emit zero n previous equal visit s key else Some (s, false))) previous (Some s1);
     s' ← s2; Some (s', stopped))
  = report m m' (bothKeys n previous m') s.
Proof.
  intros Hp Hn. unfold bothKeys. rewrite <-(emit_report n previous) by done. rewrite visitM_app.
  rewrite (Node_Walk_spec zero _ _ _ _ Hn), visitAll_failing. cbn [mbind option_bind].
  destruct (visitM (emit zero n previous equal visit) s _) as [[s1 []]|]; cbn [mbind option_bind]; [done| |done].
  rewrite (Node_Walk_spec zero _ _ _ _ Hp), visitAll_failing. cbn [mbind option_bind].
  rewrite (visitM_ext _ (λ s k, if negb (answer zero m' k).2 then emit zero n previous equal visit s k else Some (s, false))).
  - rewrite (visitM_filter _ (λ k, negb (answer zero m' k).2) id), list_fmap_id.
    by destruct (visitM _ s1 _) as [[s2 []]|].
  - intros s' k _. by rewrite (Node_Get_spec _ _ _ k Hn).
Qed.

(** The tries of two snapshots over one base. *)
Lemma rootSlot_is n m :
  snapshotOf zero n m →
  ∃ f, slotIs hashLevels 0 0 (rootSlot n) f
    ∧ ∀ k, m !! k = match f k with Some e => entryValue e | None => baseMap (nodeBase n) !! k end.
Proof.
  destruct n as [n|]; simpl; [|intros ->; exists (λ _, None); split; [done|]; intros k; by rewrite !lookup_empty].
  intros [_ _ _ Hi _ <- _ _]. exists (entryOf (entries (Node_delta n))). split; [|intros k; apply contents_lookup].
  unfold rootSlot. simpl. by destruct (Node_deltaHash n).
Qed.

Lemma sameFrozenBase_eq n previous : sameFrozenBase n previous = true → nodeBase n = nodeBase previous.
Proof.
  unfold sameFrozenBase. rewrite andb_true_iff, orb_true_iff, !Nat.eqb_eq. intros [Hl [Hz|Hf]].
  - rewrite Hz in Hl. by rewrite (nil_length_inv _ Hz), (nil_length_inv _ (eq_sym Hl)).
  - by apply sameFirst_eq.
Qed.

Lemma WalkChanges_keys n previous m m' :
  (∀ v, equal v v = true) → snapshotOf zero previous m → snapshotOf zero n m' →
  ∃ K, NoDup K ∧ (∀ k, differs m m' k = true → k ∈ K)
    ∧ ∀ s, WalkChanges zero n previous equal visit s = report m m' K s.
Proof.
  intros He Hp Hn. assert (∀ k, differs m m' k = true → m !! k ≠ m' !! k) as Hne.
  { intros k Hd E. by rewrite (differs_same m m' k He E) in Hd. }
  unfold WalkChanges. destruct (sameSnapshot n previous) eqn:Hsame.
  { assert (n = previous) as ->.
    { destruct n, previous; simpl in Hsame; try done. f_equal. by apply sameNode_eq. }
    assert (m = m') as ->.
    { destruct previous as [x|]; simpl in *; [|congruence].
      by rewrite <-(state_contents _ _ _ _ _ _ _ _ Hp), <-(state_contents _ _ _ _ _ _ _ _ Hn). }
    exists []. split_and!; [constructor| |done]. intros k Hd. by apply Hne in Hd. }
  destruct (sameFrozenBase n previous) eqn:Hbase.
  - apply sameFrozenBase_eq in Hbase. destruct (rootSlot_is _ _ Hn) as (f & Hf & Hmf). destruct (rootSlot_is _ _ Hp) as (g & Hg & Hmg).
    destruct (walkChangedHashSlots_spec (S := S) hashLevels 0 0 _ _ f g ltac:(lia) ltac:(lia) Hf Hg) as (K & (Hnd & Hcov & _) & Hw).
    exists K. split_and!; [done| |intros s; by rewrite Hw, (emit_report n previous m m')].
    intros k Hd%Hne. apply Hcov. intros E. apply Hd. by rewrite Hmf, Hmg, Hbase, E.
  - exists (bothKeys n previous m'). destruct (bothKeys_spec _ _ _ _ Hp Hn) as [Hnd Hcov].
    split_and!; [done|intros k Hd%Hne; by apply Hcov|]. intros s. by apply unrelated_walk.
Qed.

(** C32: between any two trees that can be built, whatever they share, the change
    walk reports exactly the keys whose presence or value differs, each once with
    its values before and after, until the visitor stops; a shared subtree is
    never skipped with a difference in it. *)
Theorem changes_reported_exactly t t' m m' :
  (∀ v, equal v v = true) → reaches zero t m → reaches zero t' m' →
  ∃ C, NoDup (Change_Key <$> C)
    ∧ (∀ c, c ∈ C ↔ ∃ k, differs m m' k = true ∧ c = changeOf m m' k)
    ∧ ∀ s, WalkChanges zero (Tree_Root t') (Tree_Root t) equal visit s = visitM (λ s c, Some (visit s c)) s C.
Proof.
  intros He Ht%reaches_treeOf Ht'%reaches_treeOf.
  destruct (WalkChanges_keys _ _ _ _ He Ht Ht') as (K & Hnd & Hcov & Hw).
  exists (changeOf m m' <$> filter (λ k, differs m m' k = true) K). split_and!.
  - rewrite <-list_fmap_compose. change (Change_Key ∘ changeOf m m') with (@id string). rewrite list_fmap_id. by apply NoDup_filter.
  - intros c. rewrite list_elem_of_fmap. setoid_rewrite list_elem_of_filter. split.
    + intros (k & -> & Hd & _). by exists k.
    + intros (k & Hd & ->). exists k. split_and!; [done..|by apply Hcov].
  - exact Hw.
Qed.
End snapshots.
