(* ===== verification/TreeScenario.v ===== *)
(** * Concrete persistent trees

    Two hash functions, one that collides on every pair of keys of one length
    and one that spreads them, and small trees on which the theorems about the
    persistent tree are applied and its operations are run. *)

From Stdlib Require Import ZArith Lia.
From stdpp Require Import base list numbers strings option sorting sets gmap.
From S2P Require Import Prelude KeyOrder DeltaTree DeltaHash DeltaHashProps PersistentTree FrozenBase PersistentTreeProps TreeWalk TreeClaims TreeChanges TreeChangesProps.
Open Scope Z_scope.

(** ** Instances *)

(** Keys of one length collide. *)
Definition lengthHash : MapHash.
Proof.
  refine {| maphash key := Z.of_nat (String.length key) mod 2 ^ 64 |}.
  intros key. by apply Z.mod_pos_bound.
Defined.

Fixpoint polynomial (key : string) (acc : Z) : Z :=
  match key with
  | EmptyString => acc
  | String c rest => polynomial rest ((acc * 31 + Z.of_N (Ascii.N_of_ascii c)) mod 2 ^ 64)
  end.

Definition spreadHash : MapHash.
Proof.
  refine {| maphash key := polynomial key 7 mod 2 ^ 64 |}.
  intros key. by apply Z.mod_pos_bound.
Defined.

(** Only nil is recognised as shared. *)
#[export] Instance nilIdentity {V} : Identity V.
Proof.
  refine {| sameDelta a b := match a, b with DNil, DNil => true | _, _ => false end;
            sameDeltaHash a b := match a, b with None, None => true | _, _ => false end |}; by intros [] [].
Defined.

#[export] Instance noIdentity {V} : ChangeIdentity V.
Proof.
  by refine {| sameNode _ _ := false; sameChild _ _ := false; sameLeaf _ _ := false;
               sameEntry _ _ := false; sameFirst _ _ := false |}.
Defined.

(** ** A small tree *)

Definition smallEntries : list (TreeEntry Z) := [MkEntry "a" 1; MkEntry "ab" 2; MkEntry "c" 3].

Definition smallTree `{MapHash} : Tree Z :=
  match NewFromSorted smallEntries with Some (inl t) => t | _ => New end.

Definition smallOps : list (treeOp (V := Z)) :=
  [OpInsert "b" 5; OpDelete "a"; OpGet "a"; OpRoot; OpInsert "a" 7; OpRenew; OpDelete "b"; OpDelete "b"; OpDelete "c"; OpGet "ab"].

Lemma smallTree_reached `{MapHash} : reaches 0 (Some smallTree) (entriesMap smallEntries).
Proof. by apply reaches_new. Qed.

Lemma tree_refines_map_witness :
  ∃ txn, runTxn (H := lengthHash) 0 (Tree_Txn (Some (smallTree (H := lengthHash)))) smallOps
         = Some (txn, [(0, false); (1, true); (0, false); (0, false); (5, true); (0, false); (3, true); (2, true)])
    ∧ Tree_Len (snd (Txn_Commit txn)) = 2
    ∧ ∀ key, Node_Get (H := lengthHash) 0 (Tree_Root (snd (Txn_Commit txn))) key
             = Some (answer 0 (runMap 0 (entriesMap smallEntries) smallOps).1 key).
Proof.
  exact (tree_refines_map (H := lengthHash) 0 (Some smallTree) (entriesMap smallEntries) smallOps (smallTree_reached (H := lengthHash))).
Defined.

Lemma walks_in_key_order_witness :
  ∃ L, StronglySorted klt (L.*1) ∧ (∀ k v, (k, v) ∈ L ↔ entriesMap smallEntries !! k = Some v)
    ∧ (∀ S (visit : S → string → Z → S * bool) s,
         Node_Walk visit (Tree_Root (Some (smallTree (H := lengthHash)))) s = Some (visitAll visit s L))
    ∧ (∀ S (visit : S → string → Z → S * bool) s prefix,
         Node_WalkPrefix visit (Tree_Root (Some (smallTree (H := lengthHash)))) prefix s
         = Some (visitAll visit s (filter (λ kv, String.prefix prefix kv.1 = true) L)))
    ∧ Node_Minimum (H := lengthHash) (Tree_Root (Some (smallTree (H := lengthHash)))) = Some (head L)
    ∧ Node_Maximum (H := lengthHash) (Tree_Root (Some (smallTree (H := lengthHash)))) = Some (last L).
Proof.
  exact (walks_in_key_order (H := lengthHash) 0 (Some smallTree) (entriesMap smallEntries) (smallTree_reached (H := lengthHash))).
Defined.

(** The tree after the operations. *)
Definition nextTree `{MapHash} : option (Tree Z) :=
  match runTxn 0 (Tree_Txn (Some smallTree)) smallOps with Some (txn, _) => snd (Txn_Commit txn) | None => None end.

Lemma nextTree_reached : reaches (H := lengthHash) 0 (nextTree (H := lengthHash)) (runMap 0 (entriesMap smallEntries) smallOps).1.
Proof.
  unfold nextTree. destruct (runTxn 0 (Tree_Txn (Some smallTree)) smallOps) as [[txn outs]|] eqn:Hrun.
  - eapply reaches_run; [apply smallTree_reached|exact Hrun].
  - by vm_compute in Hrun.
Qed.

Lemma changes_reported_exactly_witness :
  ∃ C, NoDup (Change_Key <$> C)
    ∧ (∀ c, c ∈ C ↔ ∃ k, differs 0 Z.eqb (entriesMap smallEntries) (runMap 0 (entriesMap smallEntries) smallOps).1 k = true
                       ∧ c = changeOf 0 (entriesMap smallEntries) (runMap 0 (entriesMap smallEntries) smallOps).1 k)
    ∧ ∀ s : list (Change Z),
        WalkChanges (H := lengthHash) 0 (Tree_Root (nextTree (H := lengthHash))) (Tree_Root (Some (smallTree (H := lengthHash))))
          Z.eqb (λ s c, (c :: s, false)) s
        = visitM (λ s c, Some (c :: s, false)) s C.
Proof.
  exact (changes_reported_exactly (H := lengthHash) 0 Z.eqb (λ s c, (c :: s, false)) (Some smallTree) nextTree
           (entriesMap smallEntries) _ Z.eqb_refl (smallTree_reached (H := lengthHash)) nextTree_reached).
Defined.

Lemma construction_and_depth_witness :
  ∃ n, Tree_Root (nextTree (H := lengthHash)) = Some n
    ∧ ((∃ t0, NewFromSorted (H := lengthHash) smallEntries = Some (inl t0) ∧ Tree_Len (Some t0) = 3
          ∧ ∀ key, Node_Get (H := lengthHash) 0 (Tree_Root (Some t0)) key = Some (answer 0 (entriesMap smallEntries) key))
       ∧ balanced (Node_delta n) ∧ 2 ^ deltaHeight (Node_delta n) ≤ (Node_deltaSize n + 1) ^ 2).
Proof.
  eexists. split; [vm_compute; reflexivity|].
  eapply (construction_and_depth (H := lengthHash) 0 smallEntries nextTree _ _ eq_refl nextTree_reached).
  vm_compute. reflexivity.
Defined.

(** ** Runs *)

(** What a walk from one version to the next collects. *)
Example changes_run :
  WalkChanges (H := lengthHash) 0 (Tree_Root (nextTree (H := lengthHash))) (Tree_Root (Some (smallTree (H := lengthHash))))
    Z.eqb (λ s c, (c :: s, false)) []
  = Some ([MkChange "c" 3 0 true false; MkChange "a" 1 7 true true], false).
Proof. vm_compute. reflexivity. Qed.

(** A base large enough for the hash table. *)
Definition largeEntries : list (TreeEntry Z) :=
  (λ i, MkEntry (String (Ascii.ascii_of_nat (97 + i / 10)) (String (Ascii.ascii_of_nat (48 + i mod 10)) "")) (Z.of_nat i)) <$> seq 0 40.

Definition largeTree `{MapHash} : Tree Z :=
  match NewFromSorted largeEntries with Some (inl t) => t | _ => New end.

Example table_run :
  (Node_Get (H := spreadHash) 0 (Tree_Root (Some (largeTree (H := spreadHash)))) "c7",
   Node_Get (H := lengthHash) 0 (Tree_Root (Some (largeTree (H := lengthHash)))) "d9",
   Node_Get (H := spreadHash) 0 (Tree_Root (Some (largeTree (H := spreadHash)))) "e0")
  = (Some (27, true), Some (39, true), Some (0, false)).
Proof. vm_compute. reflexivity. Qed.

Example prefix_run :
  Node_WalkPrefix (λ s k v, (s ++ [(k, v)], bool_decide (v = 22))) (Tree_Root (Some (largeTree (H := spreadHash)))) "c" []
  = Some ([("c0", 20); ("c1", 21); ("c2", 22)], true).
Proof. vm_compute. reflexivity. Qed.

(** Unordered or repeated keys are refused. *)
Example unordered_refused :
  NewFromSorted (H := lengthHash) [MkEntry "b" 1; MkEntry "a" 2] = Some (inr EntriesNotStrictlyOrdered)
  ∧ NewFromSorted (H := lengthHash) [MkEntry "a" 1; MkEntry "a" 2] = Some (inr EntriesNotStrictlyOrdered).
Proof. vm_compute. split; reflexivity. Qed.
