(* ===== verification/MapReparse.v ===== *)
(** * Re-parsing map files

    Models the incremental half of [src/pkg/dataplane/renderplan/mapentries.go]:
    [ParseMapEntriesIndexed] and [Reparse], which parses only the lines between
    the unchanged head and the unchanged tail of a text and slices the carried
    entries out of the new one. A slice out of range is [None]. A nil slice of
    entries is the empty list: here the two are never told apart. *)

From Stdlib Require Import ZArith Lia Ascii.
From stdpp Require Import base list list_numbers strings option sets.
From S2P Require Import Prelude Api GoStd RenderPlan MapEntries.
Open Scope Z_scope.

(** ** Byte searches and slices *)

(** [strings.Index]. *)
Fixpoint strIndex (s sub : string) : Z :=
  if bool_decide (is_Some (stripPrefix sub s)) then 0
  else match s with
       | EmptyString => -1
       | String _ r => let i := strIndex r sub in if 0 <=? i then i + 1 else -1
       end.

(** [strings.IndexByte] and [strings.LastIndexByte] of a newline. *)
Fixpoint indexNewline (s : string) : Z :=
  match s with
  | EmptyString => -1
  | String c r =>
      if Ascii.eqb c newline then 0 else let i := indexNewline r in if 0 <=? i then i + 1 else -1
  end.

Fixpoint lastIndexNewline (s : string) : Z :=
  match s with
  | EmptyString => -1
  | String c r =>
      let i := lastIndexNewline r in
      if 0 <=? i then i + 1 else if Ascii.eqb c newline then 0 else -1
  end.

Definition len (s : string) : Z := Z.of_nat (String.length s).

(** [s[a:b]]. *)
Definition slice (s : string) (a b : Z) : option string :=
  if bool_decide (0 ≤ a ≤ b ∧ b ≤ len s) then Some (strTake (Z.to_nat (b - a)) (strDrop (Z.to_nat a) s)) else None.

Fixpoint commonPrefixLen (left right : string) : Z :=
  match left, right with
  | String a left', String b right' => if Ascii.eqb a b then commonPrefixLen left' right' + 1 else 0
  | _, _ => 0
  end.

(** The same loop from the last byte down. *)
Definition commonSuffixLen (left right : string) : Z := commonPrefixLen (string_rev left) (string_rev right).

(** ** Data *)

Record entrySpan := MkSpan { span_line : Z; span_key : Z; span_value : Z }.

Record ParsedMapEntries := MkParsed {
  Parsed_Content : string;
  Parsed_Entries : list Entry;
  Parsed_spans : list entrySpan;
}.

(** ** The operations *)

(** One line that starts at [at_]: its entry and where it lies. *)
Definition spannedLine (line : string) (at_ : Z) : option (Entry * entrySpan) :=
  let trimmed := trimSpace line in
  if bool_decide (trimmed = "") || hasPrefix trimmed "#" then None
  else
    let lead := strIndex line trimmed in
    match cutBlank trimmed with
    | Some (key, rest) =>
        let value := trimSpace rest in
        let valueAt := lead + len key + 1 + strIndex rest value in
        Some (MkEntry key value, MkSpan at_ (at_ + lead) (at_ + valueAt))
    | None => Some (MkEntry trimmed "", MkSpan at_ (at_ + lead) (at_ + 0))
    end.

Fixpoint parseLinesAt (lines : list string) (at_ : Z) : list (Entry * entrySpan) :=
  match lines with
  | [] => []
  | line :: rest =>
      match spannedLine line at_ with Some x => [x] | None => [] end ++ parseLinesAt rest (at_ + len line + 1)
  end.

Definition parseMapLines (content : string) (base : Z) (entries : list Entry) (spans : list entrySpan) :
    list Entry * list entrySpan :=
  let parsed := parseLinesAt (split newline content) base in
  (entries ++ parsed.*1, spans ++ parsed.*2).

Definition ParseMapEntriesIndexed (content : string) : ParsedMapEntries :=
  let '(entries, spans) := parseMapLines content 0 [] [] in MkParsed content entries spans.

Fixpoint carryMapEntries (content : string) (carried : list Entry) (spans : list entrySpan) (delta : Z)
    (entries : list Entry) (out : list entrySpan) : option (list Entry * list entrySpan) :=
  match carried, spans with
  | [], _ => Some (entries, out)
  | _ :: _, [] => None
  | e :: carried', sp :: spans' =>
      let span := MkSpan (span_line sp + delta) (span_key sp + delta) (span_value sp + delta) in
      key ← slice content (span_key span) (span_key span + len (Entry_Key e));
      value ← (if negb (bool_decide (Entry_Value e = "")) then slice content (span_value span) (span_value span + len (Entry_Value e))
               else Some "");
      carryMapEntries content carried' spans' delta (entries ++ [MkEntry key value]) (out ++ [span])
  end.

(** How many elements from the start satisfy the loop's condition. The loops
    of [Reparse] run over [spans] up to the number of entries, which is the
    number of spans in every value the two constructors below build. *)
Fixpoint countWhile {A} (p : A → bool) (l : list A) : nat :=
  match l with [] => 0 | x :: l' => if p x then S (countWhile p l') else 0 end.

Definition Reparse (p : ParsedMapEntries) (content : string) : option ParsedMapEntries :=
  if bool_decide (content = Parsed_Content p) then Some p
  else if bool_decide (length (Parsed_Entries p) = 0%nat) then Some (ParseMapEntriesIndexed content)
  else
    let previous := Parsed_Content p in
    common ← slice previous 0 (commonPrefixLen previous content);
    let prefix := lastIndexNewline common + 1 in
    previousRest ← slice previous prefix (len previous);
    contentRest ← slice content prefix (len content);
    let suffix := commonSuffixLen previousRest contentRest in
    let oldTail := len previous - suffix in
    shared ← slice previous oldTail (len previous);
    let oldTail := if indexNewline shared <? 0 then len previous else oldTail + (indexNewline shared + 1) in
    let newTail := len content - (len previous - oldTail) in
    let head := countWhile (λ sp, span_line sp <? prefix) (Parsed_spans p) in
    let kept := countWhile (λ sp, oldTail <=? span_line sp) (reverse (drop head (Parsed_spans p))) in
    let tail := (length (Parsed_Entries p) - kept)%nat in
    '(entries, spans) ← carryMapEntries content (take head (Parsed_Entries p)) (take head (Parsed_spans p)) 0 [] [];
    window ← slice content prefix newTail;
    let '(entries, spans) := parseMapLines window prefix entries spans in
    '(entries, spans) ← carryMapEntries content (drop tail (Parsed_Entries p)) (drop tail (Parsed_spans p))
                          (newTail - oldTail) entries spans;
    Some (MkParsed content entries spans).

(** ** Strings cut in pieces *)

Lemma len_append a b : len (a +:+ b) = len a + len b.
Proof. unfold len. rewrite length_append. lia. Qed.

Lemma len_nonneg a : 0 ≤ len a.
Proof. unfold len. lia. Qed.

Lemma strTake_append a b : strTake (String.length a) (a +:+ b) = a.
Proof. induction a as [|c a IH]; [by destruct b|]. rewrite append_cons. simpl. by rewrite IH. Qed.

Lemma strDrop_append a b : strDrop (String.length a) (a +:+ b) = b.
Proof. induction a as [|c a IH]; [by destruct b|]. rewrite append_cons. simpl. exact IH. Qed.

(** The middle piece of three. *)
Lemma slice_middle a b c x y : x = len a → y = len a + len b → slice (a +:+ b +:+ c) x y = Some b.
Proof.
  intros -> ->. unfold slice. rewrite bool_decide_true.
  2:{ rewrite !len_append. pose proof (len_nonneg a). pose proof (len_nonneg b). pose proof (len_nonneg c). lia. }
  replace (len a + len b - len a) with (len b) by lia. unfold len. rewrite !Nat2Z.id, strDrop_append, strTake_append. done.
Qed.

Lemma slice_head a b x : x = len a → slice (a +:+ b) 0 x = Some a.
Proof. intros ->. rewrite <-(append_nil_l (a +:+ b)). by apply slice_middle. Qed.

Lemma slice_tail a b x y : x = len a → y = len (a +:+ b) → slice (a +:+ b) x y = Some b.
Proof.
  intros -> ->. rewrite <-(append_empty_r b) at 1. rewrite len_append. by apply slice_middle.
Qed.

Lemma commonPrefix_spec l r :
  ∃ a x y, l = a +:+ x ∧ r = a +:+ y ∧ len a = commonPrefixLen l r.
Proof.
  revert r. induction l as [|c l IH]; intros r; [by exists "", "", r|].
  destruct r as [|d r]; [by exists "", (String c l), ""|]. simpl. destruct (Ascii.eqb_spec c d) as [->|].
  - destruct (IH r) as (a & x & y & -> & -> & Hl). exists (String d a), x, y. rewrite !append_cons.
    split_and!; [done..|]. rewrite <-Hl. unfold len. simpl. lia.
  - by exists "", (String c l), (String d r).
Qed.

Lemma length_string_rev s : String.length (string_rev s) = String.length s.
Proof.
  induction s as [|c s IH]; [done|]. unfold string_rev. simpl. rewrite string_rev_app_spec, length_append, IH. simpl. lia.
Qed.

Lemma commonSuffix_spec l r :
  ∃ x y t, l = x +:+ t ∧ r = y +:+ t ∧ len t = commonSuffixLen l r.
Proof.
  destruct (commonPrefix_spec (string_rev l) (string_rev r)) as (a & x & y & Hl & Hr & Ha).
  exists (string_rev x), (string_rev y), (string_rev a).
  rewrite <-!string_rev_append, <-Hl, <-Hr, !string_rev_involutive. split_and!; [done..|].
  unfold commonSuffixLen. rewrite <-Ha. unfold len. by rewrite length_string_rev.
Qed.

(** The start of a line: nothing, or a text that ends in a newline. *)
Definition lineStart (a : string) : Prop := a = "" ∨ ∃ a', a = a' +:+ String newline "".

Lemma lineStart_cons c a : lineStart a → a ≠ "" ∨ c = newline → lineStart (String c a).
Proof.
  intros [->|[a' ->]] Hc.
  - destruct Hc as [| ->]; [done|]. right. by exists "".
  - right. exists (String c a'). by rewrite append_cons.
Qed.

Lemma lastIndexNewline_spec s :
  ∃ a b, s = a +:+ b ∧ lineStart a ∧ len a = lastIndexNewline s + 1 ∧ -1 ≤ lastIndexNewline s.
Proof.
  induction s as [|c s (a & b & Hs & Ha & Hl & Hge)]; [exists "", ""; split_and!; [done|by left|done|done]|].
  cbn [lastIndexNewline]. destruct (Z.leb_spec 0 (lastIndexNewline s)) as [Hi|Hi].
  - exists (String c a), b. split_and!; [by rewrite append_cons, <-Hs| |unfold len in *; simpl; lia|lia].
    apply lineStart_cons; [done|]. left. intros ->. unfold len in Hl. simpl in Hl. lia.
  - destruct (Ascii.eqb_spec c newline) as [->|].
    + exists (String newline ""), s. split_and!; [done| |done|lia]. right. by exists "".
    + exists "", (String c s). split_and!; [done|by left|done|lia].
Qed.

Lemma indexNewline_spec s :
  indexNewline s = -1 ∨ ∃ a b, s = (a +:+ String newline "") +:+ b ∧ len a = indexNewline s ∧ 0 ≤ indexNewline s.
Proof.
  induction s as [|c s IH]; [by left|]. cbn [indexNewline]. destruct (Ascii.eqb_spec c newline) as [->|].
  - right. by exists "", s.
  - destruct IH as [->|(a & b & Hs & Ha & Hge)]; [by left|right].
    rewrite (proj2 (Z.leb_le _ _) Hge). exists (String c a), b. rewrite !append_cons, <-Hs.
    split_and!; [done|unfold len in *; simpl; lia|lia].
Qed.

(** [strings.Index] finds an occurrence. *)
Lemma strIndex_spec pre sub post :
  ∃ a b, pre +:+ sub +:+ post = a +:+ sub +:+ b ∧ len a = strIndex (pre +:+ sub +:+ post) sub.
Proof.
  induction pre as [|c pre IH].
  - exists "", post. split; [done|]. rewrite append_nil_l. pose proof (stripPrefix_append sub post) as Hp.
    destruct (sub +:+ post); cbn [strIndex]; rewrite Hp; by rewrite bool_decide_true.
  - rewrite append_cons. cbn [strIndex]. case_bool_decide as Hp.
    + destruct Hp as [r Hr%stripPrefix_Some]. by exists "", r.
    + destruct IH as (a & b & Hs & Hl). rewrite <-Hl. rewrite (proj2 (Z.leb_le _ _) (len_nonneg a)).
      exists (String c a), b. rewrite append_cons, <-Hs. split; [done|]. unfold len. simpl. lia.
Qed.

(** ** One line *)

Lemma spannedLine_entry line at_ : fst <$> spannedLine line at_ = lineEntry line.
Proof. unfold spannedLine, lineEntry. case_match; [done|]. by destruct (cutBlank (trimSpace line)) as [[]|]. Qed.

Definition shiftSpan (d : Z) (sp : entrySpan) : entrySpan :=
  MkSpan (span_line sp + d) (span_key sp + d) (span_value sp + d).

Definition shiftEntry (d : Z) (x : Entry * entrySpan) : Entry * entrySpan := (x.1, shiftSpan d x.2).

Lemma spannedLine_shift line at_ d : spannedLine line (at_ + d) = shiftEntry d <$> spannedLine line at_.
Proof.
  unfold spannedLine. case_match; [done|]. destruct (cutBlank (trimSpace line)) as [[]|]; simpl;
    unfold shiftEntry, shiftSpan; simpl; do 3 f_equal; lia.
Qed.

(** Where the span of an entry points in the text around its line. *)
Definition points (text : string) (d : Z) (x : Entry * entrySpan) : Prop :=
  slice text (span_key x.2 + d) (span_key x.2 + d + len (Entry_Key x.1)) = Some (Entry_Key x.1)
  ∧ (Entry_Value x.1 ≠ "" →
     slice text (span_value x.2 + d) (span_value x.2 + d + len (Entry_Value x.1)) = Some (Entry_Value x.1)).

Lemma spannedLine_points line at_ x a b d :
  spannedLine line at_ = Some x → at_ + d = len a →
  points (a +:+ line +:+ b) d x ∧ span_line x.2 = at_ ∧ line ≠ "".
Proof.
  unfold spannedLine. destruct (trimSpace_spec line) as (_ & _ & pre & post & Hline).
  set (trimmed := trimSpace line) in *. case_match eqn:Hb; [done|].
  apply orb_false_iff in Hb as [Hne%bool_decide_eq_false _].
  assert (line ≠ "") as Hline0.
  { intros E. apply Hne. assert (∀ s, String.length s = 0%nat → s = "") as Hz by by intros [].
    apply Hz. apply (f_equal String.length) in Hline. rewrite E, !length_append in Hline. simpl in Hline. lia. }
  destruct (strIndex_spec pre trimmed post) as (u & v & Huv & Hu). rewrite <-Hline in Huv, Hu.
  intros Hx Ha. rewrite <-Hu in Hx. destruct (cutBlank trimmed) as [[key rest]|] eqn:Hcut; injection Hx as <-; simpl.
  - destruct (cutBlank_Some _ _ _ Hcut) as (c & Ht & _). destruct (trimSpace_spec rest) as (_ & _ & pre' & post' & Hrest).
    destruct (strIndex_spec pre' (trimSpace rest) post') as (u' & v' & Huv' & Hu'). rewrite <-Hrest in Huv', Hu'.
    rewrite <-Hu'. set (value := trimSpace rest) in *. clearbody value. split; [rewrite Huv; split; simpl; [|intros _]|done].
    + rewrite Ht. replace (a +:+ (u +:+ (key +:+ String c rest) +:+ v) +:+ b)
        with ((a +:+ u) +:+ key +:+ (String c rest +:+ v +:+ b)) by by rewrite !append_assoc.
      apply slice_middle; rewrite len_append; lia.
    + rewrite Ht, Huv'. replace (a +:+ (u +:+ (key +:+ String c (u' +:+ value +:+ v')) +:+ v) +:+ b)
        with ((a +:+ u +:+ key +:+ String c u') +:+ value +:+ (v' +:+ v +:+ b)).
      2:{ by repeat first [rewrite append_assoc | rewrite append_cons]. }
      assert (len (String c u') = len u' + 1) by (unfold len; simpl; lia).
      apply slice_middle; rewrite !len_append; lia.
  - split; [rewrite Huv; split; simpl; [|done]|done].
    replace (a +:+ (u +:+ trimmed +:+ v) +:+ b) with ((a +:+ u) +:+ trimmed +:+ (v +:+ b)) by by rewrite !append_assoc.
    apply slice_middle; rewrite len_append; lia.
Qed.

(** ** A text *)

Definition nl : string := String newline "".

(** The entries of a text that starts at [base]. *)
Definition parsedAt (s : string) (base : Z) : list (Entry * entrySpan) := parseLinesAt (split newline s) base.

Lemma parseLinesAt_points lines at_ a b d x :
  at_ + d = len a → x ∈ parseLinesAt lines at_ →
  points (a +:+ joinWith nl lines +:+ b) d x ∧ at_ ≤ span_line x.2 < at_ + len (joinWith nl lines).
Proof.
  revert at_ a. induction lines as [|line lines IH]; intros at_ a Ha; [set_solver|]. cbn [parseLinesAt].
  rewrite elem_of_app. intros [Hx|Hx].
  - destruct (spannedLine line at_) as [y|] eqn:Hy; [|set_solver]. apply list_elem_of_singleton in Hx as ->.
    destruct lines as [|line' lines].
    + simpl joinWith. destruct (spannedLine_points _ _ _ a b d Hy Ha) as (Hp & -> & Hne). split; [done|].
      destruct line; [done|]. unfold len. simpl. lia.
    + rewrite joinWith_cons, append_assoc.
      destruct (spannedLine_points _ _ _ a ((nl +:+ joinWith nl (line' :: lines)) +:+ b) d Hy Ha) as (Hp & -> & Hne).
      split; [done|]. rewrite len_append. pose proof (len_nonneg (nl +:+ joinWith nl (line' :: lines))).
      destruct line; [done|]. assert (0 < len (String a0 line)) by (unfold len; simpl; lia). lia.
  - destruct lines as [|line' lines]; [set_solver|]. rewrite joinWith_cons.
    assert (len nl = 1) as Hnl by done.
    destruct (IH (at_ + len line + 1) (a +:+ line +:+ nl)) as [Hp Hr]; [rewrite !len_append; lia|done|].
    rewrite !append_assoc in *. split; [done|]. rewrite !len_append. pose proof (len_nonneg line). lia.
Qed.

Lemma parsedAt_points s base a b d x :
  base + d = len a → x ∈ parsedAt s base → points (a +:+ s +:+ b) d x.
Proof. intros Ha Hx. rewrite <-(joinWith_split newline s). by eapply parseLinesAt_points. Qed.

Lemma parsedAt_range s base x : x ∈ parsedAt s base → base ≤ span_line x.2 < base + len s.
Proof.
  intros Hx. destruct (parseLinesAt_points (split newline s) base "" "" (- base) x) as [_ Hr]; [unfold len; simpl; lia|done|].
  unfold nl in Hr. by rewrite joinWith_split in Hr.
Qed.

Lemma parseLinesAt_app xs ys at_ :
  parseLinesAt (xs ++ ys) at_ = parseLinesAt xs at_ ++ parseLinesAt ys (at_ + Z.of_nat (sum_list_with (λ l, S (String.length l)) xs)).
Proof.
  revert at_. induction xs as [|x xs IH]; intros at_; simpl; [by rewrite Z.add_0_r|].
  rewrite IH, <-app_assoc. do 3 f_equal. unfold len. lia.
Qed.

Lemma split_width s : sum_list_with (λ l, S (String.length l)) (split newline s) = S (String.length s).
Proof.
  induction s as [|c s IH]; [done|]. cbn [split]. pose proof (split_nonempty newline s).
  destruct (Ascii.eqb c newline); simpl; [by rewrite IH|]. destruct (split newline s); simpl in *; [done|]. lia.
Qed.

Lemma parsedAt_app a b base : lineStart a → parsedAt (a +:+ b) base = parsedAt a base ++ parsedAt b (base + len a).
Proof.
  unfold parsedAt. intros [->|[a' ->]].
  - rewrite append_nil_l. simpl. f_equal. unfold len. simpl. lia.
  - rewrite append_assoc. change (String newline "" +:+ b) with (String newline b).
    rewrite !split_append, !parseLinesAt_app, split_width. simpl. rewrite app_nil_r. do 2 f_equal.
    rewrite len_append. unfold len. simpl. lia.
Qed.

Lemma parseLinesAt_shift lines at_ d : parseLinesAt lines (at_ + d) = shiftEntry d <$> parseLinesAt lines at_.
Proof.
  revert at_. induction lines as [|line lines IH]; intros at_; [done|]. cbn [parseLinesAt].
  replace (at_ + d + len line + 1) with (at_ + len line + 1 + d) by lia. rewrite fmap_app, IH, spannedLine_shift.
  by destruct (spannedLine line at_).
Qed.

Lemma parsedAt_shift s base d : parsedAt s (base + d) = shiftEntry d <$> parsedAt s base.
Proof. apply parseLinesAt_shift. Qed.

(** Carried entries are the entries, at their shifted places. *)
Lemma carryMapEntries_spec content xs d es sps :
  Forall (points content d) xs →
  carryMapEntries content (xs.*1) (xs.*2) d es sps = Some (es ++ xs.*1, sps ++ (shiftEntry d <$> xs).*2).
Proof.
  intros Hxs. revert es sps. induction Hxs as [|[e sp] xs [Hk Hv] Hxs IH]; intros es sps; simpl; [by rewrite !app_nil_r|].
  simpl in Hk, Hv. rewrite Hk. cbn [mbind option_bind].
  assert ((if negb (bool_decide (Entry_Value e = "")) then slice content (span_value sp + d) (span_value sp + d + len (Entry_Value e))
           else Some "") = Some (Entry_Value e)) as ->.
  { case_bool_decide as He; simpl; [by rewrite He|by apply Hv]. }
  cbn [mbind option_bind]. rewrite IH, <-!app_assoc. by destruct e.
Qed.

Lemma countWhile_app {A} (p : A → bool) l l' :
  Forall (λ x, p x = true) l → Forall (λ x, p x = false) l' → countWhile p (l ++ l') = length l.
Proof.
  induction 1 as [|x l Hx Hl IH]; intros Hl'; simpl; [|by rewrite Hx, IH]. by destruct Hl' as [|y l' Hy]; simpl; [|rewrite Hy].
Qed.

Lemma ParseMapEntriesIndexed_spec content :
  ParseMapEntriesIndexed content = MkParsed content ((parsedAt content 0).*1) ((parsedAt content 0).*2).
Proof. done. Qed.

(** ** Re-parsing *)

(** Cutting a text where a line starts, or at its end. *)
Lemma parsedAt_cut a b base :
  b = "" ∨ lineStart a → parsedAt (a +:+ b) base = parsedAt a base ++ parsedAt b (base + len a).
Proof.
  intros [->|Ha]; [|by apply parsedAt_app]. rewrite append_empty_r. unfold parsedAt at 3. simpl. by rewrite app_nil_r.
Qed.

(** A text whose head [h] and tail [t] are kept around a window. *)
Record edited (previous content h m m' t : string) : Prop := {
  edited_previous : previous = h +:+ m +:+ t;
  edited_content : content = h +:+ m' +:+ t;
  edited_head : lineStart h;
  edited_tail : t = "" ∨ lineStart m;
  edited_tail' : t = "" ∨ lineStart m';
}.

Lemma edited_parsed previous content h m m' t :
  edited previous content h m m' t →
  parsedAt previous 0 = parsedAt h 0 ++ parsedAt m (len h) ++ parsedAt t (len h + len m)
  ∧ parsedAt content 0 = parsedAt h 0 ++ parsedAt m' (len h) ++ (shiftEntry (len m' - len m) <$> parsedAt t (len h + len m)).
Proof.
  intros [-> -> Hh Hm Hm'].
  rewrite (parsedAt_app h (m +:+ t)), (parsedAt_app h (m' +:+ t)), (parsedAt_cut m t), (parsedAt_cut m' t) by done.
  rewrite <-parsedAt_shift, !Z.add_0_l.
  split; [done|]. by replace (len h + len m + (len m' - len m)) with (len h + len m') by lia.
Qed.

(** The window the code finds around the change. *)
Lemma window_found previous content :
  ∃ common h p q shared m m' t,
    slice previous 0 (commonPrefixLen previous content) = Some common
    ∧ len h = lastIndexNewline common + 1
    ∧ slice previous (len h) (len previous) = Some p ∧ slice content (len h) (len content) = Some q
    ∧ slice previous (len previous - commonSuffixLen p q) (len previous) = Some shared
    ∧ (if indexNewline shared <? 0 then len previous else len previous - commonSuffixLen p q + (indexNewline shared + 1))
      = len h + len m
    ∧ edited previous content h m m' t.
Proof.
  destruct (commonPrefix_spec previous content) as (common & x0 & y0 & Hp & Hc & Hl).
  destruct (lastIndexNewline_spec common) as (h & h' & Hh & Hstart & Hlen & _).
  set (p := h' +:+ x0). set (q := h' +:+ y0).
  assert (previous = h +:+ p) as Hp' by (unfold p; by rewrite Hp, Hh, append_assoc).
  assert (content = h +:+ q) as Hc' by (unfold q; by rewrite Hc, Hh, append_assoc).
  destruct (commonSuffix_spec p q) as (x & y & shared & Hx & Hy & Hs).
  assert (slice previous 0 (commonPrefixLen previous content) = Some common) as H1.
  { rewrite Hp at 1. by apply slice_head. }
  assert (slice previous (len h) (len previous) = Some p) as H2 by (rewrite Hp'; by apply slice_tail).
  assert (slice content (len h) (len content) = Some q) as H3 by (rewrite Hc'; by apply slice_tail).
  assert (len previous = len h + len x + len shared) as Hlp by (rewrite Hp', Hx, !len_append; lia).
  assert (slice previous (len previous - commonSuffixLen p q) (len previous) = Some shared) as H4.
  { rewrite <-Hs, Hlp. replace previous with ((h +:+ x) +:+ shared) by by rewrite Hp', Hx, append_assoc.
    apply slice_tail; rewrite !len_append; lia. }
  destruct (indexNewline_spec shared) as [Hi|(u & t & Ht & Hu & Hge)].
  - exists common, h, p, q, shared, p, q, "". split_and!; [done..| |].
    + rewrite Hi. simpl. by rewrite Hp', len_append.
    + split; rewrite ?append_empty_r; (done || by left).
  - exists common, h, p, q, shared, (x +:+ u +:+ nl), (y +:+ u +:+ nl), t. split_and!; [done..| |].
    + rewrite (proj2 (Z.ltb_ge _ _)) by lia. rewrite <-Hs, Hlp, !len_append, <-Hu. change (len nl) with 1. lia.
    + split; [by rewrite Hp', Hx, Ht, !append_assoc|by rewrite Hc', Hy, Ht, !append_assoc|done|right..].
      all: right; eexists; symmetry; apply append_assoc.
Qed.

(** What the loops over the spans count. *)
Lemma head_count h m t :
  let A := parsedAt h 0 in let B := parsedAt m (len h) in let C := parsedAt t (len h + len m) in
  countWhile (λ sp, span_line sp <? len h) ((A ++ B ++ C).*2) = length A.
Proof.
  intros A B C. rewrite fmap_app. rewrite countWhile_app, length_fmap; [done|..]; apply Forall_fmap, Forall_forall.
  - intros x Hx%parsedAt_range. simpl. apply Z.ltb_lt. lia.
  - intros x [Hx%parsedAt_range|Hx%parsedAt_range]%elem_of_app; simpl; apply Z.ltb_ge; pose proof (len_nonneg m); lia.
Qed.

Lemma tail_count m t base :
  let B := parsedAt m base in let C := parsedAt t (base + len m) in
  countWhile (λ sp, base + len m <=? span_line sp) (reverse ((B ++ C).*2)) = length C.
Proof.
  intros B C. rewrite fmap_app, reverse_app. rewrite countWhile_app, length_reverse, length_fmap; [done|..];
    apply Forall_reverse, Forall_fmap, Forall_forall.
  - intros x Hx%parsedAt_range. simpl. apply Z.leb_le. lia.
  - intros x Hx%parsedAt_range. simpl. apply Z.leb_gt. lia.
Qed.

Lemma shiftEntry_0 (xs : list (Entry * entrySpan)) : shiftEntry 0 <$> xs = xs.
Proof.
  induction xs as [|[e [a b c]] xs IH]; [done|]. rewrite fmap_cons, IH. unfold shiftEntry, shiftSpan. simpl. by rewrite !Z.add_0_r.
Qed.

Lemma shiftEntry_fst d (xs : list (Entry * entrySpan)) : (shiftEntry d <$> xs).*1 = xs.*1.
Proof. rewrite <-list_fmap_compose. by apply list_fmap_ext. Qed.

Lemma Reparse_exact previous content :
  Reparse (ParseMapEntriesIndexed previous) content = Some (ParseMapEntriesIndexed content).
Proof.
  rewrite !ParseMapEntriesIndexed_spec. unfold Reparse. cbn [Parsed_Content Parsed_Entries Parsed_spans].
  case_bool_decide as Heq; [by subst|]. case_bool_decide; [done|].
  destruct (window_found previous content) as (common & h & p & q & shared & m & m' & t & H1 & Hh & H2 & H3 & H4 & Hold & Hed).
  rewrite H1. cbn [mbind option_bind]. rewrite <-Hh, H2. cbn [mbind option_bind]. rewrite H3. cbn [mbind option_bind].
  rewrite H4. cbn [mbind option_bind]. cbv zeta. rewrite Hold.
  pose proof (edited_parsed _ _ _ _ _ _ Hed) as [Hpp Hpc]. rewrite Hpp, Hpc.
  set (A := parsedAt h 0). set (B := parsedAt m (len h)). set (C := parsedAt t (len h + len m)).
  assert (len content - (len previous - (len h + len m)) = len h + len m') as ->.
  { rewrite (edited_previous _ _ _ _ _ _ Hed), (edited_content _ _ _ _ _ _ Hed), !len_append. lia. }
  unfold A, B, C. rewrite (head_count h m t). fold A B C.
  rewrite <-!fmap_drop, <-!fmap_take, take_app_length, drop_app_length. unfold B, C. rewrite (tail_count m t (len h)). fold B C.
  rewrite length_fmap, !length_app. replace (length A + (length B + length C) - length C)%nat with (length (A ++ B)) by (rewrite length_app; lia).
  rewrite app_assoc, drop_app_length.
  rewrite carryMapEntries_spec, shiftEntry_0.
  2:{ apply Forall_forall. intros x Hx. rewrite (edited_content _ _ _ _ _ _ Hed). by apply (parsedAt_points h 0 "" (m' +:+ t) 0). }
  cbn [mbind option_bind]. rewrite (edited_content _ _ _ _ _ _ Hed) at 1. rewrite (slice_middle h m' t) by done.
  cbn [mbind option_bind]. unfold parseMapLines. fold (parsedAt m' (len h)). rewrite !app_nil_l.
  rewrite carryMapEntries_spec.
  2:{ apply Forall_forall. intros x Hx. rewrite (edited_content _ _ _ _ _ _ Hed).
      rewrite <-(append_empty_r t), <-!append_assoc, append_assoc.
      apply (parsedAt_points t (len h + len m) (h +:+ m') ""); [rewrite len_append; lia|done]. }
  cbn [mbind option_bind]. replace (len h + len m' - (len h + len m)) with (len m' - len m) by lia.
  by rewrite !fmap_app, shiftEntry_fst, !app_assoc.
Qed.

(** ** The readers agree *)

Lemma parseLinesAt_entries lines at_ : (parseLinesAt lines at_).*1 = omap lineEntry lines.
Proof.
  revert at_. induction lines as [|line lines IH]; intros at_; [done|]. cbn [parseLinesAt].
  rewrite fmap_app, IH. simpl. rewrite <-(spannedLine_entry line at_). by destruct (spannedLine line at_).
Qed.

Lemma ParseMapEntriesIndexed_entries content :
  Parsed_Entries (ParseMapEntriesIndexed content) = default [] (ParseMapEntries content).
Proof.
  rewrite ParseMapEntriesIndexed_spec. simpl. unfold parsedAt, ParseMapEntries. rewrite parseLinesAt_entries.
  case_bool_decide as Hc; [by rewrite Hc|]. by destruct (omap lineEntry (split newline content)).
Qed.

(** Every text of a history, each read from the one before. *)
Definition reparseAll (first : string) (history : list string) : option ParsedMapEntries :=
  foldl (λ acc content, p ← acc; Reparse p content) (Some (ParseMapEntriesIndexed first)) history.

Lemma reparseAll_exact first history :
  reparseAll first history = Some (ParseMapEntriesIndexed (default first (last history))).
Proof.
  unfold reparseAll. induction history as [|content history IH] using rev_ind; [done|].
  rewrite foldl_snoc, IH, last_snoc. simpl. apply Reparse_exact.
Qed.

(** C31: the three readers of a map file agree. Re-reading a text from the
    parse of the version before it, over any history of versions, never slices
    out of range and gives the parse of the last version, spans included; the
    indexed parse has the entries of the plain one; and comparing a text with
    entries in place gives the answer of parsing it and comparing the lists,
    nil and empty lists told apart. *)
Theorem map_readers_agree first history content entries :
  reparseAll first history = Some (ParseMapEntriesIndexed (default first (last history)))
  ∧ Parsed_Entries (ParseMapEntriesIndexed content) = default [] (ParseMapEntries content)
  ∧ (MapEntriesMatch content entries = true ↔ ParseMapEntries content = entries).
Proof.
  split; [apply reparseAll_exact|]. split; [apply ParseMapEntriesIndexed_entries|apply map_entries_match_correct].
Qed.
