(* ===== verification/IncGraph.v ===== *)
(** * The incremental graph: data

    The data of [src/pkg/incremental]: keys, inputs, revisions and values
    ([types.go], [value.go]), dependency edges, input and query entries, the
    committed generation and the graph ([graph.go]). The persistent trees of a
    generation are finite maps here, which is what [TreeClaims.tree_refines_map]
    shows a tree to be; the reverse index maps an edge to the set of queries
    that recorded it. Pointer seals authenticate values that only this package
    can build; what is left of them is the owner a value root carries.

    A query is a Go function that talks to a [Reader]: [QueryProg] is such a
    function as the tree of its calls, each with what it does next for every
    answer. Queries are pure in the reader's answers and come to an end. *)

From stdpp Require Import base gmap strings sorting sets list list_numbers.
From S2P Require Import Prelude GoStd.

Open Scope N_scope.

(** ** Keys, revisions and inputs *)

Definition InputKey := string.
Definition QueryKey := string.
Definition Revision := string.

Definition validInputKey (key : InputKey) : bool := negb (bool_decide (key = ""%string)).
Definition validQueryKey (key : QueryKey) : bool := negb (bool_decide (key = ""%string)).
Definition validRevision (revision : Revision) : bool := negb (bool_decide (revision = ""%string)).

(** [Input]; an [ImmutableInput] has the same fields. *)
Record Input := mkInput {
  Input_Key : InputKey;
  Input_Revision : Revision;
  Input_Found : bool;
  Input_Value : string }.

Record InputRevision := mkInputRevision {
  InputRevision_Key : InputKey;
  InputRevision_Revision : Revision;
  InputRevision_Found : bool }.

#[export] Instance Input_eq_dec : EqDecision Input.
Proof. solve_decision. Defined.
#[export] Instance InputRevision_eq_dec : EqDecision InputRevision.
Proof. solve_decision. Defined.

Definition revisionOf (input : Input) : InputRevision :=
  mkInputRevision (Input_Key input) (Input_Revision input) (Input_Found input).

(** ** Errors

    The sentinel errors and error types of [types.go]; [ErrText] is an error
    built from a literal, [ErrWrap] one that wraps another, [ErrCanceled] what
    the caller's context answers once it ended. [ErrOutOfFuel] is not an error
    of the code: it is what a recursion answers that was cut short, and
    [IncTermination] shows that none is. *)
Inductive IncErr :=
| ErrCommitConflict
| ErrRevisionConflict
| ErrVerifierRequired
| ErrSessionClosed
| ErrGenerationExhausted
| ErrResolverRequired
| ErrCanceled
| ErrText (text : string)
| ErrWrap (text : string) (err : IncErr)
| CycleError (path : list QueryKey)
| queryError (key : QueryKey) (err : IncErr)
| panicError (value : string)
| missingInputError (key : InputKey)
| ErrOutOfFuel.

(** ** Query values *)

(** [ExactValueRoot]: the value with the authority and the query it belongs to. *)
Record ExactValueRoot := mkExactValueRoot {
  ExactValueRoot_authority : N;
  ExactValueRoot_key : QueryKey;
  ExactValueRoot_value : string }.

#[export] Instance ExactValueRoot_eq_dec : EqDecision ExactValueRoot.
Proof. solve_decision. Defined.

Definition newExactValueRoot (authority : N) (key : QueryKey) (value : string) : ExactValueRoot :=
  mkExactValueRoot authority key value.

Definition ValidateAuthentication (r : ExactValueRoot) : option IncErr :=
  if validQueryKey (ExactValueRoot_key r) then None
  else Some (ErrText "incremental exact value has invalid provenance").

Definition validateOwned (r : ExactValueRoot) (authority : N) (key : QueryKey) : option IncErr :=
  match ValidateAuthentication r with
  | Some err => Some err
  | None =>
      if bool_decide (ExactValueRoot_authority r = authority ∧ ExactValueRoot_key r = key) then None
      else Some (ErrText "incremental exact value belongs to another query")
  end.

(** [ExactValueRoot.Bytes]. *)
Definition ValueBytes (r : ExactValueRoot) : IncErr + string :=
  match ValidateAuthentication r with
  | Some err => inl err
  | None => inr (ExactValueRoot_value r)
  end.

Definition sameExactValue (left right : ExactValueRoot) : bool :=
  bool_decide (ExactValueRoot_value left = ExactValueRoot_value right).

(** ** Query functions *)

(** A [QueryFunc] by its calls to the reader. [ReadInput] is [ExactInput] and
    [ExactInputOwned] ([Input] below gives the value without the revision),
    [ObserveInput] is [ObserveExactInput], [ObserveInputValue] is
    [ObserveExactInputValue] and [ObserveExactImmutableInput], [ReadQuery] is
    [Query]. It returns a value, returns an error, or panics. *)
Inductive QueryProg :=
| Return (value : string)
| Raise (err : IncErr)
| Panic (value : string)
| ReadInput (key : InputKey) (next : IncErr + Input → QueryProg)
| ObserveInput (expected : InputRevision) (next : option IncErr → QueryProg)
| ObserveInputValue (expected : Input) (next : option IncErr → QueryProg)
| ReadQuery (key : QueryKey) (next : IncErr + string → QueryProg).

(** [Reader.Input]: the value and whether it was found. *)
Definition InputValue (key : InputKey) (next : IncErr + string * bool → QueryProg) : QueryProg :=
  ReadInput key (λ answer,
    next (match answer with
          | inl err => inl err
          | inr input => inr (Input_Value input, Input_Found input)
          end)).

(** ** Dependencies and entries *)

(** [dependencyKey], with its two kinds as the constructors that build it. *)
Inductive dependencyKey :=
| inputDep (key : InputKey)
| queryDep (key : QueryKey).

#[export] Instance dependencyKey_eq_dec : EqDecision dependencyKey.
Proof. solve_decision. Defined.

#[export] Instance dependencyKey_countable : Countable dependencyKey.
Proof.
  refine (inj_countable' (λ d, match d with inputDep k => inl k | queryDep k => inr k end)
            (λ s, match s with inl k => inputDep k | inr k => queryDep k end) _).
  by intros [].
Defined.

Record dependency := mkDependency {
  dependency_key : dependencyKey;
  dependency_changedAt : N;
  dependency_revision : Revision;
  dependency_found : bool }.

#[export] Instance dependency_eq_dec : EqDecision dependency.
Proof. solve_decision. Defined.

Record inputEntry := mkInputEntry {
  inputEntry_revision : Revision;
  inputEntry_found : bool;
  inputEntry_value : string;
  inputEntry_changedAt : N }.

Record nodeEntry := mkNodeEntry {
  nodeEntry_value : ExactValueRoot;
  nodeEntry_deps : list dependency;
  nodeEntry_inputs : list InputRevision;
  nodeEntry_changedAt : N;
  nodeEntry_dirty : bool }.

#[export] Instance inputEntry_eq_dec : EqDecision inputEntry.
Proof. solve_decision. Defined.
#[export] Instance nodeEntry_eq_dec : EqDecision nodeEntry.
Proof. solve_decision. Defined.

Definition entryInput (key : InputKey) (entry : inputEntry) : Input :=
  mkInput key (inputEntry_revision entry) (inputEntry_found entry) (inputEntry_value entry).

Definition entryRevision (key : InputKey) (entry : inputEntry) : InputRevision :=
  mkInputRevision key (inputEntry_revision entry) (inputEntry_found entry).

Definition depKeys (deps : list dependency) : list dependencyKey := dependency_key <$> deps.

(** [nodeDependsOn]. *)
Definition nodeDependsOn (entry : nodeEntry) (key : dependencyKey) : bool :=
  bool_decide (key ∈ depKeys (nodeEntry_deps entry)).

(** ** Orders *)

Definition compareDependencyKeys (left right : dependencyKey) : comparison :=
  match left, right with
  | inputDep l, inputDep r => String.compare l r
  | queryDep l, queryDep r => String.compare l r
  | inputDep _, queryDep _ => Lt
  | queryDep _, inputDep _ => Gt
  end.

Definition dependency_le (left right : dependency) : Prop :=
  compareDependencyKeys (dependency_key left) (dependency_key right) ≠ Gt.

#[export] Instance dependency_le_dec : RelDecision dependency_le.
Proof. intros l r. unfold dependency_le. apply _. Defined.

Definition sortDependencies (deps : list dependency) : list dependency :=
  merge_sort dependency_le deps.

Definition revision_le (left right : InputRevision) : Prop :=
  String.le (InputRevision_Key left) (InputRevision_Key right).

#[export] Instance revision_le_dec : RelDecision revision_le.
Proof. intros l r. unfold revision_le. apply _. Defined.

Definition sortRevisions (inputs : list InputRevision) : list InputRevision :=
  merge_sort revision_le inputs.

(** [sortQueryKeys] and [sortInputKeys]. *)
Definition sortQueryKeys (keys : list QueryKey) : list QueryKey := sort_strings keys.
Definition sortInputKeys (keys : list InputKey) : list InputKey := sort_strings keys.

(** ** Counters *)

Record NodeCounters := mkNodeCounters {
  Executions : N;
  CacheHits : N;
  Backdates : N;
  Changes : N;
  Invalidations : N }.

Definition zeroCounters : NodeCounters := mkNodeCounters 0 0 0 0 0.

Definition maxUint64 : N := 2 ^ 64 - 1.

Definition addUint64 (a b : N) : N := (a + b) mod 2 ^ 64.

Definition addCounters (left right : NodeCounters) : NodeCounters :=
  mkNodeCounters
    (addUint64 (Executions left) (Executions right))
    (addUint64 (CacheHits left) (CacheHits right))
    (addUint64 (Backdates left) (Backdates right))
    (addUint64 (Changes left) (Changes right))
    (addUint64 (Invalidations left) (Invalidations right)).

Definition addCountersChecked (left right : NodeCounters) : IncErr + NodeCounters :=
  if bool_decide (maxUint64 - Executions left < Executions right
       ∨ maxUint64 - CacheHits left < CacheHits right
       ∨ maxUint64 - Backdates left < Backdates right
       ∨ maxUint64 - Changes left < Changes right
       ∨ maxUint64 - Invalidations left < Invalidations right)
  then inl (ErrText "counter capacity exhausted")
  else inr (addCounters left right).

(** ** Generations and graphs *)

Record graphGeneration := mkGraphGeneration {
  generation_number : N;
  generation_inputs : gmap InputKey inputEntry;
  generation_nodes : gmap QueryKey nodeEntry;
  generation_reverse : gmap dependencyKey (gset QueryKey);
  generation_dirty : gset QueryKey;
  generation_counters : gmap QueryKey NodeCounters }.

(** What a [DefinitionProvider] answers: a query function, or nil with the
    claim that it is defined, nothing, or a panic. *)
Inductive Provided :=
| ProvidedRun (run : option QueryProg)
| ProvidedNone
| ProvidedPanic (value : string).

Record Graph := mkGraph {
  Graph_definitions : gmap QueryKey QueryProg;
  Graph_provider : option (QueryKey → Provided);
  Graph_retireUnreferencedInputs : bool;
  Graph_valueAuthority : N;
  Graph_current : graphGeneration }.

Record Definition_ := mkDefinition { Definition_Key : QueryKey; Definition_Run : option QueryProg }.

Definition emptyGeneration : graphGeneration := mkGraphGeneration 0 ∅ ∅ ∅ ∅ ∅.

Fixpoint collectDefinitions (runs : gmap QueryKey QueryProg) (definitions : list Definition_)
    : IncErr + gmap QueryKey QueryProg :=
  match definitions with
  | [] => inr runs
  | d :: rest =>
      if negb (validQueryKey (Definition_Key d)) then inl (ErrText "incremental query key is empty")
      else match Definition_Run d with
           | None => inl (ErrText "incremental query has no implementation")
           | Some run =>
               match runs !! Definition_Key d with
               | Some _ => inl (ErrText "incremental query is defined more than once")
               | None => collectDefinitions (<[Definition_Key d := run]> runs) rest
               end
           end
  end.

(** [NewWithProviderOptions]; [New] and [NewWithProvider] are its calls with no
    provider and default options. The authority is the one the graph creates. *)
Definition NewWithProviderOptions (authority : N) (provider : option (QueryKey → Provided))
    (retire : bool) (definitions : list Definition_) : IncErr + Graph :=
  match collectDefinitions ∅ definitions with
  | inl err => inl err
  | inr runs => inr (mkGraph runs provider retire authority emptyGeneration)
  end.

(** [Graph.definition]: the run (nil as [None]) where the key is defined. *)
Definition definition (g : Graph) (key : QueryKey) : IncErr + option (option QueryProg) :=
  match Graph_definitions g !! key with
  | Some run => inr (Some (Some run))
  | None =>
      match Graph_provider g with
      | None => inr None
      | Some provider =>
          match provider key with
          | ProvidedRun run => inr (Some run)
          | ProvidedNone => inr None
          | ProvidedPanic value => inl (panicError value)
          end
      end
  end.

(** ** Sealing entries into a generation *)

Definition sealCommittedInputEntry (entry : inputEntry) : IncErr + inputEntry :=
  if negb (validRevision (inputEntry_revision entry))
     || bool_decide (inputEntry_changedAt entry = 0)
     || (negb (inputEntry_found entry) && negb (bool_decide (inputEntry_value entry = ""%string)))
  then inl (ErrText "incremental committed input is invalid")
  else inr entry.

Definition validateExactQueryObservationDependency (current : dependency) : option IncErr :=
  match dependency_key current with
  | inputDep key =>
      if negb (validInputKey key) || negb (validRevision (dependency_revision current))
      then Some (ErrText "incremental exact query observation has an invalid input dependency")
      else None
  | queryDep key =>
      if negb (validQueryKey key) || validRevision (dependency_revision current)
         || dependency_found current
      then Some (ErrText "incremental exact query observation has an invalid query dependency")
      else None
  end.

(** The loop over the dependencies, with the one before the current. *)
Fixpoint validateDependencyList (previous : option dependency) (deps : list dependency)
    (targetGeneration : N) : option IncErr :=
  match deps with
  | [] => None
  | current :: rest =>
      if bool_decide (dependency_changedAt current = 0 ∨ targetGeneration < dependency_changedAt current)
      then Some (ErrText "incremental exact query observation has an invalid dependency revision")
      else
        match validateExactQueryObservationDependency current with
        | Some err => Some err
        | None =>
            if match previous with
               | None => false
               | Some p =>
                   bool_decide (compareDependencyKeys (dependency_key p) (dependency_key current) ≠ Lt)
               end
            then Some (ErrText "incremental exact query observation dependencies are not canonical")
            else validateDependencyList (Some current) rest targetGeneration
        end
  end.

Fixpoint validateInputList (previous : option InputRevision) (inputs : list InputRevision)
    : option IncErr :=
  match inputs with
  | [] => None
  | current :: rest =>
      if negb (validInputKey (InputRevision_Key current))
         || negb (validRevision (InputRevision_Revision current))
      then Some (ErrText "incremental exact query observation has an invalid transitive input")
      else if match previous with
              | None => false
              | Some p =>
                  bool_decide (String.compare (InputRevision_Key p) (InputRevision_Key current) ≠ Lt)
              end
      then Some (ErrText "incremental exact query observation transitive inputs are not canonical")
      else validateInputList (Some current) rest
  end.

Definition validateExactQueryObservationDependencies (deps : list dependency)
    (inputs : list InputRevision) (targetGeneration : N) : option IncErr :=
  match validateDependencyList None deps targetGeneration with
  | Some err => Some err
  | None => validateInputList None inputs
  end.

Definition sealCommittedNodeEntry (g : Graph) (key : QueryKey) (entry : nodeEntry) (generation : N)
    : IncErr + nodeEntry :=
  if negb (validQueryKey key)
     || bool_decide (nodeEntry_changedAt entry = 0 ∨ generation < nodeEntry_changedAt entry)
  then inl (ErrText "incremental committed query is invalid")
  else match validateOwned (nodeEntry_value entry) (Graph_valueAuthority g) key with
       | Some err => inl err
       | None =>
           match validateExactQueryObservationDependencies (nodeEntry_deps entry)
                   (nodeEntry_inputs entry) generation with
           | Some err => inl err
           | None => inr entry
           end
       end.

(** [openCommittedNodeEntry]. *)
Definition openCommittedNodeEntry (g : Graph) (key : QueryKey) (entry : nodeEntry) : IncErr + nodeEntry :=
  if negb (validQueryKey key) then inl (ErrText "incremental committed query has invalid ownership")
  else match validateOwned (nodeEntry_value entry) (Graph_valueAuthority g) key with
       | Some err => inl err
       | None => inr entry
       end.

(** ** Reading the committed graph *)

(** [Graph.Generation]. *)
Definition Generation (g : Graph) : N := generation_number (Graph_current g).

(** The clean value of a key in a generation: [Graph.Value] on the current one,
    [Session.BaseValue] on the base of a session. *)
Definition generationValue (authority : N) (generation : graphGeneration) (key : QueryKey)
    : option string :=
  match generation_nodes generation !! key with
  | None => None
  | Some entry =>
      if nodeEntry_dirty entry then None
      else match validateOwned (nodeEntry_value entry) authority key with
           | Some _ => None
           | None => match ValueBytes (nodeEntry_value entry) with
                     | inl _ => None
                     | inr value => Some value
                     end
           end
  end.

Definition GraphValue (g : Graph) (key : QueryKey) : option string :=
  generationValue (Graph_valueAuthority g) (Graph_current g) key.

(** [Graph.Counters]. *)
Definition GraphCounters (g : Graph) (key : QueryKey) : NodeCounters :=
  default zeroCounters (generation_counters (Graph_current g) !! key).

(** [reverseRootOfLocked]: the dependents of an edge in a generation. *)
Definition reverseRootOf (generation : graphGeneration) (key : dependencyKey) : gset QueryKey :=
  default ∅ (generation_reverse generation !! key).

(** [HasDependents] and [HasInputDependents]. *)
Definition hasDependents (g : Graph) (key : dependencyKey) : bool :=
  negb (bool_decide (reverseRootOf (Graph_current g) key = ∅)).

(** ** Sorting facts *)

Lemma sortDependencies_Permutation deps : sortDependencies deps ≡ₚ deps.
Proof. apply merge_sort_Permutation. Qed.

Lemma sortRevisions_Permutation inputs : sortRevisions inputs ≡ₚ inputs.
Proof. apply merge_sort_Permutation. Qed.

Lemma elem_of_sortDependencies deps d : d ∈ sortDependencies deps ↔ d ∈ deps.
Proof. by rewrite sortDependencies_Permutation. Qed.

Lemma elem_of_depKeys deps k : k ∈ depKeys deps ↔ ∃ d, d ∈ deps ∧ dependency_key d = k.
Proof. unfold depKeys. rewrite list_elem_of_fmap. naive_solver. Qed.

Lemma elem_of_depKeys_cons d deps k : k ∈ depKeys (d :: deps) ↔ k = dependency_key d ∨ k ∈ depKeys deps.
Proof. unfold depKeys. by rewrite fmap_cons, elem_of_cons. Qed.

Lemma nodeDependsOn_true entry key :
  nodeDependsOn entry key = true ↔ key ∈ depKeys (nodeEntry_deps entry).
Proof. apply bool_decide_eq_true. Qed.
