(* ===== verification/IncSession.v ===== *)
(** * The incremental graph: sessions

    A [Session] of [src/pkg/incremental/session.go] and what it does outside of
    evaluation: reading through to its base generation, staging a query's entry
    with its edges in the reverse index, applying a batch of inputs with the
    invalidation it causes, evicting queries, and the checks every call starts
    with. [Graph.Begin] and the cold resets are here too.

    The maps that only memoise reads of the immutable base ([baseInputs],
    [baseNodes]) and the memoised reverse index of a replacement session are
    left out: what they hold is what the base or the staged entries give. The
    session of an atomically committed batch ([activeColdExactBatch]) is not
    part of the model. *)

From stdpp Require Import base gmap strings sorting sets list list_numbers.
From S2P Require Import Prelude GoStd IncGraph.

Open Scope N_scope.

(** ** State *)

Inductive PublicationState :=
| sessionPublicationOpen
| sessionPublicationActive
| sessionPublicationAborted
| sessionPublicationClosed.

#[export] Instance PublicationState_eq_dec : EqDecision PublicationState.
Proof. solve_decision. Defined.

(** [InputResolver]; one that panics answers the error [callInputResolver]
    makes of it. *)
Definition Resolver := InputKey → IncErr + Input.

(** [Session_graph] is the graph as it was when the session began: its
    definitions, options and authority, which never change. [Session_ctx] is
    the context of the call in progress: how many more times it is found alive,
    without bound when it is never cancelled. *)
Record Session := mkSession {
  Session_graph : Graph;
  Session_base : graphGeneration;
  Session_targetGeneration : N;
  Session_cold : bool;
  Session_replacement : bool;
  Session_resolver : option Resolver;
  Session_ctx : option nat;
  Session_started : bool;
  Session_verifying : bool;
  Session_committing : bool;
  Session_failure : option IncErr;
  Session_publicationState : PublicationState;
  Session_inputChanges : gmap InputKey inputEntry;
  Session_inputVersions : gmap (InputKey * Revision) inputEntry;
  Session_nodeChanges : gmap QueryKey nodeEntry;
  Session_observations : gmap InputKey InputRevision;
  Session_active : gmap QueryKey nat;
  Session_stack : list QueryKey;
  Session_queried : gset QueryKey;
  Session_stagedReverse : gmap dependencyKey (gset QueryKey);
  Session_counterDeltas : gmap QueryKey NodeCounters;
  Session_removedQueries : gset QueryKey;
  Session_retiredInputs : list InputKey }.

Definition set_ctx (v : option nat) (s : Session) : Session :=
  mkSession (Session_graph s) (Session_base s) (Session_targetGeneration s) (Session_cold s)
    (Session_replacement s) (Session_resolver s) v (Session_started s) (Session_verifying s)
    (Session_committing s) (Session_failure s) (Session_publicationState s)
    (Session_inputChanges s) (Session_inputVersions s) (Session_nodeChanges s)
    (Session_observations s) (Session_active s) (Session_stack s) (Session_queried s)
    (Session_stagedReverse s) (Session_counterDeltas s) (Session_removedQueries s)
    (Session_retiredInputs s).
Definition set_started (v : bool) (s : Session) : Session :=
  mkSession (Session_graph s) (Session_base s) (Session_targetGeneration s) (Session_cold s)
    (Session_replacement s) (Session_resolver s) (Session_ctx s) v (Session_verifying s)
    (Session_committing s) (Session_failure s) (Session_publicationState s)
    (Session_inputChanges s) (Session_inputVersions s) (Session_nodeChanges s)
    (Session_observations s) (Session_active s) (Session_stack s) (Session_queried s)
    (Session_stagedReverse s) (Session_counterDeltas s) (Session_removedQueries s)
    (Session_retiredInputs s).
Definition set_verifying (v : bool) (s : Session) : Session :=
  mkSession (Session_graph s) (Session_base s) (Session_targetGeneration s) (Session_cold s)
    (Session_replacement s) (Session_resolver s) (Session_ctx s) (Session_started s) v
    (Session_committing s) (Session_failure s) (Session_publicationState s)
    (Session_inputChanges s) (Session_inputVersions s) (Session_nodeChanges s)
    (Session_observations s) (Session_active s) (Session_stack s) (Session_queried s)
    (Session_stagedReverse s) (Session_counterDeltas s) (Session_removedQueries s)
    (Session_retiredInputs s).
Definition set_committing (v : bool) (s : Session) : Session :=
  mkSession (Session_graph s) (Session_base s) (Session_targetGeneration s) (Session_cold s)
    (Session_replacement s) (Session_resolver s) (Session_ctx s) (Session_started s)
    (Session_verifying s) v (Session_failure s) (Session_publicationState s)
    (Session_inputChanges s) (Session_inputVersions s) (Session_nodeChanges s)
    (Session_observations s) (Session_active s) (Session_stack s) (Session_queried s)
    (Session_stagedReverse s) (Session_counterDeltas s) (Session_removedQueries s)
    (Session_retiredInputs s).
Definition set_failure (v : option IncErr) (s : Session) : Session :=
  mkSession (Session_graph s) (Session_base s) (Session_targetGeneration s) (Session_cold s)
    (Session_replacement s) (Session_resolver s) (Session_ctx s) (Session_started s)
    (Session_verifying s) (Session_committing s) v (Session_publicationState s)
    (Session_inputChanges s) (Session_inputVersions s) (Session_nodeChanges s)
    (Session_observations s) (Session_active s) (Session_stack s) (Session_queried s)
    (Session_stagedReverse s) (Session_counterDeltas s) (Session_removedQueries s)
    (Session_retiredInputs s).
Definition set_publicationState (v : PublicationState) (s : Session) : Session :=
  mkSession (Session_graph s) (Session_base s) (Session_targetGeneration s) (Session_cold s)
    (Session_replacement s) (Session_resolver s) (Session_ctx s) (Session_started s)
    (Session_verifying s) (Session_committing s) (Session_failure s) v (Session_inputChanges s)
    (Session_inputVersions s) (Session_nodeChanges s) (Session_observations s) (Session_active
    s) (Session_stack s) (Session_queried s) (Session_stagedReverse s) (Session_counterDeltas s)
    (Session_removedQueries s) (Session_retiredInputs s).
Definition set_inputChanges (v : gmap InputKey inputEntry) (s : Session) : Session :=
  mkSession (Session_graph s) (Session_base s) (Session_targetGeneration s) (Session_cold s)
    (Session_replacement s) (Session_resolver s) (Session_ctx s) (Session_started s)
    (Session_verifying s) (Session_committing s) (Session_failure s) (Session_publicationState
    s) v (Session_inputVersions s) (Session_nodeChanges s) (Session_observations s)
    (Session_active s) (Session_stack s) (Session_queried s) (Session_stagedReverse s)
    (Session_counterDeltas s) (Session_removedQueries s) (Session_retiredInputs s).
Definition set_inputVersions (v : gmap (InputKey * Revision) inputEntry) (s : Session) : Session :=
  mkSession (Session_graph s) (Session_base s) (Session_targetGeneration s) (Session_cold s)
    (Session_replacement s) (Session_resolver s) (Session_ctx s) (Session_started s)
    (Session_verifying s) (Session_committing s) (Session_failure s) (Session_publicationState
    s) (Session_inputChanges s) v (Session_nodeChanges s) (Session_observations s)
    (Session_active s) (Session_stack s) (Session_queried s) (Session_stagedReverse s)
    (Session_counterDeltas s) (Session_removedQueries s) (Session_retiredInputs s).
Definition set_nodeChanges (v : gmap QueryKey nodeEntry) (s : Session) : Session :=
  mkSession (Session_graph s) (Session_base s) (Session_targetGeneration s) (Session_cold s)
    (Session_replacement s) (Session_resolver s) (Session_ctx s) (Session_started s)
    (Session_verifying s) (Session_committing s) (Session_failure s) (Session_publicationState
    s) (Session_inputChanges s) (Session_inputVersions s) v (Session_observations s)
    (Session_active s) (Session_stack s) (Session_queried s) (Session_stagedReverse s)
    (Session_counterDeltas s) (Session_removedQueries s) (Session_retiredInputs s).
Definition set_observations (v : gmap InputKey InputRevision) (s : Session) : Session :=
  mkSession (Session_graph s) (Session_base s) (Session_targetGeneration s) (Session_cold s)
    (Session_replacement s) (Session_resolver s) (Session_ctx s) (Session_started s)
    (Session_verifying s) (Session_committing s) (Session_failure s) (Session_publicationState
    s) (Session_inputChanges s) (Session_inputVersions s) (Session_nodeChanges s) v
    (Session_active s) (Session_stack s) (Session_queried s) (Session_stagedReverse s)
    (Session_counterDeltas s) (Session_removedQueries s) (Session_retiredInputs s).
Definition set_active (v : gmap QueryKey nat) (s : Session) : Session :=
  mkSession (Session_graph s) (Session_base s) (Session_targetGeneration s) (Session_cold s)
    (Session_replacement s) (Session_resolver s) (Session_ctx s) (Session_started s)
    (Session_verifying s) (Session_committing s) (Session_failure s) (Session_publicationState
    s) (Session_inputChanges s) (Session_inputVersions s) (Session_nodeChanges s)
    (Session_observations s) v (Session_stack s) (Session_queried s) (Session_stagedReverse s)
    (Session_counterDeltas s) (Session_removedQueries s) (Session_retiredInputs s).
Definition set_stack (v : list QueryKey) (s : Session) : Session :=
  mkSession (Session_graph s) (Session_base s) (Session_targetGeneration s) (Session_cold s)
    (Session_replacement s) (Session_resolver s) (Session_ctx s) (Session_started s)
    (Session_verifying s) (Session_committing s) (Session_failure s) (Session_publicationState
    s) (Session_inputChanges s) (Session_inputVersions s) (Session_nodeChanges s)
    (Session_observations s) (Session_active s) v (Session_queried s) (Session_stagedReverse s)
    (Session_counterDeltas s) (Session_removedQueries s) (Session_retiredInputs s).
Definition set_queried (v : gset QueryKey) (s : Session) : Session :=
  mkSession (Session_graph s) (Session_base s) (Session_targetGeneration s) (Session_cold s)
    (Session_replacement s) (Session_resolver s) (Session_ctx s) (Session_started s)
    (Session_verifying s) (Session_committing s) (Session_failure s) (Session_publicationState
    s) (Session_inputChanges s) (Session_inputVersions s) (Session_nodeChanges s)
    (Session_observations s) (Session_active s) (Session_stack s) v (Session_stagedReverse s)
    (Session_counterDeltas s) (Session_removedQueries s) (Session_retiredInputs s).
Definition set_stagedReverse (v : gmap dependencyKey (gset QueryKey)) (s : Session) : Session :=
  mkSession (Session_graph s) (Session_base s) (Session_targetGeneration s) (Session_cold s)
    (Session_replacement s) (Session_resolver s) (Session_ctx s) (Session_started s)
    (Session_verifying s) (Session_committing s) (Session_failure s) (Session_publicationState
    s) (Session_inputChanges s) (Session_inputVersions s) (Session_nodeChanges s)
    (Session_observations s) (Session_active s) (Session_stack s) (Session_queried s) v
    (Session_counterDeltas s) (Session_removedQueries s) (Session_retiredInputs s).
Definition set_counterDeltas (v : gmap QueryKey NodeCounters) (s : Session) : Session :=
  mkSession (Session_graph s) (Session_base s) (Session_targetGeneration s) (Session_cold s)
    (Session_replacement s) (Session_resolver s) (Session_ctx s) (Session_started s)
    (Session_verifying s) (Session_committing s) (Session_failure s) (Session_publicationState
    s) (Session_inputChanges s) (Session_inputVersions s) (Session_nodeChanges s)
    (Session_observations s) (Session_active s) (Session_stack s) (Session_queried s)
    (Session_stagedReverse s) v (Session_removedQueries s) (Session_retiredInputs s).
Definition set_removedQueries (v : gset QueryKey) (s : Session) : Session :=
  mkSession (Session_graph s) (Session_base s) (Session_targetGeneration s) (Session_cold s)
    (Session_replacement s) (Session_resolver s) (Session_ctx s) (Session_started s)
    (Session_verifying s) (Session_committing s) (Session_failure s) (Session_publicationState
    s) (Session_inputChanges s) (Session_inputVersions s) (Session_nodeChanges s)
    (Session_observations s) (Session_active s) (Session_stack s) (Session_queried s)
    (Session_stagedReverse s) (Session_counterDeltas s) v (Session_retiredInputs s).
Definition set_retiredInputs (v : list InputKey) (s : Session) : Session :=
  mkSession (Session_graph s) (Session_base s) (Session_targetGeneration s) (Session_cold s)
    (Session_replacement s) (Session_resolver s) (Session_ctx s) (Session_started s)
    (Session_verifying s) (Session_committing s) (Session_failure s) (Session_publicationState
    s) (Session_inputChanges s) (Session_inputVersions s) (Session_nodeChanges s)
    (Session_observations s) (Session_active s) (Session_stack s) (Session_queried s)
    (Session_stagedReverse s) (Session_counterDeltas s) (Session_removedQueries s) v.

(** ** The session monad

    A call changes the session and returns an error or a value; what it changed
    before it failed stays changed. *)

Definition SM (A : Type) : Type := Session → Session * (IncErr + A).

#[export] Instance SM_ret : MRet SM := λ A x s, (s, inr x).
#[export] Instance SM_bind : MBind SM := λ A B k m s,
  match m s with
  | (s, inl err) => (s, inl err)
  | (s, inr x) => k x s
  end.

Definition throw {A} (err : IncErr) : SM A := λ s, (s, inl err).
Definition get : SM Session := λ s, (s, inr s).
Definition modify (f : Session → Session) : SM unit := λ s, (f s, inr tt).
Definition lift {A} (r : IncErr + A) : SM A := λ s, (s, r).
Definition check (err : option IncErr) : SM unit :=
  match err with Some err => throw err | None => mret tt end.

(** [Session.fail]: the first failure sticks and is what every later one
    reports. *)
Definition fail {A} (err : IncErr) : SM A := λ s,
  match Session_failure s with
  | Some failure => (s, inl failure)
  | None => (set_failure (Some err) s, inl err)
  end.

(** [m] with its error recorded as the session's failure. *)
Definition orFail {A} (m : SM A) : SM A := λ s,
  match m s with
  | (s, inl err) => fail err s
  | (s, inr x) => (s, inr x)
  end.

(** [ctx.Err()]: a context that ended stays ended. *)
Definition ctxErr : SM unit := λ s,
  match Session_ctx s with
  | None => (s, inr tt)
  | Some O => (s, inl ErrCanceled)
  | Some (S more) => (set_ctx (Some more) s, inr tt)
  end.

Definition ready : SM unit := λ s,
  match Session_publicationState s with
  | sessionPublicationOpen | sessionPublicationActive =>
      match Session_failure s with
      | Some failure => (s, inl failure)
      | None => (s, inr tt)
      end
  | _ => (s, inl ErrSessionClosed)
  end.

Definition readyMutation : SM unit := λ s,
  if Session_verifying s || Session_committing s then (s, inl ErrSessionClosed) else ready s.

Definition readyContext : SM unit := ready;; orFail ctxErr.

Definition readyMutationContext : SM unit := readyMutation;; orFail ctxErr.

(** ** Beginning a session *)

Definition begin (g : Graph) (cold : bool) (resolver : option Resolver) : IncErr + Session :=
  if Graph_retireUnreferencedInputs g && match resolver with None => true | Some _ => false end
  then inl ErrResolverRequired
  else
    let current := Graph_current g in
    let generation := generation_number current in
    if bool_decide (generation = maxUint64) then inl ErrGenerationExhausted
    else inr (mkSession g current (generation + 1) cold (cold || bool_decide (generation = 0))
                resolver None false false false None sessionPublicationOpen
                ∅ ∅ ∅ ∅ ∅ [] ∅ ∅ ∅ ∅ []).

(** ** Reading inputs and queries *)

(** [borrowInput] and [currentInput], which differ in copying the bytes. *)
Definition currentInput (s : Session) (key : InputKey) : option inputEntry :=
  match Session_inputChanges s !! key with
  | Some entry => Some entry
  | None => if Session_cold s then None else generation_inputs (Session_base s) !! key
  end.

Definition baseInput (s : Session) (key : InputKey) : option inputEntry :=
  if Session_cold s then None else generation_inputs (Session_base s) !! key.

Definition baseNode (s : Session) (key : QueryKey) : IncErr + option nodeEntry :=
  if Session_cold s then inr None
  else match generation_nodes (Session_base s) !! key with
       | None => inr None
       | Some committed =>
           match openCommittedNodeEntry (Session_graph s) key committed with
           | inl err => inl err
           | inr entry => inr (Some entry)
           end
       end.

Definition currentNode (s : Session) (key : QueryKey) : IncErr + option nodeEntry :=
  if bool_decide (key ∈ Session_removedQueries s) then inr None
  else match Session_nodeChanges s !! key with
       | Some entry =>
           match validateOwned (nodeEntry_value entry) (Graph_valueAuthority (Session_graph s)) key with
           | Some err => inl err
           | None => inr (Some entry)
           end
       | None => baseNode s key
       end.

(** ** The reverse index *)

(** [reverseScope(key).valid()]: an edge to the empty key has no scope. *)
Definition scopeValid (key : dependencyKey) : bool :=
  match key with
  | inputDep key => validInputKey key
  | queryDep key => validQueryKey key
  end.

Definition errScope : IncErr := ErrText "ordered set belongs to another scope".

Definition ownedRoot (key : dependencyKey) (root : gset QueryKey) : IncErr + gset QueryKey :=
  if scopeValid key then inr root else inl errScope.

Definition stagedReverseRoot (s : Session) (key : dependencyKey) : IncErr + gset QueryKey :=
  ownedRoot key (default ∅ (Session_stagedReverse s !! key)).

(** [sortedNodeEntryKeys]. *)
Definition sortedNodeEntryKeys (entries : gmap QueryKey nodeEntry) : list QueryKey :=
  sort_strings (elements (dom entries)).

(** The dependents of each edge, in the order the queries are visited. *)
Fixpoint appendDependents (dependents : gmap dependencyKey (list QueryKey)) (key : QueryKey)
    (deps : list dependency) : IncErr + gmap dependencyKey (list QueryKey) :=
  match deps with
  | [] => inr dependents
  | d :: rest =>
      let values := default [] (dependents !! dependency_key d) in
      if bool_decide (last values = Some key)
      then inl (ErrText "incremental query contains a duplicate dependency")
      else appendDependents (<[dependency_key d := values ++ [key]]> dependents) key rest
  end.

Fixpoint collectDependents (dependents : gmap dependencyKey (list QueryKey))
    (nodes : gmap QueryKey nodeEntry) (removed : gset QueryKey) (keys : list QueryKey)
    : IncErr + gmap dependencyKey (list QueryKey) :=
  match keys with
  | [] => inr dependents
  | key :: rest =>
      if bool_decide (key ∈ removed) then collectDependents dependents nodes removed rest
      else match nodes !! key with
           | None => collectDependents dependents nodes removed rest
           | Some entry =>
               match appendDependents dependents key (nodeEntry_deps entry) with
               | inl err => inl err
               | inr dependents => collectDependents dependents nodes removed rest
               end
           end
  end.

(** [validateSortedBuild] of the ordered set: the values are not empty and
    strictly increasing. *)
Fixpoint sortedBuildOk (previous : option string) (values : list string) : bool :=
  match values with
  | [] => true
  | value :: rest =>
      negb (bool_decide (value = ""%string))
      && match previous with
         | None => true
         | Some p => bool_decide (String.compare p value = Lt)
         end
      && sortedBuildOk (Some value) rest
  end.

(** [buildReplacementReverseRoots]. *)
Definition buildReplacementReverseRoots (nodes : gmap QueryKey nodeEntry) (removed : gset QueryKey)
    : IncErr + gmap dependencyKey (gset QueryKey) :=
  let keys := sortedNodeEntryKeys nodes in
  if existsb (λ key, negb (validQueryKey key)) keys
  then inl (ErrText "incremental reverse dependency has an empty query key")
  else
    match collectDependents ∅ nodes removed keys with
    | inl err => inl err
    | inr dependents =>
        if forallb (λ kv : dependencyKey * list QueryKey, scopeValid kv.1 && sortedBuildOk None kv.2)
             (map_to_list dependents)
        then inr ((list_to_set : list QueryKey → gset QueryKey) <$> dependents)
        else inl (ErrText "building incremental replacement reverse dependencies")
    end.

Definition replacementReverseRoots (s : Session) : IncErr + gmap dependencyKey (gset QueryKey) :=
  if Session_replacement s
  then buildReplacementReverseRoots (Session_nodeChanges s) (Session_removedQueries s)
  else inl (ErrText "incremental replacement reverse dependencies are unavailable").

Definition replacementReverseRoot (s : Session) (key : dependencyKey) : IncErr + gset QueryKey :=
  match replacementReverseRoots s with
  | inl err => inl err
  | inr roots => ownedRoot key (default ∅ (roots !! key))
  end.

(** [currentReverseRoots]: the committed and the staged dependents. *)
Definition currentReverseRoots (s : Session) (key : dependencyKey)
    : IncErr + gset QueryKey * gset QueryKey :=
  if Session_replacement s then
    match replacementReverseRoot s key with
    | inl err => inl err
    | inr staged => inr (∅, staged)
    end
  else
    match (if Session_cold s then inr ∅ else ownedRoot key (reverseRootOf (Session_base s) key)) with
    | inl err => inl err
    | inr committed =>
        match stagedReverseRoot s key with
        | inl err => inl err
        | inr staged => inr (committed, staged)
        end
    end.

Definition errEmptyDependent : IncErr :=
  ErrText "incremental reverse dependency has an empty query key".

Fixpoint filterCommittedDependents (s : Session) (dep : dependencyKey) (values : list QueryKey)
    : IncErr + list QueryKey :=
  match values with
  | [] => inr []
  | key :: rest =>
      if negb (validQueryKey key) then inl errEmptyDependent
      else
        match filterCommittedDependents s dep rest with
        | inl err => inl err
        | inr result =>
            if bool_decide (key ∈ Session_removedQueries s) then inr result
            else match Session_nodeChanges s !! key with
                 | Some staged => if nodeDependsOn staged dep then inr (key :: result) else inr result
                 | None => inr (key :: result)
                 end
        end
  end.

Fixpoint filterStagedDependents (s : Session) (values : list QueryKey) : IncErr + list QueryKey :=
  match values with
  | [] => inr []
  | key :: rest =>
      if negb (validQueryKey key) then inl errEmptyDependent
      else
        match filterStagedDependents s rest with
        | inl err => inl err
        | inr result =>
            if bool_decide (key ∈ Session_removedQueries s) then inr result else inr (key :: result)
        end
  end.

Fixpoint mergeQueryKeys (left : list QueryKey) : list QueryKey → list QueryKey :=
  match left with
  | [] => λ right, right
  | l :: left' =>
      fix mergeRight (right : list QueryKey) : list QueryKey :=
        match right with
        | [] => l :: left'
        | r :: right' =>
            match String.compare l r with
            | Lt => l :: mergeQueryKeys left' (r :: right')
            | Gt => r :: mergeRight right'
            | Eq => l :: mergeQueryKeys left' right'
            end
        end
  end.

(** The sorted values of a root. *)
Definition rootValues (root : gset QueryKey) : list QueryKey := sort_strings (elements root).

Definition loadDependents (s : Session) (key : dependencyKey) : IncErr + list QueryKey :=
  match currentReverseRoots s key with
  | inl err => inl err
  | inr (committed, staged) =>
      match filterCommittedDependents s key (rootValues committed) with
      | inl err => inl err
      | inr committedKeys =>
          match filterStagedDependents s (rootValues staged) with
          | inl err => inl err
          | inr stagedKeys => inr (mergeQueryKeys committedKeys stagedKeys)
          end
      end
  end.

(** The edges a staged entry adds, one after the other. *)
Fixpoint addStagedEdges (key : QueryKey) (deps : list dependency) : SM unit :=
  match deps with
  | [] => mret tt
  | d :: rest =>
      s ← get;
      root ← lift (stagedReverseRoot s (dependency_key d));
      if negb (validQueryKey key) then throw (ErrText "ordered set value is empty")
      else if bool_decide (key ∈ root)
      then throw (ErrText "incremental staged reverse dependency already contains query")
      else modify (set_stagedReverse
                     (<[dependency_key d := root ∪ {[key]}]> (Session_stagedReverse s)));;
           addStagedEdges key rest
  end.

Fixpoint deleteStagedEdges (key : QueryKey) (deps : list dependency) : SM unit :=
  match deps with
  | [] => mret tt
  | d :: rest =>
      s ← get;
      root ← lift (stagedReverseRoot s (dependency_key d));
      if negb (bool_decide (key ∈ root))
      then throw (ErrText "incremental staged reverse dependency does not contain query")
      else
        let next := root ∖ {[key]} in
        modify (set_stagedReverse
                  (if bool_decide (next = ∅) then delete (dependency_key d) (Session_stagedReverse s)
                   else <[dependency_key d := next]> (Session_stagedReverse s)));;
        deleteStagedEdges key rest
  end.

Definition unstageNodeChange (key : QueryKey) : SM unit :=
  s ← get;
  match Session_nodeChanges s !! key with
  | None => mret tt
  | Some entry =>
      (if Session_replacement s then mret tt else deleteStagedEdges key (nodeEntry_deps entry));;
      modify (λ s, set_nodeChanges (delete key (Session_nodeChanges s)) s)
  end.

Definition stageNodeChange (key : QueryKey) (entry : nodeEntry) : SM unit :=
  unstageNodeChange key;;
  modify (λ s, set_nodeChanges (<[key := entry]> (Session_nodeChanges s)) s);;
  s ← get;
  if Session_replacement s then mret tt else addStagedEdges key (nodeEntry_deps entry).

(** ** The queue of an invalidation: a binary heap without repetition *)

Record queryKeyQueue := mkQueryKeyQueue {
  queue_values : list QueryKey;
  queue_queued : gset QueryKey }.

Definition newQueryKeyQueue : queryKeyQueue := mkQueryKeyQueue [] ∅.

Definition strLe (a b : string) : bool := match String.compare a b with Gt => false | _ => true end.

Definition strLt (a b : string) : bool := match String.compare a b with Lt => true | _ => false end.

(** [values[i], values[j] = values[j], values[i]]. *)
Definition swap (values : list QueryKey) (i j : nat) : list QueryKey :=
  match values !! i, values !! j with
  | Some x, Some y => <[i := y]> (<[j := x]> values)
  | _, _ => values
  end.

Definition at_ (values : list QueryKey) (i : nat) : QueryKey := default ""%string (values !! i).

(** The loop of [Add]; the index at least halves, so it is its own bound. *)
Fixpoint siftUp (fuel : nat) (values : list QueryKey) (index : nat) : list QueryKey :=
  match fuel with
  | O => values
  | S fuel =>
      if (index =? 0)%nat then values
      else
        let parent := ((index - 1) / 2)%nat in
        if strLe (at_ values parent) (at_ values index) then values
        else siftUp fuel (swap values parent index) parent
  end.

Definition queueAdd (q : queryKeyQueue) (key : QueryKey) : queryKeyQueue :=
  if bool_decide (key ∈ queue_queued q) then q
  else
    let values := queue_values q ++ [key] in
    mkQueryKeyQueue (siftUp (length values) values (length values - 1)) ({[key]} ∪ queue_queued q).

(** The loop of [Pop]; the index at least doubles, so the length bounds it. *)
Fixpoint siftDown (fuel : nat) (values : list QueryKey) (index : nat) : list QueryKey :=
  match fuel with
  | O => values
  | S fuel =>
      let left := (index * 2 + 1)%nat in
      if (length values <=? left)%nat then values
      else
        let right := (left + 1)%nat in
        let smallest :=
          if (right <? length values)%nat && strLt (at_ values right) (at_ values left)
          then right else left in
        if strLe (at_ values index) (at_ values smallest) then values
        else siftDown fuel (swap values index smallest) smallest
  end.

Definition queuePop (q : queryKeyQueue) : option (QueryKey * queryKeyQueue) :=
  match queue_values q with
  | [] => None
  | result :: _ =>
      let last := (length (queue_values q) - 1)%nat in
      let values := take last (<[0%nat := at_ (queue_values q) last]> (queue_values q)) in
      Some (result,
            mkQueryKeyQueue (siftDown (length values) values 0) (queue_queued q ∖ {[result]}))
  end.

Definition queueAddAll (q : queryKeyQueue) (keys : list QueryKey) : queryKeyQueue :=
  foldl queueAdd q keys.

(** ** Invalidation *)

Fixpoint invalidationQueueFrom (s : Session) (queue : queryKeyQueue) (inputs : list InputKey)
    : IncErr + queryKeyQueue :=
  match inputs with
  | [] => inr queue
  | key :: rest =>
      match loadDependents s (inputDep key) with
      | inl err => inl err
      | inr dependents => invalidationQueueFrom s (queueAddAll queue dependents) rest
      end
  end.

Definition invalidationQueue (s : Session) (inputs : list InputKey) : IncErr + queryKeyQueue :=
  invalidationQueueFrom s newQueryKeyQueue inputs.

Definition setDirty (dirty : bool) (entry : nodeEntry) : nodeEntry :=
  mkNodeEntry (nodeEntry_value entry) (nodeEntry_deps entry) (nodeEntry_inputs entry)
    (nodeEntry_changedAt entry) dirty.

(** [invalidateQuery]: the entry to stage when the query becomes dirty. *)
Definition invalidateQuery (s : Session) (key : QueryKey) : IncErr + option nodeEntry :=
  if bool_decide (key ∈ Session_queried s)
  then inl (ErrText "incremental input invalidated query after it was evaluated")
  else match currentNode s key with
       | inl err => inl err
       | inr None => inr None
       | inr (Some entry) =>
           if nodeEntry_dirty entry then inr None else inr (Some (setDirty true entry))
       end.

(** [enqueueUnvisitedDependents]. *)
Definition enqueueUnvisited (queue : queryKeyQueue) (visited : gset QueryKey)
    (dependents : list QueryKey) : queryKeyQueue :=
  queueAddAll queue (filter (λ key, key ∉ visited) dependents).

(** The loop of [planInputInvalidations]. *)
Fixpoint invalidationLoop (fuel : nat) (s : Session) (queue : queryKeyQueue)
    (visited : gset QueryKey) (dirtyEntries : gmap QueryKey nodeEntry)
    : IncErr + gset QueryKey * gmap QueryKey nodeEntry :=
  match queuePop queue with
  | None => inr (visited, dirtyEntries)
  | Some (key, queue) =>
      match fuel with
      | O => inl ErrOutOfFuel
      | S fuel =>
          if bool_decide (key ∈ visited) then invalidationLoop fuel s queue visited dirtyEntries
          else
            let visited := {[key]} ∪ visited in
            match invalidateQuery s key with
            | inl err => inl err
            | inr invalidated =>
                let dirtyEntries :=
                  match invalidated with
                  | Some entry => <[key := entry]> dirtyEntries
                  | None => dirtyEntries
                  end in
                match loadDependents s (queryDep key) with
                | inl err => inl err
                | inr dependents =>
                    invalidationLoop fuel s (enqueueUnvisited queue visited dependents) visited
                      dirtyEntries
                end
            end
      end
  end.

(** The queries that a reverse index holds. *)
Definition edgeQueries (roots : gmap dependencyKey (gset QueryKey)) : gset QueryKey :=
  ⋃ (map_to_list roots).*2.

(** The queries a session can queue: those with a staged entry and those a
    reverse index names. None is visited twice. *)
Definition queryUniverse (s : Session) : gset QueryKey :=
  dom (Session_nodeChanges s) ∪ edgeQueries (generation_reverse (Session_base s))
  ∪ edgeQueries (Session_stagedReverse s).

Definition invalidationFuel (s : Session) : nat := size (queryUniverse s).

Definition planInputInvalidations (s : Session) (inputs : list InputKey)
    : IncErr + gmap QueryKey nodeEntry :=
  match invalidationQueue s inputs with
  | inl err => inl err
  | inr queue =>
      match invalidationLoop (invalidationFuel s) s queue ∅ ∅ with
      | inl err => inl err
      | inr (_, dirtyEntries) => inr dirtyEntries
      end
  end.

(** ** Applying inputs *)

Fixpoint validateInputsFrom (seen : gset InputKey) (inputs : list Input) : option IncErr :=
  match inputs with
  | [] => None
  | input :: rest =>
      if negb (validInputKey (Input_Key input)) then Some (ErrText "incremental input key is empty")
      else if negb (validRevision (Input_Revision input))
      then Some (ErrText "incremental input revision is empty")
      else if negb (Input_Found input) && negb (bool_decide (Input_Value input = ""%string))
      then Some (ErrText "incremental negative input has bytes")
      else if bool_decide (Input_Key input ∈ seen)
      then Some (ErrText "incremental input batch contains a duplicate key")
      else validateInputsFrom ({[Input_Key input]} ∪ seen) rest
  end.

(** [validateInputBatch]; [validateImmutableInput] is its call on one input. *)
Definition validateInputBatch (inputs : list Input) : option IncErr := validateInputsFrom ∅ inputs.

(** [sameInputValue] and [sameImmutableInputValue]. *)
Definition sameInputValue (entry : inputEntry) (input : Input) : bool :=
  bool_decide (inputEntry_found entry = Input_Found input ∧ inputEntry_value entry = Input_Value input).

Definition reusedRevision (entry : option inputEntry) (input : Input) : bool :=
  match entry with
  | Some entry =>
      bool_decide (inputEntry_revision entry = Input_Revision input) && negb (sameInputValue entry input)
  | None => false
  end.

Definition validateInputVersion (s : Session) (input : Input) (current baseline : option inputEntry)
    : option IncErr :=
  if reusedRevision current input || reusedRevision baseline input
     || match Session_inputVersions s !! (Input_Key input, Input_Revision input) with
        | Some previous => negb (sameInputValue previous input)
        | None => false
        end
  then Some (ErrText "incremental input reused an exact revision for different bytes")
  else None.

Definition inputChangedAt (s : Session) (input : Input) (current baseline : option inputEntry) : N :=
  match baseline, current with
  | Some baseline, _ =>
      if sameInputValue baseline input then inputEntry_changedAt baseline
      else Session_targetGeneration s
  | None, Some current =>
      if sameInputValue current input then inputEntry_changedAt current
      else Session_targetGeneration s
  | None, None => Session_targetGeneration s
  end.

(** [inputBatch]: the versions and observations of the batch are those of its
    changes. *)
Fixpoint prepareInputBatch (s : Session) (changes : gmap InputKey inputEntry) (inputs : list Input)
    : IncErr + gmap InputKey inputEntry :=
  match inputs with
  | [] => inr changes
  | input :: rest =>
      let current := currentInput s (Input_Key input) in
      let baseline := baseInput s (Input_Key input) in
      match validateInputVersion s input current baseline with
      | Some err => inl err
      | None =>
          if match current with
             | Some current => bool_decide (inputEntry_revision current = Input_Revision input)
             | None => false
             end
          then prepareInputBatch s changes rest
          else
            let entry := mkInputEntry (Input_Revision input) (Input_Found input) (Input_Value input)
                           (inputChangedAt s input current baseline) in
            prepareInputBatch s (<[Input_Key input := entry]> changes) rest
      end
  end.

Definition publishInputBatch (changes : gmap InputKey inputEntry) (s : Session) : Session :=
  set_inputVersions
    (map_fold (λ key entry versions, <[(key, inputEntry_revision entry) := entry]> versions)
       (Session_inputVersions s) changes)
    (set_observations (map_imap (λ key entry, Some (entryRevision key entry)) changes
                         ∪ Session_observations s)
       (set_inputChanges (changes ∪ Session_inputChanges s) s)).

Definition addCountersFor (key : QueryKey) (delta : NodeCounters) (s : Session) : Session :=
  set_counterDeltas
    (<[key := addCounters (default zeroCounters (Session_counterDeltas s !! key)) delta]>
       (Session_counterDeltas s)) s.

(** The newly dirty queries are staged in key order. *)
Fixpoint stageDirtyEntries (dirtyEntries : gmap QueryKey nodeEntry) (keys : list QueryKey) : SM unit :=
  match keys with
  | [] => mret tt
  | key :: rest =>
      match dirtyEntries !! key with
      | None => mret tt
      | Some entry => stageNodeChange key entry
      end;;
      modify (addCountersFor key (mkNodeCounters 0 0 0 0 1));;
      stageDirtyEntries dirtyEntries rest
  end.

Definition applyInputsAtomically (inputs : list Input) : SM (list QueryKey) :=
  orFail (
    check (validateInputBatch inputs);;
    s ← get;
    changes ← lift (prepareInputBatch s ∅ inputs);
    dirtyEntries ← lift (planInputInvalidations s (sortInputKeys (elements (dom changes))));
    let newlyDirty := sortedNodeEntryKeys dirtyEntries in
    modify (publishInputBatch changes);;
    stageDirtyEntries dirtyEntries newlyDirty;;
    mret newlyDirty).

Definition ApplyInputs (inputs : list Input) : SM unit :=
  readyMutation;;
  s ← get;
  if Session_started s
  then fail (ErrText "incremental inputs cannot change after evaluation starts")
  else applyInputsAtomically inputs;; mret tt.

(** No query is being evaluated. *)
Definition idle (s : Session) : bool :=
  bool_decide (Session_active s = ∅) && match Session_stack s with [] => true | _ => false end.

Definition ApplyInputsWhileIdle (inputs : list Input) : SM (list QueryKey) :=
  readyMutation;;
  s ← get;
  if negb (idle s)
  then fail (ErrText "incremental inputs cannot change during query evaluation")
  else applyInputsAtomically inputs.

(** [BeginColdReset] and its variants with a resolver. *)
Definition beginColdReset (g : Graph) (resolver : option Resolver) (inputs : list Input)
    : IncErr + Session :=
  match begin g true resolver with
  | inl err => inl err
  | inr s =>
      match ApplyInputs inputs s with
      | (_, inl err) => inl err
      | (s, inr _) => inr s
      end
  end.

(** ** Evicting queries *)

(** The loop of [removeQueries]. *)
Fixpoint removeLoop (fuel : nat) (queue : queryKeyQueue) : SM unit :=
  match queuePop queue with
  | None => mret tt
  | Some (key, queue) =>
      match fuel with
      | O => throw ErrOutOfFuel
      | S fuel =>
          s ← get;
          if bool_decide (key ∈ Session_removedQueries s) then removeLoop fuel queue
          else
            modify (set_removedQueries ({[key]} ∪ Session_removedQueries s));;
            unstageNodeChange key;;
            s ← get;
            dependents ← lift (loadDependents s (queryDep key));
            removeLoop fuel (queueAddAll queue
                               (filter (λ key, key ∉ Session_removedQueries s) dependents))
      end
  end.

Fixpoint queueKeys (queue : queryKeyQueue) (keys : list QueryKey) : IncErr + queryKeyQueue :=
  match keys with
  | [] => inr queue
  | key :: rest =>
      if negb (validQueryKey key) then inl (ErrText "incremental query key is empty")
      else queueKeys (queueAdd queue key) rest
  end.

(** Every queued key is one of the arguments or the query of an entry. *)
Definition removeQueries (keys : list QueryKey) : SM unit :=
  orFail (
    queue ← lift (queueKeys newQueryKeyQueue keys);
    s ← get;
    removeLoop (length keys + invalidationFuel s) queue).

Definition RemoveQueries (keys : list QueryKey) : SM unit :=
  readyMutation;;
  s ← get;
  if Session_started s
  then fail (ErrText "incremental queries cannot be removed after evaluation starts")
  else removeQueries keys.

Definition RemoveQueriesWhileIdle (keys : list QueryKey) : SM unit :=
  readyMutation;;
  s ← get;
  if negb (idle s)
  then fail (ErrText "incremental queries cannot be removed during query evaluation")
  else removeQueries keys.

(** ** Reading the session *)

Definition DirtyQueries : SM (list QueryKey) :=
  readyMutation;;
  s ← get;
  if Session_started s
  then fail (ErrText "incremental dirty queries must be read before evaluation starts")
  else if Session_cold s then mret []
  else
    let changed := Session_nodeChanges s in
    let dirtyChanged := dom (filter (λ kv : QueryKey * nodeEntry, nodeEntry_dirty kv.2 = true) changed) in
    let cleanChanged := dom (filter (λ kv : QueryKey * nodeEntry, nodeEntry_dirty kv.2 = false) changed) in
    mret (sortQueryKeys (elements
      (((generation_dirty (Session_base s) ∪ dirtyChanged) ∖ cleanChanged)
         ∖ Session_removedQueries s))).

(** [Session.ExactInput]. *)
Definition SessionExactInput (key : InputKey) : SM (option Input) :=
  ready;;
  s ← get;
  mret (entryInput key <$> currentInput s key).

Definition MatchesExactInput (expected : Input) : SM bool :=
  ready;;
  s ← get;
  if negb (validInputKey (Input_Key expected)) || negb (validRevision (Input_Revision expected))
     || (negb (Input_Found expected) && negb (bool_decide (Input_Value expected = ""%string)))
  then throw (ErrText "incremental input comparison has an invalid snapshot")
  else mret match currentInput s (Input_Key expected) with
            | None => false
            | Some entry =>
                bool_decide (inputEntry_revision entry = Input_Revision expected)
                && sameInputValue entry expected
            end.
