(* ===== verification/IncEval.v ===== *)
(** * The incremental graph: evaluation

    [src/pkg/incremental/evaluation.go]: the frame of dependencies a query
    records, the reader it reads through, and [evaluateNode], which answers
    from the cache, re-validates a dirty entry against its dependencies
    (backdating it when none changed), or runs the query; with [Evaluate] and
    [EvaluateAll] over it. The recursion takes fuel, one unit per query on the
    stack; [IncTermination] shows how much is enough. *)

From stdpp Require Import base gmap strings sorting sets list list_numbers.
From S2P Require Import Prelude GoStd IncGraph IncSession.

Open Scope N_scope.

(** ** The dependency frame

    Up to eight elements sit in an array that is searched; from the ninth on
    they are in a slice with a map from key to position. [addDependency] and
    [addInputRevision] are the same code over their element types. *)

Section slots.
Context {K A : Type} `{Countable K, EqDecision A} (key : A → K).

Record slots := mkSlots {
  slots_small : list A;
  slots_all : option (list A);
  slots_map : option (gmap K nat) }.

Definition emptySlots : slots := mkSlots [] None None.

Definition dependencyFrameMapThreshold : nat := 8.

(** [dependencyValues] and [inputValues]. *)
Definition slotValues (f : slots) : list A :=
  match slots_all f with Some all => all | None => slots_small f end.

(** The map from the key of each element to its position. *)
Fixpoint indexFrom (index : nat) (values : list A) (m : gmap K nat) : gmap K nat :=
  match values with
  | [] => m
  | value :: rest => indexFrom (S index) rest (<[key value := index]> m)
  end.

Fixpoint findSlot (k : K) (values : list A) : option A :=
  match values with
  | [] => None
  | value :: rest => if bool_decide (key value = k) then Some value else findSlot k rest
  end.

Definition addSlot (conflict : IncErr) (candidate : A) (f : slots) : IncErr + slots :=
  match slots_map f with
  | Some m =>
      let all := default [] (slots_all f) in
      match m !! key candidate with
      | Some index =>
          if bool_decide (all !! index = Some candidate) then inr f else inl conflict
      | None =>
          inr (mkSlots (slots_small f) (Some (all ++ [candidate]))
                 (Some (<[key candidate := length all]> m)))
      end
  | None =>
      match findSlot (key candidate) (slotValues f) with
      | Some current => if bool_decide (current = candidate) then inr f else inl conflict
      | None =>
          if (length (slots_small f) <? dependencyFrameMapThreshold)%nat
          then inr (mkSlots (slots_small f ++ [candidate]) (slots_all f) (slots_map f))
          else
            let all := slots_small f ++ [candidate] in
            inr (mkSlots (slots_small f) (Some all) (Some (indexFrom 0 all ∅)))
      end
  end.
End slots.

Arguments slots K A {_ _}.

Record dependencyFrame := mkDependencyFrame {
  frame_dependencies : slots dependencyKey dependency;
  frame_inputs : slots InputKey InputRevision }.

Definition newDependencyFrame : dependencyFrame := mkDependencyFrame emptySlots emptySlots.

Definition errInconsistent : IncErr :=
  ErrText "incremental query observed inconsistent input revisions".

Definition addDependency (conflict : IncErr) (candidate : dependency) (f : dependencyFrame)
    : IncErr + dependencyFrame :=
  match addSlot dependency_key conflict candidate (frame_dependencies f) with
  | inl err => inl err
  | inr deps => inr (mkDependencyFrame deps (frame_inputs f))
  end.

Definition addInputRevision (candidate : InputRevision) (f : dependencyFrame)
    : IncErr + dependencyFrame :=
  match addSlot InputRevision_Key errInconsistent candidate (frame_inputs f) with
  | inl err => inl err
  | inr inputs => inr (mkDependencyFrame (frame_dependencies f) inputs)
  end.

Definition inputDependencyOf (key : InputKey) (entry : inputEntry) : dependency :=
  mkDependency (inputDep key) (inputEntry_changedAt entry) (inputEntry_revision entry)
    (inputEntry_found entry).

Definition queryDependencyOf (key : QueryKey) (entry : nodeEntry) : dependency :=
  mkDependency (queryDep key) (nodeEntry_changedAt entry) "" false.

Definition addInput (key : InputKey) (entry : inputEntry) (f : dependencyFrame)
    : IncErr + dependencyFrame :=
  match addDependency (ErrText "incremental query observed one input at multiple revisions")
          (inputDependencyOf key entry) f with
  | inl err => inl err
  | inr f => addInputRevision (entryRevision key entry) f
  end.

Fixpoint addInputRevisions (inputs : list InputRevision) (f : dependencyFrame)
    : IncErr + dependencyFrame :=
  match inputs with
  | [] => inr f
  | input :: rest =>
      match addInputRevision input f with
      | inl err => inl err
      | inr f => addInputRevisions rest f
      end
  end.

Definition addQuery (key : QueryKey) (entry : nodeEntry) (f : dependencyFrame)
    : IncErr + dependencyFrame :=
  match addDependency (ErrText "incremental query observed one dependency at multiple revisions")
          (queryDependencyOf key entry) f with
  | inl err => inl err
  | inr f => addInputRevisions (nodeEntry_inputs entry) f
  end.

Definition sortedDependencies (f : dependencyFrame) : list dependency :=
  sortDependencies (slotValues (frame_dependencies f)).

Definition sortedInputs (f : dependencyFrame) : list InputRevision :=
  sortRevisions (slotValues (frame_inputs f)).

(** ** Observations *)

Fixpoint mergeObservations (target : gmap InputKey InputRevision) (inputs : list InputRevision)
    : IncErr + gmap InputKey InputRevision :=
  match inputs with
  | [] => inr target
  | input :: rest =>
      if match target !! InputRevision_Key input with
         | Some current => negb (bool_decide (current = input))
         | None => false
         end
      then inl errInconsistent
      else mergeObservations (<[InputRevision_Key input := input]> target) rest
  end.

Definition sortedObservations (inputs : gmap InputKey InputRevision) : list InputRevision :=
  omap (λ key, inputs !! key) (sortInputKeys (elements (dom inputs))).

(** [Session.observe]. *)
Definition observe (inputs : list InputRevision) : SM unit :=
  s ← get;
  observations ← lift (mergeObservations (Session_observations s) inputs);
  modify (set_observations observations).

(** ** Resolving inputs *)

(** [resolveInput] and [resolveInputBorrowed]. *)
Definition resolveInput (key : InputKey) : SM inputEntry :=
  s ← get;
  match Session_resolver s with
  | None => throw (missingInputError key)
  | Some resolver =>
      resolved ← lift (resolver key);
      if negb (bool_decide (Input_Key resolved = key))
      then throw (ErrText "incremental input resolver returned a different key")
      else
        check (validateInputBatch [resolved]);;
        let entry := mkInputEntry (Input_Revision resolved) (Input_Found resolved)
                       (Input_Value resolved) (Session_targetGeneration s) in
        modify (set_inputChanges (<[key := entry]> (Session_inputChanges s)));;
        modify (set_observations (<[key := revisionOf resolved]> (Session_observations s)));;
        mret entry
  end.

(** The input as a reader finds it. *)
Definition loadInput (key : InputKey) : SM inputEntry :=
  s ← get;
  match currentInput s key with
  | Some entry => mret entry
  | None => resolveInput key
  end.

(** ** The reader *)

Record queryReader := mkQueryReader {
  reader_frame : dependencyFrame;
  reader_err : option IncErr }.

Definition newQueryReader : queryReader := mkQueryReader newDependencyFrame None.

(** A call of the reader. Its first error is sticky: every later call answers
    it and does nothing. *)
Definition readerCall {A} (m : dependencyFrame → SM (dependencyFrame * A)) (r : queryReader)
    (s : Session) : Session * queryReader * (IncErr + A) :=
  match reader_err r with
  | Some err => (s, r, inl err)
  | None =>
      match m (reader_frame r) s with
      | (s, inl err) => (s, mkQueryReader (reader_frame r) (Some err), inl err)
      | (s, inr (f, x)) => (s, mkQueryReader f None, inr x)
      end
  end.

(** [ExactInput] and [ExactInputOwned]. *)
Definition ExactInput (key : InputKey) (f : dependencyFrame) : SM (dependencyFrame * Input) :=
  entry ← loadInput key;
  f ← lift (addInput key entry f);
  mret (f, entryInput key entry).

Definition ObserveExactInput (expected : InputRevision) (f : dependencyFrame)
    : SM (dependencyFrame * unit) :=
  if negb (validInputKey (InputRevision_Key expected))
     || negb (validRevision (InputRevision_Revision expected))
  then throw (ErrText "incremental input observation has an invalid identity")
  else
    entry ← loadInput (InputRevision_Key expected);
    if negb (bool_decide (inputEntry_revision entry = InputRevision_Revision expected
                          ∧ inputEntry_found entry = InputRevision_Found expected))
    then throw ErrRevisionConflict
    else
      f ← lift (addInput (InputRevision_Key expected) entry f);
      mret (f, tt).

(** [ObserveExactInputValue] and [ObserveExactImmutableInput]. *)
Definition ObserveExactInputValue (expected : Input) (f : dependencyFrame)
    : SM (dependencyFrame * unit) :=
  check (validateInputBatch [expected]);;
  entry ← loadInput (Input_Key expected);
  if negb (bool_decide (inputEntry_revision entry = Input_Revision expected)
           && sameInputValue entry expected)
  then throw ErrRevisionConflict
  else
    f ← lift (addInput (Input_Key expected) entry f);
    mret (f, tt).

Section evaluator.
(** How a query that is read is evaluated. *)
Context (evaluate : QueryKey → SM nodeEntry).

(** [queryReader.Query]. *)
Definition ReaderQuery (key : QueryKey) (f : dependencyFrame) : SM (dependencyFrame * string) :=
  entry ← evaluate key;
  f ← lift (addQuery key entry f);
  value ← lift (ValueBytes (nodeEntry_value entry));
  mret (f, value).

Definition errorOf {A} (r : IncErr + A) : option IncErr :=
  match r with inl err => Some err | inr _ => None end.

(** [callQuery]: the query runs over its reader to a value or an error; a panic
    is caught and is an error. *)
Fixpoint callQuery (run : QueryProg) (r : queryReader) (s : Session)
    : Session * queryReader * (IncErr + string) :=
  match run with
  | Return value => (s, r, inr value)
  | Raise err => (s, r, inl err)
  | Panic value => (s, r, inl (panicError value))
  | ReadInput key next =>
      let '(s, r, answer) := readerCall (ExactInput key) r s in
      callQuery (next answer) r s
  | ObserveInput expected next =>
      let '(s, r, answer) := readerCall (ObserveExactInput expected) r s in
      callQuery (next (errorOf answer)) r s
  | ObserveInputValue expected next =>
      let '(s, r, answer) := readerCall (ObserveExactInputValue expected) r s in
      callQuery (next (errorOf answer)) r s
  | ReadQuery key next =>
      let '(s, r, answer) := readerCall (ReaderQuery key) r s in
      callQuery (next answer) r s
  end.

(** [stageValidatedQuery], with the value root [stageExecutedQuery] makes: an
    unchanged value keeps the generation at which it last changed. *)
Definition stageExecutedQuery (key : QueryKey) (f : dependencyFrame) (value : string)
    (previous : option nodeEntry) : SM nodeEntry :=
  s ← get;
  let root := newExactValueRoot (Graph_valueAuthority (Session_graph s)) key value in
  let entry := mkNodeEntry root (sortedDependencies f) (sortedInputs f)
                 (Session_targetGeneration s) false in
  let unchanged := match previous with
                   | Some previous => sameExactValue (nodeEntry_value previous) root
                   | None => false
                   end in
  let entry := match previous with
               | Some previous =>
                   if unchanged
                   then mkNodeEntry (nodeEntry_value previous) (nodeEntry_deps entry)
                          (nodeEntry_inputs entry) (nodeEntry_changedAt previous) false
                   else entry
               | None => entry
               end in
  stageNodeChange key entry;;
  modify (addCountersFor key
            (if unchanged then mkNodeCounters 1 0 1 0 0 else mkNodeCounters 1 0 0 1 0));;
  mret entry.

Definition executeQuery (key : QueryKey) (run : QueryProg) (previous : option nodeEntry)
    : SM nodeEntry := λ s,
  let '(s, r, outcome) := callQuery run newQueryReader s in
  match reader_err r with
  | Some err => (s, inl err)
  | None =>
      match outcome with
      | inl err => (s, inl (queryError key err))
      | inr value => (ctxErr;; stageExecutedQuery key (reader_frame r) value previous) s
      end
  end.

(** [verifyDependency]: whether the dependency changed, and the inputs observed. *)
Definition verifyDependency (d : dependency) (observations : gmap InputKey InputRevision)
    : SM (bool * gmap InputKey InputRevision) :=
  match dependency_key d with
  | inputDep key =>
      s ← get;
      match currentInput s key with
      | None => throw (missingInputError key)
      | Some entry =>
          mret (negb (bool_decide (inputEntry_changedAt entry = dependency_changedAt d
                                   ∧ inputEntry_found entry = dependency_found d)),
                <[key := entryRevision key entry]> observations)
      end
  | queryDep key =>
      entry ← evaluate key;
      observations ← lift (mergeObservations observations (nodeEntry_inputs entry));
      mret (negb (bool_decide (nodeEntry_changedAt entry = dependency_changedAt d)), observations)
  end.

(** [None] when a dependency changed, the observations otherwise. *)
Fixpoint verifyFrom (deps : list dependency) (observations : gmap InputKey InputRevision)
    : SM (option (list InputRevision)) :=
  match deps with
  | [] => mret (Some (sortedObservations observations))
  | d :: rest =>
      ctxErr;;
      answer ← verifyDependency d observations;
      match answer with
      | (true, _) => mret None
      | (false, observations) => verifyFrom rest observations
      end
  end.

Definition verifyDependencies (deps : list dependency) : SM (option (list InputRevision)) :=
  verifyFrom deps ∅.

Definition backdateCleanNode (key : QueryKey) (previous : nodeEntry) : SM (option nodeEntry) :=
  verified ← verifyDependencies (nodeEntry_deps previous);
  match verified with
  | None => mret None
  | Some observations =>
      let entry := mkNodeEntry (nodeEntry_value previous) (nodeEntry_deps previous) observations
                     (nodeEntry_changedAt previous) false in
      stageNodeChange key entry;;
      modify (addCountersFor key (mkNodeCounters 0 1 1 0 0));;
      mret (Some entry)
  end.

(** The part of [evaluateNode] that runs with the query on the stack. *)
Definition evaluateActive (key : QueryKey) (run : QueryProg) : SM nodeEntry :=
  s ← get;
  current ← lift (currentNode s key);
  match current with
  | None => executeQuery key run None
  | Some previous =>
      if negb (nodeEntry_dirty previous)
      then modify (addCountersFor key (mkNodeCounters 0 1 0 0 0));; mret previous
      else
        backdated ← backdateCleanNode key previous;
        match backdated with
        | Some entry => mret entry
        | None => executeQuery key run (Some previous)
        end
  end.
End evaluator.

(** The deferred function of [evaluateNode]. *)
Definition leaveQuery (key : QueryKey) (s : Session) : Session :=
  set_stack (take (length (Session_stack s) - 1) (Session_stack s))
    (set_active (delete key (Session_active s)) s).

Definition enterQuery (key : QueryKey) (s : Session) : Session :=
  set_stack (Session_stack s ++ [key])
    (set_active (<[key := length (Session_stack s)]> (Session_active s)) s).

Definition finally {A} (after : Session → Session) (m : SM A) : SM A := λ s,
  match m s with (s, result) => (after s, result) end.

Definition markQueried (key : QueryKey) (s : Session) : Session :=
  set_queried ({[key]} ∪ Session_queried s) s.

Definition errNotDefined : IncErr := ErrText "incremental query is not defined".

Fixpoint evaluateNode (fuel : nat) (key : QueryKey) : SM nodeEntry :=
  match fuel with
  | O => throw ErrOutOfFuel
  | S fuel =>
      readyContext;;
      s ← get;
      defined ← lift (definition (Session_graph s) key);
      match defined with
      | None => throw errNotDefined
      | Some run =>
          if negb (validQueryKey key) then throw errNotDefined
          else
            match run with
            | None => throw (ErrText "incremental query has no implementation")
            | Some run =>
                modify (markQueried key);;
                match Session_active s !! key with
                | Some index => throw (CycleError (drop index (Session_stack s) ++ [key]))
                | None =>
                    modify (enterQuery key);;
                    finally (leaveQuery key) (evaluateActive (evaluateNode fuel) key run)
                end
            end
      end
  end.

(** One level of the recursion, as a function of the session. *)
Lemma evaluateNode_step fuel key s :
  evaluateNode (S fuel) key s =
  match readyContext s with
  | (s, inl err) => (s, inl err)
  | (s, inr _) =>
      match definition (Session_graph s) key with
      | inl err => (s, inl err)
      | inr None => (s, inl errNotDefined)
      | inr (Some run) =>
          if negb (validQueryKey key) then (s, inl errNotDefined)
          else
            match run with
            | None => (s, inl (ErrText "incremental query has no implementation"))
            | Some run =>
                match Session_active s !! key with
                | Some index =>
                    (markQueried key s, inl (CycleError (drop index (Session_stack s) ++ [key])))
                | None =>
                    finally (leaveQuery key) (evaluateActive (evaluateNode fuel) key run)
                      (enterQuery key (markQueried key s))
                end
            end
      end
  end.
Proof.
  cbn [evaluateNode]. cbv [mbind SM_bind]. destruct (readyContext s) as [s1 [err|[]]]; [done|].
  cbv [get lift throw modify]. destruct (definition (Session_graph s1) key) as [err|[run|]]; [done| |done].
  destruct (negb (validQueryKey key)); [done|]. destruct run as [run|]; [|done].
  by destruct (Session_active s1 !! key).
Qed.

(** ** The calls *)

(** The part [Evaluate] and [EvaluateAll] share. *)
Definition evaluateKey (fuel : nat) (key : QueryKey) : SM string :=
  orFail (
    entry ← evaluateNode fuel key;
    ctxErr;;
    observe (nodeEntry_inputs entry);;
    lift (ValueBytes (nodeEntry_value entry))).

Definition Evaluate (fuel : nat) (ctx : option nat) (key : QueryKey) : SM string :=
  modify (set_ctx ctx);;
  readyMutationContext;;
  modify (set_started true);;
  evaluateKey fuel key.

Fixpoint duplicateKey (keys : list QueryKey) : bool :=
  match keys with
  | key :: ((next :: _) as rest) => bool_decide (key = next) || duplicateKey rest
  | _ => false
  end.

(** [validateQueryBatch]: the sorted keys. *)
Definition validateQueryBatch (keys : list QueryKey) : IncErr + list QueryKey :=
  let ordered := sortQueryKeys keys in
  if existsb (λ key, negb (validQueryKey key)) ordered
  then inl (ErrText "incremental query key is empty")
  else if duplicateKey ordered
  then inl (ErrText "incremental query batch contains a duplicate key")
  else inr ordered.

Fixpoint evaluateKeys (fuel : nat) (keys : list QueryKey) : SM (list (QueryKey * string)) :=
  match keys with
  | [] => mret []
  | key :: rest =>
      value ← evaluateKey fuel key;
      results ← evaluateKeys fuel rest;
      mret ((key, value) :: results)
  end.

Definition EvaluateAll (fuel : nat) (ctx : option nat) (keys : list QueryKey)
    : SM (list (QueryKey * string)) :=
  modify (set_ctx ctx);;
  readyMutationContext;;
  ordered ← orFail (lift (validateQueryBatch keys));
  modify (set_started true);;
  evaluateKeys fuel ordered.

(** ** Small runs *)

Definition concatQuery (a b : QueryKey) : QueryProg :=
  ReadQuery a (λ ra, match ra with
    | inl err => Raise err
    | inr va => ReadQuery b (λ rb, match rb with
        | inl err => Raise err
        | inr vb => Return (va +:+ vb)
        end)
    end).

Definition echoInput (key : InputKey) : QueryProg :=
  InputValue key (λ r, match r with
    | inl err => Raise err
    | inr (value, true) => Return value
    | inr (_, false) => Return "?"
    end).

(** A query that names the input it was shown again in an exact observation, as
    the renderer's queries do for inputs they have decoded. *)
Definition observedInput (key : InputKey) : QueryProg :=
  ReadInput key (λ r, match r with
    | inl err => Raise err
    | inr input =>
        ObserveInputValue input (λ observed, match observed with
          | Some err => Raise err
          | None => Return (if Input_Found input then Input_Value input else "?")
          end)
    end).

Definition exampleGraph : Graph :=
  mkGraph {["a" := echoInput "x"; "b" := observedInput "y"; "ab" := concatQuery "a" "b"]}%string
    None false 7 emptyGeneration.

Definition exampleRun : SM string :=
  ApplyInputs [mkInput "x" "r1" true "1"; mkInput "y" "r1" false ""]%string;;
  Evaluate 5 None "ab"%string.

Example example_run_value :
  match begin exampleGraph false None with
  | inr s => (exampleRun s).2
  | inl err => inl err
  end = inr "1?"%string.
Proof. vm_compute. reflexivity. Qed.
