(* ===== verification/IncTermination.v ===== *)
(** * The incremental graph: evaluation comes to an end

    What an evaluation leaves alone in the session ([frozen]), whether it
    succeeds or fails, and that the fuel of [evaluateNode] is never used up when
    it exceeds the number of defined queries that are not on the stack: a query
    that is already on the stack is refused as a cycle. *)

From stdpp Require Import base gmap strings sorting sets list list_numbers.
From S2P Require Import Prelude GoStd IncGraph IncSession IncEval.

Open Scope N_scope.

(** ** What an evaluation does not change *)

Definition frozen (s : Session) :=
  (Session_graph s, Session_base s, Session_targetGeneration s, Session_cold s,
   Session_replacement s, Session_resolver s, Session_verifying s,
   Session_committing s, Session_publicationState s, Session_inputVersions s, Session_active s,
   Session_stack s, Session_removedQueries s, Session_retiredInputs s).

(** The fuel error comes from nowhere but the recursion. *)
Record quiet (s : Session) : Prop := {
  quiet_failure : Session_failure s ≠ Some ErrOutOfFuel;
  quiet_resolver : ∀ resolver key, Session_resolver s = Some resolver → resolver key ≠ inl ErrOutOfFuel }.

Lemma quiet_frozen s s' :
  quiet s → frozen s' = frozen s → Session_failure s' ≠ Some ErrOutOfFuel → quiet s'.
Proof.
  intros [Hf Hr] [= ]. constructor; [done|]. intros resolver key E. apply (Hr resolver key). congruence.
Qed.

(** [m] leaves the frozen part alone and does not answer that fuel ran out;
    [F] is the frozen part it starts from. *)
Definition calm {A} (P : Session → Prop) (m : SM A) : Prop :=
  ∀ s, P s → quiet s →
    frozen (m s).1 = frozen s ∧ quiet (m s).1 ∧ (m s).2 ≠ inl ErrOutOfFuel.

(** [P] only looks at the frozen part. *)
Definition frozenPred (P : Session → Prop) : Prop :=
  ∀ s s', frozen s' = frozen s → P s → P s'.

Section calm.
Context (P : Session → Prop) (HP : frozenPred P).

Lemma calm_ret {A} (x : A) : calm P (mret x).
Proof using. intros s _ Hq. split_and!; [done..|]. by intros. Qed.

Lemma calm_lift {A} (r : IncErr + A) : r ≠ inl ErrOutOfFuel → calm P (lift r).
Proof using. intros Hr s _ Hq. by split_and!. Qed.

Lemma calm_throw {A} err : err ≠ ErrOutOfFuel → calm P (throw (A := A) err).
Proof using. intros Hr s _ Hq. split_and!; [done..|]. by intros [= ]. Qed.

Lemma calm_check err : err ≠ Some ErrOutOfFuel → calm P (check err).
Proof using.
  destruct err as [err|]; intros Herr; [apply calm_throw; congruence | apply calm_ret].
Qed.

Lemma calm_modify f :
  (∀ s, frozen (f s) = frozen s ∧ Session_failure (f s) = Session_failure s) → calm P (modify f).
Proof using.
  intros Hf s _ Hq. destruct (Hf s) as [Hfr Hfa]. split_and!; [done| |done].
  eapply quiet_frozen; [done..|]. cbn. rewrite Hfa. apply Hq.
Qed.

Lemma calm_bind {A B} (m : SM A) (k : A → SM B) :
  calm P m → (∀ x, calm P (k x)) → calm P (m ≫= k).
Proof using HP.
  intros Hm Hk s Hs Hq. destruct (Hm s Hs Hq) as (Hfr & Hq' & Hr).
  cbv [mbind SM_bind]. destruct (m s) as [s1 [err|x]]; cbn [fst snd] in *.
  - split_and!; [done..|]. by intros [= ->].
  - destruct (Hk x s1 (HP _ _ Hfr Hs) Hq') as (Hfr2 & Hq2 & Hr2). split_and!; [congruence|done..].
Qed.

Lemma calm_get {B} (k : Session → SM B) :
  (∀ s, P s → quiet s → calm P (k s)) → calm P (get ≫= k).
Proof using. intros Hk s Hs Hq. by apply (Hk s Hs Hq s). Qed.

Lemma calm_ctxErr : calm P ctxErr.
Proof using.
  intros s Hs Hq. unfold ctxErr. destruct (Session_ctx s) as [[|n]|]; cbn [fst snd].
  - by split_and!.
  - split_and!; [done| |done]. eapply quiet_frozen; [done..|]. apply Hq.
  - by split_and!.
Qed.

Lemma calm_orFail {A} (m : SM A) : calm P m → calm P (orFail m).
Proof using.
  intros Hm s Hs Hq. destruct (Hm s Hs Hq) as (Hfr & Hq' & Hr). unfold orFail, fail.
  destruct (m s) as [s1 [err|x]]; cbn [fst snd] in *; [|done].
  destruct (Session_failure s1) as [f|] eqn:Ef; cbn [fst snd].
  - split_and!; [done..|]. intros [= ->]. by apply Hq'.
  - split_and!; [by rewrite <-Hfr| |congruence].
    eapply (quiet_frozen s1); [done..|]. cbn. congruence.
Qed.

Lemma calm_ready : calm P ready.
Proof using.
  intros s Hs Hq. unfold ready.
  destruct (Session_publicationState s), (Session_failure s) as [f|] eqn:Ef; cbn [fst snd];
    (split_and!; [done..|]); try done; intros [= ->]; by apply Hq.
Qed.

Lemma calm_readyContext : calm P readyContext.
Proof using HP. apply calm_bind; [apply calm_ready|]. intros _. apply calm_orFail, calm_ctxErr. Qed.
End calm.

(** ** Errors that are not about fuel *)

Create HintDb calm.
#[export] Hint Resolve calm_ret calm_throw calm_lift calm_check calm_ctxErr calm_readyContext : calm.

Ltac calm_modify := apply calm_modify; intros; by split.
#[export] Hint Extern 1 (calm _ (modify _)) => calm_modify : calm.
#[export] Hint Extern 1 (_ ≠ _) => discriminate : calm.

Lemma validateOwned_fuel r authority key : validateOwned r authority key ≠ Some ErrOutOfFuel.
Proof. unfold validateOwned, ValidateAuthentication. repeat case_match; congruence. Qed.

Lemma openCommitted_fuel g key entry : openCommittedNodeEntry g key entry ≠ inl ErrOutOfFuel.
Proof.
  unfold openCommittedNodeEntry. case_match; [done|]. case_match eqn:E; [|done].
  intros [= ->]. by apply validateOwned_fuel in E.
Qed.

Lemma currentNode_fuel s key : currentNode s key ≠ inl ErrOutOfFuel.
Proof.
  unfold currentNode, baseNode. case_bool_decide; [done|]. destruct (_ !! key) as [entry|].
  - case_match eqn:E; [|done]. intros [= ->]. by apply validateOwned_fuel in E.
  - case_match; [done|]. case_match; [|done]. case_match eqn:E; [|done].
    intros [= ->]. by apply openCommitted_fuel in E.
Qed.

Lemma stagedReverseRoot_fuel s key : stagedReverseRoot s key ≠ inl ErrOutOfFuel.
Proof. unfold stagedReverseRoot, ownedRoot. by case_match. Qed.

Lemma ValueBytes_fuel r : ValueBytes r ≠ inl ErrOutOfFuel.
Proof. unfold ValueBytes, ValidateAuthentication. by destruct (validQueryKey _). Qed.

Lemma validateInputs_fuel inputs seen : validateInputsFrom seen inputs ≠ Some ErrOutOfFuel.
Proof.
  revert seen. induction inputs as [|i l IH]; intros seen; cbn [validateInputsFrom]; [done|].
  repeat (case_match; [done|]). apply IH.
Qed.

Lemma addSlot_fuel {K A} `{Countable K, EqDecision A} (key : A → K) conflict candidate f :
  conflict ≠ ErrOutOfFuel → addSlot key conflict candidate f ≠ inl ErrOutOfFuel.
Proof. intros Hc. unfold addSlot. repeat case_match; congruence. Qed.

Lemma addInputRevision_fuel r f : addInputRevision r f ≠ inl ErrOutOfFuel.
Proof.
  unfold addInputRevision. case_match eqn:E; [|done]. intros [= ->]. by apply addSlot_fuel in E.
Qed.

Lemma addInputRevisions_fuel l f : addInputRevisions l f ≠ inl ErrOutOfFuel.
Proof.
  revert f. induction l as [|r l IH]; intros f; cbn [addInputRevisions]; [done|].
  case_match eqn:E; [|apply IH]. intros [= ->]. by apply addInputRevision_fuel in E.
Qed.

Lemma addInput_fuel key entry f : addInput key entry f ≠ inl ErrOutOfFuel.
Proof.
  unfold addInput, addDependency. case_match eqn:E; [|apply addInputRevision_fuel].
  case_match eqn:E2; simplify_eq. intros [= ->]. by apply addSlot_fuel in E2.
Qed.

Lemma addQuery_fuel key entry f : addQuery key entry f ≠ inl ErrOutOfFuel.
Proof.
  unfold addQuery, addDependency. case_match eqn:E; [|apply addInputRevisions_fuel].
  case_match eqn:E2; simplify_eq. intros [= ->]. by apply addSlot_fuel in E2.
Qed.

Lemma mergeObservations_fuel l target : mergeObservations target l ≠ inl ErrOutOfFuel.
Proof.
  revert target. induction l as [|r l IH]; intros target; cbn [mergeObservations]; [done|].
  case_match; [done|]. apply IH.
Qed.

Lemma definition_fuel g key : definition g key ≠ inl ErrOutOfFuel.
Proof. unfold definition. repeat case_match; congruence. Qed.

#[export] Hint Resolve currentNode_fuel stagedReverseRoot_fuel ValueBytes_fuel validateInputs_fuel
  addInput_fuel addQuery_fuel mergeObservations_fuel definition_fuel : calm.

(** ** The steps of an evaluation are calm *)

Ltac calm_step :=
  match goal with
  | |- calm _ (get ≫= _) => apply calm_get; [intros ?s ?Hs ?Hq]
  | |- calm _ (_ ≫= _) => apply calm_bind; [assumption| |intros ?x]
  | |- calm _ (if ?b then _ else _) => destruct b eqn:?
  | |- calm _ (match ?x with _ => _ end) => destruct x eqn:?
  | |- calm _ _ => solve [eauto 3 with calm]
  end.

Section steps.
Context (P : Session → Prop) (HP : frozenPred P).

Lemma calm_deleteStagedEdges key deps : calm P (deleteStagedEdges key deps).
Proof using HP.
  induction deps as [|d deps IH]; cbn [deleteStagedEdges]; [apply calm_ret|].
  by repeat calm_step.
Qed.

Lemma calm_addStagedEdges key deps : calm P (addStagedEdges key deps).
Proof using HP.
  induction deps as [|d deps IH]; cbn [addStagedEdges]; [apply calm_ret|].
  by repeat calm_step.
Qed.

Lemma calm_stageNodeChange key entry : calm P (stageNodeChange key entry).
Proof using HP.
  unfold stageNodeChange, unstageNodeChange.
  repeat calm_step; auto using calm_deleteStagedEdges, calm_addStagedEdges.
Qed.

Lemma calm_loadInput key : calm P (loadInput key).
Proof using HP.
  unfold loadInput. apply calm_get. intros s Hs Hq. destruct (currentInput s key); [apply calm_ret|].
  unfold resolveInput. apply calm_get. intros s' Hs' Hq'.
  destruct (Session_resolver s') as [resolver|] eqn:E; [|auto with calm].
  apply calm_bind; [done| |]; [apply calm_lift; by eapply quiet_resolver|]. intros input.
  unfold validateInputBatch. repeat calm_step.
Qed.

Lemma calm_stageExecutedQuery key f value previous : calm P (stageExecutedQuery key f value previous).
Proof using HP.
  unfold stageExecutedQuery. apply calm_get. intros s Hs Hq.
  cbv zeta. repeat calm_step; auto using calm_stageNodeChange.
Qed.

(** A calm call of the reader never records that fuel ran out. *)
Definition calmReader (r : queryReader) : Prop := reader_err r ≠ Some ErrOutOfFuel.

Lemma calm_readerCall {A} (m : dependencyFrame → SM (dependencyFrame * A)) r s :
  (∀ f, calm P (m f)) → P s → quiet s → calmReader r →
  let '(s', r', answer) := readerCall m r s in
  frozen s' = frozen s ∧ quiet s' ∧ calmReader r'.
Proof using.
  intros Hm Hs Hq Hr. unfold readerCall. destruct (reader_err r) as [err|] eqn:Er; [done|].
  destruct (Hm (reader_frame r) s Hs Hq) as (Hfr & Hq' & Hne).
  destruct (m (reader_frame r) s) as [s' [err|[f x]]]; cbn [fst snd] in *.
  - split_and!; [done..|]. unfold calmReader. cbn. congruence.
  - by split_and!.
Qed.

Lemma calm_ExactInput key f : calm P (ExactInput key f).
Proof using HP. unfold ExactInput. repeat calm_step; auto using calm_loadInput. Qed.

Lemma calm_ObserveExactInput expected f : calm P (ObserveExactInput expected f).
Proof using HP. unfold ObserveExactInput. repeat calm_step; auto using calm_loadInput. Qed.

Lemma calm_ObserveExactInputValue expected f : calm P (ObserveExactInputValue expected f).
Proof using HP.
  unfold ObserveExactInputValue, validateInputBatch. repeat calm_step; auto using calm_loadInput.
Qed.

Context (evaluate : QueryKey → SM nodeEntry) (Heval : ∀ key, calm P (evaluate key)).

Lemma calm_ReaderQuery key f : calm P (ReaderQuery evaluate key f).
Proof using HP Heval. unfold ReaderQuery. by repeat calm_step. Qed.

Lemma calm_callQuery run r s :
  P s → quiet s → calmReader r →
  let '(s', r', outcome) := callQuery evaluate run r s in
  frozen s' = frozen s ∧ quiet s' ∧ calmReader r'.
Proof using HP Heval.
  revert r s. induction run; intros r s Hs Hq Hr; cbn [callQuery]; try done.
  all: match goal with |- context [readerCall ?m ?r0 ?s0] =>
      pose proof (calm_readerCall m r0 s0) as Hc; destruct (readerCall m r0 s0) as [[s1 r1] answer];
      destruct Hc as (Hfr & Hq1 & Hr1);
        [auto using calm_ExactInput, calm_ObserveExactInput, calm_ObserveExactInputValue,
           calm_ReaderQuery..|]
    end.
  all: match goal with
    | IH : ∀ x r s, _ |- context [callQuery evaluate (_ ?y) ?r' ?s'] =>
        pose proof (IH y r' s' (HP _ _ Hfr Hs) Hq1 Hr1) as Hrest;
        destruct (callQuery evaluate _ r' s') as [[s2 r2] out]
    end.
  all: destruct Hrest as (? & ? & ?); by split_and!; [congruence|..].
Qed.

Lemma calm_executeQuery key run previous : calm P (executeQuery evaluate key run previous).
Proof using HP Heval.
  intros s Hs Hq. unfold executeQuery.
  pose proof (calm_callQuery run newQueryReader s Hs Hq) as Hc.
  destruct (callQuery evaluate run newQueryReader s) as [[s1 r1] outcome].
  destruct Hc as (Hfr & Hq1 & Hr1); [done|].
  destruct (reader_err r1) as [err|] eqn:Er; [split_and!; [done..|]; cbn; by intros [= ->]|].
  destruct outcome as [err|value]; [by split_and!|].
  destruct (calm_bind P HP ctxErr (λ _, stageExecutedQuery key (reader_frame r1) value previous)
              (calm_ctxErr P) (λ _, calm_stageExecutedQuery _ _ _ _) s1 (HP _ _ Hfr Hs) Hq1)
    as (? & ? & ?).
  split_and!; [congruence|done..].
Qed.

Lemma calm_verifyDependency d observations : calm P (verifyDependency evaluate d observations).
Proof using HP Heval. unfold verifyDependency. by repeat calm_step. Qed.

Lemma calm_verifyFrom deps observations : calm P (verifyFrom evaluate deps observations).
Proof using HP Heval.
  revert observations. induction deps as [|d deps IH]; intros observations; cbn [verifyFrom];
    [apply calm_ret|]. repeat calm_step; auto using calm_verifyDependency.
Qed.

Lemma calm_evaluateActive key run : calm P (evaluateActive evaluate key run).
Proof using HP Heval.
  unfold evaluateActive, backdateCleanNode, verifyDependencies.
  repeat calm_step; auto using calm_executeQuery, calm_verifyFrom, calm_stageNodeChange.
Qed.
End steps.

(** ** The fuel *)

(** Every defined query is one of [D]. *)
Definition definedIn (g : Graph) (D : gset QueryKey) : Prop :=
  ∀ key run, definition g key = inr (Some run) → key ∈ D.

(** The session's graph defines queries of [D] only, and fewer than [n] of them
    are not on the stack. *)
Definition within (D : gset QueryKey) (n : nat) (s : Session) : Prop :=
  definedIn (Session_graph s) D ∧ (size (D ∖ dom (Session_active s)) < n)%nat.

Lemma within_frozen D n : frozenPred (within D n).
Proof. intros s s' [= ]. unfold within. congruence. Qed.

Lemma frozen_leave_enter key s s' :
  Session_active s !! key = None →
  frozen s' = frozen (enterQuery key s) → frozen (leaveQuery key s') = frozen s.
Proof.
  intros Ha [= ]. unfold frozen, leaveQuery. cbn.
  repeat match goal with H : _ s' = _ |- _ => rewrite H end. cbn.
  rewrite delete_insert_id by done. rewrite length_app. cbn.
  rewrite Nat.add_sub, take_app_length. done.
Qed.

Lemma within_enter D fuel key run s :
  within D (S fuel) s → definition (Session_graph s) key = inr (Some run) →
  Session_active s !! key = None → within D fuel (enterQuery key (markQueried key s)).
Proof.
  intros [HD Hlt] Hdef Hact. split; [done|]. cbn. rewrite dom_insert_L.
  assert (key ∈ D ∖ dom (Session_active s)) as Hin.
  { apply elem_of_difference. split; [by eapply HD|by apply not_elem_of_dom]. }
  replace (D ∖ ({[key]} ∪ dom (Session_active s))) with ((D ∖ dom (Session_active s)) ∖ {[key]})
    by set_solver.
  rewrite size_difference, size_singleton by set_solver.
  assert (size (D ∖ dom (Session_active s)) ≠ 0%nat) by (apply size_non_empty_iff; set_solver). lia.
Qed.

(** Evaluation is calm with as much fuel as there are queries it may push. *)
Lemma calm_evaluateNode D fuel key : calm (within D fuel) (evaluateNode fuel key).
Proof.
  revert key. induction fuel as [|fuel IH]; intros key s Hs Hq; [destruct Hs; lia|].
  rewrite evaluateNode_step. pose proof (within_frozen D (S fuel)) as HP.
  destruct (calm_readyContext _ HP s Hs Hq) as (Hfr & Hq1 & Hne).
  destruct (readyContext s) as [s1 [err|[]]]; cbn [fst snd] in *; [split_and!; [done..|congruence]|].
  apply (HP _ _ Hfr) in Hs.
  destruct (definition (Session_graph s1) key) as [err|[run|]] eqn:Hdef; cbn [fst snd].
  { split_and!; [done..|]. intros [= ->]. by apply definition_fuel in Hdef. }
  2: { by split_and!. }
  destruct (negb (validQueryKey key)); [by split_and!|].
  destruct run as [run|]; [|by split_and!].
  destruct (Session_active s1 !! key) eqn:Hact.
  { split_and!; [done| |done]. eapply quiet_frozen; [exact Hq1|done|apply Hq1]. }
  unfold finally. assert (quiet (enterQuery key (markQueried key s1))) as Hq2.
  { destruct Hq1. by constructor. }
  destruct (calm_evaluateActive _ (within_frozen D fuel) (evaluateNode fuel) IH key run
              (enterQuery key (markQueried key s1)) (within_enter _ _ _ _ _ Hs Hdef Hact) Hq2)
    as (Hfr2 & Hq3 & Hne2).
  destruct (evaluateActive _ key run _) as [s2 result]; cbn [fst snd] in *.
  assert (frozen (leaveQuery key s2) = frozen s1) as Hfr3.
  { change (frozen s1) with (frozen (markQueried key s1)). by apply frozen_leave_enter. }
  split_and!; [congruence| |done].
  eapply quiet_frozen; [exact Hq1|done|]. apply Hq3.
Qed.

(** ** More fuel gives the same answer *)

(** [m] and [m'] answer alike on the sessions [P] holds of. *)
Definition alike {A} (P : Session → Prop) (m m' : SM A) : Prop :=
  ∀ s, P s → quiet s → m s = m' s.

Lemma alike_refl {A} P (m : SM A) : alike P m m.
Proof. by intros s. Qed.

Section alike.
Context (P : Session → Prop) (HP : frozenPred P).

Lemma alike_bind {A B} (m m' : SM A) (k k' : A → SM B) :
  calm P m → alike P m m' → (∀ x, alike P (k x) (k' x)) → alike P (m ≫= k) (m' ≫= k').
Proof using HP.
  intros Hm Hmm Hk s Hs Hq. cbv [mbind SM_bind]. rewrite <-(Hmm s Hs Hq).
  destruct (Hm s Hs Hq) as (Hfr & Hq' & _). destruct (m s) as [s1 [err|x]]; [done|].
  apply Hk; [by eapply HP|done].
Qed.

Context (ev ev' : QueryKey → SM nodeEntry).
Context (Hcalm : ∀ key, calm P (ev key)) (Halike : ∀ key, alike P (ev key) (ev' key)).

Lemma alike_ReaderQuery key f : alike P (ReaderQuery ev key f) (ReaderQuery ev' key f).
Proof using HP Hcalm Halike. apply alike_bind; [done..|]. intros entry. apply alike_refl. Qed.

Lemma callQuery_alike run r s :
  P s → quiet s → calmReader r → callQuery ev run r s = callQuery ev' run r s.
Proof using HP Hcalm Halike.
  revert r s. induction run; intros r s Hs Hq Hr; cbn [callQuery]; try done.
  4: assert (readerCall (ReaderQuery ev key) r s = readerCall (ReaderQuery ev' key) r s) as <-
       by (unfold readerCall; destruct (reader_err r); [done|]; by rewrite alike_ReaderQuery).
  all: match goal with |- context [readerCall ?m ?r0 ?s0] =>
      pose proof (calm_readerCall P m r0 s0) as Hc;
      destruct (readerCall m r0 s0) as [[s1 r1] answer];
      destruct Hc as (Hfr & Hq1 & Hr1);
        [auto using calm_ExactInput, calm_ObserveExactInput, calm_ObserveExactInputValue,
           calm_ReaderQuery..|]
    end.
  all: match goal with IH : ∀ x r s, _ |- _ => apply IH; [by eapply HP|done..] end.
Qed.

Lemma alike_executeQuery key run previous :
  alike P (executeQuery ev key run previous) (executeQuery ev' key run previous).
Proof using HP Hcalm Halike.
  intros s Hs Hq. unfold executeQuery. by rewrite callQuery_alike.
Qed.

Lemma alike_verifyFrom deps observations :
  alike P (verifyFrom ev deps observations) (verifyFrom ev' deps observations).
Proof using HP Hcalm Halike.
  revert observations. induction deps as [|d deps IH]; intros observations; cbn [verifyFrom];
    [apply alike_refl|].
  apply alike_bind; [auto with calm|apply alike_refl|]. intros _.
  apply alike_bind; [by apply calm_verifyDependency| |].
  - unfold verifyDependency. destruct (dependency_key d); [apply alike_refl|].
    apply alike_bind; [done..|]. intros entry. apply alike_refl.
  - intros [[] obs]; [apply alike_refl|apply IH].
Qed.

Lemma alike_evaluateActive key run :
  alike P (evaluateActive ev key run) (evaluateActive ev' key run).
Proof using HP Hcalm Halike.
  intros s Hs Hq. unfold evaluateActive. cbv [mbind SM_bind get lift].
  destruct (currentNode s key) as [err|[previous|]]; [done| |by apply alike_executeQuery].
  destruct (negb (nodeEntry_dirty previous)); [done|].
  revert s Hs Hq. apply alike_bind.
  - unfold backdateCleanNode, verifyDependencies.
    repeat calm_step; auto using calm_verifyFrom, calm_stageNodeChange.
  - unfold backdateCleanNode, verifyDependencies. apply alike_bind;
      [by apply calm_verifyFrom|apply alike_verifyFrom|]. intros. apply alike_refl.
  - intros [entry|]; [apply alike_refl|apply alike_executeQuery].
Qed.
End alike.

Lemma evaluateNode_more D fuel fuel' key :
  (fuel <= fuel')%nat → alike (within D fuel) (evaluateNode fuel key) (evaluateNode fuel' key).
Proof.
  revert fuel' key. induction fuel as [|fuel IH]; intros fuel' key Hle s Hs Hq; [destruct Hs; lia|].
  destruct fuel' as [|fuel']; [lia|]. rewrite !evaluateNode_step.
  pose proof (within_frozen D (S fuel)) as HP.
  destruct (calm_readyContext _ HP s Hs Hq) as (Hfr & Hq1 & _).
  destruct (readyContext s) as [s1 [err|[]]]; [done|]. apply (HP _ _ Hfr) in Hs. cbn [fst] in *.
  destruct (definition (Session_graph s1) key) as [err|[run|]] eqn:Hdef; [done| |done].
  destruct (negb (validQueryKey key)); [done|]. destruct run as [run|]; [|done].
  destruct (Session_active s1 !! key) eqn:Hact; [done|]. unfold finally.
  rewrite (alike_evaluateActive _ (within_frozen D fuel) (evaluateNode fuel) (evaluateNode fuel')
             (calm_evaluateNode D fuel)); [done| | |].
  - intros key'. apply IH. lia.
  - by eapply within_enter.
  - destruct Hq1. by constructor.
Qed.

(** ** The claim *)

Lemma calm_readyMutationContext P : frozenPred P → calm P readyMutationContext.
Proof.
  intros HP. apply calm_bind; [done| |intros _; apply calm_orFail, calm_ctxErr].
  intros s Hs Hq. unfold readyMutation.
  destruct (_ || _); [by split_and!|by apply (calm_ready P)].
Qed.

Lemma calm_evaluateKey D fuel key : calm (within D fuel) (evaluateKey fuel key).
Proof.
  pose proof (within_frozen D fuel) as HP. apply calm_orFail. unfold observe.
  repeat calm_step; auto using calm_evaluateNode.
Qed.

Lemma calm_Evaluate D fuel ctx key : calm (within D fuel) (Evaluate fuel ctx key).
Proof.
  pose proof (within_frozen D fuel) as HP. unfold Evaluate.
  repeat calm_step; auto using calm_readyMutationContext, calm_evaluateKey.
Qed.

Lemma calm_evaluateKeys D fuel keys : calm (within D fuel) (evaluateKeys fuel keys).
Proof.
  pose proof (within_frozen D fuel) as HP. induction keys as [|key keys IH]; cbn [evaluateKeys];
    repeat calm_step; auto using calm_evaluateKey.
Qed.

Lemma validateQueryBatch_fuel keys : validateQueryBatch keys ≠ inl ErrOutOfFuel.
Proof. unfold validateQueryBatch. by repeat case_match. Qed.

Lemma calm_orderedKeys P keys : frozenPred P → calm P (orFail (lift (validateQueryBatch keys))).
Proof. intros HP. apply calm_orFail, calm_lift, validateQueryBatch_fuel. Qed.

Lemma calm_EvaluateAll D fuel ctx keys : calm (within D fuel) (EvaluateAll fuel ctx keys).
Proof.
  pose proof (within_frozen D fuel) as HP. unfold EvaluateAll.
  repeat calm_step; auto using calm_readyMutationContext, calm_orderedKeys, calm_evaluateKeys.
Qed.

Lemma evaluateKey_more D fuel fuel' key :
  (fuel <= fuel')%nat → alike (within D fuel) (evaluateKey fuel key) (evaluateKey fuel' key).
Proof.
  intros Hle s Hs Hq. pose proof (within_frozen D fuel) as HP. unfold evaluateKey, orFail.
  rewrite (alike_bind (within D fuel) HP (evaluateNode fuel key) (evaluateNode fuel' key) _
             (λ entry, ctxErr;; observe (nodeEntry_inputs entry);;
                       lift (ValueBytes (nodeEntry_value entry))));
    [done|apply calm_evaluateNode|by apply evaluateNode_more|intros entry; apply alike_refl|done..].
Qed.

Lemma evaluateKeys_more D fuel fuel' keys :
  (fuel <= fuel')%nat → alike (within D fuel) (evaluateKeys fuel keys) (evaluateKeys fuel' keys).
Proof.
  intros Hle. pose proof (within_frozen D fuel) as HP. induction keys as [|key keys IH]; cbn [evaluateKeys];
    [apply alike_refl|].
  apply alike_bind; [done|apply calm_evaluateKey|by apply evaluateKey_more|]. intros value.
  apply alike_bind; [done|apply calm_evaluateKeys|done|]. intros results. apply alike_refl.
Qed.

Lemma Evaluate_more D fuel fuel' ctx key :
  (fuel <= fuel')%nat → alike (within D fuel) (Evaluate fuel ctx key) (Evaluate fuel' ctx key).
Proof.
  intros Hle. pose proof (within_frozen D fuel) as HP.
  apply alike_bind; [done|auto with calm|apply alike_refl|]. intros _.
  apply alike_bind; [done|by apply calm_readyMutationContext|apply alike_refl|]. intros _.
  apply alike_bind; [done|auto with calm|apply alike_refl|]. intros _. by apply evaluateKey_more.
Qed.

Lemma EvaluateAll_more D fuel fuel' ctx keys :
  (fuel <= fuel')%nat → alike (within D fuel) (EvaluateAll fuel ctx keys) (EvaluateAll fuel' ctx keys).
Proof.
  intros Hle. pose proof (within_frozen D fuel) as HP.
  apply alike_bind; [done|auto with calm|apply alike_refl|]. intros _.
  apply alike_bind; [done|by apply calm_readyMutationContext|apply alike_refl|]. intros _.
  apply alike_bind; [done|by apply calm_orderedKeys|apply alike_refl|]. intros ordered.
  apply alike_bind; [done|auto with calm|apply alike_refl|]. intros _. by apply evaluateKeys_more.
Qed.

(** With more fuel than there are defined queries that are not on the stack, an
    evaluation does not run out of it, and more fuel gives the same session and
    the same answer. *)
Lemma evaluation_fuel (D : gset QueryKey) (fuel fuel' : nat) (ctx : option nat)
    (key : QueryKey) (s : Session) :
  definedIn (Session_graph s) D →
  Session_failure s ≠ Some ErrOutOfFuel →
  (∀ resolver key, Session_resolver s = Some resolver → resolver key ≠ inl ErrOutOfFuel) →
  (size (D ∖ dom (Session_active s)) < fuel)%nat →
  (fuel <= fuel')%nat →
  (Evaluate fuel ctx key s).2 ≠ inl ErrOutOfFuel
  ∧ Evaluate fuel' ctx key s = Evaluate fuel ctx key s.
Proof.
  intros HD Hf Hr Hlt Hle.
  assert (within D fuel s) as Hs by done. assert (quiet s) as Hq by done. split.
  - by apply (calm_Evaluate D).
  - symmetry. by apply (Evaluate_more D).
Qed.

Lemma evaluationAll_fuel (D : gset QueryKey) (fuel fuel' : nat) (ctx : option nat)
    (keys : list QueryKey) (s : Session) :
  definedIn (Session_graph s) D →
  Session_failure s ≠ Some ErrOutOfFuel →
  (∀ resolver key, Session_resolver s = Some resolver → resolver key ≠ inl ErrOutOfFuel) →
  (size (D ∖ dom (Session_active s)) < fuel)%nat →
  (fuel <= fuel')%nat →
  (EvaluateAll fuel ctx keys s).2 ≠ inl ErrOutOfFuel
  ∧ EvaluateAll fuel' ctx keys s = EvaluateAll fuel ctx keys s.
Proof.
  intros HD Hf Hr Hlt Hle.
  assert (within D fuel s) as Hs by done. assert (quiet s) as Hq by done. split.
  - by apply (calm_EvaluateAll D).
  - symmetry. by apply (EvaluateAll_more D).
Qed.

(** A query that is read while it is being evaluated is refused. *)
Lemma evaluateNode_active fuel key s :
  is_Some (Session_active s !! key) → ∃ err, (evaluateNode fuel key s).2 = inl err.
Proof.
  intros Hact. destruct fuel as [|fuel]; [by eexists|]. rewrite evaluateNode_step.
  assert (∀ s1 u, readyContext s = (s1, inr u) → Session_active s1 = Session_active s) as Hsame.
  { intros s1 u. unfold readyContext, ready, orFail, ctxErr, fail. cbv [mbind SM_bind].
    repeat (case_match; simplify_eq; try done); by intros [= <- _]. }
  destruct (readyContext s) as [s1 [err|u]] eqn:E; [by eexists|]. rewrite (Hsame _ _ eq_refl).
  destruct Hact as [index ->]. repeat case_match; by eexists.
Qed.

(** A graph of two queries that read each other, and a session on it. *)
Definition loopGraph : Graph :=
  mkGraph {["p" := concatQuery "q" "q"; "q" := concatQuery "p" "p"]}%string None false 7
    emptyGeneration.

Definition loopSession : Session :=
  mkSession loopGraph emptyGeneration 1 false true None None false false false None
    sessionPublicationOpen ∅ ∅ ∅ ∅ ∅ [] ∅ ∅ ∅ ∅ [].

Lemma loopGraph_defined : definedIn loopGraph {["p"; "q"]}%string.
Proof.
  intros key run. unfold definition, loopGraph. cbn [Graph_definitions Graph_provider].
  destruct ({["p" := concatQuery "q" "q"; "q" := concatQuery "p" "p"]}%string !! key) eqn:E; [|done].
  intros _. apply lookup_insert_Some in E. destruct E as [[<- _]|[_ E]]; [set_solver|].
  apply lookup_singleton_Some in E. destruct E as [<- _]. set_solver.
Qed.

(** The circle is found with three units of fuel, and with a hundred. *)
Example loop_found :
  (Evaluate 3 None "p" loopSession).2 = inl (CycleError ["p"; "q"; "p"])%string
  ∧ (Evaluate 3 None "p" loopSession).2 ≠ inl ErrOutOfFuel
  ∧ Evaluate 100 None "p"%string loopSession = Evaluate 3 None "p"%string loopSession.
Proof.
  split; [vm_compute; reflexivity|].
  apply (evaluation_fuel {["p"; "q"]}%string 3 100 None "p"%string loopSession).
  - exact loopGraph_defined.
  - discriminate.
  - discriminate.
  - vm_compute. lia.
  - lia.
Qed.
