(* ===== verification/IncIndex.v ===== *)
(** * The incremental graph: the reverse index and the queue

    What staging and unstaging an entry does to the reverse index, that
    [loadDependents] gives exactly the queries whose current entry has the edge,
    and that the queue of an invalidation is a set one takes keys out of. *)

From stdpp Require Import base gmap strings sorting sets list list_numbers.
From S2P Require Import Prelude GoStd IncGraph IncSession.

Open Scope N_scope.

(** ** The entries of a session *)

(** The entry [currentNode] finds. *)
Definition nodeOf (s : Session) (key : QueryKey) : option nodeEntry :=
  if bool_decide (key ∈ Session_removedQueries s) then None
  else match Session_nodeChanges s !! key with
       | Some entry => Some entry
       | None => if Session_cold s then None else generation_nodes (Session_base s) !! key
       end.

Lemma openCommitted_inr g key entry entry' :
  openCommittedNodeEntry g key entry = inr entry' → entry' = entry.
Proof. unfold openCommittedNodeEntry. repeat case_match; congruence. Qed.

Lemma currentNode_inr s key found : currentNode s key = inr found → nodeOf s key = found.
Proof.
  unfold currentNode, nodeOf, baseNode. case_bool_decide; [congruence|].
  destruct (Session_nodeChanges s !! key); [case_match; congruence|].
  destruct (Session_cold s); [congruence|]. destruct (_ !! key) as [entry|]; [|congruence].
  case_match eqn:E; [congruence|]. apply openCommitted_inr in E. congruence.
Qed.

(** [entry] has the edge [d]. *)
Definition hasEdge (entry : nodeEntry) (d : dependencyKey) : Prop :=
  d ∈ depKeys (nodeEntry_deps entry).

Definition rootAt (reverse : gmap dependencyKey (gset QueryKey)) (d : dependencyKey) : gset QueryKey :=
  default ∅ (reverse !! d).

(** [reverse] is the reverse index of [nodes]. *)
Definition indexes (reverse : gmap dependencyKey (gset QueryKey)) (nodes : gmap QueryKey nodeEntry) : Prop :=
  ∀ d q, q ∈ rootAt reverse d ↔ ∃ entry, nodes !! q = Some entry ∧ hasEdge entry d.

Lemma rootAt_insert reverse d root d' :
  rootAt (<[d := root]> reverse) d' = if decide (d = d') then root else rootAt reverse d'.
Proof.
  unfold rootAt. destruct (decide (d = d')) as [->|].
  - by rewrite lookup_insert_eq.
  - by rewrite lookup_insert_ne.
Qed.

Lemma rootAt_delete reverse d d' :
  rootAt (delete d reverse) d' = if decide (d = d') then ∅ else rootAt reverse d'.
Proof.
  unfold rootAt. destruct (decide (d = d')) as [->|].
  - by rewrite lookup_delete_eq.
  - by rewrite lookup_delete_ne.
Qed.

Lemma stagedReverseRoot_inr s d root :
  stagedReverseRoot s d = inr root → root = rootAt (Session_stagedReverse s) d.
Proof. unfold stagedReverseRoot, ownedRoot, rootAt. case_match; congruence. Qed.

(** ** Staging *)

Lemma addStagedEdges_spec key deps s s' u :
  addStagedEdges key deps s = (s', inr u) →
  ∃ reverse, s' = set_stagedReverse reverse s ∧
    ∀ d q, q ∈ rootAt reverse d ↔
           q ∈ rootAt (Session_stagedReverse s) d ∨ (q = key ∧ d ∈ depKeys deps).
Proof.
  revert s. induction deps as [|d deps IH]; intros s; cbn [addStagedEdges].
  - intros [= <- _]. exists (Session_stagedReverse s). split; [by destruct s|].
    intros. rewrite elem_of_nil. tauto.
  - cbv [mbind SM_bind get lift throw modify].
    destruct (stagedReverseRoot s (dependency_key d)) as [|root] eqn:Er; [done|].
    apply stagedReverseRoot_inr in Er as ->. case_match; [done|]. case_match; [done|].
    intros Hrest. apply IH in Hrest as (reverse & -> & Hrev). exists reverse.
    split; [by destruct s|]. intros d' q. rewrite Hrev. cbn [Session_stagedReverse set_stagedReverse].
    rewrite rootAt_insert, elem_of_depKeys_cons. clear IH Hrev.
    destruct (decide (dependency_key d = d')); subst; rewrite ?elem_of_union, ?elem_of_singleton; naive_solver.
Qed.

Lemma deleteStagedEdges_spec key deps s s' u :
  deleteStagedEdges key deps s = (s', inr u) →
  ∃ reverse, s' = set_stagedReverse reverse s ∧
    ∀ d q, q ∈ rootAt reverse d ↔
           q ∈ rootAt (Session_stagedReverse s) d ∧ ¬ (q = key ∧ d ∈ depKeys deps).
Proof.
  revert s. induction deps as [|d deps IH]; intros s; cbn [deleteStagedEdges].
  - intros [= <- _]. exists (Session_stagedReverse s). split; [by destruct s|].
    intros. rewrite elem_of_nil. tauto.
  - cbv [mbind SM_bind get lift throw modify].
    destruct (stagedReverseRoot s (dependency_key d)) as [|root] eqn:Er; [done|].
    apply stagedReverseRoot_inr in Er as ->. case_match; [done|].
    intros Hrest. apply IH in Hrest as (reverse & -> & Hrev). exists reverse.
    split; [by destruct s|]. intros d' q. rewrite Hrev. cbn [Session_stagedReverse set_stagedReverse].
    rewrite elem_of_depKeys_cons. case_bool_decide as Hempty.
    all: clear IH Hrev.
    + assert (∀ q, q ∈ rootAt (Session_stagedReverse s) (dependency_key d) → q = key) as Honly.
      { intros q' Hq'. apply dec_stable. intros Hne.
        assert (q' ∈ (∅ : gset QueryKey)) as Hin; [|by apply elem_of_empty in Hin].
        rewrite <-Hempty. apply elem_of_difference. by rewrite elem_of_singleton. }
      rewrite rootAt_delete.
      destruct (decide (dependency_key d = d')); subst; rewrite ?elem_of_empty; naive_solver.
    + rewrite rootAt_insert.
      destruct (decide (dependency_key d = d')); subst;
        rewrite ?elem_of_difference, ?elem_of_singleton; naive_solver.
Qed.

(** The staged index is only kept where the session does not replace the graph. *)
Definition stagedOk (s : Session) : Prop :=
  Session_replacement s = false → indexes (Session_stagedReverse s) (Session_nodeChanges s).

Lemma unstageNodeChange_spec key s s' u :
  stagedOk s → unstageNodeChange key s = (s', inr u) →
  ∃ reverse, s' = set_stagedReverse reverse (set_nodeChanges (delete key (Session_nodeChanges s)) s)
    ∧ stagedOk s'.
Proof.
  intros Hok. unfold unstageNodeChange. cbv [mbind SM_bind get].
  destruct (Session_nodeChanges s !! key) as [entry|] eqn:E.
  2: { intros [= <- _]. exists (Session_stagedReverse s). rewrite delete_id by done. by destruct s. }
  destruct (Session_replacement s) eqn:Hrepl; cbv [mret SM_ret modify].
  { intros [= <- _]. exists (Session_stagedReverse s). split; [by destruct s|].
    intros Hr. cbn in Hr. congruence. }
  destruct (deleteStagedEdges key (nodeEntry_deps entry) s) as [s1 [err|[]]] eqn:Ed; [done|].
  intros [= <- _]. apply deleteStagedEdges_spec in Ed as (reverse & -> & Hrev).
  exists reverse. split; [by destruct s|]. intros _ d q.
  cbn [Session_stagedReverse Session_nodeChanges set_nodeChanges set_stagedReverse].
  rewrite Hrev, (Hok Hrepl d q). destruct (decide (q = key)) as [->|Hne].
  - rewrite lookup_delete_eq. split; [|naive_solver]. intros [(e & He & Hd) Hnot].
    rewrite E in He. simplify_eq. exfalso. by apply Hnot.
  - rewrite lookup_delete_ne by done. naive_solver.
Qed.

Lemma stageNodeChange_spec key entry s s' u :
  stagedOk s → stageNodeChange key entry s = (s', inr u) →
  ∃ reverse, s' = set_stagedReverse reverse (set_nodeChanges (<[key := entry]> (Session_nodeChanges s)) s)
    ∧ stagedOk s'.
Proof.
  intros Hok. unfold stageNodeChange. cbv [mbind SM_bind get].
  destruct (unstageNodeChange key s) as [s1 [err|[]]] eqn:Eu; [done|].
  apply unstageNodeChange_spec in Eu as (reverse & -> & Hok1); [|done].
  cbv [modify]. cbn [Session_nodeChanges Session_replacement set_nodeChanges set_stagedReverse].
  rewrite insert_delete_eq. destruct (Session_replacement s) eqn:Hrepl.
  { intros [= <- _]. exists reverse. split; [by destruct s|]. intros Hr. cbn in Hr. congruence. }
  intros Ha. apply addStagedEdges_spec in Ha as (reverse' & -> & Hrev). exists reverse'.
  split; [by destruct s|]. intros _ d q. specialize (Hok1 Hrepl d q).
  cbn [Session_stagedReverse Session_nodeChanges set_nodeChanges set_stagedReverse] in *.
  rewrite Hrev, Hok1. destruct (decide (q = key)) as [->|Hne].
  - rewrite lookup_delete_eq, lookup_insert_eq. unfold hasEdge. naive_solver.
  - rewrite lookup_delete_ne, lookup_insert_ne by done. naive_solver.
Qed.

(** ** Loading dependents *)

Lemma elem_of_rootValues root q : q ∈ rootValues root ↔ q ∈ root.
Proof. unfold rootValues. rewrite sort_strings_Permutation. apply elem_of_elements. Qed.

Lemma filterCommitted_inr s d values result :
  filterCommittedDependents s d values = inr result →
  ∀ q, q ∈ result ↔ q ∈ values ∧ (q ∉ Session_removedQueries s)
                    ∧ ∀ entry, Session_nodeChanges s !! q = Some entry → hasEdge entry d.
Proof.
  revert result. induction values as [|key values IH]; intros result; cbn [filterCommittedDependents].
  { intros [= <-] q. set_solver. }
  case_match; [done|]. destruct (filterCommittedDependents s d values) as [|rest] eqn:E; [done|].
  specialize (IH rest eq_refl). intros Hres q. specialize (IH q). rewrite elem_of_cons.
  case_bool_decide as Hrem; [simplify_eq; rewrite IH; naive_solver|].
  destruct (Session_nodeChanges s !! key) as [staged|] eqn:Es.
  - destruct (nodeDependsOn staged d) eqn:Ed; simplify_eq.
    + apply nodeDependsOn_true in Ed. rewrite elem_of_cons, IH. unfold hasEdge in *. naive_solver.
    + assert (¬ hasEdge staged d) by (intros Hd; apply nodeDependsOn_true in Hd; congruence).
      rewrite IH. naive_solver.
  - simplify_eq. rewrite elem_of_cons, IH. naive_solver.
Qed.

Lemma filterStaged_inr s values result :
  filterStagedDependents s values = inr result →
  ∀ q, q ∈ result ↔ q ∈ values ∧ (q ∉ Session_removedQueries s).
Proof.
  revert result. induction values as [|key values IH]; intros result; cbn [filterStagedDependents].
  { intros [= <-] q. set_solver. }
  case_match; [done|]. destruct (filterStagedDependents s values) as [|rest] eqn:E; [done|].
  specialize (IH rest eq_refl). intros Hres q. specialize (IH q).
  case_bool_decide; simplify_eq; set_solver.
Qed.

Lemma elem_of_mergeQueryKeys left right q :
  q ∈ mergeQueryKeys left right ↔ q ∈ left ∨ q ∈ right.
Proof.
  revert right. induction left as [|l left IHl]; intros right; [cbn; set_solver|].
  induction right as [|r right IHr]; [cbn; set_solver|].
  cbn [mergeQueryKeys]. destruct (String.compare l r) eqn:E.
  - apply String.compare_eq_iff in E as ->. rewrite elem_of_cons, IHl. set_solver.
  - rewrite elem_of_cons, IHl. set_solver.
  - rewrite elem_of_cons. cbn [mergeQueryKeys] in IHr. rewrite IHr. set_solver.
Qed.

(** The index of a replacement is that of the staged entries kept. *)
Lemma appendDependents_inr dependents key deps dependents' :
  appendDependents dependents key deps = inr dependents' →
  ∀ d q, q ∈ default [] (dependents' !! d) ↔
         q ∈ default [] (dependents !! d) ∨ (q = key ∧ d ∈ depKeys deps).
Proof.
  revert dependents. induction deps as [|d deps IH]; intros dependents; cbn [appendDependents].
  { intros [= <-] d q. set_solver. }
  case_bool_decide; [done|]. intros Hrest d' q. rewrite (IH _ Hrest d' q), elem_of_depKeys_cons.
  destruct (decide (dependency_key d = d')) as [<-|Hne].
  - rewrite lookup_insert_eq. cbn. rewrite elem_of_app, list_elem_of_singleton. naive_solver.
  - rewrite lookup_insert_ne by done. naive_solver.
Qed.

Lemma collectDependents_inr nodes removed keys dependents dependents' :
  collectDependents dependents nodes removed keys = inr dependents' →
  ∀ d q, q ∈ default [] (dependents' !! d) ↔
         q ∈ default [] (dependents !! d)
         ∨ (q ∈ keys ∧ (q ∉ removed) ∧ ∃ entry, nodes !! q = Some entry ∧ hasEdge entry d).
Proof.
  revert dependents. induction keys as [|key keys IH]; intros dependents; cbn [collectDependents].
  { intros [= <-] d q. set_solver. }
  case_bool_decide; [intros Hrest d q; rewrite (IH _ Hrest d q), elem_of_cons; naive_solver|].
  destruct (nodes !! key) as [entry|] eqn:En;
    [|intros Hrest d q; rewrite (IH _ Hrest d q), elem_of_cons; naive_solver].
  destruct (appendDependents dependents key (nodeEntry_deps entry)) as [|next] eqn:Ea; [done|].
  intros Hrest d q. rewrite (IH _ Hrest d q), (appendDependents_inr _ _ _ _ Ea d q), elem_of_cons.
  unfold hasEdge. naive_solver.
Qed.

Lemma elem_of_sortedNodeEntryKeys nodes q : q ∈ sortedNodeEntryKeys nodes ↔ ∃ entry, nodes !! q = Some entry.
Proof.
  unfold sortedNodeEntryKeys. rewrite sort_strings_Permutation, elem_of_elements, elem_of_dom.
  by split.
Qed.

Lemma buildReplacement_inr nodes removed roots :
  buildReplacementReverseRoots nodes removed = inr roots →
  ∀ d q, q ∈ rootAt roots d ↔ (q ∉ removed) ∧ ∃ entry, nodes !! q = Some entry ∧ hasEdge entry d.
Proof.
  unfold buildReplacementReverseRoots. case_match; [done|].
  destruct (collectDependents ∅ nodes removed _) as [|dependents] eqn:Ec; [done|].
  case_match; [|done]. intros [= <-] d q. unfold rootAt. rewrite lookup_fmap.
  pose proof (collectDependents_inr _ _ _ _ _ Ec d q) as Hc. rewrite lookup_empty in Hc.
  rewrite elem_of_sortedNodeEntryKeys in Hc.
  destruct (dependents !! d) as [values|]; cbn in *.
  - rewrite elem_of_list_to_set, Hc. set_solver.
  - rewrite elem_of_nil in Hc. set_solver.
Qed.

(** The base of a session: a replacement session sees no committed entry. *)
Record baseIndexed (s : Session) : Prop := {
  bi_cold : Session_replacement s = false → Session_cold s = false;
  bi_replacement : Session_replacement s = true → Session_cold s = false →
    generation_nodes (Session_base s) = ∅;
  bi_reverse : Session_replacement s = false →
    indexes (generation_reverse (Session_base s)) (generation_nodes (Session_base s)) }.

(** [loadDependents] gives the queries whose current entry has the edge. *)
Lemma loadDependents_inr s d result :
  baseIndexed s → stagedOk s → loadDependents s d = inr result →
  ∀ q, q ∈ result ↔ ∃ entry, nodeOf s q = Some entry ∧ hasEdge entry d.
Proof.
  intros Hbase Hstaged. unfold loadDependents.
  destruct (currentReverseRoots s d) as [|[committed staged]] eqn:Er; [done|].
  destruct (filterCommittedDependents s d _) as [|committedKeys] eqn:Ec; [done|].
  destruct (filterStagedDependents s _) as [|stagedKeys] eqn:Es; [done|].
  intros [= <-] q. rewrite elem_of_mergeQueryKeys, (filterCommitted_inr _ _ _ _ Ec),
    (filterStaged_inr _ _ _ Es), !elem_of_rootValues. clear Ec Es.
  unfold currentReverseRoots in Er. unfold nodeOf. case_bool_decide as Hrem; [naive_solver|].
  destruct (Session_replacement s) eqn:Hrepl.
  - unfold replacementReverseRoot, replacementReverseRoots in Er. rewrite Hrepl in Er.
    destruct (buildReplacementReverseRoots _ _) as [|roots] eqn:Eb; [done|].
    unfold ownedRoot in Er. destruct (scopeValid d); [|done]. simplify_eq.
    fold (rootAt roots d). rewrite (buildReplacement_inr _ _ _ Eb).
    destruct (Session_nodeChanges s !! q) as [e|]; [set_solver|].
    destruct (Session_cold s) eqn:Hcold; [set_solver|].
    rewrite (bi_replacement s Hbase Hrepl Hcold), lookup_empty. set_solver.
  - rewrite (bi_cold s Hbase Hrepl) in *. unfold ownedRoot, stagedReverseRoot, ownedRoot in Er.
    destruct (scopeValid d); [|done]. simplify_eq.
    fold (rootAt (Session_stagedReverse s) d). rewrite (Hstaged Hrepl d q).
    unfold reverseRootOf. fold (rootAt (generation_reverse (Session_base s)) d).
    rewrite (bi_reverse s Hbase Hrepl d q).
    destruct (Session_nodeChanges s !! q) as [e|]; naive_solver.
Qed.

(** ** The queue *)

Lemma swap_Permutation values i j : swap values i j ≡ₚ values.
Proof.
  unfold swap. destruct (values !! i) as [x|] eqn:Ei; [|done]. destruct (values !! j) as [y|] eqn:Ej; [|done].
  apply Permutation_inj. split; [by rewrite !length_insert|].
  exists (λ k, if decide (k = i) then j else if decide (k = j) then i else k). split.
  - intros a b Hab. repeat case_decide; congruence.
  - intros k. pose proof (lookup_lt_Some _ _ _ Ei). pose proof (lookup_lt_Some _ _ _ Ej).
    destruct (decide (k = i)) as [->|Hi].
    + rewrite list_lookup_insert_eq by (by rewrite length_insert). done.
    + rewrite list_lookup_insert_ne by done. destruct (decide (k = j)) as [->|Hj].
      * by rewrite list_lookup_insert_eq.
      * by rewrite list_lookup_insert_ne.
Qed.

Lemma siftUp_Permutation fuel values index : siftUp fuel values index ≡ₚ values.
Proof.
  revert values index. induction fuel as [|fuel IH]; intros values index; cbn [siftUp]; [done|].
  case_match; [done|]. case_match; [done|]. rewrite IH. apply swap_Permutation.
Qed.

Lemma siftDown_Permutation fuel values index : siftDown fuel values index ≡ₚ values.
Proof.
  revert values index. induction fuel as [|fuel IH]; intros values index; cbn [siftDown]; [done|].
  case_match; [done|]. case_match; [done|]. rewrite IH. apply swap_Permutation.
Qed.

(** The queue holds each of its keys once. *)
Record queueOk (q : queryKeyQueue) : Prop := {
  qo_queued : ∀ key, key ∈ queue_queued q ↔ key ∈ queue_values q;
  qo_nodup : NoDup (queue_values q) }.

Lemma queueOk_new : queueOk newQueryKeyQueue.
Proof. constructor; cbn; [intros; set_solver|apply NoDup_nil_2]. Qed.

Lemma queueAdd_ok q key : queueOk q → queueOk (queueAdd q key).
Proof.
  intros [Hq Hn]. unfold queueAdd. case_bool_decide as Hin; [by constructor|].
  constructor; cbn [queue_values queue_queued].
  - intros k. rewrite siftUp_Permutation, elem_of_union, elem_of_singleton, elem_of_app,
      list_elem_of_singleton, Hq. tauto.
  - rewrite siftUp_Permutation, Permutation_app_comm. apply NoDup_cons. split; [|done].
    by rewrite <-Hq.
Qed.

Lemma elem_of_queueAdd q key k :
  queueOk q → k ∈ queue_values (queueAdd q key) ↔ k = key ∨ k ∈ queue_values q.
Proof.
  intros [Hq Hn]. unfold queueAdd. case_bool_decide as Hin.
  - apply Hq in Hin. naive_solver.
  - cbn [queue_values]. rewrite siftUp_Permutation, elem_of_app, list_elem_of_singleton. tauto.
Qed.

Lemma queueAddAll_ok q keys : queueOk q → queueOk (queueAddAll q keys).
Proof. revert q. induction keys as [|k keys IH]; intros q Hq; [done|]. by apply IH, queueAdd_ok. Qed.

Lemma elem_of_queueAddAll q keys k :
  queueOk q → k ∈ queue_values (queueAddAll q keys) ↔ k ∈ keys ∨ k ∈ queue_values q.
Proof.
  revert q. induction keys as [|key keys IH]; intros q Hq; cbn [queueAddAll foldl].
  - rewrite elem_of_nil. tauto.
  - fold (queueAddAll (queueAdd q key) keys).
    rewrite IH, elem_of_queueAdd, elem_of_cons by auto using queueAdd_ok. tauto.
Qed.

Lemma queuePop_None q : queuePop q = None ↔ queue_values q = [].
Proof. unfold queuePop. by destruct (queue_values q). Qed.

Lemma queuePop_Some q key q' :
  queuePop q = Some (key, q') → queue_values q ≡ₚ key :: queue_values q'.
Proof.
  unfold queuePop. destruct (queue_values q) as [|x l] eqn:E; [done|]. intros [= <- <-].
  cbn [queue_values]. rewrite siftDown_Permutation. constructor.
  replace (length (x :: l) - 1)%nat with (length l) by (cbn; lia).
  destruct l as [|l0 y _] using rev_ind; [done|]. unfold at_.
  rewrite length_app, Nat.add_1_r, lookup_cons. cbn. rewrite lookup_app_r, Nat.sub_diag by done.
  cbn. rewrite take_app_length.
  by rewrite Permutation_app_comm.
Qed.

Lemma queuePop_queued q key q' :
  queuePop q = Some (key, q') → queue_queued q' = queue_queued q ∖ {[key]}.
Proof. unfold queuePop. destruct (queue_values q); [done|]. by intros [= <- <-]. Qed.

Lemma queuePop_ok q key q' :
  queueOk q → queuePop q = Some (key, q') → queueOk q' ∧ (key ∉ queue_values q').
Proof.
  intros [Hq Hn] Hpop. pose proof (queuePop_Some _ _ _ Hpop) as Hp.
  rewrite Hp, NoDup_cons in Hn. destruct Hn as [Hnot Hn]. split; [|done]. constructor; [|done].
  intros k. rewrite (queuePop_queued _ _ _ Hpop), elem_of_difference, elem_of_singleton, Hq, Hp,
    elem_of_cons. naive_solver.
Qed.
