(* ===== verification/IncReference.v ===== *)
(** * The incremental graph: what a query is worth

    [evals] is the value of a query computed from scratch on a set of inputs:
    no cache, no generation, no dependency. [viewOk] is the invariant that ties
    the cached entries to it. Its heart is a history: an input or a query that
    last changed at a generation had one value then, and every cached entry,
    clean or dirty, is what its query gives on the values its dependencies had
    at the generations it recorded ([replays]). A dependency whose generation is
    still the recorded one has therefore kept its value, which is why a dirty
    entry may be taken over without running its query. *)

From stdpp Require Import base gmap strings sorting sets list list_numbers.
From S2P Require Import Prelude GoStd IncGraph IncSession.

Open Scope N_scope.

(** The query function of a key, where it can be evaluated at all. *)
Definition queryRun (g : Graph) (key : QueryKey) : option QueryProg :=
  match definition g key with
  | inr (Some (Some run)) => if validQueryKey key then Some run else None
  | _ => None
  end.

(** ** Evaluation from scratch

    A query runs on the inputs and on the values of the queries it reads. What
    an exact observation asks of an input is its presence, and its bytes where
    it names them; the revision it names is a token that the session compares
    and the reference does not. *)

Section reference.
Context (g : Graph).

Inductive evals (inp : InputKey → option inputEntry) : QueryProg → string → Prop :=
| evals_return value : evals inp (Return value) value
| evals_input key entry next value :
    inp key = Some entry →
    evals inp (next (inr (entryInput key entry))) value →
    evals inp (ReadInput key next) value
| evals_observe entry expected next value :
    inp (InputRevision_Key expected) = Some entry →
    inputEntry_found entry = InputRevision_Found expected →
    evals inp (next None) value →
    evals inp (ObserveInput expected next) value
| evals_observe_value entry expected next value :
    inp (Input_Key expected) = Some entry → sameInputValue entry expected = true →
    evals inp (next None) value →
    evals inp (ObserveInputValue expected next) value
| evals_query key run next answer value :
    queryRun g key = Some run →
    evals inp run answer →
    evals inp (next (inr answer)) value →
    evals inp (ReadQuery key next) value.

(** The value of a query on a set of inputs. *)
Definition queryValue (inp : InputKey → option inputEntry) (key : QueryKey) (value : string) : Prop :=
  ∃ run, queryRun g key = Some run ∧ evals inp run value.

Lemma evals_deterministic inp run v v' : evals inp run v → evals inp run v' → v = v'.
Proof.
  intros He. revert v'.
  induction He as [value|key entry next value Hk _ IH|entry ex next value Hk Hx _ IH
    |entry ex next value Hk Hx _ IH|key run next answer value Hr _ IH1 _ IH2];
    intros v' He'; inversion He'; simplify_eq.
  - done.
  - by apply IH.
  - by apply IH.
  - by apply IH.
  - match goal with Hx : evals inp run ?w |- _ => apply IH1 in Hx; subst w end. by apply IH2.
Qed.

Lemma queryValue_deterministic inp key v v' : queryValue inp key v → queryValue inp key v' → v = v'.
Proof. intros (r & Hr & He) (r' & Hr' & He'). simplify_eq. by eapply evals_deterministic. Qed.

(** More inputs do not change a value that does not need them. *)
Lemma evals_mono inp inp' run v :
  (∀ key entry, inp key = Some entry → inp' key = Some entry) → evals inp run v → evals inp' run v.
Proof. intros Hsub He. induction He; econstructor; eauto. Qed.

(** ** Queries that are blind to revisions

    Dependencies are compared by the generation at which a value last changed
    and by presence, never by revision. Two queries are [blind] to each other's
    revisions when they do the same up to the revision tokens they were shown:
    such a token may be kept and named again in an exact observation, as the
    renderer's queries do with the inputs they have decoded before, but neither
    the result nor the choice of what to read depends on it. A query that gives
    its revision away is outside of what the cache promises. *)
Inductive blind : QueryProg → QueryProg → Prop :=
| blind_return value : blind (Return value) (Return value)
| blind_raise err err' : blind (Raise err) (Raise err')
| blind_panic value value' : blind (Panic value) (Panic value')
| blind_input key next next' :
    (∀ r r' found value,
        blind (next (inr (mkInput key r found value))) (next' (inr (mkInput key r' found value)))) →
    blind (ReadInput key next) (ReadInput key next')
| blind_observe key r r' found next next' :
    blind (next None) (next' None) →
    blind (ObserveInput (mkInputRevision key r found) next) (ObserveInput (mkInputRevision key r' found) next')
| blind_observe_value key r r' found value next next' :
    blind (next None) (next' None) →
    blind (ObserveInputValue (mkInput key r found value) next)
      (ObserveInputValue (mkInput key r' found value) next')
| blind_query key next next' :
    (∀ answer, blind (next (inr answer)) (next' (inr answer))) →
    blind (ReadQuery key next) (ReadQuery key next').

(** The query does the same whatever the revisions of its inputs are. *)
Definition oblivious (run : QueryProg) : Prop := blind run run.

(** ** History *)

Record History := mkHistory {
  hist_input : InputKey → N → option (bool * string);
  hist_query : QueryKey → N → option string }.

Definition nodeValue (entry : nodeEntry) : string := ExactValueRoot_value (nodeEntry_value entry).

(** The query gives [value] on the values its dependencies [deps] had. *)
Inductive replays (H : History) (deps : list dependency) : QueryProg → string → Prop :=
| replays_return value : replays H deps (Return value) value
| replays_input key next d found bytes revision value :
    d ∈ deps → dependency_key d = inputDep key →
    hist_input H key (dependency_changedAt d) = Some (found, bytes) →
    replays H deps (next (inr (mkInput key revision found bytes))) value →
    replays H deps (ReadInput key next) value
| replays_observe d expected next bytes value :
    d ∈ deps → dependency_key d = inputDep (InputRevision_Key expected) →
    hist_input H (InputRevision_Key expected) (dependency_changedAt d)
      = Some (InputRevision_Found expected, bytes) →
    replays H deps (next None) value →
    replays H deps (ObserveInput expected next) value
| replays_observe_value d expected next value :
    d ∈ deps → dependency_key d = inputDep (Input_Key expected) →
    hist_input H (Input_Key expected) (dependency_changedAt d)
      = Some (Input_Found expected, Input_Value expected) →
    replays H deps (next None) value →
    replays H deps (ObserveInputValue expected next) value
| replays_query key next d answer value :
    d ∈ deps → dependency_key d = queryDep key →
    hist_query H key (dependency_changedAt d) = Some answer →
    replays H deps (next (inr answer)) value →
    replays H deps (ReadQuery key next) value.

Lemma replays_deps H deps deps' run v :
  (∀ d, d ∈ deps → d ∈ deps') → replays H deps run v → replays H deps' run v.
Proof. intros Hsub Hr. induction Hr; econstructor; eauto. Qed.

(** Only the history of the recorded dependencies matters. *)
Lemma replays_hist H H' deps run v :
  (∀ d key x, d ∈ deps → dependency_key d = inputDep key →
     hist_input H key (dependency_changedAt d) = Some x →
     hist_input H' key (dependency_changedAt d) = Some x) →
  (∀ d key x, d ∈ deps → dependency_key d = queryDep key →
     hist_query H key (dependency_changedAt d) = Some x →
     hist_query H' key (dependency_changedAt d) = Some x) →
  replays H deps run v → replays H' deps run v.
Proof. intros Hi Hq Hr. induction Hr; econstructor; eauto. Qed.

(** ** Views: the inputs and entries of a session or a generation *)

Section view.
Context (H : History) (inp : InputKey → option inputEntry) (nod : QueryKey → option nodeEntry).

(** The dependency is as it was recorded: [verifyDependency] finds it unchanged. *)
Definition depFresh (d : dependency) : Prop :=
  match dependency_key d with
  | inputDep key => ∃ entry, inp key = Some entry
      ∧ inputEntry_changedAt entry = dependency_changedAt d ∧ inputEntry_found entry = dependency_found d
  | queryDep key => ∃ entry, nod key = Some entry ∧ nodeEntry_dirty entry = false
      ∧ nodeEntry_changedAt entry = dependency_changedAt d
  end.

Record viewOk : Prop := {
  vo_input : ∀ key entry, inp key = Some entry →
    hist_input H key (inputEntry_changedAt entry) = Some (inputEntry_found entry, inputEntry_value entry);
  vo_query : ∀ key entry, nod key = Some entry →
    hist_query H key (nodeEntry_changedAt entry) = Some (nodeValue entry);
  vo_replays : ∀ key entry, nod key = Some entry →
    ∃ run, queryRun g key = Some run ∧ replays H (nodeEntry_deps entry) run (nodeValue entry);
  vo_fresh : ∀ key entry d, nod key = Some entry → nodeEntry_dirty entry = false →
    d ∈ nodeEntry_deps entry → depFresh d;
  vo_value : ∀ key entry, nod key = Some entry → nodeEntry_dirty entry = false →
    queryValue inp key (nodeValue entry) }.

(** An input dependency that is as recorded has the content it had then. *)
Lemma fresh_input d key found bytes :
  viewOk → depFresh d → dependency_key d = inputDep key →
  hist_input H key (dependency_changedAt d) = Some (found, bytes) →
  ∃ entry, inp key = Some entry ∧ inputEntry_found entry = found ∧ inputEntry_value entry = bytes.
Proof.
  intros Hok Hf Hk Hh. unfold depFresh in Hf. rewrite Hk in Hf. destruct Hf as (entry & Hi & Hc & _).
  pose proof (vo_input Hok _ _ Hi) as Hv. rewrite Hc, Hh in Hv. simplify_eq. by exists entry.
Qed.

(** An entry whose dependencies are all as recorded has the value of its query,
    whatever the revisions have become. *)
Lemma fresh_evals deps run run' v :
  viewOk → blind run run' → (∀ d, d ∈ deps → depFresh d) → replays H deps run v → evals inp run' v.
Proof.
  intros Hok Hob Hfresh Hr. revert run' Hob.
  induction Hr as [v|key next d found bytes rev v Hd Hk Hh _ IH|d ex next bytes v Hd Hk Hh _ IH
    |d ex next v Hd Hk Hh _ IH|key next d answer v Hd Hk Hh _ IH]; intros run' Hob;
    inversion Hob as [| | |? ? next' Hnext|? ? ? ? ? next' Hnext|? ? ? ? ? ? next' Hnext|? ? next' Hnext]; subst;
    cbn in *.
  - constructor.
  - destruct (fresh_input d key found bytes) as ([] & Hi & Hf & Hv); [by auto..|]. cbn in *. subst.
    eapply evals_input; [done|]. by apply IH, Hnext.
  - destruct (fresh_input d key found bytes) as (entry & Hi & Hf & _); [by auto..|].
    eapply evals_observe; [done..|]. by apply IH.
  - destruct (fresh_input d key found value) as (entry & Hi & Hf & Hv); [by auto..|].
    eapply evals_observe_value; [done| |by apply IH]. unfold sameInputValue. cbn. by rewrite Hf, Hv, !bool_decide_eq_true_2.
  - pose proof (Hfresh d Hd) as Hf. unfold depFresh in Hf. rewrite Hk in Hf.
    destruct Hf as (entry & Hn & Hc & Hat). pose proof (vo_query Hok _ _ Hn) as Hv.
    rewrite Hat, Hh in Hv. simplify_eq.
    destruct (vo_value Hok _ _ Hn Hc) as (run & Hrun & He). eapply evals_query; [done..|]. by apply IH.
Qed.
End view.

(** ** Shrinking a view

    Entries that stay clean while inputs change, queries leave or inputs retire
    keep their value, when the inputs they depend on are untouched and the
    queries they depend on stay clean. *)

Section shrink.
Context (H : History) (inp inp' : InputKey → option inputEntry).
Context (nod nod' : QueryKey → option nodeEntry).
Context (Hok : viewOk H inp nod) (Hob : ∀ key run, queryRun g key = Some run → oblivious run).
Context (Hsame : ∀ key entry, nod' key = Some entry → nodeEntry_dirty entry = false → nod key = Some entry).
Context (Hinp : ∀ key entry d k, nod' key = Some entry → nodeEntry_dirty entry = false →
           d ∈ nodeEntry_deps entry → dependency_key d = inputDep k → inp' k = inp k).
Context (Hnod : ∀ key entry d k, nod' key = Some entry → nodeEntry_dirty entry = false →
           d ∈ nodeEntry_deps entry → dependency_key d = queryDep k →
           ∃ entry', nod' k = Some entry' ∧ nodeEntry_dirty entry' = false).

Lemma evals_shrink run v :
  evals inp run v → ∀ run0, blind run0 run → ∀ deps,
  replays H deps run0 v →
  (∀ d, d ∈ deps → depFresh inp nod d) →
  (∀ d k, d ∈ deps → dependency_key d = inputDep k → inp' k = inp k) →
  (∀ d k, d ∈ deps → dependency_key d = queryDep k →
     ∃ entry', nod' k = Some entry' ∧ nodeEntry_dirty entry' = false) →
  evals inp' run v.
Proof using Hok Hob Hsame Hinp Hnod.
  intros He.
  induction He as [v|key entry next v Hk _ IH|entry ex next v Hk Hx _ IH|entry ex next v Hk Hx _ IH
    |key run next answer v Hr He1 IH1 _ IH2]; intros run0 Hobl deps Hrep Hfr Hin Hno;
    inversion Hobl as [| | |? next0 ? Hnext|k r0 r1 f0 next0 ? Hnext|k r0 r1 f0 v0 next0 ? Hnext|? next0 ? Hnext];
    subst; [constructor|..];
    inversion Hrep as [|? ? d found bytes rev ? Hd Hdk Hh Hrest|d ? ? bytes ? Hd Hdk Hh Hrest
      |d ? ? ? Hd Hdk Hh Hrest|? ? d answer' ? Hd Hdk Hh Hrest]; subst; cbn in *.
  - destruct (fresh_input H inp nod d key found bytes) as (e & Hi & Hf & Hv); [by auto..|].
    simplify_eq. eapply evals_input; [by rewrite (Hin d key)|]. by eapply (IH _ (Hnext _ _ _ _) deps).
  - eapply evals_observe; [cbn; by rewrite (Hin d k)|done|]. by eapply (IH _ Hnext deps).
  - eapply evals_observe_value; [cbn; by rewrite (Hin d k)|done|]. by eapply (IH _ Hnext deps).
  - pose proof (Hfr d Hd) as Hf. unfold depFresh in Hf. rewrite Hdk in Hf.
    destruct Hf as (e & Hn & Hc & Hat). pose proof (vo_query _ _ _ Hok _ _ Hn) as Hv.
    rewrite Hat, Hh in Hv. apply (inj Some) in Hv as ->.
    assert (answer = nodeValue e) as ->.
    { destruct (vo_value _ _ _ Hok _ _ Hn Hc) as (run' & Hr' & He'). simplify_eq.
      by eapply evals_deterministic. }
    destruct (Hno d key Hd Hdk) as (e' & Hn' & Hc'). pose proof (Hsame _ _ Hn' Hc') as Hn2. simplify_eq.
    destruct (vo_replays _ _ _ Hok _ _ Hn) as (run' & Hr' & Hrep'). simplify_eq.
    eapply evals_query; [done| |].
    + apply (IH1 _ (Hob _ _ Hr) (nodeEntry_deps e) Hrep').
      * intros d' Hd'. by eapply vo_fresh.
      * intros d' k' Hd' Hk'. by eapply Hinp.
      * intros d' k' Hd' Hk'. by eapply Hnod.
    + by apply (IH2 _ (Hnext _) deps).
Qed.

Lemma queryValue_shrink key entry :
  nod' key = Some entry → nodeEntry_dirty entry = false → queryValue inp' key (nodeValue entry).
Proof using Hok Hob Hsame Hinp Hnod.
  intros Hn Hc. pose proof (Hsame _ _ Hn Hc) as Hn0.
  destruct (vo_value _ _ _ Hok _ _ Hn0 Hc) as (run & Hr & He).
  destruct (vo_replays _ _ _ Hok _ _ Hn0) as (run' & Hr' & Hrep). simplify_eq. exists run. split; [done|].
  eapply evals_shrink; [exact He|by apply (Hob key)|exact Hrep|..].
  - intros d Hd. by eapply vo_fresh.
  - intros d k Hd Hk. by eapply Hinp.
  - intros d k Hd Hk. by eapply Hnod.
Qed.
End shrink.
End reference.
