(* ===== verification/IncSound.v ===== *)
(** * The incremental graph: the frame and the invariant of a session

    The frame of [evaluation.go] switches from a searched array to a slice with
    a map once it holds more than eight elements. Whatever its size, adding an
    element is the search of a list: an element with the same key must be the
    same element, and is kept; a new key is appended. *)

From stdpp Require Import base gmap strings sorting sets list list_numbers.
From S2P Require Import Prelude GoStd IncGraph IncSession IncEval IncIndex IncReference.

Section slots.
Context {K A : Type} `{Countable K, EqDecision A} (key : A → K).

(** The positions the map gives are those of the elements. *)
Definition positions (m : gmap K nat) (values : list A) : Prop :=
  ∀ k i, m !! k = Some i ↔ ∃ x, values !! i = Some x ∧ key x = k.

Definition slotsOk (f : slots K A) : Prop :=
  NoDup (key <$> slotValues f) ∧
  match slots_map f with
  | None => slots_all f = None
  | Some m => ∃ all, slots_all f = Some all ∧ positions m all
  end.

Lemma slotsOk_empty : slotsOk emptySlots.
Proof using. split; [apply NoDup_nil_2|done]. Qed.

Lemma findSlot_Some k values x : findSlot key k values = Some x → x ∈ values ∧ key x = k.
Proof using.
  induction values as [|y values IH]; cbn [findSlot]; [done|]. case_bool_decide as Hk.
  - intros [= <-]. split; [apply elem_of_cons; by left|done].
  - intros Hx. apply IH in Hx as [? ?]. split; [apply elem_of_cons; by right|done].
Qed.

Lemma findSlot_None k values : findSlot key k values = None ↔ k ∉ key <$> values.
Proof using.
  induction values as [|y values IH]; cbn [findSlot].
  - split; [intros _; apply not_elem_of_nil|done].
  - rewrite fmap_cons, not_elem_of_cons. case_bool_decide as Hk; [naive_solver|]. rewrite IH. naive_solver.
Qed.

(** A key that occurs once is found where it is. *)
Lemma findSlot_lookup values i x :
  NoDup (key <$> values) → values !! i = Some x → findSlot key (key x) values = Some x.
Proof using.
  revert i. induction values as [|y values IH]; intros i; cbn [findSlot]; [done|].
  rewrite fmap_cons, NoDup_cons. intros [Hnot Hnd] Hi. destruct i as [|i]; cbn in Hi.
  - simplify_eq. by rewrite bool_decide_eq_true_2.
  - rewrite bool_decide_eq_false_2; [by eapply IH|]. intros Heq. apply Hnot. rewrite Heq.
    apply list_elem_of_fmap. exists x. split; [done|]. by eapply list_elem_of_lookup_2.
Qed.

Lemma positions_snoc m values x :
  positions m values → key x ∉ key <$> values →
  positions (<[key x := length values]> m) (values ++ [x]).
Proof using.
  intros Hpos Hnot k i. destruct (decide (k = key x)) as [->|Hne].
  - rewrite lookup_insert_eq. split.
    + intros [= <-]. exists x. by rewrite lookup_app_r, Nat.sub_diag.
    + intros (y & Hy & Hk). apply lookup_app_Some in Hy as [Hy|[Hle Hy]].
      * exfalso. apply Hnot. rewrite <-Hk. apply list_elem_of_fmap. exists y. split; [done|].
        by eapply list_elem_of_lookup_2.
      * apply list_lookup_singleton_Some in Hy as [Hi _]. f_equal. lia.
  - rewrite lookup_insert_ne by done. rewrite (Hpos k i). split; intros (y & Hy & Hk); exists y.
    + split; [|done]. by apply lookup_app_l_Some.
    + split; [|done]. apply lookup_app_Some in Hy as [Hy|[_ Hy]]; [done|].
      apply list_lookup_singleton_Some in Hy as [_ <-]. by subst.
Qed.

(** The map built at the switch. *)
Lemma indexFrom_positions before values m :
  positions m before → NoDup (key <$> before ++ values) →
  positions (indexFrom key (length before) values m) (before ++ values).
Proof using.
  revert before m. induction values as [|x values IH]; intros before m Hpos Hnd; cbn [indexFrom].
  - by rewrite app_nil_r.
  - pose proof (cons_middle x before values) as Hmid. rewrite (assoc_L (++)) in Hmid. rewrite Hmid.
    replace (S (length before)) with (length (before ++ [x])) by (rewrite length_app; cbn; lia).
    apply IH; [|by rewrite <-Hmid]. apply positions_snoc; [done|].
    rewrite fmap_app, fmap_cons in Hnd. apply NoDup_app in Hnd as (_ & Hdis & _).
    intros Hin. apply (Hdis _ Hin). apply elem_of_cons. by left.
Qed.

Lemma positions_empty : positions ∅ [].
Proof using.
  intros k i. rewrite lookup_empty. split; [done|]. intros (x & Hx & _). by rewrite lookup_nil in Hx.
Qed.

(** Adding an element is a search of the list of elements. *)
Lemma addSlot_reference conflict x f :
  slotsOk f →
  match findSlot key (key x) (slotValues f) with
  | Some y => addSlot key conflict x f = if bool_decide (y = x) then inr f else inl conflict
  | None => ∃ f', addSlot key conflict x f = inr f' ∧ slotsOk f' ∧ slotValues f' = slotValues f ++ [x]
  end.
Proof using.
  intros [Hnd Hmap]. unfold addSlot. destruct (slots_map f) as [m|] eqn:Em.
  - destruct Hmap as (all & Eall & Hpos). rewrite Eall. change (default [] (Some all)) with all.
    assert (slotValues f = all) as Hval by (unfold slotValues; by rewrite Eall). rewrite Hval in *.
    destruct (m !! key x) as [i|] eqn:Ei.
    + apply Hpos in Ei as (y & Hy & Hk). rewrite <-Hk, (findSlot_lookup _ _ _ Hnd Hy), Hy.
      case_bool_decide as E1; case_bool_decide as E2; congruence.
    + assert (key x ∉ key <$> all) as Hnot.
      { intros Hin. apply list_elem_of_fmap in Hin as (y & Hk & Hy).
        apply list_elem_of_lookup_1 in Hy as [i Hy].
        assert (m !! key x = Some i) by (apply Hpos; by exists y). congruence. }
      rewrite (proj2 (findSlot_None _ _) Hnot). eexists. split; [done|].
      split; [|done]. split.
      * cbn. rewrite fmap_app, Permutation_app_comm. by apply NoDup_cons.
      * cbn. exists (all ++ [x]). split; [done|]. by apply positions_snoc.
  - assert (slotValues f = slots_small f) as Hval by (unfold slotValues; by rewrite Hmap).
    rewrite Hval in *. destruct (findSlot key (key x) (slots_small f)) as [y|] eqn:Ef; [done|].
    apply findSlot_None in Ef as Hnot.
    assert (NoDup (key <$> slots_small f ++ [x])) as Hnd'.
    { rewrite fmap_app, Permutation_app_comm. by apply NoDup_cons. }
    case_match; eexists; (split; [done|]).
    + unfold slotsOk, slotValues. cbn. by rewrite Hmap.
    + unfold slotsOk, slotValues. cbn. split_and!; [done| |done]. exists (slots_small f ++ [x]).
      split; [done|]. by apply (indexFrom_positions [] _ ∅ positions_empty).
Qed.

Lemma addSlot_inr conflict x f f' :
  slotsOk f → addSlot key conflict x f = inr f' →
  slotsOk f' ∧ ∀ y, y ∈ slotValues f' ↔ y ∈ slotValues f ∨ y = x.
Proof using.
  intros Hok Hadd. pose proof (addSlot_reference conflict x f Hok) as Href.
  destruct (findSlot key (key x) (slotValues f)) as [y|] eqn:Ef.
  - rewrite Href in Hadd. case_bool_decide; simplify_eq. split; [done|].
    apply findSlot_Some in Ef as [Hx _]. naive_solver.
  - destruct Href as (f2 & Hf2 & Hok2 & Hval). rewrite Hadd in Hf2. simplify_eq. split; [done|].
    intros y. by rewrite Hval, elem_of_app, list_elem_of_singleton.
Qed.
End slots.

(** ** Frames *)

Definition frameDeps (f : dependencyFrame) : list dependency := slotValues (frame_dependencies f).
Definition frameInputs (f : dependencyFrame) : list InputRevision := slotValues (frame_inputs f).

Record frameOk (f : dependencyFrame) : Prop := {
  fo_deps : slotsOk dependency_key (frame_dependencies f);
  fo_inputs : slotsOk InputRevision_Key (frame_inputs f) }.

Lemma frameOk_new : frameOk newDependencyFrame.
Proof. constructor; apply slotsOk_empty. Qed.

Lemma addDependency_inr conflict d f f' :
  frameOk f → addDependency conflict d f = inr f' →
  frameOk f' ∧ frame_inputs f' = frame_inputs f
  ∧ ∀ d', d' ∈ frameDeps f' ↔ d' ∈ frameDeps f ∨ d' = d.
Proof.
  intros [Hd Hi]. unfold addDependency. destruct (addSlot _ _ _ _) as [|deps] eqn:Ea; [done|].
  intros [= <-]. apply addSlot_inr in Ea as [Hok Hel]; [|done]. by split_and!.
Qed.

Lemma addInputRevisions_inr inputs f f' :
  frameOk f → addInputRevisions inputs f = inr f' →
  frameOk f' ∧ frame_dependencies f' = frame_dependencies f
  ∧ ∀ r, r ∈ frameInputs f' ↔ r ∈ frameInputs f ∨ r ∈ inputs.
Proof.
  revert f. induction inputs as [|input inputs IH]; intros f Hf; cbn [addInputRevisions].
  - intros [= <-]. split_and!; [done..|]. intros r. rewrite elem_of_nil. tauto.
  - unfold addInputRevision. destruct (addSlot _ _ _ _) as [|slots'] eqn:Ea; [done|].
    apply addSlot_inr in Ea as [Hok Hel]; [|apply Hf]. intros Hrest.
    apply IH in Hrest as (Hok' & Hdeps & Hin); [|constructor; [apply Hf|done]].
    split_and!; [done..|]. intros r. rewrite Hin, elem_of_cons. unfold frameInputs at 1. cbn.
    rewrite Hel. unfold frameInputs. tauto.
Qed.

Lemma addInput_inr key entry f f' :
  frameOk f → addInput key entry f = inr f' →
  frameOk f' ∧ (∀ d, d ∈ frameDeps f' ↔ d ∈ frameDeps f ∨ d = inputDependencyOf key entry)
  ∧ (∀ r, r ∈ frameInputs f' ↔ r ∈ frameInputs f ∨ r = entryRevision key entry).
Proof.
  intros Hf. unfold addInput. destruct (addDependency _ _ f) as [|f1] eqn:Ea; [done|].
  apply addDependency_inr in Ea as (Hf1 & Hin1 & Hd1); [|done]. intros Hr.
  assert (addInputRevisions [entryRevision key entry] f1 = inr f') as Hr'
    by (cbn [addInputRevisions]; by rewrite Hr).
  apply addInputRevisions_inr in Hr' as (Hf' & Hd' & Hi'); [|done]. split_and!; [done| |].
  - intros d. rewrite <-Hd1. unfold frameDeps. by rewrite Hd'.
  - intros r. rewrite Hi', list_elem_of_singleton. unfold frameInputs. by rewrite Hin1.
Qed.

Lemma addQuery_inr key entry f f' :
  frameOk f → addQuery key entry f = inr f' →
  frameOk f' ∧ (∀ d, d ∈ frameDeps f' ↔ d ∈ frameDeps f ∨ d = queryDependencyOf key entry)
  ∧ (∀ r, r ∈ frameInputs f' ↔ r ∈ frameInputs f ∨ r ∈ nodeEntry_inputs entry).
Proof.
  intros Hf. unfold addQuery. destruct (addDependency _ _ f) as [|f1] eqn:Ea; [done|].
  apply addDependency_inr in Ea as (Hf1 & Hin1 & Hd1); [|done]. intros Hr.
  apply addInputRevisions_inr in Hr as (Hf' & Hd' & Hi'); [|done]. split_and!; [done| |].
  - intros d. rewrite <-Hd1. unfold frameDeps. by rewrite Hd'.
  - intros r. rewrite Hi'. unfold frameInputs. by rewrite Hin1.
Qed.

Lemma elem_of_sortedDependencies f d : d ∈ sortedDependencies f ↔ d ∈ frameDeps f.
Proof. apply elem_of_sortDependencies. Qed.

(** ** The incremental graph: evaluation is evaluation from scratch

    The invariant of a session ([sessionOk]) and that evaluating a query keeps
    it: whether the answer comes from the cache, from an entry that is taken
    over after its dependencies were checked, or from running the query, the
    entry that is returned has the value of the query on the session's inputs. *)

Open Scope N_scope.

(** ** The invariant of a session *)

(** The history as the session sees it: the base's, and for the generation the
    session works towards, what it holds now. *)
Definition sessHist (HB : History) (s : Session) : History :=
  mkHistory
    (λ key n,
      if decide (n = Session_targetGeneration s) then
        match currentInput s key with
        | Some entry =>
            if decide (inputEntry_changedAt entry = Session_targetGeneration s)
            then Some (inputEntry_found entry, inputEntry_value entry) else None
        | None => None
        end
      else hist_input HB key n)
    (λ key n,
      if decide (n = Session_targetGeneration s) then
        match nodeOf s key with
        | Some entry =>
            if decide (nodeEntry_changedAt entry = Session_targetGeneration s)
            then Some (nodeValue entry) else None
        | None => None
        end
      else hist_query HB key n).

(** The entry changed in this session or depends on something that did. *)
Definition touched (s : Session) (entry : nodeEntry) : Prop :=
  nodeEntry_changedAt entry = Session_targetGeneration s
  ∨ ∃ d, d ∈ nodeEntry_deps entry ∧ dependency_changedAt d = Session_targetGeneration s.

(** No evicted query was evaluated again. *)
Definition tidy (s : Session) : Prop :=
  ∀ key entry, Session_nodeChanges s !! key = Some entry → key ∉ Session_removedQueries s.

Record sessionOk (HB : History) (s : Session) : Prop := {
  so_view : viewOk (Session_graph s) (sessHist HB s) (currentInput s) (nodeOf s);
  so_base_input : ∀ key entry, baseInput s key = Some entry →
    inputEntry_changedAt entry < Session_targetGeneration s
    ∧ hist_input HB key (inputEntry_changedAt entry) =
        Some (inputEntry_found entry, inputEntry_value entry);
  so_new_input : ∀ key entry, Session_inputChanges s !! key = Some entry →
    baseInput s key = None → inputEntry_changedAt entry = Session_targetGeneration s;
  so_touched : ∀ key entry, nodeOf s key = Some entry → touched s entry →
    key ∈ Session_queried s ∧ nodeEntry_dirty entry = false;
  so_base : baseIndexed s;
  so_staged : stagedOk s;
  so_tidy : tidy s }.

(** No defined query looks at revisions. *)
Definition obliviousGraph (g : Graph) : Prop :=
  ∀ key run, queryRun g key = Some run → oblivious run.

(** The part of a session the invariant reads. *)
Definition core (s : Session) :=
  (Session_graph s, Session_base s, Session_targetGeneration s, Session_cold s,
   Session_replacement s, Session_inputChanges s, Session_nodeChanges s, Session_stagedReverse s,
   Session_removedQueries s).

Lemma core_currentInput s s' : core s' = core s → currentInput s' = currentInput s.
Proof.
  intros [= _ Hb _ Hc _ Hi _ _ _]. unfold currentInput. by rewrite Hb, Hc, Hi.
Qed.

Lemma core_nodeOf s s' : core s' = core s → nodeOf s' = nodeOf s.
Proof.
  intros [= _ Hb _ Hc _ _ Hn _ Hr]. unfold nodeOf. by rewrite Hb, Hc, Hn, Hr.
Qed.

Lemma core_sessHist HB s s' : core s' = core s → sessHist HB s' = sessHist HB s.
Proof.
  intros Hcore. unfold sessHist. rewrite (core_currentInput _ _ Hcore), (core_nodeOf _ _ Hcore).
  injection Hcore as _ _ Ht. by rewrite Ht.
Qed.

Lemma sessionOk_core HB s s' :
  core s' = core s → Session_queried s ⊆ Session_queried s' → sessionOk HB s → sessionOk HB s'.
Proof.
  intros Hcore Hq [Hview Hbi Hni Htou Hba Hst Hti].
  pose proof (core_currentInput _ _ Hcore) as Hci. pose proof (core_nodeOf _ _ Hcore) as Hno.
  pose proof (core_sessHist HB _ _ Hcore) as Hhi. injection Hcore as Hg Hb Ht Hc Hr Hi Hn Hsr Hrem.
  constructor.
  - by rewrite Hg, Hci, Hno, Hhi.
  - unfold baseInput. rewrite Hb, Hc, Ht. exact Hbi.
  - unfold baseInput. rewrite Hb, Hc, Ht, Hi. exact Hni.
  - rewrite Hno. unfold touched. rewrite Ht. intros key entry Hk Hto.
    destruct (Htou key entry Hk Hto). split; [by apply Hq|done].
  - destruct Hba. constructor; rewrite ?Hb, ?Hc, ?Hr; done.
  - unfold stagedOk. by rewrite Hr, Hsr, Hn.
  - unfold tidy. by rewrite Hn, Hrem.
Qed.

(** ** What an evaluation may change *)

(** [X] are the queries on the stack, whose entries stay as they are. *)
Record extends (X : gset QueryKey) (s s' : Session) : Prop := {
  ex_input : ∀ key entry, currentInput s key = Some entry → currentInput s' key = Some entry;
  ex_clean : ∀ key entry, nodeOf s key = Some entry → nodeEntry_dirty entry = false →
    nodeOf s' key = Some entry;
  ex_kept : ∀ key, key ∈ X → nodeOf s' key = nodeOf s key;
  ex_queried : Session_queried s ⊆ Session_queried s' }.

(** What does not change, and that staged entries only grow in number. *)
Record grows (s s' : Session) : Prop := {
  gr_graph : Session_graph s' = Session_graph s;
  gr_base : Session_base s' = Session_base s;
  gr_target : Session_targetGeneration s' = Session_targetGeneration s;
  gr_cold : Session_cold s' = Session_cold s;
  gr_replacement : Session_replacement s' = Session_replacement s;
  gr_active : Session_active s' = Session_active s;
  gr_removed : Session_removedQueries s' = Session_removedQueries s;
  gr_changes : dom (Session_nodeChanges s) ⊆ dom (Session_nodeChanges s') }.

Lemma grows_refl s : grows s s.
Proof. by constructor. Qed.

Lemma grows_trans s1 s2 s3 : grows s1 s2 → grows s2 s3 → grows s1 s3.
Proof. intros [] []. constructor; try congruence. by etransitivity. Qed.

Lemma grows_tidy s s' : grows s s' → tidy s' → tidy s.
Proof.
  intros Hg Ht key entry Hk. rewrite <-(gr_removed _ _ Hg).
  assert (key ∈ dom (Session_nodeChanges s')) as Hd.
  { apply (gr_changes _ _ Hg). by apply elem_of_dom_2 in Hk. }
  apply elem_of_dom in Hd as [entry' Hd]. by eapply Ht.
Qed.

Lemma extends_refl X s : extends X s s.
Proof. by constructor. Qed.

Lemma extends_trans X s1 s2 s3 : extends X s1 s2 → extends X s2 s3 → extends X s1 s3.
Proof.
  intros H1 H2. constructor.
  - intros. by apply (ex_input _ _ _ H2), (ex_input _ _ _ H1).
  - intros. apply (ex_clean _ _ _ H2); [|done]. by apply (ex_clean _ _ _ H1).
  - intros key Hk. rewrite (ex_kept _ _ _ H2 key Hk). by apply (ex_kept _ _ _ H1).
  - etransitivity; [apply H1|apply H2].
Qed.

Lemma extends_subset X Y s s' : Y ⊆ X → extends X s s' → extends Y s s'.
Proof. intros HXY []. constructor; auto. Qed.

Lemma extends_core X s s' :
  core s' = core s → Session_queried s ⊆ Session_queried s' → extends X s s'.
Proof.
  intros Hc Hq. constructor; [| | |done]; rewrite ?(core_currentInput _ _ Hc), ?(core_nodeOf _ _ Hc); done.
Qed.

Lemma extends_fresh X s s' d :
  extends X s s' → depFresh (currentInput s) (nodeOf s) d → depFresh (currentInput s') (nodeOf s') d.
Proof.
  intros Hex. unfold depFresh. destruct (dependency_key d).
  - intros (e & He & ?). exists e. split; [by apply Hex|done].
  - intros (e & He & Hc & ?). exists e. split; [by apply Hex|done].
Qed.

(** What the session knows of its own generation is not forgotten. *)
Lemma extends_hist HB X s s' :
  sessionOk HB s → extends X s s' → grows s s' →
  (∀ key n x, hist_input (sessHist HB s) key n = Some x → hist_input (sessHist HB s') key n = Some x)
  ∧ (∀ key n x, hist_query (sessHist HB s) key n = Some x → hist_query (sessHist HB s') key n = Some x).
Proof.
  intros Hok Hex Hgr. unfold sessHist. cbn. rewrite (gr_target _ _ Hgr). split; intros key n x.
  - case_decide; [|done]. destruct (currentInput s key) as [e|] eqn:E; [|done].
    by rewrite (ex_input _ _ _ Hex _ _ E).
  - case_decide; [|done]. destruct (nodeOf s key) as [e|] eqn:E; [|done]. case_decide as Ht; [|done].
    destruct (so_touched _ _ Hok key e E) as [_ Hc]; [by left|].
    rewrite (ex_clean _ _ _ Hex _ _ E Hc). by rewrite decide_True.
Qed.

Lemma extends_replays HB X s s' deps run v :
  sessionOk HB s → extends X s s' → grows s s' →
  replays (sessHist HB s) deps run v → replays (sessHist HB s') deps run v.
Proof.
  intros Hok Hex Hgr. destruct (extends_hist HB X s s' Hok Hex Hgr) as [Hi Hq].
  apply replays_hist; eauto.
Qed.

Lemma extends_evals X s s' run v :
  extends X s s' → evals (Session_graph s) (currentInput s) run v →
  evals (Session_graph s) (currentInput s') run v.
Proof. intros Hex. apply evals_mono, (ex_input _ _ _ Hex). Qed.

(** ** Staging a clean entry *)

Lemma nodeOf_stage s key entry reverse q :
  key ∉ Session_removedQueries s →
  nodeOf (set_stagedReverse reverse (set_nodeChanges (<[key := entry]> (Session_nodeChanges s)) s)) q =
  if decide (q = key) then Some entry else nodeOf s q.
Proof.
  intros Hk. unfold nodeOf. cbn. case_decide as Hq.
  - subst q. rewrite bool_decide_eq_false_2 by done. by rewrite lookup_insert_eq.
  - by rewrite lookup_insert_ne.
Qed.

(** The entry is one that may be staged for [key]: there is no clean one, its
    dependencies are fresh, it has the query's value and it carries a
    generation that stands for that value. *)
Record stageable (HB : History) (s : Session) (key : QueryKey) (entry : nodeEntry) : Prop := {
  st_previous : ∀ previous, nodeOf s key = Some previous → nodeEntry_dirty previous = true;
  st_queried : key ∈ Session_queried s;
  st_clean : nodeEntry_dirty entry = false;
  st_fresh : ∀ d, d ∈ nodeEntry_deps entry → depFresh (currentInput s) (nodeOf s) d;
  st_replays : ∃ run, queryRun (Session_graph s) key = Some run
    ∧ replays (sessHist HB s) (nodeEntry_deps entry) run (nodeValue entry)
    ∧ evals (Session_graph s) (currentInput s) run (nodeValue entry);
  st_changedAt : nodeEntry_changedAt entry ≠ Session_targetGeneration s →
    hist_query (sessHist HB s) key (nodeEntry_changedAt entry) = Some (nodeValue entry) }.

Lemma stage_unknown HB s key entry :
  sessionOk HB s → stageable HB s key entry →
  hist_query (sessHist HB s) key (Session_targetGeneration s) = None.
Proof.
  intros Hok Hst. cbn. rewrite decide_True by done. destruct (nodeOf s key) as [p|] eqn:E; [|done].
  case_decide as Ht; [|done]. destruct (so_touched _ _ Hok key p E) as [_ Hc]; [by left|].
  rewrite (st_previous _ _ _ _ Hst p E) in Hc. done.
Qed.

Section stage.
Context (HB : History) (s : Session) (key : QueryKey) (entry : nodeEntry).
Context (reverse : gmap dependencyKey (gset QueryKey)).
Context (Hok : sessionOk HB s) (Hst : stageable HB s key entry).
Context (Hrem : key ∉ Session_removedQueries s).

Let s' := set_stagedReverse reverse (set_nodeChanges (<[key := entry]> (Session_nodeChanges s)) s).

Lemma stage_fresh d :
  depFresh (currentInput s) (nodeOf s) d → depFresh (currentInput s') (nodeOf s') d.
Proof using Hst Hrem.
  unfold depFresh. destruct (dependency_key d) as [k|k]; [done|].
  intros (e & He & Hc & Hat). unfold s'. rewrite nodeOf_stage by done. case_decide as Hk; [|by exists e].
  subst k. rewrite (st_previous _ _ _ _ Hst e He) in Hc. done.
Qed.

Lemma stage_hist_query q n x :
  hist_query (sessHist HB s) q n = Some x → hist_query (sessHist HB s') q n = Some x.
Proof using Hok Hst Hrem.
  intros Hx. destruct (decide (q = key ∧ n = Session_targetGeneration s)) as [[-> ->]|Hne].
  { rewrite (stage_unknown HB s key entry Hok Hst) in Hx. done. }
  revert Hx. unfold sessHist. cbn [hist_query]. unfold s'.
  change (Session_targetGeneration (set_stagedReverse _ _)) with (Session_targetGeneration s).
  rewrite nodeOf_stage by done. case_decide as Hn; [|done]. case_decide; [|done]. naive_solver.
Qed.

Lemma stage_view : viewOk (Session_graph s') (sessHist HB s') (currentInput s') (nodeOf s').
Proof using Hok Hst Hrem.
  destruct (so_view _ _ Hok) as [Hvi Hvq Hvr Hvf Hvv].
  destruct (st_replays _ _ _ _ Hst) as (run & Hrun & Hrep & Hev).
  assert (∀ d r v, replays (sessHist HB s) d r v → replays (sessHist HB s') d r v) as Hmono.
  { intros d r v. apply replays_hist; [done|]. intros. by apply stage_hist_query. }
  constructor.
  - exact Hvi.
  - intros q e. unfold s'. rewrite nodeOf_stage by done. case_decide as Hq.
    + intros [= <-]. subst q. destruct (decide (nodeEntry_changedAt entry = Session_targetGeneration s)) as [Ht|Ht].
      * unfold sessHist. cbn [hist_query].
        change (Session_targetGeneration (set_stagedReverse _ _)) with (Session_targetGeneration s).
        rewrite nodeOf_stage by done. by rewrite !decide_True.
      * apply stage_hist_query. by apply (st_changedAt _ _ _ _ Hst).
    + intros He. by apply stage_hist_query, Hvq.
  - intros q e. unfold s'. rewrite nodeOf_stage by done. case_decide as Hq.
    + intros [= <-]. subst q. exists run. split; [done|]. by apply Hmono.
    + intros He. destruct (Hvr q e He) as (r & Hr & Hp). exists r. split; [done|]. by apply Hmono.
  - intros q e d. unfold s'. rewrite nodeOf_stage by done. case_decide as Hq.
    + intros [= <-] _ Hd. apply stage_fresh. by apply (st_fresh _ _ _ _ Hst).
    + intros He Hc Hd. apply stage_fresh. by eapply Hvf.
  - intros q e. unfold s'. rewrite nodeOf_stage by done. case_decide as Hq.
    + intros [= <-] _. subst q. by exists run.
    + apply Hvv.
Qed.

Lemma stage_sessionOk : stagedOk s' → sessionOk HB s'.
Proof using Hok Hst Hrem.
  intros Hso. pose proof stage_view as Hview. destruct Hok as [_ Hbi Hni Htou Hba _ Hti].
  constructor; [exact Hview|exact Hbi|exact Hni| |destruct Hba; by constructor|exact Hso|].
  - intros q e. unfold s'. rewrite nodeOf_stage by done. case_decide as Hq.
    + intros [= <-] _. subst q. split; [apply (st_queried _ _ _ _ Hst)|apply (st_clean _ _ _ _ Hst)].
    + apply Htou.
  - intros q e. unfold s'. cbn. destruct (decide (q = key)) as [->|Hq]; [done|].
    rewrite lookup_insert_ne by done. apply Hti.
Qed.

Lemma stage_extends X : key ∉ X → extends X s s'.
Proof using Hok Hst Hrem.
  intros HX. unfold s'. constructor; [done| | |done].
  - intros q e He Hc. rewrite nodeOf_stage by done. case_decide as Hq; [|done]. subst q.
    rewrite (st_previous _ _ _ _ Hst e He) in Hc. done.
  - intros q Hq. rewrite nodeOf_stage by done. rewrite decide_False by set_solver. done.
Qed.
End stage.

Lemma stageNodeChange_grows key entry s s' u :
  stageNodeChange key entry s = (s', inr u) → grows s s'.
Proof.
  unfold stageNodeChange, unstageNodeChange. cbv [mbind SM_bind get modify mret SM_ret].
  destruct (Session_nodeChanges s !! key) as [old|] eqn:E.
  - destruct (Session_replacement s) eqn:Hr.
    + cbn. rewrite Hr. intros [= <- _]. constructor; cbn; try done. rewrite insert_delete_eq, dom_insert_L. set_solver.
    + destruct (deleteStagedEdges key (nodeEntry_deps old) s) as [s1 [err|[]]] eqn:Ed; [done|].
      apply deleteStagedEdges_spec in Ed as (rev & -> & _). cbn. rewrite Hr. intros Ha.
      apply addStagedEdges_spec in Ha as (rev' & -> & _). constructor; cbn; try done.
      rewrite insert_delete_eq, dom_insert_L. set_solver.
  - cbn. destruct (Session_replacement s) eqn:Hr.
    + intros [= <- _]. constructor; cbn; try done. rewrite dom_insert_L. set_solver.
    + intros Ha. apply addStagedEdges_spec in Ha as (rev' & -> & _). constructor; cbn; try done.
      rewrite dom_insert_L. set_solver.
Qed.

Lemma stageNodeChange_ok HB X key entry s s' u :
  stageNodeChange key entry s = (s', inr u) →
  sessionOk HB s → stageable HB s key entry → key ∉ Session_removedQueries s → key ∉ X →
  sessionOk HB s' ∧ extends X s s' ∧ nodeOf s' key = Some entry.
Proof.
  intros Hs Hok Hst Hrem HX.
  destruct (stageNodeChange_spec _ _ _ _ _ (so_staged _ _ Hok) Hs) as (rev & -> & Hso).
  split; [by apply stage_sessionOk|]. split; [by eapply stage_extends|].
  rewrite nodeOf_stage by done. by rewrite decide_True.
Qed.
