(* ===== verification/IncEvalSound.v ===== *)
(** * The incremental graph: the evaluator keeps the session's invariant

    By induction on the fuel: an evaluation that succeeds leaves a session whose
    invariant holds, keeps every clean entry and every entry on the stack, and
    returns the clean entry it leaves for the query. *)

From stdpp Require Import base gmap strings sorting sets list list_numbers.
From S2P Require Import Prelude GoStd IncGraph IncSession IncEval IncIndex IncReference IncSound.

Open Scope N_scope.

(** ** Steps the invariant does not see *)

Record sameCore (s s' : Session) : Prop := {
  sc_core : core s' = core s;
  sc_queried : Session_queried s ⊆ Session_queried s';
  sc_active : Session_active s' = Session_active s }.

Lemma sameCore_grows s s' : sameCore s s' → grows s s'.
Proof. intros [[= ] _ Ha]. constructor; congruence. Qed.

Lemma sameCore_ok HB X s s' :
  sameCore s s' → sessionOk HB s → sessionOk HB s' ∧ extends X s s'.
Proof.
  intros [Hc Hq _] Hok. split; [by eapply sessionOk_core|by apply extends_core].
Qed.

Lemma sameCore_refl s : sameCore s s.
Proof. by constructor. Qed.

Lemma sameCore_nodeOf s s' : sameCore s s' → nodeOf s' = nodeOf s.
Proof. intros Hsc. apply core_nodeOf, Hsc. Qed.

Lemma ctxErr_inr s s' u : ctxErr s = (s', inr u) → sameCore s s'.
Proof. unfold ctxErr. repeat case_match; intros [= <- _]; by constructor. Qed.

Lemma ready_inr s s' u : ready s = (s', inr u) → s' = s.
Proof. unfold ready. repeat case_match; by intros [= <-]. Qed.

Lemma orFail_inr {A} (m : SM A) s s' x : orFail m s = (s', inr x) → m s = (s', inr x).
Proof. unfold orFail, fail. destruct (m s) as [s1 [err|y]]; [by case_match|done]. Qed.

Lemma bind_inr {A B} (m : SM A) (k : A → SM B) s s' y :
  (m ≫= k) s = (s', inr y) → ∃ s1 x, m s = (s1, inr x) ∧ k x s1 = (s', inr y).
Proof. cbv [mbind SM_bind]. destruct (m s) as [s1 [err|x]]; [done|]. by exists s1, x. Qed.

Lemma readyContext_inr s s' u : readyContext s = (s', inr u) → sameCore s s'.
Proof.
  intros Hr. apply bind_inr in Hr as (s1 & [] & H1 & H2). apply ready_inr in H1 as ->.
  by apply orFail_inr, ctxErr_inr in H2.
Qed.

(** ** Reading an input *)

(** A resolved input is new to the session and changed at its generation. *)
Definition resolvedSession (s : Session) (key : InputKey) (entry : inputEntry) (revision : InputRevision)
    : Session :=
  set_observations (<[key := revision]> (Session_observations s))
    (set_inputChanges (<[key := entry]> (Session_inputChanges s)) s).

Lemma loadInput_inr key s s' entry :
  loadInput key s = (s', inr entry) →
  (currentInput s key = Some entry ∧ s' = s)
  ∨ (currentInput s key = None ∧ inputEntry_changedAt entry = Session_targetGeneration s
     ∧ ∃ revision, s' = resolvedSession s key entry revision).
Proof.
  unfold loadInput, resolveInput. cbv [mbind SM_bind get].
  destruct (currentInput s key) as [e|] eqn:Ec; [intros [= <- <-]; by left|].
  destruct (Session_resolver s) as [resolver|]; [|done]. cbv [lift throw modify].
  destruct (resolver key) as [|input]; [done|]. case_match; [done|].
  unfold check. destruct (validateInputBatch [input]); [done|]. cbv [mret SM_ret].
  intros [= <- <-]. right. split_and!; [done..|]. by eexists.
Qed.

Lemma currentInput_resolved s key entry revision k :
  currentInput (resolvedSession s key entry revision) k =
  if decide (k = key) then Some entry else currentInput s k.
Proof.
  unfold currentInput. cbn. case_decide as Hk.
  - subst k. by rewrite lookup_insert_eq.
  - by rewrite lookup_insert_ne.
Qed.

Lemma resolved_extends X s key entry revision :
  currentInput s key = None → extends X s (resolvedSession s key entry revision).
Proof.
  intros Hnone. constructor; [|done..]. intros k e He. rewrite currentInput_resolved.
  case_decide; [congruence|done].
Qed.

Lemma resolved_grows s key entry revision : grows s (resolvedSession s key entry revision).
Proof. by constructor. Qed.

Lemma baseInput_None s key : currentInput s key = None → baseInput s key = None.
Proof. unfold currentInput, baseInput. by destruct (_ !! key), (Session_cold s). Qed.

Lemma resolved_ok HB s key entry revision :
  sessionOk HB s → currentInput s key = None →
  inputEntry_changedAt entry = Session_targetGeneration s →
  sessionOk HB (resolvedSession s key entry revision).
Proof.
  intros Hok Hnone Hat. pose proof (resolved_extends ∅ s key entry revision Hnone) as Hex.
  pose proof (resolved_grows s key entry revision) as Hgr.
  destruct (so_view _ _ Hok) as [Hvi Hvq Hvr Hvf Hvv].
  destruct (extends_hist HB _ _ _ Hok Hex Hgr) as [Hhi Hhq]. constructor.
  - constructor.
    + intros k e. rewrite currentInput_resolved. case_decide as Hk.
      * intros [= <-]. subst k. unfold sessHist. cbn [hist_input]. rewrite Hat.
        change (Session_targetGeneration (resolvedSession _ _ _ _)) with (Session_targetGeneration s).
        rewrite currentInput_resolved. by rewrite !decide_True.
      * intros He. by apply Hhi, Hvi.
    + intros q e He. by apply Hhq, Hvq.
    + intros q e He. destruct (Hvr q e He) as (run & Hr & Hp). exists run. split; [done|].
      by eapply extends_replays.
    + intros q e d He Hc Hd. eapply extends_fresh; [exact Hex|]. by eapply Hvf.
    + intros q e He Hc. destruct (Hvv q e He Hc) as (run & Hr & Hp). exists run. split; [done|].
      by eapply (extends_evals _ s).
  - exact (so_base_input _ _ Hok).
  - intros k e. cbn. destruct (decide (k = key)) as [->|Hk].
    + rewrite lookup_insert_eq. by intros [= <-].
    + rewrite lookup_insert_ne by done. apply (so_new_input _ _ Hok).
  - exact (so_touched _ _ Hok).
  - destruct (so_base _ _ Hok). by constructor.
  - exact (so_staged _ _ Hok).
  - exact (so_tidy _ _ Hok).
Qed.

Lemma loadInput_spec HB X key s s' entry :
  loadInput key s = (s', inr entry) →
  grows s s' ∧ (sessionOk HB s → sessionOk HB s' ∧ extends X s s' ∧ currentInput s' key = Some entry).
Proof.
  intros Hl. destruct (loadInput_inr _ _ _ _ Hl) as [[Hc ->]|(Hc & Hat & rev & ->)].
  - split; [apply grows_refl|]. intros Hok. split_and!; [done|apply extends_refl|done].
  - split; [apply resolved_grows|]. intros Hok. split_and!.
    + by apply resolved_ok.
    + by apply resolved_extends.
    + rewrite currentInput_resolved. by rewrite decide_True.
Qed.

(** ** Running a query *)

Section run.
Context (HB : History) (X : gset QueryKey) (evaluate : QueryKey → SM nodeEntry).

(** What a successful evaluation of a read query gives. *)
Definition evaluatorSpec : Prop :=
  ∀ key s s' entry, evaluate key s = (s', inr entry) → obliviousGraph (Session_graph s) →
  grows s s' ∧
  (dom (Session_active s) = X → sessionOk HB s → tidy s' →
   sessionOk HB s' ∧ extends X s s' ∧ nodeOf s' key = Some entry ∧ nodeEntry_dirty entry = false).

Context (Heval : evaluatorSpec).

(** The dependencies of a frame are fresh in the session. *)
Definition frameFresh (s : Session) (f : dependencyFrame) : Prop :=
  ∀ d, d ∈ frameDeps f → depFresh (currentInput s) (nodeOf s) d.

Lemma frameFresh_extends s s' f : extends X s s' → frameFresh s f → frameFresh s' f.
Proof using. intros Hex Hf d Hd. eapply extends_fresh; [done|]. by apply Hf. Qed.

(** A call on an input loads its entry and records it in the frame. *)
Record recordsInput (key : InputKey) (entry : inputEntry) (f f' : dependencyFrame) (s s' : Session) : Prop := {
  ri_load : loadInput key s = (s', inr entry);
  ri_add : addInput key entry f = inr f' }.

Lemma recordsInput_spec key entry f f' s s' :
  recordsInput key entry f f' s s' → frameOk f →
  grows s s' ∧ frameOk f' ∧ (∀ d, d ∈ frameDeps f → d ∈ frameDeps f') ∧
  (sessionOk HB s → frameFresh s f →
   sessionOk HB s' ∧ extends X s s' ∧ frameFresh s' f' ∧ currentInput s' key = Some entry
   ∧ inputDependencyOf key entry ∈ frameDeps f').
Proof using.
  intros [Hl Ha] Hf. apply addInput_inr in Ha as (Hf2 & Hd & _); [|done].
  destruct (loadInput_spec HB X _ _ _ _ Hl) as [Hgr Hok]. split_and!; [done..| |].
  - intros d ?. apply Hd. by left.
  - intros Hs Hfr. destruct (Hok Hs) as (Hs1 & Hex & Hc). split_and!; [done..| |done|apply Hd; by right].
    intros d Hin. apply Hd in Hin as [Hin | ->]; [eapply extends_fresh; [done|by apply Hfr]|].
    by exists entry.
Qed.

Lemma addInput_tail {A} key entry f f' (x y : A) s s' :
  (f ← lift (addInput key entry f); mret (f, x)) s = (s', inr (f', y)) →
  s' = s ∧ addInput key entry f = inr f' ∧ y = x.
Proof using.
  intros He. apply bind_inr in He as (s1 & f1 & Ha & He). cbv [lift] in Ha. injection Ha as <- Ha.
  cbv [mret SM_ret] in He. by injection He as <- <- <-.
Qed.

Lemma ExactInput_inr key f s s' f' input :
  ExactInput key f s = (s', inr (f', input)) →
  ∃ entry, recordsInput key entry f f' s s' ∧ input = entryInput key entry.
Proof using.
  intros He. apply bind_inr in He as (s1 & entry & Hl & He).
  apply addInput_tail in He as (-> & Ha & ->). by exists entry.
Qed.

Lemma ObserveExactInput_inr expected f s s' f' u :
  ObserveExactInput expected f s = (s', inr (f', u)) →
  ∃ entry, recordsInput (InputRevision_Key expected) entry f f' s s'
    ∧ inputEntry_found entry = InputRevision_Found expected.
Proof using.
  unfold ObserveExactInput. destruct (_ || _); [done|]. intros He.
  apply bind_inr in He as (s1 & entry & Hl & He). destruct (negb _) eqn:Hc; [done|].
  apply addInput_tail in He as (-> & Ha & _). exists entry. split; [done|].
  apply negb_false_iff, bool_decide_eq_true in Hc. by destruct Hc.
Qed.

Lemma ObserveExactInputValue_inr expected f s s' f' u :
  ObserveExactInputValue expected f s = (s', inr (f', u)) →
  ∃ entry, recordsInput (Input_Key expected) entry f f' s s' ∧ sameInputValue entry expected = true.
Proof using.
  unfold ObserveExactInputValue. intros He. apply bind_inr in He as (s0 & [] & Hc0 & He).
  assert (s0 = s) as ->. { unfold check in Hc0. case_match; [done|]. by injection Hc0. }
  apply bind_inr in He as (s1 & entry & Hl & He). destruct (negb _) eqn:Hc; [done|].
  apply addInput_tail in He as (-> & Ha & _). exists entry. split; [done|].
  by apply negb_false_iff, andb_true_iff in Hc as [_ Hc].
Qed.

Lemma ValueBytes_inr r v : ValueBytes r = inr v → v = ExactValueRoot_value r.
Proof using. unfold ValueBytes. case_match; congruence. Qed.

Lemma ReaderQuery_spec key f s s' f' answer :
  ReaderQuery evaluate key f s = (s', inr (f', answer)) → obliviousGraph (Session_graph s) → frameOk f →
  grows s s' ∧ frameOk f' ∧ (∀ d, d ∈ frameDeps f → d ∈ frameDeps f') ∧
  (dom (Session_active s) = X → sessionOk HB s → tidy s' →
   frameFresh s f →
   sessionOk HB s' ∧ extends X s s' ∧ frameFresh s' f' ∧
   ∃ entry, nodeOf s' key = Some entry ∧ nodeEntry_dirty entry = false ∧ answer = nodeValue entry
     ∧ queryDependencyOf key entry ∈ frameDeps f').
Proof using Heval.
  intros He Hob Hf. apply bind_inr in He as (s1 & entry & Hl & He).
  apply bind_inr in He as (s2 & f2 & Ha & He). cbv [lift] in Ha. injection Ha as <- Ha.
  apply bind_inr in He as (s2 & v & Hv & He). cbv [lift] in Hv. injection Hv as <- Hv.
  cbv [mret SM_ret] in He. injection He as <- <- <-. apply ValueBytes_inr in Hv as ->.
  apply addQuery_inr in Ha as (Hf2 & Hd & _); [|done].
  destruct (Heval _ _ _ _ Hl Hob) as [Hgr Hok]. split_and!; [done..| |].
  - intros d ?. apply Hd. by left.
  - intros HX Hs Ht Hfr. destruct (Hok HX Hs Ht) as (Hs1 & Hex & Hn & Hc). split_and!; [done..| |].
    + intros d Hin. apply Hd in Hin as [Hin | ->]; [eapply extends_fresh; [done|by apply Hfr]|].
      by exists entry.
    + exists entry. split_and!; [done..|]. apply Hd. by right.
Qed.

(** A reader that ends without an error had none, and every call succeeded. *)
Lemma readerCall_ok {A} (m : dependencyFrame → SM (dependencyFrame * A)) r s s' r' answer :
  readerCall m r s = (s', r', answer) → reader_err r' = None →
  reader_err r = None ∧ ∃ x, m (reader_frame r) s = (s', inr (reader_frame r', x)) ∧ answer = inr x.
Proof using.
  unfold readerCall. destruct (reader_err r) as [err|] eqn:Er; [intros [= <- <- <-]; congruence|].
  destruct (m (reader_frame r) s) as [s1 [err|[f x]]] eqn:Em; intros [= <- <- <-]; [done|].
  intros _. split; [done|]. by exists x.
Qed.

Lemma readerCall_err {A} (m : dependencyFrame → SM (dependencyFrame * A)) r s :
  reader_err r ≠ None → reader_err (readerCall m r s).1.2 ≠ None.
Proof using. intros Hr. unfold readerCall. by destruct (reader_err r) eqn:E; [rewrite <-E in Hr; cbn; congruence|]. Qed.

Lemma callQuery_err run r s :
  reader_err r ≠ None → reader_err (callQuery evaluate run r s).1.2 ≠ None.
Proof using.
  revert r s. induction run; intros r s Hr; cbn [callQuery]; try done.
  all: match goal with |- context [readerCall ?m ?r0 ?s0] =>
      pose proof (readerCall_err m r0 s0 Hr) as Hr1; destruct (readerCall m r0 s0) as [[s1 r1] answer];
      cbn [fst snd] in Hr1
    end.
  all: match goal with IH : ∀ x r s, _ |- _ => by apply IH end.
Qed.

(** What a run of a query that succeeds gives. *)
Definition runSpec (run : QueryProg) (v : string) (s s' : Session) (f f' : dependencyFrame) : Prop :=
  grows s s' ∧ frameOk f' ∧ (∀ d, d ∈ frameDeps f → d ∈ frameDeps f') ∧
  (dom (Session_active s) = X → sessionOk HB s → tidy s' → frameFresh s f →
   sessionOk HB s' ∧ extends X s s' ∧ frameFresh s' f'
   ∧ evals (Session_graph s) (currentInput s') run v
   ∧ replays (sessHist HB s') (frameDeps f') run v).

(** A run that begins with a call on an input, from what the rest gives. *)
Lemma runSpec_input run next key entry v s s1 s' f f1 f' :
  recordsInput key entry f f1 s s1 → frameOk f → runSpec next v s1 s' f1 f' →
  (∀ inp, inp key = Some entry → evals (Session_graph s) inp next v → evals (Session_graph s) inp run v) →
  (∀ H deps, inputDependencyOf key entry ∈ deps →
     hist_input H key (inputEntry_changedAt entry) = Some (inputEntry_found entry, inputEntry_value entry) →
     replays H deps next v → replays H deps run v) →
  runSpec run v s s' f f'.
Proof using.
  intros Hx Hf (Hg2 & Hf2 & Hd2 & Hok2) Hev0 Hrep0.
  destruct (recordsInput_spec _ _ _ _ _ _ Hx Hf) as (Hg1 & Hf1 & Hd1 & Hok1).
  split_and!; [by eapply grows_trans|done|auto|]. intros HX Hs Ht Hfr.
  destruct (Hok1 Hs Hfr) as (Hs1 & Hex1 & Hfr1 & Hce & Hdep).
  rewrite (gr_graph _ _ Hg1), (gr_active _ _ Hg1) in Hok2.
  destruct (Hok2 HX Hs1 Ht Hfr1) as (Hs2 & Hex2 & Hfr2 & Hev & Hrep).
  apply (ex_input _ _ _ Hex2) in Hce.
  split_and!; [done|by eapply extends_trans|done|by apply Hev0|].
  apply Hrep0; [by apply Hd2| |done]. by apply (vo_input _ _ _ _ (so_view _ _ Hs2)).
Qed.

Lemma runSpec_query key next answer v s s1 s' f f1 f' :
  ReaderQuery evaluate key f s = (s1, inr (f1, answer)) → obliviousGraph (Session_graph s) → frameOk f →
  runSpec (next (inr answer)) v s1 s' f1 f' → runSpec (ReadQuery key next) v s s' f f'.
Proof using Heval.
  intros Hx Hog Hf (Hg2 & Hf2 & Hd2 & Hok2).
  destruct (ReaderQuery_spec _ _ _ _ _ _ Hx Hog Hf) as (Hg1 & Hf1 & Hd1 & Hok1).
  split_and!; [by eapply grows_trans|done|auto|]. intros HX Hs Ht Hfr.
  destruct (Hok1 HX Hs (grows_tidy _ _ Hg2 Ht) Hfr) as (Hs1 & Hex1 & Hfr1 & entry & Hn & Hcl & -> & Hdep).
  rewrite (gr_graph _ _ Hg1), (gr_active _ _ Hg1) in Hok2.
  destruct (Hok2 HX Hs1 Ht Hfr1) as (Hs2 & Hex2 & Hfr2 & Hev & Hrep).
  apply (ex_clean _ _ _ Hex2) in Hn; [|done].
  pose proof (so_view _ _ Hs2) as Hview.
  rewrite (gr_graph _ _ Hg2), (gr_graph _ _ Hg1) in Hview.
  destruct (vo_value _ _ _ _ Hview _ _ Hn Hcl) as (sub & Hsub & Hevs).
  split_and!; [done|by eapply extends_trans|done|by eapply evals_query|].
  eapply (replays_query _ _ _ _ (queryDependencyOf key entry)); [by apply Hd2|done| |exact Hrep].
  by apply (vo_query _ _ _ _ Hview).
Qed.

(** A call of a run that ends without an error, and the run that follows. *)
Lemma callQuery_head {A} (m : dependencyFrame → SM (dependencyFrame * A)) (next : IncErr + A → QueryProg) r s s' r' v :
  (let '(s1, r1, answer) := readerCall m r s in callQuery evaluate (next answer) r1 s1) = (s', r', inr v) →
  reader_err r' = None →
  ∃ s1 r1 x, m (reader_frame r) s = (s1, inr (reader_frame r1, x))
    ∧ callQuery evaluate (next (inr x)) r1 s1 = (s', r', inr v).
Proof using.
  destruct (readerCall m r s) as [[s1 r1] answer] eqn:Er. intros Hc He.
  assert (reader_err r1 = None) as He1.
  { apply dec_stable. intros Hn. apply (callQuery_err (next answer) r1 s1) in Hn. by rewrite Hc in Hn. }
  destruct (readerCall_ok _ _ _ _ _ _ Er He1) as (_ & x & Hx & ->). by exists s1, r1, x.
Qed.

Lemma callQuery_spec run r s s' r' v :
  callQuery evaluate run r s = (s', r', inr v) → reader_err r' = None →
  obliviousGraph (Session_graph s) → frameOk (reader_frame r) →
  runSpec run v s s' (reader_frame r) (reader_frame r').
Proof using Heval.
  revert r s. induction run as [value|err|p|key next IH|ex next IH|ex next IH|key next IH];
    intros r s Hc He Hog Hf; cbn [callQuery] in Hc; try done.
  - injection Hc as <- <- <-. split_and!; [apply grows_refl|done..|]. intros _ Hs _ Hfr.
    split_and!; [done|apply extends_refl|done|constructor..].
  - apply callQuery_head in Hc as (s1 & r1 & x & Hx & Hc); [|done].
    apply ExactInput_inr in Hx as (entry & Hx & ->).
    destruct (recordsInput_spec _ _ _ _ _ _ Hx Hf) as (Hg1 & Hf1 & _). rewrite <-(gr_graph _ _ Hg1) in Hog.
    eapply runSpec_input; [exact Hx|done|by apply (IH _ _ _ Hc)|..].
    + intros inp Hi Hev. by eapply evals_input.
    + intros H deps Hd Hh Hrep. by eapply (replays_input _ _ _ _ (inputDependencyOf key entry)).
  - apply (callQuery_head _ (λ answer, next (errorOf answer))) in Hc as (s1 & r1 & x & Hx & Hc); [|done].
    apply ObserveExactInput_inr in Hx as (entry & Hx & Hfound).
    destruct (recordsInput_spec _ _ _ _ _ _ Hx Hf) as (Hg1 & Hf1 & _). rewrite <-(gr_graph _ _ Hg1) in Hog.
    eapply runSpec_input; [exact Hx|done|by apply (IH _ _ _ Hc)|..].
    + intros inp Hi Hev. by eapply evals_observe.
    + intros H deps Hd Hh Hrep. rewrite Hfound in Hh.
      by eapply (replays_observe _ _ (inputDependencyOf (InputRevision_Key ex) entry)).
  - apply (callQuery_head _ (λ answer, next (errorOf answer))) in Hc as (s1 & r1 & x & Hx & Hc); [|done].
    apply ObserveExactInputValue_inr in Hx as (entry & Hx & Hsame).
    destruct (recordsInput_spec _ _ _ _ _ _ Hx Hf) as (Hg1 & Hf1 & _). rewrite <-(gr_graph _ _ Hg1) in Hog.
    eapply runSpec_input; [exact Hx|done|by apply (IH _ _ _ Hc)|..].
    + intros inp Hi Hev. by eapply evals_observe_value.
    + intros H deps Hd Hh Hrep. apply bool_decide_eq_true in Hsame as [Hsf Hsv]. rewrite Hsf, Hsv in Hh.
      by eapply (replays_observe_value _ _ (inputDependencyOf (Input_Key ex) entry)).
  - apply callQuery_head in Hc as (s1 & r1 & x & Hx & Hc); [|done].
    eapply runSpec_query; [exact Hx|done|done|].
    destruct (ReaderQuery_spec _ _ _ _ _ _ Hx Hog Hf) as (Hg1 & Hf1 & _). rewrite <-(gr_graph _ _ Hg1) in Hog.
    by apply (IH _ _ _ Hc).
Qed.

(** ** Checking the dependencies of a dirty entry *)

Lemma verifyDependency_spec d obs s s' changed obs' :
  verifyDependency evaluate d obs s = (s', inr (changed, obs')) → obliviousGraph (Session_graph s) →
  grows s s' ∧
  (dom (Session_active s) = X → sessionOk HB s → tidy s' →
   sessionOk HB s' ∧ extends X s s' ∧
   (changed = false → depFresh (currentInput s') (nodeOf s') d)).
Proof using Heval.
  unfold verifyDependency. unfold depFresh. destruct (dependency_key d) as [key|key] eqn:Ed.
  - cbv [mbind SM_bind get]. destruct (currentInput s key) as [entry|] eqn:Ec; [|done].
    cbv [mret SM_ret]. intros [= <- <- <-] _. split; [apply grows_refl|]. intros _ Hs _.
    split_and!; [done|apply extends_refl|]. intros Hch. apply negb_false_iff, bool_decide_eq_true in Hch.
    by exists entry.
  - intros He Hob. apply bind_inr in He as (s1 & entry & Hl & He).
    apply bind_inr in He as (s2 & obs2 & Ha & He). cbv [lift] in Ha. injection Ha as <- _.
    cbv [mret SM_ret] in He. injection He as <- <- <-. destruct (Heval _ _ _ _ Hl Hob) as [Hgr Hok].
    split; [done|]. intros HX Hs Ht. destruct (Hok HX Hs Ht) as (Hs1 & Hex & Hn & Hc).
    split_and!; [done..|]. intros Hch. apply negb_false_iff, bool_decide_eq_true in Hch. by exists entry.
Qed.

Lemma verifyFrom_spec deps obs s s' result :
  verifyFrom evaluate deps obs s = (s', inr result) → obliviousGraph (Session_graph s) →
  grows s s' ∧
  (dom (Session_active s) = X → sessionOk HB s → tidy s' →
   sessionOk HB s' ∧ extends X s s' ∧
   (is_Some result → ∀ d, d ∈ deps → depFresh (currentInput s') (nodeOf s') d)).
Proof using Heval.
  revert obs s. induction deps as [|d deps IH]; intros obs s; cbn [verifyFrom].
  - cbv [mret SM_ret]. intros [= <- <-] _. split; [apply grows_refl|]. intros _ Hs _.
    split_and!; [done|apply extends_refl|]. intros _ d Hd. by apply not_elem_of_nil in Hd.
  - intros He Hob. apply bind_inr in He as (s1 & [] & Hctx & He). apply ctxErr_inr in Hctx.
    apply bind_inr in He as (s2 & [changed obs'] & Hv & He).
    pose proof (sameCore_grows _ _ Hctx) as Hg1. rewrite <-(gr_graph _ _ Hg1) in Hob.
    destruct (verifyDependency_spec _ _ _ _ _ _ Hv Hob) as [Hg2 Hok2].
    rewrite (gr_active _ _ Hg1) in Hok2.
    destruct changed.
    + cbv [mret SM_ret] in He. injection He as <- <-. split; [by eapply grows_trans|].
      intros HX Hs Ht. destruct (sameCore_ok HB X _ _ Hctx Hs) as [Hs1 Hex1].
      destruct (Hok2 HX Hs1 Ht) as (Hs2 & Hex2 & _).
      split_and!; [done|by eapply extends_trans|]. by intros [? ?].
    + rewrite <-(gr_graph _ _ Hg2) in Hob. destruct (IH _ _ He Hob) as [Hg3 Hok3].
      rewrite (gr_active _ _ Hg2), (gr_active _ _ Hg1) in Hok3.
      split; [eapply grows_trans; [done|by eapply grows_trans]|].
      intros HX Hs Ht. destruct (sameCore_ok HB X _ _ Hctx Hs) as [Hs1 Hex1].
      destruct (Hok2 HX Hs1 (grows_tidy _ _ Hg3 Ht)) as (Hs2 & Hex2 & Hfresh).
      destruct (Hok3 HX Hs2 Ht) as (Hs3 & Hex3 & Hrest).
      split_and!; [done|eapply extends_trans; [done|by eapply extends_trans]|].
      intros Hres d' Hd'. apply elem_of_cons in Hd' as [->|Hd']; [|by apply Hrest].
      eapply extends_fresh; [exact Hex3|]. by apply Hfresh.
Qed.
End run.

(** ** One query on the stack *)

Section active.
Context (HB : History) (X : gset QueryKey) (evaluate : QueryKey → SM nodeEntry).
Context (key : QueryKey) (run : QueryProg) (HX : key ∉ X).
Context (Heval : evaluatorSpec HB ({[key]} ∪ X) evaluate).

(** The session evaluates [key], above the queries of [X]. *)
Record onStack (s : Session) : Prop := {
  on_active : dom (Session_active s) = {[key]} ∪ X;
  on_queried : key ∈ Session_queried s;
  on_run : queryRun (Session_graph s) key = Some run }.

(** What evaluating [key] must give. *)
Definition nodeSpec (s s' : Session) (entry : nodeEntry) : Prop :=
  sessionOk HB s' ∧ extends X s s' ∧ nodeOf s' key = Some entry ∧ nodeEntry_dirty entry = false.

Lemma onStack_later s s' :
  grows s s' → Session_queried s ⊆ Session_queried s' → onStack s → onStack s'.
Proof using.
  intros Hg Hq []. constructor; rewrite ?(gr_graph _ _ Hg), ?(gr_active _ _ Hg); auto.
Qed.

Lemma staged_key entry s s' u :
  stagedOk s → stageNodeChange key entry s = (s', inr u) → tidy s' →
  key ∉ Session_removedQueries s.
Proof using.
  intros Hst Hs Ht. destruct (stageNodeChange_spec _ _ _ _ _ Hst Hs) as (rev & -> & _).
  apply (Ht key entry). cbn. by rewrite lookup_insert_eq.
Qed.

(** The entry a run leaves is one that may be staged. *)
Definition executedEntry (s : Session) (f : dependencyFrame) (value : string)
    (previous : option nodeEntry) : nodeEntry :=
  let root := newExactValueRoot (Graph_valueAuthority (Session_graph s)) key value in
  match previous with
  | Some previous =>
      if sameExactValue (nodeEntry_value previous) root
      then mkNodeEntry (nodeEntry_value previous) (sortedDependencies f) (sortedInputs f)
             (nodeEntry_changedAt previous) false
      else mkNodeEntry root (sortedDependencies f) (sortedInputs f) (Session_targetGeneration s) false
  | None => mkNodeEntry root (sortedDependencies f) (sortedInputs f) (Session_targetGeneration s) false
  end.

Lemma executedEntry_value s f value previous : nodeValue (executedEntry s f value previous) = value.
Proof using.
  unfold executedEntry, nodeValue. destruct previous as [p|]; [|done].
  destruct (sameExactValue _ _) eqn:E; [|done]. by apply bool_decide_eq_true in E.
Qed.

Lemma executedEntry_deps s f value previous :
  nodeEntry_deps (executedEntry s f value previous) = sortedDependencies f
  ∧ nodeEntry_dirty (executedEntry s f value previous) = false.
Proof using. unfold executedEntry. destruct previous; [destruct (sameExactValue _ _)|]; done. Qed.

Lemma stageExecutedQuery_inr f value previous s s' entry :
  stageExecutedQuery key f value previous s = (s', inr entry) →
  entry = executedEntry s f value previous ∧
  ∃ s1 u, stageNodeChange key entry s = (s1, inr u) ∧ sameCore s1 s'.
Proof using.
  unfold stageExecutedQuery. cbv [mbind SM_bind get]. cbv zeta.
  set (e := match previous with Some _ => _ | None => _ end).
  assert (e = executedEntry s f value previous) as He.
  { unfold e, executedEntry. by destruct previous. }
  clearbody e. destruct (stageNodeChange key e s) as [s1 [err|u]] eqn:Es; [done|].
  cbv [modify mret SM_ret]. intros [= <- <-]. split; [done|]. exists s1, u. by split.
Qed.

Lemma executed_stageable s f value previous :
  onStack s → sessionOk HB s → nodeOf s key = previous →
  (∀ p, previous = Some p → nodeEntry_dirty p = true) →
  frameFresh s f → evals (Session_graph s) (currentInput s) run value →
  replays (sessHist HB s) (frameDeps f) run value →
  stageable HB s key (executedEntry s f value previous).
Proof using.
  intros Hon Hok Hprev Hdirty Hfr Hev Hrep. destruct (executedEntry_deps s f value previous) as [Hdeps Hcl].
  constructor.
  - intros p Hp. apply Hdirty. by rewrite <-Hprev.
  - apply Hon.
  - done.
  - rewrite Hdeps. intros d Hd. by apply Hfr, elem_of_sortedDependencies.
  - exists run. rewrite executedEntry_value, Hdeps. split_and!; [apply Hon| |done].
    eapply replays_deps; [|exact Hrep]. intros d Hd. by apply elem_of_sortedDependencies.
  - rewrite executedEntry_value. unfold executedEntry. destruct previous as [p|]; [|done].
    destruct (sameExactValue _ _) eqn:E; [|done]. cbn [nodeEntry_changedAt]. intros _.
    apply bool_decide_eq_true in E. cbn in E. rewrite <-E.
    by apply (vo_query _ _ _ _ (so_view _ _ Hok)).
Qed.

Lemma executeQuery_spec previous s s' entry :
  executeQuery evaluate key run previous s = (s', inr entry) → obliviousGraph (Session_graph s) →
  grows s s' ∧
  (onStack s → sessionOk HB s → tidy s' → nodeOf s key = previous →
   (∀ p, previous = Some p → nodeEntry_dirty p = true) → nodeSpec s s' entry).
Proof using HX Heval.
  unfold executeQuery. intros He Hog.
  destruct (callQuery evaluate run newQueryReader s) as [[s1 r1] outcome] eqn:Ec.
  destruct (reader_err r1) eqn:Er; [done|]. destruct outcome as [|value]; [done|].
  apply bind_inr in He as (s2 & [] & Hctx & He). apply ctxErr_inr in Hctx.
  apply stageExecutedQuery_inr in He as (-> & s3 & u & Hst & Hlast).
  destruct (callQuery_spec HB _ _ Heval _ _ _ _ _ _ Ec Er Hog frameOk_new) as (Hg1 & _ & _ & Hok1).
  pose proof (sameCore_grows _ _ Hctx) as Hg2. pose proof (stageNodeChange_grows _ _ _ _ _ Hst) as Hg3.
  pose proof (sameCore_grows _ _ Hlast) as Hg4.
  assert (grows s1 s') as Hg14 by (eapply grows_trans; [done|by eapply grows_trans]).
  split; [by eapply grows_trans|]. intros Hon Hs Ht Hprev Hdirty.
  destruct (Hok1 (on_active _ Hon) Hs (grows_tidy _ _ Hg14 Ht))
    as (Hs1 & Hex1 & Hfr1 & Hev & Hrep); [intros d Hd; by apply not_elem_of_nil in Hd|].
  destruct (sameCore_ok HB ({[key]} ∪ X) _ _ Hctx Hs1) as [Hs2 Hex2].
  assert (extends ({[key]} ∪ X) s s2) as Hex by (by eapply extends_trans).
  assert (grows s s2) as Hg12 by (by eapply grows_trans).
  assert (onStack s2) as Hon2 by (eapply onStack_later; [done|apply Hex|done]).
  assert (nodeOf s2 key = previous) as Hprev2 by (rewrite (ex_kept _ _ _ Hex key); [done|set_solver]).
  assert (stageable HB s2 key (executedEntry s2 (reader_frame r1) value previous)) as Hable.
  { apply executed_stageable; [done..|exact (frameFresh_extends _ _ _ _ Hex2 Hfr1)| |].
    - rewrite (gr_graph _ _ Hg12). eapply evals_mono; [apply (ex_input _ _ _ Hex2)|exact Hev].
    - exact (extends_replays HB _ _ _ _ _ _ Hs1 Hex2 Hg2 Hrep). }
  destruct (stageNodeChange_ok HB X _ _ _ _ _ Hst Hs2 Hable) as (Hs3 & Hex3 & Hn3); [|done|].
  { eapply (staged_key _ s2 s3); [apply Hs2|exact Hst|]. by eapply grows_tidy. }
  destruct (sameCore_ok HB X _ _ Hlast Hs3) as [Hs4 Hex4]. split_and!.
  - done.
  - eapply (extends_trans _ _ s2); [eapply extends_subset; [|exact Hex]; set_solver|].
    by eapply (extends_trans _ _ s3).
  - by rewrite (sameCore_nodeOf _ _ Hlast).
  - apply executedEntry_deps.
Qed.

Lemma backdated_stageable s previous obs :
  oblivious run → onStack s → sessionOk HB s → nodeOf s key = Some previous → nodeEntry_dirty previous = true →
  (∀ d, d ∈ nodeEntry_deps previous → depFresh (currentInput s) (nodeOf s) d) →
  stageable HB s key (mkNodeEntry (nodeEntry_value previous) (nodeEntry_deps previous) obs
                        (nodeEntry_changedAt previous) false).
Proof using.
  intros Hob Hon Hok Hprev Hdirty Hfr. pose proof (so_view _ _ Hok) as Hview. constructor; cbn.
  - intros p Hp. congruence.
  - apply Hon.
  - done.
  - done.
  - destruct (vo_replays _ _ _ _ Hview _ _ Hprev) as (r & Hr & Hrep). exists r. split_and!; [done..|].
    rewrite (on_run _ Hon) in Hr. simplify_eq.
    eapply fresh_evals; [exact Hview|exact Hob|exact Hfr|exact Hrep].
  - intros _. exact (vo_query _ _ _ _ Hview _ _ Hprev).
Qed.

Lemma backdateCleanNode_spec previous s s' result :
  backdateCleanNode evaluate key previous s = (s', inr result) →
  obliviousGraph (Session_graph s) → oblivious run →
  grows s s' ∧
  (onStack s → sessionOk HB s → tidy s' → nodeOf s key = Some previous → nodeEntry_dirty previous = true →
   match result with
   | Some entry => nodeSpec s s' entry
   | None => sessionOk HB s' ∧ extends ({[key]} ∪ X) s s'
   end).
Proof using HX Heval.
  unfold backdateCleanNode, verifyDependencies. intros He Hog Hob.
  apply bind_inr in He as (s1 & verified & Hv & He).
  destruct (verifyFrom_spec HB _ _ Heval _ _ _ _ _ Hv Hog) as [Hg1 Hok1].
  destruct verified as [obs|].
  2: { cbv [mret SM_ret] in He. injection He as <- <-. split; [done|]. intros Hon Hs Ht _ _.
       destruct (Hok1 (on_active _ Hon) Hs Ht) as (? & ? & _). done. }
  apply bind_inr in He as (s2 & u & Hst & He). cbv [mbind SM_bind modify mret SM_ret] in He.
  injection He as <- <-. pose proof (stageNodeChange_grows _ _ _ _ _ Hst) as Hg2.
  set (s3 := addCountersFor key _ s2). assert (sameCore s2 s3) as Hlast by done.
  pose proof (sameCore_grows _ _ Hlast) as Hg3.
  assert (grows s1 s3) as Hg13 by (by eapply grows_trans).
  split; [by eapply grows_trans|]. intros Hon Hs Ht Hprev Hdirty.
  destruct (Hok1 (on_active _ Hon) Hs (grows_tidy _ _ Hg13 Ht)) as (Hs1 & Hex1 & Hfr).
  assert (onStack s1) as Hon1 by (eapply onStack_later; [done|apply Hex1|done]).
  assert (nodeOf s1 key = Some previous) as Hprev1 by (rewrite (ex_kept _ _ _ Hex1 key); [done|set_solver]).
  pose proof (backdated_stageable s1 previous obs Hob Hon1 Hs1 Hprev1 Hdirty (Hfr ltac:(by eexists))) as Hable.
  destruct (stageNodeChange_ok HB X _ _ _ _ _ Hst Hs1 Hable) as (Hs2 & Hex2 & Hn2); [|done|].
  { eapply (staged_key _ s1 s2); [apply Hs1|exact Hst|]. by eapply grows_tidy. }
  destruct (sameCore_ok HB X _ _ Hlast Hs2) as [Hs3 Hex3]. split_and!.
  - done.
  - eapply (extends_trans _ _ s1); [eapply extends_subset; [|exact Hex1]; set_solver|].
    by eapply (extends_trans _ _ s2).
  - by rewrite (sameCore_nodeOf _ _ Hlast).
  - done.
Qed.

Lemma evaluateActive_spec s s' entry :
  evaluateActive evaluate key run s = (s', inr entry) → obliviousGraph (Session_graph s) → oblivious run →
  grows s s' ∧ (onStack s → sessionOk HB s → tidy s' → nodeSpec s s' entry).
Proof using HX Heval.
  unfold evaluateActive. intros He Hog Hob. apply bind_inr in He as (s0 & s0' & Hget & He).
  cbv [get] in Hget. injection Hget as <- <-.
  apply bind_inr in He as (s0 & current & Hcur & He). cbv [lift] in Hcur. injection Hcur as <- Hcur.
  apply currentNode_inr in Hcur. destruct current as [previous|].
  2: { destruct (executeQuery_spec _ _ _ _ He Hog) as [Hg Hok]. split; [done|]. intros. by apply Hok. }
  destruct (nodeEntry_dirty previous) eqn:Hd; cbn [negb] in He.
  2: { cbv [mbind SM_bind modify mret SM_ret] in He. injection He as <- <-.
       set (s3 := addCountersFor key _ s). assert (sameCore s s3) as Hlast by done.
       split; [by apply sameCore_grows|]. intros _ Hs _.
       destruct (sameCore_ok HB X _ _ Hlast Hs) as [Hs3 Hex3]. by split_and!. }
  apply bind_inr in He as (s1 & backdated & Hb & He).
  destruct (backdateCleanNode_spec _ _ _ _ Hb Hog Hob) as [Hg1 Hok1]. destruct backdated as [e|].
  - cbv [mret SM_ret] in He. injection He as <- <-. split; [done|]. intros Hon Hs Ht. by apply Hok1.
  - rewrite <-(gr_graph _ _ Hg1) in Hog.
    destruct (executeQuery_spec _ _ _ _ He Hog) as [Hg2 Hok2]. split; [by eapply grows_trans|].
    intros Hon Hs Ht. destruct (Hok1 Hon Hs (grows_tidy _ _ Hg2 Ht) Hcur Hd) as [Hs1 Hex1].
    destruct Hok2 as (Hs2 & Hex2 & Hn & Hc).
    + eapply onStack_later; [done|apply Hex1|done].
    + done.
    + done.
    + rewrite (ex_kept _ _ _ Hex1 key); [done|set_solver].
    + congruence.
    + split_and!; [done| |done..]. eapply extends_trans; [|exact Hex2].
      eapply extends_subset; [|exact Hex1]. set_solver.
Qed.
End active.

(** ** The recursion *)

Lemma queryRun_definition g key run :
  definition g key = inr (Some (Some run)) → negb (validQueryKey key) = false →
  queryRun g key = Some run.
Proof. intros Hd Hv. unfold queryRun. rewrite Hd. by apply negb_false_iff in Hv as ->. Qed.

Lemma evaluateNode_spec HB fuel key s s' entry :
  evaluateNode fuel key s = (s', inr entry) →
  obliviousGraph (Session_graph s) →
  grows s s' ∧
  (sessionOk HB s → tidy s' →
   sessionOk HB s' ∧ extends (dom (Session_active s)) s s'
   ∧ nodeOf s' key = Some entry ∧ nodeEntry_dirty entry = false).
Proof.
  revert key s s' entry. induction fuel as [|fuel IH]; intros key s s' entry He Hob; [done|].
  rewrite evaluateNode_step in He.
  destruct (readyContext s) as [s1 [err|u]] eqn:Er; [done|]. apply readyContext_inr in Er.
  pose proof (sameCore_grows _ _ Er) as Hg1. rewrite <-(gr_graph _ _ Hg1) in Hob.
  destruct (definition (Session_graph s1) key) as [err|[run|]] eqn:Hdef; [done| |done].
  destruct (negb (validQueryKey key)) eqn:Hv; [done|]. destruct run as [run|]; [|done].
  destruct (Session_active s1 !! key) eqn:Hact; [done|]. unfold finally in He.
  pose proof (queryRun_definition _ _ _ Hdef Hv) as Hrun.
  set (s2 := enterQuery key (markQueried key s1)) in *.
  destruct (evaluateActive (evaluateNode fuel) key run s2) as [s3 result] eqn:Ea.
  injection He as <- ->.
  assert (key ∉ dom (Session_active s1)) as Hnot by (by apply not_elem_of_dom).
  assert (evaluatorSpec HB ({[key]} ∪ dom (Session_active s1)) (evaluateNode fuel)) as Hev.
  { intros k t t' e Ht Hot. destruct (IH k t t' e Ht Hot) as [Hg Hok]. split; [done|].
    intros <-. apply Hok. }
  destruct (evaluateActive_spec HB _ _ _ _ Hnot Hev _ _ _ Ea Hob (Hob _ _ Hrun)) as [Hg3 Hok3].
  assert (grows s1 (leaveQuery key s3)) as Hg13.
  { pose proof (gr_active _ _ Hg3) as Ha. destruct Hg3. constructor; cbn; try done.
    rewrite Ha. cbn. by rewrite delete_insert_id. }
  assert (sameCore s1 (markQueried key s1)) as Hm1 by (constructor; [done|cbn; set_solver|done]).
  split; [by eapply grows_trans|]. intros Hs Ht.
  destruct (sameCore_ok HB (dom (Session_active s)) _ _ Er Hs) as [Hs1 Hex1].
  destruct (sameCore_ok HB (dom (Session_active s)) _ _ Hm1 Hs1) as [Hsm Hexm].
  assert (sessionOk HB s2) as Hs2 by (by eapply (sessionOk_core HB (markQueried key s1))).
  destruct Hok3 as (Hs3 & Hex3 & Hn & Hc); [|done|done|].
  { constructor; cbn; [by rewrite dom_insert_L|set_solver|done]. }
  rewrite (gr_active _ _ Hg1) in Hex3. split_and!; [| |done..].
  - by eapply (sessionOk_core HB s3).
  - eapply extends_trans; [exact Hex1|]. eapply extends_trans; [exact Hexm|].
    eapply (extends_trans _ _ s2); [by apply extends_core|].
    eapply extends_trans; [exact Hex3|by apply extends_core].
Qed.
