(* ===== verification/IncApply.v ===== *)
(** * The incremental graph: inputs change, queries leave

    Applying a batch of inputs marks dirty every entry that depends on a changed
    input, directly or through other queries, and refuses the batch when one of
    them was evaluated in the session; evicting a query evicts what depends on
    it. Both keep the session's invariant. *)

From stdpp Require Import base gmap strings sorting sets list list_numbers.
From S2P Require Import Prelude GoStd IncGraph IncSession IncEval IncIndex IncReference IncSound IncEvalSound.

Open Scope N_scope.

(** ** The closure of an invalidation *)

Lemma invalidateQuery_inr s key invalidated :
  invalidateQuery s key = inr invalidated →
  (key ∉ Session_queried s) ∧
  invalidated = match nodeOf s key with
                | Some entry => if nodeEntry_dirty entry then None else Some (setDirty true entry)
                | None => None
                end.
Proof.
  unfold invalidateQuery. case_bool_decide as Hq; [done|].
  destruct (currentNode s key) as [|current] eqn:Ec; [done|]. apply currentNode_inr in Ec as ->.
  intros Hi. split; [done|]. destruct current as [e|]; [|congruence]. destruct (nodeEntry_dirty e); congruence.
Qed.

(** [V] is closed: whatever depends on one of its queries is in it. *)
Definition closedUnder (s : Session) (V : gset QueryKey) (q : QueryKey) : Prop :=
  ∀ p entry, nodeOf s p = Some entry → hasEdge entry (queryDep q) → p ∈ V.

Record invalidated (s : Session) (queue : queryKeyQueue) (visited V : gset QueryKey)
    (D D' : gmap QueryKey nodeEntry) : Prop := {
  iv_visited : visited ⊆ V;
  iv_queue : ∀ q, q ∈ queue_values queue → q ∈ V;
  iv_new : ∀ q, q ∈ V → q ∉ visited → (q ∉ Session_queried s) ∧ closedUnder s V q;
  iv_dirty : ∀ q e, D' !! q = Some e ↔
    D !! q = Some e
    ∨ (q ∈ V ∧ (q ∉ visited) ∧ ∃ n, nodeOf s q = Some n ∧ nodeEntry_dirty n = false ∧ e = setDirty true n) }.

Lemma invalidated_done s queue visited D :
  queuePop queue = None → invalidated s queue visited visited D D.
Proof.
  intros Ep. apply queuePop_None in Ep. constructor; [done| |done|naive_solver].
  rewrite Ep. intros q Hin. by apply not_elem_of_nil in Hin.
Qed.

(** The entry the loop records for a query. *)
Lemma invalidated_entry s key (D : gmap QueryKey nodeEntry) q e :
  D !! key = None →
  match match nodeOf s key with
        | Some entry => if nodeEntry_dirty entry then None else Some (setDirty true entry)
        | None => None
        end with
  | Some entry => <[key := entry]> D
  | None => D
  end !! q = Some e ↔
  D !! q = Some e
  ∨ (q = key ∧ ∃ n, nodeOf s q = Some n ∧ nodeEntry_dirty n = false ∧ e = setDirty true n).
Proof.
  intros Hnone. destruct (nodeOf s key) as [n|] eqn:En; [destruct (nodeEntry_dirty n) eqn:Ed|].
  - split; [by left|]. intros [?|(-> & n' & Hn & Hd & _)]; congruence.
  - rewrite lookup_insert_Some. split.
    + intros [[<- <-]|[_ ?]]; [right; split; [done|]; by exists n|by left].
    + intros [He|(-> & n' & Hn & Hd & ->)]; [|left; split; [done|congruence]].
      right. split; [congruence|done].
  - split; [by left|]. intros [?|(-> & n' & Hn & _)]; congruence.
Qed.

Lemma invalidationLoop_inr fuel s queue visited D V D' :
  baseIndexed s → stagedOk s → queueOk queue →
  (∀ q, q ∉ visited → D !! q = None) →
  invalidationLoop fuel s queue visited D = inr (V, D') →
  invalidated s queue visited V D D'.
Proof.
  intros Hbase Hstaged. revert queue visited D. induction fuel as [|fuel IH];
    intros queue visited D Hq Hdom; cbn [invalidationLoop].
  { destruct (queuePop queue) as [[]|] eqn:Ep; [done|]. intros [= <- <-]. by apply invalidated_done. }
  destruct (queuePop queue) as [[key queue']|] eqn:Ep;
    [|intros [= <- <-]; by apply invalidated_done].
  destruct (queuePop_ok _ _ _ Hq Ep) as [Hq' _]. pose proof (queuePop_Some _ _ _ Ep) as Hperm.
  case_bool_decide as Hvis.
  { intros Hrest. destruct (IH _ _ _ Hq' Hdom Hrest) as [H1 H2 H3 H4]. constructor; [done| |done|done].
    intros q. rewrite Hperm, elem_of_cons. intros [->|Hin]; [by apply H1|by apply H2]. }
  destruct (invalidateQuery s key) as [|inv] eqn:Ei; [done|].
  destruct (loadDependents s (queryDep key)) as [|deps] eqn:El; [done|].
  apply invalidateQuery_inr in Ei as [Hnq ->].
  pose proof (loadDependents_inr _ _ _ Hbase Hstaged El) as Hdeps. intros Hrest.
  pose proof (invalidated_entry s key D) as Hentry.
  set (D1 := match _ with Some entry => <[key := entry]> D | None => D end) in *.
  assert (queueOk (enqueueUnvisited queue' ({[key]} ∪ visited) deps)) as Hq2 by (by apply queueAddAll_ok).
  assert (∀ q, q ∉ {[key]} ∪ visited → D1 !! q = None) as Hdom1.
  { intros q Hq1. apply not_elem_of_union in Hq1 as [Hne Hq1]. rewrite elem_of_singleton in Hne.
    destruct (D1 !! q) as [e|] eqn:E; [|done]. apply Hentry in E; [|by apply Hdom].
    destruct E as [E|[-> _]]; [|done]. by rewrite Hdom in E. }
  destruct (IH _ _ _ Hq2 Hdom1 Hrest) as [H1 H2 H3 H4]. unfold enqueueUnvisited in H2.
  assert (key ∈ V) as HkV by (apply H1, elem_of_union_l, elem_of_singleton; done). constructor.
  - etransitivity; [|exact H1]. apply union_subseteq_r.
  - intros q. rewrite Hperm, elem_of_cons. intros [->|Hin]; [done|]. apply H2.
    rewrite elem_of_queueAddAll by done. by right.
  - intros q HqV Hqv. destruct (decide (q = key)) as [->|Hne].
    2: { apply H3; [done|]. rewrite not_elem_of_union, not_elem_of_singleton. done. }
    split; [done|]. intros p e Hp Hedge. destruct (decide (p ∈ {[key]} ∪ visited)) as [Hin|Hin].
    { by apply H1. }
    apply H2. rewrite elem_of_queueAddAll by done. left. apply list_elem_of_filter.
    split; [done|]. apply Hdeps. by exists e.
  - intros q e. rewrite H4, Hentry by (by apply Hdom). rewrite not_elem_of_union, not_elem_of_singleton.
    clear - Hvis HkV. destruct (decide (q = key)) as [->|Hne]; naive_solver.
Qed.

Lemma invalidationQueue_inr s inputs queue0 queue :
  baseIndexed s → stagedOk s → queueOk queue0 →
  invalidationQueueFrom s queue0 inputs = inr queue →
  queueOk queue ∧ (∀ q, q ∈ queue_values queue0 → q ∈ queue_values queue) ∧
  ∀ k p entry, k ∈ inputs → nodeOf s p = Some entry → hasEdge entry (inputDep k) → p ∈ queue_values queue.
Proof.
  intros Hbase Hstaged. revert queue0. induction inputs as [|key inputs IH];
    intros queue0 Hq; cbn [invalidationQueueFrom].
  - intros [= <-]. split_and!; [done..|]. intros k p e Hk. by apply not_elem_of_nil in Hk.
  - destruct (loadDependents s (inputDep key)) as [|deps] eqn:El; [done|]. intros Hrest.
    apply IH in Hrest as (Hq' & Hsub & Hin); [|by apply queueAddAll_ok].
    pose proof (loadDependents_inr _ _ _ Hbase Hstaged El) as Hdeps. split_and!; [done| |].
    + intros q Hin'. apply Hsub. rewrite elem_of_queueAddAll by done. by right.
    + intros k p e Hk Hp Hedge. apply elem_of_cons in Hk as [->|Hk]; [|by eapply Hin].
      apply Hsub. rewrite elem_of_queueAddAll by done. left. apply Hdeps. by exists e.
Qed.

(** What a plan of invalidations gives: a closed set of queries that were not
    evaluated in the session, with those of them that were clean. *)
Record planned (s : Session) (changed : gset InputKey) (V : gset QueryKey)
    (D : gmap QueryKey nodeEntry) : Prop := {
  pl_inputs : ∀ k p entry, k ∈ changed → nodeOf s p = Some entry → hasEdge entry (inputDep k) → p ∈ V;
  pl_closed : ∀ q, q ∈ V → (q ∉ Session_queried s) ∧ closedUnder s V q;
  pl_dirty : ∀ q e, D !! q = Some e ↔
    q ∈ V ∧ ∃ n, nodeOf s q = Some n ∧ nodeEntry_dirty n = false ∧ e = setDirty true n }.

Lemma planInputInvalidations_inr s (changes : gmap InputKey inputEntry) D :
  baseIndexed s → stagedOk s →
  planInputInvalidations s (sortInputKeys (elements (dom changes))) = inr D →
  ∃ V, planned s (dom changes) V D.
Proof.
  intros Hbase Hstaged. unfold planInputInvalidations, invalidationQueue.
  destruct (invalidationQueueFrom _ _ _) as [|queue] eqn:Eq; [done|].
  apply invalidationQueue_inr in Eq as (Hq & _ & Hin); [|done|done|apply queueOk_new].
  destruct (invalidationLoop _ _ _ _ _) as [|[V D']] eqn:El; [done|]. intros [= <-].
  apply invalidationLoop_inr in El as [H1 H2 H3 H4]; [|done..]. exists V. constructor.
  - intros k p e Hk Hp Hedge. apply H2. eapply Hin; [|exact Hp|exact Hedge].
    unfold sortInputKeys. by rewrite sort_strings_Permutation, elem_of_elements.
  - intros q Hq'. apply H3; [done|]. set_solver.
  - intros q e. rewrite H4, lookup_empty. split.
    + intros [?|(? & _ & ?)]; [done|]. by split.
    + intros [? ?]. right. split_and!; [done| |done]. apply not_elem_of_empty.
Qed.

(** ** Staging the dirty entries *)

(** The fields neither an invalidation nor an eviction changes. *)
Record sameSetting (s s' : Session) : Prop := {
  ss_graph : Session_graph s' = Session_graph s;
  ss_base : Session_base s' = Session_base s;
  ss_target : Session_targetGeneration s' = Session_targetGeneration s;
  ss_cold : Session_cold s' = Session_cold s;
  ss_replacement : Session_replacement s' = Session_replacement s;
  ss_queried : Session_queried s' = Session_queried s }.

Lemma sameSetting_refl s : sameSetting s s.
Proof. by constructor. Qed.

Lemma sameSetting_trans s1 s2 s3 : sameSetting s1 s2 → sameSetting s2 s3 → sameSetting s1 s3.
Proof. intros [] []. constructor; congruence. Qed.

Lemma sameSetting_baseInput s s' : sameSetting s s' → baseInput s' = baseInput s.
Proof. intros Hs. unfold baseInput. by rewrite (ss_cold _ _ Hs), (ss_base _ _ Hs). Qed.

Lemma sameSetting_baseIndexed s s' : sameSetting s s' → baseIndexed s → baseIndexed s'.
Proof.
  intros Hs [H1 H2 H3]. constructor; rewrite ?(ss_base _ _ Hs), ?(ss_cold _ _ Hs), ?(ss_replacement _ _ Hs); done.
Qed.

Lemma stageDirtyEntries_inr D keys s s' u :
  stagedOk s → stageDirtyEntries D keys s = (s', inr u) →
  sameSetting s s' ∧ stagedOk s' ∧ Session_inputChanges s' = Session_inputChanges s
  ∧ Session_removedQueries s' = Session_removedQueries s
  ∧ ∀ q, Session_nodeChanges s' !! q =
         if decide (q ∈ keys ∧ is_Some (D !! q)) then D !! q else Session_nodeChanges s !! q.
Proof.
  revert s. induction keys as [|key keys IH]; intros s Hst; cbn [stageDirtyEntries].
  - intros [= <- _]. split_and!; [apply sameSetting_refl|done..|]. intros q.
    rewrite decide_False; [done|]. intros [Hin _]. by apply not_elem_of_nil in Hin.
  - intros He. apply bind_inr in He as (s1 & [] & H1 & He).
    assert (sameSetting s s1 ∧ stagedOk s1 ∧ Session_inputChanges s1 = Session_inputChanges s
            ∧ Session_removedQueries s1 = Session_removedQueries s
            ∧ Session_nodeChanges s1 = match D !! key with
                                       | Some e => <[key := e]> (Session_nodeChanges s)
                                       | None => Session_nodeChanges s
                                       end) as (Hs1 & Hst1 & Hi1 & Hr1 & Hn1).
    { destruct (D !! key) as [e|]; [|cbv [mret SM_ret] in H1; injection H1 as <-; by split_and!].
      destruct (stageNodeChange_spec _ _ _ _ _ Hst H1) as (rev & -> & Hst1). by split_and!. }
    cbv [mbind SM_bind modify] in He. apply IH in He as (Hs2 & Hst2 & Hi2 & Hr2 & Hn2); [|done].
    change (Session_inputChanges (addCountersFor _ _ s1)) with (Session_inputChanges s1) in Hi2.
    change (Session_removedQueries (addCountersFor _ _ s1)) with (Session_removedQueries s1) in Hr2.
    split_and!; [eapply sameSetting_trans; [exact Hs1|]; destruct Hs2; by constructor|done|congruence..|].
    intros q. rewrite Hn2. cbn [Session_nodeChanges addCountersFor set_counterDeltas]. rewrite Hn1.
    repeat case_decide; try done.
    + exfalso. set_solver.
    + destruct (decide (q = key)) as [->|Hne]; [|set_solver].
      destruct (D !! key) eqn:E; [by rewrite lookup_insert_eq|naive_solver].
    + destruct (D !! key) as [e|] eqn:E; [|done]. destruct (decide (q = key)) as [->|Hne].
      * exfalso. match goal with Hx : ¬ (key ∈ key :: keys ∧ _) |- _ => apply Hx end.
        split; [set_solver|by eexists].
      * by rewrite lookup_insert_ne.
Qed.

(** ** Applying a batch *)

(** A changed input carries the generation at which its value last changed: the
    base's when the value is the base's, the session's otherwise. *)
Definition goodChange (s : Session) (key : InputKey) (entry : inputEntry) : Prop :=
  (∃ baseline, baseInput s key = Some baseline
     ∧ inputEntry_found baseline = inputEntry_found entry
     ∧ inputEntry_value baseline = inputEntry_value entry
     ∧ inputEntry_changedAt entry = inputEntry_changedAt baseline)
  ∨ inputEntry_changedAt entry = Session_targetGeneration s.

Lemma inputChangedAt_good HB s input :
  sessionOk HB s →
  goodChange s (Input_Key input)
    (mkInputEntry (Input_Revision input) (Input_Found input) (Input_Value input)
       (inputChangedAt s input (currentInput s (Input_Key input)) (baseInput s (Input_Key input)))).
Proof.
  intros Hok. unfold goodChange, inputChangedAt. cbn.
  destruct (baseInput s (Input_Key input)) as [b|] eqn:Eb.
  - destruct (sameInputValue b input) eqn:Es; [|by right]. apply bool_decide_eq_true in Es as [? ?].
    left. by exists b.
  - right. destruct (currentInput s (Input_Key input)) as [c|] eqn:Ec; [|done].
    destruct (sameInputValue c input); [|done]. apply (so_new_input _ _ Hok (Input_Key input)); [|done].
    unfold currentInput in Ec. unfold baseInput in Eb.
    destruct (Session_inputChanges s !! Input_Key input); [done|]. destruct (Session_cold s); congruence.
Qed.

Lemma prepareInputBatch_inr HB s changes inputs changes' :
  sessionOk HB s → (∀ k e, changes !! k = Some e → goodChange s k e) →
  prepareInputBatch s changes inputs = inr changes' →
  ∀ k e, changes' !! k = Some e → goodChange s k e.
Proof.
  intros Hok. revert changes. induction inputs as [|input inputs IH]; intros changes Hch;
    cbn [prepareInputBatch]; [by intros [= <-]|].
  destruct (validateInputVersion _ _ _ _); [done|]. case_match; [by apply IH|].
  apply IH. intros k e He. apply lookup_insert_Some in He as [[<- <-]|[_ He]]; [|by apply Hch].
  by eapply inputChangedAt_good.
Qed.

Section apply.
Context (HB : History) (s s' : Session) (changes : gmap InputKey inputEntry).
Context (V : gset QueryKey) (D : gmap QueryKey nodeEntry).
Context (Hob : obliviousGraph (Session_graph s)) (Hok : sessionOk HB s).
Context (Hchanges : ∀ k e, changes !! k = Some e → goodChange s k e).
Context (Hplan : planned s (dom changes) V D).
Context (Hset : sameSetting s s') (Hstaged : stagedOk s').
Context (Hinputs : Session_inputChanges s' = changes ∪ Session_inputChanges s).
Context (Hremoved : Session_removedQueries s' = Session_removedQueries s).
Context (Hnodes : ∀ q, Session_nodeChanges s' !! q =
           if decide (is_Some (D !! q)) then D !! q else Session_nodeChanges s !! q).

Lemma apply_currentInput k :
  currentInput s' k = match changes !! k with Some e => Some e | None => currentInput s k end.
Proof using Hset Hinputs.
  unfold currentInput. rewrite Hinputs, (ss_cold _ _ Hset), (ss_base _ _ Hset), lookup_union.
  by destruct (changes !! k), (Session_inputChanges s !! k).
Qed.

Lemma apply_dirty q e :
  D !! q = Some e → q ∈ V ∧ ∃ n, nodeOf s q = Some n ∧ nodeEntry_dirty n = false ∧ e = setDirty true n.
Proof using Hplan. apply (pl_dirty _ _ _ _ Hplan). Qed.

Lemma nodeOf_not_removed t q e : nodeOf t q = Some e → q ∉ Session_removedQueries t.
Proof using. unfold nodeOf. by case_bool_decide. Qed.

Lemma apply_nodeOf q : nodeOf s' q = match D !! q with Some e => Some e | None => nodeOf s q end.
Proof using Hplan Hset Hremoved Hnodes.
  unfold nodeOf at 1. rewrite Hremoved, Hnodes, (ss_cold _ _ Hset), (ss_base _ _ Hset).
  destruct (D !! q) as [e|] eqn:E.
  - apply apply_dirty in E as (_ & n & Hn & _). apply nodeOf_not_removed in Hn.
    rewrite bool_decide_eq_false_2 by done. done.
  - rewrite decide_False; [done|]. by intros [? ?].
Qed.

(** What is clean afterwards was clean, and is not in the closure. *)
Lemma apply_clean q e :
  nodeOf s' q = Some e → nodeEntry_dirty e = false → nodeOf s q = Some e ∧ q ∉ V.
Proof using Hplan Hset Hremoved Hnodes.
  rewrite apply_nodeOf. destruct (D !! q) as [e'|] eqn:E.
  - intros [= <-] Hc. apply apply_dirty in E as (_ & n & _ & _ & ->). done.
  - intros He Hc. split; [done|]. intros HV.
    assert (D !! q = Some (setDirty true e)) as HD; [|congruence].
    apply (pl_dirty _ _ _ _ Hplan). split; [done|]. by exists e.
Qed.

(** An entry of the closure was not evaluated here, so nothing of this
    generation is in it. *)
Lemma apply_untouched q e : q ∈ V → nodeOf s q = Some e → ¬ touched s e.
Proof using Hok Hplan.
  intros HV He Ht. destruct (so_touched _ _ Hok _ _ He Ht) as [Hq _].
  destruct (pl_closed _ _ _ _ Hplan q HV) as [Hnq _]. done.
Qed.

Lemma apply_hist_query q n : hist_query (sessHist HB s') q n = hist_query (sessHist HB s) q n.
Proof using Hplan Hset Hremoved Hnodes.
  cbn. rewrite (ss_target _ _ Hset). case_decide; [|done]. rewrite apply_nodeOf.
  destruct (D !! q) as [e|] eqn:E; [|done]. apply apply_dirty in E as (_ & n' & -> & _ & ->). done.
Qed.

Lemma apply_hist_input k n :
  (n ≠ Session_targetGeneration s ∨ changes !! k = None) →
  hist_input (sessHist HB s') k n = hist_input (sessHist HB s) k n.
Proof using Hset Hinputs.
  intros Hk. cbn. rewrite (ss_target _ _ Hset). case_decide; [|done]. destruct Hk as [Hk|Hk]; [done|].
  by rewrite apply_currentInput, Hk.
Qed.

Lemma apply_replays q e run v :
  nodeOf s q = Some e → replays (sessHist HB s) (nodeEntry_deps e) run v →
  replays (sessHist HB s') (nodeEntry_deps e) run v.
Proof using Hok Hplan Hset Hremoved Hnodes Hinputs.
  intros He. apply replays_hist; [|intros d key x _ _; by rewrite apply_hist_query].
  intros d key x Hd Hk Hx. rewrite apply_hist_input; [done|].
  destruct (changes !! key) as [ce|] eqn:Ec; [left|by right]. intros Hat.
  assert (q ∈ V) as HV.
  { eapply (pl_inputs _ _ _ _ Hplan key); [by eapply elem_of_dom_2|exact He|].
    apply elem_of_depKeys. by exists d. }
  apply (apply_untouched q e HV He). right. by exists d.
Qed.

Lemma apply_fresh q e d :
  nodeOf s' q = Some e → nodeEntry_dirty e = false → d ∈ nodeEntry_deps e →
  depFresh (currentInput s') (nodeOf s') d.
Proof using Hok Hplan Hset Hremoved Hnodes Hinputs.
  intros He Hc Hd. destruct (apply_clean q e He Hc) as [He0 HV].
  pose proof (vo_fresh _ _ _ _ (so_view _ _ Hok) q e d He0 Hc Hd) as Hf.
  unfold depFresh in *. destruct (dependency_key d) as [k|k] eqn:Hk.
  - destruct Hf as (ie & Hi & Hrest). exists ie. split; [|done]. rewrite apply_currentInput.
    destruct (changes !! k) eqn:Ec; [|done]. exfalso. apply HV.
    eapply (pl_inputs _ _ _ _ Hplan k); [by eapply elem_of_dom_2|exact He0|].
    apply elem_of_depKeys. by exists d.
  - destruct Hf as (ne & Hn & Hrest). exists ne. split; [|done]. rewrite apply_nodeOf.
    destruct (D !! k) as [e'|] eqn:E; [|done]. apply apply_dirty in E as (HkV & _). exfalso. apply HV.
    eapply (pl_closed _ _ _ _ Hplan k HkV); [exact He0|]. apply elem_of_depKeys. by exists d.
Qed.

Lemma apply_value q e :
  nodeOf s' q = Some e → nodeEntry_dirty e = false →
  queryValue (Session_graph s) (currentInput s') q (nodeValue e).
Proof using Hob Hok Hplan Hset Hremoved Hnodes Hinputs.
  apply (queryValue_shrink _ (sessHist HB s) (currentInput s) (currentInput s') (nodeOf s) (nodeOf s')
           (so_view _ _ Hok) Hob).
  - intros k e' He' Hc'. by apply apply_clean.
  - intros k e' d ik He' Hc' Hd Hk. destruct (apply_clean k e' He' Hc') as [He0 HV].
    rewrite apply_currentInput. destruct (changes !! ik) eqn:Ec; [|done]. exfalso. apply HV.
    eapply (pl_inputs _ _ _ _ Hplan ik); [by eapply elem_of_dom_2|exact He0|].
    apply elem_of_depKeys. by exists d.
  - intros k e' d qk He' Hc' Hd Hk. pose proof (apply_fresh k e' d He' Hc' Hd) as Hf.
    unfold depFresh in Hf. rewrite Hk in Hf. destruct Hf as (ne & Hn & Hcl & _). by exists ne.
Qed.

Lemma apply_view : viewOk (Session_graph s') (sessHist HB s') (currentInput s') (nodeOf s').
Proof using Hob Hok Hchanges Hplan Hset Hremoved Hnodes Hinputs.
  destruct (so_view _ _ Hok) as [Hvi Hvq Hvr Hvf Hvv]. rewrite (ss_graph _ _ Hset). constructor.
  - intros k e. rewrite apply_currentInput. destruct (changes !! k) as [ce|] eqn:Ec.
    + intros [= <-]. destruct (decide (inputEntry_changedAt ce = Session_targetGeneration s)) as [Ht|Ht].
      * cbn. rewrite (ss_target _ _ Hset), decide_True, apply_currentInput, Ec by done. by rewrite decide_True.
      * destruct (Hchanges k ce Ec) as [(b & Hb & Hfound & Hval & Hat)|]; [|done].
        rewrite apply_hist_input by (by left). cbn. rewrite decide_False by done.
        rewrite Hat, <-Hfound, <-Hval. by apply (so_base_input _ _ Hok).
    + intros He. rewrite apply_hist_input by (by right). by apply Hvi.
  - intros q e. rewrite apply_nodeOf, apply_hist_query. destruct (D !! q) as [e'|] eqn:E; [|apply Hvq].
    intros [= <-]. apply apply_dirty in E as (_ & n & Hn & _ & ->). by apply (Hvq q n).
  - intros q e. rewrite apply_nodeOf. destruct (D !! q) as [e'|] eqn:E.
    + intros [= <-]. apply apply_dirty in E as (_ & n & Hn & _ & ->).
      destruct (Hvr q n Hn) as (run & Hr & Hp). exists run. split; [done|]. by apply (apply_replays q n).
    + intros He. destruct (Hvr q e He) as (run & Hr & Hp). exists run. split; [done|].
      by apply (apply_replays q e).
  - apply apply_fresh.
  - apply apply_value.
Qed.

Lemma apply_sessionOk : sessionOk HB s'.
Proof using All.
  constructor.
  - exact apply_view.
  - rewrite (sameSetting_baseInput _ _ Hset), (ss_target _ _ Hset). apply (so_base_input _ _ Hok).
  - rewrite (sameSetting_baseInput _ _ Hset), (ss_target _ _ Hset). intros k e. rewrite Hinputs, lookup_union.
    destruct (changes !! k) as [ce|] eqn:Ec.
    + intros He Hb. rewrite union_Some_l in He. simplify_eq.
      destruct (Hchanges k e Ec) as [(b & Hb' & _)|]; [congruence|done].
    + rewrite (left_id_L None _). apply (so_new_input _ _ Hok).
  - intros q e. rewrite apply_nodeOf, (ss_queried _ _ Hset). unfold touched. rewrite (ss_target _ _ Hset).
    destruct (D !! q) as [e'|] eqn:E; [|apply (so_touched _ _ Hok)].
    intros [= <-] Ht. apply apply_dirty in E as (HV & n & Hn & _ & ->). exfalso.
    by apply (apply_untouched q n HV Hn).
  - eapply sameSetting_baseIndexed; [done|apply Hok].
  - done.
  - intros q e. rewrite Hnodes, Hremoved. case_decide as Hd; [|apply (so_tidy _ _ Hok)].
    intros He. apply apply_dirty in He as (_ & n & Hn & _). by apply nodeOf_not_removed in Hn.
Qed.
End apply.

Lemma applyInputs_ok HB inputs s s' newly :
  applyInputsAtomically inputs s = (s', inr newly) →
  obliviousGraph (Session_graph s) → sessionOk HB s →
  sessionOk HB s' ∧ sameSetting s s'.
Proof.
  intros Ha Hob Hok. apply orFail_inr in Ha. apply bind_inr in Ha as (s1 & [] & Hc & Ha).
  assert (s1 = s) as ->.
  { unfold check in Hc. destruct (validateInputBatch inputs); [done|]. by injection Hc. }
  apply bind_inr in Ha as (s1 & s2 & Hg & Ha). cbv [get] in Hg. injection Hg as <- <-.
  apply bind_inr in Ha as (s1 & changes & Hp & Ha). cbv [lift] in Hp. injection Hp as <- Hp.
  apply bind_inr in Ha as (s1 & D & Hd & Ha). cbv [lift] in Hd. injection Hd as <- Hd. cbv zeta in Ha.
  apply bind_inr in Ha as (s1 & [] & Hm & Ha). cbv [modify] in Hm. injection Hm as <-.
  apply bind_inr in Ha as (s2 & [] & Hs & Ha). cbv [mret SM_ret] in Ha. injection Ha as <- <-.
  apply planInputInvalidations_inr in Hd as [V Hplan]; [|apply Hok..].
  apply stageDirtyEntries_inr in Hs as (Hset & Hst & Hi & Hr & Hn); [|exact (so_staged _ _ Hok)].
  assert (sameSetting s s2) as Hset' by (destruct Hset; by constructor).
  split; [|exact Hset']. eapply (apply_sessionOk HB s s2 changes V D); try done.
  - eapply prepareInputBatch_inr; [done| |exact Hp]. intros k e He. by rewrite lookup_empty in He.
  - intros q. rewrite Hn. repeat case_decide; try done; [naive_solver|]. exfalso.
    match goal with Hx : is_Some (D !! q) |- _ => destruct Hx as [e He] end.
    match goal with Hx : ¬ _ |- _ => apply Hx end. split; [|by eexists].
    apply elem_of_sortedNodeEntryKeys. by exists e.
Qed.

(** ** Evicting queries *)

(** What the loop of an eviction leaves behind. *)
Record evicted (s : Session) (queue : queryKeyQueue) (s' : Session) : Prop := {
  ev_setting : sameSetting s s';
  ev_inputs : Session_inputChanges s' = Session_inputChanges s;
  ev_staged : stagedOk s';
  ev_removed : Session_removedQueries s ⊆ Session_removedQueries s';
  ev_queue : ∀ q, q ∈ queue_values queue → q ∈ Session_removedQueries s';
  ev_changes : ∀ p e, Session_nodeChanges s' !! p = Some e →
    Session_nodeChanges s !! p = Some e
    ∧ (p ∈ Session_removedQueries s' → p ∈ Session_removedQueries s);
  ev_nodeOf : ∀ p, nodeOf s' p = if decide (p ∈ Session_removedQueries s') then None else nodeOf s p;
  ev_closed : ∀ q, q ∈ Session_removedQueries s' → q ∉ Session_removedQueries s →
    closedUnder s (Session_removedQueries s') q }.

Lemma evicted_done s queue : stagedOk s → queuePop queue = None → evicted s queue s.
Proof.
  intros Hst Ep. apply queuePop_None in Ep. constructor; try done.
  - rewrite Ep. intros q Hin. by apply not_elem_of_nil in Hin.
  - intros p. case_decide as Hp; [|done]. unfold nodeOf. by rewrite bool_decide_eq_true_2.
Qed.

(** Evicting one query of the session. *)
Definition evictOne (key : QueryKey) (s : Session) : Session :=
  set_removedQueries ({[key]} ∪ Session_removedQueries s) s.

Lemma evictOne_step key s s1 u :
  stagedOk s → unstageNodeChange key (evictOne key s) = (s1, inr u) →
  sameSetting s s1 ∧ Session_inputChanges s1 = Session_inputChanges s ∧ stagedOk s1
  ∧ Session_removedQueries s1 = {[key]} ∪ Session_removedQueries s
  ∧ Session_nodeChanges s1 = delete key (Session_nodeChanges s)
  ∧ ∀ p, nodeOf s1 p = if decide (p = key) then None else nodeOf s p.
Proof.
  intros Hst Hu. apply unstageNodeChange_spec in Hu as (rev & -> & Hst1); [|done].
  split_and!; [done..|]. intros p. unfold nodeOf. cbn. case_decide as Hp.
  - subst p. rewrite bool_decide_eq_true_2; [done|]. apply elem_of_union_l, elem_of_singleton. done.
  - rewrite lookup_delete_ne by done.
    assert (p ∈ {[key]} ∪ Session_removedQueries s ↔ p ∈ Session_removedQueries s) as Hiff.
    { rewrite elem_of_union, elem_of_singleton. naive_solver. }
    by rewrite (bool_decide_ext _ _ Hiff).
Qed.

Lemma removeLoop_inr fuel queue s s' u :
  baseIndexed s → stagedOk s → queueOk queue →
  removeLoop fuel queue s = (s', inr u) → evicted s queue s'.
Proof.
  revert queue s. induction fuel as [|fuel IH]; intros queue s Hbase Hst Hq; cbn [removeLoop].
  { destruct (queuePop queue) as [[]|] eqn:Ep; [done|]. intros [= <- _]. by apply evicted_done. }
  destruct (queuePop queue) as [[key queue']|] eqn:Ep; [|intros [= <- _]; by apply evicted_done].
  destruct (queuePop_ok _ _ _ Hq Ep) as [Hq' _]. pose proof (queuePop_Some _ _ _ Ep) as Hperm.
  intros Ha. apply bind_inr in Ha as (s1 & s2 & Hg & Ha). cbv [get] in Hg. injection Hg as <- <-.
  case_bool_decide as Hrem.
  { destruct (IH _ _ Hbase Hst Hq' Ha) as [H1 H2 H3 H4 H5 H6 H7 H8]. constructor; try done.
    intros q. rewrite Hperm, elem_of_cons. intros [->|Hin]; [by apply H4|by apply H5]. }
  apply bind_inr in Ha as (s1 & [] & Hm & Ha). cbv [modify] in Hm. injection Hm as <-.
  apply bind_inr in Ha as (s1 & [] & Hu & Ha).
  apply bind_inr in Ha as (s2 & s3 & Hg & Ha). cbv [get] in Hg. injection Hg as <- <-.
  apply bind_inr in Ha as (s2 & deps & Hl & Ha). cbv [lift] in Hl. injection Hl as <- Hl.
  destruct (evictOne_step _ _ _ _ Hst Hu) as (Hset1 & Hi1 & Hst1 & Hr1 & Hn1 & Hno1).
  assert (baseIndexed s1) as Hbase1 by (by eapply sameSetting_baseIndexed).
  pose proof (loadDependents_inr _ _ _ Hbase1 Hst1 Hl) as Hdeps.
  destruct (IH _ _ Hbase1 Hst1 (queueAddAll_ok _ _ Hq') Ha) as [H1 H2 H3 H4 H5 H6 H7 H8].
  assert (key ∈ Session_removedQueries s') as Hkey.
  { apply H4. rewrite Hr1. apply elem_of_union_l, elem_of_singleton. done. }
  constructor.
  - by eapply sameSetting_trans.
  - congruence.
  - done.
  - etransitivity; [|exact H4]. rewrite Hr1. apply union_subseteq_r.
  - intros q. rewrite Hperm, elem_of_cons. intros [->|Hin]; [done|].
    apply H5. rewrite elem_of_queueAddAll by done. by right.
  - intros p e He. apply H6 in He as [He Hback]. rewrite Hn1 in He.
    apply lookup_delete_Some in He as [Hne He]. split; [done|]. intros Hp. apply Hback in Hp.
    rewrite Hr1, elem_of_union, elem_of_singleton in Hp. destruct Hp as [->|]; done.
  - intros p. rewrite H7, Hno1. repeat case_decide; try done. subst p. done.
  - intros q Hq1 Hq2 p e Hp Hedge. destruct (decide (p = key)) as [->|Hne]; [done|].
    assert (nodeOf s1 p = Some e) as Hp1 by (rewrite Hno1, decide_False; done).
    destruct (decide (q = key)) as [->|Hqk].
    + destruct (decide (p ∈ Session_removedQueries s1)) as [Hin|Hin]; [by apply H4|].
      apply H5. rewrite elem_of_queueAddAll by done. left. apply list_elem_of_filter.
      split; [done|]. apply Hdeps. by exists e.
    + eapply (H8 q Hq1); [|exact Hp1|done]. rewrite Hr1, elem_of_union, elem_of_singleton. naive_solver.
Qed.

Section evict.
Context (HB : History) (s s' : Session) (queue : queryKeyQueue).
Context (Hob : obliviousGraph (Session_graph s)) (Hok : sessionOk HB s) (Hev : evicted s queue s').

Lemma evict_currentInput : currentInput s' = currentInput s.
Proof using Hev.
  unfold currentInput. destruct (ev_setting _ _ _ Hev) as [_ Hb _ Hc _ _].
  by rewrite (ev_inputs _ _ _ Hev), Hb, Hc.
Qed.

Lemma evict_kept q e : nodeOf s' q = Some e → nodeOf s q = Some e ∧ q ∉ Session_removedQueries s'.
Proof using Hev. rewrite (ev_nodeOf _ _ _ Hev). by case_decide. Qed.

(** What a query that stays depends on stays. *)
Lemma evict_dep q e d k :
  nodeOf s' q = Some e → d ∈ nodeEntry_deps e → dependency_key d = queryDep k →
  is_Some (nodeOf s k) → nodeOf s' k = nodeOf s k.
Proof using Hev.
  intros He Hd Hk [n Hn]. apply evict_kept in He as [He Hq]. rewrite (ev_nodeOf _ _ _ Hev).
  case_decide as Hrem; [|done]. exfalso. apply Hq.
  eapply (ev_closed _ _ _ Hev k Hrem); [by eapply nodeOf_not_removed|exact He|].
  apply elem_of_depKeys. by exists d.
Qed.

Lemma evict_hist_query q e d k x :
  nodeOf s' q = Some e → d ∈ nodeEntry_deps e → dependency_key d = queryDep k →
  hist_query (sessHist HB s) k (dependency_changedAt d) = Some x →
  hist_query (sessHist HB s') k (dependency_changedAt d) = Some x.
Proof using Hev.
  intros He Hd Hk. cbn. rewrite (ss_target _ _ (ev_setting _ _ _ Hev)). case_decide; [|done].
  destruct (nodeOf s k) as [n|] eqn:En; [|done].
  rewrite (evict_dep q e d k He Hd Hk), En; [done|by eexists].
Qed.

Lemma evict_hist_input k n : hist_input (sessHist HB s') k n = hist_input (sessHist HB s) k n.
Proof using Hev.
  cbn. rewrite (ss_target _ _ (ev_setting _ _ _ Hev)). case_decide; [|done]. by rewrite evict_currentInput.
Qed.

Lemma evict_fresh q e d :
  nodeOf s' q = Some e → nodeEntry_dirty e = false → d ∈ nodeEntry_deps e →
  depFresh (currentInput s') (nodeOf s') d.
Proof using Hok Hev.
  intros He Hc Hd. pose proof (evict_kept _ _ He) as [He0 _].
  pose proof (vo_fresh _ _ _ _ (so_view _ _ Hok) q e d He0 Hc Hd) as Hf.
  unfold depFresh in *. rewrite evict_currentInput. destruct (dependency_key d) as [k|k] eqn:Hk; [done|].
  destruct Hf as (n & Hn & Hrest). exists n. split; [|done].
  rewrite (evict_dep q e d k He Hd Hk); [done|by eexists].
Qed.

Lemma evict_sessionOk : sessionOk HB s'.
Proof using Hok Hev.
  pose proof (ev_setting _ _ _ Hev) as Hset. destruct (so_view _ _ Hok) as [Hvi Hvq Hvr Hvf Hvv].
  constructor.
  - rewrite (ss_graph _ _ Hset). constructor.
    + intros k e. rewrite evict_currentInput, evict_hist_input. apply Hvi.
    + intros q e He. pose proof (evict_kept _ _ He) as [He0 _]. apply Hvq in He0 as Hh. revert Hh. cbn.
      rewrite (ss_target _ _ Hset). case_decide; [|done]. by rewrite He, He0.
    + intros q e He. pose proof (evict_kept _ _ He) as [He0 _].
      destruct (Hvr q e He0) as (run & Hr & Hp). exists run. split; [done|].
      eapply replays_hist; [| |exact Hp].
      * intros d k x _ _. by rewrite evict_hist_input.
      * intros d k x Hd Hk. by eapply evict_hist_query.
    + apply evict_fresh.
    + intros q e He Hc. pose proof (evict_kept _ _ He) as [He0 _]. rewrite evict_currentInput.
      by apply Hvv.
  - rewrite (sameSetting_baseInput _ _ Hset), (ss_target _ _ Hset). apply (so_base_input _ _ Hok).
  - rewrite (sameSetting_baseInput _ _ Hset), (ss_target _ _ Hset), (ev_inputs _ _ _ Hev).
    apply (so_new_input _ _ Hok).
  - intros q e He. pose proof (evict_kept _ _ He) as [He0 _]. unfold touched.
    rewrite (ss_target _ _ Hset), (ss_queried _ _ Hset). by apply (so_touched _ _ Hok).
  - eapply sameSetting_baseIndexed; [done|apply Hok].
  - apply Hev.
  - intros p e He Hp. apply (ev_changes _ _ _ Hev) in He as [He Hback].
    by apply (so_tidy _ _ Hok p e He), Hback.
Qed.
End evict.

Lemma queueKeys_inr queue keys queue' :
  queueOk queue → queueKeys queue keys = inr queue' →
  queueOk queue' ∧ ∀ q, q ∈ queue_values queue' ↔ q ∈ keys ∨ q ∈ queue_values queue.
Proof.
  revert queue. induction keys as [|k keys IH]; intros queue Hq; cbn [queueKeys].
  - intros [= <-]. split; [done|]. intros q. rewrite elem_of_nil. tauto.
  - case_match; [done|]. intros Hrest. apply IH in Hrest as [Hq' Hin]; [|by apply queueAdd_ok].
    split; [done|]. intros q. rewrite Hin, elem_of_queueAdd, elem_of_cons by done. tauto.
Qed.

Lemma removeQueries_inr HB keys s s' u :
  removeQueries keys s = (s', inr u) → sessionOk HB s →
  ∃ queue, evicted s queue s' ∧ ∀ q, q ∈ keys → q ∈ Session_removedQueries s'.
Proof.
  intros Hr Hok. apply orFail_inr in Hr. apply bind_inr in Hr as (s1 & queue & Hq & Hr).
  cbv [lift] in Hq. injection Hq as <- Hq. apply queueKeys_inr in Hq as [Hq Hin]; [|apply queueOk_new].
  apply bind_inr in Hr as (s1 & s2 & Hg & Hr). cbv [get] in Hg. injection Hg as <- <-.
  apply removeLoop_inr in Hr; [|apply Hok..|done]. exists queue. split; [done|].
  intros q Hk. apply (ev_queue _ _ _ Hr), Hin. by left.
Qed.

Lemma removeQueries_ok HB keys s s' u :
  removeQueries keys s = (s', inr u) → sessionOk HB s →
  sessionOk HB s' ∧ sameSetting s s'.
Proof.
  intros Hr Hok. destruct (removeQueries_inr _ _ _ _ _ Hr Hok) as (queue & Hev & _).
  split; [by eapply evict_sessionOk|apply (ev_setting _ _ _ Hev)].
Qed.
