(* ===== verification/IncCommit.v ===== *)
(** * The incremental graph: commit

    [src/pkg/incremental/commit.go] and the publication of [prepared_commit.go]:
    the next generation a session makes of its base (entries, reverse index,
    retired inputs, counters), the verification of every observed input, and the
    publication with the caller's phases around the installation of the
    generation. The caller's functions may fail and may abort the session: each
    comes with what it does. The draft of a replacement is authenticated between
    its preparation and its publication, which re-checks what the preparation
    established and is left out. *)

From stdpp Require Import base gmap strings sorting sets list list_numbers.
From S2P Require Import Prelude GoStd IncGraph IncSession IncEval.

Open Scope N_scope.

(** ** What a session hands over *)

(** [incrementalRemovedQueries] and [incrementalChangedEntries]: staged entries
    of evicted queries are left behind ([prepareReplacementEntries] the same). *)
Definition incrementalRemovedQueries (s : Session) : list QueryKey :=
  sortQueryKeys (elements (Session_removedQueries s)).

Definition keptNodes (s : Session) : gmap QueryKey nodeEntry :=
  filter (λ kv : QueryKey * nodeEntry, kv.1 ∉ Session_removedQueries s) (Session_nodeChanges s).

(** [validateNodeChanges]. *)
Definition validateNodeChanges (s : Session) : option IncErr :=
  if forallb (λ kv : QueryKey * nodeEntry,
        match validateOwned (nodeEntry_value kv.2) (Graph_valueAuthority (Session_graph s)) kv.1 with
        | None => true | Some _ => false end)
       (map_to_list (Session_nodeChanges s))
  then None else Some (ErrText "incremental exact value belongs to another query").

(** The inputs of the staged entries that are clean and stay. *)
Fixpoint mergeNodeObservations (observations : gmap InputKey InputRevision)
    (entries : list (QueryKey * nodeEntry)) (removed : gset QueryKey)
    : IncErr + gmap InputKey InputRevision :=
  match entries with
  | [] => inr observations
  | (key, entry) :: rest =>
      if nodeEntry_dirty entry || bool_decide (key ∈ removed)
      then mergeNodeObservations observations rest removed
      else
        match mergeObservations observations (nodeEntry_inputs entry) with
        | inl err => inl err
        | inr observations => mergeNodeObservations observations rest removed
        end
  end.

Definition commitObservations (s : Session) : IncErr + list InputRevision :=
  match mergeObservations ∅ (sortedObservations (Session_observations s)) with
  | inl err => inl err
  | inr observations =>
      match mergeNodeObservations observations (map_to_list (Session_nodeChanges s))
              (Session_removedQueries s) with
      | inl err => inl err
      | inr observations => inr (sortedObservations observations)
      end
  end.

(** ** Counters *)

Fixpoint applyCounterDeltas (counters : gmap QueryKey NodeCounters) (removed : gset QueryKey)
    (deltas : list (QueryKey * NodeCounters)) : IncErr + gmap QueryKey NodeCounters :=
  match deltas with
  | [] => inr counters
  | (key, delta) :: rest =>
      if bool_decide (key ∈ removed) then applyCounterDeltas counters removed rest
      else
        match addCountersChecked (default zeroCounters (counters !! key)) delta with
        | inl err => inl err
        | inr next => applyCounterDeltas (<[key := next]> counters) removed rest
        end
  end.

(** ** The reverse index of the next generation *)

(** [reverseSetEditor]: the roots already rewritten and the memberships that
    are pending. *)
Record reverseSetEditor := mkEditor {
  editor_roots : gmap dependencyKey (gset QueryKey);
  editor_pending : gmap dependencyKey (gmap QueryKey bool) }.

Definition newEditor : reverseSetEditor := mkEditor ∅ ∅.

Section editor.
Context (current : graphGeneration).

(** [baseRoot]. *)
Definition editorBaseRoot (e : reverseSetEditor) (dep : dependencyKey) : IncErr + gset QueryKey :=
  match editor_roots e !! dep with
  | Some root => ownedRoot dep root
  | None => ownedRoot dep (reverseRootOf current dep)
  end.

Definition setMembership (dep : dependencyKey) (dependent : QueryKey) (present : bool)
    (e : reverseSetEditor) : IncErr + reverseSetEditor :=
  match editorBaseRoot e dep with
  | inl err => inl err
  | inr root =>
      let pending := default ∅ (editor_pending e !! dep) in
      let now := match pending !! dependent with
                 | Some p => p
                 | None => bool_decide (dependent ∈ root)
                 end in
      if eqb now present
      then inl (ErrText (if present
                         then "incremental reverse dependency already contains query"
                         else "incremental reverse dependency does not contain query")%string)
      else inr (mkEditor (editor_roots e)
                  (<[dep := <[dependent := present]> pending]> (editor_pending e)))
  end.

(** [replace]: the edges only the previous or only the next entry has. *)
Fixpoint editorReplace (key : QueryKey) (previous : list dependency)
    : list dependency → reverseSetEditor → IncErr + reverseSetEditor :=
  match previous with
  | [] =>
      fix addRest (next : list dependency) (e : reverseSetEditor) : IncErr + reverseSetEditor :=
        match next with
        | [] => inr e
        | n :: next' =>
            match setMembership (dependency_key n) key true e with
            | inl err => inl err
            | inr e => addRest next' e
            end
        end
  | p :: previous' =>
      fix walk (next : list dependency) (e : reverseSetEditor) : IncErr + reverseSetEditor :=
        match next with
        | [] =>
            match setMembership (dependency_key p) key false e with
            | inl err => inl err
            | inr e => editorReplace key previous' [] e
            end
        | n :: next' =>
            match compareDependencyKeys (dependency_key p) (dependency_key n) with
            | Lt =>
                match setMembership (dependency_key p) key false e with
                | inl err => inl err
                | inr e => editorReplace key previous' (n :: next') e
                end
            | Gt =>
                match setMembership (dependency_key n) key true e with
                | inl err => inl err
                | inr e => walk next' e
                end
            | Eq => editorReplace key previous' next' e
            end
        end
  end.

(** [Root.Update]: the memberships, assigned. *)
Definition updateRoot (root : gset QueryKey) (membership : gmap QueryKey bool) : gset QueryKey :=
  (root ∪ dom (filter (λ kv : QueryKey * bool, kv.2 = true) membership))
    ∖ dom (filter (λ kv : QueryKey * bool, kv.2 = false) membership).

(** [editor.root]: the root with its pending memberships, which are done with. *)
Definition editorRoot (e : reverseSetEditor) (dep : dependencyKey)
    : IncErr + (gset QueryKey * reverseSetEditor) :=
  match editorBaseRoot e dep with
  | inl err => inl err
  | inr root =>
      match editor_pending e !! dep with
      | Some membership =>
          if bool_decide (membership = ∅) then inr (root, e)
          else
            let root := updateRoot root membership in
            inr (root, mkEditor (<[dep := root]> (editor_roots e)) (delete dep (editor_pending e)))
      | None => inr (root, e)
      end
  end.

Fixpoint retireRemoved (g : Graph) (removed : list QueryKey) (e : reverseSetEditor)
    : IncErr + reverseSetEditor :=
  match removed with
  | [] => inr e
  | key :: rest =>
      match generation_nodes current !! key with
      | None => retireRemoved g rest e
      | Some committed =>
          match openCommittedNodeEntry g key committed with
          | inl err => inl err
          | inr previous =>
              match editorReplace key (nodeEntry_deps previous) [] e with
              | inl err => inl err
              | inr e => retireRemoved g rest e
              end
          end
      end
  end.

(** [sameDependencyKeys]. *)
Definition sameDependencyKeys (left right : list dependency) : bool :=
  bool_decide (depKeys left = depKeys right).

Fixpoint replaceChanged (g : Graph) (nodes : list (QueryKey * nodeEntry)) (e : reverseSetEditor)
    : IncErr + reverseSetEditor :=
  match nodes with
  | [] => inr e
  | (key, entry) :: rest =>
      match generation_nodes current !! key with
      | None =>
          match editorReplace key [] (nodeEntry_deps entry) e with
          | inl err => inl err
          | inr e => replaceChanged g rest e
          end
      | Some committed =>
          match openCommittedNodeEntry g key committed with
          | inl err => inl err
          | inr previous =>
              if sameDependencyKeys (nodeEntry_deps previous) (nodeEntry_deps entry)
              then replaceChanged g rest e
              else
                match editorReplace key (nodeEntry_deps previous) (nodeEntry_deps entry) e with
                | inl err => inl err
                | inr e => replaceChanged g rest e
                end
          end
      end
  end.

Fixpoint validateRemovedQueries (removed : list QueryKey) (e : reverseSetEditor)
    : IncErr + reverseSetEditor :=
  match removed with
  | [] => inr e
  | key :: rest =>
      match editorRoot e (queryDep key) with
      | inl err => inl err
      | inr (root, e) =>
          if negb (bool_decide (root = ∅))
          then inl (ErrText "removed incremental query retains dependents")
          else validateRemovedQueries rest
                 (mkEditor (<[queryDep key := root]> (editor_roots e)) (editor_pending e))
      end
  end.

Fixpoint flushPending (deps : list dependencyKey) (e : reverseSetEditor) : IncErr + reverseSetEditor :=
  match deps with
  | [] => inr e
  | dep :: rest =>
      match editorRoot e dep with
      | inl err => inl err
      | inr (_, e) => flushPending rest e
      end
  end.

(** [incrementalReverseChanges]: the roots that changed; an empty one is an edge
    that leaves the index. *)
Definition incrementalReverseChanges (g : Graph) (removed : list QueryKey)
    (nodes : list (QueryKey * nodeEntry)) : IncErr + gmap dependencyKey (gset QueryKey) :=
  match retireRemoved g removed newEditor with
  | inl err => inl err
  | inr e =>
      match replaceChanged g nodes e with
      | inl err => inl err
      | inr e =>
          match validateRemovedQueries removed e with
          | inl err => inl err
          | inr e =>
              match flushPending (elements (dom (editor_pending e))) e with
              | inl err => inl err
              | inr e => inr (editor_roots e)
              end
          end
      end
  end.

(** ** Retired inputs *)

Definition inputDepsOf (deps : list dependency) : gset InputKey :=
  list_to_set (omap (λ d, match dependency_key d with inputDep k => Some k | queryDep _ => None end) deps).

Definition previousDeps (key : QueryKey) : list dependency :=
  match generation_nodes current !! key with Some entry => nodeEntry_deps entry | None => [] end.

(** [incrementalRetirementCandidates]: inputs the session changed, and those a
    removed or changed entry read before. *)
Definition incrementalRetirementCandidates (retire : bool) (s : Session) (removed : list QueryKey)
    (nodes : list (QueryKey * nodeEntry)) : gset InputKey :=
  if retire then
    dom (Session_inputChanges s)
    ∪ ⋃ ((λ key, inputDepsOf (previousDeps key)) <$> removed)
    ∪ ⋃ ((λ kv : QueryKey * nodeEntry,
            if sameDependencyKeys (previousDeps kv.1) (nodeEntry_deps kv.2)
               && bool_decide (kv.1 ∈ dom (generation_nodes current)) then ∅
            else inputDepsOf (previousDeps kv.1)) <$> nodes)
  else ∅.

(** [incrementalRetiredInputs]: the candidates nothing depends on. *)
Definition incrementalRetiredInputs (candidates : gset InputKey)
    (changes : gmap dependencyKey (gset QueryKey)) : list InputKey :=
  sortInputKeys (elements (filter (λ key,
    match changes !! inputDep key with
    | Some root => root
    | None => reverseRootOf current (inputDep key)
    end = ∅) candidates)).

(** ** The next generation *)

Fixpoint sealInputs (generation : N) (inputs : list (InputKey * inputEntry)) : option IncErr :=
  match inputs with
  | [] => None
  | (key, entry) :: rest =>
      match sealCommittedInputEntry entry with
      | inl err => Some err
      | inr entry =>
          if bool_decide (generation < inputEntry_changedAt entry)
          then Some (ErrText "changed generation exceeds the commit")
          else sealInputs generation rest
      end
  end.

Fixpoint sealNodes (g : Graph) (generation : N) (nodes : list (QueryKey * nodeEntry)) : option IncErr :=
  match nodes with
  | [] => None
  | (key, entry) :: rest =>
      match sealCommittedNodeEntry g key entry generation with
      | inl err => Some err
      | inr _ => sealNodes g generation rest
      end
  end.

(** The edges of the index after the changes. *)
Definition applyReverseChanges (reverse changes : gmap dependencyKey (gset QueryKey))
    : gmap dependencyKey (gset QueryKey) :=
  filter (λ kv : dependencyKey * gset QueryKey, kv.2 ≠ ∅) changes
    ∪ filter (λ kv : dependencyKey * gset QueryKey, changes !! kv.1 = None) reverse.

Record graphCommitPlan := mkPlan {
  plan_generation : graphGeneration;
  plan_retiredInputs : list InputKey }.

(** [applyIncrementalCommittedInputs]: the changes over the committed inputs,
    without the retired ones. *)
Definition applyIncrementalCommittedInputs (changes : gmap InputKey inputEntry) (retired : list InputKey)
    : gmap InputKey inputEntry :=
  filter (λ kv : InputKey * inputEntry, kv.1 ∉ retired) (changes ∪ generation_inputs current).

(** [buildIncrementalGraphGeneration]: the committed trees with the plan's
    changes. *)
Definition buildIncrementalGraphGeneration (g : Graph) (target : N) (inputs : gmap InputKey inputEntry)
    (nodes : gmap QueryKey nodeEntry) (removed : gset QueryKey)
    (changes : gmap dependencyKey (gset QueryKey)) (counters : gmap QueryKey NodeCounters)
    (retired : list InputKey) : IncErr + graphGeneration :=
  if negb (bool_decide (target = generation_number current + 1))
  then inl (ErrText "incremental graph update has invalid provenance")
  else
    match sealInputs target (map_to_list inputs) with
    | Some err => inl err
    | None =>
        match sealNodes g target (map_to_list nodes) with
        | Some err => inl err
        | None =>
            inr (mkGraphGeneration target
                   (applyIncrementalCommittedInputs inputs retired)
                   (nodes ∪ filter (λ kv : QueryKey * nodeEntry, kv.1 ∉ removed) (generation_nodes current))
                   (applyReverseChanges (generation_reverse current) changes)
                   ((generation_dirty current ∖ removed ∖ dom nodes)
                      ∪ dom (filter (λ kv : QueryKey * nodeEntry, nodeEntry_dirty kv.2 = true) nodes))
                   (filter (λ kv : QueryKey * NodeCounters, kv.1 ∉ removed) counters))
        end
    end.

(** [prepareIncrementalGraphCommitLocked]. *)
Definition prepareIncrementalGraphCommit (g : Graph) (s : Session) : IncErr + graphCommitPlan :=
  let removed := incrementalRemovedQueries s in
  let nodes := keptNodes s in
  let candidates :=
    incrementalRetirementCandidates (Graph_retireUnreferencedInputs g) s removed (map_to_list nodes) in
  match incrementalReverseChanges g removed (map_to_list nodes) with
  | inl err => inl err
  | inr changes =>
      let retired := incrementalRetiredInputs candidates changes in
      match applyCounterDeltas (generation_counters current) (Session_removedQueries s)
              (map_to_list (Session_counterDeltas s)) with
      | inl err => inl err
      | inr counters =>
          match buildIncrementalGraphGeneration g (Session_targetGeneration s) (Session_inputChanges s)
                  nodes (Session_removedQueries s) changes counters retired with
          | inl err => inl err
          | inr generation => inr (mkPlan generation retired)
          end
      end
  end.
End editor.

(** [authenticateReplacementReverseRoots] and [validateReplacementRemovedQueries]. *)
Definition emptyReverseRoot (reverse : gmap dependencyKey (gset QueryKey)) : bool :=
  existsb (λ kv : dependencyKey * gset QueryKey, bool_decide (kv.2 = ∅)) (map_to_list reverse).

Definition removedRetainsDependents (reverse : gmap dependencyKey (gset QueryKey))
    (removed : gset QueryKey) : bool :=
  existsb (λ key, negb (bool_decide (default ∅ (reverse !! queryDep key) = ∅))) (elements removed).

(** [prepareReplacementRetirement]: the staged inputs nothing depends on. *)
Definition prepareReplacementRetirement (retire : bool) (inputs : gmap InputKey inputEntry)
    (reverse : gmap dependencyKey (gset QueryKey)) : list InputKey :=
  if retire
  then sortInputKeys (elements (filter (λ key, default ∅ (reverse !! inputDep key) = ∅) (dom inputs)))
  else [].

(** [newGraphGeneration] with an empty dirty index, which must agree with the
    entries ([validateCommittedDirtyTree]). *)
Definition newGraphGeneration (g : Graph) (number : N) (inputs : gmap InputKey inputEntry)
    (nodes : gmap QueryKey nodeEntry) (reverse : gmap dependencyKey (gset QueryKey))
    (counters : gmap QueryKey NodeCounters) : IncErr + graphGeneration :=
  match sealInputs number (map_to_list inputs) with
  | Some err => inl err
  | None =>
      match sealNodes g number (map_to_list nodes) with
      | Some err => inl err
      | None =>
          if existsb (λ kv : QueryKey * nodeEntry, nodeEntry_dirty kv.2) (map_to_list nodes)
          then inl (ErrText "incremental committed dirty index disagrees with query state")
          else inr (mkGraphGeneration number inputs nodes reverse ∅ counters)
      end
  end.

(** [prepareReplacementGraphCommitFromCounters]: the generation of a cold or
    first session holds nothing but what it staged. *)
Definition prepareReplacementGraphCommit (g : Graph) (s : Session) : IncErr + graphCommitPlan :=
  match replacementReverseRoots s with
  | inl err => inl err
  | inr reverse =>
      if emptyReverseRoot reverse
      then inl (ErrText "incremental replacement reverse dependency is empty")
      else if removedRetainsDependents reverse (Session_removedQueries s)
      then inl (ErrText "removed incremental query retains dependents")
      else
        let retired := prepareReplacementRetirement (Graph_retireUnreferencedInputs g)
                         (Session_inputChanges s) reverse in
        match applyCounterDeltas (generation_counters (Graph_current g)) (Session_removedQueries s)
                (map_to_list (Session_counterDeltas s)) with
        | inl err => inl err
        | inr counters =>
            match newGraphGeneration g (Session_targetGeneration s)
                    (filter (λ kv : InputKey * inputEntry, kv.1 ∉ retired) (Session_inputChanges s))
                    (keptNodes s) reverse counters with
            | inl err => inl err
            | inr generation => inr (mkPlan generation retired)
            end
        end
  end.

(** ** Publication *)

(** A function of the caller: it may panic and it may abort the session. *)
Record Callback := mkCallback {
  callback_panics : bool;
  callback_aborts : bool }.

Record CommitPublication := mkPublication {
  Publication_Publish : option Callback;
  Publication_Complete : option Callback;
  Publication_Abort : option Callback }.

Definition emptyPublication : CommitPublication := mkPublication None None None.

(** The verifier's answer to the observations and whether the session was
    aborted while it ran. *)
Definition Verifier := list InputRevision → (IncErr + bool) * bool.

(** What preparing the caller's state gives: the publication, an error, and
    whether the session was aborted meanwhile. *)
Definition Preparer := list InputKey → (CommitPublication * option IncErr) * bool.

Inductive CommitEvent :=
| EventVerify (observations : list InputRevision)
| EventPrepare (retired : list InputKey)
| EventPublish
| EventInstall (generation : graphGeneration)
| EventComplete
| EventRestore
| EventAbort.

Record CommitWorld := mkCommitWorld {
  commit_graph : Graph;
  commit_session : Session;
  commit_publication : CommitPublication;
  commit_events : list CommitEvent }.

Definition CM (A : Type) : Type := CommitWorld → CommitWorld * (IncErr + A).

#[export] Instance CM_ret : MRet CM := λ A x w, (w, inr x).
#[export] Instance CM_bind : MBind CM := λ A B k m w,
  match m w with
  | (w, inl err) => (w, inl err)
  | (w, inr x) => k x w
  end.

Definition raise {A} (err : IncErr) : CM A := λ w, (w, inl err).
Definition commitWorld : CM CommitWorld := λ w, (w, inr w).
Definition commitLift {A} (r : IncErr + A) : CM A := λ w, (w, r).

(** An error that is reported with a prefix. *)
Definition wrapped {A} (text : string) (r : IncErr + A) : IncErr + A :=
  match r with inl err => inl (ErrWrap text err) | inr x => inr x end.

Definition onSession {A} (m : SM A) : CM A := λ w,
  let '(s, r) := m (commit_session w) in
  (mkCommitWorld (commit_graph w) s (commit_publication w) (commit_events w), r).

Definition event (e : CommitEvent) : CM unit := λ w,
  (mkCommitWorld (commit_graph w) (commit_session w) (commit_publication w)
     (commit_events w ++ [e]), inr tt).

Definition setCurrent (generation : graphGeneration) (g : Graph) : Graph :=
  mkGraph (Graph_definitions g) (Graph_provider g) (Graph_retireUnreferencedInputs g)
    (Graph_valueAuthority g) generation.

Definition installGeneration (generation : graphGeneration) : CM unit := λ w,
  (mkCommitWorld (setCurrent generation (commit_graph w)) (commit_session w) (commit_publication w)
     (commit_events w), inr tt).

Definition setPublication (p : CommitPublication) : CM unit := λ w,
  (mkCommitWorld (commit_graph w) (commit_session w) p (commit_events w), inr tt).

(** [requestPublicationAbort] while the publication is under way. *)
Definition requestAbort (s : Session) : Session :=
  match Session_publicationState s with
  | sessionPublicationActive => set_publicationState sessionPublicationAborted s
  | sessionPublicationOpen => set_publicationState sessionPublicationClosed s
  | _ => s
  end.

Definition abortIf (aborts : bool) : CM unit :=
  if aborts then onSession (modify requestAbort) else mret tt.

Definition publicationActive : CM unit := λ w,
  if bool_decide (Session_publicationState (commit_session w) = sessionPublicationActive)
  then (w, inr tt) else (w, inl ErrSessionClosed).

(** [callCommitPublicationPhase]. *)
Definition callPhase (e : CommitEvent) (call : option Callback) : CM unit :=
  match call with
  | None => mret tt
  | Some call =>
      event e;;
      abortIf (callback_aborts call);;
      if callback_panics call
      then raise (ErrText "incremental publication panicked") else mret tt
  end.

Definition commitGraph : CM Graph := λ w, (w, inr (commit_graph w)).
Definition commitSession : CM Session := λ w, (w, inr (commit_session w)).

(** [matchesGeneration]. *)
Definition matchesGeneration : CM unit := λ w,
  if bool_decide (generation_number (Graph_current (commit_graph w)) =
                  generation_number (Session_base (commit_session w)))
  then (w, inr tt) else (w, inl ErrCommitConflict).

(** [verifyCommitInputs]. *)
Definition verifyCommitInputs (verifier : Verifier) (observations : list InputRevision) : CM unit :=
  event (EventVerify observations);;
  let '(answer, aborts) := verifier observations in
  abortIf aborts;;
  match answer with
  | inl err => raise (ErrWrap "incremental input verification failed" err)
  | inr false => raise ErrRevisionConflict
  | inr true => onSession ctxErr
  end.

(** An error after the generation was installed puts the previous one back. *)
Definition orRestore (previous : graphGeneration) (m : CM unit) : CM unit := λ w,
  match m w with
  | (w, inl err) => (event EventRestore;; installGeneration previous;; raise err) w
  | (w, inr x) => (w, inr x)
  end.

(** [completePublication]. *)
Definition completePublication : CM unit := λ w,
  if bool_decide (Session_publicationState (commit_session w) = sessionPublicationActive)
  then onSession (modify (set_publicationState sessionPublicationClosed)) w
  else (w, inl ErrSessionClosed).

(** [publishPreparedGraphCommitLocked] and [installPreparedGeneration]. *)
Definition publishPrepared (plan : graphCommitPlan) : CM unit :=
  g ← commitGraph;
  w ← commitWorld;
  event (EventInstall (plan_generation plan));;
  installGeneration (plan_generation plan);;
  orRestore (Graph_current g) (
    publicationActive;;
    callPhase EventComplete (Publication_Complete (commit_publication w));;
    publicationActive;;
    completePublication);;
  onSession (modify (set_retiredInputs (plan_retiredInputs plan))).

(** The part of a publication under the commit lock ([verifyAndPublishGraphCommit],
    [PublishWithPreparedPublisher]). Only the second skips the checks of the
    generation and of the session between two steps that cannot change them. *)
Definition publishLocked (verifier : Verifier) (prepare : option Preparer)
    (plan : Graph → Session → IncErr + graphCommitPlan) (observations : list InputRevision) : CM unit :=
  matchesGeneration;;
  verifyCommitInputs verifier observations;;
  publicationActive;;
  matchesGeneration;;
  g ← commitGraph;
  s ← commitSession;
  plan ← commitLift (plan g s);
  match prepare with
  | None => mret tt
  | Some prepare =>
      event (EventPrepare (plan_retiredInputs plan));;
      let '(publication, err, aborts) := prepare (plan_retiredInputs plan) in
      setPublication publication;;
      abortIf aborts;;
      match err with
      | Some err => raise (ErrWrap "preparing incremental publication" err)
      | None => mret tt
      end
  end;;
  publicationActive;;
  onSession ctxErr;;
  w ← commitWorld;
  callPhase EventPublish (Publication_Publish (commit_publication w));;
  publicationActive;;
  publishPrepared plan.

(** [discard], which drops what the session holds. *)
Definition discard (s : Session) : Session :=
  mkSession (Session_graph s) (Session_base s) (Session_targetGeneration s) (Session_cold s)
    (Session_replacement s) (Session_resolver s) (Session_ctx s) (Session_started s) false false
    (Session_failure s) sessionPublicationClosed ∅ ∅ ∅ ∅ (Session_active s) (Session_stack s) ∅ ∅ ∅ ∅
    (Session_retiredInputs s).

(** The deferred function of a publication: the caller's abort phase runs when
    the publication failed, and the session is discarded either way. *)
Definition finishPublication (m : CM unit) : CM unit := λ w,
  match m w with
  | (w, inr _) => (mkCommitWorld (commit_graph w) (discard (commit_session w)) (commit_publication w)
                     (commit_events w), inr tt)
  | (w, inl err) =>
      let events := match Publication_Abort (commit_publication w) with
                    | Some _ => commit_events w ++ [EventAbort]
                    | None => commit_events w
                    end in
      (mkCommitWorld (commit_graph w) (discard (commit_session w)) (commit_publication w) events, inl err)
  end.

(** [beginPublication]. *)
Definition beginPublication : SM unit := λ s,
  match Session_publicationState s with
  | sessionPublicationOpen =>
      match readyMutationContext (set_publicationState sessionPublicationActive s) with
      | (s, inl err) => (discard s, inl err)
      | (s, inr _) => (s, inr tt)
      end
  | _ => (s, inl ErrSessionClosed)
  end.

(** [m], with the session discarded when it fails. *)
Definition orDiscard {A} (m : CM A) : CM A := λ w,
  match m w with
  | (w, inl err) => (mkCommitWorld (commit_graph w) (discard (commit_session w)) (commit_publication w)
                       (commit_events w), inl err)
  | (w, inr x) => (w, inr x)
  end.

(** The errors of [m], reported with a prefix. *)
Definition wrapping {A} (text : string) (m : CM A) : CM A := λ w,
  match m w with (w, r) => (w, wrapped text r) end.

(** [prepareReplacementCommitFromCounters]: the plan is made beside the two
    validations, whose errors go first. *)
Definition prepareReplacementCommit (g : Graph) (s : Session)
    : CM (graphCommitPlan * list InputRevision) :=
  onSession (check (validateNodeChanges s));;
  observations ← commitLift (commitObservations s);
  onSession ctxErr;;
  plan ← commitLift (prepareReplacementGraphCommit g s);
  mret (plan, observations).

(** [prepareGraphCommitReady] for a replacement, whose plan is made now, and
    [prepareGraphCommit] for an update, whose plan is made under the lock. *)
Definition prepareGraphCommit (g : Graph) (s : Session)
    : CM (option graphCommitPlan * list InputRevision) :=
  if Session_replacement s then
    prepared ← wrapping "preparing incremental graph publication" (prepareReplacementCommit g s);
    onSession ctxErr;;
    matchesGeneration;;
    mret (Some prepared.1, prepared.2)
  else
    onSession (orFail (check (validateNodeChanges s)));;
    observations ← onSession (orFail (lift (commitObservations s)));
    mret (None, observations).

(** The plan under the lock ([resolveGraphCommitPlanLocked]). *)
Definition resolvePlan (prepared : option graphCommitPlan) (g : Graph) (s : Session)
    : IncErr + graphCommitPlan :=
  match prepared with
  | Some plan => inr plan
  | None => wrapped "preparing incremental graph publication"
              (prepareIncrementalGraphCommit (Graph_current g) g s)
  end.

(** What [CommitWithPreparedPublisher] does once the publication has begun. *)
Definition publishSession (verifier : Verifier) (prepare : option Preparer) : CM unit :=
  orDiscard matchesGeneration;;
  onSession (modify (set_committing true));;
  g ← commitGraph;
  s ← commitSession;
  prepared ← orDiscard (prepareGraphCommit g s);
  finishPublication (publishLocked verifier prepare (resolvePlan prepared.1) prepared.2).

(** [CommitWithPreparedPublisher]; [Commit] and [CommitWithPublisher] are its
    calls with a publication of at most one phase. *)
Definition CommitWithPreparedPublisher (ctx : option nat) (verifier : option Verifier)
    (prepare : option Preparer) : CM unit :=
  onSession (modify (set_ctx ctx));;
  onSession beginPublication;;
  match verifier with
  | None => orDiscard (onSession (fail ErrVerifierRequired))
  | Some verifier => publishSession verifier prepare
  end.

(** A commit of [s] against the graph: the graph, the session, what happened,
    and the error. *)
Definition commit (g : Graph) (s : Session) (ctx : option nat) (verifier : option Verifier)
    (prepare : option Preparer) : CommitWorld * (IncErr + unit) :=
  CommitWithPreparedPublisher ctx verifier prepare (mkCommitWorld g s emptyPublication []).
