(* ===== verification/IncEditor.v ===== *)
(** * The incremental graph: the reverse index across a commit

    The editor of [commit.go] turns the reverse index of the base into that of
    the next generation by the edges that entries lost and gained, found by a
    merge of their sorted dependency lists. *)

From stdpp Require Import base gmap strings sorting sets list list_numbers.
From S2P Require Import Prelude GoStd KeyOrder IncGraph IncSession IncEval IncIndex IncCommit.

Open Scope N_scope.

(** ** The order of dependency keys *)

Definition dependencyKey_lt (a b : dependencyKey) : Prop := compareDependencyKeys a b = Lt.

Lemma compareDependencyKeys_eq a b : compareDependencyKeys a b = Eq ↔ a = b.
Proof.
  destruct a as [a|a], b as [b|b]; cbn; try (split; [done|congruence]).
  all: rewrite compare_Eq; split; congruence.
Qed.

Lemma compareDependencyKeys_gt a b : compareDependencyKeys a b = Gt ↔ dependencyKey_lt b a.
Proof.
  unfold dependencyKey_lt. destruct a as [a|a], b as [b|b]; cbn; try done; apply compare_Gt.
Qed.

Lemma dependencyKey_lt_trans a b c : dependencyKey_lt a b → dependencyKey_lt b c → dependencyKey_lt a c.
Proof.
  unfold dependencyKey_lt. destruct a as [a|a], b as [b|b], c as [c|c]; cbn; try done; apply klt_trans.
Qed.

Lemma dependencyKey_lt_irrefl a : ¬ dependencyKey_lt a a.
Proof. unfold dependencyKey_lt. by rewrite (proj2 (compareDependencyKeys_eq a a) eq_refl). Qed.

(** Strictly sorted dependencies, as a sealed entry has them. *)
Definition depsSorted (deps : list dependency) : Prop :=
  StronglySorted dependencyKey_lt (depKeys deps).

Lemma depsSorted_nil : depsSorted [].
Proof. constructor. Qed.

Lemma depsSorted_cons d deps :
  depsSorted (d :: deps) ↔ (∀ k, k ∈ depKeys deps → dependencyKey_lt (dependency_key d) k) ∧ depsSorted deps.
Proof.
  unfold depsSorted, depKeys. rewrite fmap_cons. split.
  - intros Hs. apply StronglySorted_inv in Hs as [Hs Hf]. split; [|done]. by apply Forall_forall.
  - intros [Hf Hs]. constructor; [done|]. by apply Forall_forall.
Qed.

Lemma depsSorted_head d deps : depsSorted (d :: deps) → dependency_key d ∉ depKeys deps.
Proof. intros [Hlt _]%depsSorted_cons Hin. by eapply dependencyKey_lt_irrefl, Hlt. Qed.

Lemma depsSorted_lt d n deps :
  depsSorted (n :: deps) → dependencyKey_lt (dependency_key d) (dependency_key n) →
  dependency_key d ∉ depKeys (n :: deps).
Proof.
  intros [Hlt _]%depsSorted_cons Hd. rewrite elem_of_depKeys_cons. intros [Heq|Hin].
  - rewrite Heq in Hd. by eapply dependencyKey_lt_irrefl.
  - apply Hlt in Hin. eapply dependencyKey_lt_irrefl, dependencyKey_lt_trans; eassumption.
Qed.

Lemma validateDependencyList_sorted previous deps n :
  validateDependencyList previous deps n = None →
  depsSorted deps ∧ (∀ d, d ∈ deps → dependency_changedAt d <= n)
  ∧ match previous with
    | Some p => ∀ k, k ∈ depKeys deps → dependencyKey_lt (dependency_key p) k
    | None => True
    end.
Proof.
  revert previous. induction deps as [|d deps IH]; intros previous; cbn [validateDependencyList].
  - intros _. split_and!; [constructor|intros d Hd; by apply not_elem_of_nil in Hd|].
    destruct previous; [|done]. intros k Hk. by apply not_elem_of_nil in Hk.
  - case_bool_decide as Hat; [done|]. destruct (validateExactQueryObservationDependency d); [done|].
    intros Hv. assert (match previous with
                       | Some p => dependencyKey_lt (dependency_key p) (dependency_key d)
                       | None => True end ∧ validateDependencyList (Some d) deps n = None) as [Hp Hrest].
    { destruct previous as [p|]; [|done]. case_bool_decide as Hc; [done|]. by split. }
    apply IH in Hrest as (Hs & Hle & Hlt). split_and!.
    + by apply depsSorted_cons.
    + intros d' Hd'. apply elem_of_cons in Hd' as [->|Hd']; [lia|by apply Hle].
    + destruct previous as [p|]; [|done]. intros k. rewrite elem_of_depKeys_cons.
      intros [->|Hk]; [done|]. eapply dependencyKey_lt_trans; [done|by apply Hlt].
Qed.

(** ** The editor *)

Section editor.
Context (current : graphGeneration).

Definition editorRootAt (e : reverseSetEditor) (d : dependencyKey) : gset QueryKey :=
  match editor_roots e !! d with Some root => root | None => reverseRootOf current d end.

(** [q] is a dependent of [d] as the editor has it. *)
Definition member (e : reverseSetEditor) (d : dependencyKey) (q : QueryKey) : Prop :=
  match (default ∅ (editor_pending e !! d) : gmap QueryKey bool) !! q with
  | Some present => present = true
  | None => q ∈ editorRootAt e d
  end.

Lemma editorBaseRoot_inr e d root : editorBaseRoot current e d = inr root → root = editorRootAt e d.
Proof.
  unfold editorBaseRoot, ownedRoot, editorRootAt. destruct (editor_roots e !! d); case_match; congruence.
Qed.

Lemma setMembership_inr d q present e e' :
  setMembership current d q present e = inr e' →
  ∀ d' q', member e' d' q' ↔ if decide (d' = d ∧ q' = q) then present = true else member e d' q'.
Proof.
  unfold setMembership. destruct (editorBaseRoot current e d) as [|root] eqn:Er; [done|].
  case_match; [done|]. intros [= <-] d' q'. unfold member, editorRootAt. cbn.
  destruct (decide (d' = d)) as [->|Hd].
  - rewrite lookup_insert_eq. cbn. destruct (decide (q' = q)) as [->|Hq].
    + by rewrite lookup_insert_eq, decide_True.
    + rewrite lookup_insert_ne by done. rewrite decide_False by naive_solver. done.
  - rewrite lookup_insert_ne by done. rewrite decide_False by naive_solver. done.
Qed.

(** The edges [next] has and [previous] had not come, those only [previous] had
    go, and the others stay as they are. *)
Definition replaced (e : reverseSetEditor) (key : QueryKey) (previous next : list dependency)
    (d : dependencyKey) (q : QueryKey) : Prop :=
  if decide (q = key)
  then (d ∈ depKeys next ∧ (d ∉ depKeys previous))
       ∨ ((d ∈ depKeys next ↔ d ∈ depKeys previous) ∧ member e d q)
  else member e d q.

(** One flipped membership, then the rest. *)
Lemma replaced_step e e1 key flipped present previous next previous' next' d q :
  (∀ d' q', member e1 d' q' ↔ if decide (d' = flipped ∧ q' = key) then present = true else member e d' q') →
  (d = flipped → (d ∉ depKeys previous) ∧ (d ∉ depKeys next)
                 ∧ if present then d ∈ depKeys next' ∧ (d ∉ depKeys previous')
                   else d ∈ depKeys previous' ∧ (d ∉ depKeys next')) →
  (d ≠ flipped → (d ∈ depKeys previous' ↔ d ∈ depKeys previous) ∧ (d ∈ depKeys next' ↔ d ∈ depKeys next)) →
  replaced e1 key previous next d q ↔ replaced e key previous' next' d q.
Proof.
  intros Hm Heq Hne. unfold replaced. specialize (Hm d q). destruct (decide (q = key)) as [->|Hq].
  2: { rewrite decide_False in Hm by naive_solver. done. }
  destruct (decide (d = flipped)) as [->|Hd].
  - rewrite decide_True in Hm by done. destruct (Heq eq_refl) as (Hp & Hn & Hif).
    destruct present; naive_solver.
  - rewrite decide_False in Hm by naive_solver. destruct (Hne Hd). naive_solver.
Qed.

Lemma editorReplace_inr key previous next e e' :
  depsSorted previous → depsSorted next →
  editorReplace current key previous next e = inr e' →
  ∀ d q, member e' d q ↔ replaced e key previous next d q.
Proof.
  revert next e. induction previous as [|p previous IHp]; intros next.
  - induction next as [|n next IHn]; intros e _ Hn.
    + intros [= <-] d q. unfold replaced. destruct (decide (q = key)); [|done].
      change (depKeys []) with (@nil dependencyKey). rewrite elem_of_nil. tauto.
    + cbn [editorReplace]. destruct (setMembership _ _ _ _ _) as [|e1] eqn:Es; [done|].
      apply depsSorted_head in Hn as Hnot. apply depsSorted_cons in Hn as [_ Hn]. intros Hrest d q.
      rewrite (IHn e1 depsSorted_nil Hn Hrest d q). change (depKeys []) with (@nil dependencyKey) in *.
      eapply replaced_step; [exact (setMembership_inr _ _ _ _ _ Es)| |].
      * intros ->. split_and!; [apply not_elem_of_nil|done| |apply not_elem_of_nil].
        apply elem_of_depKeys_cons. by left.
      * intros Hd. split; [done|]. rewrite elem_of_depKeys_cons. naive_solver.
  - induction next as [|n next IHn]; intros e Hp Hn.
    + cbn [editorReplace]. destruct (setMembership _ _ _ _ _) as [|e1] eqn:Es; [done|].
      apply depsSorted_head in Hp as Hnot. apply depsSorted_cons in Hp as [_ Hp]. intros Hrest d q.
      rewrite (IHp [] e1 Hp Hn Hrest d q). eapply replaced_step; [exact (setMembership_inr _ _ _ _ _ Es)| |].
      * intros ->. split_and!; [done|apply not_elem_of_nil| |apply not_elem_of_nil].
        apply elem_of_depKeys_cons. by left.
      * intros Hd. split; [|done]. rewrite elem_of_depKeys_cons. naive_solver.
    + cbn [editorReplace].
      destruct (compareDependencyKeys (dependency_key p) (dependency_key n)) eqn:Ec.
      * apply compareDependencyKeys_eq in Ec. apply depsSorted_head in Hp as Hnp.
        apply depsSorted_head in Hn as Hnn. apply depsSorted_cons in Hp as [_ Hp].
        apply depsSorted_cons in Hn as [_ Hn]. intros Hrest d q. rewrite (IHp next e Hp Hn Hrest d q).
        unfold replaced. destruct (decide (q = key)) as [->|]; [|done].
        rewrite !elem_of_depKeys_cons. rewrite <-Ec in *.
        destruct (decide (d = dependency_key p)) as [->|]; naive_solver.
      * pose proof (depsSorted_lt p n next Hn Ec) as Hnn.
        destruct (setMembership _ _ _ _ _) as [|e1] eqn:Es; [done|].
        apply depsSorted_head in Hp as Hnot. apply depsSorted_cons in Hp as [_ Hp]. intros Hrest d q.
        rewrite (IHp (n :: next) e1 Hp Hn Hrest d q).
        eapply replaced_step; [exact (setMembership_inr _ _ _ _ _ Es)| |].
        -- intros ->. split_and!; [done..| |done]. apply elem_of_depKeys_cons. by left.
        -- intros Hd. split; [|done]. rewrite elem_of_depKeys_cons. naive_solver.
      * apply compareDependencyKeys_gt in Ec. pose proof (depsSorted_lt n p previous Hp Ec) as Hnp.
        destruct (setMembership _ _ _ _ _) as [|e1] eqn:Es; [done|].
        apply depsSorted_head in Hn as Hnot. apply depsSorted_cons in Hn as [_ Hn]. intros Hrest d q.
        rewrite (IHn e1 Hp Hn Hrest d q).
        eapply replaced_step; [exact (setMembership_inr _ _ _ _ _ Es)| |].
        -- intros ->. split_and!; [done..| |done]. apply elem_of_depKeys_cons. by left.
        -- intros Hd. split; [done|]. rewrite elem_of_depKeys_cons. naive_solver.
Qed.

(** ** From the base to the next generation *)

(** The edges of the base. *)
Definition baseEdge (d : dependencyKey) (q : QueryKey) : Prop :=
  ∃ n, generation_nodes current !! q = Some n ∧ hasEdge n d.

Context (Hsorted : ∀ q n, generation_nodes current !! q = Some n → depsSorted (nodeEntry_deps n)).

Lemma openCommitted_deps g key entry entry' :
  openCommittedNodeEntry g key entry = inr entry' → nodeEntry_deps entry' = nodeEntry_deps entry.
Proof using. intros ->%openCommitted_inr. done. Qed.

Lemma retireRemoved_inr g removed e e' :
  NoDup removed → (∀ q d, q ∈ removed → member e d q ↔ baseEdge d q) →
  retireRemoved current g removed e = inr e' →
  ∀ d q, member e' d q ↔ (q ∉ removed) ∧ member e d q.
Proof using Hsorted.
  revert e. induction removed as [|key removed IH]; intros e Hnd Hbase; cbn [retireRemoved].
  - intros [= <-] d q. split; [|naive_solver]. intros Hm. split; [apply not_elem_of_nil|done].
  - apply NoDup_cons in Hnd as [Hnot Hnd].
    assert (∀ d, member e d key ↔ baseEdge d key) as Hkey by (intros d; apply Hbase, elem_of_cons; by left).
    destruct (generation_nodes current !! key) as [committed|] eqn:En.
    + destruct (openCommittedNodeEntry g key committed) as [|previous] eqn:Eo; [done|].
      apply openCommitted_inr in Eo as ->. destruct (editorReplace _ _ _ _ _) as [|e1] eqn:Er; [done|].
      pose proof (editorReplace_inr _ _ _ _ _ (Hsorted _ _ En) depsSorted_nil Er) as Hr. intros Hrest d q.
      assert (∀ q' d', q' ∈ removed → member e1 d' q' ↔ baseEdge d' q') as Hbase1.
      { intros q' d' Hq'. rewrite Hr. unfold replaced. rewrite decide_False by (intros ->; done).
        apply Hbase, elem_of_cons. by right. }
      rewrite (IH e1 Hnd Hbase1 Hrest d q), Hr, not_elem_of_cons. unfold replaced.
      case_decide as Hq; [|naive_solver]. subst q. change (depKeys []) with (@nil dependencyKey).
      rewrite elem_of_nil, Hkey. unfold baseEdge, hasEdge. rewrite En. naive_solver.
    + intros Hrest d q. rewrite (IH e Hnd) by (done || (intros; apply Hbase, elem_of_cons; by right)).
      rewrite not_elem_of_cons. split; [|naive_solver]. intros [Hn Hm]. split_and!; [|done..].
      intros ->. apply Hkey in Hm as (n & Hn' & _). congruence.
Qed.

Lemma replaceChanged_inr g (nodes : list (QueryKey * nodeEntry)) e e' :
  NoDup nodes.*1 → (∀ q n, (q, n) ∈ nodes → depsSorted (nodeEntry_deps n)) →
  (∀ q d, q ∈ nodes.*1 → member e d q ↔ baseEdge d q) →
  replaceChanged current g nodes e = inr e' →
  ∀ d q, member e' d q ↔ (∃ n, (q, n) ∈ nodes ∧ hasEdge n d) ∨ ((q ∉ nodes.*1) ∧ member e d q).
Proof using Hsorted.
  revert e. induction nodes as [|[key entry] nodes IH]; intros e Hnd Hso Hbase; cbn [replaceChanged].
  - intros [= <-] d q. cbn. split; [intros; right; split; [apply not_elem_of_nil|done]|].
    intros [(n & Hn & _)|[_ ?]]; [by apply not_elem_of_nil in Hn|done].
  - cbn in Hnd. apply NoDup_cons in Hnd as [Hnot Hnd].
    assert (∀ d, member e d key ↔ baseEdge d key) as Hkey by (intros d; apply Hbase; cbn; apply elem_of_cons; by left).
    assert (∀ n, (key, n) ∈ nodes → False) as Hno.
    { intros n Hn. apply Hnot. apply list_elem_of_fmap. by exists (key, n). }
    (* the rest of the list, from an editor that has [key] done *)
    assert (∀ e1, (∀ d q, member e1 d q ↔ if decide (q = key) then hasEdge entry d else member e d q) →
              replaceChanged current g nodes e1 = inr e' →
              ∀ d q, member e' d q ↔ (∃ n, (q, n) ∈ (key, entry) :: nodes ∧ hasEdge n d)
                                    ∨ ((q ∉ ((key, entry) :: nodes).*1) ∧ member e d q)) as Hstep.
    { intros e1 He1 Hrest d q. rewrite (IH e1 Hnd); [| | |exact Hrest].
      - rewrite He1. rewrite fmap_cons, not_elem_of_cons. cbn [fst]. setoid_rewrite elem_of_cons.
        destruct (decide (q = key)) as [->|Hne]; naive_solver.
      - intros q' n' Hn'. eapply Hso, elem_of_cons. by right.
      - intros q' d' Hq'. rewrite He1, decide_False by (intros ->; done). apply Hbase. cbn.
        apply elem_of_cons. by right. }
    assert (depsSorted (nodeEntry_deps entry)) as Hse by (eapply Hso, elem_of_cons; by left).
    destruct (generation_nodes current !! key) as [committed|] eqn:En.
    + destruct (openCommittedNodeEntry g key committed) as [|previous] eqn:Eo; [done|].
      apply openCommitted_inr in Eo as ->. destruct (sameDependencyKeys _ _) eqn:Esame.
      * apply bool_decide_eq_true in Esame. apply Hstep. intros d q. case_decide as Hq; [|done].
        subst q. rewrite Hkey. unfold baseEdge, hasEdge. rewrite En, <-Esame. naive_solver.
      * destruct (editorReplace _ _ _ _ _) as [|e1] eqn:Er; [done|].
        pose proof (editorReplace_inr _ _ _ _ _ (Hsorted _ _ En) Hse Er) as Hr. apply Hstep.
        intros d q. rewrite Hr. unfold replaced. case_decide as Hq; [|done]. subst q.
        rewrite Hkey. unfold baseEdge, hasEdge. rewrite En. 
        destruct (decide (d ∈ depKeys (nodeEntry_deps committed)));
          destruct (decide (d ∈ depKeys (nodeEntry_deps entry))); naive_solver.
    + destruct (editorReplace _ _ _ _ _) as [|e1] eqn:Er; [done|].
      pose proof (editorReplace_inr _ _ _ _ _ depsSorted_nil Hse Er) as Hr. apply Hstep.
      intros d q. rewrite Hr. unfold replaced. case_decide as Hq; [|done]. subst q.
      rewrite Hkey. unfold baseEdge, hasEdge. rewrite En. change (depKeys []) with (@nil dependencyKey).
      rewrite elem_of_nil. naive_solver.
Qed.
(** ** The roots at the end *)

Lemma elem_of_updateRoot root (membership : gmap QueryKey bool) q :
  q ∈ updateRoot root membership ↔
  match membership !! q with Some present => present = true | None => q ∈ root end.
Proof using.
  unfold updateRoot. rewrite elem_of_difference, elem_of_union, !elem_of_dom. unfold is_Some.
  setoid_rewrite map_lookup_filter_Some. cbn. destruct (membership !! q) as [[]|]; naive_solver.
Qed.

(** Reading a root keeps the memberships and settles those of its edge. *)
Lemma editorRoot_inr e d root e' :
  editorRoot current e d = inr (root, e') →
  (∀ q, q ∈ root ↔ member e d q) ∧ (∀ d' q, member e' d' q ↔ member e d' q)
  ∧ default ∅ (editor_pending e' !! d) = (∅ : gmap QueryKey bool)
  ∧ (∀ d', editor_pending e !! d' = None → editor_pending e' !! d' = None)
  ∧ (∀ d', default ∅ (editor_pending e !! d') = (∅ : gmap QueryKey bool) →
       default ∅ (editor_pending e' !! d') = (∅ : gmap QueryKey bool)).
Proof using.
  unfold editorRoot. destruct (editorBaseRoot current e d) as [|base] eqn:Eb; [done|].
  apply editorBaseRoot_inr in Eb as ->. destruct (editor_pending e !! d) as [m|] eqn:Ep.
  - case_bool_decide as Hm.
    + intros [= <- <-]. subst m. unfold member. rewrite Ep. cbn. by split_and!.
    + intros [= <- <-]. split_and!.
      * intros q. rewrite elem_of_updateRoot. unfold member. rewrite Ep. done.
      * intros d' q. unfold member, editorRootAt. cbn. destruct (decide (d' = d)) as [->|Hd].
        -- rewrite lookup_delete_eq, lookup_insert_eq, Ep. cbn. rewrite lookup_empty, elem_of_updateRoot. done.
        -- by rewrite lookup_delete_ne, lookup_insert_ne.
      * cbn. by rewrite lookup_delete_eq.
      * intros d' Hd'. cbn. destruct (decide (d' = d)) as [->|Hd]; [by rewrite lookup_delete_eq|].
        by rewrite lookup_delete_ne.
      * intros d' Hd'. cbn. destruct (decide (d' = d)) as [->|Hd]; [by rewrite lookup_delete_eq|].
        by rewrite lookup_delete_ne.
  - intros [= <- <-]. unfold member. rewrite Ep. by split_and!.
Qed.

Lemma validateRemovedQueries_inr removed e e' :
  validateRemovedQueries current removed e = inr e' → ∀ d q, member e' d q ↔ member e d q.
Proof using.
  revert e. induction removed as [|key removed IH]; intros e; cbn [validateRemovedQueries];
    [by intros [= <-]|].
  destruct (editorRoot current e (queryDep key)) as [|[root e1]] eqn:Er; [done|]. case_match; [done|].
  apply editorRoot_inr in Er as (Hroot & Hmem & Hpend & _). intros Hrest d q. rewrite (IH _ Hrest d q).
  rewrite <-Hmem. unfold member, editorRootAt. cbn. destruct (decide (d = queryDep key)) as [->|Hd].
  - rewrite Hpend, lookup_empty, lookup_insert_eq, Hroot, <-Hmem. unfold member, editorRootAt.
    by rewrite Hpend, lookup_empty.
  - by rewrite lookup_insert_ne.
Qed.

Lemma flushPending_inr deps e e' :
  flushPending current deps e = inr e' →
  (∀ d q, member e' d q ↔ member e d q)
  ∧ (∀ d, default ∅ (editor_pending e !! d) = (∅ : gmap QueryKey bool) →
       default ∅ (editor_pending e' !! d) = (∅ : gmap QueryKey bool))
  ∧ (∀ d, d ∈ deps → default ∅ (editor_pending e' !! d) = (∅ : gmap QueryKey bool)).
Proof using.
  revert e. induction deps as [|dep deps IH]; intros e; cbn [flushPending].
  - intros [= <-]. split_and!; [done..|]. intros d Hd. by apply not_elem_of_nil in Hd.
  - destruct (editorRoot current e dep) as [|[root e1]] eqn:Er; [done|].
    apply editorRoot_inr in Er as (_ & Hmem & Hpend & _ & Hkeep). intros Hrest.
    destruct (IH _ Hrest) as (Hmem' & Hkeep' & Hall). split_and!.
    + intros d q. by rewrite Hmem', Hmem.
    + intros d Hd. by apply Hkeep', Hkeep.
    + intros d Hd. apply elem_of_cons in Hd as [->|Hd]; [by apply Hkeep'|by apply Hall].
Qed.

(** The changed roots, put over the index of the base. *)
Lemma rootAt_applyReverseChanges (reverse changes : gmap dependencyKey (gset QueryKey)) d :
  rootAt (applyReverseChanges reverse changes) d =
  match changes !! d with Some root => root | None => rootAt reverse d end.
Proof using.
  unfold rootAt, applyReverseChanges. rewrite lookup_union.
  destruct (changes !! d) as [root|] eqn:Ec.
  - assert (filter (λ kv : dependencyKey * gset QueryKey, changes !! kv.1 = None) reverse !! d = None) as ->.
    { apply map_lookup_filter_None. right. intros x _. cbn. congruence. }
    rewrite (right_id_L None _).
    destruct (decide (root = ∅)) as [->|Hne].
    + assert (filter (λ kv : dependencyKey * gset QueryKey, kv.2 ≠ ∅) changes !! d = None) as ->; [|done].
      apply map_lookup_filter_None. right. intros x Hx. cbn. rewrite Ec in Hx. simplify_eq. tauto.
    + assert (filter (λ kv : dependencyKey * gset QueryKey, kv.2 ≠ ∅) changes !! d = Some root) as ->; [|done].
      by apply map_lookup_filter_Some.
  - assert (filter (λ kv : dependencyKey * gset QueryKey, kv.2 ≠ ∅) changes !! d = None) as ->.
    { apply map_lookup_filter_None. by left. }
    rewrite (left_id_L None _).
    destruct (reverse !! d) as [root|] eqn:Er.
    + assert (filter (λ kv : dependencyKey * gset QueryKey, changes !! kv.1 = None) reverse !! d = Some root) as ->; [|done].
      by apply map_lookup_filter_Some.
    + assert (filter (λ kv : dependencyKey * gset QueryKey, changes !! kv.1 = None) reverse !! d = None) as ->; [|done].
      apply map_lookup_filter_None. by left.
Qed.

(** The index after a commit is that of the entries after it. *)
Lemma incrementalReverseChanges_indexes g (removed : gset QueryKey) (nodes : gmap QueryKey nodeEntry) changes :
  indexes (generation_reverse current) (generation_nodes current) →
  (∀ q n, nodes !! q = Some n → depsSorted (nodeEntry_deps n)) →
  (∀ q n, nodes !! q = Some n → q ∉ removed) →
  incrementalReverseChanges current g (sortQueryKeys (elements removed)) (map_to_list nodes) = inr changes →
  indexes (applyReverseChanges (generation_reverse current) changes)
    (nodes ∪ filter (λ kv : QueryKey * nodeEntry, kv.1 ∉ removed) (generation_nodes current)).
Proof using Hsorted.
  intros Hidx Hso Hdis. unfold incrementalReverseChanges.
  destruct (retireRemoved current g _ newEditor) as [|e1] eqn:E1; [done|].
  destruct (replaceChanged current g (map_to_list nodes) e1) as [|e2] eqn:E2; [done|].
  destruct (validateRemovedQueries current _ e2) as [|e3] eqn:E3; [done|].
  destruct (flushPending current _ e3) as [|e4] eqn:E4; [done|]. intros [= <-].
  assert (∀ d q, member newEditor d q ↔ baseEdge d q) as H0.
  { intros d q. unfold member, editorRootAt, newEditor. cbn. rewrite !lookup_empty. cbn.
    rewrite lookup_empty. apply Hidx. }
  assert (∀ q, q ∈ sortQueryKeys (elements removed) ↔ q ∈ removed) as Hrem.
  { intros q. unfold sortQueryKeys. by rewrite sort_strings_Permutation, elem_of_elements. }
  pose proof (retireRemoved_inr g _ _ _ (proj2 (NoDup_Permutation_proper _ _ (sort_strings_Permutation _))
    (NoDup_elements removed)) (λ q d _, H0 d q) E1) as H1.
  assert (∀ q n, (q, n) ∈ map_to_list nodes ↔ nodes !! q = Some n) as Hlist by (intros; apply elem_of_map_to_list).
  assert (∀ q, q ∈ (map_to_list nodes).*1 ↔ ∃ n, nodes !! q = Some n) as Hkeys.
  { intros q. rewrite list_elem_of_fmap. split.
    - intros ([q' n] & -> & Hin). exists n. by apply Hlist.
    - intros [n Hn]. exists (q, n). split; [done|]. by apply Hlist. }
  assert (∀ d q, member e2 d q ↔ (∃ n, (q, n) ∈ map_to_list nodes ∧ hasEdge n d)
                                ∨ (q ∉ (map_to_list nodes).*1) ∧ member e1 d q) as H2.
  { apply (replaceChanged_inr g _ e1 e2); [apply NoDup_fst_map_to_list| | |exact E2].
    - intros q n Hn. apply Hlist in Hn. by eapply Hso.
    - intros q d Hq. apply Hkeys in Hq as [n Hn]. rewrite H1, H0, Hrem.
      pose proof (Hdis q n Hn). tauto. }
  pose proof (validateRemovedQueries_inr _ _ _ E3) as H3.
  destruct (flushPending_inr _ _ _ E4) as (H4 & Hkeep & Hall).
  intros d q. rewrite rootAt_applyReverseChanges.
  assert (q ∈ editorRootAt e4 d ↔ member e4 d q) as Hroot.
  { assert (default ∅ (editor_pending e4 !! d) = (∅ : gmap QueryKey bool)) as Hp;
      [|unfold member; by rewrite Hp, lookup_empty].
    destruct (decide (d ∈ elements (dom (editor_pending e3)))) as [Hin|Hin]; [by apply Hall|].
    apply Hkeep. rewrite elem_of_elements, not_elem_of_dom in Hin. by rewrite Hin. }
  change (match editor_roots e4 !! d with Some root => root | None => rootAt (generation_reverse current) d end)
    with (editorRootAt e4 d).
  rewrite Hroot, H4, H3, H2, H1, H0, Hrem, Hkeys. setoid_rewrite Hlist.
  setoid_rewrite lookup_union_Some_raw. setoid_rewrite map_lookup_filter_Some. cbn. unfold baseEdge.
  destruct (nodes !! q) as [n|] eqn:En; naive_solver.
Qed.
End editor.
