(* ===== verification/IncCommitProps.v ===== *)
(** * The incremental graph: generations

    The invariant of a committed generation, that a session begun on one starts
    with its own invariant, and that the generation a commit makes of a session
    has it again. *)

From stdpp Require Import base gmap strings sorting sets list list_numbers.
From S2P Require Import Prelude GoStd IncGraph IncSession IncEval IncIndex IncReference IncSound IncEvalSound IncApply IncCommit IncEditor.

Open Scope N_scope.

(** ** Graphs with the same queries *)

Lemma evals_graph g g' inp run v :
  (∀ key, queryRun g' key = queryRun g key) → evals g inp run v → evals g' inp run v.
Proof.
  intros Hq He. induction He;
    [constructor|eapply evals_input|eapply evals_observe|eapply evals_observe_value|eapply evals_query];
    rewrite ?Hq; eauto.
Qed.

Lemma queryValue_graph g g' inp key v :
  (∀ key, queryRun g' key = queryRun g key) → queryValue g inp key v → queryValue g' inp key v.
Proof. intros Hq (run & Hr & He). exists run. rewrite Hq. split; [done|]. by eapply evals_graph. Qed.

Lemma viewOk_graph g g' H inp nod :
  (∀ key, queryRun g' key = queryRun g key) → viewOk g H inp nod → viewOk g' H inp nod.
Proof.
  intros Hq [Hvi Hvq Hvr Hvf Hvv]. constructor; [done|done| |done|].
  - intros key e He. destruct (Hvr key e He) as (run & Hr & Hp). exists run. by rewrite Hq.
  - intros key e He Hc. eapply queryValue_graph; [done|]. by apply Hvv.
Qed.

(** ** The invariant of a generation *)

Record generationOk (g : Graph) (H : History) (gen : graphGeneration) : Prop := {
  go_view : viewOk g H (λ key, generation_inputs gen !! key) (λ key, generation_nodes gen !! key);
  go_input : ∀ key entry, generation_inputs gen !! key = Some entry →
    inputEntry_changedAt entry <= generation_number gen;
  go_node : ∀ key entry, generation_nodes gen !! key = Some entry →
    nodeEntry_changedAt entry <= generation_number gen
    ∧ ∀ d, d ∈ nodeEntry_deps entry → dependency_changedAt d <= generation_number gen;
  go_sorted : ∀ key entry, generation_nodes gen !! key = Some entry → depsSorted (nodeEntry_deps entry);
  go_index : indexes (generation_reverse gen) (generation_nodes gen);
  go_dirty : ∀ key, key ∈ generation_dirty gen ↔
    ∃ entry, generation_nodes gen !! key = Some entry ∧ nodeEntry_dirty entry = true;
  go_first : generation_number gen = 0 → generation_inputs gen = ∅ ∧ generation_nodes gen = ∅ }.

Definition emptyHistory : History := mkHistory (λ _ _, None) (λ _ _, None).

Lemma generationOk_empty g : generationOk g emptyHistory emptyGeneration.
Proof.
  constructor; cbn; try (intros key entry He; by rewrite lookup_empty in He).
  - constructor; cbn; try (intros key entry He; by rewrite lookup_empty in He);
      intros key entry d He; by rewrite lookup_empty in He.
  - intros d q. unfold rootAt. cbn. rewrite lookup_empty. cbn. split; [set_solver|].
    intros (e & He & _). by rewrite lookup_empty in He.
  - intros key. split; [set_solver|]. intros (e & He & _). by rewrite lookup_empty in He.
  - done.
Qed.

(** ** Beginning a session *)

Lemma begin_inr g cold resolver s :
  begin g cold resolver = inr s →
  s = mkSession g (Graph_current g) (Generation g + 1) cold (cold || bool_decide (Generation g = 0))
        resolver None false false false None sessionPublicationOpen ∅ ∅ ∅ ∅ ∅ [] ∅ ∅ ∅ ∅ [].
Proof.
  unfold begin, Generation. cbv zeta. destruct (_ && _); [done|]. destruct (bool_decide (_ = maxUint64)); [done|].
  congruence.
Qed.

Lemma begin_ok g H cold resolver s :
  generationOk g H (Graph_current g) → begin g cold resolver = inr s → sessionOk H s.
Proof.
  intros Hgo Hb. apply begin_inr in Hb as ->. set (s := mkSession _ _ _ _ _ _ _ _ _ _ _ _ _ _ _ _ _ _ _ _ _ _ _).
  assert (∀ key, currentInput s key = if cold then None else generation_inputs (Graph_current g) !! key) as Hin.
  { intros key. unfold currentInput, s. cbn. by rewrite lookup_empty. }
  assert (∀ key, nodeOf s key = if cold then None else generation_nodes (Graph_current g) !! key) as Hno.
  { intros key. unfold nodeOf, s. cbn. rewrite bool_decide_eq_false_2 by set_solver. by rewrite lookup_empty. }
  assert (Session_targetGeneration s = generation_number (Graph_current g) + 1) as Ht by done.
  assert (∀ key entry, nodeOf s key = Some entry → ¬ touched s entry) as Hnt.
  { intros key e He Hto. rewrite Hno in He. destruct cold; [done|].
    destruct (go_node _ _ _ Hgo key e He) as [Hle Hd]. unfold touched in Hto. rewrite Ht in Hto.
    destruct Hto as [Hto|(d & Hd' & Hto)]; [lia|]. apply Hd in Hd'. lia. }
  assert (∀ key n, n <= generation_number (Graph_current g) →
            hist_input (sessHist H s) key n = hist_input H key n
            ∧ hist_query (sessHist H s) key n = hist_query H key n) as Hh.
  { intros key n Hn. unfold sessHist. cbn [hist_input hist_query]. rewrite !decide_False by lia. done. }
  destruct (go_view _ _ _ Hgo) as [Hvi Hvq Hvr Hvf Hvv]. constructor.
  - constructor.
    + intros key e. rewrite Hin. destruct cold; [done|]. intros He.
      rewrite (proj1 (Hh _ _ (go_input _ _ _ Hgo key e He))). by apply Hvi.
    + intros key e. rewrite Hno. destruct cold; [done|]. intros He.
      rewrite (proj2 (Hh key _ (proj1 (go_node _ _ _ Hgo key e He)))). by apply Hvq.
    + intros key e. rewrite Hno. destruct cold; [done|]. intros He.
      destruct (Hvr key e He) as (run & Hr & Hp). exists run. split; [done|].
      eapply replays_hist; [| |exact Hp]; intros d k x Hd _;
        pose proof (proj2 (go_node _ _ _ Hgo key e He) d Hd) as Hle.
      * by rewrite (proj1 (Hh k _ Hle)).
      * by rewrite (proj2 (Hh k _ Hle)).
    + intros key e d. rewrite Hno. destruct cold; [done|]. intros He Hc Hd.
      pose proof (Hvf key e d He Hc Hd) as Hf. unfold depFresh in *.
      destruct (dependency_key d) as [k|k]; [by rewrite Hin|by rewrite Hno].
    + intros key e. rewrite Hno. destruct cold; [done|]. intros He Hc.
      destruct (Hvv key e He Hc) as (run & Hr & Hev). exists run. split; [done|].
      eapply evals_mono; [|exact Hev]. intros k ie Hk. by rewrite Hin.
  - intros key e. unfold baseInput, s. cbn. destruct cold; [done|]. intros He.
    split; [pose proof (go_input _ _ _ Hgo key e He); unfold Generation; lia|]. by apply Hvi.
  - intros key e He. unfold s in He. cbn in He. by rewrite lookup_empty in He.
  - intros key e He Hto. by destruct (Hnt key e He).
  - constructor; unfold s; cbn; destruct cold; try done.
    + cbn. intros Hz _. apply bool_decide_eq_true in Hz. by apply (go_first _ _ _ Hgo).
    + intros _. apply (go_index _ _ _ Hgo).
  - intros _ d q. unfold rootAt, s. cbn. rewrite lookup_empty. cbn. split; [set_solver|].
    intros (e & He & _). by rewrite lookup_empty in He.
  - intros key e He. unfold s in He. cbn in He. by rewrite lookup_empty in He.
Qed.

(** ** Sealing *)

Lemma sealInputs_None n inputs :
  sealInputs n inputs = None → ∀ key e, (key, e) ∈ inputs → inputEntry_changedAt e <= n.
Proof.
  induction inputs as [|[k x] inputs IH]; cbn [sealInputs].
  - intros _ key e Hin. by apply not_elem_of_nil in Hin.
  - destruct (sealCommittedInputEntry x) as [|x'] eqn:Es; [done|].
    assert (x' = x) as -> by (unfold sealCommittedInputEntry in Es; case_match; congruence).
    case_bool_decide; [done|]. intros Hrest key e Hin. apply elem_of_cons in Hin as [[= -> ->]|Hin]; [lia|].
    by eapply IH.
Qed.

Lemma sealNodes_None g n nodes :
  sealNodes g n nodes = None →
  ∀ key e, (key, e) ∈ nodes →
    nodeEntry_changedAt e <= n ∧ depsSorted (nodeEntry_deps e)
    ∧ ∀ d, d ∈ nodeEntry_deps e → dependency_changedAt d <= n.
Proof.
  induction nodes as [|[k x] nodes IH]; cbn [sealNodes].
  - intros _ key e Hin. by apply not_elem_of_nil in Hin.
  - destruct (sealCommittedNodeEntry g k x n) as [|x'] eqn:Es; [done|].
    intros Hrest key e Hin. apply elem_of_cons in Hin as [[= -> ->]|Hin]; [|by eapply IH].
    unfold sealCommittedNodeEntry in Es. destruct (_ || _) eqn:Eb; [done|]. split_bools.
    destruct (validateOwned _ _ _); [done|].
    unfold validateExactQueryObservationDependencies in Es.
    destruct (validateDependencyList None _ n) eqn:Ev; [done|].
    apply validateDependencyList_sorted in Ev as (? & ? & _). split_and!; [lia|done..].
Qed.

(** ** The next generation of a session *)

Section next.
Context (g : Graph) (HB : History) (s : Session) (gen : graphGeneration) (retired : list InputKey).
Context (Hob : obliviousGraph (Session_graph s)) (Hok : sessionOk HB s).
Context (Hgraph : ∀ key, queryRun g key = queryRun (Session_graph s) key).
Context (Hnumber : generation_number gen = Session_targetGeneration s).
Context (Hinputs : ∀ key, generation_inputs gen !! key =
           if decide (key ∈ retired) then None else currentInput s key).
Context (Hnodes : ∀ key, generation_nodes gen !! key = nodeOf s key).
Context (Hretired : ∀ key q e, key ∈ retired → nodeOf s q = Some e → ¬ hasEdge e (inputDep key)).
Context (Hinput_le : ∀ key e, key ∉ retired → currentInput s key = Some e →
           inputEntry_changedAt e <= generation_number gen).
Context (Hnode_le : ∀ key e, nodeOf s key = Some e →
           nodeEntry_changedAt e <= generation_number gen ∧ depsSorted (nodeEntry_deps e)
           ∧ ∀ d, d ∈ nodeEntry_deps e → dependency_changedAt d <= generation_number gen).
Context (Hindex : indexes (generation_reverse gen) (generation_nodes gen)).
Context (Hdirty : ∀ key, key ∈ generation_dirty gen ↔
           ∃ entry, generation_nodes gen !! key = Some entry ∧ nodeEntry_dirty entry = true).

Lemma next_kept_input q e d k :
  nodeOf s q = Some e → d ∈ nodeEntry_deps e → dependency_key d = inputDep k →
  generation_inputs gen !! k = currentInput s k.
Proof using Hinputs Hretired.
  intros He Hd Hk. rewrite Hinputs. case_decide as Hr; [|done]. exfalso.
  apply (Hretired k q e Hr He). apply elem_of_depKeys. by exists d.
Qed.

Lemma next_generationOk : generation_number gen ≠ 0 → generationOk g (sessHist HB s) gen.
Proof using All.
  intros Hpos. pose proof (so_view _ _ Hok) as Hview. destruct Hview as [Hvi Hvq Hvr Hvf Hvv]. constructor.
  - eapply viewOk_graph; [exact Hgraph|]. constructor.
    + intros key e. rewrite Hinputs. case_decide; [done|]. apply Hvi.
    + intros key e. rewrite Hnodes. apply Hvq.
    + intros key e. rewrite Hnodes. apply Hvr.
    + intros key e d. rewrite Hnodes. intros He Hc Hd. pose proof (Hvf key e d He Hc Hd) as Hf.
      unfold depFresh in *. destruct (dependency_key d) as [k|k] eqn:Hk; [|by rewrite Hnodes].
      by rewrite (next_kept_input key e d k He Hd Hk).
    + apply (queryValue_shrink _ (sessHist HB s) (currentInput s) _ (nodeOf s) _ (so_view _ _ Hok) Hob).
      * intros key e. by rewrite Hnodes.
      * intros key e d k. rewrite Hnodes. intros He _ Hd Hk. by eapply next_kept_input.
      * intros key e d k. rewrite Hnodes. intros He Hc Hd Hk.
        pose proof (Hvf key e d He Hc Hd) as Hf. unfold depFresh in Hf. rewrite Hk in Hf.
        destruct Hf as (n & Hn & Hcl & _). exists n. by rewrite Hnodes.
  - intros key e. rewrite Hinputs. case_decide; [done|]. by apply Hinput_le.
  - intros key e. rewrite Hnodes. intros He. destruct (Hnode_le key e He) as (? & _ & ?). done.
  - intros key e. rewrite Hnodes. intros He. apply (Hnode_le key e He).
  - done.
  - done.
  - done.
Qed.
End next.

(** ** Plans *)

Lemma keptNodes_lookup s key :
  keptNodes s !! key = if decide (key ∈ Session_removedQueries s) then None else Session_nodeChanges s !! key.
Proof.
  unfold keptNodes. destruct (Session_nodeChanges s !! key) as [e|] eqn:E.
  - case_decide as Hk.
    + apply map_lookup_filter_None. right. intros x _. cbn. tauto.
    + by apply map_lookup_filter_Some.
  - assert (filter (λ kv : QueryKey * nodeEntry, kv.1 ∉ Session_removedQueries s)
              (Session_nodeChanges s) !! key = None) as -> by (apply map_lookup_filter_None; by left).
    by case_decide.
Qed.

Lemma filter_not_in_lookup {A} (m : gmap InputKey A) (l : list InputKey) (key : InputKey) :
  filter (λ kv : InputKey * A, kv.1 ∉ l) m !! key = if decide (key ∈ l) then None else m !! key.
Proof.
  destruct (m !! key) as [e|] eqn:E.
  - case_decide as Hk.
    + apply map_lookup_filter_None. right. intros x _. cbn. tauto.
    + by apply map_lookup_filter_Some.
  - assert (filter (λ kv : InputKey * A, kv.1 ∉ l) m !! key = None) as -> by (apply map_lookup_filter_None; by left).
    by case_decide.
Qed.

Lemma dirtyIndex_next (D R : gset QueryKey) (kept base : gmap QueryKey nodeEntry) key :
  (key ∈ D ↔ ∃ e, base !! key = Some e ∧ nodeEntry_dirty e = true) →
  key ∈ (D ∖ R ∖ dom kept) ∪ dom (filter (λ kv : QueryKey * nodeEntry, nodeEntry_dirty kv.2 = true) kept) ↔
  ∃ e, (kept ∪ filter (λ kv : QueryKey * nodeEntry, kv.1 ∉ R) base) !! key = Some e ∧ nodeEntry_dirty e = true.
Proof.
  intros HD. rewrite elem_of_union, !elem_of_difference, HD, elem_of_dom.
  rewrite (elem_of_dom (filter _ kept)), lookup_union. unfold is_Some. split.
  - intros [[[(e & He & Hd) Hr] Hk]|(e & He)].
    + exists e. split; [|done]. destruct (kept !! key) as [n|]; [by destruct Hk; exists n|].
      rewrite (left_id_L None _). by apply map_lookup_filter_Some.
    + apply map_lookup_filter_Some in He as [He Hd]. exists e. by rewrite He, union_Some_l.
  - intros (e & He & Hd). destruct (kept !! key) as [n|] eqn:En.
    + rewrite union_Some_l in He. simplify_eq. right. exists e. by apply map_lookup_filter_Some.
    + rewrite (left_id_L None _) in He. apply map_lookup_filter_Some in He as [He Hr]. left.
      split_and!; [by exists e|done|by intros [? ?]].
Qed.

Lemma incremental_plan_ok g HB s plan :
  obliviousGraph (Session_graph s) → sessionOk HB s →
  (∀ key, queryRun g key = queryRun (Session_graph s) key) →
  generationOk (Session_graph s) HB (Session_base s) →
  Session_replacement s = false →
  prepareIncrementalGraphCommit (Session_base s) g s = inr plan →
  generationOk g (sessHist HB s) (plan_generation plan)
  ∧ generation_number (plan_generation plan) = generation_number (Session_base s) + 1.
Proof.
  intros Hob Hok Hgraph Hbase Hrepl.
  unfold prepareIncrementalGraphCommit, buildIncrementalGraphGeneration, applyIncrementalCommittedInputs. cbv zeta.
  pose proof (bi_cold _ (so_base _ _ Hok) Hrepl) as Hcold.
  destruct (incrementalReverseChanges _ g _ _) as [|changes] eqn:Ec; [done|].
  destruct (applyCounterDeltas _ _ _) as [|counters]; [done|].
  case_bool_decide as Htarget; [|done]. cbn [negb].
  destruct (sealInputs _ _) eqn:Esi; [done|]. destruct (sealNodes _ _ _) eqn:Esn; [done|].
  intros [= <-]. cbn [plan_generation]. split; [|cbn; lia].
  pose proof (sealInputs_None _ _ Esi) as Hsi. pose proof (sealNodes_None _ _ _ Esn) as Hsn.
  set (retired := incrementalRetiredInputs _ _ _).
  assert (∀ key, (keptNodes s ∪ filter (λ kv : QueryKey * nodeEntry, kv.1 ∉ Session_removedQueries s)
                    (generation_nodes (Session_base s))) !! key = nodeOf s key) as Hnodes.
  { intros key. rewrite lookup_union, keptNodes_lookup. unfold nodeOf. rewrite Hcold.
    destruct (decide (key ∈ Session_removedQueries s)) as [Hr|Hr].
    - rewrite bool_decide_eq_true_2 by done. rewrite (left_id_L None _).
      apply map_lookup_filter_None. right. intros x _. cbn. tauto.
    - rewrite bool_decide_eq_false_2 by done. destruct (Session_nodeChanges s !! key); [by rewrite union_Some_l|].
      rewrite (left_id_L None _). destruct (generation_nodes (Session_base s) !! key) eqn:E.
      + by apply map_lookup_filter_Some.
      + apply map_lookup_filter_None. by left. }
  assert (∀ q n, keptNodes s !! q = Some n → q ∉ Session_removedQueries s) as Hdis.
  { intros q n. rewrite keptNodes_lookup. by case_decide. }
  assert (∀ q n, keptNodes s !! q = Some n →
            nodeEntry_changedAt n <= Session_targetGeneration s ∧ depsSorted (nodeEntry_deps n)
            ∧ ∀ d, d ∈ nodeEntry_deps n → dependency_changedAt d <= Session_targetGeneration s) as Hkept.
  { intros q n Hn. eapply Hsn. by apply elem_of_map_to_list. }
  assert (indexes (applyReverseChanges (generation_reverse (Session_base s)) changes)
            (keptNodes s ∪ filter (λ kv : QueryKey * nodeEntry, kv.1 ∉ Session_removedQueries s)
               (generation_nodes (Session_base s)))) as Hindex.
  { eapply (incrementalReverseChanges_indexes (Session_base s) (go_sorted _ _ _ Hbase));
      [apply (go_index _ _ _ Hbase)|intros q n Hn; by apply (Hkept q n)|exact Hdis|exact Ec]. }
  eapply (next_generationOk g HB s _ retired); cbn; try done.
  - intros key. rewrite filter_not_in_lookup. case_decide; [done|]. unfold currentInput.
    rewrite lookup_union, Hcold. destruct (Session_inputChanges s !! key); [by rewrite union_Some_l|].
    by rewrite (left_id_L None _).
  - intros key q e Hr He Hedge. unfold retired, incrementalRetiredInputs, sortInputKeys in Hr.
    rewrite sort_strings_Permutation, elem_of_elements, elem_of_filter in Hr. destruct Hr as [Hempty _].
    assert (q ∈ rootAt (applyReverseChanges (generation_reverse (Session_base s)) changes) (inputDep key)) as Hin.
    { apply Hindex. exists e. by rewrite Hnodes. }
    rewrite rootAt_applyReverseChanges in Hin. unfold reverseRootOf in Hempty.
    fold (rootAt (generation_reverse (Session_base s)) (inputDep key)) in Hempty. set_solver.
  - intros key e _. unfold currentInput. rewrite Hcold.
    destruct (Session_inputChanges s !! key) as [ie|] eqn:Ei.
    + intros [= <-]. eapply Hsi. by apply elem_of_map_to_list.
    + intros He. pose proof (go_input _ _ _ Hbase key e He). lia.
  - intros key e He. rewrite <-Hnodes, lookup_union in He.
    destruct (keptNodes s !! key) as [n|] eqn:En.
    + rewrite union_Some_l in He. simplify_eq. by apply (Hkept key).
    + rewrite (left_id_L None _), map_lookup_filter_Some in He. destruct He as [He _].
      destruct (go_node _ _ _ Hbase key e He) as [Hle Hd]. split_and!; [lia|by apply (go_sorted _ _ _ Hbase key)|].
      intros d Hd'. apply Hd in Hd'. lia.
  - intros key. apply dirtyIndex_next. apply (go_dirty _ _ _ Hbase).
  - lia.
Qed.

Lemma replacement_plan_ok g HB s plan :
  obliviousGraph (Session_graph s) → sessionOk HB s →
  (∀ key, queryRun g key = queryRun (Session_graph s) key) →
  (Session_cold s = false → generation_inputs (Session_base s) = ∅ ∧ generation_nodes (Session_base s) = ∅) →
  Session_targetGeneration s ≠ 0 → Session_replacement s = true →
  prepareReplacementGraphCommit g s = inr plan →
  generationOk g (sessHist HB s) (plan_generation plan)
  ∧ generation_number (plan_generation plan) = Session_targetGeneration s.
Proof.
  intros Hob Hok Hgraph Hempty Hpos Hrepl. unfold prepareReplacementGraphCommit, replacementReverseRoots, newGraphGeneration. cbv zeta.
  rewrite Hrepl. destruct (buildReplacementReverseRoots _ _) as [|reverse] eqn:Er; [done|].
  destruct (emptyReverseRoot reverse); [done|]. destruct (removedRetainsDependents _ _); [done|].
  destruct (applyCounterDeltas _ _ _) as [|counters]; [done|].
  set (retired := prepareReplacementRetirement _ _ _).
  destruct (sealInputs _ _) eqn:Esi; [done|]. destruct (sealNodes _ _ _) eqn:Esn; [done|].
  destruct (existsb _ (map_to_list (keptNodes s))) eqn:Ed; [done|].
  intros [= <-]. cbn [plan_generation]. split; [|done].
  pose proof (sealInputs_None _ _ Esi) as Hsi. pose proof (sealNodes_None _ _ _ Esn) as Hsn.
  assert (∀ key, keptNodes s !! key = nodeOf s key) as Hnodes.
  { intros key. rewrite keptNodes_lookup. unfold nodeOf.
    destruct (decide (key ∈ Session_removedQueries s)) as [Hr|Hr].
    - by rewrite bool_decide_eq_true_2.
    - rewrite bool_decide_eq_false_2 by done. destruct (Session_nodeChanges s !! key); [done|].
      destruct (Session_cold s) eqn:Hc; [done|]. by rewrite (proj2 (Hempty eq_refl)), lookup_empty. }
  assert (∀ key, currentInput s key = Session_inputChanges s !! key) as Hin.
  { intros key. unfold currentInput. destruct (Session_inputChanges s !! key); [done|].
    destruct (Session_cold s) eqn:Hc; [done|]. by rewrite (proj1 (Hempty eq_refl)), lookup_empty. }
  assert (indexes reverse (keptNodes s)) as Hindex.
  { intros d q. rewrite (buildReplacement_inr _ _ _ Er), keptNodes_lookup. case_decide; naive_solver. }
  eapply (next_generationOk g HB s _ retired); cbn; try done.
  - intros key. by rewrite filter_not_in_lookup, Hin.
  - intros key q e Hr He Hedge. unfold retired in Hr.
    unfold prepareReplacementRetirement in Hr.
    destruct (Graph_retireUnreferencedInputs g); [|by apply not_elem_of_nil in Hr].
    unfold sortInputKeys in Hr.
    rewrite sort_strings_Permutation, elem_of_elements, elem_of_filter in Hr. destruct Hr as [Hr _].
    assert (q ∈ rootAt reverse (inputDep key)) as Hq by (apply Hindex; exists e; by rewrite Hnodes).
    unfold rootAt in Hq. rewrite Hr in Hq. set_solver.
  - intros key e Hr He. eapply Hsi. apply elem_of_map_to_list. rewrite filter_not_in_lookup.
    rewrite Hin in He. by rewrite decide_False.
  - intros key e He. eapply Hsn. apply elem_of_map_to_list. by rewrite Hnodes.
  - intros key. split; [set_solver|]. intros (e & He & Hd). exfalso.
    apply elem_of_map_to_list in He. revert Ed. apply not_false_iff_true. apply existsb_exists.
    exists (key, e). split; [by apply list_elem_of_In|done].
Qed.
