(* ===== verification/IncPublish.v ===== *)
(** * The incremental graph: publication

    What a commit does to the graph on every path: an error, a panic of the
    caller's phases or an abort at any point leaves the graph as it was, and a
    commit that succeeds has had the observed inputs verified and installs the
    generation prepared from the session. *)

From stdpp Require Import base gmap strings sorting sets list list_numbers.
From S2P Require Import Prelude GoStd IncGraph IncSession IncEval IncIndex IncReference IncSound IncEvalSound IncCommit IncCommitProps.

Open Scope N_scope.

(** ** Steps that neither install a generation nor change what is committed *)

(** What a plan and the observations are made of. *)
Definition payload (s : Session) :=
  (core s, Session_counterDeltas s, Session_observations s, Session_queried s).

Definition quiet {A} (m : CM A) : Prop := ∀ w w' r, m w = (w', r) →
  commit_graph w' = commit_graph w ∧ payload (commit_session w') = payload (commit_session w).

Definition quietSession {A} (m : SM A) : Prop := ∀ s s' r, m s = (s', r) → payload s' = payload s.

Create HintDb quiet discriminated.

Lemma quiet_ret {A} (x : A) : quiet (mret x).
Proof. by intros w w' r [= <- <-]. Qed.

Lemma quiet_bind {A B} (m : CM A) (k : A → CM B) :
  quiet m → (∀ x, quiet (k x)) → quiet (m ≫= k).
Proof.
  intros Hm Hk w w' r. cbv [mbind CM_bind]. destruct (m w) as [w1 [err|x]] eqn:E.
  - intros [= <- <-]. by eapply Hm.
  - intros Hx. destruct (Hm _ _ _ E) as [<- <-]. by eapply Hk.
Qed.

Lemma quiet_raise {A} err : quiet (raise (A:=A) err).
Proof. by intros w w' r [= <- <-]. Qed.

Lemma quiet_commitLift {A} (x : IncErr + A) : quiet (commitLift x).
Proof. by intros w w' r [= <- <-]. Qed.

Lemma quiet_commitWorld : quiet commitWorld.
Proof. by intros w w' r [= <- <-]. Qed.

Lemma quiet_commitGraph : quiet commitGraph.
Proof. by intros w w' r [= <- <-]. Qed.

Lemma quiet_commitSession : quiet commitSession.
Proof. by intros w w' r [= <- <-]. Qed.

Lemma quiet_event e : quiet (event e).
Proof. by intros w w' r [= <- <-]. Qed.

Lemma quiet_setPublication p : quiet (setPublication p).
Proof. by intros w w' r [= <- <-]. Qed.

Lemma quiet_onSession {A} (m : SM A) : quietSession m → quiet (onSession m).
Proof.
  intros Hm w w' r. unfold onSession. destruct (m (commit_session w)) as [s r'] eqn:E.
  intros [= <- <-]. split; [done|]. by eapply Hm.
Qed.

Lemma quietSession_ctxErr : quietSession ctxErr.
Proof. intros s s' r. unfold ctxErr. repeat case_match; by intros [= <- _]. Qed.

Lemma quietSession_modify f : (∀ s, payload (f s) = payload s) → quietSession (modify f).
Proof. intros Hf s s' r [= <- _]. apply Hf. Qed.

Lemma quietSession_fail {A} err : quietSession (fail (A:=A) err).
Proof. intros s s' r. unfold fail. case_match; by intros [= <- _]. Qed.

Lemma quietSession_orFail {A} (m : SM A) : quietSession m → quietSession (orFail m).
Proof.
  intros Hm s s' r. unfold orFail. destruct (m s) as [s1 [err|x]] eqn:E.
  - intros Hf. apply quietSession_fail in Hf. rewrite Hf. by eapply Hm.
  - intros [= <- _]. by eapply Hm.
Qed.

Lemma quietSession_check err : quietSession (check err).
Proof. destruct err; intros s s' r [= <- _]; done. Qed.

Lemma quiet_requestAbort : quietSession (modify requestAbort).
Proof. apply quietSession_modify. intros s. unfold requestAbort. by case_match. Qed.

Lemma quiet_abortIf b : quiet (abortIf b).
Proof. destruct b; [apply quiet_onSession, quiet_requestAbort|apply quiet_ret]. Qed.

Lemma quiet_publicationActive : quiet publicationActive.
Proof. intros w w' r. unfold publicationActive. case_match; by intros [= <- _]. Qed.

Lemma quiet_matchesGeneration : quiet matchesGeneration.
Proof. intros w w' r. unfold matchesGeneration. case_match; by intros [= <- _]. Qed.

#[export] Hint Resolve quiet_ret quiet_bind quiet_raise quiet_commitLift quiet_commitWorld
  quiet_commitGraph quiet_commitSession quiet_event quiet_setPublication quiet_onSession quietSession_ctxErr
  quietSession_modify quietSession_fail quietSession_orFail quietSession_check quiet_abortIf quiet_publicationActive
  quiet_matchesGeneration : quiet.

Ltac quiet_tac := repeat first
  [ progress intros
  | apply quiet_bind
  | solve [eauto with quiet]
  | progress case_match ].

Lemma quiet_callPhase e call : quiet (callPhase e call).
Proof. unfold callPhase. quiet_tac. Qed.

Lemma quiet_verifyCommitInputs verifier observations : quiet (verifyCommitInputs verifier observations).
Proof. unfold verifyCommitInputs. quiet_tac. Qed.

#[export] Hint Resolve quiet_callPhase quiet_verifyCommitInputs : quiet.

Lemma readyMutation_same s s' r : readyMutation s = (s', r) → s' = s.
Proof. unfold readyMutation, ready. repeat case_match; by intros [= <- _]. Qed.

Lemma quiet_readyMutationContext : quietSession readyMutationContext.
Proof.
  intros s s' r. unfold readyMutationContext. cbv [mbind SM_bind].
  destruct (readyMutation s) as [s1 [err|x]] eqn:E; apply readyMutation_same in E as ->.
  - by intros [= <- _].
  - apply quietSession_orFail, quietSession_ctxErr.
Qed.

(** ** A publication that succeeds *)

Lemma commit_bind_inr {A B} (m : CM A) (k : A → CM B) w w' y :
  (m ≫= k) w = (w', inr y) → ∃ w1 x, m w = (w1, inr x) ∧ k x w1 = (w', inr y).
Proof. cbv [mbind CM_bind]. destruct (m w) as [w1 [err|x]]; [done|]. by exists w1, x. Qed.

(** [w'] is [w] with the events [evs]: graph, payload and publication are as they were. *)
Record advances (evs : list CommitEvent) (w w' : CommitWorld) : Prop := {
  adv_graph : commit_graph w' = commit_graph w;
  adv_payload : payload (commit_session w') = payload (commit_session w);
  adv_publication : commit_publication w' = commit_publication w;
  adv_events : commit_events w' = commit_events w ++ evs }.

Lemma advances_refl w : advances [] w w.
Proof. constructor; try done. by rewrite app_nil_r. Qed.

Lemma advances_trans e1 e2 w1 w2 w3 : advances e1 w1 w2 → advances e2 w2 w3 → advances (e1 ++ e2) w1 w3.
Proof.
  intros [] []. constructor; try congruence. by rewrite (app_assoc _ e1 e2); congruence.
Qed.

Lemma advances_onSession {A} (m : SM A) w w' r :
  quietSession m → onSession m w = (w', r) → advances [] w w'.
Proof.
  intros Hm. unfold onSession. destruct (m (commit_session w)) as [s r'] eqn:E. intros [= <- <-].
  constructor; cbn; try done; [by eapply Hm|by rewrite app_nil_r].
Qed.

Lemma advances_abortIf b w w' r : abortIf b w = (w', r) → advances [] w w'.
Proof.
  destruct b; [apply advances_onSession, quiet_requestAbort|intros [= <- _]; apply advances_refl].
Qed.

Lemma event_inr e w w' u : event e w = (w', inr u) → advances [e] w w'.
Proof. by intros [= <- _]. Qed.

Lemma publicationActive_inr w w' u :
  publicationActive w = (w', inr u) →
  w' = w ∧ Session_publicationState (commit_session w) = sessionPublicationActive.
Proof. unfold publicationActive. case_bool_decide; [by intros [= <- _]|done]. Qed.

Lemma matchesGeneration_inr w w' u :
  matchesGeneration w = (w', inr u) →
  w' = w ∧ generation_number (Graph_current (commit_graph w)) =
           generation_number (Session_base (commit_session w)).
Proof. unfold matchesGeneration. case_bool_decide; [by intros [= <- _]|done]. Qed.

(** The events of a phase that is run when the caller gave one. *)
Definition phaseEvents (e : CommitEvent) (call : option Callback) : list CommitEvent :=
  match call with Some _ => [e] | None => [] end.

Lemma callPhase_inr e call w w' u : callPhase e call w = (w', inr u) → advances (phaseEvents e call) w w'.
Proof.
  unfold callPhase. destruct call as [call|]; cbn [phaseEvents].
  - intros Hc. apply commit_bind_inr in Hc as (w1 & ? & He & Hc). apply event_inr in He.
    apply commit_bind_inr in Hc as (w2 & ? & Ha & Hc). apply advances_abortIf in Ha.
    destruct (callback_panics call); [done|]. injection Hc as <- _.
    apply (advances_trans [e] [] _ w1); [exact He|exact Ha].
  - intros [= <- _]. apply advances_refl.
Qed.

Lemma verifyCommitInputs_inr verifier observations w w' u :
  verifyCommitInputs verifier observations w = (w', inr u) →
  (verifier observations).1 = inr true ∧ advances [EventVerify observations] w w'.
Proof.
  unfold verifyCommitInputs. intros Hv. apply commit_bind_inr in Hv as (w1 & ? & He & Hv).
  apply event_inr in He. destruct (verifier observations) as [answer aborts]. cbn.
  apply commit_bind_inr in Hv as (w2 & ? & Ha & Hv). apply advances_abortIf in Ha.
  destruct answer as [|[]]; try done. split; [done|]. apply advances_onSession in Hv; [|apply quietSession_ctxErr].
  apply (advances_trans [_] [] _ w1); [exact He|]. by apply (advances_trans [] [] _ w2).
Qed.

Lemma quiet_orRestore_body call : quiet (
  publicationActive;; callPhase EventComplete call;; publicationActive;; completePublication).
Proof.
  quiet_tac. intros w w' r. unfold completePublication. case_match.
  - by intros [= <- _].
  - by intros [= <- _].
Qed.

Lemma orRestore_inr previous m w w' u : orRestore previous m w = (w', inr u) → m w = (w', inr u).
Proof. unfold orRestore. by destruct (m w) as [w1 [err|x]]. Qed.

Lemma orRestore_inl previous m w w' err :
  quiet m → orRestore previous m w = (w', inl err) → commit_graph w' = setCurrent previous (commit_graph w).
Proof.
  intros Hm. unfold orRestore. destruct (m w) as [w1 [e|x]] eqn:E; [|done].
  intros [= <- _]. cbn. by destruct (Hm _ _ _ E) as [-> _].
Qed.

Lemma publishPrepared_inr plan w w' u :
  publishPrepared plan w = (w', inr u) →
  commit_graph w' = setCurrent (plan_generation plan) (commit_graph w)
  ∧ commit_events w' = commit_events w ++
      EventInstall (plan_generation plan)
        :: phaseEvents EventComplete (Publication_Complete (commit_publication w)).
Proof.
  unfold publishPrepared. intros Hp.
  apply commit_bind_inr in Hp as (w1 & g & [= <- <-] & Hp).
  apply commit_bind_inr in Hp as (w1 & g & [= <- <-] & Hp).
  apply commit_bind_inr in Hp as (w1 & ? & [= <- _] & Hp).
  apply commit_bind_inr in Hp as (w1 & ? & [= <- _] & Hp). cbn [commit_graph commit_session] in Hp.
  set (w1 := mkCommitWorld _ _ _ _) in Hp.
  apply commit_bind_inr in Hp as (w2 & [] & Hr & Hp). injection Hp as <- _. cbn [commit_graph commit_events].
  apply orRestore_inr in Hr as Eb.
  apply commit_bind_inr in Eb as (w4 & [] & Ha & Eb). apply publicationActive_inr in Ha as [-> _].
  apply commit_bind_inr in Eb as (w5 & [] & Hc & Eb). apply callPhase_inr in Hc.
  apply commit_bind_inr in Eb as (w6 & [] & Ha & Eb). apply publicationActive_inr in Ha as [-> _].
  unfold completePublication in Eb. case_bool_decide; [|done]. injection Eb as <-.
  cbn [commit_graph commit_events]. rewrite (adv_graph _ _ _ Hc), (adv_events _ _ _ Hc). split; [done|].
  unfold w1. cbn [commit_events]. by rewrite <-app_assoc.
Qed.

(** A step before the generation is installed leaves the graph as it was. *)
Lemma setCurrent_back g generation : setCurrent (Graph_current g) (setCurrent generation g) = g.
Proof. by destruct g. Qed.

Lemma publishPrepared_inl plan w w' err :
  publishPrepared plan w = (w', inl err) → commit_graph w' = commit_graph w.
Proof.
  unfold publishPrepared. cbv [mbind CM_bind commitGraph commitWorld event installGeneration].
  cbn [commit_graph commit_session]. set (w1 := mkCommitWorld (setCurrent _ _) _ _ _).
  destruct (orRestore _ _ w1) as [w2 [e|[]]] eqn:Er; [|done].
  intros [= <- _]. apply orRestore_inl in Er; [|apply quiet_orRestore_body].
  rewrite Er. apply setCurrent_back.
Qed.

Definition keepsOnError {A} (m : CM A) : Prop := ∀ w w' err, m w = (w', inl err) →
  commit_graph w' = commit_graph w.

Lemma keepsOnError_bind {A B} (m : CM A) (k : A → CM B) :
  quiet m → (∀ x, keepsOnError (k x)) → keepsOnError (m ≫= k).
Proof.
  intros Hm Hk w w' err. cbv [mbind CM_bind]. destruct (m w) as [w1 [e|x]] eqn:E.
  - intros [= <- _]. by apply (Hm _ _ _ E).
  - intros Hx. rewrite (Hk _ _ _ _ Hx). apply (Hm _ _ _ E).
Qed.

Lemma publishLocked_inl verifier prepare plan observations :
  keepsOnError (publishLocked verifier prepare plan observations).
Proof.
  unfold publishLocked. do 13 (apply keepsOnError_bind; [solve [quiet_tac]|intros ?]).
  intros w w' err. apply publishPrepared_inl.
Qed.

(** The publication [prepare] answers; without one, the empty publication stays. *)
Definition preparedPublication (prepare : option Preparer) (retired : list InputKey)
    (p : CommitPublication) : CommitPublication :=
  match prepare with Some prepare => (prepare retired).1.1 | None => p end.

Definition prepareEvents (prepare : option Preparer) (retired : list InputKey) : list CommitEvent :=
  match prepare with Some _ => [EventPrepare retired] | None => [] end.

(** The events of a publication of [plan] that succeeds, in their order. *)
Definition publicationEvents (prepare : option Preparer) (p : CommitPublication)
    (observations : list InputRevision) (plan : graphCommitPlan) : list CommitEvent :=
  let p := preparedPublication prepare (plan_retiredInputs plan) p in
  [EventVerify observations]
  ++ prepareEvents prepare (plan_retiredInputs plan)
  ++ phaseEvents EventPublish (Publication_Publish p)
  ++ EventInstall (plan_generation plan) :: phaseEvents EventComplete (Publication_Complete p).

Lemma publishLocked_inr verifier prepare planOf observations w w' u :
  publishLocked verifier prepare planOf observations w = (w', inr u) →
  (verifier observations).1 = inr true
  ∧ ∃ s plan, payload s = payload (commit_session w)
    ∧ planOf (commit_graph w) s = inr plan
    ∧ commit_graph w' = setCurrent (plan_generation plan) (commit_graph w)
    ∧ commit_events w' = commit_events w ++ publicationEvents prepare (commit_publication w) observations plan.
Proof.
  unfold publishLocked. intros H.
  apply commit_bind_inr in H as (w1 & [] & Hm & H). apply matchesGeneration_inr in Hm as [-> _].
  apply commit_bind_inr in H as (w1 & [] & Hv & H). apply verifyCommitInputs_inr in Hv as [Hv H1].
  apply commit_bind_inr in H as (w2 & [] & Ha & H). apply publicationActive_inr in Ha as [-> _].
  apply commit_bind_inr in H as (w2 & [] & Hm & H). apply matchesGeneration_inr in Hm as [-> _].
  apply commit_bind_inr in H as (w2 & g & [= <- <-] & H).
  apply commit_bind_inr in H as (w2 & s & [= <- <-] & H).
  apply commit_bind_inr in H as (w2 & plan & Hp & H). cbv [commitLift] in Hp. injection Hp as <- Hp.
  apply commit_bind_inr in H as (w2 & [] & Hprep & H).
  apply commit_bind_inr in H as (w3 & [] & Ha & H). apply publicationActive_inr in Ha as [-> _].
  apply commit_bind_inr in H as (w3 & [] & Hc & H). apply advances_onSession in Hc; [|apply quietSession_ctxErr].
  apply commit_bind_inr in H as (w4 & wx & [= <- <-] & H).
  apply commit_bind_inr in H as (w4 & [] & Hpub & H). apply callPhase_inr in Hpub.
  apply commit_bind_inr in H as (w5 & [] & Ha & H). apply publicationActive_inr in Ha as [-> _].
  apply publishPrepared_inr in H as [Hg He].
  assert (commit_graph w2 = commit_graph w1
    ∧ commit_publication w2 = preparedPublication prepare (plan_retiredInputs plan) (commit_publication w1)
    ∧ commit_events w2 = commit_events w1 ++ prepareEvents prepare (plan_retiredInputs plan)) as (Hg2 & Hp2 & He2).
  { destruct prepare as [prepare|]; cbn [preparedPublication prepareEvents].
    - apply commit_bind_inr in Hprep as (wa & [] & Hev & Hprep). apply event_inr in Hev as [Hev1 _ _ Hev4].
      destruct (prepare _) as [[p err] aborts]. cbn.
      apply commit_bind_inr in Hprep as (wb & [] & [= <-] & Hprep).
      apply commit_bind_inr in Hprep as (wb & [] & Hab & Hprep). apply advances_abortIf in Hab as [? _ ? Hab4].
      destruct err; [done|]. injection Hprep as <-. cbn in *. rewrite app_nil_r in Hab4.
      split_and!; congruence.
    - injection Hprep as <-. by rewrite app_nil_r. }
  split; [done|]. exists (commit_session w1), plan. split_and!.
  - apply H1.
  - by rewrite <-(adv_graph _ _ _ H1).
  - rewrite Hg, (adv_graph _ _ _ Hpub), (adv_graph _ _ _ Hc), Hg2. by rewrite (adv_graph _ _ _ H1).
  - rewrite He, (adv_publication _ _ _ Hpub), (adv_events _ _ _ Hpub).
    rewrite (adv_publication _ _ _ Hc), (adv_events _ _ _ Hc), Hp2, He2.
    rewrite (adv_publication _ _ _ H1), (adv_events _ _ _ H1). unfold publicationEvents.
    by rewrite app_nil_r, !app_assoc.
Qed.

(** ** A commit *)

Lemma payload_incremental current g s s' :
  payload s' = payload s → prepareIncrementalGraphCommit current g s' = prepareIncrementalGraphCommit current g s.
Proof.
  intros [= _ _ Ht _ _ Hi Hn _ Hr Hc _ _].
  unfold prepareIncrementalGraphCommit, incrementalRemovedQueries, keptNodes, incrementalRetirementCandidates.
  by rewrite Ht, Hi, Hn, Hr, Hc.
Qed.

Lemma payload_replacement g s s' :
  payload s' = payload s → prepareReplacementGraphCommit g s' = prepareReplacementGraphCommit g s.
Proof.
  intros [= _ _ Ht _ Hp Hi Hn _ Hr Hc _ _].
  unfold prepareReplacementGraphCommit, replacementReverseRoots, keptNodes.
  by rewrite Ht, Hi, Hn, Hr, Hc, Hp.
Qed.

Lemma payload_observations s s' : payload s' = payload s → commitObservations s' = commitObservations s.
Proof.
  intros [= _ _ _ _ _ _ Hn _ Hr _ Ho _]. unfold commitObservations. by rewrite Hn, Hr, Ho.
Qed.

(** The plan a commit makes of a session. *)
Definition planOf (g : Graph) (s : Session) : IncErr + graphCommitPlan :=
  if Session_replacement s then prepareReplacementGraphCommit g s
  else prepareIncrementalGraphCommit (Graph_current g) g s.

Lemma finishPublication_inr m w w' u :
  finishPublication m w = (w', inr u) →
  ∃ w1 u, m w = (w1, inr u) ∧ commit_graph w' = commit_graph w1 ∧ commit_events w' = commit_events w1
    ∧ commit_session w' = discard (commit_session w1).
Proof. unfold finishPublication. destruct (m w) as [w1 [err|x]]; [done|]. intros [= <- _]. by exists w1, x. Qed.

Lemma finishPublication_inl m w w' err :
  keepsOnError m → finishPublication m w = (w', inl err) → commit_graph w' = commit_graph w
  ∧ Session_publicationState (commit_session w') = sessionPublicationClosed.
Proof.
  intros Hm. unfold finishPublication. destruct (m w) as [w1 [e|x]] eqn:E; [|done].
  intros [= <- _]. split; [by apply (Hm _ _ _ E)|done].
Qed.

Lemma orDiscard_inr {A} (m : CM A) w w' x : orDiscard m w = (w', inr x) → m w = (w', inr x).
Proof. unfold orDiscard. by destruct (m w) as [w1 [err|y]]. Qed.

Lemma beginPublication_inr s s' u :
  beginPublication s = (s', inr u) →
  Session_publicationState s = sessionPublicationOpen ∧ Session_failure s = None ∧ payload s' = payload s.
Proof.
  unfold beginPublication. destruct (Session_publicationState s) eqn:Hs; try done.
  destruct (readyMutationContext _) as [s1 [err|x]] eqn:E; [done|]. intros [= <- _].
  pose proof (quiet_readyMutationContext _ _ _ E) as Hp. split; [done|]. split; [|done].
  apply bind_inr in E as (s2 & [] & Hr & _). unfold readyMutation, ready in Hr. cbn in Hr.
  destruct (_ || _); [done|]. by destruct (Session_failure s).
Qed.

(** What the session looks like once a publication has begun. *)
Lemma begun_inr ctx w w' u :
  (onSession (modify (set_ctx ctx));; onSession beginPublication) w = (w', inr u) →
  Session_publicationState (commit_session w) = sessionPublicationOpen
  ∧ Session_failure (commit_session w) = None ∧ advances [] w w'.
Proof.
  intros Hb. apply commit_bind_inr in Hb as (w1 & [] & Hm & Hb).
  assert (payload (set_ctx ctx (commit_session w)) = payload (commit_session w)) as Hset by done.
  injection Hm as <-. unfold onSession in Hb. cbn [commit_session] in Hb.
  destruct (beginPublication _) as [s r] eqn:E. injection Hb as <- ->.
  apply beginPublication_inr in E as (? & ? & Hp). split_and!; [done|done|].
  constructor; cbn; try done. by rewrite app_nil_r.
Qed.

(** What the preparation of a commit establishes. *)
Lemma wrapping_inr {A} text (m : CM A) w w' x : wrapping text m w = (w', inr x) → m w = (w', inr x).
Proof. unfold wrapping, wrapped. destruct (m w) as [w1 [err|y]]; [done|]. congruence. Qed.

Lemma quiet_wrapping {A} text (m : CM A) : quiet m → quiet (wrapping text m).
Proof.
  intros Hm w w' r. unfold wrapping. destruct (m w) as [w1 r1] eqn:E. intros [= <- _]. by eapply Hm.
Qed.

Lemma quietSession_lift {A} (x : IncErr + A) : quietSession (lift x).
Proof. by intros s s' r [= <- _]. Qed.

#[export] Hint Resolve quiet_wrapping quietSession_lift : quiet.

Lemma quiet_prepareGraphCommit g s : quiet (prepareGraphCommit g s).
Proof.
  unfold prepareGraphCommit. destruct (Session_replacement s); [|quiet_tac].
  apply quiet_bind; [|quiet_tac]. apply quiet_wrapping. unfold prepareReplacementCommit. quiet_tac.
Qed.

Lemma prepareReplacementCommit_inr g s w w' plan observations :
  prepareReplacementCommit g s w = (w', inr (plan, observations)) →
  advances [] w w' ∧ commitObservations s = inr observations
  ∧ prepareReplacementGraphCommit g s = inr plan.
Proof.
  unfold prepareReplacementCommit. intros Hp. apply commit_bind_inr in Hp as (w1 & [] & Hc & Hp).
  apply advances_onSession in Hc; [|apply quietSession_check].
  apply commit_bind_inr in Hp as (w2 & obs & Ho & Hp). cbv [commitLift] in Ho. injection Ho as <- Ho.
  apply commit_bind_inr in Hp as (w2 & [] & H2 & Hp). apply advances_onSession in H2; [|apply quietSession_ctxErr].
  apply commit_bind_inr in Hp as (w3 & plan' & H3 & Hp). cbv [commitLift] in H3. injection H3 as <- H3.
  injection Hp as <- <- <-. split_and!; [|done..]. by apply (advances_trans [] [] _ w1).
Qed.

Lemma prepareGraphCommit_inr g s w w' plan observations :
  prepareGraphCommit g s w = (w', inr (plan, observations)) →
  advances [] w w' ∧ commitObservations s = inr observations
  ∧ match plan with
    | Some plan => Session_replacement s = true ∧ prepareReplacementGraphCommit g s = inr plan
    | None => Session_replacement s = false
    end.
Proof.
  unfold prepareGraphCommit. destruct (Session_replacement s); intros Hp.
  - apply commit_bind_inr in Hp as (w1 & [plan' obs] & H1 & Hp).
    apply wrapping_inr, prepareReplacementCommit_inr in H1 as (H1 & Hobs & Hplan).
    apply commit_bind_inr in Hp as (w2 & [] & H2 & Hp). apply advances_onSession in H2; [|apply quietSession_ctxErr].
    apply commit_bind_inr in Hp as (w3 & [] & H3 & Hp). apply matchesGeneration_inr in H3 as [-> _].
    injection Hp as <- <- <-. split_and!; [|done..]. by apply (advances_trans [] [] _ w1).
  - apply commit_bind_inr in Hp as (w1 & [] & H1 & Hp).
    apply advances_onSession in H1; [|apply quietSession_orFail, quietSession_check].
    apply commit_bind_inr in Hp as (w2 & obs & H2 & Hp). pose proof H2 as H2'.
    apply advances_onSession in H2; [|apply quietSession_orFail, quietSession_lift]. injection Hp as <- <- <-.
    split_and!; [by apply (advances_trans [] [] _ w1)| |done].
    unfold onSession, orFail, lift, fail in H2'. destruct (commitObservations s); [|congruence].
    by destruct (Session_failure _).
Qed.

(** The plan under the lock is the plan of the session. *)
Lemma resolvePlan_inr g s t prepared plan :
  payload t = payload s →
  match prepared with
  | Some plan => Session_replacement s = true ∧ prepareReplacementGraphCommit g s = inr plan
  | None => Session_replacement s = false
  end →
  resolvePlan prepared g t = inr plan → planOf g s = inr plan.
Proof.
  intros Ht Hprep. unfold resolvePlan, planOf. destruct prepared as [p|].
  - destruct Hprep as [-> ->]. done.
  - rewrite Hprep, (payload_incremental _ g s t Ht). unfold wrapped.
    destruct (prepareIncrementalGraphCommit _ _ _); congruence.
Qed.

Lemma publishSession_inr verify prepare w w' u :
  publishSession verify prepare w = (w', inr u) →
  ∃ observations plan,
    generation_number (Graph_current (commit_graph w)) = generation_number (Session_base (commit_session w))
    ∧ commitObservations (commit_session w) = inr observations ∧ (verify observations).1 = inr true
    ∧ planOf (commit_graph w) (commit_session w) = inr plan
    ∧ commit_graph w' = setCurrent (plan_generation plan) (commit_graph w)
    ∧ commit_events w' = commit_events w ++ publicationEvents prepare (commit_publication w) observations plan
    ∧ Session_publicationState (commit_session w') = sessionPublicationClosed.
Proof.
  unfold publishSession. intros H.
  apply commit_bind_inr in H as (w1 & [] & Hm & H). apply orDiscard_inr, matchesGeneration_inr in Hm as [-> Hm].
  apply commit_bind_inr in H as (w1 & [] & H1 & H). apply advances_onSession in H1; [|by apply quietSession_modify].
  apply commit_bind_inr in H as (w2 & g & [= <- <-] & H). apply commit_bind_inr in H as (w2 & s & [= <- <-] & H).
  apply commit_bind_inr in H as (w2 & [prepared observations] & Hp & H).
  apply orDiscard_inr, prepareGraphCommit_inr in Hp as (H2 & Hobs & Hprep). cbn [fst snd] in H.
  apply finishPublication_inr in H as (w3 & [] & H & Hg & He & Hs).
  apply publishLocked_inr in H as (Hv & t & plan & Ht & Hpl & Hg3 & He3).
  rewrite (adv_payload _ _ _ H2) in Ht. rewrite (adv_graph _ _ _ H2) in Hpl, Hg3.
  pose proof (resolvePlan_inr _ _ _ _ _ Ht Hprep Hpl) as Hplan.
  pose proof (adv_payload _ _ _ H1) as Hp1. exists observations, plan. split_and!; try done.
  - by rewrite <-(payload_observations _ _ Hp1).
  - rewrite <-Hplan, (adv_graph _ _ _ H1). symmetry. unfold planOf.
    rewrite (payload_replacement _ _ _ Hp1), (payload_incremental _ _ _ _ Hp1). by injection Hp1 as _ _ _ _ ->.
  - by rewrite Hg, Hg3, (adv_graph _ _ _ H1).
  - rewrite He, He3, (adv_publication _ _ _ H2), (adv_events _ _ _ H2).
    by rewrite (adv_publication _ _ _ H1), (adv_events _ _ _ H1), !app_nil_r.
  - by rewrite Hs.
Qed.

Lemma commit_inr g s ctx verifier prepare w u :
  commit g s ctx verifier prepare = (w, inr u) →
  ∃ verify observations plan,
    verifier = Some verify
    ∧ Session_publicationState s = sessionPublicationOpen ∧ Session_failure s = None
    ∧ generation_number (Graph_current g) = generation_number (Session_base s)
    ∧ commitObservations s = inr observations ∧ (verify observations).1 = inr true
    ∧ planOf g s = inr plan
    ∧ commit_graph w = setCurrent (plan_generation plan) g
    ∧ commit_events w = publicationEvents prepare emptyPublication observations plan
    ∧ Session_publicationState (commit_session w) = sessionPublicationClosed.
Proof.
  unfold commit. set (w0 := mkCommitWorld _ _ _ _). unfold CommitWithPreparedPublisher. intros H.
  apply commit_bind_inr in H as (w1 & [] & H1 & H). apply commit_bind_inr in H as (w2 & [] & H2 & H).
  assert ((onSession (modify (set_ctx ctx));; onSession beginPublication) w0 = (w2, inr ())) as Hb.
  { cbv [mbind CM_bind]. by rewrite H1. }
  apply begun_inr in Hb as (Hopen & Hfail & Hadv). clear H1 H2 w1.
  destruct verifier as [verify|]; [|unfold orDiscard, onSession, fail in H; by destruct (Session_failure _)].
  apply publishSession_inr in H as (observations & plan & Hm & Ho & Hv & Hp & Hg & He & Hs).
  pose proof (adv_payload _ _ _ Hadv) as Hpay. rewrite (adv_graph _ _ _ Hadv) in Hm, Hg, Hp.
  exists verify, observations, plan. split_and!; try done.
  - etransitivity; [exact Hm|]. injection Hpay as _ Hbase. by rewrite Hbase.
  - rewrite <-Ho. symmetry. apply (payload_observations _ _ Hpay).
  - rewrite <-Hp. symmetry. change g with (commit_graph w0). change s with (commit_session w0). unfold planOf.
    rewrite (payload_replacement _ _ _ Hpay), (payload_incremental _ _ _ _ Hpay). by injection Hpay as _ _ _ _ ->.
  - by rewrite He, (adv_publication _ _ _ Hadv), (adv_events _ _ _ Hadv).
Qed.

(** An error closes the session and leaves the graph as it was. *)
Definition closes {A} (m : CM A) : Prop := ∀ w w' r, m w = (w', r) →
  match r with
  | inl _ => commit_graph w' = commit_graph w
             ∧ Session_publicationState (commit_session w') = sessionPublicationClosed
  | inr _ => True
  end.

Lemma closes_bind {A B} (m : CM A) (k : A → CM B) :
  closes m → (∀ w w' x, m w = (w', inr x) → commit_graph w' = commit_graph w) →
  (∀ x, closes (k x)) → closes (m ≫= k).
Proof.
  intros Hm Hs Hk w w' r. cbv [mbind CM_bind]. destruct (m w) as [w1 [e|x]] eqn:E.
  - intros [= <- <-]. apply (Hm _ _ _ E).
  - intros Hx. pose proof (Hk x _ _ _ Hx) as Hc. destruct r; [|done].
    by rewrite <-(Hs _ _ _ E).
Qed.

Lemma orDiscard_closes {A} (m : CM A) : quiet m → closes (orDiscard m).
Proof.
  intros Hm w w' r. unfold orDiscard. destruct (m w) as [w1 [e|x]] eqn:E; intros [= <- <-]; [|done].
  split; [apply (Hm _ _ _ E)|done].
Qed.

Lemma orDiscard_graph {A} (m : CM A) w w' x :
  quiet m → orDiscard m w = (w', inr x) → commit_graph w' = commit_graph w.
Proof. intros Hm Ho. apply orDiscard_inr in Ho. apply (Hm _ _ _ Ho). Qed.

Lemma finishPublication_closes m : keepsOnError m → closes (finishPublication m).
Proof. intros Hm w w' [err|x] Hf; [|done]. by apply finishPublication_inl in Hf. Qed.

Lemma quiet_closes {A} (m : CM A) : quiet m → (∀ w w' err, m w ≠ (w', inl err)) → closes m.
Proof. intros Hm Hn w w' [err|x] H; [|done]. by apply Hn in H. Qed.

Lemma publishSession_closes verify prepare : closes (publishSession verify prepare).
Proof.
  unfold publishSession. apply closes_bind.
  { apply orDiscard_closes, quiet_matchesGeneration. }
  { intros w w' x. apply orDiscard_graph, quiet_matchesGeneration. }
  intros _. apply closes_bind; [by apply quiet_closes; [apply quiet_onSession, quietSession_modify|]|by intros ??? [= <- _]|].
  intros _. apply closes_bind; [by apply quiet_closes; [apply quiet_commitGraph|]|by intros ??? [= <- _]|].
  intros g. apply closes_bind; [by apply quiet_closes; [apply quiet_commitSession|]|by intros ??? [= <- _]|].
  intros s. apply closes_bind.
  { apply orDiscard_closes, quiet_prepareGraphCommit. }
  { intros w w' x. apply orDiscard_graph, quiet_prepareGraphCommit. }
  intros prepared. apply finishPublication_closes, publishLocked_inl.
Qed.

Lemma commit_inl g s ctx verifier prepare w err :
  commit g s ctx verifier prepare = (w, inl err) →
  commit_graph w = g
  ∧ (Session_publicationState s = sessionPublicationOpen →
     Session_publicationState (commit_session w) = sessionPublicationClosed).
Proof.
  unfold commit, CommitWithPreparedPublisher. set (w0 := mkCommitWorld _ _ _ _). intros H.
  unfold mbind at 1, CM_bind at 1 in H. unfold onSession at 1 in H. cbn in H.
  set (w1 := mkCommitWorld _ _ _ _) in H. unfold mbind, CM_bind in H.
  destruct (onSession beginPublication w1) as [w2 [e|[]]] eqn:Eb;
    unfold onSession in Eb; destruct (beginPublication (commit_session w1)) as [s2 r2] eqn:Eb2;
    injection Eb as <- ->.
  - injection H as <- _. cbn. split; [done|]. intros Hopen. unfold beginPublication in Eb2. cbn in Eb2.
    rewrite Hopen in Eb2. destruct (readyMutationContext _) as [s3 [e'|x]]; [|done]. by injection Eb2 as <- _.
  - set (w2 := mkCommitWorld _ _ _ _) in H. destruct verifier as [verify|].
    + apply publishSession_closes in H as [Hg Hc]. done.
    + apply (orDiscard_closes _ (quiet_onSession _ (quietSession_fail _))) in H as [Hg Hc]. done.
Qed.

(** ** What the verifier is shown *)

Lemma mergeObservations_inr target inputs result :
  mergeObservations target inputs = inr result →
  target ⊆ result ∧ ∀ r, r ∈ inputs → result !! InputRevision_Key r = Some r.
Proof.
  revert target. induction inputs as [|x inputs IH]; intros target; cbn [mergeObservations].
  - intros [= <-]. split; [done|]. intros r Hin. by apply not_elem_of_nil in Hin.
  - destruct (target !! InputRevision_Key x) as [c|] eqn:E.
    + case_bool_decide; [|done]. subst c. cbn. intros Hm. apply IH in Hm as [Hsub Hin].
      rewrite insert_id in Hsub by done. split; [done|]. intros r Hr.
      apply elem_of_cons in Hr as [->|Hr]; [|by apply Hin]. by eapply lookup_weaken.
    + intros Hm. apply IH in Hm as [Hsub Hin]. split.
      * etransitivity; [|exact Hsub]. by apply insert_subseteq.
      * intros r Hr. apply elem_of_cons in Hr as [->|Hr]; [|by apply Hin].
        eapply lookup_weaken; [|exact Hsub]. apply lookup_insert_eq.
Qed.

Lemma mergeNodeObservations_inr target entries removed result :
  mergeNodeObservations target entries removed = inr result →
  target ⊆ result ∧ ∀ key entry r, (key, entry) ∈ entries → nodeEntry_dirty entry = false → key ∉ removed →
    r ∈ nodeEntry_inputs entry → result !! InputRevision_Key r = Some r.
Proof.
  revert target. induction entries as [|[k e] entries IH]; intros target; cbn [mergeNodeObservations].
  - intros [= <-]. split; [done|]. intros key entry r Hin. by apply not_elem_of_nil in Hin.
  - destruct (nodeEntry_dirty e || bool_decide (k ∈ removed)) eqn:Eb.
    + intros Hm. apply IH in Hm as [Hsub Hin]. split; [done|]. intros key entry r Hk Hd Hr.
      apply elem_of_cons in Hk as [[= -> ->]|Hk]; [|by apply (Hin key)].
      rewrite Hd, bool_decide_eq_false_2 in Eb by done. done.
    + destruct (mergeObservations target (nodeEntry_inputs e)) as [|t] eqn:Em; [done|].
      apply mergeObservations_inr in Em as [Hsub1 Hin1]. intros Hm. apply IH in Hm as [Hsub2 Hin2].
      split; [by etransitivity|]. intros key entry r Hk Hd Hr Hi.
      apply elem_of_cons in Hk as [[= -> ->]|Hk]; [|by apply (Hin2 key entry)].
      eapply lookup_weaken; [|exact Hsub2]. by apply Hin1.
Qed.

Lemma elem_of_sortedObservations inputs r :
  r ∈ sortedObservations inputs ↔ ∃ key, inputs !! key = Some r.
Proof.
  unfold sortedObservations. rewrite list_elem_of_omap. split.
  - intros (key & _ & Hk). by exists key.
  - intros [key Hk]. exists key. split; [|done]. unfold sortInputKeys.
    rewrite sort_strings_Permutation, elem_of_elements. by eapply elem_of_dom_2.
Qed.

(** The observations of a commit are the session's and those of the clean
    entries it leaves. *)
Lemma commitObservations_inr s observations :
  commitObservations s = inr observations →
  (∀ key r, Session_observations s !! key = Some r → r ∈ observations)
  ∧ ∀ key entry r, keptNodes s !! key = Some entry → nodeEntry_dirty entry = false →
      r ∈ nodeEntry_inputs entry → r ∈ observations.
Proof.
  unfold commitObservations. destruct (mergeObservations ∅ _) as [|obs] eqn:Em; [done|].
  destruct (mergeNodeObservations _ _ _) as [|obs'] eqn:En; [done|]. intros [= <-].
  apply mergeObservations_inr in Em as [_ Hin]. apply mergeNodeObservations_inr in En as [Hsub Hnode]. split.
  - intros key r Hr. apply elem_of_sortedObservations. exists (InputRevision_Key r).
    eapply lookup_weaken; [|exact Hsub]. apply Hin, elem_of_sortedObservations. by exists key.
  - intros key entry r Hk Hd Hr. apply elem_of_sortedObservations. exists (InputRevision_Key r).
    rewrite keptNodes_lookup in Hk. destruct (decide (key ∈ Session_removedQueries s)) as [|Hrem]; [done|].
    apply (Hnode key entry); [by apply elem_of_map_to_list|done..].
Qed.
