(* ===== verification/IncSystem.v ===== *)
(** * The incremental graph: sessions over the life of a graph

    Sessions begin on generations of a graph, change inputs, evict and evaluate
    queries and commit, in any order and with any errors. Whatever the graph and
    its sessions have been through, the invariants of generations and of
    sessions hold, so that an evaluation answers what evaluating from scratch on
    the session's inputs gives, and so does every clean committed value. *)

From stdpp Require Import base gmap strings sorting sets list list_numbers relations.
From S2P Require Import Prelude GoStd IncGraph IncSession IncEval IncIndex IncReference IncSound IncEvalSound IncApply IncCommit IncEditor IncCommitProps IncPublish.

Open Scope N_scope.

(** ** The calls of a session *)

Inductive sessionCall :=
| CallApplyInputs (inputs : list Input)
| CallApplyInputsWhileIdle (inputs : list Input)
| CallRemoveQueries (keys : list QueryKey)
| CallRemoveQueriesWhileIdle (keys : list QueryKey)
| CallDirtyQueries
| CallEvaluate (fuel : nat) (ctx : option nat) (key : QueryKey)
| CallEvaluateAll (fuel : nat) (ctx : option nat) (keys : list QueryKey).

Definition ignoring {A} (m : SM A) : SM unit := m;; mret tt.

Definition runCall (c : sessionCall) : SM unit :=
  match c with
  | CallApplyInputs inputs => ApplyInputs inputs
  | CallApplyInputsWhileIdle inputs => ignoring (ApplyInputsWhileIdle inputs)
  | CallRemoveQueries keys => RemoveQueries keys
  | CallRemoveQueriesWhileIdle keys => RemoveQueriesWhileIdle keys
  | CallDirtyQueries => ignoring DirtyQueries
  | CallEvaluate fuel ctx key => ignoring (Evaluate fuel ctx key)
  | CallEvaluateAll fuel ctx keys => ignoring (EvaluateAll fuel ctx keys)
  end.

(** ** Sessions that are over *)

(** The session failed or was closed: every further call is refused. *)
Definition dead (s : Session) : Prop :=
  Session_failure s ≠ None
  ∨ (Session_publicationState s = sessionPublicationClosed
     ∨ Session_publicationState s = sessionPublicationAborted).

Lemma readyMutation_dead s : dead s → ∃ err, readyMutation s = (s, inl err).
Proof.
  intros Hd. unfold readyMutation, ready. destruct (_ || _); [by eexists|].
  destruct Hd as [Hf|[-> | ->]]; [|by eexists..].
  destruct (Session_failure s); [|done]. destruct (Session_publicationState s); by eexists.
Qed.

(** What a call may do to the session: refuse and change nothing that is
    committed, fail for good, or succeed. *)
Definition refusal {A} (m : SM A) : Prop := ∀ s s' err,
  m s = (s', inl err) → Session_failure s' ≠ None ∨ (payload s' = payload s ∧ Session_failure s' = Session_failure s
    ∧ Session_publicationState s' = Session_publicationState s).

(** Every error of [m] is the session's failure. *)
Definition failing {A} (m : SM A) : Prop := ∀ s s' err, m s = (s', inl err) → Session_failure s' ≠ None.

Lemma failing_refusal {A} (m : SM A) : failing m → refusal m.
Proof. intros Hm s s' err H. left. by eapply Hm. Qed.

Lemma failing_bind {A B} (m : SM A) (k : A → SM B) : failing m → (∀ x, failing (k x)) → failing (m ≫= k).
Proof.
  intros Hm Hk s s' err. cbv [mbind SM_bind]. destruct (m s) as [s1 [e|x]] eqn:E.
  - intros [= <- _]. by eapply Hm.
  - by apply Hk.
Qed.

Lemma failing_orFail {A} (m : SM A) : failing (orFail m).
Proof.
  intros s s' e. unfold orFail. destruct (m s) as [s1 [err|x]]; [|done]. intros Hf.
  unfold fail in Hf. destruct (Session_failure s1) eqn:E; injection Hf as <- _; [by rewrite E|done].
Qed.

Lemma failing_fail {A} err : failing (fail (A:=A) err).
Proof.
  intros s s' e. unfold fail. destruct (Session_failure s) eqn:Hf; intros [= <- _]; [by rewrite Hf|done].
Qed.

Lemma failing_ret {A} (x : A) : failing (mret x).
Proof. done. Qed.

Lemma failing_evaluateKeys fuel keys : failing (evaluateKeys fuel keys).
Proof.
  induction keys as [|key keys IH]; cbn [evaluateKeys]; [apply failing_ret|].
  apply failing_bind; [apply failing_orFail|]. intros v. apply failing_bind; [done|]. intros vs. apply failing_ret.
Qed.

(** A session that may be changed: nothing but its context moved. *)
Lemma readyMutation_inr s s' u : readyMutation s = (s', inr u) → s' = s ∧ ¬ dead s.
Proof.
  unfold readyMutation, ready, dead. destruct (_ || _); [done|].
  destruct (Session_publicationState s); try done; destruct (Session_failure s); try done;
    intros [= <- _]; (split; [done|]); intros [?|[?|?]]; done.
Qed.

Lemma refusal_readyMutation {A} (k : unit → SM A) :
  (∀ x, failing (k x)) → refusal (readyMutation ≫= k).
Proof.
  intros Hk s s' err. cbv [mbind SM_bind]. destruct (readyMutation s) as [s1 [e|x]] eqn:E.
  - apply readyMutation_same in E as ->. intros [= <- _]. by right.
  - intros Hx. left. by eapply Hk.
Qed.

Lemma failing_get {A} (k : Session → SM A) : (∀ x, failing (k x)) → failing (get ≫= k).
Proof. intros Hk. by apply failing_bind. Qed.

Lemma refusal_context {A} ctx (k : unit → SM A) :
  (∀ x, failing (k x)) → refusal (modify (set_ctx ctx);; readyMutationContext ≫= k).
Proof.
  intros Hk s s' err. cbv [mbind SM_bind modify]. unfold readyMutationContext. cbv [mbind SM_bind].
  destruct (readyMutation (set_ctx ctx s)) as [s1 [e|x]] eqn:E.
  - apply readyMutation_same in E as ->. intros [= <- _]. by right.
  - destruct (orFail ctxErr s1) as [s2 [e|y]] eqn:E2.
    + intros [= <- _]. left. by eapply failing_orFail.
    + intros Hx. left. by eapply Hk.
Qed.

Lemma refusal_ignoring {A} (m : SM A) : refusal m → refusal (ignoring m).
Proof.
  intros Hm s s' err. unfold ignoring. cbv [mbind SM_bind]. destruct (m s) as [s1 [e|x]] eqn:E; [|done].
  intros [= <- _]. by eapply Hm.
Qed.

Lemma runCall_refusal c : refusal (runCall c).
Proof.
  destruct c; cbn [runCall]; try apply refusal_ignoring;
    try (apply refusal_readyMutation; intros _; apply failing_get; intros s; case_match;
         [apply failing_fail|]).
  - apply failing_bind; [apply failing_orFail|]. intros. apply failing_ret.
  - apply failing_orFail.
  - apply failing_orFail.
  - apply failing_orFail.
  - case_match; apply failing_ret.
  - apply refusal_context. intros _. apply failing_bind; [done|]. intros _. apply failing_orFail.
  - apply refusal_context. intros _. apply failing_bind; [apply failing_orFail|]. intros ordered.
    apply failing_bind; [done|]. intros _. apply failing_evaluateKeys.
Qed.

Lemma dead_refuses c s s' r : dead s → runCall c s = (s', r) → ∃ err, r = inl err.
Proof.
  intros Hd Hr. destruct (readyMutation_dead s Hd) as [e He].
  assert (∀ ctx, ∃ e, readyMutation (set_ctx ctx s) = (set_ctx ctx s, inl e)) as Hctx.
  { intros ctx. by apply readyMutation_dead. }
  destruct c; cbn [runCall] in Hr; unfold ignoring, ApplyInputs, ApplyInputsWhileIdle, RemoveQueries,
    RemoveQueriesWhileIdle, DirtyQueries, Evaluate, EvaluateAll, readyMutationContext in Hr;
    cbv [mbind SM_bind modify] in Hr; rewrite ?He in Hr; try (destruct (Hctx ctx) as [e' He']; rewrite He' in Hr);
    injection Hr as _ <-; by eexists.
Qed.

Lemma dead_stays c s s' r : dead s → runCall c s = (s', r) → dead s'.
Proof.
  intros Hd Hr. destruct (dead_refuses c s s' r Hd Hr) as [err ->].
  destruct (runCall_refusal c s s' err Hr) as [Hf|(_ & Hf & Hp)]; [by left|].
  unfold dead. by rewrite Hf, Hp.
Qed.

(** ** Calls that succeed *)

Record sameBase (s s' : Session) : Prop := {
  sb_graph : Session_graph s' = Session_graph s;
  sb_base : Session_base s' = Session_base s;
  sb_target : Session_targetGeneration s' = Session_targetGeneration s;
  sb_cold : Session_cold s' = Session_cold s;
  sb_replacement : Session_replacement s' = Session_replacement s }.

Lemma sameBase_refl s : sameBase s s.
Proof. by constructor. Qed.

Lemma sameBase_setting s s' : sameSetting s s' → sameBase s s'.
Proof. intros []. by constructor. Qed.

Lemma sameBase_grows s s' : grows s s' → sameBase s s'.
Proof. intros []. by constructor. Qed.

Lemma sameBase_core s s' : core s' = core s → sameBase s s'.
Proof. intros [=]. by constructor. Qed.

Lemma observe_inr inputs s s' u : observe inputs s = (s', inr u) → sameCore s s'.
Proof.
  unfold observe. cbv [mbind SM_bind get lift modify]. destruct (mergeObservations _ _); [done|].
  intros [= <- _]. by constructor.
Qed.

Lemma sameCore_trans s1 s2 s3 : sameCore s1 s2 → sameCore s2 s3 → sameCore s1 s3.
Proof. intros [? ? ?] [? ? ?]. constructor; [congruence|by etransitivity|congruence]. Qed.

Lemma evaluateKey_spec HB fuel key s s' v :
  evaluateKey fuel key s = (s', inr v) → obliviousGraph (Session_graph s) →
  grows s s' ∧
  (sessionOk HB s → tidy s' →
   sessionOk HB s' ∧ extends ∅ s s' ∧ queryValue (Session_graph s) (currentInput s') key v).
Proof.
  intros He Hob. apply orFail_inr in He. apply bind_inr in He as (s1 & entry & Hn & He).
  apply bind_inr in He as (s2 & [] & Hc & He). apply ctxErr_inr in Hc.
  apply bind_inr in He as (s3 & [] & Ho & He). apply observe_inr in Ho. cbv [lift] in He.
  injection He as <- Hv. apply ValueBytes_inr in Hv as ->.
  pose proof (sameCore_trans _ _ _ Hc Ho) as H13. pose proof (sameCore_grows _ _ H13) as Hg13.
  destruct (evaluateNode_spec HB fuel key s s1 entry Hn Hob) as [Hg Hspec].
  split; [by eapply grows_trans|]. intros Hok Ht.
  destruct Hspec as (Hok1 & Hex & Hnode & Hclean); [done|by eapply grows_tidy|].
  destruct (sameCore_ok HB ∅ _ _ H13 Hok1) as [Hok3 Hex3]. split_and!; [done| |].
  - eapply extends_trans; [|done]. eapply extends_subset; [|exact Hex]. set_solver.
  - rewrite <-(gr_graph _ _ (grows_trans _ _ _ Hg Hg13)).
    apply (vo_value _ _ _ _ (so_view _ _ Hok3)); [|done]. by rewrite (sameCore_nodeOf _ _ H13).
Qed.

Lemma queryValue_extends X s s' key v :
  extends X s s' → queryValue (Session_graph s) (currentInput s) key v →
  queryValue (Session_graph s) (currentInput s') key v.
Proof. intros Hex (run & Hr & He). exists run. split; [done|]. by eapply extends_evals. Qed.

Lemma evaluateKeys_spec HB fuel keys s s' results :
  evaluateKeys fuel keys s = (s', inr results) → obliviousGraph (Session_graph s) →
  grows s s' ∧
  (sessionOk HB s → tidy s' →
   sessionOk HB s' ∧ extends ∅ s s' ∧ results.*1 = keys
   ∧ ∀ key v, (key, v) ∈ results → queryValue (Session_graph s) (currentInput s') key v).
Proof.
  revert s results. induction keys as [|key keys IH]; intros s results; cbn [evaluateKeys].
  - intros [= <- <-] _. split; [apply grows_refl|]. intros Hok _.
    split_and!; [done|apply extends_refl|done|]. intros k v Hin. by apply not_elem_of_nil in Hin.
  - intros He Hob. apply bind_inr in He as (s1 & v & H1 & He). apply bind_inr in He as (s2 & rest & H2 & He).
    injection He as <- <-. destruct (evaluateKey_spec HB _ _ _ _ _ H1 Hob) as [Hg1 Hs1].
    rewrite <-(gr_graph _ _ Hg1) in Hob. destruct (IH _ _ H2 Hob) as [Hg2 Hs2].
    split; [by eapply grows_trans|]. intros Hok Ht.
    destruct Hs1 as (Hok1 & Hex1 & Hv); [done|by eapply grows_tidy|].
    destruct (Hs2 Hok1 Ht) as (Hok2 & Hex2 & Hkeys & Hvs). split_and!; [done|by eapply extends_trans| |].
    + cbn. by rewrite Hkeys.
    + rewrite (gr_graph _ _ Hg1) in Hvs. intros k x Hin. apply elem_of_cons in Hin as [[= -> ->]|Hin]; [|by apply Hvs].
      rewrite <-(gr_graph _ _ Hg1) in *. by eapply queryValue_extends.
Qed.

Lemma readyMutationContext_inr s s' u : readyMutationContext s = (s', inr u) → sameCore s s'.
Proof.
  intros Hr. apply bind_inr in Hr as (s1 & [] & H1 & H2). apply readyMutation_inr in H1 as [-> _].
  by apply orFail_inr, ctxErr_inr in H2.
Qed.

(** The context and the flag a call sets before it evaluates. *)
Lemma evaluationStart_sameCore ctx s s1 u :
  (modify (set_ctx ctx);; readyMutationContext) s = (s1, inr u) →
  sameCore s s1.
Proof.
  intros Hb. apply bind_inr in Hb as (s2 & [] & [= <-] & Hb). apply readyMutationContext_inr in Hb.
  eapply sameCore_trans; [|exact Hb]. by constructor.
Qed.

Lemma sameCore_started s : sameCore s (set_started true s).
Proof. by constructor. Qed.

Lemma Evaluate_inr HB fuel ctx key s s' v :
  Evaluate fuel ctx key s = (s', inr v) → obliviousGraph (Session_graph s) → sessionOk HB s → tidy s' →
  sessionOk HB s' ∧ sameBase s s' ∧ queryValue (Session_graph s) (currentInput s') key v.
Proof.
  intros He Hob Hok Ht. apply bind_inr in He as (s1 & [] & H1 & He).
  apply bind_inr in He as (s2 & [] & H2 & He). apply bind_inr in He as (s3 & [] & [= <-] & He).
  assert (sameCore s (set_started true s2)) as Hsc.
  { eapply sameCore_trans; [|apply sameCore_started]. eapply (evaluationStart_sameCore ctx).
    cbv [mbind SM_bind]. by rewrite H1. }
  destruct (sameCore_ok HB ∅ _ _ Hsc Hok) as [Hok2 _].
  pose proof (sameCore_grows _ _ Hsc) as Hg2. rewrite <-(gr_graph _ _ Hg2) in *.
  destruct (evaluateKey_spec HB _ _ _ _ _ He Hob) as [Hg Hspec].
  destruct (Hspec Hok2 Ht) as (Hok' & _ & Hv). split_and!; [done| |done].
  apply sameBase_grows. by eapply grows_trans.
Qed.

Lemma EvaluateAll_inr HB fuel ctx keys s s' results :
  EvaluateAll fuel ctx keys s = (s', inr results) →
  obliviousGraph (Session_graph s) → sessionOk HB s → tidy s' →
  sessionOk HB s' ∧ sameBase s s' ∧ results.*1 = sortQueryKeys keys
  ∧ ∀ key v, (key, v) ∈ results → queryValue (Session_graph s) (currentInput s') key v.
Proof.
  intros He Hob Hok Ht. apply bind_inr in He as (s1 & [] & H1 & He).
  apply bind_inr in He as (s2 & [] & H2 & He). apply bind_inr in He as (s3 & ordered & H3 & He).
  apply orFail_inr in H3. cbv [lift] in H3. injection H3 as <- Hval.
  apply bind_inr in He as (s3 & [] & [= <-] & He).
  assert (ordered = sortQueryKeys keys) as ->.
  { unfold validateQueryBatch in Hval. destruct (existsb _ _); [done|]. destruct (duplicateKey _); congruence. }
  assert (sameCore s (set_started true s2)) as Hsc.
  { eapply sameCore_trans; [|apply sameCore_started]. eapply (evaluationStart_sameCore ctx).
    cbv [mbind SM_bind]. by rewrite H1. }
  destruct (sameCore_ok HB ∅ _ _ Hsc Hok) as [Hok2 _].
  pose proof (sameCore_grows _ _ Hsc) as Hg2. rewrite <-(gr_graph _ _ Hg2) in *.
  destruct (evaluateKeys_spec HB _ _ _ _ _ He Hob) as [Hg Hspec].
  destruct (Hspec Hok2 Ht) as (Hok' & _ & Hk & Hv). split_and!; [done| |done|done].
  apply sameBase_grows. by eapply grows_trans.
Qed.

(** A call under the guard of the changes of a session. *)
Lemma guarded_inr {A} (guard : Session → bool) err (m : SM A) s s' x :
  (readyMutation;; s ← get; if guard s then fail err else m) s = (s', inr x) → m s = (s', inr x).
Proof.
  intros Hg. apply bind_inr in Hg as (s1 & [] & H1 & Hg). apply readyMutation_inr in H1 as [-> _].
  apply bind_inr in Hg as (s1 & s2 & [= <- <-] & Hg). destruct (guard s); [|done].
  unfold fail in Hg. by destruct (Session_failure s).
Qed.

Lemma ignoring_inr {A} (m : SM A) s s' u : ignoring m s = (s', inr u) → ∃ x, m s = (s', inr x).
Proof. intros Hi. apply bind_inr in Hi as (s1 & x & H1 & [= <-]). by exists x. Qed.

Lemma runCall_ok HB c s s' u :
  runCall c s = (s', inr u) → obliviousGraph (Session_graph s) → sessionOk HB s → tidy s' →
  sessionOk HB s' ∧ sameBase s s'.
Proof.
  intros Hr Hob Hok Ht. destruct c; cbn [runCall] in Hr.
  - apply (guarded_inr Session_started) in Hr. apply ignoring_inr in Hr as [x Hr].
    destruct (applyInputs_ok HB _ _ _ _ Hr Hob Hok). split; [done|by apply sameBase_setting].
  - apply ignoring_inr in Hr as [x Hr]. apply (guarded_inr (λ s, negb (idle s))) in Hr.
    destruct (applyInputs_ok HB _ _ _ _ Hr Hob Hok). split; [done|by apply sameBase_setting].
  - apply (guarded_inr Session_started) in Hr.
    destruct (removeQueries_ok HB _ _ _ _ Hr Hok). split; [done|by apply sameBase_setting].
  - apply (guarded_inr (λ s, negb (idle s))) in Hr.
    destruct (removeQueries_ok HB _ _ _ _ Hr Hok). split; [done|by apply sameBase_setting].
  - apply ignoring_inr in Hr as [x Hr]. unfold DirtyQueries in Hr.
    apply bind_inr in Hr as (s1 & [] & H1 & Hr). apply readyMutation_inr in H1 as [-> _].
    apply bind_inr in Hr as (s1 & s2 & [= <- <-] & Hr). unfold fail in Hr.
    destruct (Session_started s); [by destruct (Session_failure s)|].
    destruct (Session_cold s); injection Hr as <- _; (split; [done|apply sameBase_refl]).
  - apply ignoring_inr in Hr as [v Hr]. by destruct (Evaluate_inr HB _ _ _ _ _ _ Hr Hob Hok Ht) as (? & ? & _).
  - apply ignoring_inr in Hr as [v Hr]. by destruct (EvaluateAll_inr HB _ _ _ _ _ _ Hr Hob Hok Ht) as (? & ? & _).
Qed.

(** ** What no call changes

    The generation a session began on and the one it aims at, whether its calls
    succeed or fail and whatever the queries are. *)

Definition steady {A} (m : SM A) : Prop := ∀ s, sameBase s (m s).1.

Lemma sameBase_trans s1 s2 s3 : sameBase s1 s2 → sameBase s2 s3 → sameBase s1 s3.
Proof. intros [] []. constructor; congruence. Qed.

Lemma steady_bind {A B} (m : SM A) (k : A → SM B) : steady m → (∀ x, steady (k x)) → steady (m ≫= k).
Proof.
  intros Hm Hk s. cbv [mbind SM_bind]. specialize (Hm s). destruct (m s) as [s1 [e|x]]; cbn in *; [done|].
  eapply sameBase_trans; [done|apply Hk].
Qed.

Lemma steady_ret {A} (x : A) : steady (mret x).
Proof. by constructor. Qed.

Lemma steady_get : steady get.
Proof. by constructor. Qed.

Lemma steady_lift {A} (r : IncErr + A) : steady (lift r).
Proof. by constructor. Qed.

Lemma steady_throw {A} err : steady (throw (A:=A) err).
Proof. by constructor. Qed.

Lemma steady_check err : steady (check err).
Proof. destruct err; by constructor. Qed.

Lemma steady_modify f : (∀ s, sameBase s (f s)) → steady (modify f).
Proof. by intros Hf s. Qed.

Lemma steady_fail {A} err : steady (fail (A:=A) err).
Proof. intros s. unfold fail. case_match; by constructor. Qed.

Lemma steady_orFail {A} (m : SM A) : steady m → steady (orFail m).
Proof.
  intros Hm s. unfold orFail. specialize (Hm s). destruct (m s) as [s1 [err|x]]; cbn in *; [|done].
  eapply sameBase_trans; [done|apply steady_fail].
Qed.

Lemma steady_ctxErr : steady ctxErr.
Proof. intros s. unfold ctxErr. repeat case_match; by constructor. Qed.

Lemma steady_ready : steady ready.
Proof. intros s. unfold ready. repeat case_match; by constructor. Qed.

Lemma steady_readyMutation : steady readyMutation.
Proof. intros s. unfold readyMutation. case_match; [by constructor|apply steady_ready]. Qed.

Create HintDb steady discriminated.
#[export] Hint Resolve steady_ret steady_get steady_lift steady_throw steady_check steady_fail steady_orFail
  steady_ctxErr steady_ready steady_readyMutation : steady.
#[export] Hint Extern 1 (steady (modify _)) => (apply steady_modify; intros; by constructor) : steady.

Ltac steady_tac := repeat first
  [ progress intros | solve [eauto 2 with steady] | simple apply steady_bind | simple apply steady_orFail | case_match ].

Lemma steady_readyContext : steady readyContext.
Proof. unfold readyContext. steady_tac. Qed.

Lemma steady_readyMutationContext : steady readyMutationContext.
Proof. unfold readyMutationContext. steady_tac. Qed.

Lemma steady_deleteEdges key deps : steady (deleteStagedEdges key deps).
Proof. induction deps as [|d deps IH]; cbn [deleteStagedEdges]; steady_tac. Qed.

Lemma steady_addEdges key deps : steady (addStagedEdges key deps).
Proof. induction deps as [|d deps IH]; cbn [addStagedEdges]; steady_tac. Qed.

#[export] Hint Resolve steady_readyContext steady_readyMutationContext steady_deleteEdges steady_addEdges : steady.

Lemma steady_unstage key : steady (unstageNodeChange key).
Proof. unfold unstageNodeChange. steady_tac. Qed.

#[export] Hint Resolve steady_unstage : steady.

Lemma steady_stage key entry : steady (stageNodeChange key entry).
Proof. unfold stageNodeChange. steady_tac. Qed.

#[export] Hint Resolve steady_stage : steady.

Lemma steady_stageDirty D keys : steady (stageDirtyEntries D keys).
Proof. induction keys as [|k keys IH]; cbn [stageDirtyEntries]; steady_tac. Qed.

#[export] Hint Resolve steady_stageDirty : steady.

Lemma steady_applyInputs inputs : steady (applyInputsAtomically inputs).
Proof. unfold applyInputsAtomically. steady_tac. Qed.

Lemma steady_removeLoop fuel queue : steady (removeLoop fuel queue).
Proof. revert queue. induction fuel as [|fuel IH]; intros queue; cbn [removeLoop]; steady_tac. Qed.

#[export] Hint Resolve steady_applyInputs steady_removeLoop : steady.

Lemma steady_removeQueries keys : steady (removeQueries keys).
Proof. unfold removeQueries. steady_tac. Qed.

Lemma steady_loadInput key : steady (loadInput key).
Proof. unfold loadInput, resolveInput. steady_tac. Qed.

#[export] Hint Resolve steady_removeQueries steady_loadInput : steady.

Section evaluator.
Context (evaluate : QueryKey → SM nodeEntry) (Heval : ∀ key, steady (evaluate key)).

Lemma steady_readerCall {A} (m : dependencyFrame → SM (dependencyFrame * A)) r s :
  (∀ f, steady (m f)) → sameBase s (readerCall m r s).1.1.
Proof using.
  intros Hm. unfold readerCall. destruct (reader_err r); [apply sameBase_refl|].
  specialize (Hm (reader_frame r) s). by destruct (m (reader_frame r) s) as [s1 [err|[f x]]].
Qed.

Lemma steady_callQuery run r s : sameBase s (callQuery evaluate run r s).1.1.
Proof using Heval.
  revert r s. induction run; intros r s; cbn [callQuery]; try apply sameBase_refl;
    match goal with |- context [readerCall ?m ?r0 ?s0] =>
      pose proof (steady_readerCall m r0 s0) as Hr; destruct (readerCall m r0 s0) as [[s1 r1] answer]; cbn in Hr
    end; (eapply sameBase_trans; [apply Hr; clear Hr|auto]); intros f.
  - unfold ExactInput. steady_tac.
  - unfold ObserveExactInput. steady_tac.
  - unfold ObserveExactInputValue. steady_tac.
  - unfold ReaderQuery. steady_tac.
Qed.

Lemma steady_executeQuery key run previous : steady (executeQuery evaluate key run previous).
Proof using Heval.
  intros s. unfold executeQuery. pose proof (steady_callQuery run newQueryReader s) as Hc.
  destruct (callQuery evaluate run newQueryReader s) as [[s1 r1] outcome]. cbn in Hc.
  destruct (reader_err r1); [done|]. destruct outcome as [err|value]; [done|].
  eapply sameBase_trans; [exact Hc|].
  assert (steady (ctxErr;; stageExecutedQuery key (reader_frame r1) value previous)) as Hst; [|apply Hst].
  unfold stageExecutedQuery. steady_tac.
Qed.

Lemma steady_verifyFrom deps observations : steady (verifyFrom evaluate deps observations).
Proof using Heval.
  revert observations. induction deps as [|d deps IH]; intros observations; cbn [verifyFrom];
    unfold verifyDependency; steady_tac.
Qed.

Lemma steady_evaluateActive key run : steady (evaluateActive evaluate key run).
Proof using Heval.
  pose proof steady_executeQuery. pose proof steady_verifyFrom.
  unfold evaluateActive, backdateCleanNode, verifyDependencies. steady_tac; eauto with steady.
Qed.
End evaluator.

Lemma steady_evaluateNode fuel key : steady (evaluateNode fuel key).
Proof.
  revert key. induction fuel as [|fuel IH]; intros key; cbn [evaluateNode]; [apply steady_throw|].
  steady_tac. intros s. unfold finally.
  match goal with |- context [evaluateActive ?e ?k ?r s] =>
    pose proof (steady_evaluateActive e IH k r s) as Ha; destruct (evaluateActive e k r s) as [s1 result] end.
  cbn in *. eapply sameBase_trans; [done|by constructor].
Qed.

#[export] Hint Resolve steady_evaluateNode : steady.

Lemma steady_evaluateKey fuel key : steady (evaluateKey fuel key).
Proof. unfold evaluateKey, observe. steady_tac. Qed.

#[export] Hint Resolve steady_evaluateKey : steady.

Lemma steady_evaluateKeys fuel keys : steady (evaluateKeys fuel keys).
Proof. induction keys as [|k keys IH]; cbn [evaluateKeys]; steady_tac. Qed.

#[export] Hint Resolve steady_evaluateKeys : steady.

Lemma steady_runCall c : steady (runCall c).
Proof.
  destruct c; cbn [runCall]; unfold ignoring, ApplyInputs, ApplyInputsWhileIdle, RemoveQueries,
    RemoveQueriesWhileIdle, DirtyQueries, Evaluate, EvaluateAll; steady_tac.
Qed.

(** ** The system *)

Record system := mkSystem {
  sys_graph : Graph;
  sys_sessions : list Session }.

(** The steps of the program: a session begins, makes a call that succeeds or
    fails, or commits. *)
Inductive step : system → system → Prop :=
| step_begin g ss cold resolver s :
    begin g cold resolver = inr s →
    step (mkSystem g ss) (mkSystem g (ss ++ [s]))
| step_call g ss i s c s' r :
    ss !! i = Some s → runCall c s = (s', r) →
    step (mkSystem g ss) (mkSystem g (<[i := s']> ss))
| step_commit g ss i s ctx verifier prepare w r :
    ss !! i = Some s → commit g s ctx verifier prepare = (w, r) →
    step (mkSystem g ss) (mkSystem (commit_graph w) (<[i := commit_session w]> ss)).

(** What a new graph can get to. *)
Definition reachable (g0 : Graph) (σ : system) : Prop :=
  Graph_current g0 = emptyGeneration ∧ rtc step (mkSystem g0 []) σ.

(** Histories in which no session that is still in use holds an entry of a query
    it evicted: the callers do not evaluate again, in a session, a query they
    removed in it. *)
Definition tidySystem (σ : system) : Prop := ∀ s, s ∈ sys_sessions σ → dead s ∨ tidy s.

Definition tidyStep (σ σ' : system) : Prop := step σ σ' ∧ tidySystem σ'.

Definition tidyReachable (g0 : Graph) (σ : system) : Prop :=
  Graph_current g0 = emptyGeneration ∧ rtc tidyStep (mkSystem g0 []) σ.

Lemma tidyReachable_reachable g0 σ : tidyReachable g0 σ → reachable g0 σ.
Proof. intros [He Hr]. split; [done|]. eapply rtc_subrel; [|exact Hr]. by intros ?? [? _]. Qed.

(** The session began on the current generation or an earlier one and aims at the
    one after it. *)
Definition numbered (g : Graph) (s : Session) : Prop :=
  Session_targetGeneration s = generation_number (Session_base s) + 1
  ∧ generation_number (Session_base s) <= generation_number (Graph_current g).

Lemma planOf_number g s plan :
  planOf g s = inr plan → generation_number (plan_generation plan) = Session_targetGeneration s.
Proof.
  unfold planOf, prepareReplacementGraphCommit, newGraphGeneration, prepareIncrementalGraphCommit,
    buildIncrementalGraphGeneration, applyIncrementalCommittedInputs. cbv zeta.
  intros Hp. repeat (case_match; simplify_eq; try done).
Qed.

(** ** The invariant of the system *)

Record liveSession (g : Graph) (s : Session) (HB : History) : Prop := {
  ls_ok : sessionOk HB s;
  ls_base : generationOk (Session_graph s) HB (Session_base s);
  ls_queries : ∀ key, queryRun (Session_graph s) key = queryRun g key;
  ls_target : Session_targetGeneration s = generation_number (Session_base s) + 1;
  ls_number : generation_number (Session_base s) <= generation_number (Graph_current g);
  ls_current : generation_number (Session_base s) = generation_number (Graph_current g) →
    Session_base s = Graph_current g;
  ls_replacement : Session_replacement s = Session_cold s || bool_decide (generation_number (Session_base s) = 0) }.

Record systemOk (g0 : Graph) (σ : system) : Prop := {
  sy_queries : ∀ key, queryRun (sys_graph σ) key = queryRun g0 key;
  sy_current : ∃ H, generationOk (sys_graph σ) H (Graph_current (sys_graph σ));
  sy_sessions : ∀ s, s ∈ sys_sessions σ → dead s ∨ ∃ HB, liveSession (sys_graph σ) s HB }.

Lemma liveSession_core g s s' HB :
  core s' = core s → Session_queried s ⊆ Session_queried s' → liveSession g s HB → liveSession g s' HB.
Proof.
  intros Hc Hq [Hok Hb Hqu Ht Hn Hcur Hr]. destruct (sameBase_core _ _ Hc) as [Eg Eb Et Ec Er].
  constructor; rewrite ?Eg, ?Eb, ?Et, ?Ec, ?Er; try done. by eapply sessionOk_core.
Qed.

Lemma liveSession_call g s s' HB :
  sessionOk HB s' → sameBase s s' → liveSession g s HB → liveSession g s' HB.
Proof.
  intros Hok [Eg Eb Et Ec Er] []. constructor; rewrite ?Eg, ?Eb, ?Et, ?Ec, ?Er; done.
Qed.

Lemma begin_liveSession g H cold resolver s :
  generationOk g H (Graph_current g) → begin g cold resolver = inr s → liveSession g s H.
Proof.
  intros Hg Hb. pose proof (begin_ok _ _ _ _ _ Hg Hb) as Hok. apply begin_inr in Hb as ->.
  constructor; cbn; done.
Qed.

Lemma queryRun_setCurrent g generation key : queryRun (setCurrent generation g) key = queryRun g key.
Proof. done. Qed.

Lemma generationOk_graph g g' H generation :
  (∀ key, queryRun g' key = queryRun g key) → generationOk g H generation → generationOk g' H generation.
Proof. intros Hq []. constructor; try done. by eapply viewOk_graph. Qed.

(** The plan of a live session on the current generation is a generation. *)
Lemma planOf_ok g s HB plan :
  obliviousGraph g → liveSession g s HB →
  generation_number (Graph_current g) = generation_number (Session_base s) →
  planOf g s = inr plan →
  generationOk g (sessHist HB s) (plan_generation plan)
  ∧ generation_number (plan_generation plan) = generation_number (Graph_current g) + 1.
Proof.
  intros Hob [Hok Hb Hq Ht Hn Hcur Hr] Heq. unfold planOf.
  assert (obliviousGraph (Session_graph s)) as Hob'.
  { intros key run. rewrite Hq. apply Hob. }
  assert (∀ key, queryRun g key = queryRun (Session_graph s) key) as Hq' by done.
  destruct (Session_replacement s) eqn:Er; intros Hp.
  - destruct (replacement_plan_ok g HB s plan) as [Hgo Hnum]; try done.
    + intros Hc. rewrite Hc in Hr. symmetry in Hr. cbn in Hr. apply bool_decide_eq_true in Hr.
      by apply (go_first _ _ _ Hb).
    + rewrite Ht. lia.
    + split; [done|]. rewrite Hnum, Ht. lia.
  - rewrite <-Hcur in Hp by done.
    destruct (incremental_plan_ok g HB s plan) as [Hgo Hnum]; try done. split; [done|]. rewrite Hnum. lia.
Qed.

(** A commit of a session that is not open changes nothing. *)
Lemma commit_unopened g s ctx verifier prepare :
  Session_publicationState s ≠ sessionPublicationOpen →
  ∃ err, commit g s ctx verifier prepare = (mkCommitWorld g (set_ctx ctx s) emptyPublication [], inl err).
Proof.
  intros Hs. unfold commit, CommitWithPreparedPublisher. unfold mbind, CM_bind, onSession. cbn.
  unfold beginPublication. cbn. destruct (Session_publicationState s); [done|by eexists..].
Qed.

Lemma commit_session_after g s ctx verifier prepare w r HB :
  commit g s ctx verifier prepare = (w, r) →
  (dead s ∨ liveSession g s HB) → dead (commit_session w) ∨ (r ≠ inr tt ∧ liveSession g (commit_session w) HB).
Proof.
  intros Hc Hs. destruct (decide (Session_publicationState s = sessionPublicationOpen)) as [Ho|Ho].
  - left. right. left. destruct r as [err|u].
    + apply commit_inl in Hc as [_ Hc]. by apply Hc.
    + by apply commit_inr in Hc as (?&?&?&?&?&?&?&?&?&?&?&?&?).
  - destruct (commit_unopened g s ctx verifier prepare Ho) as [err He]. rewrite He in Hc. injection Hc as <- <-.
    cbn. destruct Hs as [Hs|Hs]; [by left|right]. split; [done|].
    by apply (liveSession_core g s).
Qed.

Lemma commit_graph_after g0 g s ctx verifier prepare w r :
  obliviousGraph g0 → (∀ key, queryRun g key = queryRun g0 key) →
  (∃ H, generationOk g H (Graph_current g)) →
  (dead s ∨ ∃ HB, liveSession g s HB) →
  commit g s ctx verifier prepare = (w, r) →
  (∀ key, queryRun (commit_graph w) key = queryRun g0 key)
  ∧ (∃ H, generationOk (commit_graph w) H (Graph_current (commit_graph w)))
  ∧ (commit_graph w = g ∨
     generation_number (Graph_current (commit_graph w)) = generation_number (Graph_current g) + 1).
Proof.
  intros Hob Hq [H Hg] Hs Hc. destruct r as [err|u].
  - apply commit_inl in Hc as [-> _]. split_and!; [done|by exists H|by left].
  - apply commit_inr in Hc as (verify & obs & plan & _ & Hopen & Hfail & Hnum & _ & _ & Hplan & -> & _ & _).
    destruct Hs as [[Hd|[Hd|Hd]]|[HB Hs]]; [by destruct Hd|congruence..|].
    destruct (planOf_ok g s HB plan) as [Hgo Hn]; try done.
    { intros key run. rewrite Hq. apply Hob. }
    split_and!; [done| |by right]. exists (sessHist HB s).
    by apply (generationOk_graph g).
Qed.

Lemma liveSession_later g g' s HB :
  (∀ key, queryRun g' key = queryRun g key) →
  (g' = g ∨ generation_number (Graph_current g') = generation_number (Graph_current g) + 1) →
  liveSession g s HB → liveSession g' s HB.
Proof.
  intros Hq [->|Hn] Hs; [done|]. destruct Hs as [Hok Hb Hqu Ht Hnum Hcur Hr].
  constructor; try done; [intros key; by rewrite Hqu, Hq|lia|lia].
Qed.

Lemma step_systemOk g0 σ σ' :
  obliviousGraph g0 → systemOk g0 σ → tidyStep σ σ' → systemOk g0 σ'.
Proof.
  intros Hob [Hq [H Hg] Hss] [Hstep Htidy]. destruct Hstep as [g ss cold resolver s Hb|g ss i s c s' r Hi Hr|g ss i s ctx verifier prepare w r Hi Hc];
    cbn in *.
  - constructor; cbn; [done|by exists H|]. intros s' Hin. apply elem_of_app in Hin as [Hin|Hin]; [by apply Hss|].
    apply list_elem_of_singleton in Hin as ->. right. exists H. by eapply begin_liveSession.
  - constructor; cbn; [done|by exists H|]. intros t Hin.
    apply list_elem_of_lookup in Hin as [j Hj]. apply list_lookup_insert_Some in Hj as [(-> & <- & _)|[_ Hj]];
      [|by eapply Hss, list_elem_of_lookup_2].
    destruct (Hss s) as [Hd|[HB Hs]]; [by eapply list_elem_of_lookup_2|left; by eapply dead_stays|].
    destruct r as [err|u].
    + destruct (runCall_refusal c s s' err Hr) as [Hf|(Hp & _)]; [by left; left|].
      right. exists HB. injection Hp as Hcore. apply (liveSession_core g s); [unfold core; congruence|set_solver|done].
    + destruct (Htidy s') as [Hd|Ht]; [|by left|].
      { apply list_elem_of_lookup. exists j. apply list_lookup_insert_eq. by eapply lookup_lt_Some. }
      right. exists HB. destruct u, (runCall_ok HB c s s' tt Hr) as [Hok Hsb]; [|apply Hs|done|].
      { intros key run. rewrite (ls_queries _ _ _ Hs), Hq. apply Hob. }
      by eapply liveSession_call.
  - destruct (commit_graph_after g0 g s ctx verifier prepare w r Hob Hq) as (Hq' & Hg' & Hlater); [by exists H| |done|].
    { eapply Hss, list_elem_of_lookup_2, Hi. }
    constructor; cbn; [done|done|]. intros t Hin. apply list_elem_of_lookup in Hin as [j Hj].
    apply list_lookup_insert_Some in Hj as [(-> & <- & _)|[_ Hj]].
    + destruct (Hss s) as [Hd|[HB Hs]]; [by eapply list_elem_of_lookup_2| |].
      * destruct (commit_session_after _ _ _ _ _ _ _ emptyHistory Hc (or_introl Hd)) as [Hd'|[_ Hs']]; [by left|].
        right. exists emptyHistory. eapply liveSession_later; [|done|done]. intros key. by rewrite Hq', Hq.
      * destruct (commit_session_after _ _ _ _ _ _ _ HB Hc (or_intror Hs)) as [Hd'|[_ Hs']]; [by left|].
        right. exists HB. eapply liveSession_later; [|done|done]. intros key. by rewrite Hq', Hq.
    + destruct (Hss t) as [Hd|[HB Hs]]; [by eapply list_elem_of_lookup_2|by left|].
      right. exists HB. eapply liveSession_later; [|done|done]. intros key. by rewrite Hq', Hq.
Qed.

Lemma reachable_systemOk g0 σ : obliviousGraph g0 → tidyReachable g0 σ → systemOk g0 σ.
Proof.
  intros Hob [Hempty Hr]. remember (mkSystem g0 []) as σ0 eqn:E.
  assert (systemOk g0 σ0) as Hok.
  { subst σ0. constructor; cbn; [done| |intros s Hin; by apply not_elem_of_nil in Hin].
    exists emptyHistory. rewrite Hempty. apply generationOk_empty. }
  clear E. induction Hr as [|? ? ? Hs _ IH]; [done|]. apply IH. by eapply step_systemOk.
Qed.

(** ** Every history numbers its generations *)

Definition sessionsNumbered (σ : system) : Prop :=
  ∀ s, s ∈ sys_sessions σ → dead s ∨ numbered (sys_graph σ) s.

Lemma numbered_sameBase g s s' : sameBase s s' → numbered g s → numbered g s'.
Proof. intros [_ Eb Et _ _]. unfold numbered. by rewrite Eb, Et. Qed.

Lemma numbered_later g g' s :
  generation_number (Graph_current g) <= generation_number (Graph_current g') → numbered g s → numbered g' s.
Proof. intros Hle [Ht Hn]. split; [done|lia]. Qed.

(** The number of the current generation never falls. *)
Lemma commit_number g s ctx verifier prepare w r :
  dead s ∨ numbered g s → commit g s ctx verifier prepare = (w, r) →
  generation_number (Graph_current g) <= generation_number (Graph_current (commit_graph w)).
Proof.
  intros Hs Hc. destruct r as [err|u]; [by apply commit_inl in Hc as [-> _]|].
  apply commit_inr in Hc as (verify & obs & plan & _ & Hopen & Hfail & Hnum & _ & _ & Hplan & -> & _ & _).
  destruct Hs as [[Hd|[Hd|Hd]]|[Ht _]]; [by destruct Hd|congruence..|].
  apply planOf_number in Hplan. cbn. lia.
Qed.

Lemma step_numbered σ σ' : sessionsNumbered σ → step σ σ' → sessionsNumbered σ'.
Proof.
  intros Hss Hstep. destruct Hstep as [g ss cold resolver s Hb|g ss i s c s' r Hi Hr|g ss i s ctx verifier prepare w r Hi Hc];
    intros t Hin; cbn in *.
  - apply elem_of_app in Hin as [Hin|Hin]; [by apply (Hss t)|].
    apply list_elem_of_singleton in Hin as ->. right. apply begin_inr in Hb as ->. by split.
  - apply list_elem_of_lookup in Hin as [j Hj]. apply list_lookup_insert_Some in Hj as [(-> & <- & _)|[_ Hj]];
      [|by eapply (Hss t), list_elem_of_lookup_2].
    destruct (Hss s) as [Hd|Hs]; [by eapply list_elem_of_lookup_2|left; by eapply dead_stays|].
    right. pose proof (steady_runCall c s) as Hsb. rewrite Hr in Hsb. by eapply numbered_sameBase.
  - assert (dead s ∨ numbered g s) as Hs by (by eapply (Hss s), list_elem_of_lookup_2).
    pose proof (commit_number _ _ _ _ _ _ _ Hs Hc) as Hle.
    apply list_elem_of_lookup in Hin as [j Hj]. apply list_lookup_insert_Some in Hj as [(-> & <- & _)|[_ Hj]].
    + destruct (decide (Session_publicationState s = sessionPublicationOpen)) as [Ho|Ho].
      * left. right. left. destruct r as [err|u]; [by apply commit_inl in Hc as [_ Hc]; apply Hc|].
        by apply commit_inr in Hc as (?&?&?&?&?&?&?&?&?&?&?&?&?).
      * destruct (commit_unopened g s ctx verifier prepare Ho) as [err He]. rewrite He in Hc. by injection Hc as <- <-.
    + destruct (Hss t) as [Hd|Ht]; [by eapply list_elem_of_lookup_2|by left|]. right. by eapply numbered_later.
Qed.

Lemma reachable_numbered g0 σ : reachable g0 σ → sessionsNumbered σ.
Proof.
  intros [_ Hr]. remember (mkSystem g0 []) as σ0 eqn:E.
  assert (sessionsNumbered σ0) as Hok by (subst σ0; intros s Hin; by apply not_elem_of_nil in Hin).
  clear E. induction Hr as [|? ? ? Hs _ IH]; [done|]. apply IH. by eapply step_numbered.
Qed.
