(* ===== verification/IncLoops.v ===== *)
(** * The incremental graph: the loops of a session end

    The work lists of an invalidation and of an eviction shrink the queries that
    are left to visit: the number of queries that are staged, named in a reverse
    index or asked to leave is fuel enough. With the recursion of the evaluation
    this makes every call of a session come to an end. *)

From stdpp Require Import base gmap strings sorting sets list list_numbers relations.
From S2P Require Import Prelude GoStd IncGraph IncSession IncEval IncTermination IncIndex IncReference IncSound IncEvalSound IncApply IncSystem.

Open Scope N_scope.

(** ** Errors that are not the lack of fuel *)

Lemma appendDependents_fuel dependents key deps : appendDependents dependents key deps ≠ inl ErrOutOfFuel.
Proof. revert dependents. induction deps as [|d deps IH]; intros; cbn; [done|]. by case_bool_decide. Qed.

Lemma collectDependents_fuel dependents nodes removed keys :
  collectDependents dependents nodes removed keys ≠ inl ErrOutOfFuel.
Proof.
  revert dependents. induction keys as [|key keys IH]; intros dependents; cbn; [done|].
  case_bool_decide; [done|]. destruct (nodes !! key); [|done].
  destruct (appendDependents _ _ _) eqn:E; [|done]. intros [= ->]. by apply appendDependents_fuel in E.
Qed.

Lemma replacementReverseRoots_fuel s : replacementReverseRoots s ≠ inl ErrOutOfFuel.
Proof.
  unfold replacementReverseRoots, buildReplacementReverseRoots. case_match; [|done]. cbv zeta.
  case_match; [done|]. destruct (collectDependents _ _ _ _) eqn:E; [|by case_match].
  intros [= ->]. by apply collectDependents_fuel in E.
Qed.

Lemma currentReverseRoots_fuel s key : currentReverseRoots s key ≠ inl ErrOutOfFuel.
Proof.
  unfold currentReverseRoots, replacementReverseRoot, ownedRoot. destruct (Session_replacement s).
  - destruct (replacementReverseRoots s) eqn:E; [|by destruct (scopeValid key)]. intros [= ->].
    by apply replacementReverseRoots_fuel in E.
  - unfold stagedReverseRoot, ownedRoot. destruct (Session_cold s), (scopeValid key); done.
Qed.

Lemma filterCommitted_fuel s dep values : filterCommittedDependents s dep values ≠ inl ErrOutOfFuel.
Proof.
  induction values as [|key values IH]; cbn; [done|]. case_match; [done|].
  destruct (filterCommittedDependents s dep values); [congruence|]. by repeat case_match.
Qed.

Lemma filterStaged_fuel s values : filterStagedDependents s values ≠ inl ErrOutOfFuel.
Proof.
  induction values as [|key values IH]; cbn; [done|]. case_match; [done|].
  destruct (filterStagedDependents s values); [congruence|]. by repeat case_match.
Qed.

Lemma loadDependents_fuel s key : loadDependents s key ≠ inl ErrOutOfFuel.
Proof.
  unfold loadDependents. destruct (currentReverseRoots s key) as [e|[committed staged]] eqn:E.
  { intros [= ->]. by apply currentReverseRoots_fuel in E. }
  destruct (filterCommittedDependents _ _ _) eqn:E1.
  { intros [= ->]. by apply filterCommitted_fuel in E1. }
  destruct (filterStagedDependents _ _) eqn:E2; [|done]. intros [= ->]. by apply filterStaged_fuel in E2.
Qed.

Lemma invalidateQuery_fuel s key : invalidateQuery s key ≠ inl ErrOutOfFuel.
Proof.
  unfold invalidateQuery. case_bool_decide; [done|]. destruct (currentNode s key) as [e|[n|]] eqn:E; [| |done].
  - intros [= ->]. by apply currentNode_fuel in E.
  - by case_match.
Qed.

(** ** The queries a session can queue *)

Lemma elem_of_edgeQueries roots q : q ∈ edgeQueries roots ↔ ∃ d root, roots !! d = Some root ∧ q ∈ root.
Proof.
  unfold edgeQueries. rewrite elem_of_union_list. split.
  - intros (root & Hin & Hq). apply list_elem_of_fmap in Hin as ([d r] & -> & Hin).
    apply elem_of_map_to_list in Hin. by exists d, r.
  - intros (d & root & Hd & Hq). exists root. split; [|done]. apply list_elem_of_fmap. exists (d, root).
    split; [done|]. by apply elem_of_map_to_list.
Qed.

Lemma root_edgeQueries roots d q : q ∈ default ∅ (roots !! d) → q ∈ edgeQueries roots.
Proof.
  destruct (roots !! d) as [root|] eqn:E; cbn; [|set_solver]. intros Hq. apply elem_of_edgeQueries. by exists d, root.
Qed.

Lemma currentReverseRoots_universe s d committed staged q :
  currentReverseRoots s d = inr (committed, staged) → q ∈ committed ∨ q ∈ staged → q ∈ queryUniverse s.
Proof.
  unfold currentReverseRoots, replacementReverseRoot, replacementReverseRoots, stagedReverseRoot, ownedRoot, queryUniverse.
  destruct (Session_replacement s).
  - destruct (buildReplacementReverseRoots _ _) as [|roots] eqn:Eb; [done|]. destruct (scopeValid d); [|done].
    intros [= <- <-] [Hq|Hq]; [set_solver|]. apply (buildReplacement_inr _ _ _ Eb) in Hq as (_ & e & He & _).
    apply elem_of_dom_2 in He. set_solver.
  - destruct (Session_cold s), (scopeValid d); try done; intros [= <- <-] [Hq|Hq]; try set_solver;
      apply root_edgeQueries in Hq; set_solver.
Qed.

Lemma loadDependents_universe s d deps q : loadDependents s d = inr deps → q ∈ deps → q ∈ queryUniverse s.
Proof.
  unfold loadDependents. destruct (currentReverseRoots s d) as [|[committed staged]] eqn:Er; [done|].
  destruct (filterCommittedDependents s d _) as [|committedKeys] eqn:Ec; [done|].
  destruct (filterStagedDependents s _) as [|stagedKeys] eqn:Es; [done|].
  intros [= <-]. rewrite elem_of_mergeQueryKeys, (filterCommitted_inr _ _ _ _ Ec),
    (filterStaged_inr _ _ _ Es), !elem_of_rootValues. intros Hq.
  eapply currentReverseRoots_universe; [done|]. tauto.
Qed.

(** Taking a query out of a work list leaves less to visit. *)
Lemma remaining_less (U visited : gset QueryKey) key :
  key ∈ U → key ∉ visited → (size (U ∖ ({[key]} ∪ visited)) < size (U ∖ visited))%nat.
Proof.
  intros HU Hv. apply subset_size. split; [set_solver|]. intros Hsub. specialize (Hsub key). set_solver.
Qed.

(** ** Invalidation *)

(** [U] holds every query that may still be queued, [visited] those that may not. *)
Lemma invalidationLoop_fuel U fuel s queue visited D :
  queueOk queue → queryUniverse s ⊆ U →
  (∀ q, q ∈ queue_values queue → q ∈ U ∧ q ∉ visited) →
  (size (U ∖ visited) <= fuel)%nat →
  invalidationLoop fuel s queue visited D ≠ inl ErrOutOfFuel.
Proof.
  revert queue visited D. induction fuel as [|fuel IH]; intros queue visited D Hq HU Hin Hsz;
    cbn [invalidationLoop]; destruct (queuePop queue) as [[key queue']|] eqn:Ep; try done;
    pose proof (queuePop_Some _ _ _ Ep) as Hperm;
    (destruct (Hin key) as [HkU Hkv]; [rewrite Hperm; apply elem_of_cons; by left|]);
    pose proof (remaining_less U visited key HkU Hkv) as Hless; [lia|].
  rewrite bool_decide_eq_false_2 by done. cbv zeta.
  destruct (invalidateQuery s key) as [err|inv] eqn:Ei.
  { intros [= ->]. by apply invalidateQuery_fuel in Ei. }
  destruct (loadDependents s (queryDep key)) as [err|deps] eqn:El.
  { intros [= ->]. by apply loadDependents_fuel in El. }
  destruct (queuePop_ok _ _ _ Hq Ep) as [Hq' Hnot]. apply IH; [by apply queueAddAll_ok|done| |lia].
  intros q. unfold enqueueUnvisited. rewrite elem_of_queueAddAll by done. intros [Hd|Hd].
  - apply list_elem_of_filter in Hd as [Hv Hd]. apply (loadDependents_universe _ _ _ _ El) in Hd. auto.
  - destruct (Hin q) as [Hu Hv]; [rewrite Hperm; apply elem_of_cons; by right|].
    rewrite not_elem_of_union, not_elem_of_singleton. split_and!; [done| |done]. by intros ->.
Qed.

Lemma invalidationQueue_fuel s inputs queue : invalidationQueueFrom s queue inputs ≠ inl ErrOutOfFuel.
Proof.
  revert queue. induction inputs as [|key inputs IH]; intros queue; cbn; [done|].
  destruct (loadDependents s (inputDep key)) eqn:E; [|apply IH]. intros [= ->]. by apply loadDependents_fuel in E.
Qed.

Lemma invalidationQueue_universe s inputs queue queue' :
  queueOk queue → (∀ q, q ∈ queue_values queue → q ∈ queryUniverse s) →
  invalidationQueueFrom s queue inputs = inr queue' →
  queueOk queue' ∧ ∀ q, q ∈ queue_values queue' → q ∈ queryUniverse s.
Proof.
  revert queue. induction inputs as [|key inputs IH]; intros queue Hq Hin; cbn.
  - by intros [= <-].
  - destruct (loadDependents s (inputDep key)) as [|deps] eqn:El; [done|]. apply IH; [by apply queueAddAll_ok|].
    intros q. rewrite elem_of_queueAddAll by done. intros [Hd|Hd]; [|by apply Hin].
    by eapply loadDependents_universe.
Qed.

Lemma planInputInvalidations_fuel s inputs : planInputInvalidations s inputs ≠ inl ErrOutOfFuel.
Proof.
  unfold planInputInvalidations, invalidationQueue.
  destruct (invalidationQueueFrom _ _ _) as [|queue] eqn:Eq.
  { intros [= ->]. by apply invalidationQueue_fuel in Eq. }
  apply invalidationQueue_universe in Eq as [Hq Hin]; [|apply queueOk_new|by intros q ?%not_elem_of_nil].
  destruct (invalidationLoop _ _ _ _ _) as [|[]] eqn:El; [|done]. intros [= ->]. revert El.
  apply (invalidationLoop_fuel (queryUniverse s)); [done|done| |by rewrite difference_empty_L].
  intros q ?. split; [by apply Hin|apply not_elem_of_empty].
Qed.

(** ** Eviction *)

Lemma unstageNodeChange_fuel key s s' err :
  unstageNodeChange key s = (s', inl err) → err ≠ ErrOutOfFuel.
Proof.
  unfold unstageNodeChange. cbv [mbind SM_bind get]. destruct (Session_nodeChanges s !! key); [|done].
  destruct (Session_replacement s); [done|].
  assert (∀ deps t t' e, deleteStagedEdges key deps t = (t', inl e) → e ≠ ErrOutOfFuel) as Hd.
  { intros deps. induction deps as [|d deps IH]; intros t t' e; cbn [deleteStagedEdges]; [done|].
    cbv [mbind SM_bind get lift]. destruct (stagedReverseRoot t _) eqn:E.
    { intros [= _ <-] ->. by apply stagedReverseRoot_fuel in E. }
    case_match; [by intros [= _ <-]|]. cbv [modify]. apply IH. }
  destruct (deleteStagedEdges _ _ s) as [s1 [e|x]] eqn:E; [|done]. intros [= _ <-]. by eapply Hd.
Qed.

(** Unstaging an entry takes queries out of the indexes and adds none. *)
Lemma deleteEdges_universe key deps s s' u :
  deleteStagedEdges key deps s = (s', inr u) →
  queryUniverse s' ⊆ queryUniverse s ∧ Session_removedQueries s' = Session_removedQueries s.
Proof.
  intros (reverse & -> & Hrev)%deleteStagedEdges_spec. split; [|done]. intros q.
  unfold queryUniverse. cbn. rewrite !elem_of_union. intros [Hq|Hq]; [by left|]. right.
  apply elem_of_edgeQueries in Hq as (d & root & Hd & Hq). apply (root_edgeQueries _ d).
  specialize (Hrev d q). unfold rootAt in Hrev. rewrite Hd in Hrev. cbn in Hrev. tauto.
Qed.

Lemma unstage_universe key s s' u :
  unstageNodeChange key s = (s', inr u) →
  queryUniverse s' ⊆ queryUniverse s ∧ Session_removedQueries s' = Session_removedQueries s.
Proof.
  assert (∀ t, queryUniverse (set_nodeChanges (delete key (Session_nodeChanges t)) t) ⊆ queryUniverse t) as Hdel.
  { intros t. unfold queryUniverse. cbn. rewrite dom_delete_L. set_solver. }
  unfold unstageNodeChange. cbv [mbind SM_bind get]. destruct (Session_nodeChanges s !! key); [|by intros [= <- _]].
  destruct (Session_replacement s); [by intros [= <- _]|].
  destruct (deleteStagedEdges _ _ s) as [s1 [err|[]]] eqn:E; [done|]. intros [= <- _].
  apply deleteEdges_universe in E as [Hsub Hr]. split; [|done]. by etransitivity; [apply Hdel|].
Qed.

Lemma removeLoop_fuel U fuel seen queue s :
  queueOk queue → queryUniverse s ⊆ U →
  (∀ q, q ∈ queue_values queue → q ∈ U ∧ q ∉ seen) → seen ⊆ Session_removedQueries s →
  (size (U ∖ seen) <= fuel)%nat →
  (removeLoop fuel queue s).2 ≠ inl ErrOutOfFuel.
Proof.
  revert queue s seen. induction fuel as [|fuel IH]; intros queue s seen Hq HU Hin Hseen Hsz;
    cbn [removeLoop]; destruct (queuePop queue) as [[key queue']|] eqn:Ep; try done;
    pose proof (queuePop_Some _ _ _ Ep) as Hperm;
    (destruct (Hin key) as [HkU Hks]; [rewrite Hperm; apply elem_of_cons; by left|]);
    pose proof (remaining_less U seen key HkU Hks) as Hless; [lia|].
  destruct (queuePop_ok _ _ _ Hq Ep) as [Hq' Hnot].
  assert (∀ q, q ∈ queue_values queue' → q ∈ U ∧ q ∉ {[key]} ∪ seen) as Hin'.
  { intros q Hqin. destruct (Hin q) as [? ?]; [rewrite Hperm; apply elem_of_cons; by right|].
    rewrite not_elem_of_union, not_elem_of_singleton. split_and!; [done| |done]. by intros ->. }
  cbv [mbind SM_bind get modify lift]. case_bool_decide as Hrem.
  { apply (IH _ _ ({[key]} ∪ seen)); try done; [set_solver|lia]. }
  destruct (unstageNodeChange key _) as [s1 [err|[]]] eqn:Eu; cbv beta iota.
  { cbn. intros [= ->]. by apply unstageNodeChange_fuel in Eu. }
  destruct (loadDependents s1 (queryDep key)) as [err|deps] eqn:El.
  { cbn. intros [= ->]. by apply loadDependents_fuel in El. }
  apply unstage_universe in Eu as [Hsub Hr1].
  assert (queryUniverse s1 ⊆ U) as HU1 by (by etransitivity; [|exact HU]).
  apply (IH _ _ ({[key]} ∪ seen)); try done; [by apply queueAddAll_ok| |rewrite Hr1; set_solver|lia].
  intros q. rewrite elem_of_queueAddAll by done. intros [Hd|Hd]; [|by apply Hin'].
  apply list_elem_of_filter in Hd as [Hv Hd]. apply (loadDependents_universe _ _ _ _ El) in Hd.
  split; [by apply HU1|]. set_solver.
Qed.

Lemma queueKeys_fuel queue keys : queueKeys queue keys ≠ inl ErrOutOfFuel.
Proof. revert queue. induction keys as [|k keys IH]; intros queue; cbn; [done|]. by case_match. Qed.

Lemma orFail_fuel {A} (m : SM A) s :
  (m s).2 ≠ inl ErrOutOfFuel → Session_failure (m s).1 ≠ Some ErrOutOfFuel → (orFail m s).2 ≠ inl ErrOutOfFuel.
Proof.
  unfold orFail, fail. destruct (m s) as [s1 [err|x]]; cbn; [|done]. intros He Hf.
  destruct (Session_failure s1); cbn; congruence.
Qed.

(** ** Steps that neither fail the session nor lack fuel *)

Definition plain {A} (m : SM A) : Prop := ∀ s,
  Session_failure (m s).1 = Session_failure s ∧ (m s).2 ≠ inl ErrOutOfFuel.

Lemma plain_bind {A B} (m : SM A) (k : A → SM B) : plain m → (∀ x, plain (k x)) → plain (m ≫= k).
Proof.
  intros Hm Hk s. cbv [mbind SM_bind]. destruct (Hm s) as [H1 H2]. destruct (m s) as [s1 [e|x]]; cbn in *.
  - split; [done|congruence].
  - destruct (Hk x s1) as [H3 H4]. split; [congruence|done].
Qed.

Lemma plain_lift {A} (r : IncErr + A) : r ≠ inl ErrOutOfFuel → plain (lift r).
Proof. by intros Hr s. Qed.

Lemma plain_modify f : (∀ s, Session_failure (f s) = Session_failure s) → plain (modify f).
Proof. intros Hf s. by split; [apply Hf|]. Qed.

Lemma plain_ret {A} (x : A) : plain (mret x).
Proof. done. Qed.

Lemma plain_get : plain get.
Proof. done. Qed.

Lemma plain_throw {A} err : err ≠ ErrOutOfFuel → plain (throw (A:=A) err).
Proof. intros He s. split; [done|]. cbn. congruence. Qed.

Create HintDb plain discriminated.
#[export] Hint Resolve plain_ret plain_get plain_lift plain_throw stagedReverseRoot_fuel : plain.
#[export] Hint Extern 1 (_ ≠ _) => discriminate : plain.
#[export] Hint Extern 1 (plain (modify _)) => (apply plain_modify; intros; done) : plain.

Ltac plain_tac := repeat first
  [ progress intros | apply plain_bind | solve [eauto with plain] | case_match ].

Lemma plain_deleteEdges key deps : plain (deleteStagedEdges key deps).
Proof. induction deps as [|d deps IH]; cbn [deleteStagedEdges]; plain_tac. Qed.

Lemma plain_addEdges key deps : plain (addStagedEdges key deps).
Proof. induction deps as [|d deps IH]; cbn [addStagedEdges]; plain_tac. Qed.

#[export] Hint Resolve plain_deleteEdges plain_addEdges : plain.

Lemma plain_unstage key : plain (unstageNodeChange key).
Proof. unfold unstageNodeChange. plain_tac. Qed.

#[export] Hint Resolve plain_unstage : plain.

Lemma plain_stage key entry : plain (stageNodeChange key entry).
Proof. unfold stageNodeChange. plain_tac. Qed.

#[export] Hint Resolve plain_stage : plain.

Lemma plain_stageDirty D keys : plain (stageDirtyEntries D keys).
Proof. induction keys as [|k keys IH]; cbn [stageDirtyEntries]; plain_tac. Qed.

Lemma prepareInputBatch_fuel s changes inputs : prepareInputBatch s changes inputs ≠ inl ErrOutOfFuel.
Proof.
  revert changes. induction inputs as [|i inputs IH]; intros changes; cbn; [done|].
  unfold validateInputVersion. repeat case_match; simplify_eq; by try apply IH.
Qed.

Lemma applyInputs_fuel inputs s :
  Session_failure s = None → (applyInputsAtomically inputs s).2 ≠ inl ErrOutOfFuel.
Proof.
  intros Hf.
  set (m := check (validateInputBatch inputs);; s ← get; changes ← lift (prepareInputBatch s ∅ inputs);
    dirtyEntries ← lift (planInputInvalidations s (sortInputKeys (elements (dom changes))));
    modify (publishInputBatch changes);; stageDirtyEntries dirtyEntries (sortedNodeEntryKeys dirtyEntries);;
    mret (sortedNodeEntryKeys dirtyEntries)).
  assert (Session_failure (m s).1 = Session_failure s ∧ (m s).2 ≠ inl ErrOutOfFuel) as [H1 H2].
  { unfold m, validateInputBatch. cbv [mbind SM_bind check get lift].
    destruct (validateInputsFrom _ _) eqn:Ev.
    { cbn. split; [done|]. intros [= ->]. by apply validateInputs_fuel in Ev. }
    cbv [mret SM_ret]. destruct (prepareInputBatch s ∅ inputs) eqn:Ep.
    { cbn. split; [done|]. intros [= ->]. by apply prepareInputBatch_fuel in Ep. }
    destruct (planInputInvalidations _ _) eqn:Ei.
    { cbn. split; [done|]. intros [= ->]. by apply planInputInvalidations_fuel in Ei. }
    cbv [modify]. destruct (plain_stageDirty g0 (sortedNodeEntryKeys g0) (publishInputBatch g s)) as [H1 H2].
    destruct (stageDirtyEntries _ _ _) as [s1 [e|x]]; cbn in *; [|done]. split; [done|congruence]. }
  apply (orFail_fuel m); [done|]. by rewrite H1, Hf.
Qed.

Lemma removeLoop_failure fuel queue s : Session_failure (removeLoop fuel queue s).1 = Session_failure s.
Proof.
  revert queue s. induction fuel as [|fuel IH]; intros queue s; cbn [removeLoop];
    destruct (queuePop queue) as [[key queue']|]; try done.
  cbv [mbind SM_bind get modify lift]. case_bool_decide; [apply IH|].
  destruct (plain_unstage key (set_removedQueries ({[key]} ∪ Session_removedQueries s) s)) as [H1 _].
  destruct (unstageNodeChange key _) as [s1 [e|x]]; cbn in *; [done|].
  destruct (loadDependents s1 _); cbn; [done|]. by rewrite IH.
Qed.

Lemma size_list_to_set_le (l : list QueryKey) : (size (list_to_set l : gset QueryKey) <= length l)%nat.
Proof.
  induction l as [|x l IH]; [by rewrite list_to_set_nil, size_empty|]. rewrite list_to_set_cons, size_union_alt, size_singleton.
  assert (size ((list_to_set l : gset QueryKey) ∖ {[x]}) <= size (list_to_set l : gset QueryKey))%nat
    by (apply subseteq_size; set_solver).
  cbn [length]. lia.
Qed.

Lemma removeQueries_fuel keys s :
  Session_failure s = None → (removeQueries keys s).2 ≠ inl ErrOutOfFuel.
Proof.
  intros Hf. unfold removeQueries. apply orFail_fuel.
  - cbv [mbind SM_bind lift get]. destruct (queueKeys newQueryKeyQueue keys) as [err|queue] eqn:Eq.
    { cbn. intros [= ->]. by apply queueKeys_fuel in Eq. }
    apply (queueKeys_inr _ _ _ queueOk_new) in Eq as [Hq Hin].
    apply (removeLoop_fuel (list_to_set keys ∪ queryUniverse s) _ ∅); [done|set_solver| |set_solver|].
    + intros q Hqin. split; [|set_solver]. apply Hin in Hqin as [Hk|Hk]; [set_solver|by apply not_elem_of_nil in Hk].
    + rewrite difference_empty_L, size_union_alt. pose proof (size_list_to_set_le keys). unfold invalidationFuel.
      assert (size (queryUniverse s ∖ list_to_set keys) <= size (queryUniverse s))%nat
        by (apply subseteq_size; set_solver). lia.
  - cbv [mbind SM_bind lift get]. destruct (queueKeys newQueryKeyQueue keys); cbn; [by rewrite Hf|].
    by rewrite removeLoop_failure, Hf.
Qed.

(** ** The calls of a session *)

Lemma guarded_fuel {A} (guard : Session → bool) err (m : SM A) s :
  err ≠ ErrOutOfFuel → Session_failure s ≠ Some ErrOutOfFuel →
  (¬ dead s → (m s).2 ≠ inl ErrOutOfFuel) →
  ((readyMutation;; s ← get; if guard s then fail err else m) s).2 ≠ inl ErrOutOfFuel.
Proof.
  intros He Hf Hm. cbv [mbind SM_bind get]. destruct (readyMutation s) as [s1 [e|[]]] eqn:E.
  - cbn. intros [= ->]. unfold readyMutation, ready in E. repeat case_match; simplify_eq; done.
  - apply readyMutation_inr in E as [-> Hd]. destruct (guard s); [|by apply Hm].
    unfold fail. destruct (Session_failure s); cbn; congruence.
Qed.

Lemma ignoring_fuel {A} (m : SM A) s : (m s).2 ≠ inl ErrOutOfFuel → (ignoring m s).2 ≠ inl ErrOutOfFuel.
Proof. unfold ignoring. cbv [mbind SM_bind]. destruct (m s) as [s1 [e|x]]; cbn; congruence. Qed.

Lemma alive_failure s : ¬ dead s → Session_failure s = None.
Proof. intros Hd. destruct (Session_failure s) eqn:E; [|done]. destruct Hd. left. by rewrite E. Qed.

(** C38: every call of a session comes to an end, on any session, whatever its
    indexes hold, as long as it has not failed for lack of fuel before. The work
    lists of an invalidation and of an eviction end within the number of queries
    that have a staged entry, are named in a reverse index or are asked to
    leave, so that the fuel they are given is enough. The recursion of an
    evaluation of one query or of many is bounded by the number of defined
    queries that are not being evaluated: beyond it, more fuel changes neither
    the session nor the answer. And a query that is read while it is being
    evaluated is answered with an error. *)
Theorem session_calls_terminate (s : Session) :
  Session_failure s ≠ Some ErrOutOfFuel →
  (∀ inputs, (ApplyInputs inputs s).2 ≠ inl ErrOutOfFuel
             ∧ (ApplyInputsWhileIdle inputs s).2 ≠ inl ErrOutOfFuel)
  ∧ (∀ keys, (RemoveQueries keys s).2 ≠ inl ErrOutOfFuel
             ∧ (RemoveQueriesWhileIdle keys s).2 ≠ inl ErrOutOfFuel)
  ∧ (∀ D fuel fuel' ctx,
       definedIn (Session_graph s) D →
       (∀ resolver key, Session_resolver s = Some resolver → resolver key ≠ inl ErrOutOfFuel) →
       (size (D ∖ dom (Session_active s)) < fuel)%nat → (fuel <= fuel')%nat →
       (∀ key, (Evaluate fuel ctx key s).2 ≠ inl ErrOutOfFuel
               ∧ Evaluate fuel' ctx key s = Evaluate fuel ctx key s)
       ∧ (∀ keys, (EvaluateAll fuel ctx keys s).2 ≠ inl ErrOutOfFuel
                  ∧ EvaluateAll fuel' ctx keys s = EvaluateAll fuel ctx keys s))
  ∧ (∀ fuel key, is_Some (Session_active s !! key) → ∃ err, (evaluateNode fuel key s).2 = inl err).
Proof.
  intros Hf. split_and!; [intros inputs|intros keys| |].
  - split; apply (guarded_fuel _ _ (_ : SM _)); try done; intros Hd.
    + by apply (ignoring_fuel (applyInputsAtomically inputs)), applyInputs_fuel, alive_failure.
    + by apply applyInputs_fuel, alive_failure.
  - split; apply (guarded_fuel _ _ (_ : SM _)); try done; intros Hd; by apply removeQueries_fuel, alive_failure.
  - intros D fuel fuel' ctx HD Hres Hlt Hle. split; intros; [by apply (evaluation_fuel D)|by apply (evaluationAll_fuel D)].
  - intros fuel key. apply evaluateNode_active.
Qed.
