(* ===== verification/IncClaims.v ===== *)
(** * What the incremental graph guarantees

    Whatever sessions did to a graph, an evaluation answers what evaluating from
    scratch gives, and so does the value of every clean entry it committed; a
    commit installs a verified generation or changes nothing, and of the
    sessions begun on a generation one commits. At the end, runs at the edge of
    these guarantees. *)

From stdpp Require Import base gmap strings sorting sets relations list list_numbers.
From S2P Require Import Prelude GoStd IncGraph IncSession IncEval IncIndex IncReference IncSound IncEvalSound IncApply IncCommit IncEditor IncCommitProps IncPublish IncSystem IncTermination IncLoops.

Open Scope N_scope.

(** ** A history of the example graph

    A session commits; a second one, begun on that generation, changes an input
    after it evaluated; a third one begins beside it. *)

Lemma oblivious_echo key : oblivious (echoInput key).
Proof. unfold oblivious, echoInput, InputValue. constructor. intros r r' found v. cbn. destruct found; constructor. Qed.

Lemma oblivious_observed key : oblivious (observedInput key).
Proof. unfold oblivious, observedInput. constructor. intros r r' found v. repeat constructor. Qed.

Lemma oblivious_concat a b : oblivious (concatQuery a b).
Proof. unfold oblivious, concatQuery. constructor. intros va. constructor. intros vb. constructor. Qed.

Lemma exampleGraph_oblivious : obliviousGraph exampleGraph.
Proof.
  intros key run. unfold queryRun. destruct (definition _ _) as [|[[r|]|]] eqn:E; try done.
  destruct (validQueryKey key); [|done]. intros [= <-]. revert E. unfold definition. cbn.
  destruct (_ !! key) as [q|] eqn:Eq; [|done]. intros [= <-].
  repeat (apply lookup_insert_Some in Eq as [[<- <-]|[_ Eq]];
    [first [apply oblivious_echo|apply oblivious_observed|apply oblivious_concat]|]).
  apply lookup_singleton_Some in Eq as [<- <-]. apply oblivious_concat.
Qed.

(** An executable run of the system. *)
Inductive action :=
| ActBegin (cold : bool)
| ActCall (i : nat) (c : sessionCall)
| ActCommit (i : nat).

Definition tidyb (s : Session) : bool :=
  forallb (λ kv : QueryKey * nodeEntry, negb (bool_decide (kv.1 ∈ Session_removedQueries s)))
    (map_to_list (Session_nodeChanges s)).

Lemma tidyb_tidy s : tidyb s = true → tidy s.
Proof.
  unfold tidyb. rewrite forallb_forall. intros Hf key entry Hk Hin.
  specialize (Hf (key, entry)). cbn in Hf. rewrite bool_decide_eq_true_2 in Hf by done.
  discriminate Hf. apply list_elem_of_In, elem_of_map_to_list. done.
Qed.

Definition acceptAll : Verifier := λ _, (inr true, false).

Definition act (a : action) (σ : system) : option system :=
  match a with
  | ActBegin cold =>
      match begin (sys_graph σ) cold None with
      | inr s => Some (mkSystem (sys_graph σ) (sys_sessions σ ++ [s]))
      | inl _ => None
      end
  | ActCall i c =>
      s ← sys_sessions σ !! i;
      let '(s', _) := runCall c s in
      Some (mkSystem (sys_graph σ) (<[i := s']> (sys_sessions σ)))
  | ActCommit i =>
      s ← sys_sessions σ !! i;
      let '(w, _) := commit (sys_graph σ) s None (Some acceptAll) None in
      Some (mkSystem (commit_graph w) (<[i := commit_session w]> (sys_sessions σ)))
  end.

Lemma act_step a σ σ' : act a σ = Some σ' → step σ σ'.
Proof.
  destruct σ as [g ss]. destruct a as [cold|i c|i]; cbn [act sys_graph sys_sessions].
  - destruct (begin g cold None) as [|s] eqn:E; [done|]. intros [= <-]. by eapply step_begin.
  - destruct (ss !! i) as [s|] eqn:Ei; [|done]. cbn. destruct (runCall c s) as [s' r] eqn:Er.
    intros [= <-]. by eapply step_call.
  - destruct (ss !! i) as [s|] eqn:Ei; [|done]. cbn.
    destruct (commit g s None (Some acceptAll) None) as [w r] eqn:Ec. intros [= <-].
    by eapply (step_commit g ss i s None).
Qed.

(** The run stops before a step that leaves an evicted query evaluated. *)
Fixpoint acts (l : list action) (σ : system) : system :=
  match l with
  | [] => σ
  | a :: l =>
      match act a σ with
      | Some σ' => if forallb tidyb (sys_sessions σ') then acts l σ' else σ
      | None => σ
      end
  end.

Lemma acts_steps l σ : rtc tidyStep σ (acts l σ).
Proof.
  revert σ. induction l as [|a l IH]; intros σ; cbn; [apply rtc_refl|].
  destruct (act a σ) as [σ'|] eqn:E; [|apply rtc_refl].
  destruct (forallb tidyb (sys_sessions σ')) eqn:Et; [|apply rtc_refl].
  eapply rtc_l; [split; [by apply act_step in E|]|apply IH]. intros s Hin. right. apply tidyb_tidy.
  rewrite forallb_forall in Et. by apply Et, list_elem_of_In.
Qed.

Definition exampleScript : list action :=
  [ActBegin false;
   ActCall 0 (CallApplyInputs [mkInput "x" "r1" true "1"; mkInput "y" "r1" false ""]);
   ActCall 0 (CallEvaluate 5 None "ab");
   ActCommit 0;
   ActBegin false;
   ActCall 1 (CallApplyInputs [mkInput "x" "r2" true "2"]);
   ActBegin false;
   ActCall 2 (CallApplyInputs [mkInput "y" "r2" true "3"]);
   ActCall 2 (CallEvaluate 5 None "ab")]%string.

Definition exampleSystem : system := acts exampleScript (mkSystem exampleGraph []).

Lemma exampleSystem_reachable : tidyReachable exampleGraph exampleSystem.
Proof. split; [done|]. apply acts_steps. Qed.

Definition sessionAt (σ : system) (i : nat) : Session :=
  match sys_sessions σ !! i with
  | Some s => s
  | None => mkSession (sys_graph σ) emptyGeneration 0 false false None None false false false None
              sessionPublicationClosed ∅ ∅ ∅ ∅ ∅ [] ∅ ∅ ∅ ∅ []
  end.

Lemma sessionAt_elem σ i : (i < length (sys_sessions σ))%nat → sessionAt σ i ∈ sys_sessions σ.
Proof.
  intros Hi. unfold sessionAt. destruct (sys_sessions σ !! i) eqn:E.
  - by eapply list_elem_of_lookup_2.
  - apply lookup_ge_None in E. lia.
Qed.

(** ** Evaluation *)

(** C3: incremental evaluation is evaluation from scratch. Whatever sessions
    began on the graph, changed inputs, evicted and evaluated queries, failed
    and committed before, in whatever order and however many at a time, the
    value [Evaluate] returns is the value the query has when it and everything
    it reads are run afresh on the session's inputs: no committed or staged
    value that a change of inputs made stale is ever answered, by way of the
    values that were found unchanged either. Two conditions: the queries are
    blind to revisions ([obliviousGraph]: a revision token a query is shown may
    be named again in an exact observation, as the renderer's queries do, but
    neither the answer nor what is read depends on it; the reference compares an
    observation by presence and bytes), and no session in use, this one
    included, has evaluated a query that it evicted ([tidy]). *)
Theorem evaluation_from_scratch (g0 : Graph) (σ : system) (s s' : Session) (fuel : nat)
    (ctx : option nat) (key : QueryKey) (value : string) :
  obliviousGraph g0 → tidyReachable g0 σ → s ∈ sys_sessions σ →
  Evaluate fuel ctx key s = (s', inr value) → tidy s' →
  queryValue g0 (currentInput s') key value.
Proof.
  intros Hob Hr Hin He Ht. pose proof (reachable_systemOk _ _ Hob Hr) as [Hq _ Hss].
  destruct (Hss s Hin) as [Hd|[HB Hs]].
  - destruct (dead_refuses (CallEvaluate fuel ctx key) s s' (inr tt) Hd) as [err ?]; [|done].
    cbn [runCall]. unfold ignoring. cbv [mbind SM_bind]. by rewrite He.
  - assert (∀ k, queryRun g0 k = queryRun (Session_graph s) k) as Hqs.
    { intros k. by rewrite (ls_queries _ _ _ Hs), Hq. }
    destruct (Evaluate_inr HB fuel ctx key s s' value He) as (_ & _ & Hv); [|apply Hs|done|].
    { intros k run. rewrite <-Hqs. apply Hob. }
    by eapply queryValue_graph.
Qed.

Lemma evaluation_from_scratch_witness :
  (Evaluate 5 None "ab" (sessionAt exampleSystem 1)).2 = inr "2?"%string
  ∧ queryValue exampleGraph (currentInput (Evaluate 5 None "ab" (sessionAt exampleSystem 1)).1) "ab" "2?".
Proof.
  assert ((Evaluate 5 None "ab" (sessionAt exampleSystem 1)).2 = inr "2?"%string) as Hv
    by (vm_compute; reflexivity).
  split; [exact Hv|].
  apply (evaluation_from_scratch exampleGraph exampleSystem (sessionAt exampleSystem 1) _ 5 None).
  - apply exampleGraph_oblivious.
  - apply exampleSystem_reachable.
  - apply sessionAt_elem. vm_compute. lia.
  - rewrite <-Hv. apply surjective_pairing.
  - apply tidyb_tidy. vm_compute. reflexivity.
Defined.

(** C7: the graph only ever shows from-scratch values: a value read from the
    current generation, whichever sessions committed it, is the value its query
    has when it is run afresh on the inputs that generation keeps, without the
    ones that were retired. The conditions are those of
    evaluation: the queries are blind to revisions, which they may only name
    again in exact observations, and no session in use evaluated a query that
    it had evicted. *)
Theorem committed_value_from_scratch (g0 : Graph) (σ : system) (key : QueryKey) (value : string) :
  obliviousGraph g0 → tidyReachable g0 σ → GraphValue (sys_graph σ) key = Some value →
  queryValue g0 (λ k, generation_inputs (Graph_current (sys_graph σ)) !! k) key value.
Proof.
  intros Hob Hr Hv. pose proof (reachable_systemOk _ _ Hob Hr) as [Hq [H Hg] _].
  apply (queryValue_graph (sys_graph σ)); [done|]. unfold GraphValue, generationValue in Hv.
  destruct (generation_nodes _ !! key) as [entry|] eqn:En; [|done].
  destruct (nodeEntry_dirty entry) eqn:Ed; [done|]. destruct (validateOwned _ _ _); [done|].
  destruct (ValueBytes _) as [|v] eqn:Ev; [done|]. injection Hv as <-. apply ValueBytes_inr in Ev as ->.
  by apply (vo_value _ _ _ _ (go_view _ _ _ Hg)).
Qed.

Lemma committed_value_from_scratch_witness :
  GraphValue (sys_graph exampleSystem) "ab" = Some "1?"%string
  ∧ queryValue exampleGraph (λ k, generation_inputs (Graph_current (sys_graph exampleSystem)) !! k) "ab" "1?".
Proof.
  assert (GraphValue (sys_graph exampleSystem) "ab" = Some "1?"%string) as Hv by (vm_compute; reflexivity).
  split; [exact Hv|]. apply (committed_value_from_scratch exampleGraph exampleSystem "ab").
  - apply exampleGraph_oblivious.
  - apply exampleSystem_reachable.
  - exact Hv.
Defined.

(** ** Termination *)

Lemma exampleSession_defined : definedIn (Session_graph (sessionAt exampleSystem 1)) {["a"; "b"; "ab"]}%string.
Proof.
  assert (Graph_definitions (Session_graph (sessionAt exampleSystem 1)) = Graph_definitions exampleGraph) as Hd
    by (vm_compute; reflexivity).
  assert (Graph_provider (Session_graph (sessionAt exampleSystem 1)) = None) as Hp by (vm_compute; reflexivity).
  intros key run. unfold definition. rewrite Hd, Hp. unfold exampleGraph. cbn [Graph_definitions].
  destruct (_ !! key) eqn:E; [|done]. intros _.
  apply lookup_insert_Some in E as [[<- _]|[_ E]]; [set_solver|].
  apply lookup_insert_Some in E as [[<- _]|[_ E]]; [set_solver|].
  apply lookup_singleton_Some in E as [<- _]. set_solver.
Qed.

Lemma session_calls_terminate_witness :
  let s := sessionAt exampleSystem 1 in
  (ApplyInputsWhileIdle [mkInput "x" "r3" true "3"] s).2 ≠ inl ErrOutOfFuel
  ∧ (RemoveQueriesWhileIdle ["a"%string] s).2 ≠ inl ErrOutOfFuel
  ∧ Evaluate 100 None "ab" s = Evaluate 4 None "ab" s
  ∧ EvaluateAll 100 None ["ab"; "a"]%string s = EvaluateAll 4 None ["ab"; "a"]%string s
  ∧ ∃ err, (evaluateNode 4 "a" (enterQuery "a" s)).2 = inl err.
Proof.
  cbv zeta. destruct (session_calls_terminate (sessionAt exampleSystem 1)) as (Ha & Hr & He & _);
    [vm_compute; discriminate|].
  destruct (session_calls_terminate (enterQuery "a" (sessionAt exampleSystem 1))) as (_ & _ & _ & Hc);
    [vm_compute; discriminate|].
  destruct (He {["a"; "b"; "ab"]}%string 4%nat 100%nat None) as [H1 Hall].
  - apply exampleSession_defined.
  - intros resolver key. vm_compute. discriminate.
  - vm_compute. lia.
  - lia.
  - split; [apply Ha|]. split; [apply Hr|]. split; [apply H1|]. split; [apply Hall|].
    apply Hc. vm_compute. by eexists.
Defined.

(** ** Commit *)

(** C8: a commit is all or nothing. An error at any point, of the session, of
    the verifier, of the caller's preparation, a panic of one of its phases
    after the generation was installed, or an abort meanwhile, leaves the graph
    as it was before. A commit that succeeds was made by an open session that
    had not failed, on the very generation it began on; the verifier accepted
    the revision of every input the session observed and of every input of the
    clean values it leaves; what became visible is the generation prepared from
    the session; verifying, preparing, publishing, installing and completing
    happened once each in this order; and the session is closed. *)
Theorem commit_atomic (g : Graph) (s : Session) (ctx : option nat) (verifier : option Verifier)
    (prepare : option Preparer) :
  match commit g s ctx verifier prepare with
  | (w, inl _) => commit_graph w = g
  | (w, inr _) =>
      ∃ verify observations plan,
        verifier = Some verify
        ∧ Session_publicationState s = sessionPublicationOpen ∧ Session_failure s = None
        ∧ generation_number (Graph_current g) = generation_number (Session_base s)
        ∧ (verify observations).1 = inr true
        ∧ (∀ key r, Session_observations s !! key = Some r → r ∈ observations)
        ∧ (∀ key entry r, keptNodes s !! key = Some entry → nodeEntry_dirty entry = false →
             r ∈ nodeEntry_inputs entry → r ∈ observations)
        ∧ planOf g s = inr plan
        ∧ commit_graph w = setCurrent (plan_generation plan) g
        ∧ commit_events w = publicationEvents prepare emptyPublication observations plan
        ∧ Session_publicationState (commit_session w) = sessionPublicationClosed
  end.
Proof.
  destruct (commit g s ctx verifier prepare) as [w [err|u]] eqn:Ec.
  - by apply commit_inl in Ec as [-> _].
  - apply commit_inr in Ec as (verify & obs & plan & ? & ? & ? & ? & Hobs & ? & ? & ? & ? & ?).
    apply commitObservations_inr in Hobs as [Ho Hn]. by exists verify, obs, plan.
Qed.

(** C37: no update is lost: in any history of sessions on the graph, whatever its
    queries are, the sessions that are open at the same time and began on the
    same or an earlier generation cannot commit once one of them has; their
    commit is refused and the graph keeps the generation that was committed. *)
Theorem one_commit_per_generation (g0 : Graph) (σ : system) (s t : Session) (w : CommitWorld)
    (ctx ctx' : option nat) (verifier verifier' : option Verifier) (prepare prepare' : option Preparer) :
  reachable g0 σ → s ∈ sys_sessions σ → t ∈ sys_sessions σ →
  commit (sys_graph σ) s ctx verifier prepare = (w, inr tt) →
  ∃ w' err, commit (commit_graph w) t ctx' verifier' prepare' = (w', inl err)
    ∧ commit_graph w' = commit_graph w.
Proof.
  intros Hr Hs Ht Hc. pose proof (reachable_numbered _ _ Hr) as Hss.
  apply commit_inr in Hc as (verify & obs & plan & _ & Hopen & Hfail & Hnum & _ & _ & Hplan & Hg & _ & _).
  destruct (Hss s Hs) as [[Hd|[Hd|Hd]]|[Htarget _]]; [by destruct Hd|congruence..|].
  apply planOf_number in Hplan.
  destruct (commit (commit_graph w) t ctx' verifier' prepare') as [w' [err|u]] eqn:Ec.
  - exists w', err. by apply commit_inl in Ec as [-> _].
  - exfalso. apply commit_inr in Ec as (?&?&?&_&Hopen'&Hfail'&Hnum'&_).
    destruct (Hss t Ht) as [[Hd|[Hd|Hd]]|[_ Hlt]]; [by destruct Hd|congruence..|].
    rewrite Hg in Hnum'. cbn in Hnum'. lia.
Qed.

Lemma one_commit_per_generation_witness :
  let g := sys_graph exampleSystem in
  let s := sessionAt exampleSystem 1 in
  let t := sessionAt exampleSystem 2 in
  let w := (commit g s None (Some acceptAll) None).1 in
  (commit g s None (Some acceptAll) None).2 = inr tt
  ∧ ∃ w' err, commit (commit_graph w) t None (Some acceptAll) None = (w', inl err)
    ∧ commit_graph w' = commit_graph w.
Proof.
  cbv zeta.
  assert ((commit (sys_graph exampleSystem) (sessionAt exampleSystem 1) None (Some acceptAll) None).2 = inr tt)
    as Hv by (vm_compute; reflexivity).
  split; [exact Hv|].
  apply (one_commit_per_generation exampleGraph exampleSystem (sessionAt exampleSystem 1)
           (sessionAt exampleSystem 2) _ None None (Some acceptAll) (Some acceptAll) None None).
  - apply tidyReachable_reachable, exampleSystem_reachable.
  - apply sessionAt_elem. vm_compute. lia.
  - apply sessionAt_elem. vm_compute. lia.
  - rewrite <-Hv. apply surjective_pairing.
Defined.

(** ** The incremental graph: runs at the edge of the guarantees

    Concrete runs of the evaluator where it answers otherwise than a session
    that starts from nothing: what the conditions of the theorems exclude, and
    one that no condition excludes, because an evaluation that fails answers
    nothing. *)

(** The answer of a session that begins with the inputs and nothing else. *)
Definition fromNothing (g : Graph) (inputs : list Input) (key : QueryKey) : IncErr + string :=
  match beginColdReset g None inputs with
  | inl err => inl err
  | inr s => (Evaluate 9 None key s).2
  end.

(** A session that evaluates [key] on the inputs and commits. *)
Definition committed (g : Graph) (inputs : list Input) (key : QueryKey) : Graph :=
  match begin g false None with
  | inl _ => g
  | inr s =>
      let s := (ApplyInputs inputs s).1 in
      let s := (Evaluate 9 None key s).1 in
      commit_graph (commit g s None (Some (λ _, (inr true, false))) None).1
  end.

(** The answer of the next session after the inputs changed. *)
Definition thenAnswer (g : Graph) (inputs : list Input) (key : QueryKey) : IncErr + string :=
  match begin g false None with
  | inl err => inl err
  | inr s => (Evaluate 9 None key (ApplyInputs inputs s).1).2
  end.

Definition graphOf (queries : gmap QueryKey QueryProg) : Graph :=
  mkGraph queries None false 7 emptyGeneration.

(** ** Dependencies are verified in key order, not in the order they were read

    [p] reads [z] and reads [a] only when [z] answers ["on"]; [a] fails on a bad
    input. *)

Definition guardedQuery (guard guarded : QueryKey) : QueryProg :=
  ReadQuery guard (λ r, match r with
    | inl err => Raise err
    | inr answer =>
        if bool_decide (answer = "on"%string)
        then ReadQuery guarded (λ r, match r with inl err => Raise err | inr v => Return v end)
        else Return "off"%string
    end).

Definition strictInput (key : InputKey) : QueryProg :=
  InputValue key (λ r, match r with
    | inl err => Raise err
    | inr (value, _) => if bool_decide (value = "bad"%string) then Raise (ErrText "bad input") else Return value
    end).

Definition guardedGraph : Graph :=
  graphOf {["a" := strictInput "x"; "z" := echoInput "y"; "p" := guardedQuery "z" "a"]}%string.

(** When the guard is off and the guarded query would fail, the next session
    fails on [p], because it evaluates the dependencies [p] had before in key
    order, although [p] does not read the failing one any more and a session that
    starts from nothing answers it. *)
Example stale_dependency_fails :
  let before := [mkInput "x" "1" true "good"; mkInput "y" "1" true "on"]%string in
  let after := [mkInput "x" "2" true "bad"; mkInput "y" "2" true "off"]%string in
  thenAnswer (committed guardedGraph before "p") [] "p" = inr "good"%string
  ∧ thenAnswer (committed guardedGraph before "p") after "p" = inl (queryError "a" (ErrText "bad input"))
  ∧ fromNothing guardedGraph after "p" = inr "off"%string.
Proof. vm_compute. split_and!; reflexivity. Qed.

(** ** A new revision of the same bytes

    A query that answers the revision it reads is not run again when an input
    gets a new revision and keeps its bytes: the revision is recorded with the
    dependency and not compared. *)

Definition revisionQuery (key : InputKey) : QueryProg :=
  ReadInput key (λ r, match r with inl err => Raise err | inr input => Return (Input_Revision input) end).

Definition revisionGraph : Graph := graphOf {["q" := revisionQuery "x"]}%string.

Example revision_change_unseen :
  let before := [mkInput "x" "1" true "v"]%string in
  let after := [mkInput "x" "2" true "v"]%string in
  thenAnswer (committed revisionGraph before "q") after "q" = inr "1"%string
  ∧ fromNothing revisionGraph after "q" = inr "2"%string.
Proof. vm_compute. split_and!; reflexivity. Qed.

(** ** A query that is evaluated after the session evicted it

    The evicted query counts as absent, so that a change of its input reaches
    neither it nor the queries evaluated on top of it. Their values stay, and
    are refused when they are asked for, because the revisions they were made
    of are not the session's any more. *)

Definition afterEviction : IncErr + (list (IncErr + string) * (IncErr + unit)) :=
  match begin exampleGraph false None with
  | inl err => inl err
  | inr s =>
      let s := (ApplyInputs [mkInput "x" "1" true "1"; mkInput "y" "1" true "_"]%string s).1 in
      let s := (RemoveQueries ["a"%string] s).1 in
      let '(s, before) := Evaluate 9 None "ab" s in
      let s := (ApplyInputsWhileIdle [mkInput "x" "2" true "2"]%string s).1 in
      let '(s, after) := Evaluate 9 None "ab" s in
      inr ([before; after], (commit exampleGraph s None (Some (λ _, (inr true, false))) None).2)
  end.

Example evicted_query_refused :
  afterEviction =
    inr ([inr "1_"; inl (ErrText "incremental query observed inconsistent input revisions")]%string,
         inl (ErrText "incremental query observed inconsistent input revisions")%string).
Proof. vm_compute. reflexivity. Qed.
