(* ===== verification/OrderedSet.v ===== *)
(** * Ordered sets with an owner

    [src/pkg/incremental/internal/orderedset]: immutable sets of strings that the
    incremental graph keeps its reverse index in. A populated root is either a
    packed sorted slice or a height-balanced tree whose nodes carry height and
    size; it belongs to an authority and a scope, which every operation checks,
    and the operations check the nodes they pass. A pointer of an authority is a
    number, or [None] for the nil pointer; a node's seal is its own address and
    holds for every node the package makes. *)

From Stdlib Require Import ZArith Lia.
From stdpp Require Import base gmap strings sorting sets list list_numbers.
From S2P Require Import Prelude KeyOrder GoStd.

Open Scope Z_scope.

(** ** Errors *)

Inductive SetErr :=
| ErrProvenance
| ErrOtherScope
| ErrEmptyValue
| ErrNotIncreasing
| ErrUnbalanced
| ErrHeight
| ErrSize
| ErrAtNode (key : string) (cause : SetErr)
| ErrNilNode.

#[export] Instance SetErr_eq_dec : EqDecision SetErr.
Proof. solve_decision. Defined.

(** ** Nodes *)

Definition Authority := option N.

Inductive node :=
| Nil
| Node (authority : N) (key : string) (l r : node) (height size : Z).

Definition nodeHeight (n : node) : Z := match n with Nil => 0 | Node _ _ _ _ h _ => h end.
Definition nodeSize (n : node) : Z := match n with Nil => 0 | Node _ _ _ _ _ z => z end.

Section nodes.
Context (authority : N).

Definition newNode (key : string) (l r : node) : node :=
  Node authority key l r (1 + Z.max (nodeHeight l) (nodeHeight r))
    (1 + nodeSize l + nodeSize r).

(** [balanceFactor] of a node with these children. *)
Definition balanceFactor (l r : node) : Z := nodeHeight l - nodeHeight r.

Definition ownedNode (n : node) : bool :=
  match n with Nil => true | Node a _ _ _ _ _ => bool_decide (a = authority) end.

Definition validateNodeShape (n : node) : option SetErr :=
  match n with
  | Nil => None
  | Node a key l r height size =>
      if negb (bool_decide (a = authority)) then Some ErrProvenance
      else if negb (height =? 1 + Z.max (nodeHeight l) (nodeHeight r)) then Some ErrHeight
      else if negb (size =? 1 + nodeSize l + nodeSize r) then Some ErrSize
      else if negb (ownedNode l) then Some ErrProvenance
      else if negb (ownedNode r) then Some ErrProvenance
      else None
  end.

Definition validateNode (n : node) : option SetErr :=
  match validateNodeShape n with
  | Some err => Some err
  | None =>
      match n with
      | Nil => None
      | Node _ _ l r _ _ =>
          if (balanceFactor l r <? -1) || (1 <? balanceFactor l r)
          then Some ErrUnbalanced else None
      end
  end.

(** [buildSortedNode]; every level has at most half of the values. *)
Fixpoint buildSortedNode (fuel : nat) (values : list string) : node :=
  match fuel, values with
  | S fuel, _ :: _ =>
      let middle := Nat.div2 (length values) in
      match values !! middle with
      | None => Nil
      | Some key => newNode key (buildSortedNode fuel (take middle values))
                      (buildSortedNode fuel (drop (S middle) values))
      end
  | _, _ => Nil
  end.

Definition rotateLeft (key : string) (l r : node) : SetErr + node :=
  match validateNodeShape r with
  | Some err => inl err
  | None =>
      match r with
      | Nil => inl ErrNilNode
      | Node _ rkey rleft rright _ _ => inr (newNode rkey (newNode key l rleft) rright)
      end
  end.

Definition rotateRight (key : string) (l r : node) : SetErr + node :=
  match validateNodeShape l with
  | Some err => inl err
  | None =>
      match l with
      | Nil => inl ErrNilNode
      | Node _ lkey lleft lright _ _ => inr (newNode lkey lleft (newNode key lright r))
      end
  end.

(** [rebalance] of the node with this key and these children. *)
Definition rebalance (key : string) (l r : node) : SetErr + node :=
  if balanceFactor l r =? 2 then
    match l with
    | Nil => inl ErrNilNode
    | Node _ lkey lleft lright _ _ =>
        match validateNode l with
        | Some err => inl (ErrAtNode lkey err)
        | None =>
            match (if balanceFactor lleft lright <? 0 then rotateLeft lkey lleft lright else inr l) with
            | inl err => inl err
            | inr l =>
                match rotateRight key l r with
                | inl err => inl (ErrAtNode key err)
                | inr rotated => inr rotated
                end
            end
        end
    end
  else if balanceFactor l r =? -2 then
    match r with
    | Nil => inl ErrNilNode
    | Node _ rkey rleft rright _ _ =>
        match validateNode r with
        | Some err => inl (ErrAtNode rkey err)
        | None =>
            match (if 0 <? balanceFactor rleft rright then rotateRight rkey rleft rright else inr r) with
            | inl err => inl err
            | inr r =>
                match rotateLeft key l r with
                | inl err => inl (ErrAtNode key err)
                | inr rotated => inr rotated
                end
            end
        end
    end
  else inr (newNode key l r).

(** A child that was changed is put back and the node is balanced; [current] is
    the node as it was. *)
Definition rebuilt (current : node) (child : SetErr + node * bool)
    (rebuild : node → SetErr + node) : SetErr + node * bool :=
  match child with
  | inl err => inl err
  | inr (_, false) => inr (current, false)
  | inr (child, true) =>
      match rebuild child with
      | inl err => inl err
      | inr next => inr (next, true)
      end
  end.

Fixpoint addNode (current : node) (value : string) : SetErr + node * bool :=
  match current with
  | Nil => inr (newNode value Nil Nil, true)
  | Node _ key l r _ _ =>
      match validateNode current with
      | Some err => inl (ErrAtNode key err)
      | None =>
          match String.compare value key with
          | Lt => rebuilt current (addNode l value) (λ l, rebalance key l r)
          | Gt => rebuilt current (addNode r value) (λ r, rebalance key l r)
          | Eq => inr (current, false)
          end
      end
  end.

(** The key of [minimumNode]. *)
Fixpoint minimumNode (current : node) : SetErr + string :=
  match validateNode current with
  | Some err => inl err
  | None =>
      match current with
      | Nil => inl ErrNilNode
      | Node _ key l _ _ _ => match l with Nil => inr key | _ => minimumNode l end
      end
  end.

Fixpoint deleteNode (current : node) (value : string) : SetErr + node * bool :=
  match current with
  | Nil => inr (Nil, false)
  | Node _ key l r _ _ =>
      match validateNode current with
      | Some err => inl err
      | None =>
          match String.compare value key with
          | Lt => rebuilt current (deleteNode l value) (λ l, rebalance key l r)
          | Gt => rebuilt current (deleteNode r value) (λ r, rebalance key l r)
          | Eq =>
              match l, r with
              | Nil, _ => inr (r, true)
              | _, Nil => inr (l, true)
              | _, _ =>
                  match minimumNode r with
                  | inl err => inl err
                  | inr successor =>
                      match deleteNode r successor with
                      | inl err => inl err
                      | inr (r, _) =>
                          match rebalance successor l r with
                          | inl err => inl err
                          | inr next => inr (next, true)
                          end
                      end
                  end
              end
          end
      end
  end.

(** [Contains] below a root. *)
Fixpoint containsNode (current : node) (value : string) : SetErr + bool :=
  match current with
  | Nil => inr false
  | Node _ key l r _ _ =>
      match validateNode current with
      | Some err => inl err
      | None =>
          match String.compare value key with
          | Lt => containsNode l value
          | Gt => containsNode r value
          | Eq => inr true
          end
      end
  end.

(** [rangeNode]; the visitor adds to a state and answers whether to go on. *)
Fixpoint rangeNode {S} (visit : S → string → S * bool) (minimum maximum : option string)
    (current : node) (s : S) : S * (SetErr + bool) :=
  match current with
  | Nil => (s, inr true)
  | Node _ key l r _ _ =>
      match validateNode current with
      | Some err => (s, inl err)
      | None =>
          if match minimum with Some m => negb (bool_decide (klt m key)) | None => false end
             || match maximum with Some m => negb (bool_decide (klt key m)) | None => false end
          then (s, inl ErrProvenance)
          else
            match rangeNode visit minimum (Some key) l s with
            | (s, inr true) =>
                match visit s key with
                | (s, true) => rangeNode visit (Some key) maximum r s
                | (s, false) => (s, inr false)
                end
            | stopped => stopped
            end
      end
  end.
End nodes.

(** ** Roots *)

Record Scope := mkScope {
  Scope_Domain : Z;
  Scope_Key : string }.

#[export] Instance Scope_eq_dec : EqDecision Scope.
Proof. solve_decision. Defined.

Definition scopeOk (s : Scope) : bool :=
  negb (Scope_Domain s =? 0) && negb (bool_decide (Scope_Key s = ""%string)).

Record rootState := mkRootState {
  state_authority : N;
  state_scope : Scope;
  state_node : node;
  state_packed : list string;
  state_size : Z }.

(** [Root]: the zero root, the canonical empty root of an authority, or a root
    with a state of its own. *)
Inductive Root :=
| ZeroRoot
| EmptyRoot (authority : N)
| StateRoot (state : rootState).

Definition newRootState (authority : N) (scope : Scope) (n : node) : rootState :=
  mkRootState authority scope n [] (nodeSize n).

Definition newPackedRootState (authority : N) (scope : Scope) (values : list string) : rootState :=
  mkRootState authority scope Nil values (Z.of_nat (length values)).

(** [Authority.Empty]. *)
Definition Empty (authority : Authority) : Root :=
  match authority with None => ZeroRoot | Some a => EmptyRoot a end.

Fixpoint strictlyIncreasing (previous : option string) (values : list string) : option SetErr :=
  match values with
  | [] => None
  | value :: rest =>
      if bool_decide (value = ""%string) then Some ErrEmptyValue
      else if match previous with Some p => negb (bool_decide (klt p value)) | None => false end
      then Some ErrNotIncreasing
      else strictlyIncreasing (Some value) rest
  end.

Definition validateSortedBuild (authority : Authority) (scope : Scope) (values : list string)
    : SetErr + N :=
  match authority with
  | None => inl ErrProvenance
  | Some a =>
      if negb (scopeOk scope) then inl ErrOtherScope
      else match strictlyIncreasing None values with Some err => inl err | None => inr a end
  end.

Definition BuildSorted (authority : Authority) (scope : Scope) (values : list string) : SetErr + Root :=
  match validateSortedBuild authority scope values with
  | inl err => inl err
  | inr a =>
      match values with
      | [] => inr (EmptyRoot a)
      | _ => inr (StateRoot (newRootState a scope (buildSortedNode a (length values) values)))
      end
  end.

Definition BuildPackedSorted (authority : Authority) (scope : Scope) (values : list string)
    : SetErr + Root :=
  match validateSortedBuild authority scope values with
  | inl err => inl err
  | inr a =>
      match values with
      | [] => inr (EmptyRoot a)
      | _ => inr (StateRoot (newPackedRootState a scope values))
      end
  end.

(** [populatedStateAuthentic]. *)
Definition populatedStateAuthentic (s : rootState) : bool :=
  scopeOk (state_scope s)
  && match state_node s with
     | Nil => (Z.of_nat (length (state_packed s)) =? state_size s) && (0 <? Z.of_nat (length (state_packed s)))
     | n => state_size s =? nodeSize n
     end.

(** [ValidateAuthentication]; a state of its own that is empty is not the
    authority's empty root. *)
Definition RootAuthentication (r : Root) (authority : Authority) : SetErr + N :=
  match authority, r with
  | Some a, EmptyRoot owner => if bool_decide (owner = a) then inr a else inl ErrProvenance
  | Some a, StateRoot s =>
      if negb (bool_decide (state_authority s = a)) || (state_size s <? 0)
         || match state_node s, state_packed s with Node _ _ _ _ _ _, _ :: _ => true | _, _ => false end
         || (state_size s =? 0) || negb (populatedStateAuthentic s)
      then inl ErrProvenance
      else match validateNode a (state_node s) with Some err => inl err | None => inr a end
  | _, _ => inl ErrProvenance
  end.

(** [ValidateOwnership]. *)
Definition ValidateOwnership (r : Root) (authority : Authority) (scope : Scope) : SetErr + N :=
  match RootAuthentication r authority with
  | inl err => inl err
  | inr a =>
      if negb (scopeOk scope)
         || match r with StateRoot s => negb (bool_decide (state_scope s = scope)) | _ => false end
      then inl ErrOtherScope else inr a
  end.

Definition packedOf (r : Root) : list string := match r with StateRoot s => state_packed s | _ => [] end.
Definition nodeOfRoot (r : Root) : node := match r with StateRoot s => state_node s | _ => Nil end.
Definition sizeOf (r : Root) : Z := match r with StateRoot s => state_size s | _ => 0 end.

Definition Len (r : Root) (authority : Authority) (scope : Scope) : SetErr + Z :=
  match ValidateOwnership r authority scope with inl err => inl err | inr _ => inr (sizeOf r) end.

(** [slices.BinarySearch]: the first position not before the value, and whether
    the value is there. *)
Fixpoint searchLoop (fuel : nat) (values : list string) (value : string) (i j : nat) : nat :=
  match fuel with
  | O => i
  | S fuel =>
      if (i <? j)%nat then
        let h := Nat.div2 (i + j) in
        match values !! h with
        | None => i
        | Some x => if bool_decide (klt x value) then searchLoop fuel values value (h + 1) j
                    else searchLoop fuel values value i h
        end
      else i
  end.

Definition BinarySearch (values : list string) (value : string) : nat * bool :=
  let index := searchLoop (length values) values value 0 (length values) in
  (index, bool_decide (values !! index = Some value)).

Definition Contains (r : Root) (authority : Authority) (scope : Scope) (value : string) : SetErr + bool :=
  match ValidateOwnership r authority scope with
  | inl err => inl err
  | inr a =>
      match packedOf r with
      | [] => containsNode a (nodeOfRoot r) value
      | packed => inr (BinarySearch packed value).2
      end
  end.

Definition Add (r : Root) (authority : Authority) (scope : Scope) (value : string)
    : SetErr + Root * bool :=
  match ValidateOwnership r authority scope with
  | inl err => inl err
  | inr a =>
      if bool_decide (value = ""%string) then inl ErrEmptyValue
      else
        match packedOf r with
        | [] =>
            match addNode a (nodeOfRoot r) value with
            | inl err => inl err
            | inr (_, false) => inr (r, false)
            | inr (next, true) => inr (StateRoot (newRootState a scope next), true)
            end
        | packed =>
            let '(index, found) := BinarySearch packed value in
            if found then inr (r, false)
            else inr (StateRoot (newPackedRootState a scope
                                   (take index packed ++ value :: drop index packed)), true)
        end
  end.

Definition Delete (r : Root) (authority : Authority) (scope : Scope) (value : string)
    : SetErr + Root * bool :=
  match ValidateOwnership r authority scope with
  | inl err => inl err
  | inr a =>
      match packedOf r with
      | [] =>
          match deleteNode a (nodeOfRoot r) value with
          | inl err => inl err
          | inr (_, false) => inr (r, false)
          | inr (Nil, true) => inr (EmptyRoot a, true)
          | inr (next, true) => inr (StateRoot (newRootState a scope next), true)
          end
      | packed =>
          let '(index, found) := BinarySearch packed value in
          if negb found then inr (r, false)
          else if (length packed =? 1)%nat then inr (EmptyRoot a, true)
          else inr (StateRoot (newPackedRootState a scope
                                 (take index packed ++ drop (S index) packed)), true)
      end
  end.

Definition rangeFrom {S} (visit : S → string → S * bool) : list string → S → S :=
  fix go values s :=
    match values with
    | [] => s
    | value :: rest => match visit s value with (s, true) => go rest s | (s, false) => s end
    end.

Definition Range {S} (r : Root) (authority : Authority) (scope : Scope) (visit : S → string → S * bool)
    (s : S) : S * option SetErr :=
  match ValidateOwnership r authority scope with
  | inl err => (s, Some err)
  | inr a =>
      match packedOf r with
      | [] =>
          match rangeNode a visit None None (nodeOfRoot r) s with
          | (s, inl err) => (s, Some err)
          | (s, inr _) => (s, None)
          end
      | packed => (rangeFrom visit packed s, None)
      end
  end.

Definition Values (r : Root) (authority : Authority) (scope : Scope) : SetErr + list string :=
  match Len r authority scope with
  | inl err => inl err
  | inr _ =>
      match Range r authority scope (λ values value, (values ++ [value], true)) [] with
      | (_, Some err) => inl err
      | (values, None) => inr values
      end
  end.

(** ** Batches of memberships *)

(** The first loop of [updatePacked]: the size after the changes and whether
    there are any. *)
Definition packedCounts (packed : list string) (membership : list (string * bool)) : Z * bool :=
  foldl (λ '(size, changed) '(key, wanted),
           let present := (BinarySearch packed key).2 in
           if eqb present wanted then (size, changed)
           else (if present then size - 1 else size + 1, true))
    (Z.of_nat (length packed), false) membership.

(** The second loop: [previous] is the rest that was not copied yet. *)
Fixpoint packedMerge (previous : list string) (membership : list (string * bool)) : list string :=
  match membership with
  | [] => previous
  | (key, wanted) :: rest =>
      let '(index, present) := BinarySearch previous key in
      take index previous ++ (if wanted then [key] else [])
        ++ packedMerge (drop (if present then S index else index) previous) rest
  end.

(** [updatePacked] on the assignments in key order. *)
Definition updatePacked (r : Root) (authority : N) (scope : Scope) (membership : list (string * bool)) : Root :=
  let packed := packedOf r in
  let '(size, changed) := packedCounts packed membership in
  if negb changed then r
  else if size =? 0 then EmptyRoot authority
  else StateRoot (newPackedRootState authority scope (packedMerge packed membership)).

Fixpoint updateEach (r : Root) (authority : Authority) (scope : Scope) (membership : list (string * bool))
    : SetErr + Root :=
  match membership with
  | [] => inr r
  | (key, wanted) :: rest =>
      match (if (wanted : bool) then Add r authority scope key else Delete r authority scope key) with
      | inl err => inl err
      | inr (r, _) => updateEach r authority scope rest
      end
  end.

(** The assignments in the order of [slices.Sorted]. *)
Definition sortedMembership (membership : gmap string bool) : list (string * bool) :=
  omap (λ key, wanted ← membership !! key; Some (key, wanted)) (sort_strings (elements (dom membership))).

Definition Update (r : Root) (authority : Authority) (scope : Scope) (membership : gmap string bool)
    : SetErr + Root :=
  match ValidateOwnership r authority scope with
  | inl err => inl err
  | inr a =>
      if bool_decide (is_Some (membership !! ""%string)) then inl ErrEmptyValue
      else if bool_decide (membership = ∅) then inr r
      else
        match packedOf r with
        | [] => updateEach r authority scope (sortedMembership membership)
        | _ => inr (updatePacked r a scope (sortedMembership membership))
        end
  end.

Example ordered_set_run :
  let a := Some 1%N in
  let s := mkScope 1 "x" in
  match Add (Empty a) a s "b" with
  | inr (r, _) =>
      match Update r a s {["a" := true; "b" := false; "c" := true]}%string with
      | inr r => Values r a s
      | inl err => inl err
      end
  | inl err => inl err
  end = inr ["a"; "c"]%string.
Proof. vm_compute. reflexivity. Qed.
