(* ===== verification/OrderedSetProps.v ===== *)
(** * Ordered sets: the tree and the slice are the set

    The representation invariant of a root, that every operation keeps it and
    never meets one of the errors the package guards its own nodes with, and that
    its answers are those of a finite set. *)

From Stdlib Require Import ZArith Lia.
From stdpp Require Import base gmap strings sorting sets list list_numbers.
From S2P Require Import Prelude KeyOrder GoStd OrderedSet.

Open Scope Z_scope.

(** ** Strictly sorted lists of keys *)

Definition ksorted (l : list string) : Prop := StronglySorted klt l.

Lemma ksorted_middle xs k ys :
  ksorted (xs ++ k :: ys) ↔ ksorted xs ∧ ksorted ys ∧ Forall (λ x, klt x k) xs ∧ Forall (klt k) ys.
Proof.
  induction xs as [|x xs IH]; cbn [app].
  - split; [|intros (_ & Hy & _ & Hk); by constructor].
    intros Hs. apply StronglySorted_inv in Hs as [Hy Hk]. split_and!; [constructor|done|constructor|done].
  - split.
    + intros Hs. apply StronglySorted_inv in Hs as [Hs Hx]. apply IH in Hs as (Hxs & Hys & Hf & Hk).
      apply Forall_app in Hx as [Hx1 Hx2]. apply Forall_cons in Hx2 as [Hxk _].
      split_and!; [by constructor|done|by constructor|done].
    + intros (Hxs & Hys & Hf & Hk). apply StronglySorted_inv in Hxs as [Hxs Hx].
      apply Forall_cons in Hf as [Hxk Hf]. constructor; [by apply IH|]. apply Forall_app. split; [done|].
      constructor; [done|]. eapply Forall_impl; [exact Hk|]. intros y Hy. by etransitivity.
Qed.

Lemma ksorted_app xs ys :
  ksorted (xs ++ ys) ↔ ksorted xs ∧ ksorted ys ∧ ∀ x y, x ∈ xs → y ∈ ys → klt x y.
Proof.
  induction xs as [|x xs IH]; cbn [app].
  - split; [intros; split_and!; [constructor|done|]; intros a b Ha; by apply not_elem_of_nil in Ha|].
    by intros (_ & ? & _).
  - split.
    + intros Hs. apply StronglySorted_inv in Hs as [Hs Hx]. apply IH in Hs as (Hxs & Hys & Hlt).
      apply Forall_app in Hx as [Hx1 Hx2]. split_and!; [by constructor|done|].
      intros a b Ha Hb. apply elem_of_cons in Ha as [->|Ha]; [by eapply Forall_forall in Hx2|by apply Hlt].
    + intros (Hxs & Hys & Hlt). apply StronglySorted_inv in Hxs as [Hxs Hx]. constructor.
      * apply IH. split_and!; [done|done|]. intros a b Ha Hb. apply Hlt; [by apply elem_of_cons; right|done].
      * apply Forall_app. split; [done|]. apply Forall_forall. intros y Hy.
        apply Hlt; [by apply elem_of_cons; left|done].
Qed.

(** A sorted list is its set of keys. *)
Lemma ksorted_unique xs ys : ksorted xs → ksorted ys → (∀ x, x ∈ xs ↔ x ∈ ys) → xs = ys.
Proof.
  intros Hx. revert ys. induction Hx as [|x xs Hxs IH Hx]; intros ys Hy Heq.
  - destruct ys as [|y ys]; [done|]. exfalso. eapply not_elem_of_nil, Heq, elem_of_cons. by left.
  - destruct Hy as [|y ys Hys Hy].
    { exfalso. eapply not_elem_of_nil, Heq, elem_of_cons. by left. }
    rewrite Forall_forall in Hx, Hy.
    assert (x = y) as <-.
    { destruct (proj1 (elem_of_cons _ _ _) (proj1 (Heq x) (list_elem_of_here x xs))) as [->|Hin]; [done|].
      destruct (proj1 (elem_of_cons _ _ _) (proj2 (Heq y) (list_elem_of_here y ys))) as [->|Hin']; [done|].
      by destruct (klt_asym y x (Hy x Hin)); apply Hx. }
    f_equal. apply IH; [done|]. intros z. specialize (Heq z). rewrite !elem_of_cons in Heq.
    split; intros Hz; [assert (klt x z) as Hlt by auto|assert (klt x z) as Hlt by auto];
      apply klt_ne in Hlt; naive_solver.
Qed.

(** ** Trees *)

Fixpoint inorder (n : node) : list string :=
  match n with Nil => [] | Node _ k l r _ _ => inorder l ++ k :: inorder r end.

Fixpoint treeOk (a : N) (n : node) : Prop :=
  match n with
  | Nil => True
  | Node b _ l r h z =>
      treeOk a l ∧ treeOk a r ∧ b = a ∧ h = 1 + Z.max (nodeHeight l) (nodeHeight r)
      ∧ z = 1 + nodeSize l + nodeSize r ∧ -1 <= nodeHeight l - nodeHeight r <= 1
  end.

Section tree.
Context (a : N).

Lemma treeOk_height n : treeOk a n → 0 <= nodeHeight n.
Proof. induction n as [|b k l IHl r IHr h z]; cbn; [done|]. intros (Hl%IHl & Hr%IHr & _ & -> & _). lia. Qed.

Lemma treeOk_size n : treeOk a n → nodeSize n = Z.of_nat (length (inorder n)).
Proof.
  induction n as [|b k l IHl r IHr h z]; cbn; [done|]. intros (Hl%IHl & Hr%IHr & _ & _ & -> & _).
  rewrite Hl, Hr, length_app. cbn. lia.
Qed.

Lemma treeOk_owned n : treeOk a n → ownedNode a n = true.
Proof. destruct n; cbn; [done|]. intros (_ & _ & -> & _). by apply bool_decide_eq_true_2. Qed.

(** A sound node passes the package's checks. *)
Lemma validateNodeShape_ok n : treeOk a n → validateNodeShape a n = None.
Proof.
  destruct n as [|b k l r h z]; cbn [validateNodeShape]; [done|]. intros (Hl & Hr & -> & -> & -> & Hb).
  rewrite bool_decide_eq_true_2 by done. rewrite !Z.eqb_refl, (treeOk_owned l Hl), (treeOk_owned r Hr). done.
Qed.

Lemma validateNode_ok n : treeOk a n → validateNode a n = None.
Proof.
  intros Hn. unfold validateNode. rewrite validateNodeShape_ok by done. destruct n as [|b k l r h z]; [done|].
  cbn in Hn. unfold balanceFactor. destruct (Z.ltb_spec (nodeHeight l - nodeHeight r) (-1)); [lia|].
  destruct (Z.ltb_spec 1 (nodeHeight l - nodeHeight r)); [lia|done].
Qed.

Lemma newNode_ok k l r :
  treeOk a l → treeOk a r → -1 <= nodeHeight l - nodeHeight r <= 1 → treeOk a (newNode a k l r).
Proof. intros Hl Hr Hb. unfold newNode. cbn. split_and!; try done; lia. Qed.

Lemma rotateLeft_eq k l b rk rl rr h z :
  treeOk a (Node b rk rl rr h z) →
  rotateLeft a k l (Node b rk rl rr h z) = inr (newNode a rk (newNode a k l rl) rr).
Proof. intros Hr. unfold rotateLeft. by rewrite validateNodeShape_ok. Qed.

Lemma rotateRight_eq k b lk ll lr h z r :
  treeOk a (Node b lk ll lr h z) →
  rotateRight a k (Node b lk ll lr h z) r = inr (newNode a lk ll (newNode a k lr r)).
Proof. intros Hl. unfold rotateRight. by rewrite validateNodeShape_ok. Qed.

(** The rotation of a node a rotation just made, whose balance is not restored yet. *)
Lemma rotateRight_new k lk ll lr r :
  treeOk a ll → treeOk a lr →
  rotateRight a k (newNode a lk ll lr) r = inr (newNode a lk ll (newNode a k lr r)).
Proof.
  intros Hl Hr. unfold rotateRight, newNode. cbn [validateNodeShape].
  rewrite bool_decide_eq_true_2 by done. by rewrite !Z.eqb_refl, (treeOk_owned ll Hl), (treeOk_owned lr Hr).
Qed.

Lemma rotateLeft_new k l rk rl rr :
  treeOk a rl → treeOk a rr →
  rotateLeft a k l (newNode a rk rl rr) = inr (newNode a rk (newNode a k l rl) rr).
Proof.
  intros Hl Hr. unfold rotateLeft, newNode. cbn [validateNodeShape].
  rewrite bool_decide_eq_true_2 by done. by rewrite !Z.eqb_refl, (treeOk_owned rl Hl), (treeOk_owned rr Hr).
Qed.

#[local] Ltac heights :=
  repeat match goal with
  | H : treeOk a ?m |- _ =>
      lazymatch goal with
      | _ : 0 <= nodeHeight m |- _ => fail
      | _ => pose proof (treeOk_height m H)
      end
  end.

(** A node whose children differ by at most two is balanced by one step. *)
Lemma rebalance_spec k l r :
  treeOk a l → treeOk a r → -2 <= nodeHeight l - nodeHeight r <= 2 →
  ∃ n, rebalance a k l r = inr n ∧ treeOk a n ∧ inorder n = inorder l ++ k :: inorder r
    ∧ Z.max (nodeHeight l) (nodeHeight r) <= nodeHeight n <= Z.max (nodeHeight l) (nodeHeight r) + 1
    ∧ (-1 <= nodeHeight l - nodeHeight r <= 1 →
       nodeHeight n = Z.max (nodeHeight l) (nodeHeight r) + 1).
Proof.
  intros Hl Hr Hd. unfold rebalance. heights. destruct (Z.eqb_spec (balanceFactor l r) 2) as [E|E];
    unfold balanceFactor in E.
  { destruct l as [|b lk ll lr h z]; [cbn in *; lia|]. rewrite (validateNode_ok _ Hl).
    pose proof Hl as (Hll & Hlr & -> & -> & -> & Hb). heights. cbn [nodeHeight] in *.
    unfold balanceFactor. destruct (Z.ltb_spec (nodeHeight ll - nodeHeight lr) 0).
    - destruct lr as [|c lrk lrl lrr h z]; [cbn in *; lia|]. rewrite (rotateLeft_eq _ _ _ _ _ _ _ _ Hlr).
      pose proof Hlr as (Hlrl & Hlrr & -> & -> & -> & Hb'). heights. cbn [nodeHeight] in *.
      rewrite rotateRight_new; [|apply newNode_ok; try done; lia|done].
      eexists. split; [done|]. unfold newNode. cbn. repeat (rewrite <-app_assoc; cbn). split_and!; try done; lia.
    - rewrite (rotateRight_eq _ _ _ _ _ _ _ _ Hl).
      eexists. split; [done|]. unfold newNode. cbn. repeat (rewrite <-app_assoc; cbn). split_and!; try done; lia. }
  destruct (Z.eqb_spec (balanceFactor l r) (-2)) as [E'|E']; unfold balanceFactor in E'.
  { destruct r as [|b rk rl rr h z]; [cbn in *; lia|]. rewrite (validateNode_ok _ Hr).
    pose proof Hr as (Hrl & Hrr & -> & -> & -> & Hb). heights. cbn [nodeHeight] in *.
    unfold balanceFactor. destruct (Z.ltb_spec 0 (nodeHeight rl - nodeHeight rr)).
    - destruct rl as [|c rlk rll rlr h z]; [cbn in *; lia|]. rewrite (rotateRight_eq _ _ _ _ _ _ _ _ Hrl).
      pose proof Hrl as (Hrll & Hrlr & -> & -> & -> & Hb'). heights. cbn [nodeHeight] in *.
      rewrite rotateLeft_new; [|done|apply newNode_ok; try done; lia].
      eexists. split; [done|]. unfold newNode. cbn. repeat (rewrite <-app_assoc; cbn). split_and!; try done; lia.
    - rewrite (rotateLeft_eq _ _ _ _ _ _ _ _ Hr).
      eexists. split; [done|]. unfold newNode. cbn. repeat (rewrite <-app_assoc; cbn). split_and!; try done; lia. }
  eexists. split; [done|]. unfold newNode. cbn. split_and!; try done; lia.
Qed.

(** ** Membership, insertion and deletion *)

Lemma containsNode_spec n v :
  treeOk a n → ksorted (inorder n) → containsNode a n v = inr (bool_decide (v ∈ inorder n)).
Proof.
  induction n as [|b k l IHl r IHr h z]; intros Hn Hs; cbn [containsNode].
  { by rewrite bool_decide_eq_false_2 by apply not_elem_of_nil. }
  rewrite (validateNode_ok _ Hn). destruct Hn as (Hl & Hr & _). cbn [inorder] in *.
  apply ksorted_middle in Hs as (Hsl & Hsr & Hlt & Hgt). rewrite Forall_forall in Hlt, Hgt.
  destruct (String.compare v k) eqn:E.
  - apply compare_Eq in E as ->. rewrite bool_decide_eq_true_2; [done|].
    apply elem_of_app. right. apply elem_of_cons. by left.
  - rewrite IHl by done. f_equal. apply bool_decide_ext. rewrite elem_of_app, elem_of_cons.
    assert (¬ klt k v) by (by apply klt_asym). assert (v ≠ k) by (by apply klt_ne). naive_solver.
  - apply compare_Gt in E. rewrite IHr by done. f_equal. apply bool_decide_ext. rewrite elem_of_app, elem_of_cons.
    assert (¬ klt v k) by (by apply klt_asym). assert (k ≠ v) by (by apply klt_ne). naive_solver.
Qed.

(** The outcome of a change: a sound tree with these keys. *)
Record changedTo (n n' : node) (changed : bool) (keys : string → Prop) : Prop := {
  ct_ok : treeOk a n';
  ct_sorted : ksorted (inorder n');
  ct_keys : ∀ x, x ∈ inorder n' ↔ keys x;
  ct_same : changed = false → n' = n }.

(** How far a change below moves the height. *)
Definition heightMoves (n n' m m' : node) : Prop :=
  Z.min 0 (nodeHeight n' - nodeHeight n) <= nodeHeight m' - nodeHeight m
  <= Z.max 0 (nodeHeight n' - nodeHeight n).

Section branch.
Context (k : string) (l r : node) (h z : Z).
Context (Hn : treeOk a (Node a k l r h z)) (Hs : ksorted (inorder l ++ k :: inorder r)).

Lemma rebuilt_left l' changed K :
  changedTo l l' changed K → (∀ x, K x → klt x k) → -1 <= nodeHeight l' - nodeHeight l <= 1 →
  ∃ n', rebuilt (Node a k l r h z) (inr (l', changed)) (λ l, rebalance a k l r) = inr (n', changed)
    ∧ changedTo (Node a k l r h z) n' changed (λ x, K x ∨ x = k ∨ x ∈ inorder r)
    ∧ heightMoves l l' (Node a k l r h z) n'.
Proof using Hn Hs.
  intros [Hok Hsort Hk Hsame] Hlt Hh. unfold heightMoves.
  pose proof Hn as (Hl & Hr & _ & -> & -> & Hb). apply ksorted_middle in Hs as Hs'.
  destruct Hs' as (Hsl & Hsr & Hx & Hgt). destruct changed; cbn [rebuilt].
  - destruct (rebalance_spec k l' r) as (n' & -> & Hn' & Hi & Hh1 & Hh2); [done|done|lia|].
    eexists. split; [done|]. split; [|cbn [nodeHeight]; lia]. constructor; [done| | |done].
    + rewrite Hi. apply ksorted_middle. split_and!; [done|done| |done]. apply Forall_forall.
      intros x Hin. by apply Hlt, Hk.
    + intros x. by rewrite Hi, elem_of_app, elem_of_cons, Hk.
  - rewrite (Hsame eq_refl) in *. eexists. split; [done|]. split; [|lia]. constructor; [exact Hn|exact Hs| |done].
    intros x. cbn [inorder]. by rewrite elem_of_app, elem_of_cons, Hk.
Qed.

Lemma rebuilt_right r' changed K :
  changedTo r r' changed K → (∀ x, K x → klt k x) → -1 <= nodeHeight r' - nodeHeight r <= 1 →
  ∃ n', rebuilt (Node a k l r h z) (inr (r', changed)) (λ r, rebalance a k l r) = inr (n', changed)
    ∧ changedTo (Node a k l r h z) n' changed (λ x, x ∈ inorder l ∨ x = k ∨ K x)
    ∧ heightMoves r r' (Node a k l r h z) n'.
Proof using Hn Hs.
  intros [Hok Hsort Hk Hsame] Hlt Hh. unfold heightMoves.
  pose proof Hn as (Hl & Hr & _ & -> & -> & Hb). apply ksorted_middle in Hs as Hs'.
  destruct Hs' as (Hsl & Hsr & Hx & Hgt). destruct changed; cbn [rebuilt].
  - destruct (rebalance_spec k l r') as (n' & -> & Hn' & Hi & Hh1 & Hh2); [done|done|lia|].
    eexists. split; [done|]. split; [|cbn [nodeHeight]; lia]. constructor; [done| | |done].
    + rewrite Hi. apply ksorted_middle. split_and!; [done|done|done|]. apply Forall_forall.
      intros x Hin. by apply Hlt, Hk.
    + intros x. by rewrite Hi, elem_of_app, elem_of_cons, Hk.
  - rewrite (Hsame eq_refl) in *. eexists. split; [done|]. split; [|lia]. constructor; [exact Hn|exact Hs| |done].
    intros x. cbn [inorder]. by rewrite elem_of_app, elem_of_cons, Hk.
Qed.

(** Where a key of the node is. *)
Lemma branch_before v : klt v k → (v ∈ inorder l ++ k :: inorder r ↔ v ∈ inorder l).
Proof using Hs.
  clear Hn. intros Hv. apply ksorted_middle in Hs as (_ & _ & _ & Hgt). rewrite Forall_forall in Hgt.
  rewrite elem_of_app, elem_of_cons. assert (¬ klt k v) by (by apply klt_asym). assert (v ≠ k) by (by apply klt_ne).
  naive_solver.
Qed.

Lemma branch_after v : klt k v → (v ∈ inorder l ++ k :: inorder r ↔ v ∈ inorder r).
Proof using Hs.
  clear Hn. intros Hv. apply ksorted_middle in Hs as (_ & _ & Hlt & _). rewrite Forall_forall in Hlt.
  rewrite elem_of_app, elem_of_cons. assert (¬ klt v k) by (by apply klt_asym). assert (k ≠ v) by (by apply klt_ne).
  naive_solver.
Qed.
End branch.

Lemma changedTo_ext n n' changed K K' :
  (∀ x, K x ↔ K' x) → changedTo n n' changed K → changedTo n n' changed K'.
Proof. intros HK [? ? Hk ?]. constructor; try done. intros x. by rewrite Hk. Qed.

Lemma changedTo_refl n : treeOk a n → ksorted (inorder n) → changedTo n n false (λ x, x ∈ inorder n).
Proof. by constructor. Qed.

Lemma addNode_spec n v :
  treeOk a n → ksorted (inorder n) →
  ∃ n', addNode a n v = inr (n', bool_decide (v ∉ inorder n))
    ∧ changedTo n n' (bool_decide (v ∉ inorder n)) (λ x, x = v ∨ x ∈ inorder n)
    ∧ nodeHeight n <= nodeHeight n' <= nodeHeight n + 1.
Proof.
  induction n as [|b k l IHl r IHr h z]; intros Hn Hs; cbn [addNode].
  { rewrite bool_decide_eq_true_2 by apply not_elem_of_nil. eexists. split; [done|].
    split; [|unfold newNode; cbn; lia]. constructor; [apply newNode_ok; cbn; [done|done|lia]|by repeat constructor| |done].
    cbn. intros x. rewrite list_elem_of_singleton, elem_of_nil. tauto. }
  rewrite (validateNode_ok _ Hn). pose proof Hn as (Hl & Hr & -> & _). cbn [inorder] in *.
  pose proof Hs as Hs'. apply ksorted_middle in Hs' as (Hsl & Hsr & Hlt & Hgt). rewrite Forall_forall in Hlt, Hgt.
  destruct (String.compare v k) eqn:E.
  - apply compare_Eq in E as ->. rewrite bool_decide_eq_false_2.
    2: { intros Hx. apply Hx, elem_of_app. right. apply elem_of_cons. by left. }
    eexists. split; [done|]. split; [|lia]. eapply changedTo_ext; [|by apply changedTo_refl].
    intros x. cbn. rewrite elem_of_app, elem_of_cons. tauto.
  - destruct (IHl Hl Hsl) as (l' & -> & Hc & Hh). rewrite (bool_decide_ext _ _ (not_iff_compat (branch_before k l r Hs v E))).
    destruct (rebuilt_left k l r h z Hn Hs l' _ _ Hc) as (n' & -> & Hc' & Hm); [|lia|].
    { intros x [->|Hx]; [done|by apply Hlt]. }
    exists n'. split; [done|]. split; [|unfold heightMoves in Hm; lia].
    eapply changedTo_ext; [|exact Hc']. intros x. cbn. rewrite elem_of_app, elem_of_cons. tauto.
  - apply compare_Gt in E. destruct (IHr Hr Hsr) as (r' & -> & Hc & Hh).
    rewrite (bool_decide_ext _ _ (not_iff_compat (branch_after k l r Hs v E))).
    destruct (rebuilt_right k l r h z Hn Hs r' _ _ Hc) as (n' & -> & Hc' & Hm); [|lia|].
    { intros x [->|Hx]; [done|by apply Hgt]. }
    exists n'. split; [done|]. split; [|unfold heightMoves in Hm; lia].
    eapply changedTo_ext; [|exact Hc']. intros x. cbn. rewrite elem_of_app, elem_of_cons. tauto.
Qed.

Lemma minimumNode_spec b k l r h z :
  treeOk a (Node b k l r h z) →
  ∃ m, minimumNode a (Node b k l r h z) = inr m ∧ head (inorder (Node b k l r h z)) = Some m.
Proof.
  revert b k r h z. induction l as [|lb lk ll IHl lr _ lh lz]; intros b k r h z Hn;
    cbn [minimumNode]; rewrite (validateNode_ok _ Hn); [by exists k|].
  destruct Hn as (Hl & _). destruct (IHl _ _ _ _ _ Hl) as (m & Hmin & Hm). exists m. split; [exact Hmin|].
  cbn [inorder] in *. rewrite head_app. by rewrite Hm.
Qed.

Lemma deleteNode_spec n v :
  treeOk a n → ksorted (inorder n) →
  ∃ n', deleteNode a n v = inr (n', bool_decide (v ∈ inorder n))
    ∧ changedTo n n' (bool_decide (v ∈ inorder n)) (λ x, x ≠ v ∧ x ∈ inorder n)
    ∧ nodeHeight n - 1 <= nodeHeight n' <= nodeHeight n.
Proof.
  revert v. induction n as [|b k l IHl r IHr h z]; intros v Hn Hs; cbn [deleteNode].
  { rewrite bool_decide_eq_false_2 by apply not_elem_of_nil. eexists. split; [done|]. split; [|cbn; lia].
    eapply changedTo_ext; [|by apply changedTo_refl]. intros x. cbn. rewrite elem_of_nil. tauto. }
  rewrite (validateNode_ok _ Hn). pose proof Hn as (Hl & Hr & -> & -> & _ & Hb). cbn [inorder] in *.
  pose proof Hs as Hs'. apply ksorted_middle in Hs' as (Hsl & Hsr & Hlt & Hgt). rewrite Forall_forall in Hlt, Hgt.
  pose proof (treeOk_height l Hl). pose proof (treeOk_height r Hr). destruct (String.compare v k) eqn:E.
  - apply compare_Eq in E as ->. rewrite bool_decide_eq_true_2 by (apply elem_of_app; right; apply elem_of_cons; by left).
    assert (∀ x, x ∈ inorder l → x ≠ k) as Hlk by (intros x Hx; by apply klt_ne, Hlt).
    assert (∀ x, x ∈ inorder r → x ≠ k) as Hrk by (intros x Hx He; symmetry in He; revert He; by apply klt_ne, Hgt).
    destruct l as [|lb lk ll lr lh lz].
    { eexists. split; [done|]. split; [|cbn in *; lia]. constructor; [done|done| |done].
      intros x. cbn. rewrite elem_of_cons. naive_solver. }
    destruct r as [|rb rk rl rr rh rz].
    { eexists. split; [done|]. split; [|cbn in *; lia]. constructor; [done|done| |done].
      intros x. cbn [inorder]. rewrite (elem_of_app (inorder ll ++ lk :: inorder lr)), elem_of_cons, elem_of_nil.
      cbn [inorder] in Hlk. naive_solver. }
    set (ln := Node lb lk ll lr lh lz) in *. set (rn := Node rb rk rl rr rh rz) in *.
    destruct (minimumNode_spec _ _ _ _ _ _ Hr) as (m & Em & Hm). fold rn in Em, Hm. rewrite Em.
    destruct (inorder rn) as [|m' rest] eqn:Er; [done|]. injection Hm as ->.
    destruct (IHr m Hr) as (r' & Ed & [Hok Hsort Hk _] & Hh); [exact Hsr|]. rewrite Ed.
    apply StronglySorted_inv in Hsr as [_ Hmin]. rewrite Forall_forall in Hmin.
    destruct (rebalance_spec m ln r') as (n' & -> & Hn' & Hi & Hh1 & Hh2); [done|done|lia|].
    eexists. split; [done|]. split; [|cbn [nodeHeight]; lia].
    assert (∀ x, x ∈ inorder r' ↔ x ≠ m ∧ (x = m ∨ x ∈ rest)) as Hk'.
    { intros x. by rewrite Hk, elem_of_cons. }
    constructor; [done| | |done].
    + rewrite Hi. apply ksorted_middle. split_and!; [done|done| |].
      * apply Forall_forall. intros x Hx. transitivity k; [by apply Hlt|]. apply Hgt, elem_of_cons. by left.
      * apply Forall_forall. intros x [Hne [?|Hx]]%Hk'; [done|by apply Hmin].
    + intros x. rewrite Hi, !elem_of_app, !elem_of_cons, Hk'. setoid_rewrite elem_of_cons in Hrk.
      destruct (decide (x = m)); naive_solver.
  - destruct (IHl v Hl Hsl) as (l' & -> & Hc & Hh). rewrite (bool_decide_ext _ _ (branch_before k l r Hs v E)).
    destruct (rebuilt_left k l r _ z Hn Hs l' _ _ Hc) as (n' & -> & Hc' & Hm); [|lia|].
    { intros x [_ Hx]. by apply Hlt. }
    exists n'. split; [done|]. split; [|unfold heightMoves in Hm; lia].
    eapply changedTo_ext; [|exact Hc']. intros x. cbn. rewrite elem_of_app, elem_of_cons.
    assert (k ≠ v) by (intros ->; by apply klt_irrefl in E).
    assert (x ∈ inorder r → x ≠ v) by (intros Hx ->; by apply (klt_asym v k E), Hgt). naive_solver.
  - apply compare_Gt in E. destruct (IHr v Hr Hsr) as (r' & -> & Hc & Hh).
    rewrite (bool_decide_ext _ _ (branch_after k l r Hs v E)).
    destruct (rebuilt_right k l r _ z Hn Hs r' _ _ Hc) as (n' & -> & Hc' & Hm); [|lia|].
    { intros x [_ Hx]. by apply Hgt. }
    exists n'. split; [done|]. split; [|unfold heightMoves in Hm; lia].
    eapply changedTo_ext; [|exact Hc']. intros x. cbn. rewrite elem_of_app, elem_of_cons.
    assert (k ≠ v) by (intros ->; by apply klt_irrefl in E).
    assert (x ∈ inorder l → x ≠ v) by (intros Hx ->; by apply (klt_asym k v E), Hlt). naive_solver.
Qed.
End tree.

(** ** Ordered sets: sorted slices and roots

    Binary search and building from a sorted slice, the batch merge of a packed
    root, and the representation invariant [rootOk] under which every operation
    of a root is a single equation. *)

(** ** Building from a sorted slice *)

(** The height of a tree of [n] values: the number of bits of [n]. *)
Definition builtHeight (n : Z) : Z := Z.log2 (2 * n + 1).

Lemma builtHeight_split n :
  0 < n →
  builtHeight n = 1 + builtHeight (n / 2)
  ∧ builtHeight (n / 2) - 1 <= builtHeight (n - 1 - n / 2) <= builtHeight (n / 2).
Proof.
  intros Hn. unfold builtHeight. pose proof (Z_div_mod_eq_full n 2). pose proof (Z.mod_pos_bound n 2).
  set (m := n / 2) in *. split.
  - rewrite Z.log2_succ_double by lia. destruct (Z.eq_dec (n mod 2) 0) as [E|E].
    + replace n with (2 * m) by lia. rewrite Z.log2_double, Z.log2_succ_double by lia. lia.
    + replace n with (2 * m + 1) by lia. lia.
  - split; [|apply Z.log2_le_mono; lia]. pose proof (Z.log2_nonneg (2 * (n - 1 - m) + 1)).
    destruct (Z.eq_dec m 0) as [->|Hm]; [change (Z.log2 (2 * 0 + 1)) with 0; lia|].
    destruct (Z.eq_dec m 1) as [->|Hm1]; [change (Z.log2 (2 * 1 + 1)) with 1; lia|].
    enough (Z.log2 (2 * m + 1) <= Z.log2 (2 * (2 * (n - 1 - m) + 1))) as H'.
    { rewrite Z.log2_double in H' by lia. lia. }
    apply Z.log2_le_mono. lia.
Qed.

Lemma buildSortedNode_spec a fuel values :
  (length values <= fuel)%nat →
  inorder (buildSortedNode a fuel values) = values ∧ treeOk a (buildSortedNode a fuel values)
  ∧ nodeHeight (buildSortedNode a fuel values) = builtHeight (Z.of_nat (length values)).
Proof.
  revert values. induction fuel as [|fuel IH]; intros [|v values] Hf; cbn in Hf; try lia; try done.
  cbn [buildSortedNode]. set (vs := v :: values) in *. set (middle := Nat.div2 (length vs)).
  assert (middle < length vs)%nat as Hm by (apply Nat.lt_div2; cbn; lia).
  destruct (lookup_lt_is_Some_2 vs middle Hm) as [key Hk]. rewrite Hk.
  assert (length vs = S (length values)) as Hlen by done.
  destruct (IH (take middle vs)) as (Hi1 & Ht1 & Hh1); [rewrite length_take; lia|].
  destruct (IH (drop (S middle) vs)) as (Hi2 & Ht2 & Hh2); [rewrite length_drop; lia|].
  rewrite length_take_le in Hh1 by lia. rewrite length_drop in Hh2.
  assert (Z.of_nat middle = Z.of_nat (length vs) / 2) as Hmz.
  { unfold middle. rewrite Nat.div2_div. apply Nat2Z.inj_div. }
  destruct (builtHeight_split (Z.of_nat (length vs))) as (Hh & Hle & Hge); [lia|].
  replace (Z.of_nat (length vs - S middle)) with (Z.of_nat (length vs) - 1 - Z.of_nat (length vs) / 2) in Hh2 by lia.
  rewrite <-Hmz in Hh at 1. rewrite Hmz in Hh1. split_and!.
  - cbn [newNode inorder]. rewrite Hi1, Hi2. by apply take_drop_middle.
  - apply newNode_ok; [done|done|]. lia.
  - cbn [newNode nodeHeight]. rewrite Hmz in Hh. lia.
Qed.

(** ** Binary search *)

Lemma searchLoop_spec fuel values v i j :
  ksorted values → (i <= j <= length values)%nat → (j - i <= fuel)%nat →
  Forall (λ x, klt x v) (take i values) → Forall (λ x, ¬ klt x v) (drop j values) →
  let index := searchLoop fuel values v i j in
  (index <= length values)%nat ∧ Forall (λ x, klt x v) (take index values)
  ∧ Forall (λ x, ¬ klt x v) (drop index values).
Proof.
  intros Hs. revert i j. induction fuel as [|fuel IH]; intros i j Hij Hf Hlt Hge; cbn [searchLoop].
  { assert (i = j) as -> by lia. split_and!; [lia|done|done]. }
  destruct (Nat.ltb_spec i j) as [Hlij|Hge']; [|assert (i = j) as -> by lia; by split_and!; [lia| |]].
  set (h := Nat.div2 (i + j)). assert (i <= h < j)%nat as Hh.
  { unfold h. rewrite Nat.div2_div. split; [apply Nat.div_le_lower_bound; lia|apply Nat.Div0.div_lt_upper_bound; lia]. }
  destruct (lookup_lt_is_Some_2 values h) as [x Hx]; [lia|]. rewrite Hx.
  rewrite <-(take_drop_middle _ _ _ Hx) in Hs. apply ksorted_middle in Hs as (_ & _ & Hb & Ha).
  case_bool_decide as E; apply IH; try lia; try done.
  - rewrite Nat.add_1_r, (take_S_r _ _ x Hx). apply Forall_app. split; [|by apply Forall_singleton].
    eapply Forall_impl; [exact Hb|]. intros y Hy. exact (klt_trans y x v Hy E).
  - rewrite (drop_S _ _ _ Hx). constructor; [done|]. eapply Forall_impl; [exact Ha|].
    intros y Hy Hyv. apply E. exact (klt_trans x y v Hy Hyv).
Qed.

(** A search splits the slice around the value. *)
Lemma BinarySearch_spec values v :
  ksorted values →
  ∃ xs ys, Forall (λ x, klt x v) xs ∧ Forall (klt v) ys
    ∧ BinarySearch values v = (length xs, bool_decide (v ∈ values))
    ∧ values = xs ++ (if bool_decide (v ∈ values) then [v] else []) ++ ys.
Proof.
  intros Hs. unfold BinarySearch.
  destruct (searchLoop_spec (length values) values v 0 (length values)) as (Hi & Hlt & Hge);
    [done|lia|lia|constructor|rewrite drop_all; constructor|].
  set (index := searchLoop (length values) values v 0 (length values)) in *.
  assert (length (take index values) = index) as Hlen by (rewrite length_take; lia).
  rewrite Forall_forall in Hlt, Hge. rewrite <-(take_drop index values) in Hs.
  apply ksorted_app in Hs as (_ & Hsd & _). pose proof (take_drop index values) as Hsplit.
  assert (v ∈ values ↔ v ∈ drop index values) as Hmem.
  { rewrite <-Hsplit at 1. rewrite elem_of_app. split; [|by right]. intros [Hv|Hv]; [|done].
    by apply Hlt, klt_irrefl in Hv. }
  assert (values !! index = head (drop index values)) as Hhead.
  { rewrite <-(Nat.add_0_r index) at 1. rewrite <-lookup_drop. by destruct (drop index values). }
  rewrite Hhead. rewrite (bool_decide_ext _ _ Hmem).
  destruct (drop index values) as [|y ys] eqn:Ed.
  { exists (take index values), []. rewrite !bool_decide_eq_false_2 by (done || apply not_elem_of_nil).
    rewrite Hlen, !app_nil_r in *. split_and!; [by apply Forall_forall|constructor|done|symmetry; exact Hsplit]. }
  apply StronglySorted_inv in Hsd as [_ Hy]. cbn [head]. destruct (decide (y = v)) as [->|Hne].
  - exists (take index values), ys. rewrite !bool_decide_eq_true_2 by (done || (apply elem_of_cons; by left)).
    rewrite Hlen. split_and!; [by apply Forall_forall|done|done|symmetry; exact Hsplit].
  - assert (klt v y) as Hvy.
    { destruct (klt_trichotomy v y) as [?|[?|Hyv]]; [done|congruence|].
      exfalso. eapply Hge; [apply elem_of_cons; by left|done]. }
    assert (v ∉ y :: ys) as Hnot.
    { rewrite elem_of_cons. intros [?|Hin]; [congruence|]. rewrite Forall_forall in Hy.
      by apply (klt_asym v y Hvy), Hy. }
    exists (take index values), (y :: ys). rewrite !bool_decide_eq_false_2 by (done || congruence).
    rewrite Hlen. split_and!; [by apply Forall_forall| |done|symmetry; exact Hsplit].
    constructor; [done|]. eapply Forall_impl; [exact Hy|]. intros x Hx. by etransitivity.
Qed.

Lemma BinarySearch_found values v : ksorted values → (BinarySearch values v).2 = bool_decide (v ∈ values).
Proof. intros Hs. by destruct (BinarySearch_spec values v Hs) as (xs & ys & _ & _ & -> & _). Qed.

Lemma drop_past_middle {A} (xs : list A) v ys : drop (S (length xs)) (xs ++ v :: ys) = ys.
Proof. by induction xs. Qed.

(** Inserting and removing at the position the search gives. *)
Lemma search_insert values v :
  ksorted values → v ∉ values →
  let index := (BinarySearch values v).1 in
  ksorted (take index values ++ v :: drop index values)
  ∧ ∀ x, x ∈ take index values ++ v :: drop index values ↔ x = v ∨ x ∈ values.
Proof.
  intros Hs Hv. destruct (BinarySearch_spec values v Hs) as (xs & ys & Hlt & Hgt & -> & E).
  rewrite bool_decide_eq_false_2 in E by done. cbn [fst app] in *. subst values.
  rewrite take_app_length, drop_app_length. apply ksorted_app in Hs as (Hsx & Hsy & _). split.
  - by apply ksorted_middle.
  - intros x. rewrite !elem_of_app, elem_of_cons. tauto.
Qed.

Lemma search_remove values v :
  ksorted values → v ∈ values →
  let index := (BinarySearch values v).1 in
  ksorted (take index values ++ drop (S index) values)
  ∧ (∀ x, x ∈ take index values ++ drop (S index) values ↔ x ≠ v ∧ x ∈ values)
  ∧ S (length (take index values ++ drop (S index) values)) = length values.
Proof.
  intros Hs Hv. destruct (BinarySearch_spec values v Hs) as (xs & ys & Hlt & Hgt & -> & E).
  rewrite bool_decide_eq_true_2 in E by done. cbn [fst app] in *. subst values.
  rewrite take_app_length, drop_past_middle. apply ksorted_middle in Hs as (Hsx & Hsy & _). rewrite Forall_forall in Hlt, Hgt.
  split_and!.
  - apply ksorted_app. split_and!; [done|done|]. intros x y Hx Hy. transitivity v; auto.
  - intros x. rewrite !elem_of_app, elem_of_cons.
    assert (x ∈ xs → x ≠ v) by (intros Hx; by apply klt_ne, Hlt).
    assert (x ∈ ys → v ≠ x) by (intros Hx; by apply klt_ne, Hgt). naive_solver.
  - rewrite !length_app. cbn. lia.
Qed.

(** ** The merge of a batch into a packed root *)

(** What a list of assignments makes of a set of keys. *)
Definition assigned (membership : list (string * bool)) (keys : string → Prop) (x : string) : Prop :=
  (x, true) ∈ membership ∨ keys x ∧ (x, false) ∉ membership.

Lemma packedMerge_spec previous membership :
  ksorted previous → ksorted membership.*1 →
  ksorted (packedMerge previous membership)
  ∧ ∀ x, x ∈ packedMerge previous membership ↔ assigned membership (λ x, x ∈ previous) x.
Proof.
  unfold assigned. revert previous. induction membership as [|[key wanted] rest IH]; intros previous Hs Hm;
    cbn [packedMerge].
  { split; [done|]. intros x. rewrite !elem_of_nil. tauto. }
  cbn [fmap list_fmap fst] in Hm. apply StronglySorted_inv in Hm as [Hm Hk].
  destruct (BinarySearch_spec previous key Hs) as (xs & ys & Hlt & Hgt & -> & E).
  assert (drop (if bool_decide (key ∈ previous) then S (length xs) else length xs) previous = ys
          ∧ take (length xs) previous = xs) as [-> ->].
  { revert E. case_bool_decide; cbn [app]; intros ->; rewrite take_app_length; split; try done.
    - apply drop_past_middle.
    - apply drop_app_length. }
  assert (ksorted xs ∧ ksorted ys) as [Hsx Hsy].
  { rewrite E in Hs. apply ksorted_app in Hs as (? & Hs & _). apply ksorted_app in Hs as (_ & ? & _). done. }
  destruct (IH ys Hsy Hm) as (Hsorted & Hin). rewrite Forall_forall in Hlt, Hgt, Hk.
  assert (∀ x w, (x, w) ∈ rest → klt key x) as Hrest.
  { intros x w Hx. apply Hk. apply list_elem_of_fmap. by exists (x, w). }
  assert (∀ x, x ∈ packedMerge ys rest → klt key x) as Hafter.
  { intros x [Hx|[Hx _]]%Hin; eauto. }
  split.
  - apply ksorted_app. split_and!; [done| |].
    + destruct wanted; cbn [app]; [constructor; [done|]; by apply Forall_forall|done].
    + intros x y Hx Hy. apply elem_of_app in Hy as [Hy|Hy].
      * destruct wanted; [apply list_elem_of_singleton in Hy as ->; auto|by apply not_elem_of_nil in Hy].
      * transitivity key; auto.
  - intros x. rewrite !elem_of_app, !elem_of_cons, Hin.
    assert (x ∈ previous ↔ x ∈ xs ∨ (x = key ∧ key ∈ previous) ∨ x ∈ ys) as Hp.
    { rewrite E at 1. rewrite !elem_of_app. case_bool_decide; rewrite ?list_elem_of_singleton, ?elem_of_nil; tauto. }
    rewrite Hp. assert (x ∈ xs → x ≠ key ∧ (∀ w, (x, w) ∉ rest)) as Hx1.
    { intros Hx. pose proof (Hlt _ Hx) as Hlx. split; [by apply klt_ne|]. intros w Hw.
      by apply (klt_asym x key Hlx), (Hrest x w). }
    assert (x ∈ ys → x ≠ key) as Hx2 by (intros Hx He; symmetry in He; revert He; by apply klt_ne, Hgt).
    assert (∀ w, (x, w) ∈ rest → x ≠ key) as Hx3.
    { intros w Hw He. symmetry in He. revert He. by apply klt_ne, (Hrest x w). }
    pose proof (Hx3 true). pose proof (Hx3 false). clear Hx3 Hin IH Hk Hlt Hgt Hrest Hafter E Hp.
    destruct wanted; rewrite ?list_elem_of_singleton, ?elem_of_nil; naive_solver.
Qed.

(** What one assignment adds to the size. *)
Definition sizeChange (present wanted : bool) : Z :=
  if eqb present wanted then 0 else if present then -1 else 1.

Definition sizeChanges (packed : list string) (membership : list (string * bool)) : Z :=
  foldr (λ '(key, wanted) total, sizeChange (bool_decide (key ∈ packed)) wanted + total) 0 membership.

Lemma sizeChanges_ext packed packed' membership :
  (∀ key wanted, (key, wanted) ∈ membership → (key ∈ packed ↔ key ∈ packed')) →
  sizeChanges packed membership = sizeChanges packed' membership.
Proof.
  induction membership as [|[key wanted] rest IH]; intros Heq; [done|]. cbn [sizeChanges foldr].
  rewrite (bool_decide_ext _ _ (Heq key wanted (list_elem_of_here _ _))). f_equal.
  apply IH. intros k w Hin. apply (Heq k w), elem_of_cons. by right.
Qed.

Lemma packedMerge_length previous membership :
  ksorted previous → ksorted membership.*1 →
  Z.of_nat (length (packedMerge previous membership)) = Z.of_nat (length previous) + sizeChanges previous membership.
Proof.
  revert previous. induction membership as [|[key wanted] rest IH]; intros previous Hs Hm; cbn [packedMerge].
  { unfold sizeChanges. cbn. lia. }
  cbn [fmap list_fmap fst] in Hm. apply StronglySorted_inv in Hm as [Hm Hk].
  destruct (BinarySearch_spec previous key Hs) as (xs & ys & Hlt & Hgt & -> & E).
  rewrite Forall_forall in Hlt, Hk.
  assert (ksorted ys ∧ sizeChanges ys rest = sizeChanges previous rest) as [Hsy Hrest].
  { rewrite E in Hs. apply ksorted_app in Hs as (_ & Hs & _). apply ksorted_app in Hs as (_ & ? & _).
    split; [done|]. apply sizeChanges_ext. intros k w Hin. rewrite E, !elem_of_app.
    assert (klt key k) as Hkk by (apply Hk, list_elem_of_fmap; by exists (k, w)).
    split; [by right; right|]. intros [Hx|[Hx|Hx]]; [by destruct (klt_asym _ _ Hkk); apply Hlt| |done].
    case_bool_decide; [|by apply not_elem_of_nil in Hx]. apply list_elem_of_singleton in Hx as ->.
    by apply klt_irrefl in Hkk. }
  specialize (IH ys Hsy Hm). cbn [sizeChanges foldr]. change (foldr _ 0 rest) with (sizeChanges previous rest).
  rewrite <-Hrest. revert E. case_bool_decide; cbn [app]; intros ->;
    rewrite take_app_length, ?drop_past_middle, ?drop_app_length, !length_app, ?length_cons;
    unfold sizeChange; destruct wanted; cbn [eqb length]; lia.
Qed.

Lemma packedCounts_spec packed membership :
  ksorted packed → ksorted membership.*1 →
  packedCounts packed membership =
    (Z.of_nat (length (packedMerge packed membership)),
     existsb (λ '(key, wanted), negb (eqb (bool_decide (key ∈ packed)) wanted)) membership).
Proof.
  intros Hs Hm. rewrite packedMerge_length by done. clear Hm. unfold packedCounts.
  generalize (Z.of_nat (length packed)) as size. intros size.
  enough (∀ changed, foldl _ (size, changed) membership =
    (size + sizeChanges packed membership,
     changed || existsb (λ '(key, wanted), negb (eqb (bool_decide (key ∈ packed)) wanted)) membership)) as H
    by apply (H false).
  revert size. induction membership as [|[key wanted] rest IH]; intros size changed; cbn [foldl].
  { cbn. rewrite orb_false_r, Z.add_0_r. done. }
  rewrite BinarySearch_found by done. cbn [sizeChanges foldr existsb].
  change (foldr _ 0 rest) with (sizeChanges packed rest). unfold sizeChange.
  destruct (bool_decide (key ∈ packed)), wanted; cbn [eqb negb]; rewrite IH; f_equal;
    rewrite ?orb_true_r, ?orb_true_l, ?orb_false_l; try done; lia.
Qed.

(** The assignments in key order. *)
Lemma sort_strings_ksorted (X : gset string) : ksorted (sort_strings (elements X)).
Proof.
  assert (NoDup (sort_strings (elements X))) as Hnd.
  { rewrite sort_strings_Permutation. apply NoDup_elements. }
  pose proof (sort_strings_StronglySorted (elements X)) as Hs.
  induction Hs as [|x xs Hs IH Hx]; [constructor|]. apply NoDup_cons in Hnd as [Hnin Hnd].
  constructor; [by apply IH|]. rewrite Forall_forall in Hx |- *. intros y Hy. apply klt_le.
  split; [by apply Hx|]. by intros ->.
Qed.

Lemma sortedMembership_spec (membership : gmap string bool) :
  ksorted (sortedMembership membership).*1
  ∧ ∀ key wanted, (key, wanted) ∈ sortedMembership membership ↔ membership !! key = Some wanted.
Proof.
  unfold sortedMembership. set (keys := sort_strings (elements (dom membership))).
  assert (∀ k, k ∈ keys → is_Some (membership !! k)) as Hk.
  { intros k. unfold keys. by rewrite sort_strings_Permutation, elem_of_elements, elem_of_dom. }
  split.
  - enough ((omap (λ key, wanted ← membership !! key; Some (key, wanted)) keys).*1 = keys) as ->
      by apply sort_strings_ksorted.
    clear -Hk. induction keys as [|k keys IH]; [done|]. cbn.
    destruct (Hk k (list_elem_of_here _ _)) as [w ->]. cbn. f_equal. apply IH. intros x Hx.
    apply Hk, elem_of_cons. by right.
  - intros key wanted. rewrite list_elem_of_omap. split.
    + intros (k & _ & (w & Hw & [= -> ->])%bind_Some). done.
    + intros Hw. exists key. rewrite Hw. split; [|done]. unfold keys.
      rewrite sort_strings_Permutation, elem_of_elements, elem_of_dom. by eexists.
Qed.
