(* ===== verification/OrderedSetClaims.v ===== *)
(** * Ordered sets: a root is a finite set

    The representation invariant of a root and, on a root that has it, one
    equation per operation with the finite set it stands for; then the same for
    whole histories of operations. The reverse index of the incremental graph is
    modelled with finite sets ([rootValues], [updateRoot]); the refinement is what
    makes that a model of the code. At the end, the properties and their runs. *)

From Stdlib Require Import ZArith Lia.
From stdpp Require Import base gmap strings sorting sets list list_numbers.
From S2P Require Import Prelude KeyOrder GoStd IncGraph IncSession IncCommit OrderedSet OrderedSetProps.

Open Scope Z_scope.

(** ** The representation *)

Section root.
Context (a : N) (sc : Scope).

(** The roots of the authority and scope, with their keys in order. *)
Inductive holds : Root → list string → Prop :=
| HoldsEmpty : holds (EmptyRoot a) []
| HoldsTree n :
    n ≠ Nil → treeOk a n → ksorted (inorder n) → ""%string ∉ inorder n →
    holds (StateRoot (newRootState a sc n)) (inorder n)
| HoldsPacked values :
    values ≠ [] → ksorted values → ""%string ∉ values →
    holds (StateRoot (newPackedRootState a sc values)) values.

(** A root stands for a set. *)
Definition represents (r : Root) (X : gset string) : Prop :=
  ∃ keys, holds r keys ∧ ∀ x, x ∈ keys ↔ x ∈ X.

Lemma holds_sorted r keys : holds r keys → ksorted keys ∧ ""%string ∉ keys.
Proof. intros []; split; try done; [constructor|apply not_elem_of_nil]. Qed.

Lemma holds_values r keys X : holds r keys → (∀ x, x ∈ keys ↔ x ∈ X) → keys = rootValues X.
Proof.
  intros [Hs _]%holds_sorted Heq. apply ksorted_unique; [done|apply sort_strings_ksorted|].
  intros x. rewrite Heq. unfold rootValues. by rewrite sort_strings_Permutation, elem_of_elements.
Qed.

Lemma holds_size r keys : holds r keys → sizeOf r = Z.of_nat (length keys).
Proof. intros [|n _ Hn _ _|values _ _ _]; cbn; [done|by apply (treeOk_size a)|done]. Qed.

Lemma inorder_nil n : inorder n = [] → n = Nil.
Proof. destruct n; cbn; [done|]. intros E. by apply app_eq_nil in E as [_ ?]. Qed.

(** ** Who may use a root *)

Lemma authenticated r keys :
  scopeOk sc = true → holds r keys → RootAuthentication r (Some a) = inr a.
Proof.
  intros Hsc [|n Hne Hn _ _|values Hne _ _]; unfold RootAuthentication; cbn -[validateNode populatedStateAuthentic];
    rewrite bool_decide_eq_true_2 by done; [done| |]; cbn [negb orb].
  - rewrite (validateNode_ok a n Hn). pose proof (treeOk_size a n Hn) as Hz.
    assert (inorder n ≠ []) as Hi by (intros E; by apply Hne, inorder_nil).
    unfold populatedStateAuthentic. cbn. rewrite Hsc. destruct n as [|b k nl nr h z]; [done|].
    cbn [nodeSize] in *. rewrite Z.eqb_refl. destruct (inorder (Node b k nl nr h z)); [done|]. cbn [length] in Hz.
    destruct (Z.ltb_spec z 0); [lia|]. destruct (Z.eqb_spec z 0); [lia|]. done.
  - unfold populatedStateAuthentic. cbn. rewrite Hsc, Z.eqb_refl. destruct values as [|v vs]; [done|].
    cbn [length]. by destruct (Z.ltb_spec (Z.of_nat (S (length vs))) 0), (Z.ltb_spec 0 (Z.of_nat (S (length vs)))),
      (Z.eqb_spec (Z.of_nat (S (length vs))) 0); try lia.
Qed.

Lemma owned r keys : scopeOk sc = true → holds r keys → ValidateOwnership r (Some a) sc = inr a.
Proof.
  intros Hsc Hr. unfold ValidateOwnership. rewrite (authenticated r keys) by done. rewrite Hsc. cbn [negb orb].
  destruct Hr; cbn; [done|..]; by rewrite bool_decide_eq_true_2.
Qed.

Lemma foreign_authority r keys b sc' :
  holds r keys → b ≠ Some a → ValidateOwnership r b sc' = inl ErrProvenance.
Proof.
  intros Hr Hb. unfold ValidateOwnership, RootAuthentication.
  destruct b as [b|]; [|done]. assert (a ≠ b) by congruence.
  destruct Hr; cbn -[validateNode]; rewrite bool_decide_eq_false_2 by done; done.
Qed.

Lemma foreign_scope r keys sc' :
  scopeOk sc = true → holds r keys → scopeOk sc' = false ∨ keys ≠ [] ∧ sc' ≠ sc →
  ValidateOwnership r (Some a) sc' = inl ErrOtherScope.
Proof.
  intros Hsc Hr Hother. unfold ValidateOwnership. rewrite (authenticated r keys) by done.
  destruct (scopeOk sc') eqn:E; [|done]. destruct Hother as [?|[Hne Hs]]; [done|]. cbn [negb orb].
  destruct Hr; cbn; [done|..]; by rewrite bool_decide_eq_false_2.
Qed.
End root.

(** ** Walks *)

(** A walk over keys: the visitor's state and whether it reached the end. *)
Fixpoint walk {S} (visit : S → string → S * bool) (keys : list string) (s : S) : S * bool :=
  match keys with
  | [] => (s, true)
  | key :: rest => match visit s key with (s, true) => walk visit rest s | stopped => stopped end
  end.

Lemma rangeFrom_walk {S} (visit : S → string → S * bool) keys s : rangeFrom visit keys s = (walk visit keys s).1.
Proof. revert s. induction keys as [|k keys IH]; intros s; cbn; [done|]. by destruct (visit s k) as [s' []]. Qed.

Lemma walk_app {S} (visit : S → string → S * bool) xs ys s :
  walk visit (xs ++ ys) s = match walk visit xs s with (s, true) => walk visit ys s | stopped => stopped end.
Proof. revert s. induction xs as [|x xs IH]; intros s; cbn; [done|]. by destruct (visit s x) as [s' []]. Qed.

(** The walk of the tree checks bounds that hold in a sorted tree. *)
Lemma rangeNode_walk {S} (visit : S → string → S * bool) a n minimum maximum s :
  treeOk a n → ksorted (inorder n) →
  (∀ m x, minimum = Some m → x ∈ inorder n → klt m x) → (∀ m x, maximum = Some m → x ∈ inorder n → klt x m) →
  rangeNode a visit minimum maximum n s = ((walk visit (inorder n) s).1, inr (walk visit (inorder n) s).2).
Proof.
  revert minimum maximum s. induction n as [|b k l IHl r IHr h z]; intros minimum maximum s Hn Hs Hmin Hmax;
    [done|]. cbn [rangeNode]. rewrite (validateNode_ok a _ Hn). destruct Hn as (Hl & Hr & _). cbn [inorder] in *.
  apply ksorted_middle in Hs as (Hsl & Hsr & Hlt & Hgt). rewrite Forall_forall in Hlt, Hgt.
  assert (k ∈ inorder l ++ k :: inorder r) as Hk by (apply elem_of_app; right; apply elem_of_cons; by left).
  assert (match minimum with Some m => negb (bool_decide (klt m k)) | None => false end
          || match maximum with Some m => negb (bool_decide (klt k m)) | None => false end = false) as ->.
  { destruct minimum as [m|], maximum as [m'|]; cbn [orb negb]; rewrite ?bool_decide_eq_true_2; eauto. }
  rewrite IHl; [|done|done| |].
  2: { intros m x -> Hx. eapply Hmin; [done|]. apply elem_of_app. by left. }
  2: { intros m x [= <-] Hx. by apply Hlt. }
  rewrite walk_app. destruct (walk visit (inorder l) s) as [s' []]; [|done]. cbn [fst snd walk].
  destruct (visit s' k) as [s'' []]; [|done]. apply IHr; [done|done| |].
  - intros m x [= <-] Hx. by apply Hgt.
  - intros m x -> Hx. eapply Hmax; [done|]. apply elem_of_app. right. apply elem_of_cons. by right.
Qed.

Lemma walk_collect keys acc : walk (λ values value, (values ++ [value], true)) keys acc = (acc ++ keys, true).
Proof.
  revert acc. induction keys as [|k keys IH]; intros acc; cbn; [by rewrite app_nil_r|].
  by rewrite IH, <-app_assoc.
Qed.

(** ** The operations of a root *)

Section operations.
Context (a : N) (sc : Scope) (Hsc : scopeOk sc = true).

Lemma Len_represents r X : represents a sc r X → Len r (Some a) sc = inr (Z.of_nat (size X)).
Proof using Hsc.
  intros (keys & Hr & Hk). unfold Len. rewrite (owned a sc r keys Hsc Hr), (holds_size a sc r keys Hr).
  rewrite (holds_values a sc r keys X Hr Hk). unfold rootValues. by rewrite sort_strings_Permutation.
Qed.

Lemma Contains_represents r X v :
  represents a sc r X → Contains r (Some a) sc v = inr (bool_decide (v ∈ X)).
Proof using Hsc.
  intros (keys & Hr & Hk). unfold Contains. rewrite (owned a sc r keys Hsc Hr).
  rewrite <-(bool_decide_ext _ _ (Hk v)). destruct Hr as [|n Hne Hn Hs _|values Hne Hs _]; cbn.
  - by rewrite bool_decide_eq_false_2 by apply not_elem_of_nil.
  - by apply containsNode_spec.
  - rewrite <-BinarySearch_found by done. by destruct values.
Qed.

Lemma Range_represents {S} (visit : S → string → S * bool) r X s :
  represents a sc r X → Range r (Some a) sc visit s = ((walk visit (rootValues X) s).1, None).
Proof using Hsc.
  intros (keys & Hr & Hk). unfold Range. rewrite (owned a sc r keys Hsc Hr).
  rewrite <-(holds_values a sc r keys X Hr Hk).
  destruct Hr as [|n Hne Hn Hs _|values Hne Hs _]; cbn -[rangeFrom]; [done| |].
  - by rewrite rangeNode_walk.
  - destruct values; [done|]. by rewrite rangeFrom_walk.
Qed.

Lemma Values_represents r X : represents a sc r X → Values r (Some a) sc = inr (rootValues X).
Proof using Hsc.
  intros Hr. unfold Values. by rewrite (Len_represents r X Hr), (Range_represents _ r X _ Hr), walk_collect.
Qed.

Lemma represents_empty : represents a sc (EmptyRoot a) ∅.
Proof using. clear Hsc. exists []. split; [constructor|]. intros x. rewrite elem_of_nil. set_solver. Qed.

Lemma represents_tree n X :
  treeOk a n → ksorted (inorder n) → (∀ x, x ∈ inorder n ↔ x ∈ X) → ""%string ∉ X → n ≠ Nil →
  represents a sc (StateRoot (newRootState a sc n)) X.
Proof using. clear Hsc. intros Hn Hs Hk He Hne. exists (inorder n). split; [|done]. constructor; [done|done|done|]. by rewrite Hk. Qed.

Lemma represents_packed values X :
  ksorted values → (∀ x, x ∈ values ↔ x ∈ X) → ""%string ∉ X → values ≠ [] →
  represents a sc (StateRoot (newPackedRootState a sc values)) X.
Proof using. clear Hsc. intros Hs Hk He Hne. exists values. split; [|done]. constructor; [done|done|]. by rewrite Hk. Qed.

Lemma represents_nonempty r X : represents a sc r X → ""%string ∉ X.
Proof using. clear Hsc. intros (keys & [_ He]%holds_sorted & Hk). by rewrite <-Hk. Qed.

Lemma Add_represents r X v :
  represents a sc r X → v ≠ ""%string →
  ∃ r', Add r (Some a) sc v = inr (r', bool_decide (v ∉ X)) ∧ represents a sc r' ({[v]} ∪ X)
    ∧ (v ∈ X → r' = r).
Proof using Hsc.
  intros HX Hv. pose proof HX as (keys & Hr & Hk). pose proof (represents_nonempty r X HX) as He.
  unfold Add. rewrite (owned a sc r keys Hsc Hr), bool_decide_eq_false_2 by done.
  rewrite <-(bool_decide_ext _ _ (not_iff_compat (Hk v))). setoid_rewrite <-Hk.
  assert (""%string ∉ {[v]} ∪ X) as He' by set_solver.
  assert (v ∈ keys → {[v]} ∪ X = X) as Hsame by (rewrite Hk; set_solver).
  assert (∀ x, x ∈ {[v]} ∪ X ↔ x = v ∨ x ∈ keys) as Hin by (intros x; rewrite Hk; set_solver).
  destruct (holds_sorted a sc r keys Hr) as [Hs _].
  assert (packedOf r = [] ∧ treeOk a (nodeOfRoot r) ∧ inorder (nodeOfRoot r) = keys ∨ packedOf r = keys ∧ keys ≠ [])
    as [(-> & Hn & <-)|[-> Hne]] by (destruct Hr; cbn; [left|left|right]; done).
  - destruct (addNode_spec a (nodeOfRoot r) v Hn Hs) as (n' & -> & [Hok Hsort Hkeys _] & _).
    case_bool_decide as Hmem.
    + eexists. split; [done|]. split; [|done]. apply represents_tree; [done|done| |done|].
      * intros x. by rewrite Hkeys, Hin.
      * intros ->. eapply not_elem_of_nil, (Hkeys v). by left.
    + exists r. split; [done|]. split; [by rewrite Hsame|done].
  - pose proof (BinarySearch_found keys v Hs) as Hf. pose proof (search_insert keys v Hs) as Hins.
    destruct keys as [|k0 keys0]; [done|]. set (keys := k0 :: keys0) in *.
    destruct (BinarySearch keys v) as [index found]. cbn [fst snd] in *. rewrite Hf.
    destruct (decide (v ∈ keys)) as [Hmem|Hmem].
    + rewrite bool_decide_eq_true_2, bool_decide_eq_false_2 by naive_solver. exists r. by rewrite Hsame.
    + rewrite bool_decide_eq_false_2, bool_decide_eq_true_2 by done. eexists. split; [done|].
      destruct (Hins Hmem) as [Hs' Hk']. split; [|done]. apply represents_packed; [done| |done|].
      * intros x. by rewrite Hk', Hin.
      * intros E. by apply app_eq_nil in E as [_ ?].
Qed.

Lemma Delete_represents r X v :
  represents a sc r X →
  ∃ r', Delete r (Some a) sc v = inr (r', bool_decide (v ∈ X)) ∧ represents a sc r' (X ∖ {[v]})
    ∧ (v ∉ X → r' = r).
Proof using Hsc.
  intros HX. pose proof HX as (keys & Hr & Hk). pose proof (represents_nonempty r X HX) as He.
  unfold Delete. rewrite (owned a sc r keys Hsc Hr). rewrite <-(bool_decide_ext _ _ (Hk v)). setoid_rewrite <-Hk.
  assert (""%string ∉ X ∖ {[v]}) as He' by set_solver.
  assert (v ∉ keys → X ∖ {[v]} = X) as Hsame by (rewrite Hk; set_solver).
  assert (∀ x, x ∈ X ∖ {[v]} ↔ x ≠ v ∧ x ∈ keys) as Hin by (intros x; rewrite Hk; set_solver).
  assert (∀ keys', (∀ x, x ∈ keys' ↔ x ≠ v ∧ x ∈ keys) → keys' = [] → represents a sc (EmptyRoot a) (X ∖ {[v]}))
    as Hempty.
  { intros keys' Hk' ->. exists []. split; [constructor|]. intros x. by rewrite Hk', Hin. }
  destruct (holds_sorted a sc r keys Hr) as [Hs _].
  assert (packedOf r = [] ∧ treeOk a (nodeOfRoot r) ∧ inorder (nodeOfRoot r) = keys ∨ packedOf r = keys ∧ keys ≠ [])
    as [(-> & Hn & <-)|[-> Hne]] by (destruct Hr; cbn; [left|left|right]; done).
  - destruct (deleteNode_spec a (nodeOfRoot r) v Hn Hs) as (n' & -> & [Hok Hsort Hkeys _] & _).
    case_bool_decide as Hmem; [|exists r; rewrite Hsame by done; by destruct n'].
    destruct n' as [|b k l rr h z]; eexists; (split; [done|]); (split; [|done]); [apply (Hempty [] Hkeys eq_refl)|].
    apply represents_tree; [done|done| |done|done]. intros x. by rewrite Hkeys, Hin.
  - pose proof (BinarySearch_found keys v Hs) as Hf. pose proof (search_remove keys v Hs) as Hrem.
    destruct keys as [|k0 keys0]; [done|]. set (keys := k0 :: keys0) in *.
    destruct (BinarySearch keys v) as [index found]. cbn [fst snd] in *. rewrite Hf.
    case_bool_decide as Hmem; cbn [negb]; [|exists r; by rewrite Hsame].
    destruct (Hrem Hmem) as (Hs' & Hk' & Hlen). destruct (Nat.eqb_spec (length keys) 1) as [E|E];
      eexists; (split; [done|]); (split; [|done]).
    + apply (Hempty _ Hk'), nil_length_inv. lia.
    + apply represents_packed; [done| |done|]. { intros x. by rewrite Hk', Hin. }
      intros E'. apply E. by rewrite <-Hlen, E'.
Qed.

(** The set after assignments. *)
Lemma updateRoot_assigned X (membership : gmap string bool) x :
  x ∈ updateRoot X membership ↔ membership !! x = Some true ∨ x ∈ X ∧ membership !! x ≠ Some false.
Proof using.
  clear Hsc. unfold updateRoot. rewrite elem_of_difference, elem_of_union, !elem_of_dom.
  assert (∀ w, is_Some (filter (λ kv : QueryKey * bool, kv.2 = w) membership !! x) ↔ membership !! x = Some w) as E.
  { intros w. split.
    - intros [w' Hw]. apply map_lookup_filter_Some in Hw as [Hw Heq]. cbn in Heq. by subst.
    - intros Hw. exists w. by apply map_lookup_filter_Some. }
  rewrite !E. destruct (membership !! x) as [[]|]; naive_solver.
Qed.

Lemma updateEach_represents membership r X :
  represents a sc r X → ksorted membership.*1 → Forall (λ kv, kv.1 ≠ ""%string) membership →
  ∃ r' X', updateEach r (Some a) sc membership = inr r' ∧ represents a sc r' X'
    ∧ ∀ x, x ∈ X' ↔ assigned membership (λ x, x ∈ X) x.
Proof using Hsc.
  unfold assigned. revert r X. induction membership as [|[key wanted] rest IH]; intros r X Hr Hm Hne;
    cbn [updateEach]. { exists r, X. split_and!; [done|done|]. intros x. rewrite !elem_of_nil. tauto. }
  cbn [fmap list_fmap fst] in Hm. apply StronglySorted_inv in Hm as [Hm Hk]. apply Forall_cons in Hne as [Hkey Hne].
  assert (∀ w, (key, w) ∉ rest) as Hfresh.
  { intros w Hin. rewrite Forall_forall in Hk. eapply klt_irrefl, (Hk key), list_elem_of_fmap. by exists (key, w). }
  destruct wanted.
  - destruct (Add_represents r X key Hr Hkey) as (r1 & -> & Hr1 & _).
    destruct (IH r1 _ Hr1 Hm Hne) as (r' & X' & -> & Hr' & HX'). exists r', X'. split_and!; [done|done|].
    intros x. rewrite HX', !elem_of_cons, elem_of_union, elem_of_singleton.
    destruct (decide (x = key)) as [->|]; [|naive_solver]. pose proof (Hfresh false). naive_solver.
  - destruct (Delete_represents r X key Hr) as (r1 & -> & Hr1 & _).
    destruct (IH r1 _ Hr1 Hm Hne) as (r' & X' & -> & Hr' & HX'). exists r', X'. split_and!; [done|done|].
    intros x. rewrite HX', !elem_of_cons, elem_of_difference, elem_of_singleton.
    destruct (decide (x = key)) as [->|]; [|naive_solver]. pose proof (Hfresh true). naive_solver.
Qed.

Lemma Update_represents r X (membership : gmap string bool) :
  represents a sc r X → membership !! ""%string = None →
  ∃ r', Update r (Some a) sc membership = inr r' ∧ represents a sc r' (updateRoot X membership).
Proof using Hsc.
  intros HX Hm. pose proof HX as (keys & Hr & Hk). unfold Update. rewrite (owned a sc r keys Hsc Hr).
  rewrite bool_decide_eq_false_2 by (rewrite Hm; intros [? [=]]).
  destruct (sortedMembership_spec membership) as [Hsm Hin]. set (ms := sortedMembership membership) in *.
  assert (∀ Y x, assigned ms Y x ↔ membership !! x = Some true ∨ Y x ∧ membership !! x ≠ Some false) as Has.
  { intros Y x. unfold assigned. by rewrite !Hin. }
  case_bool_decide as Hemp.
  { exists r. split; [done|]. replace (updateRoot X membership) with X; [done|]. apply set_eq. intros x.
    rewrite updateRoot_assigned, Hemp, lookup_empty. naive_solver. }
  destruct (holds_sorted a sc r keys Hr) as [Hs _].
  assert (packedOf r = [] ∨ packedOf r = keys ∧ keys ≠ []) as [->|[Hp Hne]]
    by (destruct Hr; cbn; [left|left|right]; done).
  - destruct (updateEach_represents ms r X HX Hsm) as (r' & X' & -> & Hr' & HX').
    { apply Forall_forall. intros [k w] Hkw. apply Hin in Hkw. cbn. intros ->. congruence. }
    exists r'. split; [done|]. replace (updateRoot X membership) with X'; [done|]. apply set_eq. intros x.
    by rewrite updateRoot_assigned, HX', Has.
  - rewrite Hp. replace (match keys with [] => _ | _ => _ end) with (inr (updatePacked r a sc ms) : SetErr + Root)
      by (by destruct keys). eexists. split; [done|]. unfold updatePacked. rewrite Hp, packedCounts_spec by done.
    destruct (packedMerge_spec keys ms Hs Hsm) as [Hsorted Hmerge].
    assert (∀ x, x ∈ packedMerge keys ms ↔ x ∈ updateRoot X membership) as Hres.
    { intros x. by rewrite Hmerge, Has, updateRoot_assigned, Hk. }
    destruct (existsb _ ms) eqn:Ech; cbn [negb].
    + destruct (Z.eqb_spec (Z.of_nat (length (packedMerge keys ms))) 0) as [E|E].
      * exists []. split; [constructor|]. intros x. rewrite <-Hres. by rewrite (nil_length_inv (packedMerge keys ms)) by lia.
      * apply represents_packed; [done|done| |intros E'; by rewrite E' in E].
        intros [Hb|[Hb _]]%updateRoot_assigned; [by pose proof (eq_trans (eq_sym Hm) Hb)|]. by apply (represents_nonempty r X HX).
    + replace (updateRoot X membership) with X; [done|]. apply set_eq. intros x.
      rewrite <-Hres, Hmerge, <-Hk. unfold assigned. apply not_true_iff_false in Ech.
      assert (∀ w, (x, w) ∈ ms → bool_decide (x ∈ keys) = w) as Hw.
      { intros w Hxw. apply eqb_prop. destruct (eqb _ w) eqn:Eb; [done|]. destruct Ech. apply existsb_exists.
        exists (x, w). split; [by apply list_elem_of_In|]. by rewrite Eb. }
      split; [|intros [Ht|[? _]]; [exact (bool_decide_eq_true_1 _ (Hw true Ht))|done]].
      intros Hx. right. split; [done|]. intros Hf. by apply (bool_decide_eq_false_1 _ (Hw false Hf)).
Qed.

(** ** Building *)

Lemma strictlyIncreasing_spec values previous :
  strictlyIncreasing previous values = None ↔
  ksorted values ∧ (""%string ∉ values) ∧ ∀ p x, previous = Some p → x ∈ values → klt p x.
Proof using.
  clear Hsc. revert previous. induction values as [|v values IH]; intros previous; cbn [strictlyIncreasing].
  { split; [|done]. intros _. split_and!; [constructor|apply not_elem_of_nil|]. intros p x _ Hx. by apply not_elem_of_nil in Hx. }
  setoid_rewrite elem_of_cons. case_bool_decide as Hv; [naive_solver|].
  assert ((match previous with Some p => negb (bool_decide (klt p v)) | None => false end = false) ↔
          ∀ p, previous = Some p → klt p v) as Hp.
  { destruct previous as [p|]; [|naive_solver]. rewrite negb_false_iff, bool_decide_eq_true. naive_solver. }
  destruct (match previous with Some p => negb (bool_decide (klt p v)) | None => false end) eqn:E.
  { split; [done|]. intros (_ & _ & H). enough (true = false) by done. apply Hp. intros p ->. apply (H p v); auto. }
  rewrite IH. pose proof (proj1 Hp eq_refl) as Hp'. clear Hp E. split.
  - intros (Hs & He & Hv'). split_and!; [| naive_solver|].
    + constructor; [done|]. apply Forall_forall. intros x Hx. by apply (Hv' v x).
    + intros p x -> [->|Hx]; [by apply Hp'|]. transitivity v; [by apply Hp'|by apply (Hv' v x)].
  - intros (Hs & He & Hall). apply StronglySorted_inv in Hs as [Hs Hx]. rewrite Forall_forall in Hx.
    split_and!; [done|tauto|]. intros p x [= ->] Hx'. by apply Hx.
Qed.
End operations.

(** ** Ordered sets: histories of operations

    A root made by one of the package's constructors and changed by any sequence
    of operations: it keeps its representation, serves only its authority and
    scope, and answers what a finite set answers. *)

(** ** Histories *)

(** How a root is made. *)
Inductive source :=
| FromEmpty
| FromSorted (values : list string)
| FromPacked (values : list string).

Definition sourceValues (src : source) : list string :=
  match src with FromEmpty => [] | FromSorted values | FromPacked values => values end.

Definition build (authority : Authority) (sc : Scope) (src : source) : SetErr + Root :=
  match src with
  | FromEmpty => inr (Empty authority)
  | FromSorted values => BuildSorted authority sc values
  | FromPacked values => BuildPackedSorted authority sc values
  end.

Inductive setOp :=
| OpAdd (value : string)
| OpDelete (value : string)
| OpUpdate (membership : gmap string bool).

(** An operation that fails leaves its caller with the root it had. *)
Definition runOp (authority : Authority) (sc : Scope) (r : Root) (op : setOp) : Root * (SetErr + option bool) :=
  match op with
  | OpAdd value =>
      match Add r authority sc value with inl err => (r, inl err) | inr (r, changed) => (r, inr (Some changed)) end
  | OpDelete value =>
      match Delete r authority sc value with inl err => (r, inl err) | inr (r, changed) => (r, inr (Some changed)) end
  | OpUpdate membership =>
      match Update r authority sc membership with inl err => (r, inl err) | inr r => (r, inr None) end
  end.

(** The same operation on a finite set. *)
Definition specOp (X : gset string) (op : setOp) : gset string * (SetErr + option bool) :=
  match op with
  | OpAdd value =>
      if bool_decide (value = ""%string) then (X, inl ErrEmptyValue)
      else ({[value]} ∪ X, inr (Some (bool_decide (value ∉ X))))
  | OpDelete value => (X ∖ {[value]}, inr (Some (bool_decide (value ∈ X))))
  | OpUpdate membership =>
      if bool_decide (is_Some (membership !! ""%string)) then (X, inl ErrEmptyValue)
      else (updateRoot X membership, inr None)
  end.

Section history.
Context {S : Type} (step : S → setOp → S * (SetErr + option bool)).

Fixpoint history (s : S) (ops : list setOp) : S * list (SetErr + option bool) :=
  match ops with
  | [] => (s, [])
  | op :: ops =>
      let '(s, out) := step s op in
      let '(s, outs) := history s ops in (s, out :: outs)
  end.
End history.

(** ** The representation along a history *)

Section histories.
Context (a : N) (sc : Scope) (Hsc : scopeOk sc = true).

Lemma build_represents src :
  match build (Some a) sc src with
  | inl _ => ¬ (ksorted (sourceValues src) ∧ (""%string ∉ sourceValues src))
  | inr r => represents a sc r (list_to_set (sourceValues src))
  end.
Proof using Hsc.
  destruct src as [|values|values]; cbn [build sourceValues]; [apply represents_empty|..];
    unfold BuildSorted, BuildPackedSorted, validateSortedBuild; rewrite Hsc; cbn [negb];
    pose proof (strictlyIncreasing_spec values None) as Hspec;
    (destruct (strictlyIncreasing None values) as [err|];
      [intros [Hs He]; by enough (Some err = None) by done; apply Hspec|]);
    destruct (proj1 Hspec eq_refl) as (Hs & He & _);
    (destruct values as [|v values]; [apply represents_empty|set (vs := v :: values) in *]).
  - destruct (buildSortedNode_spec a (length vs) vs (le_n _)) as (Hi & Hok & _).
    apply represents_tree; rewrite ?Hi; try done; [|by rewrite elem_of_list_to_set|].
    + intros x. by rewrite elem_of_list_to_set.
    + intros E. by rewrite E in Hi.
  - apply represents_packed; [done| |by rewrite elem_of_list_to_set|done]. intros x. by rewrite elem_of_list_to_set.
Qed.

Lemma runOp_represents r X op :
  represents a sc r X →
  represents a sc (runOp (Some a) sc r op).1 (specOp X op).1
  ∧ (runOp (Some a) sc r op).2 = (specOp X op).2.
Proof using Hsc.
  intros Hr. pose proof Hr as (keys & Hh & _). destruct op as [v|v|m]; cbn [runOp specOp].
  - case_bool_decide as Hv; [subst v; unfold Add; by rewrite (owned a sc r keys Hsc Hh)|].
    by destruct (Add_represents a sc Hsc r X v Hr Hv) as (r' & -> & ? & _).
  - by destruct (Delete_represents a sc Hsc r X v Hr) as (r' & -> & ? & _).
  - case_bool_decide as Hm.
    + unfold Update. rewrite (owned a sc r keys Hsc Hh). by rewrite bool_decide_eq_true_2.
    + destruct (Update_represents a sc Hsc r X m Hr) as (r' & -> & ?); [|done]. by apply eq_None_not_Some.
Qed.

Lemma history_represents ops r X :
  represents a sc r X →
  represents a sc (history (runOp (Some a) sc) r ops).1 (history specOp X ops).1
  ∧ (history (runOp (Some a) sc) r ops).2 = (history specOp X ops).2.
Proof using Hsc.
  revert r X. induction ops as [|op ops IH]; intros r X Hr; cbn [history]; [done|].
  destruct (runOp_represents r X op Hr) as [Hr' Hout].
  destruct (runOp (Some a) sc r op) as [r1 out], (specOp X op) as [X1 out']. cbn [fst snd] in *. subst out'.
  destruct (IH r1 X1 Hr') as [Hend Houts].
  destruct (history (runOp (Some a) sc) r1 ops), (history specOp X1 ops). cbn [fst snd] in *. by subst.
Qed.
End histories.

Lemma tree_logarithmic a n :
  treeOk a n → 2 ^ nodeHeight n <= (Z.of_nat (length (inorder n)) + 1) ^ 2.
Proof.
  induction n as [|b k l IHl r IHr h z]; [done|]. intros (Hl & Hr & _ & -> & _ & Hd). cbn [nodeHeight inorder].
  rewrite length_app, length_cons.
  replace (Z.of_nat (length (inorder l) + S (length (inorder r))) + 1)
    with ((Z.of_nat (length (inorder l)) + 1) + (Z.of_nat (length (inorder r)) + 1)) by lia.
  apply balanced_depth_step; [by apply (treeOk_height a)|by apply (treeOk_height a)|done|lia|lia|auto|auto].
Qed.

(** The representation of a root of an authority and scope. *)
Definition rootWf (a : N) (sc : Scope) (r : Root) : Prop :=
  match r with
  | ZeroRoot => False
  | EmptyRoot b => b = a
  | StateRoot s =>
      state_authority s = a ∧ state_scope s = sc ∧ 0 < state_size s
      ∧ match state_node s with
        | Nil => ksorted (state_packed s) ∧ (""%string ∉ state_packed s)
                 ∧ state_size s = Z.of_nat (length (state_packed s))
        | n => state_packed s = [] ∧ treeOk a n ∧ ksorted (inorder n) ∧ (""%string ∉ inorder n)
               ∧ state_size s = Z.of_nat (length (inorder n)) ∧ 2 ^ nodeHeight n <= (state_size s + 1) ^ 2
        end
  end.

Lemma holds_wf a sc r keys : holds a sc r keys → rootWf a sc r.
Proof.
  intros [|n Hne Hn Hs He|values Hne Hs He]; [done|..]; cbn.
  - pose proof (treeOk_size a n Hn) as Hz. pose proof (tree_logarithmic a n Hn) as Hlog.
    assert (inorder n ≠ []) as Hi by (intros E; by apply Hne, inorder_nil).
    assert (0 < Z.of_nat (length (inorder n))) by (destruct (inorder n); cbn [length]; [done|lia]).
    rewrite <-Hz in *. by destruct n.
  - split_and!; try done. destruct values; [done|]. cbn [length]. lia.
Qed.

(** Every operation of the root with this authority and scope fails this way. *)
Definition refuses (r : Root) (authority : Authority) (sc : Scope) (err : SetErr) : Prop :=
  Len r authority sc = inl err ∧ Values r authority sc = inl err
  ∧ (∀ value, Contains r authority sc value = inl err ∧ Add r authority sc value = inl err
              ∧ Delete r authority sc value = inl err)
  ∧ (∀ membership, Update r authority sc membership = inl err)
  ∧ ∀ (visit : list string → string → list string * bool) s, Range r authority sc visit s = (s, Some err).

Lemma not_owned_refuses r authority sc err : ValidateOwnership r authority sc = inl err → refuses r authority sc err.
Proof. intros E. unfold refuses, Values, Len, Contains, Add, Delete, Update, Range. rewrite E. by split_and!. Qed.

(** ** The claims *)

(** C39: a root made by a constructor of the package for an authority and scope,
    after any sequence of operations, has the package's representation: the
    authority's empty root, or a strictly sorted packed slice with its length, or
    a tree whose nodes all belong to the authority, carry their exact heights and
    sizes, are balanced and sorted, with a height at most twice the logarithm of
    the size. Every operation called on it with another authority, an invalid
    scope, or, when it has elements, another scope is refused with that error. *)
Theorem ordered_set_typed a sc src ops r :
  scopeOk sc = true → build (Some a) sc src = inr r →
  let r' := (history (runOp (Some a) sc) r ops).1 in
  rootWf a sc r'
  ∧ (∀ b sc', b ≠ Some a → refuses r' b sc' ErrProvenance)
  ∧ (∀ sc', scopeOk sc' = false ∨ sizeOf r' ≠ 0 ∧ sc' ≠ sc → refuses r' (Some a) sc' ErrOtherScope).
Proof.
  intros Hsc Hb r'. pose proof (build_represents a sc Hsc src) as Hr. rewrite Hb in Hr.
  destruct (history_represents a sc Hsc ops r _ Hr) as [(keys & Hh & _) _]. fold r' in Hh. split_and!.
  - by eapply holds_wf.
  - intros b sc' Hne. apply not_owned_refuses. by eapply foreign_authority.
  - intros sc' Hother. apply not_owned_refuses. apply (foreign_scope a sc r' keys sc' Hsc Hh).
    rewrite (holds_size a sc r' keys Hh) in Hother. destruct Hother as [?|[Hne ?]]; [by left|right].
    split; [|done]. by intros ->.
Qed.

Definition exampleScope : Scope := mkScope 2 "queries".
Definition exampleOps : list setOp :=
  [OpAdd "b"; OpAdd "a"; OpAdd ""; OpDelete "c"; OpUpdate {["b" := false; "d" := true; "e" := true]}; OpDelete "d"]%string.

Definition exampleRoot : Root :=
  match build (Some 1%N) exampleScope (FromPacked ["c"; "f"]%string) with inr r => r | inl _ => ZeroRoot end.

Lemma ordered_set_typed_witness :
  rootWf 1 exampleScope (history (runOp (Some 1%N) exampleScope) exampleRoot exampleOps).1
  ∧ refuses (history (runOp (Some 1%N) exampleScope) exampleRoot exampleOps).1 (Some 2%N) exampleScope ErrProvenance
  ∧ refuses (history (runOp (Some 1%N) exampleScope) exampleRoot exampleOps).1 (Some 1%N) (mkScope 2 "other")
      ErrOtherScope.
Proof.
  destruct (ordered_set_typed 1 exampleScope (FromPacked ["c"; "f"]%string) exampleOps exampleRoot) as (Hwf & Ha & Hs);
    [reflexivity|reflexivity|]. split; [exact Hwf|]. split; [by apply Ha|]. apply Hs. right.
  split; vm_compute; discriminate.
Defined.

(** C14: a root made by a constructor of the package and any sequence of additions,
    deletions and batched updates on it is a finite set of strings: construction
    succeeds exactly on strictly increasing non-empty values; each operation
    reports the error or the change that the same operation on the set reports;
    afterwards the length is the set's size, the values are its elements in byte
    order, membership is the set's, and a walk visits the elements in order until
    the visitor stops. *)
Theorem ordered_set_refines a sc src ops :
  scopeOk sc = true →
  match build (Some a) sc src with
  | inl _ => ¬ (ksorted (sourceValues src) ∧ (""%string ∉ sourceValues src))
  | inr r =>
      let '(r', outs) := history (runOp (Some a) sc) r ops in
      let '(X', outs') := history specOp (list_to_set (sourceValues src)) ops in
      outs = outs' ∧ Len r' (Some a) sc = inr (Z.of_nat (size X'))
      ∧ Values r' (Some a) sc = inr (rootValues X')
      ∧ (∀ value, Contains r' (Some a) sc value = inr (bool_decide (value ∈ X')))
      ∧ ∀ (S : Type) (visit : S → string → S * bool) s,
          Range r' (Some a) sc visit s = ((walk visit (rootValues X') s).1, None)
  end.
Proof.
  intros Hsc. pose proof (build_represents a sc Hsc src) as Hr.
  destruct (build (Some a) sc src) as [err|r]; [done|].
  destruct (history_represents a sc Hsc ops r _ Hr) as [Hend Houts].
  destruct (history (runOp (Some a) sc) r ops) as [r' outs], (history specOp _ ops) as [X' outs'].
  cbn [fst snd] in *. split_and!; [done|by apply Len_represents|by apply Values_represents|..].
  - intros value. by apply Contains_represents.
  - intros S visit s. by apply Range_represents.
Qed.

Lemma ordered_set_refines_witness :
  let r' := (history (runOp (Some 1%N) exampleScope) exampleRoot exampleOps).1 in
  (history (runOp (Some 1%N) exampleScope) exampleRoot exampleOps).2
    = [inr (Some true); inr (Some true); inl ErrEmptyValue; inr (Some true); inr None; inr (Some true)]
  ∧ Values r' (Some 1%N) exampleScope = inr ["a"; "e"; "f"]%string
  ∧ Len r' (Some 1%N) exampleScope = inr 3.
Proof.
  cbv zeta. split; [vm_compute; reflexivity|]. split; [vm_compute; reflexivity|].
  pose proof (ordered_set_refines 1 exampleScope (FromPacked ["c"; "f"]%string) exampleOps eq_refl) as H.
  assert (build (Some 1%N) exampleScope (FromPacked ["c"; "f"]%string) = inr exampleRoot) as E by reflexivity.
  rewrite E in H. destruct (history (runOp (Some 1%N) exampleScope) exampleRoot exampleOps) as [r' outs].
  destruct (history specOp _ exampleOps) as [X' outs'] eqn:E'. destruct H as (_ & Hl & _). cbn [fst]. rewrite Hl.
  apply (f_equal fst) in E'. cbn [fst] in E'. rewrite <-E'. vm_compute. reflexivity.
Defined.
