(* ===== verification/Threads.v ===== *)
(** * Threads over a shared state

    A goroutine is a program of atomic sections: what it does while it holds a
    mutex, one send or receive on a channel, one published event. A section may
    have several outcomes, as a [select] has, or none, when it blocks. Programs
    of different goroutines interleave at the section boundaries.

    [runs] is the proof rule for one program among others: between two sections
    the others may do anything the relation [Rely] allows, and every section
    keeps the shared invariant, stays within [Guar] and blocks only where
    [Blocked] holds. *)

From Stdlib Require Import Lia.
From stdpp Require Import base list.
From S2P Require Import Prelude.

Inductive prog (St A : Type) : Type :=
| Ret (a : A)
| Atomic {B : Type} (section : St → list (B * St)) (k : B → prog St A).
Arguments Ret {St A} a.
Arguments Atomic {St A B} section k.

Section programs.
Context {St : Type}.

#[export] Instance prog_ret : MRet (prog St) := λ A a, Ret a.

#[export] Instance prog_bind : MBind (prog St) := λ A B k,
  fix bind p := match p with Ret a => k a | Atomic f h => Atomic f (λ b, bind (h b)) end.

(** A critical section with one outcome. *)
Definition locked {B} (f : St → B * St) : prog St B := Atomic (λ s, [f s]) Ret.

Definition update (f : St → St) : prog St unit := locked (λ s, (tt, f s)).

Definition reading {B} (f : St → B) : prog St B := locked (λ s, (f s, s)).

(** One step of a program: its next section with the outcome [i]. *)
Definition advance {A} (p : prog St A) (i : nat) (s : St) : option (prog St A * St) :=
  match p with
  | Ret _ => None
  | Atomic f k => match f s !! i with Some (b, s') => Some (k b, s') | None => None end
  end.

Definition finished {A} (p : prog St A) : option A := match p with Ret a => Some a | Atomic _ _ => None end.
End programs.

(** ** Reasoning about one program among others *)

Section logic.
Context {St : Type} (Inv : St → Prop) (Rely Guar : St → St → Prop) (Blocked : St → Prop).
Context `{!PreOrder Rely}.

Fixpoint runs {A} (p : prog St A) (Q : A → St → Prop) (s : St) : Prop :=
  ∀ s1, Rely s s1 → Inv s1 →
  match p with
  | Ret a => Q a s1
  | Atomic f k =>
      (f s1 = [] → Blocked s1)
      ∧ ∀ b s2, (b, s2) ∈ f s1 → Inv s2 ∧ Guar s1 s2 ∧ runs (k b) Q s2
  end.

(** What a program relies on may happen before it goes on. *)
Lemma runs_rely {A} (p : prog St A) Q s s' : runs p Q s → Rely s s' → runs p Q s'.
Proof using All. destruct p; cbn; intros Hp Hr s1 Hr' Hi; exact (Hp s1 (transitivity Hr Hr') Hi). Qed.

Lemma runs_ret {A} (a : A) Q s : (∀ s1, Rely s s1 → Inv s1 → Q a s1) → runs (Ret a) Q s.
Proof using. done. Qed.

Lemma runs_mono {A} (p : prog St A) Q Q' s :
  (∀ a s, Inv s → Q a s → Q' a s) → runs p Q s → runs p Q' s.
Proof using.
  intros HQ. revert s. induction p as [a|B f k IH]; cbn; intros s Hp s1 Hr Hi; [by apply HQ, Hp|].
  destruct (Hp s1 Hr Hi) as [Hb Hk]. split; [done|]. intros b s2 Hin. destruct (Hk b s2 Hin) as (? & ? & ?).
  split_and!; [done|done|]. by apply IH.
Qed.

Lemma runs_bind {A B} (p : prog St A) (k : A → prog St B) Q s :
  runs p (λ a s1, runs (k a) Q s1) s → runs (mbind k p) Q s.
Proof using All.
  revert s. induction p as [a|C f h IH]; intros s Hp.
  - cbn in Hp |- *. destruct (k a) eqn:E; cbn; intros s1 Hr Hi; specialize (Hp s1 Hr Hi); rewrite ?E in Hp;
      cbn in Hp; by apply Hp.
  - cbn in Hp |- *. intros s1 Hr Hi. destruct (Hp s1 Hr Hi) as [Hb Hk]. split; [done|]. intros b s2 Hin.
    destruct (Hk b s2 Hin) as (? & ? & ?). split_and!; [done|done|]. by apply IH.
Qed.

Lemma runs_locked {A B} (f : St → B * St) (k : B → prog St A) Q s :
  (∀ s1, Rely s s1 → Inv s1 → Inv (f s1).2 ∧ Guar s1 (f s1).2 ∧ runs (k (f s1).1) Q (f s1).2) →
  runs (mbind k (locked f)) Q s.
Proof using.
  intros Hf. cbn. intros s1 Hr Hi. destruct (Hf s1 Hr Hi) as (? & ? & ?). split; [done|].
  intros b s2 Hin. apply list_elem_of_singleton in Hin. rewrite (surjective_pairing (f s1)) in Hin.
  injection Hin as -> ->. done.
Qed.

(** One step of a program that runs keeps the invariant and runs on. *)
Lemma runs_advance {A} (p p' : prog St A) Q i s s' :
  Inv s → runs p Q s → advance p i s = Some (p', s') → Inv s' ∧ Guar s s' ∧ runs p' Q s'.
Proof using All.
  destruct p as [a|B f k]; cbn; [done|]. intros Hi Hp. destruct (Hp s (reflexivity s) Hi) as [_ Hk].
  destruct (f s !! i) as [[b s2]|] eqn:E; [|done]. intros [= <- <-]. by apply Hk, (list_elem_of_lookup_2 _ i).
Qed.

Lemma runs_finished {A} (p : prog St A) Q a s : Inv s → runs p Q s → finished p = Some a → Q a s.
Proof using All. destruct p; cbn; [|done]. intros Hi Hp [= ->]. by apply Hp. Qed.

(** A program that cannot go on is blocked where it may be. *)
Lemma runs_blocked {A} (p : prog St A) Q s :
  Inv s → runs p Q s → finished p = None → (∀ i, advance p i s = None) → Blocked s.
Proof using All.
  destruct p as [a|B f k]; cbn; [done|]. intros Hi Hp _ Hno. destruct (Hp s (reflexivity s) Hi) as [Hb _].
  apply Hb. destruct (f s) as [|[b s2] l] eqn:E; [done|]. by specialize (Hno 0).
Qed.
End logic.
