(* ===== verification/SchedState.v ===== *)
(** * The deployment scheduler's data and state

    First what the scheduler compares, then its own state. What it compares: render occurrences
    ([src/pkg/controller/deployer/output_identity.go],
    [src/pkg/controller/rendercycle/occurrence.go]), the endpoint sets it deploys
    to and their hash ([scheduler.go], [fleet_capabilities.go]), HAProxy versions
    ([src/pkg/dataplane/version.go]) and the coalescing of queued events
    ([src/pkg/controller/coalesce]). *)

From Stdlib Require Import ZArith Ascii Lia.
From stdpp Require Import base strings option sorting list list_numbers.
From S2P Require Import Prelude GoStd CliExec CliInventory.

Open Scope string_scope.
Open Scope list_scope.
Open Scope Z_scope.

(** ** Render occurrences *)

(** An occurrence is immutable: its address, whether its seals authenticate it,
    whether all that [inspectOccurrence] reads of it is there and agrees, whether
    an event can be made of it, and its plan, checksum and output root. *)
Record Occurrence := mkOccurrence {
  occ_address : N;
  occ_authentic : bool;
  occ_consistent : bool;
  occ_complete : bool;
  occ_planID : string;
  occ_checksum : string;
  occ_output : N }.

#[export] Instance Occurrence_eq_dec : EqDecision Occurrence.
Proof. solve_decision. Defined.

Definition inspectOccurrence (occurrence : option Occurrence) : option Occurrence :=
  match occurrence with
  | None => None
  | Some o => if occ_authentic o && occ_consistent o then Some o else None
  end.

(** [eventOccurrence]: the occurrence an event carries, if it authenticates. *)
Definition eventOccurrence (occurrence : option Occurrence) : option Occurrence :=
  match occurrence with
  | None => None
  | Some o => if occ_authentic o then Some o else None
  end.

Definition sameOccurrence (left right : option Occurrence) : bool :=
  match left, right with
  | Some l, Some r => occ_authentic l && occ_authentic r && (occ_address l =? occ_address r)%N
  | _, _ => false
  end.

Definition samePlan (left right : option Occurrence) : bool :=
  match inspectOccurrence left, inspectOccurrence right with
  | Some l, Some r => bool_decide (occ_planID l = occ_planID r) && bool_decide (occ_checksum l = occ_checksum r)
  | _, _ => false
  end.

Definition sameOccurrenceOutput (left right : option Occurrence) : bool :=
  match inspectOccurrence left, inspectOccurrence right with
  | Some l, Some r => (occ_output l =? occ_output r)%N
  | _, _ => false
  end.

(** ** Endpoints *)

Record Endpoint := mkEndpoint {
  URL : string;
  Username : string;
  Password : string;
  PodName : string;
  PodNamespace : string;
  PodUID : string;
  PodRuntimeID : string;
  DetectedMajorVersion : Z;
  DetectedMinorVersion : Z;
  DetectedFullVersion : string }.

(** [binary.BigEndian.PutUint64]. *)
Definition bigEndian64 (n : Z) : string :=
  bytes (map (λ i, Z.to_N (Z.land (Z.shiftr n (8 * i)) 255)) [7; 6; 5; 4; 3; 2; 1; 0]).

(** What is hashed of an endpoint: its values, each after its length. *)
Definition endpointAuthority (e : Endpoint) : string :=
  foldr (λ value rest, bigEndian64 (Z.of_nat (String.length value)) +:+ value +:+ rest) ""
    [URL e; Username e; Password e; PodName e; PodNamespace e; PodUID e; PodRuntimeID e;
     itoa (DetectedMajorVersion e); itoa (DetectedMinorVersion e); DetectedFullVersion e].

Section hashes.
(** The keyed hash of an endpoint, and SHA-256 in hexadecimal. *)
Context (hmac sha256 : string → string).

Definition hashEndpointAuthority (e : Endpoint) : string := hmac (endpointAuthority e).

Definition computePodSetHash (endpoints : list Endpoint) : string :=
  sha256 (foldr String.append "" (sort_strings (map hashEndpointAuthority endpoints))).

Lemma computePodSetHash_order endpoints endpoints' :
  endpoints ≡ₚ endpoints' → computePodSetHash endpoints = computePodSetHash endpoints'.
Proof using. intros Hp. unfold computePodSetHash. do 2 f_equal. apply sort_strings_eq. by apply Permutation_map. Qed.
End hashes.

(** ** HAProxy versions *)

Record Version := mkVersion {
  Version_Major : Z;
  Version_Minor : Z;
  Version_Patch : Z;
  Version_Full : string }.

Definition versionCompare (v other : Version) : Z :=
  if negb (Version_Major v =? Version_Major other) then
    if Version_Major v <? Version_Major other then -1 else 1
  else if negb (Version_Minor v =? Version_Minor other) then
    if Version_Minor v <? Version_Minor other then -1 else 1
  else 0.

(** [strconv.Atoi]: an optional sign and digits, within an int. *)
Definition atoi (s : string) : option Z :=
  let digits (neg : bool) (r : string) :=
    if bool_decide (r ≠ "") && forallb isDigit (chars r) then
      let n := if neg then - decimalValue 0 r else decimalValue 0 r in
      if (- 2 ^ 63 <=? n) && (n <? 2 ^ 63) then Some n else None
    else None in
  match s with
  | String c r => if Ascii.eqb c "-" then digits true r else if Ascii.eqb c "+" then digits false r else digits false s
  | EmptyString => None
  end.

(** The minor segment without an enterprise revision, which must be a number. *)
Definition minorSegment (segment : string) : option string :=
  match cutFound "r" segment with
  | Some (base, revision) =>
      match splitN 2 "-" revision with
      | number :: _ => match atoi number with Some _ => Some base | None => None end
      | [] => None
      end
  | None => Some segment
  end.

Definition parseVersion (version : string) : option Version :=
  match fields version with
  | [] => None
  | part :: _ =>
      match split "." (trimPrefix part "v") with
      | majorSegment :: minorPart :: rest =>
          match atoi majorSegment, minorSegment minorPart ≫= atoi with
          | Some major, Some minor =>
              let patch :=
                match rest with
                | patchSegment :: _ => default 0 (atoi (cut "-" patchSegment).1)
                | [] => 0
                end in
              Some (mkVersion major minor patch version)
          | _, _ => None
          end
      | _ => None
      end
  end.

Definition MinimumVersion (versions : list string) : option Version :=
  foldl (λ lowest raw,
    match parseVersion raw with
    | None => lowest
    | Some parsed =>
        match lowest with
        | None => Some parsed
        | Some l => if versionCompare parsed l <? 0 then Some parsed else lowest
        end
    end) None versions.

Definition fleetVersions (endpoints : list Endpoint) : list string :=
  filter (λ version, version ≠ "") (map DetectedFullVersion endpoints).

Example versions_run :
  parseVersion "v3.2.6-dev 87ad0bcf" = Some (mkVersion 3 2 6 "v3.2.6-dev 87ad0bcf")
  ∧ parseVersion "3.0r1-2" = Some (mkVersion 3 0 0 "3.0r1-2") ∧ parseVersion "three.2" = None
  ∧ option_map Version_Full (MinimumVersion ["3.3.1"; "x"; "3.2.9"; "3.2.1"]) = Some "3.2.9".
Proof. by vm_compute. Qed.

(** ** Coalescing queued events *)

(** [drainLatest]: what is delivered of the events that are queued. [joins] is
    whether an event belongs to a run, [latest] the one held back. *)
Section drain.
Context {A : Type} (joins : A → bool).

Fixpoint drainLatest (latest : option A) (queued : list A) : list A :=
  match queued with
  | [] => option_list latest
  | event :: rest =>
      if joins event then drainLatest (Some event) rest
      else option_list latest ++ event :: drainLatest None rest
  end.

(** Nothing is reordered or made up, what does not join a run is delivered, and
    so is the last event. *)
Lemma drainLatest_spec queued latest :
  (∀ e, latest = Some e → joins e = true) →
  drainLatest latest queued `sublist_of` option_list latest ++ queued
  ∧ filter (λ e, joins e = false) (drainLatest latest queued) = filter (λ e, joins e = false) queued
  ∧ last (drainLatest latest queued) = last (option_list latest ++ queued).
Proof using.
  revert latest. induction queued as [|event rest IH]; intros latest Hl; cbn [drainLatest];
    assert (filter (λ e, joins e = false) (option_list latest) = []) as Hf
      by (destruct latest as [e|]; [|done]; change (option_list (Some e)) with [e]; rewrite filter_cons_False; [done|]; by rewrite (Hl e)).
  { by rewrite app_nil_r. }
  destruct (joins event) eqn:Ej.
  - destruct (IH (Some event)) as (Hs & Hfl & Hlast); [naive_solver|].
    change (option_list (Some event) ++ rest) with (event :: rest) in *. split_and!.
    + etrans; [exact Hs|]. by apply sublist_inserts_l.
    + rewrite Hfl, filter_cons_False; [done|]. by rewrite Ej.
    + rewrite Hlast, last_app. destruct (last (event :: rest)) eqn:E; [done|by apply last_None in E].
  - destruct (IH None) as (Hs & Hfl & Hlast); [done|]. cbn [option_list app] in *. split_and!.
    + apply sublist_app; [done|]. by apply sublist_skip.
    + rewrite filter_app, !filter_cons_True by done. by rewrite Hf, Hfl.
    + rewrite !last_app, !last_cons, Hlast. done.
Qed.
End drain.

(** ** The deployment scheduler's state

    The fields of [DeploymentScheduler] and [schedulerState]
    ([src/pkg/controller/deployer/scheduler.go]) by the mutex that guards them,
    the channels and timers it shares between goroutines, and a record of what
    happened, newest first, that the properties speak of. *)

(** ** What is handed around *)

Record scheduledDeployment := mkScheduledDeployment {
  dep_workRevision : Z;
  dep_retryGeneration : Z;
  dep_occurrence : Occurrence;
  dep_endpoints : list Endpoint;
  dep_reason : string;
  dep_correlationID : string;
  dep_coalescible : bool }.

(** A [time.AfterFunc] that has not fired: its callback is [runRetry] with these
    arguments. *)
Record Timer := mkTimer {
  timer_id : N;
  timer_generation : Z;
  timer_workRevision : Z;
  timer_reason : string }.

(** What is published on the event bus or handed to another component. *)
Inductive Published :=
| DeploymentScheduled (id : N) (occurrence : Occurrence) (endpoints : list Endpoint)
    (runtimeConfigName runtimeConfigNamespace reason correlationID : string) (coalescible : bool)
| DeploymentCancelRequest (id : N) (reason : string)
| ReconciliationTriggered (reason : string)
| DeploymentSkipped (occurrence : Occurrence) (total : Z) (podSetHash correlationID : string)
| RetainedConfig (reason message : string)
| SetValidatedOccurrence (occurrence : Occurrence)
| SetCapabilities (version : Version).

(** Where the deployment slot stands: free, claimed by a deployment that is or is
    not published yet, lost with the leadership by such a one, acknowledged by its
    completion, or about to be freed. *)
Inductive Slot :=
| SlotFree
| SlotClaimed (id : N) (published : bool)
| SlotLost (id : N) (published : bool)
| SlotAcknowledged (id : N)
| SlotSignalled (id : N).

(** What happened: a term began, an event was published, a deployment claimed
    the slot with its revision and the newest one, its completion was accepted, a
    render arrived and was held or not, a render was promoted, the gate passed a
    plan and opened or not, the gate refused a plan, a failed deployment got a
    retry, a follow-up was armed, the budget was reset, the state of the term was
    reset, a retained configuration was recovered. *)
Inductive Happened :=
| HTerm
| HPublished (event : Published)
| HClaimed (id : N) (occurrence : Occurrence) (revision newest : Z)
| HAccepted (id : N)
| HRendered (occurrence : Occurrence) (held : bool)
| HPromoted (occurrence : Occurrence)
| HPassed (occurrence : Occurrence) (opened : bool)
| HRefused (occurrence : Occurrence)
| HRetry (occurrence : Occurrence) (attempt wait : Z)
| HFollowUp (wait : Z)
| HRetryReset
| HReset
| HRecovered (occurrence : Occurrence).

(** ** The state *)

(** The renders, under [mu]. *)
Record Renders := mkRenders {
  lastRenderedOccurrence : option Occurrence;
  lastValidatedOccurrence : option Occurrence;
  lastCorrelationID : string;
  lastCoalescible : bool;
  currentEndpoints : list Endpoint;
  runtimeConfigName : string;
  runtimeConfigNamespace : string;
  templateConfigName : string;
  templateConfigNamespace : string;
  gatePinned : bool;
  acceptedRender : option (option Occurrence * string);
  lastDeployedOccurrence : option Occurrence;
  lastDeployedPodSetHash : string;
  lastDeployedTime : option Z;
  lastDispatchedOccurrence : option Occurrence;
  lastFleetVersion : string }.

(** The deployment that owns the slot ([schedulerState]). *)
Record Active := mkActive {
  deployInFlight : bool;
  deploymentTimedOut : bool;
  activeDeploymentID : option N;
  activeCorrelationID : string;
  activeOccurrence : option Occurrence;
  deploymentStartTime : option Z }.

(** What is to be deployed next and the drain, under [schedulerMutex]. *)
Record Work := mkWork {
  lastScheduled : option Occurrence;
  pending : option scheduledDeployment;
  workRevision : Z;
  lastPodSetHash : string;
  draining : bool;
  drainOccurrence : option Occurrence;
  dispatching : bool;
  followUpArmed : bool }.

(** The retry timer and its budget, under [schedulerMutex]. *)
Record Retries := mkRetries {
  retryTimer : option N;
  retryGeneration : Z;
  retryStopped : bool;
  deployFailureRetries : Z;
  lastFailedRetry : option Occurrence }.

(** The retained configuration, of the event goroutine; [recovery] is the epoch
    and the pod set of the worker that runs. *)
Record Retained := mkRetained {
  retainedRecovering : bool;
  retainedRetryAt : option Z;
  retainedRenderError : string;
  retainedEpoch : Z;
  retainedNotice : string;
  recovery : option (Z * string) }.

(** Channels of capacity one, the context, the clock, the armed timers and the next
    identifiers. *)
Record World := mkWorld {
  pendingSignal : bool;
  completed : bool;
  drainProgress : bool;
  loopDone : bool;
  cancelled : bool;
  now : Z;
  timers : list Timer;
  nextTimer : N;
  nextEventID : N }.

(** [slot] and [history] record what happened; the code does not read them. *)
Record Sched := mkSched {
  renders : Renders;
  active : Active;
  work : Work;
  retries : Retries;
  retained : Retained;
  world : World;
  slot : Slot;
  history : list Happened }.

(** Changing one field. *)
Section setters.
Definition onRenders (f : Renders → Renders) (s : Sched) : Sched :=
  mkSched (f (renders s)) (active s) (work s) (retries s) (retained s) (world s) (slot s) (history s).
Definition onActive (f : Active → Active) (s : Sched) : Sched :=
  mkSched (renders s) (f (active s)) (work s) (retries s) (retained s) (world s) (slot s) (history s).
Definition onWork (f : Work → Work) (s : Sched) : Sched :=
  mkSched (renders s) (active s) (f (work s)) (retries s) (retained s) (world s) (slot s) (history s).
Definition onRetries (f : Retries → Retries) (s : Sched) : Sched :=
  mkSched (renders s) (active s) (work s) (f (retries s)) (retained s) (world s) (slot s) (history s).
Definition onRetained (f : Retained → Retained) (s : Sched) : Sched :=
  mkSched (renders s) (active s) (work s) (retries s) (f (retained s)) (world s) (slot s) (history s).
Definition onWorld (f : World → World) (s : Sched) : Sched :=
  mkSched (renders s) (active s) (work s) (retries s) (retained s) (f (world s)) (slot s) (history s).
Definition set_slot (v : Slot) (s : Sched) : Sched :=
  mkSched (renders s) (active s) (work s) (retries s) (retained s) (world s) v (history s).
Definition record (e : Happened) (s : Sched) : Sched :=
  mkSched (renders s) (active s) (work s) (retries s) (retained s) (world s) (slot s) (e :: history s).

Definition set_lastRenderedOccurrence (v : option Occurrence) : Sched → Sched :=
  onRenders (λ r, mkRenders v (lastValidatedOccurrence r) (lastCorrelationID r) (lastCoalescible r)
  (currentEndpoints r) (runtimeConfigName r) (runtimeConfigNamespace r) (templateConfigName r)
  (templateConfigNamespace r) (gatePinned r) (acceptedRender r) (lastDeployedOccurrence r)
  (lastDeployedPodSetHash r) (lastDeployedTime r) (lastDispatchedOccurrence r) (lastFleetVersion r)).
Definition set_lastValidatedOccurrence (v : option Occurrence) : Sched → Sched :=
  onRenders (λ r, mkRenders (lastRenderedOccurrence r) v (lastCorrelationID r) (lastCoalescible r)
  (currentEndpoints r) (runtimeConfigName r) (runtimeConfigNamespace r) (templateConfigName r)
  (templateConfigNamespace r) (gatePinned r) (acceptedRender r) (lastDeployedOccurrence r)
  (lastDeployedPodSetHash r) (lastDeployedTime r) (lastDispatchedOccurrence r) (lastFleetVersion r)).
Definition set_lastCorrelationID (v : string) : Sched → Sched :=
  onRenders (λ r, mkRenders (lastRenderedOccurrence r) (lastValidatedOccurrence r) v (lastCoalescible r)
  (currentEndpoints r) (runtimeConfigName r) (runtimeConfigNamespace r) (templateConfigName r)
  (templateConfigNamespace r) (gatePinned r) (acceptedRender r) (lastDeployedOccurrence r)
  (lastDeployedPodSetHash r) (lastDeployedTime r) (lastDispatchedOccurrence r) (lastFleetVersion r)).
Definition set_lastCoalescible (v : bool) : Sched → Sched :=
  onRenders (λ r, mkRenders (lastRenderedOccurrence r) (lastValidatedOccurrence r) (lastCorrelationID r) v
  (currentEndpoints r) (runtimeConfigName r) (runtimeConfigNamespace r) (templateConfigName r)
  (templateConfigNamespace r) (gatePinned r) (acceptedRender r) (lastDeployedOccurrence r)
  (lastDeployedPodSetHash r) (lastDeployedTime r) (lastDispatchedOccurrence r) (lastFleetVersion r)).
Definition set_currentEndpoints (v : list Endpoint) : Sched → Sched :=
  onRenders (λ r, mkRenders (lastRenderedOccurrence r) (lastValidatedOccurrence r) (lastCorrelationID r)
  (lastCoalescible r) v (runtimeConfigName r) (runtimeConfigNamespace r) (templateConfigName r)
  (templateConfigNamespace r) (gatePinned r) (acceptedRender r) (lastDeployedOccurrence r)
  (lastDeployedPodSetHash r) (lastDeployedTime r) (lastDispatchedOccurrence r) (lastFleetVersion r)).
Definition set_runtimeConfigName (v : string) : Sched → Sched :=
  onRenders (λ r, mkRenders (lastRenderedOccurrence r) (lastValidatedOccurrence r) (lastCorrelationID r)
  (lastCoalescible r) (currentEndpoints r) v (runtimeConfigNamespace r) (templateConfigName r)
  (templateConfigNamespace r) (gatePinned r) (acceptedRender r) (lastDeployedOccurrence r)
  (lastDeployedPodSetHash r) (lastDeployedTime r) (lastDispatchedOccurrence r) (lastFleetVersion r)).
Definition set_runtimeConfigNamespace (v : string) : Sched → Sched :=
  onRenders (λ r, mkRenders (lastRenderedOccurrence r) (lastValidatedOccurrence r) (lastCorrelationID r)
  (lastCoalescible r) (currentEndpoints r) (runtimeConfigName r) v (templateConfigName r)
  (templateConfigNamespace r) (gatePinned r) (acceptedRender r) (lastDeployedOccurrence r)
  (lastDeployedPodSetHash r) (lastDeployedTime r) (lastDispatchedOccurrence r) (lastFleetVersion r)).
Definition set_templateConfigName (v : string) : Sched → Sched :=
  onRenders (λ r, mkRenders (lastRenderedOccurrence r) (lastValidatedOccurrence r) (lastCorrelationID r)
  (lastCoalescible r) (currentEndpoints r) (runtimeConfigName r) (runtimeConfigNamespace r) v
  (templateConfigNamespace r) (gatePinned r) (acceptedRender r) (lastDeployedOccurrence r)
  (lastDeployedPodSetHash r) (lastDeployedTime r) (lastDispatchedOccurrence r) (lastFleetVersion r)).
Definition set_templateConfigNamespace (v : string) : Sched → Sched :=
  onRenders (λ r, mkRenders (lastRenderedOccurrence r) (lastValidatedOccurrence r) (lastCorrelationID r)
  (lastCoalescible r) (currentEndpoints r) (runtimeConfigName r) (runtimeConfigNamespace r)
  (templateConfigName r) v (gatePinned r) (acceptedRender r) (lastDeployedOccurrence r)
  (lastDeployedPodSetHash r) (lastDeployedTime r) (lastDispatchedOccurrence r) (lastFleetVersion r)).
Definition set_gatePinned (v : bool) : Sched → Sched :=
  onRenders (λ r, mkRenders (lastRenderedOccurrence r) (lastValidatedOccurrence r) (lastCorrelationID r)
  (lastCoalescible r) (currentEndpoints r) (runtimeConfigName r) (runtimeConfigNamespace r)
  (templateConfigName r) (templateConfigNamespace r) v (acceptedRender r) (lastDeployedOccurrence r)
  (lastDeployedPodSetHash r) (lastDeployedTime r) (lastDispatchedOccurrence r) (lastFleetVersion r)).
Definition set_acceptedRender (v : option (option Occurrence * string)) : Sched → Sched :=
  onRenders (λ r, mkRenders (lastRenderedOccurrence r) (lastValidatedOccurrence r) (lastCorrelationID r)
  (lastCoalescible r) (currentEndpoints r) (runtimeConfigName r) (runtimeConfigNamespace r)
  (templateConfigName r) (templateConfigNamespace r) (gatePinned r) v (lastDeployedOccurrence r)
  (lastDeployedPodSetHash r) (lastDeployedTime r) (lastDispatchedOccurrence r) (lastFleetVersion r)).
Definition set_lastDeployedOccurrence (v : option Occurrence) : Sched → Sched :=
  onRenders (λ r, mkRenders (lastRenderedOccurrence r) (lastValidatedOccurrence r) (lastCorrelationID r)
  (lastCoalescible r) (currentEndpoints r) (runtimeConfigName r) (runtimeConfigNamespace r)
  (templateConfigName r) (templateConfigNamespace r) (gatePinned r) (acceptedRender r) v
  (lastDeployedPodSetHash r) (lastDeployedTime r) (lastDispatchedOccurrence r) (lastFleetVersion r)).
Definition set_lastDeployedPodSetHash (v : string) : Sched → Sched :=
  onRenders (λ r, mkRenders (lastRenderedOccurrence r) (lastValidatedOccurrence r) (lastCorrelationID r)
  (lastCoalescible r) (currentEndpoints r) (runtimeConfigName r) (runtimeConfigNamespace r)
  (templateConfigName r) (templateConfigNamespace r) (gatePinned r) (acceptedRender r) (lastDeployedOccurrence
  r) v (lastDeployedTime r) (lastDispatchedOccurrence r) (lastFleetVersion r)).
Definition set_lastDeployedTime (v : option Z) : Sched → Sched :=
  onRenders (λ r, mkRenders (lastRenderedOccurrence r) (lastValidatedOccurrence r) (lastCorrelationID r)
  (lastCoalescible r) (currentEndpoints r) (runtimeConfigName r) (runtimeConfigNamespace r)
  (templateConfigName r) (templateConfigNamespace r) (gatePinned r) (acceptedRender r) (lastDeployedOccurrence
  r) (lastDeployedPodSetHash r) v (lastDispatchedOccurrence r) (lastFleetVersion r)).
Definition set_lastDispatchedOccurrence (v : option Occurrence) : Sched → Sched :=
  onRenders (λ r, mkRenders (lastRenderedOccurrence r) (lastValidatedOccurrence r) (lastCorrelationID r)
  (lastCoalescible r) (currentEndpoints r) (runtimeConfigName r) (runtimeConfigNamespace r)
  (templateConfigName r) (templateConfigNamespace r) (gatePinned r) (acceptedRender r) (lastDeployedOccurrence
  r) (lastDeployedPodSetHash r) (lastDeployedTime r) v (lastFleetVersion r)).
Definition set_lastFleetVersion (v : string) : Sched → Sched :=
  onRenders (λ r, mkRenders (lastRenderedOccurrence r) (lastValidatedOccurrence r) (lastCorrelationID r)
  (lastCoalescible r) (currentEndpoints r) (runtimeConfigName r) (runtimeConfigNamespace r)
  (templateConfigName r) (templateConfigNamespace r) (gatePinned r) (acceptedRender r) (lastDeployedOccurrence
  r) (lastDeployedPodSetHash r) (lastDeployedTime r) (lastDispatchedOccurrence r) v).

Definition set_deployInFlight (v : bool) : Sched → Sched :=
  onActive (λ r, mkActive v (deploymentTimedOut r) (activeDeploymentID r) (activeCorrelationID r)
  (activeOccurrence r) (deploymentStartTime r)).
Definition set_deploymentTimedOut (v : bool) : Sched → Sched :=
  onActive (λ r, mkActive (deployInFlight r) v (activeDeploymentID r) (activeCorrelationID r)
  (activeOccurrence r) (deploymentStartTime r)).
Definition set_activeDeploymentID (v : option N) : Sched → Sched :=
  onActive (λ r, mkActive (deployInFlight r) (deploymentTimedOut r) v (activeCorrelationID r)
  (activeOccurrence r) (deploymentStartTime r)).
Definition set_activeCorrelationID (v : string) : Sched → Sched :=
  onActive (λ r, mkActive (deployInFlight r) (deploymentTimedOut r) (activeDeploymentID r) v (activeOccurrence
  r) (deploymentStartTime r)).
Definition set_activeOccurrence (v : option Occurrence) : Sched → Sched :=
  onActive (λ r, mkActive (deployInFlight r) (deploymentTimedOut r) (activeDeploymentID r)
  (activeCorrelationID r) v (deploymentStartTime r)).
Definition set_deploymentStartTime (v : option Z) : Sched → Sched :=
  onActive (λ r, mkActive (deployInFlight r) (deploymentTimedOut r) (activeDeploymentID r)
  (activeCorrelationID r) (activeOccurrence r) v).

Definition set_lastScheduled (v : option Occurrence) : Sched → Sched :=
  onWork (λ r, mkWork v (pending r) (workRevision r) (lastPodSetHash r) (draining r) (drainOccurrence r)
  (dispatching r) (followUpArmed r)).
Definition set_pending (v : option scheduledDeployment) : Sched → Sched :=
  onWork (λ r, mkWork (lastScheduled r) v (workRevision r) (lastPodSetHash r) (draining r) (drainOccurrence r)
  (dispatching r) (followUpArmed r)).
Definition set_workRevision (v : Z) : Sched → Sched :=
  onWork (λ r, mkWork (lastScheduled r) (pending r) v (lastPodSetHash r) (draining r) (drainOccurrence r)
  (dispatching r) (followUpArmed r)).
Definition set_lastPodSetHash (v : string) : Sched → Sched :=
  onWork (λ r, mkWork (lastScheduled r) (pending r) (workRevision r) v (draining r) (drainOccurrence r)
  (dispatching r) (followUpArmed r)).
Definition set_draining (v : bool) : Sched → Sched :=
  onWork (λ r, mkWork (lastScheduled r) (pending r) (workRevision r) (lastPodSetHash r) v (drainOccurrence r)
  (dispatching r) (followUpArmed r)).
Definition set_drainOccurrence (v : option Occurrence) : Sched → Sched :=
  onWork (λ r, mkWork (lastScheduled r) (pending r) (workRevision r) (lastPodSetHash r) (draining r) v
  (dispatching r) (followUpArmed r)).
Definition set_dispatching (v : bool) : Sched → Sched :=
  onWork (λ r, mkWork (lastScheduled r) (pending r) (workRevision r) (lastPodSetHash r) (draining r)
  (drainOccurrence r) v (followUpArmed r)).
Definition set_followUpArmed (v : bool) : Sched → Sched :=
  onWork (λ r, mkWork (lastScheduled r) (pending r) (workRevision r) (lastPodSetHash r) (draining r)
  (drainOccurrence r) (dispatching r) v).

Definition set_retryTimer (v : option N) : Sched → Sched :=
  onRetries (λ r, mkRetries v (retryGeneration r) (retryStopped r) (deployFailureRetries r) (lastFailedRetry
  r)).
Definition set_retryGeneration (v : Z) : Sched → Sched :=
  onRetries (λ r, mkRetries (retryTimer r) v (retryStopped r) (deployFailureRetries r) (lastFailedRetry r)).
Definition set_retryStopped (v : bool) : Sched → Sched :=
  onRetries (λ r, mkRetries (retryTimer r) (retryGeneration r) v (deployFailureRetries r) (lastFailedRetry
  r)).
Definition set_deployFailureRetries (v : Z) : Sched → Sched :=
  onRetries (λ r, mkRetries (retryTimer r) (retryGeneration r) (retryStopped r) v (lastFailedRetry r)).
Definition set_lastFailedRetry (v : option Occurrence) : Sched → Sched :=
  onRetries (λ r, mkRetries (retryTimer r) (retryGeneration r) (retryStopped r) (deployFailureRetries r) v).

Definition set_retainedRecovering (v : bool) : Sched → Sched :=
  onRetained (λ r, mkRetained v (retainedRetryAt r) (retainedRenderError r) (retainedEpoch r) (retainedNotice
  r) (recovery r)).
Definition set_retainedRetryAt (v : option Z) : Sched → Sched :=
  onRetained (λ r, mkRetained (retainedRecovering r) v (retainedRenderError r) (retainedEpoch r)
  (retainedNotice r) (recovery r)).
Definition set_retainedRenderError (v : string) : Sched → Sched :=
  onRetained (λ r, mkRetained (retainedRecovering r) (retainedRetryAt r) v (retainedEpoch r) (retainedNotice
  r) (recovery r)).
Definition set_retainedEpoch (v : Z) : Sched → Sched :=
  onRetained (λ r, mkRetained (retainedRecovering r) (retainedRetryAt r) (retainedRenderError r) v
  (retainedNotice r) (recovery r)).
Definition set_retainedNotice (v : string) : Sched → Sched :=
  onRetained (λ r, mkRetained (retainedRecovering r) (retainedRetryAt r) (retainedRenderError r)
  (retainedEpoch r) v (recovery r)).
Definition set_recovery (v : option (Z * string)) : Sched → Sched :=
  onRetained (λ r, mkRetained (retainedRecovering r) (retainedRetryAt r) (retainedRenderError r)
  (retainedEpoch r) (retainedNotice r) v).

Definition set_pendingSignal (v : bool) : Sched → Sched :=
  onWorld (λ r, mkWorld v (completed r) (drainProgress r) (loopDone r) (cancelled r) (now r) (timers r)
  (nextTimer r) (nextEventID r)).
Definition set_completed (v : bool) : Sched → Sched :=
  onWorld (λ r, mkWorld (pendingSignal r) v (drainProgress r) (loopDone r) (cancelled r) (now r) (timers r)
  (nextTimer r) (nextEventID r)).
Definition set_drainProgress (v : bool) : Sched → Sched :=
  onWorld (λ r, mkWorld (pendingSignal r) (completed r) v (loopDone r) (cancelled r) (now r) (timers r)
  (nextTimer r) (nextEventID r)).
Definition set_loopDone (v : bool) : Sched → Sched :=
  onWorld (λ r, mkWorld (pendingSignal r) (completed r) (drainProgress r) v (cancelled r) (now r) (timers r)
  (nextTimer r) (nextEventID r)).
Definition set_cancelled (v : bool) : Sched → Sched :=
  onWorld (λ r, mkWorld (pendingSignal r) (completed r) (drainProgress r) (loopDone r) v (now r) (timers r)
  (nextTimer r) (nextEventID r)).
Definition set_now (v : Z) : Sched → Sched :=
  onWorld (λ r, mkWorld (pendingSignal r) (completed r) (drainProgress r) (loopDone r) (cancelled r) v (timers
  r) (nextTimer r) (nextEventID r)).
Definition set_timers (v : list Timer) : Sched → Sched :=
  onWorld (λ r, mkWorld (pendingSignal r) (completed r) (drainProgress r) (loopDone r) (cancelled r) (now r) v
  (nextTimer r) (nextEventID r)).
Definition set_nextTimer (v : N) : Sched → Sched :=
  onWorld (λ r, mkWorld (pendingSignal r) (completed r) (drainProgress r) (loopDone r) (cancelled r) (now r)
  (timers r) v (nextEventID r)).
Definition set_nextEventID (v : N) : Sched → Sched :=
  onWorld (λ r, mkWorld (pendingSignal r) (completed r) (drainProgress r) (loopDone r) (cancelled r) (now r)
  (timers r) (nextTimer r) v).

End setters.
