(* ===== verification/Scheduler.v ===== *)
(** * The deployment scheduler

    [src/pkg/controller/deployer]: [scheduler.go], [scheduler_logic.go],
    [scheduler_handlers.go], [scheduler_drain.go] and the scheduler's half of
    [retained.go]. An event goroutine handles renders, verdicts, pods, completions
    and ticks; one deploy loop dispatches; a retry timer re-drives; a drain waits.
    Each function is a program of critical sections; logs and metrics are left
    out. Counters of 64 bits are taken not to wrap. *)

From Stdlib Require Import ZArith Lia.
From stdpp Require Import base strings option list.
From S2P Require Import Prelude GoStd Threads SchedState.

Open Scope string_scope.
Open Scope list_scope.
Open Scope Z_scope.

(** The scheduler's configuration, and the functions it is given: the hashes, the
    name of the resource a template's renders are published under. *)
Record Config := mkConfig {
  cfg_hmac : string → string;
  cfg_sha256 : string → string;
  cfg_resourceName : string → string;
  minDeploymentInterval : Z;
  deploymentTimeout : Z;
  retainedEnabled : bool;
  capabilitiesEnabled : bool }.

Definition second : Z := 1000000000.
Definition millisecond : Z := 1000000.

Definition maxDeployFailureRetries : Z := 5.
Definition maxFailureRetryBackoff : Z := 60 * second.
Definition pendingReloadFollowUpMargin : Z := 250 * millisecond.
Definition pendingReloadFollowUpReason : string := "pending_reload_follow_up".
Definition retainedDeploymentReason : string := "retained_configuration".
Definition TriggerReasonDriftPrevention : string := "drift_prevention".

Section scheduler.
Context (cfg : Config).

Definition podSetHash (endpoints : list Endpoint) : string :=
  computePodSetHash (cfg_hmac cfg) (cfg_sha256 cfg) endpoints.

Definition publish (event : Published) : prog Sched unit := update (record (HPublished event)).

(** ** Scheduling *)

(** [drainAdmitsLocked]. *)
Definition drainAdmits (s : Sched) (occurrence : Occurrence) : bool :=
  negb (draining (work s)) || samePlan (Some occurrence) (drainOccurrence (work s)).

(** [pendingRevisionCurrentLocked]. *)
Definition pendingRevisionCurrent (s : Sched) (dep : scheduledDeployment) : bool :=
  negb (cancelled (world s)) && (dep_workRevision dep =? workRevision (work s))
  && ((dep_retryGeneration dep =? 0)
      || (negb (retryStopped (retries s)) && (dep_retryGeneration dep =? retryGeneration (retries s)))).

Definition installPending (dep : scheduledDeployment) : prog Sched unit :=
  update (λ s,
    if negb (pendingRevisionCurrent s dep) || negb (drainAdmits s (dep_occurrence dep)) then s
    else set_pendingSignal true (set_pending (Some dep) s)).

Definition scheduleOrQueueOccurrence (occurrence : option Occurrence) (endpoints : list Endpoint)
    (reason correlationID : string) (coalescible : bool) : prog Sched unit :=
  match inspectOccurrence occurrence with
  | None => mret tt
  | Some o =>
      revision ← locked (λ s,
        if cancelled (world s) || negb (drainAdmits s o) then (None, s)
        else (Some (workRevision (work s) + 1), set_workRevision (workRevision (work s) + 1) s));
      match revision with
      | None => mret tt
      | Some revision =>
          installPending (mkScheduledDeployment revision 0 o endpoints reason correlationID coalescible)
      end
  end.

(** ** The deploy loop *)

Definition resolveRuntimeConfigName (r : Renders) : string * string :=
  if bool_decide (runtimeConfigName r = "") && bool_decide (templateConfigName r ≠ "")
  then (cfg_resourceName cfg (templateConfigName r), templateConfigNamespace r)
  else (runtimeConfigName r, runtimeConfigNamespace r).

(** The identifier of the event is fresh; an occurrence that lacks a part makes no
    event. *)
Definition newEvent (dep : scheduledDeployment) (s : Sched) : option (N * Published) * Sched :=
  let '(name, namespace) := resolveRuntimeConfigName (renders s) in
  if occ_authentic (dep_occurrence dep) && occ_complete (dep_occurrence dep) then
    (Some (nextEventID (world s),
           DeploymentScheduled (nextEventID (world s)) (dep_occurrence dep) (dep_endpoints dep)
             name namespace (dep_reason dep) (dep_correlationID dep) (dep_coalescible dep)),
     set_nextEventID (nextEventID (world s) + 1)%N s)
  else (None, s).

Definition newScheduledEvent (dep : scheduledDeployment) : prog Sched (option (N * Published)) :=
  locked (newEvent dep).

(** The section of [dispatchPending] that takes the slot. *)
Definition claimSlot (id : N) (dep : scheduledDeployment) (s : Sched) : bool * Sched :=
  if pendingRevisionCurrent s dep then
    (true,
     record (HClaimed id (dep_occurrence dep) (dep_workRevision dep) (workRevision (work s)))
       (set_slot (SlotClaimed id false)
       (set_lastPodSetHash (podSetHash (dep_endpoints dep))
       (set_lastScheduled (Some (dep_occurrence dep))
       (onActive (λ _, mkActive true false (Some id) (dep_correlationID dep) (Some (dep_occurrence dep))
                         (Some (now (world s)))) s)))))
  else (false, s).

Definition noActive : Active := mkActive false false None "" None None.

Definition clearDispatchedPending (id : N) : prog Sched unit :=
  update (λ s,
    if bool_decide (activeDeploymentID (active s) = Some id)
    then set_slot SlotFree (onActive (λ _, noActive) s) else s).

Definition publishScheduled (id : N) (event : Published) : prog Sched unit :=
  update (λ s, record (HPublished event)
    (match slot s with
     | SlotClaimed _ _ => set_slot (SlotClaimed id true) s
     | SlotLost _ _ => set_slot (SlotLost id true) s
     | _ => s
     end)).

(** The slot is freed when the loop takes the completion. *)
Definition awaitCompletion : prog Sched bool :=
  Atomic (λ s,
    (if completed (world s) then [(true, set_slot SlotFree (set_completed false s))] else [])
    ++ (if cancelled (world s) then [(false, s)] else [])) Ret.

Definition isCancelled : prog Sched bool := reading (λ s, cancelled (world s)).

Definition dispatchPending (dep : scheduledDeployment) : prog Sched bool :=
  stop ← isCancelled;
  if stop : bool then mret false
  else
    event ← newScheduledEvent dep;
    match event with
    | None => stop ← isCancelled; mret (negb stop)
    | Some (id, event) =>
        claimed ← locked (claimSlot id dep);
        if negb claimed then stop ← isCancelled; mret (negb stop)
        else
          stop ← isCancelled;
          if stop : bool then (clearDispatchedPending id;; mret false)
          else (publishScheduled id event;; awaitCompletion)
    end.

(** One round of [runDeployLoop]: whether it goes on. *)
Definition deployRound : prog Sched bool :=
  stop ← isCancelled;
  if stop : bool then mret false
  else
    dep ← locked (λ s,
      (pending (work s),
       set_dispatching (bool_decide (is_Some (pending (work s)))) (set_pending None s)));
    match dep with
    | None =>
        Atomic (λ s,
          (if pendingSignal (world s) then [(true, set_pendingSignal false s)] else [])
          ++ (if cancelled (world s) then [(false, s)] else [])) Ret
    | Some dep =>
        dispatched ← dispatchPending dep;
        update (λ s, set_drainProgress true (set_dispatching false s));;
        mret dispatched
    end.

(** What [runDeployLoop] defers. *)
Definition deployLoopExit : prog Sched unit :=
  update (λ s, set_pending None (set_workRevision (workRevision (work s) + 1) s));;
  update (set_loopDone true).

(** [checkDeploymentTimeout]: the deployment to cancel, and whether this is the
    first time. *)
Definition timedOutDeployment (s : Sched) : option (option N * bool) * Sched :=
  let a := active s in
  if negb (deployInFlight a) then (None, s)
  else match deploymentStartTime a with
       | None => (None, s)
       | Some start =>
           if now (world s) - start <=? deploymentTimeout cfg then (None, s)
           else (Some (activeDeploymentID a, negb (deploymentTimedOut a)),
                 onActive (λ a, mkActive (deployInFlight a) true (activeDeploymentID a) (activeCorrelationID a)
                                  (activeOccurrence a) (deploymentStartTime a)) s)
       end.

Definition checkDeploymentTimeout : prog Sched unit :=
  found ← locked timedOutDeployment;
  match found with
  | None => mret tt
  | Some (id, first) =>
      (match id with Some id => publish (DeploymentCancelRequest id "deployment_timeout") | None => mret tt end);;
      if first : bool then publish (ReconciliationTriggered "deployment_timeout_recovery") else mret tt
  end.

(** ** The retained configuration *)

Definition awaitingFirstAcceptedRender (r : Renders) : bool :=
  retainedEnabled cfg && match acceptedRender r with None => true | Some _ => false end.

(** [cancelRetainedRecovery]; a worker that still runs has an old epoch. *)
Definition cancelRetainedRecovery (s : Sched) : Sched :=
  set_retainedEpoch (retainedEpoch (retained s) + 1) s.

(** [maybeRecoverRetained] starts a worker; its result arrives as an event. *)
Definition startRecovery (s : Sched) : Sched :=
  if negb (retainedEnabled cfg) || retainedRecovering (retained s)
     || bool_decide (retainedRenderError (retained s) = "")
     || match retainedRetryAt (retained s) with Some at_ => now (world s) <? at_ | None => false end then s
  else if match lastValidatedOccurrence (renders s) with Some _ => true | None => false end
          || bool_decide (currentEndpoints (renders s) = []) then s
  else set_recovery (Some (retainedEpoch (retained s), podSetHash (currentEndpoints (renders s))))
         (set_retainedRecovering true s).

Definition maybeRecoverRetained : prog Sched unit := update startRecovery.

Definition renderFailedForRetention (message : string) : prog Sched unit :=
  update (set_retainedRenderError message);; maybeRecoverRetained.

Definition reportRetained (reason message : string) : prog Sched unit :=
  update (λ s,
    if negb (retainedEnabled cfg) || bool_decide (retainedNotice (retained s) = reason +:+ message) then s
    else record (HPublished (RetainedConfig reason message)) (set_retainedNotice (reason +:+ message) s)).

(** What a recovery worker found: nothing to do, an error, or an occurrence with
    its checksum. *)
Inductive Recovered :=
| RecoveredNothing
| RecoveredError (message : string)
| RecoveredOccurrence (occurrence : Occurrence) (checksum : string).

(** [handleRetainedResult] of the worker that ran for this epoch and pod set. *)
Definition retainedResultCurrent (epoch : Z) (podSet : string) (s : Sched) : option (list Endpoint) :=
  if negb (epoch =? retainedEpoch (retained s)) || bool_decide (retainedRenderError (retained s) = "") then None
  else match lastValidatedOccurrence (renders s) with
       | Some _ => None
       | None => if bool_decide (podSetHash (currentEndpoints (renders s)) = podSet)
                 then Some (currentEndpoints (renders s)) else None
       end.

Definition handleRetainedResult (epoch : Z) (podSet : string) (result : Recovered) : prog Sched unit :=
  update (λ s, set_retainedRetryAt (Some (now (world s) + 5 * second)) (set_retainedRecovering false s));;
  endpoints ← reading (retainedResultCurrent epoch podSet);
  match endpoints, result with
  | Some _, RecoveredError message =>
      reportRetained "RetainedConfigUnavailable"
        ("Retained configuration cannot start new HAProxy pods: " +:+ message
         +:+ ". Repair the render inputs or restore the published checkpoint.")
  | Some endpoints, RecoveredOccurrence occurrence checksum =>
      update (record (HRecovered occurrence));;
      publish (SetValidatedOccurrence occurrence);;
      cause ← reading (λ s, retainedRenderError (retained s));
      reportRetained "RetainedConfigActive"
        ("New HAProxy pods use retained configuration " +:+ checksum +:+ " because rendering failed: "
         +:+ cause +:+ ". Repair the render inputs to resume updates.");;
      scheduleOrQueueOccurrence (Some occurrence) endpoints retainedDeploymentReason "retained-configuration" false
  | _, _ => mret tt
  end.

(** ** Renders and verdicts *)

Definition deployReason (triggerReason : string) : string :=
  if bool_decide (triggerReason = TriggerReasonDriftPrevention)
  then TriggerReasonDriftPrevention else "config_validation".

(** [promoteRendered]: the render and the endpoints it is dispatched to. *)
Definition promoteRendered (correlationID : string) (coalescible : bool) (s : Sched)
    : option (Occurrence * list Endpoint) * Sched :=
  match inspectOccurrence (lastRenderedOccurrence (renders s)) with
  | None => (None, s)
  | Some o =>
      (Some (o, currentEndpoints (renders s)),
       record (HPromoted o)
         (set_lastCoalescible coalescible (set_lastCorrelationID correlationID
            (set_lastValidatedOccurrence (Some o) s))))
  end.

Definition renderAlreadyDeployed (o : Occurrence) (hash reason : string) (s : Sched) : bool :=
  let r := renders s in
  negb (bool_decide (reason = TriggerReasonDriftPrevention))
  && sameOccurrenceOutput (Some o) (lastDeployedOccurrence r)
  && sameOccurrenceOutput (lastDispatchedOccurrence r) (lastDeployedOccurrence r)
  && bool_decide (hash = lastDeployedPodSetHash r)
  && match lastDeployedTime r with Some _ => true | None => false end.

Definition publishUnchangedRender (o : Occurrence) (total : Z) (hash correlationID : string) : prog Sched unit :=
  if occ_authentic o && occ_complete o
  then publish (DeploymentSkipped o total hash correlationID) else mret tt.

Definition dispatchRender (correlationID : string) (coalescible : bool) (reason : string) : prog Sched unit :=
  render ← locked (promoteRendered correlationID coalescible);
  match render with
  | None => mret tt
  | Some (o, endpoints) =>
      if bool_decide (endpoints = []) then mret tt
      else
        skip ← reading (renderAlreadyDeployed o (podSetHash endpoints) reason);
        if skip : bool
        then publishUnchangedRender o (Z.of_nat (length endpoints)) (podSetHash endpoints) correlationID
        else scheduleOrQueueOccurrence (Some o) endpoints reason correlationID coalescible
  end.

Definition handleTemplateRendered (carried : option Occurrence) (triggerReason correlationID : string)
    (coalescible : bool) : prog Sched unit :=
  match inspectOccurrence (eventOccurrence carried) with
  | None => mret tt
  | Some o =>
      update (λ s, set_retainedRenderError "" (cancelRetainedRecovery s));;
      pinned ← locked (λ s,
        let pinned := gatePinned (renders s) || awaitingFirstAcceptedRender (renders s) in
        (pinned, record (HRendered o pinned) (set_lastRenderedOccurrence (Some o) s)));
      if pinned : bool then mret tt
      else dispatchRender correlationID coalescible (deployReason triggerReason)
  end.

(** [acceptRenderLocked]. *)
Definition acceptRender (s : Sched) : Sched :=
  set_acceptedRender (Some (lastValidatedOccurrence (renders s), lastCorrelationID (renders s))) s.

(** [rollBackToAcceptedRenderLocked]. *)
Definition rollBackToAcceptedRender (refused : Occurrence) (s : Sched) : Sched :=
  match acceptedRender (renders s) with
  | None => s
  | Some (occurrence, correlationID) =>
      if negb (samePlan (lastValidatedOccurrence (renders s)) (Some refused))
         || samePlan occurrence (Some refused) then s
      else set_lastCoalescible false (set_lastCorrelationID correlationID (set_lastValidatedOccurrence occurrence s))
  end.

Definition dropPendingRender (occurrence : Occurrence) : prog Sched unit :=
  update (λ s,
    match pending (work s) with
    | Some dep =>
        if samePlan (Some (dep_occurrence dep)) (Some occurrence)
        then set_pending None (set_workRevision (workRevision (work s) + 1) s) else s
    | None => s
    end).

Definition matchesRender (o : Occurrence) (r : Renders) : bool :=
  samePlan (lastRenderedOccurrence r) (Some o) || samePlan (lastValidatedOccurrence r) (Some o).

(** The section of [holdAfterRefusal] that closes the latch. *)
Definition closeGate (o : Occurrence) (refused : bool) (s : Sched) : bool * Sched :=
  if matchesRender o (renders s) then
    (true,
     record (HRefused o)
       (if refused then rollBackToAcceptedRender o (set_gatePinned true s) else set_gatePinned true s))
  else (false, s).

Definition holdAfterRefusal (o : Occurrence) (refused : bool) : prog Sched unit :=
  matched ← locked (closeGate o refused);
  if matched : bool then dropPendingRender o else mret tt.

(** What the section of [handleRenderGateCompleted] decides. *)
Inductive GateVerdict :=
| VerdictIgnored
| VerdictRefused
| VerdictPassed (release : bool).

Definition takeVerdict (o : Occurrence) (ok : bool) (s : Sched) : GateVerdict * Sched :=
  let r := renders s in
  let wasPinned := gatePinned r || awaitingFirstAcceptedRender r in
  let namesHeldRender := samePlan (lastRenderedOccurrence r) (Some o) in
  let alreadyDispatched := samePlan (lastValidatedOccurrence r) (Some o) in
  if negb namesHeldRender && negb alreadyDispatched then (VerdictIgnored, s)
  else if negb ok then (VerdictRefused, s)
  else if negb (bool_decide (retainedRenderError (retained s) = "")) && negb alreadyDispatched
  then (VerdictIgnored, s)
  else
    let s1 := if alreadyDispatched then acceptRender s else s in
    let opened := negb wasPinned || namesHeldRender in
    let s2 := if opened then set_gatePinned false s1 else s1 in
    (VerdictPassed (wasPinned && namesHeldRender && negb alreadyDispatched), record (HPassed o opened) s2).

Definition handleRenderGateCompleted (carried : option Occurrence) (newest ok refused : bool)
    (message correlationID : string) : prog Sched unit :=
  match inspectOccurrence (eventOccurrence carried) with
  | None => mret tt
  | Some o =>
      if negb newest then mret tt
      else
        verdict ← locked (takeVerdict o ok);
        match verdict with
        | VerdictIgnored => mret tt
        | VerdictRefused => holdAfterRefusal o refused;; renderFailedForRetention message
        | VerdictPassed false => mret tt
        | VerdictPassed true =>
            dispatchRender correlationID false "rendergate_release";;
            update acceptRender
        end
  end.

(** ** Pods, fallbacks and names *)

Definition publishFleetCapabilities (endpoints : list Endpoint) : prog Sched unit :=
  if negb (capabilitiesEnabled cfg) then mret tt
  else
    match MinimumVersion (fleetVersions endpoints) with
    | None => mret tt
    | Some version =>
        changed ← locked (λ s,
          (negb (bool_decide (lastFleetVersion (renders s) = Version_Full version)),
           set_lastFleetVersion (Version_Full version) s));
        if changed : bool
        then (publish (SetCapabilities version);; publish (ReconciliationTriggered "fleet_capabilities_changed"))
        else mret tt
    end.

(** The section of [performPodsDiscovered] that retires work for other pods: the
    deployment to cancel. *)
Definition retireOldPodSet (hash : string) (s : Sched) : option N * Sched :=
  if negb (bool_decide (lastPodSetHash (work s) = "")) && negb (bool_decide (lastPodSetHash (work s) = hash)) then
    (if deployInFlight (active s) then activeDeploymentID (active s) else None,
     set_pending None (set_workRevision (workRevision (work s) + 1) s))
  else (None, s).

Definition performPodsDiscovered (endpoints : list Endpoint) : prog Sched unit :=
  cancelledID ← locked (retireOldPodSet (podSetHash endpoints));
  publishFleetCapabilities endpoints;;
  (match cancelledID with
   | Some id => publish (DeploymentCancelRequest id "endpoint_authority_changed")
   | None => mret tt
   end);;
  found ← locked (λ s,
    ((lastValidatedOccurrence (renders s), lastCorrelationID (renders s), lastCoalescible (renders s)),
     set_currentEndpoints endpoints s));
  match found with
  | (None, _, _) => update (λ s, startRecovery (set_retainedRetryAt None s))
  | (Some o, correlationID, coalescible) =>
      if bool_decide (endpoints = []) then mret tt
      else scheduleOrQueueOccurrence (Some o) endpoints "pod_discovery" correlationID coalescible
  end.

Definition handleValidationFailed (correlationID : string) : prog Sched unit :=
  found ← reading (λ s, (lastValidatedOccurrence (renders s), currentEndpoints (renders s)));
  match found with
  | (Some o, _ :: _) => scheduleOrQueueOccurrence (Some o) found.2 "validation_fallback" correlationID false
  | _ => mret tt
  end.

Definition handleConfigValidated (template : option (string * string)) : prog Sched unit :=
  match template with
  | None => mret tt
  | Some (name, namespace) => update (λ s, set_templateConfigNamespace namespace (set_templateConfigName name s))
  end.

Definition handleConfigPublished (name namespace : string) : prog Sched unit :=
  update (λ s, set_runtimeConfigNamespace namespace (set_runtimeConfigName name s)).

(** ** Completions and retries *)

Record Completion := mkCompletion {
  ce_occurrence : option Occurrence;
  ce_deploymentID : option N;
  ce_total : Z;
  ce_failed : Z;
  ce_pendingReloads : Z;
  ce_podSetHash : string;
  ce_pendingReloadUntil : option Z }.

(** [retireActiveDeployment]: whether it had timed out, and its occurrence. *)
Definition retireActiveDeployment (event : Completion) (o : Occurrence) (s : Sched)
    : option (bool * option Occurrence) * Sched :=
  let a := active s in
  match ce_deploymentID event with
  | None => (None, s)
  | Some id =>
      if negb (deployInFlight a) || negb (bool_decide (activeDeploymentID a = Some id))
         || negb (sameOccurrence (activeOccurrence a) (Some o)) then (None, s)
      else (Some (deploymentTimedOut a, activeOccurrence a),
            record (HAccepted id) (set_slot (SlotAcknowledged id) (onActive (λ _, noActive) s)))
  end.

(** [signalCompleted]. *)
Definition signalCompleted : prog Sched unit :=
  update (λ s, set_completed true
    (match slot s with SlotAcknowledged id => set_slot (SlotSignalled id) s | _ => s end)).

Definition cacheDeploymentCompletion (event : Completion) (o : option Occurrence) : prog Sched unit :=
  if bool_decide (ce_podSetHash event = "") || match eventOccurrence o with None => true | Some _ => false end
  then mret tt
  else update (λ s,
    let s := set_lastDispatchedOccurrence o s in
    if (ce_failed event =? 0) && (ce_pendingReloads event =? 0)
    then set_lastDeployedTime (Some (now (world s)))
           (set_lastDeployedPodSetHash (ce_podSetHash event) (set_lastDeployedOccurrence o s))
    else s).

(** [stopRetryTimerLocked]; stopping a timer that fired changes nothing. *)
Definition stopRetryTimer (s : Sched) : Sched :=
  let s := set_retryGeneration (retryGeneration (retries s) + 1) (set_followUpArmed false s) in
  match retryTimer (retries s) with
  | None => s
  | Some id => set_retryTimer None (set_timers (filter (λ t, timer_id t ≠ id) (timers (world s))) s)
  end.

(** [time.AfterFunc] with the next generation of the retry. *)
Definition armRetryTimer (reason : string) (s : Sched) : Sched :=
  let generation := retryGeneration (retries s) + 1 in
  let id := nextTimer (world s) in
  set_retryTimer (Some id) (set_retryGeneration generation
    (set_nextTimer (id + 1)%N
    (set_timers (timers (world s) ++ [mkTimer id generation (workRevision (work s)) reason]) s))).

(** [time.Until]: the difference of two times saturates at the longest
    durations. *)
Definition timeUntil (t now : Z) : Z := Z.max (- 2 ^ 63) (Z.min (2 ^ 63 - 1) (t - now)).

(** The wait of [schedulePendingReloadFollowUp]; adding the margin wraps around. *)
Definition followUpWait (event : Completion) (now : Z) : Z :=
  let wait := match ce_pendingReloadUntil event with
              | None => pendingReloadFollowUpMargin
              | Some until => wrap64 (timeUntil until now + pendingReloadFollowUpMargin)
              end in
  let wait := if wait <? pendingReloadFollowUpMargin then pendingReloadFollowUpMargin else wait in
  if maxFailureRetryBackoff <? wait then maxFailureRetryBackoff else wait.

Definition schedulePendingReloadFollowUp (event : Completion) : prog Sched unit :=
  update (λ s,
    if retryStopped (retries s) then s
    else record (HFollowUp (followUpWait event (now (world s))))
           (set_followUpArmed true (armRetryTimer pendingReloadFollowUpReason (stopRetryTimer s)))).

Definition failureRetryBackoff (attempt : Z) : Z :=
  let base := if minDeploymentInterval cfg <=? 0 then 2 * second else minDeploymentInterval cfg in
  let backoff := wrap64 (Z.shiftl base (attempt - 1)) in
  if (backoff <=? 0) || (maxFailureRetryBackoff <? backoff) then maxFailureRetryBackoff else backoff.

Definition scheduleFailureRetry (event : Completion) : prog Sched unit :=
  update (λ s,
    if retryStopped (retries s) then s
    else
      match inspectOccurrence (eventOccurrence (ce_occurrence event)) with
      | None => s
      | Some o =>
          let s := if sameOccurrence (Some o) (lastFailedRetry (retries s)) then s
                   else set_deployFailureRetries 0 (set_lastFailedRetry (Some o) s) in
          if maxDeployFailureRetries <=? deployFailureRetries (retries s) then s
          else
            let attempt := deployFailureRetries (retries s) + 1 in
            record (HRetry o attempt (failureRetryBackoff attempt))
              (armRetryTimer "deploy_failure_retry" (stopRetryTimer (set_deployFailureRetries attempt s)))
      end).

(** The budget starts anew and a retry that waits in the slot is dropped. *)
Definition dropRetries (s : Sched) : Sched :=
  let s := stopRetryTimer s in
  let s := match pending (work s) with
           | Some dep => if dep_retryGeneration dep =? 0 then s else set_pending None s
           | None => s
           end in
  record HRetryReset (set_lastFailedRetry None (set_deployFailureRetries 0 s)).

Definition cancelFailureRetry : prog Sched unit := update dropRetries.

(** [stopFailureRetries]; the callbacks are joined where the term ends. *)
Definition stopFailureRetries : prog Sched unit := update (λ s, dropRetries (set_retryStopped true s)).

Definition handleDeploymentCompleted (event : Completion) : prog Sched unit :=
  match inspectOccurrence (eventOccurrence (ce_occurrence event)) with
  | None => mret tt
  | Some o =>
      retired ← locked (retireActiveDeployment event o);
      match retired with
      | None => mret tt
      | Some (true, _) => signalCompleted
      | Some (false, occurrence) =>
          cacheDeploymentCompletion event occurrence;;
          (if (0 <? ce_total event) && (0 <? ce_failed event) then scheduleFailureRetry event
           else if (0 <? ce_total event) && (0 <? ce_pendingReloads event) then schedulePendingReloadFollowUp event
           else if (0 <? ce_total event) && (ce_failed event =? 0) then cancelFailureRetry
           else mret tt);;
          signalCompleted
      end
  end.

(** [rescheduleLastValidated]. *)
Definition rescheduleLastValidated (generation revision : Z) (reason : string) : prog Sched unit :=
  found ← reading (λ s,
    (match pending (work s) with Some dep => dep_retryGeneration dep =? 0 | None => false end,
     draining (work s), drainOccurrence (work s)));
  let '(newerPending, drained, drainOccurrence) := found in
  if newerPending : bool then mret tt
  else
    stop ← isCancelled;
    if stop : bool then mret tt
    else
      last ← reading (λ s, (lastValidatedOccurrence (renders s), lastCorrelationID (renders s),
                             currentEndpoints (renders s)));
      let '(validated, correlationID, endpoints) := last in
      let occurrence := if drained : bool then drainOccurrence else validated in
      match eventOccurrence occurrence with
      | None => mret tt
      | Some o =>
          if bool_decide (endpoints = []) then mret tt
          else installPending (mkScheduledDeployment revision generation o endpoints reason correlationID false)
      end.

(** [settleFollowUp]. *)
Definition settleFollowUp : prog Sched unit :=
  update (λ s, set_drainProgress true
    (match retryTimer (retries s) with None => set_followUpArmed false s | Some _ => s end)).

(** The section of [runRetry] that checks whether the timer is still the armed
    one and the term did not move on. *)
Definition retryStands (generation revision : Z) (s : Sched) : bool * Sched :=
  if negb (generation =? retryGeneration (retries s)) then (false, s)
  else (negb (retryStopped (retries s)) && (revision =? workRevision (work s)), set_retryTimer None s).

Definition runRetry (generation revision : Z) (reason : string) : prog Sched unit :=
  go ← locked (retryStands generation revision);
  (if go : bool then rescheduleLastValidated generation revision reason else mret tt);;
  settleFollowUp.

(** ** Drains *)

(** The latch of [Drain], or the error of its context. *)
Definition latchDrain (s : Sched) : Sched :=
  let s := set_drainOccurrence (lastScheduled (work s)) (set_draining true s) in
  match pending (work s) with
  | Some dep => if drainAdmits s (dep_occurrence dep) then s else set_pending None s
  | None => s
  end.

(** The rounds of its wait: [Some] when it returns, with or without an error. *)
Definition drainRound : prog Sched (option bool) :=
  settled ← reading (λ s,
    negb (dispatching (work s)) && match pending (work s) with None => true | Some _ => false end
    && negb (followUpArmed (work s)));
  if settled : bool then mret (Some true)
  else Atomic (λ s, (if drainProgress (world s) then [(None, set_drainProgress false s)] else [])
                    ++ [(Some false, s)]) Ret.

Definition Drain : prog Sched (option bool) :=
  Atomic (λ s, [(true, latchDrain s); (false, s)]) (λ latched : bool,
    if latched then drainRound else mret (Some false)).

(** ** Terms *)

(** [resetDeploymentTerm]. *)
Definition resetDeploymentTerm (s : Sched) : Sched :=
  let s := onActive (λ _, noActive) s in
  let s := match slot s with SlotClaimed id published => set_slot (SlotLost id published) s | _ => s end in
  let s := set_lastPodSetHash "" (set_pending None (set_lastScheduled None
             (set_workRevision (workRevision (work s) + 1) s))) in
  let s := stopRetryTimer (set_retryStopped true s) in
  let s := record HReset (set_lastFailedRetry None (set_deployFailureRetries 0 s)) in
  onRenders (λ r, mkRenders None None "" false [] (runtimeConfigName r) (runtimeConfigNamespace r)
                    (templateConfigName r) (templateConfigNamespace r) false None None "" None None
                    (lastFleetVersion r)) s.

Definition handleLostLeadership : prog Sched unit := update resetDeploymentTerm.

(** The rest of what [Start] does before its loop: [beginRetainedTerm], the flags of
    the term and its channels. *)
Definition openTerm (s : Sched) : Sched :=
  record HTerm (mkSched (renders s) (active s)
    (mkWork None (pending (work s)) (workRevision (work s)) (lastPodSetHash (work s)) false None false false)
    (mkRetries (retryTimer (retries s)) (retryGeneration (retries s) + 1) false (deployFailureRetries (retries s))
       (lastFailedRetry (retries s)))
    (mkRetained false None "" (retainedEpoch (retained s) + 1) "" None)
    (mkWorld false false (drainProgress (world s)) false false (now (world s)) (timers (world s))
       (nextTimer (world s)) (nextEventID (world s)))
    SlotFree (history s)).

Definition beginTerm (s : Sched) : Sched := openTerm (resetDeploymentTerm s).

(** ** Events *)

Inductive Event :=
| TemplateRenderedEvent (occurrence : option Occurrence) (triggerReason correlationID : string) (coalescible : bool)
| ConfigValidatedEvent (template : option (string * string))
| RenderGateCompletedEvent (occurrence : option Occurrence) (newest ok refused : bool) (message correlationID : string)
| ValidationFailedEvent (correlationID : string)
| ReconciliationFailedEvent (error : string)
| HAProxyPodsDiscoveredEvent (endpoints : list Endpoint)
| DeploymentCompletedEvent (completion : Completion)
| ConfigPublishedEvent (name namespace : string)
| LostLeadershipEvent.

Definition handleEvent (event : Event) : prog Sched unit :=
  match event with
  | TemplateRenderedEvent o reason correlationID coalescible =>
      handleTemplateRendered o reason correlationID coalescible
  | ConfigValidatedEvent template => handleConfigValidated template
  | RenderGateCompletedEvent o newest ok refused message correlationID =>
      handleRenderGateCompleted o newest ok refused message correlationID
  | ValidationFailedEvent correlationID => handleValidationFailed correlationID
  | ReconciliationFailedEvent error => renderFailedForRetention error
  | HAProxyPodsDiscoveredEvent endpoints => performPodsDiscovered endpoints
  | DeploymentCompletedEvent completion => handleDeploymentCompleted completion
  | ConfigPublishedEvent name namespace => handleConfigPublished name namespace
  | LostLeadershipEvent => handleLostLeadership
  end.

(** A tick of [Start]'s loop. *)
Definition handleTick : prog Sched unit := checkDeploymentTimeout;; maybeRecoverRetained.
End scheduler.
