(* ===== verification/SchedSystem.v ===== *)
(** * The scheduler among its goroutines

    The goroutines of one scheduler as a transition system: the event goroutine,
    the deploy loop, the callbacks of the retry timer and the drains, each at some
    section of its program. A label says who goes on and, where a section has
    several outcomes, with which; [sysStep] is executable. Leadership terms follow
    each other: a term ends once its context is cancelled, its event goroutine has
    stopped the retries and its loop, armed timers and callbacks are done. *)

From Stdlib Require Import ZArith Lia.
From stdpp Require Import base strings option list.
From S2P Require Import Prelude GoStd Threads SchedState Scheduler.

Open Scope Z_scope.

Inductive Loop :=
| LoopOff
| LoopRun (p : prog Sched bool)
| LoopExit (p : prog Sched unit).

Inductive Phase := Stopped | Running | Stopping.

Record System := mkSystem {
  sys_state : Sched;
  sys_phase : Phase;
  sys_event : prog Sched unit;
  sys_loop : Loop;
  sys_callbacks : list (prog Sched unit);
  sys_drains : list (prog Sched (option bool)) }.

Definition initialState : Sched :=
  mkSched (mkRenders None None "" false [] "" "" "" "" false None None "" None None "")
    noActive (mkWork None None 0 "" false None false false) (mkRetries None 0 false 0 None)
    (mkRetained false None "" 0 "" None) (mkWorld false false false false true 0 [] 0 0) SlotFree [].

Definition initialSystem : System := mkSystem initialState Stopped (Ret tt) LoopOff [] [].

(** Who goes on. *)
Inductive Label :=
| LStart
| LDeliver (event : Event)
| LTick
| LRetained (result : Recovered)
| LEvent
| LLoop (outcome : nat)
| LFire (timer : nat)
| LCallback (callback : nat)
| LDrainCall
| LDrain (drain outcome : nat)
| LCancel
| LClock (elapsed : Z)
| LShutdown
| LJoin.

(** A deployment's identifier is known once it is published. *)
Definition publishedID (id : N) (h : list Happened) : bool :=
  existsb (λ e, match e with HPublished (DeploymentScheduled id' _ _ _ _ _ _ _) => (id =? id')%N | _ => false end) h.

Definition deliverable (event : Event) (h : list Happened) : bool :=
  match event with
  | DeploymentCompletedEvent c => match ce_deploymentID c with Some id => publishedID id h | None => true end
  | _ => true
  end.

Section system.
Context (cfg : Config).

Definition on_state (f : Sched → Sched) (y : System) : System :=
  mkSystem (f (sys_state y)) (sys_phase y) (sys_event y) (sys_loop y) (sys_callbacks y) (sys_drains y).

(** The event goroutine takes up something new. *)
Definition handling (p : prog Sched unit) (y : System) : option System :=
  match sys_phase y, finished (sys_event y) with
  | Running, Some _ => Some (mkSystem (sys_state y) Running p (sys_loop y) (sys_callbacks y) (sys_drains y))
  | _, _ => None
  end.

Definition loopStep (i : nat) (y : System) : option System :=
  let with_loop s l := mkSystem s (sys_phase y) (sys_event y) l (sys_callbacks y) (sys_drains y) in
  match sys_loop y with
  | LoopOff => None
  | LoopRun p =>
      match finished p with
      | Some true => Some (with_loop (sys_state y) (LoopRun (deployRound cfg)))
      | Some false => Some (with_loop (sys_state y) (LoopExit deployLoopExit))
      | None => match advance p i (sys_state y) with Some (p, s) => Some (with_loop s (LoopRun p)) | None => None end
      end
  | LoopExit p =>
      match finished p with
      | Some _ => Some (with_loop (sys_state y) LoopOff)
      | None => match advance p i (sys_state y) with Some (p, s) => Some (with_loop s (LoopExit p)) | None => None end
      end
  end.

Definition callbackStep (n : nat) (y : System) : option System :=
  let with_callbacks s l := mkSystem s (sys_phase y) (sys_event y) (sys_loop y) l (sys_drains y) in
  match sys_callbacks y !! n with
  | None => None
  | Some p =>
      match finished p with
      | Some _ => Some (with_callbacks (sys_state y) (delete n (sys_callbacks y)))
      | None =>
          match advance p 0 (sys_state y) with
          | Some (p, s) => Some (with_callbacks s (<[n := p]> (sys_callbacks y)))
          | None => None
          end
      end
  end.

Definition drainStep (n i : nat) (y : System) : option System :=
  let with_drains s l := mkSystem s (sys_phase y) (sys_event y) (sys_loop y) (sys_callbacks y) l in
  match sys_drains y !! n with
  | None => None
  | Some p =>
      match finished p with
      | Some (Some _) => Some (with_drains (sys_state y) (delete n (sys_drains y)))
      | Some None => Some (with_drains (sys_state y) (<[n := drainRound]> (sys_drains y)))
      | None =>
          match advance p i (sys_state y) with
          | Some (p, s) => Some (with_drains s (<[n := p]> (sys_drains y)))
          | None => None
          end
      end
  end.

Definition sysStep (l : Label) (y : System) : option System :=
  match l with
  | LStart =>
      match sys_phase y with
      | Stopped => Some (mkSystem (beginTerm (sys_state y)) Running (Ret tt) (LoopRun (deployRound cfg))
                           (sys_callbacks y) (sys_drains y))
      | _ => None
      end
  | LDeliver event =>
      if deliverable event (history (sys_state y)) then handling (handleEvent cfg event) y else None
  | LTick => handling (handleTick cfg) y
  | LRetained result =>
      match recovery (retained (sys_state y)) with
      | Some (epoch, podSet) => handling (handleRetainedResult cfg epoch podSet result) (on_state (set_recovery None) y)
      | None => None
      end
  | LEvent =>
      match advance (sys_event y) 0 (sys_state y) with
      | Some (p, s) => Some (mkSystem s (sys_phase y) p (sys_loop y) (sys_callbacks y) (sys_drains y))
      | None => None
      end
  | LLoop i => loopStep i y
  | LFire n =>
      match timers (world (sys_state y)) !! n with
      | Some t =>
          Some (mkSystem (set_timers (delete n (timers (world (sys_state y)))) (sys_state y)) (sys_phase y)
                  (sys_event y) (sys_loop y)
                  (sys_callbacks y ++ [runRetry (timer_generation t) (timer_workRevision t) (timer_reason t)])
                  (sys_drains y))
      | None => None
      end
  | LCallback n => callbackStep n y
  | LDrainCall =>
      Some (mkSystem (sys_state y) (sys_phase y) (sys_event y) (sys_loop y) (sys_callbacks y) (sys_drains y ++ [Drain]))
  | LDrain n i => drainStep n i y
  | LCancel => Some (on_state (set_cancelled true) y)
  | LClock elapsed =>
      if 0 <=? elapsed then Some (on_state (λ s, set_now (now (world s) + elapsed) s) y) else None
  | LShutdown =>
      if cancelled (world (sys_state y)) then
        match handling stopFailureRetries y with
        | Some y => Some (mkSystem (sys_state y) Stopping (sys_event y) (sys_loop y) (sys_callbacks y) (sys_drains y))
        | None => None
        end
      else None
  | LJoin =>
      match sys_phase y, finished (sys_event y), sys_loop y, sys_callbacks y, timers (world (sys_state y)) with
      | Stopping, Some _, LoopOff, [], [] =>
          Some (mkSystem (set_recovery None (cancelRetainedRecovery (sys_state y))) Stopped (Ret tt) LoopOff []
                  (sys_drains y))
      | _, _, _, _, _ => None
      end
  end.

Fixpoint sysRun (ls : list Label) (y : System) : option System :=
  match ls with
  | [] => Some y
  | l :: ls => match sysStep l y with Some y => sysRun ls y | None => None end
  end.

(** What a scheduler can get to. *)
Inductive reachable : System → Prop :=
| reachable_initial : reachable initialSystem
| reachable_step l y y' : reachable y → sysStep l y = Some y' → reachable y'.

Lemma reachable_run ls y y' : reachable y → sysRun ls y = Some y' → reachable y'.
Proof using.
  revert y. induction ls as [|l ls IH]; cbn; intros y Hy; [by intros [= <-]|].
  destruct (sysStep l y) as [y1|] eqn:E; [|done]. apply IH. by eapply reachable_step.
Qed.
End system.
