(* ===== verification/SchedInv.v ===== *)
(** * The scheduler's history and its invariant

    What a history may look like, then the invariant of the state and what each
    goroutine relies on.

    Functions of the history of a scheduler, newest entry first, and [allowed]:
    what has to be true of the past when an entry is added. [goodHistory] says it
    of every entry. *)

From Stdlib Require Import ZArith Lia.
From stdpp Require Import base strings option list.
From S2P Require Import Prelude SchedState Scheduler SchedSystem Threads.

Open Scope Z_scope.

(** The entries of the current term. *)
Fixpoint thisTerm (h : list Happened) : list Happened :=
  match h with [] | HTerm :: _ => [] | e :: h => e :: thisTerm h end.

(** The deployment of the current term that was published and not acknowledged. *)
Fixpoint openDeployment (h : list Happened) : option N :=
  match h with
  | [] | HTerm :: _ => None
  | HPublished (DeploymentScheduled id _ _ _ _ _ _ _) :: _ => Some id
  | HAccepted _ :: _ => None
  | _ :: h => openDeployment h
  end.

(** Whether the render gate holds renders: a refusal since it last opened. *)
Fixpoint gateHeld (h : list Happened) : bool :=
  match h with
  | [] | HReset :: _ | HPassed _ true :: _ => false
  | HRefused _ :: _ => true
  | _ :: h => gateHeld h
  end.

(** Whether the gate passed a render since the state was reset. *)
Fixpoint gatePassed (h : list Happened) : bool :=
  match h with
  | [] | HReset :: _ => false
  | HPassed _ _ :: _ => true
  | _ :: h => gatePassed h
  end.

(** The last render or verdict. *)
Fixpoint lastGate (h : list Happened) : option Happened :=
  match h with
  | [] => None
  | (HRendered _ _ as e) :: _ | (HPassed _ _ as e) :: _ | (HRefused _ as e) :: _ => Some e
  | _ :: h => lastGate h
  end.

(** The render that last failed and got a retry, by address, with its attempts. *)
Fixpoint lastRetry (h : list Happened) : option (N * Z) :=
  match h with
  | [] | HRetryReset :: _ | HReset :: _ => None
  | HRetry o attempt _ :: _ => Some (occ_address o, attempt)
  | _ :: h => lastRetry h
  end.

Definition attemptsOf (o : Occurrence) (h : list Happened) : Z :=
  match lastRetry h with
  | Some (address, attempt) => if (address =? occ_address o)%N then attempt else 0
  | None => 0
  end.

(** Where a deployment may come from: a promoted render or a recovered
    configuration of the term. *)
Definition sourced (o : Occurrence) (h : list Happened) : Prop :=
  HPromoted o ∈ thisTerm h ∨ HRecovered o ∈ thisTerm h.

Definition allowed (cfg : Config) (e : Happened) (h : list Happened) : Prop :=
  match e with
  | HClaimed id o revision newest =>
      revision = newest ∧ openDeployment h = None ∧ publishedID id h = false ∧ sourced o h
  | HPublished (DeploymentScheduled id o _ _ _ _ _ _) =>
      openDeployment h = None ∧ publishedID id h = false
      ∧ ∃ revision, HClaimed id o revision revision ∈ thisTerm h
  | HAccepted id => openDeployment h = Some id
  | HPromoted o =>
      gateHeld h = false ∧ (retainedEnabled cfg = true → gatePassed h = true)
      ∧ (lastGate h = Some (HRendered o false)
         ∨ ∃ v, lastGate h = Some (HPassed v true) ∧ samePlan (Some o) (Some v) = true)
  | HRetry o attempt wait =>
      attempt = attemptsOf o h + 1 ∧ 1 <= attempt <= maxDeployFailureRetries ∧ 0 < wait <= maxFailureRetryBackoff
  | HFollowUp wait => pendingReloadFollowUpMargin <= wait <= maxFailureRetryBackoff
  | _ => True
  end.

Fixpoint goodHistory (cfg : Config) (h : list Happened) : Prop :=
  match h with [] => True | e :: h => allowed cfg e h ∧ goodHistory cfg h end.

Lemma goodHistory_entry cfg h1 e h2 : goodHistory cfg (h1 ++ e :: h2) → allowed cfg e h2.
Proof. induction h1 as [|x h1 IH]; cbn; [by intros [? _]|]. intros [_ ?]. by apply IH. Qed.

Lemma goodHistory_past cfg h1 e h2 : goodHistory cfg (h1 ++ e :: h2) → goodHistory cfg h2.
Proof. induction h1 as [|x h1 IH]; cbn; [by intros [_ ?]|]. intros [_ ?]. by apply IH. Qed.

(** ** Whose entries are whose *)

(** The deploy loop claims and publishes deployments; a term is begun by nobody's
    program; the rest is the event goroutine's. *)
Definition loopEntry (e : Happened) : bool :=
  match e with HClaimed _ _ _ _ | HPublished (DeploymentScheduled _ _ _ _ _ _ _ _) => true | _ => false end.

Definition eventEntry (e : Happened) : bool := match e with HTerm => false | e => negb (loopEntry e) end.

(** The history grew by such entries. *)
Definition grows (P : Happened → bool) (h h' : list Happened) : Prop :=
  ∃ l, h' = l ++ h ∧ Forall (λ e, P e = true) l.

#[export] Instance grows_preorder P : PreOrder (grows P).
Proof.
  split.
  - intros h. by exists [].
  - intros h1 h2 h3 (l1 & -> & H1) (l2 & -> & H2). exists (l2 ++ l1). split; [by rewrite app_assoc|].
    by apply Forall_app.
Qed.

Lemma grows_here P h : grows P h h.
Proof. reflexivity. Qed.

Lemma grows_one (P : Happened → bool) e h : P e = true → grows P h (e :: h).
Proof. intros He. exists [e]. split; [done|]. by constructor. Qed.

Lemma grows_weaken (P P' : Happened → bool) h h' : (∀ e, P e = true → P' e = true) → grows P h h' → grows P' h h'.
Proof. intros HP (l & -> & Hl). exists l. split; [done|]. eapply Forall_impl; [exact Hl|]. auto. Qed.

(** Nothing but the start of a term. *)
Definition termEntry (e : Happened) : bool := match e with HTerm => false | _ => true end.

Lemma loopEntry_term e : loopEntry e = true → termEntry e = true.
Proof. by destruct e. Qed.

Lemma eventEntry_term e : eventEntry e = true → termEntry e = true.
Proof. by destruct e. Qed.

Lemma grows_sourced o h h' : grows termEntry h h' → sourced o h → sourced o h'.
Proof.
  intros (l & -> & Hl) Hs. induction Hl as [|e l He Hl IH]; [done|]. unfold sourced in *.
  destruct e; try done; cbn [app thisTerm]; rewrite !elem_of_cons; naive_solver.
Qed.

Lemma grows_entry e h h' : grows termEntry h h' → e ∈ thisTerm h → e ∈ thisTerm h'.
Proof.
  intros (l & -> & Hl) Hs. induction Hl as [|x l Hx Hl IH]; [done|].
  destruct x; try done; cbn [app thisTerm]; apply elem_of_cons; by right.
Qed.

Lemma grows_published P id h h' : grows P h h' → publishedID id h = true → publishedID id h' = true.
Proof. intros (l & -> & _) Hp. unfold publishedID in *. by rewrite existsb_app, Hp, orb_true_r. Qed.

Lemma grows_unpublished id h h' : grows eventEntry h h' → publishedID id h' = publishedID id h.
Proof.
  intros (l & -> & Hl). induction Hl as [|e l He Hl IH]; [done|]. rewrite <-IH. destruct e as [|event| | | | | | | | | | |];
    try done. by destruct event.
Qed.

(** The gate and the retries are read off the entries of the event goroutine. *)
Lemma grows_gate h h' :
  grows loopEntry h h' →
  gateHeld h' = gateHeld h ∧ gatePassed h' = gatePassed h ∧ lastGate h' = lastGate h ∧ lastRetry h' = lastRetry h.
Proof.
  intros (l & -> & Hl). induction Hl as [|e l He Hl IH]; [done|].
  destruct e as [|event| | | | | | | | | | |]; try done; by destruct event.
Qed.

(** ** The scheduler's invariant and what its goroutines rely on *)

Section invariant.
Context (cfg : Config).

(** ** The invariant *)

(** The slot agrees with the active deployment and with what was published. *)
Definition slotOk (s : Sched) : Prop :=
  let h := history s in
  match slot s with
  | SlotFree | SlotAcknowledged _ | SlotSignalled _ => deployInFlight (active s) = false ∧ openDeployment h = None
  | SlotClaimed id published =>
      deployInFlight (active s) = true ∧ activeDeploymentID (active s) = Some id ∧ (id < nextEventID (world s))%N
      ∧ if published then openDeployment h = Some id else openDeployment h = None ∧ publishedID id h = false
  | SlotLost id published =>
      deployInFlight (active s) = false ∧ ((id < nextEventID (world s))%N ∧ HReset ∈ thisTerm h)
      ∧ if published then openDeployment h = Some id else openDeployment h = None ∧ publishedID id h = false
  end.

Definition isSignalled (x : Slot) : bool := match x with SlotSignalled _ => true | _ => false end.

Definition gateOk (s : Sched) : Prop :=
  gatePinned (renders s) = gateHeld (history s)
  ∧ (acceptedRender (renders s) ≠ None → gatePassed (history s) = true).

Definition sourcedOption (o : option Occurrence) (h : list Happened) : Prop := ∀ x, o = Some x → sourced x h.

Definition sourcesOk (s : Sched) : Prop :=
  let h := history s in
  sourcedOption (lastValidatedOccurrence (renders s)) h
  ∧ (∀ o c, acceptedRender (renders s) = Some (o, c) → sourcedOption o h)
  ∧ (∀ dep, pending (work s) = Some dep → sourced (dep_occurrence dep) h)
  ∧ sourcedOption (lastScheduled (work s)) h
  ∧ sourcedOption (drainOccurrence (work s)) h.

Definition retriesOk (s : Sched) : Prop :=
  let r := retries s in
  lastRetry (history s)
    = match lastFailedRetry r with None => None | Some o => Some (occ_address o, deployFailureRetries r) end
  ∧ ∀ o, lastFailedRetry r = Some o → occ_authentic o = true ∧ 1 <= deployFailureRetries r <= maxDeployFailureRetries.

Record Inv (s : Sched) : Prop := {
  inv_history : goodHistory cfg (history s);
  inv_slot : slotOk s;
  inv_completed : completed (world s) = isSignalled (slot s);
  inv_ids : ∀ id, publishedID id (history s) = true → (id < nextEventID (world s))%N;
  inv_gate : gateOk s;
  inv_sources : sourcesOk s;
  inv_retries : retriesOk s }.

(** ** Rely and guarantee *)

(** What the event goroutine may do to the slot. *)
Definition slotMoves (x y : Slot) : Prop :=
  match x with
  | SlotClaimed id published =>
      y = x ∨ y = SlotLost id published
      ∨ published = true ∧ (y = SlotAcknowledged id ∨ y = SlotSignalled id)
  | SlotAcknowledged id => y = x ∨ y = SlotSignalled id
  | _ => y = x
  end.

#[export] Instance slotMoves_preorder : PreOrder slotMoves.
Proof.
  split.
  - intros []; cbn; auto.
  - intros x y z Hxy Hyz.
    destruct x as [|id []|id p|id|id]; cbn in Hxy |- *; repeat destruct Hxy as [Hxy|Hxy];
      repeat match goal with H : _ ∧ _ |- _ => destruct H end; subst; cbn in Hyz; naive_solver.
Qed.

(** Work in the slot has woken the loop. *)
Definition signalled (s : Sched) : Prop := pending (work s) = None ∨ pendingSignal (world s) = true.

Definition relyLoop (s s' : Sched) : Prop :=
  slotMoves (slot s) (slot s') ∧ nextEventID (world s') = nextEventID (world s)
  ∧ grows eventEntry (history s) (history s') ∧ (signalled s → signalled s')
  ∧ (cancelled (world s) = true → cancelled (world s') = true).

Definition acknowledged (x : Slot) : option N := match x with SlotAcknowledged id => Some id | _ => None end.

Definition relyEvent (s s' : Sched) : Prop :=
  renders s' = renders s ∧ acknowledged (slot s') = acknowledged (slot s)
  ∧ grows loopEntry (history s) (history s').

Definition relyCallback (s s' : Sched) : Prop := grows termEntry (history s) (history s').

Definition relyDrain (_ _ : Sched) : Prop := True.

#[export] Instance relyLoop_preorder : PreOrder relyLoop.
Proof.
  split.
  - intros s. by split_and!.
  - intros s1 s2 s3 (? & ? & ? & ? & ?) (? & ? & ? & ? & ?). split_and!; [by etrans|congruence|by etrans|auto|auto].
Qed.

#[export] Instance relyEvent_preorder : PreOrder relyEvent.
Proof.
  split.
  - intros s. by split_and!.
  - intros s1 s2 s3 (? & ? & ?) (? & ? & ?). split_and!; [congruence|congruence|by etrans].
Qed.

#[export] Instance relyCallback_preorder : PreOrder relyCallback.
Proof. split; [intros s; apply grows_here|]. intros s1 s2 s3. unfold relyCallback. by etrans. Qed.

#[export] Instance relyDrain_preorder : PreOrder relyDrain.
Proof. by split. Qed.

(** What callbacks, drains and the surroundings guarantee. *)
Definition quiet (s s' : Sched) : Prop := relyEvent s s' ∧ relyLoop s s'.

Lemma relyLoop_callback s s' : relyLoop s s' → relyCallback s s'.
Proof. intros (_ & _ & Hg & _). eapply grows_weaken; [|exact Hg]. apply eventEntry_term. Qed.

Lemma relyEvent_callback s s' : relyEvent s s' → relyCallback s s'.
Proof. intros (_ & _ & Hg). eapply grows_weaken; [|exact Hg]. apply loopEntry_term. Qed.

(** Where the deploy loop may wait: with nothing to do, or for the completion of
    the deployment that owns the slot. *)
Definition loopBlocked (s : Sched) : Prop :=
  cancelled (world s) = false
  ∧ (slot s = SlotFree ∧ pending (work s) = None
     ∨ ∃ id, slot s = SlotClaimed id true ∨ slot s = SlotLost id true ∨ slot s = SlotAcknowledged id).

Definition neverBlocked (_ : Sched) : Prop := False.

Definition eventRuns (p : prog Sched unit) : Sched → Prop :=
  runs Inv relyEvent relyLoop neverBlocked p (λ _ s, acknowledged (slot s) = None).

(** How a round of the loop ends: with the slot free, or for good. *)
Definition freed (more : bool) (s : Sched) : Prop := if more then slot s = SlotFree else cancelled (world s) = true.

Definition loopRuns (p : prog Sched bool) : Sched → Prop := runs Inv relyLoop relyEvent loopBlocked p freed.

Definition exitRuns (p : prog Sched unit) : Sched → Prop :=
  runs Inv relyLoop relyEvent neverBlocked p (λ _ s, cancelled (world s) = true).

Definition callbackRuns (p : prog Sched unit) : Sched → Prop :=
  runs Inv relyCallback quiet neverBlocked p (λ _ _, True).

(** Drains arm no timers: they may outlive the term. *)
Definition drainGuar (s s' : Sched) : Prop := quiet s s' ∧ timers (world s') = timers (world s).

Definition drainRuns (p : prog Sched (option bool)) : Sched → Prop :=
  runs Inv relyDrain drainGuar neverBlocked p (λ _ _, True).

(** ** The slot and the sources survive *)

Lemma slotOk_entry e s s' :
  eventEntry e = true → (∀ id, e ≠ HAccepted id) → history s' = e :: history s → slot s' = slot s →
  active s' = active s → nextEventID (world s') = nextEventID (world s) → slotOk s → slotOk s'.
Proof.
  intros He Hna Eh Es Ea En. unfold slotOk. rewrite Es, Ea, En.
  assert (openDeployment (history s') = openDeployment (history s)) as ->.
  { rewrite Eh. destruct e as [|event| |id| | | | | | | | |]; try done; [by destruct event|by destruct (Hna id)]. }
  pose proof (grows_entry HReset (history s) (history s')) as Hr. rewrite Eh in *.
  destruct (slot s) as [|id p|id p|id|id]; rewrite ?(grows_unpublished id (history s) (e :: history s) (grows_one _ _ _ He));
    try done. intros (? & [? ?] & ?). split_and!; [done|done| |done].
  apply Hr; [|done]. apply grows_one. by apply eventEntry_term.
Qed.

Lemma sourcesOk_grows s s' :
  grows termEntry (history s) (history s') → renders s' = renders s → work s' = work s → sourcesOk s → sourcesOk s'.
Proof.
  intros Hg Hr Hw (H1 & H2 & H3 & H4 & H5). unfold sourcesOk, sourcedOption in *. rewrite Hr, Hw.
  split_and!; intros; eapply grows_sourced; eauto.
Qed.
End invariant.
