(* ===== verification/SchedSections.v ===== *)
(** * The scheduler's critical sections keep the invariant

    One lemma per section: scheduling, completions, timers and retries, then
    renders, verdicts and terms. *)

From Stdlib Require Import ZArith Lia.
From stdpp Require Import base strings option list.
From S2P Require Import Prelude GoStd Threads SchedState Scheduler SchedSystem SchedInv.

Open Scope Z_scope.

(** Programs that end with an update, and updates followed by more. *)
Section rules.
Context {St : Type} (Inv : St → Prop) (Rely Guar : St → St → Prop) (Blocked : St → Prop) `{!PreOrder Rely}.

Lemma runs_update {A} f (k : unit → prog St A) Q s :
  (∀ s1, Rely s s1 → Inv s1 → Inv (f s1) ∧ Guar s1 (f s1) ∧ runs Inv Rely Guar Blocked (k tt) Q (f s1)) →
  runs Inv Rely Guar Blocked (mbind k (update f)) Q s.
Proof using. intros Hf. by apply runs_locked. Qed.

Lemma runs_last f Q s :
  (∀ s1, Rely s s1 → Inv s1 → Inv (f s1) ∧ Guar s1 (f s1) ∧ ∀ s2, Rely (f s1) s2 → Inv s2 → Q tt s2) →
  runs Inv Rely Guar Blocked (update f) Q s.
Proof using. intros Hf. apply (runs_update f Ret). intros s1 Hr Hi. by apply Hf. Qed.

Lemma runs_reading {A B} (f : St → B) (k : B → prog St A) Q s :
  Reflexive Guar →
  (∀ s1, Rely s s1 → Inv s1 → runs Inv Rely Guar Blocked (k (f s1)) Q s1) →
  runs Inv Rely Guar Blocked (mbind k (reading f)) Q s.
Proof using. intros Hg Hf. apply runs_locked. intros s1 Hr Hi. cbn. split_and!; [done|reflexivity|auto]. Qed.
End rules.

(** [solve_inv]: an update of fields that the invariant reads as they were. *)
Ltac open_inv H :=
  destruct H as [Hhist Hslot Hcomp Hids [Hpin Hacc] (Hval & Hacpt & Hpend & Hsched & Hdrain) [Hretry Hbudget]].

Ltac solve_inv :=
  constructor; unfold slotOk, gateOk, sourcesOk, retriesOk in *; cbn in *; try done; try (by split_and!).

Section sections.
Context (cfg : Config).
Implicit Types s : Sched.

#[local] Ltac frame H := open_inv H; solve_inv.

(** ** Adding to the history *)

Lemma record_event_inv e s :
  Inv cfg s → allowed cfg e (history s) → eventEntry e = true →
  (∀ id, e ≠ HAccepted id) →
  gateHeld (e :: history s) = gateHeld (history s) →
  (gatePassed (history s) = true → gatePassed (e :: history s) = true) →
  lastRetry (e :: history s) = lastRetry (history s) →
  Inv cfg (record e s).
Proof using.
  intros Hi Hal He Hna Hg Hp Hr. assert (grows termEntry (history s) (e :: history s)) as Hgr.
  { apply grows_one. by apply eventEntry_term. }
  pose proof (λ id, grows_unpublished id (history s) (e :: history s) (grows_one _ _ _ He)) as Hu.
  pose proof (inv_sources cfg s Hi) as Hsrc. apply (sourcesOk_grows s (record e s) Hgr eq_refl eq_refl) in Hsrc.
  open_inv Hi. constructor.
  - by split.
  - by apply (slotOk_entry e s).
  - done.
  - intros id. cbn [record history world]. rewrite Hu. apply Hids.
  - split; cbn [record renders history]; [by rewrite Hg|auto].
  - done.
  - split; cbn [record retries history]; [by rewrite Hr|done].
Qed.

(** A published event other than a deployment. *)
Lemma record_published_inv event s :
  Inv cfg s → loopEntry (HPublished event) = false → Inv cfg (record (HPublished event) s).
Proof using.
  intros Hi He. apply record_event_inv; try done; [by destruct event|]. cbn [eventEntry]. by rewrite He.
Qed.

(** ** Scheduling *)

Lemma sourced_pending s dep :
  Inv cfg s → sourced (dep_occurrence dep) (history s) → Inv cfg (set_pending (Some dep) s).
Proof using. intros Hi Hs. frame Hi. split_and!; try done. by intros dep' [= <-]. Qed.

Lemma no_pending s : Inv cfg s → Inv cfg (set_pending None s).
Proof using. intros Hi. frame Hi. Qed.

Lemma revision_inv v s : Inv cfg s → Inv cfg (set_workRevision v s).
Proof using. intros Hi. frame Hi. Qed.

Lemma pendingSignal_inv v s : Inv cfg s → Inv cfg (set_pendingSignal v s).
Proof using. intros Hi. frame Hi. Qed.

Lemma installPending_section dep s :
  Inv cfg s → sourced (dep_occurrence dep) (history s) →
  let s' := if negb (pendingRevisionCurrent s dep) || negb (drainAdmits s (dep_occurrence dep)) then s
            else set_pendingSignal true (set_pending (Some dep) s) in
  Inv cfg s' ∧ quiet s s'.
Proof using.
  intros Hi Hs s'. subst s'. destruct (negb _ || _).
  - split; [done|]. split; reflexivity.
  - split; [by apply pendingSignal_inv, sourced_pending|]. split; split_and!; try done; cbn.
    + by right.
Qed.

(** ** Completions *)

Lemma retire_section event o s :
  Inv cfg s → acknowledged (slot s) = None →
  (∀ id, ce_deploymentID event = Some id → publishedID id (history s) = true) →
  let r := retireActiveDeployment event o s in
  Inv cfg r.2 ∧ relyLoop s r.2
  ∧ match r.1 with
    | None => acknowledged (slot r.2) = None
    | Some (_, occurrence) => ∃ id, slot r.2 = SlotAcknowledged id ∧ ce_deploymentID event = Some id
    end.
Proof using.
  intros Hi Hack Hpub r. subst r. unfold retireActiveDeployment.
  destruct (ce_deploymentID event) as [id|] eqn:Eid; [|split_and!; [done|reflexivity|done]].
  destruct (negb _ || _ || _) eqn:Eg; [split_and!; [done|reflexivity|done]|].
  apply orb_false_elim in Eg as [[Hfl Hid]%orb_false_elim _]. apply negb_false_iff in Hfl.
  apply negb_false_iff, bool_decide_eq_true in Hid. cbn [fst snd].
  assert (slot s = SlotClaimed id true) as Hsl.
  { pose proof (inv_slot cfg s Hi) as Hslot. unfold slotOk in Hslot. specialize (Hpub id eq_refl).
    destruct (slot s) as [|id' []|id' p|id'|id']; try (destruct Hslot; congruence).
    - destruct Hslot as (_ & Ha & _). congruence.
    - destruct Hslot as (_ & Ha & _ & _ & Hn). congruence. }
  set (s' := record _ _). pose proof (sourcesOk_grows s s' (grows_one _ (HAccepted id) _ eq_refl) eq_refl eq_refl
    (inv_sources cfg s Hi)) as Hsrc.
  open_inv Hi. unfold slotOk in Hslot. rewrite Hsl in Hslot. destruct Hslot as (_ & _ & Hlt & Hopen). split_and!.
  - constructor; [..|exact Hsrc|]; unfold slotOk, gateOk, retriesOk; cbn; try done; try (by split_and!).
    by rewrite Hcomp, Hsl.
  - split_and!; try done; cbn.
    + rewrite Hsl. right. right. split; [done|]. by left.
    + by apply grows_one.
  - cbn. by eauto.
Qed.

Lemma signal_section s :
  Inv cfg s → ∀ id, slot s = SlotAcknowledged id →
  let s' := set_completed true (match slot s with SlotAcknowledged id => set_slot (SlotSignalled id) s | _ => s end) in
  Inv cfg s' ∧ relyLoop s s' ∧ acknowledged (slot s') = None.
Proof using.
  intros Hi id Hs s'. subst s'. rewrite Hs. split_and!.
  - open_inv Hi. unfold slotOk in Hslot. rewrite Hs in Hslot. solve_inv.
  - split_and!; try done. cbn. rewrite Hs. by right.
  - done.
Qed.

(** ** Sections that change nothing the invariant reads *)

#[local] Ltac same H := split; [frame H|split_and!; done].

Lemma timedOut_section s :
  Inv cfg s → Inv cfg (timedOutDeployment cfg s).2 ∧ relyLoop s (timedOutDeployment cfg s).2.
Proof using.
  intros Hi. unfold timedOutDeployment. destruct (negb _); [by split|].
  destruct (deploymentStartTime _); [|by split]. destruct (_ <=? _); [by split|]. same Hi.
Qed.

Lemma startRecovery_section s : Inv cfg s → Inv cfg (startRecovery cfg s) ∧ relyLoop s (startRecovery cfg s).
Proof using.
  intros Hi. unfold startRecovery. destruct (negb _ || _ || _ || _); [by split|].
  destruct (_ || _); [by split|]. same Hi.
Qed.

Lemma stopRetryTimer_section s : Inv cfg s → Inv cfg (stopRetryTimer s) ∧ quiet s (stopRetryTimer s).
Proof using.
  intros Hi. unfold stopRetryTimer. cbn. destruct (retryTimer (retries s)); (split; [frame Hi|split; split_and!; done]).
Qed.

Lemma armRetryTimer_section reason s : Inv cfg s → Inv cfg (armRetryTimer reason s) ∧ quiet s (armRetryTimer reason s).
Proof using. intros Hi. unfold armRetryTimer. split; [frame Hi|split; split_and!; done]. Qed.

Lemma retireOldPodSet_section hash s :
  Inv cfg s → Inv cfg (retireOldPodSet hash s).2 ∧ relyLoop s (retireOldPodSet hash s).2.
Proof using.
  intros Hi. unfold retireOldPodSet. destruct (_ && _); [|by split]. split; [frame Hi|]. split_and!; try done.
  cbn. by left.
Qed.

Lemma dropPending_section o s :
  let s' := match pending (work s) with
            | Some dep => if samePlan (Some (dep_occurrence dep)) (Some o)
                          then set_pending None (set_workRevision (workRevision (work s) + 1) s) else s
            | None => s
            end in
  Inv cfg s → Inv cfg s' ∧ relyLoop s s'.
Proof using.
  intros s' Hi. subst s'. destruct (pending (work s)); [|by split]. destruct (samePlan _ _); [|by split].
  split; [frame Hi|]. split_and!; try done. cbn. by left.
Qed.

Lemma cache_section event o s :
  let s' := let s := set_lastDispatchedOccurrence o s in
    if (ce_failed event =? 0) && (ce_pendingReloads event =? 0)
    then set_lastDeployedTime (Some (now (world s)))
           (set_lastDeployedPodSetHash (ce_podSetHash event) (set_lastDeployedOccurrence o s))
    else s in
  Inv cfg s → Inv cfg s' ∧ relyLoop s s'.
Proof using. intros s' Hi. subst s'. cbn zeta. destruct (_ && _); same Hi. Qed.

(** ** Timers and budgets *)

Lemma failureRetryBackoff_bounds attempt : 0 < failureRetryBackoff cfg attempt <= maxFailureRetryBackoff.
Proof using.
  unfold failureRetryBackoff. destruct (_ || _) eqn:E; [done|]. apply orb_false_elim in E as [E1 E2]. lia.
Qed.

Lemma followUpWait_bounds event t : pendingReloadFollowUpMargin <= followUpWait event t <= maxFailureRetryBackoff.
Proof using.
  unfold followUpWait, maxFailureRetryBackoff, pendingReloadFollowUpMargin, second, millisecond. cbn zeta.
  repeat match goal with |- context [?x <? ?y] => destruct (Z.ltb_spec x y) end; lia.
Qed.

(** A reload that is due in more than the longest duration is polled at once: the
    margin that is added to the saturated wait wraps it around. *)
Example far_reload_polled_at_once :
  followUpWait (mkCompletion None None 0 0 1 "" (Some (2 ^ 63))) 0 = pendingReloadFollowUpMargin.
Proof using. vm_compute. reflexivity. Qed.

Lemma followUp_section event s :
  let s' := if retryStopped (retries s) then s
            else record (HFollowUp (followUpWait event (now (world s))))
                   (set_followUpArmed true (armRetryTimer pendingReloadFollowUpReason (stopRetryTimer s))) in
  Inv cfg s → Inv cfg s' ∧ relyLoop s s' ∧ slot s' = slot s.
Proof using.
  intros s' Hi. subst s'. destruct (retryStopped (retries s)); [by split_and!|].
  destruct (stopRetryTimer_section s Hi) as [Hi1 [_ Hq1]].
  destruct (armRetryTimer_section pendingReloadFollowUpReason _ Hi1) as [Hi2 [_ Hq2]].
  set (s2 := armRetryTimer _ _) in *. assert (Inv cfg (set_followUpArmed true s2)) as Hi3 by frame Hi2. split_and!.
  - apply record_event_inv; try done. apply followUpWait_bounds.
  - etrans; [exact Hq1|]. etrans; [exact Hq2|]. split_and!; try done. by apply grows_one.
  - subst s2. unfold armRetryTimer, stopRetryTimer. cbn. by destruct (retryTimer (retries s)).
Qed.

Lemma dropRetries_section s : Inv cfg s → Inv cfg (dropRetries s) ∧ relyLoop s (dropRetries s) ∧ slot (dropRetries s) = slot s.
Proof using.
  intros Hi. destruct (stopRetryTimer_section s Hi) as [Hi1 [_ Hq1]]. unfold dropRetries. cbn zeta.
  assert (slot (stopRetryTimer s) = slot s) as Hsl by (unfold stopRetryTimer; cbn; by destruct (retryTimer (retries s))).
  set (s1 := stopRetryTimer s) in *.
  set (s2 := match pending (work s1) with Some dep => _ | None => _ end).
  assert (Inv cfg s2 ∧ relyLoop s1 s2 ∧ slot s2 = slot s1) as (Hi2 & Hq2 & Hsl2).
  { subst s2. destruct (pending (work s1)); [|by split_and!]. destruct (_ =? _); [by split_and!|].
    split_and!; [by apply no_pending| |done]. split_and!; try done. cbn. by left. }
  pose proof (sourcesOk_grows s2 (record HRetryReset (set_lastFailedRetry None (set_deployFailureRetries 0 s2)))
    (grows_one _ HRetryReset _ eq_refl) eq_refl eq_refl (inv_sources cfg s2 Hi2)) as Hsrc.
  split_and!.
  - open_inv Hi2. constructor; [..|exact Hsrc|]; [|by apply (slotOk_entry HRetryReset s2)|..];
      unfold gateOk, retriesOk in *; cbn; done.
  - etrans; [exact Hq1|]. etrans; [exact Hq2|]. split_and!; try done. by apply grows_one.
  - cbn. congruence.
Qed.

(** Granting a retry, with the budget of the render that failed. *)
Lemma failureRetry_section event s :
  let s' := if retryStopped (retries s) then s
    else
      match inspectOccurrence (eventOccurrence (ce_occurrence event)) with
      | None => s
      | Some o =>
          let s := if sameOccurrence (Some o) (lastFailedRetry (retries s)) then s
                   else set_deployFailureRetries 0 (set_lastFailedRetry (Some o) s) in
          if maxDeployFailureRetries <=? deployFailureRetries (retries s) then s
          else
            let attempt := deployFailureRetries (retries s) + 1 in
            record (HRetry o attempt (failureRetryBackoff cfg attempt))
              (armRetryTimer "deploy_failure_retry" (stopRetryTimer (set_deployFailureRetries attempt s)))
      end in
  Inv cfg s → Inv cfg s' ∧ relyLoop s s' ∧ slot s' = slot s.
Proof using.
  intros s' Hi. subst s'. destruct (retryStopped (retries s)); [by split_and!|].
  destruct (inspectOccurrence _) as [o|] eqn:Eo; [|by split_and!].
  assert (occ_authentic o = true) as Hauth.
  { destruct (eventOccurrence _) as [x|]; [|done]. cbn in Eo. destruct (occ_authentic x) eqn:Ea; [|done].
    cbn in Eo. destruct (occ_consistent x); [|done]. by injection Eo as <-. }
  set (s1 := if sameOccurrence _ _ then s else _). cbn zeta.
  assert (∃ r, s1 = onRetries (λ _, r) s ∧ lastFailedRetry r ≠ None
          ∧ (∀ x, lastFailedRetry r = Some x → occ_authentic x = true ∧ occ_address x = occ_address o)
          ∧ 0 <= deployFailureRetries r <= maxDeployFailureRetries
          ∧ deployFailureRetries r = attemptsOf o (history s)
          ∧ (deployFailureRetries r = maxDeployFailureRetries → r = retries s)) as (r & E1 & Hne & Hsame & Hrange & Hatt & Hfull).
  { pose proof (inv_retries cfg s Hi) as [Hretry Hbudget]. unfold attemptsOf. rewrite Hretry. subst s1.
    destruct (sameOccurrence (Some o) (lastFailedRetry (retries s))) eqn:Esame.
    - exists (retries s). destruct (lastFailedRetry (retries s)) as [x|] eqn:Ex; [|done].
      cbn in Esame. rewrite Hauth in Esame. destruct (occ_authentic x) eqn:Eax; [|done]. cbn in Esame.
      apply N.eqb_eq in Esame. destruct (Hbudget x eq_refl) as [_ ?]. rewrite Esame, N.eqb_refl.
      split_and!; try done; try lia; [by destruct s|]. by intros y [= <-].
    - eexists. split; [by destruct s|]. cbn. split_and!; try done.
      + by intros x [= <-].
      + destruct (lastFailedRetry (retries s)) as [x|] eqn:Ex; [|done].
        destruct (N.eqb_spec (occ_address x) (occ_address o)) as [E|]; [|done]. cbn in Esame.
        destruct (Hbudget x eq_refl) as [Hax _]. rewrite Hauth, Hax, E, N.eqb_refl in Esame. done. }
  clearbody s1. subst s1. cbn [retries onRetries]. destruct (Z.leb_spec maxDeployFailureRetries (deployFailureRetries r)).
  { rewrite (Hfull ltac:(lia)). replace (onRetries _ s) with s by (by destruct s). by split_and!. }
  set (attempt := deployFailureRetries r + 1). set (wait := failureRetryBackoff cfg attempt).
  set (s2 := set_deployFailureRetries attempt _). set (s3 := armRetryTimer _ _).
  assert (renders s3 = renders s ∧ active s3 = active s ∧ history s3 = history s ∧ slot s3 = slot s
          ∧ completed (world s3) = completed (world s) ∧ nextEventID (world s3) = nextEventID (world s)
          ∧ cancelled (world s3) = cancelled (world s) ∧ pendingSignal (world s3) = pendingSignal (world s)
          ∧ pending (work s3) = pending (work s) ∧ lastScheduled (work s3) = lastScheduled (work s)
          ∧ drainOccurrence (work s3) = drainOccurrence (work s)
          ∧ lastFailedRetry (retries s3) = lastFailedRetry r ∧ deployFailureRetries (retries s3) = attempt) as
    (Er & Ea & Eh & Es & Ec & En & Eca & Eps & Ep & El & Edr & Elf & Ed).
  { subst s3 s2. unfold armRetryTimer, stopRetryTimer. cbn. destruct (retryTimer r); by split_and!. }
  clearbody s3. clear s2. assert (grows termEntry (history s) (HRetry o attempt wait :: history s)) as Hg by by apply grows_one.
  open_inv Hi. split_and!.
  - constructor; cbn [record history slot world renders active retries work]; rewrite ?Eh, ?Es, ?Ec, ?En.
    + split; [|done]. unfold allowed. split_and!; [subst attempt; lia|subst attempt; lia|subst attempt; lia|
        by apply failureRetryBackoff_bounds..].
    + apply (slotOk_entry (HRetry o attempt wait) s); try done. cbn. by rewrite Eh.
    + done.
    + intros id Hid. by apply Hids.
    + unfold gateOk. cbn [record renders history]. by rewrite Er, Eh.
    + unfold sourcesOk, sourcedOption. cbn [record renders work history]. rewrite Er, Ep, El, Edr, Eh.
      split_and!; intros; (eapply grows_sourced; [exact Hg|]); [by apply Hval|by eapply Hacpt|by apply Hpend|by apply Hsched|by apply Hdrain].
    + unfold retriesOk. cbn [record retries history lastRetry]. rewrite Elf, Ed.
      destruct (lastFailedRetry r) as [x|]; [|done]. destruct (Hsame x eq_refl) as [? ->]. split; [done|].
      intros y [= <-]. split; [done|]. subst attempt. lia.
  - split_and!; cbn [record slot history world work]; rewrite ?Es, ?Eh, ?En, ?Eca; try done.
    + by apply grows_one.
    + unfold signalled. cbn [record work world]. by rewrite Ep, Eps.
  - done.
Qed.
End sections.

(** ** The sections of renders, verdicts and terms *)

Section gate.
Context (cfg : Config).
Implicit Types s : Sched.

#[local] Ltac frame H := open_inv H; solve_inv.

(** ** Renders *)

Lemma rendered_section o s :
  let pinned := gatePinned (renders s) || awaitingFirstAcceptedRender cfg (renders s) in
  let s' := record (HRendered o pinned) (set_lastRenderedOccurrence (Some o) s) in
  Inv cfg s → Inv cfg s' ∧ relyLoop s s' ∧ slot s' = slot s.
Proof using.
  intros pinned s' Hi. split_and!; [|split_and!; try done; by apply grows_one|done].
  apply record_event_inv; try done. frame Hi.
Qed.

(** What makes a promotion right. *)
Definition promotable (s : Sched) : Prop :=
  ∀ o, inspectOccurrence (lastRenderedOccurrence (renders s)) = Some o → allowed cfg (HPromoted o) (history s).

Lemma promote_section correlationID coalescible s :
  Inv cfg s → promotable s →
  let r := promoteRendered correlationID coalescible s in
  Inv cfg r.2 ∧ relyLoop s r.2 ∧ slot r.2 = slot s
  ∧ (∀ o es, r.1 = Some (o, es) → sourced o (history r.2))
  ∧ (gatePassed (history s) = true → gatePassed (history r.2) = true).
Proof using.
  intros Hi Hp r. subst r. unfold promoteRendered.
  destruct (inspectOccurrence _) as [o|] eqn:Eo; [|by split_and!]. specialize (Hp o Eo). cbn [fst snd].
  assert (sourced o (HPromoted o :: history s)) as Hs by (left; cbn; apply elem_of_cons; by left).
  assert (grows termEntry (history s) (HPromoted o :: history s)) as Hg by by apply grows_one.
  split_and!.
  - open_inv Hi. constructor; [|by apply (slotOk_entry (HPromoted o) s)|..];
      unfold gateOk, sourcesOk, retriesOk in *; cbn; try done.
    unfold sourcedOption. split_and!; [by intros x [= <-]|..]; intros; (eapply grows_sourced; [exact Hg|]);
      [by eapply Hacpt|by apply Hpend|by apply Hsched|by apply Hdrain].
  - split_and!; try done. by apply grows_one.
  - done.
  - by intros x es [= <- <-].
  - done.
Qed.

(** ** Verdicts *)

Lemma accept_section s : Inv cfg s → gatePassed (history s) = true → Inv cfg (acceptRender s) ∧ relyLoop s (acceptRender s).
Proof using.
  intros Hi Hp. split; [|by split_and!]. frame Hi. split_and!; try done. by intros o c [= <- <-].
Qed.

Lemma closeGate_section o refused s :
  let r := closeGate o refused s in Inv cfg s → Inv cfg r.2 ∧ relyLoop s r.2 ∧ slot r.2 = slot s.
Proof using.
  intros r Hi. subst r. unfold closeGate. destruct (matchesRender o (renders s)); [|by split_and!]. cbn [fst snd].
  set (s1 := if refused then _ else _).
  assert (active s1 = active s ∧ history s1 = history s ∧ slot s1 = slot s ∧ world s1 = world s ∧ work s1 = work s
          ∧ retries s1 = retries s ∧ gatePinned (renders s1) = true ∧ acceptedRender (renders s1) = acceptedRender (renders s)
          ∧ sourcedOption (lastValidatedOccurrence (renders s1)) (history s)) as
    (Ea & Eh & Es & Ew & Ewk & Er & Eg & Eac & Ev).
  { pose proof (inv_sources cfg s Hi) as (Hval & Hacpt & _). subst s1.
    destruct refused; [|by split_and!]. unfold rollBackToAcceptedRender. cbn.
    destruct (acceptedRender (renders s)) as [[x c]|] eqn:Ex; [|by split_and!].
    destruct (_ || _); [by split_and!|]. cbn. split_and!; try done. by eapply Hacpt. }
  clearbody s1. assert (grows termEntry (history s) (HRefused o :: history s)) as Hg by by apply grows_one.
  split_and!.
  - open_inv Hi. constructor; [|apply (slotOk_entry (HRefused o) s); cbn; try done; congruence|..];
      unfold gateOk, sourcesOk, sourcedOption, retriesOk in *;
      cbn [record renders active work retries world slot history]; rewrite ?Ea, ?Eh, ?Es, ?Ew, ?Ewk, ?Er, ?Eg, ?Eac; try done.
    split_and!; intros; (eapply grows_sourced; [exact Hg|]);
      [by apply Ev|by eapply Hacpt|by apply Hpend|by apply Hsched|by apply Hdrain].
  - unfold relyLoop, signalled. cbn [record slot world history work]. rewrite Es, Ew, Eh, Ewk.
    split_and!; try done. by apply grows_one.
  - done.
Qed.

Lemma verdict_section o ok s :
  let r := takeVerdict cfg o ok s in
  Inv cfg s →
  Inv cfg r.2 ∧ relyLoop s r.2 ∧ slot r.2 = slot s
  ∧ (r.1 = VerdictPassed true →
     lastGate (history r.2) = Some (HPassed o true) ∧ gateHeld (history r.2) = false ∧ gatePassed (history r.2) = true
     ∧ samePlan (lastRenderedOccurrence (renders r.2)) (Some o) = true).
Proof using.
  intros r Hi. subst r. unfold takeVerdict.
  set (wasPinned := gatePinned (renders s) || _). set (names := samePlan (lastRenderedOccurrence _) _).
  set (already := samePlan (lastValidatedOccurrence _) _).
  destruct (negb names && negb already) eqn:Em; [by split_and!|]. destruct (negb ok); [by split_and!|].
  destruct (negb (bool_decide (retainedRenderError (retained s) = ""%string)) && negb already) eqn:Er; [by split_and!|]. cbn zeta. cbn [fst snd].
  set (opened := negb wasPinned || names). set (s1 := if already then acceptRender s else s).
  set (s2 := if opened then set_gatePinned false s1 else s1).
  assert (active s2 = active s ∧ history s2 = history s ∧ slot s2 = slot s ∧ world s2 = world s ∧ work s2 = work s
          ∧ retries s2 = retries s ∧ gatePinned (renders s2) = (if opened then false else gatePinned (renders s))
          ∧ lastRenderedOccurrence (renders s2) = lastRenderedOccurrence (renders s)
          ∧ lastValidatedOccurrence (renders s2) = lastValidatedOccurrence (renders s)
          ∧ (∀ x c, acceptedRender (renders s2) = Some (x, c) → sourcedOption x (history s))) as
    (Ea & Eh & Es & Ew & Ewk & Ert & Eg & Elr & Elv & Eac).
  { pose proof (inv_sources cfg s Hi) as (Hval & Hacpt & _). subst s2 s1.
    destruct opened, already; cbn; split_and!; try done; by intros x c [= <- <-]. }
  clearbody s2. clear s1. assert (grows termEntry (history s) (HPassed o opened :: history s)) as Hg by by apply grows_one.
  split_and!.
  - open_inv Hi. constructor; [|apply (slotOk_entry (HPassed o opened) s); cbn; try done; congruence|..];
      unfold gateOk, sourcesOk, sourcedOption, retriesOk in *;
      cbn [record renders active work retries world slot history];
      rewrite ?Ea, ?Eh, ?Es, ?Ew, ?Ewk, ?Ert, ?Eg, ?Elv; try done.
    + by destruct opened.
    + split_and!; intros; (eapply grows_sourced; [exact Hg|]);
        [by apply Hval|by eapply Eac|by apply Hpend|by apply Hsched|by apply Hdrain].
  - unfold relyLoop, signalled. cbn [record slot world history work]. rewrite Es, Ew, Eh, Ewk.
    split_and!; try done. by apply grows_one.
  - done.
  - intros [= Hv]. apply andb_true_iff in Hv as [[_ Hn]%andb_true_iff _].
    cbn [record history renders]. rewrite Eh, Elr. subst opened. fold names. rewrite Hn, orb_true_r. by split_and!.
Qed.

(** ** Terms *)

Lemma reset_section s :
  Inv cfg s → acknowledged (slot s) = None →
  Inv cfg (resetDeploymentTerm s) ∧ relyLoop s (resetDeploymentTerm s)
  ∧ acknowledged (slot (resetDeploymentTerm s)) = None.
Proof using.
  intros Hi Hack. unfold resetDeploymentTerm.
  set (s1 := match slot (onActive _ s) with SlotClaimed id p => _ | _ => _ end). cbn zeta.
  set (s2 := set_lastPodSetHash _ _). set (s3 := stopRetryTimer _).
  assert (renders s3 = renders s ∧ active s3 = noActive ∧ history s3 = history s ∧ slot s3 = slot s1
          ∧ completed (world s3) = completed (world s) ∧ nextEventID (world s3) = nextEventID (world s)
          ∧ cancelled (world s3) = cancelled (world s) ∧ pending (work s3) = None
          ∧ lastScheduled (work s3) = None ∧ drainOccurrence (work s3) = drainOccurrence (work s)
          ∧ slot s1 = match slot s with SlotClaimed id p => SlotLost id p | x => x end) as
    (Er & Ea & Eh & Es & Ec & En & Eca & Ep & El & Ed & Es1).
  { subst s3 s2 s1. unfold stopRetryTimer. cbn.
    destruct (slot s) eqn:E; cbn; destruct (retryTimer (retries s)); cbn; rewrite ?E; by split_and!. }
  clearbody s3. clear s2. assert (grows termEntry (history s) (HReset :: history s)) as Hg by by apply grows_one.
  open_inv Hi. split_and!.
  - constructor; unfold slotOk, gateOk, sourcesOk, sourcedOption, retriesOk in *; cbn;
      rewrite ?Er, ?Ea, ?Eh, ?Es, ?Ec, ?En, ?Ep, ?El, ?Ed, ?Es1; try done; try (by split_and!).
    + assert (HReset ∈ HReset :: thisTerm (history s)) as Hin by by apply elem_of_cons; left.
      clear -Hslot Hin. destruct (slot s) as [|id []|id []|id|id]; cbn; tauto.
    + rewrite Hcomp. by destruct (slot s).
    + split_and!; try done. intros x Hx. eapply grows_sourced; [exact Hg|]. by apply Hdrain.
  - unfold relyLoop, signalled. cbn. rewrite Es, Es1, Eh, En, Eca, Ep. split_and!; try done; try tauto.
    + destruct (slot s); cbn; auto.
    + by apply grows_one.
  - cbn. rewrite Es, Es1. by destruct (slot s).
Qed.

Lemma reset_fields s :
  active (resetDeploymentTerm s) = noActive ∧ lastFailedRetry (retries (resetDeploymentTerm s)) = None
  ∧ lastValidatedOccurrence (renders (resetDeploymentTerm s)) = None
  ∧ acceptedRender (renders (resetDeploymentTerm s)) = None
  ∧ pending (work (resetDeploymentTerm s)) = None.
Proof using.
  unfold resetDeploymentTerm. set (s1 := match slot (onActive _ s) with SlotClaimed id p => _ | _ => _ end). cbn zeta.
  set (s2 := set_retryStopped true _).
  assert (active s2 = noActive ∧ pending (work s2) = None) as [Ea Ep].
  { subst s2 s1. by destruct (slot (onActive _ s)). }
  clearbody s2. assert (active (stopRetryTimer s2) = active s2 ∧ pending (work (stopRetryTimer s2)) = pending (work s2))
    as [E1 E2].
  { unfold stopRetryTimer. cbn. by destruct (retryTimer (retries s2)). }
  set (s3 := stopRetryTimer s2) in *. clearbody s3. cbn. rewrite E1, E2. by split_and!.
Qed.

(** A new term forgets the slot of the old one. *)
Lemma openTerm_inv s :
  Inv cfg s → active s = noActive → lastFailedRetry (retries s) = None → lastValidatedOccurrence (renders s) = None →
  acceptedRender (renders s) = None → pending (work s) = None → Inv cfg (openTerm s).
Proof using.
  intros Hi Ea Ef Ev Eac Ep. open_inv Hi.
  constructor; unfold slotOk, gateOk, sourcesOk, sourcedOption, retriesOk in *; cbn;
    rewrite ?Ea, ?Ef, ?Ev, ?Eac, ?Ep in *; try done; by split_and!.
Qed.

Lemma beginTerm_inv s : Inv cfg s → acknowledged (slot s) = None → Inv cfg (beginTerm s).
Proof using.
  intros Hi Hack. destruct (reset_section s Hi Hack) as (Hi1 & _ & _).
  destruct (reset_fields s) as (? & ? & ? & ? & ?). by apply openTerm_inv.
Qed.

Lemma recovered_section o s :
  Inv cfg s → Inv cfg (record (HRecovered o) s) ∧ relyLoop s (record (HRecovered o) s)
    ∧ sourced o (history (record (HRecovered o) s)).
Proof using.
  intros Hi. split_and!; [by apply record_event_inv|split_and!; try done; by apply grows_one|].
  right. cbn. apply elem_of_cons. by left.
Qed.
End gate.
