(* ===== verification/SchedRuns.v ===== *)
(** * The scheduler's goroutines keep the invariant

    Every handler of the event goroutine, section by section, whatever the deploy
    loop, the retry callbacks and the drains do in between; then those. *)

From Stdlib Require Import ZArith Lia.
From stdpp Require Import base strings option list.
From S2P Require Import Prelude GoStd Threads SchedState Scheduler SchedSystem SchedInv SchedSections.

Open Scope Z_scope.

Section event.
Context (cfg : Config).
Implicit Types s : Sched.

#[local] Ltac frame H := open_inv H; solve_inv.

(** Between two sections of the event goroutine. *)
Lemma relyEvent_ack s s' : relyEvent s s' → acknowledged (slot s) = None → acknowledged (slot s') = None.
Proof using. intros (_ & -> & _). done. Qed.

Lemma relyEvent_sourced o s s' : relyEvent s s' → sourced o (history s) → sourced o (history s').
Proof using. intros H%relyEvent_callback. by apply grows_sourced. Qed.

Lemma relyLoop_sourced o s s' : relyLoop s s' → sourced o (history s) → sourced o (history s').
Proof using. intros H%relyLoop_callback. by apply grows_sourced. Qed.

(** The post-conditions of the event goroutine's programs that outlast the others. *)
Definition lasting (Q : Sched → Prop) : Prop := ∀ s s', relyEvent s s' → Q s → Q s'.

Definition idle s : Prop := acknowledged (slot s) = None.

Lemma idle_lasting : lasting idle.
Proof using. intros s s'. apply relyEvent_ack. Qed.

Definition eventProg (p : prog Sched unit) (Q : Sched → Prop) : Sched → Prop :=
  runs (Inv cfg) relyEvent relyLoop neverBlocked p (λ _ s, Q s).

Lemma eventProg_ret Q s : lasting Q → Q s → eventProg (mret tt) Q s.
Proof using. intros HQ Hs s1 Hr _. by eapply HQ. Qed.

Lemma eventProg_update f Q s :
  lasting Q → (∀ s1, relyEvent s s1 → Inv cfg s1 → Inv cfg (f s1) ∧ relyLoop s1 (f s1) ∧ Q (f s1)) →
  eventProg (update f) Q s.
Proof using.
  intros HQ Hf. apply runs_last. intros s1 Hr Hi. destruct (Hf s1 Hr Hi) as (? & ? & ?).
  split_and!; [done|done|]. intros s2 Hr2 _. by eapply HQ.
Qed.

Lemma eventProg_bind (p : prog Sched unit) (k : unit → prog Sched unit) P Q s :
  eventProg p P s → (∀ s1, Inv cfg s1 → P s1 → eventProg (k tt) Q s1) → eventProg (mbind k p) Q s.
Proof using.
  intros Hp Hk. apply runs_bind; [apply _|]. eapply runs_mono; [|exact Hp]. intros [] s1 Hi HP. by apply Hk.
Qed.

(** A section that does not touch the slot. *)
Lemma idle_section s s' : slot s' = slot s → idle s → idle s'.
Proof using. unfold idle. by intros ->. Qed.

Lemma publish_runs event Q s :
  loopEntry (HPublished event) = false → lasting Q → (∀ s, Q s → Q (record (HPublished event) s)) → Q s →
  eventProg (publish event) Q s.
Proof using.
  intros He HQ Hrec Hs. apply eventProg_update; [done|]. intros s1 Hr Hi. split_and!; [by apply record_published_inv| |].
  - split_and!; try done. apply grows_one. cbn [eventEntry]. by rewrite He.
  - apply Hrec. by eapply HQ.
Qed.

Lemma publish_idle event s : loopEntry (HPublished event) = false → idle s → eventProg (publish event) idle s.
Proof using. intros He Hs. apply publish_runs; [done|apply idle_lasting|done|done]. Qed.

(** ** Scheduling *)

Lemma scheduleOrQueue_runs o es reason c b Q s :
  lasting Q → (∀ s s', Q s → renders s' = renders s → slot s' = slot s → history s' = history s → Q s') →
  sourcedOption o (history s) → Q s → eventProg (scheduleOrQueueOccurrence o es reason c b) Q s.
Proof using.
  intros HQ Hframe Hs HQs. unfold scheduleOrQueueOccurrence.
  destruct (inspectOccurrence o) as [x|] eqn:Ex; [|by apply eventProg_ret].
  assert (sourced x (history s)) as Hx.
  { apply Hs. destruct o as [y|]; [|done]. cbn in Ex. destruct (_ && _); [by injection Ex as <-|done]. }
  apply runs_locked. intros s1 Hr Hi. pose proof (HQ _ _ Hr HQs) as HQ1.
  destruct (cancelled (world s1) || _); cbn [fst snd].
  { split_and!; [done|reflexivity|by apply eventProg_ret]. }
  split_and!; [by apply revision_inv|by split_and!|]. apply eventProg_update; [done|]. intros s2 Hr2 Hi2.
  assert (sourced x (history s2)) as Hx2 by (eapply relyEvent_sourced; [exact Hr2|]; by eapply relyEvent_sourced).
  destruct (installPending_section cfg (mkScheduledDeployment (workRevision (work s1) + 1) 0 x es reason c b) s2 Hi2 Hx2)
    as [Hi3 [_ Hq]]. split_and!; [done|done|].
  assert (Q s2) as HQ2 by (eapply HQ; [exact Hr2|]; by eapply Hframe). destruct (negb _ || _); [done|]. by eapply Hframe.
Qed.

Lemma scheduleOrQueue_idle o es reason c b s :
  sourcedOption o (history s) → idle s → eventProg (scheduleOrQueueOccurrence o es reason c b) idle s.
Proof using.
  intros Hs Hid. apply scheduleOrQueue_runs; [apply idle_lasting| |done|done].
  intros s1 s2 H1 _ H2 _. by eapply idle_section.
Qed.

(** ** Renders *)

(** The gate has passed a render. *)
Definition idlePassed s : Prop := idle s ∧ gatePassed (history s) = true.

Lemma idlePassed_lasting : lasting idlePassed.
Proof using.
  intros s s' Hr [Hi Hp]. split; [by eapply relyEvent_ack|]. destruct Hr as (_ & _ & Hg).
  by destruct (grows_gate _ _ Hg) as (_ & -> & _).
Qed.

Lemma promotable_lasting s s' : relyEvent s s' → promotable cfg s → promotable cfg s'.
Proof using.
  intros (Hr & _ & Hg) Hp o Ho. rewrite Hr in Ho. specialize (Hp o Ho). cbn in *.
  by destruct (grows_gate _ _ Hg) as (-> & -> & -> & _).
Qed.

Lemma dispatchRender_runs c b reason Q s :
  lasting Q → (∀ s s', Q s → slot s' = slot s → (gatePassed (history s) = true → gatePassed (history s') = true) → Q s') →
  promotable cfg s → Q s → eventProg (dispatchRender cfg c b reason) Q s.
Proof using.
  intros HQ Hframe Hp HQs. apply runs_locked. intros s1 Hr Hi. pose proof (HQ _ _ Hr HQs) as HQ1.
  destruct (promote_section cfg c b s1 Hi (promotable_lasting _ _ Hr Hp)) as (Hi1 & Hg1 & Hsl & Hsrc & Hgp).
  set (r := promoteRendered c b s1) in *. assert (Q r.2) as HQr by (eapply Hframe; eauto).
  split_and!; [done|done|]. destruct r.1 as [[o es]|]; [|by apply eventProg_ret].
  specialize (Hsrc o es eq_refl). case_bool_decide; [by apply eventProg_ret|].
  apply runs_reading; [apply _|]. intros s2 Hr2 Hi2. assert (Q s2) as HQ2 by (by eapply HQ).
  destruct (renderAlreadyDeployed _ _ _ _).
  - unfold publishUnchangedRender. destruct (_ && _); [|by apply eventProg_ret].
    apply publish_runs; [done|done| |done]. intros s3 HQ3. by eapply Hframe.
  - apply scheduleOrQueue_runs; [done| | |done].
    + intros s3 s4 H3 _ H4 H5. eapply Hframe; [exact H3|done|]. by rewrite H5.
    + intros x [= <-]. by eapply relyEvent_sourced.
Qed.

Lemma handleTemplateRendered_runs carried trigger c b s :
  idle s → eventProg (handleTemplateRendered cfg carried trigger c b) idle s.
Proof using.
  intros Hid. unfold handleTemplateRendered. destruct (inspectOccurrence (eventOccurrence carried)) as [o|] eqn:Eo;
    [|apply eventProg_ret; [apply idle_lasting|done]].
  apply runs_update. intros s1 Hr Hi. split_and!; [frame Hi|by split_and!|].
  apply runs_locked. intros s2 Hr2 Hi2. destruct (rendered_section cfg o s2 Hi2) as (Hi3 & Hg3 & Hsl).
  pose proof (relyEvent_ack _ _ Hr2 (relyEvent_ack _ _ Hr Hid)) as Hid2.
  set (pinned := gatePinned (renders s2) || awaitingFirstAcceptedRender cfg (renders s2)) in *. cbn [fst snd].
  split_and!; [done|done|]. destruct pinned eqn:Ep; [apply eventProg_ret; [apply idle_lasting|done]|].
  apply dispatchRender_runs; [apply idle_lasting|intros ? ? ? H _; by eapply idle_section|..]; [|done].
  intros x Hx. cbn in Hx. assert (x = o) as ->.
  { destruct (_ && _); [by injection Hx as <-|done]. }
  apply orb_false_elim in Ep as [Ep1 Ep2]. pose proof (inv_gate cfg s2 Hi2) as [Hpin Hacc]. cbn.
  split_and!; [congruence| |by left]. intros Hre. apply Hacc. unfold awaitingFirstAcceptedRender in Ep2.
  rewrite Hre in Ep2. by destruct (acceptedRender (renders s2)).
Qed.

(** ** Retention *)

#[local] Ltac done_idle := apply eventProg_ret; [apply idle_lasting|done].

Lemma maybeRecover_runs s : idle s → eventProg (maybeRecoverRetained cfg) idle s.
Proof using.
  intros Hid. apply eventProg_update; [apply idle_lasting|]. intros s1 Hr Hi.
  destruct (startRecovery_section cfg s1 Hi) as [? ?]. split_and!; [done|done|].
  apply (idle_section s1); [|by eapply relyEvent_ack]. unfold startRecovery.
  destruct (negb _ || _ || _ || _); [done|]. by destruct (_ || _).
Qed.

Lemma renderFailed_runs message s : idle s → eventProg (renderFailedForRetention cfg message) idle s.
Proof using.
  intros Hid. apply runs_update. intros s1 Hr Hi. split_and!; [frame Hi|by split_and!|].
  apply maybeRecover_runs. by eapply relyEvent_ack.
Qed.

Lemma reportRetained_runs reason message Q s :
  lasting Q → (∀ s s', Q s → slot s' = slot s → grows eventEntry (history s) (history s') → Q s') → Q s →
  eventProg (reportRetained cfg reason message) Q s.
Proof using.
  intros HQ Hframe Hs. apply eventProg_update; [done|]. intros s1 Hr Hi. pose proof (HQ _ _ Hr Hs) as HQ1.
  destruct (_ || _); [split_and!; [done|reflexivity|done]|].
  split_and!.
  - apply record_published_inv; [|done]. frame Hi.
  - split_and!; try done. by apply grows_one.
  - eapply Hframe; [exact HQ1|done|]. by apply grows_one.
Qed.

Lemma handleRetainedResult_runs epoch podSet result s :
  idle s → eventProg (handleRetainedResult cfg epoch podSet result) idle s.
Proof using.
  intros Hid. apply runs_update. intros s1 Hr Hi. split_and!; [frame Hi|by split_and!|].
  apply runs_reading; [apply _|]. intros s2 Hr2 Hi2.
  assert (idle s2) as Hid2 by (eapply relyEvent_ack; [exact Hr2|]; by apply (relyEvent_ack _ _ Hr)).
  destruct (retainedResultCurrent cfg epoch podSet s2) as [es|]; [|done_idle].
  destruct result as [|message|o checksum]; [done_idle| |].
  { apply reportRetained_runs; [apply idle_lasting|intros ? ? ? H _; by eapply idle_section|done]. }
  apply runs_update. intros s3 Hr3 Hi3. destruct (recovered_section cfg o s3 Hi3) as (? & ? & Hsrc).
  split_and!; [done|done|]. set (Q := λ s, idle s ∧ sourced o (history s)).
  assert (lasting Q) as HQ.
  { intros x y Hxy [? ?]. split; [by eapply relyEvent_ack|by eapply relyEvent_sourced]. }
  assert (∀ x y, Q x → slot y = slot x → grows eventEntry (history x) (history y) → Q y) as Hframe.
  { intros x y [? ?] E Hg. split; [by eapply idle_section|]. eapply grows_sourced; [|done].
    eapply grows_weaken; [apply eventEntry_term|done]. }
  apply (eventProg_bind _ _ Q).
  { apply publish_runs; [done|done| |split; [by apply (relyEvent_ack _ _ Hr3)|done]].
    intros x Hx. eapply Hframe; [done|done|by apply grows_one]. }
  intros s4 Hi4 HQ4. apply runs_reading; [apply _|]. intros s5 Hr5 Hi5. apply (eventProg_bind _ _ Q).
  { apply reportRetained_runs; [done|done|by eapply HQ]. }
  intros s6 Hi6 [Hid6 Hsrc6]. apply scheduleOrQueue_idle; [by intros x [= <-]|done].
Qed.

(** ** Verdicts *)

Lemma holdAfterRefusal_runs o refused s : idle s → eventProg (holdAfterRefusal o refused) idle s.
Proof using.
  intros Hid. apply runs_locked. intros s1 Hr Hi. destruct (closeGate_section cfg o refused s1 Hi) as (? & ? & Hsl).
  assert (idle (closeGate o refused s1).2) as Hid1 by (eapply idle_section; [exact Hsl|]; by eapply relyEvent_ack).
  split_and!; [done|done|]. destruct (closeGate o refused s1).1; [|done_idle].
  apply eventProg_update; [apply idle_lasting|]. intros s2 Hr2 Hi2. destruct (dropPending_section cfg o s2 Hi2) as [? ?].
  split_and!; [done|done|]. apply (idle_section s2); [|by eapply relyEvent_ack].
  destruct (pending (work s2)); [|done]. by destruct (samePlan _ _).
Qed.

Lemma handleRenderGateCompleted_runs carried newest ok refused message c s :
  idle s → eventProg (handleRenderGateCompleted cfg carried newest ok refused message c) idle s.
Proof using.
  intros Hid. unfold handleRenderGateCompleted. destruct (inspectOccurrence _) as [o|]; [|done_idle].
  destruct (negb newest); [done_idle|]. apply runs_locked. intros s1 Hr Hi.
  destruct (verdict_section cfg o ok s1 Hi) as (? & ? & Hsl & Hrel).
  assert (idle (takeVerdict cfg o ok s1).2) as Hid1 by (eapply idle_section; [exact Hsl|]; by eapply relyEvent_ack).
  split_and!; [done|done|]. destruct (takeVerdict cfg o ok s1).1 as [| |[]]; [done_idle| | |done_idle].
  - apply (eventProg_bind _ _ idle); [by apply holdAfterRefusal_runs|]. intros. by apply renderFailed_runs.
  - destruct (Hrel eq_refl) as (Hlast & Hheld & Hpassed & Hplan). apply (eventProg_bind _ _ idlePassed).
    + apply dispatchRender_runs; [apply idlePassed_lasting| | |by split].
      { intros x y [? ?] E Hg. split; [by eapply idle_section|auto]. }
      intros x Hx. split_and!; [done|done|]. right. exists o. split; [done|].
      unfold samePlan in Hplan |- *. rewrite Hx in Hplan.
      destruct (lastRenderedOccurrence _) as [y|] eqn:Ey; [|done]. cbn in Hx. destruct (_ && _) eqn:Ev; [|done].
      injection Hx as <-. cbn. by rewrite Ev.
    + intros s2 Hi2 [Hid2 Hp2]. apply eventProg_update; [apply idle_lasting|]. intros s3 Hr3 Hi3.
      destruct Hr3 as (Hr3 & Ha3 & Hg3). destruct (accept_section cfg s3 Hi3) as [? ?].
      { by destruct (grows_gate _ _ Hg3) as (_ & -> & _). }
      split_and!; [done|done|]. apply (idle_section s3); [done|]. unfold idle. by rewrite Ha3.
Qed.

(** ** Pods, fallbacks and names *)

Lemma publishFleetCapabilities_runs es s : idle s → eventProg (publishFleetCapabilities cfg es) idle s.
Proof using.
  intros Hid. unfold publishFleetCapabilities. destruct (negb _); [done_idle|]. destruct (MinimumVersion _); [|done_idle].
  apply runs_locked. intros s1 Hr Hi. cbn [fst snd]. split_and!; [frame Hi|by split_and!|].
  pose proof (relyEvent_ack _ _ Hr Hid) as Hid1. destruct (negb _); [|done_idle].
  apply (eventProg_bind _ _ idle); [by apply publish_idle|]. intros. by apply publish_idle.
Qed.

Lemma performPodsDiscovered_runs es s : idle s → eventProg (performPodsDiscovered cfg es) idle s.
Proof using.
  intros Hid. apply runs_locked. intros s1 Hr Hi.
  destruct (retireOldPodSet_section cfg (podSetHash cfg es) s1 Hi) as [? ?].
  assert (idle (retireOldPodSet (podSetHash cfg es) s1).2) as Hid1.
  { apply (idle_section s1); [|by eapply relyEvent_ack]. unfold retireOldPodSet. by destruct (_ && _). }
  split_and!; [done|done|]. apply (eventProg_bind _ _ idle); [by apply publishFleetCapabilities_runs|].
  intros s2 Hi2 Hid2. apply (eventProg_bind _ _ idle).
  { destruct (retireOldPodSet _ s1).1; [by apply publish_idle|done_idle]. }
  intros s3 Hi3 Hid3. apply runs_locked. intros s4 Hr4 Hi4. cbn [fst snd]. pose proof (relyEvent_ack _ _ Hr4 Hid3) as Hid4.
  split_and!; [frame Hi4|by split_and!|]. destruct (lastValidatedOccurrence (renders s4)) as [o|] eqn:Ev.
  - case_bool_decide; [done_idle|]. apply scheduleOrQueue_idle; [|done].
    intros x [= <-]. destruct (inv_sources cfg s4 Hi4) as (Hval & _). by apply Hval.
  - apply eventProg_update; [apply idle_lasting|]. intros s5 Hr5 Hi5.
    assert (Inv cfg (set_retainedRetryAt None s5)) as Hi5' by frame Hi5.
    destruct (startRecovery_section cfg _ Hi5') as [? Hg]. split_and!; [done| |].
    + etrans; [|exact Hg]. by split_and!.
    + apply (idle_section s5); [|by eapply relyEvent_ack]. unfold startRecovery.
      destruct (negb _ || _ || _ || _); [done|]. by destruct (_ || _).
Qed.

Lemma handleValidationFailed_runs c s : idle s → eventProg (handleValidationFailed c) idle s.
Proof using.
  intros Hid. apply runs_reading; [apply _|]. intros s1 Hr Hi. pose proof (relyEvent_ack _ _ Hr Hid) as Hid1.
  destruct (lastValidatedOccurrence (renders s1)) as [o|] eqn:Ev; [|done_idle].
  destruct (currentEndpoints (renders s1)); [done_idle|]. apply scheduleOrQueue_idle; [|done].
  intros x [= <-]. destruct (inv_sources cfg s1 Hi) as (Hval & _). by apply Hval.
Qed.

(** ** Completions *)

(** The completion of [id] is accepted and the loop not yet told. *)
Definition owing (id : N) s : Prop := slot s = SlotAcknowledged id.

Lemma owing_lasting id : lasting (owing id).
Proof using.
  intros s s' (_ & Ha & _) Hs. unfold owing in *. rewrite Hs in Ha. cbn in Ha. destruct (slot s'); try done.
  by injection Ha as ->.
Qed.

Lemma signalCompleted_runs id s : owing id s → eventProg signalCompleted idle s.
Proof using.
  intros Hs. apply eventProg_update; [apply idle_lasting|]. intros s1 Hr Hi.
  by apply (signal_section cfg s1 Hi id), (owing_lasting id s).
Qed.

Lemma cacheDeploymentCompletion_runs event o id s :
  owing id s → eventProg (cacheDeploymentCompletion event o) (owing id) s.
Proof using.
  intros Hs. unfold cacheDeploymentCompletion. destruct (_ || _); [apply eventProg_ret; [apply owing_lasting|done]|].
  apply eventProg_update; [apply owing_lasting|]. intros s1 Hr Hi. pose proof (owing_lasting id _ _ Hr Hs) as Hs1.
  destruct (cache_section cfg event o s1 Hi) as [? ?]. split_and!; [done|done|]. unfold owing in *. cbn zeta.
  by destruct (_ && _).
Qed.

(** A section of the event goroutine that leaves the slot alone. *)
Lemma owing_update f id s :
  (∀ s1, Inv cfg s1 → Inv cfg (f s1) ∧ relyLoop s1 (f s1) ∧ slot (f s1) = slot s1) → owing id s →
  eventProg (update f) (owing id) s.
Proof using.
  intros Hf Hs. apply eventProg_update; [apply owing_lasting|]. intros s1 Hr Hi. destruct (Hf s1 Hi) as (? & ? & Hsl).
  split_and!; [done|done|]. unfold owing. rewrite Hsl. by apply (owing_lasting id s).
Qed.

Lemma handleDeploymentCompleted_runs event s :
  idle s → (∀ id, ce_deploymentID event = Some id → publishedID id (history s) = true) →
  eventProg (handleDeploymentCompleted cfg event) idle s.
Proof using.
  intros Hid Hpub. unfold handleDeploymentCompleted.
  destruct (inspectOccurrence (eventOccurrence (ce_occurrence event))) as [o|]; [|done_idle].
  apply runs_locked. intros s1 Hr Hi. destruct (retire_section cfg event o s1 Hi) as (? & ? & Hres).
  { by eapply relyEvent_ack. }
  { intros id Hid'. destruct Hr as (_ & _ & Hg). eapply grows_published; [exact Hg|]. by apply Hpub. }
  split_and!; [done|done|]. destruct (retireActiveDeployment event o s1).1 as [[[] occurrence]|];
    [destruct Hres as (id & Hown & _)..|done_idle].
  - by apply (signalCompleted_runs id).
  - apply (eventProg_bind _ _ (owing id)); [by apply cacheDeploymentCompletion_runs|]. intros s2 Hi2 Hown2.
    apply (eventProg_bind _ _ (owing id)); [|intros; by apply (signalCompleted_runs id)].
    destruct (_ && _); [apply owing_update; [|done]; intros x Hx; exact (failureRetry_section cfg event x Hx)|].
    destruct (_ && _); [apply owing_update; [|done]; intros x Hx; exact (followUp_section cfg event x Hx)|].
    destruct (_ && _); [apply owing_update; [|done]; intros x Hx; exact (dropRetries_section cfg x Hx)|].
    apply eventProg_ret; [apply owing_lasting|done].
Qed.

(** ** The rest *)

Lemma stopFailureRetries_runs s : idle s → eventProg stopFailureRetries idle s.
Proof using.
  intros Hid. apply eventProg_update; [apply idle_lasting|]. intros s1 Hr Hi.
  assert (Inv cfg (set_retryStopped true s1)) as Hi1 by frame Hi.
  destruct (dropRetries_section cfg _ Hi1) as (? & Hg & Hsl). split_and!; [done| |].
  - etrans; [|exact Hg]. by split_and!.
  - apply (idle_section s1); [by rewrite Hsl|]. by eapply relyEvent_ack.
Qed.

Lemma handleLostLeadership_runs s : idle s → eventProg handleLostLeadership idle s.
Proof using.
  intros Hid. apply eventProg_update; [apply idle_lasting|]. intros s1 Hr Hi.
  apply reset_section; [done|]. by apply (relyEvent_ack s).
Qed.

Lemma handleTick_runs s : idle s → eventProg (handleTick cfg) idle s.
Proof using.
  intros Hid. apply (eventProg_bind _ _ idle); [|intros; by apply maybeRecover_runs].
  apply runs_locked. intros s1 Hr Hi. destruct (timedOut_section cfg s1 Hi) as [? ?].
  assert (idle (timedOutDeployment cfg s1).2) as Hid1.
  { apply (idle_section s1); [|by eapply relyEvent_ack]. unfold timedOutDeployment. destruct (negb _); [done|].
    destruct (deploymentStartTime _); [|done]. by destruct (_ <=? _). }
  split_and!; [done|done|]. destruct (timedOutDeployment cfg s1).1 as [[id first]|]; [|done_idle].
  apply (eventProg_bind _ _ idle).
  - destruct id; [by apply publish_idle|done_idle].
  - intros s2 _ Hid2. destruct first; [by apply publish_idle|done_idle].
Qed.

Lemma handleEvent_runs event s :
  idle s → deliverable event (history s) = true → eventProg (handleEvent cfg event) idle s.
Proof using.
  intros Hid Hd. destruct event as [| template | | | | |completion|name namespace|]; cbn [handleEvent].
  - by apply handleTemplateRendered_runs.
  - destruct template as [[name namespace]|]; [|done_idle]. apply eventProg_update; [apply idle_lasting|].
    intros s1 Hr Hi. split_and!; [frame Hi|by split_and!|exact (relyEvent_ack s s1 Hr Hid)].
  - by apply handleRenderGateCompleted_runs.
  - by apply handleValidationFailed_runs.
  - by apply renderFailed_runs.
  - by apply performPodsDiscovered_runs.
  - apply handleDeploymentCompleted_runs; [done|]. intros id Hc. cbn in Hd. by rewrite Hc in Hd.
  - apply eventProg_update; [apply idle_lasting|].
    intros s1 Hr Hi. split_and!; [frame Hi|by split_and!|exact (relyEvent_ack s s1 Hr Hid)].
  - by apply handleLostLeadership_runs.
Qed.
End event.

(** ** The deploy loop, the retry callbacks and the drains keep the invariant *)

Section loop.
Context (cfg : Config).
Implicit Types s : Sched.

#[local] Ltac frame H := open_inv H; solve_inv.

(** ** The sections of the loop *)

(** The slot is the loop's, for a deployment it has not published yet. *)
Definition claimedBy (id : N) (published : bool) s : Prop :=
  slot s = SlotClaimed id published ∨ slot s = SlotLost id published.

Lemma relyLoop_free s s' : relyLoop s s' → slot s = SlotFree → slot s' = SlotFree.
Proof using. intros (Hm & _) E. by rewrite E in Hm. Qed.

Lemma relyLoop_claimed id s s' : relyLoop s s' → claimedBy id false s → claimedBy id false s'.
Proof using. intros (Hm & _) [E|E]; rewrite E in Hm; cbn in Hm; unfold claimedBy; naive_solver. Qed.

Lemma take_section s :
  Inv cfg s →
  let s' := set_dispatching (bool_decide (is_Some (pending (work s)))) (set_pending None s) in
  Inv cfg s' ∧ relyEvent s s' ∧ signalled s'.
Proof using. intros Hi s'. split_and!; [frame Hi|by split_and!|by left]. Qed.

Lemma newEvent_section dep s :
  Inv cfg s → slot s = SlotFree →
  let r := newEvent cfg dep s in
  Inv cfg r.2 ∧ relyEvent s r.2 ∧ slot r.2 = SlotFree
  ∧ ∀ id event, r.1 = Some (id, event) →
      (id < nextEventID (world r.2))%N ∧ publishedID id (history r.2) = false ∧ history r.2 = history s
      ∧ ∃ es n ns reason c b, event = DeploymentScheduled id (dep_occurrence dep) es n ns reason c b.
Proof using.
  intros Hi Hf r. subst r. unfold newEvent. destruct (resolveRuntimeConfigName cfg (renders s)) as [n ns].
  destruct (_ && _); cbn [fst snd]; [|split_and!; [done|reflexivity|done|done]].
  assert (publishedID (nextEventID (world s)) (history s) = false) as Hn.
  { destruct (publishedID _ _) eqn:E; [|done]. apply (inv_ids cfg s Hi) in E. lia. }
  split_and!.
  - open_inv Hi. unfold slotOk in Hslot. rewrite Hf in Hslot. constructor; unfold slotOk, gateOk, sourcesOk, retriesOk; cbn;
      try done; try (by split_and!); [by rewrite Hf|].
    intros id Hid. specialize (Hids id Hid). lia.
  - by split_and!.
  - done.
  - intros id event [= <- <-]. cbn. split_and!; [lia|done|done|]. by eauto 10.
Qed.

Lemma claim_section id dep s :
  Inv cfg s → slot s = SlotFree → (id < nextEventID (world s))%N → publishedID id (history s) = false →
  sourced (dep_occurrence dep) (history s) →
  let r := claimSlot cfg id dep s in
  Inv cfg r.2 ∧ relyEvent s r.2
  ∧ if r.1 then claimedBy id false r.2
               ∧ ∃ revision, HClaimed id (dep_occurrence dep) revision revision ∈ thisTerm (history r.2)
    else slot r.2 = SlotFree.
Proof using.
  intros Hi Hf Hlt Hn Hs r. subst r. unfold claimSlot. destruct (pendingRevisionCurrent s dep) eqn:Ec;
    cbn [fst snd]; [|split_and!; [done|reflexivity|done]].
  assert (dep_workRevision dep = workRevision (work s)) as Er.
  { unfold pendingRevisionCurrent in Ec. apply andb_true_iff in Ec as [[_ E]%andb_true_iff _]. by apply Z.eqb_eq. }
  set (e := HClaimed _ _ _ _). assert (grows termEntry (history s) (e :: history s)) as Hg by by apply grows_one.
  split_and!.
  - open_inv Hi. unfold slotOk in Hslot. rewrite Hf in Hslot. destruct Hslot as [_ Hopen].
    constructor; unfold slotOk, gateOk, sourcesOk, sourcedOption, retriesOk; cbn; try done; try (by split_and!).
    + by rewrite Hcomp, Hf.
    + split_and!; intros; (eapply grows_sourced; [exact Hg|]);
        [by apply Hval|by eapply Hacpt|by apply Hpend| |by apply Hdrain]. simplify_eq. done.
  - split_and!; try done; [by rewrite Hf|by apply grows_one].
  - by left.
  - exists (workRevision (work s)). cbn. apply elem_of_cons. left. subst e. by rewrite Er.
Qed.

Lemma clear_section id s :
  let s' := if bool_decide (activeDeploymentID (active s) = Some id)
            then set_slot SlotFree (onActive (λ _, noActive) s) else s in
  Inv cfg s → claimedBy id false s → Inv cfg s' ∧ relyEvent s s'.
Proof using.
  intros s' Hi Hc. subst s'. case_bool_decide; [|split; [done|reflexivity]]. open_inv Hi. unfold slotOk in Hslot.
  split; [|destruct Hc as [E|E]; rewrite E in *; (split_and!; [done|by rewrite E|done])].
  destruct Hc as [E|E]; rewrite E in *; [destruct Hslot as (_ & _ & _ & Ho & _)|destruct Hslot as (_ & _ & Ho & _)];
    solve_inv.
Qed.

Lemma publish_section id o es n ns reason c b s :
  let event := DeploymentScheduled id o es n ns reason c b in
  let s' := record (HPublished event)
    (match slot s with
     | SlotClaimed _ _ => set_slot (SlotClaimed id true) s
     | SlotLost _ _ => set_slot (SlotLost id true) s
     | _ => s
     end) in
  Inv cfg s → claimedBy id false s → (∃ revision, HClaimed id o revision revision ∈ thisTerm (history s)) →
  Inv cfg s' ∧ relyEvent s s' ∧ claimedBy id true s'.
Proof using.
  intros event s' Hi Hc Hcl. subst s'. assert (grows termEntry (history s) (HPublished event :: history s)) as Hg
    by by apply grows_one.
  assert ((id < nextEventID (world s))%N ∧ openDeployment (history s) = None ∧ publishedID id (history s) = false) as
    (Hlt & Ho & Hn).
  { pose proof (inv_slot cfg s Hi) as Hslot. unfold slotOk in Hslot. destruct Hc as [E|E]; rewrite E in Hslot; naive_solver. }
  assert (∀ x, publishedID x (HPublished event :: history s) = true → (x < nextEventID (world s))%N) as Hids'.
  { intros x. cbn. intros [Hx|Hx]%orb_true_iff; [apply N.eqb_eq in Hx; by subst|by apply (inv_ids cfg s Hi)]. }
  open_inv Hi. unfold slotOk in Hslot. destruct Hc as [E|E]; rewrite E in *; (split_and!;
    [|split_and!; [done|by rewrite E|by apply grows_one]|by (left + right)]);
    (constructor; unfold slotOk, gateOk, sourcesOk, sourcedOption, retriesOk; cbn; try done; try (by split_and!));
    try (split_and!; intros; (eapply grows_sourced; [exact Hg|]);
        [by apply Hval|by eapply Hacpt|by apply Hpend|by apply Hsched|by apply Hdrain]).
  - naive_solver.
  - destruct Hslot as (? & [_ ?] & _). split_and!; [done|done|by right|done].
Qed.

(** ** The loop *)

Lemma relyLoop_cancelled s s' : relyLoop s s' → cancelled (world s) = true → cancelled (world s') = true.
Proof using. intros (_ & _ & _ & _ & Hc). exact Hc. Qed.

Lemma freed_ret more s : freed more s → loopRuns cfg (mret more) s.
Proof using. intros Hf s1 Hr _. destruct more; [exact (relyLoop_free _ _ Hr Hf)|exact (relyLoop_cancelled _ _ Hr Hf)]. Qed.

(** The loop goes on unless it was told to stop. *)
Lemma freed_unless s : slot s = SlotFree → loopRuns cfg (mret (negb (cancelled (world s)))) s.
Proof using. intros Hf. apply freed_ret. by destruct (cancelled (world s)) eqn:E. Qed.

Lemma awaitCompletion_runs id s : claimedBy id true s → loopRuns cfg awaitCompletion s.
Proof using.
  intros Hc s1 Hr Hi. assert (∃ x, slot s1 = x ∧ (x = SlotClaimed id true ∨ x = SlotLost id true
    ∨ x = SlotAcknowledged id ∨ x = SlotSignalled id)) as (x & Hx & Hcases).
  { destruct Hr as (Hm & _). destruct Hc as [E|E]; rewrite E in Hm; cbn in Hm; naive_solver. }
  pose proof (inv_completed cfg s1 Hi) as Hdone. rewrite Hx in Hdone. split.
  - intros Hnone. destruct (completed (world s1)) eqn:Ec; [done|]. destruct (cancelled (world s1)) eqn:Eca; [done|].
    split; [done|]. right. exists id. rewrite Hx. destruct Hcases as [->|[->|[->| ->]]]; naive_solver.
  - intros b s2 [Hin|Hin]%elem_of_app.
    + destruct (completed (world s1)) eqn:Ec; [|by apply not_elem_of_nil in Hin].
      apply list_elem_of_singleton in Hin as [= -> ->]. assert (x = SlotSignalled id) as -> by (destruct Hcases as [->|[->|[->| ->]]]; done).
      split_and!.
      * open_inv Hi. unfold slotOk in Hslot. rewrite Hx in Hslot. solve_inv.
      * split_and!; try done. by rewrite Hx.
      * by apply freed_ret.
    + destruct (cancelled (world s1)) eqn:Ec; [|by apply not_elem_of_nil in Hin].
      apply list_elem_of_singleton in Hin as [= -> ->]. split_and!; [done|reflexivity|by apply freed_ret].
Qed.

Lemma isCancelled_runs {A} (k : bool → prog Sched A) Q s :
  (∀ s1, relyLoop s s1 → Inv cfg s1 → runs (Inv cfg) relyLoop relyEvent loopBlocked (k (cancelled (world s1))) Q s1) →
  runs (Inv cfg) relyLoop relyEvent loopBlocked (mbind k isCancelled) Q s.
Proof using. intros Hk. apply runs_reading; [apply _|]. intros s1 Hr Hi. by apply Hk. Qed.

Lemma dispatchPending_runs dep s :
  slot s = SlotFree → sourced (dep_occurrence dep) (history s) → loopRuns cfg (dispatchPending cfg dep) s.
Proof using.
  intros Hf Hs. apply isCancelled_runs. intros s1 Hr1 Hi1. destruct (cancelled (world s1)) eqn:Hc1; [by apply freed_ret|].
  pose proof (relyLoop_free _ _ Hr1 Hf) as Hf1. apply runs_locked. intros s2 Hr2 Hi2.
  pose proof (relyLoop_free _ _ Hr2 Hf1) as Hf2.
  destruct (newEvent_section dep s2 Hi2 Hf2) as (Hi3 & Hg3 & Hf3 & Hev). 
  split_and!; [done|done|]. set (r := newEvent cfg dep s2) in *. destruct r.1 as [[id event]|] eqn:Er.
  2: { apply isCancelled_runs. intros s4 Hr4 Hi4. apply freed_unless. by eapply relyLoop_free. }
  destruct (Hev id event eq_refl) as (Hlt & Hn & Hh & es & n & ns & reason & c & b & ->).
  apply runs_locked. intros s4 Hr4 Hi4. pose proof (relyLoop_free _ _ Hr4 Hf3) as Hf4.
  destruct (claim_section id dep s4 Hi4 Hf4) as (Hi5 & Hg5 & Hclaim).
  { destruct Hr4 as (_ & -> & _). done. }
  { destruct Hr4 as (_ & _ & Hg & _). by rewrite (grows_unpublished id _ _ Hg). }
  { apply relyLoop_callback in Hr4. eapply grows_sourced; [exact Hr4|]. rewrite Hh.
    apply relyLoop_callback in Hr2. eapply grows_sourced; [exact Hr2|]. apply relyLoop_callback in Hr1.
    by eapply grows_sourced. }
  split_and!; [done|done|]. destruct (claimSlot cfg id dep s4).1; cbn [negb].
  2: { apply isCancelled_runs. intros s6 Hr6 Hi6. apply freed_unless. by eapply relyLoop_free. }
  destruct Hclaim as (Hcl & revision & Hrev). apply isCancelled_runs. intros s6 Hr6 Hi6.
  destruct (cancelled (world s6)) eqn:Hc6.
  - apply runs_update. intros s7 Hr7 Hi7. destruct (clear_section id s7 Hi7) as [? ?].
    { eapply relyLoop_claimed; [exact Hr7|]. by eapply relyLoop_claimed. }
    split_and!; [done|done|]. apply freed_ret. pose proof (relyLoop_cancelled _ _ Hr7 Hc6). by case_bool_decide.
  - apply runs_update. intros s7 Hr7 Hi7.
    destruct (publish_section id (dep_occurrence dep) es n ns reason c b s7 Hi7) as (? & ? & ?).
    { eapply relyLoop_claimed; [exact Hr7|]. by eapply relyLoop_claimed. }
    { exists revision. eapply grows_entry; [by apply relyLoop_callback|].
      eapply grows_entry; [by apply relyLoop_callback|done]. }
    split_and!; [done|done|]. by apply (awaitCompletion_runs id).
Qed.

Lemma deployRound_runs s : slot s = SlotFree → loopRuns cfg (deployRound cfg) s.
Proof using.
  intros Hf. apply isCancelled_runs. intros s1 Hr1 Hi1. destruct (cancelled (world s1)) eqn:Hc1; [by apply freed_ret|].
  pose proof (relyLoop_free _ _ Hr1 Hf) as Hf1. apply runs_locked. intros s2 Hr2 Hi2.
  pose proof (relyLoop_free _ _ Hr2 Hf1) as Hf2. destruct (take_section s2 Hi2) as (Hi3 & Hg3 & Hsig). cbn [fst snd].
  split_and!; [done|done|]. destruct (pending (work s2)) as [dep|] eqn:Ep.
  - apply runs_bind; [apply _|]. eapply runs_mono.
    2: { apply dispatchPending_runs; [done|]. destruct (inv_sources cfg s2 Hi2) as (_ & _ & Hpend & _). by apply Hpend. }
    intros more s4 Hi4 Hfr. apply runs_update. intros s5 Hr5 Hi5. split_and!; [frame Hi5|by split_and!|].
    apply freed_ret. destruct more; [exact (relyLoop_free _ _ Hr5 Hfr)|exact (relyLoop_cancelled _ _ Hr5 Hfr)].
  - set (s3 := set_dispatching _ _) in *. intros s4 Hr4 Hi4. pose proof (relyLoop_free s3 _ Hr4 Hf2) as Hf4.
    destruct Hr4 as (_ & _ & _ & Hsig4 & _). specialize (Hsig4 Hsig). split.
    + intros Hnone. destruct (pendingSignal (world s4)) eqn:Es; [done|]. destruct (cancelled (world s4)) eqn:Ec; [done|].
      split; [done|]. left. split; [done|]. destruct Hsig4; congruence.
    + intros b s5 [Hin|Hin]%elem_of_app.
      * destruct (pendingSignal (world s4)); [|by apply not_elem_of_nil in Hin].
        apply list_elem_of_singleton in Hin as [= -> ->]. split_and!; [by apply pendingSignal_inv|by split_and!|].
        by apply freed_ret.
      * destruct (cancelled (world s4)) eqn:Ec; [|by apply not_elem_of_nil in Hin].
        apply list_elem_of_singleton in Hin as [= -> ->]. split_and!; [done|reflexivity|by apply freed_ret].
Qed.

Lemma deployLoopExit_runs s : cancelled (world s) = true → exitRuns cfg deployLoopExit s.
Proof using.
  intros Hc. apply runs_update. intros s1 Hr Hi. pose proof (relyLoop_cancelled _ _ Hr Hc) as Hc1.
  split_and!; [frame Hi|by split_and!|]. apply runs_last. intros s2 Hr2 Hi2.
  pose proof (relyLoop_cancelled _ _ Hr2 Hc1) as Hc2. split_and!; [frame Hi2|by split_and!|].
  intros s3 Hr3 _. exact (relyLoop_cancelled _ _ Hr3 Hc2).
Qed.

(** ** Callbacks *)

#[export] Instance quiet_reflexive : Reflexive quiet.
Proof. split; reflexivity. Qed.

Lemma runRetry_runs generation revision reason s : callbackRuns cfg (runRetry generation revision reason) s.
Proof using.
  assert (∀ s, callbackRuns cfg settleFollowUp s) as Hsettle.
  { intros x. apply runs_last. intros s1 Hr Hi.
    destruct (retryTimer (retries s1)); (split_and!; [frame Hi|split; by split_and!|done]). }
  apply runs_locked. intros s1 Hr Hi. unfold retryStands.
  destruct (negb (generation =? _)); cbn [fst snd]; [by split_and!; [|reflexivity|apply Hsettle]|].
  split_and!; [frame Hi|split; by split_and!|]. set (s2 := set_retryTimer None s1). clearbody s2.
  apply runs_bind; [apply _|]. eapply runs_mono; [intros ? ? _ _; apply Hsettle|].
  instantiate (1 := λ _ _, True). destruct (_ && _); [|done]. apply runs_reading; [apply _|]. intros s3 Hr3 Hi3.
  destruct (match pending (work s3) with Some dep => _ | None => _ end); [done|].
  apply runs_reading; [apply _|]. intros s4 Hr4 Hi4. destruct (cancelled (world s4)); [done|].
  apply runs_reading; [apply _|]. intros s5 Hr5 Hi5. cbn zeta.
  set (occurrence := if draining (work s3) then _ else _).
  assert (sourcedOption occurrence (history s5)) as Hsrc.
  { destruct (inv_sources cfg s3 Hi3) as (_ & _ & _ & _ & Hd3). destruct (inv_sources cfg s5 Hi5) as (Hv5 & _).
    subst occurrence. destruct (draining (work s3)); [|done]. intros x Hx. eapply grows_sourced; [exact Hr5|].
    eapply grows_sourced; [exact Hr4|]. by apply Hd3. }
  destruct (eventOccurrence occurrence) as [o|] eqn:Eo; [|done]. case_bool_decide; [done|].
  apply runs_last. intros s6 Hr6 Hi6.
  destruct (installPending_section cfg (mkScheduledDeployment revision generation o (currentEndpoints (renders s5))
    reason (lastCorrelationID (renders s5)) false) s6 Hi6) as [? ?]; [|by split_and!].
  eapply grows_sourced; [exact Hr6|]. apply Hsrc. destruct occurrence as [x|]; [|done]. cbn in Eo.
  by destruct (occ_authentic x).
Qed.

(** ** Drains *)

#[export] Instance drainGuar_reflexive : Reflexive drainGuar.
Proof. by split. Qed.

Lemma latchDrain_section s : Inv cfg s → Inv cfg (latchDrain s) ∧ drainGuar s (latchDrain s).
Proof using.
  intros Hi. unfold latchDrain. cbn [pending work set_drainOccurrence set_draining onWork].
  set (s1 := set_drainOccurrence _ _). assert (Inv cfg s1) as Hi1 by (frame Hi).
  assert (drainGuar s s1) as Hq1 by (split; [split; by split_and!|done]). change (pending (work s)) with (pending (work s1)).
  destruct (pending (work s1)); [|done]. destruct (drainAdmits s1 _); [done|].
  split; [by apply no_pending|]. split; [|done]. split; split_and!; try done. cbn. by left.
Qed.

Lemma drainRound_runs s : drainRuns cfg drainRound s.
Proof using.
  apply runs_reading; [apply _|]. intros s1 Hr Hi. destruct (_ && _); [done|]. intros s2 Hr2 Hi2. split.
  - intros E. by destruct (drainProgress (world s2)).
  - intros b s3 [Hin|Hin]%elem_of_app.
    + destruct (drainProgress (world s2)); [|by apply not_elem_of_nil in Hin].
      apply list_elem_of_singleton in Hin as [= -> ->]. split_and!; [frame Hi2|split; [split; by split_and!|done]|done].
    + apply list_elem_of_singleton in Hin as [= -> ->]. split_and!; [done|split; [split|]; reflexivity|done].
Qed.

Lemma Drain_runs s : drainRuns cfg Drain s.
Proof using.
  intros s1 Hr Hi. split; [done|]. intros b s2 Hin. apply elem_of_cons in Hin as [[= -> ->]|Hin].
  - destruct (latchDrain_section s1 Hi) as [? ?]. split_and!; [done|done|apply drainRound_runs].
  - apply list_elem_of_singleton in Hin as [= -> ->]. split_and!; [done|split; [split|]; reflexivity|done].
Qed.
End loop.
