(* ===== verification/SchedSafe.v ===== *)
(** * The invariant of the scheduler among its goroutines, and that they go on *)

From Stdlib Require Import ZArith Lia.
From stdpp Require Import base strings option list.
From S2P Require Import Prelude GoStd Threads SchedState Scheduler SchedSystem SchedInv SchedSections SchedRuns.

Open Scope Z_scope.

Section system.
Context (cfg : Config).
Implicit Types (s : Sched) (y : System).

#[local] Ltac frame H := open_inv H; solve_inv.

Definition loopOk (l : Loop) s : Prop :=
  match l with
  | LoopOff => cancelled (world s) = true
  | LoopRun p => loopRuns cfg p s
  | LoopExit p => exitRuns cfg p s
  end.

Definition stoppedOk y : Prop :=
  sys_phase y = Stopped →
  sys_event y = Ret tt ∧ sys_loop y = LoopOff ∧ sys_callbacks y = [] ∧ timers (world (sys_state y)) = [].

(** The state has its invariant and every goroutine goes on as it may. *)
Record sysInv y : Prop := {
  si_state : Inv cfg (sys_state y);
  si_event : eventRuns cfg (sys_event y) (sys_state y);
  si_loop : loopOk (sys_loop y) (sys_state y);
  si_callbacks : Forall (λ p, callbackRuns cfg p (sys_state y)) (sys_callbacks y);
  si_drains : Forall (λ p, drainRuns cfg p (sys_state y)) (sys_drains y);
  si_stopped : stoppedOk y }.

(** ** What the others do in between *)

Lemma eventRuns_rely p s s' : eventRuns cfg p s → relyEvent s s' → eventRuns cfg p s'.
Proof using. apply runs_rely, _. Qed.

Lemma loopOk_rely l s s' : loopOk l s → relyLoop s s' → loopOk l s'.
Proof using. destruct l; [intros Hc Hr; by eapply relyLoop_cancelled|apply runs_rely, _..]. Qed.

Lemma callbacks_rely ps s s' :
  Forall (λ p, callbackRuns cfg p s) ps → relyCallback s s' → Forall (λ p, callbackRuns cfg p s') ps.
Proof using. intros Hps Hr. eapply Forall_impl; [exact Hps|]. intros p Hp. by eapply runs_rely; [apply _|exact Hp|]. Qed.

Lemma drains_rely ps s s' :
  Forall (λ p, drainRuns cfg p s) ps → Forall (λ p, drainRuns cfg p s') ps.
Proof using. intros Hps. eapply Forall_impl; [exact Hps|]. intros p Hp. by eapply runs_rely; [apply _|exact Hp|]. Qed.

(** Something that no goroutine minds happened. *)
Lemma surroundings_inv y s' :
  sysInv y → Inv cfg s' → drainGuar (sys_state y) s' → sysInv (on_state (λ _, s') y).
Proof using.
  intros [Hi He Hl Hc Hd Hs] Hi' [[Hre Hrl] Ht]. constructor; cbn; [done|by eapply eventRuns_rely|by eapply loopOk_rely| | |].
  - eapply callbacks_rely; [exact Hc|]. by apply relyLoop_callback.
  - by eapply drains_rely.
  - unfold stoppedOk. cbn. rewrite Ht. exact Hs.
Qed.

(** The event goroutine takes something up. *)
Lemma handling_inv p y y' :
  sysInv y → (idle (sys_state y) → eventRuns cfg p (sys_state y)) → handling p y = Some y' → sysInv y'.
Proof using.
  intros [Hi He Hl Hc Hd Hs] Hp. unfold handling. destruct (sys_phase y) eqn:Eph; [done| |done].
  destruct (finished (sys_event y)) as [a|] eqn:Ef; [|done]. intros [= <-]. constructor; cbn; try done. apply Hp.
  exact (runs_finished _ _ _ _ _ _ _ _ Hi He Ef).
Qed.

Lemma event_step_inv y p s' :
  sysInv y → advance (sys_event y) 0 (sys_state y) = Some (p, s') →
  sysInv (mkSystem s' (sys_phase y) p (sys_loop y) (sys_callbacks y) (sys_drains y)).
Proof using.
  intros [Hi He Hl Hc Hd Hs] Ha. destruct (runs_advance _ _ _ _ _ _ _ _ _ _ Hi He Ha) as (Hi' & Hg & He').
  constructor; cbn; [done|done|by eapply loopOk_rely| |by eapply drains_rely|].
  - eapply callbacks_rely; [exact Hc|]. by apply relyLoop_callback.
  - intros Hph. destruct (Hs Hph) as (E & _). rewrite E in Ha. done.
Qed.

(** ** The loop, the callbacks and the drains go on *)

Lemma loop_moves y s' l :
  sysInv y → sys_loop y ≠ LoopOff → Inv cfg s' → relyEvent (sys_state y) s' → loopOk l s' →
  sysInv (mkSystem s' (sys_phase y) (sys_event y) l (sys_callbacks y) (sys_drains y)).
Proof using.
  intros [Hi He Hl Hc Hd Hs] Hoff Hi' Hg Hl'. constructor; cbn; [done|by eapply eventRuns_rely|done| |by eapply drains_rely|].
  - eapply callbacks_rely; [exact Hc|]. by apply relyEvent_callback.
  - intros Hph. by destruct (Hs Hph) as (_ & E & _).
Qed.

Lemma loopStep_inv i y y' : sysInv y → loopStep cfg i y = Some y' → sysInv y'.
Proof using.
  intros Hy. pose proof (si_loop y Hy) as Hl. pose proof (si_state y Hy) as Hi. unfold loopStep. cbn zeta.
  destruct (sys_loop y) as [|p|p] eqn:El; [done| |]; cbn in Hl; destruct (finished p) as [a|] eqn:Ef.
  - pose proof (runs_finished _ _ _ _ _ _ _ _ Hi Hl Ef) as Hq. cbn in Hq.
    destruct a; intros [= <-]; (apply loop_moves; [done|by rewrite El|done|reflexivity|]).
    + by apply deployRound_runs.
    + by apply deployLoopExit_runs.
  - destruct (advance p i (sys_state y)) as [[p' s']|] eqn:Ea; [|done]. intros [= <-].
    destruct (runs_advance _ _ _ _ _ _ _ _ _ _ Hi Hl Ea) as (? & ? & ?). apply loop_moves; [done|by rewrite El|done..].
  - pose proof (runs_finished _ _ _ _ _ _ _ _ Hi Hl Ef) as Hq. intros [= <-].
    by apply loop_moves; [done|rewrite El|..].
  - destruct (advance p i (sys_state y)) as [[p' s']|] eqn:Ea; [|done]. intros [= <-].
    destruct (runs_advance _ _ _ _ _ _ _ _ _ _ Hi Hl Ea) as (? & ? & ?). apply loop_moves; [done|by rewrite El|done..].
Qed.

Lemma callbacks_move y s' ps :
  sysInv y → sys_phase y ≠ Stopped → Inv cfg s' → quiet (sys_state y) s' → Forall (λ p, callbackRuns cfg p s') ps →
  sysInv (mkSystem s' (sys_phase y) (sys_event y) (sys_loop y) ps (sys_drains y)).
Proof using.
  intros [Hi He Hl Hc Hd Hs] Hph Hi' [Hre Hrl] Hps.
  constructor; cbn; [done|by eapply eventRuns_rely|by eapply loopOk_rely|done|by eapply drains_rely|done].
Qed.

Lemma callbackStep_inv n y y' : sysInv y → callbackStep n y = Some y' → sysInv y'.
Proof using.
  intros Hy. pose proof (si_callbacks y Hy) as Hc. pose proof (si_state y Hy) as Hi. unfold callbackStep. cbn zeta.
  destruct (sys_callbacks y !! n) as [p|] eqn:En; [|done].
  assert (sys_phase y ≠ Stopped) as Hph.
  { intros Hph. destruct (si_stopped y Hy Hph) as (_ & _ & E & _). by rewrite E in En. }
  pose proof (Forall_lookup_1 _ _ _ _ Hc En) as Hp. cbn in Hp. destruct (finished p).
  - intros [= <-]. apply callbacks_move; [done|done|done|reflexivity|]. by apply Forall_delete.
  - destruct (advance p 0 (sys_state y)) as [[p' s']|] eqn:Ea; [|done]. intros [= <-].
    destruct (runs_advance _ _ _ _ _ _ _ _ _ _ Hi Hp Ea) as (? & Hq & ?).
    apply callbacks_move; [done..|]. apply Forall_insert; [|done]. eapply callbacks_rely; [exact Hc|].
    by apply relyEvent_callback, Hq.
Qed.

Lemma drains_move y s' ps :
  sysInv y → Inv cfg s' → drainGuar (sys_state y) s' → Forall (λ p, drainRuns cfg p s') ps →
  sysInv (mkSystem s' (sys_phase y) (sys_event y) (sys_loop y) (sys_callbacks y) ps).
Proof using. intros Hy Hi' Hg Hps. destruct (surroundings_inv y s' Hy Hi' Hg). by constructor. Qed.

Lemma drainStep_inv n i y y' : sysInv y → drainStep n i y = Some y' → sysInv y'.
Proof using.
  intros Hy. pose proof (si_drains y Hy) as Hd. pose proof (si_state y Hy) as Hi. unfold drainStep. cbn zeta.
  destruct (sys_drains y !! n) as [p|] eqn:En; [|done].
  pose proof (Forall_lookup_1 _ _ _ _ Hd En) as Hp. cbn in Hp. destruct (finished p) as [[]|].
  - intros [= <-]. apply drains_move; [done|done|reflexivity|]. by apply Forall_delete.
  - intros [= <-]. apply drains_move; [done|done|reflexivity|]. apply Forall_insert; [done|]. apply drainRound_runs.
  - destruct (advance p i (sys_state y)) as [[p' s']|] eqn:Ea; [|done]. intros [= <-].
    destruct (runs_advance _ _ _ _ _ _ _ _ _ _ Hi Hp Ea) as (? & Hq & ?).
    apply drains_move; [done..|]. apply Forall_insert; [|done]. by eapply drains_rely.
Qed.

(** ** Steps *)

(** A new term: the goroutines of the old one are gone. *)
Lemma start_inv y :
  sysInv y → sys_phase y = Stopped →
  sysInv (mkSystem (beginTerm (sys_state y)) Running (Ret tt) (LoopRun (deployRound cfg)) (sys_callbacks y) (sys_drains y)).
Proof using.
  intros [Hi He Hl Hc Hd Hs] Hph. destruct (Hs Hph) as (Ee & _ & Ec & _). rewrite Ee in He.
  pose proof (runs_finished _ _ _ _ _ _ _ _ Hi He eq_refl) as Hid. pose proof (beginTerm_inv cfg _ Hi Hid) as Hi'.
  constructor; cbn; [done| | | |by eapply drains_rely|done].
  - intros s1 Hr _. by apply (relyEvent_ack _ s1) in Hr.
  - by apply deployRound_runs.
  - rewrite Ec. by constructor.
Qed.

Lemma join_inv y :
  sysInv y → finished (sys_event y) = Some tt → sys_loop y = LoopOff → sys_callbacks y = [] →
  timers (world (sys_state y)) = [] →
  sysInv (mkSystem (set_recovery None (cancelRetainedRecovery (sys_state y))) Stopped (Ret tt) LoopOff [] (sys_drains y)).
Proof using.
  intros Hy Ef El Ec Et. pose proof (si_state y Hy) as Hi.
  destruct (surroundings_inv y (set_recovery None (cancelRetainedRecovery (sys_state y))) Hy) as [Hi' He Hl _ Hd _];
    [frame Hi|by split; [split; split_and!|]|]. cbn in *. rewrite El in Hl.
  constructor; cbn; try done. destruct (sys_event y) as [[]|] eqn:E; [exact He|done].
Qed.

Lemma fire_inv y n t :
  sysInv y → timers (world (sys_state y)) !! n = Some t →
  sysInv (mkSystem (set_timers (delete n (timers (world (sys_state y)))) (sys_state y)) (sys_phase y) (sys_event y) (sys_loop y)
            (sys_callbacks y ++ [runRetry (timer_generation t) (timer_workRevision t) (timer_reason t)]) (sys_drains y)).
Proof using.
  intros Hy Ht. pose proof (si_state y Hy) as Hi. apply callbacks_move; [done| |frame Hi|by split; split_and!|].
  - intros Hph. destruct (si_stopped y Hy Hph) as (_ & _ & _ & E). by rewrite E in Ht.
  - apply Forall_app. split; [|by constructor; [apply runRetry_runs|constructor]].
    eapply callbacks_rely; [exact (si_callbacks y Hy)|]. apply grows_here.
Qed.

Lemma environment_inv f y :
  sysInv y → Inv cfg (f (sys_state y)) → drainGuar (sys_state y) (f (sys_state y)) → sysInv (on_state f y).
Proof using. intros Hy Hi Hg. exact (surroundings_inv y _ Hy Hi Hg). Qed.

Lemma sysStep_inv l y y' : sysInv y → sysStep cfg l y = Some y' → sysInv y'.
Proof using.
  intros Hy. pose proof (si_state y Hy) as Hi.
  destruct l as [|event| |result| |i|n|n| |n i| |elapsed| |]; cbn [sysStep].
  - destruct (sys_phase y) eqn:E; [|done..]. intros [= <-]. by apply start_inv.
  - destruct (deliverable _ _) eqn:E; [|done]. apply handling_inv; [done|]. intros Hid. by apply handleEvent_runs.
  - apply handling_inv; [done|]. apply handleTick_runs.
  - destruct (recovery _) as [[epoch podSet]|]; [|done]. apply handling_inv.
    + apply environment_inv; [done|frame Hi|by split; [split; split_and!|]].
    + intros Hid. by apply handleRetainedResult_runs.
  - destruct (advance _ _ _) as [[p s']|] eqn:Ea; [|done]. intros [= <-]. by apply event_step_inv.
  - by apply loopStep_inv.
  - destruct (_ !! n) as [t|] eqn:Et; [|done]. intros [= <-]. by apply fire_inv.
  - by apply callbackStep_inv.
  - intros [= <-]. apply drains_move; [done|done|reflexivity|]. apply Forall_app.
    split; [exact (si_drains y Hy)|]. constructor; [apply Drain_runs|constructor].
  - by apply drainStep_inv.
  - intros [= <-]. apply environment_inv; [done|frame Hi|by split; [split; split_and!|]].
  - destruct (0 <=? elapsed); [|done]. intros [= <-].
    apply environment_inv; [done|frame Hi|by split; [split; split_and!|]].
  - destruct (cancelled _); [|done]. destruct (handling _ y) as [y1|] eqn:Eh; [|done]. intros [= <-].
    destruct (handling_inv stopFailureRetries y y1 Hy) as [? ? ? ? ? Hst]; [apply stopFailureRetries_runs|done|].
    constructor; done.
  - destruct (sys_phase y) eqn:Eph; [done..|]. destruct (finished (sys_event y)) as [[]|] eqn:Ef; [|done].
    destruct (sys_loop y) eqn:El; [|done..]. destruct (sys_callbacks y) eqn:Ec; [|done].
    destruct (timers (world (sys_state y))) eqn:Et; [|done]. intros [= <-]. by apply join_inv.
Qed.

Lemma sysRun_inv ls y y' : sysInv y → sysRun cfg ls y = Some y' → sysInv y'.
Proof using.
  revert y. induction ls as [|l ls IH]; cbn; intros y Hy; [by intros [= <-]|].
  destruct (sysStep cfg l y) as [y1|] eqn:E; [|done]. apply IH. by eapply sysStep_inv.
Qed.

Lemma initial_inv : sysInv initialSystem.
Proof using.
  constructor; cbn; [by constructor| |done..].
  intros s1 (_ & Hack & _) _. by rewrite Hack.
Qed.

(** Whatever the scheduler can get to has the invariant. *)
Lemma reachable_inv y : reachable cfg y → sysInv y.
Proof using. induction 1 as [|l y y' _ IH Hs]; [exact initial_inv|by eapply sysStep_inv]. Qed.
End system.

(** ** Goroutines of the scheduler go on *)

Section live.
Context (cfg : Config).
Implicit Types (s : Sched) (y : System).

(** What the event goroutine has taken up it brings to an end, by itself. *)
Lemma event_alone y :
  sysInv cfg y →
  ∃ n s', sysRun cfg (replicate n LEvent) y
            = Some (mkSystem s' (sys_phase y) (Ret tt) (sys_loop y) (sys_callbacks y) (sys_drains y))
          ∧ relyLoop (sys_state y) s' ∧ idle s' ∧ Inv cfg s'.
Proof using.
  destruct y as [s ph p l cs ds]. cbn. revert s. induction p as [[]|B f k IH]; intros s Hy;
    pose proof (si_state cfg _ Hy) as Hi; pose proof (si_event cfg _ Hy) as He; cbn in Hi, He.
  - exists 0%nat, s. split_and!; [done|reflexivity| |done]. exact (He s (reflexivity s) Hi).
  - destruct (He s (reflexivity s) Hi) as [Hb Hk]. destruct (f s) as [|[b s1] rest] eqn:Ef; [by destruct (Hb eq_refl)|].
    assert (advance (Atomic f k) 0 s = Some (k b, s1)) as Ha by (cbn; by rewrite Ef).
    destruct (Hk b s1) as (_ & Hg & _); [by left|]. pose proof (event_step_inv cfg _ _ _ Hy Ha) as Hy1. cbn in Hy1.
    destruct (IH b s1 Hy1) as (n & s' & Hrun & Hr & Hid & Hi'). exists (S n), s'.
    split_and!; [|by etrans|done|done]. cbn [replicate sysRun sysStep sys_event sys_state]. rewrite Ha. exact Hrun.
Qed.

(** A retry callback goes on until it ends. *)
Lemma callback_steps y n : sysInv cfg y → is_Some (sys_callbacks y !! n) → is_Some (sysStep cfg (LCallback n) y).
Proof using.
  intros Hy [p En]. cbn. unfold callbackStep. rewrite En. destruct (finished p) eqn:Ef; [by eauto|].
  destruct p as [a|B f k]; [done|]. pose proof (Forall_lookup_1 _ _ _ _ (si_callbacks cfg y Hy) En) as Hp.
  destruct (Hp _ (reflexivity _) (si_state cfg y Hy)) as [Hb _]. cbn.
  destruct (f (sys_state y)) as [|[b s1] rest]; [by destruct (Hb eq_refl)|by eauto].
Qed.

(** Where the loop waits, if it cannot go on. *)
Lemma loop_waits y :
  sysInv cfg y → cancelled (world (sys_state y)) = false → (∀ i, sysStep cfg (LLoop i) y = None) →
  loopBlocked (sys_state y).
Proof using.
  intros Hy Hc Hno. pose proof (si_loop cfg y Hy) as Hl. pose proof (si_state cfg y Hy) as Hi.
  unfold sysStep, loopStep in Hno. destruct (sys_loop y) as [|p|p]; cbn in Hl; [congruence| |];
    (destruct (finished p) as [a|] eqn:Ef; [try destruct a; by specialize (Hno 0%nat)|]);
    pose proof (runs_blocked _ _ _ _ _ _ _ Hi Hl Ef) as Hb.
  - apply Hb. intros i. specialize (Hno i). by destruct (advance p i (sys_state y)) as [[]|].
  - exfalso. apply Hb. intros i. specialize (Hno i). by destruct (advance p i (sys_state y)) as [[]|].
Qed.

(** It goes on everywhere else. *)
Lemma loop_steps y :
  sysInv cfg y → sys_loop y ≠ LoopOff → (loopBlocked (sys_state y) → False) → is_Some (sysStep cfg (LLoop 0) y).
Proof using.
  intros Hy Hoff Hnb. pose proof (si_loop cfg y Hy) as Hl. pose proof (si_state cfg y Hy) as Hi.
  cbn [sysStep]. unfold loopStep. destruct (sys_loop y) as [|[[]|B f k]|[a|B f k]]; cbn in Hl |- *; try by eauto.
  - destruct (Hl _ (reflexivity _) Hi) as [Hb _]. destruct (f (sys_state y)) as [|[b s1] rest]; [by destruct Hnb, Hb|by eauto].
  - destruct (Hl _ (reflexivity _) Hi) as [Hb _]. destruct (f (sys_state y)) as [|[b s1] rest]; [by destruct Hb|by eauto].
Qed.

Lemma open_published id h : openDeployment h = Some id → publishedID id h = true.
Proof using.
  induction h as [|e h IH]; [done|]. destruct e as [|event| | | | | | | | | | |]; try done; try exact IH.
  destruct event; try exact IH. cbn. intros [= ->]. by rewrite N.eqb_refl.
Qed.

(** The completion of the deployment that owns the slot. *)
Definition completes (c : Completion) s : Prop :=
  ∃ o, inspectOccurrence (eventOccurrence (ce_occurrence c)) = Some o
       ∧ ce_deploymentID c = activeDeploymentID (active s)
       ∧ sameOccurrence (activeOccurrence (active s)) (Some o) = true.

Lemma completion_retires c o s id :
  ce_deploymentID c = Some id → deployInFlight (active s) = true → activeDeploymentID (active s) = Some id →
  sameOccurrence (activeOccurrence (active s)) (Some o) = true →
  slot (retireActiveDeployment c o s).2 = SlotAcknowledged id.
Proof using.
  intros Hid Hf Ha Hs. unfold retireActiveDeployment. rewrite Hid, Hf, Ha, Hs. by rewrite bool_decide_true.
Qed.

(** Its handler, run to its end, wakes the loop. *)
Lemma completion_wakes y c id :
  sysInv cfg y → sys_phase y = Running → finished (sys_event y) = Some tt → slot (sys_state y) = SlotClaimed id true →
  completes c (sys_state y) →
  ∃ n y', sysRun cfg (LDeliver (DeploymentCompletedEvent c) :: replicate n LEvent) y = Some y'
          ∧ slot (sys_state y') = SlotSignalled id ∧ sys_loop y' = sys_loop y.
Proof using.
  intros Hy Hph Hev Hsl (o & Ho & Hid & Hocc). pose proof (si_state cfg y Hy) as Hi.
  pose proof (inv_slot cfg _ Hi) as Hok. unfold slotOk in Hok. rewrite Hsl in Hok. destruct Hok as (Hf & Ha & _ & Hopen).
  rewrite Ha in Hid.
  assert (publishedID id (history (sys_state y)) = true) as Hpub by by apply open_published.
  set (y0 := mkSystem (sys_state y) Running (handleEvent cfg (DeploymentCompletedEvent c)) (sys_loop y)
               (sys_callbacks y) (sys_drains y)).
  assert (sysStep cfg (LDeliver (DeploymentCompletedEvent c)) y = Some y0) as Estep.
  { cbn [sysStep deliverable]. rewrite Hid, Hpub. unfold handling. by rewrite Hph, Hev. }
  assert (sysInv cfg y0) as Hy0 by by eapply sysStep_inv.
  set (r := retireActiveDeployment c o (sys_state y)). pose proof (completion_retires c o _ id Hid Hf Ha Hocc) as Hack.
  assert (∃ p, advance (sys_event y0) 0 (sys_state y0) = Some (p, r.2)) as [p Hp].
  { cbn [y0 sys_event handleEvent sys_state]. unfold handleDeploymentCompleted. rewrite Ho. cbn. fold r.
    rewrite (surjective_pairing r). by eauto. }
  destruct (event_alone _ (event_step_inv cfg _ _ _ Hy0 Hp)) as (n & s' & Hrun & (Hm & _) & Hidle & Hi').
  cbn in Hm. fold r in Hack. rewrite Hack in Hm. eexists (S n), _. split; [|split].
  - cbn [sysRun replicate]. rewrite Estep. cbn [sysStep]. rewrite Hp. exact Hrun.
  - cbn [sys_state]. destruct Hm as [E|E]; [|done]. unfold idle in Hidle. by rewrite E in Hidle.
  - done.
Qed.

Lemma event_idle y : sysInv cfg y → finished (sys_event y) = Some tt → acknowledged (slot (sys_state y)) = None.
Proof using. intros Hy Hev. exact (runs_finished _ _ _ _ _ _ _ _ (si_state cfg y Hy) (si_event cfg y Hy) Hev). Qed.

(** So the loop goes on. *)
Lemma completion_frees_loop y c id :
  sysInv cfg y → sys_phase y = Running → cancelled (world (sys_state y)) = false → finished (sys_event y) = Some tt →
  slot (sys_state y) = SlotClaimed id true → completes c (sys_state y) →
  ∃ n y', sysRun cfg (LDeliver (DeploymentCompletedEvent c) :: replicate n LEvent) y = Some y'
          ∧ is_Some (sysStep cfg (LLoop 0) y').
Proof using.
  intros Hy Hph Hc Hev Hsl Hcomp. destruct (completion_wakes y c id) as (n & y' & Hrun & Hs' & Hl'); [done..|].
  exists n, y'. split; [done|]. apply loop_steps.
  - by eapply sysRun_inv.
  - rewrite Hl'. intros E. pose proof (si_loop cfg y Hy) as Hl. rewrite E in Hl. cbn in Hl. congruence.
  - intros [_ [[E _]|(i & [E|[E|E]])]]; rewrite E in Hs'; done.
Qed.
End live.
