(* ===== verification/SchedClaims.v ===== *)
(** * What the deployment scheduler guarantees

    The properties of the scheduler among its goroutines, each with a run that
    shows it at work, and the runs behind its findings. *)

From Stdlib Require Import ZArith Lia.
From stdpp Require Import base strings option list.
From S2P Require Import Prelude GoStd Threads SchedState Scheduler SchedSystem SchedInv SchedSafe.

Open Scope Z_scope.

(** ** Example runs *)

Definition exampleConfig (retention : bool) : Config :=
  mkConfig (λ m, m) (λ m, m) (λ n, n) (2 * second) (30 * second) retention false.

Definition exampleRender (n : N) (plan : string) : Occurrence := mkOccurrence n true true true plan plan n.

Definition examplePod : Endpoint :=
  mkEndpoint "http://10.0.0.1" "admin" "secret" "haproxy-0" "default" "uid-0" "run-0" 3 1 "3.1.2".

(** An event is taken up and its handler makes [n] steps. *)
Definition handled (e : Event) (n : nat) : list Label := LDeliver e :: replicate n LEvent.

Definition podsFound : list Label := handled (HAProxyPodsDiscoveredEvent [examplePod]) 3.

Definition renderArrives (n : N) (plan : string) (steps : nat) : list Label :=
  handled (TemplateRenderedEvent (Some (exampleRender n plan)) "config_change" "c" false) steps.

Definition gateDecides (n : N) (plan : string) (ok : bool) (steps : nat) : list Label :=
  handled (RenderGateCompletedEvent (Some (exampleRender n plan)) true ok (negb ok) "" "c") steps.

Definition exampleCompletion (id n : N) (plan : string) (failed : Z) : Completion :=
  mkCompletion (Some (exampleRender n plan)) (Some id) 1 failed 0 "pods" None.

(** A term with pods whose first render is in the loop's hands or published. *)
Definition deployed : list Label := [LStart] ++ podsFound ++ renderArrives 1 "p" 6 ++ replicate 7 (LLoop 0).

Definition after (cfg : Config) (ls : list Label) : System := default initialSystem (sysRun cfg ls initialSystem).

Lemma after_reachable cfg ls : reachable cfg (after cfg ls).
Proof.
  unfold after. destruct (sysRun cfg ls initialSystem) as [y|] eqn:E; [|apply reachable_initial].
  eapply reachable_run; [apply reachable_initial|exact E].
Qed.

Definition deploys (e : Happened) : option (N * string) :=
  match e with HPublished (DeploymentScheduled id o _ _ _ _ _ _) => Some (id, occ_planID o) | _ => None end.

(** ** One deployment at a time *)

(** A deployment that claimed the slot has a source. *)
Lemma claimed_sourced cfg h id o r : goodHistory cfg h → HClaimed id o r r ∈ thisTerm h → sourced o h.
Proof.
  induction h as [|e h IH]; [intros _ []%not_elem_of_nil|]. intros [He Hh].
  assert (e = HTerm ∨ termEntry e = true) as [->|Ht] by (destruct e; auto); [by intros []%not_elem_of_nil|].
  intros Hin. apply (grows_sourced o h); [by apply grows_one|].
  assert (HClaimed id o r r = e ∨ HClaimed id o r r ∈ thisTerm h) as [<-|Hin'] by
    (destruct e; try done; by apply elem_of_cons in Hin).
  - by destruct He as (_ & _ & _ & ?).
  - by apply IH.
Qed.

(** C11: One deployment at a time. In every run of the scheduler's goroutines, a
    deployment is published only when none of the term is open, under an
    identifier never used before, after it claimed the slot with the newest
    revision of the work, and for a render that was promoted or recovered in this
    term. A completion is accepted only for the open deployment; and a deployment
    in flight that was published is the open one. *)
Theorem single_deployment cfg y :
  reachable cfg y →
  (∀ later past id o es n ns reason c b,
     history (sys_state y) = later ++ HPublished (DeploymentScheduled id o es n ns reason c b) :: past →
     openDeployment past = None ∧ publishedID id past = false ∧ sourced o past
     ∧ ∃ revision, HClaimed id o revision revision ∈ thisTerm past)
  ∧ (∀ later past id, history (sys_state y) = later ++ HAccepted id :: past → openDeployment past = Some id)
  ∧ (∀ id, openDeployment (history (sys_state y)) = Some id → deployInFlight (active (sys_state y)) = true →
           activeDeploymentID (active (sys_state y)) = Some id).
Proof.
  intros Hy%reachable_inv. pose proof (si_state cfg y Hy) as Hi. pose proof (inv_history cfg _ Hi) as Hh. split_and!.
  - intros later h id o es n ns reason c b E. rewrite E in Hh. destruct (goodHistory_entry _ _ _ _ Hh) as (? & ? & r & Hr).
    split_and!; [done|done| |by exists r]. apply (claimed_sourced cfg _ id _ r); [|done]. by eapply goodHistory_past.
  - intros later h id E. rewrite E in Hh. exact (goodHistory_entry _ _ _ _ Hh).
  - intros id Ho Hf. pose proof (inv_slot cfg _ Hi) as Hs. unfold slotOk in Hs.
    destruct (slot (sys_state y)) as [|id' []|id' []|id'|id']; naive_solver congruence.
Qed.

(** Two renders one after the other; the second deployment is published after the
    first one completed. *)
Lemma single_deployment_witness :
  let y := after (exampleConfig false)
             (deployed ++ renderArrives 2 "q" 6 ++ handled (DeploymentCompletedEvent (exampleCompletion 0 1 "p" 0)) 4
              ++ replicate 10 (LLoop 0)) in
  omap deploys (history (sys_state y)) = [(1%N, "q"%string); (0%N, "p"%string)]
  ∧ openDeployment (history (sys_state y)) = Some 1%N ∧ activeDeploymentID (active (sys_state y)) = Some 1%N
  ∧ openDeployment (drop 1 (history (sys_state y))) = None.
Proof.
  intros y. destruct (single_deployment (exampleConfig false) y (after_reachable _ _)) as (Hpub & _ & Hact).
  assert (openDeployment (history (sys_state y)) = Some 1%N) as Ho by (vm_compute; reflexivity).
  split_and!; [vm_compute; reflexivity|exact Ho|apply Hact; [exact Ho|vm_compute; reflexivity]|].
  eapply (Hpub []). vm_compute. reflexivity.
Defined.

(** ** A render that is held is not deployed *)

(** C13: A held render waits. In every run, a render is promoted to be deployed only
    while the render gate does not hold (no refusal since it last opened), with
    retention only after the gate passed a render since the state was reset, and
    only right after it arrived unheld or the gate passed its plan and opened. The
    scheduler's latch is exactly the gate's state in the history. *)
Theorem held_render_waits cfg y :
  reachable cfg y →
  gatePinned (renders (sys_state y)) = gateHeld (history (sys_state y))
  ∧ ∀ later past o,
      history (sys_state y) = later ++ HPromoted o :: past →
      gateHeld past = false ∧ (retainedEnabled cfg = true → gatePassed past = true)
      ∧ (lastGate past = Some (HRendered o false)
         ∨ ∃ verdict, lastGate past = Some (HPassed verdict true) ∧ samePlan (Some o) (Some verdict) = true).
Proof.
  intros Hy%reachable_inv. pose proof (si_state cfg y Hy) as Hi. split; [by destruct (inv_gate cfg _ Hi)|].
  intros later past o E. pose proof (inv_history cfg _ Hi) as Hh. rewrite E in Hh. exact (goodHistory_entry _ _ _ _ Hh).
Qed.

(** With retention the first render waits for the gate and is promoted once it
    passes. *)
Lemma held_render_waits_witness :
  let start := [LStart] ++ podsFound ++ renderArrives 1 "p" 2 in
  let held := after (exampleConfig true) start in
  let y := after (exampleConfig true) (start ++ gateDecides 1 "p" true 6) in
  lastValidatedOccurrence (renders (sys_state held)) = None
  ∧ head (history (sys_state y)) = Some (HPromoted (exampleRender 1 "p"))
  ∧ gatePassed (drop 1 (history (sys_state y))) = true
  ∧ gatePinned (renders (sys_state y)) = false.
Proof.
  intros start held y. destruct (held_render_waits (exampleConfig true) y (after_reachable _ _)) as [Hpin Hprom].
  split_and!; [vm_compute; reflexivity|vm_compute; reflexivity| |].
  - eapply (Hprom []); [vm_compute; reflexivity|reflexivity].
  - rewrite Hpin. vm_compute. reflexivity.
Defined.

(** ** No goroutine is stuck *)

(** C12: The scheduler never stalls. In every run, what the event goroutine has taken
    up it brings to an end by itself, and a callback of the retry timer always goes
    on. While the term is not cancelled and the event goroutine waits for events,
    the deploy loop is kept waiting only with nothing pending and no deployment in
    flight; or by the deployment in flight, which it published, and then the
    completion of that deployment, once handled, lets the loop go on; or by a
    deployment it published before the state of the term was reset. *)
Theorem scheduler_never_stalls cfg y :
  reachable cfg y → sys_phase y = Running →
  (∃ n y', sysRun cfg (replicate n LEvent) y = Some y' ∧ finished (sys_event y') = Some tt)
  ∧ (∀ n, is_Some (sys_callbacks y !! n) → is_Some (sysStep cfg (LCallback n) y))
  ∧ (cancelled (world (sys_state y)) = false → finished (sys_event y) = Some tt →
     (∀ i, sysStep cfg (LLoop i) y = None) →
     (pending (work (sys_state y)) = None ∧ deployInFlight (active (sys_state y)) = false)
     ∨ (∃ id, deployInFlight (active (sys_state y)) = true ∧ activeDeploymentID (active (sys_state y)) = Some id
              ∧ openDeployment (history (sys_state y)) = Some id
              ∧ ∀ c, completes c (sys_state y) →
                     ∃ n y', sysRun cfg (LDeliver (DeploymentCompletedEvent c) :: replicate n LEvent) y = Some y'
                             ∧ is_Some (sysStep cfg (LLoop 0) y'))
     ∨ (∃ id, deployInFlight (active (sys_state y)) = false ∧ openDeployment (history (sys_state y)) = Some id
              ∧ HReset ∈ thisTerm (history (sys_state y)))).
Proof.
  intros Hy%reachable_inv Hph. split_and!.
  - destruct (event_alone cfg y Hy) as (n & s' & Hrun & _). by eauto.
  - intros n. by apply callback_steps.
  - intros Hc Hev Hno. destruct (loop_waits cfg y Hy Hc Hno) as [_ Hwait]. pose proof (event_idle cfg y Hy Hev) as Hidle.
    pose proof (inv_slot cfg _ (si_state cfg y Hy)) as Hs. unfold slotOk in Hs.
    destruct Hwait as [[E ?]|(id & [E|[E|E]])]; rewrite E in Hs.
    + left. by destruct Hs.
    + right. left. exists id. destruct Hs as (? & ? & _ & ?). split_and!; [done..|]. intros c Hcomp.
      by apply (completion_frees_loop cfg y c id).
    + right. right. exists id. by destruct Hs as (? & [_ ?] & ?).
    + by rewrite E in Hidle.
Qed.

(** The loop waits for the deployment it published, and goes on after its
    completion. *)
Lemma scheduler_never_stalls_witness :
  let y := after (exampleConfig false) deployed in
  (∀ i, sysStep (exampleConfig false) (LLoop i) y = None)
  ∧ ∃ n y', sysRun (exampleConfig false)
              (LDeliver (DeploymentCompletedEvent (exampleCompletion 0 1 "p" 0)) :: replicate n LEvent) y = Some y'
            ∧ is_Some (sysStep (exampleConfig false) (LLoop 0) y').
Proof.
  intros y. assert (∀ i, sysStep (exampleConfig false) (LLoop i) y = None) as Hno by (intros [|i]; vm_compute; reflexivity).
  split; [exact Hno|].
  destruct (scheduler_never_stalls (exampleConfig false) y (after_reachable _ _)) as (_ & _ & Hloop);
    [vm_compute; reflexivity|].
  destruct Hloop as [[_ E]|[(id & _ & _ & _ & Hc)|(id & E & _)]];
    [vm_compute; reflexivity|vm_compute; reflexivity|exact Hno|vm_compute in E; discriminate E| |vm_compute in E; discriminate E].
  apply Hc. exists (exampleRender 1 "p"). split_and!; vm_compute; reflexivity.
Defined.

(** ** Retries are bounded *)

(** C40: Retries are bounded. In every run, the retries of a render that fails to
    deploy are numbered from one without gaps since the budget was last reset, and
    there are at most five of them; each waits a positive time of at most a
    minute, whatever the configured interval. A follow-up of a pending reload waits
    at least a quarter of a second and at most a minute. *)
Theorem retries_bounded cfg y :
  reachable cfg y →
  (∀ later past o attempt wait,
     history (sys_state y) = later ++ HRetry o attempt wait :: past →
     attempt = attemptsOf o past + 1 ∧ 1 <= attempt <= maxDeployFailureRetries ∧ 0 < wait <= maxFailureRetryBackoff)
  ∧ (∀ later past wait,
       history (sys_state y) = later ++ HFollowUp wait :: past →
       pendingReloadFollowUpMargin <= wait <= maxFailureRetryBackoff).
Proof.
  intros Hy%reachable_inv. pose proof (inv_history cfg _ (si_state cfg y Hy)) as Hh.
  split; [intros later past o attempt wait E|intros later past wait E]; rewrite E in Hh; exact (goodHistory_entry _ _ _ _ Hh).
Qed.

(** A deployment fails, its retry fires and fails again. *)
Lemma retries_bounded_witness :
  let failed id := handled (DeploymentCompletedEvent (exampleCompletion id 1 "p" 1)) 4 in
  let y := after (exampleConfig false)
             (deployed ++ failed 0%N ++ replicate 5 (LLoop 0) ++ [LFire 0] ++ replicate 7 (LCallback 0)
              ++ replicate 9 (LLoop 0) ++ failed 1%N) in
  head (history (sys_state y)) = Some (HRetry (exampleRender 1 "p") 2 (4 * second))
  ∧ attemptsOf (exampleRender 1 "p") (drop 1 (history (sys_state y))) + 1 = 2 ∧ 4 * second <= maxFailureRetryBackoff.
Proof.
  intros failed y. destruct (retries_bounded (exampleConfig false) y (after_reachable _ _)) as [Hretry _].
  assert (history (sys_state y) = [] ++ HRetry (exampleRender 1 "p") 2 (4 * second) :: drop 1 (history (sys_state y))) as E
    by (vm_compute; reflexivity).
  destruct (Hretry _ _ _ _ _ E) as (Ha & _ & _ & Hw). split_and!; [vm_compute; reflexivity|by rewrite <-Ha|exact Hw].
Defined.

(** ** Races the scheduler allows *)

(** A drain that latches the last dispatched plan while the loop already holds
    another one: the other plan is published all the same. *)
Lemma drain_dispatches_other_plan :
  let y := after (exampleConfig false)
             (deployed ++ renderArrives 2 "q" 6 ++ handled (DeploymentCompletedEvent (exampleCompletion 0 1 "p" 0)) 4
              ++ replicate 7 (LLoop 0) ++ [LDrainCall; LDrain 0 0] ++ replicate 3 (LLoop 0)) in
  draining (work (sys_state y)) = true ∧ drainOccurrence (work (sys_state y)) = Some (exampleRender 1 "p")
  ∧ omap deploys (history (sys_state y)) = [(1%N, "q"%string); (0%N, "p"%string)].
Proof. split_and!; vm_compute; reflexivity. Qed.

(** A render the gate refuses while the loop already holds it: nothing is pending
    that the refusal could drop, and the render is published after it. *)
Lemma refused_render_dispatched :
  let refused := [LStart] ++ podsFound ++ renderArrives 1 "p" 6 ++ replicate 2 (LLoop 0) ++ gateDecides 1 "p" false 5 in
  let before := after (exampleConfig false) refused in
  let y := after (exampleConfig false) (refused ++ replicate 5 (LLoop 0)) in
  finished (sys_event before) = Some tt ∧ gateHeld (history (sys_state before)) = true
  ∧ omap deploys (history (sys_state before)) = []
  ∧ omap deploys (history (sys_state y)) = [(0%N, "p"%string)].
Proof. split_and!; vm_compute; reflexivity. Qed.

(** A retry that read the last validated render before a refusal rolled it back:
    it installs the refused render after the refusal and the loop publishes it. *)
Lemma retry_dispatches_refused_render :
  let refused := deployed ++ gateDecides 1 "p" true 1 ++ renderArrives 2 "q" 6
                 ++ handled (DeploymentCompletedEvent (exampleCompletion 0 1 "p" 0)) 4 ++ replicate 10 (LLoop 0)
                 ++ handled (DeploymentCompletedEvent (exampleCompletion 1 2 "q" 1)) 4 ++ replicate 5 (LLoop 0)
                 ++ [LFire 0] ++ replicate 4 (LCallback 0) ++ gateDecides 2 "q" false 5 in
  let before := after (exampleConfig false) refused in
  let y := after (exampleConfig false) (refused ++ replicate 3 (LCallback 0) ++ replicate 9 (LLoop 0)) in
  lastValidatedOccurrence (renders (sys_state before)) = Some (exampleRender 1 "p")
  ∧ gateHeld (history (sys_state before)) = true
  ∧ omap deploys (history (sys_state before)) = [(1%N, "q"%string); (0%N, "p"%string)]
  ∧ omap deploys (history (sys_state y)) = [(2%N, "q"%string); (1%N, "q"%string); (0%N, "p"%string)].
Proof. split_and!; vm_compute; reflexivity. Qed.
